(* ===== verification/_CoqProject ===== *)
-Q . S2P
Prelude.v
RustStd.v
RustText.v
MerkleTree.v
EntryType.v
Wire.v
CanonicalJson.v
Tree.v
Manifest.v
Commit.v
Disk.v
Checkpoint.v
TilePaths.v
LogMerkle.v
TileLog.v
TileStore.v
TileSessionSpec.v
TileCrash.v
TileAppend.v
TileMaterialize.v
SeriesMerkle.v
SeriesLeaf.v
TableLeaf.v
TableRows.v
SeriesManifest.v
SeriesPack.v
PackLayout.v
PackCover.v
PackBuilder.v
TablePack.v
Capsule.v
CapsuleStream.v
CapsuleTable.v
CapsuleVerify.v
CapsuleIncremental.v
PatriciaMap.v
PatriciaTree.v
PatriciaEditor.v
Limiter.v
LimiterBudget.v
Checksum.v
PackKeys.v
QueryStats.v
QueryChange.v
QuerySnapshot.v
Glob.v
Publication.v
RemoteStore.v
RemoteObjects.v
RemotePacks.v
RemoteCapsule.v
RemoteGc.v
RemoteInvariant.v
RemoteRules.v
RemoteWriters.v
RemoteCapsuleWriters.v
RemotePublish.v
RemoteCollect.v
RemoteSafety.v
RemoteProgress.v
RecoveryRecipe.v
TinyFs.v
TinyFsSpec.v
PullRenames.v
PullGraph.v
PullChain.v
PullWindow.v
PullSeries.v
PullSeriesSpec.v
PullFetch.v
PullPlan.v
PullApply.v
PullWritten.v
PullMaterialized.v
PullView.v
PullApplySpec.v
PullStages.v
PullConverge.v
PullResult.v
