(* ===== verification/Prelude.v ===== *)
(** * Watertown: content-addressed replication, transparency log and planning

    Watertown keeps a "pond", a versioned file system of directories, files and
    time series, and replicates it.  [crates/sync-store] turns a pond into
    content-addressed objects (trees, records of an identity map, commits,
    series) and keeps the spine of commits in an RFC 6962 transparency log;
    [crates/steward] runs transactions, replication and rate limits around it;
    [crates/query-foundation] plans queries over immutable chunks;
    [crates/tinyfs] and [crates/utilities] hold the shared file-system types and
    glob patterns.  This library models the parts whose correctness does not
    rest on a database engine, and proves what makes them correct.

    ** Which file models which part

    - [RustStd], [RustText]: the standard library the code uses (stable sorting
      by a comparator, [dedup], UTF-8 validation, decimal texts, lines, trimming).
    - [EntryType]: [tinyfs/src/entry_type.rs].
    - [Wire]: [sync-store/src/content/mod.rs], object hashes, length-prefixed
      framing and the cursor; its second half is the vocabulary in which every
      decoder is specified.
    - [CanonicalJson], [SeriesLeaf], [TableLeaf], [TableRows]:
      [content/series_leaf.rs], attributes, leaf hashes, the incremental hashers,
      and the canonical encoding of Arrow schemas and rows.
    - [Tree]: [content/tree.rs].  [Manifest]: [content/manifest.rs] and the records
      of [content/manifest_map.rs].  [Commit]: [content/commit.rs] and
      [content/protocol.rs].
    - [PatriciaMap], [PatriciaTree], [PatriciaEditor]: [content/manifest_map.rs], the
      persistent identity map: nodes, the pure tree they describe, and the editor
      with its node store and cache.
    - [MerkleTree]: the abstract RFC 6962 tree both Merkle components refine.
      [SeriesMerkle]: [content/series_merkle.rs].  [SeriesManifest]:
      [content/series_manifest.rs].
    - [SeriesPack], [PackLayout], [PackCover]: [content/series_pack.rs], the index of
      a pack with its codec and verification, the contract of its object spans,
      and the choice of packs.  [PackBuilder], [TablePack]:
      [content/series_pack_builder.rs], for file and for table leaves.
    - [Capsule], [CapsuleStream], [CapsuleTable], [CapsuleVerify],
      [CapsuleIncremental]: [content/capsule.rs], the manifest of a recovery capsule,
      the streams of its files and tables, and full and incremental verification.
    - [LogMerkle]: [tlog/merkle.rs] and [tlog/mod.rs].  [Checkpoint]:
      [tlog/checkpoint.rs].
    - [Disk], [TilePaths], [TileLog]: [tlog/tiles.rs], the log directory with the
      states a crash can leave, tile names, and the session, flush, publication
      and whole-tree writer.  [TileStore], [TileSessionSpec], [TileCrash],
      [TileAppend], [TileMaterialize] hold its proofs.
    - [Limiter], [LimiterBudget]: [steward/src/limiter.rs],
      [steward/src/limiter_usage.rs] and the policies of
      [provider/src/factory/rate_limit/mod.rs].
    - [Checksum]: [sync-store/src/checksum].  [PackKeys]: [sync-store/src/pack_keys.rs].
    - [Publication]: [sync-store/src/publication.rs].
    - [RemoteStore], [RemoteObjects], [RemotePacks], [RemoteCapsule],
      [RemoteGc]: [sync-store/src/content_remote.rs], the object store and the
      programs that use it, the keys, payloads with their receipts, packs,
      records and recipes, capsule generations, and garbage collection.
      [RemoteInvariant] is the state's invariant and what one request may change,
      [RemoteRules], [RemoteWriters], [RemoteCapsuleWriters],
      [RemotePublish] and [RemoteCollect] prove each operation against them, and
      [RemoteSafety] puts any number of clients together.  [RemoteProgress] follows a
      client that is alone.
    - [RecoveryRecipe]: [sync-store/src/recovery_recipe.rs].
    - [QueryStats], [QueryChange], [QuerySnapshot]: [query-foundation/src]
      ([statistics.rs] and chunk selection of [provider.rs]; [frontier.rs] and
      [locality.rs]; [snapshot.rs] and [overlap.rs]).
    - [Glob]: [utilities/src/glob.rs].
    - [TinyFs]: [tinyfs/src/path.rs], [node.rs], [wd.rs], [symlink.rs] and the memory
      back end of its directories, the namespace; [TinyFsSpec] its proofs.
    - [steward/src/content_source.rs] and [steward/src/content_pull.rs], the
      consumer's side of replication, in the order of a pull: [PullGraph] (the
      source, the fetched graph and the checked reads), [PullChain] (publication
      records and commits), [PullWindow] (the authenticated window and its
      narrowing), [PullSeries] (fetching, extending and planning series),
      [PullFetch] (the manifest, the trees, the whole fetch), [PullPlan] with
      [PullRenames] (the effective manifest, the diff and its operations), and
      [PullApply] (the pack objects, the series writer and the application to the
      namespace).  [PullSeriesSpec], [PullWritten] and [PullMaterialized] prove
      series from the fetch to the written versions; [PullView] says when a
      namespace represents a manifest, [PullApplySpec], [PullStages] and
      [PullConverge] follow a plan through it, and [PullResult] puts planning and
      application together.

    ** How the code is modelled

    A Rust [Result] is [outcome], whose [Panic] stands for panics (overflow in
    checked builds, slice bounds, [unwrap], [clamp] on an empty range).  Integers
    are [Z] with their width checked or wrapped where the code does so; byte
    strings are lists of bytes.  [&mut self] methods return the new state.
    Loops that are not structural take fuel, and every theorem is about runs in
    which the fuel suffices by proof: [split_loop] 64 doublings of a 64-bit
    size, the verifier loops 65 levels, [MAP_DEPTH] 257 for keys of 256 bits,
    [finish] two steps per created node and one, tile paths 7 groups of three
    digits, 9 tile levels for a 64-bit size (10 for the writer), 20 decimal
    digits for a 64-bit number, the length of a level for [Checksum.reduce],
    the bytes or rows left for the splitting loops of the pack builder and of the
    capsule verifiers, the number of points for the walk of
    [PackCover.read_cover], and one round per byte and one more for the parts
    of an upload.  In the pull: [RESOLVE_STEPS], two more than the limit on links,
    for path resolution; one step per node for the walks to the root and for the
    queue of directories, two per rename and one for their emission, the leaves
    of a series for its linked segments, and the bytes of a chunk or rows of a
    batch for the series writer (no leaf is empty).  The clone of a manifest or a
    tree takes its fuel as an argument, since its length is the source's choice,
    and the theorems give the amount that is enough.

    A pull's failures are the constructors of [PullGraph.pull_error];
    [PullWritten.lands] says of a computation that it does not panic, that it
    does not run out of its bounds or fail with an error of the namespace or of
    the object counts, and what holds when it succeeds.

    An operation of the remote is a [prog], a tree of requests to the object
    store continued by the replies; a pool of such programs takes one request
    at a time in any order, and any request may fail, with a failed write done
    or not.  [RemoteStore.wp] is the rely/guarantee logic in which each program
    is followed through the others' interference.

    Code outside the repository is a parameter, a type class whose laws are its
    documented behaviour: [Blake3] and [Sha256] (functions into 32 bytes; no
    injectivity is assumed, the theorems exhibit a collision instead),
    [JsonParser], [LimiterJson] (texts that parse back), [Base64], [DirOrder]
    (the order [read_dir] lists entries in), [ControlBackend] (a write of the
    control table may fail), [DeltaTable] (an optimistic write fails when its
    rows changed, and changes no other), [FilterSemantics] (what the query engine
    means by a filter), [ArrowWriter] (the bytes of a Parquet file), [Parquet] (its
    schema and batches), [ArrowCast] (a dictionary array as a plain one),
    [ManifestSerde] (the derived serializers of a capsule manifest), [FileReads]
    (a file in chunks of any sizes), [ObjectStore] (the contract of the
    object-store crate: conditional create, copy if absent, uploads visible only
    on completion), [PlanSerde] (the serializers of a garbage-collection plan),
    [Artifacts] (the files of the recovery kit the crate includes),
    [ContentSource] (what a remote answers to a consumer, about which nothing is
    assumed), [Destination] (UUIDs, the listings of factories, serde and Arrow as
    the application of a plan uses them) and [ParquetWriter].  Each has a
    concrete instance in the development.

    ** What the theorems show

    - Objects: encodings are unambiguous and decoders accept exactly the
      encodings of valid values; equal hashes name equal contents, or a collision
      is exhibited.
    - The identity map: the editor refines a finite map, its root determines the
      contents whatever the history, and [finish] publishes exactly the nodes of
      the map.
    - Series and log: incremental frontiers have the root of the recursive tree;
      inclusion, consistency and range proofs are complete, and sound up to an
      explicit collision; the verifiers return.
    - Packs: an accepted pack holds exactly the leaves of its range, and a complete
      one restores the series; the index codec is exact; the builders succeed on
      published leaves and what they build verifies; the chosen cover is exact,
      smallest and deterministic.
    - Leaves and capsules: a table leaf is its hash, however its rows are batched or
      encoded; a capsule manifest describes a tree and is its root; a capsule that
      verifies can be restored, streaming and in-memory verification agree, and
      incremental verification is sound when each object holds one leaf, and only
      then.
    - The log directory: an append commits to exactly the old and new leaves; a
      crash at any point, also inside a file write, leaves the old or the new log
      readable, and any sequence of crashes is recovered from; both writers give
      the same files.
    - Publication: under any interleaving of writers the published states of a
      ref form one chain, and a repeated call is harmless.
    - The remote: whatever clients do concurrently and whatever fails, what is
      under a create-once key never changes, everything is at the key of its
      hash, a success means what it says, the capsule refs always name complete
      generations that garbage collection spares, and only the owner of the
      lock changes capsules; alone and without failures writing a payload and
      publishing a capsule succeed.  The recovery kit extracts itself.
    - Rate limits: the budget holds over every sequence of charges, commits,
      failures and reopenings; a denied caller can succeed later; windows survive
      their storage; suspended enforcement charges nothing.
    - Checksums depend on the set of leaves only and detect every change, or a
      collision is exhibited.
    - Query planning: pruning does not change answers; changes are split exactly at
      the settled frontier; the invalidated output is exactly what depends on a
      change; disjointness checks and snapshot validation mean what they say.
    - Globs: what a pattern matches and captures, and what the walk finds.

    - The namespace: resolution ends, never leaves the effective root, and finds what
      was created.
    - The pull: the lineage, the window, the manifest, the trees and the series a
      consumer accepts are exactly those the published hashes commit to, whatever
      the source serves; an incremental window gives the manifest a clone gives;
      renames land whatever their cycles; the missing leaves of a series are
      written exactly, and every object is used as often as it was counted; and a
      plan, applied, makes the destination's namespace represent the source's
      manifest.

    ** Not modelled

    Floating-point magnitudes and the YAML of rate policies; the Delta Lake
    key-value store, the opening of remotes and their metering; transactions of
    [steward], the push side of replication, the sparse reads of a destination's
    index and the sources over remotes, the reading of file contents and
    directory streams in [tinyfs], the [tlogfs] persistence, the query engine's execution, the site generator, the
    importers and the command line, which drive external systems.

    ** Shared vocabulary of this file

    Bytes, fixed-width integers and their little-endian encodings, outcomes and
    their sequencing. *)

From stdpp Require Import base list numbers options.
From Stdlib Require Import ZArith Lia.
From Stdlib Require Import Strings.Byte.

(** * Bytes *)

Abbreviation byte := Init.Byte.byte.
Abbreviation bytes := (list byte).

Open Scope Z_scope.

#[export] Instance byte_eq_dec : EqDecision byte := Byte.byte_eq_dec.

(** The unsigned value of a [u8]. *)
Definition b2z (b : byte) : Z := Z.of_N (Byte.to_N b).

(** The cast [z as u8]: the low eight bits. *)
Definition z2b (z : Z) : byte :=
  match Byte.of_N (Z.to_N (z mod 256)) with
  | Some b => b
  | None => Byte.x00
  end.

Lemma b2z_range b : 0 <= b2z b < 256.
Proof. unfold b2z. pose proof (Byte.to_N_bounded b). lia. Qed.

Lemma b2z_z2b z : b2z (z2b z) = z mod 256.
Proof.
  unfold b2z, z2b. pose proof (Z.mod_pos_bound z 256 eq_refl) as Hz.
  destruct (Byte.of_N (Z.to_N (z mod 256))) as [b|] eqn:E.
  - apply Byte.to_of_N in E. rewrite E. lia.
  - apply Byte.of_N_None_iff in E. lia.
Qed.

Lemma z2b_b2z b : z2b (b2z b) = b.
Proof.
  unfold z2b. pose proof (b2z_range b). rewrite Z.mod_small by lia.
  unfold b2z. rewrite N2Z.id, Byte.of_to_N. done.
Qed.

Lemma b2z_inj a b : b2z a = b2z b -> a = b.
Proof. intros E. rewrite <- (z2b_b2z a), <- (z2b_b2z b). by rewrite E. Qed.

(** A decidable fact about all bytes is a finite computation. *)
Lemma byte_forallb (P : byte -> bool) :
  forallb (fun z => P (z2b z)) (seqZ 0 256) = true -> forall b, P b = true.
Proof.
  intros H b. rewrite forallb_forall in H. rewrite <- (z2b_b2z b). apply H.
  apply list_elem_of_In, elem_of_seqZ. pose proof (b2z_range b). lia.
Qed.

Lemma forallb_Forall {A} (p : A -> bool) l :
  forallb p l = true <-> Forall (fun x => p x = true) l.
Proof. rewrite forallb_forall, List.Forall_forall. done. Qed.

(** * Fixed-width integers and their little-endian encodings *)

Definition is_u8 (z : Z) : bool := (0 <=? z) && (z <? 2 ^ 8).
Definition is_u16 (z : Z) : bool := (0 <=? z) && (z <? 2 ^ 16).
Definition is_u32 (z : Z) : bool := (0 <=? z) && (z <? 2 ^ 32).
Definition is_u64 (z : Z) : bool := (0 <=? z) && (z <? 2 ^ 64).
Definition is_i64 (z : Z) : bool := (- 2 ^ 63 <=? z) && (z <? 2 ^ 63).

(** [to_le n z]: the [n] bytes of [z.to_le_bytes()] for an integer type of
    [8 * n] bits, signed or not (two's complement). *)
Fixpoint to_le (n : nat) (z : Z) : bytes :=
  match n with
  | O => []
  | S n => z2b z :: to_le n (z / 256)
  end.

(** [uN::from_le_bytes]. *)
Fixpoint from_le (l : bytes) : Z :=
  match l with
  | [] => 0
  | b :: l => b2z b + 256 * from_le l
  end.

(** [i64::from_le_bytes]. *)
Definition from_le_i64 (l : bytes) : Z :=
  let u := from_le l in if u <? 2 ^ 63 then u else u - 2 ^ 64.

Lemma length_to_le n z : length (to_le n z) = n.
Proof. revert z. induction n as [|n IH]; intros z; simpl; [done|]. by rewrite IH. Qed.

Lemma from_le_bound l : 0 <= from_le l < 256 ^ Z.of_nat (length l).
Proof.
  induction l as [|b l IH]; [simpl; lia|].
  cbn [from_le length]. rewrite Nat2Z.inj_succ, Z.pow_succ_r by lia.
  pose proof (b2z_range b). nia.
Qed.

Lemma from_to_le n z : from_le (to_le n z) = z mod 256 ^ Z.of_nat n.
Proof.
  revert z. induction n as [|n IH]; intros z.
  - simpl. by rewrite Z.mod_1_r.
  - cbn [from_le to_le]. rewrite IH, b2z_z2b, Nat2Z.inj_succ, Z.pow_succ_r by lia.
    rewrite Z.rem_mul_r by lia. lia.
Qed.

Lemma to_from_le l : to_le (length l) (from_le l) = l.
Proof.
  induction l as [|b l IH]; [done|]. cbn [from_le length to_le].
  pose proof (b2z_range b). rewrite (Z.mul_comm 256). f_equal.
  - apply b2z_inj. rewrite b2z_z2b, Z.mod_add by lia. by apply Z.mod_small.
  - rewrite Z.div_add, Z.div_small by lia. done.
Qed.

Lemma to_le_inj n a b :
  to_le n a = to_le n b -> a mod 256 ^ Z.of_nat n = b mod 256 ^ Z.of_nat n.
Proof. intros E. by rewrite <- !from_to_le, E. Qed.

Lemma from_to_le_small n z : 0 <= z < 256 ^ Z.of_nat n -> from_le (to_le n z) = z.
Proof. intros H. rewrite from_to_le. by apply Z.mod_small. Qed.

Lemma from_to_le_i64 z : is_i64 z = true -> from_le_i64 (to_le 8 z) = z.
Proof.
  unfold is_i64, from_le_i64. intros H. rewrite from_to_le.
  change (256 ^ Z.of_nat 8) with (2 ^ 64).
  destruct (Z.ltb_spec (z mod 2 ^ 64) (2 ^ 63)) as [Hlt|Hge];
    destruct (decide (0 <= z)) as [Hz|Hz];
    [rewrite Z.mod_small in * by lia; lia | | rewrite Z.mod_small in * by lia; lia |];
    (rewrite <- (Z.mod_add z 1) in * by lia; rewrite Z.mod_small in * by lia; lia).
Qed.

Lemma to_from_le_i64 l : length l = 8%nat -> to_le 8 (from_le_i64 l) = l.
Proof.
  intros Hl. assert (to_le 8 (from_le_i64 l) = to_le 8 (from_le l)) as ->; cycle 1.
  { rewrite <- Hl. apply to_from_le. }
  unfold from_le_i64. destruct (_ <? _); [done|].
  assert (forall n z k, to_le n (z - k * 256 ^ Z.of_nat n) = to_le n z) as Hw.
  { induction n as [|n IH]; intros z k; [done|]. cbn [to_le].
    rewrite Nat2Z.inj_succ, Z.pow_succ_r by lia.
    replace (z - k * (256 * 256 ^ Z.of_nat n)) with (z + (- (k * 256 ^ Z.of_nat n)) * 256) by ring.
    f_equal.
    - apply b2z_inj. rewrite !b2z_z2b. by rewrite Z.mod_add by lia.
    - rewrite Z.div_add by lia. by rewrite <- (IH (z / 256) k). }
  specialize (Hw 8%nat (from_le l) 1). rewrite Z.mul_1_l in Hw. exact Hw.
Qed.

Lemma from_le_i64_range l : length l = 8%nat -> is_i64 (from_le_i64 l) = true.
Proof.
  intros Hl. pose proof (from_le_bound l) as H. rewrite Hl in H.
  change (256 ^ Z.of_nat 8) with (2 ^ 64) in H.
  unfold is_i64, from_le_i64. destruct (Z.ltb_spec (from_le l) (2 ^ 63)); lia.
Qed.

#[global] Opaque to_le from_le from_le_i64.

(** * Outcomes: a Rust [Result], plus the panics of the code *)

Inductive outcome (E A : Type) : Type :=
| Ok (a : A)
| Err (e : E)
| Panic.
Arguments Ok {E A} a.
Arguments Err {E A} e.
Arguments Panic {E A}.

#[export] Instance outcome_ret {E} : MRet (outcome E) := fun A a => Ok a.
#[export] Instance outcome_bind {E} : MBind (outcome E) := fun A B k m =>
  match m with
  | Ok a => k a
  | Err e => Err e
  | Panic => Panic
  end.

Definition is_ok {E A} (m : outcome E A) : bool :=
  match m with Ok _ => true | _ => false end.

(** [unwrap_or]. *)
Definition unwrap_or {E A} (d : A) (m : outcome E A) : A :=
  match m with Ok a => a | _ => d end.

Lemma bind_Ok {E A B} (m : outcome E A) (k : A -> outcome E B) b :
  m ≫= k = Ok b <-> exists a, m = Ok a /\ k a = Ok b.
Proof.
  destruct m as [a|e|]; simpl; split;
    [eauto | intros (? & [= <-] & ?); done | done | by intros (? & ? & ?) | done
    | by intros (? & ? & ?)].
Qed.

(** Step past a computed result without reducing the rest. *)
Lemma bind_eq {E A B} (m : outcome E A) (k : A -> outcome E B) a : m = Ok a -> m ≫= k = k a.
Proof. by intros ->. Qed.

Lemma Ok_inj {E A} (a b : A) : @Ok E A a = Ok b -> a = b.
Proof. by intros [= ->]. Qed.

(** [omap_list f l]: the sequenced results of [f] on [l], first failure first. *)
Fixpoint omap_list {E A B} (f : A -> outcome E B) (l : list A) : outcome E (list B) :=
  match l with
  | [] => Ok []
  | x :: l => y ← f x; ys ← omap_list f l; mret (y :: ys)
  end.

Lemma omap_list_Ok {E A B} (f : A -> outcome E B) l ys :
  omap_list f l = Ok ys <-> Forall2 (fun x y => f x = Ok y) l ys.
Proof.
  revert ys. induction l as [|x l IH]; intros ys; simpl; split.
  - intros [= <-]. constructor.
  - by inversion 1.
  - intros (y & Hy & (zs & Hzs & [= <-])%bind_Ok)%bind_Ok. constructor; [done|]. by apply IH.
  - inversion 1 as [|? y ? zs Hy Hzs]; subst. rewrite Hy. simpl.
    apply IH in Hzs. by rewrite Hzs.
Qed.

(** [inv_ok] takes a hypothesis [m ≫= k = Ok b] apart into its steps. *)
Ltac inv_ok :=
  repeat match goal with
  | H : Ok _ = Ok _ |- _ => apply Ok_inj in H; subst
  | H : mret _ = Ok _ |- _ => apply Ok_inj in H; subst
  | H : Err _ = Ok _ |- _ => discriminate H
  | H : Panic = Ok _ |- _ => discriminate H
  | H : (_ ≫= _) = Ok _ |- _ =>
      let a := fresh "x" in let Ha := fresh "Hx" in
      apply bind_Ok in H as (a & Ha & H); cbv beta iota in H
  end.
