(* ===== verification/RustStd.v ===== *)
(** The parts of the Rust standard library the modelled code relies on:
    byte-wise ordering and [slice::sort_by], [windows(2)] duplicate checks,
    [Vec::dedup], and [String::from_utf8] validation. *)

From stdpp Require Import base list numbers sets sorting countable strings options.
From Stdlib Require Import ZArith Lia.
From Stdlib Require Import Strings.Byte.
From S2P Require Import Prelude.

#[export] Instance byte_countable : Countable byte :=
  inj_countable Byte.to_N Byte.of_N Byte.of_to_N.

(** * Comparators *)

(** A comparator that is a total preorder, as [slice::sort_by] requires. *)
Class CmpOrder {A} (cmp : A -> A -> comparison) : Prop := {
  cmp_opp : forall x y, cmp y x = CompOpp (cmp x y);
  cmp_trans : forall x y z, cmp x y <> Gt -> cmp y z <> Gt -> cmp x z <> Gt;
}.

Arguments cmp_opp {A} cmp {_} x y.
Arguments cmp_trans {A} cmp {_} x y z.

(** A comparator whose [Equal] is equality ([Ord] consistent with [Eq]). *)
Class CmpEq {A} (cmp : A -> A -> comparison) : Prop :=
  cmp_eq : forall x y, cmp x y = Eq -> x = y.

Definition cmp_on {A B} (f : A -> B) (cmp : B -> B -> comparison) (x y : A) : comparison :=
  cmp (f x) (f y).

(** [Ordering::then_with]. *)
Definition then_cmp {A} (c1 c2 : A -> A -> comparison) (x y : A) : comparison :=
  match c1 x y with Eq => c2 x y | c => c end.

(** The ordering of [&[u8]]: lexicographic on unsigned bytes. *)
Fixpoint bytes_cmp (x y : bytes) : comparison :=
  match x, y with
  | [], [] => Eq
  | [], _ :: _ => Lt
  | _ :: _, [] => Gt
  | a :: x, b :: y =>
      match b2z a ?= b2z b with
      | Eq => bytes_cmp x y
      | c => c
      end
  end.

Section Comparators.
Context {A : Type} (cmp : A -> A -> comparison) `{!CmpOrder cmp}.

Lemma cmp_refl x : cmp x x = Eq.
Proof using Type*. pose proof (cmp_opp cmp x x). destruct (cmp x x); done. Qed.

Lemma cmp_eq_sym x y : cmp x y = Eq -> cmp y x = Eq.
Proof using Type*. intros E. by rewrite (cmp_opp cmp x y), E. Qed.

Lemma cmp_lt_trans x y z : cmp x y = Lt -> cmp y z <> Gt -> cmp x z = Lt.
Proof using Type*.
  intros Hxy Hyz.
  assert (cmp x z <> Gt) as Hxz by (apply (cmp_trans cmp x y z); [congruence | done]).
  destruct (cmp x z) eqn:E; [|done|done].
  assert (cmp y x <> Gt) as Hc.
  { apply (cmp_trans cmp y z x); [done|]. by rewrite (cmp_eq_sym x z). }
  rewrite (cmp_opp cmp x y), Hxy in Hc. done.
Qed.

Lemma cmp_eq_trans x y z : cmp x y = Eq -> cmp x z = cmp y z.
Proof using Type*.
  intros E. pose proof (cmp_eq_sym _ _ E) as E'.
  destruct (cmp x z) eqn:E1, (cmp y z) eqn:E2; try done; exfalso.
  - apply (cmp_lt_trans y z x) in E2; [congruence|]. by rewrite (cmp_eq_sym x z).
  - apply (cmp_trans cmp y x z); congruence.
  - apply (cmp_lt_trans x z y) in E1; [congruence|]. by rewrite (cmp_eq_sym y z).
  - apply (cmp_trans cmp y x z); congruence.
  - apply (cmp_trans cmp x y z); congruence.
  - apply (cmp_trans cmp x y z); congruence.
Qed.
End Comparators.

#[export] Instance cmp_on_order {A B} (f : A -> B) cmp :
  CmpOrder cmp -> CmpOrder (cmp_on f cmp).
Proof.
  intros ?. split; unfold cmp_on; intros; [apply (cmp_opp cmp)|eapply (cmp_trans cmp); eauto].
Qed.

#[export] Instance then_cmp_order {A} (c1 c2 : A -> A -> comparison) :
  CmpOrder c1 -> CmpOrder c2 -> CmpOrder (then_cmp c1 c2).
Proof.
  intros H1 H2. split; unfold then_cmp.
  - intros x y. rewrite (cmp_opp c1 x y).
    destruct (c1 x y); simpl; [apply (cmp_opp c2)|done|done].
  - intros x y z Hxy Hyz. destruct (c1 x y) eqn:E1; [| |done].
    + rewrite (cmp_eq_trans c1 x y z E1).
      destruct (c1 y z); [|done|done]. by eapply (cmp_trans c2).
    + rewrite (cmp_lt_trans c1 x y z E1); [done|]. by destruct (c1 y z).
Qed.

#[export] Instance then_cmp_eq {A B C} (f : A -> B) (g : A -> C) c1 c2 :
  (forall x y, f x = f y -> g x = g y -> x = y) ->
  CmpEq c1 -> CmpEq c2 -> CmpEq (then_cmp (cmp_on f c1) (cmp_on g c2)).
Proof.
  intros Hinj H1 H2 x y. unfold then_cmp, cmp_on.
  destruct (c1 (f x) (f y)) eqn:E1; intros E2; [|done|done]. auto.
Qed.

#[export] Instance Zcompare_order : CmpOrder Z.compare.
Proof.
  split; [intros; apply Z.compare_antisym|]. intros x y z.
  rewrite !Z.compare_gt_iff. lia.
Qed.
#[export] Instance Zcompare_eq : CmpEq Z.compare.
Proof. intros x y. apply Z.compare_eq. Qed.

#[export] Instance bytes_cmp_order : CmpOrder bytes_cmp.
Proof.
  split.
  - intros x. induction x as [|a x IH]; intros [|b y]; simpl; [done..|].
    rewrite Z.compare_antisym. destruct (b2z a ?= b2z b); simpl; [apply IH|done|done].
  - intros x. induction x as [|a x IH]; intros [|b y] [|c z]; simpl; [done..|].
    destruct (Z.compare_spec (b2z a) (b2z b)), (Z.compare_spec (b2z b) (b2z c)),
      (Z.compare_spec (b2z a) (b2z c)); try lia; try done. apply IH.
Qed.
#[export] Instance bytes_cmp_eq : CmpEq bytes_cmp.
Proof.
  intros x. induction x as [|a x IH]; intros [|b y]; simpl; [done..|].
  destruct (Z.compare_spec (b2z a) (b2z b)) as [E|E|E]; [|done|done].
  intros H. f_equal; [by apply b2z_inj | by apply IH].
Qed.

(** * Sorting *)

Section Sorting.
Context {A : Type} (cmp : A -> A -> comparison).

Definition cmp_le (x y : A) : Prop := cmp x y <> Gt.
Definition cmp_lt (x y : A) : Prop := cmp x y = Lt.
Definition cmp_leb (x y : A) : bool := match cmp x y with Gt => false | _ => true end.

Fixpoint insert_by (x : A) (l : list A) : list A :=
  match l with
  | [] => [x]
  | y :: l' => if cmp_leb x y then x :: l else y :: insert_by x l'
  end.

(** The stable [sort_by]. *)
Fixpoint sort_by (l : list A) : list A :=
  match l with
  | [] => []
  | x :: l => insert_by x (sort_by l)
  end.

(** [windows(2)] searched for the first pair [p] accepts. *)
Fixpoint find_pair (p : A -> A -> bool) (l : list A) : option (A * A) :=
  match l with
  | x :: ((y :: _) as l') => if p x y then Some (x, y) else find_pair p l'
  | _ => None
  end.

Lemma cmp_leb_spec x y : reflect (cmp_le x y) (cmp_leb x y).
Proof. unfold cmp_leb, cmp_le. destruct (cmp x y); constructor; congruence. Qed.

Lemma insert_by_perm x l : insert_by x l ≡ₚ x :: l.
Proof.
  induction l as [|y l IH]; simpl; [done|].
  destruct (cmp_leb x y); [done|]. by rewrite IH, Permutation_swap.
Qed.

Lemma sort_by_perm l : sort_by l ≡ₚ l.
Proof. induction l as [|x l IH]; simpl; [done|]. by rewrite insert_by_perm, IH. Qed.

Lemma sort_by_id l : StronglySorted cmp_le l -> sort_by l = l.
Proof.
  induction 1 as [|x l Hs IH Hx]; [done|]. simpl. rewrite IH.
  destruct l as [|y l]; [done|]. simpl. apply Forall_inv in Hx.
  by destruct (cmp_leb_spec x y).
Qed.

Lemma find_pair_None_sorted p l :
  (forall x y, cmp x y = Eq -> p x y = true) ->
  CmpOrder cmp -> StronglySorted cmp_le l -> find_pair p l = None ->
  StronglySorted cmp_lt l.
Proof.
  intros Hp Ho. induction 1 as [|x l Hs IH Hx]; [constructor|].
  destruct l as [|y l]; [constructor; constructor|].
  simpl. destruct (p x y) eqn:E; [done|]. intros Hn. specialize (IH Hn).
  assert (cmp_lt x y) as Hxy.
  { apply Forall_inv in Hx. unfold cmp_lt, cmp_le in *.
    destruct (cmp x y) eqn:E'; [|done|done]. by rewrite Hp in E. }
  constructor; [done|]. constructor; [done|].
  inversion IH as [|? ? ? Hy]; subst. eapply Forall_impl; [exact Hy|].
  intros z Hz. unfold cmp_lt in *. by eapply cmp_lt_trans; [..|rewrite Hz].
Qed.

Lemma find_pair_strict p l :
  (forall x y, cmp x y = Lt -> p x y = false) ->
  StronglySorted cmp_lt l -> find_pair p l = None.
Proof.
  intros Hp. induction 1 as [|x l Hs IH Hx]; [done|].
  destruct l as [|y l]; [done|]. simpl. apply Forall_inv in Hx. by rewrite Hp.
Qed.

Lemma cmp_lt_le_sorted l : StronglySorted cmp_lt l -> StronglySorted cmp_le l.
Proof.
  induction 1 as [|x l Hs IH Hx]; constructor; [done|].
  eapply Forall_impl; [exact Hx|]. unfold cmp_lt, cmp_le. congruence.
Qed.

Lemma sort_by_strict l : StronglySorted cmp_lt l -> sort_by l = l.
Proof. intros H. by apply sort_by_id, cmp_lt_le_sorted. Qed.

Context `{!CmpOrder cmp}.

Lemma insert_by_sorted x l : StronglySorted cmp_le l -> StronglySorted cmp_le (insert_by x l).
Proof using Type*.
  induction 1 as [|y l Hs IH Hy]; simpl; [by repeat constructor|].
  destruct (cmp_leb_spec x y) as [Hle|Hgt].
  - constructor; [by constructor|]. constructor; [done|].
    eapply Forall_impl; [exact Hy|]. intros z. apply (cmp_trans cmp), Hle.
  - constructor; [done|]. rewrite insert_by_perm. constructor; [|done].
    unfold cmp_le in *. rewrite (cmp_opp cmp x y).
    destruct (cmp x y); [by destruct Hgt|by destruct Hgt|done].
Qed.

Lemma sort_by_sorted l : StronglySorted cmp_le (sort_by l).
Proof using Type*. induction l; simpl; [constructor|]. by apply insert_by_sorted. Qed.

(** Sorted permutations of a list without distinct equivalent elements are equal. *)
Lemma sorted_perm_unique l1 l2 :
  (forall x y, x ∈ l1 -> y ∈ l1 -> cmp x y = Eq -> x = y) ->
  StronglySorted cmp_le l1 -> StronglySorted cmp_le l2 -> l1 ≡ₚ l2 -> l1 = l2.
Proof using Type*.
  intros He Hs1. revert l2 He. induction Hs1 as [|x l1 Hs1 IH Hx]; intros l2 He Hs2 Hp.
  - by apply Permutation_nil in Hp.
  - destruct Hs2 as [|y l2 Hs2 Hy]; [by apply Permutation_nil_r in Hp|].
    assert (x = y) as ->.
    { destruct (decide (cmp x y = Eq)) as [E|E].
      { apply He; [set_solver| rewrite Hp; set_solver | done]. }
      exfalso. rewrite Forall_forall in Hx, Hy.
      assert (y ∈ x :: l1) as Hin1 by (rewrite Hp; set_solver).
      assert (x ∈ y :: l2) as Hin2 by (rewrite <- Hp; set_solver).
      apply elem_of_cons in Hin1 as [->|Hin1]; [by rewrite (cmp_refl cmp) in E|].
      apply elem_of_cons in Hin2 as [->|Hin2]; [by rewrite (cmp_refl cmp) in E|].
      specialize (Hx y Hin1). specialize (Hy x Hin2). unfold cmp_le in *.
      rewrite (cmp_opp cmp x y) in Hy. by destruct (cmp x y). }
    f_equal. apply Permutation_cons_inv in Hp.
    apply IH; [set_solver|done|done].
Qed.

(** Sorting makes the result independent of the order of the input. *)
Lemma sort_by_canonical l1 l2 :
  (forall x y, x ∈ l1 -> y ∈ l1 -> cmp x y = Eq -> x = y) ->
  l1 ≡ₚ l2 -> sort_by l1 = sort_by l2.
Proof using Type*.
  intros He Hp. apply sorted_perm_unique; [|apply sort_by_sorted..|by rewrite !sort_by_perm].
  intros x y. rewrite !sort_by_perm. apply He.
Qed.

(** Strictly sorted lists have at most one element of each class. *)
Lemma strict_unique l x y :
  StronglySorted cmp_lt l -> x ∈ l -> y ∈ l -> cmp x y = Eq -> x = y.
Proof using Type*.
  induction 1 as [|z l Hs IH Hz]; [set_solver|].
  rewrite Forall_forall in Hz.
  intros [->|Hx]%elem_of_cons [->|Hy]%elem_of_cons E; [done|..|by apply IH].
  - specialize (Hz y Hy). unfold cmp_lt in Hz. congruence.
  - specialize (Hz x Hx). unfold cmp_lt in Hz. by rewrite (cmp_opp cmp x z), E in Hz.
Qed.
End Sorting.

Lemma find_pair_Some {A} (p : A -> A -> bool) (l : list A) a b :
  find_pair p l = Some (a, b) -> exists l1 l2, l = l1 ++ a :: b :: l2 /\ p a b = true.
Proof.
  induction l as [|x [|y l] IH]; [done..|]. cbn [find_pair] in *. destruct (p x y) eqn:E.
  - intros [= -> ->]. by exists [], l.
  - intros (l1 & l2 & -> & Hp)%IH. by exists (x :: l1), l2.
Qed.

(** Sorting by a key commutes with projecting the key. *)
Lemma sort_by_map {A B} (f : A -> B) cmp (l : list A) :
  map f (sort_by (cmp_on f cmp) l) = sort_by cmp (map f l).
Proof.
  assert (forall x k, map f (insert_by (cmp_on f cmp) x k) = insert_by cmp (f x) (map f k)) as Hi.
  { intros x k. induction k as [|y k IH]; simpl; [done|].
    change (cmp_leb (cmp_on f cmp) x y) with (cmp_leb cmp (f x) (f y)).
    destruct (cmp_leb _ _ _); simpl; [done|]. by rewrite IH. }
  induction l as [|x l IH]; simpl; [done|]. by rewrite Hi, IH.
Qed.

Lemma find_pair_map {A B} (f : A -> B) p (l : list A) :
  find_pair p (map f l) = prod_map f f <$> find_pair (fun x y => p (f x) (f y)) l.
Proof.
  induction l as [|x [|y l] IH]; [done..|].
  cbn [find_pair map] in *. destruct (p (f x) (f y)); [done|]. exact IH.
Qed.

(** Sort by a key, then look for neighbours with the same key: permuted inputs
    either have the same first repeated key, or the same sorted list. *)
Lemma sort_unique_key {A B} `{EqDecision B} (f : A -> B) (cmp : B -> B -> comparison)
    `{!CmpOrder cmp, !CmpEq cmp} (l1 l2 : list A) :
  l1 ≡ₚ l2 ->
  let same x y := bool_decide (f x = f y) in
  let s1 := sort_by (cmp_on f cmp) l1 in
  let s2 := sort_by (cmp_on f cmp) l2 in
  match find_pair same s1, find_pair same s2 with
  | Some (a, _), Some (b, _) => f a = f b
  | None, None => s1 = s2 /\ StronglySorted (cmp_lt (cmp_on f cmp)) s1
  | _, _ => False
  end.
Proof.
  intros Hp same s1 s2.
  assert (map f s1 = map f s2) as Hn.
  { subst s1 s2. rewrite !sort_by_map. apply sort_by_canonical; [apply _| |by rewrite Hp].
    intros x y _ _. apply (cmp_eq (cmp := cmp)). }
  pose proof (find_pair_map f (fun a b => bool_decide (a = b)) s1) as H1.
  rewrite Hn, find_pair_map in H1. fold same in H1.
  change (fun x y => bool_decide (f x = f y)) with same in H1.
  destruct (find_pair same s1) as [[a1 b1]|] eqn:E1, (find_pair same s2) as [[a2 b2]|];
    simpl in H1; [congruence|done|done|].
  assert (StronglySorted (cmp_lt (cmp_on f cmp)) s1) as Hs.
  { eapply find_pair_None_sorted; [|apply _|apply sort_by_sorted, _|exact E1].
    intros x y E. apply bool_decide_true. by apply (cmp_eq (cmp := cmp)). }
  split; [|done]. apply sort_by_canonical; [apply _| |done]. intros x y.
  rewrite <- (sort_by_perm (cmp_on f cmp) l1). by apply strict_unique; [apply _|].
Qed.

(** [Vec::dedup]: of each run of equal elements the first is kept. *)
Section Dedup.
Context {A : Type} `{EqDecision A}.

Fixpoint dedup_from (x : A) (l : list A) : list A :=
  match l with
  | [] => [x]
  | y :: l => if decide (x = y) then dedup_from x l else x :: dedup_from y l
  end.

Definition dedup (l : list A) : list A :=
  match l with [] => [] | x :: l => dedup_from x l end.

Lemma dedup_from_elem x l z : z ∈ dedup_from x l <-> z ∈ x :: l.
Proof.
  revert x. induction l as [|y l IH]; intros x; simpl; [done|].
  case_decide as E; [subst|]; rewrite ?elem_of_cons, IH; set_solver.
Qed.

Lemma dedup_elem l z : z ∈ dedup l <-> z ∈ l.
Proof. destruct l; [done|]. apply dedup_from_elem. Qed.

Context (cmp : A -> A -> comparison) `{!CmpOrder cmp} `{!CmpEq cmp}.

Lemma dedup_from_sorted x l :
  StronglySorted (cmp_le cmp) (x :: l) -> StronglySorted (cmp_lt cmp) (dedup_from x l).
Proof using Type*.
  revert x. induction l as [|y l IH]; intros x Hs; simpl; [repeat constructor|].
  apply StronglySorted_inv in Hs as [Hs Hx]. pose proof Hs as Hyl.
  apply StronglySorted_inv in Hs as [Hs Hy].
  case_decide as E; [subst; apply IH; by constructor|].
  constructor; [by apply IH|]. apply Forall_forall. intros z Hz.
  rewrite dedup_from_elem in Hz.
  assert (cmp x y = Lt) as Hxy.
  { apply Forall_inv in Hx. unfold cmp_le in Hx. destruct (cmp x y) eqn:Exy; [|done|done].
    by apply cmp_eq in Exy. }
  unfold cmp_lt. apply (cmp_lt_trans cmp x y z); [done|].
  apply elem_of_cons in Hz as [->|Hz]; [by rewrite (cmp_refl cmp)|].
  rewrite Forall_forall in Hy. by apply Hy.
Qed.

(** Sorting then deduplicating yields the strictly sorted list of the elements. *)
Lemma dedup_sort_strict l : StronglySorted (cmp_lt cmp) (dedup (sort_by cmp l)).
Proof using Type*.
  pose proof (sort_by_sorted cmp l) as Hs.
  destruct (sort_by cmp l) as [|x k]; [constructor|]. by apply dedup_from_sorted.
Qed.

Lemma dedup_strict l : StronglySorted (cmp_lt cmp) l -> dedup l = l.
Proof using Type*.
  destruct l as [|x l]; [done|]. simpl. revert x.
  induction l as [|y l IH]; intros x Hs; [done|]. simpl.
  apply StronglySorted_inv in Hs as [Hs Hx]. apply Forall_inv in Hx.
  case_decide as E; [subst; unfold cmp_lt in Hx; by rewrite (cmp_refl cmp) in Hx|].
  by rewrite IH.
Qed.

Lemma sort_dedup_id l : StronglySorted (cmp_lt cmp) l -> dedup (sort_by cmp l) = l.
Proof using Type*. intros H. rewrite sort_by_strict by done. by apply dedup_strict. Qed.
End Dedup.

(** [slice::split_last]: the last element and the rest. *)
Definition split_last {A} (l : list A) : option (A * list A) :=
  match rev l with
  | [] => None
  | x :: r => Some (x, rev r)
  end.

Lemma split_last_snoc {A} (l : list A) x : split_last (l ++ [x]) = Some (x, l).
Proof. unfold split_last. by rewrite rev_unit, rev_involutive. Qed.

Lemma split_last_Some {A} (l : list A) x r : split_last l = Some (x, r) -> l = r ++ [x].
Proof.
  unfold split_last. destruct (rev l) as [|y k] eqn:E; [done|]. intros [= -> <-].
  rewrite <- (rev_involutive l), E. done.
Qed.

Lemma split_last_None {A} (l : list A) : split_last l = None -> l = [].
Proof.
  unfold split_last. destruct (rev l) eqn:E; [|done]. intros _.
  by rewrite <- (rev_involutive l), E.
Qed.

(** * Strings *)

(** The bytes of an ASCII literal. *)
Definition bstr (s : string) : bytes := String.list_byte_of_string s.

Definition in_range (lo hi : Z) (b : byte) : bool := (lo <=? b2z b) && (b2z b <=? hi).

(** The validation of [String::from_utf8]: well-formed UTF-8 (no overlong
    forms, no surrogates, nothing above U+10FFFF). *)
Fixpoint utf8_valid (l : bytes) : bool :=
  match l with
  | [] => true
  | a :: l1 =>
      if in_range 0 0x7F a then utf8_valid l1 else
      match l1 with
      | [] => false
      | b :: l2 =>
          if in_range 0xC2 0xDF a then in_range 0x80 0xBF b && utf8_valid l2 else
          match l2 with
          | [] => false
          | c :: l3 =>
              let second3 :=
                (in_range 0xE0 0xE0 a && in_range 0xA0 0xBF b)
                || (in_range 0xE1 0xEC a && in_range 0x80 0xBF b)
                || (in_range 0xED 0xED a && in_range 0x80 0x9F b)
                || (in_range 0xEE 0xEF a && in_range 0x80 0xBF b) in
              if second3 then in_range 0x80 0xBF c && utf8_valid l3 else
              match l3 with
              | [] => false
              | d :: l4 =>
                  let second4 :=
                    (in_range 0xF0 0xF0 a && in_range 0x90 0xBF b)
                    || (in_range 0xF1 0xF3 a && in_range 0x80 0xBF b)
                    || (in_range 0xF4 0xF4 a && in_range 0x80 0x8F b) in
                  second4 && in_range 0x80 0xBF c && in_range 0x80 0xBF d && utf8_valid l4
              end
          end
      end
  end.

(** Valid text stays valid when valid text is appended. *)
Lemma utf8_app a b : utf8_valid a = true -> utf8_valid (a ++ b) = utf8_valid b.
Proof.
  remember (length a) as n eqn:En. assert (length a <= n)%nat as Hn by lia. clear En.
  revert a Hn. induction n as [|n IH]; intros a Hn; [destruct a; [done|simpl in Hn; lia]|].
  destruct a as [|x a]; [done|]. simpl in Hn. cbn [app utf8_valid].
  destruct (in_range 0 0x7F x); [intros; apply IH; [lia|done]|].
  destruct a as [|y a]; [done|]. cbn [app]. simpl in Hn.
  destruct (in_range 0xC2 0xDF x).
  { intros [-> Ha]%andb_true_iff. apply IH; [lia|done]. }
  destruct a as [|z a]; [done|]. cbn [app]. simpl in Hn. cbv zeta. destruct (_ || _).
  { intros [-> Ha]%andb_true_iff. apply IH; [lia|done]. }
  destruct a as [|w a]; [done|]. cbn [app]. simpl in Hn.
  intros [[[-> ->]%andb_true_iff ->]%andb_true_iff Ha]%andb_true_iff. apply IH; [lia|done].
Qed.

Lemma utf8_ascii l : forallb (in_range 0 0x7F) l = true -> utf8_valid l = true.
Proof.
  induction l as [|x l IH]; [done|]. cbn [forallb utf8_valid]. intros [-> Hl]%andb_true_iff. auto.
Qed.

Lemma forallb_take {A} (p : A -> bool) k l : forallb p l = true -> forallb p (take k l) = true.
Proof. rewrite !forallb_Forall. apply Forall_take. Qed.
