(* ===== verification/RustText.v ===== *)
(** The text handling of the Rust standard library the code relies on: decimal
    [to_string] and [parse::<u64>], [str::lines], [str::split_whitespace] and
    joining with a separator. *)

From stdpp Require Import base list sets numbers options.
From Stdlib Require Import ZArith Lia.
From Stdlib Require Import Strings.Byte.
From S2P Require Import Prelude RustStd.

Open Scope Z_scope.

Definition NL : byte := Byte.x0a.
Definition CR : byte := Byte.x0d.
Definition SPACE : byte := Byte.x20.
Definition COMMA : byte := Byte.x2c.
Definition SLASH : byte := Byte.x2f.

(** * Decimal integers *)

Definition dec_digit (d : Z) : byte := z2b (48 + d).
Definition is_digit (c : byte) : bool := in_range 48 57 c.

(** The digits of [n >= 0]; a [u64] has at most 20 of them. *)
Fixpoint dec_digits (fuel : nat) (n : Z) : bytes :=
  match fuel with
  | O => []
  | S fuel => (if n <? 10 then [] else dec_digits fuel (n / 10)) ++ [dec_digit (n mod 10)]
  end.

(** [u64::to_string], [i64::to_string]. *)
Definition show_u64 (n : Z) : bytes := dec_digits 20 n.
Definition show_i64 (n : Z) : bytes :=
  if n <? 0 then Byte.x2d :: show_u64 (- n) else show_u64 n.

Definition digit_step (acc : Z) (c : byte) : option Z :=
  if is_digit c then
    let acc := acc * 10 + (b2z c - 48) in
    if acc <? 2 ^ 64 then Some acc else None
  else None.

Fixpoint parse_digits (acc : Z) (s : bytes) : option Z :=
  match s with
  | [] => Some acc
  | c :: s => acc ← digit_step acc c; parse_digits acc s
  end.

(** [str::parse::<u64>]: an optional [+], then at least one digit, in range. *)
Definition parse_u64 (s : bytes) : option Z :=
  match s with
  | [] => None
  | c :: rest =>
      if bool_decide (c = Byte.x2b) then
        match rest with [] => None | _ => parse_digits 0 rest end
      else parse_digits 0 s
  end.

Lemma digit_bytes d : 0 <= d < 10 -> is_digit (dec_digit d) = true /\ b2z (dec_digit d) = 48 + d.
Proof.
  intros Hd. unfold is_digit, in_range, dec_digit. rewrite b2z_z2b, Z.mod_small by lia. lia.
Qed.

Lemma digit_not_plus c : is_digit c = true -> c <> Byte.x2b.
Proof. by intros Hc ->. Qed.

Lemma parse_digits_app acc a b : parse_digits acc (a ++ b) = parse_digits acc a ≫= (fun x => parse_digits x b).
Proof.
  revert acc. induction a as [|c a IH]; intros acc; simpl; [done|].
  destruct (digit_step acc c); simpl; [apply IH|done].
Qed.

Lemma dec_digits_digits fuel n : 0 <= n -> forallb is_digit (dec_digits fuel n) = true.
Proof.
  revert n. induction fuel as [|fuel IH]; intros n Hn; [done|]. simpl. rewrite forallb_app.
  pose proof (Z.mod_pos_bound n 10 eq_refl). simpl.
  destruct (digit_bytes (n mod 10)) as [-> _]; [lia|]. rewrite !andb_true_r.
  destruct (n <? 10); [done|]. apply IH. apply Z.div_pos; lia.
Qed.

Lemma parse_dec_digits fuel n :
  0 <= n < 10 ^ Z.of_nat fuel -> n < 2 ^ 64 -> parse_digits 0 (dec_digits fuel n) = Some n.
Proof.
  revert n. induction fuel as [|fuel IH]; intros n Hn Hb; [simpl in *; f_equal; lia|].
  cbn [dec_digits]. rewrite parse_digits_app.
  pose proof (Z.mod_pos_bound n 10 eq_refl). pose proof (Z.div_mod n 10).
  assert (parse_digits 0 (if n <? 10 then [] else dec_digits fuel (n / 10)) = Some (n / 10)) as ->.
  { destruct (Z.ltb_spec n 10); [by rewrite Z.div_small by lia|]. apply IH; [|lia].
    rewrite Nat2Z.inj_succ, Z.pow_succ_r in Hn by lia.
    split; [apply Z.div_pos; lia|]. apply Z.div_lt_upper_bound; lia. }
  cbn [mbind option_bind parse_digits]. unfold digit_step.
  destruct (digit_bytes (n mod 10)) as [-> ->]; [lia|].
  replace (n / 10 * 10 + (48 + n mod 10 - 48)) with n by lia.
  by destruct (Z.ltb_spec n (2 ^ 64)); [|lia].
Qed.

Lemma dec_digits_nonempty fuel n : dec_digits (S fuel) n <> [].
Proof. cbn [dec_digits]. by destruct (if n <? 10 then _ else _). Qed.

Lemma show_u64_digits n : 0 <= n -> forallb is_digit (show_u64 n) = true /\ show_u64 n <> [].
Proof. intros. split; [by apply dec_digits_digits|apply dec_digits_nonempty]. Qed.

Lemma parse_show_u64 n : is_u64 n = true -> parse_u64 (show_u64 n) = Some n.
Proof.
  unfold is_u64. intros Hn. destruct (show_u64_digits n) as [Hd Hne]; [lia|].
  pose proof (parse_dec_digits 20 n) as Hp. unfold show_u64, parse_u64 in *.
  destruct (dec_digits 20 n) as [|c l]; [done|].
  rewrite bool_decide_false; [apply Hp; lia|].
  apply digit_not_plus. simpl in Hd. by apply andb_true_iff in Hd as [? _].
Qed.

Lemma show_u64_inj n m : is_u64 n = true -> is_u64 m = true -> show_u64 n = show_u64 m -> n = m.
Proof.
  intros Hn Hm E. apply (inj Some). rewrite <- (parse_show_u64 n Hn), <- (parse_show_u64 m Hm).
  by rewrite E.
Qed.

Lemma parse_digits_nonneg acc s n : 0 <= acc -> parse_digits acc s = Some n -> 0 <= n.
Proof.
  revert acc. induction s as [|c s IH]; intros acc Ha; simpl; [by intros [= <-]|].
  unfold digit_step. destruct (is_digit c) eqn:Ec; [|done]. destruct (_ <? _); [|done]. simpl.
  unfold is_digit, in_range in Ec. apply IH. lia.
Qed.

Lemma parse_u64_nonneg s n : parse_u64 s = Some n -> 0 <= n.
Proof.
  unfold parse_u64. destruct s as [|c rest]; [done|]. case_bool_decide; [destruct rest; [done|]|];
    by apply parse_digits_nonneg.
Qed.

(** A run of digits is delimited by what follows it. *)
Lemma digits_delimited a b r s :
  forallb is_digit a = true -> forallb is_digit b = true ->
  match r with [] => True | c :: _ => is_digit c = false end ->
  match s with [] => True | c :: _ => is_digit c = false end ->
  a ++ r = b ++ s -> a = b /\ r = s.
Proof.
  revert b. induction a as [|x a IH]; intros [|y b] Ha Hb Hr Hs E; simpl in *.
  - done.
  - subst r. apply andb_true_iff in Hb as [? _]. congruence.
  - subst s. apply andb_true_iff in Ha as [? _]. congruence.
  - injection E as -> E. apply andb_true_iff in Ha as [_ ?], Hb as [_ ?].
    destruct (IH b) as [-> ->]; done.
Qed.

(** * Lines *)

(** [split_inclusive('\n')], a last piece without newline included. *)
Fixpoint raw_lines (s cur : bytes) : list (bytes * bool) :=
  match s with
  | [] => match cur with [] => [] | _ => [(cur, false)] end
  | c :: s =>
      if bool_decide (c = NL) then (cur, true) :: raw_lines s []
      else raw_lines s (cur ++ [c])
  end.

Definition strip_cr (l : bytes) : bytes :=
  match split_last l with
  | Some (c, r) => if bool_decide (c = CR) then r else l
  | None => l
  end.

(** [str::lines]: the newline is dropped, and a carriage return before it. *)
Definition lines (s : bytes) : list bytes :=
  map (fun '(l, nl) => if nl : bool then strip_cr l else l) (raw_lines s []).

Definition no_nl (l : bytes) : bool := forallb (fun c => negb (bool_decide (c = NL))) l.

Lemma raw_lines_app l s cur :
  no_nl l = true -> raw_lines (l ++ NL :: s) cur = (cur ++ l, true) :: raw_lines s [].
Proof.
  revert cur. induction l as [|c l IH]; intros cur Hl; simpl.
  - by rewrite app_nil_r.
  - simpl in Hl. apply andb_true_iff in Hl as [Hc Hl]. apply negb_true_iff in Hc. rewrite Hc.
    rewrite IH by done. by rewrite <- app_assoc.
Qed.

Lemma lines_cons l s : no_nl l = true -> lines (l ++ NL :: s) = strip_cr l :: lines s.
Proof. intros. unfold lines. by rewrite raw_lines_app. Qed.

Lemma raw_lines_last l cur :
  no_nl l = true -> raw_lines l cur = match cur ++ l with [] => [] | _ => [(cur ++ l, false)] end.
Proof.
  revert cur. induction l as [|c l IH]; intros cur Hl; simpl.
  - rewrite app_nil_r. by destruct cur.
  - simpl in Hl. apply andb_true_iff in Hl as [Hc Hl]. apply negb_true_iff in Hc. rewrite Hc.
    rewrite IH by done. by rewrite <- app_assoc.
Qed.

Lemma lines_unterminated l : no_nl l = true -> l <> [] -> lines l = [l].
Proof. intros Hl Hne. unfold lines. rewrite raw_lines_last by done. by destruct l. Qed.

(** A text that ends in a newline, followed by more text. *)
Lemma lines_app ls s :
  Forall (fun l => no_nl l = true) ls ->
  lines (concat (map (fun l => l ++ [NL]) ls) ++ s) = map strip_cr ls ++ lines s.
Proof.
  induction 1 as [|l ls Hl Hls IH]; [done|]. simpl.
  rewrite <- !app_assoc. simpl. by rewrite lines_cons, IH.
Qed.

(** * Whitespace *)

(** The length of the [char::is_whitespace] character a text starts with, 0 if
    there is none (the encodings of U+0009..000D, 0020, 0085, 00A0, 1680,
    2000..200A, 2028, 2029, 202F, 205F, 3000). *)
Definition ws_len (s : bytes) : nat :=
  match s with
  | a :: b :: c :: _ =>
      if in_range 0x09 0x0D a || in_range 0x20 0x20 a then 1
      else if in_range 0xC2 0xC2 a && (in_range 0x85 0x85 b || in_range 0xA0 0xA0 b) then 2
      else if (in_range 0xE1 0xE1 a && in_range 0x9A 0x9A b && in_range 0x80 0x80 c)
           || (in_range 0xE2 0xE2 a && in_range 0x80 0x80 b
               && (in_range 0x80 0x8A c || in_range 0xA8 0xA9 c || in_range 0xAF 0xAF c))
           || (in_range 0xE2 0xE2 a && in_range 0x81 0x81 b && in_range 0x9F 0x9F c)
           || (in_range 0xE3 0xE3 a && in_range 0x80 0x80 b && in_range 0x80 0x80 c) then 3
      else 0
  | [a; b] =>
      if in_range 0x09 0x0D a || in_range 0x20 0x20 a then 1
      else if in_range 0xC2 0xC2 a && (in_range 0x85 0x85 b || in_range 0xA0 0xA0 b) then 2
      else 0
  | [a] => if in_range 0x09 0x0D a || in_range 0x20 0x20 a then 1 else 0
  | [] => 0
  end%nat.

(** The fields of a text, [skip] being the bytes left of a whitespace character. *)
Fixpoint split_ws (s : bytes) (skip : nat) (cur : bytes) : list bytes :=
  match s with
  | [] => match cur with [] => [] | _ => [cur] end
  | c :: s' =>
      match skip with
      | S skip => split_ws s' skip cur
      | O =>
          match ws_len s with
          | O => split_ws s' 0 (cur ++ [c])
          | S skip =>
              match cur with
              | [] => split_ws s' skip []
              | _ => cur :: split_ws s' skip []
              end
          end
      end
  end.

(** [str::split_whitespace]. *)
Definition split_whitespace (s : bytes) : list bytes := split_ws s 0 [].

(** Bytes that neither are whitespace nor start a wider whitespace character. *)
Definition plain (c : byte) : bool := in_range 0x21 0x7E c.

Lemma ws_len_plain c s : plain c = true -> ws_len (c :: s) = 0%nat.
Proof.
  unfold plain, ws_len, in_range. intros Hc. apply andb_true_iff in Hc as [H1 H2].
  destruct s as [|b [|d s]];
    repeat match goal with |- context [if ?x then _ else _] => destruct x eqn:? end; try done; lia.
Qed.

Lemma split_ws_plain l s cur :
  forallb plain l = true -> split_ws (l ++ s) 0 cur = split_ws s 0 (cur ++ l).
Proof.
  revert cur. induction l as [|c l IH]; intros cur Hl; simpl app; [by rewrite app_nil_r|].
  simpl in Hl. apply andb_true_iff in Hl as [Hc Hl]. cbn [split_ws].
  rewrite ws_len_plain by done. rewrite IH by done. by rewrite <- app_assoc.
Qed.

Lemma split_ws_space s cur :
  split_ws (SPACE :: s) 0 cur = match cur with [] => [] | _ => [cur] end ++ split_ws s 0 [].
Proof.
  cbn [split_ws]. replace (ws_len (SPACE :: s)) with 1%nat by (by destruct s as [|b [|d s]]).
  by destruct cur.
Qed.

(** * Joining *)

(** Elements separated by a byte. *)
Fixpoint join (sep : byte) (ls : list bytes) : bytes :=
  match ls with
  | [] => []
  | [l] => l
  | l :: ls => l ++ sep :: join sep ls
  end.

(** * Trimming and splitting *)

(** Whether a text is whitespace only, [skip] bytes into a whitespace character. *)
Fixpoint all_ws (s : bytes) (skip : nat) : bool :=
  match s with
  | [] => true
  | c :: s' =>
      match skip with
      | S skip => all_ws s' skip
      | O => match ws_len s with O => false | S skip => all_ws s' skip end
      end
  end.

Fixpoint skip_ws (s : bytes) (skip : nat) : bytes :=
  match s with
  | [] => []
  | c :: s' =>
      match skip with
      | S skip => skip_ws s' skip
      | O => match ws_len s with O => s | S skip => skip_ws s' skip end
      end
  end.

Fixpoint trim_end (s : bytes) : bytes :=
  match s with
  | [] => []
  | c :: s' => if all_ws s 0 then [] else c :: trim_end s'
  end.

(** [str::trim] *)
Definition trim (s : bytes) : bytes := trim_end (skip_ws s 0).

(** [str::split] at a character: always at least one part. *)
Fixpoint split_on (sep : byte) (s : bytes) : list bytes :=
  match s with
  | [] => [[]]
  | c :: s' =>
      if bool_decide (c = sep) then [] :: split_on sep s'
      else match split_on sep s' with
           | part :: parts => (c :: part) :: parts
           | [] => [[c]]
           end
  end.

Lemma split_on_join (sep : byte) (s : bytes) : concat (map (cons sep) (split_on sep s)) = sep :: s.
Proof.
  induction s as [|c s IH]; [done|]. simpl. case_bool_decide as E; [subst; simpl; by rewrite IH|].
  destruct (split_on sep s) as [|p ps]; [done|]. simpl in *. by injection IH as ->.
Qed.

Lemma split_on_free (sep : byte) (s : bytes) : Forall (fun c => sep ∉ c) (split_on sep s).
Proof.
  induction s as [|c s IH]; simpl; [repeat constructor; set_solver|]. case_bool_decide as E.
  - constructor; [set_solver|done].
  - destruct (split_on sep s) as [|p ps]; [repeat constructor; set_solver|].
    apply Forall_cons_1 in IH as [Hp Hps]. constructor; [set_solver|done].
Qed.

Lemma split_on_app (sep : byte) (c s : bytes) : sep ∉ c -> split_on sep (c ++ sep :: s) = c :: split_on sep s.
Proof.
  induction c as [|x c IH]; intros Hc; simpl; [by rewrite bool_decide_true|].
  rewrite bool_decide_false by set_solver. by rewrite IH by set_solver.
Qed.

Lemma split_on_whole (sep : byte) (c : bytes) : sep ∉ c -> split_on sep c = [c].
Proof.
  induction c as [|x c IH]; intros Hc; simpl; [done|]. rewrite bool_decide_false by set_solver. by rewrite IH by set_solver.
Qed.

Lemma split_on_path (sep : byte) (c : bytes) (comps : list bytes) :
  Forall (fun x => sep ∉ x) (c :: comps) -> split_on sep (c ++ concat (map (cons sep) comps)) = c :: comps.
Proof.
  revert c. induction comps as [|d comps IH]; intros c Hf; apply Forall_cons_1 in Hf as [Hc Hf]; simpl.
  - rewrite app_nil_r. by apply split_on_whole.
  - rewrite split_on_app by done. f_equal. by apply IH.
Qed.

(** * Prefixes, suffixes and case *)

(** [u8::to_ascii_lowercase] *)
Definition ascii_lower (c : byte) : byte :=
  if in_range 65 90 c then z2b (b2z c + 32) else c.

(** [str::strip_prefix], [str::strip_suffix]. *)
Fixpoint strip_prefix (pre l : bytes) : option bytes :=
  match pre, l with
  | [], _ => Some l
  | x :: pre, y :: l => if bool_decide (x = y) then strip_prefix pre l else None
  | _ :: _, [] => None
  end.

Definition strip_suffix (suf l : bytes) : option bytes := @rev byte <$> strip_prefix (rev suf) (rev l).

Lemma strip_prefix_spec pre l r : strip_prefix pre l = Some r <-> l = pre ++ r.
Proof.
  revert l. induction pre as [|x pre IH]; intros l; simpl; [naive_solver|].
  destruct l as [|y l]; [naive_solver|]. case_bool_decide; [|naive_solver].
  rewrite IH. naive_solver.
Qed.

Lemma strip_suffix_spec suf l r : strip_suffix suf l = Some r <-> l = r ++ suf.
Proof.
  unfold strip_suffix. destruct (strip_prefix (rev suf) (rev l)) as [x|] eqn:E; simpl.
  - apply strip_prefix_spec in E. apply (f_equal (@rev _)) in E. rewrite rev_involutive, rev_app_distr, rev_involutive in E.
    rewrite E. split; [by intros [= <-]|]. intros E'. by apply app_inv_tail in E' as ->.
  - split; [done|]. intros ->. exfalso.
    assert (strip_prefix (rev suf) (rev (r ++ suf)) = Some (rev r)) as E' by (apply strip_prefix_spec, rev_app_distr).
    congruence.
Qed.
