(* ===== verification/MerkleTree.v ===== *)
(** The abstract RFC 6962 Merkle tree, shared by the transparency log (SHA-256)
    and the series tree (BLAKE3): the tree head of a list, the peaks of its
    perfect subtrees, audit paths and consistency proofs, over an arbitrary
    digest type and node function.  The components refine their code to these
    definitions.  Soundness is stated with explicit collisions: two different
    pairs of digests, one hashed by the verifier and one hashed in the tree,
    with the same node hash. *)

From stdpp Require Import base list numbers sets options.
From Stdlib Require Import ZArith Lia.
From S2P Require Import Prelude RustStd.

Open Scope nat_scope.

(** * The split point *)

(** The largest power of two strictly less than [n], for [n >= 2]. *)
Definition split (n : nat) : nat := 2 ^ Nat.log2 (n - 1).

Lemma split_spec n : 2 <= n -> 0 < split n /\ split n < n /\ n <= 2 * split n.
Proof.
  intros Hn. unfold split.
  pose proof (Nat.log2_spec (n - 1)) as [H1 H2]; [lia|].
  rewrite Nat.pow_succ_r' in H2. split_and!; [|lia|lia].
  apply Nat.neq_0_lt_0. apply Nat.pow_nonzero. lia.
Qed.

Lemma split_unique n p : 2 ^ p < n -> n <= 2 * 2 ^ p -> split n = 2 ^ p.
Proof.
  intros H1 H2. unfold split. f_equal. pose proof (Nat.pow_nonzero 2 p).
  apply Nat.log2_unique; [lia|]. rewrite Nat.pow_succ_r'. lia.
Qed.

Lemma split_pow2 p : split (2 ^ S p) = 2 ^ p.
Proof.
  pose proof (Nat.pow_nonzero 2 p). apply split_unique; rewrite Nat.pow_succ_r'; lia.
Qed.

Lemma split_log2 n : 2 <= n -> Z.of_nat (split n) = (2 ^ Z.log2 (Z.of_nat n - 1))%Z.
Proof.
  intros Hn. unfold split. rewrite Nat2Z.inj_pow. f_equal. symmetry.
  pose proof (Nat.log2_spec (n - 1)) as [H1 H2]; [lia|].
  apply Z.log2_unique; [lia|]. rewrite <- Nat2Z.inj_succ, <- !(Nat2Z.inj_pow 2). lia.
Qed.

(** The side on which the sibling of a node lies. *)
Inductive side := Lf | Rt.

#[export] Instance side_eq_dec : EqDecision side.
Proof. solve_decision. Defined.

Definition all_right (ds : list side) : bool := forallb (fun d => bool_decide (d = Rt)) ds.

(** The sides of the siblings from leaf [m] of a tree of [n] leaves up to the root. *)
Fixpoint incl_dirs_fuel (fuel m n : nat) : list side :=
  match fuel with
  | O => []
  | S fuel =>
      if n <=? 1 then []
      else if m <? split n then incl_dirs_fuel fuel m (split n) ++ [Rt]
      else incl_dirs_fuel fuel (m - split n) (n - split n) ++ [Lf]
  end.
Definition incl_dirs (m n : nat) : list side := incl_dirs_fuel n m n.

(** The sides of the siblings from the last complete subtree of the first [m]
    leaves up to the root of a tree of [n] leaves. *)
Fixpoint cons_dirs_fuel (fuel m n : nat) : list side :=
  match fuel with
  | O => []
  | S fuel =>
      if m =? n then []
      else if m <=? split n then cons_dirs_fuel fuel m (split n) ++ [Rt]
      else cons_dirs_fuel fuel (m - split n) (n - split n) ++ [Lf]
  end.
Definition cons_dirs (m n : nat) : list side := cons_dirs_fuel n m n.

Lemma incl_dirs_fuel_irrel f g m n :
  n <= f -> n <= g -> incl_dirs_fuel f m n = incl_dirs_fuel g m n.
Proof.
  revert g m n. induction f as [|f IH]; intros g m n Hf Hg.
  - assert (n = 0) as -> by lia. by destruct g.
  - destruct g as [|g]; [assert (n = 0) as -> by lia; done|].
    cbn [incl_dirs_fuel]. destruct (Nat.leb_spec n 1); [done|].
    pose proof (split_spec n ltac:(lia)).
    destruct (m <? split n); f_equal; apply IH; lia.
Qed.

Lemma incl_dirs_unfold m n :
  2 <= n ->
  incl_dirs m n = if m <? split n then incl_dirs m (split n) ++ [Rt]
                  else incl_dirs (m - split n) (n - split n) ++ [Lf].
Proof.
  intros Hn. pose proof (split_spec n Hn). unfold incl_dirs at 1.
  rewrite (incl_dirs_fuel_irrel _ (S n)) by lia. cbn [incl_dirs_fuel].
  destruct (Nat.leb_spec n 1); [lia|]. unfold incl_dirs.
  destruct (m <? split n); f_equal; apply incl_dirs_fuel_irrel; lia.
Qed.

Lemma cons_dirs_fuel_irrel f g m n :
  m <= n -> n <= f -> n <= g -> 0 < m -> cons_dirs_fuel f m n = cons_dirs_fuel g m n.
Proof.
  revert g m n. induction f as [|f IH]; intros g m n Hm Hf Hg Hpos; [lia|].
  destruct g as [|g]; [lia|].
  cbn [cons_dirs_fuel]. destruct (Nat.eqb_spec m n); [done|].
  pose proof (split_spec n ltac:(lia)).
  destruct (Nat.leb_spec m (split n)); f_equal; apply IH; lia.
Qed.

Lemma cons_dirs_unfold m n :
  0 < m -> m < n ->
  cons_dirs m n = if m <=? split n then cons_dirs m (split n) ++ [Rt]
                  else cons_dirs (m - split n) (n - split n) ++ [Lf].
Proof.
  intros Hm Hn. pose proof (split_spec n ltac:(lia)). unfold cons_dirs at 1.
  rewrite (cons_dirs_fuel_irrel _ (S n)) by lia. cbn [cons_dirs_fuel].
  destruct (Nat.eqb_spec m n); [lia|]. unfold cons_dirs.
  destruct (Nat.leb_spec m (split n)); f_equal; apply cons_dirs_fuel_irrel; lia.
Qed.

Lemma cons_dirs_same n : cons_dirs n n = [].
Proof. unfold cons_dirs. destruct n; [done|]. cbn [cons_dirs_fuel]. by rewrite Nat.eqb_refl. Qed.

Lemma all_right_snoc ds d : all_right (ds ++ [d]) = all_right ds && bool_decide (d = Rt).
Proof. unfold all_right. rewrite forallb_app. simpl. by rewrite andb_true_r. Qed.

(** The siblings lie all to the right exactly when the old size is a power of two. *)
Lemma cons_dirs_all_right m n :
  0 < m -> m <= n -> (m = n -> exists p, n = 2 ^ p) ->
  all_right (cons_dirs m n) = true <-> exists p, m = 2 ^ p.
Proof.
  revert m. induction n as [n IH] using lt_wf_ind. intros m Hm Hmn Hpow.
  destruct (decide (m = n)) as [->|Hne].
  - rewrite cons_dirs_same. naive_solver.
  - rewrite cons_dirs_unfold by lia. pose proof (split_spec n ltac:(lia)) as Hs.
    destruct (Nat.leb_spec m (split n)); rewrite all_right_snoc; simpl.
    + rewrite andb_true_r. apply IH; [lia..|]. intros _. by eexists.
    + rewrite andb_false_r. split; [done|]. intros [q Hq]. exfalso.
      unfold split in *. set (p := Nat.log2 (n - 1)) in *. subst m.
      assert (p < q) by (apply (Nat.pow_lt_mono_r_iff 2); lia).
      assert (2 ^ S p <= 2 ^ q) by (apply Nat.pow_le_mono_r; lia).
      rewrite Nat.pow_succ_r' in *. lia.
Qed.

(** ** The same sides read bottom-up

    Pairing up the leaves of a tree of [n] leaves gives the tree of
    [(n + 1) / 2] nodes one level up (an unpaired last leaf is promoted). *)

(** [lia] with the halves of the goal as fresh variables. *)
Ltac half_facts :=
  repeat match goal with
  | |- context [Nat.div ?x 2] => gen_half x
  | H : context [Nat.div ?x 2] |- _ => gen_half x
  end
with gen_half x :=
  let q := fresh "half" in let Hq := fresh "Hhalf" in
  pose proof (Nat.div_mod_eq x 2) as Hq; pose proof (Nat.mod_upper_bound x 2 ltac:(discriminate));
  generalize dependent (Nat.div x 2); intros q; intros.
Ltac hlia := first [lia | half_facts; lia].

Lemma split_half n : 3 <= n -> split n = 2 * split ((n + 1) / 2).
Proof.
  intros Hn. pose proof (split_spec ((n + 1) / 2) ltac:(hlia)) as Hs.
  unfold split at 2. rewrite <- Nat.pow_succ_r'.
  apply split_unique; rewrite ?Nat.pow_succ_r'; fold (split ((n + 1) / 2)); hlia.
Qed.

(** The side at the lowest level, if the node has a sibling there. *)
Definition low_side (m n : nat) : list side :=
  if Nat.odd m then [Lf] else if m <? n - 1 then [Rt] else [].

Lemma low_side_eq m m' n n' :
  Nat.odd m = Nat.odd m' -> (m <? n - 1) = (m' <? n' - 1) \/ Nat.odd m = true ->
  low_side m n = low_side m' n'.
Proof. unfold low_side. intros <- [E|E]; rewrite E; done. Qed.

Lemma odd_double_plus a m : Nat.odd (m - 2 * a) = Nat.odd m \/ m < 2 * a.
Proof.
  destruct (decide (m < 2 * a)); [by right|left].
  replace m with (m - 2 * a + 2 * a) at 2 by hlia. rewrite Nat.odd_add_mul_2. done.
Qed.

Lemma odd_le_even m k : Nat.odd m = false -> m < 2 * k -> m < 2 * k - 1.
Proof.
  intros Ho Hm. destruct (decide (m = 2 * k - 1)) as [E|]; [|hlia].
  rewrite <- Nat.negb_even in Ho. apply negb_false_iff, Nat.even_spec in Ho as [q ->]. hlia.
Qed.

Lemma incl_dirs_low m n :
  m < n -> 2 <= n -> incl_dirs m n = low_side m n ++ incl_dirs (m / 2) ((n + 1) / 2).
Proof.
  revert m. induction n as [n IH] using lt_wf_ind. intros m Hm Hn.
  destruct (decide (n = 2)) as [->|Hn3].
  { destruct m as [|[|]]; [done..|hlia]. }
  pose proof (split_half n ltac:(hlia)) as Hk. pose proof (split_spec n ltac:(hlia)) as Hs.
  set (k' := split ((n + 1) / 2)) in *.
  rewrite (incl_dirs_unfold m n) by hlia.
  rewrite (incl_dirs_unfold (m / 2) ((n + 1) / 2)) by hlia. fold k'.
  destruct (Nat.ltb_spec m (split n)) as [Hlt|Hge].
  - destruct (Nat.ltb_spec (m / 2) k'); [|hlia].
    rewrite (IH (split n)) by hlia. rewrite app_assoc. f_equal.
    replace ((split n + 1) / 2) with k' by hlia. f_equal.
    apply low_side_eq; [done|]. destruct (Nat.odd m) eqn:Ho; [by right|left].
    pose proof (odd_le_even m k' Ho).
    destruct (Nat.ltb_spec m (split n - 1)), (Nat.ltb_spec m (n - 1)); hlia.
  - destruct (Nat.ltb_spec (m / 2) k'); [hlia|].
    destruct (decide (n - split n = 1)) as [E1|E1].
    + assert (m = split n) as -> by hlia.
      assert (low_side (split n) n = []) as ->.
      { unfold low_side. replace (Nat.odd (split n)) with false by (by rewrite Hk, Nat.odd_mul).
        destruct (Nat.ltb_spec (split n) (n - 1)); [lia|done]. }
      rewrite E1. replace (split n - split n) with 0 by hlia.
      replace (split n / 2 - k') with 0 by hlia. replace ((n + 1) / 2 - k') with 1 by hlia. done.
    + rewrite (IH (n - split n)) by hlia. rewrite app_assoc. f_equal. f_equal.
      * apply low_side_eq.
        { destruct (odd_double_plus k' m) as [<-|]; [by rewrite Hk|hlia]. }
        left. destruct (Nat.ltb_spec (m - split n) (n - split n - 1)), (Nat.ltb_spec m (n - 1)); hlia.
      * f_equal; hlia.
Qed.

(** An odd old size ends in a single leaf, whose path is the proof. *)
Lemma cons_dirs_odd m n : 0 < m -> m < n -> Nat.odd m = true -> cons_dirs m n = incl_dirs (m - 1) n.
Proof.
  revert m. induction n as [n IH] using lt_wf_ind. intros m Hm Hmn Ho.
  destruct (decide (n = 2)) as [->|Hn3].
  { assert (m = 1) as -> by hlia. done. }
  pose proof (split_half n ltac:(hlia)) as Hk. pose proof (split_spec n ltac:(hlia)) as Hs.
  rewrite cons_dirs_unfold, incl_dirs_unfold by hlia.
  destruct (Nat.leb_spec m (split n)) as [Hle|Hgt].
  - assert (m <> split n) by (intros ->; by rewrite Hk, Nat.odd_mul in Ho).
    destruct (Nat.ltb_spec (m - 1) (split n)); [|hlia]. f_equal. apply IH; [hlia..|done].
  - destruct (Nat.ltb_spec (m - 1) (split n)); [hlia|]. f_equal.
    rewrite IH; [f_equal; hlia|hlia..|].
    rewrite Hk. destruct (odd_double_plus (split ((n + 1) / 2)) m) as [->|]; [done|hlia].
Qed.

(** An even old size is a size of the tree one level up. *)
Lemma cons_dirs_even m n :
  0 < m -> m < n -> Nat.odd m = false -> cons_dirs m n = cons_dirs (m / 2) ((n + 1) / 2).
Proof.
  revert m. induction n as [n IH] using lt_wf_ind. intros m Hm Hmn Ho.
  assert (exists q, m = 2 * q) as [q ->].
  { rewrite <- Nat.negb_even in Ho. by apply negb_false_iff, Nat.even_spec in Ho. }
  pose proof (split_half n ltac:(hlia)) as Hk. pose proof (split_spec n ltac:(hlia)) as Hs.
  set (k' := split ((n + 1) / 2)) in *.
  rewrite cons_dirs_unfold by hlia. rewrite (cons_dirs_unfold (2 * q / 2)) by hlia. fold k'.
  replace (2 * q / 2) with q by hlia.
  destruct (Nat.leb_spec (2 * q) (split n)) as [Hle|Hgt].
  - destruct (Nat.leb_spec q k'); [|hlia]. f_equal.
    destruct (decide (q = k')) as [->|]; [by rewrite Hk, !cons_dirs_same|].
    rewrite IH; [f_equal; hlia|hlia..|done].
  - destruct (Nat.leb_spec q k'); [hlia|]. f_equal.
    rewrite IH; [f_equal; hlia|hlia..|].
    rewrite Hk. replace (2 * q - 2 * k') with (2 * (q - k')) by hlia. by rewrite Nat.odd_mul.
Qed.

Section Merkle.
Context {D : Type} (node : D -> D -> D) (empty : D).

(** * Tree heads *)

Fixpoint MTH_fuel (fuel : nat) (l : list D) : D :=
  match fuel, l with
  | _, [] => empty
  | _, [x] => x
  | O, _ => empty
  | S fuel, _ =>
      node (MTH_fuel fuel (take (split (length l)) l)) (MTH_fuel fuel (drop (split (length l)) l))
  end.

(** The Merkle tree hash of a list of leaf digests. *)
Definition MTH (l : list D) : D := MTH_fuel (length l) l.

Lemma MTH_fuel_S f l :
  2 <= length l ->
  MTH_fuel (S f) l
  = node (MTH_fuel f (take (split (length l)) l)) (MTH_fuel f (drop (split (length l)) l)).
Proof. destruct l as [|x [|y l]]; simpl; [lia..|done]. Qed.

Lemma MTH_fuel_irrel f g l : length l <= f -> length l <= g -> MTH_fuel f l = MTH_fuel g l.
Proof.
  revert g l. induction f as [|f IH]; intros g l Hf Hg.
  - destruct l; [|simpl in Hf; lia]. by destruct g.
  - destruct l as [|x [|y l]]; [by destruct g..|].
    destruct g as [|g]; [simpl in Hg; lia|].
    assert (2 <= length (x :: y :: l)) as H2 by (simpl; lia).
    pose proof (split_spec _ H2). rewrite !MTH_fuel_S by done.
    f_equal; apply IH; rewrite ?length_take, ?length_drop; lia.
Qed.

Lemma MTH_nil : MTH [] = empty.
Proof. done. Qed.

Lemma MTH_one x : MTH [x] = x.
Proof. done. Qed.

Lemma MTH_unfold l :
  2 <= length l ->
  MTH l = node (MTH (take (split (length l)) l)) (MTH (drop (split (length l)) l)).
Proof.
  intros Hl. pose proof (split_spec _ Hl) as Hk. unfold MTH at 1.
  rewrite (MTH_fuel_irrel _ (S (length l - 1))) by lia.
  rewrite MTH_fuel_S by done. unfold MTH.
  f_equal; apply MTH_fuel_irrel; rewrite ?length_take, ?length_drop; lia.
Qed.

(** Induction along the tree. *)
Lemma merkle_ind (P : list D -> Prop) :
  P [] -> (forall x, P [x]) ->
  (forall l, 2 <= length l -> P (take (split (length l)) l) -> P (drop (split (length l)) l) -> P l) ->
  forall l, P l.
Proof.
  intros H0 H1 H2 l. remember (length l) as n eqn:Hn. revert l Hn.
  induction n as [n IH] using lt_wf_ind. intros l ->.
  destruct l as [|x [|y l]]; [done..|].
  pose proof (split_spec (length (x :: y :: l))) as Hk. specialize (Hk ltac:(simpl; lia)).
  apply H2; [simpl; lia| |];
    (eapply IH; [|reflexivity]); rewrite ?length_take, ?length_drop; lia.
Qed.

(** The tree head of a concatenation at its split point. *)
Lemma MTH_app l1 l2 p :
  length l1 = 2 ^ p -> 0 < length l2 -> length l2 <= 2 ^ p ->
  MTH (l1 ++ l2) = node (MTH l1) (MTH l2).
Proof.
  intros H1 H2 H3. pose proof (Nat.pow_nonzero 2 p).
  rewrite MTH_unfold by (rewrite length_app; lia).
  rewrite (split_unique _ p) by (rewrite length_app; lia).
  by rewrite <- H1, take_app_length, drop_app_length.
Qed.

(** The pairs of digests hashed when computing [MTH l]. *)
Fixpoint tree_pairs_fuel (fuel : nat) (l : list D) : list (D * D) :=
  match fuel, l with
  | S fuel, _ :: _ :: _ =>
      (MTH (take (split (length l)) l), MTH (drop (split (length l)) l))
      :: tree_pairs_fuel fuel (take (split (length l)) l)
      ++ tree_pairs_fuel fuel (drop (split (length l)) l)
  | _, _ => []
  end.
Definition tree_pairs (l : list D) : list (D * D) := tree_pairs_fuel (length l) l.

Lemma tree_pairs_fuel_S f l :
  2 <= length l ->
  tree_pairs_fuel (S f) l
  = (MTH (take (split (length l)) l), MTH (drop (split (length l)) l))
    :: tree_pairs_fuel f (take (split (length l)) l)
    ++ tree_pairs_fuel f (drop (split (length l)) l).
Proof. destruct l as [|x [|y l]]; simpl; [lia..|done]. Qed.

Lemma tree_pairs_fuel_irrel f g l :
  length l <= f -> length l <= g -> tree_pairs_fuel f l = tree_pairs_fuel g l.
Proof.
  revert g l. induction f as [|f IH]; intros g l Hf Hg.
  - destruct l; [|simpl in Hf; lia]. by destruct g.
  - destruct l as [|x [|y l]]; [by destruct g..|].
    destruct g as [|g]; [simpl in Hg; lia|].
    assert (2 <= length (x :: y :: l)) as H2 by (simpl; lia).
    pose proof (split_spec _ H2). rewrite !tree_pairs_fuel_S by done.
    f_equal; f_equal; apply IH; rewrite ?length_take, ?length_drop; lia.
Qed.

Lemma tree_pairs_unfold l :
  2 <= length l ->
  tree_pairs l = (MTH (take (split (length l)) l), MTH (drop (split (length l)) l))
                 :: tree_pairs (take (split (length l)) l) ++ tree_pairs (drop (split (length l)) l).
Proof.
  intros Hl. pose proof (split_spec _ Hl) as Hk. unfold tree_pairs at 1.
  rewrite (tree_pairs_fuel_irrel _ (S (length l - 1))) by lia.
  rewrite tree_pairs_fuel_S by done. unfold tree_pairs.
  f_equal; f_equal; apply tree_pairs_fuel_irrel; rewrite ?length_take, ?length_drop; lia.
Qed.

(** A collision between what a verifier hashed and what the tree hashed. *)
Definition collision (hashed : list (D * D)) (l : list D) : Prop :=
  exists p q, p ∈ hashed /\ q ∈ tree_pairs l /\ p <> q /\ node p.1 p.2 = node q.1 q.2.

(** * Perfect subtrees and peaks *)

(** One round of pairwise hashing. *)
Fixpoint pair_up (l : list D) : list D :=
  match l with
  | x :: y :: l => node x y :: pair_up l
  | _ => []
  end.

Fixpoint fold_pairs (p : nat) (l : list D) : list D :=
  match p with
  | O => l
  | S p => fold_pairs p (pair_up l)
  end.

Lemma pair_up_app l1 l2 : Nat.Even (length l1) -> pair_up (l1 ++ l2) = pair_up l1 ++ pair_up l2.
Proof.
  intros [n Hn]. revert l1 Hn. induction n as [|n IH]; intros l1 Hn.
  - destruct l1; [done|simpl in Hn; lia].
  - destruct l1 as [|x [|y l1]]; [done|simpl in Hn; lia|].
    simpl. f_equal. apply IH. simpl in Hn. lia.
Qed.

Lemma length_pair_up l n : length l = 2 * n -> length (pair_up l) = n.
Proof.
  revert l. induction n as [|n IH]; intros l Hn.
  - destruct l; [done|simpl in Hn; lia].
  - destruct l as [|x [|y l]]; [simpl in Hn; lia..|]. simpl. f_equal. apply IH. simpl in Hn. lia.
Qed.

(** Hashing pairs does not change the head of a perfect tree. *)
Lemma MTH_pair_up p l : length l = 2 ^ S p -> MTH (pair_up l) = MTH l.
Proof.
  revert l. induction p as [|p IH]; intros l Hl.
  - destruct l as [|x [|y [|]]]; simpl in Hl; try lia. done.
  - rewrite Nat.pow_succ_r' in Hl.
    rewrite <- (take_drop (2 ^ S p) l) at 1 2.
    pose proof (Nat.pow_nonzero 2 p).
    assert (length (take (2 ^ S p) l) = 2 ^ S p) as Ht by (rewrite length_take; lia).
    assert (length (drop (2 ^ S p) l) = 2 ^ S p) as Hd by (rewrite length_drop; lia).
    rewrite pair_up_app by (rewrite Ht; exists (2 ^ p); rewrite Nat.pow_succ_r'; lia).
    rewrite (MTH_app (take _ l) (drop _ l) (S p)) by (rewrite ?Nat.pow_succ_r' in *; lia).
    assert (length (pair_up (take (2 ^ S p) l)) = 2 ^ p) as Hpt
      by (apply length_pair_up; rewrite Ht; apply Nat.pow_succ_r').
    assert (length (pair_up (drop (2 ^ S p) l)) = 2 ^ p) as Hpd
      by (apply length_pair_up; rewrite Hd; apply Nat.pow_succ_r').
    rewrite (MTH_app (pair_up _) (pair_up _) p) by lia. by rewrite !IH.
Qed.

(** The pairwise fold of a perfect run of [2^p] digests is its tree head. *)
Lemma fold_pairs_MTH p l : length l = 2 ^ p -> fold_pairs p l = [MTH l].
Proof.
  revert l. induction p as [|p IH]; intros l Hl.
  - destruct l as [|x [|]]; simpl in Hl; try lia. done.
  - simpl fold_pairs. rewrite IH; [by rewrite (MTH_pair_up p)|].
    apply length_pair_up. by rewrite Hl, Nat.pow_succ_r'.
Qed.

(** * Climbing from a subtree to the root *)

Definition step (d : side) (x h : D) : D :=
  match d with Lf => node x h | Rt => node h x end.
Definition step_pair (d : side) (x h : D) : D * D :=
  match d with Lf => (x, h) | Rt => (h, x) end.

(** Fold the siblings [xs], one per side, into [h]. *)
Fixpoint climb (ds : list side) (xs : list D) (h : D) : option D :=
  match ds, xs with
  | [], [] => Some h
  | d :: ds, x :: xs => climb ds xs (step d x h)
  | _, _ => None
  end.

(** The pairs hashed by [climb]. *)
Fixpoint climb_pairs (ds : list side) (xs : list D) (h : D) : list (D * D) :=
  match ds, xs with
  | d :: ds, x :: xs => step_pair d x h :: climb_pairs ds xs (step d x h)
  | _, _ => []
  end.

(** The old root of a consistency proof: only left siblings are folded. *)
Fixpoint climb_old (ds : list side) (xs : list D) (h : D) : D :=
  match ds, xs with
  | Lf :: ds, x :: xs => climb_old ds xs (node x h)
  | Rt :: ds, _ :: xs => climb_old ds xs h
  | _, _ => h
  end.

Lemma climb_length ds xs h r : climb ds xs h = Some r -> length xs = length ds.
Proof.
  revert xs h. induction ds as [|d ds IH]; intros [|x xs] h; simpl; try done.
  intros H. f_equal. by eapply IH.
Qed.

Lemma climb_snoc ds d xs x h r :
  climb ds xs h = Some r -> climb (ds ++ [d]) (xs ++ [x]) h = Some (step d x r).
Proof.
  revert xs h. induction ds as [|d' ds IH]; intros [|x' xs] h; simpl; try done.
  - by intros [= ->].
  - apply IH.
Qed.

Lemma climb_snoc_eq ds d xs x h :
  climb (ds ++ [d]) (xs ++ [x]) h = r ← climb ds xs h; Some (step d x r).
Proof.
  revert xs h. induction ds as [|d' ds IH]; intros [|x' xs] h; simpl; try done.
  - by destruct xs.
  - by destruct ds.
Qed.

Lemma climb_snoc_inv ds d xs h r :
  climb (ds ++ [d]) xs h = Some r ->
  exists ys y r', xs = ys ++ [y] /\ climb ds ys h = Some r' /\ r = step d y r'
    /\ climb_pairs (ds ++ [d]) xs h = climb_pairs ds ys h ++ [step_pair d y r'].
Proof.
  revert xs h. induction ds as [|d' ds IH]; intros xs h; simpl.
  - destruct xs as [|x [|]]; try done. intros [= <-]. exists [], x, h. done.
  - destruct xs as [|x xs]; [done|]. intros H.
    destruct (IH xs _ H) as (ys & y & r' & -> & Hc & -> & Hp).
    exists (x :: ys), y, r'. simpl. by rewrite Hp.
Qed.

Lemma climb_old_snoc ds d xs x h :
  length xs = length ds ->
  climb_old (ds ++ [d]) (xs ++ [x]) h
  = match d with Lf => node x (climb_old ds xs h) | Rt => climb_old ds xs h end.
Proof.
  revert xs h. induction ds as [|d' ds IH]; intros [|x' xs] h; simpl; try done.
  - intros Hl. injection Hl as Hl. destruct d'; rewrite IH by done; by destruct d.
Qed.

(** [locates ds l s xs]: the subtree [s] of the tree of [l] is reached by the
    sides [ds] (bottom-up), with the siblings [xs]. *)
Inductive locates : list side -> list D -> list D -> list D -> Prop :=
| loc_here l : locates [] l l []
| loc_left ds l s xs :
    2 <= length l -> locates ds (take (split (length l)) l) s xs ->
    locates (ds ++ [Rt]) l s (xs ++ [MTH (drop (split (length l)) l)])
| loc_right ds l s xs :
    2 <= length l -> locates ds (drop (split (length l)) l) s xs ->
    locates (ds ++ [Lf]) l s (xs ++ [MTH (take (split (length l)) l)]).

Lemma locates_length ds l s xs : locates ds l s xs -> length xs = length ds.
Proof. induction 1; rewrite ?length_app; simpl; lia. Qed.

(** Climbing from a subtree with its siblings reaches the root. *)
Lemma climb_complete ds l s xs : locates ds l s xs -> climb ds xs (MTH s) = Some (MTH l).
Proof.
  induction 1 as [|ds l s xs Hl Hloc IH|ds l s xs Hl Hloc IH]; [done|..];
    rewrite (climb_snoc _ _ _ _ _ _ IH); simpl; by rewrite <- MTH_unfold.
Qed.

Lemma collision_mono hashed hashed' l l' :
  hashed ⊆ hashed' -> tree_pairs l ⊆ tree_pairs l' -> collision hashed l -> collision hashed' l'.
Proof. intros H1 H2 (p & q & Hp & Hq & ?). exists p, q. split_and!; auto; naive_solver. Qed.

(** Reaching the root of [l] from [h] pins [h] and every sibling down, or
    exhibits a collision. *)
Lemma climb_sound `{!EqDecision D} ds l s xs ys h :
  locates ds l s xs -> climb ds ys h = Some (MTH l) ->
  (h = MTH s /\ ys = xs) \/ collision (climb_pairs ds ys h) l.
Proof.
  intros Hloc. revert ys.
  induction Hloc as [l|ds l s xs Hl Hloc IH|ds l s xs Hl Hloc IH]; intros ys Hc.
  - destruct ys; [|done]. injection Hc as ->. by left.
  - apply climb_snoc_inv in Hc as (ys' & y & r & -> & Hc & E & Hp).
    rewrite (MTH_unfold l Hl) in E. simpl in E. rewrite Hp.
    destruct (decide ((r, y) = (MTH (take (split (length l)) l), MTH (drop (split (length l)) l))))
      as [[= -> ->]|Hne].
    + destruct (IH _ Hc) as [[-> ->]|Hcol]; [by left|]. right.
      eapply collision_mono; [| |exact Hcol]; [set_solver|]. rewrite (tree_pairs_unfold l Hl). set_solver.
    + right. eexists (r, y), _. rewrite (tree_pairs_unfold l Hl).
      split_and!; [set_solver|by left|done|]. by symmetry.
  - apply climb_snoc_inv in Hc as (ys' & y & r & -> & Hc & E & Hp).
    rewrite (MTH_unfold l Hl) in E. simpl in E. rewrite Hp.
    destruct (decide ((y, r) = (MTH (take (split (length l)) l), MTH (drop (split (length l)) l))))
      as [[= -> ->]|Hne].
    + destruct (IH _ Hc) as [[-> ->]|Hcol]; [by left|]. right.
      eapply collision_mono; [| |exact Hcol]; [set_solver|]. rewrite (tree_pairs_unfold l Hl). set_solver.
    + right. eexists (y, r), _. rewrite (tree_pairs_unfold l Hl).
      split_and!; [set_solver|by left|done|]. by symmetry.
Qed.

(** Equal heads of lists of one length: the lists are equal, or their trees
    collide. *)
Lemma MTH_inj `{!EqDecision D} l1 l2 :
  length l1 = length l2 -> MTH l1 = MTH l2 -> l1 = l2 \/ collision (tree_pairs l1) l2.
Proof.
  revert l2. induction l1 as [|x|l1 Hl IHl IHr] using merkle_ind; intros l2 Hlen E.
  - destruct l2; [by left|done].
  - destruct l2 as [|y [|]]; try done. change (x = y) in E. subst. by left.
  - assert (2 <= length l2) as Hl2 by lia. pose proof (split_spec _ Hl) as Hs.
    rewrite (MTH_unfold l1 Hl), (MTH_unfold l2 Hl2), <- Hlen in E.
    rewrite (tree_pairs_unfold l1 Hl). unfold collision. rewrite (tree_pairs_unfold l2 Hl2), <- Hlen.
    set (k := split (length l1)) in *.
    destruct (decide ((MTH (take k l1), MTH (drop k l1)) = (MTH (take k l2), MTH (drop k l2))))
      as [[= El Er]|Hne].
    2:{ right. eexists _, _. split_and!; [by left|by left|done|done]. }
    destruct (IHl (take k l2)) as [E1|(p & q & ? & ? & ?)]; [rewrite !length_take; lia|done| |].
    2:{ right. exists p, q. split_and!; [set_solver..|naive_solver|naive_solver]. }
    destruct (IHr (drop k l2)) as [E2|(p & q & ? & ? & ?)]; [rewrite !length_drop; lia|done| |].
    2:{ right. exists p, q. split_and!; [set_solver..|naive_solver|naive_solver]. }
    left. by rewrite <- (take_drop k l1), <- (take_drop k l2), E1, E2.
Qed.

(** * Audit paths *)

Fixpoint PATH_fuel (fuel m : nat) (l : list D) : list D :=
  match fuel with
  | O => []
  | S fuel =>
      if length l <=? 1 then []
      else
        let k := split (length l) in
        if m <? k then PATH_fuel fuel m (take k l) ++ [MTH (drop k l)]
        else PATH_fuel fuel (m - k) (drop k l) ++ [MTH (take k l)]
  end.
Definition PATH (m : nat) (l : list D) : list D := PATH_fuel (length l) m l.

Lemma PATH_fuel_irrel f g m l :
  length l <= f -> length l <= g -> PATH_fuel f m l = PATH_fuel g m l.
Proof.
  revert g m l. induction f as [|f IH]; intros g m l Hf Hg.
  - destruct l; [|simpl in Hf; lia]. by destruct g.
  - destruct g as [|g]; [destruct l; [done|simpl in Hg; lia]|].
    cbn [PATH_fuel]. destruct (Nat.leb_spec (length l) 1); [done|].
    pose proof (split_spec (length l) ltac:(lia)).
    destruct (m <? split (length l)); f_equal; apply IH; rewrite ?length_take, ?length_drop; lia.
Qed.

Lemma PATH_unfold m l :
  2 <= length l ->
  PATH m l = (let k := split (length l) in
              if m <? k then PATH m (take k l) ++ [MTH (drop k l)]
              else PATH (m - k) (drop k l) ++ [MTH (take k l)]).
Proof.
  intros Hl. pose proof (split_spec _ Hl). unfold PATH at 1.
  rewrite (PATH_fuel_irrel _ (S (length l))) by lia. cbn [PATH_fuel].
  destruct (Nat.leb_spec (length l) 1); [lia|]. unfold PATH.
  destruct (m <? split (length l)); f_equal; apply PATH_fuel_irrel;
    rewrite ?length_take, ?length_drop; lia.
Qed.

Lemma PATH_small m l : length l <= 1 -> PATH m l = [].
Proof. intros H. unfold PATH. destruct l as [|x [|]]; [done..|simpl in H; lia]. Qed.

(** The audit path lists the siblings of its leaf. *)
Lemma PATH_locates m l x :
  l !! m = Some x -> locates (incl_dirs m (length l)) l [x] (PATH m l).
Proof.
  revert m x. induction l as [|y|l Hl IHl IHr] using merkle_ind; intros m x Hx; [done| |].
  - apply lookup_lt_Some in Hx as Hm. simpl in Hm. assert (m = 0) as -> by lia.
    simpl in Hx. injection Hx as ->. apply loc_here.
  - pose proof (split_spec _ Hl) as Hs. apply lookup_lt_Some in Hx as Hm.
    rewrite PATH_unfold, incl_dirs_unfold by done. cbv zeta.
    destruct (Nat.ltb_spec m (split (length l))) as [Hlt|Hge].
    + apply loc_left; [done|]. specialize (IHl m x).
      rewrite length_take, Nat.min_l in IHl by lia. apply IHl. by rewrite lookup_take_lt.
    + apply loc_right; [done|]. specialize (IHr (m - split (length l)) x).
      rewrite length_drop in IHr. apply IHr. rewrite lookup_drop.
      by replace (split (length l) + (m - split (length l))) with m by lia.
Qed.

(** * Consistency proofs *)

Fixpoint SUBPROOF_fuel (fuel m : nat) (l : list D) (b : bool) : list D :=
  match fuel with
  | O => []
  | S fuel =>
      if m =? length l then (if b then [] else [MTH l])
      else
        let k := split (length l) in
        if m <=? k then SUBPROOF_fuel fuel m (take k l) b ++ [MTH (drop k l)]
        else SUBPROOF_fuel fuel (m - k) (drop k l) false ++ [MTH (take k l)]
  end.
Definition SUBPROOF (m : nat) (l : list D) (b : bool) : list D := SUBPROOF_fuel (length l) m l b.

Lemma SUBPROOF_fuel_irrel f g m l b :
  0 < m -> m <= length l -> length l <= f -> length l <= g ->
  SUBPROOF_fuel f m l b = SUBPROOF_fuel g m l b.
Proof.
  revert g m l b. induction f as [|f IH]; intros g m l b Hm Hml Hf Hg; [lia|].
  destruct g as [|g]; [lia|].
  cbn [SUBPROOF_fuel]. destruct (Nat.eqb_spec m (length l)); [done|].
  pose proof (split_spec (length l) ltac:(lia)).
  destruct (Nat.leb_spec m (split (length l))); f_equal; apply IH;
    rewrite ?length_take, ?length_drop; lia.
Qed.

Lemma SUBPROOF_unfold m l b :
  0 < m -> m < length l ->
  SUBPROOF m l b = (let k := split (length l) in
                    if m <=? k then SUBPROOF m (take k l) b ++ [MTH (drop k l)]
                    else SUBPROOF (m - k) (drop k l) false ++ [MTH (take k l)]).
Proof.
  intros Hm Hl. pose proof (split_spec (length l) ltac:(lia)). unfold SUBPROOF at 1.
  rewrite (SUBPROOF_fuel_irrel _ (S (length l))) by lia. cbn [SUBPROOF_fuel].
  destruct (Nat.eqb_spec m (length l)); [lia|]. unfold SUBPROOF.
  destruct (Nat.leb_spec m (split (length l))); f_equal; apply SUBPROOF_fuel_irrel;
    rewrite ?length_take, ?length_drop; lia.
Qed.

Lemma SUBPROOF_same l b : 0 < length l -> SUBPROOF (length l) l b = if b then [] else [MTH l].
Proof.
  intros Hl. unfold SUBPROOF. destruct (length l) eqn:E; [lia|].
  cbn [SUBPROOF_fuel]. by rewrite E, Nat.eqb_refl.
Qed.

(** The head of a prefix that reaches past the split point. *)
Lemma MTH_take_past m l :
  2 <= length l -> split (length l) < m -> m <= length l ->
  MTH (take m l) = node (MTH (take (split (length l)) l))
                        (MTH (take (m - split (length l)) (drop (split (length l)) l))).
Proof.
  intros Hl Hm Hml. pose proof (split_spec _ Hl) as Hs.
  replace (take m l) with (take (split (length l)) l
                           ++ take (m - split (length l)) (drop (split (length l)) l)).
  - apply (MTH_app _ _ (Nat.log2 (length l - 1))); fold (split (length l));
      rewrite ?length_take, ?length_drop; lia.
  - rewrite <- (take_drop (split (length l)) (take m l)). rewrite take_take, Nat.min_l by lia.
    f_equal. by rewrite skipn_firstn_comm.
Qed.

(** The consistency proof lists the siblings of the last complete subtree of
    the old tree, preceded by its head unless that is the old root itself; and
    the left siblings fold to the old root. *)
Lemma SUBPROOF_locates m l :
  0 < m -> m <= length l ->
  exists s xs, locates (cons_dirs m (length l)) l s xs
    /\ climb_old (cons_dirs m (length l)) xs (MTH s) = MTH (take m l)
    /\ (forall b, SUBPROOF m l b
         = (if b && all_right (cons_dirs m (length l)) then [] else [MTH s]) ++ xs)
    /\ (all_right (cons_dirs m (length l)) = true -> s = take m l).
Proof.
  revert m. induction l as [|y|l Hl IHl IHr] using merkle_ind; intros m Hm Hml; [simpl in Hml; lia| |].
  - simpl in Hml. assert (m = 1) as -> by lia. exists [y], []. simpl.
    split_and!; [apply loc_here|done|by intros []|done].
  - pose proof (split_spec _ Hl) as Hs. destruct (decide (m = length l)) as [->|Hne].
    { exists l, []. rewrite cons_dirs_same. simpl. rewrite take_ge by done.
      split_and!; [apply loc_here|done| |done].
      intros b. rewrite SUBPROOF_same by lia. by destruct b. }
    rewrite cons_dirs_unfold by lia.
    destruct (Nat.leb_spec m (split (length l))) as [Hle|Hgt].
    + destruct (IHl m) as (s & xs & Hloc & Hold & Hsub & Hall); [done|rewrite length_take; lia|].
      rewrite length_take, Nat.min_l in Hloc, Hold, Hsub, Hall by lia.
      exists s, (xs ++ [MTH (drop (split (length l)) l)]). split_and!.
      * by apply loc_left.
      * rewrite climb_old_snoc by (by eapply locates_length). rewrite Hold.
        by rewrite take_take, Nat.min_l by lia.
      * intros b. rewrite SUBPROOF_unfold by lia. cbv zeta.
        destruct (Nat.leb_spec m (split (length l))); [|lia]. rewrite Hsub, all_right_snoc.
        rewrite bool_decide_true by done. by rewrite andb_true_r, app_assoc.
      * rewrite all_right_snoc, andb_true_iff. intros [Hr _]. rewrite Hall by done.
        by rewrite take_take, Nat.min_l by lia.
    + destruct (IHr (m - split (length l))) as (s & xs & Hloc & Hold & Hsub & _);
        [lia|rewrite length_drop; lia|].
      rewrite length_drop in Hloc, Hold, Hsub.
      exists s, (xs ++ [MTH (take (split (length l)) l)]). split_and!.
      * by apply loc_right.
      * rewrite climb_old_snoc by (by eapply locates_length). rewrite Hold.
        symmetry. apply MTH_take_past; lia.
      * intros b. rewrite SUBPROOF_unfold by lia. cbv zeta.
        destruct (Nat.leb_spec m (split (length l))); [lia|]. rewrite (Hsub false), all_right_snoc.
        rewrite (bool_decide_false (Lf = Rt)) by done. by rewrite !andb_false_r.
      * rewrite all_right_snoc, (bool_decide_false (Lf = Rt)), andb_false_r; done.
Qed.

(** * Digests of a given form *)

Section Form.
Variable P : D -> Prop.
Hypothesis P_empty : P empty.
Hypothesis P_node : forall x y, P (node x y).

Definition both (pq : D * D) : Prop := P pq.1 /\ P pq.2.

Lemma MTH_form l : Forall P l -> P (MTH l).
Proof using Type*.
  intros Hl. destruct l as [|x [|y l]]; [exact P_empty|by apply Forall_inv in Hl|].
  rewrite MTH_unfold by (simpl; lia). apply P_node.
Qed.

Lemma tree_pairs_form l : Forall P l -> Forall both (tree_pairs l).
Proof using Type*.
  induction l as [|x|l Hl IHl IHr] using merkle_ind; intros HP; [constructor..|].
  rewrite tree_pairs_unfold by done.
  pose proof (Forall_take _ (split (length l)) _ HP).
  pose proof (Forall_drop _ (split (length l)) _ HP).
  constructor; [split; simpl; by apply MTH_form|]. apply Forall_app. auto.
Qed.

Lemma climb_pairs_form ds xs h : Forall P xs -> P h -> Forall both (climb_pairs ds xs h).
Proof using P_node.
  revert xs h. induction ds as [|d ds IH]; intros [|x xs] h Hxs Hh; simpl; try constructor.
  - apply Forall_inv in Hxs. by destruct d; split.
  - apply IH; [by apply Forall_inv_tail in Hxs|]. destruct d; apply P_node.
Qed.
End Form.
End Merkle.
