(* ===== verification/EntryType.v ===== *)
(** Node kinds of the file system, [crates/tinyfs/src/entry_type.rs]: the wire
    discriminants, the textual names and the classification predicates. *)

From stdpp Require Import base list numbers strings options.
From Stdlib Require Import ZArith Lia.
From S2P Require Import Prelude.

Inductive EntryType :=
| DirectoryPhysical
| DirectoryDynamic
| Symlink
| FilePhysicalVersion
| FileDynamic
| TablePhysicalVersion
| FilePhysicalSeries
| TablePhysicalSeries
| TableDynamic.

#[export] Instance EntryType_eq_dec : EqDecision EntryType.
Proof. solve_decision. Defined.

(** [entry_type as u8]. *)
Definition discriminant (t : EntryType) : Z :=
  match t with
  | DirectoryPhysical => 1
  | DirectoryDynamic => 2
  | Symlink => 3
  | FilePhysicalVersion => 4
  | FileDynamic => 5
  | TablePhysicalVersion => 6
  | FilePhysicalSeries => 7
  | TablePhysicalSeries => 8
  | TableDynamic => 9
  end.

(** [TryFrom<u8>]; the error carries the rejected byte. *)
Definition try_from (v : Z) : outcome Z EntryType :=
  match v with
  | 1 => Ok DirectoryPhysical
  | 2 => Ok DirectoryDynamic
  | 3 => Ok Symlink
  | 4 => Ok FilePhysicalVersion
  | 5 => Ok FileDynamic
  | 6 => Ok TablePhysicalVersion
  | 7 => Ok FilePhysicalSeries
  | 8 => Ok TablePhysicalSeries
  | 9 => Ok TableDynamic
  | _ => Err v
  end.

Definition is_file (t : EntryType) : bool :=
  match t with
  | FilePhysicalVersion | FilePhysicalSeries | FileDynamic
  | TablePhysicalVersion | TablePhysicalSeries | TableDynamic => true
  | _ => false
  end.

Definition is_directory (t : EntryType) : bool :=
  match t with
  | DirectoryPhysical | DirectoryDynamic => true
  | _ => false
  end.

Definition is_dynamic (t : EntryType) : bool :=
  match t with
  | DirectoryDynamic | FileDynamic | TableDynamic => true
  | _ => false
  end.

Definition is_physical (t : EntryType) : bool :=
  negb (is_dynamic t) && negb (bool_decide (t = Symlink)).

Definition is_data_file (t : EntryType) : bool :=
  match t with
  | FilePhysicalVersion | FilePhysicalSeries | FileDynamic => true
  | _ => false
  end.

Definition is_table_file (t : EntryType) : bool :=
  match t with
  | TablePhysicalVersion => true
  | _ => false
  end.

Definition is_series_file (t : EntryType) : bool :=
  match t with
  | TablePhysicalSeries | TableDynamic => true
  | _ => false
  end.

Definition is_parquet_file (t : EntryType) : bool :=
  match t with
  | TablePhysicalVersion | TablePhysicalSeries | TableDynamic => true
  | _ => false
  end.

Definition base_format (t : EntryType) : string :=
  match t with
  | DirectoryPhysical | DirectoryDynamic => "directory"
  | Symlink => "symlink"
  | FilePhysicalVersion | FilePhysicalSeries | FileDynamic => "file:data"
  | TablePhysicalVersion => "file:table"
  | TablePhysicalSeries | TableDynamic => "file:series"
  end.

Definition as_str (t : EntryType) : string :=
  match t with
  | DirectoryPhysical => "dir:physical"
  | DirectoryDynamic => "dir:dynamic"
  | Symlink => "symlink"
  | FilePhysicalVersion => "file:physical:version"
  | FilePhysicalSeries => "file:physical:series"
  | FileDynamic => "file:dynamic"
  | TablePhysicalVersion => "table:physical:version"
  | TablePhysicalSeries => "table:physical:series"
  | TableDynamic => "table:dynamic"
  end.

(** [FromStr]; the error carries the rejected text. *)
Definition from_str (s : string) : outcome string EntryType :=
  if bool_decide (s = "dir:physical") then Ok DirectoryPhysical
  else if bool_decide (s = "dir:dynamic") then Ok DirectoryDynamic
  else if bool_decide (s = "symlink") then Ok Symlink
  else if bool_decide (s = "file:physical:version") then Ok FilePhysicalVersion
  else if bool_decide (s = "file:physical:series") then Ok FilePhysicalSeries
  else if bool_decide (s = "file:dynamic") then Ok FileDynamic
  else if bool_decide (s = "table:physical:version") then Ok TablePhysicalVersion
  else if bool_decide (s = "table:physical:series") then Ok TablePhysicalSeries
  else if bool_decide (s = "table:dynamic") then Ok TableDynamic
  else Err s.

Lemma try_from_discriminant t : try_from (discriminant t) = Ok t.
Proof. by destruct t. Qed.

Lemma discriminant_range t : 1 <= discriminant t <= 9.
Proof. destruct t; simpl; lia. Qed.

Lemma try_from_Ok v t : try_from v = Ok t -> discriminant t = v.
Proof.
  unfold try_from. intros H.
  repeat match type of H with
  | match ?x with _ => _ end = _ => destruct x; try discriminate H
  end; by injection H as <-.
Qed.

Lemma from_str_Ok s t : from_str s = Ok t -> as_str t = s.
Proof.
  unfold from_str. repeat case_bool_decide; intros [= <-]; done.
Qed.

(** C-entry: the wire byte and the textual name of an entry type are both
    faithful: each is decoded to the type it came from, nothing else decodes
    to it, and every kind is exactly one of directory, symbolic link or file. *)
Theorem entry_type_codec (t : EntryType) :
  (forall v, try_from v = Ok t <-> v = discriminant t)
  /\ (forall s, from_str s = Ok t <-> s = as_str t)
  /\ is_file t = negb (is_directory t || bool_decide (t = Symlink))
  /\ is_physical t = negb (is_dynamic t || bool_decide (t = Symlink))
  /\ is_file t = is_data_file t || is_table_file t || is_series_file t
  /\ is_parquet_file t = is_table_file t || is_series_file t.
Proof.
  repeat split.
  - intros H. by apply try_from_Ok in H.
  - intros ->. apply try_from_discriminant.
  - intros H. by apply from_str_Ok in H.
  - intros ->. by destruct t.
  - by destruct t.
  - by destruct t.
  - by destruct t.
  - by destruct t.
Qed.
