(* ===== verification/Wire.v ===== *)
(** The shared wire vocabulary of the content-addressed object model,
    [crates/sync-store/src/content/mod.rs]: object hashes and their hex form,
    the length-prefixed framing, and the forward [Cursor] every decoder runs
    on.  The second half is the proof vocabulary of the decoders:
    [decodes d e a] (the decoder reads exactly the bytes [e] and returns [a])
    and [consumes d R] (whatever the decoder accepts has the shape [R]), with
    one lemma per cursor operation and one for sequencing. *)

From stdpp Require Import base list numbers strings options.
From Stdlib Require Import ZArith Lia.
From Stdlib Require Import Strings.Byte.
From S2P Require Import Prelude RustStd RustText EntryType.

(** * Errors

    One constructor per error message of the content module, with the values
    the message is formatted from. *)
Inductive pack_error :=
| SchemaLength (got : Z)
| ZeroLogicalCount
| EmptyLogicalSpan (start stop : Z)
| EmptyPhysicalSpan (start stop : Z)
| ParentIsSelf
| ParentFlag (flag : Z)
| EmptyLeafRange (start stop : Z)
| LeafRangeBeyond (stop total : Z)
| NoObjects
| DescriptorCount (got needed : Z)
| CountOverflow
| CountSum (sum declared : Z)
| RangeRootMismatch
| MixedSchemas
| LogicalGap (index : Z)
| PhysicalGap (index : Z)
| InvertedSpan (index : Z)
| EmptySpan (index : Z)
| FileSpanLength (index : Z)
| SchemaTransition (index : Z)
| SpanWithoutLeaf (index : Z)
| ConflictingLength (hash : bytes)
| LogicalCover (covered expected : Z)
| PhysicalCover (covered expected : Z)
| SegmentEnd (total stop : Z)
| RootSegmentStart (start : Z)
| AppendSegmentStart
| FileWithSchema
| TableWithoutSchema
| SeriesMismatch
| TotalMismatch (pack manifest : Z)
| DescriptorIncompatible (index : Z)
| RecomputedCount (expected got : Z)
| LeafHashMismatch (index : Z)
| OwnRootMismatch
| ManifestRootMismatch
| NotWholeRange
| CompleteCount (pack manifest : Z)
| CompleteBounds
| CompleteAttributes
| CompleteFrontier
| CandidateKey (key : bytes)
| CandidateSeries (key : bytes)
| CandidateTotal (key : bytes)
| CandidateRange (key : bytes)
| NoCoverAtZero
| NoCoverAtEnd (total : Z)
| NoExactCover (total candidates : Z)
| NoLeaves
| ZeroCap
| ManifestHashMismatch
| PackKindMismatch
| WholeCount (got declared : Z)
| WholeRoot
| PackRangeOverflow
| PackRangeBounds (start stop len : Z)
| LeafContent (index : Z)
| PackCountOverflow
| FullRangeCount (got declared : Z)
| FullRangeMin
| FullRangeMax
| PhysicalOverflow
| SpanOverflow
| TableObjectWrite.

#[export] Instance pack_error_eq_dec : EqDecision pack_error.
Proof. solve_decision. Defined.

Inductive cerror :=
| ExpectedHexChars (got : Z)
| InvalidHexDigit (c : Z)
| Truncated (need have : Z)
| BadMagic (expected found : bytes)
| InvalidUtf8
| UnknownEntryType (v : Z)
| UnknownMetaFlags (flags : Z)
| TrailingBytes (n : Z)
| DuplicateEntryName (name : bytes)
| RepeatsChildNode (dir node : bytes)
| EmptyChild (dir : bytes)
| RepeatsChildName (dir name : bytes)
| NonDirectoryChildren (node : bytes)
| EmptyNodeId
| NotCanonical
| EmptyChange
| ChangeCrossesNodes (before after : bytes)
| NoopChange (node : bytes)
| RepeatedChange (node : bytes)
| LeafKeyMismatch (key node : bytes)
| BranchBitRange (bit : Z)
| BranchPrefixBits (bit : Z)
| BranchIdenticalChildren
| UnknownNodeTag (tag : Z)
| BadFlag (flag : Z)
| MismatchedObject (hash : bytes)
| MissingObject (hash : bytes)
| EmptyMap
| DuplicateNodeId (node : bytes)
| UnknownContentModel (v : Z)
| UnknownObjectKind (v : Z)
| EmptyRefName
| UnsupportedFormat (f : bytes)
| EmptyReceiptField
| ReceiptTruncated
| ReceiptAuthMismatch
| UnknownPayloadKind (v : Z)
| UnknownBoundsFlags (flags : Z)
| CountsDisagree (logical leaf : Z)
| EmptyAttributes
| EmptyLeaf
| AttributesNotCanonical
| InvalidJson
| NotJsonObject
| NumberNotInteger
| FrontierLeafCount (frontier declared : Z)
| FrontierRootMismatch
| FrontierPeaks (needed got : Z)
| FrontierOverflow
| EmptyRange (start stop : Z)
| RangeOutOfBounds (stop total : Z)
| RangeLeafCount (expected got : Z)
| ProofNodeCount (expected got : Z)
| ProofNodeMismatch (i : Z)
| MissingProofNode
| TrailingProofNodes
| EmptyAppend
| PackErr (e : pack_error).

#[export] Instance cerror_eq_dec : EqDecision cerror.
Proof. solve_decision. Defined.

Abbreviation res := (outcome cerror).

Definition map_err {E F A} (f : E -> F) (m : outcome E A) : outcome F A :=
  match m with
  | Ok a => Ok a
  | Err e => Err (f e)
  | Panic => Panic
  end.

(** * Object hashes *)

(** [struct ObjectHash([u8; 32])]: the bytes, with the length as invariant. *)
Definition wf_hash (h : bytes) : bool := bool_decide (length h = 32%nat).

(** BLAKE3 is a third-party function: the model takes it as a parameter, with
    the digest length as the only law the code relies on. *)
Class Blake3 := {
  blake3 : bytes -> bytes;
  blake3_len : forall b, length (blake3 b) = 32%nat;
}.

(** A concrete 32-byte function, used only to evaluate the model on examples. *)
Definition mix (b : bytes) : bytes :=
  to_le 4 (fold_left (fun acc c => Z.land (acc * 131 + b2z c + 1) 0xffffffff) b 5381)
  ++ repeat Byte.x00 28.
Lemma mix_len b : length (mix b) = 32%nat.
Proof. unfold mix. rewrite length_app, length_to_le. reflexivity. Qed.
Definition mix_blake3 : Blake3 := {| blake3 := mix; blake3_len := mix_len |}.

(** [ObjectHash::of_bytes]. *)
Definition of_bytes `{Blake3} (b : bytes) : bytes := blake3 b.

(** [char::from_digit(d, 16)] for [d < 16]. *)
Definition hex_digit (d : Z) : byte := if d <? 10 then z2b (48 + d) else z2b (87 + d).

(** [ObjectHash::to_hex], also [LogHash::to_hex]. *)
Fixpoint to_hex (h : bytes) : bytes :=
  match h with
  | [] => []
  | b :: h => hex_digit (Z.shiftr (b2z b) 4) :: hex_digit (Z.land (b2z b) 0x0f) :: to_hex h
  end.

Definition hex_val (c : byte) : res Z :=
  if in_range 48 57 c then Ok (b2z c - 48)
  else if in_range 97 102 c then Ok (b2z c - 97 + 10)
  else if in_range 65 70 c then Ok (b2z c - 65 + 10)
  else Err (InvalidHexDigit (b2z c)).

(** The loop of [from_hex] over the 32 output bytes. *)
Fixpoint from_hex_loop (s : bytes) : res bytes :=
  match s with
  | c1 :: c2 :: s =>
      hi ← hex_val c1;
      lo ← hex_val c2;
      rest ← from_hex_loop s;
      mret (z2b (Z.lor (Z.shiftl hi 4) lo) :: rest)
  | _ => Ok []
  end.

(** [ObjectHash::from_hex], also [LogHash::from_hex]. *)
Definition from_hex (s : bytes) : res bytes :=
  if bool_decide (length s = 64%nat) then from_hex_loop s
  else Err (ExpectedHexChars (Z.of_nat (length s))).

(** * Framing *)

Definition u32_max : Z := 2 ^ 32 - 1.

(** [push_len_prefixed]: what the call appends; it panics on a field longer
    than [u32::MAX]. *)
Definition push_len_prefixed (b : bytes) : res bytes :=
  if Z.of_nat (length b) <=? u32_max
  then Ok (to_le 4 (Z.of_nat (length b)) ++ b)
  else Panic.

(** [push_len_prefixed_u64]: a slice length always fits a [u64]. *)
Definition push_len_prefixed_u64 (b : bytes) : bytes :=
  to_le 8 (Z.of_nat (length b)) ++ b.

(** The checked element count [u32::try_from(len).expect(..)]. *)
Definition push_count (n : nat) : res bytes :=
  if Z.of_nat n <=? u32_max then Ok (to_le 4 (Z.of_nat n)) else Panic.

(** * The cursor *)

Module Cursor.
Record t := mk { buf : bytes; pos : nat }.

Definition new (b : bytes) : t := mk b 0.

Definition remaining (c : t) : nat := (length (buf c) - pos c)%nat.

Definition is_empty (c : t) : bool := (length (buf c) <=? pos c)%nat.

Definition bounded_capacity (c : t) (count min_elem_bytes : nat) : nat :=
  Nat.min count (remaining c / Nat.max min_elem_bytes 1)%nat.

Definition take (n : nat) (c : t) : res (bytes * t) :=
  if (remaining c <? n)%nat
  then Err (Truncated (Z.of_nat n) (Z.of_nat (remaining c)))
  else Ok (firstn n (skipn (pos c) (buf c)), mk (buf c) (pos c + n)).

(** [take_rest]. *)
Definition take_rest (c : t) : bytes * t :=
  (skipn (pos c) (buf c), mk (buf c) (length (buf c))).
End Cursor.

(** A decoder: a computation that advances a cursor and may fail. *)
Definition Dec (A : Type) : Type := Cursor.t -> res (A * Cursor.t).

#[export] Instance Dec_ret : MRet Dec := fun A a c => Ok (a, c).
#[export] Instance Dec_bind : MBind Dec := fun A B k d c =>
  match d c with
  | Ok (a, c') => k a c'
  | Err e => Err e
  | Panic => Panic
  end.

Definition lift {A} (m : res A) : Dec A := fun c =>
  match m with
  | Ok a => Ok (a, c)
  | Err e => Err e
  | Panic => Panic
  end.

Definition take_bytes (n : nat) : Dec bytes := Cursor.take n.

Definition expect_tag (tag : bytes) : Dec unit :=
  got ← take_bytes (length tag);
  if bool_decide (got = tag) then mret tt else lift (Err (BadMagic tag got)).

Definition take_u8 : Dec Z := b ← take_bytes 1; mret (from_le b).
Definition take_u16 : Dec Z := b ← take_bytes 2; mret (from_le b).
Definition take_u32 : Dec Z := b ← take_bytes 4; mret (from_le b).
Definition take_u64 : Dec Z := b ← take_bytes 8; mret (from_le b).
Definition take_i64 : Dec Z := b ← take_bytes 8; mret (from_le_i64 b).
Definition take_hash : Dec bytes := take_bytes 32.
Definition take_array (n : nat) : Dec bytes := take_bytes n.

Definition take_len_prefixed : Dec bytes :=
  len ← take_u32; take_bytes (Z.to_nat len).

Definition take_len_prefixed_string : Dec bytes :=
  b ← take_len_prefixed;
  if utf8_valid b then mret b else lift (Err InvalidUtf8).

Definition take_entry_type : Dec EntryType :=
  v ← take_u8; lift (map_err UnknownEntryType (try_from v)).

(** The loop [for _ in 0..count { v.push(d?) }]. *)
Fixpoint take_many {A} (n : nat) (d : Dec A) : Dec (list A) :=
  match n with
  | O => mret []
  | S n => x ← d; xs ← take_many n d; mret (x :: xs)
  end.

(** The trailing-bytes check every strict decoder ends with. *)
Definition expect_end : Dec unit := fun c =>
  if Cursor.is_empty c then Ok (tt, c)
  else Err (TrailingBytes (Z.of_nat (Cursor.remaining c))).

(** Run a decoder on a whole buffer. *)
Definition run_dec {A} (d : Dec A) (b : bytes) : res A :=
  '(a, _) ← d (Cursor.new b); mret a.

(** The common shape of the strict decoders: read the body, require the end of
    the buffer, then check the decoded value. *)
Definition decode_strict {A B} (body : Dec A) (post : A -> res B) (b : bytes) : res B :=
  run_dec (x ← body; _ ← expect_end; lift (post x)) b.

(** * Reading what was written *)

(** [decodes d e a]: placed anywhere in a buffer, the bytes [e] are read by [d]
    as [a], exactly. *)
Definition decodes {A} (d : Dec A) (e : bytes) (a : A) : Prop :=
  forall pre suf,
    d (Cursor.mk (pre ++ e ++ suf) (length pre))
    = Ok (a, Cursor.mk (pre ++ e ++ suf) (length pre + length e)).

Lemma decodes_ret {A} (a : A) : decodes (mret a) [] a.
Proof. intros pre suf. unfold mret, Dec_ret. simpl. by rewrite Nat.add_0_r. Qed.

Lemma decodes_lift {A} (m : res A) a : m = Ok a -> decodes (lift m) [] a.
Proof. intros -> pre suf. simpl. by rewrite Nat.add_0_r. Qed.

Lemma decodes_bind {A B} (d : Dec A) (k : A -> Dec B) e1 e2 a b :
  decodes d e1 a -> decodes (k a) e2 b -> decodes (d ≫= k) (e1 ++ e2) b.
Proof.
  intros Hd Hk pre suf. unfold mbind, Dec_bind.
  rewrite <- app_assoc, Hd.
  specialize (Hk (pre ++ e1) suf). rewrite length_app, <- !app_assoc in Hk.
  rewrite Hk, length_app. by rewrite Nat.add_assoc.
Qed.

(** The last step of a decoder consumes no bytes. *)
Lemma decodes_bind_nil {A B} (d : Dec A) (k : A -> Dec B) e a b :
  decodes d e a -> decodes (k a) [] b -> decodes (d ≫= k) e b.
Proof. intros Hd Hk. rewrite <- (app_nil_r e). by eapply decodes_bind. Qed.

(** A step that consumes no bytes. *)
Lemma decodes_bind_lift {A B} (m : res A) (k : A -> Dec B) e a b :
  m = Ok a -> decodes (k a) e b -> decodes (lift m ≫= k) e b.
Proof. intros -> Hk pre suf. exact (Hk pre suf). Qed.

Lemma decodes_take n e : length e = n -> decodes (take_bytes n) e e.
Proof.
  intros <- pre suf. unfold take_bytes, Cursor.take, Cursor.remaining. simpl.
  rewrite drop_app_length, take_app_length, !length_app.
  destruct (Nat.ltb_spec (length pre + (length e + length suf) - length pre) (length e)); [lia|done].
Qed.

Lemma decodes_tag tag : decodes (expect_tag tag) tag tt.
Proof.
  unfold expect_tag. eapply decodes_bind_nil; [by apply decodes_take|].
  rewrite bool_decide_true by done. apply decodes_ret.
Qed.

Lemma decodes_uint n z :
  0 <= z < 256 ^ Z.of_nat n ->
  decodes (b ← take_bytes n; mret (from_le b)) (to_le n z) z.
Proof.
  intros Hz. eapply decodes_bind_nil; [by apply decodes_take, length_to_le|].
  rewrite from_to_le_small by done. apply decodes_ret.
Qed.

Lemma decodes_u8 z : is_u8 z = true -> decodes take_u8 (to_le 1 z) z.
Proof. unfold is_u8. intros H. apply (decodes_uint 1). lia. Qed.

Lemma decodes_u16 z : is_u16 z = true -> decodes take_u16 (to_le 2 z) z.
Proof. unfold is_u16. intros H. apply decodes_uint. lia. Qed.

Lemma decodes_u32 z : is_u32 z = true -> decodes take_u32 (to_le 4 z) z.
Proof. unfold is_u32. intros H. apply decodes_uint. lia. Qed.

Lemma decodes_u64 z : is_u64 z = true -> decodes take_u64 (to_le 8 z) z.
Proof. unfold is_u64. intros H. apply decodes_uint. lia. Qed.

Lemma decodes_i64 z : is_i64 z = true -> decodes take_i64 (to_le 8 z) z.
Proof.
  intros Hz. eapply decodes_bind_nil; [by apply decodes_take, length_to_le|].
  rewrite from_to_le_i64 by done. apply decodes_ret.
Qed.

Lemma decodes_hash h : wf_hash h = true -> decodes take_hash h h.
Proof. intros H%bool_decide_eq_true. by apply decodes_take. Qed.

Lemma decodes_count n e :
  push_count n = Ok e -> decodes take_u32 e (Z.of_nat n).
Proof.
  unfold push_count, u32_max. destruct (Z.leb_spec (Z.of_nat n) (2 ^ 32 - 1)) as [Hn|]; [|done].
  intros <-%Ok_inj. apply decodes_u32. unfold is_u32. lia.
Qed.

Lemma decodes_len_prefixed b e : push_len_prefixed b = Ok e -> decodes take_len_prefixed e b.
Proof.
  unfold push_len_prefixed, u32_max.
  destruct (Z.leb_spec (Z.of_nat (length b)) (2 ^ 32 - 1)) as [Hn|]; [|done].
  intros <-%Ok_inj. eapply decodes_bind; [apply decodes_u32; unfold is_u32; lia|].
  apply decodes_take. lia.
Qed.

Lemma decodes_len_prefixed_string b e :
  utf8_valid b = true -> push_len_prefixed b = Ok e ->
  decodes take_len_prefixed_string e b.
Proof.
  intros Hu He. eapply decodes_bind_nil; [by apply decodes_len_prefixed|].
  simpl. rewrite Hu. apply decodes_ret.
Qed.

Lemma decodes_entry_type t : decodes take_entry_type (to_le 1 (discriminant t)) t.
Proof.
  pose proof (discriminant_range t).
  eapply decodes_bind_nil; [apply decodes_u8; unfold is_u8; lia|].
  apply decodes_lift. by rewrite try_from_discriminant.
Qed.

Lemma decodes_many {A} (d : Dec A) xs es :
  Forall2 (fun x e => decodes d e x) xs es ->
  decodes (take_many (length xs) d) (concat es) xs.
Proof.
  induction 1 as [|x e xs es Hx Hxs IH]; simpl; [apply decodes_ret|].
  eapply decodes_bind; [exact Hx|]. eapply decodes_bind_nil; [exact IH|]. apply decodes_ret.
Qed.

(** Elements written one after the other by [omap_list enc]. *)
Lemma decodes_many_enc {A} (d : Dec A) (enc : A -> res bytes) (P : A -> Prop) xs es :
  (forall x e, P x -> enc x = Ok e -> decodes d e x) ->
  Forall P xs -> omap_list enc xs = Ok es ->
  decodes (take_many (length xs) d) (concat es) xs.
Proof.
  intros Hd HP Hes. apply omap_list_Ok in Hes. apply decodes_many.
  induction Hes as [|x e xs es Hx Hxs IH]; constructor; apply Forall_cons in HP as [? ?]; auto.
Qed.

Lemma decode_strict_encoded {A B} (body : Dec A) (post : A -> res B) e a :
  decodes body e a -> decode_strict body post e = post a.
Proof.
  intros Hd. unfold decode_strict, run_dec, Cursor.new.
  specialize (Hd [] []). rewrite app_nil_r in Hd. cbn [app length Nat.add] in Hd.
  unfold mbind at 2, Dec_bind. rewrite Hd.
  unfold mbind at 2, expect_end, Cursor.is_empty. simpl.
  rewrite Nat.leb_refl. destruct (post a); done.
Qed.

(** * What a decoder accepts *)

(** [consumes d R]: a successful run of [d] reads a segment [e] of the buffer
    with [R a e]. *)
Definition consumes {A} (d : Dec A) (R : A -> bytes -> Prop) : Prop :=
  forall b p a c', (p <= length b)%nat -> d (Cursor.mk b p) = Ok (a, c') ->
    exists pre e suf,
      b = pre ++ e ++ suf /\ length pre = p /\ c' = Cursor.mk b (p + length e) /\ R a e.

Lemma consumes_ret {A} (a : A) : consumes (mret a) (fun a' e => a' = a /\ e = []).
Proof.
  intros b p a' c' Hp [= <- <-]. exists (firstn p b), [], (skipn p b).
  simpl. rewrite take_drop, length_take, Nat.add_0_r. split_and!; [done|lia|done..].
Qed.

Lemma consumes_lift {A} (m : res A) : consumes (lift m) (fun a e => m = Ok a /\ e = []).
Proof.
  intros b p a' c' Hp. destruct m as [a| |]; intros [= <- <-].
  exists (firstn p b), [], (skipn p b).
  simpl. rewrite take_drop, length_take, Nat.add_0_r. split_and!; [done|lia|done..].
Qed.

Lemma consumes_bind {A B} (d : Dec A) (k : A -> Dec B) R S :
  consumes d R -> (forall a, consumes (k a) (S a)) ->
  consumes (d ≫= k) (fun b e => exists a e1 e2, e = e1 ++ e2 /\ R a e1 /\ S a b e2).
Proof.
  intros Hd Hk b p a c' Hp. unfold mbind, Dec_bind.
  destruct (d (Cursor.mk b p)) as [[x c1]| |] eqn:E; [|done|done]. intros Hb.
  destruct (Hd _ _ _ _ Hp E) as (pre & e1 & suf & -> & <- & -> & HR).
  assert (length pre + length e1 <= length (pre ++ e1 ++ suf))%nat as Hp'
    by (rewrite !length_app; lia).
  destruct (Hk x _ _ _ _ Hp' Hb) as (pre2 & e2 & suf2 & Heq & Hl & -> & HS).
  assert (pre2 = pre ++ e1 /\ suf = e2 ++ suf2) as [-> ->].
  { rewrite app_assoc in Heq. apply app_inj_1 in Heq as [<- Heq]; [done|].
    rewrite length_app. lia. }
  exists pre, (e1 ++ e2), suf2. rewrite <- !app_assoc, length_app, Nat.add_assoc.
  split_and!; [done..|]. eauto 10.
Qed.

Lemma consumes_weaken {A} (d : Dec A) (R S : A -> bytes -> Prop) :
  consumes d R -> (forall a e, R a e -> S a e) -> consumes d S.
Proof.
  intros Hd HRS b p a c' Hp Hr.
  destruct (Hd _ _ _ _ Hp Hr) as (pre & e & suf & ? & ? & ? & ?). eauto 10.
Qed.

Lemma consumes_take n : consumes (take_bytes n) (fun a e => a = e /\ length e = n).
Proof.
  intros b p a c' Hp. unfold take_bytes, Cursor.take, Cursor.remaining. simpl.
  destruct (Nat.ltb_spec (length b - p) n) as [|Hn]; [done|]. intros [= <- <-].
  exists (firstn p b), (firstn n (skipn p b)), (skipn n (skipn p b)).
  rewrite !take_drop, !length_take, length_drop.
  split_and!; [done|lia|f_equal; lia|done|lia].
Qed.

Lemma consumes_tag tag : consumes (expect_tag tag) (fun _ e => e = tag).
Proof.
  eapply consumes_weaken.
  - apply consumes_bind; [apply consumes_take|]. intros got.
    instantiate (1 := fun got _ e => got = tag /\ e = []). case_bool_decide as E.
    + subst. eapply consumes_weaken; [apply consumes_ret|]. naive_solver.
    + eapply consumes_weaken; [apply consumes_lift|]. naive_solver.
  - intros [] e (got & e1 & e2 & -> & [-> ?] & [-> ->]). by rewrite app_nil_r.
Qed.

Lemma consumes_uint n :
  consumes (b ← take_bytes n; mret (from_le b))
    (fun z e => e = to_le n z /\ 0 <= z < 256 ^ Z.of_nat n).
Proof.
  eapply consumes_weaken.
  - apply consumes_bind; [apply consumes_take|]. intros b. apply consumes_ret.
  - intros z e (b & e1 & e2 & -> & [-> Hl] & [-> ->]). rewrite app_nil_r.
    split; [by rewrite <- Hl, to_from_le|]. rewrite <- Hl. apply from_le_bound.
Qed.

Lemma consumes_u8 : consumes take_u8 (fun z e => e = to_le 1 z /\ is_u8 z = true).
Proof.
  eapply consumes_weaken; [apply (consumes_uint 1)|]. unfold is_u8. intros z e [-> Hz].
  split; [done|lia].
Qed.

Lemma consumes_u16 : consumes take_u16 (fun z e => e = to_le 2 z /\ is_u16 z = true).
Proof.
  eapply consumes_weaken; [apply (consumes_uint 2)|]. unfold is_u16. intros z e [-> Hz].
  split; [done|lia].
Qed.

Lemma consumes_u32 : consumes take_u32 (fun z e => e = to_le 4 z /\ is_u32 z = true).
Proof.
  eapply consumes_weaken; [apply (consumes_uint 4)|]. unfold is_u32. intros z e [-> Hz].
  split; [done|lia].
Qed.

Lemma consumes_u64 : consumes take_u64 (fun z e => e = to_le 8 z /\ is_u64 z = true).
Proof.
  eapply consumes_weaken; [apply (consumes_uint 8)|]. unfold is_u64. intros z e [-> Hz].
  split; [done|lia].
Qed.

Lemma consumes_i64 : consumes take_i64 (fun z e => e = to_le 8 z /\ is_i64 z = true).
Proof.
  eapply consumes_weaken.
  - apply consumes_bind; [apply consumes_take|]. intros b. apply consumes_ret.
  - intros z e (b & e1 & e2 & -> & [-> Hl] & [-> ->]). rewrite app_nil_r.
    split; [by rewrite to_from_le_i64|by apply from_le_i64_range].
Qed.

Lemma consumes_hash : consumes take_hash (fun h e => e = h /\ wf_hash h = true).
Proof.
  eapply consumes_weaken; [apply consumes_take|]. intros h e [-> Hl].
  split; [done|]. by apply bool_decide_true.
Qed.

Lemma consumes_len_prefixed : consumes take_len_prefixed (fun b e => push_len_prefixed b = Ok e).
Proof.
  eapply consumes_weaken.
  - apply consumes_bind; [apply consumes_u32|]. intros len. apply consumes_take.
  - intros b e (len & e1 & e2 & -> & [-> Hlen] & [-> Hl]).
    unfold push_len_prefixed, u32_max. unfold is_u32 in Hlen.
    destruct (Z.leb_spec (Z.of_nat (length e2)) (2 ^ 32 - 1)); [|lia].
    do 3 f_equal. lia.
Qed.

Lemma consumes_len_prefixed_string :
  consumes take_len_prefixed_string
    (fun b e => push_len_prefixed b = Ok e /\ utf8_valid b = true).
Proof.
  eapply consumes_weaken.
  - apply consumes_bind; [apply consumes_len_prefixed|]. intros b.
    instantiate (1 := fun b b' e => b' = b /\ e = [] /\ utf8_valid b = true).
    simpl. destruct (utf8_valid b) eqn:E.
    + eapply consumes_weaken; [apply consumes_ret|]. naive_solver.
    + eapply consumes_weaken; [apply consumes_lift|]. naive_solver.
  - intros b e (b' & e1 & e2 & -> & H1 & -> & -> & H2). by rewrite app_nil_r.
Qed.

Lemma consumes_entry_type :
  consumes take_entry_type (fun t e => e = to_le 1 (discriminant t)).
Proof.
  eapply consumes_weaken.
  - apply consumes_bind; [apply consumes_u8|]. intros v. apply consumes_lift.
  - intros t e (v & e1 & e2 & -> & [-> Hv] & [Ht ->]). rewrite app_nil_r.
    destruct (try_from v) as [t'| |] eqn:E; [|done|done]. injection Ht as <-.
    by rewrite (try_from_Ok _ _ E).
Qed.

Lemma consumes_many {A} (d : Dec A) (R : A -> bytes -> Prop) n :
  consumes d R ->
  consumes (take_many n d)
    (fun xs e => exists es, e = concat es /\ length xs = n /\ Forall2 R xs es).
Proof.
  intros Hd. induction n as [|n IH]; simpl.
  - eapply consumes_weaken; [apply consumes_ret|]. intros xs e [-> ->]. exists [].
    split_and!; [done..|constructor].
  - eapply consumes_weaken.
    + apply consumes_bind; [exact Hd|]. intros x. apply consumes_bind; [exact IH|].
      intros xs. apply consumes_ret.
    + intros ys e (x & e1 & e2 & -> & Hx & xs & e3 & e4 & -> & (es & -> & <- & Hes) & -> & ->).
      exists (e1 :: es). rewrite app_nil_r. split_and!; [done..|by constructor].
Qed.

Lemma decode_strict_inv {A B} (body : Dec A) (post : A -> res B) R b r :
  consumes body R -> decode_strict body post b = Ok r ->
  exists a, R a b /\ post a = Ok r.
Proof.
  intros Hc. unfold decode_strict, run_dec, Cursor.new. unfold mbind at 2, Dec_bind.
  destruct (body (Cursor.mk b 0)) as [[a c']| |] eqn:E; [|done|done].
  destruct (Hc _ _ _ _ (Nat.le_0_l _) E) as (pre & e & suf & -> & Hpre & -> & HR).
  apply nil_length_inv in Hpre as ->. cbn [app length Nat.add] in *.
  unfold mbind at 2, expect_end, Cursor.is_empty. simpl.
  destruct (Nat.leb_spec (length (e ++ suf)) (length e)) as [Hle|]; [|done].
  rewrite length_app in Hle. destruct suf; [|simpl in Hle; lia]. rewrite app_nil_r.
  intros Hr. exists a. split; [done|]. by destruct (post a); simpl in Hr; inv_ok.
Qed.

(** * Automation *)

Create HintDb wire.
#[export] Hint Resolve decodes_ret decodes_tag decodes_u8 decodes_u16 decodes_u32 decodes_u64
  decodes_i64 decodes_hash decodes_count decodes_len_prefixed decodes_len_prefixed_string
  decodes_entry_type decodes_take : wire.
#[export] Hint Resolve consumes_ret consumes_lift consumes_take consumes_tag consumes_u8 consumes_u16
  consumes_u32 consumes_u64 consumes_i64 consumes_hash consumes_len_prefixed
  consumes_len_prefixed_string consumes_entry_type : wire.

(** Sequence one decoding step. *)
Ltac dec_step := eapply decodes_bind; [solve [eauto with wire]|cbn beta iota].
(** Describe one accepted step. *)
Ltac con_step := apply consumes_bind; [solve [eauto with wire]|intros ?].

Lemma consumes_counted {A} (d : Dec A) (enc : A -> res bytes) (P : A -> bool) :
  consumes d (fun a e => enc a = Ok e /\ P a = true) ->
  consumes (count ← take_u32; take_many (Z.to_nat count) d)
    (fun xs e => (c ← push_count (length xs); es ← omap_list enc xs; mret (c ++ concat es)) = Ok e
                 /\ forallb P xs = true).
Proof.
  intros Hd. eapply consumes_weaken.
  - con_step. apply consumes_many, Hd.
  - intros xs e (count & e1 & e2 & -> & [-> Hc] & es & -> & Hl & Hes).
    assert (omap_list enc xs = Ok es) as -> by
      (apply omap_list_Ok; eapply Forall2_impl; [exact Hes|]; naive_solver).
    unfold push_count, u32_max. unfold is_u32 in Hc. rewrite Hl.
    destruct (Z.leb_spec (Z.of_nat (Z.to_nat count)) (2 ^ 32 - 1)); [|lia].
    split; [by rewrite Z2Nat.id by lia|].
    apply forallb_Forall, Forall_lookup. intros i x Hx.
    by destruct (Forall2_lookup_l _ _ _ _ _ Hes Hx) as (? & _ & _ & ?).
Qed.

(** * Hex text of a hash *)

#[export] Instance outcome_eq_dec {E A} `{EqDecision E, EqDecision A} : EqDecision (outcome E A).
Proof. solve_decision. Defined.

Lemma from_hex_digits b h s :
  from_hex_loop s = Ok h ->
  from_hex_loop (hex_digit (Z.shiftr (b2z b) 4) :: hex_digit (Z.land (b2z b) 0x0f) :: s)
  = Ok (b :: h).
Proof.
  intros Hs. cbn [from_hex_loop]. rewrite Hs.
  assert (forall b, bool_decide (
      (hi ← hex_val (hex_digit (Z.shiftr (b2z b) 4));
       lo ← hex_val (hex_digit (Z.land (b2z b) 0x0f));
       mret (z2b (Z.lor (Z.shiftl hi 4) lo))) = @Ok cerror byte b) = true) as Hb
    by (apply byte_forallb; vm_compute; reflexivity).
  specialize (Hb b). apply bool_decide_eq_true in Hb. inv_ok.
  rewrite Hx, Hx0. done.
Qed.

Lemma from_to_hex_loop h : from_hex_loop (to_hex h) = Ok h.
Proof. induction h as [|b h IH]; [done|]. by apply from_hex_digits. Qed.

Lemma length_to_hex h : length (to_hex h) = (2 * length h)%nat.
Proof. induction h as [|b h IH]; simpl; lia. Qed.

Lemma hex_val_Ok c d : hex_val c = Ok d -> 0 <= d < 16 /\ hex_digit d = ascii_lower c.
Proof.
  assert (forall c, match hex_val c with
      | Ok d => (0 <=? d) && (d <? 16) && bool_decide (hex_digit d = ascii_lower c)
      | _ => true end = true) as Hb by (apply byte_forallb; vm_compute; reflexivity).
  specialize (Hb c). intros E. rewrite E in Hb.
  apply andb_true_iff in Hb as [Hd Hb%bool_decide_eq_true]. split; [lia|done].
Qed.

Lemma nibbles hi lo :
  0 <= hi < 16 -> 0 <= lo < 16 ->
  Z.shiftr (b2z (z2b (Z.lor (Z.shiftl hi 4) lo))) 4 = hi
  /\ Z.land (b2z (z2b (Z.lor (Z.shiftl hi 4) lo))) 0x0f = lo.
Proof.
  intros Hhi Hlo.
  assert (forallb (fun hi => forallb (fun lo =>
      (Z.shiftr (b2z (z2b (Z.lor (Z.shiftl hi 4) lo))) 4 =? hi)
      && (Z.land (b2z (z2b (Z.lor (Z.shiftl hi 4) lo))) 0x0f =? lo))
    (seqZ 0 16)) (seqZ 0 16) = true) as H by (vm_compute; reflexivity).
  rewrite forallb_forall in H. specialize (H hi).
  rewrite <- list_elem_of_In, elem_of_seqZ in H. specialize (H ltac:(lia)).
  rewrite forallb_forall in H. specialize (H lo).
  rewrite <- list_elem_of_In, elem_of_seqZ in H. specialize (H ltac:(lia)). lia.
Qed.

Lemma to_from_hex_loop n s h :
  length s = (2 * n)%nat -> from_hex_loop s = Ok h ->
  length h = n /\ to_hex h = map ascii_lower s.
Proof.
  revert s h. induction n as [|n IH]; intros s h Hl.
  - destruct s; [|done]. by intros [= <-].
  - destruct s as [|c1 [|c2 s]]; [done|simpl in Hl; lia|]. simpl. intros H.
    inv_ok. destruct (hex_val_Ok _ _ Hx) as [? E1], (hex_val_Ok _ _ Hx0) as [? E2].
    destruct (IH s x1) as [<- Eh]; [simpl in Hl; lia|done|].
    split; [done|]. simpl. destruct (nibbles x x0) as [-> ->]; [done..|]. congruence.
Qed.

(** The hex text of an object hash round-trips, and [from_hex] accepts
    exactly the 64-digit texts of 32-byte digests, in either case. *)
Theorem object_hash_hex (h s : bytes) :
  (wf_hash h = true -> from_hex (to_hex h) = Ok h)
  /\ (from_hex s = Ok h -> wf_hash h = true /\ to_hex h = map ascii_lower s).
Proof.
  unfold from_hex, wf_hash. split.
  - intros Hh%bool_decide_eq_true. rewrite bool_decide_true.
    + apply from_to_hex_loop.
    + rewrite length_to_hex. lia.
  - case_bool_decide as Hs; [|done]. intros Hf.
    destruct (to_from_hex_loop 32 s h) as [Hl E]; [lia|done|].
    split; [by apply bool_decide_true|done].
Qed.
