(* ===== verification/CanonicalJson.v ===== *)
(** The canonical JSON of logical attributes,
    [crates/sync-store/src/content/series_leaf.rs]: string escaping,
    canonicalization with sorted keys, and the check that attribute bytes are
    already canonical.  The JSON parser (serde_json) is a parameter.  Two
    values have the same canonical text exactly when they are equal up to the
    order of object members. *)

From stdpp Require Import base list numbers sets sorting strings options.
From Stdlib Require Import ZArith Lia.
From S2P Require Import Prelude RustStd RustText EntryType Wire.

Open Scope Z_scope.

(** [serde_json::Number]: a non-negative, a negative, or a float. *)
Inductive Number :=
| PosInt (n : Z)
| NegInt (n : Z)
| Float.

(** [serde_json::Value]; an object has distinct keys. *)
Inductive Value :=
| Null
| Bool (b : bool)
| Num (n : Number)
| Str (s : bytes)
| Array (items : list Value)
| Object (members : list (bytes * Value)).

Definition as_i64 (n : Number) : option Z :=
  match n with
  | PosInt n => if n <? 2 ^ 63 then Some n else None
  | NegInt n => Some n
  | Float => None
  end.
Definition as_u64 (n : Number) : option Z :=
  match n with
  | PosInt n => Some n
  | _ => None
  end.

Definition QUOTE : byte := Byte.x22.
Definition BACKSLASH : byte := Byte.x5c.

(** One character of [encode_json_string].  Only characters below U+0080 are
    escaped, so the bytes of the others are copied one by one. *)
Definition escape_byte (c : byte) : bytes :=
  if bool_decide (c = QUOTE) then [BACKSLASH; QUOTE]
  else if bool_decide (c = BACKSLASH) then [BACKSLASH; BACKSLASH]
  else if bool_decide (c = Byte.x08) then [BACKSLASH; Byte.x62]
  else if bool_decide (c = Byte.x09) then [BACKSLASH; Byte.x74]
  else if bool_decide (c = Byte.x0a) then [BACKSLASH; Byte.x6e]
  else if bool_decide (c = Byte.x0c) then [BACKSLASH; Byte.x66]
  else if bool_decide (c = Byte.x0d) then [BACKSLASH; Byte.x72]
  else if in_range 0x00 0x1f c then
    [BACKSLASH; Byte.x75; Byte.x30; Byte.x30;
     hex_digit (Z.shiftr (b2z c) 4); hex_digit (Z.land (b2z c) 0x0f)]
  else [c].

Definition escape (s : bytes) : bytes := concat (map escape_byte s).
Definition encode_json_string (s : bytes) : bytes := QUOTE :: escape s ++ [QUOTE].

Definition encode_number (n : Number) : res bytes :=
  match as_i64 n with
  | Some v => Ok (show_i64 v)
  | None =>
      match as_u64 n with
      | Some v => Ok (show_u64 v)
      | None => Err NumberNotInteger
      end
  end.

(** The members of an object are emitted in the byte order of their keys. *)
Fixpoint canonicalize_json (v : Value) : res bytes :=
  match v with
  | Null => Ok (bstr "null")
  | Bool b => Ok (if b then bstr "true" else bstr "false")
  | Num n => encode_number n
  | Str s => Ok (encode_json_string s)
  | Array items =>
      items ← omap_list (fun r => r) (map canonicalize_json items);
      mret (Byte.x5b :: join COMMA items ++ [Byte.x5d])
  | Object members =>
      members ← omap_list (fun m : bytes * res bytes =>
                  b ← m.2; mret (encode_json_string m.1 ++ Byte.x3a :: b))
                 (sort_by (cmp_on fst bytes_cmp)
                    (map (fun m => (m.1, canonicalize_json m.2)) members));
      mret (Byte.x7b :: join COMMA members ++ [Byte.x7d])
  end.

(** [serde_json::from_str] on UTF-8 text. *)
Class JsonParser := { json_from_str : bytes -> option Value }.

Definition encode_canonical_attributes `{JsonParser} (json : bytes) : res bytes :=
  match json_from_str json with
  | None => Err InvalidJson
  | Some (Object members) => canonicalize_json (Object members)
  | Some _ => Err NotJsonObject
  end.

Definition validate_canonical_attributes `{JsonParser} (b : bytes) : res unit :=
  if utf8_valid b then
    canonical ← encode_canonical_attributes b;
    if bool_decide (canonical = b) then Ok tt else Err AttributesNotCanonical
  else Err InvalidUtf8.

(** * Values up to member order *)

(** Numbers as serde_json keeps them, and distinct keys, all the way down. *)
Inductive wf_value : Value -> Prop :=
| wf_null : wf_value Null
| wf_bool b : wf_value (Bool b)
| wf_pos n : is_u64 n = true -> wf_value (Num (PosInt n))
| wf_neg n : is_i64 n = true -> n < 0 -> wf_value (Num (NegInt n))
| wf_float : wf_value (Num Float)
| wf_str s : wf_value (Str s)
| wf_array items : Forall wf_value items -> wf_value (Array items)
| wf_object members :
    NoDup (map fst members) -> Forall (fun m => wf_value m.2) members -> wf_value (Object members).

(** Equality up to the order of object members. *)
Inductive same_value : Value -> Value -> Prop :=
| same_null : same_value Null Null
| same_bool b : same_value (Bool b) (Bool b)
| same_num n : same_value (Num n) (Num n)
| same_str s : same_value (Str s) (Str s)
| same_array xs ys : Forall2 same_value xs ys -> same_value (Array xs) (Array ys)
| same_object ms ns ns' :
    ns' ≡ₚ ns -> Forall2 (fun m n => m.1 = n.1 /\ same_value m.2 n.2) ms ns' ->
    same_value (Object ms) (Object ns).

Section ValueInd.
Variable P : Value -> Prop.
Hypothesis Hnull : P Null.
Hypothesis Hbool : forall b, P (Bool b).
Hypothesis Hnum : forall n, P (Num n).
Hypothesis Hstr : forall s, P (Str s).
Hypothesis Harr : forall items, Forall P items -> P (Array items).
Hypothesis Hobj : forall members, Forall (fun m => P m.2) members -> P (Object members).

Fixpoint value_ind (v : Value) : P v :=
  match v with
  | Null => Hnull
  | Bool b => Hbool b
  | Num n => Hnum n
  | Str s => Hstr s
  | Array items =>
      Harr items ((fix go l : Forall P l :=
        match l with [] => Forall_nil_2 _ | x :: l => Forall_cons_2 _ _ _ (value_ind x) (go l) end)
        items)
  | Object members =>
      Hobj members ((fix go l : Forall (fun m => P m.2) l :=
        match l with
        | [] => Forall_nil_2 _
        | x :: l => Forall_cons_2 _ _ _ (value_ind x.2) (go l)
        end) members)
  end.
End ValueInd.

(** * Equal values have equal text *)

Lemma canonicalize_same v1 : wf_value v1 -> forall v2,
  same_value v1 v2 -> canonicalize_json v1 = canonicalize_json v2.
Proof.
  induction v1 as [|b|n|s|items IH|members IH] using value_ind; intros Hw v2 Hs;
    inversion Hs as [| | | |xs ys Hxy|ms ns ns' Hp Hmn]; subst; try done.
  - inversion Hw as [| | | | | |? Hwi|]; subst. cbn [canonicalize_json].
    assert (map canonicalize_json items = map canonicalize_json ys) as ->; [|done].
    clear Hs Hw. induction Hxy as [|x y items ys Hx Hxy IHl]; [done|].
    apply Forall_cons in IH as [IHx IH], Hwi as [Hwx Hwi]. simpl. f_equal; auto.
  - inversion Hw as [| | | | | | |? Hnd Hwm]; subst. cbn [canonicalize_json].
    set (f := fun m : bytes * Value => (m.1, canonicalize_json m.2)).
    assert (map f members = map f ns') as E.
    { clear - Hmn IH Hwm. induction Hmn as [|m n members ns' [Hk Hv] Hmn IHl]; [done|].
      apply Forall_cons in IH as [IHx IH], Hwm as [Hwx Hwm]. simpl. f_equal; [|auto].
      unfold f. by rewrite Hk, (IHx Hwx n.2 Hv). }
    rewrite (sort_by_canonical (cmp_on fst bytes_cmp) (map f members) (map f ns)); [done| |].
    + assert (NoDup (map fst (map f members))) as Hnd'.
      { rewrite map_map. exact Hnd. }
      clear - Hnd'. intros x y Hx Hy Ek%bytes_cmp_eq.
      apply list_elem_of_lookup_1 in Hx as [i Hi], Hy as [j Hj].
      assert (i = j) as ->; [|congruence].
      apply (NoDup_lookup (map fst (map f members)) i j x.1); [done|..];
        rewrite list_lookup_fmap; [by rewrite Hi|rewrite Hj; simpl; by rewrite Ek].
    + rewrite E. by apply Permutation_map.
Qed.

(** * Equal text comes from equal values *)

Definition delim (r : bytes) : Prop :=
  match r with [] => True | c :: _ => c = COMMA \/ c = Byte.x5d \/ c = Byte.x7d end.

Lemma escape_byte_prefix_free a b r s :
  escape_byte a ++ r = escape_byte b ++ s -> a = b.
Proof.
  assert (forall a, forallb (fun z => let b := z2b z in
     bool_decide (a = b)
     || (let x := escape_byte a in let y := escape_byte b in
         negb (bool_decide (firstn (Nat.min (length x) (length y)) x
                            = firstn (Nat.min (length x) (length y)) y)))) (seqZ 0 256) = true) as H
    by (apply byte_forallb; vm_compute; reflexivity).
  specialize (H a). rewrite forallb_forall in H. specialize (H (b2z b)).
  cbv zeta in H. rewrite z2b_b2z in H. intros E.
  destruct (decide (a = b)) as [|Hne]; [done|exfalso].
  assert (In (b2z b) (seqZ 0 256)) as Hin
    by (apply list_elem_of_In, elem_of_seqZ; pose proof (b2z_range b); lia).
  specialize (H Hin). rewrite (bool_decide_false (a = b)) in H by done.
  simpl orb in H. apply negb_true_iff, bool_decide_eq_false in H. apply H.
  set (n := Nat.min (length (escape_byte a)) (length (escape_byte b))).
  apply (f_equal (take n)) in E. rewrite !take_app_le in E by lia. exact E.
Qed.

Lemma escape_byte_head a : exists c l, escape_byte a = c :: l /\ c <> QUOTE.
Proof.
  assert (forall a, match escape_byte a with
     | c :: _ => negb (bool_decide (c = QUOTE)) | [] => false end = true) as H
    by (apply byte_forallb; vm_compute; reflexivity).
  specialize (H a). destruct (escape_byte a) as [|c l]; [done|].
  apply negb_true_iff, bool_decide_eq_false in H. eauto.
Qed.

Lemma escape_inj s1 s2 r1 r2 :
  escape s1 ++ QUOTE :: r1 = escape s2 ++ QUOTE :: r2 -> s1 = s2 /\ r1 = r2.
Proof.
  revert s2. induction s1 as [|a s1 IH]; intros [|b s2] E; unfold escape in E; simpl in E.
  - by injection E.
  - destruct (escape_byte_head b) as (c & l & Eb & Hc). rewrite Eb in E. simpl in E.
    by injection E as E' _.
  - destruct (escape_byte_head a) as (c & l & Ea & Hc). rewrite Ea in E. simpl in E.
    by injection E as E' _.
  - rewrite <- !app_assoc in E. pose proof (escape_byte_prefix_free _ _ _ _ E) as ->.
    apply app_inv_head in E. destruct (IH s2 E) as [-> ->]. done.
Qed.

Lemma json_string_inj s1 s2 r1 r2 :
  encode_json_string s1 ++ r1 = encode_json_string s2 ++ r2 -> s1 = s2 /\ r1 = r2.
Proof.
  unfold encode_json_string. simpl. intros [= E]. rewrite <- !app_assoc in E. by apply escape_inj.
Qed.

(** The text of a number, and the number of a text. *)
Definition number_of (b : bytes) : option Number :=
  match b with
  | [] => None
  | c :: l =>
      if bool_decide (c = Byte.x2d) then NegInt ∘ Z.opp <$> parse_u64 l
      else PosInt <$> parse_u64 b
  end.

Lemma number_text n b :
  wf_value (Num n) -> encode_number n = Ok b ->
  number_of b = Some n
  /\ ((forallb is_digit b = true /\ b <> [])
      \/ exists l, b = Byte.x2d :: l /\ forallb is_digit l = true).
Proof.
  unfold encode_number. intros Hw E.
  inversion Hw as [| |m Hm|m Hm Hneg| | | |]; subst; cbn [as_i64 as_u64] in E; [| |done].
  - pose proof Hm as Hm'. unfold is_u64 in Hm'. destruct (show_u64_digits m) as [Hd Hne]; [lia|].
    assert (b = show_u64 m) as ->.
    { destruct (m <? 2 ^ 63); apply Ok_inj in E; subst; [|done].
      unfold show_i64. destruct (Z.ltb_spec m 0); [lia|done]. }
    split; [|by left]. unfold number_of. rewrite parse_show_u64 by done.
    destruct (show_u64 m) as [|c l] eqn:Es; [done|].
    rewrite bool_decide_false; [done|]. simpl in Hd. apply andb_true_iff in Hd as [Hd _].
    by intros ->.
  - apply Ok_inj in E as <-. unfold is_i64 in Hm. unfold show_i64.
    destruct (Z.ltb_spec m 0); [|lia]. split.
    + simpl. rewrite parse_show_u64 by (unfold is_u64; lia). simpl. do 2 f_equal. lia.
    + right. exists (show_u64 (- m)). split; [done|]. apply show_u64_digits. lia.
Qed.

Lemma delim_digit r : delim r -> match r with [] => True | c :: _ => is_digit c = false end.
Proof. destruct r as [|c r]; [done|]. by intros [->|[->| ->]]. Qed.

Lemma number_delimited n1 n2 b1 b2 r1 r2 :
  wf_value (Num n1) -> wf_value (Num n2) -> encode_number n1 = Ok b1 -> encode_number n2 = Ok b2 ->
  delim r1 -> delim r2 -> b1 ++ r1 = b2 ++ r2 -> n1 = n2 /\ b1 = b2.
Proof.
  intros Hw1 Hw2 E1 E2 Hr1%delim_digit Hr2%delim_digit E.
  destruct (number_text n1 b1 Hw1 E1) as [N1 D1], (number_text n2 b2 Hw2 E2) as [N2 D2].
  assert (b1 = b2) as ->; [|split; congruence].
  destruct D1 as [[D1 Hne1]|(l1 & -> & D1)], D2 as [[D2 Hne2]|(l2 & -> & D2)].
  - by apply (digits_delimited b1 b2 r1 r2).
  - destruct b1 as [|c l]; [done|]. simpl in E, D1. injection E as -> _. done.
  - destruct b2 as [|c l]; [done|]. simpl in E, D2. injection E as <- _. done.
  - simpl in E. injection E as E. f_equal. by apply (digits_delimited l1 l2 r1 r2).
Qed.

(** [readable b1 b2]: when both start one text at a delimiter, they are equal. *)
Definition readable (b1 b2 : bytes) : Prop :=
  forall r1 r2, delim r1 -> delim r2 -> b1 ++ r1 = b2 ++ r2 -> b1 = b2.

(** The first byte of a text is no closing bracket. *)
Definition opens (b : bytes) : Prop :=
  match b with [] => False | c :: _ => c <> Byte.x5d /\ c <> Byte.x7d end.

Lemma join_inj cl bs1 bs2 r1 r2 :
  cl = Byte.x5d \/ cl = Byte.x7d ->
  (forall x y, x ∈ bs1 -> y ∈ bs2 -> readable x y) ->
  Forall opens bs1 -> Forall opens bs2 ->
  join COMMA bs1 ++ cl :: r1 = join COMMA bs2 ++ cl :: r2 -> bs1 = bs2.
Proof.
  intros Hcl. revert bs2. induction bs1 as [|x bs1 IH]; intros [|y bs2] Hr H1 H2 E; [done|..].
  - exfalso. apply Forall_cons in H2 as [Hy _]. destruct y as [|c y]; [done|].
    destruct bs2; simpl in E; injection E as <- _; unfold opens in Hy; naive_solver.
  - exfalso. apply Forall_cons in H1 as [Hx _]. destruct x as [|c x]; [done|].
    destruct bs1; simpl in E; injection E as -> _; unfold opens in Hx; naive_solver.
  - apply Forall_cons in H1 as [Hx H1], H2 as [Hy H2].
    set (tl := fun bs => match bs with [] => [] | _ => COMMA :: join COMMA bs end).
    assert (forall z bs, join COMMA (z :: bs) = z ++ tl bs) as Hj
      by (intros z [|w bs]; simpl; [by rewrite app_nil_r|done]).
    assert (forall bs r, delim (tl bs ++ cl :: r)) as Hd.
    { intros [|w bs] r; simpl; [|by left]. destruct Hcl as [-> | ->]; auto. }
    rewrite !Hj, <- !app_assoc in E.
    assert (x = y) as -> by (eapply Hr; [set_solver|set_solver|apply Hd|apply Hd|exact E]).
    f_equal. apply app_inv_head in E. destruct bs1 as [|w1 bs1], bs2 as [|w2 bs2]; simpl tl in E.
    + done.
    + injection E as E _. destruct Hcl as [-> | ->]; done.
    + injection E as E _. destruct Hcl as [-> | ->]; done.
    + injection E as E. apply IH; [set_solver|done..].
Qed.

Lemma omap_id_Ok (rs : list (res bytes)) bs :
  omap_list (fun r => r) rs = Ok bs <-> rs = map Ok bs.
Proof.
  rewrite omap_list_Ok. split.
  - induction 1 as [|r b rs bs Hr Hrs IH]; simpl; congruence.
  - intros ->. induction bs; constructor; done.
Qed.

(** What the text of a value starts with. *)
Definition head_class (v : Value) (c : byte) : Prop :=
  match v with
  | Null => c = Byte.x6e
  | Bool b => c = if b then Byte.x74 else Byte.x66
  | Num _ => is_digit c = true \/ c = Byte.x2d
  | Str _ => c = QUOTE
  | Array _ => c = Byte.x5b
  | Object _ => c = Byte.x7b
  end.

Lemma canonicalize_head v b :
  wf_value v -> canonicalize_json v = Ok b -> exists c l, b = c :: l /\ head_class v c.
Proof.
  intros Hw. destruct v as [|x|n|s|items|members]; cbn [canonicalize_json]; intros E.
  - apply Ok_inj in E as <-. by eexists _, _.
  - apply Ok_inj in E as <-. destruct x; by eexists _, _.
  - destruct (number_text n b Hw E) as [_ [[Hd Hne]|(l & -> & _)]]; [|by eexists _, _; split; [|right]].
    destruct b as [|c l]; [done|]. simpl in Hd. apply andb_true_iff in Hd as [Hd _].
    exists c, l. split; [done|]. by left.
  - apply Ok_inj in E as <-. by eexists _, _.
  - inv_ok. by eexists _, _.
  - inv_ok. by eexists _, _.
Qed.

Lemma canonicalize_opens v b : wf_value v -> canonicalize_json v = Ok b -> opens b.
Proof.
  intros Hw E. destruct (canonicalize_head v b Hw E) as (c & l & -> & Hc).
  destruct v as [|[]| | | |]; simpl in Hc; subst; try done.
  destruct Hc as [Hc| ->]; [|done]. split; by intros ->.
Qed.

(** Values whose texts start alike are of one form. *)
Lemma head_class_form v1 v2 c :
  head_class v1 c -> head_class v2 c ->
  match v1, v2 with
  | Null, Null | Num _, Num _ | Str _, Str _ | Array _, Array _ | Object _, Object _ => True
  | Bool a, Bool b => a = b
  | _, _ => False
  end.
Proof.
  destruct v1 as [|[]| | | |], v2 as [|[]| | | |]; simpl; intros H1 H2; try done; subst; try done;
    repeat match goal with H : _ \/ _ |- _ => destruct H end; subst; done.
Qed.

(** The texts of an object's members, in key order. *)
Lemma object_members members bs :
  omap_list (fun m : bytes * res bytes => b ← m.2; mret (encode_json_string m.1 ++ Byte.x3a :: b))
    (sort_by (cmp_on fst bytes_cmp) (map (fun m => (m.1, canonicalize_json m.2)) members)) = Ok bs ->
  Forall2 (fun (m : bytes * Value) t => exists b, canonicalize_json m.2 = Ok b
             /\ t = encode_json_string m.1 ++ Byte.x3a :: b)
    (sort_by (cmp_on fst bytes_cmp) members) bs.
Proof.
  set (f := fun m : bytes * Value => (m.1, canonicalize_json m.2)).
  change (cmp_on fst bytes_cmp) with (cmp_on f (cmp_on fst bytes_cmp)) at 2.
  rewrite <- (sort_by_map f), omap_list_Ok. intros H. rewrite Forall2_fmap_l in H.
  eapply Forall2_impl; [exact H|]. intros m t (b & Hb & Ht)%bind_Ok. exists b.
  split; [exact Hb|]. by apply Ok_inj in Ht.
Qed.

(** The text of [v] determines it, wherever it is delimited. *)
Definition determined (v : Value) : Prop :=
  wf_value v -> forall v2 b1 b2, wf_value v2 ->
  canonicalize_json v = Ok b1 -> canonicalize_json v2 = Ok b2 ->
  readable b1 b2 /\ (b1 = b2 -> same_value v v2).

Lemma array_determined items : Forall determined items -> determined (Array items).
Proof.
  intros IH Hw v2 b1 b2 Hw2 E1 E2.
  destruct (canonicalize_head _ _ Hw E1) as (c1 & l1 & -> & Hc1).
  destruct (canonicalize_head _ _ Hw2 E2) as (c2 & l2 & -> & Hc2).
  enough (forall r1 r2, c1 :: l1 ++ r1 = c2 :: l2 ++ r2 ->
    (c1 :: l1 = c2 :: l2) /\ same_value (Array items) v2) as Hmain.
  { split; [intros r1 r2 _ _ E; by apply (Hmain r1 r2)|].
    intros E. apply (Hmain [] []). by rewrite !app_nil_r. }
  intros r1 r2 E. injection E as <- E.
  pose proof (head_class_form _ _ _ Hc1 Hc2) as Hform. destruct v2 as [| | | |items2|]; try done.
  cbn [canonicalize_json] in E1, E2.
  apply bind_Ok in E1 as (x & Hx & E1%Ok_inj), E2 as (x0 & Hx0 & E2%Ok_inj).
  apply omap_id_Ok in Hx, Hx0. injection E1 as _ <-. injection E2 as _ <-.
  rewrite <- !app_assoc in E. simpl in E.
  inversion Hw as [| | | | | |? Hwi|]; inversion Hw2 as [| | | | | |? Hwi2|]; subst.
  rewrite Forall_forall in IH, Hwi, Hwi2.
  assert (forall l bs x, map canonicalize_json l = map Ok bs -> x ∈ bs ->
            exists v, v ∈ l /\ canonicalize_json v = Ok x) as Hin.
  { intros l bs y El Hy. assert (@Ok cerror bytes y ∈ map canonicalize_json l) as Hm
      by (rewrite El; by apply (list_elem_of_fmap_2 Ok)).
    apply list_elem_of_fmap in Hm as (v & Ev & Hv). eauto. }
  assert (x = x0) as <-.
  { apply (join_inj Byte.x5d x x0 r1 r2); [by left| | | |done].
    - intros a b Ha Hb. destruct (Hin _ _ _ Hx Ha) as (v & Hv & Ev), (Hin _ _ _ Hx0 Hb) as (w & Hw' & Ew).
      by apply (IH v Hv (Hwi v Hv) w a b (Hwi2 w Hw')).
    - apply Forall_forall. intros a Ha. destruct (Hin _ _ _ Hx Ha) as (v & Hv & Ev).
      by apply (canonicalize_opens v); [apply Hwi|].
    - apply Forall_forall. intros a Ha. destruct (Hin _ _ _ Hx0 Ha) as (v & Hv & Ev).
      by apply (canonicalize_opens v); [apply Hwi2|]. }
  split; [done|]. constructor. apply Forall2_same_length_lookup. split.
  - apply (f_equal length) in Hx, Hx0. rewrite !length_map in Hx, Hx0. congruence.
  - intros i v w Hv Hw'. apply (f_equal (.!! i)) in Hx, Hx0.
    rewrite !list_lookup_fmap, Hv in Hx. rewrite !list_lookup_fmap, Hw' in Hx0. simpl in Hx, Hx0.
    destruct (x !! i) as [b|]; [|done]. injection Hx as Ev. injection Hx0 as Ew.
    apply list_elem_of_lookup_2 in Hv, Hw'.
    by apply (IH v Hv (Hwi v Hv) w b b (Hwi2 w Hw')).
Qed.

(** Two member texts of one prefix: the keys agree, and then the values. *)
Lemma member_readable k1 k2 b1 b2 :
  readable b1 b2 ->
  readable (encode_json_string k1 ++ Byte.x3a :: b1) (encode_json_string k2 ++ Byte.x3a :: b2).
Proof.
  intros Hb r1 r2 H1 H2 E. rewrite <- !app_assoc in E.
  apply json_string_inj in E as [-> E]. injection E as E. by rewrite (Hb r1 r2).
Qed.

Lemma object_determined members :
  Forall (fun m => determined m.2) members -> determined (Object members).
Proof.
  intros IH Hw v2 b1 b2 Hw2 E1 E2.
  destruct (canonicalize_head _ _ Hw E1) as (c1 & l1 & -> & Hc1).
  destruct (canonicalize_head _ _ Hw2 E2) as (c2 & l2 & -> & Hc2).
  enough (forall r1 r2, c1 :: l1 ++ r1 = c2 :: l2 ++ r2 ->
    (c1 :: l1 = c2 :: l2) /\ same_value (Object members) v2) as Hmain.
  { split; [intros r1 r2 _ _ E; by apply (Hmain r1 r2)|].
    intros E. apply (Hmain [] []). by rewrite !app_nil_r. }
  intros r1 r2 E. injection E as <- E.
  pose proof (head_class_form _ _ _ Hc1 Hc2) as Hform. destruct v2 as [| | | | |members2]; try done.
  cbn [canonicalize_json] in E1, E2.
  apply bind_Ok in E1 as (x & Hx%object_members & E1%Ok_inj).
  apply bind_Ok in E2 as (x0 & Hx0%object_members & E2%Ok_inj).
  injection E1 as _ <-. injection E2 as _ <-. rewrite <- !app_assoc in E. simpl in E.
  inversion Hw as [| | | | | | |? _ Hwi]; inversion Hw2 as [| | | | | | |? _ Hwi2]; subst.
  rewrite <- (sort_by_perm (cmp_on fst bytes_cmp) members) in IH, Hwi.
  rewrite <- (sort_by_perm (cmp_on fst bytes_cmp) members2) in Hwi2.
  rewrite Forall_forall in IH, Hwi, Hwi2.
  set (m1 := sort_by _ members) in *. set (m2 := sort_by _ members2) in *.
  assert (x = x0) as <-.
  { apply (join_inj Byte.x7d x x0 r1 r2); [by right| | | |done].
    - intros a b [i Hi]%list_elem_of_lookup_1 [j Hj]%list_elem_of_lookup_1.
      destruct (Forall2_lookup_r _ _ _ _ _ Hx Hi) as (v & Hv%list_elem_of_lookup_2 & t & Et & ->).
      destruct (Forall2_lookup_r _ _ _ _ _ Hx0 Hj) as (w & Hw'%list_elem_of_lookup_2 & u & Eu & ->).
      apply member_readable. by apply (IH v Hv (Hwi v Hv) w.2 t u (Hwi2 w Hw')).
    - apply Forall_forall. intros a [i Hi]%list_elem_of_lookup_1.
      by destruct (Forall2_lookup_r _ _ _ _ _ Hx Hi) as (v & _ & t & _ & ->).
    - apply Forall_forall. intros a [i Hi]%list_elem_of_lookup_1.
      by destruct (Forall2_lookup_r _ _ _ _ _ Hx0 Hi) as (v & _ & t & _ & ->). }
  split; [done|].
  assert (Forall2 (fun m n : bytes * Value => m.1 = n.1 /\ same_value m.2 n.2) m1 m2) as Hmn.
  { apply Forall2_same_length_lookup. split.
    { by rewrite (Forall2_length _ _ _ Hx), (Forall2_length _ _ _ Hx0). }
    intros i v w Hv Hw'.
    destruct (Forall2_lookup_l _ _ _ _ _ Hx Hv) as (t & Ht & b & Eb & ->).
    destruct (Forall2_lookup_l _ _ _ _ _ Hx0 Hw') as (t' & Ht' & b' & Eb' & ->).
    rewrite Ht in Ht'. apply (inj Some) in Ht' as Et. apply list_elem_of_lookup_2 in Hv, Hw'.
    apply json_string_inj in Et as [Ek Eb2]. injection Eb2 as <-. split; [done|].
    by apply (IH v Hv (Hwi v Hv) w.2 b b (Hwi2 w Hw')). }
  destruct (Permutation_Forall2 (sort_by_perm (cmp_on fst bytes_cmp) members) Hmn)
    as (ns' & Hp & Hns).
  apply (same_object members members2 ns'); [|done].
  rewrite <- Hp. apply sort_by_perm.
Qed.

Lemma all_determined v : determined v.
Proof.
  induction v as [|b|n|s|items IH|members IH] using value_ind;
    [..|by apply array_determined|by apply object_determined];
    intros Hw v2 b1 b2 Hw2 E1 E2;
    destruct (canonicalize_head _ _ Hw E1) as (c1 & l1 & -> & Hc1);
    destruct (canonicalize_head _ _ Hw2 E2) as (c2 & l2 & -> & Hc2).
  - split; [intros r1 r2 H1 H2 E|intros E]; injection E as <- E;
      pose proof (head_class_form _ _ _ Hc1 Hc2) as Hf; destruct v2; try done; [congruence|constructor].
  - split; [intros r1 r2 H1 H2 E|intros E]; injection E as <- E;
      pose proof (head_class_form _ _ _ Hc1 Hc2) as Hf; destruct v2; try done; subst;
      [congruence|constructor].
  - split; [intros r1 r2 H1 H2 E|intros E];
      pose proof E as Ec; injection Ec as <- _;
      pose proof (head_class_form _ _ _ Hc1 Hc2) as Hf; destruct v2 as [| |n2| | |]; try done.
    + by destruct (number_delimited n n2 (c1 :: l1) (c1 :: l2) r1 r2).
    + destruct (number_delimited n n2 (c1 :: l1) (c1 :: l2) [] []) as [-> _]; try done; [|constructor].
      by rewrite E.
  - split; [intros r1 r2 H1 H2 E|intros E];
      pose proof E as Ec; injection Ec as <- _;
      pose proof (head_class_form _ _ _ Hc1 Hc2) as Hf; destruct v2 as [| | |s2| |]; try done;
      cbn [canonicalize_json] in E1, E2; apply Ok_inj in E1, E2; rewrite <- E1, <- E2 in *.
    + apply json_string_inj in E as [-> _]. done.
    + rewrite <- (app_nil_r (encode_json_string s)), <- (app_nil_r (encode_json_string s2)) in E.
      apply json_string_inj in E as [-> _]. constructor.
Qed.

(** Canonical JSON is an identity: of two JSON values (with distinct keys),
    the second has the canonical text of the first exactly when they are
    equal up to the order of object members, at every depth. *)
Theorem canonical_json_identity (v1 v2 : Value) (b : bytes) :
  wf_value v1 -> wf_value v2 -> canonicalize_json v1 = Ok b ->
  canonicalize_json v2 = Ok b <-> same_value v1 v2.
Proof.
  intros Hw1 Hw2 E1. split.
  - intros E2. by apply (all_determined v1 Hw1 v2 b b).
  - intros Hs. by rewrite <- (canonicalize_same v1).
Qed.

(** * Witness *)

Definition ex_value (flip : bool) : Value :=
  let a := (bstr "a", Array [Num (PosInt 18446744073709551615); Num (NegInt (-3)); Null]) in
  let b := (bstr "b", Object [(bstr "q", Str (bstr "x" ++ [QUOTE; Byte.x01])); (bstr "p", Bool true)]) in
  Object (if flip then [b; a] else [a; b]).

Lemma ex_value_wf flip : wf_value (ex_value flip).
Proof.
  assert (forall (x y : bytes), x <> y -> NoDup [x; y]) as Hnd
    by (intros x y Hxy; apply NoDup_cons; split; [set_solver|apply NoDup_singleton]).
  assert (wf_value (Num (PosInt 18446744073709551615))) by (by constructor).
  assert (wf_value (Num (NegInt (-3)))) by (by constructor).
  destruct flip; (apply wf_object; [apply Hnd; discriminate|]);
    repeat (apply Forall_cons; split); simpl; try done; try apply Forall_nil_2;
    try (apply wf_array; repeat (apply Forall_cons; split); [done|done|constructor|apply Forall_nil_2]);
    (apply wf_object; [apply Hnd; discriminate|]);
    repeat (apply Forall_cons; split); simpl; constructor.
Qed.

Lemma canonical_json_identity_witness :
  canonicalize_json (ex_value false)
  = Ok (unwrap_or [] (canonicalize_json (ex_value true)))
  <-> same_value (ex_value true) (ex_value false).
Proof.
  apply (canonical_json_identity (ex_value true) (ex_value false)
           (unwrap_or [] (canonicalize_json (ex_value true))));
    [apply ex_value_wf|apply ex_value_wf|vm_compute; reflexivity].
Defined.
