(* ===== verification/Tree.v ===== *)
(** Directory trees and dynamic-node recipes as content objects,
    [crates/sync-store/src/content/tree.rs]: the per-version metadata a
    directory records, the canonical tree encoding (entries sorted by name,
    duplicates refused) with its decoder, and the recipe encoding. *)

From stdpp Require Import base list numbers sets sorting strings options.
From Stdlib Require Import ZArith Lia.
From S2P Require Import Prelude RustStd EntryType Wire.

Definition TREE_MAGIC : bytes := bstr "watertown.tree.v1" ++ [Byte.x0a].
Definition RECIPE_MAGIC : bytes := bstr "watertown.recipe.v1" ++ [Byte.x0a].

#[global] Opaque TREE_MAGIC RECIPE_MAGIC.

Definition TREE_ENTRY_MIN_BYTES : nat := 4 + 1 + 32 + 4.
Definition VERSION_META_MIN_BYTES : nat := 1.

Definition META_HAS_MIN : Z := 1.
Definition META_HAS_MAX : Z := 2.
Definition META_HAS_ATTRS : Z := 4.
Definition META_HAS_MTIME : Z := 8.
Definition META_KNOWN_FLAGS : Z :=
  Z.lor (Z.lor (Z.lor META_HAS_MIN META_HAS_MAX) META_HAS_ATTRS) META_HAS_MTIME.

(** * Data *)

Record VersionMeta := {
  timestamp : option Z;
  min_event_time : option Z;
  max_event_time : option Z;
  extended_attributes : option bytes;
}.

#[export] Instance VersionMeta_eq_dec : EqDecision VersionMeta.
Proof. solve_decision. Defined.

Definition bounds (m : VersionMeta) : option (Z * Z) :=
  match min_event_time m, max_event_time m with
  | Some lo, Some hi => Some (lo, hi)
  | _, _ => None
  end.

Definition is_none {A} (o : option A) : bool :=
  match o with None => true | Some _ => false end.

Definition meta_is_empty (m : VersionMeta) : bool :=
  is_none (timestamp m) && is_none (min_event_time m)
  && is_none (max_event_time m) && is_none (extended_attributes m).

Record TreeEntry := {
  name : bytes;
  entry_type : EntryType;
  child_hash : bytes;
  versions : list VersionMeta;
}.

#[export] Instance TreeEntry_eq_dec : EqDecision TreeEntry.
Proof. solve_decision. Defined.

Definition bare (n : bytes) (t : EntryType) (h : bytes) : TreeEntry :=
  {| name := n; entry_type := t; child_hash := h; versions := [] |}.

(** The invariants the Rust types carry: [i64] fields, UTF-8 strings, 32-byte
    hashes. *)
Definition opt_all {A} (p : A -> bool) (o : option A) : bool :=
  match o with Some a => p a | None => true end.

Definition wf_meta (m : VersionMeta) : bool :=
  opt_all is_i64 (timestamp m) && opt_all is_i64 (min_event_time m)
  && opt_all is_i64 (max_event_time m) && opt_all utf8_valid (extended_attributes m).

Definition wf_entry (e : TreeEntry) : bool :=
  utf8_valid (name e) && wf_hash (child_hash e) && forallb wf_meta (versions e).

(** * Version metadata on the wire *)

Definition meta_flags (m : VersionMeta) : Z :=
  let flags := 0 in
  let flags := match min_event_time m with Some _ => Z.lor flags META_HAS_MIN | None => flags end in
  let flags := match max_event_time m with Some _ => Z.lor flags META_HAS_MAX | None => flags end in
  let flags := match extended_attributes m with Some _ => Z.lor flags META_HAS_ATTRS | None => flags end in
  match timestamp m with Some _ => Z.lor flags META_HAS_MTIME | None => flags end.

Definition push_opt_i64 (o : option Z) : bytes :=
  match o with Some v => to_le 8 v | None => [] end.

Definition push_version_meta (m : VersionMeta) : res bytes :=
  attrs ← match extended_attributes m with
          | Some a => push_len_prefixed a
          | None => mret []
          end;
  mret (to_le 1 (meta_flags m) ++ push_opt_i64 (min_event_time m)
        ++ push_opt_i64 (max_event_time m) ++ attrs ++ push_opt_i64 (timestamp m)).

Definition push_version_metas (vs : list VersionMeta) : res bytes :=
  count ← push_count (length vs);
  metas ← omap_list push_version_meta vs;
  mret (count ++ concat metas).

Definition take_if {A} (b : bool) (d : Dec A) : Dec (option A) :=
  if b then x ← d; mret (Some x) else mret None.

Definition has_flag (flags bit : Z) : bool := negb (Z.land flags bit =? 0).

Definition take_version_meta : Dec VersionMeta :=
  flags ← take_u8;
  _ ← (if negb (Z.land flags (Z.lxor 0xff META_KNOWN_FLAGS) =? 0)
       then lift (Err (UnknownMetaFlags flags)) else mret tt);
  mn ← take_if (has_flag flags META_HAS_MIN) take_i64;
  mx ← take_if (has_flag flags META_HAS_MAX) take_i64;
  attrs ← take_if (has_flag flags META_HAS_ATTRS) take_len_prefixed_string;
  ts ← take_if (has_flag flags META_HAS_MTIME) take_i64;
  mret {| timestamp := ts; min_event_time := mn; max_event_time := mx;
          extended_attributes := attrs |}.

Definition take_version_metas : Dec (list VersionMeta) :=
  count ← take_u32; take_many (Z.to_nat count) take_version_meta.

(** * Trees *)

Definition name_cmp : TreeEntry -> TreeEntry -> comparison := cmp_on name bytes_cmp.

Definition same_name (a b : TreeEntry) : bool := bool_decide (name a = name b).

Definition encode_entry (e : TreeEntry) : res bytes :=
  n ← push_len_prefixed (name e);
  vs ← push_version_metas (versions e);
  mret (n ++ to_le 1 (discriminant (entry_type e)) ++ child_hash e ++ vs).

Definition encode_tree (entries : list TreeEntry) : res bytes :=
  let sorted := sort_by name_cmp entries in
  match find_pair same_name sorted with
  | Some (a, _) => Err (DuplicateEntryName (name a))
  | None =>
      count ← push_count (length sorted);
      es ← omap_list encode_entry sorted;
      mret (TREE_MAGIC ++ count ++ concat es)
  end.

Definition tree_hash `{Blake3} (entries : list TreeEntry) : res bytes :=
  b ← encode_tree entries; mret (of_bytes b).

Definition take_entry : Dec TreeEntry :=
  n ← take_len_prefixed_string;
  t ← take_entry_type;
  h ← take_hash;
  vs ← take_version_metas;
  mret {| name := n; entry_type := t; child_hash := h; versions := vs |}.

Definition tree_body : Dec (list TreeEntry) :=
  _ ← expect_tag TREE_MAGIC;
  count ← take_u32;
  take_many (Z.to_nat count) take_entry.

Definition decode_tree (b : bytes) : res (list TreeEntry) := decode_strict tree_body Ok b.

(** * Recipes *)

Definition encode_recipe (factory_type config : bytes) : res bytes :=
  f ← push_len_prefixed factory_type;
  mret (RECIPE_MAGIC ++ f ++ config).

Definition recipe_hash `{Blake3} (factory_type config : bytes) : res bytes :=
  b ← encode_recipe factory_type config; mret (of_bytes b).

Definition decode_recipe (b : bytes) : res (bytes * bytes) :=
  '(f, c) ← (_ ← expect_tag RECIPE_MAGIC; take_len_prefixed_string) (Cursor.new b);
  mret (f, (Cursor.take_rest c).1).

(** * Version metadata: lemmas *)

Lemma decodes_opt {A} (d : Dec A) (o : option A) e :
  match o with Some a => decodes d e a | None => e = [] end ->
  decodes (take_if (negb (is_none o)) d) e o.
Proof.
  destruct o as [a|]; simpl.
  - intros H. eapply decodes_bind_nil; [exact H|]. apply decodes_ret.
  - intros ->. apply decodes_ret.
Qed.

Lemma meta_flags_spec m :
  is_u8 (meta_flags m) = true
  /\ Z.land (meta_flags m) (Z.lxor 0xff META_KNOWN_FLAGS) = 0
  /\ has_flag (meta_flags m) META_HAS_MIN = negb (is_none (min_event_time m))
  /\ has_flag (meta_flags m) META_HAS_MAX = negb (is_none (max_event_time m))
  /\ has_flag (meta_flags m) META_HAS_ATTRS = negb (is_none (extended_attributes m))
  /\ has_flag (meta_flags m) META_HAS_MTIME = negb (is_none (timestamp m)).
Proof. destruct m as [[] [] [] []]; vm_compute; done. Qed.

Lemma decodes_opt_i64 o :
  opt_all is_i64 o = true ->
  match o with Some a => decodes take_i64 (push_opt_i64 o) a | None => push_opt_i64 o = [] end.
Proof. destruct o; simpl; auto with wire. Qed.

Lemma decodes_version_meta m e :
  wf_meta m = true -> push_version_meta m = Ok e -> decodes take_version_meta e m.
Proof.
  unfold wf_meta. rewrite !andb_true_iff. intros [[[Hts Hmn] Hmx] Hat] He.
  unfold push_version_meta in He. inv_ok.
  destruct (meta_flags_spec m) as (Hu8 & Hknown & Fmn & Fmx & Fat & Fts).
  unfold take_version_meta. dec_step. rewrite Hknown, Fmn, Fmx, Fat, Fts. simpl.
  eapply (decodes_bind _ _ []); [apply decodes_ret|].
  eapply decodes_bind; [by apply decodes_opt, decodes_opt_i64|].
  eapply decodes_bind; [by apply decodes_opt, decodes_opt_i64|].
  eapply decodes_bind.
  { apply decodes_opt. destruct (extended_attributes m).
    - by apply decodes_len_prefixed_string.
    - by inv_ok. }
  eapply decodes_bind_nil; [by apply decodes_opt, decodes_opt_i64|].
  destruct m; apply decodes_ret.
Qed.

Lemma decodes_version_metas vs e :
  forallb wf_meta vs = true -> push_version_metas vs = Ok e -> decodes take_version_metas e vs.
Proof.
  unfold push_version_metas. intros Hwf He. inv_ok. dec_step.
  rewrite Nat2Z.id. eapply decodes_many_enc; [|by apply forallb_Forall|done].
  intros m e'. apply decodes_version_meta.
Qed.

Lemma decodes_entry en e :
  wf_entry en = true -> encode_entry en = Ok e -> decodes take_entry e en.
Proof.
  unfold wf_entry, encode_entry. rewrite !andb_true_iff. intros [[Hn Hh] Hv] He. inv_ok.
  unfold take_entry. dec_step. dec_step. dec_step.
  eapply decodes_bind_nil; [by apply decodes_version_metas|].
  destruct en; apply decodes_ret.
Qed.

(** * Version metadata: what the decoder accepts *)

Lemma known_flags_sum flags :
  is_u8 flags = true -> Z.land flags (Z.lxor 0xff META_KNOWN_FLAGS) = 0 ->
  flags = (if has_flag flags META_HAS_MIN then 1 else 0)
          + (if has_flag flags META_HAS_MAX then 2 else 0)
          + (if has_flag flags META_HAS_ATTRS then 4 else 0)
          + (if has_flag flags META_HAS_MTIME then 8 else 0).
Proof.
  intros Hu. unfold is_u8 in Hu.
  assert (forallb (fun f => implb (Z.land f (Z.lxor 0xff META_KNOWN_FLAGS) =? 0)
      (f =? (if has_flag f META_HAS_MIN then 1 else 0)
          + (if has_flag f META_HAS_MAX then 2 else 0)
          + (if has_flag f META_HAS_ATTRS then 4 else 0)
          + (if has_flag f META_HAS_MTIME then 8 else 0))) (seqZ 0 256) = true) as H
    by (vm_compute; reflexivity).
  rewrite forallb_forall in H. specialize (H flags).
  rewrite <- list_elem_of_In, elem_of_seqZ in H. specialize (H ltac:(lia)).
  intros E. rewrite E in H. simpl in H. lia.
Qed.

Lemma meta_flags_sum m :
  meta_flags m = (if negb (is_none (min_event_time m)) then 1 else 0)
          + (if negb (is_none (max_event_time m)) then 2 else 0)
          + (if negb (is_none (extended_attributes m)) then 4 else 0)
          + (if negb (is_none (timestamp m)) then 8 else 0).
Proof. by destruct m as [[] [] [] []]. Qed.

Lemma consumes_opt {A} (d : Dec A) R b :
  consumes d R ->
  consumes (take_if b d)
    (fun o e => b = negb (is_none o) /\ match o with Some a => R a e | None => e = [] end).
Proof.
  intros Hd. destruct b; simpl.
  - eapply consumes_weaken.
    + apply consumes_bind; [exact Hd|]. intros a. apply consumes_ret.
    + intros o e (a & e1 & e2 & -> & Ha & -> & ->). by rewrite app_nil_r.
  - eapply consumes_weaken; [apply consumes_ret|]. by intros o e [-> ->].
Qed.

Lemma consumes_version_meta :
  consumes take_version_meta (fun m e => push_version_meta m = Ok e /\ wf_meta m = true).
Proof.
  eapply consumes_weaken.
  - unfold take_version_meta. con_step.
    apply consumes_bind with (R := fun _ e =>
      e = [] /\ Z.land a (Z.lxor 0xff META_KNOWN_FLAGS) = 0).
    { destruct (Z.eqb_spec (Z.land a (Z.lxor 0xff META_KNOWN_FLAGS)) 0); simpl;
        (eapply consumes_weaken; [solve [eauto with wire]|]); naive_solver. }
    intros u.
    apply consumes_bind; [apply consumes_opt, consumes_i64|]. intros mn.
    apply consumes_bind; [apply consumes_opt, consumes_i64|]. intros mx.
    apply consumes_bind; [apply consumes_opt, consumes_len_prefixed_string|]. intros at_.
    apply consumes_bind; [apply consumes_opt, consumes_i64|]. intros ts.
    apply consumes_ret.
  - intros m e (flags & e1 & r1 & -> & [-> Hu] & [] & e2 & r2 & -> & [-> Hk]
      & mn & e3 & r3 & -> & [Fmn Hmn] & mx & e4 & r4 & -> & [Fmx Hmx]
      & at_ & e5 & r5 & -> & [Fat Hat] & ts & e6 & r6 & -> & [Fts Hts] & -> & ->).
    unfold push_version_meta, wf_meta. simpl.
    assert (forall o e, match o with Some a => e = to_le 8 a /\ is_i64 a = true | None => e = [] end ->
      e = push_opt_i64 o /\ opt_all is_i64 o = true) as Hopt by (intros [] e'; naive_solver).
    apply Hopt in Hmn as [-> ->], Hmx as [-> ->], Hts as [-> ->].
    assert (flags = meta_flags {| timestamp := ts; min_event_time := mn;
      max_event_time := mx; extended_attributes := at_ |}) as ->.
    { rewrite meta_flags_sum. simpl. rewrite <- Fmn, <- Fmx, <- Fat, <- Fts.
      by apply known_flags_sum. }
    rewrite app_nil_r. destruct at_ as [at_|]; simpl.
    + by destruct Hat as [-> ->].
    + by rewrite Hat.
Qed.

Lemma consumes_entry :
  consumes take_entry (fun en e => encode_entry en = Ok e /\ wf_entry en = true).
Proof.
  eapply consumes_weaken.
  - unfold take_entry. do 3 con_step.
    apply consumes_bind; [apply consumes_counted, consumes_version_meta|]. intros vs.
    apply consumes_ret.
  - intros en e (n & e1 & r1 & -> & [Hn Hu] & t & e2 & r2 & -> & -> & h & e3 & r3 & -> & [-> Hh]
      & vs & e4 & r4 & -> & [Hvs Hw] & -> & ->).
    unfold encode_entry, push_version_metas, wf_entry. simpl.
    rewrite Hn, Hu, Hh, Hw. simpl.
    apply bind_Ok in Hvs as (c & -> & (es & -> & [= <-])%bind_Ok). simpl.
    by rewrite app_nil_r.
Qed.

(** * Theorems *)

Lemma tree_no_dup_strict l :
  find_pair same_name (sort_by name_cmp l) = None ->
  StronglySorted (cmp_lt name_cmp) (sort_by name_cmp l).
Proof.
  apply find_pair_None_sorted; [|apply _|apply sort_by_sorted, _].
  intros x y E. apply bool_decide_true. by apply (cmp_eq (cmp := bytes_cmp)).
Qed.

Lemma encode_tree_strict l :
  StronglySorted (cmp_lt name_cmp) l ->
  encode_tree l = (c ← push_count (length l); es ← omap_list encode_entry l;
                   mret (TREE_MAGIC ++ c ++ concat es)).
Proof.
  intros Hs. unfold encode_tree. rewrite sort_by_strict by done.
  rewrite (find_pair_strict name_cmp); [done| |done].
  intros x y E. apply bool_decide_false. intros En. unfold name_cmp, cmp_on in E.
  by rewrite En, (cmp_refl bytes_cmp) in E.
Qed.

Lemma encode_tree_decodes entries b :
  forallb wf_entry entries = true -> encode_tree entries = Ok b ->
  decode_tree b = Ok (sort_by name_cmp entries).
Proof.
  intros Hwf. unfold encode_tree. destruct (find_pair _ _) as [[]|]; [done|]. intros He. inv_ok.
  unfold decode_tree. rewrite (decode_strict_encoded tree_body Ok _ (sort_by name_cmp entries)); [done|].
  unfold tree_body. do 2 dec_step. rewrite Nat2Z.id.
  eapply decodes_many_enc; [|rewrite sort_by_perm; by apply forallb_Forall|done].
  intros en e. apply decodes_entry.
Qed.

(** [decode_tree] inverts [encode_tree]: a directory that encodes decodes to
    exactly its entries, in name order. *)
Theorem tree_round_trip (entries : list TreeEntry) (b : bytes) :
  forallb wf_entry entries = true -> encode_tree entries = Ok b ->
  decode_tree b = Ok (sort_by name_cmp entries)
  /\ sort_by name_cmp entries ≡ₚ entries
  /\ StronglySorted (cmp_lt name_cmp) (sort_by name_cmp entries).
Proof.
  intros Hwf He. split; [by apply encode_tree_decodes|]. split; [apply sort_by_perm|].
  unfold encode_tree in He. destruct (find_pair _ _) as [[]|] eqn:E; [done|].
  by apply tree_no_dup_strict.
Qed.

(** A directory's encoding, and so its [tree_hash], does not depend on the
    order its entries are listed in; the duplicate-name error does not either. *)
Theorem tree_order_independent `{Blake3} (es1 es2 : list TreeEntry) :
  es1 ≡ₚ es2 -> encode_tree es1 = encode_tree es2 /\ tree_hash es1 = tree_hash es2.
Proof.
  intros Hp. unfold tree_hash. enough (encode_tree es1 = encode_tree es2) as -> by done.
  unfold encode_tree.
  pose proof (sort_unique_key name bytes_cmp es1 es2 Hp) as Hu. cbv zeta in Hu.
  fold name_cmp same_name in Hu. revert Hu.
  destruct (find_pair same_name (sort_by name_cmp es1)) as [[]|],
    (find_pair same_name (sort_by name_cmp es2)) as [[]|]; [by intros ->|done|done|].
  by intros [-> _].
Qed.

(** Equal tree hashes name the same directory: the same set of entries, or
    the two encodings are an explicit BLAKE3 collision. *)
Theorem tree_hash_identity `{Blake3} (es1 es2 : list TreeEntry) (h : bytes) :
  forallb wf_entry es1 = true -> forallb wf_entry es2 = true ->
  tree_hash es1 = Ok h -> tree_hash es2 = Ok h ->
  es1 ≡ₚ es2
  \/ exists b1 b2, encode_tree es1 = Ok b1 /\ encode_tree es2 = Ok b2
                   /\ b1 <> b2 /\ blake3 b1 = blake3 b2.
Proof.
  intros Hw1 Hw2 H1 H2. unfold tree_hash, of_bytes in *. inv_ok.
  destruct (decide (x = x0)) as [->|Hne]; [left|right; exists x0, x; by rewrite Hx, Hx0].
  apply encode_tree_decodes in Hx, Hx0; [|done..]. rewrite Hx in Hx0. injection Hx0 as E.
  by rewrite <- (sort_by_perm name_cmp es1), <- (sort_by_perm name_cmp es2), E.
Qed.

Lemma decode_tree_inv b es :
  decode_tree b = Ok es ->
  forallb wf_entry es = true
  /\ (c ← push_count (length es); xs ← omap_list encode_entry es;
      mret (TREE_MAGIC ++ c ++ concat xs)) = Ok b.
Proof.
  intros Hd. eapply decode_strict_inv in Hd as (a & HR & [= ->]).
  2: { unfold tree_body. con_step. apply consumes_counted, consumes_entry. }
  simpl in HR. destruct HR as ([] & e1 & e2 & -> & -> & HR & Hwf).
  split; [done|]. by apply bind_Ok in HR as (c & -> & (xs & -> & [= <-])%bind_Ok).
Qed.

(** What [decode_tree] accepts is never ambiguous: the bytes are determined
    by the decoded entries, every entry is well formed, and the bytes are the
    canonical encoding exactly when the names are strictly increasing. *)
Theorem decode_tree_canonical (b : bytes) (es : list TreeEntry) :
  decode_tree b = Ok es ->
  forallb wf_entry es = true
  /\ (forall b', decode_tree b' = Ok es -> b' = b)
  /\ (encode_tree es = Ok b <-> StronglySorted (cmp_lt name_cmp) es).
Proof.
  intros Hd. pose proof (decode_tree_inv _ _ Hd) as [Hwf He]. split; [done|]. split.
  - intros b' Hb'. apply decode_tree_inv in Hb' as [_ He']. congruence.
  - split; [|intros Hs; by rewrite encode_tree_strict]. intros Hb.
    pose proof (encode_tree_decodes _ _ Hwf Hb) as E. rewrite Hd in E. injection E as E.
    unfold encode_tree in Hb. destruct (find_pair _ _) as [[]|] eqn:Ef; [done|].
    apply tree_no_dup_strict in Ef. by rewrite <- E in Ef.
Qed.

(** [decode_tree] does not re-check the canonical form the encoder enforces:
    an object with two entries of the same name is accepted, although no
    directory encodes to it. *)
Theorem decode_tree_accepts_duplicates :
  exists b es n, decode_tree b = Ok es /\ encode_tree es = Err (DuplicateEntryName n).
Proof.
  set (e := bare [Byte.x61] FilePhysicalVersion (repeat Byte.x00 32)).
  exists (TREE_MAGIC ++ to_le 4 2
          ++ (to_le 4 1 ++ [Byte.x61] ++ to_le 1 4 ++ repeat Byte.x00 32 ++ to_le 4 0)
          ++ (to_le 4 1 ++ [Byte.x61] ++ to_le 1 4 ++ repeat Byte.x00 32 ++ to_le 4 0)),
    [e; e], [Byte.x61].
  split; vm_compute; reflexivity.
Qed.

Lemma decodes_recipe_header f e :
  utf8_valid f = true -> push_len_prefixed f = Ok e ->
  decodes (_ ← expect_tag RECIPE_MAGIC; take_len_prefixed_string) (RECIPE_MAGIC ++ e) f.
Proof. intros Hu He. dec_step. eauto with wire. Qed.

(** The recipe of a dynamic node round-trips and is unambiguous: decoding
    yields [(f, c)] exactly on the encoding of a UTF-8 factory type [f] with
    the configuration bytes [c]. *)
Theorem recipe_codec (f c b : bytes) :
  decode_recipe b = Ok (f, c) <-> utf8_valid f = true /\ encode_recipe f c = Ok b.
Proof.
  unfold decode_recipe, encode_recipe. split.
  - intros ([f' cur] & Hh & [= -> <-])%bind_Ok.
    assert (consumes (_ ← expect_tag RECIPE_MAGIC; take_len_prefixed_string)
      (fun f e => exists (u : unit) e1 e2, e = e1 ++ e2 /\ e1 = RECIPE_MAGIC
         /\ (push_len_prefixed f = Ok e2 /\ utf8_valid f = true))) as Hc.
    { apply consumes_bind; [apply consumes_tag|]. intros []. apply consumes_len_prefixed_string. }
    destruct (Hc b 0%nat _ _ (Nat.le_0_l _) Hh)
      as (pre & e & suf & -> & Hp & -> & u & e1 & e2 & -> & -> & He & Hu).
    apply nil_length_inv in Hp as ->. split; [done|]. rewrite He. simpl.
    by rewrite drop_app_length, <- app_assoc.
  - intros [Hu (e & He & [= <-])%bind_Ok].
    pose proof (decodes_recipe_header f e Hu He [] c) as Hd.
    rewrite <- app_assoc in Hd. cbn [app length Nat.add] in Hd.
    unfold Cursor.new. rewrite Hd. simpl.
    do 2 f_equal. rewrite app_assoc. apply drop_app_length.
Qed.

(** * The theorems at concrete directories *)

Definition ex_meta : VersionMeta :=
  {| timestamp := Some 1700000000000000; min_event_time := Some (-5); max_event_time := None;
     extended_attributes := Some (bstr "{}") |}.
Definition ex_entries : list TreeEntry :=
  [ {| name := bstr "b"; entry_type := TablePhysicalSeries; child_hash := repeat Byte.x07 32;
       versions := [ex_meta; ex_meta] |};
    bare (bstr "a") DirectoryPhysical (repeat Byte.x09 32) ].
Definition ex_tree : bytes := unwrap_or [] (encode_tree ex_entries).

Lemma tree_round_trip_witness :
  decode_tree ex_tree = Ok (sort_by name_cmp ex_entries)
  /\ sort_by name_cmp ex_entries ≡ₚ ex_entries
  /\ StronglySorted (cmp_lt name_cmp) (sort_by name_cmp ex_entries).
Proof. apply (tree_round_trip ex_entries ex_tree); vm_compute; reflexivity. Defined.

Lemma tree_order_independent_witness :
  encode_tree ex_entries = encode_tree (rev ex_entries)
  /\ @tree_hash mix_blake3 ex_entries = @tree_hash mix_blake3 (rev ex_entries).
Proof. apply (@tree_order_independent mix_blake3). apply Permutation_swap. Defined.

Lemma tree_hash_identity_witness :
  ex_entries ≡ₚ rev ex_entries
  \/ exists b1 b2, encode_tree ex_entries = Ok b1 /\ encode_tree (rev ex_entries) = Ok b2
                   /\ b1 <> b2 /\ @blake3 mix_blake3 b1 = @blake3 mix_blake3 b2.
Proof.
  apply (@tree_hash_identity mix_blake3 ex_entries (rev ex_entries)
           (unwrap_or [] (@tree_hash mix_blake3 ex_entries))); vm_compute; reflexivity.
Defined.

Lemma decode_tree_canonical_witness :
  forallb wf_entry (rev ex_entries) = true
  /\ (forall b', decode_tree b' = Ok (rev ex_entries) -> b' = ex_tree)
  /\ (encode_tree (rev ex_entries) = Ok ex_tree
      <-> StronglySorted (cmp_lt name_cmp) (rev ex_entries)).
Proof. apply (decode_tree_canonical ex_tree). vm_compute. reflexivity. Defined.
