(* ===== verification/Manifest.v ===== *)
(** Node-identity records and their changes: the values of the persistent
    manifest map and the per-transaction deltas,
    [crates/sync-store/src/content/manifest.rs] and the record half of
    [manifest_map.rs].  Validated constructors, canonical encodings and the
    strict decoders that re-encode what they read. *)

From stdpp Require Import base list numbers sets sorting strings options.
From Stdlib Require Import ZArith Lia.
From S2P Require Import Prelude RustStd EntryType Wire Tree.

Definition CHANGE_MAGIC : bytes := bstr "watertown.manifest-change.v2" ++ [Byte.x0a].
Definition ROOT_MAGIC : bytes := bstr "watertown.manifest-root.v2" ++ [Byte.x0a].
#[global] Opaque CHANGE_MAGIC ROOT_MAGIC.

(** * Data *)

Record ManifestEntry := {
  node_id : bytes;
  parent_node_id : bytes;
  node_name : bytes;
  node_type : EntryType;
  node_hash : bytes;
  node_versions : list VersionMeta;
}.

Record ManifestRecordChild := {
  child_node_id : bytes;
  child_name : bytes;
  child_type : EntryType;
}.

Record ManifestRecord := {
  entry : ManifestEntry;
  children : list ManifestRecordChild;
}.

Record ManifestChange := {
  before : option ManifestRecord;
  after : option ManifestRecord;
}.

#[export] Instance ManifestEntry_eq_dec : EqDecision ManifestEntry.
Proof. solve_decision. Defined.
#[export] Instance ManifestRecordChild_eq_dec : EqDecision ManifestRecordChild.
Proof. solve_decision. Defined.
#[export] Instance ManifestRecord_eq_dec : EqDecision ManifestRecord.
Proof. solve_decision. Defined.
#[export] Instance ManifestChange_eq_dec : EqDecision ManifestChange.
Proof. solve_decision. Defined.

Definition record_node_id (r : ManifestRecord) : bytes := node_id (entry r).

(** The invariants of the Rust field types. *)
Definition wf_manifest_entry (e : ManifestEntry) : bool :=
  utf8_valid (node_id e) && utf8_valid (parent_node_id e) && utf8_valid (node_name e)
  && wf_hash (node_hash e) && forallb wf_meta (node_versions e).

Definition wf_child (c : ManifestRecordChild) : bool :=
  utf8_valid (child_node_id c) && utf8_valid (child_name c).

Definition wf_record (r : ManifestRecord) : bool :=
  wf_manifest_entry (entry r) && forallb wf_child (children r).

Definition wf_change (c : ManifestChange) : bool :=
  opt_all wf_record (before c) && opt_all wf_record (after c).

(** * [ManifestRecord::new] *)

Definition child_cmp : ManifestRecordChild -> ManifestRecordChild -> comparison :=
  then_cmp (cmp_on child_node_id bytes_cmp)
    (then_cmp (cmp_on child_name bytes_cmp)
       (cmp_on (fun c => discriminant (child_type c)) Z.compare)).

Definition same_child_node (a b : ManifestRecordChild) : bool :=
  bool_decide (child_node_id a = child_node_id b).

(** The name loop: empty identities and names first, then repeated names;
    [names] is the set collected so far. *)
Fixpoint check_names (dir : bytes) (names : list bytes) (cs : list ManifestRecordChild) : res unit :=
  match cs with
  | [] => Ok tt
  | c :: cs =>
      if bool_decide (child_node_id c = []) || bool_decide (child_name c = [])
      then Err (EmptyChild dir)
      else if bool_decide (child_name c ∈ names)
      then Err (RepeatsChildName dir (child_name c))
      else check_names dir (child_name c :: names) cs
  end.

Definition record_new (e : ManifestEntry) (cs : list ManifestRecordChild) : res ManifestRecord :=
  let cs := sort_by child_cmp cs in
  match find_pair same_child_node cs with
  | Some (a, _) => Err (RepeatsChildNode (node_id e) (child_node_id a))
  | None =>
      _ ← check_names (node_id e) [] cs;
      if bool_decide (node_type e <> DirectoryPhysical) && negb (bool_decide (cs = []))
      then Err (NonDirectoryChildren (node_id e))
      else if bool_decide (node_id e = [])
      then Err EmptyNodeId
      else mret {| entry := e; children := cs |}
  end.

(** * Record encoding *)

Definition encode_child (c : ManifestRecordChild) : res bytes :=
  i ← push_len_prefixed (child_node_id c);
  n ← push_len_prefixed (child_name c);
  mret (i ++ n ++ to_le 1 (discriminant (child_type c))).

Definition encode_record_into (r : ManifestRecord) : res bytes :=
  let e := entry r in
  i ← push_len_prefixed (node_id e);
  p ← push_len_prefixed (parent_node_id e);
  n ← push_len_prefixed (node_name e);
  vs ← push_version_metas (node_versions e);
  count ← push_count (length (children r));
  cs ← omap_list encode_child (children r);
  mret (i ++ p ++ n ++ to_le 1 (discriminant (node_type e)) ++ node_hash e ++ vs
        ++ count ++ concat cs).

Definition take_child : Dec ManifestRecordChild :=
  i ← take_len_prefixed_string;
  n ← take_len_prefixed_string;
  t ← take_entry_type;
  mret {| child_node_id := i; child_name := n; child_type := t |}.

Definition decode_record_from : Dec ManifestRecord :=
  i ← take_len_prefixed_string;
  p ← take_len_prefixed_string;
  n ← take_len_prefixed_string;
  t ← take_entry_type;
  h ← take_hash;
  vs ← take_version_metas;
  child_count ← take_u32;
  cs ← take_many (Z.to_nat child_count) take_child;
  lift (record_new {| node_id := i; parent_node_id := p; node_name := n; node_type := t;
                      node_hash := h; node_versions := vs |} cs).

Definition record_encode (r : ManifestRecord) : res bytes := encode_record_into r.

(** The re-encoding check of the strict decoders. *)
Definition check_canonical {A} (enc : A -> res bytes) (b : bytes) (a : A) : res A :=
  e ← enc a;
  if bool_decide (e = b) then mret a else Err NotCanonical.

Definition record_decode (b : bytes) : res ManifestRecord :=
  decode_strict decode_record_from (check_canonical record_encode b) b.

(** * Changes *)

Definition change_new (b a : option ManifestRecord) : res ManifestChange :=
  match b, a with
  | None, None => Err EmptyChange
  | Some rb, Some ra =>
      if bool_decide (record_node_id rb <> record_node_id ra)
      then Err (ChangeCrossesNodes (record_node_id rb) (record_node_id ra))
      else if bool_decide (rb = ra)
      then Err (NoopChange (record_node_id rb))
      else mret {| before := b; after := a |}
  | _, _ => mret {| before := b; after := a |}
  end.

Definition change_is_empty (c : ManifestChange) : bool :=
  match before c, after c with None, None => true | _, _ => false end.

(** [ManifestChange::node_id]; the code panics on an empty change, which the
    callers below account for. *)
Definition change_node_id (c : ManifestChange) : bytes :=
  match after c, before c with
  | Some r, _ => record_node_id r
  | None, Some r => record_node_id r
  | None, None => []
  end.

Definition change_cmp : ManifestChange -> ManifestChange -> comparison :=
  cmp_on change_node_id bytes_cmp.

Definition same_change_node (a b : ManifestChange) : bool :=
  bool_decide (change_node_id a = change_node_id b).

(** [ManifestChange::canonicalize].  The comparator panics on an empty change;
    a sort of two or more elements compares each of them at least once. *)
Definition canonicalize (changes : list ManifestChange) : res (list ManifestChange) :=
  if existsb change_is_empty changes && (2 <=? length changes)%nat then Panic
  else
    let sorted := sort_by change_cmp changes in
    _ ← omap_list (fun c => change_new (before c) (after c)) sorted;
    match find_pair same_change_node sorted with
    | Some (a, _) => Err (RepeatedChange (change_node_id a))
    | None => mret sorted
    end.

Definition encode_side (o : option ManifestRecord) : res bytes :=
  match o with
  | Some r => e ← record_encode r; p ← push_len_prefixed e; mret (to_le 1 1 ++ p)
  | None => mret (to_le 1 0)
  end.

Definition encode_manifest_change (c : ManifestChange) : res bytes :=
  b ← encode_side (before c);
  a ← encode_side (after c);
  mret (CHANGE_MAGIC ++ b ++ a).

Definition take_side : Dec (option ManifestRecord) :=
  flag ← take_u8;
  if flag =? 0 then mret None
  else if flag =? 1 then
    b ← take_len_prefixed; r ← lift (record_decode b); mret (Some r)
  else lift (Err (BadFlag flag)).

Definition change_body : Dec (option ManifestRecord * option ManifestRecord) :=
  _ ← expect_tag CHANGE_MAGIC;
  b ← take_side;
  a ← take_side;
  mret (b, a).

Definition decode_manifest_change (b : bytes) : res ManifestChange :=
  decode_strict change_body
    (fun '(x, y) => c ← change_new x y; check_canonical encode_manifest_change b c) b.

(** * The root pointer *)

Definition encode_manifest_root (root : bytes) : bytes := ROOT_MAGIC ++ root.

Definition decode_manifest_root (b : bytes) : res bytes :=
  decode_strict (_ ← expect_tag ROOT_MAGIC; take_hash) Ok b.

(** * Validated values

    A record (change) is valid when its constructor accepts it unchanged;
    every value the code builds goes through the constructor. *)

Definition valid_record (r : ManifestRecord) : Prop := record_new (entry r) (children r) = Ok r.
Definition valid_change (c : ManifestChange) : Prop :=
  change_new (before c) (after c) = Ok c
  /\ (forall r, before c = Some r -> valid_record r)
  /\ (forall r, after c = Some r -> valid_record r).

Lemma record_new_inv e cs r :
  record_new e cs = Ok r -> r = {| entry := e; children := sort_by child_cmp cs |}.
Proof.
  unfold record_new. destruct (find_pair _ _) as [[]|]; [done|]. intros H. inv_ok.
  destruct (_ && _); [done|]. destruct (bool_decide _); [done|]. by inv_ok.
Qed.

(** The constructor is idempotent: what it returns, it accepts unchanged. *)
Lemma record_new_valid e cs r : record_new e cs = Ok r -> valid_record r.
Proof.
  intros H. unfold valid_record. pose proof (record_new_inv _ _ _ H) as ->. simpl.
  unfold record_new in *. rewrite (sort_by_id child_cmp (sort_by child_cmp cs)); [done|].
  apply sort_by_sorted, _.
Qed.

Lemma change_new_inv b a c : change_new b a = Ok c -> c = {| before := b; after := a |}.
Proof.
  unfold change_new. destruct b as [rb|], a as [ra|]; intros H; [|by inv_ok..|done].
  destruct (bool_decide _); [done|]. destruct (bool_decide _); [done|]. by inv_ok.
Qed.

(** * Records: reading what was written *)

Lemma decodes_child c e : wf_child c = true -> encode_child c = Ok e -> decodes take_child e c.
Proof.
  unfold wf_child, encode_child. rewrite andb_true_iff. intros [Hi Hn] He. inv_ok.
  unfold take_child. do 2 dec_step. eapply decodes_bind_nil; [eauto with wire|].
  destruct c; apply decodes_ret.
Qed.

Lemma decodes_record r e :
  wf_record r = true -> valid_record r -> encode_record_into r = Ok e ->
  decodes decode_record_from e r.
Proof.
  unfold wf_record, wf_manifest_entry. rewrite !andb_true_iff.
  intros [[[[[Hi Hp] Hn] Hh] Hv] Hc] Hval He. unfold encode_record_into in He. inv_ok.
  unfold decode_record_from. do 5 dec_step.
  eapply decodes_bind; [by apply decodes_version_metas|]. dec_step. rewrite Nat2Z.id.
  eapply decodes_bind_nil.
  - eapply decodes_many_enc; [|by apply forallb_Forall|done]. intros c e. apply decodes_child.
  - apply decodes_lift. by destruct r as [[] ?].
Qed.

(** * Records: what the decoder accepts *)

Lemma consumes_child :
  consumes take_child (fun c e => encode_child c = Ok e /\ wf_child c = true).
Proof.
  eapply consumes_weaken.
  - unfold take_child. do 3 con_step. apply consumes_ret.
  - intros c e (i & e1 & r1 & -> & [Hi Hiu] & n & e2 & r2 & -> & [Hn Hnu] & t & e3 & r3 & ->
      & -> & -> & ->).
    unfold encode_child, wf_child. simpl. rewrite Hi, Hn, Hiu, Hnu. simpl. by rewrite app_nil_r.
Qed.

Lemma consumes_record :
  consumes decode_record_from (fun r e => wf_record r = true /\ valid_record r).
Proof.
  eapply consumes_weaken.
  - unfold decode_record_from. do 5 con_step.
    apply consumes_bind; [apply consumes_counted, consumes_version_meta|]. intros vs.
    con_step. apply consumes_bind; [apply consumes_many, consumes_child|]. intros cs.
    apply consumes_lift.
  - intros r e (i & e1 & r1 & -> & [Hi Hiu] & p & e2 & r2 & -> & [Hp Hpu]
      & n & e3 & r3 & -> & [Hn Hnu] & t & e4 & r4 & -> & Ht & h & e5 & r5 & -> & [-> Hh]
      & vs & e6 & r6 & -> & [Hvs Hvw] & cc & e7 & r7 & -> & Hcc & cs & e8 & r8 & ->
      & (es & -> & Hl & Hes) & Hr & ->).
    split; [|by eapply record_new_valid]. apply record_new_inv in Hr as ->.
    unfold wf_record, wf_manifest_entry. simpl. rewrite Hiu, Hpu, Hnu, Hh, Hvw. simpl.
    apply forallb_Forall. rewrite sort_by_perm. apply Forall_lookup. intros k c Hk.
    by destruct (Forall2_lookup_l _ _ _ _ _ Hes Hk) as (? & _ & _ & ?).
Qed.

Lemma check_canonical_Ok {A} (enc : A -> res bytes) b a r :
  check_canonical enc b a = Ok r <-> r = a /\ enc a = Ok b.
Proof.
  unfold check_canonical. split.
  - intros H. inv_ok. case_bool_decide; [|done]. inv_ok. by split.
  - intros [-> ->]. simpl. by rewrite bool_decide_true.
Qed.

Lemma record_decode_inv b r :
  record_decode b = Ok r -> wf_record r = true /\ valid_record r /\ record_encode r = Ok b.
Proof.
  intros Hd. eapply decode_strict_inv in Hd as (a & HR & Hc); [|apply consumes_record].
  destruct HR as [Hwf Hv].
  apply check_canonical_Ok in Hc as [-> He]. done.
Qed.

Lemma record_encode_decodes r b :
  wf_record r = true -> valid_record r -> record_encode r = Ok b -> record_decode b = Ok r.
Proof.
  intros Hwf Hv He. unfold record_decode.
  rewrite (decode_strict_encoded _ _ _ r); [|by apply decodes_record].
  by apply check_canonical_Ok.
Qed.

(** Manifest records are encoded canonically: the strict decoder returns [r]
    exactly on the encoding of [r], for the well-formed records the validated
    constructor builds. *)
Theorem record_codec (b : bytes) (r : ManifestRecord) :
  record_decode b = Ok r
  <-> wf_record r = true /\ valid_record r /\ record_encode r = Ok b.
Proof.
  split; [apply record_decode_inv|]. intros (Hwf & Hv & He). by apply record_encode_decodes.
Qed.

(** * Changes *)

Lemma decodes_side o e :
  opt_all wf_record o = true -> (forall r, o = Some r -> valid_record r) ->
  encode_side o = Ok e -> decodes take_side e o.
Proof.
  unfold encode_side. destruct o as [r|]; intros Hwf Hv He; inv_ok; unfold take_side.
  - dec_step. simpl. eapply decodes_bind_nil; [eauto with wire|].
    apply (decodes_bind_nil _ _ [] r); [|apply decodes_ret].
    apply decodes_lift. apply record_encode_decodes; auto.
  - eapply decodes_bind_nil; [by apply decodes_u8|]. apply decodes_ret.
Qed.

Lemma consumes_side :
  consumes take_side (fun o e => opt_all wf_record o = true
                                 /\ (forall r, o = Some r -> valid_record r)).
Proof.
  eapply consumes_weaken.
  - unfold take_side. con_step.
    instantiate (1 := fun a o _ => opt_all wf_record o = true
                                 /\ (forall r, o = Some r -> valid_record r)). simpl.
    destruct (a =? 0); [|destruct (a =? 1)].
    + eapply consumes_weaken; [apply consumes_ret|]. by intros o e [-> ->].
    + eapply consumes_weaken.
      { con_step. apply consumes_bind; [apply consumes_lift|]. intros r. apply consumes_ret. }
      intros o e (b & e1 & e2 & -> & Hb & r & e3 & e4 & -> & [Hr ->] & -> & ->).
      apply record_decode_inv in Hr as (Hwf & Hv & _). split; [done|]. by intros r' [= <-].
    + eapply consumes_weaken; [apply consumes_lift|]. by intros o e [? ?].
  - intros o e (flag & e1 & e2 & -> & _ & ?). done.
Qed.

Lemma change_encode_decodes c b :
  wf_change c = true -> valid_change c -> encode_manifest_change c = Ok b ->
  decode_manifest_change b = Ok c.
Proof.
  unfold wf_change. rewrite andb_true_iff. intros [Hwb Hwa] (Hnew & Hvb & Hva) He.
  pose proof He as He'. unfold encode_manifest_change in He. inv_ok.
  unfold decode_manifest_change.
  rewrite (decode_strict_encoded _ _ _ (before c, after c)).
  - rewrite Hnew. simpl. by apply check_canonical_Ok.
  - unfold change_body. dec_step.
    eapply decodes_bind; [by apply (decodes_side (before c))|].
    eapply decodes_bind_nil; [by apply (decodes_side (after c))|]. apply decodes_ret.
Qed.

Lemma decode_change_inv b c :
  decode_manifest_change b = Ok c ->
  wf_change c = true /\ valid_change c /\ encode_manifest_change c = Ok b.
Proof.
  intros Hd. eapply decode_strict_inv in Hd as ([x y] & HR & Hc).
  2: { unfold change_body. con_step. apply consumes_bind; [apply consumes_side|]. intros x.
       apply consumes_bind; [apply consumes_side|]. intros y. apply consumes_ret. }
  simpl in HR. destruct HR as ([] & e1 & r1 & -> & -> & x' & e2 & r2 & -> & [Hwx Hvx]
    & y' & e3 & r3 & -> & [Hwy Hvy] & [= -> ->] & ->).
  simpl in Hc. inv_ok. apply check_canonical_Ok in Hc as [-> He].
  pose proof (change_new_inv _ _ _ Hx) as Hc. subst. unfold wf_change, valid_change. simpl.
  rewrite Hwx, Hwy. done.
Qed.

(** Manifest changes are encoded canonically: the strict decoder returns [c]
    exactly on the encoding of a valid change [c], so a change that crosses
    node ids, is empty or is a no-op never decodes. *)
Theorem change_codec (b : bytes) (c : ManifestChange) :
  decode_manifest_change b = Ok c
  <-> wf_change c = true /\ valid_change c /\ encode_manifest_change c = Ok b.
Proof.
  split; [apply decode_change_inv|]. intros (Hwf & Hv & He). by apply change_encode_decodes.
Qed.

Lemma canonicalize_inv cs out :
  canonicalize cs = Ok out ->
  out = sort_by change_cmp cs
  /\ StronglySorted (cmp_lt change_cmp) out
  /\ Forall (fun c => change_new (before c) (after c) = Ok c) out.
Proof.
  unfold canonicalize. destruct (_ && _); [done|]. intros H. inv_ok.
  destruct (find_pair _ _) as [[]|] eqn:E; [done|]. inv_ok.
  split; [done|]. split.
  - apply (find_pair_None_sorted change_cmp same_change_node); [|apply _|apply sort_by_sorted, _|done].
    intros c d Hcd. apply bool_decide_true. by apply (cmp_eq (cmp := bytes_cmp)).
  - apply omap_list_Ok in Hx. apply Forall_lookup. intros i c Hi.
    destruct (Forall2_lookup_l _ _ _ _ _ Hx Hi) as (c' & _ & Hc).
    rewrite Hc. f_equal. apply change_new_inv in Hc as ->. by destruct c.
Qed.

Lemma canonicalize_id cs :
  StronglySorted (cmp_lt change_cmp) cs ->
  Forall (fun c => change_new (before c) (after c) = Ok c) cs ->
  canonicalize cs = Ok cs.
Proof.
  intros Hs Hc. unfold canonicalize. rewrite sort_by_strict by done.
  assert (existsb change_is_empty cs = false) as ->.
  { apply not_true_iff_false. rewrite existsb_exists. intros (c & Hin & He).
    rewrite List.Forall_forall in Hc. specialize (Hc c Hin).
    unfold change_is_empty in He. destruct (before c), (after c); done. }
  simpl. assert (omap_list (fun c => change_new (before c) (after c)) cs = Ok cs) as ->.
  { apply omap_list_Ok. clear Hs. induction Hc; by constructor. }
  simpl. rewrite (find_pair_strict change_cmp); [done| |done].
  intros x y E. apply bool_decide_false. intros En. unfold change_cmp, cmp_on in E.
  by rewrite En, (cmp_refl bytes_cmp) in E.
Qed.

(** [ManifestChange::canonicalize] sorts by node id, keeps exactly the
    changes it was given, admits at most one valid change per node, and
    leaves a canonical list unchanged. *)
Theorem canonicalize_spec (cs out : list ManifestChange) :
  canonicalize cs = Ok out ->
  out ≡ₚ cs
  /\ StronglySorted (cmp_lt change_cmp) out
  /\ (forall c, c ∈ out -> change_new (before c) (after c) = Ok c)
  /\ (forall c d, c ∈ cs -> d ∈ cs -> change_node_id c = change_node_id d -> c = d)
  /\ canonicalize out = Ok out.
Proof.
  intros H. destruct (canonicalize_inv _ _ H) as (-> & Hs & Hc).
  split; [apply sort_by_perm|]. split; [done|].
  split; [by apply Forall_forall|]. split; [|by apply canonicalize_id].
  intros c d Hcin Hdin E. rewrite <- (sort_by_perm change_cmp cs) in Hcin, Hdin.
  apply (strict_unique change_cmp (sort_by change_cmp cs)); [done..|].
  unfold change_cmp, cmp_on. rewrite E. apply (cmp_refl bytes_cmp).
Qed.

(** The root pointer stored in the reserved index node round-trips and
    nothing else decodes. *)
Theorem manifest_root_codec (b root : bytes) :
  decode_manifest_root b = Ok root <-> wf_hash root = true /\ b = encode_manifest_root root.
Proof.
  unfold encode_manifest_root. split.
  - intros Hd. eapply decode_strict_inv in Hd as (a & HR & [= ->]).
    2: { con_step. apply consumes_hash. }
    simpl in HR. by destruct HR as ([] & e1 & e2 & -> & -> & -> & ?).
  - intros [Hh ->]. unfold decode_manifest_root.
    rewrite (decode_strict_encoded _ _ _ root); [done|]. dec_step. eauto with wire.
Qed.

(** * Witnesses *)

Definition ex_record (id : bytes) (h : Z) : ManifestRecord :=
  {| entry := {| node_id := id; parent_node_id := bstr "root"; node_name := id;
                 node_type := FilePhysicalVersion; node_hash := repeat (z2b h) 32;
                 node_versions := [] |};
     children := [] |}.
Definition ex_changes : list ManifestChange :=
  [ {| before := None; after := Some (ex_record (bstr "b") 2) |};
    {| before := Some (ex_record (bstr "a") 1); after := Some (ex_record (bstr "a") 3) |} ].

Lemma canonicalize_spec_witness :
  rev ex_changes ≡ₚ ex_changes /\ StronglySorted (cmp_lt change_cmp) (rev ex_changes)
  /\ (forall c, c ∈ rev ex_changes -> change_new (before c) (after c) = Ok c)
  /\ (forall c d, c ∈ ex_changes -> d ∈ ex_changes -> change_node_id c = change_node_id d -> c = d)
  /\ canonicalize (rev ex_changes) = Ok (rev ex_changes).
Proof. apply (canonicalize_spec ex_changes (rev ex_changes)). vm_compute. reflexivity. Defined.
