(* ===== verification/Commit.v ===== *)
(** Commits, publication records and object receipts,
    [crates/sync-store/src/content/commit.rs] and [protocol.rs]: the records,
    the canonicalizing constructors, the encodings and the strict decoders
    (which rebuild through the constructor and compare the re-encoding). *)

From stdpp Require Import base list numbers sets sorting strings options.
From Stdlib Require Import ZArith Lia.
From S2P Require Import Prelude RustStd EntryType Wire Tree Manifest.

Definition COMMIT_MAGIC : bytes := bstr "watertown.commit.v2" ++ [Byte.x0a].
Definition NATIVE_FORMAT_V2 : bytes := bstr "watertown.native.v2".
Definition PUBLICATION_MAGIC : bytes := bstr "watertown.publication.v2" ++ [Byte.x0a].
Definition RECEIPT_MAGIC : bytes := bstr "watertown.object-receipt.v3" ++ [Byte.x0a].
Definition RECEIPT_AUTH_DOMAIN : bytes := bstr "watertown.object-receipt-auth.v3" ++ [Byte.x0a].
#[global] Opaque COMMIT_MAGIC NATIVE_FORMAT_V2 PUBLICATION_MAGIC RECEIPT_MAGIC RECEIPT_AUTH_DOMAIN.

(** * Object and pack descriptors *)

Inductive ContentObjectKind :=
| RawBlob
| TreeObject
| ManifestNode
| SeriesManifestObject
| CommitObject
| Recipe.

#[export] Instance ContentObjectKind_eq_dec : EqDecision ContentObjectKind.
Proof. solve_decision. Defined.

Definition kind_to_wire (k : ContentObjectKind) : Z :=
  match k with
  | RawBlob => 0
  | TreeObject => 1
  | ManifestNode => 2
  | SeriesManifestObject => 3
  | CommitObject => 4
  | Recipe => 5
  end.

Definition kind_from_wire (v : Z) : res ContentObjectKind :=
  match v with
  | 0 => Ok RawBlob
  | 1 => Ok TreeObject
  | 2 => Ok ManifestNode
  | 3 => Ok SeriesManifestObject
  | 4 => Ok CommitObject
  | 5 => Ok Recipe
  | _ => Err (UnknownObjectKind v)
  end.

Definition kind_as_str (k : ContentObjectKind) : string :=
  match k with
  | RawBlob => "raw_blob"
  | TreeObject => "tree"
  | ManifestNode => "manifest_node"
  | SeriesManifestObject => "series_manifest"
  | CommitObject => "commit"
  | Recipe => "recipe"
  end.

Record ObjectDescriptor := { obj_hash : bytes; obj_kind : ContentObjectKind }.
Record PackDescriptor := { series_hash : bytes; pack_hash : bytes }.

#[export] Instance ObjectDescriptor_eq_dec : EqDecision ObjectDescriptor.
Proof. solve_decision. Defined.
#[export] Instance PackDescriptor_eq_dec : EqDecision PackDescriptor.
Proof. solve_decision. Defined.

(** The derived [Ord] of the descriptors: field by field; the kinds compare in
    declaration order, which is the order of their wire bytes. *)
Definition object_cmp : ObjectDescriptor -> ObjectDescriptor -> comparison :=
  then_cmp (cmp_on obj_hash bytes_cmp) (cmp_on (fun o => kind_to_wire (obj_kind o)) Z.compare).
Definition pack_cmp : PackDescriptor -> PackDescriptor -> comparison :=
  then_cmp (cmp_on series_hash bytes_cmp) (cmp_on pack_hash bytes_cmp).

#[export] Instance object_cmp_eq : CmpEq object_cmp.
Proof.
  apply (then_cmp_eq obj_hash (fun o => kind_to_wire (obj_kind o)) bytes_cmp Z.compare); [|apply _..].
  intros [h1 k1] [h2 k2]. simpl. intros -> E. f_equal. by destruct k1, k2.
Qed.
#[export] Instance pack_cmp_eq : CmpEq pack_cmp.
Proof.
  apply (then_cmp_eq series_hash pack_hash bytes_cmp bytes_cmp); [|apply _..].
  intros [h1 k1] [h2 k2]. simpl. by intros -> ->.
Qed.

(** [sort_unstable] then [dedup]; equal elements are indistinguishable, so the
    stable sort gives the same list. *)
Definition sorted_objects (l : list ObjectDescriptor) : list ObjectDescriptor :=
  dedup (sort_by object_cmp l).
Definition sorted_packs (l : list PackDescriptor) : list PackDescriptor :=
  dedup (sort_by pack_cmp l).

Definition wf_object (o : ObjectDescriptor) : bool := wf_hash (obj_hash o).
Definition wf_pack (p : PackDescriptor) : bool := wf_hash (series_hash p) && wf_hash (pack_hash p).

(** * Shared list fields *)

Definition encode_object (o : ObjectDescriptor) : res bytes :=
  mret (obj_hash o ++ to_le 1 (kind_to_wire (obj_kind o))).
Definition encode_pack (p : PackDescriptor) : res bytes :=
  mret (series_hash p ++ pack_hash p).
Definition encode_framed_change (c : ManifestChange) : res bytes :=
  e ← encode_manifest_change c; push_len_prefixed e.

Definition push_list {A} (enc : A -> res bytes) (l : list A) : res bytes :=
  count ← push_count (length l);
  es ← omap_list enc l;
  mret (count ++ concat es).

Definition take_object : Dec ObjectDescriptor :=
  h ← take_hash;
  v ← take_u8;
  k ← lift (kind_from_wire v);
  mret {| obj_hash := h; obj_kind := k |}.
Definition take_pack : Dec PackDescriptor :=
  s ← take_hash;
  p ← take_hash;
  mret {| series_hash := s; pack_hash := p |}.
Definition take_change : Dec ManifestChange :=
  b ← take_len_prefixed; lift (decode_manifest_change b).

Definition take_list {A} (d : Dec A) : Dec (list A) :=
  count ← take_u32; take_many (Z.to_nat count) d.

(** The optional parent hash: a flag byte, then the hash. *)
Definition push_parent (o : option bytes) : bytes :=
  match o with Some h => to_le 1 1 ++ h | None => to_le 1 0 end.
Definition take_parent : Dec (option bytes) :=
  flag ← take_u8;
  if flag =? 0 then mret None
  else if flag =? 1 then h ← take_hash; mret (Some h)
  else lift (Err (BadFlag flag)).

(** * Commits *)

Inductive ContentModelVersion := PublicationV2.

#[export] Instance ContentModelVersion_eq_dec : EqDecision ContentModelVersion.
Proof. solve_decision. Defined.

Definition model_to_wire (v : ContentModelVersion) : Z := match v with PublicationV2 => 1 end.
Definition model_from_wire (v : Z) : res ContentModelVersion :=
  match v with
  | 1 => Ok PublicationV2
  | _ => Err (UnknownContentModel v)
  end.

Record Provenance := {
  pond_id : bytes;
  seq_no : Z;
  time_micros : Z;
  author : bytes;
  request : bytes;
}.

Record Commit := {
  content_model_version : ContentModelVersion;
  root_tree_hash : bytes;
  parent_commit_hash : option bytes;
  manifest_root : bytes;
  manifest_changes : list ManifestChange;
  introduced_objects : list ObjectDescriptor;
  introduced_packs : list PackDescriptor;
  provenance : Provenance;
}.

#[export] Instance Provenance_eq_dec : EqDecision Provenance.
Proof. solve_decision. Defined.
#[export] Instance Commit_eq_dec : EqDecision Commit.
Proof. solve_decision. Defined.

(** [Commit::new]. *)
Definition commit_new (v : ContentModelVersion) (root : bytes) (parent : option bytes)
    (mroot : bytes) (p : Provenance) : Commit :=
  {| content_model_version := v; root_tree_hash := root; parent_commit_hash := parent;
     manifest_root := mroot; manifest_changes := []; introduced_objects := [];
     introduced_packs := []; provenance := p |}.

(** [Commit::new_with_delta]. *)
Definition commit_new_with_delta (v : ContentModelVersion) (root : bytes) (parent : option bytes)
    (mroot : bytes) (changes : list ManifestChange) (objs : list ObjectDescriptor)
    (packs : list PackDescriptor) (p : Provenance) : res Commit :=
  changes ← canonicalize changes;
  mret {| content_model_version := v; root_tree_hash := root; parent_commit_hash := parent;
          manifest_root := mroot; manifest_changes := changes;
          introduced_objects := sorted_objects objs; introduced_packs := sorted_packs packs;
          provenance := p |}.

Definition commit_encode (c : Commit) : res bytes :=
  changes ← push_list encode_framed_change (manifest_changes c);
  objs ← push_list encode_object (introduced_objects c);
  packs ← push_list encode_pack (introduced_packs c);
  pond ← push_len_prefixed (pond_id (provenance c));
  auth ← push_len_prefixed (author (provenance c));
  req ← push_len_prefixed (request (provenance c));
  mret (COMMIT_MAGIC ++ to_le 1 (model_to_wire (content_model_version c)) ++ root_tree_hash c
        ++ push_parent (parent_commit_hash c) ++ manifest_root c
        ++ changes ++ objs ++ packs
        ++ pond ++ to_le 8 (seq_no (provenance c)) ++ to_le 8 (time_micros (provenance c))
        ++ auth ++ req).

Definition commit_hash `{Blake3} (c : Commit) : res bytes :=
  b ← commit_encode c; mret (of_bytes b).

(** The reading half of [Commit::decode]. *)
Definition commit_body : Dec Commit :=
  _ ← expect_tag COMMIT_MAGIC;
  v ← take_u8;
  v ← lift (model_from_wire v);
  root ← take_hash;
  parent ← take_parent;
  mroot ← take_hash;
  changes ← take_list take_change;
  objs ← take_list take_object;
  packs ← take_list take_pack;
  pond ← take_len_prefixed_string;
  sq ← take_i64;
  tm ← take_i64;
  auth ← take_len_prefixed_string;
  req ← take_len_prefixed_string;
  mret {| content_model_version := v; root_tree_hash := root; parent_commit_hash := parent;
          manifest_root := mroot; manifest_changes := changes; introduced_objects := objs;
          introduced_packs := packs;
          provenance := {| pond_id := pond; seq_no := sq; time_micros := tm;
                           author := auth; request := req |} |}.

(** Rebuild a read commit through the canonicalizing constructor. *)
Definition commit_rebuild (c : Commit) : res Commit :=
  commit_new_with_delta (content_model_version c) (root_tree_hash c) (parent_commit_hash c)
    (manifest_root c) (manifest_changes c) (introduced_objects c) (introduced_packs c)
    (provenance c).

Definition commit_decode (b : bytes) : res Commit :=
  decode_strict commit_body
    (fun c => c ← commit_rebuild c; check_canonical commit_encode b c) b.

(** The invariants of the Rust field types. *)
Definition wf_commit (c : Commit) : bool :=
  wf_hash (root_tree_hash c) && opt_all wf_hash (parent_commit_hash c) && wf_hash (manifest_root c)
  && forallb wf_change (manifest_changes c) && forallb wf_object (introduced_objects c)
  && forallb wf_pack (introduced_packs c)
  && utf8_valid (pond_id (provenance c)) && is_i64 (seq_no (provenance c))
  && is_i64 (time_micros (provenance c))
  && utf8_valid (author (provenance c)) && utf8_valid (request (provenance c)).

(** A commit the constructor returns: its delta is canonical. *)
Definition valid_commit (c : Commit) : Prop :=
  commit_rebuild c = Ok c /\ Forall valid_change (manifest_changes c).

(** * Fields: reading what was written, and what is accepted *)

Lemma kind_wire_range k : is_u8 (kind_to_wire k) = true.
Proof. by destruct k. Qed.

Lemma model_wire_range v : is_u8 (model_to_wire v) = true.
Proof. by destruct v. Qed.

Lemma kind_from_to_wire k : kind_from_wire (kind_to_wire k) = Ok k.
Proof. by destruct k. Qed.

Lemma kind_from_wire_Ok v k : kind_from_wire v = Ok k -> kind_to_wire k = v.
Proof.
  unfold kind_from_wire. intros H.
  repeat match type of H with
  | match ?x with _ => _ end = _ => destruct x; try discriminate H
  end; by injection H as <-.
Qed.

Lemma model_from_wire_Ok v m : model_from_wire v = Ok m -> model_to_wire m = v.
Proof.
  unfold model_from_wire. intros H.
  repeat match type of H with
  | match ?x with _ => _ end = _ => destruct x; try discriminate H
  end; by destruct m.
Qed.

Lemma decodes_object o e : wf_object o = true -> encode_object o = Ok e -> decodes take_object e o.
Proof.
  unfold wf_object, encode_object. intros Hh He. inv_ok. unfold take_object. dec_step.
  eapply decodes_bind_nil; [apply decodes_u8, kind_wire_range|].
  apply (decodes_bind_nil _ _ [] (obj_kind o)); [apply decodes_lift, kind_from_to_wire|].
  destruct o; apply decodes_ret.
Qed.

Lemma decodes_pack p e : wf_pack p = true -> encode_pack p = Ok e -> decodes take_pack e p.
Proof.
  unfold wf_pack, encode_pack. rewrite andb_true_iff. intros [Hs Hp] He. inv_ok.
  unfold take_pack. dec_step. eapply decodes_bind_nil; [eauto with wire|].
  destruct p; apply decodes_ret.
Qed.

Lemma decodes_framed_change c e :
  wf_change c = true /\ valid_change c -> encode_framed_change c = Ok e -> decodes take_change e c.
Proof.
  unfold encode_framed_change. intros [Hwf Hv] He. inv_ok. unfold take_change.
  eapply decodes_bind_nil; [eauto with wire|].
  by apply decodes_lift, change_encode_decodes.
Qed.

Lemma decodes_push_list {A} (d : Dec A) (enc : A -> res bytes) (P : A -> Prop) l e :
  (forall x e, P x -> enc x = Ok e -> decodes d e x) ->
  Forall P l -> push_list enc l = Ok e -> decodes (take_list d) e l.
Proof.
  unfold push_list, take_list. intros Hd HP He. inv_ok. dec_step. rewrite Nat2Z.id.
  by eapply decodes_many_enc.
Qed.

Lemma decodes_objects l e :
  forallb wf_object l = true -> push_list encode_object l = Ok e -> decodes (take_list take_object) e l.
Proof. intros Hl%forallb_Forall. apply decodes_push_list with (2 := Hl). intros o. apply decodes_object. Qed.

Lemma decodes_packs l e :
  forallb wf_pack l = true -> push_list encode_pack l = Ok e -> decodes (take_list take_pack) e l.
Proof. intros Hl%forallb_Forall. apply decodes_push_list with (2 := Hl). intros p. apply decodes_pack. Qed.

Lemma decodes_changes l e :
  forallb wf_change l = true -> Forall valid_change l ->
  push_list encode_framed_change l = Ok e -> decodes (take_list take_change) e l.
Proof.
  intros Hl%forallb_Forall Hv. eapply decodes_push_list; [apply decodes_framed_change|].
  by apply Forall_and.
Qed.

Lemma decodes_parent o : opt_all wf_hash o = true -> decodes take_parent (push_parent o) o.
Proof.
  destruct o as [h|]; simpl; intros Hh; unfold take_parent.
  - dec_step. simpl. eapply decodes_bind_nil; [eauto with wire|]. apply decodes_ret.
  - eapply decodes_bind_nil; [by apply decodes_u8|]. apply decodes_ret.
Qed.

Lemma consumes_object : consumes take_object (fun o e => wf_object o = true).
Proof.
  eapply consumes_weaken.
  - unfold take_object. do 3 con_step. apply consumes_ret.
  - intros o e (h & e1 & r1 & -> & [_ Hh] & v & e2 & r2 & -> & _ & k & e3 & r3 & -> & _ & -> & _).
    exact Hh.
Qed.

Lemma consumes_pack : consumes take_pack (fun p e => wf_pack p = true).
Proof.
  eapply consumes_weaken.
  - unfold take_pack. do 2 con_step. apply consumes_ret.
  - intros o e (s & e1 & r1 & -> & [_ Hs] & p & e2 & r2 & -> & [_ Hp] & -> & _).
    unfold wf_pack. simpl. by rewrite Hs, Hp.
Qed.

Lemma consumes_change :
  consumes take_change (fun c e => wf_change c = true /\ valid_change c).
Proof.
  eapply consumes_weaken.
  - unfold take_change. con_step. apply consumes_lift.
  - intros c e (b & e1 & e2 & -> & _ & Hd & _).
    by destruct (decode_change_inv _ _ Hd) as (? & ? & _).
Qed.

Lemma consumes_list {A} (d : Dec A) (P : A -> Prop) :
  consumes d (fun a _ => P a) -> consumes (take_list d) (fun l _ => Forall P l).
Proof.
  intros Hd. eapply consumes_weaken.
  - unfold take_list. con_step. apply consumes_many, Hd.
  - intros l e (c & e1 & e2 & -> & _ & es & _ & _ & Hes).
    apply Forall_lookup. intros i x Hx. by destruct (Forall2_lookup_l _ _ _ _ _ Hes Hx) as (? & _ & ?).
Qed.

Lemma consumes_parent : consumes take_parent (fun o _ => opt_all wf_hash o = true).
Proof.
  eapply consumes_weaken.
  - unfold take_parent. con_step.
    instantiate (1 := fun a o _ => opt_all wf_hash o = true). simpl.
    destruct (a =? 0); [|destruct (a =? 1)].
    + eapply consumes_weaken; [apply consumes_ret|]. by intros o e [-> ->].
    + eapply consumes_weaken; [con_step; apply consumes_ret|].
      by intros o e (h & e1 & e2 & -> & [_ Hh] & -> & _).
    + eapply consumes_weaken; [apply consumes_lift|]. by intros o e [? ?].
  - intros o e (flag & e1 & e2 & -> & _ & ?). done.
Qed.

Lemma consumes_objects :
  consumes (take_list take_object) (fun l _ => Forall (fun o => wf_object o = true) l).
Proof. apply consumes_list, consumes_object. Qed.

Lemma consumes_packs :
  consumes (take_list take_pack) (fun l _ => Forall (fun p => wf_pack p = true) l).
Proof. apply consumes_list, consumes_pack. Qed.

Lemma consumes_changes :
  consumes (take_list take_change)
    (fun l _ => Forall (fun c => wf_change c = true /\ valid_change c) l).
Proof. apply consumes_list, consumes_change. Qed.

#[export] Hint Resolve kind_wire_range model_wire_range decodes_objects decodes_packs decodes_changes decodes_parent : wire.
#[export] Hint Resolve consumes_objects consumes_packs consumes_changes consumes_parent : wire.

(** * Commits *)

Lemma commit_rebuild_inv c c' :
  commit_rebuild c = Ok c' ->
  canonicalize (manifest_changes c) = Ok (manifest_changes c')
  /\ c' = {| content_model_version := content_model_version c; root_tree_hash := root_tree_hash c;
             parent_commit_hash := parent_commit_hash c; manifest_root := manifest_root c;
             manifest_changes := manifest_changes c';
             introduced_objects := sorted_objects (introduced_objects c);
             introduced_packs := sorted_packs (introduced_packs c);
             provenance := provenance c |}.
Proof. unfold commit_rebuild, commit_new_with_delta. intros H. inv_ok. by split. Qed.

(** Rebuilding is idempotent: a canonical delta is left unchanged. *)
Lemma commit_rebuild_idem c c' : commit_rebuild c = Ok c' -> commit_rebuild c' = Ok c'.
Proof.
  intros H. destruct (commit_rebuild_inv _ _ H) as [Hc ->]. simpl in *.
  destruct (canonicalize_inv _ _ Hc) as (_ & Hs & Hv).
  unfold commit_rebuild, commit_new_with_delta. simpl.
  rewrite (canonicalize_id _ Hs Hv). simpl.
  unfold sorted_objects, sorted_packs.
  rewrite (sort_dedup_id object_cmp), (sort_dedup_id pack_cmp);
    [done|apply (dedup_sort_strict pack_cmp)|apply (dedup_sort_strict object_cmp)].
Qed.

Lemma decodes_commit c b :
  wf_commit c = true -> Forall valid_change (manifest_changes c) -> commit_encode c = Ok b ->
  decodes commit_body b c.
Proof.
  unfold wf_commit. rewrite !andb_true_iff.
  intros [[[[[[[[[[Hr Hp] Hm] Hcw] How] Hpw] Hpond] Hsq] Htm] Hau] Hrq] Hv He.
  unfold commit_encode in He. inv_ok. unfold commit_body. do 2 dec_step.
  eapply (decodes_bind _ _ [] _ (content_model_version c)).
  { apply decodes_lift. by destruct (content_model_version c). }
  do 10 dec_step. eapply decodes_bind_nil; [eauto with wire|].
  destruct c as [? ? ? ? ? ? ? []]; apply decodes_ret.
Qed.

Lemma consumes_commit :
  consumes commit_body (fun c _ => wf_commit c = true /\ Forall valid_change (manifest_changes c)).
Proof.
  eapply consumes_weaken.
  - unfold commit_body. do 14 con_step. apply consumes_ret.
  - intros c e. cbv beta.
    intros ([] & ? & ? & _ & _ & v & ? & ? & _ & _ & m & ? & ? & _ & _ & root & ? & ? & _ & [_ Hr]
      & parent & ? & ? & _ & Hp & mroot & ? & ? & _ & [_ Hm] & changes & ? & ? & _ & Hc
      & objs & ? & ? & _ & Ho & packs & ? & ? & _ & Hk & pond & ? & ? & _ & [_ Hpond]
      & sq & ? & ? & _ & [_ Hsq] & tm & ? & ? & _ & [_ Htm] & auth & ? & ? & _ & [_ Hau]
      & req & ? & ? & _ & [_ Hrq] & -> & _).
    unfold wf_commit. simpl. rewrite Hr, Hp, Hm, Hpond, Hsq, Htm, Hau, Hrq.
    apply Forall_and in Hc as [Hcw Hcv].
    rewrite (proj2 (forallb_Forall _ _) Hcw), (proj2 (forallb_Forall _ _) Ho),
      (proj2 (forallb_Forall _ _) Hk). done.
Qed.

Lemma sorted_objects_wf l : forallb wf_object l = true -> forallb wf_object (sorted_objects l) = true.
Proof.
  rewrite !forallb_Forall, !Forall_forall. intros H o. unfold sorted_objects.
  rewrite dedup_elem, (sort_by_perm object_cmp). apply H.
Qed.

Lemma sorted_packs_wf l : forallb wf_pack l = true -> forallb wf_pack (sorted_packs l) = true.
Proof.
  rewrite !forallb_Forall, !Forall_forall. intros H p. unfold sorted_packs.
  rewrite dedup_elem, (sort_by_perm pack_cmp). apply H.
Qed.

Lemma canonicalize_Forall (P : ManifestChange -> Prop) cs out :
  canonicalize cs = Ok out -> Forall P cs -> Forall P out.
Proof. intros (-> & _)%canonicalize_inv H. by rewrite sort_by_perm. Qed.

Lemma commit_decode_inv b c :
  commit_decode b = Ok c -> wf_commit c = true /\ valid_commit c /\ commit_encode c = Ok b.
Proof.
  intros Hd. eapply decode_strict_inv in Hd as (a & HR & Hc); [|apply consumes_commit].
  destruct HR as [Hwf Hv]. simpl in Hc. inv_ok. apply check_canonical_Ok in Hc as [-> He].
  pose proof (commit_rebuild_idem _ _ Hx) as Hidem.
  destruct (commit_rebuild_inv _ _ Hx) as [Hcan Heq].
  split; [|split; [split; [done|]|done]].
  - rewrite Heq. unfold wf_commit in *. simpl.
    rewrite !andb_true_iff in Hwf |- *. destruct_and!. split_and!; try done.
    + apply forallb_Forall. eapply canonicalize_Forall; [done|]. by apply forallb_Forall.
    + by apply sorted_objects_wf.
    + by apply sorted_packs_wf.
  - by eapply canonicalize_Forall.
Qed.

Lemma commit_encode_decodes c b :
  wf_commit c = true -> valid_commit c -> commit_encode c = Ok b -> commit_decode b = Ok c.
Proof.
  intros Hwf [Hreb Hv] He. unfold commit_decode.
  rewrite (decode_strict_encoded _ _ _ c); [|by apply decodes_commit].
  rewrite Hreb. simpl. by apply check_canonical_Ok.
Qed.

(** Commit decoding is the exact inverse of encoding: the strict decoder
    accepts precisely the encodings of well-formed commits with a canonical
    delta, and returns the commit that was encoded. *)
Theorem commit_codec (b : bytes) (c : Commit) :
  commit_decode b = Ok c <-> wf_commit c = true /\ valid_commit c /\ commit_encode c = Ok b.
Proof.
  split; [apply commit_decode_inv|]. intros (Hwf & Hv & He). by apply commit_encode_decodes.
Qed.

(** The delta constructor canonicalizes: the resulting commit is accepted
    unchanged when rebuilt, names the same objects and packs without
    repetition in sorted order, and the same node changes. *)
Theorem new_with_delta_canonical v root parent mroot changes objs packs p c :
  commit_new_with_delta v root parent mroot changes objs packs p = Ok c ->
  commit_rebuild c = Ok c
  /\ StronglySorted (cmp_lt object_cmp) (introduced_objects c)
  /\ StronglySorted (cmp_lt pack_cmp) (introduced_packs c)
  /\ (forall o, o ∈ introduced_objects c <-> o ∈ objs)
  /\ (forall k, k ∈ introduced_packs c <-> k ∈ packs)
  /\ manifest_changes c ≡ₚ changes.
Proof.
  intros H. split.
  - apply (commit_rebuild_idem {| content_model_version := v; root_tree_hash := root;
      parent_commit_hash := parent; manifest_root := mroot; manifest_changes := changes;
      introduced_objects := objs; introduced_packs := packs; provenance := p |}). exact H.
  - unfold commit_new_with_delta in H. inv_ok. simpl.
    split; [apply (dedup_sort_strict object_cmp)|].
    split; [apply (dedup_sort_strict pack_cmp)|].
    unfold sorted_objects, sorted_packs. split_and!.
    + intros o. by rewrite dedup_elem, (sort_by_perm object_cmp).
    + intros k. by rewrite dedup_elem, (sort_by_perm pack_cmp).
    + apply canonicalize_inv in Hx as (-> & _). apply sort_by_perm.
Qed.

(** * Publication records *)

Record PublicationRecord := {
  pub_format : bytes;
  pub_pond_id : bytes;
  ref_name : bytes;
  snapshot_tip : bytes;
  pub_manifest_root : bytes;
  parent_publication_record : option bytes;
  pub_objects : list ObjectDescriptor;
  pub_packs : list PackDescriptor;
  pub_changes : list ManifestChange;
}.

#[export] Instance PublicationRecord_eq_dec : EqDecision PublicationRecord.
Proof. solve_decision. Defined.

Definition publication_new (pond rname tip mroot : bytes) (parent : option bytes)
    (objs : list ObjectDescriptor) (packs : list PackDescriptor) (changes : list ManifestChange)
    : res PublicationRecord :=
  if bool_decide (rname = []) then Err EmptyRefName
  else
    changes ← canonicalize changes;
    mret {| pub_format := NATIVE_FORMAT_V2; pub_pond_id := pond; ref_name := rname;
            snapshot_tip := tip; pub_manifest_root := mroot; parent_publication_record := parent;
            pub_objects := sorted_objects objs; pub_packs := sorted_packs packs;
            pub_changes := changes |}.

Definition publication_encode (p : PublicationRecord) : res bytes :=
  fmt ← push_len_prefixed (pub_format p);
  rname ← push_len_prefixed (ref_name p);
  objs ← push_list encode_object (pub_objects p);
  packs ← push_list encode_pack (pub_packs p);
  changes ← push_list encode_framed_change (pub_changes p);
  mret (PUBLICATION_MAGIC ++ fmt ++ pub_pond_id p ++ rname ++ snapshot_tip p
        ++ pub_manifest_root p ++ push_parent (parent_publication_record p)
        ++ objs ++ packs ++ changes).

Definition publication_hash `{Blake3} (p : PublicationRecord) : res bytes :=
  b ← publication_encode p; mret (of_bytes b).

Definition publication_body : Dec PublicationRecord :=
  _ ← expect_tag PUBLICATION_MAGIC;
  fmt ← take_len_prefixed_string;
  _ ← (if bool_decide (fmt = NATIVE_FORMAT_V2) then mret tt
       else lift (Err (UnsupportedFormat fmt)));
  pond ← take_array 16;
  rname ← take_len_prefixed_string;
  tip ← take_hash;
  mroot ← take_hash;
  parent ← take_parent;
  objs ← take_list take_object;
  packs ← take_list take_pack;
  changes ← take_list take_change;
  mret {| pub_format := fmt; pub_pond_id := pond; ref_name := rname; snapshot_tip := tip;
          pub_manifest_root := mroot; parent_publication_record := parent;
          pub_objects := objs; pub_packs := packs; pub_changes := changes |}.

Definition publication_rebuild (p : PublicationRecord) : res PublicationRecord :=
  publication_new (pub_pond_id p) (ref_name p) (snapshot_tip p) (pub_manifest_root p)
    (parent_publication_record p) (pub_objects p) (pub_packs p) (pub_changes p).

Definition publication_decode (b : bytes) : res PublicationRecord :=
  decode_strict publication_body
    (fun p => p ← publication_rebuild p; check_canonical publication_encode b p) b.

Definition wf_publication (p : PublicationRecord) : bool :=
  bool_decide (length (pub_pond_id p) = 16%nat) && utf8_valid (ref_name p)
  && wf_hash (snapshot_tip p) && wf_hash (pub_manifest_root p)
  && opt_all wf_hash (parent_publication_record p)
  && forallb wf_object (pub_objects p) && forallb wf_pack (pub_packs p)
  && forallb wf_change (pub_changes p).

Definition valid_publication (p : PublicationRecord) : Prop :=
  publication_rebuild p = Ok p /\ Forall valid_change (pub_changes p).

Lemma publication_rebuild_inv p p' :
  publication_rebuild p = Ok p' ->
  canonicalize (pub_changes p) = Ok (pub_changes p')
  /\ p' = {| pub_format := NATIVE_FORMAT_V2; pub_pond_id := pub_pond_id p; ref_name := ref_name p;
             snapshot_tip := snapshot_tip p; pub_manifest_root := pub_manifest_root p;
             parent_publication_record := parent_publication_record p;
             pub_objects := sorted_objects (pub_objects p);
             pub_packs := sorted_packs (pub_packs p); pub_changes := pub_changes p' |}
  /\ ref_name p <> [].
Proof.
  unfold publication_rebuild, publication_new. case_bool_decide; [done|]. intros H'. by inv_ok.
Qed.

Lemma publication_rebuild_idem p p' :
  publication_rebuild p = Ok p' -> publication_rebuild p' = Ok p'.
Proof.
  intros H. destruct (publication_rebuild_inv _ _ H) as (Hc & -> & Hne). simpl in *.
  destruct (canonicalize_inv _ _ Hc) as (_ & Hs & Hv).
  unfold publication_rebuild, publication_new. simpl. rewrite bool_decide_false by done.
  rewrite (canonicalize_id _ Hs Hv). simpl. unfold sorted_objects, sorted_packs.
  rewrite (sort_dedup_id object_cmp), (sort_dedup_id pack_cmp);
    [done|apply (dedup_sort_strict pack_cmp)|apply (dedup_sort_strict object_cmp)].
Qed.

Lemma native_format_utf8 : utf8_valid NATIVE_FORMAT_V2 = true.
Proof. vm_compute. reflexivity. Qed.

Lemma decodes_publication p b :
  wf_publication p = true -> pub_format p = NATIVE_FORMAT_V2 ->
  Forall valid_change (pub_changes p) -> publication_encode p = Ok b ->
  decodes publication_body b p.
Proof.
  unfold wf_publication. rewrite !andb_true_iff, bool_decide_eq_true.
  intros [[[[[[[Hid Hrn] Htip] Hm] Hp] How] Hpw] Hcw] Hfmt Hv He.
  unfold publication_encode in He. inv_ok. unfold publication_body.
  pose proof native_format_utf8 as Hu. rewrite <- Hfmt in Hu.
  do 2 dec_step. rewrite bool_decide_true by done.
  eapply (decodes_bind _ _ []); [apply decodes_ret|].
  eapply decodes_bind; [by apply decodes_take|]. do 6 dec_step.
  eapply decodes_bind_nil; [eauto with wire|]. destruct p; apply decodes_ret.
Qed.

Lemma consumes_publication :
  consumes publication_body
    (fun p _ => wf_publication p = true /\ Forall valid_change (pub_changes p)).
Proof.
  eapply consumes_weaken.
  - unfold publication_body. do 2 con_step.
    apply consumes_bind with (R := fun _ _ => True).
    { case_bool_decide; (eapply consumes_weaken; [solve [eauto with wire]|]); done. }
    intros u. apply consumes_bind; [apply consumes_take|]. intros pond.
    do 7 con_step. apply consumes_ret.
  - intros p e. cbv beta.
    intros ([] & ? & ? & _ & _ & f & ? & ? & _ & _ & ? & ? & ? & _ & _ & pond & ? & ? & _ & [-> Hid]
      & rn & ? & ? & _ & [_ Hrn] & tip & ? & ? & _ & [_ Htip] & mroot & ? & ? & _ & [_ Hm]
      & parent & ? & ? & _ & Hp & objs & ? & ? & _ & Ho & packs & ? & ? & _ & Hk
      & changes & ? & ? & _ & Hc & -> & _).
    unfold wf_publication. simpl. rewrite Hrn, Htip, Hm, Hp, bool_decide_true by done.
    apply Forall_and in Hc as [Hcw Hcv].
    rewrite (proj2 (forallb_Forall _ _) Hcw), (proj2 (forallb_Forall _ _) Ho),
      (proj2 (forallb_Forall _ _) Hk). done.
Qed.

Lemma publication_decode_inv b p :
  publication_decode b = Ok p ->
  wf_publication p = true /\ valid_publication p /\ publication_encode p = Ok b.
Proof.
  intros Hd. eapply decode_strict_inv in Hd as (a & HR & Hc); [|apply consumes_publication].
  destruct HR as [Hwf Hv]. simpl in Hc. inv_ok. apply check_canonical_Ok in Hc as [-> He].
  pose proof (publication_rebuild_idem _ _ Hx) as Hidem.
  destruct (publication_rebuild_inv _ _ Hx) as (Hcan & Heq & _).
  split; [|split; [split; [done|]|done]].
  - rewrite Heq. unfold wf_publication in *. simpl.
    rewrite !andb_true_iff in Hwf |- *. destruct_and!. split_and!; try done.
    + by apply sorted_objects_wf.
    + by apply sorted_packs_wf.
    + apply forallb_Forall. eapply canonicalize_Forall; [done|]. by apply forallb_Forall.
  - by eapply canonicalize_Forall.
Qed.

(** Publication decoding is the exact inverse of encoding: only the
    encoding of a well-formed record in native format with a non-empty ref
    name and a canonical delta is accepted, and it decodes to that record. *)
Theorem publication_codec (b : bytes) (p : PublicationRecord) :
  publication_decode b = Ok p
  <-> wf_publication p = true /\ valid_publication p /\ publication_encode p = Ok b.
Proof.
  split; [apply publication_decode_inv|]. intros (Hwf & [Hreb Hv] & He).
  unfold publication_decode. rewrite (decode_strict_encoded _ _ _ p).
  - rewrite Hreb. simpl. by apply check_canonical_Ok.
  - apply decodes_publication; [done| |done|done].
    destruct (publication_rebuild_inv _ _ Hreb) as (_ & -> & _). done.
Qed.

(** * Object receipts *)

Record ObjectReceipt := {
  payload_hash : bytes;
  byte_length : Z;
  e_tag : option bytes;
  version : option bytes;
}.

#[export] Instance ObjectReceipt_eq_dec : EqDecision ObjectReceipt.
Proof. solve_decision. Defined.

Definition is_empty_some (o : option bytes) : bool :=
  match o with Some [] => true | _ => false end.

Definition receipt_new (h : bytes) (len : Z) (tag ver : option bytes) : res ObjectReceipt :=
  if is_empty_some tag || is_empty_some ver then Err EmptyReceiptField
  else mret {| payload_hash := h; byte_length := len; e_tag := tag; version := ver |}.

Definition encode_optional_string (o : option bytes) : res bytes :=
  match o with
  | Some s => push_len_prefixed s
  | None => push_len_prefixed []
  end.

Definition decode_optional_string : Dec (option bytes) :=
  b ← take_len_prefixed;
  if bool_decide (b = []) then mret None
  else if utf8_valid b then mret (Some b)
  else lift (Err InvalidUtf8).

Definition receipt_encode_body (r : ObjectReceipt) : res bytes :=
  tag ← encode_optional_string (e_tag r);
  ver ← encode_optional_string (version r);
  mret (RECEIPT_MAGIC ++ payload_hash r ++ to_le 8 (byte_length r) ++ tag ++ ver).

Definition receipt_auth `{Blake3} (body : bytes) : bytes := blake3 (RECEIPT_AUTH_DOMAIN ++ body).

Definition receipt_encode `{Blake3} (r : ObjectReceipt) : res bytes :=
  body ← receipt_encode_body r;
  mret (body ++ receipt_auth body).

Definition receipt_body : Dec ObjectReceipt :=
  _ ← expect_tag RECEIPT_MAGIC;
  h ← take_hash;
  len ← take_u64;
  tag ← decode_optional_string;
  ver ← decode_optional_string;
  mret {| payload_hash := h; byte_length := len; e_tag := tag; version := ver |}.

Definition receipt_decode `{Blake3} (b : bytes) : res ObjectReceipt :=
  if (length b <? length RECEIPT_MAGIC + 32 + 8 + 4 + 4 + 32)%nat then Err ReceiptTruncated
  else
    let body := firstn (length b - 32) b in
    let authentication := skipn (length b - 32) b in
    if bool_decide (receipt_auth body = authentication)
    then decode_strict receipt_body
           (fun r => r ← receipt_new (payload_hash r) (byte_length r) (e_tag r) (version r);
                     check_canonical receipt_encode b r) body
    else Err ReceiptAuthMismatch.

Definition wf_receipt (r : ObjectReceipt) : bool :=
  wf_hash (payload_hash r) && is_u64 (byte_length r)
  && opt_all utf8_valid (e_tag r) && opt_all utf8_valid (version r).

Definition valid_receipt (r : ObjectReceipt) : bool :=
  negb (is_empty_some (e_tag r) || is_empty_some (version r)).

Lemma decodes_optional_string o e :
  opt_all utf8_valid o = true -> is_empty_some o = false -> encode_optional_string o = Ok e ->
  decodes decode_optional_string e o.
Proof.
  unfold decode_optional_string. destruct o as [s|]; simpl; intros Hu Hne He;
    (eapply decodes_bind_nil; [by apply decodes_len_prefixed|]).
  - rewrite bool_decide_false by (by destruct s). rewrite Hu. apply decodes_ret.
  - apply decodes_ret.
Qed.

Lemma consumes_optional_string :
  consumes decode_optional_string
    (fun o e => encode_optional_string o = Ok e /\ opt_all utf8_valid o = true).
Proof.
  eapply consumes_weaken.
  - unfold decode_optional_string. con_step.
    instantiate (1 := fun b o e => e = [] /\ opt_all utf8_valid o = true
      /\ o = if bool_decide (b = []) then None else Some b). simpl.
    case_bool_decide; [|destruct (utf8_valid a) eqn:E].
    + eapply consumes_weaken; [apply consumes_ret|]. by intros o e [-> ->].
    + eapply consumes_weaken; [apply consumes_ret|]. by intros o e [-> ->].
    + eapply consumes_weaken; [apply consumes_lift|]. by intros o e [? ?].
  - intros o e (b & e1 & e2 & -> & Hb & -> & Hu & ->). rewrite app_nil_r. split; [|done].
    case_bool_decide; subst; done.
Qed.

Lemma decodes_receipt r e :
  wf_receipt r = true -> valid_receipt r = true -> receipt_encode_body r = Ok e ->
  decodes receipt_body e r.
Proof.
  unfold wf_receipt, valid_receipt. rewrite !andb_true_iff, negb_true_iff, orb_false_iff.
  intros [[[Hh Hl] Ht] Hv] [Hnt Hnv] He. unfold receipt_encode_body in He. inv_ok.
  unfold receipt_body. do 3 dec_step.
  eapply decodes_bind; [by apply (decodes_optional_string (e_tag r))|].
  eapply decodes_bind_nil; [by apply (decodes_optional_string (version r))|].
  destruct r; apply decodes_ret.
Qed.

Lemma consumes_receipt : consumes receipt_body (fun r _ => wf_receipt r = true).
Proof.
  eapply consumes_weaken.
  - unfold receipt_body. do 3 con_step.
    apply consumes_bind; [apply consumes_optional_string|]. intros tag.
    apply consumes_bind; [apply consumes_optional_string|]. intros ver. apply consumes_ret.
  - intros r e. cbv beta. intros ([] & ? & ? & _ & _ & h & ? & ? & _ & [_ Hh] & len & ? & ? & _ & [_ Hl]
      & tag & ? & ? & _ & [_ Ht] & ver & ? & ? & _ & [_ Hv] & -> & _).
    unfold wf_receipt. simpl. by rewrite Hh, Hl, Ht, Hv.
Qed.

Lemma length_optional_string o e : encode_optional_string o = Ok e -> (4 <= length e)%nat.
Proof.
  assert (forall s e, push_len_prefixed s = Ok e -> (4 <= length e)%nat) as H.
  { intros s e'. unfold push_len_prefixed. destruct (_ <=? _); [|done].
    intros <-%Ok_inj. rewrite length_app, length_to_le. lia. }
  destruct o; apply H.
Qed.

Lemma receipt_encode_length `{Blake3} r b :
  wf_receipt r = true -> receipt_encode r = Ok b ->
  exists body, receipt_encode_body r = Ok body /\ b = body ++ receipt_auth body
    /\ (length RECEIPT_MAGIC + 32 + 8 + 4 + 4 <= length body)%nat.
Proof.
  unfold receipt_encode. intros Hwf He. inv_ok. exists x. split_and!; [done..|].
  unfold receipt_encode_body in Hx. inv_ok.
  apply length_optional_string in Hx0, Hx1. rewrite !length_app, length_to_le.
  unfold wf_receipt, wf_hash in Hwf. rewrite !andb_true_iff, bool_decide_eq_true in Hwf.
  destruct Hwf as [[[-> _] _] _]. lia.
Qed.

(** Receipts are authenticated and canonical: the decoder accepts exactly
    the encodings of well-formed receipts without empty metadata, so whatever
    it accepts ends with the domain-separated BLAKE3 of the rest. *)
Theorem receipt_codec `{Blake3} (b : bytes) (r : ObjectReceipt) :
  receipt_decode b = Ok r
  <-> wf_receipt r = true /\ valid_receipt r = true /\ receipt_encode r = Ok b.
Proof.
  unfold receipt_decode. split.
  - destruct (_ <? _)%nat; [done|]. case_bool_decide as Ha; [|done]. intros Hd.
    eapply decode_strict_inv in Hd as (a & HR & Hc); [|apply consumes_receipt].
    simpl in HR, Hc. inv_ok. apply check_canonical_Ok in Hc as [-> He].
    unfold receipt_new in Hx. unfold valid_receipt.
    destruct (is_empty_some (e_tag a) || is_empty_some (version a)) eqn:E; [done|].
    inv_ok. simpl. by rewrite E.
  - intros (Hwf & Hval & He).
    destruct (receipt_encode_length r b Hwf He) as (body & Hb & -> & Hlen).
    rewrite length_app. assert (length (receipt_auth body) = 32%nat) as -> by apply blake3_len.
    destruct (Nat.ltb_spec (length body + 32)
      (length RECEIPT_MAGIC + 32 + 8 + 4 + 4 + 32)); [lia|].
    rewrite Nat.add_sub, take_app_length, drop_app_length, bool_decide_true by done.
    rewrite (decode_strict_encoded _ _ _ r); [|by apply decodes_receipt].
    unfold receipt_new. unfold valid_receipt in Hval.
    destruct (_ || _); [done|]. simpl. destruct r. by apply check_canonical_Ok.
Qed.

(** * Witnesses *)

Definition ex_prov (n : Z) : Provenance :=
  {| pond_id := bstr "pond"; seq_no := n; time_micros := 1700000000000000 + n;
     author := []; request := bstr "write" |}.
Definition ex_objects : list ObjectDescriptor :=
  [ {| obj_hash := repeat Byte.x02 32; obj_kind := TreeObject |};
    {| obj_hash := repeat Byte.x01 32; obj_kind := RawBlob |};
    {| obj_hash := repeat Byte.x02 32; obj_kind := TreeObject |} ].
Definition ex_commit (n : Z) : Commit :=
  unwrap_or (commit_new PublicationV2 [] None [] (ex_prov n))
    (commit_new_with_delta PublicationV2 (repeat Byte.x05 32) None (repeat Byte.x06 32) ex_changes
       ex_objects [] (ex_prov n)).

Lemma new_with_delta_canonical_witness :
  commit_rebuild (ex_commit 7) = Ok (ex_commit 7)
  /\ StronglySorted (cmp_lt object_cmp) (introduced_objects (ex_commit 7))
  /\ StronglySorted (cmp_lt pack_cmp) (introduced_packs (ex_commit 7))
  /\ (forall o, o ∈ introduced_objects (ex_commit 7) <-> o ∈ ex_objects)
  /\ (forall k, k ∈ introduced_packs (ex_commit 7) <-> k ∈ [])
  /\ manifest_changes (ex_commit 7) ≡ₚ ex_changes.
Proof.
  apply (new_with_delta_canonical PublicationV2 (repeat Byte.x05 32) None (repeat Byte.x06 32)
    ex_changes ex_objects [] (ex_prov 7)). vm_compute. reflexivity.
Defined.
