(* ===== verification/Disk.v ===== *)
(** The part of the file system the transparency log uses: files under one log
    directory, the operations on them, and the states a crash can leave. *)

From stdpp Require Import base list numbers sets gmap strings options.
From Stdlib Require Import ZArith Lia.
From S2P Require Import Prelude RustStd RustText.

(** Files by their path relative to the log directory. *)
Abbreviation disk := (gmap bytes bytes).

(** [io::ErrorKind], as far as the code distinguishes it. *)
Inductive io_error := NotFound | InvalidData | InvalidInput.

#[export] Instance io_error_eq_dec : EqDecision io_error.
Proof. solve_decision. Defined.

(** One call that changes the disk. *)
Inductive fs_op :=
| WriteFile (path content : bytes)
| Rename (src dst : bytes)
| RemoveFile (path : bytes)
| AppendFile (path content : bytes).

Definition apply_op (op : fs_op) (d : disk) : disk :=
  match op with
  | WriteFile p c => <[p := c]> d
  | Rename src dst =>
      match d !! src with Some c => <[dst := c]> (delete src d) | None => d end
  | RemoveFile p => delete p d
  | AppendFile p c => <[p := default [] (d !! p) ++ c]> d
  end.

Definition apply_ops (ops : list fs_op) (d : disk) : disk := fold_left (fun d op => apply_op op d) ops d.

(** What a crash during a run of calls can leave: the calls before it, and
    possibly a part of the bytes of the call it interrupts. *)
Inductive crash : disk -> list fs_op -> disk -> Prop :=
| crash_here d ops : crash d ops d
| crash_write d p c ops k : crash d (WriteFile p c :: ops) (<[p := take k c]> d)
| crash_append d p c ops k :
    crash d (AppendFile p c :: ops) (<[p := default [] (d !! p) ++ take k c]> d)
| crash_later d op ops d' : crash (apply_op op d) ops d' -> crash d (op :: ops) d'.

(** A fallible computation on the disk: its result, and the calls it made, also
    when it fails. *)
Definition Io (E A : Type) : Type := disk -> outcome E A * list fs_op.

#[export] Instance Io_ret {E} : MRet (Io E) := fun A a d => (Ok a, []).
#[export] Instance Io_bind {E} : MBind (Io E) := fun A B k m d =>
  match m d with
  | (Ok a, ops) => let '(r, ops') := k a (apply_ops ops d) in (r, ops ++ ops')
  | (Err e, ops) => (Err e, ops)
  | (Panic, ops) => (Panic, ops)
  end.

(** A computation that only looks at the disk. *)
Definition io_look {E A} (f : disk -> outcome E A) : Io E A := fun d => (f d, []).
Definition io_do {E} (ops : list fs_op) : Io E unit := fun d => (Ok tt, ops).

(** The disk after a computation. *)
Definition io_disk {E A} (m : Io E A) (d : disk) : disk := apply_ops (m d).2 d.

(** [fs::read], [fs::read_to_string]. *)
Definition fs_read (p : bytes) (d : disk) : outcome io_error bytes :=
  match d !! p with Some c => Ok c | None => Err NotFound end.

Definition fs_read_to_string (p : bytes) (d : disk) : outcome io_error bytes :=
  match d !! p with
  | Some c => if utf8_valid c then Ok c else Err InvalidData
  | None => Err NotFound
  end.

Definition tmp_path (p : bytes) : bytes := p ++ bstr ".tmp".

(** [write_atomic]: a sibling file is written and renamed over the target. *)
Definition write_atomic (path b : bytes) : Io io_error unit :=
  if bool_decide (path = []) then io_look (fun _ => Err InvalidInput)
  else io_do [WriteFile (tmp_path path) b; Rename (tmp_path path) path].

(** ** Runs *)

Lemma apply_ops_app a b d : apply_ops (a ++ b) d = apply_ops b (apply_ops a d).
Proof. apply fold_left_app. Qed.

Lemma io_bind_run {E A B} (m : Io E A) (k : A -> Io E B) d a ops :
  m d = (Ok a, ops) ->
  (m ≫= k) d = ((k a (apply_ops ops d)).1, ops ++ (k a (apply_ops ops d)).2).
Proof. unfold mbind, Io_bind. intros ->. by destruct (k a (apply_ops ops d)). Qed.

(** A crash of a run of two parts is a crash of one of them. *)
Lemma crash_app d a b d' :
  crash d (a ++ b) d' -> crash d a d' \/ crash (apply_ops a d) b d'.
Proof.
  revert d. induction a as [|op a IH]; intros d; [by right|]. simpl. inversion 1; subst.
  - left. constructor.
  - left. constructor.
  - left. constructor.
  - destruct (IH _ ltac:(eassumption)) as [Hc|Hc]; [left; by constructor|by right].
Qed.

Lemma crash_nil d d' : crash d [] d' -> d' = d.
Proof. by inversion 1. Qed.

(** An invariant that every call keeps holds after a crash. *)
Lemma crash_invariant (P : disk -> Prop) d ops d' :
  P d ->
  (forall d op, op ∈ ops -> P d -> P (apply_op op d)) ->
  (forall d p c k, WriteFile p c ∈ ops -> P d -> P (<[p := take k c]> d)) ->
  (forall d p c k, AppendFile p c ∈ ops -> P d -> P (<[p := default [] (d !! p) ++ take k c]> d)) ->
  crash d ops d' -> P d'.
Proof.
  intros HP Hop Hw Ha Hc. induction Hc as [d ops|d p c ops k|d p c ops k|d op ops d' Hc IH].
  - done.
  - apply Hw; [by left|done].
  - apply Ha; [by left|done].
  - apply IH; [apply Hop; [by left|done]| | |].
    + intros d0 op0 Hin. apply Hop. by right.
    + intros d0 p c k Hin. apply Hw. by right.
    + intros d0 p c k Hin. apply Ha. by right.
Qed.

Lemma tmp_path_ne p : tmp_path p <> p.
Proof.
  unfold tmp_path. intros E. apply (f_equal length) in E. rewrite length_app in E.
  change (length (bstr ".tmp")) with 4%nat in E. lia.
Qed.

(** After [write_atomic] the file is there and only it and the temporary differ. *)
Lemma write_atomic_disk path b d q :
  path <> [] -> q <> tmp_path path ->
  io_disk (write_atomic path b) d !! q = if bool_decide (q = path) then Some b else d !! q.
Proof.
  intros Hp Hq. unfold io_disk, write_atomic. rewrite bool_decide_false by done.
  cbn [io_do snd apply_ops fold_left apply_op]. rewrite lookup_insert_eq.
  case_bool_decide as E; [subst; apply lookup_insert_eq|].
  rewrite lookup_insert_ne, lookup_delete_ne, lookup_insert_ne by done. done.
Qed.

(** A crash inside [write_atomic] leaves the target as it was, or replaced; only
    the target and its temporary file can differ. *)
Lemma write_atomic_crash path b d d' :
  path <> [] -> crash d (write_atomic path b d).2 d' ->
  (forall q, q <> path -> q <> tmp_path path -> d' !! q = d !! q)
  /\ (d' !! path = d !! path \/ d' !! path = Some b).
Proof.
  intros Hp. pose proof (tmp_path_ne path) as Ht. unfold write_atomic. rewrite bool_decide_false by done.
  cbn [io_do snd].
  assert (forall c, (forall q, q <> path -> q <> tmp_path path -> (<[tmp_path path := c]> d : disk) !! q = d !! q)
          /\ ((<[tmp_path path := c]> d : disk) !! path = d !! path \/ (<[tmp_path path := c]> d : disk) !! path = Some b))
    as Htmp.
  { intros c. split; [|left]; intros; by rewrite lookup_insert_ne. }
  intros Hc. inversion Hc as [| | |? ? ? ? Hc1]; subst; [auto|apply Htmp|].
  inversion Hc1 as [| | |? ? ? ? Hc2]; subst; [apply Htmp|]. apply crash_nil in Hc2 as ->.
  cbn [apply_op]. rewrite lookup_insert_eq. split; [|right; apply lookup_insert_eq].
  intros q H1 H2. by rewrite lookup_insert_ne, lookup_delete_ne, lookup_insert_ne.
Qed.
