(* ===== verification/Checkpoint.v ===== *)
(** The transparency-log checkpoint, [crates/sync-store/src/tlog/checkpoint.rs]:
    the note body, the append-only history of published checkpoints, and their
    files. *)

From stdpp Require Import base list numbers sets sorting gmap strings options.
From Stdlib Require Import ZArith Lia.
From S2P Require Import Prelude RustStd RustText Wire Disk.

Open Scope Z_scope.

(** The [base64] crate's [STANDARD] engine: encoding produces printable
    characters, as many as the number of input bytes determines, and decoding
    accepts exactly the canonical padded encodings. *)
Class Base64 := {
  b64_encode : bytes -> bytes;
  b64_decode : bytes -> option bytes;
  b64_decode_encode : forall b, b64_decode (b64_encode b) = Some b;
  b64_canonical : forall s b, b64_decode s = Some b -> s = b64_encode b;
  b64_length : forall a b, length a = length b -> length (b64_encode a) = length (b64_encode b);
  b64_empty : forall b, b64_encode b = [] -> b = [];
  b64_plain : forall b, forallb plain (b64_encode b) = true;
}.

Definition CHECKPOINT_FILE : bytes := bstr "checkpoint".
Definition CHECKPOINT_HISTORY_FILE : bytes := bstr "checkpoints".

Inductive CheckpointError :=
| MissingLine (name : string)
| BadSize
| BadRoot
| IoError (e : io_error).

#[export] Instance CheckpointError_eq_dec : EqDecision CheckpointError.
Proof. solve_decision. Defined.

Record Checkpoint := { origin : bytes; size : Z; cp_root : bytes }.

#[export] Instance Checkpoint_eq_dec : EqDecision Checkpoint.
Proof. solve_decision. Defined.

Section Checkpoint.
Context `{Base64}.

Definition cp_encode (cp : Checkpoint) : bytes :=
  origin cp ++ NL :: show_u64 (size cp) ++ NL :: b64_encode (cp_root cp) ++ [NL].

(** [root_bytes.try_into::<[u8; 32]>()] after decoding. *)
Definition decode_root (s : bytes) : option bytes :=
  b ← b64_decode s; if bool_decide (length b = 32%nat) then Some b else None.

Definition cp_parse (body : bytes) : outcome CheckpointError Checkpoint :=
  match lines body with
  | [] => Err (MissingLine "origin")
  | [_] => Err (MissingLine "size")
  | o :: n :: rest =>
      match parse_u64 n with
      | None => Err BadSize
      | Some n =>
          match rest with
          | [] => Err (MissingLine "root")
          | r :: _ =>
              match decode_root r with
              | None => Err BadRoot
              | Some r => Ok {| origin := o; size := n; cp_root := r |}
              end
          end
      end
  end.

Definition cp_write (cp : Checkpoint) : Io io_error unit := write_atomic CHECKPOINT_FILE (cp_encode cp).

Definition cp_read (d : disk) : outcome CheckpointError (option Checkpoint) :=
  match fs_read_to_string CHECKPOINT_FILE d with
  | Ok body => cp ← cp_parse body; mret (Some cp)
  | Err NotFound => Ok None
  | Err e => Err (IoError e)
  | Panic => Panic
  end.

(** ** History *)

Definition encode_history_line (cp : Checkpoint) : bytes :=
  origin cp ++ SPACE :: show_u64 (size cp) ++ SPACE :: b64_encode (cp_root cp).

Definition parse_history_line (line : bytes) : option Checkpoint :=
  match split_whitespace line with
  | o :: n :: r :: _ =>
      n ← parse_u64 n; r ← decode_root r; Some {| origin := o; size := n; cp_root := r |}
  | _ => None
  end.

Definition parse_history (body : bytes) : list Checkpoint := omap parse_history_line (lines body).

Definition read_history (d : disk) : outcome io_error (list Checkpoint) :=
  match fs_read_to_string CHECKPOINT_HISTORY_FILE d with
  | Ok body => Ok (parse_history body)
  | Err NotFound => Ok []
  | Err e => Err e
  | Panic => Panic
  end.

Definition last_size (h : list Checkpoint) : Z :=
  match last h with Some cp => size cp | None => 0 end.

Definition append_to_history (cp : Checkpoint) : Io io_error bool :=
  if size cp =? 0 then mret false else
  h ← io_look read_history;
  if size cp <=? last_size h then mret false else
  _ ← io_do [AppendFile CHECKPOINT_HISTORY_FILE (encode_history_line cp ++ [NL])];
  mret true.

(** The checkpoints the code publishes: an identifier origin, a [u64] size, a
    32-byte root. *)
Definition wf_checkpoint (cp : Checkpoint) : bool :=
  negb (bool_decide (origin cp = [])) && forallb plain (origin cp)
  && is_u64 (size cp) && wf_hash (cp_root cp).
End Checkpoint.

(** ** Text facts *)

Lemma plain_not_nl c : plain c = true -> negb (bool_decide (c = NL)) = true.
Proof. intros Hc. case_bool_decide; [subst; done|done]. Qed.

Lemma no_nl_app a b : no_nl (a ++ b) = no_nl a && no_nl b.
Proof. apply forallb_app. Qed.

Lemma no_nl_space l : no_nl (SPACE :: l) = no_nl l.
Proof. done. Qed.

Lemma plain_no_nl l : forallb plain l = true -> no_nl l = true.
Proof.
  unfold no_nl. rewrite !forallb_Forall. intros Hl. eapply Forall_impl; [exact Hl|]. apply plain_not_nl.
Qed.

Lemma plain_strip_cr l : forallb plain l = true -> strip_cr l = l.
Proof.
  intros Hl. unfold strip_cr. destruct (split_last l) as [[c r]|] eqn:E; [|done].
  apply split_last_Some in E as ->. rewrite forallb_app in Hl. simpl in Hl.
  rewrite bool_decide_false; [done|]. intros ->. by rewrite andb_false_r in Hl.
Qed.

Lemma digit_plain c : is_digit c = true -> plain c = true.
Proof. unfold is_digit, plain, in_range. lia. Qed.

Lemma show_u64_plain n : 0 <= n -> forallb plain (show_u64 n) = true.
Proof.
  intros Hn. destruct (show_u64_digits n Hn) as [Hd _]. rewrite forallb_Forall in *.
  eapply Forall_impl; [exact Hd|]. apply digit_plain.
Qed.

(** Three fields of printable characters. *)
Lemma split_fields a b c :
  forallb plain a = true -> forallb plain b = true -> forallb plain c = true ->
  a <> [] -> b <> [] -> c <> [] ->
  split_whitespace (a ++ SPACE :: b ++ SPACE :: c) = [a; b; c].
Proof.
  intros Ha Hb Hc Na Nb Nc. unfold split_whitespace.
  rewrite split_ws_plain, split_ws_space by done. destruct a as [|x a]; [done|]. simpl app at 1.
  rewrite split_ws_plain, split_ws_space by done. destruct b as [|y b]; [done|]. simpl app at 1.
  pose proof (split_ws_plain c [] [] Hc) as E. rewrite app_nil_r in E. rewrite E. by destruct c.
Qed.

Section Proofs.
Context `{Base64}.

Lemma wf_checkpoint_inv cp :
  wf_checkpoint cp = true ->
  origin cp <> [] /\ forallb plain (origin cp) = true /\ is_u64 (size cp) = true
  /\ length (cp_root cp) = 32%nat.
Proof.
  unfold wf_checkpoint, wf_hash. rewrite !andb_true_iff, negb_true_iff.
  rewrite bool_decide_eq_false, bool_decide_eq_true. naive_solver.
Qed.

Lemma decode_root_encode b : length b = 32%nat -> decode_root (b64_encode b) = Some b.
Proof.
  intros Hb. unfold decode_root. rewrite b64_decode_encode. simpl. by rewrite bool_decide_true.
Qed.

Lemma b64_nonempty b : length b = 32%nat -> b64_encode b <> [].
Proof. intros Hb ->%b64_empty. done. Qed.

Lemma u64_nonneg n : is_u64 n = true -> 0 <= n.
Proof. unfold is_u64. lia. Qed.

(** A text that is exactly one line. *)
Definition one_line (l : bytes) : Prop := no_nl l = true /\ strip_cr l = l.

Lemma cp_parse_encoded (cp : Checkpoint) (extension : bytes) :
  one_line (origin cp) -> is_u64 (size cp) = true -> length (cp_root cp) = 32%nat ->
  cp_parse (cp_encode cp ++ extension) = Ok cp.
Proof.
  intros [Ho Hc] Hn Hr. unfold cp_parse, cp_encode.
  pose proof (show_u64_plain _ (u64_nonneg _ Hn)) as Hs. pose proof (b64_plain (cp_root cp)) as Hb.
  replace ((origin cp ++ NL :: show_u64 (size cp) ++ NL :: b64_encode (cp_root cp) ++ [NL]) ++ extension)
    with (origin cp ++ NL :: show_u64 (size cp) ++ NL :: b64_encode (cp_root cp) ++ NL :: extension)
    by (repeat (rewrite <- app_assoc; cbn [app]); done).
  rewrite !lines_cons by (done || by apply plain_no_nl).
  rewrite Hc, !plain_strip_cr, parse_show_u64, decode_root_encode by done. by destruct cp.
Qed.

(** The published note body parses back to the checkpoint, also when lines of
    a later extension follow it; the origin may be any single line. *)
Theorem checkpoint_round_trip (cp : Checkpoint) (extension : bytes) :
  one_line (origin cp) -> is_u64 (size cp) = true -> length (cp_root cp) = 32%nat ->
  cp_parse (cp_encode cp ++ extension) = Ok cp.
Proof. apply cp_parse_encoded. Qed.

Lemma history_line_plain cp :
  wf_checkpoint cp = true -> no_nl (encode_history_line cp) = true.
Proof.
  intros (_ & Ho & Hn & _)%wf_checkpoint_inv. unfold encode_history_line.
  rewrite no_nl_app, no_nl_space, no_nl_app, no_nl_space, !plain_no_nl; [done|apply b64_plain| |done].
  by apply show_u64_plain, u64_nonneg.
Qed.

Lemma history_line_round_trip cp :
  wf_checkpoint cp = true -> parse_history_line (encode_history_line cp) = Some cp.
Proof.
  intros (No & Ho & Hn & Hr)%wf_checkpoint_inv. unfold parse_history_line, encode_history_line.
  rewrite split_fields; [|done|by apply show_u64_plain, u64_nonneg|apply b64_plain|done
    |by apply show_u64_digits, u64_nonneg|by apply b64_nonempty].
  rewrite parse_show_u64 by done. cbn [mbind option_bind]. rewrite decode_root_encode by done.
  cbn [mbind option_bind]. by destruct cp.
Qed.

Lemma plain_ascii l : forallb plain l = true -> forallb (in_range 0 0x7F) l = true.
Proof.
  rewrite !forallb_Forall. intros Hl. eapply Forall_impl; [exact Hl|].
  intros c. unfold plain, in_range. pose proof (b2z_range c). lia.
Qed.

Lemma history_line_nonempty cp : encode_history_line cp <> [].
Proof. unfold encode_history_line. by destruct (origin cp). Qed.

Lemma history_line_strip cp : length (cp_root cp) = 32%nat -> strip_cr (encode_history_line cp) = encode_history_line cp.
Proof.
  intros Hr. unfold encode_history_line. pose proof (b64_plain (cp_root cp)) as Hb.
  destruct (split_last (b64_encode (cp_root cp))) as [[c r]|] eqn:E.
  2:{ apply split_last_None in E. by apply b64_nonempty in E. }
  apply split_last_Some in E. rewrite E in *. rewrite forallb_app in Hb. unfold strip_cr.
  replace (origin cp ++ SPACE :: show_u64 (size cp) ++ SPACE :: r ++ [c])
    with ((origin cp ++ SPACE :: show_u64 (size cp) ++ SPACE :: r) ++ [c])
    by (repeat (rewrite <- app_assoc; cbn [app]); done).
  rewrite split_last_snoc, bool_decide_false; [done|]. intros ->. by rewrite andb_false_r in Hb.
Qed.

(** Fewer than three fields do not parse. *)
Lemma split_fields_prefix a b c k :
  forallb plain a = true -> forallb plain b = true -> forallb plain c = true ->
  a <> [] -> b <> [] ->
  (length (split_whitespace (take k (a ++ SPACE :: b ++ SPACE :: c))) < 3)%nat
  \/ exists j, (j < k)%nat /\ take k (a ++ SPACE :: b ++ SPACE :: c) = a ++ SPACE :: b ++ SPACE :: take j c
       /\ split_whitespace (take k (a ++ SPACE :: b ++ SPACE :: c)) = [a; b; take j c].
Proof.
  intros Ha Hb Hc Na Nb.
  assert (forall l, forallb plain l = true -> (length (split_ws l 0 []) <= 1)%nat) as H1.
  { intros l Hl. rewrite <- (app_nil_r l), split_ws_plain by done. destruct l; simpl; lia. }
  rewrite take_app. destruct (decide (k <= length a)%nat) as [Hk|Hk].
  { left. replace (k - length a)%nat with 0%nat by lia. rewrite take_0, app_nil_r.
    unfold split_whitespace. pose proof (H1 (take k a) (forallb_take _ _ _ Ha)). lia. }
  rewrite (take_ge a) by lia. destruct (k - length a)%nat as [|k1] eqn:E1; [lia|].
  rewrite firstn_cons, take_app. unfold split_whitespace.
  rewrite split_ws_plain, split_ws_space by done. destruct a as [|x a]; [done|]. cbn [app].
  destruct (decide (k1 <= length b)%nat) as [Hk1|Hk1].
  { left. replace (k1 - length b)%nat with 0%nat by lia. rewrite take_0, app_nil_r. cbn [app length].
    pose proof (H1 (take k1 b) (forallb_take _ _ _ Hb)). lia. }
  rewrite (take_ge b) by lia. destruct (k1 - length b)%nat as [|j] eqn:E2; [lia|].
  rewrite firstn_cons. rewrite split_ws_plain, split_ws_space by done. destruct b as [|y b]; [done|].
  cbn [app length]. destruct (decide (take j c = [])) as [E0|E0].
  { left. rewrite E0. simpl. lia. }
  right. exists j. split; [simpl in *; lia|]. split; [done|]. do 2 f_equal.
  pose proof (split_ws_plain (take j c) [] [] (forallb_take _ _ _ Hc)) as E.
  rewrite app_nil_r in E. rewrite E. by destruct (take j c).
Qed.

Lemma parse_history_short line : (length (split_whitespace line) < 3)%nat -> parse_history_line line = None.
Proof.
  unfold parse_history_line. destruct (split_whitespace line) as [|? [|? [|? ?]]]; try done. simpl. lia.
Qed.

(** A cut-off record never parses: a root is recognised only when complete. *)
Lemma history_prefix_unparsed cp k :
  wf_checkpoint cp = true -> (k < length (encode_history_line cp))%nat ->
  parse_history_line (take k (encode_history_line cp)) = None.
Proof.
  intros Hcp Hk. pose proof (wf_checkpoint_inv cp Hcp) as (No & Ho & Hn & Hr).
  unfold encode_history_line in *.
  destruct (split_fields_prefix (origin cp) (show_u64 (size cp)) (b64_encode (cp_root cp)) k)
    as [Hs|(j & Hj & Et & Es)];
    [done|by apply show_u64_plain, u64_nonneg|apply b64_plain|done|by apply show_u64_digits, u64_nonneg|..].
  { by apply parse_history_short. }
  unfold parse_history_line. rewrite Es, parse_show_u64 by done. cbn [mbind option_bind].
  unfold decode_root. destruct (b64_decode (take j (b64_encode (cp_root cp)))) as [b|] eqn:Ed; [|done].
  cbn [mbind option_bind]. case_bool_decide as Hb; [|done]. exfalso.
  apply b64_canonical in Ed. apply (f_equal length) in Ed, Et.
  rewrite (b64_length b (cp_root cp)) in Ed by congruence.
  rewrite length_take in Ed, Et. repeat (rewrite length_app in *; cbn [length] in * ).
  rewrite length_take in Et. lia.
Qed.

(** ** The history file *)

(** A history file that ends in a complete line. *)
Definition whole_lines (body : bytes) : Prop :=
  exists ls, Forall (fun l => no_nl l = true) ls /\ body = concat (map (fun l => l ++ [NL]) ls).

(** The history on a disk: absent, or valid text of whole lines. *)
Definition history_file (d : disk) (h : list Checkpoint) : Prop :=
  match d !! CHECKPOINT_HISTORY_FILE with
  | None => h = []
  | Some body => utf8_valid body = true /\ whole_lines body /\ h = parse_history body
  end.

Lemma history_file_read d h : history_file d h -> read_history d = Ok h.
Proof.
  unfold history_file, read_history, fs_read_to_string.
  destruct (d !! CHECKPOINT_HISTORY_FILE) as [body|]; [|by intros ->]. by intros (-> & _ & ->).
Qed.

Lemma parse_history_app body l s :
  whole_lines body -> no_nl l = true ->
  parse_history (body ++ l) = parse_history body ++ omap parse_history_line (lines l)
  /\ parse_history (body ++ l ++ NL :: s)
     = parse_history body ++ omap parse_history_line [strip_cr l] ++ omap parse_history_line (lines s).
Proof.
  intros (ls & Hls & ->) Hl. unfold parse_history.
  pose proof (lines_app ls [] Hls) as E. rewrite app_nil_r in E.
  rewrite E, !lines_app, lines_cons by done. rewrite app_nil_r. split; [by rewrite omap_app|].
  rewrite omap_app. f_equal. change (strip_cr l :: lines s) with ([strip_cr l] ++ lines s).
  by rewrite omap_app.
Qed.

Lemma size_nonneg_parse line cp : parse_history_line line = Some cp -> 0 <= size cp.
Proof.
  unfold parse_history_line. destruct (split_whitespace line) as [|o [|n [|r rest]]]; try done.
  destruct (parse_u64 n) as [z|] eqn:E; [|done]. simpl.
  destruct (decode_root r); [|done]. simpl. intros [= <-]. simpl. by eapply parse_u64_nonneg.
Qed.

Lemma last_size_nonneg body : 0 <= last_size (parse_history body).
Proof.
  unfold last_size. destruct (last (parse_history body)) as [cp|] eqn:E; [|done].
  apply last_Some_elem_of in E. unfold parse_history in E.
  apply list_elem_of_omap in E as (l & _ & Hp). by eapply size_nonneg_parse.
Qed.

(** The single call of a successful append. *)
Definition history_op (cp : Checkpoint) : fs_op :=
  AppendFile CHECKPOINT_HISTORY_FILE (encode_history_line cp ++ [NL]).

(** On any readable history, torn or not. *)
Lemma append_to_readable_history cp d h :
  read_history d = Ok h ->
  append_to_history cp d =
    if last_size h <? size cp then (Ok true, [history_op cp]) else (Ok false, []).
Proof.
  intros Hr. assert (0 <= last_size h) as Hn.
  { revert Hr. unfold read_history. destruct (fs_read_to_string _ d) as [body|[]|]; try done.
    - intros [= <-]. apply last_size_nonneg.
    - by intros [= <-]. }
  unfold append_to_history. destruct (Z.eqb_spec (size cp) 0) as [E|E].
  { destruct (Z.ltb_spec (last_size h) (size cp)); [lia|done]. }
  rewrite (io_bind_run _ _ d h []) by (unfold io_look; by rewrite Hr). cbn [apply_ops fold_left app].
  destruct (Z.leb_spec (size cp) (last_size h)), (Z.ltb_spec (last_size h) (size cp)); try lia; done.
Qed.

Lemma append_to_history_run cp d h :
  history_file d h ->
  append_to_history cp d =
    if last_size h <? size cp then (Ok true, [history_op cp]) else (Ok false, []).
Proof. intros Hh. by apply append_to_readable_history, history_file_read. Qed.

Lemma history_line_ascii cp :
  wf_checkpoint cp = true -> forallb (in_range 0 0x7F) (encode_history_line cp ++ [NL]) = true.
Proof.
  intros (_ & Ho & Hn & _)%wf_checkpoint_inv. unfold encode_history_line.
  pose proof (show_u64_plain _ (u64_nonneg _ Hn)) as Hs. pose proof (b64_plain (cp_root cp)) as Hb.
  repeat (rewrite forallb_app; cbn [forallb]). rewrite !plain_ascii by done. done.
Qed.

(** A readable history stays readable while a record is appended. *)
Lemma history_stays_readable d h cp k :
  wf_checkpoint cp = true -> read_history d = Ok h ->
  exists h', read_history (<[CHECKPOINT_HISTORY_FILE :=
     default [] (d !! CHECKPOINT_HISTORY_FILE) ++ take k (encode_history_line cp ++ [NL])]> d) = Ok h'.
Proof.
  intros Hcp Hr. unfold read_history, fs_read_to_string in *. rewrite lookup_insert_eq.
  assert (utf8_valid (default [] (d !! CHECKPOINT_HISTORY_FILE)) = true) as Hu.
  { destruct (d !! CHECKPOINT_HISTORY_FILE) as [b|]; [|done]. simpl. by destruct (utf8_valid b). }
  rewrite utf8_app, utf8_ascii by (done || apply forallb_take; by apply history_line_ascii). eauto.
Qed.

(** What the history holds once [k] bytes of a new line are on disk. *)
Lemma history_torn d h cp k :
  wf_checkpoint cp = true -> history_file d h ->
  read_history (<[CHECKPOINT_HISTORY_FILE :=
     default [] (d !! CHECKPOINT_HISTORY_FILE) ++ take k (encode_history_line cp ++ [NL])]> d)
  = Ok (h ++ if (length (encode_history_line cp) <=? k)%nat then [cp] else []).
Proof.
  intros Hcp Hh. set (line := encode_history_line cp).
  set (body := default [] (d !! CHECKPOINT_HISTORY_FILE)).
  assert (utf8_valid body = true /\ whole_lines body /\ h = parse_history body) as (Hu & Hw & ->).
  { unfold history_file in Hh. subst body. destruct (d !! CHECKPOINT_HISTORY_FILE); [done|].
    subst. split_and!; [done|by exists []|done]. }
  unfold read_history, fs_read_to_string. rewrite lookup_insert_eq, utf8_app by done.
  rewrite utf8_ascii; [|apply forallb_take; by apply history_line_ascii].
  pose proof (history_line_plain cp Hcp) as Hnl. fold line in Hnl.
  f_equal. destruct (Nat.leb_spec (length line) k) as [Hk|Hk].
  - destruct (decide (k = length line)) as [->|Hne].
    + rewrite take_app_length. rewrite (proj1 (parse_history_app body line [] Hw Hnl)). f_equal.
      rewrite lines_unterminated by (done || by apply history_line_nonempty).
      unfold line. simpl. by rewrite history_line_round_trip.
    + rewrite take_ge by (rewrite length_app; simpl; lia).
      rewrite (proj2 (parse_history_app body line [] Hw Hnl)). f_equal.
      unfold line. rewrite history_line_strip by (by apply wf_checkpoint_inv). simpl.
      by rewrite history_line_round_trip.
  - rewrite take_app_le by lia.
    rewrite (proj1 (parse_history_app body (take k line) [] Hw ltac:(by apply forallb_take))).
    f_equal. destruct (decide (take k line = [])) as [->|Hne]; [done|].
    rewrite lines_unterminated by (done || by apply forallb_take).
    unfold line. simpl. by rewrite history_prefix_unparsed.
Qed.

(** The history once the whole line is written. *)
Lemma history_file_extended d h cp :
  wf_checkpoint cp = true -> history_file d h -> history_file (apply_op (history_op cp) d) (h ++ [cp]).
Proof.
  intros Hcp Hh. pose proof (history_torn d h cp (length (encode_history_line cp ++ [NL])) Hcp Hh) as Ht.
  rewrite take_ge in Ht by done.
  destruct (Nat.leb_spec (length (encode_history_line cp)) (length (encode_history_line cp ++ [NL])));
    [|rewrite length_app in *; lia].
  unfold read_history, fs_read_to_string in Ht. unfold history_file, history_op, apply_op.
  rewrite lookup_insert_eq in *. revert Ht. destruct (utf8_valid _); [|done]. intros [= Ht].
  split; [done|]. split; [|done].
  assert (whole_lines (default [] (d !! CHECKPOINT_HISTORY_FILE))) as (ls & Hls & ->).
  { unfold history_file in Hh. destruct (d !! CHECKPOINT_HISTORY_FILE); [by destruct Hh as (_ & ? & _)|].
    by exists []. }
  exists (ls ++ [encode_history_line cp]). split.
  - apply Forall_app. split; [done|]. repeat constructor. by apply history_line_plain.
  - rewrite map_app, concat_app. simpl. by rewrite app_nil_r.
Qed.

(** The published history grows only: published sizes strictly increase. *)
Definition increasing (h : list Checkpoint) : Prop := StronglySorted (fun a b => size a < size b) h.

Lemma increasing_le h : increasing h -> Forall (fun a => size a <= last_size h) h.
Proof.
  unfold increasing, last_size. induction 1 as [|x h Hs IH Hx]; [constructor|].
  destruct h as [|y h]; [repeat constructor; simpl; lia|].
  constructor; [|exact IH]. apply Forall_inv in Hx, IH. simpl in *. lia.
Qed.

Lemma increasing_snoc h cp : increasing h -> last_size h < size cp -> increasing (h ++ [cp]).
Proof.
  intros Hi Hl. pose proof (increasing_le h Hi) as Hle. revert Hle Hl. generalize (last_size h).
  intros n Hle Hn. induction Hi as [|x h Hs IH Hx]; simpl; [by repeat constructor|].
  apply Forall_cons in Hle as [Hxn Hle]. constructor; [by apply IH|].
  apply Forall_app. split; [done|]. repeat constructor. lia.
Qed.

(** Appending to the checkpoint history: on a history of whole lines a record
    is written exactly when its size exceeds the last recorded one (so an empty
    log is never recorded), reading it back gives the old records and the new
    one, and the recorded sizes stay strictly increasing. *)
Theorem history_append (cp : Checkpoint) (d : disk) (h : list Checkpoint) :
  wf_checkpoint cp = true -> history_file d h ->
  let written := last_size h <? size cp in
  (append_to_history cp d).1 = Ok written
  /\ history_file (io_disk (append_to_history cp) d) (h ++ if written then [cp] else [])
  /\ (increasing h -> increasing (h ++ if written then [cp] else [])).
Proof.
  intros Hcp Hh written. unfold io_disk. rewrite (append_to_history_run cp d h Hh).
  subst written. destruct (Z.ltb_spec (last_size h) (size cp)) as [Hlt|_]; cbn [fst snd apply_ops fold_left].
  2:{ by rewrite app_nil_r. }
  split; [done|]. split; [by apply history_file_extended|]. intros Hi. by apply increasing_snoc.
Qed.

(** Crash safety of the checkpoint history: wherever a crash interrupts an
    append, also within the bytes of the new record, reading the history gives
    the old records, or the old records and the complete new one. *)
Theorem history_crash_safe (cp : Checkpoint) (d d' : disk) (h : list Checkpoint) :
  wf_checkpoint cp = true -> history_file d h -> crash d (append_to_history cp d).2 d' ->
  read_history d' = Ok h \/ read_history d' = Ok (h ++ [cp]).
Proof.
  intros Hcp Hh. rewrite (append_to_history_run cp d h Hh).
  pose proof (history_file_read d h Hh) as Hr.
  destruct (last_size h <? size cp); cbn [snd]; [|by intros ->%crash_nil; left].
  intros Hc. inversion Hc as [| |? ? ? ? k|? ? ? ? Hc']; subst; [by left|..].
  - rewrite (history_torn d h cp) by done. destruct (_ <=? _)%nat; [by right|]. rewrite app_nil_r. by left.
  - apply crash_nil in Hc' as ->. right. apply history_file_read. by apply history_file_extended.
Qed.

Lemma cp_encode_ascii cp :
  wf_checkpoint cp = true -> forallb (in_range 0 0x7F) (cp_encode cp) = true.
Proof.
  intros (_ & Ho & Hn & _)%wf_checkpoint_inv. unfold cp_encode.
  pose proof (show_u64_plain _ (u64_nonneg _ Hn)) as Hs. pose proof (b64_plain (cp_root cp)) as Hb.
  repeat (rewrite forallb_app; cbn [forallb]). rewrite !plain_ascii by done. done.
Qed.

(** A checkpoint file reads back. *)
Lemma cp_read_file cp d :
  wf_checkpoint cp = true -> d !! CHECKPOINT_FILE = Some (cp_encode cp) -> cp_read d = Ok (Some cp).
Proof.
  intros Hcp Hd. unfold cp_read, fs_read_to_string. rewrite Hd, utf8_ascii by (by apply cp_encode_ascii).
  pose proof (wf_checkpoint_inv cp Hcp) as (_ & Ho & Hn & Hr).
  pose proof (cp_parse_encoded cp []) as Hp. rewrite app_nil_r in Hp.
  rewrite Hp; [done|split; [by apply plain_no_nl|by apply plain_strip_cr]|done|done].
Qed.

(** Publishing a checkpoint is atomic: wherever a crash interrupts it, a reader
    finds the checkpoint that was published before, or the new one; after it,
    the new one. *)
Theorem checkpoint_publish_atomic (cp : Checkpoint) (d d' : disk) :
  wf_checkpoint cp = true ->
  (crash d (cp_write cp d).2 d' -> cp_read d' = cp_read d \/ cp_read d' = Ok (Some cp))
  /\ (cp_write cp d).1 = Ok tt /\ cp_read (io_disk (cp_write cp) d) = Ok (Some cp).
Proof.
  intros Hcp. assert (CHECKPOINT_FILE <> tmp_path CHECKPOINT_FILE) as Hne by (by vm_compute).
  split_and!; [|done|].
  - intros Hc. apply write_atomic_crash in Hc as [_ [E|E]]; [| |done].
    + left. unfold cp_read, fs_read_to_string. by rewrite E.
    + right. by apply cp_read_file.
  - apply cp_read_file; [done|]. unfold cp_write. rewrite write_atomic_disk by done.
    by rewrite bool_decide_true.
Qed.
End Proofs.

(** * Concrete checkpoints *)

(** A textual encoding with the laws of [Base64], to evaluate the model. *)
Definition strict_hex (s : bytes) : option bytes :=
  match from_hex_loop s with
  | Ok b => if bool_decide (to_hex b = s) then Some b else None
  | _ => None
  end.

Lemma to_hex_plain b : forallb plain (to_hex b) = true.
Proof.
  induction b as [|x b IH]; [done|]. cbn [to_hex forallb]. rewrite IH.
  assert (forall x, plain (hex_digit (Z.shiftr (b2z x) 4)) && plain (hex_digit (Z.land (b2z x) 0x0f)) = true) as Hx
    by (apply byte_forallb; vm_compute; reflexivity).
  specialize (Hx x). apply andb_true_iff in Hx as [-> ->]. done.
Qed.

Lemma strict_hex_to_hex b : strict_hex (to_hex b) = Some b.
Proof. unfold strict_hex. rewrite from_to_hex_loop. by rewrite bool_decide_true. Qed.

Lemma strict_hex_canonical s b : strict_hex s = Some b -> s = to_hex b.
Proof.
  unfold strict_hex. destruct (from_hex_loop s); [|done..]. case_bool_decide; [|done]. by intros [= <-].
Qed.

Lemma to_hex_length a b : length a = length b -> length (to_hex a) = length (to_hex b).
Proof. intros E. rewrite !length_to_hex. lia. Qed.

Lemma to_hex_empty b : to_hex b = [] -> b = [].
Proof. by destruct b. Qed.

Definition hex_base64 : Base64 :=
  {| b64_encode := to_hex; b64_decode := strict_hex; b64_decode_encode := strict_hex_to_hex;
     b64_canonical := strict_hex_canonical; b64_length := to_hex_length; b64_empty := to_hex_empty;
     b64_plain := to_hex_plain |}.

#[local] Existing Instance hex_base64.

Definition ex_cp (n : Z) : Checkpoint :=
  {| origin := bstr "watertown/pond"; size := n; cp_root := repeat (z2b n) 32 |}.
Definition ex_history : bytes := encode_history_line (ex_cp 3) ++ [NL].
Definition ex_disk : disk :=
  <[CHECKPOINT_HISTORY_FILE := ex_history]> (<[CHECKPOINT_FILE := cp_encode (ex_cp 3)]> ∅).

Lemma ex_history_file : history_file ex_disk [ex_cp 3].
Proof.
  unfold history_file, ex_disk. rewrite lookup_insert_eq. split_and!; [vm_compute; reflexivity| |vm_compute; reflexivity].
  exists [encode_history_line (ex_cp 3)]. split; [by repeat constructor|].
  vm_compute. reflexivity.
Qed.

Lemma checkpoint_round_trip_witness :
  cp_parse (cp_encode (ex_cp 7) ++ bstr "timestamp 1700000000") = Ok (ex_cp 7).
Proof. apply (checkpoint_round_trip (ex_cp 7)); [split; reflexivity|reflexivity|reflexivity]. Defined.

Lemma history_append_witness :
  (append_to_history (ex_cp 5) ex_disk).1 = Ok true
  /\ history_file (io_disk (append_to_history (ex_cp 5)) ex_disk) [ex_cp 3; ex_cp 5]
  /\ (increasing [ex_cp 3] -> increasing [ex_cp 3; ex_cp 5]).
Proof. apply (history_append (ex_cp 5) ex_disk [ex_cp 3]); [reflexivity|apply ex_history_file]. Defined.

Definition ex_torn_disk : disk :=
  <[CHECKPOINT_HISTORY_FILE := ex_history ++ take 16 (encode_history_line (ex_cp 5))]> ex_disk.

Lemma history_crash_safe_witness :
  read_history ex_torn_disk = Ok [ex_cp 3] \/ read_history ex_torn_disk = Ok ([ex_cp 3] ++ [ex_cp 5]).
Proof.
  apply (history_crash_safe (ex_cp 5) ex_disk ex_torn_disk [ex_cp 3]);
    [reflexivity|apply ex_history_file|].
  rewrite (append_to_history_run (ex_cp 5) ex_disk [ex_cp 3] ex_history_file).
  apply (crash_append ex_disk CHECKPOINT_HISTORY_FILE (encode_history_line (ex_cp 5) ++ [NL]) [] 16).
Defined.

Lemma checkpoint_publish_atomic_witness :
  cp_read (io_disk (cp_write (ex_cp 5)) ex_disk) = Ok (Some (ex_cp 5)).
Proof. apply (checkpoint_publish_atomic (ex_cp 5) ex_disk ex_disk). reflexivity. Defined.

(** A record appended after a torn line is lost: the call reports that it
    wrote the record, but the record continues the torn line and is not read
    back. *)
Theorem history_append_after_torn_line :
  read_history ex_torn_disk = Ok [ex_cp 3]
  /\ (append_to_history (ex_cp 6) ex_torn_disk).1 = Ok true
  /\ read_history (io_disk (append_to_history (ex_cp 6)) ex_torn_disk) = Ok [ex_cp 3].
Proof. vm_compute. done. Qed.
