(* ===== verification/TilePaths.v ===== *)
(** Tile names, [crates/sync-store/src/tlog/tiles.rs]: the base-1000 path of a
    tile index and the relative path of a tile.  Different tiles have different
    paths, and no tile path is a temporary file's or a checkpoint's. *)

From stdpp Require Import base list numbers gmap strings options.
From Stdlib Require Import ZArith Lia.
From S2P Require Import Prelude RustStd RustText Disk Checkpoint.

Open Scope Z_scope.

Definition TILE_WIDTH : Z := 256.
Definition TILE_HEIGHT_BITS : Z := 8.
Definition DOT : byte := Byte.x2e.
Definition LETTER_X : byte := Byte.x78.

(** [format!("{:03}", k)] for [k < 1000]. *)
Definition pad3 (k : Z) : bytes :=
  [dec_digit (k / 100); dec_digit (k / 10 mod 10); dec_digit (k mod 10)].

(** The [while n > 0] loop of [n_path]; a [u64] has at most seven groups. *)
Fixpoint n_path_loop (fuel : nat) (n : Z) (s : bytes) : bytes :=
  match fuel with
  | O => s
  | S fuel =>
      if 0 <? n then n_path_loop fuel (n / 1000) (LETTER_X :: pad3 (n mod 1000) ++ SLASH :: s) else s
  end.

Definition n_path (n : Z) : bytes := n_path_loop 7 (n / 1000) (pad3 (n mod 1000)).

Definition tile_base (level n : Z) : bytes := bstr "tile/" ++ show_u64 level ++ SLASH :: n_path n.

(** The directory of the partial variants of a tile. *)
Definition partial_dir (level n : Z) : bytes := tile_base level n ++ bstr ".p".

Definition data_tile_rel (level n width : Z) : bytes :=
  if width =? TILE_WIDTH then tile_base level n
  else tile_base level n ++ bstr ".p/" ++ show_u64 width.

(** ** The index path *)

Fixpoint n_prefix (fuel : nat) (n : Z) : bytes :=
  match fuel with
  | O => []
  | S fuel => if 0 <? n then n_prefix fuel (n / 1000) ++ LETTER_X :: pad3 (n mod 1000) ++ [SLASH] else []
  end.

Lemma n_path_loop_prefix fuel n s : n_path_loop fuel n s = n_prefix fuel n ++ s.
Proof.
  revert n s. induction fuel as [|fuel IH]; intros n s; [done|]. cbn [n_path_loop n_prefix].
  destruct (0 <? n); [|done]. rewrite IH. by repeat (rewrite <- app_assoc; cbn [app]).
Qed.

Lemma n_path_eq n : n_path n = n_prefix 7 (n / 1000) ++ pad3 (n mod 1000).
Proof. apply n_path_loop_prefix. Qed.

Lemma dec_digit_inj a b : 0 <= a < 10 -> 0 <= b < 10 -> dec_digit a = dec_digit b -> a = b.
Proof.
  intros Ha Hb E. destruct (digit_bytes a Ha) as [_ E1], (digit_bytes b Hb) as [_ E2].
  rewrite E in E1. lia.
Qed.

Lemma pad3_inj a b : 0 <= a < 1000 -> 0 <= b < 1000 -> pad3 a = pad3 b -> a = b.
Proof.
  unfold pad3. intros Ha Hb [= E1 E2 E3].
  apply dec_digit_inj in E1, E2, E3; [|Z.to_euclidean_division_equations; lia..].
  Z.to_euclidean_division_equations; lia.
Qed.

(** Every index below the range of the fuel has its own path. *)
Lemma n_prefix_inj fuel a b :
  0 <= a < 1000 ^ Z.of_nat fuel -> 0 <= b < 1000 ^ Z.of_nat fuel ->
  n_prefix fuel a = n_prefix fuel b -> a = b.
Proof.
  revert a b. induction fuel as [|fuel IH]; intros a b Ha Hb; [simpl in *; lia|].
  rewrite Nat2Z.inj_succ, Z.pow_succ_r in * by lia. cbn [n_prefix].
  destruct (Z.ltb_spec 0 a), (Z.ltb_spec 0 b); [|by destruct (n_prefix fuel (a / 1000))
    |by destruct (n_prefix fuel (b / 1000))|lia].
  intros E. apply app_inj_2 in E as [E1 E2]; [|done].
  injection E2 as E2a E2b E2c. assert (pad3 (a mod 1000) = pad3 (b mod 1000)) as E2
    by (unfold pad3; by rewrite E2a, E2b, E2c).
  apply pad3_inj in E2; [|Z.to_euclidean_division_equations; lia..].
  apply IH in E1; [|split; [apply Z.div_pos; lia|apply Z.div_lt_upper_bound; lia]..].
  rewrite (Z.div_mod a 1000), (Z.div_mod b 1000), E1, E2 by lia. done.
Qed.

Lemma n_path_inj a b : is_u64 a = true -> is_u64 b = true -> n_path a = n_path b -> a = b.
Proof.
  unfold is_u64. intros Ha Hb. rewrite !n_path_eq. intros E.
  apply app_inj_2 in E as [E1 E2]; [|done].
  apply pad3_inj in E2; [|Z.to_euclidean_division_equations; lia..].
  apply n_prefix_inj in E1.
  - rewrite (Z.div_mod a 1000), (Z.div_mod b 1000), E1, E2 by lia. done.
  - change (1000 ^ Z.of_nat 7) with 1000000000000000000000.
    split; [apply Z.div_pos; lia|apply Z.div_lt_upper_bound; lia].
  - change (1000 ^ Z.of_nat 7) with 1000000000000000000000.
    split; [apply Z.div_pos; lia|apply Z.div_lt_upper_bound; lia].
Qed.

(** ** Tile paths *)

(** The characters of an index path. *)
Definition path_char (c : byte) : bool := is_digit c || bool_decide (c = LETTER_X) || bool_decide (c = SLASH).

Lemma digit_path d : 0 <= d < 10 -> path_char (dec_digit d) = true.
Proof. intros Hd. unfold path_char. by destruct (digit_bytes d Hd) as [-> _]. Qed.

Lemma pad3_chars k : 0 <= k < 1000 -> forallb path_char (pad3 k) = true.
Proof.
  intros Hk. cbn [pad3 forallb].
  rewrite !digit_path by (Z.to_euclidean_division_equations; lia). done.
Qed.

Lemma n_prefix_chars fuel n : 0 <= n -> forallb path_char (n_prefix fuel n) = true.
Proof.
  revert n. induction fuel as [|fuel IH]; intros n Hn; [done|]. cbn [n_prefix].
  destruct (0 <? n); [|done]. rewrite forallb_app. cbn [forallb]. rewrite forallb_app.
  rewrite IH, pad3_chars by (Z.to_euclidean_division_equations; lia). done.
Qed.

Lemma n_path_chars n : 0 <= n -> forallb path_char (n_path n) = true.
Proof.
  intros Hn. rewrite n_path_eq, forallb_app, n_prefix_chars, pad3_chars
    by (Z.to_euclidean_division_equations; lia). done.
Qed.

Definition no_dot (l : bytes) : bool := forallb (fun c => negb (bool_decide (c = DOT))) l.

Lemma path_no_dot l : forallb path_char l = true -> no_dot l = true.
Proof.
  unfold no_dot. rewrite !forallb_Forall. intros Hl. eapply Forall_impl; [exact Hl|].
  intros c Hc. cbv beta in *. rewrite negb_true_iff, bool_decide_eq_false. intros ->. by vm_compute in Hc.
Qed.

Lemma digits_no_dot n : 0 <= n -> no_dot (show_u64 n) = true.
Proof.
  intros Hn. destruct (show_u64_digits n Hn) as [Hd _]. apply path_no_dot.
  rewrite forallb_Forall in *. eapply Forall_impl; [exact Hd|]. intros c Hc. unfold path_char.
  cbv beta in Hc. by rewrite Hc.
Qed.

Lemma tile_base_no_dot level n : 0 <= level -> 0 <= n -> no_dot (tile_base level n) = true.
Proof.
  intros Hl Hn. unfold tile_base, no_dot. rewrite forallb_app. cbn [forallb]. rewrite forallb_app.
  cbn [forallb]. pose proof (digits_no_dot level Hl) as H1. pose proof (path_no_dot _ (n_path_chars n Hn)) as H2.
  unfold no_dot in H1, H2. by rewrite H1, H2.
Qed.

(** Text without dots is delimited by a dot or the end. *)
Lemma dot_delimited a b r s :
  no_dot a = true -> no_dot b = true ->
  match r with [] => True | c :: _ => c = DOT end ->
  match s with [] => True | c :: _ => c = DOT end ->
  a ++ r = b ++ s -> a = b /\ r = s.
Proof.
  revert b. induction a as [|x a IH]; intros [|y b] Ha Hb Hr Hs E; simpl in *.
  - done.
  - subst r. apply andb_true_iff in Hb as [Hb _]. subst y. by rewrite bool_decide_true in Hb.
  - subst s. apply andb_true_iff in Ha as [Ha _]. subst x. by rewrite bool_decide_true in Ha.
  - injection E as -> E. apply andb_true_iff in Ha as [_ Ha], Hb as [_ Hb].
    destruct (IH b Ha Hb Hr Hs E) as [-> ->]. done.
Qed.

Lemma tile_base_inj l1 n1 l2 n2 :
  is_u64 l1 = true -> is_u64 l2 = true -> is_u64 n1 = true -> is_u64 n2 = true ->
  tile_base l1 n1 = tile_base l2 n2 -> l1 = l2 /\ n1 = n2.
Proof.
  intros H1 H2 H3 H4 E. unfold tile_base in E. apply app_inv_head in E.
  apply digits_delimited in E; [|by apply show_u64_digits; unfold is_u64 in *; lia..|done|done].
  destruct E as [E1 E2]. injection E2 as E2. split; [by apply show_u64_inj|by apply n_path_inj].
Qed.

(** ** Valid tile coordinates *)

Definition tile_id (level n : Z) : Prop := is_u64 level = true /\ is_u64 n = true.
Definition tile_width (w : Z) : Prop := 1 <= w <= 256.

Lemma tile_id_nonneg l n : tile_id l n -> 0 <= l /\ 0 <= n.
Proof. unfold tile_id, is_u64. lia. Qed.

Definition width_suffix (w : Z) : bytes :=
  if w =? TILE_WIDTH then [] else bstr ".p/" ++ show_u64 w.

Lemma data_tile_rel_eq l n w : data_tile_rel l n w = tile_base l n ++ width_suffix w.
Proof. unfold data_tile_rel, width_suffix. destruct (_ =? _); [by rewrite app_nil_r|done]. Qed.

Lemma width_suffix_dot w : match width_suffix w with [] => True | c :: _ => c = DOT end.
Proof. unfold width_suffix. by destruct (_ =? _). Qed.

Lemma width_suffix_inj w1 w2 :
  tile_width w1 -> tile_width w2 -> width_suffix w1 = width_suffix w2 -> w1 = w2.
Proof.
  unfold width_suffix, tile_width, TILE_WIDTH. intros H1 H2.
  destruct (Z.eqb_spec w1 256), (Z.eqb_spec w2 256); [lia|done|done|].
  intros E. apply app_inv_head in E. apply show_u64_inj in E; [done|unfold is_u64; lia..].
Qed.

(** Different tiles, and different widths of a tile, have different paths. *)
Lemma data_tile_rel_inj l1 n1 w1 l2 n2 w2 :
  tile_id l1 n1 -> tile_id l2 n2 -> tile_width w1 -> tile_width w2 ->
  data_tile_rel l1 n1 w1 = data_tile_rel l2 n2 w2 -> l1 = l2 /\ n1 = n2 /\ w1 = w2.
Proof.
  intros H1 H2 Hw1 Hw2 E. rewrite !data_tile_rel_eq in E.
  pose proof (tile_id_nonneg _ _ H1) as [? ?]. pose proof (tile_id_nonneg _ _ H2) as [? ?].
  apply dot_delimited in E as [E1 E2]; [|by apply tile_base_no_dot..|apply width_suffix_dot|apply width_suffix_dot].
  destruct H1, H2. apply tile_base_inj in E1 as [-> ->]; [|done..].
  by apply width_suffix_inj in E2 as ->.
Qed.

(** Entries of the partial directory of a tile. *)
Definition partial_entry (l n : Z) (name : bytes) : bytes := partial_dir l n ++ SLASH :: name.

Lemma partial_entry_eq l n name : partial_entry l n name = tile_base l n ++ bstr ".p/" ++ name.
Proof. unfold partial_entry, partial_dir. by rewrite <- app_assoc. Qed.

Lemma partial_path l n w : tile_width w -> w <> 256 -> data_tile_rel l n w = partial_entry l n (show_u64 w).
Proof.
  intros Hw Hne. rewrite partial_entry_eq. unfold data_tile_rel, TILE_WIDTH.
  by destruct (Z.eqb_spec w 256).
Qed.

Lemma partial_entry_inj l1 n1 a l2 n2 b :
  tile_id l1 n1 -> tile_id l2 n2 -> partial_entry l1 n1 a = partial_entry l2 n2 b ->
  l1 = l2 /\ n1 = n2 /\ a = b.
Proof.
  intros H1 H2. rewrite !partial_entry_eq. intros E.
  pose proof (tile_id_nonneg _ _ H1) as [? ?]. pose proof (tile_id_nonneg _ _ H2) as [? ?].
  apply dot_delimited in E as [E1 E2]; [|by apply tile_base_no_dot..|done|done].
  destruct H1, H2. apply tile_base_inj in E1 as [-> ->]; [|done..].
  apply app_inv_head in E2 as ->. done.
Qed.

(** A partial entry is a tile path only of that tile, with that width as name. *)
Lemma partial_entry_tile l1 n1 name l2 n2 w :
  tile_id l1 n1 -> tile_id l2 n2 -> tile_width w -> partial_entry l1 n1 name = data_tile_rel l2 n2 w ->
  l1 = l2 /\ n1 = n2 /\ w <> 256 /\ name = show_u64 w.
Proof.
  intros H1 H2 Hw E. destruct (decide (w = 256)) as [->|Hne].
  - exfalso. rewrite partial_entry_eq in E. unfold data_tile_rel in E.
    replace (256 =? TILE_WIDTH) with true in E by done. rewrite <- (app_nil_r (tile_base l2 n2)) in E.
    pose proof (tile_id_nonneg _ _ H1) as [? ?]. pose proof (tile_id_nonneg _ _ H2) as [? ?].
    apply dot_delimited in E as [_ E]; [done|by apply tile_base_no_dot..|done|done].
  - rewrite (partial_path _ _ w) in E by done. apply partial_entry_inj in E as (-> & -> & ->); done.
Qed.

(** ** Tile paths end in a digit *)

Definition ends_in_digit (p : bytes) : Prop := exists q c, p = q ++ [c] /\ is_digit c = true.

Lemma show_u64_last n : 0 <= n -> ends_in_digit (show_u64 n).
Proof.
  intros Hn. unfold show_u64. cbn [dec_digits]. eexists _, _. split; [done|].
  apply digit_bytes. Z.to_euclidean_division_equations; lia.
Qed.

Lemma ends_in_digit_app a b : ends_in_digit b -> ends_in_digit (a ++ b).
Proof. intros (q & c & -> & Hc). exists (a ++ q), c. by rewrite app_assoc. Qed.

Lemma tile_path_digit l n w : tile_id l n -> tile_width w -> ends_in_digit (data_tile_rel l n w).
Proof.
  intros [_ Hn] Hw. unfold is_u64 in Hn. unfold data_tile_rel. destruct (w =? TILE_WIDTH).
  - unfold tile_base. apply ends_in_digit_app, (ends_in_digit_app (show_u64 l)).
    rewrite n_path_eq, app_comm_cons. apply ends_in_digit_app. unfold pad3.
    eexists [_; _], _. split; [done|]. apply digit_bytes. Z.to_euclidean_division_equations; lia.
  - rewrite app_assoc. apply ends_in_digit_app, show_u64_last. unfold tile_width in Hw. lia.
Qed.

Lemma ends_in_digit_tmp p : ~ ends_in_digit (tmp_path p).
Proof.
  intros (q & c & E & Hc). unfold tmp_path in E.
  change (bstr ".tmp") with (bstr ".tm" ++ [Byte.x70]) in E. rewrite app_assoc in E.
  apply app_inj_tail in E as [_ <-]. by vm_compute in Hc.
Qed.

Lemma tile_not_tmp l n w p : tile_id l n -> tile_width w -> data_tile_rel l n w <> tmp_path p.
Proof. intros Hl Hw E. apply (ends_in_digit_tmp p). rewrite <- E. by apply tile_path_digit. Qed.

Lemma tile_not_checkpoint l n w :
  data_tile_rel l n w <> CHECKPOINT_FILE /\ data_tile_rel l n w <> CHECKPOINT_HISTORY_FILE.
Proof. rewrite data_tile_rel_eq. unfold tile_base. by split. Qed.

(** C38: Tile paths are unambiguous: two tiles of a log share a path only if they
    have the same level, index and width; no tile path is the path of a
    temporary file, of the checkpoint or of its history. *)
Theorem tile_paths_unambiguous (l1 n1 w1 l2 n2 w2 : Z) (p : bytes) :
  is_u8 l1 = true -> is_u8 l2 = true -> is_u64 n1 = true -> is_u64 n2 = true ->
  tile_width w1 -> tile_width w2 ->
  (data_tile_rel l1 n1 w1 = data_tile_rel l2 n2 w2 <-> l1 = l2 /\ n1 = n2 /\ w1 = w2)
  /\ data_tile_rel l1 n1 w1 <> tmp_path p
  /\ data_tile_rel l1 n1 w1 <> CHECKPOINT_FILE /\ data_tile_rel l1 n1 w1 <> CHECKPOINT_HISTORY_FILE.
Proof.
  intros H1 H2 H3 H4 Hw1 Hw2.
  assert (tile_id l1 n1) by (split; [unfold is_u8, is_u64 in *; lia|done]).
  assert (tile_id l2 n2) by (split; [unfold is_u8, is_u64 in *; lia|done]).
  split; [split; [by apply data_tile_rel_inj|by intros (-> & -> & ->)]|].
  split; [by apply tile_not_tmp|apply tile_not_checkpoint].
Qed.

Lemma tile_paths_unambiguous_witness :
  (data_tile_rel 1 1234067 256 = data_tile_rel 1 1234068 256 <-> 1 = 1 /\ 1234067 = 1234068 /\ 256 = 256)
  /\ data_tile_rel 1 1234067 256 <> tmp_path (bstr "tile/1/x001/x234/067")
  /\ data_tile_rel 1 1234067 256 <> CHECKPOINT_FILE
  /\ data_tile_rel 1 1234067 256 <> CHECKPOINT_HISTORY_FILE.
Proof.
  apply (tile_paths_unambiguous 1 1234067 256 1 1234068 256); [reflexivity..|unfold tile_width; lia|unfold tile_width; lia].
Defined.
