(* ===== verification/LogMerkle.v ===== *)
(** The transparency log over the commit spine,
    [crates/sync-store/src/tlog/merkle.rs] and [mod.rs]: leaf and node hashing, the
    RFC 6962 tree head, inclusion and consistency proofs and their verifiers, at
    the width of [usize], and the leaves made of commits.  The log refines the
    abstract tree of [MerkleTree]; both verifiers are proved complete, and sound up
    to an explicit SHA-256 collision. *)

From stdpp Require Import base list numbers sets options.
From Stdlib Require Import ZArith Lia.
From Stdlib Require Import Strings.Byte.
From S2P Require Import Prelude RustStd EntryType Wire MerkleTree Tree Manifest Commit.

Open Scope Z_scope.

(** SHA-256 is third-party code: a parameter with its digest length. *)
Class Sha256 := {
  sha256 : bytes -> bytes;
  sha256_len : forall b, length (sha256 b) = 32%nat;
}.

(** A concrete 32-byte function, used only to evaluate the model on examples. *)
Definition mix_sha256 : Sha256 := {| sha256 := mix; sha256_len := mix_len |}.

Definition LEAF_PREFIX : byte := Byte.x00.
Definition NODE_PREFIX : byte := Byte.x01.

(** [usize] on the 64-bit targets. *)
Definition is_usize (z : Z) : bool := is_u64 z.

(** * Loops over machine integers

    A loop is a function of a fuel argument; [None] means that it does not
    return within that many iterations. *)

(** [while k << 1 < n { k <<= 1; }]: the shift drops the bits it moves out. *)
Fixpoint split_loop (fuel : nat) (k n : Z) : option Z :=
  match fuel with
  | O => None
  | S fuel =>
      let k2 := Z.shiftl k 1 mod 2 ^ 64 in
      if k2 <? n then split_loop fuel k2 n else Some k
  end.

(** [split_point]; 64 iterations cover every size for which the loop ends. *)
Definition split_point (n : Z) : option Z := split_loop 64 1 n.

Definition is_power_of_two (x : Z) : bool :=
  negb (x =? 0) && (Z.land x (x - 1) =? 0).

Inductive ProofError := IndexOutOfRange (index size : Z).

#[export] Instance ProofError_eq_dec : EqDecision ProofError.
Proof. solve_decision. Defined.

Definition usize_len {A} (l : list A) : Z := Z.of_nat (length l).

Section Log.
Context `{Sha256}.

Definition empty_root : bytes := sha256 [].
Definition hash_leaf (leaf_data : bytes) : bytes := sha256 (LEAF_PREFIX :: leaf_data).
Definition node_input (left right : bytes) : bytes := NODE_PREFIX :: left ++ right.
Definition hash_children (left right : bytes) : bytes := sha256 (node_input left right).

(** [mth]: the recursion depth is at most the number of leaves. *)
Fixpoint mth_loop (fuel : nat) (leaves : list bytes) : option bytes :=
  match fuel, leaves with
  | _, [] => Some empty_root
  | _, [x] => Some x
  | O, _ => None
  | S fuel, _ =>
      k ← split_point (usize_len leaves);
      l ← mth_loop fuel (firstn (Z.to_nat k) leaves);
      r ← mth_loop fuel (skipn (Z.to_nat k) leaves);
      Some (hash_children l r)
  end.
Definition mth (leaves : list bytes) : option bytes := mth_loop (length leaves) leaves.

Fixpoint path_loop (fuel : nat) (m : Z) (leaves : list bytes) : option (list bytes) :=
  match fuel with
  | O => None
  | S fuel =>
      let n := usize_len leaves in
      if n =? 1 then Some [] else
      k ← split_point n;
      if m <? k then
        proof ← path_loop fuel m (firstn (Z.to_nat k) leaves);
        h ← mth (skipn (Z.to_nat k) leaves);
        Some (proof ++ [h])
      else
        proof ← path_loop fuel (m - k) (skipn (Z.to_nat k) leaves);
        h ← mth (firstn (Z.to_nat k) leaves);
        Some (proof ++ [h])
  end.
Definition path (m : Z) (leaves : list bytes) : option (list bytes) :=
  path_loop (length leaves) m leaves.

Fixpoint subproof_loop (fuel : nat) (m : Z) (leaves : list bytes) (b : bool)
  : option (list bytes) :=
  match fuel with
  | O => None
  | S fuel =>
      let n := usize_len leaves in
      if m =? n then (if b then Some [] else h ← mth leaves; Some [h]) else
      k ← split_point n;
      if m <=? k then
        proof ← subproof_loop fuel m (firstn (Z.to_nat k) leaves) b;
        h ← mth (skipn (Z.to_nat k) leaves);
        Some (proof ++ [h])
      else
        proof ← subproof_loop fuel (m - k) (skipn (Z.to_nat k) leaves) false;
        h ← mth (firstn (Z.to_nat k) leaves);
        Some (proof ++ [h])
  end.
Definition subproof (m : Z) (leaves : list bytes) (b : bool) : option (list bytes) :=
  subproof_loop (length leaves) m leaves b.

(** [rebuild_root]: [Some None] is the code's [None]. *)
Fixpoint rebuild_root_loop (fuel : nat) (m size : Z) (leaf : bytes) (proof : list bytes)
  : option (option bytes) :=
  match fuel with
  | O => None
  | S fuel =>
      if size =? 1 then
        Some (match proof with [] => Some leaf | _ => None end)
      else
        match split_last proof with
        | None => Some None
        | Some (sibling, rest) =>
            k ← split_point size;
            if m <? k then
              left ← rebuild_root_loop fuel m k leaf rest;
              Some (l ← left; Some (hash_children l sibling))
            else
              right ← rebuild_root_loop fuel (m - k) (size - k) leaf rest;
              Some (r ← right; Some (hash_children sibling r))
        end
  end.
Definition rebuild_root (m size : Z) (leaf : bytes) (proof : list bytes) : option (option bytes) :=
  rebuild_root_loop (S (length proof)) m size leaf proof.

Definition verify_inclusion (leaf : bytes) (index tree_size : Z) (proof : list bytes)
    (root : bytes) : option bool :=
  if tree_size <=? index then Some false else
  computed ← rebuild_root index tree_size leaf proof;
  Some (match computed with
        | Some computed => bool_decide (computed = root)
        | None => false
        end).

(** [while node % 2 == 1 { node >>= 1; last_node >>= 1; }] *)
Fixpoint strip_loop (fuel : nat) (node last_node : Z) : option (Z * Z) :=
  match fuel with
  | O => None
  | S fuel =>
      if node mod 2 =? 1 then strip_loop fuel (Z.shiftr node 1) (Z.shiftr last_node 1)
      else Some (node, last_node)
  end.

(** The state of the two folding loops: what is left of the proof, [hash1] and
    [hash2]; [Some None] is [return false]. *)
Definition fold_state : Type := list bytes * bytes * bytes.

(** [while node > 0 { .. }] *)
Fixpoint node_loop (fuel : nat) (node last_node : Z) (st : fold_state)
  : option (option (Z * fold_state)) :=
  match fuel with
  | O => None
  | S fuel =>
      let '(iter, hash1, hash2) := st in
      if 0 <? node then
        if node mod 2 =? 1 then
          match iter with
          | [] => Some None
          | next :: iter =>
              node_loop fuel (Z.shiftr node 1) (Z.shiftr last_node 1)
                (iter, hash_children next hash1, hash_children next hash2)
          end
        else if node <? last_node then
          match iter with
          | [] => Some None
          | next :: iter =>
              node_loop fuel (Z.shiftr node 1) (Z.shiftr last_node 1)
                (iter, hash1, hash_children hash2 next)
          end
        else node_loop fuel (Z.shiftr node 1) (Z.shiftr last_node 1) st
      else Some (Some (last_node, st))
  end.

(** [while last_node > 0 { .. }] *)
Fixpoint last_loop (fuel : nat) (last_node : Z) (st : fold_state) : option (option fold_state) :=
  match fuel with
  | O => None
  | S fuel =>
      let '(iter, hash1, hash2) := st in
      if 0 <? last_node then
        match iter with
        | [] => Some None
        | next :: iter =>
            last_loop fuel (Z.shiftr last_node 1) (iter, hash1, hash_children hash2 next)
        end
      else Some (Some st)
  end.

(** [verify_consistency]: every loop halves a [usize], so 65 tests suffice. *)
Definition verify_consistency (old_size new_size : Z) (old_root new_root : bytes)
    (proof : list bytes) : option bool :=
  if new_size <? old_size then Some false else
  if old_size =? new_size then
    Some (bool_decide (proof = []) && bool_decide (old_root = new_root)) else
  if old_size =? 0 then Some (bool_decide (proof = [])) else
  let nodes := (if is_power_of_two old_size then [old_root] else []) ++ proof in
  '(node, last_node) ← strip_loop 65 (old_size - 1) (new_size - 1);
  match nodes with
  | [] => Some false
  | first :: iter =>
      r ← node_loop 65 node last_node (iter, first, first);
      match r with
      | None => Some false
      | Some (last_node, st) =>
          r ← last_loop 65 last_node st;
          match r with
          | None => Some false
          | Some (iter, hash1, hash2) =>
              Some (bool_decide (iter = []) && bool_decide (hash1 = old_root)
                    && bool_decide (hash2 = new_root))
          end
      end
  end.

(** * The log *)

Record TransparencyLog := { leaves : list bytes }.

Definition new : TransparencyLog := {| leaves := [] |}.
Definition len (log : TransparencyLog) : Z := usize_len (leaves log).
Definition is_empty (log : TransparencyLog) : bool := bool_decide (leaves log = []).

(** [append_leaf_hash]: the new index and the new log. *)
Definition append_leaf_hash (leaf : bytes) (log : TransparencyLog) : Z * TransparencyLog :=
  (usize_len (leaves log), {| leaves := leaves log ++ [leaf] |}).
Definition append (leaf_data : bytes) (log : TransparencyLog) : Z * TransparencyLog :=
  (usize_len (leaves log), {| leaves := leaves log ++ [hash_leaf leaf_data] |}).

Definition leaf_hash (index : Z) (log : TransparencyLog) : option bytes :=
  leaves log !! Z.to_nat index.

Definition root (log : TransparencyLog) : option bytes := mth (leaves log).

Definition inclusion_proof (index : Z) (log : TransparencyLog)
  : option (outcome ProofError (list bytes)) :=
  if usize_len (leaves log) <=? index
  then Some (Err (IndexOutOfRange index (usize_len (leaves log))))
  else p ← path index (leaves log); Some (Ok p).

Definition consistency_proof (old_size : Z) (log : TransparencyLog)
  : option (outcome ProofError (list bytes)) :=
  let n := usize_len (leaves log) in
  if n <? old_size then Some (Err (IndexOutOfRange old_size n)) else
  if (old_size =? 0) || (old_size =? n) then Some (Ok []) else
  p ← subproof old_size (leaves log) true; Some (Ok p).

(** A slice of 32-byte digests holds fewer than [2^58] of them (Rust bounds a
    slice by [isize::MAX] bytes). *)
Definition wf_log (log : TransparencyLog) : bool :=
  forallb wf_hash (leaves log) && (usize_len (leaves log) <? 2 ^ 58).
End Log.

(** * Machine-integer facts *)

(** The loop invariant: [k] is a power of two below [n]. *)
Lemma split_loop_spec fuel p n :
  0 <= p -> 2 ^ p < n -> n <= 2 ^ 63 -> 63 - p <= Z.of_nat fuel ->
  split_loop fuel (2 ^ p) n = Some (2 ^ Z.log2 (n - 1)).
Proof.
  revert p. induction fuel as [|fuel IH]; intros p Hp Hlt Hn Hf.
  - assert (2 ^ 63 <= 2 ^ p) by (apply Z.pow_le_mono_r; lia). lia.
  - assert (p < 63) as Hp63 by (apply (Z.pow_lt_mono_r_iff 2); lia).
    assert (2 ^ (p + 1) <= 2 ^ 63) as Hle by (apply Z.pow_le_mono_r; lia).
    cbn [split_loop]. rewrite Z.shiftl_mul_pow2, <- Z.pow_add_r by lia.
    pose proof (Z.pow_pos_nonneg 2 (p + 1)).
    rewrite Z.mod_small by (change (2 ^ 64) with (2 * 2 ^ 63); lia).
    destruct (Z.ltb_spec (2 ^ (p + 1)) n) as [Hk|Hk]; [apply IH; lia|].
    do 2 f_equal. symmetry. apply Z.log2_unique; [lia|]. rewrite <- Z.add_1_r. lia.
Qed.

Lemma split_point_Z n : 2 <= n <= 2 ^ 63 -> split_point n = Some (2 ^ Z.log2 (n - 1)).
Proof. intros Hn. apply (split_loop_spec 64 0); lia. Qed.

Lemma log_split_point_nat n :
  (2 <= n)%nat -> Z.of_nat n <= 2 ^ 63 -> split_point (Z.of_nat n) = Some (Z.of_nat (split n)).
Proof. intros. rewrite split_point_Z, split_log2 by lia. done. Qed.

(** Above [2^63] the shifted candidate wraps to zero and the loop never ends. *)
Lemma split_loop_zero fuel n : 0 < n -> split_loop fuel 0 n = None.
Proof.
  intros Hn. induction fuel as [|fuel IH]; [done|]. cbn [split_loop].
  change (Z.shiftl 0 1 mod 2 ^ 64) with 0. destruct (Z.ltb_spec 0 n); [done|lia].
Qed.

Lemma split_loop_diverges fuel p n :
  0 <= p <= 63 -> 2 ^ 63 < n -> split_loop fuel (2 ^ p) n = None.
Proof.
  revert p. induction fuel as [|fuel IH]; intros p Hp Hn; [done|]. cbn [split_loop].
  rewrite Z.shiftl_mul_pow2, <- Z.pow_add_r by lia.
  destruct (decide (p = 63)) as [->|Hne].
  - change (2 ^ (63 + 1) mod 2 ^ 64) with 0.
    destruct (Z.ltb_spec 0 n); [|lia]. apply split_loop_zero. lia.
  - assert (2 ^ (p + 1) <= 2 ^ 63) as Hle by (apply Z.pow_le_mono_r; lia).
    pose proof (Z.pow_pos_nonneg 2 (p + 1)).
    rewrite Z.mod_small by (change (2 ^ 64) with (2 * 2 ^ 63); lia).
    destruct (Z.ltb_spec (2 ^ (p + 1)) n); [|lia]. apply IH; lia.
Qed.

(** [split_point] returns, for every size of 2 up to [2^63], the largest
    power of two strictly below it; above [2^63] its loop never returns. *)
Theorem split_point_spec (n : Z) :
  (2 <= n <= 2 ^ 63 ->
     exists p, 0 <= p /\ split_point n = Some (2 ^ p) /\ 2 ^ p < n <= 2 * 2 ^ p)
  /\ (2 ^ 63 < n -> forall fuel, split_loop fuel 1 n = None).
Proof.
  split.
  - intros Hn. exists (Z.log2 (n - 1)). pose proof (Z.log2_spec (n - 1)) as [H1 H2]; [lia|].
    rewrite Z.pow_succ_r in H2 by apply Z.log2_nonneg.
    split_and!; [apply Z.log2_nonneg|by apply split_point_Z|lia|lia].
  - intros Hn fuel. apply (split_loop_diverges fuel 0); lia.
Qed.

Lemma is_power_of_two_iff x : 0 < x -> is_power_of_two x = true <-> exists p, 0 <= p /\ x = 2 ^ p.
Proof.
  intros Hx. unfold is_power_of_two. rewrite andb_true_iff, negb_true_iff, Z.eqb_neq, Z.eqb_eq.
  split.
  - intros [_ Hl]. exists (Z.log2 x). pose proof (Z.log2_spec x Hx) as [H1 H2].
    split; [apply Z.log2_nonneg|].
    destruct (decide (x = 2 ^ Z.log2 x)) as [|Hne]; [done|exfalso].
    assert (Z.log2 (x - 1) = Z.log2 x) as E
      by (apply Z.log2_unique; [apply Z.log2_nonneg|lia]).
    assert (Z.testbit (Z.land x (x - 1)) (Z.log2 x) = true) as Hb; [|by rewrite Hl, Z.testbit_0_l in Hb].
    rewrite Z.land_spec, Z.bit_log2 by done. rewrite <- E, Z.bit_log2; [done|].
    pose proof (Z.pow_pos_nonneg 2 (Z.log2 x) ltac:(lia) (Z.log2_nonneg _)). lia.
  - intros (p & Hp & ->). split; [lia|].
    replace (2 ^ p - 1) with (Z.ones p) by (rewrite Z.ones_equiv; lia).
    rewrite Z.land_ones by done. apply Z.mod_same. lia.
Qed.

Lemma is_power_of_two_nat m :
  (0 < m)%nat -> is_power_of_two (Z.of_nat m) = true <-> exists p, m = (2 ^ p)%nat.
Proof.
  intros Hm. rewrite is_power_of_two_iff by lia. split.
  - intros (p & Hp & E). exists (Z.to_nat p). apply Nat2Z.inj. rewrite Nat2Z.inj_pow, Z2Nat.id by done. done.
  - intros (p & ->). exists (Z.of_nat p). by rewrite Nat2Z.inj_pow; split; [lia|].
Qed.

Lemma shiftr_nat a : Z.shiftr (Z.of_nat a) 1 = Z.of_nat (a / 2).
Proof. rewrite Z.shiftr_div_pow2 by lia. by rewrite Nat2Z.inj_div. Qed.

Lemma odd_nat a : (Z.of_nat a mod 2 =? 1) = Nat.odd a.
Proof.
  pose proof (Nat2Z.inj_mod a 2) as Em. change (Z.of_nat 2) with 2 in Em.
  rewrite <- Em, <- Nat.bit0_odd.
  pose proof (Nat.bit0_mod a) as E. destruct (Nat.testbit a 0); rewrite <- E; done.
Qed.

Section LogProofs.
Context `{Sha256}.

Abbreviation MTH := (MTH hash_children empty_root).
Abbreviation PATH := (PATH hash_children empty_root).
Abbreviation SUBPROOF := (SUBPROOF hash_children empty_root).
Abbreviation locates := (locates hash_children empty_root).

(** * The code computes the abstract tree *)

Lemma take_split (l : list bytes) :
  (2 <= length l)%nat -> usize_len l <= 2 ^ 63 ->
  split_point (usize_len l) = Some (Z.of_nat (split (length l)))
  /\ usize_len (take (split (length l)) l) <= 2 ^ 63
  /\ usize_len (drop (split (length l)) l) <= 2 ^ 63.
Proof.
  unfold usize_len. intros Hl Hb. rewrite log_split_point_nat by done.
  rewrite length_take, length_drop. split_and!; [done|lia|lia].
Qed.

Lemma mth_loop_spec fuel l :
  (length l <= fuel)%nat -> usize_len l <= 2 ^ 63 -> mth_loop fuel l = Some (MTH l).
Proof.
  revert l. induction fuel as [|fuel IH]; intros l Hf Hb.
  - destruct l; [done|simpl in Hf; lia].
  - destruct (decide (2 <= length l)%nat) as [Hl|Hl].
    + destruct (take_split l Hl Hb) as (Hk & H1 & H2). pose proof (split_spec _ Hl).
      assert (mth_loop (S fuel) l = k ← split_point (usize_len l);
        a ← mth_loop fuel (firstn (Z.to_nat k) l);
        b ← mth_loop fuel (skipn (Z.to_nat k) l); Some (hash_children a b)) as ->
        by (destruct l as [|? [|]]; simpl in Hl; [lia..|done]).
      rewrite Hk. simpl. rewrite Nat2Z.id.
      rewrite !IH by (rewrite ?length_take, ?length_drop; lia || done). simpl.
      by rewrite <- MTH_unfold.
    + destruct l as [|x [|]]; simpl in Hl; [done..|lia].
Qed.

Lemma mth_spec l : usize_len l <= 2 ^ 63 -> mth l = Some (MTH l).
Proof. intros. by apply mth_loop_spec. Qed.

Lemma path_loop_spec fuel m l :
  (length l <= fuel)%nat -> usize_len l <= 2 ^ 63 -> (m < length l)%nat ->
  path_loop fuel (Z.of_nat m) l = Some (PATH m l).
Proof.
  revert m l. induction fuel as [|fuel IH]; intros m l Hf Hb Hm; [lia|]. cbn [path_loop].
  destruct (Z.eqb_spec (usize_len l) 1) as [E|E]; unfold usize_len in E.
  { rewrite PATH_small by lia. done. }
  assert (2 <= length l)%nat as Hl by lia.
  destruct (take_split l Hl Hb) as (Hk & H1 & H2). pose proof (split_spec _ Hl).
  rewrite Hk. simpl. rewrite Nat2Z.id, PATH_unfold by done. cbv zeta.
  destruct (Z.ltb_spec (Z.of_nat m) (Z.of_nat (split (length l))));
    destruct (Nat.ltb_spec m (split (length l))); try lia.
  - rewrite IH by (rewrite ?length_take; lia || done). simpl. by rewrite mth_spec.
  - replace (Z.of_nat m - Z.of_nat (split (length l)))
      with (Z.of_nat (m - split (length l))) by lia.
    rewrite IH by (rewrite ?length_drop; lia || done). simpl. by rewrite mth_spec.
Qed.

Lemma subproof_loop_spec fuel m l b :
  (length l <= fuel)%nat -> usize_len l <= 2 ^ 63 -> (0 < m <= length l)%nat ->
  subproof_loop fuel (Z.of_nat m) l b = Some (SUBPROOF m l b).
Proof.
  revert m l b. induction fuel as [|fuel IH]; intros m l b Hf Hb Hm; [lia|]. cbn [subproof_loop].
  destruct (Z.eqb_spec (Z.of_nat m) (usize_len l)) as [E|E]; unfold usize_len in E.
  { assert (m = length l) as -> by lia. rewrite SUBPROOF_same by lia.
    destruct b; [done|]. by rewrite mth_spec. }
  assert (2 <= length l)%nat as Hl by lia.
  destruct (take_split l Hl Hb) as (Hk & H1 & H2). pose proof (split_spec _ Hl).
  rewrite Hk. simpl. rewrite Nat2Z.id, SUBPROOF_unfold by lia. cbv zeta.
  destruct (Z.leb_spec (Z.of_nat m) (Z.of_nat (split (length l))));
    destruct (Nat.leb_spec m (split (length l))); try lia.
  - rewrite IH by (rewrite ?length_take; lia || done). simpl. by rewrite mth_spec.
  - replace (Z.of_nat m - Z.of_nat (split (length l)))
      with (Z.of_nat (m - split (length l))) by lia.
    rewrite IH by (rewrite ?length_drop; lia || done). simpl. by rewrite mth_spec.
Qed.

(** [rebuild_root] climbs the sides of the leaf. *)
Lemma rebuild_root_spec fuel m n leaf proof :
  (length proof < fuel)%nat -> Z.of_nat n <= 2 ^ 63 -> (m < n)%nat ->
  rebuild_root_loop fuel (Z.of_nat m) (Z.of_nat n) leaf proof
  = Some (climb hash_children (incl_dirs m n) proof leaf).
Proof.
  revert m n proof. induction fuel as [|fuel IH]; intros m n proof Hf Hb Hm; [lia|].
  cbn [rebuild_root_loop]. destruct (Z.eqb_spec (Z.of_nat n) 1) as [E|E].
  { assert (n = 1%nat) as -> by lia. by destruct proof. }
  assert (2 <= n)%nat as Hn by lia. pose proof (split_spec _ Hn).
  rewrite incl_dirs_unfold by done.
  destruct (split_last proof) as [[sib rest]|] eqn:Es; cycle 1.
  { apply split_last_None in Es as ->. f_equal.
    destruct (Nat.ltb m (split n)); by destruct (incl_dirs _ _). }
  apply split_last_Some in Es as ->. rewrite length_app in Hf. simpl in Hf.
  rewrite log_split_point_nat by done. simpl.
  destruct (Z.ltb_spec (Z.of_nat m) (Z.of_nat (split n))); destruct (Nat.ltb_spec m (split n)); try lia.
  - rewrite IH by lia. simpl. by rewrite climb_snoc_eq.
  - replace (Z.of_nat m - Z.of_nat (split n)) with (Z.of_nat (m - split n)) by lia.
    replace (Z.of_nat n - Z.of_nat (split n)) with (Z.of_nat (n - split n)) by lia.
    rewrite IH by lia. simpl. by rewrite climb_snoc_eq.
Qed.

(** ** The loops of [verify_consistency] *)

(** Fold the proof along the given sides: [hash1] takes only left siblings. *)
Fixpoint fold_sides (ds : list side) (st : fold_state) : option fold_state :=
  match ds, st with
  | [], _ => Some st
  | d :: ds, (x :: iter, hash1, hash2) =>
      fold_sides ds (iter, match d with Lf => hash_children x hash1 | Rt => hash1 end,
                     step hash_children d x hash2)
  | _ :: _, ([], _, _) => None
  end.

Lemma fold_sides_app ds1 ds2 st : fold_sides (ds1 ++ ds2) st = fold_sides ds1 st ≫= fold_sides ds2.
Proof.
  revert st. induction ds1 as [|d ds1 IH]; intros [[it h1] h2]; [done|].
  destruct it; simpl; [done|]. apply IH.
Qed.

Lemma fold_sides_climb ds iter h1 h2 r1 r2 :
  fold_sides ds (iter, h1, h2) = Some ([], r1, r2)
  <-> climb hash_children ds iter h2 = Some r2 /\ climb_old hash_children ds iter h1 = r1.
Proof.
  revert iter h1 h2. induction ds as [|d ds IH]; intros iter h1 h2.
  - destruct iter; simpl; naive_solver.
  - destruct iter as [|x iter]; simpl; [naive_solver|]. rewrite IH. by destruct d.
Qed.

Lemma half_bound a f : Z.of_nat a < 2 ^ Z.of_nat (S f) -> Z.of_nat (a / 2) < 2 ^ Z.of_nat f.
Proof.
  rewrite Nat2Z.inj_succ, Z.pow_succ_r by lia. intros Ha. rewrite Nat2Z.inj_div.
  apply Z.div_lt_upper_bound; lia.
Qed.

(** One level of the sides, as the loops take them. *)
Lemma incl_dirs_halve a b :
  (a <= b)%nat -> (0 < b)%nat ->
  incl_dirs a (S b)
  = (if Nat.odd a then [Lf] else if (a <? b)%nat then [Rt] else []) ++ incl_dirs (a / 2) (S (b / 2)).
Proof.
  intros Hab Hb. rewrite incl_dirs_low by lia. unfold low_side.
  replace (S b - 1)%nat with b by lia. do 2 f_equal.
  replace (S b + 1)%nat with (b + 1 * 2)%nat by lia. rewrite Nat.div_add by lia. lia.
Qed.

Lemma last_loop_spec f b st :
  Z.of_nat b < 2 ^ Z.of_nat f ->
  last_loop (S f) (Z.of_nat b) st = Some (fold_sides (incl_dirs 0 (S b)) st).
Proof.
  revert b st. induction f as [|f IH]; intros b [[iter h1] h2] Hb.
  - assert (b = 0%nat) as -> by (simpl in Hb; lia). done.
  - pose proof (half_bound _ _ Hb) as Hb'.
    remember (S f) as f1. cbn [last_loop]. destruct (Z.ltb_spec 0 (Z.of_nat b)); cycle 1.
    { assert (b = 0%nat) as -> by lia. done. }
    rewrite incl_dirs_halve by lia. rewrite fold_sides_app.
    destruct (Nat.ltb_spec 0 b); [|lia].
    destruct iter as [|next iter]; [done|]. rewrite shiftr_nat.
    apply IH. exact Hb'.
Qed.

Lemma node_loop_spec f g a b st :
  (a <= b)%nat -> Z.of_nat a < 2 ^ Z.of_nat f -> Z.of_nat b < 2 ^ Z.of_nat g ->
  match node_loop (S f) (Z.of_nat a) (Z.of_nat b) st with
  | None => None
  | Some None => Some None
  | Some (Some (last_node, st)) => last_loop (S g) last_node st
  end = Some (fold_sides (incl_dirs a (S b)) st).
Proof.
  revert a b st. induction f as [|f IH]; intros a b [[iter h1] h2] Hab Ha Hb.
  - assert (a = 0%nat) as -> by (simpl in Ha; lia). by apply last_loop_spec.
  - pose proof (half_bound _ _ Ha) as Ha'.
    remember (S f) as f1. cbn [node_loop]. destruct (Z.ltb_spec 0 (Z.of_nat a)); cycle 1.
    { assert (a = 0%nat) as -> by lia. by apply last_loop_spec. }
    assert (forall st, match node_loop f1 (Z.of_nat (a / 2)) (Z.of_nat (b / 2)) st with
      | None => None
      | Some None => Some None
      | Some (Some (last_node, st)) => last_loop (S g) last_node st
      end = Some (fold_sides (incl_dirs (a / 2) (S (b / 2))) st)) as IH'.
    { intros st. apply IH; [by apply Nat.Div0.div_le_mono|exact Ha'|].
      pose proof (Nat.Div0.div_le_upper_bound b 2 b). lia. }
    rewrite incl_dirs_halve, fold_sides_app, !shiftr_nat, odd_nat by lia.
    destruct (Nat.odd a).
    { destruct iter as [|next iter]; [done|]. apply IH'. }
    destruct (Z.ltb_spec (Z.of_nat a) (Z.of_nat b)); destruct (Nat.ltb_spec a b); try lia.
    + destruct iter as [|next iter]; [done|]. apply IH'.
    + apply IH'.
Qed.

Lemma strip_loop_spec f m n :
  (0 < m < n)%nat -> Z.of_nat m <= 2 ^ Z.of_nat f ->
  exists a b, strip_loop (S f) (Z.of_nat m - 1) (Z.of_nat n - 1) = Some (Z.of_nat a, Z.of_nat b)
    /\ (a <= b < n)%nat /\ (a < m)%nat /\ incl_dirs a (S b) = cons_dirs m n.
Proof.
  revert m n. induction f as [|f IH]; intros m n Hmn Hm.
  - assert (m = 1%nat) as -> by (simpl in Hm; lia). exists 0%nat, (n - 1)%nat. simpl.
    split_and!; [do 2 f_equal; lia|lia..|].
    rewrite cons_dirs_odd by (lia || done). f_equal; lia.
  - remember (S f) as f1. cbn [strip_loop].
    replace (Z.of_nat m - 1) with (Z.of_nat (m - 1)) by lia.
    replace (Z.of_nat n - 1) with (Z.of_nat (n - 1)) by lia. rewrite odd_nat, !shiftr_nat.
    destruct (Nat.odd (m - 1)) eqn:Eo.
    + assert (Nat.odd m = false) as Em
        by (rewrite <- (Nat.sub_add 1 m), Nat.add_1_r, Nat.odd_succ, <- Nat.negb_odd by lia; by rewrite Eo).
      apply Nat.odd_spec in Eo as [q Eq].
      replace ((m - 1) / 2)%nat with q by (rewrite Eq, Nat.add_comm, Nat.mul_comm, Nat.div_add; done).
      pose proof (Nat.div_mod_eq (n - 1) 2) as Hd.
      pose proof (Nat.mod_upper_bound (n - 1) 2 ltac:(done)).
      destruct (IH (S q) (S ((n - 1) / 2))) as (a & b & Hs & Hab & Ha & Hdirs).
      { lia. }
      { rewrite Heqf1, Nat2Z.inj_succ, Z.pow_succ_r in Hm by lia. lia. }
      exists a, b. replace (Z.of_nat (S q) - 1) with (Z.of_nat q) in Hs by lia.
      replace (Z.of_nat (S ((n - 1) / 2)) - 1) with (Z.of_nat ((n - 1) / 2)) in Hs by lia.
      split_and!; [done|lia..|]. rewrite Hdirs, (cons_dirs_even m n) by (lia || done).
      f_equal; [replace m with (S q * 2)%nat by lia; by rewrite Nat.div_mul|].
      replace (n + 1)%nat with (n - 1 + 1 * 2)%nat by lia. rewrite Nat.div_add by lia. lia.
    + exists (m - 1)%nat, (n - 1)%nat. split_and!; [done|lia..|].
      replace (S (n - 1)) with n by lia. rewrite cons_dirs_odd; [done|lia..|].
      rewrite <- (Nat.sub_add 1 m), Nat.add_1_r, Nat.odd_succ, <- Nat.negb_odd by lia. by rewrite Eo.
Qed.

(** What [verify_consistency] decides on two different non-zero sizes. *)
Lemma verify_consistency_eq m n old_root new_root proof :
  (0 < m < n)%nat -> Z.of_nat n < 2 ^ 64 ->
  verify_consistency (Z.of_nat m) (Z.of_nat n) old_root new_root proof
  = Some (match (if is_power_of_two (Z.of_nat m) then [old_root] else []) ++ proof with
          | [] => false
          | first :: iter =>
              bool_decide (fold_sides (cons_dirs m n) (iter, first, first)
                           = Some ([], old_root, new_root))
          end).
Proof.
  intros Hmn Hn. unfold verify_consistency.
  destruct (Z.ltb_spec (Z.of_nat n) (Z.of_nat m)); [lia|].
  destruct (Z.eqb_spec (Z.of_nat m) (Z.of_nat n)); [lia|].
  destruct (Z.eqb_spec (Z.of_nat m) 0); [lia|].
  destruct (strip_loop_spec 64 m n) as (a & b & Hs & Hab & Ha & Hd); [done|lia|].
  rewrite Hs. cbn [mbind option_bind].
  destruct ((if is_power_of_two _ then _ else _) ++ proof) as [|first iter]; [done|].
  pose proof (node_loop_spec 64 64 a b (iter, first, first)) as Hl.
  rewrite <- Hd.
  specialize (Hl ltac:(lia) ltac:(lia) ltac:(lia)).
  destruct (node_loop 65 (Z.of_nat a) (Z.of_nat b) (iter, first, first))
    as [[[last st]|]|]; cbn [mbind option_bind]; [|injection Hl as <-; done|done].
  rewrite Hl. cbn [mbind option_bind].
  destruct (fold_sides (incl_dirs a (S b)) (iter, first, first)) as [[[it h1] h2]|]; [|done].
  f_equal. apply eq_bool_prop_intro. rewrite !andb_True, !bool_decide_spec.
  split; [by intros [[-> ->] ->]|by intros [= -> -> ->]].
Qed.

(** * Collisions *)

(** Two different byte strings, one of [xs] and one of [ys], with one digest. *)
Definition sha_collision (xs ys : list bytes) : Prop :=
  exists a b, a ∈ xs /\ b ∈ ys /\ a <> b /\ sha256 a = sha256 b.

(** The strings the tree of a log hashes for its interior nodes. *)
Definition log_inputs (log : TransparencyLog) : list bytes :=
  map (fun pq => node_input pq.1 pq.2) (tree_pairs hash_children empty_root (leaves log)).

(** The strings the inclusion verifier hashes. *)
Definition inclusion_inputs (leaf : bytes) (index tree_size : Z) (proof : list bytes)
  : list bytes :=
  map (fun pq => node_input pq.1 pq.2)
    (climb_pairs hash_children (incl_dirs (Z.to_nat index) (Z.to_nat tree_size)) proof leaf).

(** The strings the consistency verifier hashes for the new root. *)
Definition consistency_inputs (old_size new_size : Z) (old_root : bytes) (proof : list bytes)
  : list bytes :=
  match (if is_power_of_two old_size then [old_root] else []) ++ proof with
  | [] => []
  | first :: iter =>
      map (fun pq => node_input pq.1 pq.2)
        (climb_pairs hash_children (cons_dirs (Z.to_nat old_size) (Z.to_nat new_size)) iter first)
  end.

Lemma wf_hash_len h : wf_hash h = true <-> length h = 32%nat.
Proof. unfold wf_hash. apply bool_decide_eq_true. Qed.

Lemma hash_children_wf l r : wf_hash (hash_children l r) = true.
Proof. apply wf_hash_len, sha256_len. Qed.

Lemma empty_root_wf : wf_hash empty_root = true.
Proof. apply wf_hash_len, sha256_len. Qed.

Lemma node_input_inj l r l' r' :
  wf_hash l = true -> wf_hash l' = true -> node_input l r = node_input l' r' -> (l, r) = (l', r').
Proof.
  rewrite !wf_hash_len. intros Hl Hl' [= E]. apply app_inj_1 in E as [-> ->]; [done|congruence].
Qed.

Lemma collision_sha ds xs h l :
  Forall (fun h => wf_hash h = true) xs -> wf_hash h = true ->
  Forall (fun h => wf_hash h = true) l ->
  collision hash_children empty_root (climb_pairs hash_children ds xs h) l ->
  sha_collision (map (fun pq => node_input pq.1 pq.2) (climb_pairs hash_children ds xs h))
    (map (fun pq => node_input pq.1 pq.2) (tree_pairs hash_children empty_root l)).
Proof.
  intros Hxs Hh Hl (p & q & Hp & Hq & Hne & E).
  pose proof (climb_pairs_form hash_children _ hash_children_wf ds xs h Hxs Hh) as H1.
  pose proof (tree_pairs_form hash_children empty_root _ empty_root_wf hash_children_wf l Hl) as H2.
  rewrite Forall_forall in H1, H2. destruct (H1 p Hp) as [Hp1 _], (H2 q Hq) as [Hq1 _].
  exists (node_input p.1 p.2), (node_input q.1 q.2).
  split_and!; [by apply (list_elem_of_fmap_2 (fun pq => node_input pq.1 pq.2))
    |by apply (list_elem_of_fmap_2 (fun pq => node_input pq.1 pq.2))| |exact E].
  intros En. apply node_input_inj in En; [|done..]. destruct p, q. simpl in En. congruence.
Qed.

Lemma wf_log_inv log :
  wf_log log = true ->
  Forall (fun h => wf_hash h = true) (leaves log) /\ usize_len (leaves log) < 2 ^ 58.
Proof. unfold wf_log. rewrite andb_true_iff, forallb_Forall. intros [? ?%Z.ltb_lt]. done. Qed.

Lemma root_spec log : wf_log log = true -> root log = Some (MTH (leaves log)).
Proof. intros [_ Hb]%wf_log_inv. apply mth_spec. lia. Qed.

Lemma inclusion_proof_spec log i :
  wf_log log = true -> (i < length (leaves log))%nat ->
  inclusion_proof (Z.of_nat i) log = Some (Ok (PATH i (leaves log))).
Proof.
  intros [_ Hb]%wf_log_inv Hi. unfold inclusion_proof. unfold usize_len at 1.
  destruct (Z.leb_spec (Z.of_nat (length (leaves log))) (Z.of_nat i)); [lia|].
  unfold path. rewrite path_loop_spec by (done || lia). done.
Qed.

Lemma verify_inclusion_spec leaf i n proof r :
  (i < n)%nat -> Z.of_nat n <= 2 ^ 63 ->
  verify_inclusion leaf (Z.of_nat i) (Z.of_nat n) proof r
  = Some (bool_decide (climb hash_children (incl_dirs i n) proof leaf = Some r)).
Proof.
  intros Hi Hn. unfold verify_inclusion.
  destruct (Z.leb_spec (Z.of_nat n) (Z.of_nat i)); [lia|].
  unfold rebuild_root. rewrite rebuild_root_spec by lia. simpl. f_equal.
  destruct (climb hash_children (incl_dirs i n) proof leaf) as [c|]; [|done].
  apply bool_decide_ext. naive_solver.
Qed.

Lemma leaf_hash_nat log (index : Z) leaf :
  0 <= index -> leaf_hash index log = Some leaf ->
  exists i, index = Z.of_nat i /\ leaves log !! i = Some leaf /\ (i < length (leaves log))%nat.
Proof.
  unfold leaf_hash. intros Hi Hl. exists (Z.to_nat index).
  split_and!; [lia|done|]. by eapply lookup_lt_Some.
Qed.

(** Inclusion proofs are complete: for every leaf of the log the root and the
    proof are computed, and the verifier accepts them; an index past the end
    is reported as out of range. *)
Theorem inclusion_complete (log : TransparencyLog) (index : Z) :
  wf_log log = true -> 0 <= index ->
  match leaf_hash index log with
  | Some leaf => exists r p,
      root log = Some r /\ inclusion_proof index log = Some (Ok p)
      /\ verify_inclusion leaf index (len log) p r = Some true
  | None => inclusion_proof index log = Some (Err (IndexOutOfRange index (len log)))
  end.
Proof.
  intros Hw Hi. pose proof (wf_log_inv _ Hw) as [Hf Hb].
  destruct (leaf_hash index log) as [leaf|] eqn:E.
  - destruct (leaf_hash_nat _ _ _ Hi E) as (i & -> & Hl & Hlt).
    exists (MTH (leaves log)), (PATH i (leaves log)).
    rewrite root_spec, inclusion_proof_spec by done.
    split_and!; [done..|]. unfold len, usize_len in *. rewrite verify_inclusion_spec by lia.
    f_equal. apply bool_decide_true.
    by apply (climb_complete hash_children empty_root) with (s := [leaf]), PATH_locates.
  - unfold leaf_hash in E. apply lookup_ge_None in E. unfold inclusion_proof, len, usize_len.
    destruct (Z.leb_spec (Z.of_nat (length (leaves log))) index); [done|lia].
Qed.

Lemma verified_leaf log leaf index proof r :
  wf_log log = true -> wf_hash leaf = true -> forallb wf_hash proof = true -> 0 <= index ->
  root log = Some r -> verify_inclusion leaf index (len log) proof r = Some true ->
  (leaf_hash index log = Some leaf /\ proof = PATH (Z.to_nat index) (leaves log))
  \/ sha_collision (inclusion_inputs leaf index (len log) proof) (log_inputs log).
Proof.
  intros Hw Hleaf Hproof%forallb_Forall Hi Hr Hv. pose proof (wf_log_inv _ Hw) as [Hf Hb].
  rewrite root_spec in Hr by done. injection Hr as <-.
  assert (Z.to_nat index < length (leaves log))%nat as Hlt.
  { unfold verify_inclusion, len, usize_len in Hv.
    destruct (Z.leb_spec (Z.of_nat (length (leaves log))) index); [done|lia]. }
  assert (exists i, index = Z.of_nat i) as [i ->] by (exists (Z.to_nat index); lia).
  rewrite Nat2Z.id in Hlt.
  unfold len, usize_len in *. rewrite verify_inclusion_spec in Hv by lia.
  injection Hv as Hc%bool_decide_eq_true.
  destruct (lookup_lt_is_Some_2 _ _ Hlt) as [x Hx].
  pose proof (PATH_locates hash_children empty_root i (leaves log) x Hx) as Hloc.
  destruct (climb_sound hash_children empty_root _ _ _ _ _ _ Hloc Hc) as [[-> ->]|Hcol].
  - left. unfold leaf_hash. by rewrite Nat2Z.id.
  - right. unfold inclusion_inputs, log_inputs. rewrite !Nat2Z.id. by apply collision_sha.
Qed.

(** C2: Inclusion proofs are sound: a proof the verifier accepts against the root
    and size of a log is the proof of the log's own leaf at that index, or the
    run exhibits a SHA-256 collision between an input of the verifier and an
    input of the tree. *)
Theorem inclusion_sound (log : TransparencyLog) (leaf : bytes) (index : Z) (proof : list bytes)
    (r : bytes) :
  wf_log log = true -> wf_hash leaf = true -> forallb wf_hash proof = true -> 0 <= index ->
  root log = Some r -> verify_inclusion leaf index (len log) proof r = Some true ->
  (leaf_hash index log = Some leaf /\ inclusion_proof index log = Some (Ok proof))
  \/ sha_collision (inclusion_inputs leaf index (len log) proof) (log_inputs log).
Proof.
  intros Hw Hleaf Hproof Hi Hr Hv.
  destruct (verified_leaf log leaf index proof r) as [[Hl ->]|Hcol]; [done..| |by right].
  left. split; [done|]. destruct (leaf_hash_nat _ _ _ Hi Hl) as (i & -> & _ & Hlt).
  rewrite Nat2Z.id. by apply inclusion_proof_spec.
Qed.

Lemma consistency_proof_spec log m :
  wf_log log = true -> (0 < m < length (leaves log))%nat ->
  consistency_proof (Z.of_nat m) log = Some (Ok (SUBPROOF m (leaves log) true)).
Proof.
  intros [_ Hb]%wf_log_inv Hm. unfold consistency_proof, usize_len in *.
  destruct (Z.ltb_spec (Z.of_nat (length (leaves log))) (Z.of_nat m)); [lia|].
  destruct (Z.eqb_spec (Z.of_nat m) 0); [lia|].
  destruct (Z.eqb_spec (Z.of_nat m) (Z.of_nat (length (leaves log)))); [lia|].
  simpl. unfold subproof. rewrite subproof_loop_spec by (unfold usize_len; lia). done.
Qed.

(** The sides of the old tree are all right siblings exactly for the sizes the
    code treats as powers of two. *)
Lemma all_right_pow2 m n :
  (0 < m < n)%nat -> all_right (cons_dirs m n) = is_power_of_two (Z.of_nat m).
Proof.
  intros Hmn. apply eq_true_iff_eq. rewrite is_power_of_two_nat by lia.
  apply cons_dirs_all_right; lia.
Qed.

Lemma wf_log_prefix old log more :
  wf_log log = true -> leaves log = leaves old ++ more -> wf_log old = true.
Proof.
  intros [Hf Hb]%wf_log_inv E. unfold wf_log. rewrite E in Hf, Hb.
  apply Forall_app in Hf as [? _]. unfold usize_len in *. rewrite length_app in Hb.
  apply andb_true_iff. rewrite forallb_Forall. split; [done|lia].
Qed.

(** The proper case of completeness: a non-empty proper prefix. *)
Lemma consistency_complete_proper log m :
  wf_log log = true -> (0 < m < length (leaves log))%nat ->
  verify_consistency (Z.of_nat m) (len log) (MTH (take m (leaves log))) (MTH (leaves log))
    (SUBPROOF m (leaves log) true) = Some true.
Proof.
  intros [_ Hb]%wf_log_inv Hm. unfold len, usize_len in *.
  rewrite verify_consistency_eq by lia. f_equal.
  destruct (SUBPROOF_locates hash_children empty_root m (leaves log))
    as (s & xs & Hloc & Hold & Hsub & Hall); [lia..|].
  rewrite (Hsub true). simpl andb. rewrite all_right_pow2 in * by lia.
  apply (climb_complete hash_children empty_root) in Hloc.
  assert (fold_sides (cons_dirs m (length (leaves log))) (xs, MTH s, MTH s)
          = Some ([], MTH (take m (leaves log)), MTH (leaves log))) as Hfold
    by (by apply fold_sides_climb).
  destruct (is_power_of_two _); simpl; [rewrite (Hall eq_refl) in *|]; by apply bool_decide_true.
Qed.

(** Consistency proofs are complete: for a log and any extension of it, the
    proof for the old size is computed and the verifier accepts it between
    the two roots. *)
Theorem consistency_complete (old log : TransparencyLog) (more : list bytes) :
  wf_log log = true -> leaves log = leaves old ++ more ->
  exists r0 r p,
    root old = Some r0 /\ root log = Some r
    /\ consistency_proof (len old) log = Some (Ok p)
    /\ verify_consistency (len old) (len log) r0 r p = Some true.
Proof.
  intros Hw E. pose proof (wf_log_prefix _ _ _ Hw E) as Hw0.
  exists (MTH (leaves old)), (MTH (leaves log)). rewrite !root_spec by done.
  destruct (decide (leaves old = [])) as [E0|Hne0].
  { exists []. rewrite E0 in *. simpl app in E. unfold len, consistency_proof, verify_consistency.
    rewrite E0, E. destruct more as [|x more]; [|done].
    split_and!; [done..|]. by rewrite !bool_decide_true. }
  assert (0 < length (leaves old))%nat by (destruct (leaves old); simpl; [done|lia]).
  destruct more as [|x more].
  { exists []. rewrite app_nil_r in E. unfold len, consistency_proof, verify_consistency.
    rewrite E, Z.ltb_irrefl, Z.eqb_refl, orb_true_r. rewrite !bool_decide_true by done. done. }
  assert (0 < length (leaves old) < length (leaves log))%nat as Hlt
    by (rewrite E, length_app; simpl; lia).
  exists (SUBPROOF (length (leaves old)) (leaves log) true).
  split_and!; [done..|by apply consistency_proof_spec|].
  rewrite <- (consistency_complete_proper log (length (leaves old)) Hw Hlt).
  by rewrite E, take_app_length.
Qed.

(** An empty old tree takes the empty proof only. *)
Lemma consistency_from_empty new_size old_root new_root proof :
  verify_consistency 0 new_size old_root new_root proof = Some true -> proof = [].
Proof.
  unfold verify_consistency. destruct (Z.ltb_spec new_size 0); [done|]. destruct (Z.eqb_spec 0 new_size).
  - by intros [= [Hp _]%andb_true_iff]; apply bool_decide_eq_true in Hp.
  - by intros [= Hp]; apply bool_decide_eq_true in Hp.
Qed.


(** The verifiers return for every proof: inclusion for tree sizes up to
    [2^63], consistency for all pairs of machine sizes; but inclusion with a
    larger tree size and a non-empty proof never returns (whatever the fuel
    of the recursion, it is the loop of [split_point] that does not end). *)
Theorem verifiers_return (leaf : bytes) (index size old : Z) (proof : list bytes)
    (r0 r : bytes) :
  (0 <= index -> is_usize size = true -> is_usize old = true ->
     is_Some (verify_consistency old size r0 r proof)
     /\ (size <= 2 ^ 63 -> is_Some (verify_inclusion leaf index size proof r)))
  /\ (0 <= index < size -> 2 ^ 63 < size -> proof <> [] ->
        verify_inclusion leaf index size proof r = None).
Proof.
  unfold is_usize, is_u64. split.
  - intros Hi Hs Ho.
    assert (exists n, size = Z.of_nat n) as [n ->] by (exists (Z.to_nat size); lia).
    assert (exists m, old = Z.of_nat m) as [m ->] by (exists (Z.to_nat old); lia).
    split.
    + destruct (decide (0 < m < n)%nat).
      { rewrite verify_consistency_eq by lia. done. }
      unfold verify_consistency. destruct (Z.ltb_spec (Z.of_nat n) (Z.of_nat m)); [done|].
      destruct (Z.eqb_spec (Z.of_nat m) (Z.of_nat n)); [done|].
      destruct (Z.eqb_spec (Z.of_nat m) 0); [done|lia].
    + intros Hn. destruct (decide (index < Z.of_nat n)) as [Hlt|Hge].
      { rewrite <- (Z2Nat.id index) by done. rewrite verify_inclusion_spec by lia. done. }
      unfold verify_inclusion. destruct (Z.leb_spec (Z.of_nat n) index); [done|lia].
  - intros Hi Hs Hne. unfold verify_inclusion, rebuild_root.
    destruct (Z.leb_spec size index); [lia|]. cbn [rebuild_root_loop].
    destruct (Z.eqb_spec size 1); [lia|].
    destruct (split_last proof) as [[sib rest]|] eqn:E; [|by apply split_last_None in E].
    unfold split_point. rewrite (split_loop_diverges 64 0) by lia. done.
Qed.
End LogProofs.

(** * Witnesses *)

Definition ex_log (n : nat) : TransparencyLog :=
  {| leaves := map (fun i => @hash_leaf mix_sha256 (to_le 8 (Z.of_nat i))) (seq 0 n) |}.
Definition ex_root (n : nat) : bytes :=
  match @root mix_sha256 (ex_log n) with Some r => r | None => [] end.
Definition ex_path (i : Z) (n : nat) : list bytes :=
  match @inclusion_proof mix_sha256 i (ex_log n) with Some (Ok p) => p | _ => [] end.
Definition ex_cons (m : Z) (n : nat) : list bytes :=
  match @consistency_proof mix_sha256 m (ex_log n) with Some (Ok p) => p | _ => [] end.

Lemma inclusion_complete_witness :
  exists r p, @root mix_sha256 (ex_log 5) = Some r
    /\ @inclusion_proof mix_sha256 3 (ex_log 5) = Some (Ok p)
    /\ @verify_inclusion mix_sha256 (@hash_leaf mix_sha256 (to_le 8 3)) 3 5 p r = Some true.
Proof.
  exact (@inclusion_complete mix_sha256 (ex_log 5) 3 ltac:(vm_compute; reflexivity) ltac:(lia)).
Defined.

Lemma inclusion_sound_witness :
  (leaf_hash 3 (ex_log 5) = Some (@hash_leaf mix_sha256 (to_le 8 3))
   /\ @inclusion_proof mix_sha256 3 (ex_log 5) = Some (Ok (ex_path 3 5)))
  \/ @sha_collision mix_sha256
       (@inclusion_inputs mix_sha256 (@hash_leaf mix_sha256 (to_le 8 3)) 3 5 (ex_path 3 5))
       (@log_inputs mix_sha256 (ex_log 5)).
Proof.
  apply (@inclusion_sound mix_sha256 (ex_log 5) (@hash_leaf mix_sha256 (to_le 8 3)) 3
           (ex_path 3 5) (ex_root 5)); (lia || (vm_compute; reflexivity)).
Defined.

Lemma consistency_complete_witness :
  exists r0 r p, @root mix_sha256 (ex_log 6) = Some r0 /\ @root mix_sha256 (ex_log 7) = Some r
    /\ @consistency_proof mix_sha256 6 (ex_log 7) = Some (Ok p)
    /\ @verify_consistency mix_sha256 6 7 r0 r p = Some true.
Proof.
  exact (@consistency_complete mix_sha256 (ex_log 6) (ex_log 7)
           [@hash_leaf mix_sha256 (to_le 8 6)] ltac:(vm_compute; reflexivity) eq_refl).
Defined.


Lemma verifiers_return_witness :
  is_Some (@verify_consistency mix_sha256 3 (2 ^ 64 - 1) [] [] [])
  /\ is_Some (@verify_inclusion mix_sha256 [] 1 (2 ^ 63) [] [])
  /\ @verify_inclusion mix_sha256 [] 1 (2 ^ 63 + 1) [[]] [] = None.
Proof.
  pose proof (@verifiers_return mix_sha256 [] 1 (2 ^ 64 - 1) 3 [] [] []) as [H1 _].
  pose proof (@verifiers_return mix_sha256 [] 1 (2 ^ 63) 3 [] [] []) as [H2 _].
  pose proof (@verifiers_return mix_sha256 [] 1 (2 ^ 63 + 1) 3 [[]] [] []) as [_ H3].
  split; [apply (proj1 (H1 ltac:(lia) eq_refl eq_refl))|].
  split; [apply (proj2 (H2 ltac:(lia) eq_refl eq_refl)); lia|apply H3; (lia || discriminate)].
Defined.

Lemma split_point_spec_witness :
  (exists p, 0 <= p /\ split_point 6 = Some (2 ^ p) /\ 2 ^ p < 6 <= 2 * 2 ^ p)
  /\ split_loop 1000 1 (2 ^ 63 + 1) = None.
Proof.
  split; [apply (split_point_spec 6); lia|].
  apply (split_point_spec (2 ^ 63 + 1)); lia.
Defined.

(** The leaves of the transparency log, [crates/sync-store/src/tlog/mod.rs]: a
    leaf is the canonical encoding of a commit, so an accepted inclusion proof
    pins down the commit itself. *)

Section CommitLog.
Context `{Sha256}.

Definition commit_leaf_data (c : Commit) : res bytes := commit_encode c.

Definition commit_leaf_hash (c : Commit) : res bytes :=
  data ← commit_leaf_data c; mret (hash_leaf data).

(** Append the leaves of a commit spine, in order. *)
Fixpoint append_commits (cs : list Commit) (log : TransparencyLog) : res TransparencyLog :=
  match cs with
  | [] => Ok log
  | c :: cs => h ← commit_leaf_hash c; append_commits cs (append_leaf_hash h log).2
  end.

(** The strings hashed for the leaves of the commits. *)
Definition leaf_inputs (cs : list Commit) : list bytes :=
  map (fun c => LEAF_PREFIX :: unwrap_or [] (commit_leaf_data c)) cs.

Lemma append_commits_leaves cs log log' :
  append_commits cs log = Ok log' ->
  exists hs, leaves log' = leaves log ++ hs /\ Forall2 (fun c h => commit_leaf_hash c = Ok h) cs hs.
Proof.
  revert log. induction cs as [|c cs IH]; intros log; simpl.
  - intros [= <-]. exists []. by rewrite app_nil_r.
  - intros (h & Hh & Ha)%bind_Ok. destruct (IH _ Ha) as (hs & E & Hf).
    exists (h :: hs). split; [|by constructor]. rewrite E. simpl. by rewrite <- app_assoc.
Qed.

(** The encoding determines the commit. *)
Lemma commit_encode_inj c1 c2 b :
  wf_commit c1 = true -> valid_commit c1 -> wf_commit c2 = true -> valid_commit c2 ->
  commit_encode c1 = Ok b -> commit_encode c2 = Ok b -> c1 = c2.
Proof.
  intros. apply (Ok_inj (E := cerror)).
  rewrite <- (commit_encode_decodes c1 b) by done. by apply commit_encode_decodes.
Qed.

(** A commit is bound by the log: if the inclusion of a commit's leaf hash is
    accepted at an index against the root and size of the log of a commit
    spine, then that commit is the one of the spine at that index, or there is
    a SHA-256 collision, among interior nodes or among leaves. *)
Theorem commit_inclusion_binds (cs : list Commit) (log : TransparencyLog) (c : Commit)
    (h r : bytes) (index : Z) (proof : list bytes) :
  Forall (fun c => wf_commit c = true /\ valid_commit c) (c :: cs) ->
  append_commits cs new = Ok log -> wf_log log = true ->
  commit_leaf_hash c = Ok h -> root log = Some r ->
  0 <= index -> forallb wf_hash proof = true ->
  verify_inclusion h index (len log) proof r = Some true ->
  cs !! Z.to_nat index = Some c
  \/ sha_collision (inclusion_inputs h index (len log) proof) (log_inputs log)
  \/ sha_collision (leaf_inputs [c]) (leaf_inputs cs).
Proof.
  intros [[Hwc Hvc] Hcs]%Forall_cons Hlog Hw Hh Hr Hi Hp Hv.
  destruct (append_commits_leaves _ _ _ Hlog) as (hs & E & Hf). simpl in E.
  assert (wf_hash h = true) as Hwh.
  { unfold commit_leaf_hash in Hh. inv_ok. apply wf_hash_len, sha256_len. }
  destruct (verified_leaf log h index proof r) as [[Hl _]|Hcol]; [done..| |by right; left].
  unfold leaf_hash in Hl. rewrite E in Hl.
  destruct (Forall2_lookup_r _ _ _ _ _ Hf Hl) as (c' & Hc' & Hh').
  pose proof Hcs as Hcs'. rewrite Forall_lookup in Hcs'. destruct (Hcs' _ _ Hc') as [Hwc' Hvc'].
  unfold commit_leaf_hash in Hh, Hh'.
  apply bind_Ok in Hh as (b & Hb & Hh). apply bind_Ok in Hh' as (b' & Hb' & Hh').
  destruct (decide (b = b')) as [->|Hne].
  - left. by rewrite (commit_encode_inj c c' b').
  - right. right. exists (LEAF_PREFIX :: b), (LEAF_PREFIX :: b'). unfold leaf_inputs.
    split_and!.
    + apply list_elem_of_singleton. simpl. by rewrite Hb.
    + apply (list_elem_of_fmap_2' _ _ c'); [by eapply list_elem_of_lookup_2|]. by rewrite Hb'.
    + congruence.
    + apply Ok_inj in Hh, Hh'. unfold hash_leaf in *. congruence.
Qed.
End CommitLog.

(** * Witness *)

Definition ex_spine : list Commit := [ex_commit 1; ex_commit 2; ex_commit 3].
Definition ex_spine_log : TransparencyLog :=
  unwrap_or new (@append_commits mix_sha256 ex_spine new).
Definition ex_spine_root : bytes :=
  match @root mix_sha256 ex_spine_log with Some r => r | None => [] end.
Definition ex_spine_proof : list bytes :=
  match @inclusion_proof mix_sha256 2 ex_spine_log with Some (Ok p) => p | _ => [] end.
Definition ex_leaf : bytes := unwrap_or [] (@commit_leaf_hash mix_sha256 (ex_commit 3)).

Lemma ex_changes_valid : Forall valid_change (rev ex_changes).
Proof.
  apply Forall_forall. intros c Hc. unfold ex_changes in Hc. simpl in Hc.
  repeat (apply elem_of_cons in Hc as [->|Hc]); [..|by apply elem_of_nil in Hc];
    (split; [vm_compute; reflexivity|split; intros r; simpl; intros [= <-]; vm_compute; reflexivity]).
Qed.

Lemma commit_inclusion_binds_witness :
  ex_spine !! Z.to_nat 2 = Some (ex_commit 3)
  \/ @sha_collision mix_sha256
       (@inclusion_inputs mix_sha256 ex_leaf 2 (len ex_spine_log) ex_spine_proof)
       (@log_inputs mix_sha256 ex_spine_log)
  \/ @sha_collision mix_sha256 (leaf_inputs [ex_commit 3]) (leaf_inputs ex_spine).
Proof.
  apply (@commit_inclusion_binds mix_sha256 ex_spine ex_spine_log (ex_commit 3) ex_leaf
           ex_spine_root 2 ex_spine_proof).
  - assert (forall n, n ∈ [1; 2; 3] ->
      wf_commit (ex_commit n) = true /\ valid_commit (ex_commit n)) as Hv.
    { intros n Hn. repeat (apply elem_of_cons in Hn as [->|Hn]); [..|by apply elem_of_nil in Hn];
        (split; [vm_compute; reflexivity|split; [vm_compute; reflexivity|]]);
        exact ex_changes_valid. }
    unfold ex_spine. rewrite !Forall_cons. split_and!; [apply Hv; set_solver..|constructor].
  - vm_compute. reflexivity.
  - vm_compute. reflexivity.
  - vm_compute. reflexivity.
  - vm_compute. reflexivity.
  - lia.
  - vm_compute. reflexivity.
  - vm_compute. reflexivity.
Defined.
