(* ===== verification/TileLog.v ===== *)
(** The tile log, [crates/sync-store/src/tlog/tiles.rs]: reading tiles in any of
    their on-disk representations, the incremental session that appends leaves,
    the whole-tree writer, and the order of the writes. *)

From stdpp Require Import base list numbers sets sorting gmap strings options.
From Stdlib Require Import ZArith Lia.
From S2P Require Import Prelude RustStd RustText Wire MerkleTree LogMerkle Disk Checkpoint TilePaths.

Open Scope Z_scope.

Definition HASH_LEN : Z := 32.
Definition MAX_TILE_LEVELS : nat := 9.

(** The order in which [read_dir] yields the entries of a directory is up to
    the operating system. *)
Class DirOrder := {
  dir_order : list bytes -> list bytes;
  dir_order_perm : forall l, dir_order l ≡ₚ l;
}.

Definition blen (b : bytes) : Z := Z.of_nat (length b).

(** * Directories *)

Definition no_slash (l : bytes) : bool := forallb (fun c => negb (bool_decide (c = SLASH))) l.

(** The name of [p] as an entry of the directory [dir]. *)
Definition entry_name (dir p : bytes) : option bytes :=
  name ← strip_prefix (dir ++ [SLASH]) p;
  if negb (bool_decide (name = [])) && no_slash name then Some name else None.

Definition read_dir `{DirOrder} (dir : bytes) (d : disk) : list bytes :=
  dir_order (omap (entry_name dir) (map fst (map_to_list d))).

(** [file_name().to_str().and_then(|s| s.parse::<usize>().ok())] *)
Definition entry_width (name : bytes) : option Z :=
  if utf8_valid name then parse_u64 name else None.

(** * Reading a tile *)

(** The narrowest variant of at least [count] hashes, so far [best]. *)
Definition better (count : Z) (best : option (Z * bytes)) (name : bytes) : option (Z * bytes) :=
  match entry_width name with
  | None => best
  | Some width =>
      if (count <=? width) && match best with None => true | Some (bw, _) => width <? bw end
      then Some (width, name) else best
  end.

Definition read_tile_at_least `{DirOrder} (level n count : Z) (d : disk) : outcome io_error bytes :=
  let need := count * HASH_LEN in
  let enough p := match d !! p with Some b => if need <=? blen b then Some b else None | None => None end in
  match enough (data_tile_rel level n TILE_WIDTH) with
  | Some b => Ok b
  | None =>
      match (if (0 <? count) && (count <? TILE_WIDTH) then enough (data_tile_rel level n count) else None) with
      | Some b => Ok b
      | None =>
          match fold_left (better count) (read_dir (partial_dir level n) d) None with
          | None => Err NotFound
          | Some (_, name) =>
              b ← fs_read (partial_entry level n name) d;
              if need <=? blen b then Ok b else Err NotFound
          end
      end
  end.

(** [bytes_to_hashes]: the complete 32-byte chunks. *)
Fixpoint chunks32 (fuel : nat) (b : bytes) : list bytes :=
  match fuel with
  | O => []
  | S fuel => if (32 <=? length b)%nat then take 32 b :: chunks32 fuel (drop 32 b) else []
  end.
Definition bytes_to_hashes (b : bytes) : list bytes := chunks32 (length b) b.

(** * Writing tiles *)

Definition prune_partial_variants `{DirOrder} (level n : Z) (keep : option Z) : Io io_error unit := fun d =>
  (Ok tt, map (fun name => RemoveFile (partial_entry level n name))
            (filter (fun name => entry_width name <> keep) (read_dir (partial_dir level n) d))).

(** Write a tile, then drop the variants it supersedes. *)
Definition put_tile `{DirOrder} (level n width : Z) (b : bytes) : Io io_error unit :=
  _ ← write_atomic (data_tile_rel level n width) b;
  prune_partial_variants level n (if width =? TILE_WIDTH then None else Some width).

(** * Perfect folds *)

Section Hashing.
Context `{Sha256}.

(** [as_chunks::<2>] drops an odd last element. *)
Definition pair_level (l : list bytes) : list bytes := pair_up hash_children l.

Fixpoint fold_perfect_loop (fuel : nat) (level : list bytes) : outcome io_error bytes :=
  match level with
  | [] => Panic
  | [h] => Ok h
  | _ => match fuel with O => Panic | S fuel => fold_perfect_loop fuel (pair_level level) end
  end.

Definition fold_perfect (hashes : list bytes) : outcome io_error bytes :=
  fold_perfect_loop (length hashes) hashes.

(** * The incremental session *)

Record TileSession := {
  tiles : gmap (Z * Z) bytes;
  dirty : gset (Z * Z);
  count_open : list Z;
  count : list Z;
}.

(** [open]: the stored-hash count of each level. *)
Definition session_open (old : Z) : TileSession :=
  let counts := map (fun level => let shift := TILE_HEIGHT_BITS * Z.of_nat level in
                                  if 64 <=? shift then 0 else Z.shiftr old shift)
                    (seq 0 MAX_TILE_LEVELS) in
  {| tiles := ∅; dirty := ∅; count_open := counts; count := counts |}.

(** A session method: reads the disk, changes the session. *)
Definition Sess (A : Type) : Type := TileSession -> outcome io_error A * TileSession.

#[global] Instance Sess_ret : MRet Sess := fun A a s => (Ok a, s).
#[global] Instance Sess_bind : MBind Sess := fun A B k m s =>
  match m s with
  | (Ok a, s) => k a s
  | (Err e, s) => (Err e, s)
  | (Panic, s) => (Panic, s)
  end.
Definition sess_lift {A} (m : outcome io_error A) : Sess A := fun s => (m, s).

Definition get_tile (key : Z * Z) : Sess (option bytes) := fun s => (Ok (tiles s !! key), s).
Definition put_buf (key : Z * Z) (b : bytes) : Sess unit := fun s =>
  (Ok tt, {| tiles := <[key := b]> (tiles s); dirty := dirty s; count_open := count_open s; count := count s |}).
Definition mark_dirty (key : Z * Z) : Sess unit := fun s =>
  (Ok tt, {| tiles := tiles s; dirty := {[key]} ∪ dirty s; count_open := count_open s; count := count s |}).
(** [self.count[level]], out of range a panic. *)
Definition level_count (counts : list Z) (level : Z) : outcome io_error Z :=
  match counts !! Z.to_nat level with Some c => Ok c | None => Panic end.
Definition get_count_open (level : Z) : Sess Z := fun s => (level_count (count_open s) level, s).
Definition get_count (level : Z) : Sess Z := fun s => (level_count (count s) level, s).
Definition set_count (level c : Z) : Sess unit := fun s =>
  (Ok tt, {| tiles := tiles s; dirty := dirty s; count_open := count_open s;
             count := <[Z.to_nat level := c]> (count s) |}).

(** [&buf[lo..hi]] *)
Definition byte_slice (b : bytes) (lo hi : Z) : outcome io_error bytes :=
  if (lo <=? hi) && (hi <=? blen b) then Ok (take (Z.to_nat (hi - lo)) (drop (Z.to_nat lo) b)) else Panic.

(** [buf.resize(n, 0)] to a larger length. *)
Definition grow (b : bytes) (n : Z) : bytes :=
  if blen b <? n then b ++ repeat Byte.x00 (Z.to_nat (n - blen b)) else b.

(** [buf[lo..lo + 32].copy_from_slice(hash)] *)
Definition overwrite (b : bytes) (lo : Z) (hash : bytes) : bytes :=
  take (Z.to_nat lo) b ++ hash ++ drop (Z.to_nat lo + length hash) b.

Definition saturating_sub (a b : Z) : Z := Z.max 0 (a - b).

Section Session.
Context `{DirOrder}.
(** The log directory as the session found it. *)
Variable d : disk.

Definition ensure_loaded (level tile_index : Z) : Sess unit :=
  cached ← get_tile (level, tile_index);
  match cached with
  | Some _ => mret tt
  | None =>
      open ← get_count_open level;
      let available := saturating_sub open (tile_index * TILE_WIDTH) in
      let width := Z.min TILE_WIDTH available in
      b ← (if 0 <? width then
             disk ← sess_lift (read_tile_at_least level tile_index width d);
             if blen disk <? width * HASH_LEN then sess_lift (Err InvalidData)
             else sess_lift (byte_slice disk 0 (width * HASH_LEN))
           else mret []);
      put_buf (level, tile_index) b
  end.

Definition set_stored (level index : Z) (hash : bytes) : Sess unit :=
  let tile_index := index / TILE_WIDTH in
  _ ← ensure_loaded level tile_index;
  let pos := index mod TILE_WIDTH in
  cached ← get_tile (level, tile_index);
  match cached with
  | None => sess_lift Panic
  | Some buf =>
      _ ← put_buf (level, tile_index) (overwrite (grow buf ((pos + 1) * HASH_LEN)) (pos * HASH_LEN) hash);
      _ ← mark_dirty (level, tile_index);
      c ← get_count level;
      if c <? index + 1 then set_count level (index + 1) else mret tt
  end.

Definition read_stored (level index : Z) : Sess bytes :=
  let tile_index := index / TILE_WIDTH in
  _ ← ensure_loaded level tile_index;
  cached ← get_tile (level, tile_index);
  match cached with
  | None => sess_lift Panic
  | Some buf =>
      let pos := index mod TILE_WIDTH in
      sess_lift (byte_slice buf (pos * HASH_LEN) ((pos + 1) * HASH_LEN))
  end.

Definition full_tile_hashes (level tile_index : Z) : Sess (list bytes) :=
  cached ← get_tile (level, tile_index);
  buf ← match cached with
        | Some buf => mret buf
        | None =>
            disk ← sess_lift (fs_read (data_tile_rel level tile_index TILE_WIDTH) d);
            _ ← put_buf (level, tile_index) disk;
            mret disk
        end;
  if blen buf <? TILE_WIDTH * HASH_LEN then sess_lift (Err InvalidData)
  else b ← sess_lift (byte_slice buf 0 (TILE_WIDTH * HASH_LEN)); mret (bytes_to_hashes b).

(** The recursion of [cascade] goes up one level each time and stops at
    [MAX_TILE_LEVELS]. *)
Fixpoint cascade_loop (fuel : nat) (level tile_index : Z) : Sess unit :=
  match fuel with
  | O => mret tt
  | S fuel =>
      let next_level := level + 1 in
      if Z.of_nat MAX_TILE_LEVELS <=? next_level then mret tt else
      hashes ← full_tile_hashes level tile_index;
      folded ← sess_lift (fold_perfect hashes);
      _ ← set_stored next_level tile_index folded;
      if tile_index mod TILE_WIDTH =? TILE_WIDTH - 1
      then cascade_loop fuel next_level (tile_index / TILE_WIDTH) else mret tt
  end.

Definition cascade : Z -> Z -> Sess unit := cascade_loop MAX_TILE_LEVELS.

Definition push_leaf (index : Z) (leaf : bytes) : Sess unit :=
  _ ← set_stored 0 index leaf;
  if index mod TILE_WIDTH =? TILE_WIDTH - 1 then cascade 0 (index / TILE_WIDTH) else mret tt.

(** The loop over the appended hashes; the index after the last one. *)
Fixpoint push_leaves (index : Z) (hashes : list bytes) : Sess Z :=
  match hashes with
  | [] => mret index
  | h :: hashes => _ ← push_leaf index h; push_leaves (index + 1) hashes
  end.

Fixpoint read_all_stored (level : Z) (indices : list Z) : Sess (list bytes) :=
  match indices with
  | [] => mret []
  | i :: indices => h ← read_stored level i; rest ← read_all_stored level indices; mret (h :: rest)
  end.

Definition perfect_hash (tree_level idx : Z) : Sess bytes :=
  let tile_level := tree_level / TILE_HEIGHT_BITS in
  let j := tree_level mod TILE_HEIGHT_BITS in
  if j =? 0 then read_stored tile_level idx else
  let base := Z.shiftl idx j in
  children ← read_all_stored tile_level (map (fun t => base + t) (seqZ 0 (Z.shiftl 1 j)));
  sess_lift (fold_perfect children).

(** The frontier walk of [tree_head] over the tree levels, highest first. *)
Fixpoint frontier_walk (levels : list Z) (pos remaining : Z) : Sess (list bytes) :=
  match levels with
  | [] => mret []
  | tree_level :: levels =>
      let size := Z.shiftl 1 tree_level in
      if Z.land remaining size =? 0 then frontier_walk levels pos remaining else
      h ← perfect_hash tree_level (Z.shiftr pos tree_level);
      rest ← frontier_walk levels (pos + size) (Z.lxor remaining size);
      mret (h :: rest)
  end.

Definition tree_levels : list Z := rev (seqZ 0 64).

Definition tree_head (n : Z) : Sess bytes :=
  subtrees ← frontier_walk tree_levels 0 n;
  match rev subtrees with
  | [] => sess_lift Panic
  | acc :: rest => mret (fold_left (fun acc left => hash_children left acc) rest acc)
  end.
End Session.

(** * Flushing *)

Definition key_cmp : Z * Z -> Z * Z -> comparison :=
  then_cmp (cmp_on fst Z.compare) (cmp_on snd Z.compare).

Section Flush.
Context `{DirOrder}.

Definition flush_tile (s : TileSession) (key : Z * Z) : Io io_error unit :=
  let '(level, tile_index) := key in
  c ← io_look (fun _ => level_count (count s) level);
  let available := saturating_sub c (tile_index * TILE_WIDTH) in
  let width := Z.min TILE_WIDTH available in
  buf ← io_look (fun _ => match tiles s !! key with
                          | Some buf => byte_slice buf 0 (width * HASH_LEN) | None => Panic end);
  put_tile level tile_index width buf.

Fixpoint flush_tiles (s : TileSession) (keys : list (Z * Z)) : Io io_error unit :=
  match keys with
  | [] => mret tt
  | key :: keys => _ ← flush_tile s key; flush_tiles s keys
  end.

Definition flush (s : TileSession) : Io io_error unit :=
  flush_tiles s (sort_by key_cmp (elements (dirty s))).
End Flush.

(** * The log *)

Section Log.
Context `{DirOrder, Base64}.
Variable log_origin : bytes.

Definition io_err {A} (m : Io io_error A) : Io CheckpointError A := fun d =>
  let '(r, ops) := m d in (map_err IoError r, ops).

(** [size] *)
Definition log_size (d : disk) : outcome CheckpointError Z :=
  cp ← cp_read d; mret (match cp with Some c => size c | None => 0 end).

Definition read_tile_hashes (level n count : Z) (d : disk) : outcome CheckpointError (list bytes) :=
  b ← map_err IoError (read_tile_at_least level n count d);
  if blen b <? count * HASH_LEN then Err (IoError InvalidData)
  else mret (take (Z.to_nat count) (bytes_to_hashes b)).

Definition load_leaves (d : disk) : outcome CheckpointError (list bytes) :=
  n ← log_size d;
  let full := n / TILE_WIDTH in
  hs ← omap_list (fun t => read_tile_hashes 0 t TILE_WIDTH d) (seqZ 0 full);
  let rem := n mod TILE_WIDTH in
  if 0 <? rem then last ← read_tile_hashes 0 full rem d; mret (concat hs ++ last)
  else mret (concat hs).

(** The end of both writers: the checkpoint, then its history record. *)
Definition publish (cp : Checkpoint) : Io io_error Checkpoint :=
  _ ← cp_write cp;
  _ ← append_to_history cp;
  mret cp.

Definition append_leaf_hashes (hashes : list bytes) : Io CheckpointError Checkpoint :=
  old ← io_look log_size;
  r ← io_look (fun d =>
        let '(r, s) := (new ← push_leaves d old hashes;
                        root ← (if new =? 0 then mret empty_root else tree_head d new);
                        mret (new, root)) (session_open old) in
        map_err IoError (p ← r; mret (p, s)));
  let '((new, root), s) := r in
  io_err (_ ← flush s; publish {| origin := log_origin; size := new; cp_root := root |}).

Definition append_leaf_data (data : list bytes) : Io CheckpointError Checkpoint :=
  append_leaf_hashes (map hash_leaf data).

(** ** Whole-tree materialisation *)

(** [mth] of a slice; running forever counts as a crash. *)
Definition mth_slice (leaves : list bytes) (start stop : Z) : outcome io_error bytes :=
  if (start <=? stop) && (stop <=? usize_len leaves) then
    match mth (take (Z.to_nat (stop - start)) (drop (Z.to_nat start) leaves)) with
    | Some h => Ok h
    | None => Panic
    end
  else Panic.

Definition write_tile (leaves : list bytes) (level tile_n first_node width sub : Z) : Io io_error unit :=
  let full := width =? TILE_WIDTH in
  exists_ ← io_look (fun d => Ok (bool_decide (is_Some (d !! data_tile_rel level tile_n width))));
  if full && exists_ then mret tt else
  hs ← io_look (fun _ => omap_list (fun i => let node := first_node + i in
                                    mth_slice leaves (node * sub) (node * sub + sub)) (seqZ 0 width));
  put_tile level tile_n width (concat hs).

Fixpoint write_tiles (leaves : list bytes) (level sub available : Z) (ns : list Z) : Io io_error unit :=
  match ns with
  | [] => mret tt
  | tile_n :: ns =>
      let first := tile_n * TILE_WIDTH in
      _ ← write_tile leaves level tile_n first (Z.min TILE_WIDTH (available - first)) sub;
      write_tiles leaves level sub available ns
  end.

(** The level loop; it ends when a level has no complete subtree. *)
Fixpoint write_levels (fuel : nat) (leaves : list bytes) (level : Z) : Io io_error unit :=
  match fuel with
  | O => io_look (fun _ => Panic)
  | S fuel =>
      let t := usize_len leaves in
      let shift := TILE_HEIGHT_BITS * level in
      let sub := if 64 <=? shift then 2 ^ 64 - 1 else Z.shiftl 1 shift in
      let available := if t <? sub then 0 else t / sub in
      if available =? 0 then mret tt else
      _ ← write_tiles leaves level sub available (seqZ 0 ((available + TILE_WIDTH - 1) / TILE_WIDTH));
      write_levels fuel leaves (level + 1)
  end.

Definition materialize (leaves : list bytes) : Io io_error Checkpoint :=
  let t := usize_len leaves in
  root ← io_look (fun _ => if t =? 0 then Ok empty_root
                           else match mth leaves with Some h => Ok h | None => Panic end);
  _ ← (if 0 <? t then write_levels 10 leaves 0 else mret tt);
  publish {| origin := log_origin; size := t; cp_root := root |}.
End Log.
End Hashing.
