(* ===== verification/TileStore.v ===== *)
(** What tiles hold: the stored hashes of a leaf sequence, their byte buffers,
    and the on-disk representations from which [read_tile_at_least] recovers
    them.  The incremental session computes exactly these hashes. *)

From stdpp Require Import base list numbers sets sorting gmap strings options.
From Stdlib Require Import ZArith Lia.
From S2P Require Import Prelude RustStd RustText Wire MerkleTree LogMerkle Disk Checkpoint TilePaths TileLog.

Open Scope Z_scope.

(** * Perfect subtrees of perfect subtrees *)

Lemma MTH_chunks {D} (node : D -> D -> D) (empty : D) q j (chunks : list (list D)) :
  Forall (fun c => length c = 2 ^ q)%nat chunks -> length chunks = (2 ^ j)%nat ->
  MTH node empty (map (MTH node empty) chunks) = MTH node empty (concat chunks).
Proof.
  revert chunks. induction j as [|j IH]; intros chunks Hc Hl.
  - destruct chunks as [|c [|]]; simpl in Hl; try lia. simpl. by rewrite app_nil_r.
  - rewrite Nat.pow_succ_r' in Hl. pose proof (Nat.pow_nonzero 2 j).
    rewrite <- (take_drop (2 ^ j)%nat chunks) in *. set (c1 := take (2 ^ j)%nat chunks) in *.
    set (c2 := drop (2 ^ j)%nat chunks) in *. rewrite length_app in Hl.
    assert (length c1 = 2 ^ j)%nat as H1 by (subst c1 c2; rewrite length_take, length_drop in *; lia).
    assert (length c2 = 2 ^ j)%nat as H2 by lia.
    apply Forall_app in Hc as [Hc1 Hc2].
    assert (forall cs : list (list D), Forall (fun c => length c = 2 ^ q)%nat cs -> length (concat cs) = (length cs * 2 ^ q)%nat) as Hlen.
    { clear. induction 1 as [|c cs Hc _ IH]; [done|]. cbn [concat length]. rewrite length_app. lia. }
    rewrite map_app, concat_app.
    rewrite (MTH_app node empty _ _ j) by (rewrite length_map; lia).
    rewrite (MTH_app node empty (concat c1) (concat c2) (j + q)).
    + by rewrite !IH.
    + rewrite Hlen, H1, Nat.pow_add_r by done. done.
    + rewrite Hlen, H2 by done. pose proof (Nat.pow_nonzero 2 q). nia.
    + rewrite Hlen, H2, Nat.pow_add_r by done. done.
Qed.

(** * Byte buffers of 32-byte hashes *)

Definition hashes32 (hs : list bytes) : Prop := Forall (fun h => length h = 32%nat) hs.

Lemma blen_concat hs : hashes32 hs -> blen (concat hs) = Z.of_nat (length hs) * HASH_LEN.
Proof.
  unfold blen, HASH_LEN. induction 1 as [|h hs Hh _ IH]; [done|]. cbn [concat length].
  rewrite length_app, Hh. lia.
Qed.

Lemma take_concat hs n : hashes32 hs -> take (n * 32) (concat hs) = concat (take n hs).
Proof.
  intros Hs. revert n. induction Hs as [|h hs Hh _ IH]; intros [|n]; [done..|].
  cbn [concat take]. replace (S n * 32)%nat with (length h + n * 32)%nat by lia.
  by rewrite take_app_add, IH.
Qed.

Lemma drop_concat hs n : hashes32 hs -> drop (n * 32) (concat hs) = concat (drop n hs).
Proof.
  intros Hs. revert n. induction Hs as [|h hs Hh _ IH]; intros [|n]; [done..|].
  cbn [concat drop]. replace (S n * 32)%nat with (length h + n * 32)%nat by lia.
  by rewrite drop_app_add, IH.
Qed.

Lemma chunks_concat hs fuel : hashes32 hs -> (length hs <= fuel)%nat -> chunks32 fuel (concat hs) = hs.
Proof.
  intros Hs. revert fuel. induction Hs as [|h hs Hh _ IH]; intros [|fuel] Hf; [done..|simpl in Hf; lia|].
  cbn [chunks32 concat]. destruct (Nat.leb_spec 32 (length (h ++ concat hs))); [|rewrite length_app in *; lia].
  rewrite <- Hh, take_app_length, drop_app_length. f_equal. apply IH. simpl in Hf. lia.
Qed.

Lemma bytes_to_hashes_concat hs : hashes32 hs -> bytes_to_hashes (concat hs) = hs.
Proof.
  intros Hs. apply chunks_concat; [done|]. pose proof (blen_concat hs Hs). unfold blen, HASH_LEN in *. lia.
Qed.

Lemma byte_slice_prefix hs w :
  hashes32 hs -> 0 <= w <= Z.of_nat (length hs) ->
  byte_slice (concat hs) 0 (w * HASH_LEN) = Ok (concat (take (Z.to_nat w) hs)).
Proof.
  intros Hs Hw. unfold byte_slice. rewrite (blen_concat hs Hs). unfold HASH_LEN.
  destruct (Z.leb_spec 0 (w * 32)), (Z.leb_spec (w * 32) (Z.of_nat (length hs) * 32)); try lia.
  simpl. rewrite drop_0, <- take_concat by done. do 2 f_equal. lia.
Qed.

Lemma byte_slice_at hs p h :
  hashes32 hs -> 0 <= p -> hs !! Z.to_nat p = Some h ->
  byte_slice (concat hs) (p * HASH_LEN) ((p + 1) * HASH_LEN) = Ok h.
Proof.
  intros Hs Hp Hh. pose proof (lookup_lt_Some _ _ _ Hh) as Hl. unfold byte_slice.
  rewrite (blen_concat hs Hs). unfold HASH_LEN.
  destruct (Z.leb_spec (p * 32) ((p + 1) * 32)), (Z.leb_spec ((p + 1) * 32) (Z.of_nat (length hs) * 32)); try lia.
  cbn [andb]. f_equal. replace (Z.to_nat (p * 32)) with (Z.to_nat p * 32)%nat by lia.
  rewrite drop_concat, (drop_S _ _ _ Hh) by done. cbn [concat].
  replace (Z.to_nat ((p + 1) * 32 - p * 32)) with 32%nat by lia.
  assert (length h = 32%nat) as <- by (unfold hashes32 in Hs; rewrite Forall_forall in Hs;
    apply Hs; by eapply list_elem_of_lookup_2).
  apply take_app_length.
Qed.

(** Storing the next hash extends the buffer. *)
Lemma overwrite_snoc hs h :
  hashes32 hs -> length h = 32%nat ->
  overwrite (grow (concat hs) ((Z.of_nat (length hs) + 1) * HASH_LEN)) (Z.of_nat (length hs) * HASH_LEN) h
  = concat (hs ++ [h]).
Proof.
  intros Hs Hh. pose proof (blen_concat hs Hs) as Hb. unfold grow. rewrite Hb. unfold HASH_LEN, blen in *.
  destruct (Z.ltb_spec (Z.of_nat (length hs) * 32) ((Z.of_nat (length hs) + 1) * 32)); [|lia].
  unfold overwrite. replace (Z.to_nat (Z.of_nat (length hs) * 32)) with (length (concat hs)) by lia.
  rewrite take_app_length, concat_app. simpl. rewrite app_nil_r. f_equal.
  rewrite drop_ge; [by rewrite app_nil_r|]. rewrite length_app, repeat_length. lia.
Qed.

(** * The stored hashes of a leaf sequence *)

Section Nodes.
Context `{Sha256}.
Variable G : list bytes.
Hypothesis G_hashes : hashes32 G.
#[local] Set Default Proof Using "Type*".

Abbreviation MTH := (MTH hash_children empty_root).

Definition total : Z := Z.of_nat (length G).

(** [n] leaves from leaf [a] on. *)
Definition run (a n : Z) : list bytes := take (Z.to_nat n) (drop (Z.to_nat a) G).

Lemma run_app a n m : 0 <= a -> 0 <= n -> 0 <= m -> run a (n + m) = run a n ++ run (a + n) m.
Proof using.
  intros. unfold run. rewrite Z2Nat.inj_add by lia. rewrite <- (take_drop (Z.to_nat n) (take _ _)).
  rewrite take_take, Nat.min_l by lia. f_equal.
  rewrite skipn_firstn_comm, drop_drop. f_equal; [lia|]. f_equal. lia.
Qed.

Lemma run_length a n : 0 <= a -> 0 <= n -> a + n <= total -> Z.of_nat (length (run a n)) = n.
Proof using. unfold run, total. intros. rewrite length_take, length_drop. lia. Qed.

Lemma run_all n : 0 <= n -> run 0 n = take (Z.to_nat n) G.
Proof using. intros. unfold run. by rewrite drop_0. Qed.

(** The stored hash [i] of tile level [L]. *)
Definition snode (L i : Z) : bytes := MTH (run (i * 256 ^ L) (256 ^ L)).
Definition nodes (L a n : Z) : list bytes := map (snode L) (seqZ a n).

Lemma nodes_length L a n : 0 <= n -> Z.of_nat (length (nodes L a n)) = n.
Proof using. intros. unfold nodes. rewrite length_map, length_seqZ. lia. Qed.

Lemma nodes_app L a n m : 0 <= n -> 0 <= m -> nodes L a (n + m) = nodes L a n ++ nodes L (a + n) m.
Proof using. intros. unfold nodes. rewrite seqZ_app by lia. by rewrite map_app. Qed.

Lemma nodes_one L a : nodes L a 1 = [snode L a].
Proof using. done. Qed.

Lemma nodes_take L a n w : 0 <= w <= n -> take (Z.to_nat w) (nodes L a n) = nodes L a w.
Proof using.
  intros Hw. replace n with (w + (n - w)) by lia. rewrite nodes_app by lia.
  pose proof (nodes_length L a w ltac:(lia)). replace (Z.to_nat w) with (length (nodes L a w)) by lia.
  apply take_app_length.
Qed.

Lemma nodes_lookup L a n i : 0 <= i < n -> nodes L a n !! Z.to_nat i = Some (snode L (a + i)).
Proof using.
  intros Hi. unfold nodes. rewrite list_lookup_fmap, lookup_seqZ_lt by lia. simpl. do 2 f_equal. lia.
Qed.

Lemma run_hashes a n : hashes32 (run a n).
Proof. unfold run. by apply Forall_take, Forall_drop. Qed.

Lemma MTH_hash l : hashes32 l -> length (MTH l) = 32%nat.
Proof using.
  intros Hl. apply (MTH_form hash_children empty_root (fun h => length h = 32%nat)); [apply sha256_len| |done].
  intros. apply sha256_len.
Qed.

Lemma snode_hash L i : length (snode L i) = 32%nat.
Proof. apply MTH_hash, run_hashes. Qed.

Lemma nodes_hashes L a n : hashes32 (nodes L a n).
Proof. unfold nodes, hashes32. apply Forall_fmap, Forall_forall. intros i _. apply snode_hash. Qed.

Lemma runs_concat b a n :
  0 <= a -> 0 <= b -> concat (map (fun i => run (i * b) b) (seqZ a (Z.of_nat n))) = run (a * b) (Z.of_nat n * b).
Proof using.
  intros Ha Hb. induction n as [|n IH]; [unfold run; by rewrite Z.mul_0_l|].
  rewrite Nat2Z.inj_succ, <- Z.add_1_r, seqZ_app, map_app, concat_app, IH by lia.
  rewrite Z.mul_add_distr_r, run_app by nia. f_equal. simpl. rewrite app_nil_r.
  f_equal; lia.
Qed.

Lemma pow256 L : 0 <= L -> exists q : nat, Z.to_nat (256 ^ L) = (2 ^ q)%nat /\ 256 ^ L = 2 ^ Z.of_nat q.
Proof using.
  intros HL. exists (Z.to_nat (8 * L)). rewrite Z2Nat.id by lia.
  assert (256 ^ L = 2 ^ (8 * L)) as E by (change 256 with (2 ^ 8); by rewrite <- Z.pow_mul_r by lia).
  split; [|done]. rewrite E. rewrite Z2Nat.inj_pow by lia. done.
Qed.

(** [2^j] stored hashes in a row fold to the head of the leaves below them. *)
Lemma nodes_MTH L a j :
  0 <= L -> 0 <= a -> (a + 2 ^ Z.of_nat j) * 256 ^ L <= total ->
  MTH (nodes L a (2 ^ Z.of_nat j)) = MTH (run (a * 256 ^ L) (2 ^ Z.of_nat j * 256 ^ L)).
Proof using.
  intros HL Ha Hb. destruct (pow256 L HL) as (q & Hq & Hq').
  pose proof (Z.pow_pos_nonneg 256 L eq_refl HL). pose proof (Z.pow_pos_nonneg 2 (Z.of_nat j) eq_refl ltac:(lia)).
  unfold nodes, snode. rewrite <- (map_map (fun i => run (i * 256 ^ L) (256 ^ L)) MTH).
  rewrite (MTH_chunks _ _ q j).
  - f_equal. rewrite <- (Z2Nat.id (2 ^ Z.of_nat j)) by lia. by rewrite runs_concat by lia.
  - apply Forall_fmap, Forall_forall. intros i [Hi1 Hi2]%elem_of_seqZ. unfold compose.
    pose proof (run_length (i * 256 ^ L) (256 ^ L) ltac:(nia) ltac:(lia) ltac:(nia)). lia.
  - rewrite length_map, length_seqZ. rewrite Z2Nat.inj_pow by lia. by rewrite Nat2Z.id.
Qed.

(** The fold of the code on a perfect run. *)
Lemma fold_perfect_loop_spec j fuel l :
  length l = (2 ^ j)%nat -> (j <= fuel)%nat -> fold_perfect_loop fuel l = Ok (MTH l).
Proof using.
  revert fuel l. induction j as [|j IH]; intros fuel l Hl Hf.
  { destruct l as [|x [|]]; simpl in Hl; try lia. by destruct fuel. }
  destruct fuel as [|fuel]; [lia|]. pose proof (Nat.pow_nonzero 2 j) as Hp.
  rewrite Nat.pow_succ_r' in Hl. destruct l as [|x [|y l]]; simpl in Hl; try lia.
  cbn [fold_perfect_loop]. unfold pair_level. rewrite IH; [|by apply length_pair_up|lia].
  f_equal. apply MTH_pair_up with j. rewrite Nat.pow_succ_r'. simpl. lia.
Qed.

Lemma fold_perfect_spec j l : length l = (2 ^ j)%nat -> fold_perfect l = Ok (MTH l).
Proof using.
  intros Hl. apply (fold_perfect_loop_spec j); [done|]. rewrite Hl. pose proof (Nat.pow_gt_lin_r 2 j). lia.
Qed.

(** A full tile folds to the stored hash above it. *)
Lemma fold_tile L t :
  0 <= L -> 0 <= t -> (t + 1) * 256 ^ (L + 1) <= total ->
  fold_perfect (nodes L (256 * t) 256) = Ok (snode (L + 1) t).
Proof using.
  intros HL Ht Hb. rewrite (fold_perfect_spec 8).
  2:{ pose proof (nodes_length L (256 * t) 256 ltac:(lia)). change (2 ^ 8)%nat with 256%nat. lia. }
  f_equal. change 256 with (2 ^ Z.of_nat 8) at 2. rewrite Z.pow_add_r in Hb by lia.
  rewrite nodes_MTH by (change (2 ^ Z.of_nat 8) with 256; lia).
  unfold snode. rewrite Z.pow_add_r by lia. change (2 ^ Z.of_nat 8) with 256. f_equal; f_equal; lia.
Qed.
End Nodes.

(** * Directory entries *)

Lemma entry_name_spec dir p name :
  entry_name dir p = Some name <-> p = dir ++ SLASH :: name /\ name <> [] /\ no_slash name = true.
Proof.
  unfold entry_name. destruct (strip_prefix (dir ++ [SLASH]) p) as [r|] eqn:E; simpl.
  - apply strip_prefix_spec in E as ->. rewrite <- app_assoc. simpl.
    case_bool_decide as Hr; simpl.
    + split; [done|]. intros (E & Hne & _). apply app_inv_head in E. by injection E as <-.
    + destruct (no_slash r) eqn:Hs.
      * split; [by intros [= <-]|]. intros (E & _). apply app_inv_head in E. by injection E as <-.
      * split; [done|]. intros (E & _ & Hs'). apply app_inv_head in E. injection E as <-. congruence.
  - split; [done|]. intros (-> & _). exfalso.
    assert (strip_prefix (dir ++ [SLASH]) (dir ++ SLASH :: name) = Some name) as E'
      by (apply strip_prefix_spec; by rewrite <- app_assoc). congruence.
Qed.

Lemma read_dir_spec `{DirOrder} dir d name :
  name ∈ read_dir dir d <-> is_Some (d !! (dir ++ SLASH :: name)) /\ name <> [] /\ no_slash name = true.
Proof.
  unfold read_dir. rewrite dir_order_perm, list_elem_of_omap. split.
  - intros (p & Hp & (-> & Hne & Hs)%entry_name_spec). split; [|done].
    apply list_elem_of_fmap in Hp as ([p' c] & -> & Hin). apply elem_of_map_to_list in Hin. by eexists.
  - intros ([c Hc] & Hne & Hs). exists (dir ++ SLASH :: name). split; [|by apply entry_name_spec].
    apply list_elem_of_fmap. exists (dir ++ SLASH :: name, c). split; [done|]. by apply elem_of_map_to_list.
Qed.

Lemma digits_no_slash n : 0 <= n -> no_slash (show_u64 n) = true.
Proof.
  intros Hn. destruct (show_u64_digits n Hn) as [Hd _]. unfold no_slash. rewrite forallb_Forall in *.
  eapply Forall_impl; [exact Hd|]. intros c Hc. cbv beta in *. rewrite negb_true_iff, bool_decide_eq_false.
  intros ->. by vm_compute in Hc.
Qed.

Lemma entry_width_show w : is_u64 w = true -> entry_width (show_u64 w) = Some w.
Proof.
  intros Hw. unfold entry_width. rewrite utf8_ascii, parse_show_u64; [done|done|].
  apply plain_ascii, show_u64_plain. unfold is_u64 in Hw. lia.
Qed.

(** The scan finds a variant wide enough, when there is one. *)
Lemma better_scan count l best :
  (match best with Some (w, name) => entry_width name = Some w /\ count <= w | None => True end) ->
  match fold_left (better count) l best with
  | Some (w, name) => entry_width name = Some w /\ count <= w /\ (name ∈ l \/ best = Some (w, name))
  | None => best = None /\ forall name w, name ∈ l -> entry_width name = Some w -> w < count
  end.
Proof.
  revert best. induction l as [|x l IH]; intros best Hb; simpl.
  { destruct best as [[w name]|]; [naive_solver|]. split; [done|]. intros name w Hx.
    by apply not_elem_of_nil in Hx. }
  assert (match better count best x with
          | Some (w, name) => entry_width name = Some w /\ count <= w | None => True end) as Hb'.
  { unfold better. destruct (entry_width x) as [w|] eqn:E; [|done].
    destruct (Z.leb_spec count w); simpl; [|done]. destruct best as [[bw bn]|]; [|done].
    destruct (w <? bw); done. }
  specialize (IH _ Hb'). destruct (fold_left (better count) l (better count best x)) as [[w name]|].
  - destruct IH as (E & Hc & Hin). split_and!; [done|done|]. destruct Hin as [Hin|Hin]; [left; by right|].
    unfold better in Hin. destruct (entry_width x) as [wx|] eqn:Ex; [|by right].
    destruct (_ && _); [|by right]. injection Hin as <- <-. left. by left.
  - destruct IH as [Hn IH]. unfold better in Hn. destruct (entry_width x) as [wx|] eqn:Ex.
    + destruct (Z.leb_spec count wx); simpl in Hn.
      * destruct best as [[bw bn]|]; [by destruct (wx <? bw)|done].
      * split; [done|]. intros name w [->|Hin]%elem_of_cons Hw; [|by eapply IH]. rewrite Ex in Hw.
        injection Hw as <-. lia.
    + split; [done|]. intros name w [->|Hin]%elem_of_cons Hw; [congruence|by eapply IH].
Qed.

(** * Tiles on disk *)

Section Tiles.
Context `{Sha256, DirOrder}.
Variable G : list bytes.
Hypothesis G_hashes : hashes32 G.
#[local] Set Default Proof Using "Type*".

(** The hashes of tile [(L, t)] in a log of [n] leaves. *)
Definition avail (n L t : Z) : Z := Z.min 256 (Z.max 0 (n / 256 ^ L - 256 * t)).

(** The bytes of [w] hashes of a tile. *)
Definition tile_bytes (L t w : Z) : bytes := concat (nodes G L (256 * t) w).

(** Every tile file holds what its name says, of the sequence [G]; the names in
    partial directories are widths, or are not numbers. *)
Record tiles_inv (d : disk) : Prop := {
  ti_exact : forall L t w b, tile_id L t -> tile_width w -> d !! data_tile_rel L t w = Some b ->
    w <= avail (total G) L t /\ b = tile_bytes L t w;
  ti_names : forall L t name b w, tile_id L t -> d !! partial_entry L t name = Some b ->
    entry_width name = Some w -> tile_width w /\ w <> 256 /\ name = show_u64 w;
}.

(** The disk holds the tiles of the first [n] leaves. *)
Definition covers (d : disk) (n : Z) : Prop :=
  forall L t, tile_id L t -> 0 < avail n L t ->
    exists w, avail n L t <= w <= 256 /\ is_Some (d !! data_tile_rel L t w).

Lemma tile_bytes_blen L t w : 0 <= w -> blen (tile_bytes L t w) = w * HASH_LEN.
Proof.
  intros Hw. unfold tile_bytes. rewrite blen_concat by (by apply nodes_hashes). by rewrite nodes_length.
Qed.

(** [read_tile_at_least] finds a representation that holds the wanted hashes. *)
Lemma read_tile_spec d L t c w0 :
  tiles_inv d -> tile_id L t -> 0 < c -> c <= w0 <= 256 -> is_Some (d !! data_tile_rel L t w0) ->
  exists w, c <= w <= 256 /\ read_tile_at_least L t c d = Ok (tile_bytes L t w).
Proof.
  intros Hinv Hid Hc Hw0 Hin. unfold read_tile_at_least. cbv zeta.
  assert (forall w b, tile_width w -> c <= w -> d !! data_tile_rel L t w = Some b ->
    (if c * HASH_LEN <=? blen b then Some b else None) = Some (tile_bytes L t w)) as Hrep.
  { intros w b Hw Hcw Hb. destruct (ti_exact d Hinv L t w b Hid Hw Hb) as [_ ->].
    unfold tile_width in Hw. rewrite tile_bytes_blen by lia. unfold HASH_LEN.
    by destruct (Z.leb_spec (c * 32) (w * 32)); [|lia]. }
  destruct (d !! data_tile_rel L t TILE_WIDTH) as [b|] eqn:Ef.
  { rewrite (Hrep 256 b) by (unfold tile_width; lia || done). exists 256. split; [lia|done]. }
  assert (w0 <> 256) as Hne by (intros ->; change 256 with TILE_WIDTH in Hin; rewrite Ef in Hin; by destruct Hin).
  unfold TILE_WIDTH in Ef. destruct (Z.ltb_spec 0 c), (Z.ltb_spec c TILE_WIDTH); unfold TILE_WIDTH in *; try lia.
  cbn [andb]. destruct (d !! data_tile_rel L t c) as [b|] eqn:Ee.
  { rewrite (Hrep c b) by (unfold tile_width; lia || done). exists c. split; [lia|done]. }
  pose proof (better_scan c (read_dir (partial_dir L t) d) None I) as Hscan.
  assert (tile_width w0) as Hw0' by (unfold tile_width; lia).
  assert (show_u64 w0 ∈ read_dir (partial_dir L t) d) as Hmem.
  { apply read_dir_spec. rewrite (partial_path L t w0) in Hin by done.
    split; [exact Hin|]. split; [|apply digits_no_slash; lia]. apply show_u64_digits. lia. }
  destruct (fold_left (better c) (read_dir (partial_dir L t) d) None) as [[w name]|].
  - destruct Hscan as (Ew & Hcw & [Hn|Hn]); [|done]. apply read_dir_spec in Hn as ([b Hb] & _ & _).
    change (partial_dir L t ++ SLASH :: name) with (partial_entry L t name) in Hb.
    destruct (ti_names d Hinv L t name b w Hid Hb Ew) as (Hw & Hw256 & ->).
    unfold fs_read. rewrite Hb. cbn [mbind outcome_bind].
    pose proof Hb as Hb'. rewrite <- partial_path in Hb' by done.
    specialize (Hrep w b Hw Hcw Hb'). destruct (c * HASH_LEN <=? blen b); [|done]. injection Hrep as ->.
    exists w. unfold tile_width in Hw. split; [lia|done].
  - exfalso. destruct Hscan as [_ Hall]. specialize (Hall _ w0 Hmem).
    rewrite entry_width_show in Hall by (unfold is_u64; lia). specialize (Hall eq_refl). lia.
Qed.
End Tiles.
