(* ===== verification/TileSessionSpec.v ===== *)
(** The incremental tile session computes the stored hashes of the extended leaf
    sequence: appending leaves, carrying full tiles upward, and the tree head
    over the frontier of perfect subtrees. *)

From stdpp Require Import base list numbers sets sorting gmap strings options.
From Stdlib Require Import ZArith Lia.
From S2P Require Import Prelude RustStd RustText Wire MerkleTree LogMerkle Disk Checkpoint TilePaths TileLog.
From S2P Require Import TileStore.

Open Scope Z_scope.

Lemma sess_step {A B} (m : Sess A) (k : A -> Sess B) s a s' :
  m s = (Ok a, s') -> (m ≫= k) s = k a s'.
Proof. unfold mbind, Sess_bind. by intros ->. Qed.

(** ** Counting complete subtrees *)

Lemma div_step m b : 0 < b -> m mod b <> 0 -> m / b = (m - 1) / b.
Proof.
  intros Hb Hm. pose proof (Z.mod_pos_bound m b Hb). pose proof (Z.div_mod m b ltac:(lia)).
  apply (Z.div_unique _ _ _ (m mod b - 1)); lia.
Qed.

Lemma pow256_pos L : 0 <= L -> 0 < 256 ^ L.
Proof. intros. apply Z.pow_pos_nonneg; lia. Qed.

Lemma pow256_succ L : 0 <= L -> 256 ^ (L + 1) = 256 * 256 ^ L.
Proof. intros. rewrite Z.pow_add_r by lia. lia. Qed.

(** If [256^L] does not divide [m], neither does a higher power. *)
Lemma pow256_not_dvd m L x : 0 <= L <= x -> m mod 256 ^ L <> 0 -> m mod 256 ^ x <> 0.
Proof.
  intros Hx Hm E. apply Hm. apply Z.mod_divide; [pose proof (pow256_pos L); lia|].
  apply Z.mod_divide in E; [|pose proof (pow256_pos x); lia].
  eapply Z.divide_trans; [|exact E]. exists (256 ^ (x - L)). rewrite <- Z.pow_add_r by lia. f_equal. lia.
Qed.

(** The number of stored hashes per level. *)
Definition levels_of (n L : Z) : Z := n / 256 ^ L.
Definition upd (k : Z -> Z) (L v : Z) : Z -> Z := fun x => if x =? L then v else k x.
(** The hashes of tile [t] when its level has [c] of them. *)
Definition in_tile (c t : Z) : Z := Z.min 256 (Z.max 0 (c - 256 * t)).

Definition level (L : Z) : Prop := 0 <= L < 9.

Section Session.
Context `{Sha256, DirOrder}.
Variable G : list bytes.
Hypothesis G_hashes : hashes32 G.
Variable d : disk.
Variable old : Z.
Hypothesis old_bound : 0 <= old <= total G.
Hypothesis G_bound : total G < 2 ^ 63.
Hypothesis disk_inv : tiles_inv G d.
Hypothesis disk_covers : covers d old.
#[local] Set Default Proof Using "Type*".

Abbreviation nodes := (nodes G).
Abbreviation snode := (snode G).

(** The session holds the first [k L] stored hashes of every level [L]. *)
Record session_inv (k : Z -> Z) (s : TileSession) : Prop := {
  si_open : forall L, level L -> count_open s !! Z.to_nat L = Some (levels_of old L);
  si_len : length (count s) = MAX_TILE_LEVELS;
  si_count : forall L, level L -> count s !! Z.to_nat L = Some (k L);
  si_bound : forall L, level L -> levels_of old L <= k L <= levels_of (total G) L;
  si_tiles : forall L t b, tiles s !! (L, t) = Some b ->
    level L /\ 0 <= t /\ b = concat (nodes L (256 * t) (in_tile (k L) t));
  si_dirty : forall L t, (L, t) ∈ dirty s -> is_Some (tiles s !! (L, t)) /\ 0 < in_tile (k L) t;
  si_changed : forall L t, level L -> 0 <= t ->
    in_tile (k L) t <> in_tile (levels_of old L) t -> (L, t) ∈ dirty s;
}.

Lemma session_inv_ext k k' s :
  (forall L, level L -> k L = k' L) -> session_inv k s -> session_inv k' s.
Proof using.
  intros E [I1 I2 I3 I4 I5 I6 I7]. split; try done.
  - intros L HL. rewrite <- E by done. auto.
  - intros L HL. rewrite <- E by done. auto.
  - intros L t b Hb. destruct (I5 L t b Hb) as (HL & Ht & ->). by rewrite <- E.
  - intros L t Hin. destruct (I6 L t Hin) as [[b Hb] Hp]. destruct (I5 L t b Hb) as (HL & _).
    rewrite <- E by done. eauto.
  - intros L t HL Ht. rewrite <- E by done. by apply I7.
Qed.

Lemma levels_tile_id L t :
  level L -> 0 <= t -> 0 < in_tile (levels_of (total G) L) t -> tile_id L t.
Proof using old_bound G_bound.
  unfold level, in_tile, levels_of, tile_id, is_u64. intros HL Ht Hp.
  assert (total G / 256 ^ L <= total G).
  { pose proof (pow256_pos L ltac:(lia)). apply Z.div_le_upper_bound; nia. }
  lia.
Qed.

Lemma session_open_inv : session_inv (levels_of old) (session_open old).
Proof.
  assert (forall L, level L -> map (fun level => let shift := TILE_HEIGHT_BITS * Z.of_nat level in
            if 64 <=? shift then 0 else Z.shiftr old shift) (seq 0 MAX_TILE_LEVELS) !! Z.to_nat L
          = Some (levels_of old L)) as Hc.
  { intros L HL. unfold level in HL. rewrite list_lookup_fmap, lookup_seq_lt by (unfold MAX_TILE_LEVELS; lia).
    simpl. f_equal. unfold TILE_HEIGHT_BITS. rewrite Z2Nat.id by lia. unfold levels_of.
    change 256 with (2 ^ 8). rewrite <- Z.pow_mul_r by lia. destruct (Z.leb_spec 64 (8 * L)) as [Hs|Hs].
    - symmetry. apply Z.div_small. split; [lia|]. assert (2 ^ 64 <= 2 ^ (8 * L)) by (apply Z.pow_le_mono_r; lia).
      change (2 ^ 64) with (2 * 2 ^ 63) in *. lia.
    - by rewrite Z.shiftr_div_pow2 by lia. }
  split; try done.
  - intros L HL. split; [lia|]. unfold levels_of. apply Z.div_le_mono; [apply pow256_pos; unfold level in HL; lia|lia].
Qed.

(** ** Loading a tile *)

Lemma ensure_loaded_spec k s L t :
  session_inv k s -> level L -> 0 <= t ->
  exists s', ensure_loaded d L t s = (Ok tt, s') /\ session_inv k s'
    /\ tiles s' !! (L, t) = Some (concat (nodes L (256 * t) (in_tile (k L) t))).
Proof.
  intros Hs HL Ht. unfold ensure_loaded. rewrite (sess_step _ _ _ (tiles s !! (L, t)) s) by done.
  destruct (tiles s !! (L, t)) as [b|] eqn:Eb.
  { exists s. split; [done|]. split; [done|]. destruct (si_tiles k s Hs L t b Eb) as (_ & _ & ->). done. }
  assert (in_tile (k L) t = in_tile (levels_of old L) t) as Ek.
  { destruct (decide (in_tile (k L) t = in_tile (levels_of old L) t)) as [|Hne]; [done|].
    apply (si_changed k s Hs) in Hne; [|done..]. apply (si_dirty k s Hs) in Hne as [[b Hb] _]. congruence. }
  rewrite (sess_step _ _ _ (levels_of old L) s)
    by (unfold get_count_open, level_count; by rewrite (si_open k s Hs)).
  cbv zeta. unfold saturating_sub, TILE_WIDTH.
  replace (Z.min 256 (Z.max 0 (levels_of old L - t * 256))) with (in_tile (k L) t)
    by (rewrite Ek; unfold in_tile; f_equal; f_equal; lia).
  assert (session_inv k {| tiles := <[(L, t) := concat (nodes L (256 * t) (in_tile (k L) t))]> (tiles s);
    dirty := dirty s; count_open := count_open s; count := count s |}) as Hs'.
  { destruct Hs as [I1 I2 I3 I4 I5 I6 I7]. split; try done; simpl.
    - intros L' t' b. destruct (decide ((L, t) = (L', t'))) as [[= <- <-]|Hne].
      + rewrite lookup_insert_eq. by intros [= <-].
      + rewrite lookup_insert_ne by done. apply I5.
    - intros L' t' Hin. destruct (I6 L' t' Hin) as [Hb Hp]. split; [|done].
      rewrite lookup_insert_is_Some'. by right. }
  destruct (Z.ltb_spec 0 (in_tile (k L) t)) as [Hp|Hp].
  - assert (in_tile (k L) t = avail old L t) as Ea by (rewrite Ek; done).
    assert (tile_id L t) as Hid.
    { apply levels_tile_id; [done|done|]. pose proof (si_bound k s Hs L HL). unfold in_tile in *. lia. }
    destruct (disk_covers L t Hid ltac:(lia)) as (w0 & Hw0 & Hin).
    destruct (read_tile_spec G G_hashes d L t (in_tile (k L) t) w0) as (w & Hw & Hr); [done|done|done|lia|done|].
    rewrite (sess_step _ _ s (concat (nodes L (256 * t) (in_tile (k L) t))) s).
    2:{ unfold sess_lift. rewrite (sess_step _ _ s (tile_bytes G L t w) s) by (by rewrite Hr).
        rewrite tile_bytes_blen by (done || lia). unfold HASH_LEN at 1 2.
        destruct (Z.ltb_spec (w * 32) (in_tile (k L) t * 32)); [lia|].
        unfold tile_bytes. rewrite byte_slice_prefix; [|by apply nodes_hashes|rewrite nodes_length; lia].
        by rewrite nodes_take by lia. }
    eexists. split; [reflexivity|]. split; [exact Hs'|]. apply lookup_insert_eq.
  - assert (in_tile (k L) t = 0) as E0 by (unfold in_tile in *; lia).
    rewrite (sess_step _ _ s [] s) by done. eexists. split; [reflexivity|].
    rewrite E0 in Hs'. split; [exact Hs'|]. rewrite E0. apply lookup_insert_eq.
Qed.

(** ** Storing the next hash of a level *)

Lemma in_tile_next c : 0 <= c -> in_tile c (c / 256) = c mod 256 /\ in_tile (c + 1) (c / 256) = c mod 256 + 1.
Proof using.
  intros Hc. unfold in_tile. pose proof (Z.mod_pos_bound c 256 eq_refl). pose proof (Z.div_mod c 256). lia.
Qed.

Lemma in_tile_other c t : 0 <= c -> t <> c / 256 -> in_tile (c + 1) t = in_tile c t.
Proof using.
  intros Hc Ht. unfold in_tile. pose proof (Z.mod_pos_bound c 256 eq_refl). pose proof (Z.div_mod c 256).
  assert (t < c / 256 \/ c / 256 < t) as [|] by lia; lia.
Qed.

Lemma set_stored_spec k s L :
  session_inv k s -> level L -> k L + 1 <= levels_of (total G) L ->
  exists s', set_stored d L (k L) (snode L (k L)) s = (Ok tt, s')
    /\ session_inv (upd k L (k L + 1)) s' /\ is_Some (tiles s' !! (L, k L / 256)).
Proof.
  intros Hs HL Hk. unfold set_stored, TILE_WIDTH. set (i := k L) in *.
  assert (0 <= i) as Hi0.
  { pose proof (si_bound k s Hs L HL) as Hb. subst i. unfold levels_of in *.
    pose proof (Z.div_pos old (256 ^ L)). pose proof (pow256_pos L). unfold level in HL. lia. }
  assert (0 <= i / 256) as Ht by (apply Z.div_pos; lia).
  destruct (in_tile_next i Hi0) as [En1 En2].
  destruct (ensure_loaded_spec k s L (i / 256) Hs HL Ht) as (s1 & E1 & Hs1 & Eb).
  rewrite (sess_step _ _ _ _ _ E1). rewrite (sess_step _ _ _ (tiles s1 !! (L, i / 256)) s1) by done.
  rewrite Eb. fold i in Eb. fold i. rewrite En1 in *.
  set (hs := nodes L (256 * (i / 256)) (i mod 256)).
  assert (Z.of_nat (length hs) = i mod 256) as Elen by (apply nodes_length; apply Z.mod_pos_bound; lia).
  assert (overwrite (grow (concat hs) ((i mod 256 + 1) * HASH_LEN)) (i mod 256 * HASH_LEN) (snode L i)
          = concat (nodes L (256 * (i / 256)) (i mod 256 + 1))) as Eo.
  { rewrite <- Elen, overwrite_snoc by (by apply nodes_hashes || by apply snode_hash).
    rewrite Elen, nodes_app by (pose proof (Z.mod_pos_bound i 256); lia). rewrite nodes_one.
    replace (256 * (i / 256) + i mod 256) with i by (pose proof (Z.div_mod i 256); lia). done. }
  rewrite Eo. unfold put_buf, mark_dirty, get_count, set_count, level_count.
  cbv [mbind Sess_bind]. cbn [count tiles dirty count_open].
  rewrite (si_count k s1 Hs1 L HL). fold i. destruct (Z.ltb_spec i (i + 1)); [|lia].
  eexists. split; [reflexivity|]. split; [|cbn [tiles]; by rewrite lookup_insert_eq].
  destruct Hs1 as [I1 I2 I3 I4 I5 I6 I7].
  assert (upd k L (i + 1) L = i + 1) as EuL by (unfold upd; by rewrite Z.eqb_refl).
  assert (forall x, x <> L -> upd k L (i + 1) x = k x) as Eux by (intros x Hx; unfold upd; by destruct (Z.eqb_spec x L)).
  split; cbn [count tiles dirty count_open]; [done|by rewrite length_insert| | | | |].
  - intros x Hx. destruct (decide (x = L)) as [->|Hne].
    + rewrite EuL. apply list_lookup_insert_eq. rewrite I2. unfold level, MAX_TILE_LEVELS in *. lia.
    + rewrite Eux by done. rewrite list_lookup_insert_ne; [by apply I3|]. unfold level in *. lia.
  - intros x Hx. destruct (decide (x = L)) as [->|Hne]; [rewrite EuL; specialize (I4 L HL); fold i in I4; lia|].
    rewrite Eux by done. by apply I4.
  - intros x t b. destruct (decide ((L, i / 256) = (x, t))) as [[= <- <-]|Hne].
    + rewrite lookup_insert_eq, EuL, En2. by intros [= <-].
    + rewrite lookup_insert_ne by done. intros Hb. destruct (I5 x t b Hb) as (Hx & Ht' & ->).
      split; [done|]. split; [done|]. destruct (decide (x = L)) as [->|Hxne]; [|by rewrite Eux].
      rewrite EuL, in_tile_other; [done|done|]. intros ->. by apply Hne.
  - intros x t Hin. destruct (decide ((L, i / 256) = (x, t))) as [[= <- <-]|Hne].
    + split; [by rewrite lookup_insert_eq|]. rewrite EuL, En2. pose proof (Z.mod_pos_bound i 256). lia.
    + apply elem_of_union in Hin as [Hin%elem_of_singleton|Hin]; [by symmetry in Hin|].
      destruct (I6 x t Hin) as [Hb Hp]. split; [rewrite lookup_insert_ne by done; done|].
      destruct (decide (x = L)) as [->|Hxne]; [|by rewrite Eux].
      rewrite EuL, in_tile_other; [done|done|]. intros ->. by apply Hne.
  - intros x t Hx Ht' Hch. apply elem_of_union. destruct (decide ((L, i / 256) = (x, t))) as [E|Hne].
    + left. apply elem_of_singleton. by symmetry.
    + right. apply I7; [done|done|]. destruct (decide (x = L)) as [->|Hxne]; [|by rewrite Eux in Hch].
      rewrite EuL, in_tile_other in Hch; [done|done|]. intros ->. by apply Hne.
Qed.

(** ** Reading a stored hash *)

Lemma read_stored_spec k s L i :
  session_inv k s -> level L -> 0 <= i < k L ->
  exists s', read_stored d L i s = (Ok (snode L i), s') /\ session_inv k s'.
Proof.
  intros Hs HL Hi. unfold read_stored, TILE_WIDTH.
  assert (0 <= i / 256) as Ht by (apply Z.div_pos; lia).
  destruct (ensure_loaded_spec k s L (i / 256) Hs HL Ht) as (s1 & E1 & Hs1 & Eb).
  rewrite (sess_step _ _ _ _ _ E1). rewrite (sess_step _ _ _ (tiles s1 !! (L, i / 256)) s1) by done.
  rewrite Eb. exists s1. split; [|done]. unfold sess_lift. f_equal.
  pose proof (Z.mod_pos_bound i 256 eq_refl). pose proof (Z.div_mod i 256).
  apply byte_slice_at; [by apply nodes_hashes|lia|].
  rewrite nodes_lookup by (unfold in_tile; lia). do 2 f_equal. lia.
Qed.

Lemma read_all_stored_spec k s L a n :
  session_inv k s -> level L -> 0 <= a -> a + Z.of_nat n <= k L ->
  exists s', read_all_stored d L (map (fun t => a + t) (seqZ 0 (Z.of_nat n))) s
             = (Ok (nodes L a (Z.of_nat n)), s') /\ session_inv k s'.
Proof.
  intros Hs HL. revert a s Hs. induction n as [|n IH]; intros a s Hs Ha Hn; [by exists s|].
  rewrite Nat2Z.inj_succ in *.
  assert (map (fun t => a + t) (seqZ 0 (Z.succ (Z.of_nat n))) = a :: map (fun t => (a + 1) + t) (seqZ 0 (Z.of_nat n))) as ->.
  { rewrite seqZ_cons by lia. cbn [map]. f_equal; [lia|]. rewrite Z.pred_succ.
    apply list_eq. intros j. rewrite !list_lookup_fmap.
    destruct (decide (Z.of_nat j < Z.of_nat n)) as [Hj|Hj].
    - rewrite !lookup_seqZ_lt by lia. simpl. f_equal. lia.
    - rewrite !lookup_seqZ_ge by lia. done. }
  cbn [read_all_stored]. destruct (read_stored_spec k s L a Hs HL ltac:(lia)) as (s1 & E1 & Hs1).
  rewrite (sess_step _ _ _ _ _ E1). destruct (IH (a + 1) s1 Hs1 ltac:(lia) ltac:(lia)) as (s2 & E2 & Hs2).
  rewrite (sess_step _ _ _ _ _ E2). exists s2. split; [|done]. unfold mret, Sess_ret. do 2 f_equal.
  replace (Z.succ (Z.of_nat n)) with (1 + Z.of_nat n) by lia. by rewrite nodes_app by lia.
Qed.

(** ** Carrying full tiles upward *)

Lemma full_tile_spec k s L t :
  session_inv k s -> is_Some (tiles s !! (L, t)) -> k L = 256 * (t + 1) ->
  full_tile_hashes d L t s = (Ok (nodes L (256 * t) 256), s).
Proof.
  intros Hs [b Hb] Hk. unfold full_tile_hashes. rewrite (sess_step _ _ _ (tiles s !! (L, t)) s) by done.
  rewrite Hb. rewrite (sess_step _ _ s b s) by done.
  destruct (si_tiles k s Hs L t b Hb) as (_ & _ & ->).
  replace (in_tile (k L) t) with 256 by (unfold in_tile; lia).
  pose proof (tile_bytes_blen G G_hashes L t 256 ltac:(lia)) as El. unfold tile_bytes in El. rewrite El.
  unfold TILE_WIDTH. rewrite Z.ltb_irrefl.
  unfold sess_lift. rewrite (sess_step _ _ s (concat (nodes L (256 * t) 256)) s).
  - unfold mret, Sess_ret. by rewrite bytes_to_hashes_concat by (by apply nodes_hashes).
  - rewrite byte_slice_prefix; [|by apply nodes_hashes|rewrite nodes_length; lia].
    by rewrite nodes_take by lia.
Qed.

(** The counts while leaf [m - 1] is carried above level [L]. *)
Definition carried (m L x : Z) : Z := if x <=? L then m / 256 ^ x else (m - 1) / 256 ^ x.

Lemma cascade_spec fuel m s L t :
  session_inv (carried m L) s -> 0 < m <= total G -> 0 <= L <= 8 -> (Z.to_nat (9 - L) <= fuel)%nat ->
  m mod 256 ^ (L + 1) = 0 -> t = m / 256 ^ (L + 1) - 1 -> is_Some (tiles s !! (L, t)) ->
  exists s', cascade_loop d fuel L t s = (Ok tt, s') /\ session_inv (levels_of m) s'.
Proof.
  revert s L t. induction fuel as [|fuel IH]; intros s L t Hs Hm HL Hf Hmod Ht Hin; [lia|].
  cbn [cascade_loop]. unfold MAX_TILE_LEVELS.
  pose proof (pow256_pos (L + 1) ltac:(lia)) as Hpos. pose proof (pow256_succ L ltac:(lia)) as Hsucc.
  pose proof (pow256_pos L ltac:(lia)) as HposL.
  set (q := m / 256 ^ (L + 1)) in *.
  assert (m = 256 ^ (L + 1) * q) as Emq by (pose proof (Z.div_mod m (256 ^ (L + 1))); lia).
  assert (0 < q) as Hq by nia.
  destruct (Z.leb_spec (Z.of_nat 9) (L + 1)) as [Hge|Hlt].
  { exists s. split; [done|]. eapply session_inv_ext; [|exact Hs]. intros x Hx. unfold level in Hx.
    unfold carried, levels_of. by destruct (Z.leb_spec x L); [|lia]. }
  assert (carried m L L = 256 * (t + 1)) as EL.
  { unfold carried. rewrite Z.leb_refl. rewrite Emq, Hsucc, Ht.
    replace (256 * 256 ^ L * q) with (256 * q * 256 ^ L) by ring. rewrite Z.div_mul by lia. lia. }
  rewrite (sess_step _ _ _ _ _ (full_tile_spec _ _ _ _ Hs Hin EL)).
  unfold sess_lift at 1. rewrite (sess_step _ _ s (snode (L + 1) t) s)
    by (rewrite fold_tile; [done|lia|lia|rewrite Ht; nia]).
  assert (carried m L (L + 1) = t) as EL1.
  { unfold carried. destruct (Z.leb_spec (L + 1) L); [lia|]. rewrite Ht. symmetry.
    apply (Z.div_unique _ _ _ (256 ^ (L + 1) - 1)); nia. }
  destruct (set_stored_spec (carried m L) s (L + 1) Hs) as (s1 & E1 & Hs1 & Hin1).
  { unfold level. lia. }
  { rewrite EL1, Ht. unfold levels_of. subst q. replace (m / 256 ^ (L + 1) - 1 + 1) with (m / 256 ^ (L + 1)) by lia.
    apply Z.div_le_mono; lia. }
  rewrite EL1 in E1, Hs1, Hin1. rewrite (sess_step _ _ _ _ _ E1).
  assert (session_inv (carried m (L + 1)) s1) as Hs1'.
  { eapply session_inv_ext; [|exact Hs1]. intros x Hx. unfold upd, carried.
    destruct (Z.eqb_spec x (L + 1)) as [->|Hne].
    - destruct (Z.leb_spec (L + 1) (L + 1)); [|lia]. fold q. lia.
    - destruct (Z.leb_spec x L), (Z.leb_spec x (L + 1)); try lia; done. }
  unfold TILE_WIDTH. destruct (Z.eqb_spec (t mod 256) (256 - 1)) as [E255|Hn255].
  - assert (256 * (q / 256) = q) as Eq256.
    { pose proof (Z.div_mod t 256). pose proof (Z.div_mod q 256 ltac:(lia)).
      pose proof (Z.mod_pos_bound q 256 eq_refl). lia. }
    apply (IH s1 (L + 1) (t / 256)); [done|done|lia|lia| | |done].
    + rewrite pow256_succ by lia. apply Z.mod_divide; [lia|]. exists (q / 256). lia.
    + rewrite pow256_succ, (Z.mul_comm 256), <- Z.div_div by lia. fold q.
      pose proof (Z.div_mod t 256). lia.
  - exists s1. split; [done|]. eapply session_inv_ext; [|exact Hs1']. intros x Hx. unfold carried, levels_of.
    destruct (Z.leb_spec x (L + 1)); [done|]. symmetry. apply div_step; [apply pow256_pos; lia|].
    apply (pow256_not_dvd m (L + 2)); [lia|]. intros E.
    apply Z.mod_divide in E; [|pose proof (pow256_pos (L + 2)); lia]. destruct E as [z Ez].
    replace (L + 2) with (L + 1 + 1) in Ez by lia. rewrite (pow256_succ (L + 1)) in Ez by lia.
    assert (q = 256 * z) as -> by nia.
    apply Hn255. rewrite Ht. symmetry. apply (Z.mod_unique _ _ (z - 1)); lia.
Qed.

(** ** Appending leaves *)

Lemma snode_leaf i h : 0 <= i -> G !! Z.to_nat i = Some h -> snode 0 i = h.
Proof using.
  intros Hi Hh. unfold TileStore.snode, run. rewrite Z.pow_0_r, Z.mul_1_r, (drop_S _ _ _ Hh). done.
Qed.

Lemma push_leaf_spec s i h :
  session_inv (levels_of i) s -> 0 <= i -> G !! Z.to_nat i = Some h ->
  exists s', push_leaf d i h s = (Ok tt, s') /\ session_inv (levels_of (i + 1)) s'.
Proof.
  intros Hs Hi Hh. pose proof (lookup_lt_Some _ _ _ Hh) as Hlt.
  assert (i + 1 <= total G) as Hb by (unfold total; lia).
  assert (levels_of i 0 = i) as E0 by (unfold levels_of; by rewrite Z.pow_0_r, Z.div_1_r).
  destruct (set_stored_spec (levels_of i) s 0 Hs) as (s1 & E1 & Hs1 & Hin1).
  { unfold level. lia. }
  { rewrite E0. unfold levels_of. by rewrite Z.pow_0_r, Z.div_1_r. }
  rewrite E0, (snode_leaf i h Hi Hh) in E1. rewrite E0 in Hs1, Hin1.
  unfold push_leaf. rewrite (sess_step _ _ _ _ _ E1).
  assert (session_inv (carried (i + 1) 0) s1) as Hs1'.
  { eapply session_inv_ext; [|exact Hs1]. intros x Hx. unfold level in Hx. unfold upd, carried.
    destruct (Z.eqb_spec x 0) as [->|Hne]; [by rewrite Z.leb_refl, Z.pow_0_r, Z.div_1_r|].
    destruct (Z.leb_spec x 0); [lia|]. unfold levels_of. f_equal. lia. }
  pose proof (Z.mod_pos_bound i 256 eq_refl). pose proof (Z.div_mod i 256 ltac:(lia)).
  unfold TILE_WIDTH. destruct (Z.eqb_spec (i mod 256) (256 - 1)) as [E255|Hn255].
  - apply (cascade_spec MAX_TILE_LEVELS (i + 1) s1 0 (i / 256) Hs1'); [lia|lia|unfold MAX_TILE_LEVELS; lia| | |done].
    + change (256 ^ (0 + 1)) with 256. symmetry. apply (Z.mod_unique _ _ (i / 256 + 1)); lia.
    + change (256 ^ (0 + 1)) with 256. assert (i / 256 + 1 = (i + 1) / 256); [|lia].
      apply (Z.div_unique _ _ _ 0); lia.
  - exists s1. split; [done|]. eapply session_inv_ext; [|exact Hs1']. intros x Hx. unfold level in Hx.
    unfold carried, levels_of. destruct (Z.leb_spec x 0); [done|]. symmetry.
    apply div_step; [apply pow256_pos; lia|]. apply (pow256_not_dvd (i + 1) 1); [lia|].
    change (256 ^ 1) with 256. intros E. apply Hn255.
    symmetry. apply (Z.mod_unique _ _ ((i + 1) / 256 - 1)); [lia|]. pose proof (Z.div_mod (i + 1) 256). lia.
Qed.

Lemma push_leaves_spec hs s i :
  session_inv (levels_of i) s -> 0 <= i -> hs `prefix_of` drop (Z.to_nat i) G ->
  exists s', push_leaves d i hs s = (Ok (i + Z.of_nat (length hs)), s')
    /\ session_inv (levels_of (i + Z.of_nat (length hs))) s'.
Proof.
  revert s i. induction hs as [|h hs IH]; intros s i Hs Hi Hp.
  { exists s. rewrite Z.add_0_r. done. }
  destruct Hp as [rest Hp]. assert (G !! Z.to_nat i = Some h) as Hh
    by (rewrite <- (Nat.add_0_r (Z.to_nat i)), <- lookup_drop, Hp; done).
  destruct (push_leaf_spec s i h Hs Hi Hh) as (s1 & E1 & Hs1). cbn [push_leaves].
  rewrite (sess_step _ _ _ _ _ E1). destruct (IH s1 (i + 1) Hs1 ltac:(lia)) as (s2 & E2 & Hs2).
  { exists rest. replace (Z.to_nat (i + 1)) with (S (Z.to_nat i)) by lia.
    apply (f_equal (drop 1)) in Hp. rewrite drop_drop in Hp. simpl in Hp.
    by rewrite Nat.add_comm in Hp. }
  exists s2. rewrite E2. cbn [length]. replace (i + Z.of_nat (S (length hs))) with (i + 1 + Z.of_nat (length hs)) by lia.
  done.
Qed.

(** ** The tree head *)

Abbreviation MTH := (MTH hash_children empty_root).

Lemma perfect_hash_spec n s p idx :
  session_inv (levels_of n) s -> 0 <= p < 64 -> 0 <= idx -> (idx + 1) * 2 ^ p <= n -> n <= total G ->
  exists s', perfect_hash d p idx s = (Ok (MTH (run G (idx * 2 ^ p) (2 ^ p))), s')
    /\ session_inv (levels_of n) s'.
Proof.
  intros Hs Hp Hidx Hb Hn. unfold perfect_hash, TILE_HEIGHT_BITS.
  set (L := p / 8). set (j := p mod 8).
  assert (p = 8 * L + j /\ 0 <= j < 8 /\ 0 <= L) as (Ep & Hj & HL0)
    by (subst L j; pose proof (Z.div_mod p 8); pose proof (Z.mod_pos_bound p 8); pose proof (Z.div_pos p 8); lia).
  assert (level L) as HL by (unfold level; lia).
  assert (2 ^ p = 2 ^ j * 256 ^ L) as Epow
    by (change 256 with (2 ^ 8); rewrite <- Z.pow_mul_r, <- Z.pow_add_r by lia; f_equal; lia).
  pose proof (pow256_pos L HL0) as HposL. pose proof (Z.pow_pos_nonneg 2 j ltac:(lia) ltac:(lia)) as Hposj.
  assert ((idx + 1) * 2 ^ j <= levels_of n L) as Hlev by (unfold levels_of; apply Z.div_le_lower_bound; nia).
  assert (fold_perfect (nodes L (idx * 2 ^ j) (2 ^ j)) = Ok (MTH (run G (idx * 2 ^ p) (2 ^ p)))) as Hfold.
  { rewrite (fold_perfect_spec (Z.to_nat j)).
    2:{ pose proof (nodes_length G L (idx * 2 ^ j) (2 ^ j) ltac:(lia)) as El. rewrite Epow in Hb.
        apply Nat2Z.inj. rewrite El, Nat2Z.inj_pow, Z2Nat.id by lia. done. }
    f_equal. rewrite <- (Z2Nat.id j) by lia. rewrite nodes_MTH by (rewrite ?Z2Nat.id; nia).
    rewrite Z2Nat.id, Epow by lia. f_equal; f_equal; ring. }
  destruct (Z.eqb_spec j 0) as [Ej|Ej].
  - destruct (read_stored_spec (levels_of n) s L idx Hs HL) as (s1 & E1 & Hs1).
    { rewrite Ej, Z.pow_0_r in Hlev. lia. }
    exists s1. split; [|done]. rewrite E1. do 2 f_equal. rewrite Ej, Z.pow_0_r, Z.mul_1_r in Hfold.
    unfold TileStore.nodes in Hfold. cbn in Hfold. by injection Hfold.
  - rewrite !Z.shiftl_mul_pow2, Z.mul_1_l by lia.
    destruct (read_all_stored_spec (levels_of n) s L (idx * 2 ^ j) (Z.to_nat (2 ^ j)) Hs HL) as (s1 & E1 & Hs1);
      [nia|rewrite Z2Nat.id by lia; lia|].
    rewrite Z2Nat.id in E1 by lia. rewrite (sess_step _ _ _ _ _ E1). exists s1. split; [|done].
    unfold sess_lift. by rewrite Hfold.
Qed.

(** The frontier folded from the right. *)
Fixpoint fold_right_peaks (hs : list bytes) : bytes :=
  match hs with
  | [] => empty_root
  | [h] => h
  | h :: hs => hash_children h (fold_right_peaks hs)
  end.

Lemma fold_left_peaks hs acc :
  fold_left (fun acc left => hash_children left acc) (rev hs) acc = fold_right_peaks (hs ++ [acc]).
Proof using.
  revert acc. induction hs as [|h hs IH]; intros acc; [done|]. cbn [rev app].
  rewrite fold_left_app. cbn [fold_left fold_right_peaks]. rewrite IH.
  destruct (hs ++ [acc]) eqn:E; [by destruct hs|]. done.
Qed.

(** The top bit of a number. *)
Lemma testbit_top r q : 0 <= q -> 0 <= r < 2 ^ (q + 1) -> Z.testbit r q = (2 ^ q <=? r).
Proof using.
  intros Hq Hr. rewrite Z.pow_add_r in Hr by lia. change (2 ^ 1) with 2 in Hr.
  pose proof (Z.testbit_spec' r q Hq) as E. pose proof (Z.pow_pos_nonneg 2 q ltac:(lia) Hq).
  destruct (Z.leb_spec (2 ^ q) r).
  - replace (r / 2 ^ q) with 1 in E by (apply (Z.div_unique _ _ _ (r - 2 ^ q)); lia). by destruct (Z.testbit r q).
  - rewrite Z.div_small in E by lia. by destruct (Z.testbit r q).
Qed.

Lemma land_top r q : 0 <= q -> Z.land r (2 ^ q) = if Z.testbit r q then 2 ^ q else 0.
Proof using.
  intros Hq. apply Z.bits_inj'. intros n Hn. rewrite Z.land_spec, Z.pow2_bits_eqb by lia.
  destruct (Z.eqb_spec q n) as [<-|Hne].
  - destruct (Z.testbit r q); [by rewrite Z.pow2_bits_true|by rewrite Z.bits_0].
  - rewrite andb_false_r. destruct (Z.testbit r q); [by rewrite Z.pow2_bits_false by lia|by rewrite Z.bits_0].
Qed.

Lemma lxor_top r q : 0 <= q -> Z.testbit r q = true -> Z.lxor r (2 ^ q) = r - 2 ^ q.
Proof using.
  intros Hq Hb. rewrite Z.sub_nocarry_ldiff.
  - apply Z.bits_inj'. intros n Hn. rewrite Z.lxor_spec, Z.ldiff_spec, Z.pow2_bits_eqb by lia.
    destruct (Z.eqb_spec q n) as [<-|]; [by rewrite Hb|]. by rewrite xorb_false_r, andb_true_r.
  - apply Z.bits_inj'. intros n Hn. rewrite Z.ldiff_spec, Z.pow2_bits_eqb, Z.bits_0 by lia.
    destruct (Z.eqb_spec q n) as [<-|]; [by rewrite Hb|done].
Qed.

(** The frontier below [2^p] leaves from leaf [pos] on. *)
Lemma frontier_walk_spec n p s pos rem :
  session_inv (levels_of n) s -> (p <= 64)%nat -> 0 <= pos -> 0 <= rem < 2 ^ Z.of_nat p ->
  pos + rem <= n -> n <= total G -> pos mod 2 ^ Z.of_nat p = 0 ->
  exists s' hs, frontier_walk d (rev (seqZ 0 (Z.of_nat p))) pos rem s = (Ok hs, s')
    /\ session_inv (levels_of n) s' /\ (rem = 0 <-> hs = [])
    /\ (0 < rem -> fold_right_peaks hs = MTH (run G pos rem)).
Proof.
  revert s pos rem. induction p as [|p IH]; intros s pos rem Hs Hp Hpos Hrem Hn HnG Hmod.
  { assert (rem = 0) as -> by (simpl in Hrem; lia). exists s, []. split_and!; [done|done|done|lia]. }
  set (q := Z.of_nat p) in *. assert (0 <= q) as Hq by lia.
  rewrite Nat2Z.inj_succ, <- Z.add_1_r in *. fold q in Hrem, Hmod |- *.
  rewrite seqZ_app, rev_app_distr by lia. cbn [rev app seqZ]. replace (0 + q) with q by lia.
  change (rev (seqZ q 1)) with [q]. cbn [app frontier_walk].
  rewrite !Z.shiftl_mul_pow2, Z.mul_1_l by lia.
  rewrite land_top, testbit_top by lia.
  pose proof (Z.pow_pos_nonneg 2 q ltac:(lia) Hq) as Hpow.
  assert (2 ^ (q + 1) = 2 * 2 ^ q) as E2 by (rewrite Z.pow_add_r by lia; lia). rewrite E2 in *.
  assert (pos = 2 ^ q * (2 * (pos / (2 * 2 ^ q)))) as Epos by (pose proof (Z.div_mod pos (2 * 2 ^ q)); lia).
  assert (pos mod 2 ^ q = 0) as Hmodq by (rewrite Epos, Z.mul_comm; apply Z.mod_mul; lia).
  destruct (Z.leb_spec (2 ^ q) rem) as [Hge|Hlt].
  2:{ apply (IH s pos rem Hs); [lia|lia|lia|lia|lia|done]. }
  destruct (Z.eqb_spec (2 ^ q) 0); [lia|]. rewrite Z.shiftr_div_pow2 by lia.
  assert (pos / 2 ^ q * 2 ^ q = pos) as Ediv by (pose proof (Z.div_mod pos (2 ^ q)); lia).
  destruct (perfect_hash_spec n s q (pos / 2 ^ q) Hs) as (s1 & E1 & Hs1);
    [lia|apply Z.div_pos; lia|rewrite Z.mul_add_distr_r, Ediv; lia|done|].
  rewrite Ediv in E1. rewrite (sess_step _ _ _ _ _ E1).
  rewrite lxor_top by (done || rewrite testbit_top by lia; by apply Z.leb_le).
  destruct (IH s1 (pos + 2 ^ q) (rem - 2 ^ q) Hs1) as (s2 & hs & E2' & Hs2 & Hz & Hf);
    [lia|lia|lia|lia|done|rewrite Z.add_mod, Hmodq, Z.mod_same by lia; done|].
  rewrite (sess_step _ _ _ _ _ E2'). eexists s2, _. split; [reflexivity|]. split; [done|].
  split; [split; [lia|done]|]. intros _.
  destruct (decide (rem = 2 ^ q)) as [->|Hne].
  - assert (hs = []) as -> by (apply Hz; lia). done.
  - destruct hs as [|h2 hs]; [exfalso; assert (rem - 2 ^ q = 0) by (by apply Hz); lia|].
    cbn [fold_right_peaks] in *. rewrite Hf by lia.
    replace rem with (2 ^ q + (rem - 2 ^ q)) at 2 by lia. rewrite run_app by lia.
    rewrite (MTH_app hash_children empty_root _ _ p); [done|..].
    + pose proof (run_length G pos (2 ^ q)) as El. apply Nat2Z.inj. rewrite El, Nat2Z.inj_pow by lia. done.
    + pose proof (run_length G (pos + 2 ^ q) (rem - 2 ^ q)). lia.
    + pose proof (run_length G (pos + 2 ^ q) (rem - 2 ^ q)). apply Nat2Z.inj_le. rewrite Nat2Z.inj_pow. fold q.
      change (Z.of_nat 2) with 2. lia.
Qed.

Lemma tree_head_spec n s :
  session_inv (levels_of n) s -> 0 < n <= total G ->
  exists s', tree_head d n s = (Ok (MTH (run G 0 n)), s') /\ session_inv (levels_of n) s'.
Proof.
  intros Hs Hn. unfold tree_head.
  destruct (frontier_walk_spec n 64 s 0 n Hs) as (s1 & hs & E1 & Hs1 & Hz & Hf);
    [lia|lia|change (2 ^ Z.of_nat 64) with (2 * 2 ^ 63); lia|lia|lia|done|].
  unfold tree_levels. change (Z.of_nat 64) with 64 in E1. rewrite (sess_step _ _ _ _ _ E1).
  assert (hs <> []) as Hne by (intros Hx; apply Hz in Hx; lia).
  destruct (rev hs) as [|acc rest] eqn:Er; [exfalso; apply Hne; by rewrite <- (rev_involutive hs), Er|].
  exists s1. split; [|done]. unfold mret, Sess_ret. do 2 f_equal. rewrite <- Hf by lia.
  rewrite <- (rev_involutive hs), Er. cbn [rev]. rewrite <- (rev_involutive rest) at 1. apply fold_left_peaks.
Qed.
End Session.
