(* ===== verification/TileCrash.v ===== *)
(** Crash safety of the tile log: every write leaves the tiles of the committed
    leaves readable, wherever a crash interrupts it, and a finished append holds
    exactly the extended log; for one write and for sequences of them. *)

From stdpp Require Import base list numbers sets sorting gmap strings options.
From Stdlib Require Import ZArith Lia.
From S2P Require Import Prelude RustStd RustText Wire MerkleTree LogMerkle Disk Checkpoint TilePaths TileLog TileStore TileSessionSpec.

Open Scope Z_scope.

(** ** Temporary files *)

Lemma parse_digits_dot acc s r : parse_digits acc (s ++ DOT :: r) = None.
Proof.
  rewrite parse_digits_app. by destruct (parse_digits acc s).
Qed.

Lemma tmp_entry_width n : 0 <= n -> entry_width (show_u64 n ++ bstr ".tmp") = None.
Proof.
  intros Hn. unfold entry_width. destruct (utf8_valid _); [|done].
  destruct (show_u64_digits n Hn) as [Hd Hne]. destruct (show_u64 n) as [|c l]; [done|].
  cbn [app parse_u64]. rewrite bool_decide_false.
  - change (c :: l ++ bstr ".tmp") with ((c :: l) ++ DOT :: bstr "tmp"). apply parse_digits_dot.
  - apply digit_not_plus. simpl in Hd. by apply andb_true_iff in Hd as [? _].
Qed.

(** A temporary file is no entry with a width. *)
Lemma tmp_not_width L t w L' t' name :
  tile_id L t -> tile_width w -> tile_id L' t' ->
  tmp_path (data_tile_rel L t w) = partial_entry L' t' name -> entry_width name = None.
Proof.
  intros Hid Hw Hid' E. unfold tmp_path in E. destruct (decide (w = 256)) as [->|Hne].
  - exfalso. rewrite partial_entry_eq in E. unfold data_tile_rel in E.
    replace (256 =? TILE_WIDTH) with true in E by done.
    destruct (tile_id_nonneg _ _ Hid), (tile_id_nonneg _ _ Hid').
    apply dot_delimited in E as [_ E]; [done|by apply tile_base_no_dot..|done|done].
  - rewrite partial_path in E by done. unfold partial_entry in E at 1. rewrite <- app_assoc in E.
    change ((SLASH :: show_u64 w) ++ bstr ".tmp") with (SLASH :: (show_u64 w ++ bstr ".tmp")) in E.
    change (partial_entry L t (show_u64 w ++ bstr ".tmp") = partial_entry L' t' name) in E.
    apply partial_entry_inj in E as (_ & _ & <-); [|done..]. apply tmp_entry_width. unfold tile_width in Hw. lia.
Qed.

Definition tile_area (p : bytes) : Prop := exists q, p = bstr "tile/" ++ q.

Lemma tile_area_not_checkpoint p :
  tile_area p -> p <> CHECKPOINT_FILE /\ p <> CHECKPOINT_HISTORY_FILE.
Proof. intros (q & ->). by split. Qed.

Lemma tile_path_area L t w : tile_area (data_tile_rel L t w).
Proof. rewrite data_tile_rel_eq. unfold tile_base, tile_area. rewrite <- app_assoc. eauto. Qed.

Lemma tile_tmp_area L t w : tile_area (tmp_path (data_tile_rel L t w)).
Proof. unfold tmp_path. destruct (tile_path_area L t w) as [q ->]. rewrite <- app_assoc. by eexists. Qed.

Lemma partial_entry_area L t name : tile_area (partial_entry L t name).
Proof. rewrite partial_entry_eq. unfold tile_base, tile_area. rewrite <- app_assoc. eauto. Qed.

(** The checkpoint files are the same. *)
Definition frame (d d' : disk) : Prop :=
  d' !! CHECKPOINT_FILE = d !! CHECKPOINT_FILE
  /\ d' !! CHECKPOINT_HISTORY_FILE = d !! CHECKPOINT_HISTORY_FILE.

#[export] Instance frame_preorder : PreOrder frame.
Proof. split; [by intros d|]. intros d1 d2 d3 [A1 B1] [A2 B2]. split; congruence. Qed.

Lemma frame_insert d p c : tile_area p -> frame d (<[p := c]> d).
Proof. intros Hp. destruct (tile_area_not_checkpoint p Hp). split; by rewrite lookup_insert_ne. Qed.

Lemma frame_delete d p : tile_area p -> frame d (delete p d).
Proof. intros Hp. destruct (tile_area_not_checkpoint p Hp). split; by rewrite lookup_delete_ne. Qed.

Section Writes.
Context `{Sha256, DirOrder}.
Variable G : list bytes.
Hypothesis G_hashes : hashes32 G.
#[local] Set Default Proof Using "Type*".

(** [covers], the tiles of [X] apart. *)
Definition covers_but (d : disk) (n : Z) (X : list (Z * Z)) : Prop :=
  forall L t, tile_id L t -> 0 < avail n L t -> (L, t) ∉ X ->
    exists w, avail n L t <= w <= 256 /\ is_Some (d !! data_tile_rel L t w).

Lemma covers_but_nil d n : covers_but d n [] <-> covers d n.
Proof using.
  split; intros Hc L t Hid Ha; [apply Hc; [done|done|apply not_elem_of_nil]|]. intros _. by apply Hc.
Qed.

Lemma tiles_inv_delete d p : tiles_inv G d -> tiles_inv G (delete p d).
Proof using.
  intros [I1 I2]. split.
  - intros L t w b Hid Hw [_ Hb]%lookup_delete_Some. by eapply I1.
  - intros L t name b w Hid [_ Hb]%lookup_delete_Some. by eapply I2.
Qed.

Lemma tiles_inv_tmp d L t w c :
  tile_id L t -> tile_width w -> tiles_inv G d -> tiles_inv G (<[tmp_path (data_tile_rel L t w) := c]> d).
Proof using.
  intros Hid Hw [I1 I2]. split.
  - intros L' t' w' b Hid' Hw' Hb. rewrite lookup_insert_ne in Hb; [by eapply I1|].
    intros E. by apply (tile_not_tmp L' t' w' (data_tile_rel L t w)).
  - intros L' t' name b w' Hid' [[E _]|[_ Hb]]%lookup_insert_Some Hn; [|by eapply I2].
    apply tmp_not_width in E; [congruence|done..].
Qed.

Lemma tiles_inv_tile d L t w :
  tile_id L t -> tile_width w -> w <= avail (total G) L t -> tiles_inv G d ->
  tiles_inv G (<[data_tile_rel L t w := tile_bytes G L t w]> d).
Proof using.
  intros Hid Hw Ha [I1 I2]. split.
  - intros L' t' w' b Hid' Hw' [[E <-]|[_ Hb]]%lookup_insert_Some; [|by eapply I1].
    apply data_tile_rel_inj in E as (-> & -> & ->); done.
  - intros L' t' name b w' Hid' [[E _]|[_ Hb]]%lookup_insert_Some Hn; [|by eapply I2].
    symmetry in E. apply partial_entry_tile in E as (-> & -> & Hne & ->); [|done..].
    unfold tile_width in Hw. rewrite entry_width_show in Hn by (unfold is_u64; lia). injection Hn as <-. done.
Qed.

(** A disk change that keeps the tiles readable: [p] is the tile being written. *)
Record keeps (L t w : Z) (d d' : disk) : Prop := {
  keeps_inv : tiles_inv G d';
  keeps_frame : frame d d';
  keeps_cover : forall n X, avail n L t <= w -> covers_but d n X -> covers_but d' n X;
}.

Lemma covers_but_insert d n X p c : covers_but d n X -> covers_but (<[p := c]> d) n X.
Proof using.
  intros Hc L t Hid Ha HX. destruct (Hc L t Hid Ha HX) as (w & Hw & Hin). exists w. split; [done|].
  rewrite lookup_insert_is_Some'. by right.
Qed.

Lemma covers_but_delete_tmp d n X L t w :
  tile_id L t -> tile_width w -> covers_but d n X ->
  covers_but (delete (tmp_path (data_tile_rel L t w)) d) n X.
Proof using.
  intros Hid Hw Hc L' t' Hid' Ha HX. destruct (Hc L' t' Hid' Ha HX) as (w' & Hw' & Hin). exists w'.
  split; [done|]. rewrite lookup_delete_ne; [done|]. intros E. symmetry in E.
  apply (tile_not_tmp L' t' w' (data_tile_rel L t w)); [done|unfold tile_width; lia|done].
Qed.

(** Dropping other variants of the tile just written. *)
Lemma remove_variant d0 L t w d name :
  tile_id L t -> tile_width w -> is_Some (d !! data_tile_rel L t w) ->
  entry_width name <> (if w =? TILE_WIDTH then None else Some w) ->
  keeps L t w d0 d ->
  keeps L t w d0 (delete (partial_entry L t name) d)
  /\ is_Some (delete (partial_entry L t name) d !! data_tile_rel L t w).
Proof using.
  intros Hid Hw Hin Hname [K1 K2 K3].
  assert (partial_entry L t name <> data_tile_rel L t w) as Hne.
  { intros E. apply partial_entry_tile in E as (_ & _ & Hn256 & ->); [|done..].
    unfold tile_width in Hw. rewrite entry_width_show in Hname by (unfold is_u64; lia).
    unfold TILE_WIDTH in Hname. destruct (Z.eqb_spec w 256); [done|]. by apply Hname. }
  assert (is_Some (delete (partial_entry L t name) d !! data_tile_rel L t w)) as Hin'
    by (by rewrite lookup_delete_ne).
  split; [|done]. split.
  - by apply tiles_inv_delete.
  - etransitivity; [exact K2|]. apply frame_delete, partial_entry_area.
  - intros n X Hn Hc L' t' Hid' Ha HX. destruct (decide ((L', t') = (L, t))) as [[= -> ->]|Hother].
    + exists w. unfold tile_width in Hw. split; [lia|done].
    + destruct (K3 n X Hn Hc L' t' Hid' Ha HX) as (w' & Hw' & Hin2). exists w'. split; [done|].
      rewrite lookup_delete_ne; [done|]. intros E.
      apply partial_entry_tile in E as (-> & -> & _); [done|done|done|unfold tile_width; lia].
Qed.

Lemma prune_keeps d0 L t w names d :
  tile_id L t -> tile_width w -> is_Some (d !! data_tile_rel L t w) ->
  Forall (fun name => entry_width name <> (if w =? TILE_WIDTH then None else Some w)) names ->
  keeps L t w d0 d ->
  (forall d', crash d (map (fun name => RemoveFile (partial_entry L t name)) names) d' -> keeps L t w d0 d')
  /\ keeps L t w d0 (apply_ops (map (fun name => RemoveFile (partial_entry L t name)) names) d)
  /\ is_Some (apply_ops (map (fun name => RemoveFile (partial_entry L t name)) names) d !! data_tile_rel L t w).
Proof using.
  intros Hid Hw Hin Hnames. revert d Hin. induction Hnames as [|name names Hn _ IH]; intros d Hin Hk.
  { split; [by intros d' ->%crash_nil|]. by split. }
  destruct (remove_variant d0 L t w d name Hid Hw Hin Hn Hk) as [Hk' Hin'].
  destruct (IH _ Hin' Hk') as (I1 & I2 & I3). split; [|done].
  intros d' Hc. inversion Hc; subst; [done|by apply I1].
Qed.

(** Writing a tile and dropping its other variants. *)
Lemma put_tile_spec d L t w :
  tile_id L t -> tile_width w -> w <= avail (total G) L t -> tiles_inv G d ->
  (put_tile L t w (tile_bytes G L t w) d).1 = Ok tt
  /\ (forall d', crash d (put_tile L t w (tile_bytes G L t w) d).2 d' -> keeps L t w d d')
  /\ keeps L t w d (io_disk (put_tile L t w (tile_bytes G L t w)) d)
  /\ is_Some (io_disk (put_tile L t w (tile_bytes G L t w)) d !! data_tile_rel L t w).
Proof using.
  intros Hid Hw Ha Hinv. set (p := data_tile_rel L t w). set (b := tile_bytes G L t w).
  set (d1 := <[p := b]> (delete (tmp_path p) (<[tmp_path p := b]> d))).
  assert (p <> []) as Hp by (unfold p; destruct (tile_path_area L t w) as [q ->]; done).
  assert (forall c, keeps L t w d (<[tmp_path p := c]> d)) as Ktmp.
  { intros c. split; [by apply tiles_inv_tmp|apply frame_insert, tile_tmp_area|].
    intros n X _. apply covers_but_insert. }
  assert (keeps L t w d d1) as K1.
  { split.
    - apply tiles_inv_tile; [done..|]. by apply tiles_inv_delete, tiles_inv_tmp.
    - etransitivity; [apply (frame_insert d (tmp_path p) b), tile_tmp_area|].
      etransitivity; [apply frame_delete, (tile_tmp_area L t w)|]. apply frame_insert, tile_path_area.
    - intros n X _ Hc. by apply covers_but_insert, covers_but_delete_tmp, covers_but_insert. }
  assert (apply_ops [WriteFile (tmp_path p) b; Rename (tmp_path p) p] d = d1) as Ed1.
  { cbn [apply_ops fold_left apply_op]. by rewrite lookup_insert_eq. }
  set (names := filter (fun name => entry_width name <> (if w =? TILE_WIDTH then None else Some w))
                  (read_dir (partial_dir L t) d1)).
  assert (put_tile L t w b d
          = (Ok tt, [WriteFile (tmp_path p) b; Rename (tmp_path p) p]
                    ++ map (fun name => RemoveFile (partial_entry L t name)) names)) as E.
  { unfold put_tile. rewrite (io_bind_run _ _ d tt [WriteFile (tmp_path p) b; Rename (tmp_path p) p]).
    - rewrite Ed1. done.
    - unfold write_atomic. fold p. by rewrite bool_decide_false. }
  unfold io_disk. rewrite E. cbn [fst snd].
  destruct (prune_keeps d L t w names d1) as (P1 & P2 & P3);
    [done|done|by subst d1; rewrite lookup_insert_eq| |done|].
  { apply Forall_forall. intros name [Hn _]%list_elem_of_filter. exact Hn. }
  rewrite apply_ops_app, Ed1. split; [done|]. split; [|done].
  intros d' [Hc|Hc]%crash_app; [|rewrite Ed1 in Hc; by apply P1].
  inversion Hc as [|? ? ? ? k| |? ? ? ? Hc1]; subst; [|apply Ktmp|].
  - split; [done|done|]. by intros n X _.
  - inversion Hc1 as [| | |? ? ? ? Hc2]; subst; [apply Ktmp|]. apply crash_nil in Hc2 as ->.
    change (keeps L t w d (apply_ops [WriteFile (tmp_path p) b; Rename (tmp_path p) p] d)). by rewrite Ed1.
Qed.
End Writes.

(** Sequences of tile writes: what the tile files are after each, for readers of
    the committed leaves at every instant and for the exact set of files. *)

Lemma avail_mono n m L t : 0 <= L -> n <= m -> avail n L t <= avail m L t.
Proof.
  intros HL Hn. unfold avail. assert (n / 256 ^ L <= m / 256 ^ L); [|lia].
  apply Z.div_le_mono; [by apply pow256_pos|done].
Qed.

(** No tile above level 8 in a log below [2^63] leaves. *)
Lemma avail_level n L t : 0 <= n < 2 ^ 63 -> 0 <= L -> 0 <= t -> 0 < avail n L t -> level L.
Proof.
  intros Hn HL Ht Ha. unfold level. split; [done|]. apply Z.nle_gt. intros H9. unfold avail in Ha.
  rewrite Z.div_small in Ha; [lia|]. split; [lia|].
  assert (256 ^ 9 <= 256 ^ L) by (apply Z.pow_le_mono_r; lia).
  assert (2 ^ 63 <= 256 ^ 9) by (vm_compute; discriminate). lia.
Qed.

(** The tile files are the same. *)
Definition same_tiles (d d' : disk) : Prop := forall p, tile_area p -> d' !! p = d !! p.

Lemma same_tiles_insert d p c : ~ tile_area p -> same_tiles d (<[p := c]> d).
Proof. intros Hp q Hq. rewrite lookup_insert_ne; [done|]. by intros ->. Qed.

Lemma not_tile_area p : strip_prefix (bstr "tile/") p = None -> ~ tile_area p.
Proof.
  intros E (q & ->). assert (strip_prefix (bstr "tile/") (bstr "tile/" ++ q) = Some q) as E'
    by (by apply strip_prefix_spec). congruence.
Qed.

(** * Exact tile directories *)

Section Exact.
Context `{Sha256, DirOrder}.
Variable G : list bytes.
#[local] Set Default Proof Using "Type".

(** The tile files are exactly one file per tile, of the given widths. *)
Definition exact (width : Z -> Z -> Z) (d : disk) : Prop :=
  forall p c, tile_area p ->
    d !! p = Some c <->
    exists L t, tile_id L t /\ 0 < width L t /\ p = data_tile_rel L t (width L t)
                /\ c = tile_bytes G L t (width L t).

Lemma exact_agree width d1 d2 p :
  exact width d1 -> exact width d2 -> tile_area p -> d1 !! p = d2 !! p.
Proof.
  intros H1 H2 Hp. destruct (d1 !! p) as [c|] eqn:E.
  - apply (H1 p c Hp), (H2 p c Hp) in E. by rewrite E.
  - destruct (d2 !! p) as [c|] eqn:E2; [|done]. apply (H2 p c Hp), (H1 p c Hp) in E2. congruence.
Qed.

Lemma exact_ext w1 w2 d :
  (forall L t, tile_id L t -> w1 L t = w2 L t) -> exact w1 d -> exact w2 d.
Proof.
  intros E Hx p c Hp. rewrite (Hx p c Hp). split; intros (L & t & Hid & Hw & Ep & Ec);
    exists L, t; [rewrite <- !E by done|rewrite !E by done]; done.
Qed.

Lemma exact_same width d d' : same_tiles d d' -> exact width d -> exact width d'.
Proof. intros Hs Hx p c Hp. rewrite Hs by done. by apply Hx. Qed.

Definition upd_width (width : Z -> Z -> Z) (L t w L' t' : Z) : Z :=
  if decide ((L', t') = (L, t)) then w else width L' t'.

Lemma remove_files L t names d q c :
  apply_ops (map (fun name => RemoveFile (partial_entry L t name)) names) d !! q = Some c
  <-> d !! q = Some c /\ (forall name, name ∈ names -> q <> partial_entry L t name).
Proof.
  revert d. induction names as [|x names IH]; intros d.
  { split; [|by intros [? _]]. intros Hq. split; [done|]. by intros name ?%not_elem_of_nil. }
  cbn [map apply_ops fold_left apply_op]. change (fold_left _ ?ops ?e) with (apply_ops ops e).
  rewrite IH, lookup_delete_Some. split.
  - intros [[Hne Hq] Hn]. split; [done|]. intros name [->|Hin]%elem_of_cons; [congruence|by apply Hn].
  - intros [Hq Hn]. split; [split; [|done]|].
    + intros E. apply (Hn x); [by left|done].
    + intros name Hin. apply Hn. by right.
Qed.

(** The files after a tile is put: the tile, and the others except its partial
    variants of another width. *)
Lemma put_tile_files d L t w b q c :
  tile_id L t -> tile_width w ->
  let p := data_tile_rel L t w in
  let keep := if w =? TILE_WIDTH then None else Some w in
  io_disk (put_tile L t w b) d !! q = Some c <->
    (q = p /\ c = b \/ q <> p /\ q <> tmp_path p /\ d !! q = Some c)
    /\ (forall name, name <> [] -> no_slash name = true -> entry_width name <> keep -> q <> partial_entry L t name).
Proof.
  intros Hid Hw p keep. set (d1 := <[p := b]> (delete (tmp_path p) (<[tmp_path p := b]> d))).
  assert (p <> []) as Hp by (unfold p; destruct (tile_path_area L t w) as [x ->]; done).
  set (names := filter (fun name => entry_width name <> keep) (read_dir (partial_dir L t) d1)).
  assert (io_disk (put_tile L t w b) d
          = apply_ops (map (fun name => RemoveFile (partial_entry L t name)) names) d1) as ->.
  { unfold io_disk, put_tile. rewrite (io_bind_run _ _ d tt [WriteFile (tmp_path p) b; Rename (tmp_path p) p]).
    2:{ unfold write_atomic. fold p. by rewrite bool_decide_false. }
    cbn [snd]. rewrite apply_ops_app.
    assert (apply_ops [WriteFile (tmp_path p) b; Rename (tmp_path p) p] d = d1) as ->; [|done].
    cbn [apply_ops fold_left apply_op]. by rewrite lookup_insert_eq. }
  rewrite remove_files.
  assert (d1 !! q = Some c <-> (q = p /\ c = b \/ q <> p /\ q <> tmp_path p /\ d !! q = Some c)) as Hd1.
  { subst d1. rewrite lookup_insert_Some, lookup_delete_Some, lookup_insert_Some. naive_solver. }
  rewrite <- Hd1. split; intros [Hq Hn]; (split; [done|]).
  - intros name Hne Hns Hk E. apply (Hn name); [|done]. apply list_elem_of_filter. split; [done|].
    apply read_dir_spec. split; [|done]. change (partial_dir L t ++ SLASH :: name) with (partial_entry L t name).
    rewrite <- E. by exists c.
  - intros name [Hk (_ & Hne & Hns)%read_dir_spec]%list_elem_of_filter. by apply Hn.
Qed.

(** Putting a wider tile in an exact directory. *)
Lemma put_tile_exact width d L t w :
  tile_id L t -> tile_width w -> width L t <= w ->
  (forall L t, width L t <= 256) -> exact width d ->
  exact (upd_width width L t w) (io_disk (put_tile L t w (tile_bytes G L t w)) d).
Proof.
  intros Hid Hw Hle Hmax Hx q c Hq. rewrite put_tile_files by done. split.
  - intros [[[-> ->]|(Hp & Htmp & Hc)] Hn].
    + exists L, t. unfold upd_width. rewrite decide_True by done. unfold tile_width in Hw. split_and!; [done|lia|done..].
    + apply (Hx q c Hq) in Hc as (L' & t' & Hid' & Hw' & -> & ->). exists L', t'.
      unfold upd_width. rewrite decide_False; [done|]. intros [= -> ->].
      assert (width L t <> w) as Hne by congruence. assert (width L t <> 256) as H256 by (unfold tile_width in *; lia).
      apply (Hn (show_u64 (width L t))); [|apply digits_no_slash; lia| |apply partial_path; [unfold tile_width in *; lia|done]].
      * apply show_u64_digits. lia.
      * specialize (Hmax L t). rewrite entry_width_show by (unfold is_u64; lia). destruct (w =? TILE_WIDTH); congruence.
  - intros (L' & t' & Hid' & Hw' & -> & ->). unfold upd_width in *.
    assert (forall w', tile_width w' -> (L', t', w') <> (L, t, w) -> data_tile_rel L' t' w' <> data_tile_rel L t w) as Hinj.
    { intros w' Hw2 Hne E. apply data_tile_rel_inj in E as (-> & -> & ->); done. }
    destruct (decide ((L', t') = (L, t))) as [[= -> ->]|Hne].
    + split; [by left|]. intros name Hne Hns Hk E.
      symmetry in E. apply partial_entry_tile in E as (_ & _ & Hn256 & ->); [|done..]. unfold tile_width in Hw.
      rewrite entry_width_show in Hk by (unfold is_u64; lia). unfold TILE_WIDTH in Hk. by destruct (Z.eqb_spec w 256).
    + assert (tile_width (width L' t')) as Hw2 by (specialize (Hmax L' t'); unfold tile_width; lia). split.
      * right. split_and!; [apply Hinj; congruence| |].
        -- intros E. by apply (tile_not_tmp L' t' (width L' t') (data_tile_rel L t w)).
        -- apply (Hx _ _ Hq). by exists L', t'.
      * intros name _ _ _ E. symmetry in E. apply partial_entry_tile in E as (-> & -> & _); done.
Qed.

End Exact.

(** * Sequences of writes *)

Fixpoint seq_io (ms : list (Io io_error unit)) : Io io_error unit :=
  match ms with
  | [] => mret tt
  | m :: ms => _ ← m; seq_io ms
  end.

Section Writes.
Context `{Sha256, DirOrder}.
Variable G : list bytes.
Variables old new : Z.
Hypothesis old_new : 0 <= old <= new.
Hypothesis new_bound : new <= total G.
#[local] Set Default Proof Using "Type*".

(** A write of tile [(L, t)] at its new width, or no write when the full tile is
    already there. *)
Record tile_write (key : Z * Z) (m : Io io_error unit) : Prop := {
  tw_id : tile_id key.1 key.2;
  tw_width : tile_width (avail new key.1 key.2);
  tw_run : forall d,
    m d = put_tile key.1 key.2 (avail new key.1 key.2) (tile_bytes G key.1 key.2 (avail new key.1 key.2)) d
    \/ m d = (Ok tt, []) /\ is_Some (d !! data_tile_rel key.1 key.2 256) /\ avail new key.1 key.2 = 256;
}.

(** The tiles keep serving the old log while those of [X] are still to write. *)
Record flushing (d d' : disk) (X : list (Z * Z)) : Prop := {
  fl_inv : tiles_inv G d';
  fl_frame : frame d d';
  fl_old : covers d' old;
  fl_new : covers_but d' new X;
}.

(** The widths while the tiles of [X] are still to write. *)
Definition between (X : list (Z * Z)) (L t : Z) : Z :=
  if decide ((L, t) ∈ X) then avail old L t else avail new L t.

(** One write: it succeeds, a crash inside it keeps the old log, and it leaves
    one tile less to write. *)
Lemma tile_write_spec key m d0 d X :
  tile_write key m -> flushing d0 d (key :: X) ->
  (m d).1 = Ok tt
  /\ (forall d', crash d (m d).2 d' -> tiles_inv G d' /\ frame d0 d' /\ covers d' old)
  /\ flushing d0 (io_disk m d) X.
Proof.
  destruct key as [L t]. intros [Hid Hw Hrun] [F1 F2 F3 F4]. cbn [fst snd] in *.
  destruct (tile_id_nonneg _ _ Hid) as [HL _].
  pose proof (avail_mono old new L t HL ltac:(lia)) as Hold.
  pose proof (avail_mono new (total G) L t HL ltac:(lia)) as Hnew.
  unfold io_disk. destruct (Hrun d) as [->|(-> & Hin & H256)].
  2:{ cbn [fst snd apply_ops fold_left]. split; [done|]. split; [by intros d' ->%crash_nil|]. split; [done..|].
      intros L' t' Hid' Ha HX. destruct (decide ((L', t') = (L, t))) as [[= -> ->]|Hne].
      - exists 256. split; [lia|done].
      - apply F4; [done..|]. by intros [|]%elem_of_cons. }
  destruct (put_tile_spec G d L t _ Hid Hw Hnew F1) as (P1 & P2 & P3 & P4).
  assert (forall d', keeps G L t (avail new L t) d d' -> tiles_inv G d' /\ frame d0 d' /\ covers d' old) as Hkeep.
  { intros d' [K1 K2 K3]. split; [done|]. split; [by etransitivity|].
    apply covers_but_nil, K3; [done|]. by apply covers_but_nil. }
  split; [done|]. split; [intros d' Hc; by apply Hkeep, P2|].
  destruct (Hkeep _ P3) as (K1 & K2 & K3). split; [done..|].
  intros L' t' Hid' Ha HX. destruct (decide ((L', t') = (L, t))) as [[= -> ->]|Hne].
  - exists (avail new L t). unfold tile_width in Hw. split; [lia|done].
  - apply (keeps_cover G L t _ d _ P3 new ((L, t) :: X)); [lia|done..|].
    intros [|]%elem_of_cons; done.
Qed.

Lemma tile_write_exact key m d X :
  tile_write key m -> key ∉ X ->
  exact G (between (key :: X)) d -> exact G (between X) (io_disk m d).
Proof.
  destruct key as [L t]. intros [Hid Hw Hrun] HX Hx. cbn [fst snd] in *.
  destruct (tile_id_nonneg _ _ Hid) as [HL _]. pose proof (avail_mono old new L t HL ltac:(lia)) as Hold.
  assert (between ((L, t) :: X) L t = avail old L t) as Eb by (unfold between; by rewrite decide_True by left).
  assert (forall a b L t, avail a L t <= 256 /\ avail b L t <= 256) as Hmax by (unfold avail; lia).
  assert (forall w, w = avail new L t -> forall L' t', upd_width (between ((L, t) :: X)) L t w L' t' = between X L' t') as Eu.
  { intros w -> L' t'. unfold upd_width, between. destruct (decide ((L', t') = (L, t))) as [[= -> ->]|Hne].
    - by rewrite decide_False.
    - destruct (decide ((L', t') ∈ X)); [rewrite decide_True by (by right)|
        rewrite decide_False by (intros [|]%elem_of_cons; done)]; done. }
  unfold io_disk. destruct (Hrun d) as [->|(-> & [c Hc] & H256)].
  - eapply exact_ext; [intros L' t' _; by apply Eu|]. apply put_tile_exact; [done|done|lia| |done].
    intros. unfold between. destruct (decide _); apply (Hmax old new).
  - cbn [snd apply_ops fold_left]. eapply exact_ext; [|exact Hx]. intros L' t' Hid'. rewrite <- (Eu 256) by done.
    unfold upd_width. destruct (decide ((L', t') = (L, t))) as [[= -> ->]|]; [|done].
    apply Hx in Hc as (L2 & t2 & Hid2 & Hw2 & E & _); [|apply tile_path_area].
    assert (between ((L, t) :: X) L2 t2 <= 256) by (unfold between; destruct (decide _); apply (Hmax old new)).
    assert (tile_width (between ((L, t) :: X) L2 t2) /\ tile_width 256) as [Hw3 Hw4] by (unfold tile_width; lia).
    apply data_tile_rel_inj in E as (-> & -> & E); done.
Qed.

Lemma tile_writes_spec ks ms d0 d :
  Forall2 tile_write ks ms -> flushing d0 d ks ->
  (seq_io ms d).1 = Ok tt
  /\ (forall d', crash d (seq_io ms d).2 d' -> tiles_inv G d' /\ frame d0 d' /\ covers d' old)
  /\ flushing d0 (io_disk (seq_io ms) d) []
  /\ (NoDup ks -> exact G (between ks) d -> exact G (between []) (io_disk (seq_io ms) d)).
Proof.
  intros Hm. revert d. induction Hm as [|key m ks ms Hk Hm IH]; intros d HF.
  { split; [done|]. split; [|done]. destruct HF. by intros d' ->%crash_nil. }
  destruct (tile_write_spec key m d0 d ks Hk HF) as (S1 & S2 & S3).
  destruct (IH _ S3) as (I1 & I2 & I3 & I4). unfold io_disk in *. cbn [seq_io].
  rewrite (io_bind_run _ _ d tt (m d).2) by (rewrite <- S1; by destruct (m d)). cbn [fst snd].
  rewrite apply_ops_app. split; [done|]. split; [|split; [done|]].
  - intros d' [Hc|Hc]%crash_app; [by apply S2|by apply I2].
  - intros [Hn Hnd]%NoDup_cons Hx. apply I4; [done|]. by apply (tile_write_exact key m d ks).
Qed.
End Writes.
