(* ===== verification/TileAppend.v ===== *)
(** Correctness and crash safety of [append_leaf_hashes]: the invariant of a log
    directory, its preservation by an append that completes and by one a crash
    interrupts, and the read side. *)

From stdpp Require Import base list numbers sets sorting gmap strings options.
From Stdlib Require Import ZArith Lia.
From S2P Require Import Prelude RustStd RustText Wire MerkleTree LogMerkle Disk Checkpoint TilePaths TileLog.
From S2P Require Import TileStore TileSessionSpec TileCrash.

Open Scope Z_scope.

(** * Flushing the session *)

Section Flush.
Context `{Sha256, DirOrder}.
Variable G : list bytes.
Variables old new : Z.
Hypothesis old_new : 0 <= old <= new.
Hypothesis new_bound : new <= total G.
Hypothesis G_bound : total G < 2 ^ 63.
Variable s : TileSession.
Hypothesis s_inv : session_inv G old (levels_of new) s.
Hypothesis G_hashes : hashes32 G.
#[local] Set Default Proof Using "Type*".

Lemma dirty_tile key : key ∈ dirty s -> tile_write G new key (flush_tile s key).
Proof.
  destruct key as [L t]. intros Hd. destruct (si_dirty _ _ _ _ s_inv L t Hd) as [[b Hb] Hp].
  destruct (si_tiles _ _ _ _ s_inv L t b Hb) as (HL & Ht & ->).
  change (in_tile (levels_of new L) t) with (avail new L t) in *.
  assert (0 <= L) as HL0 by (unfold level in HL; lia).
  pose proof (avail_mono new (total G) L t HL0 new_bound) as Hnt.
  split; cbn [fst snd]; [|unfold tile_width, avail in *; lia|].
  { apply (levels_tile_id G new); [lia|done|done|done|].
    change (in_tile (levels_of (total G) L) t) with (avail (total G) L t). lia. }
  intros d. left. unfold flush_tile.
  rewrite (io_bind_run _ _ d (levels_of new L) []).
  2:{ unfold io_look, level_count. by rewrite (si_count _ _ _ _ s_inv L HL). }
  cbn [apply_ops fold_left app].
  replace (Z.min TILE_WIDTH (saturating_sub (levels_of new L) (t * TILE_WIDTH))) with (avail new L t)
    by (unfold avail, saturating_sub, TILE_WIDTH, levels_of; f_equal; f_equal; lia).
  rewrite (io_bind_run _ _ d (tile_bytes G L t (avail new L t)) []).
  - cbn [apply_ops fold_left app]. by destruct (put_tile _ _ _ _ d).
  - unfold io_look. rewrite Hb. rewrite byte_slice_prefix; [|by apply nodes_hashes|rewrite nodes_length; lia].
    by rewrite nodes_take by lia.
Qed.

Lemma flush_tiles_seq keys d : flush_tiles s keys d = seq_io (map (flush_tile s) keys) d.
Proof using.
  revert d. induction keys as [|key keys IH]; intros d; [done|]. cbn [flush_tiles map seq_io].
  unfold mbind, Io_bind. destruct (flush_tile s key d) as [[]]; [|done..]. by rewrite IH.
Qed.

(** A tile that is not dirty is the same in the old and the new log. *)
Lemma clean_tile L t : tile_id L t -> (L, t) ∉ dirty s -> avail new L t = avail old L t.
Proof.
  intros Hid HX. destruct (tile_id_nonneg _ _ Hid) as [HL Ht].
  pose proof (avail_mono old new L t HL ltac:(lia)). destruct (decide (avail new L t = avail old L t)) as [|Hne]; [done|].
  destruct HX. apply (si_changed _ _ _ _ s_inv); [|done|done].
  apply (avail_level new L t); [lia|done|done|]. unfold avail in *. lia.
Qed.

Lemma flush_spec d :
  tiles_inv G d -> covers d old ->
  (flush s d).1 = Ok tt
  /\ (forall d', crash d (flush s d).2 d' -> tiles_inv G d' /\ frame d d' /\ covers d' old)
  /\ flushing G old new d (io_disk (flush s) d) []
  /\ (exact G (avail old) d -> exact G (avail new) (io_disk (flush s) d)).
Proof.
  intros Hinv Hc. set (keys := sort_by key_cmp (elements (dirty s))).
  assert (forall key, key ∈ keys <-> key ∈ dirty s) as Hkeys
    by (intros key; unfold keys; by rewrite sort_by_perm, elem_of_elements).
  unfold io_disk, flush. fold keys. rewrite flush_tiles_seq.
  destruct (tile_writes_spec G old new old_new new_bound keys (map (flush_tile s) keys) d d) as (S1 & S2 & S3 & S4).
  - rewrite Forall2_fmap_r. apply Forall_Forall2_diag, Forall_forall. intros key Hin. by apply dirty_tile, Hkeys.
  - split; [done|done|done|]. intros L t Hid Ha HX. rewrite Hkeys in HX.
    rewrite clean_tile in * by done. by apply Hc.
  - split; [done|]. split; [done|]. split; [done|]. intros Hx. apply S4.
    + unfold keys. rewrite sort_by_perm. apply NoDup_elements.
    + eapply exact_ext; [|exact Hx]. intros L t Hid. unfold between. destruct (decide _) as [|Hn]; [done|].
      rewrite Hkeys in Hn. by rewrite clean_tile.
Qed.
End Flush.

(** * Publishing *)

Section Publish.
Context `{Sha256, DirOrder, Base64}.
Variable G : list bytes.

Lemma tiles_inv_same d d' : same_tiles d d' -> tiles_inv G d -> tiles_inv G d'.
Proof.
  intros Hs [I1 I2]. split.
  - intros L t w b Hid Hw Hb. rewrite Hs in Hb by apply tile_path_area. by apply I1.
  - intros L t name b w Hid Hb. rewrite Hs in Hb by apply partial_entry_area. by eapply I2.
Qed.

Lemma covers_same d d' n : same_tiles d d' -> covers d n -> covers d' n.
Proof.
  intros Hs Hc L t Hid Ha. destruct (Hc L t Hid Ha) as (w & Hw & Hin). exists w.
  split; [done|]. by rewrite Hs by apply tile_path_area.
Qed.

Definition readable_history (d : disk) : Prop := exists h, read_history d = Ok h.

Lemma read_history_same d d' :
  d' !! CHECKPOINT_HISTORY_FILE = d !! CHECKPOINT_HISTORY_FILE -> read_history d' = read_history d.
Proof. intros E. unfold read_history, fs_read_to_string. by rewrite E. Qed.

Lemma cp_read_same d d' : d' !! CHECKPOINT_FILE = d !! CHECKPOINT_FILE -> cp_read d' = cp_read d.
Proof. intros E. unfold cp_read, fs_read_to_string. by rewrite E. Qed.

Lemma checkpoint_files_distinct :
  CHECKPOINT_HISTORY_FILE <> CHECKPOINT_FILE /\ CHECKPOINT_HISTORY_FILE <> tmp_path CHECKPOINT_FILE
  /\ CHECKPOINT_FILE <> tmp_path CHECKPOINT_FILE.
Proof. by vm_compute. Qed.

(** What the writes of [publish] leave alone, complete or cut short. *)
Record published (d d' : disk) : Prop := {
  pb_tiles : same_tiles d d';
  pb_history : readable_history d';
}.

Lemma published_trans d1 d2 d3 : published d1 d2 -> published d2 d3 -> published d1 d3.
Proof. intros [T1 _] [T2 H2]. split; [|done]. intros p Hp. rewrite T2, T1 by done. done. Qed.

Lemma cp_write_published (d d' : disk) :
  readable_history d ->
  (forall q, q <> CHECKPOINT_FILE -> q <> tmp_path CHECKPOINT_FILE -> d' !! q = d !! q) -> published d d'.
Proof.
  intros Hh Hq. destruct checkpoint_files_distinct as (N1 & N2 & _). split.
  - intros p Hp. apply Hq; intros ->; revert Hp; by apply not_tile_area.
  - unfold readable_history. by rewrite (read_history_same d) by (by apply Hq).
Qed.

(** Writing the checkpoint. *)
Lemma cp_write_spec cp d :
  wf_checkpoint cp = true -> readable_history d ->
  let d1 := io_disk (cp_write cp) d in
  (forall d', crash d (cp_write cp d).2 d' ->
     published d d' /\ (cp_read d' = cp_read d \/ cp_read d' = Ok (Some cp)))
  /\ published d d1 /\ cp_read d1 = Ok (Some cp).
Proof.
  intros Hcp Hh d1. destruct checkpoint_files_distinct as (N1 & N2 & N3).
  assert (forall q, q <> tmp_path CHECKPOINT_FILE ->
    d1 !! q = if bool_decide (q = CHECKPOINT_FILE) then Some (cp_encode cp) else d !! q) as Hd1
    by (intros q Hq; by apply write_atomic_disk).
  split_and!.
  - intros d' [Hq Hx]%write_atomic_crash; [|done]. split; [by apply cp_write_published|].
    destruct Hx as [Hx|Hx]; [left; by apply cp_read_same|right; by apply cp_read_file].
  - apply cp_write_published; [done|]. intros q Hq1 Hq2. rewrite Hd1 by done. by rewrite bool_decide_false.
  - apply cp_read_file; [done|]. rewrite Hd1, bool_decide_true by done. done.
Qed.

(** Appending the record touches the history file only. *)
Lemma history_step cp d k :
  wf_checkpoint cp = true -> readable_history d ->
  let d' := <[CHECKPOINT_HISTORY_FILE :=
      default [] (d !! CHECKPOINT_HISTORY_FILE) ++ take k (encode_history_line cp ++ [NL])]> d in
  published d d' /\ cp_read d' = cp_read d.
Proof.
  intros Hcp [h Hh] d'. split; [split|].
  - apply same_tiles_insert. by apply not_tile_area.
  - by apply (history_stays_readable d h).
  - apply cp_read_same. subst d'. rewrite lookup_insert_ne; [done|]. apply checkpoint_files_distinct.
Qed.

Lemma append_history_spec cp d :
  wf_checkpoint cp = true -> readable_history d ->
  exists b ops, append_to_history cp d = (Ok b, ops)
    /\ forall d', crash d ops d' \/ d' = apply_ops ops d -> published d d' /\ cp_read d' = cp_read d.
Proof.
  intros Hcp [h Hh]. rewrite (append_to_readable_history cp d h Hh).
  assert (readable_history d) as Hr by (by exists h).
  destruct (last_size h <? size cp); (do 2 eexists; split; [reflexivity|]); intros d'.
  - assert (published d (apply_op (history_op cp) d) /\ cp_read (apply_op (history_op cp) d) = cp_read d) as Hf.
    { pose proof (history_step cp d (length (encode_history_line cp ++ [NL])) Hcp Hr) as Hs.
      by rewrite take_ge in Hs by done. }
    intros [Hc| ->]; [|exact Hf]. inversion Hc as [| | |? ? ? ? Hc']; subst; [done|by apply history_step|].
    by apply crash_nil in Hc' as ->.
  - by intros [->%crash_nil| ->].
Qed.

Lemma publish_spec cp d :
  wf_checkpoint cp = true -> readable_history d ->
  (publish cp d).1 = Ok cp
  /\ (forall d', crash d (publish cp d).2 d' ->
        published d d' /\ (cp_read d' = cp_read d \/ cp_read d' = Ok (Some cp)))
  /\ published d (io_disk (publish cp) d) /\ cp_read (io_disk (publish cp) d) = Ok (Some cp).
Proof.
  intros Hcp Hh. destruct (cp_write_spec cp d Hcp Hh) as (W1 & W2 & W3).
  set (ops := (cp_write cp d).2) in *. set (d1 := io_disk (cp_write cp) d) in *.
  destruct (append_history_spec cp d1 Hcp (pb_history _ _ W2)) as (b & hops & E2 & A).
  assert (publish cp d = (Ok cp, ops ++ hops)) as E.
  { unfold publish. rewrite (io_bind_run _ _ d tt ops) by done.
    change (apply_ops ops d) with d1. rewrite (io_bind_run _ _ d1 b hops E2).
    cbn [fst snd mret Io_ret]. by rewrite app_nil_r. }
  assert (forall d', crash d1 hops d' \/ d' = apply_ops hops d1 -> published d d' /\ cp_read d' = Ok (Some cp)) as Hend.
  { intros d' Hd'. destruct (A d' Hd') as [A1 A2]. split; [by eapply published_trans|]. by rewrite A2. }
  unfold io_disk. rewrite E. cbn [fst snd]. rewrite apply_ops_app. change (apply_ops ops d) with d1.
  split; [done|]. split; [|apply Hend; by right].
  intros d' [Hc|Hc]%crash_app; [by apply W1|]. destruct (Hend d' (or_introl Hc)). auto.
Qed.
End Publish.

(** * Log directories *)

Lemma run_extend G hs a n : 0 <= a -> 0 <= n -> a + n <= total G -> run (G ++ hs) a n = run G a n.
Proof.
  unfold run, total. intros. rewrite drop_app_le, take_app_le by (rewrite ?length_drop; lia). done.
Qed.

Lemma tile_bytes_extend `{Sha256} G hs L t w :
  0 <= L -> 0 <= t -> 0 < w <= avail (total G) L t -> tile_bytes (G ++ hs) L t w = tile_bytes G L t w.
Proof.
  intros HL Ht Hw. unfold tile_bytes, nodes. f_equal. apply map_ext_in. intros i Hi.
  apply list_elem_of_In, elem_of_seqZ in Hi. unfold snode. f_equal.
  pose proof (pow256_pos L HL). apply run_extend; [nia|lia|].
  unfold avail in Hw. pose proof (Z.mul_div_le (total G) (256 ^ L) ltac:(lia)). nia.
Qed.

Lemma tiles_inv_extend `{Sha256} G hs d : tiles_inv G d -> tiles_inv (G ++ hs) d.
Proof.
  intros [I1 I2]. split; [|done]. intros L t w b Hid Hw Hb. destruct (I1 L t w b Hid Hw Hb) as [Ha ->].
  destruct (tile_id_nonneg _ _ Hid) as [HL Ht]. unfold tile_width in Hw. split.
  - etransitivity; [exact Ha|]. apply avail_mono; [done|]. unfold total. rewrite length_app. lia.
  - symmetry. apply tile_bytes_extend; [done|done|lia].
Qed.

Section Log.
Context `{Sha256, DirOrder, Base64}.
Abbreviation MTH := (MTH hash_children empty_root).

(** The invariant of a log directory: its tiles hold hashes of the sequence [G],
    and enough of them for the [n] leaves its checkpoint commits to. *)
Record log_state (G : list bytes) (d : disk) (n : Z) : Prop := {
  ls_bound : 0 <= n <= total G;
  ls_tiles : tiles_inv G d;
  ls_covers : covers d n;
  ls_checkpoint : (n = 0 /\ cp_read d = Ok None)
    \/ exists o, cp_read d = Ok (Some {| origin := o; size := n; cp_root := MTH (run G 0 n) |});
  ls_history : readable_history d;
}.

Lemma log_state_size G d n : log_state G d n -> log_size d = Ok n.
Proof.
  intros Hs. unfold log_size. by destruct (ls_checkpoint _ _ _ Hs) as [[-> ->]|[o ->]].
Qed.

(** Leaves not yet appended do not matter. *)
Lemma log_state_extend G hs d n : log_state G d n -> log_state (G ++ hs) d n.
Proof.
  intros [I1 I2 I3 I4 I5]. split; [|by apply tiles_inv_extend|done| |done].
  - unfold total in *. rewrite length_app. lia.
  - rewrite run_extend by lia. done.
Qed.

Lemma empty_log_state : log_state [] ∅ 0.
Proof.
  split; [done| | |by left|by exists []].
  - split; intros L t w b; set_solver.
  - intros L t Hid Ha. exfalso. unfold avail in Ha. rewrite Z.div_0_l in Ha; [|pose proof (pow256_pos L);
      destruct (tile_id_nonneg _ _ Hid); lia]. destruct (tile_id_nonneg _ _ Hid). lia.
Qed.

(** ** Reading the leaves back *)

Lemma leaf_nodes G a k : 0 <= a -> 0 <= k -> a + k <= total G -> nodes G 0 a k = run G a k.
Proof.
  intros Ha Hk Hb. apply list_eq. intros i. destruct (decide (i < Z.to_nat k)%nat) as [Hi|Hi].
  - rewrite <- (Nat2Z.id i) at 1. rewrite nodes_lookup by lia. unfold run.
    rewrite lookup_take_lt, lookup_drop by lia.
    destruct (G !! (Z.to_nat a + i)%nat) as [h|] eqn:E; [|apply lookup_ge_None in E; unfold total in Hb; lia].
    f_equal. apply snode_leaf; [lia|]. by replace (Z.to_nat (a + Z.of_nat i)) with (Z.to_nat a + i)%nat by lia.
  - pose proof (nodes_length G 0 a k Hk). pose proof (run_length G a k Ha Hk Hb).
    rewrite !lookup_ge_None_2 by lia. done.
Qed.

Lemma read_leaf_tile G d n t k :
  hashes32 G -> total G < 2 ^ 63 -> log_state G d n -> 0 <= t -> 0 < k <= avail n 0 t ->
  read_tile_hashes 0 t k d = Ok (run G (256 * t) k).
Proof.
  intros HG Hb Hs Ht Hk. pose proof (ls_bound _ _ _ Hs).
  assert (256 * t + k <= n) as Hend by (unfold avail in Hk; rewrite Z.pow_0_r, Z.div_1_r in Hk; lia).
  assert (tile_id 0 t) as Hid by (unfold tile_id, is_u64; lia).
  destruct (ls_covers _ _ _ Hs 0 t Hid ltac:(lia)) as (w0 & Hw0 & Hin).
  destruct (read_tile_spec G HG d 0 t k w0 (ls_tiles _ _ _ Hs) Hid) as (w & Hw & E); [lia|lia|done|].
  unfold read_tile_hashes. rewrite E. cbn [map_err mbind outcome_bind].
  rewrite tile_bytes_blen by (done || lia). unfold HASH_LEN. destruct (Z.ltb_spec (w * 32) (k * 32)); [lia|].
  unfold tile_bytes. rewrite bytes_to_hashes_concat by (by apply nodes_hashes).
  rewrite nodes_take by lia. by rewrite leaf_nodes by lia.
Qed.

Lemma load_leaves_spec G d n :
  hashes32 G -> total G < 2 ^ 63 -> log_state G d n -> load_leaves d = Ok (run G 0 n).
Proof.
  intros HG Hb Hs. pose proof (ls_bound _ _ _ Hs) as Hn. unfold load_leaves.
  rewrite (log_state_size G d n Hs). cbn [mbind outcome_bind]. unfold TILE_WIDTH.
  pose proof (Z.mod_pos_bound n 256 eq_refl) as Hm. pose proof (Z.div_mod n 256 ltac:(lia)) as Hdm.
  pose proof (Z.div_pos n 256 ltac:(lia) ltac:(lia)) as Hd.
  assert (forall t k, 0 <= t -> 0 < k <= avail n 0 t -> read_tile_hashes 0 t k d = Ok (run G (256 * t) k)) as Hr
    by (intros; by apply read_leaf_tile with n).
  assert (forall t, avail n 0 t = Z.min 256 (Z.max 0 (n - 256 * t))) as Hav
    by (intros t; unfold avail; by rewrite Z.pow_0_r, Z.div_1_r).
  assert (omap_list (fun t => read_tile_hashes 0 t 256 d) (seqZ 0 (n / 256))
          = Ok (map (fun t => run G (t * 256) 256) (seqZ 0 (n / 256)))) as ->.
  { apply omap_list_Ok. rewrite Forall2_fmap_r. apply Forall_Forall2_diag, Forall_forall.
    intros t [Ht1 Ht2]%elem_of_seqZ. rewrite Hr by (rewrite ?Hav; lia). do 2 f_equal. lia. }
  cbn [mbind outcome_bind]. pose proof (runs_concat G 256 0 (Z.to_nat (n / 256)) ltac:(lia) ltac:(lia)) as Ec.
  rewrite Z2Nat.id in Ec by lia. rewrite Ec.
  destruct (Z.ltb_spec 0 (n mod 256)) as [Hp|Hp].
  - rewrite Hr by (rewrite ?Hav; lia). cbn [mbind outcome_bind mret outcome_ret].
    replace n with (n / 256 * 256 + n mod 256) at 4 by lia. rewrite run_app by lia. do 2 f_equal. f_equal. lia.
  - cbn [mret outcome_ret]. do 2 f_equal. lia.
Qed.

(** ** Appending *)

Definition valid_origin (o : bytes) : Prop := o <> [] /\ forallb plain o = true.

Lemma wf_published G o n :
  valid_origin o -> hashes32 G -> 0 <= n < 2 ^ 63 ->
  wf_checkpoint {| origin := o; size := n; cp_root := MTH (run G 0 n) |} = true.
Proof.
  intros [Ho Hp] HG Hn. unfold wf_checkpoint, is_u64, wf_hash. cbn [origin size cp_root].
  rewrite bool_decide_false, Hp, bool_decide_true by (done || apply MTH_hash, run_hashes, HG). cbn [andb negb]. lia.
Qed.

(** The checkpoint that commits to the first [n] leaves of [G]. *)
Definition checkpoint_of (o : bytes) (G : list bytes) (n : Z) : Checkpoint :=
  {| origin := o; size := n; cp_root := MTH (run G 0 n) |}.

(** The session part of an append: it pushes the leaves and computes the head. *)
Lemma append_session G d n hs :
  hashes32 G -> total G < 2 ^ 63 -> log_state G d n -> hs `prefix_of` drop (Z.to_nat n) G ->
  let new := n + Z.of_nat (length hs) in
  exists s, (new ← push_leaves d n hs;
             root ← (if new =? 0 then mret empty_root else tree_head d new);
             mret (new, root)) (session_open n) = (Ok (new, MTH (run G 0 new)), s)
    /\ session_inv G n (levels_of new) s.
Proof.
  intros HG Hb [I1 I2 I3 I4 I5] Hp new.
  assert (new <= total G) as Hnew.
  { apply prefix_length in Hp. rewrite length_drop in Hp. unfold total in *. subst new. lia. }
  pose proof (session_open_inv G HG d n I1 Hb I2 I3) as Hs0.
  destruct (push_leaves_spec G HG d n I1 Hb I2 I3 hs _ n Hs0 ltac:(lia) Hp) as (s1 & E1 & Hs1).
  rewrite (sess_step _ _ _ _ _ E1). fold new in Hs1 |- *. destruct (Z.eqb_spec new 0) as [E0|E0].
  - exists s1. split; [|done]. rewrite E0. done.
  - destruct (tree_head_spec G HG d n I1 Hb I2 I3 new s1 Hs1 ltac:(lia)) as (s2 & E2 & Hs2).
    rewrite (sess_step _ _ _ _ _ E2). by exists s2.
Qed.

Lemma io_err_run {A} (m : Io io_error A) d a :
  (m d).1 = Ok a -> io_err m d = (Ok a, (m d).2).
Proof. unfold io_err. destruct (m d) as [r ops]. by intros [= ->]. Qed.

(** The disk part: the tiles, then the checkpoint, then its record.  [writes] is
    the tile writer. *)
Record writes_tiles (G : list bytes) (n new : Z) (writes : Io io_error unit) (d : disk) : Prop := {
  wt_ok : (writes d).1 = Ok tt;
  wt_crash : forall d', crash d (writes d).2 d' -> tiles_inv G d' /\ frame d d' /\ covers d' n;
  wt_done : flushing G n new d (io_disk writes d) [];
  wt_exact : exact G (avail n) d -> exact G (avail new) (io_disk writes d);
}.

Lemma publish_tiles G d n new writes o :
  hashes32 G -> total G < 2 ^ 63 -> 0 <= n <= new -> new <= total G -> valid_origin o ->
  readable_history d -> writes_tiles G n new writes d ->
  let cp := checkpoint_of o G new in
  let m := (_ ← writes; publish cp) in
  (m d).1 = Ok cp
  /\ (log_state G d n -> forall d', crash d (m d).2 d' -> log_state G d' n \/ log_state G d' new)
  /\ log_state G (io_disk m d) new
  /\ (exact G (avail n) d -> exact G (avail new) (io_disk m d))
  /\ cp_read (io_disk m d) = Ok (Some cp).
Proof.
  intros HG Hb Hn Hnew Ho I5 [F1 F2 F3 F4] cp m.
  set (d1 := io_disk writes d) in *. destruct F3 as [T1 [Fc Fh] T3 T4]. apply covers_but_nil in T4.
  assert (forall d', frame d d' -> cp_read d' = cp_read d /\ readable_history d') as Hframe.
  { intros d' [Ec Eh]. split; [by apply cp_read_same|]. unfold readable_history. by rewrite (read_history_same d). }
  destruct (Hframe d1 (conj Fc Fh)) as [Hc1 Hh1].
  destruct (publish_spec cp d1) as (P1 & P2 & P3 & P4); [apply wf_published; lia || done|done|].
  assert (m d = (Ok cp, (writes d).2 ++ (publish cp d1).2)) as E.
  { subst m. rewrite (io_bind_run _ _ d tt (writes d).2) by (rewrite <- F1; by destruct (writes d)).
    change (apply_ops (writes d).2 d) with d1. by rewrite P1. }
  assert (forall d', published d1 d' -> cp_read d' = Ok (Some cp) -> log_state G d' new) as Hdone.
  { intros d' [S1 S2] Hc. split; [lia|by eapply tiles_inv_same|by eapply covers_same|right; by exists o|done]. }
  unfold io_disk. rewrite E. cbn [fst snd]. rewrite apply_ops_app. change (apply_ops (writes d).2 d) with d1.
  split_and!; [done| |by apply Hdone| |done].
  - intros [I1 I2 I3 I4 _] d' [Hc|Hc]%crash_app.
    + left. destruct (F2 d' Hc) as (C1 & C2 & C3). destruct (Hframe d' C2) as [C4 C5].
      split; [done..|by rewrite C4|done].
    + destruct (P2 d' Hc) as [Hp [Ec|Ec]]; [left|right; by apply Hdone]. destruct Hp as [S1 S2].
      split; [done|by eapply tiles_inv_same|by eapply covers_same|by rewrite Ec, Hc1|done].
  - intros Hx. eapply exact_same; [apply P3|]. by apply F4.
Qed.

Lemma append_spec G d n hs o :
  hashes32 G -> total G < 2 ^ 63 -> log_state G d n -> hs `prefix_of` drop (Z.to_nat n) G -> valid_origin o ->
  let new := n + Z.of_nat (length hs) in
  let d1 := io_disk (append_leaf_hashes o hs) d in
  (append_leaf_hashes o hs d).1 = Ok (checkpoint_of o G new)
  /\ (forall d', crash d (append_leaf_hashes o hs d).2 d' -> log_state G d' n \/ log_state G d' new)
  /\ log_state G d1 new
  /\ (exact G (avail n) d -> exact G (avail new) d1)
  /\ cp_read d1 = Ok (Some (checkpoint_of o G new)).
Proof.
  intros HG Hb Hs Hp Ho new. destruct (append_session G d n hs HG Hb Hs Hp) as (s & E & Hsi).
  fold new in E, Hsi. pose proof Hs as [Hn I2 I3 _ I5].
  assert (new <= total G) as Hnew.
  { apply prefix_length in Hp. rewrite length_drop in Hp. unfold total in *. subst new. lia. }
  destruct (flush_spec G n new ltac:(lia) ltac:(lia) Hb s Hsi HG d I2 I3) as (F1 & F2 & F3 & F4).
  destruct (publish_tiles G d n new (flush s) o HG Hb ltac:(lia) Hnew Ho I5) as (D1 & D2 & D3 & D4 & D5); [done|].
  set (m := (_ ← flush s; publish (checkpoint_of o G new))) in *.
  assert (append_leaf_hashes o hs d = (Ok (checkpoint_of o G new), (m d).2)) as Ea.
  { unfold append_leaf_hashes.
    rewrite (io_bind_run _ _ d n []) by (unfold io_look; by rewrite (log_state_size G d n Hs)).
    cbn [apply_ops fold_left app]. rewrite (io_bind_run _ _ d ((new, MTH (run G 0 new)), s) []).
    - cbn [apply_ops fold_left app]. change (io_err _) with (io_err m). by rewrite (io_err_run m d _ D1).
    - unfold io_look. by rewrite E. }
  unfold io_disk in *. rewrite Ea. cbn [fst snd]. split; [done|]. split; [by apply D2|]. done.
Qed.

Lemma run_prefix (a b : list bytes) : run (a ++ b) 0 (Z.of_nat (length a)) = a.
Proof. rewrite run_all by lia. rewrite Nat2Z.id. apply take_app_length. Qed.

Lemma run_total (a : list bytes) : run a 0 (Z.of_nat (length a)) = a.
Proof. rewrite <- (app_nil_r a) at 1. apply run_prefix. Qed.

Lemma usize_app {A} (a b : list A) : Z.of_nat (length (a ++ b)) = Z.of_nat (length a) + Z.of_nat (length b).
Proof. rewrite length_app. lia. Qed.

(** The append of [hs] to a directory that holds [leaves], possibly with tiles of
    an earlier attempt at the same append. *)
Lemma append_leaves o leaves hs d :
  valid_origin o -> hashes32 (leaves ++ hs) -> total (leaves ++ hs) < 2 ^ 63 ->
  log_state (leaves ++ hs) d (Z.of_nat (length leaves)) ->
  (append_leaf_hashes o hs d).1
    = Ok {| origin := o; size := total (leaves ++ hs); cp_root := MTH (leaves ++ hs) |}
  /\ (forall d', crash d (append_leaf_hashes o hs d).2 d' ->
        log_state (leaves ++ hs) d' (Z.of_nat (length leaves))
        \/ log_state (leaves ++ hs) d' (total (leaves ++ hs)))
  /\ log_state (leaves ++ hs) (io_disk (append_leaf_hashes o hs) d) (total (leaves ++ hs)).
Proof.
  intros Ho HG Hb Hs. unfold total. rewrite usize_app.
  destruct (append_spec (leaves ++ hs) d (Z.of_nat (length leaves)) hs o HG Hb Hs) as (A1 & A2 & A3 & _);
    [rewrite Nat2Z.id, drop_app_length; done|done|].
  rewrite A1. split; [|done]. unfold checkpoint_of. do 2 f_equal. f_equal.
  rewrite <- usize_app. apply run_total.
Qed.

(** C6: Appending to the tile log: the call returns the checkpoint with the new
    size and the RFC 6962 head of the whole extended leaf sequence, and leaves a
    directory whose invariant holds for it and from which [load_leaves] reads
    exactly the old leaves followed by the appended ones. *)
Theorem tile_log_append (o : bytes) (leaves hs : list bytes) (d : disk) :
  valid_origin o -> hashes32 (leaves ++ hs) -> total (leaves ++ hs) < 2 ^ 63 ->
  log_state (leaves ++ hs) d (Z.of_nat (length leaves)) ->
  let d' := io_disk (append_leaf_hashes o hs) d in
  (append_leaf_hashes o hs d).1
    = Ok {| origin := o; size := total (leaves ++ hs); cp_root := MTH (leaves ++ hs) |}
  /\ log_state (leaves ++ hs) d' (total (leaves ++ hs))
  /\ load_leaves d = Ok leaves /\ load_leaves d' = Ok (leaves ++ hs).
Proof.
  intros Ho HG Hb Hs d'. destruct (append_leaves o leaves hs d Ho HG Hb Hs) as (A1 & _ & A3).
  split; [done|]. split; [done|]. subst d'. rewrite (load_leaves_spec (leaves ++ hs) _ _ HG Hb Hs).
  rewrite (load_leaves_spec (leaves ++ hs) _ _ HG Hb A3). by rewrite run_prefix, run_total.
Qed.

(** C4: Crash safety of the append: wherever a crash interrupts it, also inside a
    file write, the directory serves the old leaves under the old checkpoint, or
    all the new ones under the new checkpoint; and the interrupted append can be
    run again on it. *)
Theorem tile_log_crash_safe (o : bytes) (leaves hs : list bytes) (d d' : disk) :
  valid_origin o -> hashes32 (leaves ++ hs) -> total (leaves ++ hs) < 2 ^ 63 ->
  log_state (leaves ++ hs) d (Z.of_nat (length leaves)) ->
  crash d (append_leaf_hashes o hs d).2 d' ->
  (log_state (leaves ++ hs) d' (Z.of_nat (length leaves)) /\ load_leaves d' = Ok leaves)
  \/ (log_state (leaves ++ hs) d' (total (leaves ++ hs)) /\ load_leaves d' = Ok (leaves ++ hs)).
Proof.
  intros Ho HG Hb Hs Hc. destruct (append_leaves o leaves hs d Ho HG Hb Hs) as (_ & A2 & _).
  destruct (A2 d' Hc) as [Hd|Hd]; [left|right]; (split; [done|]);
    rewrite (load_leaves_spec (leaves ++ hs) _ _ HG Hb Hd).
  - by rewrite run_prefix.
  - by rewrite run_total.
Qed.

(** ** Histories of a log directory *)

(** The directories a log goes through, with the leaves handed to it so far:
    appends that complete and appends a crash cuts short, in any order, where a
    writer starts from the committed leaves and repeats, with possibly more
    leaves, what an interrupted append did not commit. *)
Inductive log_run (o : bytes) : list bytes -> disk -> Prop :=
| run_new : log_run o [] ∅
| run_append G d leaves hs :
    log_run o G d -> load_leaves d = Ok leaves -> G `prefix_of` leaves ++ hs ->
    log_run o (leaves ++ hs) (io_disk (append_leaf_hashes o hs) d)
| run_crash G d leaves hs d' :
    log_run o G d -> load_leaves d = Ok leaves -> G `prefix_of` leaves ++ hs ->
    crash d (append_leaf_hashes o hs d).2 d' -> log_run o (leaves ++ hs) d'.

Lemma log_state_leaves G d n leaves hs :
  hashes32 (leaves ++ hs) -> total (leaves ++ hs) < 2 ^ 63 -> log_state G d n ->
  load_leaves d = Ok leaves -> G `prefix_of` leaves ++ hs ->
  log_state (leaves ++ hs) d (Z.of_nat (length leaves)).
Proof.
  intros HG Hb Hs Hl [rest Hp]. pose proof (log_state_extend G rest d n Hs) as Hs'. rewrite <- Hp in Hs'.
  rewrite (load_leaves_spec _ d n HG Hb Hs') in Hl. injection Hl as El.
  pose proof (ls_bound _ _ _ Hs') as Hn. assert (Z.of_nat (length leaves) = n) as ->; [|done].
  rewrite <- El. apply run_length; lia.
Qed.

Lemma log_run_state o G d :
  valid_origin o -> log_run o G d -> hashes32 G -> total G < 2 ^ 63 ->
  exists n, log_state G d n.
Proof.
  intros Ho Hr. induction Hr as [|G d leaves hs Hr IH Hl Hp|G d leaves hs d' Hr IH Hl Hp Hc]; intros HG Hb.
  - exists 0. apply empty_log_state.
  - destruct IH as [n Hs].
    { destruct Hp as [rest Hp]. rewrite Hp in HG. by apply Forall_app in HG as [? _]. }
    { apply prefix_length in Hp. unfold total in *. lia. }
    eexists. eapply append_leaves; [done..|]. by eapply log_state_leaves.
  - destruct IH as [n Hs].
    { destruct Hp as [rest Hp]. rewrite Hp in HG. by apply Forall_app in HG as [? _]. }
    { apply prefix_length in Hp. unfold total in *. lia. }
    eapply append_leaves in Hc as [Hd|Hd]; [by eexists..|done|done|done|]. by eapply log_state_leaves.
Qed.

End Log.

(** * A concrete log *)

(** Directory listings in the order of the map. *)
Definition plain_dir_order : DirOrder := {| dir_order := fun l => l; dir_order_perm := fun l => Permutation_refl l |}.
#[local] Existing Instance plain_dir_order.
#[local] Existing Instance mix_sha256.
#[local] Existing Instance hex_base64.

Definition ex_origin : bytes := bstr "watertown/pond".
Definition ex_leaf (k : Z) : bytes := hash_leaf [z2b k].
(** One committed leaf, two more appended. *)
Definition ex_log : disk := io_disk (append_leaf_hashes ex_origin [ex_leaf 1]) ∅.
Definition ex_more : list bytes := [ex_leaf 2; ex_leaf 3].

Lemma ex_origin_valid : valid_origin ex_origin.
Proof. by split. Qed.

Lemma ex_hashes ks : hashes32 (map ex_leaf ks).
Proof. apply Forall_fmap, Forall_forall. intros k _. apply sha256_len. Qed.

Lemma ex_log_state : log_state ([ex_leaf 1] ++ ex_more) ex_log 1.
Proof.
  apply log_state_extend. apply (append_leaves ex_origin [] [ex_leaf 1] ∅);
    [apply ex_origin_valid|apply (ex_hashes [1])|done|]. apply (log_state_extend []), empty_log_state.
Qed.

Lemma tile_log_append_witness :
  load_leaves (io_disk (append_leaf_hashes ex_origin ex_more) ex_log) = Ok [ex_leaf 1; ex_leaf 2; ex_leaf 3].
Proof.
  apply (tile_log_append ex_origin [ex_leaf 1] ex_more ex_log);
    [apply ex_origin_valid|apply (ex_hashes [1; 2; 3])|reflexivity|apply ex_log_state].
Defined.

(** The first write of the append, torn after five bytes. *)
Definition ex_torn_log : disk :=
  match (append_leaf_hashes ex_origin ex_more ex_log).2 with
  | WriteFile p c :: _ => <[p := take 5 c]> ex_log
  | _ => ex_log
  end.

Lemma ex_torn_crash : crash ex_log (append_leaf_hashes ex_origin ex_more ex_log).2 ex_torn_log.
Proof. unfold ex_torn_log. destruct (append_leaf_hashes ex_origin ex_more ex_log).2 as [|[] ops]; constructor. Qed.

Lemma tile_log_crash_safe_witness :
  load_leaves ex_torn_log = Ok [ex_leaf 1] \/ load_leaves ex_torn_log = Ok ([ex_leaf 1] ++ ex_more).
Proof.
  destruct (tile_log_crash_safe ex_origin [ex_leaf 1] ex_more ex_log ex_torn_log) as [[_ H]|[_ H]];
    [apply ex_origin_valid|apply (ex_hashes [1; 2; 3])|reflexivity|apply ex_log_state|apply ex_torn_crash|left|right];
    exact H.
Defined.

Lemma ex_run : log_run ex_origin [ex_leaf 1; ex_leaf 2; ex_leaf 3] ex_torn_log.
Proof.
  apply (run_crash ex_origin [ex_leaf 1] ex_log [ex_leaf 1] ex_more).
  - apply (run_append ex_origin [] ∅ [] [ex_leaf 1]); [constructor|by vm_compute|apply prefix_nil].
  - assert (load_leaves ex_log = Ok (run ([ex_leaf 1] ++ ex_more) 0 1)) as ->; [|done].
    apply load_leaves_spec; [apply (ex_hashes [1; 2; 3])|done|apply ex_log_state].
  - by eexists.
  - apply ex_torn_crash.
Qed.


(** What an interrupted append leaves behind is for the same leaves only. An append
    of 256 leaves to a new log stops after its full tile is in place; the log is
    still empty. Another leaf is then appended, with success, but readers prefer
    the full tile and find the first leaf of the interrupted append. *)
Definition ex_stale_log : disk := apply_ops (take 2 (append_leaf_hashes ex_origin (map ex_leaf (seqZ 0 256)) ∅).2) ∅.
Definition ex_other : bytes := hash_leaf [z2b 1; z2b 1].

Lemma crash_after k ops d : crash d ops (apply_ops (take k ops) d).
Proof.
  revert k d. induction ops as [|op ops IH]; intros [|k] d; [constructor..|]. cbn [take]. apply crash_later, IH.
Qed.

Lemma other_leaves_lost :
  crash ∅ (append_leaf_hashes ex_origin (map ex_leaf (seqZ 0 256)) ∅).2 ex_stale_log
  /\ load_leaves ex_stale_log = Ok []
  /\ (append_leaf_hashes ex_origin [ex_other] ex_stale_log).1 = Ok {| origin := ex_origin; size := 1; cp_root := ex_other |}
  /\ load_leaves (io_disk (append_leaf_hashes ex_origin [ex_other]) ex_stale_log) = Ok [ex_leaf 0] /\ ex_leaf 0 <> ex_other.
Proof. split; [apply crash_after|]. split_and!; by vm_compute. Qed.
