(* ===== verification/TileMaterialize.v ===== *)
(** The two writers of the tile log agree: the whole-tree [materialize] is
    correct and crash safe, and a log grown by any number of appends has the
    tile files, byte for byte, that [materialize] writes for its leaves. *)

From stdpp Require Import base list numbers sets sorting gmap strings options.
From Stdlib Require Import ZArith Lia.
From S2P Require Import Prelude RustStd RustText Wire MerkleTree LogMerkle Disk Checkpoint TilePaths TileLog.
From S2P Require Import TileStore TileSessionSpec TileCrash TileAppend.

Open Scope Z_scope.

(** * The writes of [materialize] *)

Lemma seq_io_app ms ms' d : seq_io (ms ++ ms') d = (_ ← seq_io ms; seq_io ms') d.
Proof.
  revert d. induction ms as [|m ms IH]; intros d; cbn [app seq_io].
  { unfold mbind, Io_bind, mret, Io_ret. change (apply_ops [] d) with d. by destruct (seq_io ms' d). }
  unfold mbind, Io_bind. destruct (m d) as [[[]| |] ops]; [|done..].
  rewrite IH. unfold mbind, Io_bind. destruct (seq_io ms _) as [[[]| |] ops1]; [|done..].
  rewrite apply_ops_app. destruct (seq_io ms' _). by rewrite app_assoc.
Qed.

Section Materialize.
Context `{Sha256, DirOrder, Base64}.
Variable G : list bytes.
Hypothesis G_hashes : hashes32 G.
Hypothesis G_bound : total G < 2 ^ 63.
#[local] Set Default Proof Using "Type*".
Abbreviation MTH := (MTH hash_children empty_root).
Abbreviation n := (total G).

Definition tiles_at (L : Z) : Z := (n / 256 ^ L + TILE_WIDTH - 1) / TILE_WIDTH.
Definition level_keys (L : Z) : list (Z * Z) := map (fun t => (L, t)) (seqZ 0 (tiles_at L)).
Definition tile_writer (key : Z * Z) : Io io_error unit :=
  let '(L, t) := key in
  write_tile G L t (t * TILE_WIDTH) (Z.min TILE_WIDTH (n / 256 ^ L - t * TILE_WIDTH)) (256 ^ L).
(** The tiles of the levels from [L] on. *)
Definition keys_from (L : Z) : list (Z * Z) := concat (map level_keys (seqZ L (9 - L))).

Lemma level_keys_spec L L' t :
  0 <= L -> (L', t) ∈ level_keys L <-> L' = L /\ 0 <= t /\ 0 < avail n L t.
Proof using.
  intros HL. unfold level_keys, tiles_at, TILE_WIDTH, avail. rewrite list_elem_of_fmap.
  pose proof (Z.div_mod (n / 256 ^ L + 256 - 1) 256). pose proof (Z.mod_pos_bound (n / 256 ^ L + 256 - 1) 256).
  split.
  - intros (t' & [= -> ->] & Ht%elem_of_seqZ). split; [done|]. lia.
  - intros (-> & Ht & Ha). exists t. split; [done|]. apply elem_of_seqZ. lia.
Qed.

Lemma keys_from_spec L L' t :
  0 <= L -> (L', t) ∈ keys_from L <-> L <= L' < 9 /\ 0 <= t /\ 0 < avail n L' t.
Proof using.
  intros HL. unfold keys_from. rewrite list_elem_of_In, in_concat. split.
  - intros (l & Hl & Hin). apply in_map_iff in Hl as (x & <- & Hx%list_elem_of_In).
    apply elem_of_seqZ in Hx. apply list_elem_of_In, level_keys_spec in Hin as (-> & ? & ?); lia.
  - intros (HL' & Ht & Ha). exists (level_keys L'). split.
    + apply in_map, list_elem_of_In, elem_of_seqZ. lia.
    + apply list_elem_of_In, level_keys_spec; [lia|done].
Qed.

Lemma keys_from_step L : 0 <= L < 9 -> keys_from L = level_keys L ++ keys_from (L + 1).
Proof using.
  intros HL. unfold keys_from. rewrite seqZ_cons by lia. cbn [map concat].
  do 4 f_equal; lia.
Qed.

Lemma keys_NoDup : NoDup (keys_from 0).
Proof using.
  assert (forall k : nat, (k <= 9)%nat -> NoDup (keys_from (9 - Z.of_nat k))) as Hk; [|by apply (Hk 9%nat)].
  induction k as [|k IH]; intros Hk; [constructor|].
  rewrite keys_from_step by lia. replace (9 - Z.of_nat (S k) + 1) with (9 - Z.of_nat k) by lia.
  apply NoDup_app. split_and!; [|intros [L t]|apply IH; lia].
  - apply NoDup_fmap_2; [intros ? ? [=]; done|]. apply NoDup_seqZ.
  - rewrite level_keys_spec, keys_from_spec by lia. lia.
Qed.

(** The hash of a subtree of the leaf sequence. *)
Lemma mth_slice_spec L i :
  0 <= L -> 0 <= i -> (i + 1) * 256 ^ L <= n ->
  mth_slice G (i * 256 ^ L) (i * 256 ^ L + 256 ^ L) = Ok (snode G L i).
Proof.
  intros HL Hi Hb. pose proof (pow256_pos L HL) as Hp. unfold mth_slice, usize_len. fold n.
  destruct (Z.leb_spec (i * 256 ^ L) (i * 256 ^ L + 256 ^ L)), (Z.leb_spec (i * 256 ^ L + 256 ^ L) n); try lia.
  cbn [andb]. replace (i * 256 ^ L + 256 ^ L - i * 256 ^ L) with (256 ^ L) by lia.
  change (take _ (drop _ G)) with (run G (i * 256 ^ L) (256 ^ L)). rewrite mth_spec; [done|].
  unfold usize_len. rewrite run_length; lia.
Qed.

Lemma writer_tile key : key ∈ keys_from 0 -> tile_write G n key (tile_writer key).
Proof.
  destruct key as [L t]. intros (HL & Ht & Ha)%keys_from_spec; [|done].
  assert (Z.min TILE_WIDTH (n / 256 ^ L - t * TILE_WIDTH) = avail n L t) as Ew
    by (unfold avail, TILE_WIDTH in *; lia).
  assert (avail n L t <= 256 /\ 256 * t + avail n L t <= n / 256 ^ L) as [H256 Hend] by (unfold avail in *; lia).
  split; cbn [fst snd].
  - apply (levels_tile_id G n); [unfold total; lia|done|unfold level; lia|done|done].
  - unfold tile_width. lia.
  - intros d. unfold tile_writer, write_tile. rewrite Ew.
    rewrite (io_bind_run _ _ d (bool_decide (is_Some (d !! data_tile_rel L t (avail n L t)))) []) by done.
    cbn [apply_ops fold_left app].
    destruct ((avail n L t =? TILE_WIDTH) && bool_decide (is_Some (d !! data_tile_rel L t (avail n L t)))) eqn:E.
    + right. apply andb_true_iff in E as [Ea%Z.eqb_eq Eb%bool_decide_eq_true_1]. unfold TILE_WIDTH in Ea.
      rewrite Ea in Eb. done.
    + left. rewrite (io_bind_run _ _ d (nodes G L (256 * t) (avail n L t)) []).
      * cbn [apply_ops fold_left app]. by destruct (put_tile _ _ _ _ d).
      * unfold io_look. f_equal. apply omap_list_Ok. unfold nodes.
        rewrite <- (Z.add_0_r (256 * t)), <- fmap_add_seqZ, map_map, Forall2_fmap_r.
        apply Forall_Forall2_diag, Forall_forall. intros i Hi%elem_of_seqZ. cbv beta zeta. unfold TILE_WIDTH.
        rewrite mth_slice_spec; [do 2 f_equal; lia|lia|lia|].
        pose proof (Z.mul_div_le n (256 ^ L) ltac:(pose proof (pow256_pos L); lia)).
        pose proof (pow256_pos L). nia.
Qed.

(** The loops of [materialize] are the sequence of these writes. *)
Lemma write_tiles_seq L ts d :
  write_tiles G L (256 ^ L) (n / 256 ^ L) ts d = seq_io (map tile_writer (map (fun t => (L, t)) ts)) d.
Proof using.
  revert d. induction ts as [|t ts IH]; intros d; [done|]. cbn [write_tiles map seq_io].
  change (write_tile G L t (t * TILE_WIDTH) _ (256 ^ L)) with (tile_writer (L, t)).
  unfold mbind, Io_bind. destruct (tile_writer (L, t) d) as [[[]| |] ops]; [|done..]. by rewrite IH.
Qed.

Lemma write_levels_seq k fuel d :
  (k <= 9)%nat -> (k < fuel)%nat ->
  write_levels fuel G (9 - Z.of_nat k) d = seq_io (map tile_writer (keys_from (9 - Z.of_nat k))) d.
Proof.
  revert fuel d. induction k as [|k IH]; intros fuel d Hk Hf; (destruct fuel as [|fuel]; [lia|]);
    cbn [write_levels]; unfold usize_len; fold n; unfold TILE_HEIGHT_BITS.
  { change (9 - Z.of_nat 0) with 9. destruct (Z.leb_spec 64 (8 * 9)); [|lia].
    destruct (Z.ltb_spec n (2 ^ 64 - 1)); [done|]. change (2 ^ 64) with (2 * 2 ^ 63) in *. lia. }
  set (L := 9 - Z.of_nat (S k)). assert (0 <= L < 9) as HL by lia.
  replace (9 - Z.of_nat k) with (L + 1) in IH by lia.
  pose proof (pow256_pos L ltac:(lia)) as Hp. assert (0 <= n) as Hn by (unfold total; lia).
  assert (256 ^ L = 2 ^ (8 * L)) as E2 by (change 256 with (2 ^ 8); by rewrite <- Z.pow_mul_r by lia).
  set (sub := if 64 <=? 8 * L then 2 ^ 64 - 1 else Z.shiftl 1 (8 * L)).
  assert ((if n <? sub then 0 else n / sub) = n / 256 ^ L /\ (n / 256 ^ L <> 0 -> sub = 256 ^ L)) as [-> Hsub].
  { subst sub. destruct (Z.leb_spec 64 (8 * L)) as [H64|H64].
    - assert (2 ^ 64 <= 256 ^ L) by (rewrite E2; apply Z.pow_le_mono_r; lia).
      change (2 ^ 64) with (2 * 2 ^ 63) in *. rewrite (Z.div_small n (256 ^ L)) by lia.
      by destruct (Z.ltb_spec n (2 * 2 ^ 63 - 1)); [|lia].
    - rewrite Z.shiftl_mul_pow2, Z.mul_1_l, E2 by lia. split; [|done].
      destruct (Z.ltb_spec n (2 ^ (8 * L))); [|done]. symmetry. apply Z.div_small. lia. }
  destruct (Z.eqb_spec (n / 256 ^ L) 0) as [E0|E0].
  - assert (keys_from L = []) as ->; [|done].
    destruct (keys_from L) as [|[L' t] l] eqn:Ek; [done|]. exfalso.
    assert ((L', t) ∈ keys_from L) as Hin by (rewrite Ek; by left).
    apply keys_from_spec in Hin as (HL' & Ht & Ha); [|lia]. unfold avail in Ha.
    assert (n / 256 ^ L' <= n / 256 ^ L); [|lia]. apply Z.div_le_compat_l; [done|].
    split; [done|]. apply Z.pow_le_mono_r; lia.
  - rewrite Hsub by done. rewrite keys_from_step, map_app, seq_io_app by lia.
    unfold mbind, Io_bind. rewrite write_tiles_seq. unfold level_keys, tiles_at.
    destruct (seq_io _ d) as [[[]| |] ops]; [|done..]. by rewrite IH by lia.
Qed.

(** The tile writes of [materialize], from a directory that serves [m] leaves. *)
Lemma materialize_writes m d :
  0 <= m <= n -> tiles_inv G d -> covers d m ->
  writes_tiles G m n (if 0 <? n then write_levels 10 G 0 else mret tt) d.
Proof.
  intros Hm Hi Hc.
  assert ((if 0 <? n then write_levels 10 G 0 else mret tt) d = seq_io (map tile_writer (keys_from 0)) d) as E.
  { destruct (Z.ltb_spec 0 n) as [Hn|Hn]; [apply (write_levels_seq 9 10); lia|].
    assert (n = 0) as E0 by (unfold total in *; lia).
    assert (keys_from 0 = []) as ->; [|done]. unfold keys_from, level_keys, tiles_at. by rewrite E0. }
  destruct (tile_writes_spec G m n Hm ltac:(lia) (keys_from 0) (map tile_writer (keys_from 0)) d d) as (S1 & S2 & S3 & S4).
  - rewrite Forall2_fmap_r. apply Forall_Forall2_diag, Forall_forall. intros key Hin. by apply writer_tile.
  - split; [done|done|done|]. intros L t Hid Ha HX. destruct HX. destruct (tile_id_nonneg _ _ Hid) as [HL Ht].
    apply keys_from_spec; [done|]. pose proof (avail_level n L t). unfold level, total in *. lia.
  - split; unfold io_disk in *; rewrite E; [done..|]. intros Hx. apply S4; [apply keys_NoDup|].
    eapply exact_ext; [|exact Hx]. intros L t Hid. destruct (tile_id_nonneg _ _ Hid) as [HL Ht].
    unfold between. destruct (decide _) as [|Hn]; [done|]. rewrite keys_from_spec in Hn by done.
    assert (0 <= n < 2 ^ 63) as Hn63 by (unfold total in *; lia).
    assert (avail n L t = 0) as E0.
    { destruct (decide (0 < avail n L t)) as [Ha|Ha]; [|unfold avail in *; lia].
      pose proof (avail_level n L t Hn63 HL Ht Ha). unfold level in *. destruct Hn. lia. }
    pose proof (avail_mono m n L t HL ltac:(lia)). unfold avail in *. lia.
Qed.

Lemma materialize_spec o m d :
  valid_origin o -> 0 <= m <= n -> tiles_inv G d -> covers d m -> readable_history d ->
  (materialize o G d).1 = Ok (checkpoint_of o G n)
  /\ (log_state G d m -> forall d', crash d (materialize o G d).2 d' -> log_state G d' m \/ log_state G d' n)
  /\ log_state G (io_disk (materialize o G) d) n
  /\ (exact G (avail m) d -> exact G (avail n) (io_disk (materialize o G) d))
  /\ cp_read (io_disk (materialize o G) d) = Ok (Some (checkpoint_of o G n)).
Proof.
  intros Ho Hm Hi Hc Hh. pose proof (materialize_writes m d Hm Hi Hc) as Hw.
  pose proof (publish_tiles G d m n _ o G_hashes G_bound ltac:(lia) ltac:(lia) Ho Hh Hw) as Hp.
  assert (materialize o G d = (_ ← (if 0 <? n then write_levels 10 G 0 else mret tt); publish (checkpoint_of o G n)) d) as E.
  { unfold materialize. rewrite (io_bind_run _ _ d (MTH (run G 0 n)) []).
    - cbn [apply_ops fold_left app]. symmetry. apply surjective_pairing.
    - unfold io_look, usize_len. fold n. unfold total. rewrite run_total.
      destruct (Z.eqb_spec (Z.of_nat (length G)) 0) as [E0|E0].
      + by destruct G; [|simpl in E0; lia].
      + rewrite mth_spec by (unfold usize_len, total in *; lia). done. }
  unfold io_disk in *. by rewrite E.
Qed.
End Materialize.

Lemma covers_zero d : covers d 0.
Proof.
  intros L t Hid Ha. exfalso. destruct (tile_id_nonneg _ _ Hid) as [HL Ht]. pose proof (pow256_pos L HL).
  unfold avail in Ha. rewrite Z.div_0_l in Ha; lia.
Qed.

Section Agree.
Context `{Sha256, DirOrder, Base64}.
Abbreviation MTH := (MTH hash_children empty_root).

(** Rebuilding a log: on a directory whose tile files, as far as they exist,
    are tiles of the leaves, whatever is missing and whatever the checkpoint
    says, [materialize] returns the checkpoint with the RFC 6962 head of all
    leaves, and [load_leaves] then reads exactly them. *)
Theorem materialize_repairs (o : bytes) (leaves : list bytes) (d : disk) :
  valid_origin o -> hashes32 leaves -> total leaves < 2 ^ 63 ->
  tiles_inv leaves d -> readable_history d ->
  let d' := io_disk (materialize o leaves) d in
  (materialize o leaves d).1 = Ok {| origin := o; size := total leaves; cp_root := MTH leaves |}
  /\ log_state leaves d' (total leaves) /\ load_leaves d' = Ok leaves.
Proof.
  intros Ho HG Hb Hi Hh d'.
  destruct (materialize_spec leaves HG Hb o 0 d Ho) as (M1 & _ & M3 & _); [unfold total; lia|done|apply covers_zero|done|].
  split; [|split; [done|]].
  - rewrite M1. unfold checkpoint_of, total. by rewrite run_total.
  - subst d'. rewrite (load_leaves_spec leaves _ _ HG Hb M3). unfold total. by rewrite run_total.
Qed.

(** Crash safety of the rebuild: run on a log that commits to a prefix of the
    leaves, a crash anywhere in it leaves a directory that serves that prefix,
    or all the leaves. *)
Theorem materialize_crash_safe (o : bytes) (leaves more : list bytes) (d d' : disk) :
  valid_origin o -> hashes32 (leaves ++ more) -> total (leaves ++ more) < 2 ^ 63 ->
  log_state leaves d (total leaves) -> crash d (materialize o (leaves ++ more) d).2 d' ->
  load_leaves d' = Ok leaves \/ load_leaves d' = Ok (leaves ++ more).
Proof.
  intros Ho HG Hb Hs Hc. apply (log_state_extend leaves more) in Hs.
  destruct (materialize_spec (leaves ++ more) HG Hb o (total leaves) d Ho) as (_ & M2 & _); try apply Hs.
  destruct (M2 Hs d' Hc) as [Hd|Hd]; [left|right]; rewrite (load_leaves_spec _ _ _ HG Hb Hd); unfold total.
  - by rewrite run_prefix.
  - by rewrite run_total.
Qed.

(** ** The two writers agree *)

(** A log grown by appends. *)
Inductive log_built (o : bytes) : list bytes -> disk -> Prop :=
| built_new : log_built o [] ∅
| built_append leaves hs d :
    log_built o leaves d -> log_built o (leaves ++ hs) (io_disk (append_leaf_hashes o hs) d).

Lemma exact_empty : exact [] (avail 0) ∅.
Proof.
  intros p c _. rewrite lookup_empty. split; [done|]. intros (L & t & Hid & Ha & _). exfalso.
  destruct (covers_zero ∅ L t Hid Ha) as (w & _ & Hin). rewrite lookup_empty in Hin. by destruct Hin.
Qed.

Lemma exact_extend G hs d : exact G (avail (total G)) d -> exact (G ++ hs) (avail (total G)) d.
Proof.
  intros Hx p c Hp. rewrite (Hx p c Hp). split; intros (L & t & Hid & Ha & Ep & Ec); exists L, t;
    destruct (tile_id_nonneg _ _ Hid); (split_and!; [done..|]); rewrite tile_bytes_extend in *; (done || lia).
Qed.

Lemma log_append_exact o leaves hs d :
  valid_origin o -> hashes32 (leaves ++ hs) -> total (leaves ++ hs) < 2 ^ 63 ->
  log_state leaves d (total leaves) -> exact leaves (avail (total leaves)) d ->
  let d' := io_disk (append_leaf_hashes o hs) d in
  log_state (leaves ++ hs) d' (total (leaves ++ hs)) /\ exact (leaves ++ hs) (avail (total (leaves ++ hs))) d'
  /\ cp_read d' = Ok (Some (checkpoint_of o (leaves ++ hs) (total (leaves ++ hs)))).
Proof.
  intros Ho HG Hb Hs Hx d'. apply (log_state_extend leaves hs) in Hs. apply (exact_extend leaves hs) in Hx.
  destruct (append_spec (leaves ++ hs) d (total leaves) hs o HG Hb Hs) as (_ & _ & A3 & A4 & A5);
    [unfold total; rewrite Nat2Z.id, drop_app_length; done|done|].
  assert (total (leaves ++ hs) = total leaves + Z.of_nat (length hs)) as -> by (unfold total; apply usize_app). auto.
Qed.

Lemma log_built_state o G d :
  valid_origin o -> log_built o G d -> hashes32 G -> total G < 2 ^ 63 ->
  log_state G d (total G) /\ exact G (avail (total G)) d.
Proof.
  intros Ho. induction 1 as [|leaves hs d Hl IH]; intros HG Hb.
  { split; [apply empty_log_state|apply exact_empty]. }
  destruct IH as [Hs Hx]; [by apply Forall_app in HG as [? _]|unfold total in *; rewrite length_app in Hb; lia|].
  by destruct (log_append_exact o leaves hs d Ho HG Hb Hs Hx) as (? & ? & _).
Qed.

(** The incremental and the whole-tree writer agree: however a log was grown by
    appends, its tile files are, path by path and byte by byte, those
    [materialize] writes for the same leaves in a new directory, and the
    checkpoint is the same. *)
Theorem writers_agree (o : bytes) (leaves hs : list bytes) (d : disk) :
  valid_origin o -> hashes32 (leaves ++ hs) -> total (leaves ++ hs) < 2 ^ 63 -> log_built o leaves d ->
  let grown := io_disk (append_leaf_hashes o hs) d in
  let rebuilt := io_disk (materialize o (leaves ++ hs)) ∅ in
  (forall p, tile_area p -> grown !! p = rebuilt !! p) /\ cp_read grown = cp_read rebuilt.
Proof.
  intros Ho HG Hb Hd grown rebuilt.
  destruct (log_built_state o leaves d Ho Hd) as [Hs Hx];
    [by apply Forall_app in HG as [? _]|unfold total in *; rewrite length_app in Hb; lia|].
  destruct (log_append_exact o leaves hs d Ho HG Hb Hs Hx) as (_ & X1 & C1).
  pose proof (log_state_extend [] (leaves ++ hs) ∅ 0 empty_log_state) as Hempty.
  pose proof (exact_extend [] (leaves ++ hs) ∅ exact_empty) as E0.
  destruct (materialize_spec (leaves ++ hs) HG Hb o 0 ∅ Ho) as (_ & _ & _ & M4 & M5); try apply Hempty.
  split; [|by transitivity (Ok (Some (checkpoint_of o (leaves ++ hs) (total (leaves ++ hs)))) : outcome CheckpointError _)].
  intros p Hp. by apply (exact_agree (leaves ++ hs) (avail (total (leaves ++ hs)))); [|apply M4|].
Qed.
End Agree.

#[local] Existing Instance plain_dir_order.
#[local] Existing Instance mix_sha256.
#[local] Existing Instance hex_base64.

Definition ex_all : list bytes := [ex_leaf 1] ++ ex_more.

Lemma ex_log_built : log_built ex_origin [ex_leaf 1] ex_log.
Proof. apply (built_append ex_origin [] [ex_leaf 1] ∅). constructor. Qed.

(** A directory that lost everything but a broken checkpoint. *)
Definition ex_broken : disk := <[CHECKPOINT_FILE := bstr "garbage"]> ∅.

Lemma ex_broken_tiles : tiles_inv ex_all ex_broken.
Proof.
  apply (tiles_inv_same ex_all ∅).
  - apply same_tiles_insert. by apply not_tile_area.
  - apply (tiles_inv_extend [] ex_all). apply (ls_tiles _ _ _ empty_log_state).
Qed.

Lemma materialize_repairs_witness :
  load_leaves (io_disk (materialize ex_origin ex_all) ex_broken) = Ok ex_all.
Proof.
  apply (materialize_repairs ex_origin ex_all ex_broken);
    [apply ex_origin_valid|apply (ex_hashes [1; 2; 3])|reflexivity|apply ex_broken_tiles|exists []; reflexivity].
Defined.

Lemma materialize_crash_safe_witness :
  load_leaves ex_log = Ok [ex_leaf 1] \/ load_leaves ex_log = Ok ([ex_leaf 1] ++ ex_more).
Proof.
  apply (materialize_crash_safe ex_origin [ex_leaf 1] ex_more ex_log ex_log);
    [apply ex_origin_valid|apply (ex_hashes [1; 2; 3])|reflexivity| |apply crash_here].
  apply (log_built_state ex_origin); [apply ex_origin_valid|apply ex_log_built|apply (ex_hashes [1])|reflexivity].
Defined.

Lemma writers_agree_witness :
  cp_read (io_disk (append_leaf_hashes ex_origin ex_more) ex_log)
  = cp_read (io_disk (materialize ex_origin ex_all) ∅).
Proof.
  apply (writers_agree ex_origin [ex_leaf 1] ex_more ex_log);
    [apply ex_origin_valid|apply (ex_hashes [1; 2; 3])|reflexivity|apply ex_log_built].
Defined.
