(* ===== verification/SeriesMerkle.v ===== *)
(** The ordered BLAKE3 Merkle tree of a logical series,
    [crates/sync-store/src/content/series_merkle.rs]: the append frontier, the
    direct subtree hash, contiguous range proofs (generation, shape check,
    verification) and their wire form.  The frontier root and the direct hash
    are both the tree head of [MerkleTree]; range proofs are complete, sound up
    to an explicit BLAKE3 collision, and have a canonical encoding. *)

From stdpp Require Import base list numbers sets sorting strings options.
From Stdlib Require Import ZArith Lia.
From S2P Require Import Prelude RustStd EntryType Wire MerkleTree.

Open Scope Z_scope.

Definition MERKLE_DOMAIN : bytes := bstr "watertown.series-merkle.v1" ++ [Byte.x0a].
Definition PROOF_MAGIC : bytes := bstr "watertown.series-range-proof.v1" ++ [Byte.x0a].
#[global] Opaque MERKLE_DOMAIN PROOF_MAGIC.
Definition TAG_EMPTY : byte := Byte.x00.
Definition TAG_LEAF : byte := Byte.x01.
Definition TAG_NODE : byte := Byte.x02.
Definition PROOF_NODE_MIN_BYTES : nat := 8 + 8 + 32.

Definition u64_max : Z := 2 ^ 64 - 1.

(** [u64::leading_zeros]. *)
Definition leading_zeros (x : Z) : Z := if x =? 0 then 64 else 63 - Z.log2 x.

(** [a - b] on an unsigned type: it panics below zero. *)
Definition usub (a b : Z) : res Z := if a <? b then Panic else Ok (a - b).

(** [split_point]: for [n = 1] the shift amount underflows. *)
Definition split_point (n : Z) : res Z :=
  m ← usub n 1; s ← usub 63 (leading_zeros m); mret (Z.shiftl 1 s).

(** The loop of [frontier_peak_counts]; each turn clears the top bit. *)
Fixpoint peak_counts_loop (fuel : nat) (leaf_count : Z) : res (list Z) :=
  match fuel with
  | O => Panic
  | S fuel =>
      if leaf_count =? 0 then Ok [] else
      let count := Z.shiftl 1 (63 - leading_zeros leaf_count) in
      rest ← peak_counts_loop fuel (leaf_count - count);
      mret (count :: rest)
  end.
Definition frontier_peak_counts (leaf_count : Z) : res (list Z) := peak_counts_loop 65 leaf_count.

(** * The frontier *)

Record FrontierPeak := { peak_count : Z; peak_hash : bytes }.
Record MerkleFrontier := { leaf_count : Z; peaks : list FrontierPeak }.

#[export] Instance FrontierPeak_eq_dec : EqDecision FrontierPeak.
Proof. solve_decision. Defined.
#[export] Instance MerkleFrontier_eq_dec : EqDecision MerkleFrontier.
Proof. solve_decision. Defined.

Definition frontier_empty : MerkleFrontier := {| leaf_count := 0; peaks := [] |}.

Definition peak_hashes (f : MerkleFrontier) : list bytes := map peak_hash (peaks f).

Definition from_peak_hashes (n : Z) (hashes : list bytes) : res MerkleFrontier :=
  counts ← frontier_peak_counts n;
  if bool_decide (length counts = length hashes)
  then mret {| leaf_count := n;
               peaks := zip_with (fun c h => {| peak_count := c; peak_hash := h |}) counts hashes |}
  else Err (FrontierPeaks (Z.of_nat (length counts)) (Z.of_nat (length hashes))).

(** * Range proofs *)

Record ProofNode := { pn_start : Z; pn_count : Z; pn_hash : bytes }.
Record RangeProof := { nodes : list ProofNode }.

#[export] Instance ProofNode_eq_dec : EqDecision ProofNode.
Proof. solve_decision. Defined.
#[export] Instance RangeProof_eq_dec : EqDecision RangeProof.
Proof. solve_decision. Defined.

(** The recursion splits a node of at most [2^64] leaves, so it is at most 65
    frames deep; a deeper recursion counts as a crash. *)
Definition DEPTH : nat := 65.

Definition outside (node_start node_end start stop : Z) : bool :=
  (node_end <=? start) || (stop <=? node_start).
Definition inside (node_start node_end start stop : Z) : bool :=
  (start <=? node_start) && (node_end <=? stop).

Fixpoint collect_positions (fuel : nat) (node_start node_count start stop : Z)
  : res (list (Z * Z)) :=
  match fuel with
  | O => Panic
  | S fuel =>
      let node_end := node_start + node_count in
      if outside node_start node_end start stop then Ok [(node_start, node_count)] else
      if inside node_start node_end start stop then Ok [] else
      k ← split_point node_count;
      l ← collect_positions fuel node_start k start stop;
      r ← collect_positions fuel (node_start + k) (node_count - k) start stop;
      mret (l ++ r)
  end.

Definition expected_positions (total start stop : Z) : res (list (Z * Z)) :=
  collect_positions DEPTH 0 total start stop.

(** The comparison loop of [validate_range_proof_shape]. *)
Fixpoint check_positions (i : Z) (expected : list (Z * Z)) (got : list ProofNode) : res unit :=
  match expected, got with
  | (s, c) :: expected, n :: got =>
      if negb (s =? pn_start n) || negb (c =? pn_count n) then Err (ProofNodeMismatch i)
      else check_positions (i + 1) expected got
  | _, _ => Ok tt
  end.

Definition validate_range_proof_shape (proof : RangeProof) (total start stop : Z) : res unit :=
  expected ← expected_positions total start stop;
  if bool_decide (length expected = length (nodes proof))
  then check_positions 0 expected (nodes proof)
  else Err (ProofNodeCount (Z.of_nat (length expected)) (Z.of_nat (length (nodes proof)))).

(** [&leaves[lo as usize..hi as usize]]: out of range panics. *)
Definition slice (l : list bytes) (lo hi : Z) : res (list bytes) :=
  if (lo <=? hi) && (hi <=? Z.of_nat (length l))
  then Ok (firstn (Z.to_nat (hi - lo)) (skipn (Z.to_nat lo) l)) else Panic.

Definition check_range (total start stop : Z) : res unit :=
  if stop <=? start then Err (EmptyRange start stop) else
  if total <? stop then Err (RangeOutOfBounds stop total) else Ok tt.

(** The node loop of [generate_append_range_proof]. *)
Fixpoint peak_nodes (start : Z) (ps : list FrontierPeak) : list ProofNode :=
  match ps with
  | [] => []
  | p :: ps =>
      {| pn_start := start; pn_count := peak_count p; pn_hash := peak_hash p |}
      :: peak_nodes (start + peak_count p) ps
  end.

Definition generate_append_range_proof (prefix : MerkleFrontier) (suffix_leaf_count : Z)
  : res RangeProof :=
  if suffix_leaf_count =? 0 then Err EmptyAppend else
  let total := leaf_count prefix + suffix_leaf_count in
  if u64_max <? total then Err FrontierOverflow else
  let proof := {| nodes := peak_nodes 0 (peaks prefix) |} in
  _ ← validate_range_proof_shape proof total (leaf_count prefix) total;
  mret proof.

(** ** Wire form *)

Definition encode_proof_node (n : ProofNode) : res bytes :=
  mret (to_le 8 (pn_start n) ++ to_le 8 (pn_count n) ++ pn_hash n).

Definition encode_range_proof (proof : RangeProof) : res bytes :=
  count ← push_count (length (nodes proof));
  body ← omap_list encode_proof_node (nodes proof);
  mret (PROOF_MAGIC ++ count ++ concat body).

Definition take_proof_node : Dec ProofNode :=
  s ← take_u64; c ← take_u64; h ← take_hash;
  mret {| pn_start := s; pn_count := c; pn_hash := h |}.

Definition decode_range_proof (b : bytes) (total start stop : Z) : res RangeProof :=
  _ ← check_range total start stop;
  decode_strict
    (_ ← expect_tag PROOF_MAGIC; n ← take_u32; take_many (Z.to_nat n) take_proof_node)
    (fun ns => let proof := {| nodes := ns |} in
               _ ← validate_range_proof_shape proof total start stop; mret proof) b.

Section Hashing.
Context `{Blake3}.

Definition leaf_input (leaf : bytes) : bytes := MERKLE_DOMAIN ++ TAG_LEAF :: leaf.
Definition interior_input (left right : bytes) : bytes :=
  MERKLE_DOMAIN ++ TAG_NODE :: left ++ right.

Definition empty_root : bytes := blake3 (MERKLE_DOMAIN ++ [TAG_EMPTY]).
Definition leaf_node_hash (leaf : bytes) : bytes := blake3 (leaf_input leaf).
Definition interior_hash (left right : bytes) : bytes := blake3 (interior_input left right).

(** The [while] loop of [append], on the peaks from the last one. *)
Fixpoint merge_carry (rpeaks : list FrontierPeak) (carry : FrontierPeak)
  : res (list FrontierPeak * FrontierPeak) :=
  match rpeaks with
  | lft :: rest =>
      if peak_count lft =? peak_count carry then
        if u64_max <? peak_count carry * 2 then Err FrontierOverflow else
        merge_carry rest {| peak_count := peak_count carry * 2;
                            peak_hash := interior_hash (peak_hash lft) (peak_hash carry) |}
      else Ok (rpeaks, carry)
  | [] => Ok ([], carry)
  end.

Definition frontier_append (leaf : bytes) (f : MerkleFrontier) : res MerkleFrontier :=
  let next_count := leaf_count f + 1 in
  if u64_max <? next_count then Err FrontierOverflow else
  '(rest, carry) ← merge_carry (rev (peaks f))
                     {| peak_count := 1; peak_hash := leaf_node_hash leaf |};
  mret {| leaf_count := next_count; peaks := rev rest ++ [carry] |}.

(** [extended]: the loop [for leaf in leaves { next.append(leaf)?; }]. *)
Fixpoint extended (f : MerkleFrontier) (leaves : list bytes) : res MerkleFrontier :=
  match leaves with
  | [] => Ok f
  | leaf :: leaves => f ← frontier_append leaf f; extended f leaves
  end.

(** [from_leaves]: the same loop from the empty frontier, with [expect]. *)
Definition from_leaves (leaves : list bytes) : res MerkleFrontier :=
  match extended frontier_empty leaves with
  | Ok f => Ok f
  | _ => Panic
  end.

Definition frontier_root (f : MerkleFrontier) : bytes :=
  match rev (peaks f) with
  | [] => empty_root
  | last :: rest =>
      fold_left (fun root p => interior_hash (peak_hash p) root) rest (peak_hash last)
  end.

Definition merkle_root (leaves : list bytes) : res bytes :=
  f ← from_leaves leaves; mret (frontier_root f).

(** [subtree_hash]: the recursion is at most as deep as the slice is long. *)
Fixpoint subtree_hash_loop (fuel : nat) (leaves : list bytes) : res bytes :=
  match fuel, leaves with
  | _, [] => Ok empty_root
  | _, [leaf] => Ok (leaf_node_hash leaf)
  | O, _ => Panic
  | S fuel, _ =>
      k ← split_point (Z.of_nat (length leaves));
      left ← subtree_hash_loop fuel (firstn (Z.to_nat k) leaves);
      right ← subtree_hash_loop fuel (skipn (Z.to_nat k) leaves);
      mret (interior_hash left right)
  end.
Definition subtree_hash (leaves : list bytes) : res bytes :=
  subtree_hash_loop (length leaves) leaves.

Fixpoint generate_node (fuel : nat) (node_start node_count start stop : Z) (leaves : list bytes)
  : res (list ProofNode * bytes) :=
  match fuel with
  | O => Panic
  | S fuel =>
      let node_end := node_start + node_count in
      sl ← slice leaves node_start node_end;
      if outside node_start node_end start stop then
        hash ← subtree_hash sl;
        mret ([{| pn_start := node_start; pn_count := node_count; pn_hash := hash |}], hash)
      else if inside node_start node_end start stop then
        hash ← subtree_hash sl; mret ([], hash)
      else
        k ← split_point node_count;
        '(out1, lft) ← generate_node fuel node_start k start stop leaves;
        '(out2, rgt) ← generate_node fuel (node_start + k) (node_count - k) start stop leaves;
        mret (out1 ++ out2, interior_hash lft rgt)
  end.

Definition generate_range_proof (leaves : list bytes) (start stop : Z) : res RangeProof :=
  let total := Z.of_nat (length leaves) in
  _ ← check_range total start stop;
  '(out, _) ← generate_node DEPTH 0 total start stop leaves;
  mret {| nodes := out |}.

Fixpoint fold_node (fuel : nat) (node_start node_count start stop range_offset : Z)
    (range_leaves : list bytes) (iter : list ProofNode) : res (bytes * list ProofNode) :=
  match fuel with
  | O => Panic
  | S fuel =>
      let node_end := node_start + node_count in
      if outside node_start node_end start stop then
        match iter with
        | [] => Err MissingProofNode
        | n :: iter =>
            if negb (pn_start n =? node_start) || negb (pn_count n =? node_count)
            then Err (ProofNodeMismatch node_start)
            else Ok (pn_hash n, iter)
        end
      else if inside node_start node_end start stop then
        sl ← slice range_leaves (node_start - range_offset) (node_end - range_offset);
        h ← subtree_hash sl; mret (h, iter)
      else
        k ← split_point node_count;
        '(lft, iter) ← fold_node fuel node_start k start stop range_offset range_leaves iter;
        '(rgt, iter) ← fold_node fuel (node_start + k) (node_count - k) start stop range_offset
                           range_leaves iter;
        mret (interior_hash lft rgt, iter)
  end.

Definition verify_range_proof (total start stop : Z) (range_leaves : list bytes)
    (proof : RangeProof) : res bytes :=
  _ ← check_range total start stop;
  if negb (Z.of_nat (length range_leaves) =? stop - start)
  then Err (RangeLeafCount (stop - start) (Z.of_nat (length range_leaves))) else
  _ ← validate_range_proof_shape proof total start stop;
  '(root, iter) ← fold_node DEPTH 0 total start stop start range_leaves (nodes proof);
  match iter with
  | [] => mret root
  | _ :: _ => Err TrailingProofNodes
  end.
End Hashing.

(** * Machine-integer facts *)

Lemma shift_top x : 0 < x < 2 ^ 64 -> Z.shiftl 1 (63 - leading_zeros x) = 2 ^ Z.log2 x.
Proof.
  intros Hx. unfold leading_zeros. destruct (Z.eqb_spec x 0); [lia|].
  replace (63 - (63 - Z.log2 x)) with (Z.log2 x) by lia.
  rewrite Z.shiftl_mul_pow2 by apply Z.log2_nonneg. lia.
Qed.

Lemma log2_u64 x : 0 < x < 2 ^ 64 -> 0 <= Z.log2 x <= 63.
Proof.
  intros Hx. split; [apply Z.log2_nonneg|].
  assert (Z.log2 x < 64); [|lia]. apply Z.log2_lt_pow2; lia.
Qed.

Lemma split_point_spec_Z n : 2 <= n <= 2 ^ 64 -> split_point n = Ok (2 ^ Z.log2 (n - 1)).
Proof.
  intros Hn. unfold split_point, usub. destruct (Z.ltb_spec n 1); [lia|].
  cbn [mbind outcome_bind]. pose proof (log2_u64 (n - 1) ltac:(lia)).
  destruct (Z.ltb_spec 63 (leading_zeros (n - 1))) as [Hlt|].
  { unfold leading_zeros in Hlt. destruct (Z.eqb_spec (n - 1) 0); lia. }
  cbn [mbind outcome_bind]. rewrite shift_top by lia. done.
Qed.

Lemma series_split_point_nat n :
  (2 <= n)%nat -> Z.of_nat n <= 2 ^ 64 -> split_point (Z.of_nat n) = Ok (Z.of_nat (split n)).
Proof. intros. rewrite split_point_spec_Z, split_log2 by lia. done. Qed.

Fixpoint pow_sum (ps : list nat) : Z :=
  match ps with [] => 0 | p :: ps => 2 ^ Z.of_nat p + pow_sum ps end.

Lemma pow_sum_bound ps : StronglySorted gt ps ->
  forall p, Forall (fun q => (q < p)%nat) ps -> 0 <= pow_sum ps < 2 ^ Z.of_nat p.
Proof.
  induction 1 as [|q ps Hs IH Hq]; intros p Hp; cbn [pow_sum]; [lia|].
  apply Forall_cons in Hp as [Hqp _]. specialize (IH q Hq).
  assert (2 ^ Z.of_nat q * 2 <= 2 ^ Z.of_nat p).
  { rewrite Z.mul_comm, <- Z.pow_succ_r, <- Nat2Z.inj_succ by lia. apply Z.pow_le_mono_r; lia. }
  lia.
Qed.

Lemma peak_counts_pow_sum ps fuel :
  StronglySorted gt ps -> Forall (fun q => (q < 64)%nat) ps -> (length ps < fuel)%nat ->
  peak_counts_loop fuel (pow_sum ps) = Ok (map (fun p => 2 ^ Z.of_nat p) ps).
Proof.
  intros Hs. revert fuel. induction Hs as [|q ps Hs IH Hq]; intros fuel Hb Hf;
    (destruct fuel as [|fuel]; [simpl in Hf; lia|]); [done|].
  apply Forall_cons in Hb as [Hq64 Hb]. pose proof (pow_sum_bound ps Hs q Hq) as Hps.
  pose proof (Z.pow_pos_nonneg 2 (Z.of_nat q)) as Hpos.
  assert (Z.log2 (pow_sum (q :: ps)) = Z.of_nat q) as El.
  { apply Z.log2_unique; cbn [pow_sum]; [lia|]. rewrite Z.pow_succ_r by lia. lia. }
  assert (pow_sum (q :: ps) < 2 ^ 64).
  { apply (pow_sum_bound (q :: ps) ltac:(by constructor) 64). by constructor. }
  cbn [peak_counts_loop]. destruct (Z.eqb_spec (pow_sum (q :: ps)) 0) as [E|E].
  { cbn [pow_sum] in E. lia. }
  rewrite shift_top, El by (cbn [pow_sum] in *; lia).
  replace (pow_sum (q :: ps) - 2 ^ Z.of_nat q) with (pow_sum ps) by (cbn [pow_sum]; lia).
  rewrite IH by (done || (simpl in Hf; lia)). done.
Qed.

Section SeriesProofs.
Context `{Blake3}.

Abbreviation MTH := (MTH interior_hash empty_root).

(** The tree head of a run of leaves. *)
Definition series_head (leaves : list bytes) : bytes := MTH (map leaf_node_hash leaves).

Lemma subtree_hash_loop_spec fuel l :
  (length l <= fuel)%nat -> Z.of_nat (length l) <= 2 ^ 64 ->
  subtree_hash_loop fuel l = Ok (series_head l).
Proof.
  revert l. induction fuel as [|fuel IH]; intros l Hf Hb.
  - destruct l; [done|simpl in Hf; lia].
  - destruct (decide (2 <= length l)%nat) as [Hl|Hl].
    + pose proof (split_spec _ Hl).
      assert (subtree_hash_loop (S fuel) l
        = (k ← split_point (Z.of_nat (length l));
           a ← subtree_hash_loop fuel (firstn (Z.to_nat k) l);
           b ← subtree_hash_loop fuel (skipn (Z.to_nat k) l); mret (interior_hash a b))) as ->
        by (destruct l as [|? [|]]; simpl in Hl; [lia..|done]).
      rewrite series_split_point_nat by done. cbn [mbind outcome_bind]. rewrite Nat2Z.id.
      rewrite !IH by (rewrite ?length_take, ?length_drop; lia). cbn [mbind outcome_bind].
      unfold series_head. rewrite (MTH_unfold _ _ (map _ l)) by (by rewrite length_map).
      rewrite length_map, <- firstn_map, <- skipn_map. done.
    + destruct l as [|x [|]]; simpl in Hl; [done..|lia].
Qed.

Lemma subtree_hash_spec l :
  Z.of_nat (length l) <= 2 ^ 64 -> subtree_hash l = Ok (series_head l).
Proof. intros. by apply subtree_hash_loop_spec. Qed.

(** * The frontier invariant *)

(** [tiles b ps rp l]: the peaks [rp], from the last one, with exponents [ps],
    are the heads of consecutive perfect runs of [l], each of exponent at
    least [b] and smaller than the next. *)
Inductive tiles : nat -> list nat -> list FrontierPeak -> list bytes -> Prop :=
| tiles_nil b : tiles b [] [] []
| tiles_cons b p ps rp l c :
    (b <= p)%nat -> length c = (2 ^ p)%nat -> tiles (S p) ps rp l ->
    tiles b (p :: ps)
      ({| peak_count := 2 ^ Z.of_nat p; peak_hash := series_head c |} :: rp) (l ++ c).

Lemma tiles_weaken b b' ps rp l : (b' <= b)%nat -> tiles b ps rp l -> tiles b' ps rp l.
Proof. intros Hb. destruct 1; econstructor; (lia || done). Qed.

Lemma series_head_app l r p :
  length l = (2 ^ p)%nat -> (0 < length r)%nat -> (length r <= 2 ^ p)%nat ->
  series_head (l ++ r) = interior_hash (series_head l) (series_head r).
Proof.
  intros Hl Hr1 Hr2. unfold series_head. rewrite map_app.
  by apply (MTH_app _ _ _ _ p); rewrite length_map.
Qed.

Lemma merge_carry_spec rp : forall q ps l c,
  tiles q ps rp l -> length c = (2 ^ q)%nat -> Z.of_nat (length (l ++ c)) < 2 ^ 64 ->
  exists rp' carry ps',
    merge_carry rp {| peak_count := 2 ^ Z.of_nat q; peak_hash := series_head c |}
    = Ok (rp', carry)
    /\ tiles q ps' (carry :: rp') (l ++ c).
Proof.
  induction rp as [|pk rp IH]; intros q ps l c Ht Hc Hb; inversion Ht as [|b p ps' ? l' c' Hqp Hc' Ht']; subst.
  - exists [], {| peak_count := 2 ^ Z.of_nat q; peak_hash := series_head c |}, [q].
    split; [done|]. by apply tiles_cons; [|done|constructor].
  - cbn [merge_carry peak_count]. destruct (Z.eqb_spec (2 ^ Z.of_nat p) (2 ^ Z.of_nat q)) as [E|E].
    + apply Z.pow_inj_r in E; [|lia..]. apply Nat2Z.inj in E as ->.
      assert (2 ^ Z.of_nat q * 2 = 2 ^ Z.of_nat (S q)) as E2
        by (rewrite Nat2Z.inj_succ, Z.pow_succ_r by lia; lia).
      assert (length (c' ++ c) = 2 ^ S q)%nat as Hcc
        by (rewrite length_app, Nat.pow_succ_r', Hc, Hc'; lia).
      destruct (Z.ltb_spec u64_max (2 ^ Z.of_nat q * 2)) as [Hlt|_].
      { exfalso. rewrite <- app_assoc, length_app, Hcc, Nat2Z.inj_add, Nat2Z.inj_pow in Hb.
        unfold u64_max in Hlt. change (Z.of_nat 2) with 2 in Hb. lia. }
      cbn [peak_hash]. rewrite E2, <- (series_head_app c' c q)
        by (rewrite ?Hc; try done; pose proof (Nat.pow_nonzero 2 q); lia).
      rewrite <- app_assoc in *.
      destruct (IH (S q) ps' l' (c' ++ c)) as (rp' & carry & ps2 & Hm & Hts); [done..|].
      exists rp', carry, ps2. split; [done|]. eapply tiles_weaken; [|done]. lia.
    + eexists _, _, (q :: p :: ps'). split; [done|].
      assert (q <> p) by (intros ->; done).
      apply tiles_cons; [lia|done|]. apply tiles_cons; [lia|done..].
Qed.

(** The frontier of a sequence of leaves. *)
Definition frontier_of (f : MerkleFrontier) (leaves : list bytes) : Prop :=
  leaf_count f = Z.of_nat (length leaves)
  /\ exists ps, tiles 0 ps (rev (peaks f)) leaves.

Lemma frontier_empty_of : frontier_of frontier_empty [].
Proof. split; [done|]. exists []. constructor. Qed.

Lemma frontier_append_of leaf f leaves :
  frontier_of f leaves -> Z.of_nat (length leaves) + 1 < 2 ^ 64 ->
  exists f', frontier_append leaf f = Ok f' /\ frontier_of f' (leaves ++ [leaf]).
Proof.
  intros [Hc [ps Ht]] Hb. unfold frontier_append. rewrite Hc.
  destruct (Z.ltb_spec u64_max (Z.of_nat (length leaves) + 1)); [unfold u64_max in *; lia|].
  destruct (merge_carry_spec _ 0 ps leaves [leaf] Ht) as (rp & carry & ps' & Hm & Ht');
    [done|rewrite length_app; simpl; lia|].
  change (2 ^ Z.of_nat 0) with 1 in Hm. change (series_head [leaf]) with (leaf_node_hash leaf) in Hm.
  rewrite Hm. eexists. split; [done|]. split; cbn [leaf_count peaks].
  - rewrite length_app. simpl. lia.
  - exists ps'. by rewrite rev_app_distr, rev_involutive.
Qed.

Lemma extended_of f leaves more :
  frontier_of f leaves -> Z.of_nat (length (leaves ++ more)) < 2 ^ 64 ->
  exists f', extended f more = Ok f' /\ frontier_of f' (leaves ++ more).
Proof.
  revert f leaves. induction more as [|x more IH]; intros f leaves Hf Hb.
  - exists f. by rewrite app_nil_r.
  - rewrite length_app in Hb. simpl in Hb.
    destruct (frontier_append_of x f leaves Hf) as (f1 & Ha & Hf1); [lia|].
    destruct (IH f1 (leaves ++ [x]) Hf1) as (f2 & He & Hf2).
    { rewrite !length_app. simpl. lia. }
    exists f2. simpl. rewrite Ha. split; [done|]. by rewrite <- app_assoc in Hf2.
Qed.

Lemma from_leaves_of leaves :
  Z.of_nat (length leaves) < 2 ^ 64 ->
  exists f, from_leaves leaves = Ok f /\ frontier_of f leaves.
Proof.
  intros Hb. destruct (extended_of _ [] leaves frontier_empty_of Hb) as (f & He & Hf).
  exists f. unfold from_leaves. by rewrite He.
Qed.

Lemma fold_peaks_head b ps rp l s :
  tiles b ps rp l -> (0 < length s <= 2 ^ b)%nat ->
  fold_left (fun root p => interior_hash (peak_hash p) root) rp (series_head s)
  = series_head (l ++ s).
Proof.
  intros Ht. revert s. induction Ht as [b|b p ps rp l c Hbp Hc Ht IH]; intros s Hs; [done|].
  pose proof (Nat.pow_le_mono_r 2 b p ltac:(lia) Hbp). cbn [fold_left peak_hash].
  rewrite <- (series_head_app c s p) by lia.
  rewrite IH by (rewrite length_app, Nat.pow_succ_r'; lia). by rewrite <- app_assoc.
Qed.

Lemma frontier_root_of f leaves : frontier_of f leaves -> frontier_root f = series_head leaves.
Proof.
  intros [_ [ps Ht]]. unfold frontier_root.
  destruct Ht as [b|b p ps rp l c Hbp Hc Ht]; [done|]. cbn [peak_hash].
  pose proof (Nat.pow_nonzero 2 p).
  apply (fold_peaks_head (S p) ps); [done|]. rewrite Hc, Nat.pow_succ_r'. lia.
Qed.

(** ** The counts are the set bits *)

Lemma tiles_facts b ps rp l :
  tiles b ps rp l ->
  StronglySorted lt ps /\ Forall (fun p => (b <= p)%nat) ps
  /\ pow_sum ps = Z.of_nat (length l)
  /\ map peak_count rp = map (fun p => 2 ^ Z.of_nat p) ps.
Proof.
  induction 1 as [b|b p ps rp l c Hbp Hc Ht (Hs & Hb & Hsum & Hcounts)].
  - repeat constructor.
  - split_and!.
    + constructor; [done|]. eapply Forall_impl; [exact Hb|]. simpl. lia.
    + constructor; [done|]. eapply Forall_impl; [exact Hb|]. simpl. lia.
    + cbn [pow_sum]. rewrite Hsum, length_app, Hc, Nat2Z.inj_add, Nat2Z.inj_pow.
      change (Z.of_nat 2) with 2. lia.
    + simpl. by rewrite Hcounts.
Qed.

Lemma pow_sum_app ps qs : pow_sum (ps ++ qs) = pow_sum ps + pow_sum qs.
Proof. induction ps as [|p ps IH]; cbn [pow_sum app]; [done|]. rewrite IH. lia. Qed.

Lemma pow_sum_rev ps : pow_sum (rev ps) = pow_sum ps.
Proof.
  induction ps as [|p ps IH]; [done|]. cbn [rev]. rewrite pow_sum_app, IH. cbn [pow_sum]. lia.
Qed.

Lemma sorted_rev ps : StronglySorted lt ps -> StronglySorted gt (rev ps).
Proof.
  induction 1 as [|p ps Hs IH Hp]; [constructor|]. cbn [rev].
  apply StronglySorted_app_2; [|done|repeat constructor].
  intros x y Hx Hy%list_elem_of_singleton. subst y.
  rewrite list_elem_of_In, <- in_rev, <- list_elem_of_In in Hx.
  rewrite Forall_forall in Hp. by apply Hp.
Qed.

Lemma sorted_length n ps :
  StronglySorted gt ps -> Forall (fun p => (p < n)%nat) ps -> (length ps <= n)%nat.
Proof.
  intros Hs. revert n. induction Hs as [|p ps Hs IH Hp]; intros n Hn; simpl; [lia|].
  apply Forall_cons in Hn as [Hpn _]. specialize (IH p Hp). lia.
Qed.

Lemma pow_sum_elem p ps : p ∈ ps -> 2 ^ Z.of_nat p <= pow_sum ps.
Proof.
  induction ps as [|q ps IH]; [set_solver|]. cbn [pow_sum].
  assert (forall ps, 0 <= pow_sum ps) as Hpos.
  { clear. induction ps as [|r ps IH]; cbn [pow_sum]; [lia|].
    pose proof (Z.pow_nonneg 2 (Z.of_nat r)). lia. }
  intros [->|Hin]%elem_of_cons; [specialize (Hpos ps); lia|].
  specialize (IH Hin). pose proof (Z.pow_nonneg 2 (Z.of_nat q)). lia.
Qed.

(** The exponents of a frontier, largest first. *)
Lemma frontier_exponents f leaves :
  frontier_of f leaves -> Z.of_nat (length leaves) < 2 ^ 64 ->
  exists ps, StronglySorted gt ps /\ Forall (fun p => (p < 64)%nat) ps
    /\ pow_sum ps = leaf_count f /\ map peak_count (peaks f) = map (fun p => 2 ^ Z.of_nat p) ps.
Proof.
  intros [Hc [ps Ht]] Hb. destruct (tiles_facts _ _ _ _ Ht) as (Hs & _ & Hsum & Hcounts).
  exists (rev ps). split_and!.
  - by apply sorted_rev.
  - apply Forall_forall. intros p Hp. rewrite list_elem_of_In, <- in_rev, <- list_elem_of_In in Hp.
    pose proof (pow_sum_elem p ps Hp). apply Nat2Z.inj_lt.
    apply (Z.pow_lt_mono_r_iff 2); lia.
  - by rewrite pow_sum_rev, Hsum, Hc.
  - by rewrite map_rev, <- Hcounts, map_rev, rev_involutive.
Qed.

Lemma frontier_counts f leaves :
  frontier_of f leaves -> Z.of_nat (length leaves) < 2 ^ 64 ->
  frontier_peak_counts (leaf_count f) = Ok (map peak_count (peaks f)) /\ (length (peaks f) <= 64)%nat.
Proof.
  intros Hf Hb. destruct (frontier_exponents f leaves Hf Hb) as (ps & Hs & H64 & Hsum & Hc).
  pose proof (sorted_length 64 ps Hs H64). split.
  - rewrite <- Hsum, Hc. apply peak_counts_pow_sum; [done..|lia].
  - apply (f_equal length) in Hc. rewrite !length_map in Hc. lia.
Qed.

Lemma from_peak_hashes_of f leaves :
  frontier_of f leaves -> Z.of_nat (length leaves) < 2 ^ 64 ->
  from_peak_hashes (leaf_count f) (peak_hashes f) = Ok f.
Proof.
  intros Hf Hb. destruct (frontier_counts f leaves Hf Hb) as [Hc _].
  unfold from_peak_hashes, peak_hashes. rewrite Hc. cbn [mbind outcome_bind].
  rewrite !length_map, bool_decide_true by done. unfold mret, outcome_ret. f_equal.
  destruct f as [n pks]. cbn [leaf_count peaks]. f_equal. clear.
  induction pks as [|[c h] pks IH]; simpl; [done|]. by rewrite IH.
Qed.

(** The hashes are kept as given. *)
Lemma from_peak_hashes_inv n hs g :
  from_peak_hashes n hs = Ok g ->
  peak_hashes g = hs /\ leaf_count g = n
  /\ exists cs, frontier_peak_counts n = Ok cs /\ length cs = length hs.
Proof.
  unfold from_peak_hashes. intros (cs & Hcs & Hg)%bind_Ok. case_bool_decide as El; [|done].
  apply Ok_inj in Hg as <-. cbn [leaf_count]. split_and!; [|done|by exists cs].
  unfold peak_hashes. cbn [peaks]. clear Hcs. revert hs El.
  induction cs as [|c cs IH]; intros [|h hs] El; simpl in *; try done. f_equal. apply IH. lia.
Qed.

Lemma extended_app f l1 l2 : extended f (l1 ++ l2) = f1 ← extended f l1; extended f1 l2.
Proof.
  revert f. induction l1 as [|x l1 IH]; intros f; simpl; [done|].
  destruct (frontier_append x f); simpl; [apply IH|done|done].
Qed.

(** The compact frontier is the tree: for every sequence of leaves shorter
    than [2^64] the frontier is built, its root is the recursive RFC 6962
    hash of the whole sequence, and extending it by a suffix gives the
    frontier of the longer sequence. *)
Theorem frontier_is_tree (leaves more : list bytes) :
  Z.of_nat (length (leaves ++ more)) < 2 ^ 64 ->
  exists f f', from_leaves leaves = Ok f /\ from_leaves (leaves ++ more) = Ok f'
    /\ extended f more = Ok f'
    /\ merkle_root (leaves ++ more) = Ok (frontier_root f')
    /\ subtree_hash (leaves ++ more) = Ok (frontier_root f')
    /\ subtree_hash leaves = Ok (frontier_root f).
Proof.
  intros Hb. pose proof Hb as Hb1. rewrite length_app in Hb1.
  destruct (extended_of _ [] leaves frontier_empty_of) as (f & He & Hf); [simpl; lia|].
  destruct (extended_of f leaves more Hf Hb) as (f' & He' & Hf').
  assert (from_leaves (leaves ++ more) = Ok f') as Hfrom
    by (unfold from_leaves; rewrite extended_app, He; simpl; by rewrite He').
  exists f, f'. split_and!; [by unfold from_leaves; rewrite He|done|done| | |].
  - unfold merkle_root. by rewrite Hfrom.
  - rewrite (frontier_root_of f' _ Hf'). apply subtree_hash_spec. lia.
  - rewrite (frontier_root_of f _ Hf). apply subtree_hash_spec. simpl. lia.
Qed.

(** A frontier is determined by its leaf count and its peak hashes: what
    [from_leaves] builds has at most 64 peaks and is rebuilt by
    [from_peak_hashes] from its own count and hashes, and [from_peak_hashes]
    accepts only as many hashes as the count has set bits. *)
Theorem frontier_peaks_round_trip (leaves : list bytes) :
  Z.of_nat (length leaves) < 2 ^ 64 ->
  exists f, from_leaves leaves = Ok f
    /\ from_peak_hashes (leaf_count f) (peak_hashes f) = Ok f
    /\ (length (peak_hashes f) <= 64)%nat
    /\ (forall hs g, from_peak_hashes (leaf_count f) hs = Ok g ->
          peak_hashes g = hs /\ leaf_count g = leaf_count f
          /\ length hs = length (peak_hashes f)).
Proof.
  intros Hb. destruct (from_leaves_of leaves Hb) as (f & He & Hf).
  destruct (frontier_counts f leaves Hf Hb) as [Hc H64].
  exists f. split_and!; [done|by eapply from_peak_hashes_of|unfold peak_hashes; by rewrite length_map|].
  intros hs g (<- & -> & cs & Hcs & El)%from_peak_hashes_inv. split_and!; [done..|].
  rewrite Hc in Hcs. apply Ok_inj in Hcs as <-. rewrite length_map in El.
  rewrite <- El. unfold peak_hashes. by rewrite length_map.
Qed.

(** * Walking the canonical tree *)

(** The leaves of the node that covers [node_count] leaves from [node_start]. *)
Definition node_leaves (l : list bytes) (node_start node_count : Z) : list bytes :=
  firstn (Z.to_nat node_count) (skipn (Z.to_nat node_start) l).

(** Induction along the recursion of the range functions. *)
Lemma walk_ind (total start stop : Z) (P : nat -> Z -> Z -> Prop) :
  start < stop -> total <= 2 ^ 64 ->
  (forall f ns nc, 0 <= ns -> 1 <= nc -> ns + nc <= total ->
     outside ns (ns + nc) start stop = true -> P (S f) ns nc) ->
  (forall f ns nc, 0 <= ns -> 1 <= nc -> ns + nc <= total ->
     outside ns (ns + nc) start stop = false -> inside ns (ns + nc) start stop = true ->
     P (S f) ns nc) ->
  (forall f ns nc k, 0 <= ns -> 2 <= nc -> ns + nc <= total ->
     outside ns (ns + nc) start stop = false -> inside ns (ns + nc) start stop = false ->
     split_point nc = Ok k -> k = Z.of_nat (split (Z.to_nat nc)) -> 0 < k < nc -> nc <= 2 * k ->
     P f ns k -> P f (ns + k) (nc - k) -> P (S f) ns nc) ->
  forall f ns nc, 0 <= ns -> 1 <= nc <= 2 ^ Z.of_nat f -> ns + nc <= total -> P (S f) ns nc.
Proof.
  intros Hr Ht Hout Hin Hsplit f. induction f as [|f IH]; intros ns nc Hns Hnc Hb;
    (destruct (outside ns (ns + nc) start stop) eqn:Eo; [apply Hout; (done || lia)|]);
    (destruct (inside ns (ns + nc) start stop) eqn:Ei; [apply Hin; (done || lia)|]);
    unfold outside, inside in Eo, Ei.
  - exfalso. assert (nc = 1) as -> by (simpl in Hnc; lia). lia.
  - assert (2 <= nc) as H2 by lia.
    assert (exists n, nc = Z.of_nat n) as [n ->] by (exists (Z.to_nat nc); lia).
    pose proof (split_spec n ltac:(lia)) as Hs.
    assert (Z.of_nat (split n) <= 2 ^ Z.of_nat f).
    { rewrite split_log2 by lia. apply Z.pow_le_mono_r; [lia|].
      apply Z.lt_succ_r. apply Z.log2_lt_pow2; [lia|]. rewrite <- Nat2Z.inj_succ. lia. }
    apply (Hsplit _ _ _ (Z.of_nat (split n))); rewrite ?Nat2Z.id; try done; try lia.
    + apply series_split_point_nat; lia.
    + apply IH; lia.
    + apply IH; lia.
Qed.

Lemma slice_node l ns nc :
  0 <= ns -> 0 <= nc -> ns + nc <= Z.of_nat (length l) ->
  slice l ns (ns + nc) = Ok (node_leaves l ns nc).
Proof.
  intros. unfold slice, node_leaves. destruct (Z.leb_spec ns (ns + nc)); [|lia].
  destruct (Z.leb_spec (ns + nc) (Z.of_nat (length l))); [|lia].
  by replace (ns + nc - ns) with nc by lia.
Qed.

Lemma slice_range l s e ns nc :
  0 <= s -> s <= ns -> 0 <= nc -> ns + nc <= e -> e <= Z.of_nat (length l) ->
  slice (node_leaves l s (e - s)) (ns - s) (ns + nc - s) = Ok (node_leaves l ns nc).
Proof.
  intros. replace (ns + nc - s) with (ns - s + nc) by lia. rewrite slice_node; [|lia..|].
  - unfold node_leaves. rewrite skipn_firstn_comm, drop_drop, take_take.
    do 2 f_equal; [lia|]. f_equal. lia.
  - unfold node_leaves. rewrite length_take, length_drop. lia.
Qed.

Lemma node_leaves_length l ns nc :
  0 <= ns -> 0 <= nc -> ns + nc <= Z.of_nat (length l) ->
  length (node_leaves l ns nc) = Z.to_nat nc.
Proof. intros. unfold node_leaves. rewrite length_take, length_drop. lia. Qed.

Lemma node_leaves_split l ns nc k :
  0 <= ns -> 0 <= k <= nc ->
  firstn (Z.to_nat k) (node_leaves l ns nc) = node_leaves l ns k
  /\ skipn (Z.to_nat k) (node_leaves l ns nc) = node_leaves l (ns + k) (nc - k).
Proof.
  intros. unfold node_leaves. rewrite take_take, Nat.min_l by lia. split; [done|].
  rewrite skipn_firstn_comm, drop_drop. f_equal; [lia|]. f_equal. lia.
Qed.

Lemma series_head_split l ns nc k :
  0 <= ns -> 2 <= nc -> ns + nc <= Z.of_nat (length l) ->
  k = Z.of_nat (split (Z.to_nat nc)) -> 0 < k < nc ->
  series_head (node_leaves l ns nc)
  = interior_hash (series_head (node_leaves l ns k)) (series_head (node_leaves l (ns + k) (nc - k))).
Proof.
  intros. pose proof (node_leaves_length l ns nc) as Hl.
  destruct (node_leaves_split l ns nc k) as [<- <-]; [lia..|]. subst k. rewrite Nat2Z.id.
  unfold series_head. rewrite (MTH_unfold _ _ (map _ (node_leaves l ns nc)))
    by (rewrite length_map; lia).
  rewrite length_map, Hl by lia. by rewrite firstn_map, skipn_map.
Qed.

Lemma series_head_wf l : wf_hash (series_head l) = true.
Proof.
  unfold series_head. apply (MTH_form interior_hash empty_root (fun h => wf_hash h = true)).
  - apply bool_decide_true, blake3_len.
  - intros. apply bool_decide_true, blake3_len.
  - apply Forall_map, Forall_true. intros. apply bool_decide_true, blake3_len.
Qed.

(** * Completeness of range proofs *)

(** The honest proof node at a position. *)
Definition proof_node (l : list bytes) (pos : Z * Z) : ProofNode :=
  {| pn_start := pos.1; pn_count := pos.2; pn_hash := series_head (node_leaves l pos.1 pos.2) |}.

(** Positions, generation and folding agree at every node. *)
Lemma range_walk l start stop :
  0 <= start < stop -> stop <= Z.of_nat (length l) -> Z.of_nat (length l) < 2 ^ 64 ->
  forall f ns nc, 0 <= ns -> 1 <= nc <= 2 ^ Z.of_nat f -> ns + nc <= Z.of_nat (length l) ->
  exists pos,
    collect_positions (S f) ns nc start stop = Ok pos
    /\ generate_node (S f) ns nc start stop l
       = Ok (map (proof_node l) pos, series_head (node_leaves l ns nc))
    /\ forall rest, fold_node (S f) ns nc start stop start (node_leaves l start (stop - start))
                      (map (proof_node l) pos ++ rest)
                    = Ok (series_head (node_leaves l ns nc), rest).
Proof.
  intros Hr Hstop Hb.
  apply (walk_ind (Z.of_nat (length l)) start stop (fun f ns nc => exists pos,
    collect_positions f ns nc start stop = Ok pos
    /\ generate_node f ns nc start stop l
       = Ok (map (proof_node l) pos, series_head (node_leaves l ns nc))
    /\ forall rest, fold_node f ns nc start stop start (node_leaves l start (stop - start))
                      (map (proof_node l) pos ++ rest)
                    = Ok (series_head (node_leaves l ns nc), rest))); [lia|lia| | |].
  - intros f ns nc Hns Hnc Hle Ho. exists [(ns, nc)].
    cbn [collect_positions generate_node fold_node]. rewrite Ho, slice_node by lia.
    cbn [mbind outcome_bind]. rewrite subtree_hash_spec
      by (rewrite node_leaves_length by lia; lia). split_and!; [done..|].
    intros rest. simpl. by rewrite !Z.eqb_refl.
  - intros f ns nc Hns Hnc Hle Ho Hi. exists [].
    cbn [collect_positions generate_node fold_node]. rewrite Ho, Hi, slice_node by lia.
    unfold inside in Hi. cbn [mbind outcome_bind].
    rewrite slice_range by lia. cbn [mbind outcome_bind].
    rewrite subtree_hash_spec by (rewrite node_leaves_length by lia; lia). done.
  - intros f ns nc k Hns Hnc Hle Ho Hi Hk Hks Hkb _ (p1 & Hc1 & Hg1 & Hf1) (p2 & Hc2 & Hg2 & Hf2).
    exists (p1 ++ p2). cbn [collect_positions generate_node fold_node].
    rewrite Ho, Hi, Hk, slice_node by lia. cbn [mbind outcome_bind].
    rewrite Hc1, Hg1, Hc2, Hg2. cbn [mbind outcome_bind].
    rewrite (series_head_split l ns nc k) by (done || lia). rewrite map_app.
    split_and!; [done..|]. intros rest. rewrite <- app_assoc, Hf1. cbn [mbind outcome_bind].
    by rewrite Hf2.
Qed.

Lemma check_positions_ok l i pos : check_positions i pos (map (proof_node l) pos) = Ok tt.
Proof.
  revert i. induction pos as [|[a c] pos IH]; intros i; [done|].
  simpl. rewrite !Z.eqb_refl. apply IH.
Qed.

Lemma check_positions_inv i pos ns :
  length pos = length ns -> check_positions i pos ns = Ok tt ->
  map (fun n => (pn_start n, pn_count n)) ns = pos.
Proof.
  revert i ns. induction pos as [|[a c] pos IH]; intros i [|n ns] Hl; try done. simpl.
  destruct (Z.eqb_spec a (pn_start n)), (Z.eqb_spec c (pn_count n)); simpl; try done.
  intros Hc. subst. f_equal. apply (IH (i + 1)); [simpl in Hl; lia|done].
Qed.

Lemma check_range_ok total start stop :
  start < stop -> stop <= total -> check_range total start stop = Ok tt.
Proof.
  intros. unfold check_range. destruct (Z.leb_spec stop start); [lia|].
  destruct (Z.ltb_spec total stop); [lia|done].
Qed.

(** The positions of a range, as used at the root. *)
Lemma range_root l start stop :
  0 <= start < stop -> stop <= Z.of_nat (length l) -> Z.of_nat (length l) < 2 ^ 64 ->
  exists pos,
    expected_positions (Z.of_nat (length l)) start stop = Ok pos
    /\ generate_range_proof l start stop = Ok {| nodes := map (proof_node l) pos |}
    /\ fold_node DEPTH 0 (Z.of_nat (length l)) start stop start (node_leaves l start (stop - start))
         (map (proof_node l) pos) = Ok (series_head l, []).
Proof.
  intros Hr Hstop Hb.
  destruct (range_walk l start stop Hr Hstop Hb 64 0 (Z.of_nat (length l)))
    as (pos & Hc & Hg & Hf); [lia..|].
  assert (65%nat = DEPTH) as ED by reflexivity. rewrite ED in Hc, Hg, Hf.
  assert (node_leaves l 0 (Z.of_nat (length l)) = l) as El
    by (unfold node_leaves; rewrite Nat2Z.id; simpl; by rewrite firstn_all).
  exists pos. split_and!; [exact Hc| |].
  - unfold generate_range_proof. rewrite (bind_eq _ _ tt) by (apply check_range_ok; lia).
    by rewrite (bind_eq _ _ _ Hg).
  - specialize (Hf []). rewrite app_nil_r in Hf. by rewrite El in Hf.
Qed.

Lemma range_proof_generated (leaves : list bytes) (start stop : Z) :
  Z.of_nat (length leaves) < 2 ^ 64 -> 0 <= start < stop -> stop <= Z.of_nat (length leaves) ->
  exists proof root,
    generate_range_proof leaves start stop = Ok proof
    /\ merkle_root leaves = Ok root
    /\ validate_range_proof_shape proof (Z.of_nat (length leaves)) start stop = Ok tt
    /\ verify_range_proof (Z.of_nat (length leaves)) start stop
         (firstn (Z.to_nat (stop - start)) (skipn (Z.to_nat start) leaves)) proof = Ok root.
Proof.
  intros Hb Hr Hstop. destruct (range_root leaves start stop Hr Hstop Hb) as (pos & Hc & Hg & Hf).
  destruct (from_leaves_of leaves Hb) as (f & He & Hfo).
  exists {| nodes := map (proof_node leaves) pos |}, (series_head leaves).
  assert (validate_range_proof_shape {| nodes := map (proof_node leaves) pos |}
            (Z.of_nat (length leaves)) start stop = Ok tt) as Hv.
  { unfold validate_range_proof_shape. rewrite Hc. cbn [mbind outcome_bind nodes].
    rewrite length_map, bool_decide_true by done. apply check_positions_ok. }
  split_and!; [done| |done|].
  - unfold merkle_root. rewrite He. cbn [mbind outcome_bind]. by rewrite (frontier_root_of f leaves).
  - unfold verify_range_proof. rewrite (bind_eq _ _ tt) by (apply check_range_ok; lia).
    pose proof (node_leaves_length leaves start (stop - start)) as Hl.
    unfold node_leaves in *. rewrite Hl by lia.
    destruct (Z.eqb_spec (Z.of_nat (Z.to_nat (stop - start))) (stop - start)); [|lia].
    cbn [negb]. rewrite (bind_eq _ _ _ Hv). by rewrite (bind_eq _ _ _ Hf).
Qed.

(** Range proofs are complete: for every non-empty in-bounds range of a
    series the proof is generated, has the canonical shape, and verifies,
    from the leaves of the range alone, to the root of the whole series. *)
Theorem range_proof_complete (leaves : list bytes) (start stop : Z) :
  Z.of_nat (length leaves) < 2 ^ 64 -> 0 <= start < stop -> stop <= Z.of_nat (length leaves) ->
  exists proof root,
    generate_range_proof leaves start stop = Ok proof
    /\ merkle_root leaves = Ok root
    /\ validate_range_proof_shape proof (Z.of_nat (length leaves)) start stop = Ok tt
    /\ verify_range_proof (Z.of_nat (length leaves)) start stop
         (firstn (Z.to_nat (stop - start)) (skipn (Z.to_nat start) leaves)) proof = Ok root.
Proof. apply range_proof_generated. Qed.

(** * Soundness of range proofs *)

Definition blake_collision (xs ys : list bytes) : Prop :=
  exists a b, a ∈ xs /\ b ∈ ys /\ a <> b /\ blake3 a = blake3 b.

(** The strings hashed for the tree of a run of leaves. *)
Definition series_inputs (leaves : list bytes) : list bytes :=
  map leaf_input leaves
  ++ map (fun pq => interior_input pq.1 pq.2)
       (tree_pairs interior_hash empty_root (map leaf_node_hash leaves)).

(** The strings [fold_node] hashes. *)
Fixpoint fold_inputs (fuel : nat) (node_start node_count start stop range_offset : Z)
    (range_leaves : list bytes) (iter : list ProofNode) : list bytes :=
  match fuel with
  | O => []
  | S fuel =>
      let node_end := node_start + node_count in
      if outside node_start node_end start stop then [] else
      if inside node_start node_end start stop then
        match slice range_leaves (node_start - range_offset) (node_end - range_offset) with
        | Ok sl => series_inputs sl
        | _ => []
        end
      else
        match split_point node_count with
        | Ok k =>
            match fold_node fuel node_start k start stop range_offset range_leaves iter with
            | Ok (lft, iter') =>
                match fold_node fuel (node_start + k) (node_count - k) start stop range_offset
                        range_leaves iter' with
                | Ok (rgt, _) =>
                    interior_input lft rgt
                    :: fold_inputs fuel node_start k start stop range_offset range_leaves iter
                    ++ fold_inputs fuel (node_start + k) (node_count - k) start stop range_offset
                         range_leaves iter'
                | _ => []
                end
            | _ => []
            end
        | _ => []
        end
  end.

(** The strings [verify_range_proof] hashes. *)
Definition range_inputs (total start stop : Z) (range_leaves : list bytes) (proof : RangeProof)
  : list bytes :=
  fold_inputs DEPTH 0 total start stop start range_leaves (nodes proof).

Lemma interior_input_inj l r l' r' :
  wf_hash l = true -> wf_hash l' = true ->
  interior_input l r = interior_input l' r' -> l = l' /\ r = r'.
Proof.
  unfold wf_hash. intros Hl%bool_decide_eq_true Hl'%bool_decide_eq_true E.
  apply app_inv_head in E. injection E as E. apply app_inj_1 in E; [done|congruence].
Qed.

Lemma blake_collision_mono xs ys xs' ys' :
  xs ⊆ xs' -> ys ⊆ ys' -> blake_collision xs ys -> blake_collision xs' ys'.
Proof. intros H1 H2 (a & b & ? & ? & ? & ?). exists a, b. auto. Qed.

Lemma leaf_nodes_wf l : Forall (fun h => wf_hash h = true) (map leaf_node_hash l).
Proof. apply Forall_map, Forall_true. intros. apply bool_decide_true, blake3_len. Qed.

Lemma leaf_node_inj l1 l2 :
  length l1 = length l2 -> map leaf_node_hash l1 = map leaf_node_hash l2 ->
  l1 = l2 \/ blake_collision (map leaf_input l1) (map leaf_input l2).
Proof.
  revert l2. induction l1 as [|x l1 IH]; intros [|y l2] Hl E; try done; [by left|].
  simpl in E. injection E as Exy E. destruct (decide (x = y)) as [->|Hne].
  - destruct (IH l2) as [->|Hc]; [simpl in Hl; lia|done|by left|]. right.
    eapply blake_collision_mono; [| |exact Hc]; simpl; set_solver.
  - right. exists (leaf_input x), (leaf_input y). simpl. split_and!; [set_solver..| |exact Exy].
    unfold leaf_input. intros [= ?]%app_inv_head. done.
Qed.

(** Two runs of one length with the same head are equal, or collide. *)
Lemma series_head_inj l1 l2 :
  length l1 = length l2 -> series_head l1 = series_head l2 ->
  l1 = l2 \/ blake_collision (series_inputs l1) (series_inputs l2).
Proof.
  intros Hl E. unfold series_inputs.
  destruct (MTH_inj interior_hash empty_root (map leaf_node_hash l1) (map leaf_node_hash l2))
    as [Em|(p & q & Hp & Hq & Hne & Eh)]; [by rewrite !length_map|done| |].
  - destruct (leaf_node_inj l1 l2 Hl Em) as [->|Hc]; [by left|]. right.
    eapply blake_collision_mono; [| |exact Hc]; set_solver.
  - right. exists (interior_input p.1 p.2), (interior_input q.1 q.2). split_and!.
    + apply elem_of_app. right. by apply (list_elem_of_fmap_2 (fun pq => interior_input pq.1 pq.2)).
    + apply elem_of_app. right. by apply (list_elem_of_fmap_2 (fun pq => interior_input pq.1 pq.2)).
    + assert (forall l, Forall (both (fun h => wf_hash h = true))
        (tree_pairs interior_hash empty_root (map leaf_node_hash l))) as Hwf.
      { intros l. apply tree_pairs_form; [apply bool_decide_true, blake3_len| |apply leaf_nodes_wf].
        intros. apply bool_decide_true, blake3_len. }
      pose proof (proj1 (Forall_forall _ _) (Hwf l1) p Hp) as [Hp1 _].
      pose proof (proj1 (Forall_forall _ _) (Hwf l2) q Hq) as [Hq1 _].
      intros Ei. destruct (interior_input_inj _ _ _ _ Hp1 Hq1 Ei). destruct p, q. simpl in *. congruence.
    + exact Eh.
Qed.

Lemma series_inputs_halves m :
  (2 <= length m)%nat ->
  series_inputs m
  = (map leaf_input (take (split (length m)) m) ++ map leaf_input (drop (split (length m)) m))
    ++ interior_input (series_head (take (split (length m)) m))
         (series_head (drop (split (length m)) m))
    :: map (fun pq => interior_input pq.1 pq.2)
         (tree_pairs interior_hash empty_root (map leaf_node_hash (take (split (length m)) m)))
    ++ map (fun pq => interior_input pq.1 pq.2)
         (tree_pairs interior_hash empty_root (map leaf_node_hash (drop (split (length m)) m))).
Proof.
  intros Hm. unfold series_inputs, series_head.
  rewrite (tree_pairs_unfold _ _ (map leaf_node_hash m)) by (by rewrite length_map).
  rewrite length_map, <- !firstn_map, <- !skipn_map. cbn [map fst snd]. rewrite map_app.
  f_equal. by rewrite take_drop.
Qed.

Lemma series_inputs_split l ns nc k :
  0 <= ns -> 2 <= nc -> ns + nc <= Z.of_nat (length l) ->
  k = Z.of_nat (split (Z.to_nat nc)) -> 0 < k < nc ->
  series_inputs (node_leaves l ns k) ⊆ series_inputs (node_leaves l ns nc)
  /\ series_inputs (node_leaves l (ns + k) (nc - k)) ⊆ series_inputs (node_leaves l ns nc)
  /\ interior_input (series_head (node_leaves l ns k)) (series_head (node_leaves l (ns + k) (nc - k)))
     ∈ series_inputs (node_leaves l ns nc).
Proof.
  intros. pose proof (node_leaves_length l ns nc) as Hl.
  destruct (node_leaves_split l ns nc k) as [<- <-]; [lia..|].
  rewrite (series_inputs_halves (node_leaves l ns nc)) by lia.
  rewrite Hl by lia. subst k. rewrite Nat2Z.id. unfold series_inputs. set_solver.
Qed.

Lemma subtree_hash_wf sl h : subtree_hash sl = Ok h -> wf_hash h = true.
Proof.
  unfold subtree_hash. destruct (length sl) as [|fuel];
    destruct sl as [|a [|b sl]]; cbn [subtree_hash_loop]; intros E; inv_ok; try done;
    apply bool_decide_true, blake3_len.
Qed.

Lemma fold_node_wf rl start stop off f ns nc iter h rest :
  Forall (fun n => wf_hash (pn_hash n) = true) iter ->
  fold_node f ns nc start stop off rl iter = Ok (h, rest) ->
  wf_hash h = true /\ Forall (fun n => wf_hash (pn_hash n) = true) rest.
Proof.
  revert ns nc iter h rest. induction f as [|f IH]; intros ns nc iter h rest Hw; [done|].
  cbn [fold_node]. destruct (outside _ _ _ _).
  - destruct iter as [|n iter]; [done|]. destruct (negb _ || negb _); [done|].
    intros E%Ok_inj. injection E as <- <-. by apply Forall_cons in Hw.
  - destruct (inside _ _ _ _).
    + intros (sl & Hs & (x & Hx & E%Ok_inj)%bind_Ok)%bind_Ok. injection E as <- <-.
      split; [by eapply subtree_hash_wf|done].
    + intros (k & Hk & ([l it1] & Hl & ([r it2] & Hr & E%Ok_inj)%bind_Ok)%bind_Ok)%bind_Ok.
      injection E as <- <-. split; [apply bool_decide_true, blake3_len|].
      apply (IH _ _ _ _ _ Hw) in Hl as [_ Hw1]. by apply (IH _ _ _ _ _ Hw1) in Hr as [_ Hw2].
Qed.

(** The part of the range under a node agrees with the series. *)
Definition agree (rl l : list bytes) (start stop ns nc : Z) : Prop :=
  forall i, ns <= i < ns + nc -> start <= i < stop ->
    rl !! Z.to_nat (i - start) = l !! Z.to_nat i.

Lemma node_leaves_lookup l ns nc i :
  0 <= ns -> ns <= i < ns + nc -> node_leaves l ns nc !! Z.to_nat (i - ns) = l !! Z.to_nat i.
Proof.
  intros. unfold node_leaves. rewrite lookup_take_lt by lia. rewrite lookup_drop. f_equal. lia.
Qed.

Lemma slice_inv (rl sl : list bytes) lo hi :
  0 <= lo -> slice rl lo hi = Ok sl ->
  lo <= hi <= Z.of_nat (length rl) /\ sl = node_leaves rl lo (hi - lo).
Proof.
  intros Hlo. unfold slice. destruct (Z.leb_spec lo hi), (Z.leb_spec hi (Z.of_nat (length rl)));
    intros E; simpl in E; inv_ok; split; [lia|done].
Qed.

(** The fold of a subtree inside the range. *)
Lemma fold_inside_sound l rl start stop ns nc sl :
  0 <= start <= ns -> 1 <= nc -> ns + nc <= stop -> ns + nc <= Z.of_nat (length l) ->
  slice rl (ns - start) (ns + nc - start) = Ok sl -> Z.of_nat (length rl) <= 2 ^ 64 ->
  subtree_hash sl = Ok (series_head (node_leaves l ns nc)) ->
  agree rl l start stop ns nc
  \/ blake_collision (series_inputs sl) (series_inputs (node_leaves l ns nc)).
Proof.
  intros Hs Hnc He Hl Hsl Hb Hh. apply slice_inv in Hsl as [Hlo ->]; [|lia].
  replace (ns + nc - start - (ns - start)) with nc in * by lia.
  rewrite subtree_hash_spec in Hh by (rewrite node_leaves_length by lia; lia).
  apply Ok_inj in Hh.
  destruct (series_head_inj (node_leaves rl (ns - start) nc) (node_leaves l ns nc))
    as [E|Hc]; [by rewrite !node_leaves_length by lia|done| |by right].
  left. intros i Hi _. rewrite <- (node_leaves_lookup l ns nc i) by lia. rewrite <- E.
  replace (i - start) with (ns - start + (i - ns)) by lia.
  pose proof (node_leaves_lookup rl (ns - start) nc (i - start)) as El.
  replace (i - start - (ns - start)) with (i - ns) in El by lia. rewrite El by lia. f_equal. lia.
Qed.

Lemma fold_sound l rl start stop :
  0 <= start < stop -> stop <= Z.of_nat (length l) -> Z.of_nat (length l) < 2 ^ 64 ->
  Z.of_nat (length rl) <= 2 ^ 64 ->
  forall f ns nc, 0 <= ns -> 1 <= nc <= 2 ^ Z.of_nat f -> ns + nc <= Z.of_nat (length l) ->
  forall iter rest, Forall (fun n => wf_hash (pn_hash n) = true) iter ->
    fold_node (S f) ns nc start stop start rl iter = Ok (series_head (node_leaves l ns nc), rest) ->
    (exists pos, collect_positions (S f) ns nc start stop = Ok pos
       /\ iter = map (proof_node l) pos ++ rest /\ agree rl l start stop ns nc)
    \/ blake_collision (fold_inputs (S f) ns nc start stop start rl iter)
         (series_inputs (node_leaves l ns nc)).
Proof.
  intros Hr Hstop Hb Hrl.
  apply (walk_ind (Z.of_nat (length l)) start stop (fun f ns nc =>
    forall iter rest, Forall (fun n => wf_hash (pn_hash n) = true) iter ->
    fold_node f ns nc start stop start rl iter = Ok (series_head (node_leaves l ns nc), rest) ->
    (exists pos, collect_positions f ns nc start stop = Ok pos
       /\ iter = map (proof_node l) pos ++ rest /\ agree rl l start stop ns nc)
    \/ blake_collision (fold_inputs f ns nc start stop start rl iter)
         (series_inputs (node_leaves l ns nc)))); [lia|lia| | |].
  - intros f ns nc Hns Hnc Hle Ho iter rest Hw. cbn [fold_node collect_positions fold_inputs].
    rewrite Ho. destruct iter as [|n iter]; [done|].
    destruct (Z.eqb_spec (pn_start n) ns), (Z.eqb_spec (pn_count n) nc); simpl; try done.
    intros E%Ok_inj. injection E as Eh <-. left. exists [(ns, nc)]. split_and!; [done| |].
    + simpl. f_equal. destruct n. unfold proof_node. simpl in *. congruence.
    + unfold outside in Ho. intros i ? ?. lia.
  - intros f ns nc Hns Hnc Hle Ho Hi iter rest Hw. cbn [fold_node collect_positions fold_inputs].
    rewrite Ho, Hi. intros (sl & Hsl & (h & Hh & E%Ok_inj)%bind_Ok)%bind_Ok.
    injection E as -> <-. rewrite Hsl. unfold inside in Hi.
    destruct (fold_inside_sound l rl start stop ns nc sl) as [Ha|Hc]; [lia..|done|done|done| |by right].
    left. exists []. done.
  - intros f ns nc k Hns Hnc Hle Ho Hi Hk Hks Hkb _ IH1 IH2 iter rest Hw.
    cbn [fold_node collect_positions fold_inputs]. rewrite Ho, Hi, Hk. cbn [mbind outcome_bind].
    intros ([lft it1] & H1 & ([rgt it2] & H2 & E%Ok_inj)%bind_Ok)%bind_Ok.
    injection E as Eh <-. rewrite H1, H2.
    destruct (fold_node_wf _ _ _ _ _ _ _ _ _ _ Hw H1) as [Hwl Hw1].
    destruct (series_inputs_split l ns nc k) as (S1 & S2 & S3); [done|lia|lia|done|lia|].
    rewrite (series_head_split l ns nc k) in Eh by (done || lia).
    destruct (decide (interior_input lft rgt = interior_input (series_head (node_leaves l ns k))
               (series_head (node_leaves l (ns + k) (nc - k))))) as [Ei|Hne].
    2:{ right. eexists _, _. split_and!; [by left|exact S3|exact Hne|exact Eh]. }
    destruct (interior_input_inj _ _ _ _ Hwl (series_head_wf _) Ei) as [-> ->].
    destruct (IH1 iter it1 Hw H1) as [(p1 & Hp1 & -> & Ha1)|Hc]; cycle 1.
    { right. eapply blake_collision_mono; [|exact S1|exact Hc]. set_solver. }
    destruct (IH2 it1 it2 Hw1 H2) as [(p2 & Hp2 & -> & Ha2)|Hc]; cycle 1.
    { right. eapply blake_collision_mono; [|exact S2|exact Hc]. set_solver. }
    left. exists (p1 ++ p2). rewrite Hp1. cbn [mbind outcome_bind]. rewrite Hp2.
    split_and!; [done|by rewrite map_app, app_assoc|]. intros i Hi1 Hi2.
    destruct (decide (i < ns + k)); [apply Ha1|apply Ha2]; lia.
Qed.

(** * The append proof *)

(** Consecutive positions of the given sizes. *)
Fixpoint offsets (start : Z) (counts : list Z) : list (Z * Z) :=
  match counts with
  | [] => []
  | c :: counts => (start, c) :: offsets (start + c) counts
  end.

(** For a range that reaches the end of the series the positions are the
    perfect subtrees of the prefix before it, largest first. *)
Lemma append_positions total start :
  0 <= start < total -> total <= 2 ^ 64 ->
  forall f ns nc, 0 <= ns -> 1 <= nc <= 2 ^ Z.of_nat f -> ns + nc <= total ->
  (ns + nc <= start -> collect_positions (S f) ns nc start total = Ok [(ns, nc)])
  /\ (start <= ns -> collect_positions (S f) ns nc start total = Ok [])
  /\ (ns <= start < ns + nc ->
      exists ps, StronglySorted gt ps /\ pow_sum ps = start - ns
        /\ collect_positions (S f) ns nc start total
           = Ok (offsets ns (map (fun p => 2 ^ Z.of_nat p) ps))).
Proof.
  intros Hs Ht. apply (walk_ind total start total (fun f ns nc =>
    (ns + nc <= start -> collect_positions f ns nc start total = Ok [(ns, nc)])
    /\ (start <= ns -> collect_positions f ns nc start total = Ok [])
    /\ (ns <= start < ns + nc ->
        exists ps, StronglySorted gt ps /\ pow_sum ps = start - ns
          /\ collect_positions f ns nc start total
             = Ok (offsets ns (map (fun p => 2 ^ Z.of_nat p) ps))))); [lia|lia| | |].
  - intros f ns nc Hns Hnc Hle Ho. cbn [collect_positions]. rewrite Ho. unfold outside in Ho.
    split_and!; [done|lia|lia].
  - intros f ns nc Hns Hnc Hle Ho Hi. cbn [collect_positions]. rewrite Ho, Hi.
    unfold outside, inside in *. split_and!; [lia|done|]. intros ?. exists [].
    split_and!; [constructor|simpl; lia|done].
  - intros f ns nc k Hns Hnc Hle Ho Hi Hk Hks Hkb H2k (Hout1 & Hin1 & Hmid1) (Hout2 & Hin2 & Hmid2).
    cbn [collect_positions]. rewrite Ho, Hi, Hk. cbn [mbind outcome_bind].
    unfold outside, inside in *. split_and!; [lia|lia|]. intros Hmid.
    destruct (decide (start < ns + k)) as [Hlt|Hge].
    + destruct (Hmid1 ltac:(lia)) as (ps & Hsort & Hsum & E). exists ps.
      rewrite E, Hin2 by lia. cbn [mbind outcome_bind]. by rewrite app_nil_r.
    + destruct (Hmid2 ltac:(lia)) as (ps & Hsort & Hsum & E).
      set (q := Nat.log2 (Z.to_nat nc - 1)).
      assert (k = 2 ^ Z.of_nat q) as Hq
        by (rewrite Hks; unfold split; by rewrite Nat2Z.inj_pow).
      exists (q :: ps). rewrite Hout1, E by lia. cbn [mbind outcome_bind]. split_and!.
      * constructor; [done|]. apply Forall_forall. intros p Hp.
        pose proof (pow_sum_elem p ps Hp). apply Nat2Z.inj_lt, (Z.pow_lt_mono_r_iff 2); lia.
      * cbn [pow_sum]. lia.
      * cbn [map offsets]. rewrite <- Hq. done.
Qed.

Lemma pow_sum_unique ps qs :
  StronglySorted gt ps -> StronglySorted gt qs -> pow_sum ps = pow_sum qs -> pow_sum ps < 2 ^ 64 ->
  map (fun p => 2 ^ Z.of_nat p) ps = map (fun p => 2 ^ Z.of_nat p) qs.
Proof.
  intros Hp Hq E Hb.
  assert (forall ps, pow_sum ps < 2 ^ 64 -> Forall (fun p => (p < 64)%nat) ps) as H64.
  { intros rs Hr. apply Forall_forall. intros p Hin. pose proof (pow_sum_elem p rs Hin).
    apply Nat2Z.inj_lt, (Z.pow_lt_mono_r_iff 2); lia. }
  apply (Ok_inj (E := cerror)).
  rewrite <- (peak_counts_pow_sum ps 65); [|done|by apply H64|].
  - rewrite E. apply peak_counts_pow_sum; [done|apply H64; lia|].
    pose proof (sorted_length 64 qs Hq (H64 qs ltac:(lia))). lia.
  - pose proof (sorted_length 64 ps Hp (H64 ps Hb)). lia.
Qed.

Lemma peak_nodes_app s ps qs :
  peak_nodes s (ps ++ qs)
  = peak_nodes s ps ++ peak_nodes (s + foldr Z.add 0 (map peak_count ps)) qs.
Proof.
  revert s. induction ps as [|p ps IH]; intros s; simpl; [by rewrite Z.add_0_r|].
  rewrite IH. do 3 f_equal. lia.
Qed.

Lemma offsets_app s cs ds :
  offsets s (cs ++ ds) = offsets s cs ++ offsets (s + foldr Z.add 0 cs) ds.
Proof.
  revert s. induction cs as [|c cs IH]; intros s; simpl; [by rewrite Z.add_0_r|].
  rewrite IH. do 3 f_equal. lia.
Qed.

Lemma pow_sum_foldr ps : foldr Z.add 0 (map (fun p => 2 ^ Z.of_nat p) ps) = pow_sum ps.
Proof. induction ps as [|p ps IH]; simpl; [done|]. by rewrite IH. Qed.

(** The peaks of a prefix are its proof nodes in any extension. *)
Lemma tiles_proof_nodes b ps rp l :
  tiles b ps rp l -> forall more,
  peak_nodes 0 (rev rp)
  = map (proof_node (l ++ more)) (offsets 0 (map peak_count (rev rp))).
Proof.
  induction 1 as [b|b p ps rp l c Hbp Hc Ht IH]; intros more; [done|].
  destruct (tiles_facts _ _ _ _ Ht) as (_ & _ & Hsum & Hcounts).
  assert (foldr Z.add 0 (map peak_count (rev rp)) = Z.of_nat (length l)) as Hfold.
  { by rewrite map_rev, Hcounts, <- map_rev, pow_sum_foldr, pow_sum_rev. }
  cbn [rev]. rewrite map_app, peak_nodes_app, offsets_app, map_app, Hfold, !Z.add_0_l.
  rewrite <- app_assoc. rewrite (IH (c ++ more)). f_equal.
  cbn [map peak_nodes offsets peak_count peak_hash]. unfold proof_node. cbn [fst snd].
  do 3 f_equal. unfold node_leaves. rewrite Nat2Z.id, drop_app_length.
  replace (Z.to_nat (2 ^ Z.of_nat p)) with (length c).
  - by rewrite take_app_length.
  - apply Nat2Z.inj. rewrite Hc, Nat2Z.inj_pow, Z2Nat.id; [done|]. by apply Z.pow_nonneg.
Qed.

(* From here on the walks are only rewritten, never reduced: their fuel is a
   literal, and reducing them unfolds the whole tree of calls. *)
#[local] Opaque collect_positions generate_node fold_node fold_inputs.

Lemma bind_pair_Ok {E A B C} (m : outcome E (A * B)) (k : A -> B -> outcome E C) c :
  ('(a, b) ← m; k a b) = Ok c -> exists a b, m = Ok (a, b) /\ k a b = Ok c.
Proof. intros ([a b] & Hm & Hk)%bind_Ok. eauto. Qed.

Lemma verify_range_inv total start stop rl proof root :
  verify_range_proof total start stop rl proof = Ok root ->
  start < stop /\ stop <= total /\ Z.of_nat (length rl) = stop - start
  /\ fold_node DEPTH 0 total start stop start rl (nodes proof) = Ok (root, []).
Proof.
  unfold verify_range_proof. intros Hv. apply bind_Ok in Hv as ([] & Hr & Hv).
  unfold check_range in Hr. destruct (Z.leb_spec stop start); [done|].
  destruct (Z.ltb_spec total stop); [done|].
  destruct (negb (Z.of_nat (length rl) =? stop - start)) eqn:En; [done|].
  apply negb_false_iff, Z.eqb_eq in En.
  apply bind_Ok in Hv as ([] & _ & Hv). apply bind_pair_Ok in Hv as (r & it & Hf & Hv).
  destruct it; [|done]. apply Ok_inj in Hv as ->. done.
Qed.

Lemma node_leaves_all l : node_leaves l 0 (Z.of_nat (length l)) = l.
Proof. unfold node_leaves. rewrite Nat2Z.id. simpl. by rewrite firstn_all. Qed.

Lemma fold_sound_root l rl start stop iter depth :
  0 <= start < stop -> stop <= Z.of_nat (length l) -> Z.of_nat (length l) < 2 ^ 64 ->
  Z.of_nat (length rl) <= 2 ^ 64 -> depth = S 64 ->
  Forall (fun n => wf_hash (pn_hash n) = true) iter ->
  fold_node depth 0 (Z.of_nat (length l)) start stop start rl iter = Ok (series_head l, []) ->
  (exists pos, collect_positions depth 0 (Z.of_nat (length l)) start stop = Ok pos
     /\ iter = map (proof_node l) pos /\ agree rl l start stop 0 (Z.of_nat (length l)))
  \/ blake_collision (fold_inputs depth 0 (Z.of_nat (length l)) start stop start rl iter)
       (series_inputs l).
Proof.
  intros Hr Hstop Hb Hrl -> Hw Hf. rewrite <- (node_leaves_all l) in Hf at 2.
  destruct (fold_sound l rl start stop Hr Hstop Hb Hrl 64 0 (Z.of_nat (length l))
    ltac:(lia) ltac:(lia) ltac:(lia) iter [] Hw Hf) as [(pos & Hp & Ei & Ha)|Hc].
  - left. exists pos. rewrite app_nil_r in Ei. done.
  - right. by rewrite node_leaves_all in Hc.
Qed.

Lemma agree_all rl l start stop :
  0 <= start < stop -> stop <= Z.of_nat (length l) -> Z.of_nat (length rl) = stop - start ->
  agree rl l start stop 0 (Z.of_nat (length l)) -> rl = node_leaves l start (stop - start).
Proof.
  intros Hr Hstop El Ha. apply list_eq. intros i.
  destruct (decide (Z.of_nat i < stop - start)) as [Hi|Hi].
  - specialize (Ha (start + Z.of_nat i) ltac:(lia) ltac:(lia)).
    pose proof (node_leaves_lookup l start (stop - start) (start + Z.of_nat i)) as En.
    replace (start + Z.of_nat i - start) with (Z.of_nat i) in * by lia.
    rewrite Nat2Z.id in *. rewrite Ha, En by lia. done.
  - rewrite !lookup_ge_None_2; [done|rewrite node_leaves_length by lia; lia|lia].
Qed.

(** C3: Range proofs are sound: if the verifier returns the root of a series for
    its size and a range, then the leaves it was given are exactly the leaves
    of that range and the proof is the generated one, or the run exhibits a
    BLAKE3 collision between an input of the verifier and one of the tree. *)
Theorem range_proof_sound (leaves range_leaves : list bytes) (start stop : Z)
    (proof : RangeProof) (root : bytes) :
  Z.of_nat (length leaves) < 2 ^ 64 -> 0 <= start ->
  forallb (fun n => wf_hash (pn_hash n)) (nodes proof) = true ->
  merkle_root leaves = Ok root ->
  verify_range_proof (Z.of_nat (length leaves)) start stop range_leaves proof = Ok root ->
  (range_leaves = firstn (Z.to_nat (stop - start)) (skipn (Z.to_nat start) leaves)
   /\ generate_range_proof leaves start stop = Ok proof)
  \/ blake_collision
       (range_inputs (Z.of_nat (length leaves)) start stop range_leaves proof)
       (series_inputs leaves).
Proof.
  intros Hb Hs Hw%forallb_Forall Hroot Hv.
  destruct (from_leaves_of leaves Hb) as (f & He & Hfo). unfold merkle_root in Hroot.
  rewrite (bind_eq _ _ _ He) in Hroot. apply Ok_inj in Hroot.
  rewrite (frontier_root_of f leaves Hfo) in Hroot. subst root.
  apply verify_range_inv in Hv as (Hlt & Hle & El & Hf).
  destruct (range_root leaves start stop) as (pos' & Hp' & Hg & _); [lia..|].
  unfold range_inputs, expected_positions in *. revert Hf Hp'.
  assert (DEPTH = S 64) as ED by reflexivity. revert ED. generalize DEPTH as depth. intros depth ED Hf Hp'.
  destruct (fold_sound_root leaves range_leaves start stop (nodes proof) depth)
    as [(pos & Hp & Ep & Ha)|Hc]; [lia..|done|done|done| |by right]. left.
  rewrite Hp in Hp'. apply Ok_inj in Hp' as <-.
  split; [|rewrite Hg; destruct proof; simpl in Ep; by rewrite Ep].
  by apply agree_all.
Qed.

(** The canonical positions of an append. *)
Lemma append_expected f leaves total :
  frontier_of f leaves -> Z.of_nat (length leaves) < total -> total < 2 ^ 64 ->
  expected_positions total (leaf_count f) total = Ok (offsets 0 (map peak_count (peaks f))).
Proof.
  intros Hf Hlt Hb.
  destruct (frontier_exponents f leaves Hf ltac:(lia)) as (ps & Hs & H64 & Hsum & Hc).
  pose proof Hf as [Hcount _].
  destruct (append_positions total (leaf_count f) ltac:(lia) ltac:(lia) 64 0 total)
    as (_ & _ & Hmid); [lia..|].
  destruct (Hmid ltac:(lia)) as (qs & Hqs & Hqsum & E).
  rewrite Hc, (pow_sum_unique ps qs) by (done || lia). exact E.
Qed.

(** The append proof is the range proof: the proof read off the compact
    frontier of a prefix, without any of its leaves, is exactly the range proof
    generated from the whole extended series for the appended suffix. *)
Theorem append_proof_is_range_proof (leaves suffix : list bytes) :
  suffix <> [] -> Z.of_nat (length (leaves ++ suffix)) < 2 ^ 64 ->
  exists f proof, from_leaves leaves = Ok f
    /\ generate_append_range_proof f (Z.of_nat (length suffix)) = Ok proof
    /\ generate_range_proof (leaves ++ suffix) (Z.of_nat (length leaves))
         (Z.of_nat (length (leaves ++ suffix))) = Ok proof.
Proof.
  intros Hne Hb. pose proof Hb as Hb'. rewrite length_app in Hb'.
  assert (0 < length suffix)%nat as Hpos by (destruct suffix; simpl; [done|lia]).
  destruct (from_leaves_of leaves ltac:(lia)) as (f & He & Hf). pose proof Hf as [Hcount [ps Ht]].
  set (total := Z.of_nat (length (leaves ++ suffix))) in *.
  assert (total = Z.of_nat (length leaves) + Z.of_nat (length suffix)) as Etot
    by (unfold total; rewrite length_app; lia).
  pose proof (append_expected f leaves total Hf ltac:(lia) Hb) as Hexp.
  pose proof (tiles_proof_nodes _ _ _ _ Ht suffix) as Hnodes. rewrite rev_involutive in Hnodes.
  destruct (range_root (leaves ++ suffix) (Z.of_nat (length leaves)) total)
    as (pos & Hp & Hg & _); [lia..|done|]. fold total in Hp.
  rewrite <- Hcount, Hexp in Hp. apply Ok_inj in Hp. subst pos.
  exists f, {| nodes := peak_nodes 0 (peaks f) |}.
  split_and!; [done| |by rewrite Hnodes].
  unfold generate_append_range_proof. destruct (Z.eqb_spec (Z.of_nat (length suffix)) 0); [lia|].
  rewrite Hcount, <- Etot. destruct (Z.ltb_spec u64_max total); [unfold u64_max in *; lia|].
  rewrite (bind_eq _ _ tt); [done|]. unfold validate_range_proof_shape.
  rewrite <- Hcount, (bind_eq _ _ _ Hexp). cbn [nodes]. rewrite Hnodes, length_map.
  rewrite bool_decide_true by done. apply check_positions_ok.
Qed.

(** * The wire form *)

Definition wf_proof_node (n : ProofNode) : bool :=
  is_u64 (pn_start n) && is_u64 (pn_count n) && wf_hash (pn_hash n).
Definition wf_proof (p : RangeProof) : bool := forallb wf_proof_node (nodes p).

Lemma decodes_proof_node n e :
  wf_proof_node n = true -> encode_proof_node n = Ok e -> decodes take_proof_node e n.
Proof.
  unfold wf_proof_node. rewrite !andb_true_iff. intros [[Hs Hc] Hh] <-%Ok_inj.
  unfold take_proof_node. dec_step. dec_step. eapply decodes_bind_nil; [eauto with wire|].
  destruct n. apply decodes_ret.
Qed.

Lemma consumes_proof_node :
  consumes take_proof_node (fun n e => encode_proof_node n = Ok e /\ wf_proof_node n = true).
Proof.
  eapply consumes_weaken.
  { unfold take_proof_node. con_step. con_step. con_step. apply consumes_ret. }
  intros n e (s & e1 & r1 & -> & [-> Hs] & c & e2 & r2 & -> & [-> Hc] & h & e3 & r3 & ->
    & [-> Hh] & -> & ->).
  unfold encode_proof_node, wf_proof_node. cbn [pn_start pn_count pn_hash].
  rewrite app_nil_r, Hs, Hc, Hh. done.
Qed.

(** The wire form of a range proof is canonical: decoding succeeds exactly on
    the encoding of a proof whose shape is the one of the requested range, for a
    non-empty in-bounds range, and returns that proof. *)
Theorem range_proof_codec (b : bytes) (total start stop : Z) (p : RangeProof) :
  decode_range_proof b total start stop = Ok p
  <-> start < stop /\ stop <= total
      /\ validate_range_proof_shape p total start stop = Ok tt
      /\ wf_proof p = true /\ encode_range_proof p = Ok b.
Proof.
  unfold decode_range_proof, encode_range_proof. split.
  - intros ([] & Hr & Hd)%bind_Ok. unfold check_range in Hr.
    destruct (Z.leb_spec stop start); [done|]. destruct (Z.ltb_spec total stop); [done|].
    eapply decode_strict_inv in Hd as (ns & HR & Hp).
    2: { con_step. apply consumes_counted, consumes_proof_node. }
    simpl in HR. destruct HR as (_ & e1 & e2 & -> & -> & He & Hw).
    apply bind_Ok in Hp as ([] & Hv & <-%Ok_inj). split_and!; [done..|].
    cbn [nodes]. inv_ok. rewrite Hx, Hx0. done.
  - intros (Hlt & Hle & Hv & Hw & He). rewrite (bind_eq _ _ tt) by (by apply check_range_ok).
    inv_ok. rewrite (decode_strict_encoded _ _ _ (nodes p)).
    + destruct p as [ns]. cbn [nodes]. by rewrite (bind_eq _ _ _ Hv).
    + dec_step. eapply decodes_bind; [by apply decodes_count|].
      rewrite Nat2Z.id. eapply (decodes_many_enc _ encode_proof_node (fun n => wf_proof_node n = true)).
      * intros n e. apply decodes_proof_node.
      * by apply forallb_Forall.
      * done.
Qed.
End SeriesProofs.

(** * Witnesses *)

Definition ex_leaves (n : nat) : list bytes := map (fun i => to_le 32 (Z.of_nat i)) (seq 0 n).
Definition ex_series_root (n : nat) : bytes := unwrap_or [] (@merkle_root mix_blake3 (ex_leaves n)).
Definition ex_proof (n : nat) (start stop : Z) : RangeProof :=
  unwrap_or {| nodes := [] |} (@generate_range_proof mix_blake3 (ex_leaves n) start stop).

Lemma frontier_is_tree_witness :
  exists f f', @from_leaves mix_blake3 (ex_leaves 5) = Ok f
    /\ @from_leaves mix_blake3 (ex_leaves 5 ++ ex_leaves 2) = Ok f'
    /\ @extended mix_blake3 f (ex_leaves 2) = Ok f'
    /\ @merkle_root mix_blake3 (ex_leaves 5 ++ ex_leaves 2) = Ok (@frontier_root mix_blake3 f')
    /\ @subtree_hash mix_blake3 (ex_leaves 5 ++ ex_leaves 2) = Ok (@frontier_root mix_blake3 f')
    /\ @subtree_hash mix_blake3 (ex_leaves 5) = Ok (@frontier_root mix_blake3 f).
Proof. apply (@frontier_is_tree mix_blake3 (ex_leaves 5) (ex_leaves 2)). vm_compute. done. Defined.

Lemma frontier_peaks_round_trip_witness :
  exists f, @from_leaves mix_blake3 (ex_leaves 5) = Ok f
    /\ from_peak_hashes (leaf_count f) (peak_hashes f) = Ok f
    /\ (length (peak_hashes f) <= 64)%nat
    /\ (forall hs g, from_peak_hashes (leaf_count f) hs = Ok g ->
          peak_hashes g = hs /\ leaf_count g = leaf_count f
          /\ length hs = length (peak_hashes f)).
Proof. apply (@frontier_peaks_round_trip mix_blake3 (ex_leaves 5)). vm_compute. done. Defined.

Lemma range_proof_complete_witness :
  exists proof root,
    @generate_range_proof mix_blake3 (ex_leaves 7) 2 5 = Ok proof
    /\ @merkle_root mix_blake3 (ex_leaves 7) = Ok root
    /\ validate_range_proof_shape proof 7 2 5 = Ok tt
    /\ @verify_range_proof mix_blake3 7 2 5 (firstn 3 (skipn 2 (ex_leaves 7))) proof = Ok root.
Proof.
  exact (@range_proof_complete mix_blake3 (ex_leaves 7) 2 5 ltac:(vm_compute; done) ltac:(lia)
           ltac:(vm_compute; done)).
Defined.

Lemma range_proof_sound_witness :
  (firstn 3 (skipn 2 (ex_leaves 7)) = firstn (Z.to_nat (5 - 2)) (skipn (Z.to_nat 2) (ex_leaves 7))
   /\ @generate_range_proof mix_blake3 (ex_leaves 7) 2 5 = Ok (ex_proof 7 2 5))
  \/ @blake_collision mix_blake3
       (@range_inputs mix_blake3 (Z.of_nat (length (ex_leaves 7))) 2 5
          (firstn 3 (skipn 2 (ex_leaves 7))) (ex_proof 7 2 5))
       (@series_inputs mix_blake3 (ex_leaves 7)).
Proof.
  apply (@range_proof_sound mix_blake3 (ex_leaves 7) (firstn 3 (skipn 2 (ex_leaves 7))) 2 5
           (ex_proof 7 2 5) (ex_series_root 7)); (lia || (vm_compute; reflexivity)).
Defined.

Lemma append_proof_is_range_proof_witness :
  exists f proof, @from_leaves mix_blake3 (ex_leaves 6) = Ok f
    /\ @generate_append_range_proof f 3 = Ok proof
    /\ @generate_range_proof mix_blake3 (ex_leaves 6 ++ ex_leaves 3) 6 9 = Ok proof.
Proof.
  exact (@append_proof_is_range_proof mix_blake3 (ex_leaves 6) (ex_leaves 3)
           ltac:(vm_compute; discriminate) ltac:(vm_compute; done)).
Defined.
