(* ===== verification/SeriesLeaf.v ===== *)
(** The identity of one logical series leaf,
    [crates/sync-store/src/content/series_leaf.rs]: the leaf preimage and its
    hash, the file leaf built on it, and the incremental hasher of a file leaf.
    The preimage of a leaf determines all of its fields.  The event-time bounds it
    carries are shared with the series manifest. *)

From stdpp Require Import base list numbers sets sorting strings options.
From Stdlib Require Import ZArith Lia.
From S2P Require Import Prelude RustStd RustText EntryType Wire CanonicalJson Tree SeriesMerkle.

Open Scope Z_scope.

Definition LEAF_MAGIC : bytes := bstr "watertown.series-leaf.v1" ++ [Byte.x0a].
#[global] Opaque LEAF_MAGIC.
Definition LEAF_KIND_TABLE : Z := 0.
Definition LEAF_KIND_FILE : Z := 1.
Definition LEAF_HAS_MIN : Z := 1.
Definition LEAF_HAS_MAX : Z := 2.
Definition KNOWN_BOUNDS_FLAGS : Z := Z.lor LEAF_HAS_MIN LEAF_HAS_MAX.

(** * Event-time bounds *)

Definition bounds_flags (mn mx : option Z) : Z :=
  let flags := 0 in
  let flags := if is_none mn then flags else Z.lor flags LEAF_HAS_MIN in
  if is_none mx then flags else Z.lor flags LEAF_HAS_MAX.

Definition push_bounds (mn mx : option Z) : bytes :=
  to_le 1 (bounds_flags mn mx) ++ push_opt_i64 mn ++ push_opt_i64 mx.

Definition take_bounds : Dec (option Z * option Z) :=
  flags ← take_u8;
  _ ← (if negb (Z.land flags (Z.lxor 0xff KNOWN_BOUNDS_FLAGS) =? 0)
       then lift (Err (UnknownBoundsFlags flags)) else mret tt);
  mn ← take_if (has_flag flags LEAF_HAS_MIN) take_i64;
  mx ← take_if (has_flag flags LEAF_HAS_MAX) take_i64;
  mret (mn, mx).

(** * Leaves *)

(** The arguments of [leaf_hash_with_magic]. *)
Record LeafFields := {
  payload_kind : Z;
  schema_fingerprint : bytes;
  logical_count : Z;
  canonical_payload : bytes;
  leaf_min : option Z;
  leaf_max : option Z;
  canonical_attributes : bytes;
}.

Definition leaf_preimage (magic : bytes) (l : LeafFields) : res bytes :=
  fp ← push_len_prefixed (schema_fingerprint l);
  attrs ← push_len_prefixed (canonical_attributes l);
  mret (magic ++ to_le 1 (payload_kind l) ++ fp ++ to_le 8 (logical_count l)
        ++ push_len_prefixed_u64 (canonical_payload l)
        ++ push_bounds (leaf_min l) (leaf_max l) ++ attrs).

Section Leaf.
Context `{Blake3}.

Definition leaf_hash_with_magic (magic : bytes) (l : LeafFields) : res bytes :=
  b ← leaf_preimage magic l; mret (of_bytes b).

Definition file_fields (b : bytes) (mn mx : option Z) (attrs : option bytes) : LeafFields :=
  {| payload_kind := LEAF_KIND_FILE; schema_fingerprint := [];
     logical_count := Z.of_nat (length b); canonical_payload := b;
     leaf_min := mn; leaf_max := mx; canonical_attributes := default [] attrs |}.

Definition file_leaf_hash_canonical (b : bytes) (mn mx : option Z) (attrs : option bytes)
  : res bytes :=
  if bool_decide (b = []) then Err EmptyLeaf
  else leaf_hash_with_magic LEAF_MAGIC (file_fields b mn mx attrs).

Definition file_leaf_hash `{JsonParser} (b : bytes) (mn mx : option Z) (json : option bytes)
  : res bytes :=
  attrs ← match json with
          | Some json => a ← encode_canonical_attributes json; mret (Some a)
          | None => mret None
          end;
  file_leaf_hash_canonical b mn mx attrs.
End Leaf.

(** * Reading bounds *)

Lemma bounds_flags_spec mn mx :
  is_u8 (bounds_flags mn mx) = true
  /\ Z.land (bounds_flags mn mx) (Z.lxor 0xff KNOWN_BOUNDS_FLAGS) = 0
  /\ has_flag (bounds_flags mn mx) LEAF_HAS_MIN = negb (is_none mn)
  /\ has_flag (bounds_flags mn mx) LEAF_HAS_MAX = negb (is_none mx).
Proof. destruct mn, mx; vm_compute; done. Qed.

Lemma decodes_bounds mn mx :
  opt_all is_i64 mn = true -> opt_all is_i64 mx = true ->
  decodes take_bounds (push_bounds mn mx) (mn, mx).
Proof.
  intros Hmn Hmx. destruct (bounds_flags_spec mn mx) as (Hu & Hk & Fmn & Fmx).
  unfold take_bounds, push_bounds. dec_step. rewrite Hk, Fmn, Fmx. simpl.
  eapply (decodes_bind _ _ []); [apply decodes_ret|].
  eapply decodes_bind; [by apply decodes_opt, decodes_opt_i64|].
  eapply decodes_bind_nil; [by apply decodes_opt, decodes_opt_i64|]. apply decodes_ret.
Qed.

Lemma known_bounds flags :
  is_u8 flags = true -> Z.land flags (Z.lxor 0xff KNOWN_BOUNDS_FLAGS) = 0 ->
  flags = (if has_flag flags LEAF_HAS_MIN then 1 else 0)
          + (if has_flag flags LEAF_HAS_MAX then 2 else 0).
Proof.
  intros Hu. unfold is_u8 in Hu.
  assert (forallb (fun f => implb (Z.land f (Z.lxor 0xff KNOWN_BOUNDS_FLAGS) =? 0)
      (f =? (if has_flag f LEAF_HAS_MIN then 1 else 0)
          + (if has_flag f LEAF_HAS_MAX then 2 else 0))) (seqZ 0 256) = true) as H
    by (vm_compute; reflexivity).
  rewrite forallb_forall in H. specialize (H flags).
  rewrite <- list_elem_of_In, elem_of_seqZ in H. specialize (H ltac:(lia)).
  intros E. rewrite E in H. simpl in H. lia.
Qed.

Lemma consumes_bounds :
  consumes take_bounds (fun o e => e = push_bounds o.1 o.2
    /\ opt_all is_i64 o.1 = true /\ opt_all is_i64 o.2 = true).
Proof.
  eapply consumes_weaken.
  - unfold take_bounds. con_step.
    apply consumes_bind with (R := fun _ e =>
      e = [] /\ Z.land a (Z.lxor 0xff KNOWN_BOUNDS_FLAGS) = 0).
    { destruct (Z.eqb_spec (Z.land a (Z.lxor 0xff KNOWN_BOUNDS_FLAGS)) 0); simpl;
        (eapply consumes_weaken; [solve [eauto with wire]|]); naive_solver. }
    intros u. apply consumes_bind; [apply consumes_opt, consumes_i64|]. intros mn.
    apply consumes_bind; [apply consumes_opt, consumes_i64|]. intros mx. apply consumes_ret.
  - intros o e (flags & e1 & r1 & -> & [-> Hu] & [] & e2 & r2 & -> & [-> Hk]
      & mn & e3 & r3 & -> & [Fmn Hmn] & mx & e4 & r4 & -> & [Fmx Hmx] & -> & ->).
    assert (forall o e, match o with Some a => e = to_le 8 a /\ is_i64 a = true | None => e = [] end ->
      e = push_opt_i64 o /\ opt_all is_i64 o = true) as Hopt by (intros [] e'; naive_solver).
    apply Hopt in Hmn as [-> Hmn], Hmx as [-> Hmx]. cbn [fst snd]. split_and!; [|done|done].
    unfold push_bounds. rewrite app_nil_r. simpl app at 1. do 2 f_equal.
    rewrite (known_bounds flags Hu Hk), Fmn, Fmx. by destruct mn, mx.
Qed.

(** * A leaf is its hash *)

(** The invariants of the argument types. *)
Definition wf_leaf (l : LeafFields) : bool :=
  is_u8 (payload_kind l) && is_u64 (logical_count l)
  && is_u64 (Z.of_nat (length (canonical_payload l)))
  && opt_all is_i64 (leaf_min l) && opt_all is_i64 (leaf_max l).

(** A reader for the preimage; the code has none, since leaves are only hashed. *)
Definition take_leaf (magic : bytes) : Dec LeafFields :=
  _ ← expect_tag magic;
  k ← take_u8;
  fp ← take_len_prefixed;
  n ← take_u64;
  len ← take_u64;
  p ← take_bytes (Z.to_nat len);
  o ← take_bounds;
  a ← take_len_prefixed;
  mret {| payload_kind := k; schema_fingerprint := fp; logical_count := n; canonical_payload := p;
          leaf_min := o.1; leaf_max := o.2; canonical_attributes := a |}.

Lemma decodes_leaf magic l e :
  wf_leaf l = true -> leaf_preimage magic l = Ok e -> decodes (take_leaf magic) e l.
Proof.
  unfold wf_leaf. rewrite !andb_true_iff. intros [[[[Hk Hn] Hp] Hmn] Hmx] He.
  unfold leaf_preimage in He. inv_ok. unfold take_leaf, push_len_prefixed_u64.
  dec_step. dec_step. dec_step. dec_step. rewrite <- app_assoc. dec_step.
  eapply decodes_bind; [apply decodes_take; lia|].
  eapply decodes_bind; [by apply decodes_bounds|].
  eapply decodes_bind_nil; [eauto with wire|]. destruct l. apply decodes_ret.
Qed.

Lemma decodes_inj {A} (d : Dec A) e a b : decodes d e a -> decodes d e b -> a = b.
Proof. intros Ha Hb. specialize (Ha [] []). specialize (Hb [] []). congruence. Qed.

(** A leaf hash identifies the leaf: two leaves (of one format) with the same
    hash agree in kind, schema fingerprint, count, payload, bounds and
    attributes, or their preimages are a BLAKE3 collision. *)
Theorem leaf_identity `{Blake3} (l1 l2 : LeafFields) (h : bytes) :
  wf_leaf l1 = true -> wf_leaf l2 = true ->
  leaf_hash_with_magic LEAF_MAGIC l1 = Ok h -> leaf_hash_with_magic LEAF_MAGIC l2 = Ok h ->
  l1 = l2
  \/ exists b1 b2, leaf_preimage LEAF_MAGIC l1 = Ok b1 /\ leaf_preimage LEAF_MAGIC l2 = Ok b2
       /\ b1 <> b2 /\ blake3 b1 = blake3 b2.
Proof.
  intros H1 H2 (b1 & E1 & Hh1)%bind_Ok (b2 & E2 & Hh2)%bind_Ok.
  apply Ok_inj in Hh1, Hh2. unfold of_bytes in *.
  destruct (decide (b1 = b2)) as [->|Hne].
  - left. eapply decodes_inj; by apply decodes_leaf.
  - right. exists b1, b2. split_and!; congruence.
Qed.

Definition ex_leaf_fields : LeafFields :=
  file_fields (bstr "payload") (Some (-7)) None (Some (bstr "{}")).

Lemma leaf_identity_witness :
  ex_leaf_fields = ex_leaf_fields
  \/ exists b1 b2, leaf_preimage LEAF_MAGIC ex_leaf_fields = Ok b1
       /\ leaf_preimage LEAF_MAGIC ex_leaf_fields = Ok b2
       /\ b1 <> b2 /\ @blake3 mix_blake3 b1 = @blake3 mix_blake3 b2.
Proof.
  apply (@leaf_identity mix_blake3 ex_leaf_fields ex_leaf_fields
    (unwrap_or [] (@leaf_hash_with_magic mix_blake3 LEAF_MAGIC ex_leaf_fields)));
    vm_compute; reflexivity.
Defined.

(** The incremental hasher of a file leaf, [IncrementalFileLeafHasher] of
    [content/series_leaf.rs]: a declared byte count, chunks fed in any split, and
    the hash that [file_leaf_hash_canonical] computes from the whole leaf. *)

(** Why a leaf is refused. *)
Inductive leaf_error :=
| LeafEmpty
| LeafCountOverflow
| LeafTooLong (declared got : Z)
| LeafTruncated (written declared : Z)
| LeafAttributesLength.

#[export] Instance leaf_error_eq_dec : EqDecision leaf_error.
Proof. solve_decision. Defined.

(** The state of [blake3::Hasher] is the bytes fed so far. *)
Record FileHasher := {
  fh_input : bytes;
  fh_count : Z;
  fh_written : Z;
  fh_min : option Z;
  fh_max : option Z;
  fh_attributes : bytes;
}.

Definition hasher_new (count : Z) (mn mx : option Z) (attrs : option bytes) : outcome leaf_error FileHasher :=
  if count =? 0 then Err LeafEmpty else
  Ok {| fh_input := LEAF_MAGIC ++ to_le 1 LEAF_KIND_FILE ++ to_le 4 0 ++ to_le 8 count ++ to_le 8 count;
        fh_count := count; fh_written := 0; fh_min := mn; fh_max := mx; fh_attributes := default [] attrs |}.

Definition hasher_remaining (h : FileHasher) : Z := fh_count h - fh_written h.

Definition hasher_write (h : FileHasher) (chunk : bytes) : outcome leaf_error FileHasher :=
  let new_written := fh_written h + Z.of_nat (length chunk) in
  if u64_max <? new_written then Err LeafCountOverflow else
  if fh_count h <? new_written then Err (LeafTooLong (fh_count h) new_written) else
  Ok {| fh_input := fh_input h ++ chunk; fh_count := fh_count h; fh_written := new_written; fh_min := fh_min h;
        fh_max := fh_max h; fh_attributes := fh_attributes h |}.

Definition hasher_finish `{Blake3} (h : FileHasher) : outcome leaf_error bytes :=
  if negb (fh_written h =? fh_count h) then Err (LeafTruncated (fh_written h) (fh_count h)) else
  if u32_max <? Z.of_nat (length (fh_attributes h)) then Err LeafAttributesLength else
  Ok (blake3 (fh_input h ++ push_bounds (fh_min h) (fh_max h)
        ++ to_le 4 (Z.of_nat (length (fh_attributes h))) ++ fh_attributes h)).

Section Incremental.
Context `{Blake3}.

(** The hasher of a leaf after the bytes [fed]. *)
Definition hashing (count : Z) (mn mx : option Z) (attrs : option bytes) (fed : bytes) : FileHasher :=
  {| fh_input := LEAF_MAGIC ++ to_le 1 LEAF_KIND_FILE ++ to_le 4 0 ++ to_le 8 count ++ to_le 8 count ++ fed;
     fh_count := count; fh_written := Z.of_nat (length fed); fh_min := mn; fh_max := mx; fh_attributes := default [] attrs |}.

Lemma hasher_new_hashing count mn mx attrs :
  count <> 0 -> hasher_new count mn mx attrs = Ok (hashing count mn mx attrs []).
Proof. intros Hc. unfold hasher_new, hashing. destruct (Z.eqb_spec count 0); [done|]. by rewrite app_nil_r. Qed.

Lemma hasher_write_hashing count mn mx attrs fed chunk :
  count <= u64_max -> Z.of_nat (length fed) + Z.of_nat (length chunk) <= count ->
  hasher_write (hashing count mn mx attrs fed) chunk = Ok (hashing count mn mx attrs (fed ++ chunk)).
Proof.
  intros Hc Hl. unfold hasher_write, hashing. cbn [fh_written fh_count fh_input fh_min fh_max fh_attributes].
  destruct (Z.ltb_spec u64_max (Z.of_nat (length fed) + Z.of_nat (length chunk))); [lia|].
  destruct (Z.ltb_spec count (Z.of_nat (length fed) + Z.of_nat (length chunk))); [lia|].
  rewrite length_app, Nat2Z.inj_add. by rewrite <- !app_assoc.
Qed.

(** At the declared length the hash is the one of the whole leaf. *)
Lemma hasher_finish_hashing mn mx attrs fed h :
  fed <> [] ->
  hasher_finish (hashing (Z.of_nat (length fed)) mn mx attrs fed) = Ok h
  <-> file_leaf_hash_canonical fed mn mx attrs = Ok h.
Proof.
  intros Hne. unfold hasher_finish, hashing, file_leaf_hash_canonical, leaf_hash_with_magic, leaf_preimage, push_len_prefixed,
    push_len_prefixed_u64, file_fields.
  cbn [fh_written fh_count fh_input fh_min fh_max fh_attributes payload_kind schema_fingerprint logical_count canonical_payload leaf_min
    leaf_max canonical_attributes].
  rewrite Z.eqb_refl, bool_decide_false by done. cbn [negb].
  destruct (Z.ltb_spec u32_max (Z.of_nat (length (default [] attrs)))) as [Hl|Hl];
    destruct (Z.leb_spec (Z.of_nat (length (default [] attrs))) u32_max) as [Hl'|Hl']; [lia| |  |lia].
  { split; done. }
  cbn [length]. change (Z.of_nat 0 <=? u32_max) with true. cbn [mbind outcome_bind].
  unfold of_bytes. rewrite <- !app_assoc. split; intros <-%Ok_inj; reflexivity.
Qed.
End Incremental.
