(* ===== verification/TableLeaf.v ===== *)
(** Table leaves, [content/series_leaf.rs]: the canonical encoding of an Arrow
    schema and of the rows of record batches, the hash of a table leaf, and the
    incremental hasher that reaches it batch by batch.

    An Arrow array is its type and its logical values; [arrow::compute::cast],
    which turns a dictionary array into a plain one, is a parameter. *)

From stdpp Require Import base list numbers gmap sets sorting strings options.
From Stdlib Require Import ZArith Lia.
From S2P Require Import Prelude RustStd RustText EntryType Wire CanonicalJson Tree MerkleTree SeriesMerkle SeriesLeaf.

Open Scope Z_scope.

Definition SCHEMA_MAGIC : bytes := bstr "watertown.series-schema.v1" ++ [Byte.x0a].
Definition ROWS_MAGIC : bytes := bstr "watertown.series-rows.v1" ++ [Byte.x0a].
#[global] Opaque SCHEMA_MAGIC ROWS_MAGIC.
Definition SCALAR_ABSENT : Z := 0.
Definition SCALAR_PRESENT : Z := 1.
Definition CANONICAL_F32_NAN : Z := 0x7fc00000.
Definition CANONICAL_F64_NAN : Z := 0x7ff8000000000000.

(** * Errors *)

Inductive table_error :=
| UnsupportedType (name : bytes)
| ColumnCount (columns fields : Z)
| ColumnType (column : Z)
| NormalizeDictionary (column : Z)
| EncodeTime
| RowCountOverflow
| EmptyTableLeaf
| PayloadOverflow
| RowBytesOverflow
| MoreThanDeclared
| TableTruncated (rows bytes_ expected_rows expected_bytes : Z)
| TableAttributesLength
| TableCodec (e : cerror).

#[export] Instance table_error_eq_dec : EqDecision table_error.
Proof. solve_decision. Defined.

Abbreviation tres := (outcome table_error).

(** * Arrow types, schemas and arrays *)

Inductive TimeUnit := Second | Millisecond | Microsecond | Nanosecond.

(** [Unsupported] stands for the types the module names only to refuse them. *)
Inductive DataType :=
| Boolean
| Int8 | Int16 | Int32 | Int64
| UInt8 | UInt16 | UInt32 | UInt64
| Float32 | Float64
| Utf8 | LargeUtf8 | Binary | LargeBinary
| Date32
| Timestamp (unit : TimeUnit) (tz : option bytes)
| Decimal128 (precision scale : Z)
| Dictionary (key value : DataType)
| Unsupported (name : bytes).

#[export] Instance TimeUnit_eq_dec : EqDecision TimeUnit.
Proof. solve_decision. Defined.
#[export] Instance DataType_eq_dec : EqDecision DataType.
Proof. solve_decision. Defined.

Record Field := {
  field_name : bytes;
  nullable : bool;
  field_type : DataType;
  field_metadata : gmap bytes bytes;
}.

Record ArrowSchema := {
  fields : list Field;
  schema_metadata : gmap bytes bytes;
}.

#[export] Instance Field_eq_dec : EqDecision Field.
Proof. solve_decision. Defined.
#[export] Instance ArrowSchema_eq_dec : EqDecision ArrowSchema.
Proof. solve_decision. Defined.

(** One value: integers, dates, timestamps and decimals as [VInt], floats by
    their bits, strings and binaries as bytes. *)
Inductive Scalar := VBool (b : bool) | VInt (z : Z) | VFloat (bits : Z) | VBytes (b : bytes).

#[export] Instance Scalar_eq_dec : EqDecision Scalar.
Proof. solve_decision. Defined.

(** The logical values of an array, [None] for null. *)
Record Array := { a_type : DataType; a_values : list (option Scalar) }.

Record RecordBatch := { num_rows : nat; columns : list Array }.

(** [batch.slice(offset, length)]. *)
Definition slice_array (offset n : nat) (a : Array) : Array :=
  {| a_type := a_type a; a_values := firstn n (skipn offset (a_values a)) |}.
Definition slice (b : RecordBatch) (offset n : nat) : RecordBatch :=
  {| num_rows := n; columns := map (slice_array offset n) (columns b) |}.

Class ArrowCast := { arrow_cast : Array -> DataType -> option Array }.

(** * Types and schemas *)

Fixpoint canonical_data_type (dt : DataType) : tres DataType :=
  match dt with
  | Dictionary _ value => canonical_data_type value
  | Unsupported name => Err (UnsupportedType name)
  | _ => Ok dt
  end.

Definition from_codec {A} (m : res A) : tres A := map_err TableCodec m.

Definition unit_tag (u : TimeUnit) : Z :=
  match u with Second => 0 | Millisecond => 1 | Microsecond => 2 | Nanosecond => 3 end.

Definition encode_resolved_data_type (dt : DataType) : tres bytes :=
  match dt with
  | Boolean => Ok (to_le 1 0)
  | Int8 => Ok (to_le 1 1)
  | Int16 => Ok (to_le 1 2)
  | Int32 => Ok (to_le 1 3)
  | Int64 => Ok (to_le 1 4)
  | UInt8 => Ok (to_le 1 5)
  | UInt16 => Ok (to_le 1 6)
  | UInt32 => Ok (to_le 1 7)
  | UInt64 => Ok (to_le 1 8)
  | Float32 => Ok (to_le 1 9)
  | Float64 => Ok (to_le 1 10)
  | Utf8 => Ok (to_le 1 11)
  | LargeUtf8 => Ok (to_le 1 12)
  | Binary => Ok (to_le 1 13)
  | LargeBinary => Ok (to_le 1 14)
  | Date32 => Ok (to_le 1 15)
  | Timestamp unit (Some tz) =>
      tz ← from_codec (push_len_prefixed tz);
      Ok (to_le 1 16 ++ to_le 1 (unit_tag unit) ++ to_le 1 1 ++ tz)
  | Timestamp unit None => Ok (to_le 1 16 ++ to_le 1 (unit_tag unit) ++ to_le 1 0)
  | Decimal128 precision scale => Ok (to_le 1 17 ++ to_le 1 precision ++ to_le 1 scale)
  | Dictionary _ _ | Unsupported _ => Panic
  end.

Definition encode_pair (kv : bytes * bytes) : tres bytes :=
  k ← from_codec (push_len_prefixed kv.1);
  v ← from_codec (push_len_prefixed kv.2);
  mret (k ++ v).

(** The pairs of a [HashMap], sorted by key. *)
Definition sorted_pairs (m : gmap bytes bytes) : list (bytes * bytes) :=
  sort_by (cmp_on fst bytes_cmp) (map_to_list m).

Definition encode_metadata (m : gmap bytes bytes) : tres bytes :=
  let pairs := sorted_pairs m in
  count ← from_codec (push_count (length pairs));
  es ← omap_list encode_pair pairs;
  mret (count ++ concat es).

Definition encode_field (f : Field) : tres bytes :=
  name ← from_codec (push_len_prefixed (field_name f));
  resolved ← canonical_data_type (field_type f);
  type ← encode_resolved_data_type resolved;
  meta ← encode_metadata (field_metadata f);
  mret (name ++ to_le 1 (if nullable f then 1 else 0) ++ type ++ meta).

Definition encode_canonical_schema_with_magic (s : ArrowSchema) (magic : bytes) : tres bytes :=
  count ← from_codec (push_count (length (fields s)));
  fs ← omap_list encode_field (fields s);
  meta ← encode_metadata (schema_metadata s);
  mret (magic ++ count ++ concat fs ++ meta).

Definition encode_canonical_schema (s : ArrowSchema) : tres bytes := encode_canonical_schema_with_magic s SCHEMA_MAGIC.

Definition schema_fingerprint_with_magic `{Blake3} (s : ArrowSchema) (magic : bytes) : tres bytes :=
  b ← encode_canonical_schema_with_magic s magic; mret (of_bytes b).

Definition schema_fingerprint_of `{Blake3} (s : ArrowSchema) : tres bytes := schema_fingerprint_with_magic s SCHEMA_MAGIC.

Definition canonicalize_field (f : Field) : tres Field :=
  resolved ← canonical_data_type (field_type f);
  mret {| field_name := field_name f; nullable := nullable f; field_type := resolved; field_metadata := field_metadata f |}.

Definition canonicalize_schema (s : ArrowSchema) : tres ArrowSchema :=
  fs ← omap_list canonicalize_field (fields s);
  mret {| fields := fs; schema_metadata := schema_metadata s |}.

(** * Rows *)

(** [is_nan] on the bits of a float with [m] mantissa bits and the exponent mask [e]. *)
Definition nan_bits (e m bits : Z) : bool := (Z.land bits e =? e) && negb (Z.land bits m =? 0).
Definition is_nan32 (bits : Z) : bool := nan_bits 0x7f800000 0x007fffff bits.
Definition is_nan64 (bits : Z) : bool := nan_bits 0x7ff0000000000000 0x000fffffffffffff bits.

(** The value of one cell.  Reading an array as another type panics, as
    [as_primitive] does. *)
Definition encode_value (dt : DataType) (v : Scalar) : tres bytes :=
  match dt, v with
  | Boolean, VBool b => Ok (to_le 1 (if b then 1 else 0))
  | (Int8 | UInt8), VInt z => Ok (to_le 1 z)
  | (Int16 | UInt16), VInt z => Ok (to_le 2 z)
  | (Int32 | UInt32 | Date32), VInt z => Ok (to_le 4 z)
  | (Int64 | UInt64 | Timestamp _ _), VInt z => Ok (to_le 8 z)
  | Decimal128 _ _, VInt z => Ok (to_le 16 z)
  | Float32, VFloat bits => Ok (to_le 4 (if is_nan32 bits then CANONICAL_F32_NAN else bits))
  | Float64, VFloat bits => Ok (to_le 8 (if is_nan64 bits then CANONICAL_F64_NAN else bits))
  | (Utf8 | LargeUtf8 | Binary | LargeBinary), VBytes b => Ok (push_len_prefixed_u64 b)
  | (Dictionary _ _ | Unsupported _), _ => Err EncodeTime
  | _, _ => Panic
  end.

Definition encode_scalar (a : Array) (row : nat) : tres bytes :=
  match a_values a !! row with
  | None => Panic
  | Some None => Ok (to_le 1 SCALAR_ABSENT)
  | Some (Some v) => b ← encode_value (a_type a) v; mret (to_le 1 SCALAR_PRESENT ++ b)
  end.

Section Rows.
Context `{ArrowCast}.

Definition is_dictionary (dt : DataType) : bool := match dt with Dictionary _ _ => true | _ => false end.

Definition canonical_column (index : Z) (resolved : DataType) (a : Array) : tres Array :=
  actual ← canonical_data_type (a_type a);
  if negb (bool_decide (actual = resolved)) then Err (ColumnType index) else
  if is_dictionary (a_type a) then
    match arrow_cast a resolved with Some c => Ok c | None => Err (NormalizeDictionary index) end
  else Ok a.

(** The loop over the columns; both lists have the same length. *)
Fixpoint canonical_columns (index : Z) (resolved : list DataType) (cols : list Array) : tres (list Array) :=
  match resolved, cols with
  | r :: resolved, c :: cols =>
      c ← canonical_column index r c;
      cs ← canonical_columns (index + 1) resolved cols;
      mret (c :: cs)
  | _, _ => Ok []
  end.

Definition encode_row (cols : list Array) (row : nat) : tres bytes :=
  cells ← omap_list (fun a => encode_scalar a row) cols; mret (concat cells).

Definition encode_canonical_batch_rows_at (s : ArrowSchema) (b : RecordBatch) : tres bytes :=
  resolved ← omap_list (fun f => canonical_data_type (field_type f)) (fields s);
  if negb (length (columns b) =? length resolved)%nat
  then Err (ColumnCount (Z.of_nat (length (columns b))) (Z.of_nat (length resolved))) else
  cols ← canonical_columns 0 resolved (columns b);
  rows ← omap_list (encode_row cols) (seq 0 (num_rows b));
  mret (concat rows).

Definition encode_canonical_batch_rows (s : ArrowSchema) (b : RecordBatch) : tres bytes := encode_canonical_batch_rows_at s b.

(** [batches.iter().try_fold(0u64, ..checked_add)]. *)
Fixpoint row_total (total : Z) (bs : list RecordBatch) : tres Z :=
  match bs with
  | [] => Ok total
  | b :: bs =>
      let total := total + Z.of_nat (num_rows b) in
      if u64_max <? total then Err RowCountOverflow else row_total total bs
  end.

Definition encode_canonical_rows_with_magic (s : ArrowSchema) (bs : list RecordBatch) (magic : bytes) : tres bytes :=
  count ← row_total 0 bs;
  es ← omap_list (encode_canonical_batch_rows_at s) bs;
  mret (magic ++ to_le 8 count ++ concat es).

Definition encode_canonical_rows (s : ArrowSchema) (bs : list RecordBatch) : tres bytes :=
  encode_canonical_rows_with_magic s bs ROWS_MAGIC.

(** * The hash of a table leaf *)

Context `{Blake3}.

Definition table_leaf_hash_canonical_with_magic (s : ArrowSchema) (bs : list RecordBatch) (mn mx : option Z)
    (attrs : option bytes) (leaf_magic schema_magic rows_magic : bytes) : tres bytes :=
  fp ← schema_fingerprint_with_magic s schema_magic;
  payload ← encode_canonical_rows_with_magic s bs rows_magic;
  count ← row_total 0 bs;
  if count =? 0 then Err EmptyTableLeaf else
  from_codec (leaf_hash_with_magic leaf_magic
    {| payload_kind := LEAF_KIND_TABLE; schema_fingerprint := fp; logical_count := count; canonical_payload := payload;
       leaf_min := mn; leaf_max := mx; canonical_attributes := default [] attrs |}).

Definition table_leaf_hash_canonical (s : ArrowSchema) (bs : list RecordBatch) (mn mx : option Z) (attrs : option bytes) : tres bytes :=
  table_leaf_hash_canonical_with_magic s bs mn mx attrs LEAF_MAGIC SCHEMA_MAGIC ROWS_MAGIC.

Definition table_leaf_hash `{JsonParser} (s : ArrowSchema) (bs : list RecordBatch) (mn mx : option Z) (json : option bytes) : tres bytes :=
  attrs ← match json with
          | Some json => a ← from_codec (encode_canonical_attributes json); mret (Some a)
          | None => mret None
          end;
  table_leaf_hash_canonical s bs mn mx attrs.

(** [IncrementalTableLeafHasher]; the state of the hasher is the bytes fed. *)
Record TableHasher := {
  th_input : bytes;
  th_schema : ArrowSchema;
  th_count : Z;
  th_rows : Z;
  th_len : Z;
  th_bytes : Z;
  th_min : option Z;
  th_max : option Z;
  th_attributes : bytes;
}.

Definition table_hasher_new (s : ArrowSchema) (count len : Z) (mn mx : option Z) (attrs : option bytes) : tres TableHasher :=
  if count =? 0 then Err EmptyTableLeaf else
  fp ← schema_fingerprint_with_magic s SCHEMA_MAGIC;
  let payload_len := Z.of_nat (length ROWS_MAGIC + 8) + len in
  if u64_max <? payload_len then Err PayloadOverflow else
  Ok {| th_input := LEAF_MAGIC ++ to_le 1 LEAF_KIND_TABLE ++ to_le 4 (Z.of_nat (length fp)) ++ fp ++ to_le 8 count
          ++ to_le 8 payload_len ++ ROWS_MAGIC ++ to_le 8 count;
        th_schema := s; th_count := count; th_rows := 0; th_len := len; th_bytes := 0; th_min := mn; th_max := mx;
        th_attributes := default [] attrs |}.

Definition table_hasher_write (h : TableHasher) (b : RecordBatch) : tres TableHasher :=
  rows ← encode_canonical_batch_rows (th_schema h) b;
  let new_rows := th_rows h + Z.of_nat (num_rows b) in
  if u64_max <? new_rows then Err RowCountOverflow else
  let new_bytes := th_bytes h + Z.of_nat (length rows) in
  if u64_max <? new_bytes then Err RowBytesOverflow else
  if (th_count h <? new_rows) || (th_len h <? new_bytes) then Err MoreThanDeclared else
  Ok {| th_input := th_input h ++ rows; th_schema := th_schema h; th_count := th_count h; th_rows := new_rows; th_len := th_len h;
        th_bytes := new_bytes; th_min := th_min h; th_max := th_max h; th_attributes := th_attributes h |}.

Definition table_hasher_finish (h : TableHasher) : tres bytes :=
  if negb (th_rows h =? th_count h) || negb (th_bytes h =? th_len h)
  then Err (TableTruncated (th_rows h) (th_bytes h) (th_count h) (th_len h)) else
  if u32_max <? Z.of_nat (length (th_attributes h)) then Err TableAttributesLength else
  Ok (blake3 (th_input h ++ push_bounds (th_min h) (th_max h) ++ to_le 4 (Z.of_nat (length (th_attributes h))) ++ th_attributes h)).
End Rows.

(** * A schema is its encoding *)

(** The signed value of [n] bytes. *)
Definition signed (n : nat) (u : Z) : Z := if u <? 256 ^ Z.of_nat n / 2 then u else u - 256 ^ Z.of_nat n.
Definition is_signed (n : nat) (z : Z) : bool := (- (256 ^ Z.of_nat n / 2) <=? z) && (z <? 256 ^ Z.of_nat n / 2).
Definition take_signed (n : nat) : Dec Z := b ← take_bytes n; mret (signed n (from_le b)).

Lemma decodes_signed n z : (0 < n)%nat -> is_signed n z = true -> decodes (take_signed n) (to_le n z) z.
Proof.
  intros Hn Hz. eapply decodes_bind_nil; [by apply decodes_take, length_to_le|]. cbv beta.
  assert (signed n (from_le (to_le n z)) = z) as ->; [|apply decodes_ret]. rewrite from_to_le.
  unfold is_signed, signed in *. set (m := 256 ^ Z.of_nat n) in *.
  assert (exists k, m = 2 * k /\ 0 < k) as (k & Hk & Hk0).
  { exists (128 * 256 ^ (Z.of_nat n - 1)). split; [|lia]. subst m. replace (Z.of_nat n) with (Z.succ (Z.of_nat n - 1)) at 1 by lia.
    rewrite Z.pow_succ_r by lia. lia. }
  rewrite Hk in *. rewrite (Z.mul_comm 2 k) in *. rewrite Z.div_mul in * by lia.
  destruct (decide (0 <= z)) as [H0|H0].
  - rewrite Z.mod_small by lia. destruct (Z.ltb_spec z k); lia.
  - rewrite <- (Z.mod_add z 1), Z.mod_small by lia. destruct (Z.ltb_spec (z + 1 * (k * 2)) k); lia.
Qed.

(** The fields of a resolved type as Rust keeps them. *)
Definition wf_type (dt : DataType) : bool :=
  match dt with
  | Decimal128 p s => is_u8 p && is_signed 1 s
  | _ => true
  end.

Definition simple_types : list DataType :=
  [Boolean; Int8; Int16; Int32; Int64; UInt8; UInt16; UInt32; UInt64; Float32; Float64; Utf8; LargeUtf8; Binary; LargeBinary; Date32].

Definition take_unit : Dec TimeUnit :=
  u ← take_u8; mret (if u =? 0 then Second else if u =? 1 then Millisecond else if u =? 2 then Microsecond else Nanosecond).

(** A reader for the type tags. *)
Definition take_type : Dec DataType :=
  t ← take_u8;
  if t =? 16 then
    u ← take_unit;
    f ← take_u8;
    tz ← take_if (f =? 1) take_len_prefixed;
    mret (Timestamp u tz)
  else if t =? 17 then p ← take_u8; s ← take_signed 1; mret (Decimal128 p s)
  else mret (default Boolean (simple_types !! Z.to_nat t)).

Lemma from_codec_Ok {A} (m : res A) a : from_codec m = Ok a <-> m = Ok a.
Proof. unfold from_codec. destruct m; simpl; split; congruence. Qed.

Lemma decodes_unit u : decodes take_unit (to_le 1 (unit_tag u)) u.
Proof. eapply decodes_bind_nil; [apply decodes_u8; by destruct u|]. destruct u; apply decodes_ret. Qed.

Lemma decodes_type dt e : wf_type dt = true -> encode_resolved_data_type dt = Ok e -> decodes take_type e dt.
Proof.
  intros Hwf He. unfold take_type.
  destruct dt as [| | | | | | | | | | | | | | | |u [tz|]|p s| |]; cbn [encode_resolved_data_type] in He; try discriminate He;
    try (apply Ok_inj in He; subst e; eapply decodes_bind_nil; [by apply decodes_u8|]; apply decodes_ret).
  - apply bind_Ok in He as (b & Hb%from_codec_Ok & <-%Ok_inj).
    eapply decodes_bind; [by apply decodes_u8|]. cbn [Z.eqb]. eapply decodes_bind; [apply decodes_unit|].
    eapply decodes_bind; [by apply decodes_u8|]. cbn [Z.eqb take_if].
    eapply decodes_bind_nil; [|apply decodes_ret]. eapply decodes_bind_nil; [by apply decodes_len_prefixed|]. apply decodes_ret.
  - apply Ok_inj in He; subst e. eapply decodes_bind; [by apply decodes_u8|]. cbn [Z.eqb]. eapply decodes_bind; [apply decodes_unit|].
    eapply decodes_bind_nil; [by apply decodes_u8|]. cbn [Z.eqb take_if].
    eapply (decodes_bind _ _ []); [apply decodes_ret|]. apply decodes_ret.
  - apply Ok_inj in He; subst e. simpl in Hwf. apply andb_true_iff in Hwf as [Hp Hs].
    eapply decodes_bind; [by apply decodes_u8|]. cbn [Z.eqb]. eapply decodes_bind; [by apply decodes_u8|].
    eapply decodes_bind_nil; [|apply decodes_ret]. apply decodes_signed; [lia|done].
Qed.

Definition take_pair : Dec (bytes * bytes) := k ← take_len_prefixed; v ← take_len_prefixed; mret (k, v).
Definition take_metadata : Dec (list (bytes * bytes)) := n ← take_u32; take_many (Z.to_nat n) take_pair.

Lemma decodes_many_tenc {A B} (d : Dec B) (enc : A -> tres bytes) (f : A -> B) xs es :
  Forall (fun x => forall e, enc x = Ok e -> decodes d e (f x)) xs -> omap_list enc xs = Ok es ->
  decodes (take_many (length xs) d) (concat es) (map f xs).
Proof.
  intros Hd Hes%omap_list_Ok. rewrite <- (length_map f). apply decodes_many.
  induction Hes as [|x e xs es Hx Hxs IH]; simpl; constructor; apply Forall_cons in Hd as [? ?]; auto.
Qed.

Lemma decodes_metadata m e : encode_metadata m = Ok e -> decodes take_metadata e (sorted_pairs m).
Proof.
  unfold encode_metadata. intros E. apply bind_Ok in E as (c & Hc%from_codec_Ok & E). apply bind_Ok in E as (es & Hes & <-%Ok_inj).
  eapply decodes_bind; [by apply decodes_count|]. cbv beta. rewrite Nat2Z.id, <- (map_id (sorted_pairs m)), length_map.
  eapply decodes_many_tenc; [|exact Hes]. apply Forall_forall. intros [k v] _ b Hb. unfold encode_pair in Hb.
  apply bind_Ok in Hb as (kb & Hk%from_codec_Ok & Hb). apply bind_Ok in Hb as (vb & Hv%from_codec_Ok & <-%Ok_inj).
  eapply decodes_bind; [by apply decodes_len_prefixed|]. eapply decodes_bind_nil; [by apply decodes_len_prefixed|]. apply decodes_ret.
Qed.

Lemma sorted_pairs_inj m1 m2 : sorted_pairs m1 = sorted_pairs m2 -> m1 = m2.
Proof.
  intros E. apply map_to_list_inj. unfold sorted_pairs in E.
  by rewrite <- (sort_by_perm (cmp_on fst bytes_cmp) (map_to_list m1)), E, sort_by_perm.
Qed.

(** A field with its type resolved and its metadata in order. *)
Definition field_parts (f : Field) : bytes * bool * DataType * list (bytes * bytes) :=
  (field_name f, nullable f, unwrap_or (field_type f) (canonical_data_type (field_type f)), sorted_pairs (field_metadata f)).

Definition wf_field (f : Field) : bool := wf_type (unwrap_or (field_type f) (canonical_data_type (field_type f))).
Definition wf_schema (s : ArrowSchema) : bool := forallb wf_field (fields s).

Definition take_field : Dec (bytes * bool * DataType * list (bytes * bytes)) :=
  name ← take_len_prefixed;
  n ← take_u8;
  t ← take_type;
  m ← take_metadata;
  mret (name, n =? 1, t, m).

Definition take_schema (magic : bytes) : Dec (list (bytes * bool * DataType * list (bytes * bytes)) * list (bytes * bytes)) :=
  _ ← expect_tag magic;
  n ← take_u32;
  fs ← take_many (Z.to_nat n) take_field;
  m ← take_metadata;
  mret (fs, m).

Lemma decodes_field f e : wf_field f = true -> encode_field f = Ok e -> decodes take_field e (field_parts f).
Proof.
  unfold wf_field, field_parts, encode_field. intros Hwf E.
  apply bind_Ok in E as (n & Hn%from_codec_Ok & E). apply bind_Ok in E as (r & Hr & E).
  apply bind_Ok in E as (t & Ht & E). apply bind_Ok in E as (m & Hm & <-%Ok_inj). rewrite Hr in *. cbn [unwrap_or] in *.
  unfold take_field. eapply decodes_bind; [by apply decodes_len_prefixed|]. eapply decodes_bind; [apply decodes_u8; by destruct (nullable f)|].
  eapply decodes_bind; [by apply decodes_type|]. eapply decodes_bind_nil; [by apply decodes_metadata|].
  destruct (nullable f); apply decodes_ret.
Qed.

Lemma decodes_schema s magic e :
  wf_schema s = true -> encode_canonical_schema_with_magic s magic = Ok e ->
  decodes (take_schema magic) e (map field_parts (fields s), sorted_pairs (schema_metadata s)).
Proof.
  unfold wf_schema, encode_canonical_schema_with_magic. intros Hwf E.
  apply bind_Ok in E as (c & Hc%from_codec_Ok & E). apply bind_Ok in E as (fs & Hfs & E). apply bind_Ok in E as (m & Hm & <-%Ok_inj).
  unfold take_schema. eapply decodes_bind; [apply decodes_tag|]. eapply decodes_bind; [by apply decodes_count|]. cbv beta. rewrite Nat2Z.id.
  eapply decodes_bind.
  { eapply decodes_many_tenc; [|exact Hfs]. apply forallb_Forall in Hwf. eapply Forall_impl; [exact Hwf|]. intros f Hf e. by apply decodes_field. }
  eapply decodes_bind_nil; [by apply decodes_metadata|]. apply decodes_ret.
Qed.

(** A schema that encodes has a canonical form with the same parts. *)
Lemma encode_canonicalizes s magic e :
  encode_canonical_schema_with_magic s magic = Ok e ->
  exists fs, canonicalize_schema s = Ok {| fields := fs; schema_metadata := schema_metadata s |}
    /\ Forall2 (fun f c => canonicalize_field f = Ok c) (fields s) fs.
Proof.
  unfold encode_canonical_schema_with_magic. intros E.
  apply bind_Ok in E as (c & _ & E). apply bind_Ok in E as (es & Hfs & _). apply omap_list_Ok in Hfs. unfold canonicalize_schema.
  assert (exists fs, Forall2 (fun f c => canonicalize_field f = Ok c) (fields s) fs) as (fs & Hf).
  { induction Hfs as [|f x l es' Hx _ [fs IH]]; [exists []; constructor|]. unfold encode_field in Hx.
    apply bind_Ok in Hx as (n & _ & Hx). apply bind_Ok in Hx as (r & Hr & _).
    eexists (_ :: fs). constructor; [|exact IH]. unfold canonicalize_field. by erewrite bind_eq by exact Hr. }
  exists fs. split; [|done]. apply omap_list_Ok in Hf. by rewrite Hf.
Qed.

Lemma field_parts_canonical f1 f2 c1 c2 :
  canonicalize_field f1 = Ok c1 -> canonicalize_field f2 = Ok c2 -> field_parts f1 = field_parts f2 -> c1 = c2.
Proof.
  unfold canonicalize_field, field_parts. intros H1 H2.
  apply bind_Ok in H1 as (r1 & E1 & <-%Ok_inj), H2 as (r2 & E2 & <-%Ok_inj). rewrite E1, E2. cbn [unwrap_or].
  intros E. injection E as -> -> -> Em. by apply sorted_pairs_inj in Em as ->.
Qed.

(** Two schemas with one encoding have one canonical form. *)
Lemma schema_encoding_inj s1 s2 magic e :
  wf_schema s1 = true -> wf_schema s2 = true ->
  encode_canonical_schema_with_magic s1 magic = Ok e -> encode_canonical_schema_with_magic s2 magic = Ok e ->
  exists c, canonicalize_schema s1 = Ok c /\ canonicalize_schema s2 = Ok c.
Proof.
  intros W1 W2 E1 E2. pose proof (decodes_inj _ _ _ _ (decodes_schema _ _ _ W1 E1) (decodes_schema _ _ _ W2 E2)) as E.
  destruct (encode_canonicalizes _ _ _ E1) as (fs1 & C1 & F1). destruct (encode_canonicalizes _ _ _ E2) as (fs2 & C2 & F2).
  rewrite C1, C2. injection E as Ef ->%sorted_pairs_inj. assert (fs1 = fs2) as ->; [|eauto].
  clear -Ef F1 F2. revert fs2 F2 Ef. revert F1. generalize (fields s2). intros l2 F1. revert l2.
  induction F1 as [|f1 c1 l1 fs1 H1 _ IH]; intros [|f2 l2] fs2 F2 Ef; inversion F2; subst; try done.
  injection Ef as Hn Hnu Ht Hm Ef. f_equal; [|by eapply IH].
  eapply field_parts_canonical; [done..|]. unfold field_parts. congruence.
Qed.
