(* ===== verification/TableRows.v ===== *)
(** The rows of a table leaf, [content/series_leaf.rs]: the bytes of a batch are
    those of its logical rows, rows are read back from their bytes up to NaN
    payloads, a table leaf is its hash, and the incremental hasher agrees with
    the hash of the whole leaf. *)

From stdpp Require Import base list numbers gmap sets sorting strings options.
From Stdlib Require Import ZArith Lia.
From S2P Require Import Prelude RustStd RustText EntryType Wire CanonicalJson Tree MerkleTree SeriesMerkle SeriesLeaf TableLeaf.

Open Scope Z_scope.

(** * The rows of a batch *)

(** A value of the width and kind of its type. *)
Definition wf_value (dt : DataType) (v : Scalar) : bool :=
  match dt, v with
  | Boolean, VBool _ => true
  | Int8, VInt z => is_signed 1 z
  | Int16, VInt z => is_signed 2 z
  | (Int32 | Date32), VInt z => is_signed 4 z
  | (Int64 | Timestamp _ _), VInt z => is_signed 8 z
  | Decimal128 _ _, VInt z => is_signed 16 z
  | UInt8, VInt z => is_u8 z
  | UInt16, VInt z => is_u16 z
  | UInt32, VInt z | Float32, VFloat z => is_u32 z
  | UInt64, VInt z | Float64, VFloat z => is_u64 z
  | (Utf8 | LargeUtf8 | Binary | LargeBinary), VBytes b => is_u64 (Z.of_nat (length b))
  | _, _ => false
  end.

Definition wf_cell (dt : DataType) (v : option Scalar) : bool := opt_all (wf_value dt) v.

(** One quiet NaN per width. *)
Definition normal_value (dt : DataType) (v : Scalar) : Scalar :=
  match dt, v with
  | Float32, VFloat bits => VFloat (if is_nan32 bits then CANONICAL_F32_NAN else bits)
  | Float64, VFloat bits => VFloat (if is_nan64 bits then CANONICAL_F64_NAN else bits)
  | _, _ => v
  end.
Definition normal_row (types : list DataType) (r : list (option Scalar)) : list (option Scalar) :=
  zip_with (fun dt v => normal_value dt <$> v) types r.

Definition cell_bytes (dt : DataType) (v : option Scalar) : bytes :=
  match v with
  | None => to_le 1 SCALAR_ABSENT
  | Some v => to_le 1 SCALAR_PRESENT ++ unwrap_or [] (encode_value dt v)
  end.
Definition row_bytes (types : list DataType) (r : list (option Scalar)) : bytes := concat (zip_with cell_bytes types r).

(** The rows of a batch, by their logical values. *)
Definition row_at (b : RecordBatch) (i : nat) : list (option Scalar) := map (fun a => default None (a_values a !! i)) (columns b).
Definition batch_rows (b : RecordBatch) : list (list (option Scalar)) := map (row_at b) (seq 0 (num_rows b)).
Definition all_rows (bs : list RecordBatch) : list (list (option Scalar)) := concat (map batch_rows bs).

(** What Arrow guarantees of the columns of a batch with the given types. *)
Definition wf_column (n : nat) (dt : DataType) (a : Array) : Prop :=
  canonical_data_type (a_type a) = Ok dt /\ length (a_values a) = n /\ Forall (fun v => wf_cell dt v = true) (a_values a).
Definition wf_batch (types : list DataType) (b : RecordBatch) : Prop := Forall2 (wf_column (num_rows b)) types (columns b).

Definition resolved_types (s : ArrowSchema) (types : list DataType) : Prop :=
  omap_list (fun f => canonical_data_type (field_type f)) (fields s) = Ok types.

(** [cast] from a dictionary to its value type keeps the logical values. *)
Class ArrowCastLaws `{ArrowCast} := {
  cast_dictionary : forall a dt, is_dictionary (a_type a) = true -> canonical_data_type (a_type a) = Ok dt ->
    arrow_cast a dt = Some {| a_type := dt; a_values := a_values a |};
}.

Lemma canonical_not_dictionary dt r : canonical_data_type dt = Ok r -> is_dictionary r = false /\ canonical_data_type r = Ok r.
Proof. induction dt; simpl; try (intros <-%Ok_inj; done); auto. done. Qed.

Lemma plain_type dt r : is_dictionary dt = false -> canonical_data_type dt = Ok r -> dt = r.
Proof. destruct dt; simpl; try done; by intros _ <-%Ok_inj. Qed.

Lemma encode_value_Ok dt v : wf_value dt v = true -> encode_value dt v = Ok (unwrap_or [] (encode_value dt v)).
Proof. destruct dt, v; simpl; done. Qed.

Section RowLemmas.
#[local] Set Default Proof Using "Type*".
Context `{ArrowCastLaws}.

Lemma canonical_column_Ok n i dt a :
  wf_column n dt a -> canonical_column i dt a = Ok {| a_type := dt; a_values := a_values a |}.
Proof.
  intros (Ht & _ & _). unfold canonical_column. rewrite Ht. cbn [mbind outcome_bind]. rewrite bool_decide_true by done. cbn [negb].
  destruct (is_dictionary (a_type a)) eqn:Ed; [by rewrite (cast_dictionary a dt Ed Ht)|].
  pose proof (plain_type _ _ Ed Ht) as <-. by destruct a.
Qed.

Lemma canonical_columns_Ok n i types cols :
  Forall2 (wf_column n) types cols ->
  canonical_columns i types cols = Ok (zip_with (fun dt a => {| a_type := dt; a_values := a_values a |}) types cols).
Proof.
  intros Hf. revert i. induction Hf as [|dt a types cols Ha _ IH]; intros i; [done|]. cbn [canonical_columns zip_with].
  by rewrite (canonical_column_Ok n i dt a Ha), IH.
Qed.

Lemma encode_cell_Ok n dt a i :
  wf_column n dt a -> (i < n)%nat ->
  encode_scalar {| a_type := dt; a_values := a_values a |} i = Ok (cell_bytes dt (default None (a_values a !! i))).
Proof.
  intros (_ & Hl & Hv) Hi. unfold encode_scalar. cbn [a_values a_type].
  destruct (lookup_lt_is_Some_2 (a_values a) i) as [v Hv']; [lia|]. rewrite Hv'. cbn [default from_option id].
  rewrite Forall_forall in Hv. apply list_elem_of_lookup_2, Hv in Hv'. destruct v as [v|]; [|done]. simpl in Hv'.
  by rewrite (encode_value_Ok dt v Hv').
Qed.

Lemma encode_row_Ok n types cols i :
  Forall2 (wf_column n) types cols -> (i < n)%nat ->
  encode_row (zip_with (fun dt a => {| a_type := dt; a_values := a_values a |}) types cols) i
  = Ok (row_bytes types (map (fun a => default None (a_values a !! i)) cols)).
Proof.
  intros Hf Hi. unfold encode_row, row_bytes.
  assert (omap_list (fun a => encode_scalar a i) (zip_with (fun dt a => {| a_type := dt; a_values := a_values a |}) types cols)
    = Ok (zip_with cell_bytes types (map (fun a => default None (a_values a !! i)) cols))) as ->; [|done].
  induction Hf as [|dt a types cols Ha _ IH]; [done|]. cbn [omap_list zip_with map].
  rewrite (encode_cell_Ok n dt a i Ha Hi). cbn [mbind outcome_bind]. by rewrite IH.
Qed.

(** The bytes of a batch are those of its rows, however its columns are encoded. *)
Lemma encode_batch_Ok s types b :
  resolved_types s types -> wf_batch types b ->
  encode_canonical_batch_rows s b = Ok (concat (map (row_bytes types) (batch_rows b))).
Proof.
  intros Ht Hb. unfold encode_canonical_batch_rows, encode_canonical_batch_rows_at. rewrite Ht. cbn [mbind outcome_bind].
  rewrite <- (Forall2_length _ _ _ Hb), Nat.eqb_refl. cbn [negb]. rewrite (canonical_columns_Ok _ _ _ _ Hb). cbn [mbind outcome_bind].
  unfold batch_rows, row_at. rewrite map_map.
  assert (forall l, Forall (fun i => (i < num_rows b)%nat) l ->
    omap_list (encode_row (zip_with (fun dt a => {| a_type := dt; a_values := a_values a |}) types (columns b))) l
    = Ok (map (fun i => row_bytes types (map (fun a => default None (a_values a !! i)) (columns b))) l)) as Hm.
  { induction l as [|i l IH]; intros Hl; [done|]. apply Forall_cons in Hl as [Hi Hl]. cbn [omap_list map].
    rewrite (encode_row_Ok (num_rows b) _ _ _ Hb Hi). cbn [mbind outcome_bind]. by rewrite IH. }
  rewrite Hm; [done|]. apply Forall_forall. intros i Hi. apply elem_of_seq in Hi. lia.
Qed.

Lemma encode_batches_Ok s types bs :
  resolved_types s types -> Forall (wf_batch types) bs ->
  exists es, omap_list (encode_canonical_batch_rows_at s) bs = Ok es /\ concat es = concat (map (row_bytes types) (all_rows bs)).
Proof.
  intros Ht. induction bs as [|b bs IH]; intros Hb; [by exists []|]. apply Forall_cons in Hb as [Hb Hbs].
  destruct (IH Hbs) as (es & E & Ec). cbn [omap_list]. pose proof (encode_batch_Ok s types b Ht Hb) as Eb.
  unfold encode_canonical_batch_rows in Eb. rewrite Eb, E. eexists. split; [reflexivity|].
  unfold all_rows in *. cbn [map concat]. rewrite Ec, map_app, concat_app. done.
Qed.

Lemma row_total_Ok t bs :
  0 <= t -> row_total t bs = (if t + Z.of_nat (length (all_rows bs)) <=? u64_max then Ok (t + Z.of_nat (length (all_rows bs)))
                    else if bool_decide (bs = []) then Ok t else Err RowCountOverflow).
Proof.
  intros Ht. revert t Ht. induction bs as [|b bs IH]; intros t Ht; cbn [row_total all_rows map concat length].
  { rewrite Z.add_0_r. by destruct (t <=? u64_max). }
  rewrite bool_decide_false by done. unfold all_rows in *. cbn [map concat]. rewrite length_app.
  assert (length (batch_rows b) = num_rows b) as -> by (unfold batch_rows; by rewrite length_map, length_seq).
  rewrite Nat2Z.inj_add. destruct (Z.ltb_spec u64_max (t + Z.of_nat (num_rows b))) as [Hl|Hl].
  { destruct (Z.leb_spec (t + (Z.of_nat (num_rows b) + Z.of_nat (length (concat (map batch_rows bs))))) u64_max); [lia|done]. }
  rewrite IH by lia. rewrite <- Z.add_assoc. destruct (_ <=? u64_max) eqn:E; [done|]. case_bool_decide; [|done]. subst bs. apply Z.leb_gt in E. cbn [map concat length] in E. lia.
Qed.

(** The payload of a table leaf depends on its rows, not on how they are split
    into batches or encoded as dictionaries. *)
Lemma encode_rows_Ok s types bs :
  resolved_types s types -> Forall (wf_batch types) bs -> Z.of_nat (length (all_rows bs)) <= u64_max ->
  encode_canonical_rows s bs
  = Ok (ROWS_MAGIC ++ to_le 8 (Z.of_nat (length (all_rows bs))) ++ concat (map (row_bytes types) (all_rows bs))).
Proof.
  intros Ht Hb Hn. unfold encode_canonical_rows, encode_canonical_rows_with_magic. rewrite row_total_Ok by lia. rewrite Z.add_0_l.
  destruct (Z.leb_spec (Z.of_nat (length (all_rows bs))) u64_max); [|lia]. cbn [mbind outcome_bind].
  destruct (encode_batches_Ok s types bs Ht Hb) as (es & E & Ec). rewrite E. cbn [mbind outcome_bind]. by rewrite Ec.
Qed.
End RowLemmas.

(** * Reading rows back *)

Definition take_value (dt : DataType) : Dec Scalar :=
  match dt with
  | Boolean => b ← take_u8; mret (VBool (b =? 1))
  | Int8 => z ← take_signed 1; mret (VInt z)
  | Int16 => z ← take_signed 2; mret (VInt z)
  | Int32 | Date32 => z ← take_signed 4; mret (VInt z)
  | Int64 | Timestamp _ _ => z ← take_signed 8; mret (VInt z)
  | Decimal128 _ _ => z ← take_signed 16; mret (VInt z)
  | UInt8 => z ← take_u8; mret (VInt z)
  | UInt16 => z ← take_u16; mret (VInt z)
  | UInt32 => z ← take_u32; mret (VInt z)
  | UInt64 => z ← take_u64; mret (VInt z)
  | Float32 => z ← take_u32; mret (VFloat z)
  | Float64 => z ← take_u64; mret (VFloat z)
  | _ => n ← take_u64; b ← take_bytes (Z.to_nat n); mret (VBytes b)
  end.

Definition take_cell (dt : DataType) : Dec (option Scalar) := p ← take_u8; take_if (p =? 1) (take_value dt).

Fixpoint take_row (types : list DataType) : Dec (list (option Scalar)) :=
  match types with
  | [] => mret []
  | dt :: types => v ← take_cell dt; r ← take_row types; mret (v :: r)
  end.

Lemma decodes_value dt v : wf_value dt v = true -> decodes (take_value dt) (unwrap_or [] (encode_value dt v)) (normal_value dt v).
Proof.
  assert (forall n z, (0 < n)%nat -> is_signed n z = true -> decodes (z ← take_signed n; mret (VInt z)) (to_le n z) (VInt z)) as Hs.
  { intros n z Hn Hz. eapply decodes_bind_nil; [by apply decodes_signed|apply decodes_ret]. }
  assert (forall b, is_u64 (Z.of_nat (length b)) = true ->
    decodes (n ← take_u64; b ← take_bytes (Z.to_nat n); mret (VBytes b)) (push_len_prefixed_u64 b) (VBytes b)) as Hb.
  { intros b Hl. eapply decodes_bind; [by apply decodes_u64|]. eapply decodes_bind_nil; [apply decodes_take; lia|apply decodes_ret]. }
  destruct dt, v as [b|z|z|b]; cbn [wf_value encode_value unwrap_or normal_value take_value]; intros Hw; try discriminate Hw;
    try (apply Hs; [lia|done]); try (by apply Hb);
    try (eapply decodes_bind_nil; [first [by apply decodes_u8|by apply decodes_u16|by apply decodes_u32|by apply decodes_u64]|apply decodes_ret]).
  - eapply decodes_bind_nil; [apply decodes_u8; by destruct b|]. destruct b; apply decodes_ret.
  - eapply decodes_bind_nil; [apply decodes_u32; by destruct (is_nan32 z)|apply decodes_ret].
  - eapply decodes_bind_nil; [apply decodes_u64; by destruct (is_nan64 z)|apply decodes_ret].
Qed.

Lemma decodes_cell dt v : wf_cell dt v = true -> decodes (take_cell dt) (cell_bytes dt v) (normal_value dt <$> v).
Proof.
  intros Hw. unfold take_cell. destruct v as [v|]; cbn [cell_bytes fmap option_fmap option_map].
  - eapply decodes_bind; [by apply decodes_u8|]. cbn [Z.eqb take_if SCALAR_PRESENT].
    eapply decodes_bind_nil; [by apply decodes_value|apply decodes_ret].
  - eapply decodes_bind_nil; [by apply decodes_u8|]. apply decodes_ret.
Qed.

Lemma decodes_row types r :
  Forall2 (fun dt v => wf_cell dt v = true) types r -> decodes (take_row types) (row_bytes types r) (normal_row types r).
Proof.
  unfold row_bytes, normal_row. induction 1 as [|dt v types r Hv _ IH]; [apply decodes_ret|]. cbn [take_row zip_with concat].
  eapply decodes_bind; [by apply decodes_cell|]. eapply decodes_bind_nil; [exact IH|apply decodes_ret].
Qed.

Lemma batch_rows_wf types b :
  wf_batch types b -> Forall (Forall2 (fun dt v => wf_cell dt v = true) types) (batch_rows b).
Proof.
  unfold wf_batch, batch_rows. intros Hb. apply Forall_map, Forall_forall. intros i Hi. apply elem_of_seq in Hi. unfold row_at.
  induction Hb as [|dt a types cols (_ & Hl & Hv) _ IH]; simpl; constructor; [|done].
  destruct (lookup_lt_is_Some_2 (a_values a) i) as [v Hv']; [lia|]. rewrite Hv'. simpl.
  rewrite Forall_forall in Hv. by eapply Hv, list_elem_of_lookup_2.
Qed.

Lemma all_rows_wf types bs :
  Forall (wf_batch types) bs -> Forall (Forall2 (fun dt v => wf_cell dt v = true) types) (all_rows bs).
Proof.
  unfold all_rows. induction 1 as [|b bs Hb _ IH]; simpl; [constructor|]. apply Forall_app. split; [by apply batch_rows_wf|done].
Qed.

Definition take_rows (types : list DataType) : Dec (list (list (option Scalar))) :=
  _ ← expect_tag ROWS_MAGIC; n ← take_u64; take_many (Z.to_nat n) (take_row types).

Lemma decodes_rows types rs :
  Forall (Forall2 (fun dt v => wf_cell dt v = true) types) rs -> is_u64 (Z.of_nat (length rs)) = true ->
  decodes (take_rows types) (ROWS_MAGIC ++ to_le 8 (Z.of_nat (length rs)) ++ concat (map (row_bytes types) rs))
    (map (normal_row types) rs).
Proof.
  intros Hw Hn. unfold take_rows. eapply decodes_bind; [apply decodes_tag|]. eapply decodes_bind; [by apply decodes_u64|].
  cbv beta. rewrite Nat2Z.id, <- (length_map (normal_row types)). apply decodes_many. clear Hn.
  induction Hw as [|r rs Hr _ IH]; simpl; constructor; [by apply decodes_row|done].
Qed.

(** * A table leaf is its hash *)

(** The arguments of the hash of a table leaf are well-formed. *)
Record wf_table_leaf (s : ArrowSchema) (types : list DataType) (bs : list RecordBatch) (mn mx : option Z) : Prop := {
  wt_schema : wf_schema s = true;
  wt_types : resolved_types s types;
  wt_batches : Forall (wf_batch types) bs;
  wt_count : Z.of_nat (length (all_rows bs)) <= u64_max;
  wt_payload : Z.of_nat (length ROWS_MAGIC + 8 + length (concat (map (row_bytes types) (all_rows bs)))) <= u64_max;
  wt_min : opt_all is_i64 mn = true;
  wt_max : opt_all is_i64 mx = true;
}.

Lemma canonicalize_resolved s types :
  resolved_types s types ->
  exists c, canonicalize_schema s = Ok c /\ map field_type (fields c) = types.
Proof.
  unfold resolved_types, canonicalize_schema. intros Ht%omap_list_Ok.
  assert (exists fs, omap_list canonicalize_field (fields s) = Ok fs /\ map field_type fs = types) as (fs & -> & Hf).
  { induction Ht as [|f t l types Hf _ (fs & E & Em)]; [by exists []|]. cbn [omap_list].
    assert (exists c, canonicalize_field f = Ok c /\ field_type c = t) as (c & -> & Hc).
    { unfold canonicalize_field. erewrite bind_eq by exact Hf. by eexists. }
    cbn [mbind outcome_bind]. rewrite E. eexists. split; [reflexivity|]. simpl. by rewrite Hc, Em. }
  by eexists.
Qed.

Section TableIdentity.
#[local] Set Default Proof Using "Type*".
Context `{ArrowCastLaws} `{Blake3}.

(** What a table leaf hashes to, from its rows. *)
Lemma table_leaf_hash_rows s types bs mn mx attrs h :
  wf_table_leaf s types bs mn mx ->
  table_leaf_hash_canonical s bs mn mx attrs = Ok h <->
  all_rows bs <> [] /\ exists fp, schema_fingerprint_of s = Ok fp
    /\ leaf_hash_with_magic LEAF_MAGIC
         {| payload_kind := LEAF_KIND_TABLE; schema_fingerprint := fp; logical_count := Z.of_nat (length (all_rows bs));
            canonical_payload := ROWS_MAGIC ++ to_le 8 (Z.of_nat (length (all_rows bs))) ++ concat (map (row_bytes types) (all_rows bs));
            leaf_min := mn; leaf_max := mx; canonical_attributes := default [] attrs |} = Ok h.
Proof.
  intros W. unfold table_leaf_hash_canonical, table_leaf_hash_canonical_with_magic, schema_fingerprint_of.
  pose proof (encode_rows_Ok s types bs (wt_types _ _ _ _ _ W) (wt_batches _ _ _ _ _ W) (wt_count _ _ _ _ _ W)) as Er.
  unfold encode_canonical_rows in Er. rewrite Er. rewrite row_total_Ok by lia. rewrite Z.add_0_l. pose proof (wt_count _ _ _ _ _ W) as Hc.
  destruct (Z.leb_spec (Z.of_nat (length (all_rows bs))) u64_max); [|lia].
  destruct (schema_fingerprint_with_magic s SCHEMA_MAGIC) as [fp|e|]; cbn [mbind outcome_bind].
  2,3: split; [done|]; intros (_ & fp & E & _); done.
  destruct (Z.eqb_spec (Z.of_nat (length (all_rows bs))) 0) as [E0|E0].
  { split; [done|]. intros [Hne _]. destruct (all_rows bs); [done|]. simpl in E0. lia. }
  rewrite from_codec_Ok. split.
  - intros E. split; [by intros Hn; rewrite Hn in E0|]. by exists fp.
  - by intros (_ & fp' & <-%Ok_inj & E).
Qed.

(** The bytes that are hashed for a table leaf, as a function of its rows. *)
Definition table_preimage (s : ArrowSchema) (types : list DataType) (bs : list RecordBatch) (mn mx : option Z) (attrs : option bytes) : tres bytes :=
  fp ← schema_fingerprint_of s;
  from_codec (leaf_preimage LEAF_MAGIC
    {| payload_kind := LEAF_KIND_TABLE; schema_fingerprint := fp; logical_count := Z.of_nat (length (all_rows bs));
       canonical_payload := ROWS_MAGIC ++ to_le 8 (Z.of_nat (length (all_rows bs))) ++ concat (map (row_bytes types) (all_rows bs));
       leaf_min := mn; leaf_max := mx; canonical_attributes := default [] attrs |}).

Lemma table_identity s1 s2 t1 t2 bs1 bs2 mn1 mn2 mx1 mx2 a1 a2 h :
  wf_table_leaf s1 t1 bs1 mn1 mx1 -> wf_table_leaf s2 t2 bs2 mn2 mx2 ->
  table_leaf_hash_canonical s1 bs1 mn1 mx1 a1 = Ok h -> table_leaf_hash_canonical s2 bs2 mn2 mx2 a2 = Ok h ->
  (canonicalize_schema s1 = canonicalize_schema s2
   /\ map (normal_row t1) (all_rows bs1) = map (normal_row t2) (all_rows bs2)
   /\ mn1 = mn2 /\ mx1 = mx2 /\ default [] a1 = default [] a2)
  \/ (exists x y, encode_canonical_schema s1 = Ok x /\ encode_canonical_schema s2 = Ok y /\ x <> y /\ blake3 x = blake3 y)
  \/ (exists x y, table_preimage s1 t1 bs1 mn1 mx1 a1 = Ok x /\ table_preimage s2 t2 bs2 mn2 mx2 a2 = Ok y /\ x <> y /\ blake3 x = blake3 y).
Proof.
  intros W1 W2 Hh1 Hh2. apply (table_leaf_hash_rows _ _ _ _ _ _ _ W1) in Hh1 as (_ & fp1 & F1 & Hh1).
  apply (table_leaf_hash_rows _ _ _ _ _ _ _ W2) in Hh2 as (_ & fp2 & F2 & Hh2).
  apply bind_Ok in Hh1 as (p1 & P1 & E1%Ok_inj), Hh2 as (p2 & P2 & E2%Ok_inj). unfold of_bytes in *.
  destruct (decide (p1 = p2)) as [<-|Hne]; 
    [|right; right; exists p1, p2; unfold table_preimage; rewrite F1, F2; cbn [mbind outcome_bind]; rewrite P1, P2; split_and!; [done..|congruence]].
  apply bind_Ok in F1 as (b1 & B1 & <-%Ok_inj), F2 as (b2 & B2 & <-%Ok_inj). unfold of_bytes in *.
  assert (forall s t bs mn mx fp a, wf_table_leaf s t bs mn mx -> wf_leaf
    {| payload_kind := LEAF_KIND_TABLE; schema_fingerprint := fp; logical_count := Z.of_nat (length (all_rows bs));
       canonical_payload := ROWS_MAGIC ++ to_le 8 (Z.of_nat (length (all_rows bs))) ++ concat (map (row_bytes t) (all_rows bs));
       leaf_min := mn; leaf_max := mx; canonical_attributes := a |} = true) as Hwf.
  { intros s t bs mn mx fp a W. unfold wf_leaf. cbn [payload_kind logical_count canonical_payload leaf_min leaf_max].
    rewrite (wt_min _ _ _ _ _ W), (wt_max _ _ _ _ _ W). pose proof (wt_count _ _ _ _ _ W). pose proof (wt_payload _ _ _ _ _ W) as Hp.
    rewrite !length_app, length_to_le. unfold is_u64, u64_max, LEAF_KIND_TABLE, is_u8 in *. rewrite !andb_true_iff, !Z.leb_le, !Z.ltb_lt. lia. }
  pose proof (decodes_inj _ _ _ _ (decodes_leaf _ _ _ (Hwf _ _ _ _ _ _ _ W1) P1) (decodes_leaf _ _ _ (Hwf _ _ _ _ _ _ _ W2) P2)) as E.
  pose proof (f_equal schema_fingerprint E) as Efp. pose proof (f_equal canonical_payload E) as Ep.
  pose proof (f_equal leaf_min E) as Emn. pose proof (f_equal leaf_max E) as Emx. pose proof (f_equal canonical_attributes E) as Ea.
  cbn [schema_fingerprint canonical_payload leaf_min leaf_max canonical_attributes] in Efp, Ep, Emn, Emx, Ea. clear E. subst mn2 mx2.
  destruct (decide (b1 = b2)) as [<-|Hne]; [|right; left; by exists b1, b2].
  left. destruct (schema_encoding_inj s1 s2 SCHEMA_MAGIC b1) as (c & C1 & C2); [apply W1|apply W2|done|done|].
  split; [congruence|]. destruct (canonicalize_resolved s1 t1) as (c1 & C1' & <-); [apply W1|].
  destruct (canonicalize_resolved s2 t2) as (c2 & C2' & <-); [apply W2|].
  assert (c1 = c /\ c2 = c) as [-> ->] by (split; congruence). split; [|done].
  assert (forall bs, Z.of_nat (length (all_rows bs)) <= u64_max -> is_u64 (Z.of_nat (length (all_rows bs))) = true) as Hu
    by (intros; unfold is_u64, u64_max in *; lia).
  pose proof (decodes_rows _ _ (all_rows_wf _ _ (wt_batches _ _ _ _ _ W1)) (Hu _ (wt_count _ _ _ _ _ W1))) as D1.
  pose proof (decodes_rows _ _ (all_rows_wf _ _ (wt_batches _ _ _ _ _ W2)) (Hu _ (wt_count _ _ _ _ _ W2))) as D2.
  apply app_inv_head in Ep. rewrite Ep in D1. by eapply decodes_inj.
Qed.
End TableIdentity.

(** * Hashing batch by batch *)

Section IncrementalTable.
#[local] Set Default Proof Using "Type*".
Context `{ArrowCastLaws} `{Blake3}.

Definition rows_len (types : list DataType) (rs : list (list (option Scalar))) : Z := Z.of_nat (length (concat (map (row_bytes types) rs))).

(** The hasher of a leaf after the rows [rs]. *)
Definition table_hashing (s : ArrowSchema) (fp : bytes) (types : list DataType) (count len : Z) (mn mx : option Z) (attrs : option bytes)
    (rs : list (list (option Scalar))) : TableHasher :=
  {| th_input := LEAF_MAGIC ++ to_le 1 LEAF_KIND_TABLE ++ to_le 4 (Z.of_nat (length fp)) ++ fp ++ to_le 8 count
       ++ to_le 8 (Z.of_nat (length ROWS_MAGIC + 8) + len) ++ ROWS_MAGIC ++ to_le 8 count ++ concat (map (row_bytes types) rs);
     th_schema := s; th_count := count; th_rows := Z.of_nat (length rs); th_len := len; th_bytes := rows_len types rs;
     th_min := mn; th_max := mx; th_attributes := default [] attrs |}.

Lemma table_hasher_new_hashing s fp types count len mn mx attrs :
  count <> 0 -> schema_fingerprint_of s = Ok fp -> Z.of_nat (length ROWS_MAGIC + 8) + len <= u64_max ->
  table_hasher_new s count len mn mx attrs = Ok (table_hashing s fp types count len mn mx attrs []).
Proof.
  intros Hc Hf Hl. unfold table_hasher_new. destruct (Z.eqb_spec count 0); [done|]. unfold schema_fingerprint_of in Hf. rewrite Hf.
  cbn [mbind outcome_bind]. destruct (Z.ltb_spec u64_max (Z.of_nat (length ROWS_MAGIC + 8) + len)); [lia|].
  unfold table_hashing. cbn [map concat]. by rewrite app_nil_r.
Qed.

Lemma batch_rows_length b : length (batch_rows b) = num_rows b.
Proof. unfold batch_rows. by rewrite length_map, length_seq. Qed.

Lemma table_hasher_write_hashing s fp types count len mn mx attrs rs b :
  resolved_types s types -> wf_batch types b -> count <= u64_max -> len <= u64_max ->
  Z.of_nat (length (rs ++ batch_rows b)) <= count -> rows_len types (rs ++ batch_rows b) <= len ->
  table_hasher_write (table_hashing s fp types count len mn mx attrs rs) b
  = Ok (table_hashing s fp types count len mn mx attrs (rs ++ batch_rows b)).
Proof.
  intros Ht Hb Hc Hl Hr Hy. unfold table_hasher_write, table_hashing at 1. cbn [th_schema].
  rewrite (encode_batch_Ok s types b Ht Hb). unfold table_hashing. cbn [mbind outcome_bind th_rows th_bytes th_count th_len].
  assert (rows_len types (rs ++ batch_rows b) = rows_len types rs + Z.of_nat (length (concat (map (row_bytes types) (batch_rows b))))) as El
    by (unfold rows_len; rewrite map_app, concat_app, length_app; lia).
  assert (Z.of_nat (length (rs ++ batch_rows b)) = Z.of_nat (length rs) + Z.of_nat (num_rows b)) as Er
    by (rewrite length_app, batch_rows_length; lia).
  rewrite <- El, <- Er. destruct (Z.ltb_spec u64_max (Z.of_nat (length (rs ++ batch_rows b)))); [lia|].
  destruct (Z.ltb_spec u64_max (rows_len types (rs ++ batch_rows b))); [lia|].
  destruct (Z.ltb_spec count (Z.of_nat (length (rs ++ batch_rows b)))); [lia|].
  destruct (Z.ltb_spec len (rows_len types (rs ++ batch_rows b))); [lia|]. cbn [orb].
  cbn [th_input th_schema th_min th_max th_attributes]. by rewrite map_app, concat_app, <- !app_assoc.
Qed.

(** With all the rows in, the hash is the one of the whole leaf. *)
Lemma table_hasher_finish_hashing s fp types bs mn mx attrs h :
  wf_table_leaf s types bs mn mx -> all_rows bs <> [] -> schema_fingerprint_of s = Ok fp ->
  table_hasher_finish (table_hashing s fp types (Z.of_nat (length (all_rows bs))) (rows_len types (all_rows bs)) mn mx attrs (all_rows bs)) = Ok h
  <-> table_leaf_hash_canonical s bs mn mx attrs = Ok h.
Proof.
  intros W Hne Hf. rewrite (table_leaf_hash_rows s types bs mn mx attrs h W). unfold table_hasher_finish, table_hashing.
  cbn [th_input th_rows th_count th_bytes th_len th_min th_max th_attributes]. rewrite !Z.eqb_refl. cbn [negb orb].
  transitivity (leaf_hash_with_magic LEAF_MAGIC
         {| payload_kind := LEAF_KIND_TABLE; schema_fingerprint := fp; logical_count := Z.of_nat (length (all_rows bs));
            canonical_payload := ROWS_MAGIC ++ to_le 8 (Z.of_nat (length (all_rows bs))) ++ concat (map (row_bytes types) (all_rows bs));
            leaf_min := mn; leaf_max := mx; canonical_attributes := default [] attrs |} = Ok h).
  2: { split; [by intros E; split; [|exists fp]|]. intros (_ & fp' & E & E'). congruence. }
  unfold leaf_hash_with_magic, leaf_preimage, push_len_prefixed, push_len_prefixed_u64.
  cbn [payload_kind schema_fingerprint logical_count canonical_payload leaf_min leaf_max canonical_attributes].
  assert (length fp = 32%nat) as Hlen.
  { unfold schema_fingerprint_of, schema_fingerprint_with_magic in Hf. apply bind_Ok in Hf as (b & _ & <-%Ok_inj). apply blake3_len. }
  destruct (Z.leb_spec (Z.of_nat (length fp)) u32_max) as [_|Hl]; [|rewrite Hlen in Hl; unfold u32_max in Hl; lia]. cbn [mbind outcome_bind].
  destruct (Z.ltb_spec u32_max (Z.of_nat (length (default [] attrs)))) as [Hl|Hl];
    destruct (Z.leb_spec (Z.of_nat (length (default [] attrs))) u32_max) as [Hl'|Hl']; [lia|done| |lia].
  cbn [mbind outcome_bind mret]. unfold of_bytes, rows_len.
  assert (Z.of_nat (length ROWS_MAGIC + 8) + Z.of_nat (length (concat (map (row_bytes types) (all_rows bs))))
    = Z.of_nat (length (ROWS_MAGIC ++ to_le 8 (Z.of_nat (length (all_rows bs))) ++ concat (map (row_bytes types) (all_rows bs))))) as ->
    by (rewrite !length_app, length_to_le; lia).
  unfold outcome_ret. rewrite <- !app_assoc. split; intros <-%Ok_inj; reflexivity.
Qed.

Fixpoint write_batches (h : TableHasher) (bs : list RecordBatch) : tres TableHasher :=
  match bs with
  | [] => Ok h
  | b :: bs => h ← table_hasher_write h b; write_batches h bs
  end.

Lemma write_batches_hashing s fp types count len mn mx attrs rs bs :
  resolved_types s types -> Forall (wf_batch types) bs -> count <= u64_max -> len <= u64_max ->
  Z.of_nat (length (rs ++ all_rows bs)) <= count -> rows_len types (rs ++ all_rows bs) <= len ->
  write_batches (table_hashing s fp types count len mn mx attrs rs) bs
  = Ok (table_hashing s fp types count len mn mx attrs (rs ++ all_rows bs)).
Proof.
  intros Ht Hb Hc Hl. revert rs. induction Hb as [|b bs Hb _ IH]; intros rs Hr Hy; [cbn; by rewrite app_nil_r|].
  cbn [write_batches]. unfold all_rows in *. cbn [map concat] in *. rewrite app_assoc in *.
  rewrite table_hasher_write_hashing; [|done..| |].
  - cbn [mbind outcome_bind]. by apply IH.
  - rewrite length_app in Hr. lia.
  - unfold rows_len in *. rewrite map_app, concat_app, length_app in Hy. lia.
Qed.

(** A table leaf hashed incrementally over any split of its rows into batches has
    the hash of the whole leaf. *)
Lemma table_incremental s types bs bs' mn mx attrs h :
  wf_table_leaf s types bs mn mx -> Forall (wf_batch types) bs' -> all_rows bs' = all_rows bs -> all_rows bs <> [] ->
  (hs ← table_hasher_new s (Z.of_nat (length (all_rows bs))) (rows_len types (all_rows bs)) mn mx attrs;
   hs ← write_batches hs bs';
   table_hasher_finish hs) = Ok h
  <-> table_leaf_hash_canonical s bs mn mx attrs = Ok h.
Proof.
  intros W Hb' Hr Hne. destruct (schema_fingerprint_of s) as [fp|e|] eqn:Hf.
  - pose proof (wt_payload _ _ _ _ _ W) as Hp. pose proof (wt_count _ _ _ _ _ W) as Hc. fold (rows_len types (all_rows bs)) in Hp.
    rewrite (table_hasher_new_hashing s fp types) by (try done; unfold rows_len; try lia; by destruct (all_rows bs)).
    cbn [mbind outcome_bind]. rewrite write_batches_hashing; cbn [app].
    + cbn [mbind outcome_bind]. rewrite Hr. by apply table_hasher_finish_hashing.
    + apply W.
    + done.
    + done.
    + unfold rows_len. lia.
    + by rewrite Hr.
    + by rewrite Hr.
  - unfold table_hasher_new, table_leaf_hash_canonical, table_leaf_hash_canonical_with_magic. unfold schema_fingerprint_of in Hf. rewrite Hf.
    cbn [mbind outcome_bind]. by destruct (_ =? 0).
  - unfold table_hasher_new, table_leaf_hash_canonical, table_leaf_hash_canonical_with_magic. unfold schema_fingerprint_of in Hf. rewrite Hf.
    cbn [mbind outcome_bind]. by destruct (_ =? 0).
Qed.
End IncrementalTable.

(** * Claims *)

(** C34: A table leaf hash identifies the leaf: two table leaves with one hash have
    the same canonical schema, the same rows (up to the payload of a NaN), the
    same bounds and the same attributes, or the encodings of their schemas or
    their preimages are a BLAKE3 collision. *)
Theorem table_leaf_identity `{ArrowCastLaws} `{Blake3} s1 s2 t1 t2 bs1 bs2 mn1 mn2 mx1 mx2 a1 a2 h :
  wf_table_leaf s1 t1 bs1 mn1 mx1 -> wf_table_leaf s2 t2 bs2 mn2 mx2 ->
  table_leaf_hash_canonical s1 bs1 mn1 mx1 a1 = Ok h -> table_leaf_hash_canonical s2 bs2 mn2 mx2 a2 = Ok h ->
  (canonicalize_schema s1 = canonicalize_schema s2
   /\ map (normal_row t1) (all_rows bs1) = map (normal_row t2) (all_rows bs2)
   /\ mn1 = mn2 /\ mx1 = mx2 /\ default [] a1 = default [] a2)
  \/ (exists x y, encode_canonical_schema s1 = Ok x /\ encode_canonical_schema s2 = Ok y /\ x <> y /\ blake3 x = blake3 y)
  \/ (exists x y, table_preimage s1 t1 bs1 mn1 mx1 a1 = Ok x /\ table_preimage s2 t2 bs2 mn2 mx2 a2 = Ok y /\ x <> y /\ blake3 x = blake3 y).
Proof. apply table_identity. Qed.

(** However the rows of a leaf are split into batches, and whichever columns are
    dictionary-encoded, the incremental hasher given the row and byte counts of
    the first pass ends with the hash of the whole leaf. *)
Theorem table_leaf_incremental `{ArrowCastLaws} `{Blake3} s types bs bs' mn mx attrs h :
  wf_table_leaf s types bs mn mx -> Forall (wf_batch types) bs' -> all_rows bs' = all_rows bs -> all_rows bs <> [] ->
  (hs ← table_hasher_new s (Z.of_nat (length (all_rows bs))) (rows_len types (all_rows bs)) mn mx attrs;
   hs ← write_batches hs bs';
   table_hasher_finish hs) = Ok h
  <-> table_leaf_hash_canonical s bs mn mx attrs = Ok h.
Proof. apply table_incremental. Qed.

(** A table with a dictionary column, and the same rows in plain batches. *)
Definition ex_schema : ArrowSchema :=
  {| fields := [{| field_name := bstr "site"; nullable := true; field_type := Dictionary UInt16 Utf8; field_metadata := ∅ |};
                {| field_name := bstr "level"; nullable := false; field_type := Float64; field_metadata := {[ bstr "unit" := bstr "m" ]} |}];
     schema_metadata := {[ bstr "b" := bstr "2"; bstr "a" := bstr "1" ]} |}.
Definition ex_types : list DataType := [Utf8; Float64].
Definition ex_batches : list RecordBatch :=
  [{| num_rows := 2; columns :=
        [{| a_type := Dictionary UInt16 Utf8; a_values := [Some (VBytes (bstr "up")); None] |};
         {| a_type := Float64; a_values := [Some (VFloat 0x3ff0000000000000); Some (VFloat 0x7ff0000000000001)] |}] |};
   {| num_rows := 1; columns :=
        [{| a_type := Utf8; a_values := [Some (VBytes [])] |}; {| a_type := Float64; a_values := [Some (VFloat 0)] |}] |}].
Definition ex_plain : list RecordBatch :=
  [{| num_rows := 1; columns := [{| a_type := Utf8; a_values := [Some (VBytes (bstr "up"))] |};
                                 {| a_type := Float64; a_values := [Some (VFloat 0x3ff0000000000000)] |}] |};
   {| num_rows := 2; columns := [{| a_type := Utf8; a_values := [None; Some (VBytes [])] |};
                                 {| a_type := Float64; a_values := [Some (VFloat 0x7ff0000000000001); Some (VFloat 0)] |}] |}].

Definition ex_cast : ArrowCast := {| arrow_cast a dt := Some {| a_type := dt; a_values := a_values a |} |}.
Definition ex_cast_laws : @ArrowCastLaws ex_cast.
Proof. split. reflexivity. Defined.

Ltac check_batches := repeat (first [apply Forall_cons_2 | apply Forall_nil_2 | apply Forall2_cons_2 | apply Forall2_nil_2 | split | vm_compute; reflexivity]).

Lemma ex_table_wf bs : bs = ex_batches \/ bs = ex_plain -> wf_table_leaf ex_schema ex_types bs (Some (-5)) (Some 9).
Proof. intros [-> | ->]; (split; [vm_compute; reflexivity | vm_compute; reflexivity | check_batches | vm_compute; done..]). Qed.

Definition ex_table_hash : bytes :=
  unwrap_or [] (@table_leaf_hash_canonical ex_cast mix_blake3 ex_schema ex_batches (Some (-5)) (Some 9) None).

Lemma table_leaf_identity_witness :
  canonicalize_schema ex_schema = canonicalize_schema ex_schema
  /\ map (normal_row ex_types) (all_rows ex_batches) = map (normal_row ex_types) (all_rows ex_plain)
  /\ Some (-5) = Some (-5) /\ Some 9 = Some 9 /\ default [] (@None bytes) = default [] (Some [])
  \/ (exists x y, encode_canonical_schema ex_schema = Ok x /\ encode_canonical_schema ex_schema = Ok y /\ x <> y
        /\ @blake3 mix_blake3 x = @blake3 mix_blake3 y)
  \/ (exists x y, @table_preimage mix_blake3 ex_schema ex_types ex_batches (Some (-5)) (Some 9) None = Ok x
        /\ @table_preimage mix_blake3 ex_schema ex_types ex_plain (Some (-5)) (Some 9) (Some []) = Ok y /\ x <> y
        /\ @blake3 mix_blake3 x = @blake3 mix_blake3 y).
Proof.
  apply (@table_leaf_identity ex_cast ex_cast_laws mix_blake3 ex_schema ex_schema ex_types ex_types ex_batches ex_plain
    (Some (-5)) (Some (-5)) (Some 9) (Some 9) None (Some []) ex_table_hash);
    [apply ex_table_wf; by left | apply ex_table_wf; by right | vm_compute; reflexivity | vm_compute; reflexivity].
Defined.

Lemma table_leaf_incremental_witness :
  (hs ← @table_hasher_new mix_blake3 ex_schema 3 (rows_len ex_types (all_rows ex_batches)) (Some (-5)) (Some 9) None;
   hs ← @write_batches ex_cast hs ex_plain;
   @table_hasher_finish mix_blake3 hs) = Ok ex_table_hash
  <-> @table_leaf_hash_canonical ex_cast mix_blake3 ex_schema ex_batches (Some (-5)) (Some 9) None = Ok ex_table_hash.
Proof.
  apply (@table_leaf_incremental ex_cast ex_cast_laws mix_blake3 ex_schema ex_types ex_batches ex_plain (Some (-5)) (Some 9) None);
    [apply ex_table_wf; by left | check_batches | vm_compute; reflexivity | vm_compute; discriminate].
Defined.
