(* ===== verification/SeriesManifest.v ===== *)
(** The series root object, [crates/sync-store/src/content/series_manifest.rs]:
    the validated constructor, the encoding and the strict decoder.  A decoded
    manifest carries a frontier from which the series can be extended without
    its history. *)

From stdpp Require Import base list numbers sets sorting strings options.
From Stdlib Require Import ZArith Lia.
From S2P Require Import Prelude RustStd RustText EntryType Wire CanonicalJson Tree.
From S2P Require Import MerkleTree SeriesMerkle SeriesLeaf.

Open Scope Z_scope.

Definition MANIFEST_MAGIC : bytes := bstr "watertown.series.v3" ++ [Byte.x0a].
#[global] Opaque MANIFEST_MAGIC.

Inductive PayloadKind := Table | File.

#[export] Instance PayloadKind_eq_dec : EqDecision PayloadKind.
Proof. solve_decision. Defined.

Definition payload_to_wire (k : PayloadKind) : Z :=
  match k with Table => LEAF_KIND_TABLE | File => LEAF_KIND_FILE end.
Definition payload_from_wire (v : Z) : res PayloadKind :=
  if v =? LEAF_KIND_TABLE then Ok Table
  else if v =? LEAF_KIND_FILE then Ok File
  else Err (UnknownPayloadKind v).

Record SeriesManifest := {
  sm_kind : PayloadKind;
  sm_logical_count : Z;
  sm_leaf_count : Z;
  sm_min : option Z;
  sm_max : option Z;
  sm_attributes : option bytes;
  leaf_merkle_root : bytes;
  merkle_frontier : MerkleFrontier;
}.

Section SeriesManifest.
Context `{Blake3} `{JsonParser}.

Definition validate (logical_count leaf_count : Z) (attrs : option bytes) (root : bytes)
    (frontier : MerkleFrontier) : res unit :=
  if negb (Bool.eqb (leaf_count =? 0) (logical_count =? 0))
  then Err (CountsDisagree logical_count leaf_count) else
  _ ← match attrs with
      | Some attrs =>
          if bool_decide (attrs = []) then Err EmptyAttributes
          else validate_canonical_attributes attrs
      | None => Ok tt
      end;
  if negb (SeriesMerkle.leaf_count frontier =? leaf_count)
  then Err (FrontierLeafCount (SeriesMerkle.leaf_count frontier) leaf_count) else
  if bool_decide (frontier_root frontier = root) then Ok tt else Err FrontierRootMismatch.

Definition series_new (kind : PayloadKind) (logical_count leaf_count : Z) (mn mx : option Z)
    (attrs : option bytes) (frontier : MerkleFrontier) : res SeriesManifest :=
  let root := frontier_root frontier in
  _ ← validate logical_count leaf_count attrs root frontier;
  mret {| sm_kind := kind; sm_logical_count := logical_count; sm_leaf_count := leaf_count;
          sm_min := mn; sm_max := mx; sm_attributes := attrs; leaf_merkle_root := root;
          merkle_frontier := frontier |}.

Definition series_encode (m : SeriesManifest) : res bytes :=
  attrs ← push_len_prefixed (default [] (sm_attributes m));
  count ← push_count (length (peak_hashes (merkle_frontier m)));
  mret (MANIFEST_MAGIC ++ to_le 1 (payload_to_wire (sm_kind m))
        ++ to_le 8 (sm_logical_count m) ++ to_le 8 (sm_leaf_count m)
        ++ push_bounds (sm_min m) (sm_max m) ++ attrs ++ leaf_merkle_root m
        ++ count ++ concat (peak_hashes (merkle_frontier m))).

Definition series_object_hash (m : SeriesManifest) : res bytes :=
  b ← series_encode m; mret (of_bytes b).

(** The fields as they are read, the frontier still as its peak hashes. *)
Record RawManifest := {
  raw_kind : PayloadKind;
  raw_logical : Z;
  raw_leaves : Z;
  raw_bounds : option Z * option Z;
  raw_attrs : bytes;
  raw_root : bytes;
  raw_peaks : list bytes;
}.

Definition series_body : Dec RawManifest :=
  _ ← expect_tag MANIFEST_MAGIC;
  k ← take_u8;
  k ← lift (payload_from_wire k);
  n ← take_u64;
  l ← take_u64;
  o ← take_bounds;
  a ← take_len_prefixed;
  r ← take_hash;
  c ← take_u32;
  ps ← take_many (Z.to_nat c) take_hash;
  mret {| raw_kind := k; raw_logical := n; raw_leaves := l; raw_bounds := o; raw_attrs := a;
          raw_root := r; raw_peaks := ps |}.

(** What [decode] does after the end-of-buffer check. *)
Definition series_finish (w : RawManifest) : res SeriesManifest :=
  let attrs := if bool_decide (raw_attrs w = []) then None else Some (raw_attrs w) in
  frontier ← from_peak_hashes (raw_leaves w) (raw_peaks w);
  _ ← validate (raw_logical w) (raw_leaves w) attrs (raw_root w) frontier;
  mret {| sm_kind := raw_kind w; sm_logical_count := raw_logical w; sm_leaf_count := raw_leaves w;
          sm_min := (raw_bounds w).1; sm_max := (raw_bounds w).2; sm_attributes := attrs;
          leaf_merkle_root := raw_root w; merkle_frontier := frontier |}.

Definition series_decode (b : bytes) : res SeriesManifest :=
  decode_strict series_body series_finish b.

(** The invariants of the Rust field types. *)
Definition wf_series (m : SeriesManifest) : bool :=
  is_u64 (sm_logical_count m) && is_u64 (sm_leaf_count m)
  && opt_all is_i64 (sm_min m) && opt_all is_i64 (sm_max m)
  && wf_hash (leaf_merkle_root m) && forallb wf_hash (peak_hashes (merkle_frontier m)).

(** What the private fields guarantee: the checks of [validate], and a frontier
    that is the one of its own count and hashes. *)
Definition valid_series (m : SeriesManifest) : Prop :=
  validate (sm_logical_count m) (sm_leaf_count m) (sm_attributes m) (leaf_merkle_root m)
    (merkle_frontier m) = Ok tt
  /\ from_peak_hashes (sm_leaf_count m) (peak_hashes (merkle_frontier m)) = Ok (merkle_frontier m).

Lemma payload_from_to_wire k : payload_from_wire (payload_to_wire k) = Ok k.
Proof. by destruct k. Qed.

Lemma payload_from_wire_Ok v k : payload_from_wire v = Ok k -> v = payload_to_wire k.
Proof.
  unfold payload_from_wire. destruct (Z.eqb_spec v LEAF_KIND_TABLE); [by intros <-%Ok_inj|].
  destruct (Z.eqb_spec v LEAF_KIND_FILE); [by intros <-%Ok_inj|done].
Qed.

Definition raw_of (m : SeriesManifest) : RawManifest :=
  {| raw_kind := sm_kind m; raw_logical := sm_logical_count m; raw_leaves := sm_leaf_count m;
     raw_bounds := (sm_min m, sm_max m); raw_attrs := default [] (sm_attributes m);
     raw_root := leaf_merkle_root m; raw_peaks := peak_hashes (merkle_frontier m) |}.

Lemma decodes_series m b :
  wf_series m = true -> series_encode m = Ok b -> decodes series_body b (raw_of m).
Proof.
  unfold wf_series. rewrite !andb_true_iff. intros [[[[[Hn Hl] Hmn] Hmx] Hr] Hp] He.
  unfold series_encode in He. inv_ok. unfold series_body.
  dec_step. eapply decodes_bind; [apply decodes_u8; by destruct (sm_kind m)|].
  eapply decodes_bind_lift; [apply payload_from_to_wire|].
  dec_step. dec_step. eapply decodes_bind; [by apply decodes_bounds|].
  dec_step. dec_step. dec_step. rewrite Nat2Z.id.
  eapply decodes_bind_nil; [|apply decodes_ret].
  apply decodes_many, Forall2_same_length_lookup. split; [done|].
  intros i h e Hh He'. assert (h = e) as -> by congruence. apply decodes_hash.
  apply forallb_Forall in Hp. rewrite Forall_lookup in Hp. by eapply Hp.
Qed.

Lemma consumes_hashes n :
  consumes (take_many n take_hash)
    (fun hs e => e = concat hs /\ length hs = n /\ forallb wf_hash hs = true).
Proof.
  eapply consumes_weaken; [apply consumes_many, consumes_hash|].
  intros hs e (es & -> & Hl & Hf).
  assert (es = hs) as -> by (clear Hl; induction Hf as [|? ? ? ? [-> _]]; congruence).
  split_and!; [done|done|]. apply forallb_Forall, Forall_lookup. intros i h Hi.
  by destruct (Forall2_lookup_l _ _ _ _ _ Hf Hi) as (? & _ & _ & ?).
Qed.

Lemma consumes_series :
  consumes series_body (fun w b => exists attrs count,
    push_len_prefixed (raw_attrs w) = Ok attrs
    /\ push_count (length (raw_peaks w)) = Ok count
    /\ b = MANIFEST_MAGIC ++ to_le 1 (payload_to_wire (raw_kind w))
        ++ to_le 8 (raw_logical w) ++ to_le 8 (raw_leaves w)
        ++ push_bounds (raw_bounds w).1 (raw_bounds w).2 ++ attrs ++ raw_root w
        ++ count ++ concat (raw_peaks w)
    /\ is_u64 (raw_logical w) = true /\ is_u64 (raw_leaves w) = true
    /\ opt_all is_i64 (raw_bounds w).1 = true /\ opt_all is_i64 (raw_bounds w).2 = true
    /\ wf_hash (raw_root w) = true /\ forallb wf_hash (raw_peaks w) = true).
Proof.
  eapply consumes_weaken.
  - unfold series_body. do 5 con_step. apply consumes_bind; [apply consumes_bounds|]. intros o.
    do 3 con_step. apply consumes_bind; [apply consumes_hashes|]. intros ps. apply consumes_ret.
  - intros w b ([] & e1 & r1 & -> & -> & kb & e2 & r2 & -> & [-> Hk] & k & e3 & r3 & -> & [Hkw ->]
      & n & e4 & r4 & -> & [-> Hn] & l & e5 & r5 & -> & [-> Hl] & o & e6 & r6 & -> & (-> & Ho1 & Ho2)
      & a & e7 & r7 & -> & Ha & h & e8 & r8 & -> & [-> Hh] & c & e9 & r9 & -> & [-> Hc]
      & ps & e10 & r10 & -> & (-> & Hlen & Hps) & -> & ->).
    apply payload_from_wire_Ok in Hkw as ->. exists e7, (to_le 4 c).
    cbn [raw_kind raw_logical raw_leaves raw_bounds raw_attrs raw_root raw_peaks].
    rewrite app_nil_r, Hlen. unfold is_u32 in Hc. unfold push_count, u32_max.
    destruct (Z.leb_spec (Z.of_nat (Z.to_nat c)) (2 ^ 32 - 1)); [|lia].
    rewrite Z2Nat.id by lia. split_and!; done.
Qed.

Lemma default_attrs (a : option bytes) :
  a <> Some [] -> (if bool_decide (default [] a = []) then None else Some (default [] a)) = a.
Proof. intros Ha. destruct a as [[|c l]|]; [done|done|done]. Qed.

Lemma validate_attrs n l root f a : validate n l a root f = Ok tt -> a <> Some [].
Proof.
  unfold validate. destruct (negb _); [done|]. intros (u & Hu & _)%bind_Ok ->. done.
Qed.

Lemma series_decode_encoded b m :
  wf_series m = true -> valid_series m -> series_encode m = Ok b -> series_decode b = Ok m.
Proof.
  intros Hwf [Hv Hfr] He. unfold series_decode.
  rewrite (decode_strict_encoded _ _ _ (raw_of m)) by (by apply decodes_series).
  unfold series_finish, raw_of. cbn [raw_kind raw_logical raw_leaves raw_bounds raw_attrs
    raw_root raw_peaks fst snd].
  rewrite Hfr. cbn [mbind outcome_bind]. rewrite default_attrs by (by eapply validate_attrs).
  rewrite Hv. by destruct m.
Qed.

#[local] Opaque from_peak_hashes validate.

(** The series root object has a canonical strict encoding: decoding succeeds
    exactly on the encodings of valid manifests (consistent counts, canonical
    attributes, a frontier of the declared size that folds to the declared
    root), and returns that manifest. *)
Theorem series_manifest_codec (b : bytes) (m : SeriesManifest) :
  series_decode b = Ok m <-> wf_series m = true /\ valid_series m /\ series_encode m = Ok b.
Proof.
  split.
  - intros Hd. eapply decode_strict_inv in Hd as (w & HR & Hf); [|apply consumes_series].
    destruct HR as (attrs & count & Ha & Hc & -> & Hn & Hl & Ho1 & Ho2 & Hr & Hp).
    unfold series_finish in Hf. apply bind_Ok in Hf as (f & Hfr & Hf).
    apply bind_Ok in Hf as ([] & Hv & <-%Ok_inj).
    assert (peak_hashes f = raw_peaks w) as Epk by (by apply from_peak_hashes_inv in Hfr as [-> _]).
    unfold wf_series, valid_series, series_encode. cbn [sm_kind sm_logical_count sm_leaf_count
      sm_min sm_max sm_attributes leaf_merkle_root merkle_frontier].
    rewrite Epk, Hn, Hl, Ho1, Ho2, Hr, Hp, Hc. split_and!; [done|done|done|].
    assert (default [] (if bool_decide (raw_attrs w = []) then None else Some (raw_attrs w))
            = raw_attrs w) as -> by (case_bool_decide as E; [by rewrite E|done]).
    rewrite Ha. done.
  - intros (Hwf & Hv & He). by apply series_decode_encoded.
Qed.

Lemma peaks_wf f leaves :
  frontier_of f leaves -> forallb wf_hash (peak_hashes f) = true.
Proof.
  intros [_ [ps Ht]]. apply forallb_Forall. unfold peak_hashes.
  apply (Permutation_Forall (Permutation_map peak_hash (Permutation_sym (Permutation_rev (peaks f))))).
  induction Ht as [|b p ps rp l c Hb Hc Ht IH]; simpl; constructor; [apply series_head_wf|done].
Qed.

(** Appending needs only the stored manifest: a manifest built from a series
    of leaves is written, read back unchanged, and the frontier read back
    extends by new leaves to exactly the frontier and Merkle root of the whole
    longer series. *)
Theorem manifest_append_persistent (kind : PayloadKind) (count : Z) (mn mx : option Z)
    (attrs : option bytes) (leaves more : list bytes) (f : MerkleFrontier) (m : SeriesManifest)
    (b : bytes) :
  Z.of_nat (length (leaves ++ more)) < 2 ^ 64 ->
  from_leaves leaves = Ok f ->
  is_u64 count = true -> opt_all is_i64 mn = true -> opt_all is_i64 mx = true ->
  series_new kind count (Z.of_nat (length leaves)) mn mx attrs f = Ok m ->
  series_encode m = Ok b ->
  series_decode b = Ok m
  /\ exists f', extended (merkle_frontier m) more = Ok f'
       /\ from_leaves (leaves ++ more) = Ok f'
       /\ merkle_root (leaves ++ more) = Ok (frontier_root f').
Proof.
  intros Hb Hf Hc Hmn Hmx Hnew He. pose proof Hb as Hb1. rewrite length_app in Hb1.
  destruct (from_leaves_of leaves ltac:(lia)) as (f1 & Hf1 & Hfo).
  rewrite Hf in Hf1. apply Ok_inj in Hf1 as <-.
  unfold series_new in Hnew. apply bind_Ok in Hnew as ([] & Hv & <-%Ok_inj). cbn [merkle_frontier].
  split.
  - apply series_decode_encoded; [|split|done]; cbn [sm_kind sm_logical_count sm_leaf_count
      sm_min sm_max sm_attributes leaf_merkle_root merkle_frontier].
    + unfold wf_series. cbn [sm_kind sm_logical_count sm_leaf_count
      sm_min sm_max sm_attributes leaf_merkle_root merkle_frontier].
      rewrite Hc, Hmn, Hmx, (peaks_wf f leaves Hfo), (frontier_root_of f leaves Hfo), series_head_wf.
      unfold is_u64. rewrite !andb_true_r. lia.
    + done.
    + pose proof Hfo as [Hlc _]. rewrite <- Hlc. by apply (from_peak_hashes_of f leaves); [|lia].
  - destruct (extended_of f leaves more Hfo Hb) as (f' & He' & Hfo'). exists f'.
    assert (from_leaves (leaves ++ more) = Ok f') as Hfrom.
    { destruct (extended_of _ [] leaves frontier_empty_of ltac:(simpl; lia)) as (g & Hg & _).
      unfold from_leaves in Hf. rewrite Hg in Hf. apply Ok_inj in Hf as ->.
      unfold from_leaves. rewrite extended_app, Hg. cbn [mbind outcome_bind]. by rewrite He'. }
    split_and!; [done|done|]. unfold merkle_root. by rewrite Hfrom.
Qed.
End SeriesManifest.

(** * Witness *)

Definition ex_frontier : MerkleFrontier :=
  unwrap_or frontier_empty (@from_leaves mix_blake3 (ex_leaves 5)).
Definition no_json : JsonParser := {| json_from_str := fun _ => None |}.
Definition ex_manifest : SeriesManifest :=
  unwrap_or {| sm_kind := Table; sm_logical_count := 0; sm_leaf_count := 0; sm_min := None;
               sm_max := None; sm_attributes := None; leaf_merkle_root := [];
               merkle_frontier := frontier_empty |}
    (@series_new mix_blake3 no_json File 17 5 (Some 3) None None ex_frontier).

Lemma manifest_append_persistent_witness :
  @series_decode mix_blake3 no_json (unwrap_or [] (series_encode ex_manifest)) = Ok ex_manifest
  /\ exists f', @extended mix_blake3 (merkle_frontier ex_manifest) (ex_leaves 2) = Ok f'
       /\ @from_leaves mix_blake3 (ex_leaves 5 ++ ex_leaves 2) = Ok f'
       /\ @merkle_root mix_blake3 (ex_leaves 5 ++ ex_leaves 2) = Ok (@frontier_root mix_blake3 f').
Proof.
  apply (@manifest_append_persistent mix_blake3 no_json File 17 (Some 3) None None (ex_leaves 5)
           (ex_leaves 2) ex_frontier ex_manifest (unwrap_or [] (series_encode ex_manifest)));
    vm_compute; reflexivity.
Defined.
