(* ===== verification/SeriesPack.v ===== *)
(** Pack indexes, [crates/sync-store/src/content/series_pack.rs]: the descriptors
    of a contiguous range of logical leaves, the spans of the physical objects
    that hold them, the validation of an index, its codec, and its verification
    against the manifest of the series it claims to belong to. *)

From stdpp Require Import base list numbers gmap sets sorting strings options.
From Stdlib Require Import ZArith Lia.
From S2P Require Import Prelude RustStd RustText EntryType Wire CanonicalJson Tree.
From S2P Require Import MerkleTree SeriesMerkle SeriesLeaf SeriesManifest.

Open Scope Z_scope.

Definition PACK_MAGIC : bytes := bstr "watertown.series-pack.v4" ++ [Byte.x0a].
#[global] Opaque PACK_MAGIC.

Definition fail {A} (e : pack_error) : res A := Err (PackErr e).

(** * Descriptors and spans *)

Record PackLeafDescriptor := {
  logical_leaf_hash : bytes;
  d_count : Z;
  d_schema : option bytes;
  d_min : option Z;
  d_max : option Z;
  d_attributes : option bytes;
}.

Record PackObjectSpan := {
  object_hash : bytes;
  logical_start : Z;
  logical_end : Z;
  physical_start : Z;
  physical_end : Z;
}.

Definition span_new (h : bytes) (ls le ps pe : Z) : res PackObjectSpan :=
  if le <=? ls then fail (EmptyLogicalSpan ls le) else
  if pe <=? ps then fail (EmptyPhysicalSpan ps pe) else
  Ok {| object_hash := h; logical_start := ls; logical_end := le; physical_start := ps; physical_end := pe |}.

Definition physical_len (s : PackObjectSpan) : Z := physical_end s - physical_start s.

Section Descriptor.
Context `{JsonParser}.

Definition validate_descriptor (count : Z) (attrs : option bytes) : res unit :=
  if count =? 0 then fail ZeroLogicalCount else
  match attrs with
  | Some attrs => if bool_decide (attrs = []) then Err EmptyAttributes else validate_canonical_attributes attrs
  | None => Ok tt
  end.

Definition new_with_leaf_hash_and_schema (h : bytes) (count : Z) (schema : option bytes) (mn mx : option Z)
    (attrs : option bytes) : res PackLeafDescriptor :=
  _ ← validate_descriptor count attrs;
  mret {| logical_leaf_hash := h; d_count := count; d_schema := schema; d_min := mn; d_max := mx; d_attributes := attrs |}.

Definition new_with_leaf_hash (h : bytes) (count : Z) (mn mx : option Z) (attrs : option bytes) : res PackLeafDescriptor :=
  new_with_leaf_hash_and_schema h count None mn mx attrs.
End Descriptor.

Definition encode_into (d : PackLeafDescriptor) : res bytes :=
  schema ← push_len_prefixed (default [] (d_schema d));
  attrs ← push_len_prefixed (default [] (d_attributes d));
  mret (logical_leaf_hash d ++ to_le 8 (d_count d) ++ schema ++ push_bounds (d_min d) (d_max d) ++ attrs).

(** An empty byte string means absent. *)
Definition nonempty (b : bytes) : option bytes := if bool_decide (b = []) then None else Some b.

Definition decode_schema (b : bytes) : res (option bytes) :=
  if bool_decide (b = []) then Ok None else
  if bool_decide (length b = 32%nat) then Ok (Some b) else fail (SchemaLength (Z.of_nat (length b))).

Definition decode_from `{JsonParser} : Dec PackLeafDescriptor :=
  h ← take_hash;
  n ← take_u64;
  s ← take_len_prefixed;
  s ← lift (decode_schema s);
  o ← take_bounds;
  a ← take_len_prefixed;
  lift (new_with_leaf_hash_and_schema h n s o.1 o.2 (nonempty a)).

Definition encode_span (s : PackObjectSpan) : res bytes :=
  mret (object_hash s ++ to_le 8 (logical_start s) ++ to_le 8 (logical_end s)
        ++ to_le 8 (physical_start s) ++ to_le 8 (physical_end s)).

Definition take_span : Dec PackObjectSpan :=
  h ← take_hash; ls ← take_u64; le ← take_u64; ps ← take_u64; pe ← take_u64;
  lift (span_new h ls le ps pe).

(** * Span validation *)

(** The logical interval of each leaf, with its schema. *)
Fixpoint leaf_ranges (cursor : Z) (ds : list PackLeafDescriptor) : res (list (Z * Z * option bytes)) :=
  match ds with
  | [] => Ok []
  | d :: ds =>
      let stop := cursor + d_count d in
      if u64_max <? stop then fail CountOverflow else
      rest ← leaf_ranges stop ds;
      mret ((cursor, stop, d_schema d) :: rest)
  end.

(** The one fingerprint of the leaves a span meets. *)
Fixpoint span_fingerprint (index : Z) (s : PackObjectSpan) (fingerprint : option bytes)
    (ranges : list (Z * Z * option bytes)) : res (option bytes) :=
  match ranges with
  | [] => Ok fingerprint
  | (a, b, schema) :: ranges =>
      if (b <=? logical_start s) || (logical_end s <=? a) then span_fingerprint index s fingerprint ranges else
      match fingerprint with
      | Some existing =>
          if bool_decide (Some existing = schema) then span_fingerprint index s schema ranges
          else fail (SchemaTransition index)
      | None => span_fingerprint index s schema ranges
      end
  end.

(** The loop over the spans with its two cursors and the lengths by hash. *)
Fixpoint check_spans (all_file all_table : bool) (ranges : list (Z * Z * option bytes)) (index lcur pcur : Z)
    (lengths : gmap bytes Z) (spans : list PackObjectSpan) : res (Z * Z) :=
  match spans with
  | [] => Ok (lcur, pcur)
  | s :: spans =>
      if negb (logical_start s =? lcur) then fail (LogicalGap index) else
      if negb (physical_start s =? pcur) then fail (PhysicalGap index) else
      if (logical_end s <? logical_start s) || (physical_end s <? physical_start s) then fail (InvertedSpan index) else
      let llen := logical_end s - logical_start s in
      let plen := physical_end s - physical_start s in
      if (llen =? 0) || (plen =? 0) then fail (EmptySpan index) else
      if all_file && negb (llen =? plen) then fail (FileSpanLength index) else
      _ ← (if all_table : bool then
             fp ← span_fingerprint index s None ranges;
             match fp with None => fail (SpanWithoutLeaf index) | Some _ => Ok tt end
           else Ok tt);
      if match lengths !! object_hash s with Some previous => negb (previous =? plen) | None => false end
      then fail (ConflictingLength (object_hash s)) else
      check_spans all_file all_table ranges (index + 1) (logical_end s) (physical_end s)
        (<[object_hash s := plen]> lengths) spans
  end.

Definition validate_object_spans (spans : list PackObjectSpan) (ds : list PackLeafDescriptor) (logical physical : Z) : res unit :=
  let all_file := forallb (fun d => bool_decide (d_schema d = None)) ds in
  let all_table := forallb (fun d => negb (bool_decide (d_schema d = None))) ds in
  if negb all_file && negb all_table then fail MixedSchemas else
  ranges ← leaf_ranges 0 ds;
  '(lcur, pcur) ← check_spans all_file all_table ranges 0 0 0 ∅ spans;
  if negb (lcur =? logical) then fail (LogicalCover lcur logical) else
  if negb (pcur =? physical) then fail (PhysicalCover pcur physical) else
  Ok tt.

(** * Indexes *)

Record PackIndex := {
  series_hash : bytes;
  parent_series_hash : option bytes;
  leaf_start : Z;
  leaf_end : Z;
  total_leaf_count : Z;
  pack_root : bytes;
  pack_proof : RangeProof;
  object_spans : list PackObjectSpan;
  pack_count : Z;
  physical_byte_count : Z;
  leaf_descriptors : list PackLeafDescriptor;
}.

Definition physical_object_hashes (p : PackIndex) : list bytes := map object_hash (object_spans p).
Definition leaf_hashes (ds : list PackLeafDescriptor) : list bytes := map logical_leaf_hash ds.

Fixpoint sum_counts (acc : Z) (ds : list PackLeafDescriptor) : res Z :=
  match ds with
  | [] => Ok acc
  | d :: ds => if u64_max <? acc + d_count d then fail CountOverflow else sum_counts (acc + d_count d) ds
  end.

Section Pack.
Context `{Blake3} `{JsonParser}.

Definition pack_validate (start stop total : Z) (root : bytes) (proof : RangeProof) (spans : list PackObjectSpan)
    (ds : list PackLeafDescriptor) (logical physical : Z) : res unit :=
  if stop <=? start then fail (EmptyLeafRange start stop) else
  if total <? stop then fail (LeafRangeBeyond stop total) else
  if bool_decide (length spans = 0%nat) then fail NoObjects else
  if negb (Z.of_nat (length ds) =? stop - start) then fail (DescriptorCount (Z.of_nat (length ds)) (stop - start)) else
  sum ← sum_counts 0 ds;
  if negb (sum =? logical) then fail (CountSum sum logical) else
  computed ← verify_range_proof total start stop (leaf_hashes ds) proof;
  if negb (bool_decide (computed = root)) then fail RangeRootMismatch else
  _ ← validate_object_spans spans ds logical physical;
  validate_range_proof_shape proof total start stop.

Definition new_segment_with_spans (series : bytes) (parent : option bytes) (start stop total : Z) (root : bytes)
    (proof : RangeProof) (spans : list PackObjectSpan) (logical physical : Z) (ds : list PackLeafDescriptor) : res PackIndex :=
  if bool_decide (parent = Some series) then fail ParentIsSelf else
  _ ← pack_validate start stop total root proof spans ds logical physical;
  mret {| series_hash := series; parent_series_hash := parent; leaf_start := start; leaf_end := stop;
          total_leaf_count := total; pack_root := root; pack_proof := proof; object_spans := spans;
          pack_count := logical; physical_byte_count := physical; leaf_descriptors := ds |}.

Definition new_with_spans (series : bytes) := new_segment_with_spans series None.

Definition validate_series_segment (p : PackIndex) : res unit :=
  if negb (leaf_end p =? total_leaf_count p) then fail (SegmentEnd (total_leaf_count p) (leaf_end p)) else
  match parent_series_hash p with
  | None => if leaf_start p =? 0 then Ok tt else fail (RootSegmentStart (leaf_start p))
  | Some _ => if 0 <? leaf_start p then Ok tt else fail AppendSegmentStart
  end.

(** ** Wire form *)

Definition push_segment_parent (parent : option bytes) : bytes :=
  match parent with Some h => to_le 1 1 ++ h | None => to_le 1 0 end.

Definition take_segment_parent : Dec (option bytes) :=
  flag ← take_u8;
  if flag =? 0 then mret None else
  if flag =? 1 then h ← take_hash; mret (Some h) else lift (fail (ParentFlag flag)).

Definition pack_encode (p : PackIndex) : res bytes :=
  proof ← encode_range_proof (pack_proof p);
  proof ← push_len_prefixed proof;
  dcount ← push_count (length (leaf_descriptors p));
  ds ← omap_list encode_into (leaf_descriptors p);
  scount ← push_count (length (object_spans p));
  ss ← omap_list encode_span (object_spans p);
  mret (PACK_MAGIC ++ series_hash p ++ push_segment_parent (parent_series_hash p) ++ to_le 8 (leaf_start p)
        ++ to_le 8 (leaf_end p) ++ to_le 8 (total_leaf_count p) ++ pack_root p ++ proof
        ++ to_le 8 (pack_count p) ++ to_le 8 (physical_byte_count p)
        ++ dcount ++ concat ds ++ scount ++ concat ss).

Definition pack_hash (p : PackIndex) : res bytes := b ← pack_encode p; mret (of_bytes b).

(** A count and that many elements. *)
Definition take_counted {A} (d : Dec A) : Dec (list A) := n ← take_u32; take_many (Z.to_nat n) d.

(** The fields in the order they are read. *)
Definition pack_body : Dec PackIndex :=
  _ ← expect_tag PACK_MAGIC;
  series ← take_hash;
  parent ← take_segment_parent;
  start ← take_u64;
  stop ← take_u64;
  total ← take_u64;
  root ← take_hash;
  proof ← take_len_prefixed;
  proof ← lift (decode_range_proof proof total start stop);
  logical ← take_u64;
  physical ← take_u64;
  ds ← take_counted decode_from;
  spans ← take_counted take_span;
  mret {| series_hash := series; parent_series_hash := parent; leaf_start := start; leaf_end := stop;
          total_leaf_count := total; pack_root := root; pack_proof := proof; object_spans := spans;
          pack_count := logical; physical_byte_count := physical; leaf_descriptors := ds |}.

Definition pack_rebuild (p : PackIndex) : res PackIndex :=
  new_segment_with_spans (series_hash p) (parent_series_hash p) (leaf_start p) (leaf_end p) (total_leaf_count p)
    (pack_root p) (pack_proof p) (object_spans p) (pack_count p) (physical_byte_count p) (leaf_descriptors p).

Definition pack_decode (b : bytes) : res PackIndex := decode_strict pack_body pack_rebuild b.

(** ** Verification against a manifest *)

Definition effective_leaf_schema_fingerprint (m : SeriesManifest) (d : PackLeafDescriptor) : res (option bytes) :=
  match sm_kind m with
  | File => match d_schema d with Some _ => fail FileWithSchema | None => Ok None end
  | Table => match d_schema d with Some s => Ok (Some s) | None => fail TableWithoutSchema end
  end.

(** The loop over the descriptors with their index. *)
Fixpoint check_descriptors (m : SeriesManifest) (index : Z) (ds : list PackLeafDescriptor) : res unit :=
  match ds with
  | [] => Ok tt
  | d :: ds =>
      match effective_leaf_schema_fingerprint m d with
      | Ok _ => check_descriptors m (index + 1) ds
      | Err _ => fail (DescriptorIncompatible index)
      | Panic => Panic
      end
  end.

Fixpoint check_leaf_hashes (index : Z) (ds : list PackLeafDescriptor) (hashes : list bytes) : res unit :=
  match ds, hashes with
  | d :: ds, h :: hashes =>
      if negb (bool_decide (logical_leaf_hash d = h)) then fail (LeafHashMismatch index)
      else check_leaf_hashes (index + 1) ds hashes
  | _, _ => Ok tt
  end.

Definition verify_pack_against_manifest (manifest_hash : bytes) (m : SeriesManifest) (p : PackIndex)
    (range_leaf_hashes : list bytes) : res unit :=
  if negb (bool_decide (series_hash p = manifest_hash)) then fail SeriesMismatch else
  if negb (total_leaf_count p =? sm_leaf_count m) then fail (TotalMismatch (total_leaf_count p) (sm_leaf_count m)) else
  _ ← check_descriptors m 0 (leaf_descriptors p);
  if negb (Z.of_nat (length range_leaf_hashes) =? leaf_end p - leaf_start p)
  then fail (RecomputedCount (leaf_end p - leaf_start p) (Z.of_nat (length range_leaf_hashes))) else
  _ ← check_leaf_hashes 0 (leaf_descriptors p) range_leaf_hashes;
  computed ← verify_range_proof (total_leaf_count p) (leaf_start p) (leaf_end p) range_leaf_hashes (pack_proof p);
  if negb (bool_decide (computed = pack_root p)) then fail OwnRootMismatch else
  if negb (bool_decide (computed = leaf_merkle_root m)) then fail ManifestRootMismatch else
  Ok tt.

(** [min.map_or(value, |current| current.min(value))] over the present values. *)
Definition aggregate (f : Z -> Z -> Z) (acc v : option Z) : option Z :=
  match v with
  | Some v => Some (match acc with Some a => f a v | None => v end)
  | None => acc
  end.

Definition verify_complete_pack_against_manifest (manifest_hash : bytes) (m : SeriesManifest) (p : PackIndex) : res unit :=
  _ ← validate_series_segment p;
  if negb (bool_decide (parent_series_hash p = None)) || negb (leaf_start p =? 0)
     || negb (leaf_end p =? sm_leaf_count m) then fail NotWholeRange else
  let hashes := leaf_hashes (leaf_descriptors p) in
  _ ← verify_pack_against_manifest manifest_hash m p hashes;
  if negb (pack_count p =? sm_logical_count m) then fail (CompleteCount (pack_count p) (sm_logical_count m)) else
  let mn := fold_left (aggregate Z.min) (map d_min (leaf_descriptors p)) None in
  let mx := fold_left (aggregate Z.max) (map d_max (leaf_descriptors p)) None in
  if negb (bool_decide (mn = sm_min m)) || negb (bool_decide (mx = sm_max m)) then fail CompleteBounds else
  let attrs := match List.rev (leaf_descriptors p) with d :: _ => d_attributes d | [] => None end in
  if negb (bool_decide (attrs = sm_attributes m)) then fail CompleteAttributes else
  frontier ← from_leaves hashes;
  if negb (bool_decide (frontier = merkle_frontier m)) then fail CompleteFrontier else
  Ok tt.
End Pack.

(** * Canonical encoding *)

(** The invariants of the Rust field types. *)
Definition wf_descriptor (d : PackLeafDescriptor) : bool :=
  wf_hash (logical_leaf_hash d) && is_u64 (d_count d) && opt_all wf_hash (d_schema d)
  && opt_all is_i64 (d_min d) && opt_all is_i64 (d_max d).
Definition wf_span (s : PackObjectSpan) : bool :=
  wf_hash (object_hash s) && is_u64 (logical_start s) && is_u64 (logical_end s)
  && is_u64 (physical_start s) && is_u64 (physical_end s).
Definition wf_pack_index (p : PackIndex) : bool :=
  wf_hash (series_hash p) && opt_all wf_hash (parent_series_hash p)
  && is_u64 (leaf_start p) && is_u64 (leaf_end p) && is_u64 (total_leaf_count p)
  && wf_hash (pack_root p) && wf_proof (pack_proof p) && is_u64 (pack_count p)
  && is_u64 (physical_byte_count p) && forallb wf_descriptor (leaf_descriptors p)
  && forallb wf_span (object_spans p).

Section Codec.
Context `{Blake3} `{JsonParser}.

Definition ok_descriptor (d : PackLeafDescriptor) : bool :=
  wf_descriptor d && bool_decide (validate_descriptor (d_count d) (d_attributes d) = Ok tt).
Definition nonempty_span (s : PackObjectSpan) : bool :=
  (logical_start s <? logical_end s) && (physical_start s <? physical_end s).
Definition ok_span (s : PackObjectSpan) : bool := wf_span s && nonempty_span s.

(** What the private fields of an index guarantee. *)
Definition valid_pack (p : PackIndex) : Prop :=
  pack_rebuild p = Ok p
  /\ Forall (fun d => validate_descriptor (d_count d) (d_attributes d) = Ok tt) (leaf_descriptors p)
  /\ Forall (fun s => nonempty_span s = true) (object_spans p).

Lemma decode_schema_default s :
  opt_all wf_hash s = true -> decode_schema (default [] s) = Ok s.
Proof.
  destruct s as [h|]; [|done]. cbn [opt_all default]. unfold wf_hash. intros Hl%bool_decide_eq_true.
  unfold decode_schema. destruct h as [|c h]; [done|]. rewrite (bool_decide_false (c :: h = [])) by done.
  by rewrite (bool_decide_true (length (c :: h) = 32%nat)).
Qed.

Lemma decode_schema_Ok b s :
  decode_schema b = Ok s -> default [] s = b /\ opt_all wf_hash s = true.
Proof.
  unfold decode_schema. case_bool_decide as E; [by intros <-%Ok_inj|].
  case_bool_decide as El; [|done]. intros <-%Ok_inj. split; [done|]. by apply bool_decide_eq_true.
Qed.

Lemma nonempty_default a : a <> Some [] -> nonempty (default [] a) = a.
Proof. exact (default_attrs a). Qed.

Lemma default_nonempty b : default [] (nonempty b) = b.
Proof. unfold nonempty. by case_bool_decide. Qed.

Lemma descriptor_attrs n a : validate_descriptor n a = Ok tt -> a <> Some [].
Proof. unfold validate_descriptor. destruct (n =? 0); [done|]. by intros Hv ->. Qed.

Lemma decodes_descriptor d e :
  ok_descriptor d = true -> encode_into d = Ok e -> decodes decode_from e d.
Proof.
  unfold ok_descriptor, wf_descriptor. rewrite !andb_true_iff.
  intros [[[[[Hh Hn] Hs] Hmn] Hmx] Hv%bool_decide_eq_true] He. unfold encode_into in He. inv_ok.
  unfold decode_from. do 3 dec_step. eapply decodes_bind_lift; [by apply decode_schema_default|].
  eapply decodes_bind; [by apply decodes_bounds|]. cbn [fst snd]. eapply decodes_bind_nil; [eauto with wire|].
  apply decodes_lift. rewrite nonempty_default by (by eapply descriptor_attrs).
  unfold new_with_leaf_hash_and_schema. rewrite (bind_eq _ _ _ Hv). by destruct d.
Qed.

Lemma consumes_descriptor :
  consumes decode_from (fun d e => encode_into d = Ok e /\ ok_descriptor d = true).
Proof.
  eapply consumes_weaken.
  { unfold decode_from. do 4 con_step. apply consumes_bind; [apply consumes_bounds|]. intros o. con_step. apply consumes_lift. }
  intros d e (h & e1 & r1 & -> & [-> Hh] & n & e2 & r2 & -> & [-> Hn] & sb & e3 & r3 & -> & Hsb
    & s & e4 & r4 & -> & [Hs ->] & o & e5 & r5 & -> & (-> & Ho1 & Ho2) & a & e6 & r6 & -> & Ha & Hd & ->).
  unfold new_with_leaf_hash_and_schema in Hd. apply bind_Ok in Hd as ([] & Hv & <-%Ok_inj).
  apply decode_schema_Ok in Hs as [Es Hs]. unfold encode_into, ok_descriptor, wf_descriptor.
  cbn [logical_leaf_hash d_count d_schema d_min d_max d_attributes].
  rewrite Es, default_nonempty, Hsb, Ha, Hh, Hn, Hs, Ho1, Ho2, Hv, app_nil_r. done.
Qed.

Lemma span_new_Ok h ls le ps pe s :
  span_new h ls le ps pe = Ok s
  <-> s = {| object_hash := h; logical_start := ls; logical_end := le; physical_start := ps; physical_end := pe |}
      /\ nonempty_span s = true.
Proof.
  unfold span_new, nonempty_span. destruct (Z.leb_spec le ls); [|destruct (Z.leb_spec pe ps)].
  - split; [done|]. intros [-> Hs]. simpl in Hs. lia.
  - split; [done|]. intros [-> Hs]. simpl in Hs. lia.
  - split; [intros <-%Ok_inj|by intros [-> _]]. split; [done|]. simpl. lia.
Qed.

Lemma decodes_span s e : ok_span s = true -> encode_span s = Ok e -> decodes take_span e s.
Proof.
  unfold ok_span, wf_span. rewrite !andb_true_iff. intros [[[[[Hh H1] H2] H3] H4] Hne] <-%Ok_inj.
  unfold take_span. do 4 dec_step. eapply decodes_bind_nil; [eauto with wire|].
  apply decodes_lift, span_new_Ok. split; [by destruct s|done].
Qed.

Lemma consumes_span : consumes take_span (fun s e => encode_span s = Ok e /\ ok_span s = true).
Proof.
  eapply consumes_weaken.
  { unfold take_span. do 5 con_step. apply consumes_lift. }
  intros s e (h & e1 & r1 & -> & [-> Hh] & a & e2 & r2 & -> & [-> H1] & b & e3 & r3 & -> & [-> H2]
    & c & e4 & r4 & -> & [-> H3] & d & e5 & r5 & -> & [-> H4] & [-> Hne]%span_new_Ok & ->).
  unfold encode_span, ok_span, wf_span. cbn [object_hash logical_start logical_end physical_start physical_end].
  rewrite Hh, H1, H2, H3, H4, Hne, app_nil_r. done.
Qed.

Lemma decodes_segment_parent q : opt_all wf_hash q = true -> decodes take_segment_parent (push_segment_parent q) q.
Proof.
  intros Hq. destruct q as [h|]; cbn [push_segment_parent opt_all] in *; unfold take_segment_parent.
  - eapply decodes_bind; [by apply decodes_u8|]. cbn. eapply decodes_bind_nil; [eauto with wire|]. apply decodes_ret.
  - eapply decodes_bind_nil; [by apply decodes_u8|]. apply decodes_ret.
Qed.

Lemma consumes_segment_parent :
  consumes take_segment_parent (fun q e => e = push_segment_parent q /\ opt_all wf_hash q = true).
Proof.
  eapply consumes_weaken with (R := fun q e => exists flag e1 e2, e = e1 ++ e2 /\ (e1 = to_le 1 flag /\ is_u8 flag = true)
    /\ ((flag = 0 /\ q = None /\ e2 = []) \/ (flag = 1 /\ exists h, q = Some h /\ e2 = h /\ wf_hash h = true))).
  - unfold take_segment_parent. con_step. destruct (Z.eqb_spec a 0) as [->|].
    { eapply consumes_weaken; [apply consumes_ret|]. intros ? ? [-> ->]. by left. }
    destruct (Z.eqb_spec a 1) as [->|].
    { eapply consumes_weaken; [con_step; apply consumes_ret|]. intros ? ? (h & ? & ? & -> & [-> ?] & -> & ->).
      right. split; [done|]. exists h. by rewrite app_nil_r. }
    eapply consumes_weaken; [apply consumes_lift|]. by intros ? ? [? _].
  - intros q e (flag & e1 & e2 & -> & [-> _] & [(-> & -> & ->)|(-> & h & -> & -> & Hh)]); [done|].
    by split.
Qed.

Lemma decodes_counted {A} (d : Dec A) (enc : A -> res bytes) (P : A -> bool) xs c es :
  (forall x e, P x = true -> enc x = Ok e -> decodes d e x) ->
  forallb P xs = true -> push_count (length xs) = Ok c -> omap_list enc xs = Ok es ->
  decodes (take_counted d) (c ++ concat es) xs.
Proof.
  intros Hd HP Hc Hes. unfold take_counted. eapply decodes_bind; [by apply decodes_count|].
  rewrite Nat2Z.id. eapply (decodes_many_enc d enc (fun x => P x = true)); [done| |done].
  by apply forallb_Forall.
Qed.

Lemma forallb_and {A} (P Q : A -> bool) l :
  forallb (fun x => P x && Q x) l = forallb P l && forallb Q l.
Proof. induction l as [|x l IH]; simpl; [done|]. rewrite IH. by destruct (P x), (Q x), (forallb P l). Qed.

(** What [new_segment_with_spans] establishes of the range. *)
Lemma rebuild_inv p q :
  pack_rebuild p = Ok q ->
  q = p /\ parent_series_hash p <> Some (series_hash p)
  /\ pack_validate (leaf_start p) (leaf_end p) (total_leaf_count p) (pack_root p) (pack_proof p)
      (object_spans p) (leaf_descriptors p) (pack_count p) (physical_byte_count p) = Ok tt.
Proof.
  unfold pack_rebuild, new_segment_with_spans. case_bool_decide; [done|].
  intros ([] & Hv & <-%Ok_inj)%bind_Ok. by destruct p.
Qed.

Lemma pack_validate_inv start stop total root proof spans ds logical physical :
  pack_validate start stop total root proof spans ds logical physical = Ok tt ->
  start < stop /\ stop <= total /\ Z.of_nat (length ds) = stop - start
  /\ sum_counts 0 ds = Ok logical
  /\ verify_range_proof total start stop (leaf_hashes ds) proof = Ok root
  /\ validate_object_spans spans ds logical physical = Ok tt
  /\ validate_range_proof_shape proof total start stop = Ok tt.
Proof.
  unfold pack_validate. destruct (Z.leb_spec stop start); [done|]. destruct (Z.ltb_spec total stop); [done|].
  case_bool_decide; [done|]. destruct (Z.eqb_spec (Z.of_nat (length ds)) (stop - start)); [|done].
  intros (sum & Hsum & Hv)%bind_Ok. destruct (Z.eqb_spec sum logical) as [->|]; [|done].
  apply bind_Ok in Hv as (r & Hr & Hv). case_bool_decide as Er; [|done]. subst r.
  apply bind_Ok in Hv as ([] & Hs & Hv). done.
Qed.

#[local] Opaque encode_range_proof decode_range_proof.

Lemma decodes_pack_index p b :
  wf_pack_index p = true -> valid_pack p -> pack_encode p = Ok b -> decodes pack_body b p.
Proof.
  unfold wf_pack_index. rewrite !andb_true_iff.
  intros [[[[[[[[[[Hs Hq] H1] H2] H3] Hr] Hp] Hn] Hb] Hds] Hss] (Hre & Hvd & Hne) He.
  apply rebuild_inv in Hre as (_ & _ & (Hlt & Hle & _ & _ & _ & _ & Hsh)%pack_validate_inv).
  unfold pack_encode in He. inv_ok. unfold pack_body.
  dec_step. dec_step. eapply decodes_bind; [by apply decodes_segment_parent|]. do 5 dec_step.
  eapply decodes_bind_lift; [by apply range_proof_codec|]. do 2 dec_step.
  rewrite app_assoc. eapply decodes_bind.
  { eapply (decodes_counted _ encode_into ok_descriptor); [apply decodes_descriptor| |done|done].
    unfold ok_descriptor. rewrite forallb_and, Hds. apply forallb_Forall.
    eapply Forall_impl; [exact Hvd|]. intros d Hd. simpl. by apply bool_decide_eq_true. }
  eapply decodes_bind_nil.
  { eapply (decodes_counted _ encode_span ok_span); [apply decodes_span| |done|done].
    unfold ok_span. rewrite forallb_and, Hss. by apply forallb_Forall. }
  destruct p. apply decodes_ret.
Qed.

Lemma consumes_pack_index :
  consumes pack_body (fun p b => pack_encode p = Ok b /\ wf_pack_index p = true
    /\ Forall (fun d => validate_descriptor (d_count d) (d_attributes d) = Ok tt) (leaf_descriptors p)
    /\ Forall (fun s => nonempty_span s = true) (object_spans p)).
Proof.
  eapply consumes_weaken.
  - unfold pack_body. do 2 con_step. apply consumes_bind; [apply consumes_segment_parent|]. intros q. do 8 con_step.
    apply consumes_bind; [apply consumes_counted, consumes_descriptor|]. intros ds.
    apply consumes_bind; [apply consumes_counted, consumes_span|]. intros ss. apply consumes_ret.
  - intros p b ([] & e1 & r1 & -> & -> & s & e2 & r2 & -> & [-> Hs] & q & e3 & r3 & -> & [-> Hq]
      & x & e4 & r4 & -> & [-> H1] & y & e5 & r5 & -> & [-> H2] & t & e6 & r6 & -> & [-> H3]
      & r & e7 & r7 & -> & [-> Hr] & pb & e8 & r8 & -> & Hpb & pf & e9 & r9 & -> & [Hpf ->]
      & n & e10 & r10 & -> & [-> Hn] & m & e11 & r11 & -> & [-> Hm]
      & ds & e12 & r12 & -> & [Hds Hwd] & ss & e13 & r13 & -> & [Hss Hws] & -> & ->).
    apply range_proof_codec in Hpf as (_ & _ & _ & Hwp & Hpe).
    unfold ok_descriptor in Hwd. unfold ok_span in Hws. rewrite forallb_and in Hwd. rewrite forallb_and in Hws.
    apply andb_true_iff in Hwd as [Hwd Hvd%forallb_Forall]. apply andb_true_iff in Hws as [Hws Hne%forallb_Forall].
    unfold pack_encode, wf_pack_index. cbn [series_hash parent_series_hash leaf_start leaf_end total_leaf_count
      pack_root pack_proof object_spans pack_count physical_byte_count leaf_descriptors].
    split_and!; [|by rewrite Hs, Hq, H1, H2, H3, Hr, Hwp, Hn, Hm, Hwd, Hws| |done].
    + inv_ok. rewrite Hpe. cbn [mbind outcome_bind]. rewrite Hpb. cbn [mbind outcome_bind].
      do 4 erewrite bind_eq by eassumption. by rewrite app_nil_r, <- app_assoc.
    + eapply Forall_impl; [exact Hvd|]. intros d Hd. by apply bool_decide_eq_true in Hd.
Qed.

Lemma pack_decode_exact (b : bytes) (p : PackIndex) :
  pack_decode b = Ok p <-> wf_pack_index p = true /\ valid_pack p /\ pack_encode p = Ok b.
Proof.
  unfold pack_decode. split.
  - intros Hd. eapply decode_strict_inv in Hd as (q & HR & Hf); [|apply consumes_pack_index].
    destruct HR as (He & Hw & Hds & Hss).
    pose proof (rebuild_inv _ _ Hf) as (-> & _). done.
  - intros (Hw & Hv & He). rewrite (decode_strict_encoded _ _ _ p) by (by apply decodes_pack_index). apply Hv.
Qed.

(** C37: Pack indexes have a canonical strict encoding: decoding succeeds exactly on
    the encodings of valid indexes (a non-empty range in bounds, one validated
    descriptor per leaf, a proof of the canonical shape that folds to the
    declared root, spans that lay out both streams), and returns that index. *)
Theorem pack_codec (b : bytes) (p : PackIndex) :
  pack_decode b = Ok p <-> wf_pack_index p = true /\ valid_pack p /\ pack_encode p = Ok b.
Proof. apply pack_decode_exact. Qed.
End Codec.

(** * What verification establishes *)

Section Verification.
Context `{Blake3} `{JsonParser}.

Lemma check_leaf_hashes_Ok index ds hs :
  length ds = length hs -> check_leaf_hashes index ds hs = Ok tt -> leaf_hashes ds = hs.
Proof.
  revert index hs. induction ds as [|d ds IH]; intros index [|h hs] Hl Hc; try done.
  simpl in Hc. case_bool_decide as E; [|done]. simpl. rewrite E. f_equal.
  eapply IH; [by apply eq_add_S in Hl|exact Hc].
Qed.

Lemma check_descriptors_Ok m index ds :
  check_descriptors m index ds = Ok tt ->
  Forall (fun d => match sm_kind m with File => d_schema d = None | Table => d_schema d <> None end) ds.
Proof.
  revert index. induction ds as [|d ds IH]; intros index Hc; [done|]. simpl in Hc.
  unfold effective_leaf_schema_fingerprint in Hc. constructor; [by destruct (sm_kind m), (d_schema d)|].
  apply (IH (index + 1)). by destruct (sm_kind m), (d_schema d).
Qed.

Lemma verify_pack_inv h m p hs :
  verify_pack_against_manifest h m p hs = Ok tt ->
  series_hash p = h /\ total_leaf_count p = sm_leaf_count m
  /\ Forall (fun d => match sm_kind m with File => d_schema d = None | Table => d_schema d <> None end) (leaf_descriptors p)
  /\ Z.of_nat (length hs) = leaf_end p - leaf_start p
  /\ check_leaf_hashes 0 (leaf_descriptors p) hs = Ok tt
  /\ pack_root p = leaf_merkle_root m
  /\ verify_range_proof (total_leaf_count p) (leaf_start p) (leaf_end p) hs (pack_proof p) = Ok (leaf_merkle_root m).
Proof.
  unfold verify_pack_against_manifest. case_bool_decide; [|done].
  destruct (Z.eqb_spec (total_leaf_count p) (sm_leaf_count m)); [|done].
  intros ([] & Hd%check_descriptors_Ok & Hv)%bind_Ok.
  destruct (Z.eqb_spec (Z.of_nat (length hs)) (leaf_end p - leaf_start p)); [|done].
  apply bind_Ok in Hv as ([] & Hh & Hv). apply bind_Ok in Hv as (r & Hr & Hv).
  destruct (decide (r = pack_root p)) as [E1|E1]; [|by rewrite (bool_decide_false _ E1) in Hv].
  rewrite (bool_decide_true _ E1) in Hv. cbn [negb] in Hv.
  destruct (decide (r = leaf_merkle_root m)) as [E2|E2]; [|by rewrite (bool_decide_false _ E2) in Hv].
  split_and!; congruence.
Qed.

Lemma wf_proof_hashes p : wf_proof p = true -> Forall (fun n => wf_hash (pn_hash n) = true) (nodes p).
Proof.
  intros Hp%forallb_Forall. eapply Forall_impl; [exact Hp|]. intros n Hn. simpl in Hn. unfold wf_proof_node in Hn.
  by rewrite !andb_true_iff in Hn; destruct Hn as [_ ?].
Qed.

(** Within one list of inputs hashing is injective, or it collides. *)
Lemma collision_or_injective xs :
  (forall x y, x ∈ xs -> y ∈ xs -> blake3 x = blake3 y -> x = y) \/ blake_collision xs xs.
Proof.
  destruct (decide (Exists (fun x => Exists (fun y => x <> y /\ blake3 x = blake3 y) xs) xs)) as [Hx|Hx].
  { right. apply Exists_exists in Hx as (x & Hx & (y & Hy & Hne & He)%Exists_exists). exists x, y. split_and!; done. }
  left. intros x y Hi Hj E. destruct (decide (x = y)) as [|Hne]; [done|]. destruct Hx.
  apply Exists_exists. exists x. split; [done|]. apply Exists_exists. by exists y.
Qed.

(** The manifest is the one of a series of leaves. *)
Definition manifest_of (m : SeriesManifest) (leaves : list bytes) : Prop :=
  sm_leaf_count m = Z.of_nat (length leaves) /\ merkle_root leaves = Ok (leaf_merkle_root m).

Lemma range_binds leaves hs start stop proof root :
  Z.of_nat (length leaves) < 2 ^ 64 -> 0 <= start -> wf_proof proof = true ->
  merkle_root leaves = Ok root ->
  verify_range_proof (Z.of_nat (length leaves)) start stop hs proof = Ok root ->
  hs = take (Z.to_nat (stop - start)) (drop (Z.to_nat start) leaves)
  \/ blake_collision (range_inputs (Z.of_nat (length leaves)) start stop hs proof) (series_inputs leaves).
Proof.
  intros Hb Hs Hw%wf_proof_hashes Hroot Hv.
  destruct (from_leaves_of leaves Hb) as (f & He & Hfo). unfold merkle_root in Hroot.
  rewrite (bind_eq _ _ _ He) in Hroot. apply Ok_inj in Hroot.
  rewrite (frontier_root_of f leaves Hfo) in Hroot. subst root.
  apply verify_range_inv in Hv as (Hlt & Hle & El & Hf). unfold range_inputs. revert Hf.
  assert (DEPTH = S 64) as ED by reflexivity. revert ED. generalize DEPTH as depth. intros depth ED Hf.
  destruct (fold_sound_root leaves hs start stop (nodes proof) depth) as [(pos & _ & _ & Ha)|Hc];
    [lia..|done|done|done| |by right]. left. by apply agree_all.
Qed.

Lemma pack_binds (mh : bytes) (m : SeriesManifest) (p : PackIndex) (hashes leaves : list bytes) :
  Z.of_nat (length leaves) < 2 ^ 64 -> manifest_of m leaves ->
  wf_pack_index p = true -> valid_pack p ->
  verify_pack_against_manifest mh m p hashes = Ok tt ->
  (series_hash p = mh /\ 0 <= leaf_start p < leaf_end p /\ leaf_end p <= Z.of_nat (length leaves)
   /\ hashes = take (Z.to_nat (leaf_end p - leaf_start p)) (drop (Z.to_nat (leaf_start p)) leaves)
   /\ leaf_hashes (leaf_descriptors p) = hashes
   /\ Forall (fun d => match sm_kind m with File => d_schema d = None | Table => d_schema d <> None end)
        (leaf_descriptors p))
  \/ blake_collision
       (range_inputs (Z.of_nat (length leaves)) (leaf_start p) (leaf_end p) hashes (pack_proof p))
       (series_inputs leaves).
Proof.
  intros Hb [Hn Hroot] Hw (Hre & _ & _) Hv.
  apply rebuild_inv in Hre as (_ & _ & (Hlt & Hle & Hlen & _ & _ & _ & _)%pack_validate_inv).
  unfold wf_pack_index in Hw. rewrite !andb_true_iff in Hw. destruct Hw as [[[[[[[[[[_ _] H1] _] _] _] Hp] _] _] _] _].
  apply verify_pack_inv in Hv as (Hs & Ht & Hd & Hl & Hh & _ & Hv). unfold is_u64 in H1.
  rewrite Ht, Hn in Hv. destruct (range_binds leaves hashes (leaf_start p) (leaf_end p) _ _ Hb ltac:(lia) Hp Hroot Hv) as [E|Hc]; [left|by right].
  split_and!; [done|lia|lia|lia|done| |done]. eapply check_leaf_hashes_Ok; [|done]. apply Nat2Z.inj. congruence.
Qed.

(** C24: A pack accepted against the manifest of a series holds exactly the leaves of
    its range of that series: the recomputed leaf hashes, and the hashes its
    descriptors declare, are the series' leaves from [leaf_start] to [leaf_end],
    and its descriptors carry a schema exactly when the series is a table, or
    the run exhibits a BLAKE3 collision. *)
Theorem pack_binds_series (mh : bytes) (m : SeriesManifest) (p : PackIndex) (hashes leaves : list bytes) :
  Z.of_nat (length leaves) < 2 ^ 64 -> manifest_of m leaves ->
  wf_pack_index p = true -> valid_pack p ->
  verify_pack_against_manifest mh m p hashes = Ok tt ->
  (series_hash p = mh /\ 0 <= leaf_start p < leaf_end p /\ leaf_end p <= Z.of_nat (length leaves)
   /\ hashes = take (Z.to_nat (leaf_end p - leaf_start p)) (drop (Z.to_nat (leaf_start p)) leaves)
   /\ leaf_hashes (leaf_descriptors p) = hashes
   /\ Forall (fun d => match sm_kind m with File => d_schema d = None | Table => d_schema d <> None end)
        (leaf_descriptors p))
  \/ blake_collision
       (range_inputs (Z.of_nat (length leaves)) (leaf_start p) (leaf_end p) hashes (pack_proof p))
       (series_inputs leaves).
Proof. apply pack_binds. Qed.
End Verification.

(** * Witness *)

(** Leaves 2 to 5 of a seven-leaf file series, in one object. *)
Definition ex_part_manifest : SeriesManifest :=
  {| sm_kind := File; sm_logical_count := 70; sm_leaf_count := 7; sm_min := None; sm_max := None;
     sm_attributes := None; leaf_merkle_root := ex_series_root 7;
     merkle_frontier := unwrap_or frontier_empty (@from_leaves mix_blake3 (ex_leaves 7)) |}.
Definition ex_part_pack : PackIndex :=
  {| series_hash := to_le 32 77; parent_series_hash := Some (to_le 32 76); leaf_start := 2; leaf_end := 5;
     total_leaf_count := 7; pack_root := ex_series_root 7; pack_proof := ex_proof 7 2 5;
     object_spans := [{| object_hash := to_le 32 100; logical_start := 0; logical_end := 30; physical_start := 0;
                         physical_end := 30 |}];
     pack_count := 30; physical_byte_count := 30;
     leaf_descriptors := map (fun h => {| logical_leaf_hash := h; d_count := 10; d_schema := None; d_min := None;
                                          d_max := None; d_attributes := None |}) (firstn 3 (skipn 2 (ex_leaves 7))) |}.

Lemma pack_binds_series_witness :
  (series_hash ex_part_pack = to_le 32 77 /\ 0 <= 2 < 5 /\ 5 <= Z.of_nat (length (ex_leaves 7))
   /\ firstn 3 (skipn 2 (ex_leaves 7)) = take 3 (drop 2 (ex_leaves 7))
   /\ leaf_hashes (leaf_descriptors ex_part_pack) = firstn 3 (skipn 2 (ex_leaves 7))
   /\ Forall (fun d => d_schema d = None) (leaf_descriptors ex_part_pack))
  \/ @blake_collision mix_blake3
       (@range_inputs mix_blake3 (Z.of_nat (length (ex_leaves 7))) 2 5 (firstn 3 (skipn 2 (ex_leaves 7))) (ex_proof 7 2 5))
       (@series_inputs mix_blake3 (ex_leaves 7)).
Proof.
  refine (@pack_binds_series mix_blake3 no_json (to_le 32 77) ex_part_manifest ex_part_pack
            (firstn 3 (skipn 2 (ex_leaves 7))) (ex_leaves 7) _ _ _ _ _).
  - vm_compute. reflexivity.
  - split; vm_compute; reflexivity.
  - vm_compute. reflexivity.
  - split_and!; [vm_compute; reflexivity|repeat constructor..].
  - vm_compute. reflexivity.
Defined.
