(* ===== verification/PackLayout.v ===== *)
(** What the validation of a pack's object spans establishes: the layout
    contract of [validate_object_spans] ([content/series_pack.rs]), stated apart
    from the cursors and tables of the loop, and the proof that the loop decides
    it. *)

From stdpp Require Import base list numbers gmap sets sorting strings options.
From Stdlib Require Import ZArith Lia.
From S2P Require Import Prelude RustStd Wire CanonicalJson MerkleTree SeriesMerkle SeriesLeaf SeriesManifest SeriesPack.

Open Scope Z_scope.

(** * The contract *)

(** The units of a run of leaves. *)
Fixpoint units (ds : list PackLeafDescriptor) : Z :=
  match ds with [] => 0 | d :: ds => d_count d + units ds end.

(** Leaf [i] shares a logical position with the span. *)
Definition leaf_meets (s : PackObjectSpan) (ds : list PackLeafDescriptor) (i : nat) : Prop :=
  units (take i ds) < logical_end s /\ logical_start s < units (take (S i) ds).

(** Consecutive non-empty spans from the two cursors to the two ends. *)
Fixpoint spans_tile (lcur pcur : Z) (spans : list PackObjectSpan) (logical physical : Z) : Prop :=
  match spans with
  | [] => lcur = logical /\ pcur = physical
  | s :: spans =>
      logical_start s = lcur /\ physical_start s = pcur /\ lcur < logical_end s /\ pcur < physical_end s
      /\ spans_tile (logical_end s) (physical_end s) spans logical physical
  end.

Definition file_leaves (ds : list PackLeafDescriptor) : Prop := Forall (fun d => d_schema d = None) ds.
Definition table_leaves (ds : list PackLeafDescriptor) : Prop := Forall (fun d => d_schema d <> None) ds.

Definition equal_lengths (s : PackObjectSpan) : Prop := logical_end s - logical_start s = physical_len s.

(** Some leaf leaf_meets the span, and all that do carry one fingerprint. *)
Definition one_schema (ds : list PackLeafDescriptor) (s : PackObjectSpan) : Prop :=
  exists fp, (exists i, (i < length ds)%nat /\ leaf_meets s ds i)
    /\ forall i d, ds !! i = Some d -> leaf_meets s ds i -> d_schema d = Some fp.

(** An object has one length wherever it is used. *)
Definition lengths_agree (spans : list PackObjectSpan) : Prop :=
  forall s s', s ∈ spans -> s' ∈ spans -> object_hash s = object_hash s' -> physical_len s = physical_len s'.

Definition layout (spans : list PackObjectSpan) (ds : list PackLeafDescriptor) (logical physical : Z) : Prop :=
  (file_leaves ds \/ table_leaves ds) /\ units ds <= u64_max
  /\ spans_tile 0 0 spans logical physical
  /\ (file_leaves ds -> Forall equal_lengths spans)
  /\ (table_leaves ds -> Forall (one_schema ds) spans)
  /\ lengths_agree spans.

(** * The leaf intervals *)

Fixpoint intervals (c : Z) (ds : list PackLeafDescriptor) : list (Z * Z * option bytes) :=
  match ds with [] => [] | d :: ds => (c, c + d_count d, d_schema d) :: intervals (c + d_count d) ds end.

Definition counts_ok (ds : list PackLeafDescriptor) : Prop := Forall (fun d => 0 <= d_count d) ds.

Lemma units_nonneg ds : counts_ok ds -> 0 <= units ds.
Proof. induction 1; simpl; lia. Qed.

Lemma leaf_ranges_Ok c ds rs :
  counts_ok ds -> c <= u64_max ->
  leaf_ranges c ds = Ok rs <-> rs = intervals c ds /\ c + units ds <= u64_max.
Proof.
  intros Hd. revert c rs. induction Hd as [|d ds Hd Hds IH]; intros c rs Hc; simpl.
  { split; [intros <-%Ok_inj; split; [done|lia]|intros [-> _]; done]. }
  pose proof (units_nonneg ds Hds). destruct (Z.ltb_spec u64_max (c + d_count d)) as [Hlt|Hle].
  { split; [done|lia]. }
  split.
  - intros (rest & Hr & <-%Ok_inj)%bind_Ok. apply IH in Hr as [-> ?]; [|lia]. split; [done|lia].
  - intros [-> Hb]. rewrite (bind_eq _ _ (intervals (c + d_count d) ds)); [done|]. apply IH; [lia|]. split; [done|lia].
Qed.

Lemma intervals_lookup c ds i a b sch :
  intervals c ds !! i = Some (a, b, sch)
  <-> exists d, ds !! i = Some d /\ a = c + units (take i ds) /\ b = c + units (take (S i) ds) /\ sch = d_schema d.
Proof.
  revert c i. induction ds as [|d ds IH]; intros c i; [naive_solver|].
  destruct i as [|i]; simpl.
  { split; [intros [= <- <- <-]; exists d; split_and!; [done|lia|lia|done]|].
    intros (? & [= ->] & -> & -> & ->). repeat f_equal; lia. }
  rewrite IH. simpl. split; intros (d' & ? & -> & -> & ->); exists d'; split_and!; (done || lia).
Qed.

Definition range_meets (s : PackObjectSpan) (r : Z * Z * option bytes) : Prop :=
  r.1.1 < logical_end s /\ logical_start s < r.1.2.

Lemma fingerprint_fixed index s e ranges r :
  span_fingerprint index s (Some e) ranges = Ok r
  <-> r = Some e /\ Forall (fun x => range_meets s x -> x.2 = Some e) ranges.
Proof.
  induction ranges as [|[[a b] sch] ranges IH]; simpl.
  { split; [by intros <-%Ok_inj|by intros [-> _]]. }
  rewrite Forall_cons. unfold range_meets at 1. simpl.
  destruct (Z.leb_spec b (logical_start s)); simpl; [rewrite IH; intuition lia|].
  destruct (Z.leb_spec (logical_end s) a); simpl; [rewrite IH; intuition lia|].
  case_bool_decide as E; [subst sch; rewrite IH; intuition lia|].
  split; [done|]. intros (_ & Hx & _). by rewrite Hx in E by lia.
Qed.

Lemma fingerprint_spec index s ranges fp :
  Forall (fun x => x.2 <> None) ranges ->
  span_fingerprint index s None ranges = Ok (Some fp)
  <-> Exists (range_meets s) ranges /\ Forall (fun x => range_meets s x -> x.2 = Some fp) ranges.
Proof.
  induction 1 as [|[[a b] sch] ranges Hn Hns IH]; simpl.
  { rewrite Exists_nil. split; [discriminate|by intros [[] _]]. }
  simpl in Hn. rewrite Forall_cons, Exists_cons. unfold range_meets at 1 3. simpl.
  destruct (Z.leb_spec b (logical_start s)); simpl; [rewrite IH; intuition lia|].
  destruct (Z.leb_spec (logical_end s) a); simpl; [rewrite IH; intuition lia|].
  destruct sch as [e|]; [|done]. rewrite fingerprint_fixed.
  split; [intros [[= ->] Hf]; split_and!; [left; lia|done|done]|].
  intros (_ & He & Hf). assert (e = fp) as -> by (by injection (He ltac:(split; lia))). by split.
Qed.

Lemma one_schema_spec index s ds :
  table_leaves ds ->
  (exists fp, span_fingerprint index s None (intervals 0 ds) = Ok (Some fp)) <-> one_schema ds s.
Proof.
  intros Ht. assert (Forall (fun x => x.2 <> None) (intervals 0 ds)) as Hn.
  { apply Forall_lookup. intros i [[a b] sch] (d & Hd & _ & _ & ->)%intervals_lookup.
    exact (Forall_lookup_1 _ _ _ _ Ht Hd). }
  assert (forall i d, ds !! i = Some d ->
    intervals 0 ds !! i = Some (units (take i ds), units (take (S i) ds), d_schema d)) as Hl.
  { intros i d Hd. apply intervals_lookup. exists d. split_and!; (done || lia). }
  unfold one_schema. split; intros (fp & Hfp); exists fp; [apply fingerprint_spec in Hfp as [He Hf]; [|done]|
    apply fingerprint_spec; [done|]; destruct Hfp as [(i & Hi & Hm) Hf]]; split.
  - apply Exists_exists in He as ([[a b] sch] & [i Hi]%list_elem_of_lookup_1 & Hm).
    apply intervals_lookup in Hi as (d & Hd & -> & -> & ->). exists i. split; [by eapply lookup_lt_Some|].
    unfold range_meets in Hm. unfold leaf_meets. simpl in Hm. lia.
  - intros i d Hd Hm. apply (Forall_lookup_1 _ _ _ _ Hf (Hl i d Hd)), Hm.
  - destruct (lookup_lt_is_Some_2 ds i Hi) as [d Hd]. apply Exists_exists. eexists.
    split; [eapply list_elem_of_lookup_2, (Hl i d Hd)|exact Hm].
  - apply Forall_lookup. intros i' [[a b] sch] (d & Hd & -> & -> & ->)%intervals_lookup Hm'.
    apply (Hf i' d Hd). unfold range_meets in Hm'. unfold leaf_meets. simpl in Hm'. lia.
Qed.

(** * The loop over the spans *)

(** The lengths recorded so far, and no two spans that disagree. *)
Definition lengths_ok (lengths : gmap bytes Z) (spans : list PackObjectSpan) : Prop :=
  lengths_agree spans /\ forall s n, s ∈ spans -> lengths !! object_hash s = Some n -> physical_len s = n.

Lemma lengths_ok_cons lengths s spans :
  lengths_ok lengths (s :: spans)
  <-> (forall n, lengths !! object_hash s = Some n -> n = physical_len s)
      /\ lengths_ok (<[object_hash s := physical_len s]> lengths) spans.
Proof.
  unfold lengths_ok, lengths_agree. setoid_rewrite elem_of_cons. split.
  - intros [Ha Hl]. split_and!; [intros n Hn; symmetry; eapply Hl; eauto|by eauto|].
    intros s' n Hs' Hn. destruct (decide (object_hash s = object_hash s')) as [E|E].
    + rewrite E, lookup_insert_eq in Hn. injection Hn as <-. symmetry. eauto.
    + rewrite lookup_insert_ne in Hn by done. eauto.
  - intros (Hs & Ha & Hl).
    assert (forall s', s' ∈ spans -> object_hash s = object_hash s' -> physical_len s' = physical_len s) as Hx.
    { intros s' Hs' E. apply (Hl s'); [done|]. by rewrite E, lookup_insert_eq. }
    split.
    + intros s1 s2 [->|H1] [->|H2] E; [done|symmetry; by apply Hx|by apply Hx|by apply Ha].
    + intros s' n [->|Hs'] Hn; [symmetry; by apply Hs|].
      destruct (decide (object_hash s = object_hash s')) as [E|E].
      * rewrite (Hx s' Hs' E). symmetry. apply Hs. by rewrite E.
      * apply (Hl s' n Hs'). by rewrite lookup_insert_ne.
Qed.

Lemma check_spans_Ok (af tbl : bool) ds L P spans :
  (tbl = true -> table_leaves ds) -> forall index l p lengths,
  check_spans af tbl (intervals 0 ds) index l p lengths spans = Ok (L, P)
  <-> spans_tile l p spans L P /\ (af = true -> Forall equal_lengths spans)
      /\ (tbl = true -> Forall (one_schema ds) spans) /\ lengths_ok lengths spans.
Proof.
  intros Ht. induction spans as [|s spans IH]; intros index l p lengths.
  { cbn [check_spans spans_tile]. split.
    - intros [= -> ->]. split_and!; [done..|]. split; [by intros ? ? ?%elem_of_nil|by intros ? ? ?%elem_of_nil].
    - intros ([-> ->] & _). done. }
  cbn [check_spans spans_tile]. rewrite !Forall_cons, lengths_ok_cons. unfold equal_lengths at 1, physical_len at 1 2.
  destruct (Z.eqb_spec (logical_start s) l) as [El|]; cbn [negb]; [|split; [done|lia]].
  destruct (Z.eqb_spec (physical_start s) p) as [Ep|]; cbn [negb]; [|split; [done|lia]].
  destruct (Z.ltb_spec (logical_end s) (logical_start s)); cbn [orb]; [split; [done|lia]|].
  destruct (Z.ltb_spec (physical_end s) (physical_start s)); cbn [orb]; [split; [done|lia]|].
  destruct (Z.eqb_spec (logical_end s - logical_start s) 0); cbn [orb]; [split; [done|lia]|].
  destruct (Z.eqb_spec (physical_end s - physical_start s) 0); cbn [orb]; [split; [done|lia]|].
  destruct (af && negb (logical_end s - logical_start s =? physical_end s - physical_start s)) eqn:Eaf.
  { apply andb_true_iff in Eaf as [-> Hne%negb_true_iff%Z.eqb_neq]. split; [done|]. intros (_ & Hf & _).
    by destruct (Hf eq_refl). }
  assert (af = true -> logical_end s - logical_start s = physical_end s - physical_start s) as Haf.
  { intros ->. simpl in Eaf. by apply negb_false_iff, Z.eqb_eq in Eaf. }
  transitivity ((tbl = true -> one_schema ds s)
    /\ (if match lengths !! object_hash s with
           | Some previous => negb (previous =? physical_end s - physical_start s) | None => false end
        then fail (ConflictingLength (object_hash s))
        else check_spans af tbl (intervals 0 ds) (index + 1) (logical_end s) (physical_end s)
               (<[object_hash s:=physical_end s - physical_start s]> lengths) spans) = Ok (L, P)).
  { destruct tbl; [|cbn [mbind outcome_bind]; split; [by intros ?; split|by intros [_ ?]]]. rewrite <- (one_schema_spec index s ds) by auto.
    destruct (span_fingerprint index s None (intervals 0 ds)) as [[fp|]| |]; cbn [mbind outcome_bind].
    - split; [intros Hx; split; [eauto|done]|by intros [_ Hx]].
    - split; [done|]. intros [Hx _]. by destruct (Hx eq_refl).
    - split; [done|]. intros [Hx _]. by destruct (Hx eq_refl).
    - split; [done|]. intros [Hx _]. by destruct (Hx eq_refl). }
  destruct (lengths !! object_hash s) as [prev|] eqn:Eprev.
  - destruct (Z.eqb_spec prev (physical_end s - physical_start s)) as [->|Hne]; cbn [negb].
    + rewrite IH. unfold physical_len. split; [intros (? & ? & ? & ? & ?)|intuition].
      split_and!; try done; try lia; try (by auto). intros m [= <-]. done.
    + split; [by intros [_ ?]|]. intros (_ & _ & _ & Hm & _). by destruct (Hne (Hm prev eq_refl)).
  - rewrite IH. unfold physical_len. split; [intros (? & ? & ? & ? & ?)|intuition].
    split_and!; try done; try lia; by auto.
Qed.

Lemma all_file_spec ds : forallb (fun d => bool_decide (d_schema d = None)) ds = true <-> file_leaves ds.
Proof. rewrite forallb_Forall. unfold file_leaves. by setoid_rewrite bool_decide_eq_true. Qed.

Lemma all_table_spec ds : forallb (fun d => negb (bool_decide (d_schema d = None))) ds = true <-> table_leaves ds.
Proof. rewrite forallb_Forall. unfold table_leaves. by setoid_rewrite negb_true_iff; setoid_rewrite bool_decide_eq_false. Qed.

Lemma layout_decides (spans : list PackObjectSpan) (ds : list PackLeafDescriptor)
    (logical physical : Z) :
  Forall (fun d => is_u64 (d_count d) = true) ds ->
  validate_object_spans spans ds logical physical = Ok tt <-> layout spans ds logical physical.
Proof.
  intros Hw. assert (counts_ok ds) as Hc.
  { eapply Forall_impl; [exact Hw|]. intros d Hd. unfold is_u64 in Hd. simpl. lia. }
  unfold validate_object_spans, layout. rewrite <- all_file_spec, <- all_table_spec.
  assert (forallb (fun d => negb (bool_decide (d_schema d = None))) ds = true -> table_leaves ds) as Ht by apply all_table_spec.
  revert Ht. generalize (forallb (fun d => bool_decide (d_schema d = None)) ds) as af.
  generalize (forallb (fun d => negb (bool_decide (d_schema d = None))) ds) as tbl. intros tbl af Ht.
  destruct (negb af && negb tbl) eqn:E; [split; [done|]; destruct af, tbl; naive_solver|].
  assert (af = true \/ tbl = true) as Hor by (destruct af, tbl; auto). split.
  - intros (rs & Hrs & (L & P & Hck & Hend)%bind_pair_Ok)%bind_Ok.
    apply leaf_ranges_Ok in Hrs as [-> Hu]; [|done|by unfold u64_max].
    destruct (Z.eqb_spec L logical) as [->|]; [|done]. destruct (Z.eqb_spec P physical) as [->|]; [|done].
    apply (check_spans_Ok af tbl ds) in Hck as (? & ? & ? & ? & _); [|done]. done.
  - intros (_ & Hu & Hs & Hf & Hta & Hl). rewrite (bind_eq _ _ (intervals 0 ds)) by (by apply leaf_ranges_Ok).
    rewrite (bind_eq _ _ (logical, physical)).
    + by rewrite !Z.eqb_refl.
    + apply check_spans_Ok; [done|]. split_and!; [done..|]. split; [done|]. intros s n _. by rewrite lookup_empty.
Qed.

(** The validation of the spans decides the layout contract: it accepts exactly
    the span lists that cut the logical and the physical stream into consecutive
    non-empty pieces, with equal lengths for files, one schema fingerprint per
    span for tables, and one length per object. *)
Theorem validate_object_spans_exact (spans : list PackObjectSpan) (ds : list PackLeafDescriptor)
    (logical physical : Z) :
  Forall (fun d => is_u64 (d_count d) = true) ds ->
  validate_object_spans spans ds logical physical = Ok tt <-> layout spans ds logical physical.
Proof. apply layout_decides. Qed.

(** * Complete packs *)

Lemma sum_counts_units acc ds s : sum_counts acc ds = Ok s -> s = acc + units ds.
Proof.
  revert acc. induction ds as [|d ds IH]; intros acc; simpl; [intros <-%Ok_inj; lia|].
  destruct (Z.ltb_spec u64_max (acc + d_count d)); [done|]. intros ->%IH. lia.
Qed.

(** [v] is the extreme of the present values under the order [le]. *)
Definition extreme_of (le : Z -> Z -> Prop) (l : list (option Z)) (v : option Z) : Prop :=
  match v with
  | None => forall x, Some x ∉ l
  | Some v => Some v ∈ l /\ forall x, Some x ∈ l -> le v x
  end.

Lemma aggregate_extreme f (le : Z -> Z -> Prop) l acc pre :
  (forall x y, (f x y = x /\ le x y) \/ (f x y = y /\ le y x)) -> PreOrder le ->
  extreme_of le pre acc -> extreme_of le (pre ++ l) (fold_left (aggregate f) l acc).
Proof.
  intros Hf Hle. revert acc pre. induction l as [|v l IH]; intros acc pre Hacc; [by rewrite app_nil_r|].
  rewrite cons_middle, app_assoc. apply IH. destruct v as [v|], acc as [a|]; cbn [aggregate extreme_of] in *.
  - destruct Hacc as [Ha Hl]. setoid_rewrite elem_of_app. setoid_rewrite list_elem_of_singleton.
    destruct (Hf a v) as [[-> Hav]|[-> Hva]].
    + split; [by left|]. intros x [Hx|[= ->]]; [by apply Hl|done].
    + split; [by right|]. intros x [Hx|[= ->]]; [|reflexivity]. etrans; [exact Hva|by apply Hl].
  - setoid_rewrite elem_of_app. setoid_rewrite list_elem_of_singleton.
    split; [by right|]. intros x [Hx|[= ->]]; [by destruct (Hacc x)|reflexivity].
  - destruct Hacc as [Ha Hl]. setoid_rewrite elem_of_app. setoid_rewrite list_elem_of_singleton.
    split; [by left|]. intros x [Hx|?]; [by apply Hl|done].
  - intros x [Hx|Hx%list_elem_of_singleton]%elem_of_app; [by destruct (Hacc x)|done].
Qed.

Lemma aggregate_min l : extreme_of Z.le l (fold_left (aggregate Z.min) l None).
Proof.
  apply (aggregate_extreme Z.min Z.le l None []); [|split; red; lia|by intros x ?%elem_of_nil]. intros x y. lia.
Qed.

Lemma aggregate_max l : extreme_of Z.ge l (fold_left (aggregate Z.max) l None).
Proof.
  apply (aggregate_extreme Z.max Z.ge l None []); [|split; red; lia|by intros x ?%elem_of_nil]. intros x y. lia.
Qed.

Section Complete.
Context `{Blake3} `{JsonParser}.

#[local] Opaque verify_pack_against_manifest validate_series_segment from_leaves.

Lemma verify_complete_inv mh m p :
  verify_complete_pack_against_manifest mh m p = Ok tt ->
  parent_series_hash p = None /\ leaf_start p = 0 /\ leaf_end p = sm_leaf_count m
  /\ verify_pack_against_manifest mh m p (leaf_hashes (leaf_descriptors p)) = Ok tt
  /\ pack_count p = sm_logical_count m
  /\ sm_min m = fold_left (aggregate Z.min) (map d_min (leaf_descriptors p)) None
  /\ sm_max m = fold_left (aggregate Z.max) (map d_max (leaf_descriptors p)) None
  /\ sm_attributes m = last (leaf_descriptors p) ≫= d_attributes
  /\ from_leaves (leaf_hashes (leaf_descriptors p)) = Ok (merkle_frontier m).
Proof.
  unfold verify_complete_pack_against_manifest. intros ([] & _ & Hv)%bind_Ok.
  case_bool_decide as Eq; [|done]. destruct (Z.eqb_spec (leaf_start p) 0); [|done].
  destruct (Z.eqb_spec (leaf_end p) (sm_leaf_count m)); [|done]. cbn [negb orb] in Hv.
  apply bind_Ok in Hv as ([] & Hp & Hv). destruct (Z.eqb_spec (pack_count p) (sm_logical_count m)); [|done].
  cbn [negb] in Hv. revert Hv. case_bool_decide as Emn; [|done]. case_bool_decide as Emx; [|done]. cbn [negb orb].
  case_bool_decide as Ea; [|done]. cbn [negb]. intros (f & Hf & Hv)%bind_Ok.
  destruct (decide (f = merkle_frontier m)) as [E|E]; [|by rewrite (bool_decide_false _ E) in Hv].
  split_and!; try congruence. rewrite <- Ea. clear.
  induction (leaf_descriptors p) as [|d l _] using rev_ind; [done|]. by rewrite rev_app_distr, last_snoc.
Qed.

(** A pack accepted as the complete one of a series restores it: its
    descriptors are all the leaves of the series in order, its objects lay out
    exactly the logical units the manifest declares, the manifest's event bounds
    are the least and the greatest of the descriptors' and its attributes those
    of the last leaf, or the run exhibits a BLAKE3 collision. *)
Theorem complete_pack_restores (mh : bytes) (m : SeriesManifest) (p : PackIndex) (leaves : list bytes) :
  Z.of_nat (length leaves) < 2 ^ 64 -> manifest_of m leaves ->
  wf_pack_index p = true -> valid_pack p ->
  verify_complete_pack_against_manifest mh m p = Ok tt ->
  (leaf_hashes (leaf_descriptors p) = leaves
   /\ units (leaf_descriptors p) = sm_logical_count m
   /\ layout (object_spans p) (leaf_descriptors p) (sm_logical_count m) (physical_byte_count p)
   /\ extreme_of Z.le (map d_min (leaf_descriptors p)) (sm_min m)
   /\ extreme_of Z.ge (map d_max (leaf_descriptors p)) (sm_max m)
   /\ sm_attributes m = last (leaf_descriptors p) ≫= d_attributes)
  \/ blake_collision
       (range_inputs (Z.of_nat (length leaves)) 0 (Z.of_nat (length leaves))
          (leaf_hashes (leaf_descriptors p)) (pack_proof p))
       (series_inputs leaves).
Proof.
  intros Hb [Hn Hroot] Hw (Hre & _ & _) Hc.
  apply rebuild_inv in Hre as (_ & _ & (_ & _ & Hlen & Hsum & _ & Hsp & _)%pack_validate_inv).
  apply verify_complete_inv in Hc as (_ & Es & Ee & Hv & Ecount & Hmn & Hmx & Ha & _).
  apply verify_pack_inv in Hv as (_ & Ht & _ & Hl & _ & _ & Hv). rewrite Ht, Hn, Es, Ee, Hn in Hv.
  unfold wf_pack_index in Hw. rewrite !andb_true_iff in Hw. destruct Hw as [[[[[_ Hp] _] _] Hds] _].
  destruct (range_binds leaves _ 0 _ _ _ Hb ltac:(lia) Hp Hroot Hv) as [E|Hc]; [left|by right].
  rewrite Z.sub_0_r, Nat2Z.id, firstn_all in E. rewrite Ecount in *.
  split_and!; [done|by apply sum_counts_units in Hsum| | | |done].
  - apply layout_decides; [|done]. apply forallb_Forall in Hds. eapply Forall_impl; [exact Hds|].
    intros d Hd. unfold wf_descriptor in Hd. simpl in Hd. rewrite !andb_true_iff in Hd. by destruct Hd as [[[[_ ?] _] _] _].
  - rewrite Hmn. apply aggregate_min.
  - rewrite Hmx. apply aggregate_max.
Qed.
End Complete.

(** * Witnesses *)

Definition ex_descriptor (i : nat) (n : Z) (mn : option Z) : PackLeafDescriptor :=
  {| logical_leaf_hash := to_le 32 (Z.of_nat i); d_count := n; d_schema := None; d_min := mn; d_max := None;
     d_attributes := None |}.
Definition ex_descriptors : list PackLeafDescriptor :=
  [ex_descriptor 0 3 (Some 8); ex_descriptor 1 3 None; ex_descriptor 2 3 (Some 3); ex_descriptor 3 4 None;
   ex_descriptor 4 4 None].
Definition ex_span (h : Z) (a b : Z) : PackObjectSpan :=
  {| object_hash := to_le 32 h; logical_start := a; logical_end := b; physical_start := a; physical_end := b |}.
Definition ex_spans : list PackObjectSpan := [ex_span 100 0 10; ex_span 101 10 17].
Definition ex_pack : PackIndex :=
  {| series_hash := to_le 32 77; parent_series_hash := None; leaf_start := 0; leaf_end := 5; total_leaf_count := 5;
     pack_root := ex_series_root 5; pack_proof := ex_proof 5 0 5; object_spans := ex_spans; pack_count := 17;
     physical_byte_count := 17; leaf_descriptors := ex_descriptors |}.

Lemma ex_pack_valid : @valid_pack mix_blake3 no_json ex_pack.
Proof. split_and!; [vm_compute; reflexivity|repeat constructor..]. Qed.

Lemma validate_object_spans_exact_witness :
  validate_object_spans ex_spans ex_descriptors 17 17 = Ok tt <-> layout ex_spans ex_descriptors 17 17.
Proof. apply validate_object_spans_exact. repeat constructor. Defined.

Lemma complete_pack_restores_witness :
  (leaf_hashes ex_descriptors = ex_leaves 5 /\ units ex_descriptors = 17
   /\ layout ex_spans ex_descriptors 17 17
   /\ extreme_of Z.le (map d_min ex_descriptors) (Some 3)
   /\ extreme_of Z.ge (map d_max ex_descriptors) None
   /\ None = last ex_descriptors ≫= d_attributes)
  \/ @blake_collision mix_blake3
       (@range_inputs mix_blake3 5 0 5 (leaf_hashes ex_descriptors) (ex_proof 5 0 5))
       (@series_inputs mix_blake3 (ex_leaves 5)).
Proof.
  refine (@complete_pack_restores mix_blake3 no_json (to_le 32 77) ex_manifest ex_pack (ex_leaves 5) _ _ _ ex_pack_valid _);
    [vm_compute; reflexivity|split; vm_compute; reflexivity|vm_compute; reflexivity..].
Defined.
