(* ===== verification/PackCover.v ===== *)
(** The deterministic choice of packs, [select_exact_cover]
    ([content/series_pack.rs]): the checks on the candidates, the compressed
    coordinates, the dynamic program from the end of the series backwards and
    the reading of the chosen cover; and the proof that it returns a smallest
    exact cover, the lexicographically least of those. *)

From stdpp Require Import base list numbers gmap sets sorting strings options.
From Stdlib Require Import ZArith Lia.
From S2P Require Import Prelude RustStd Wire CanonicalJson MerkleTree SeriesMerkle SeriesLeaf SeriesManifest SeriesPack.

Open Scope Z_scope.

(** * The code *)

Notation interval := (Z * Z * bytes)%type.
Notation edge := (nat * bytes)%type.

(** The tables of the dynamic program. *)
Record Tables := { best_count : list (option Z); choice : list (option edge) }.

(** The loop that validates every candidate. *)
Fixpoint check_candidates `{Blake3} (mh : bytes) (total : Z) (candidates : list (bytes * PackIndex)) : res (list interval) :=
  match candidates with
  | [] => Ok []
  | (key, p) :: candidates =>
      h ← pack_hash p;
      if negb (bool_decide (key = h)) then fail (CandidateKey key) else
      if negb (bool_decide (series_hash p = mh)) then fail (CandidateSeries key) else
      if negb (total_leaf_count p =? total) then fail (CandidateTotal key) else
      if (leaf_end p <=? leaf_start p) || (total <? leaf_end p) then fail (CandidateRange key) else
      rest ← check_candidates mh total candidates;
      mret ((leaf_start p, leaf_end p, key) :: rest)
  end.

(** The distinct endpoints in order, and the index of each. *)
Definition points (total : Z) (ivs : list interval) : list Z :=
  dedup (sort_by Z.compare (0 :: total :: concat (map (fun iv => [iv.1.1; iv.1.2]) ivs))).
Definition index_of (pts : list Z) : gmap Z nat := list_to_map (zip pts (seq 0 (length pts))).

Fixpoint add_edges (index : gmap Z nat) (out : list (list edge)) (ivs : list interval) : res (list (list edge)) :=
  match ivs with
  | [] => Ok out
  | (s, e, h) :: ivs =>
      match index !! s, index !! e with
      | Some i, Some j =>
          match out !! i with
          | Some choices => add_edges index (<[i := choices ++ [(j, h)]]> out) ivs
          | None => Panic
          end
      | _, _ => Panic
      end
  end.

Definition hash_lt (x y : bytes) : bool := match bytes_cmp x y with Lt => true | _ => false end.

(** One outgoing transition of point [i]. *)
Definition relax (i : nat) (t : Tables) (e : edge) : res Tables :=
  match best_count t !! e.1 with
  | None => Panic
  | Some None => Ok t
  | Some (Some suffix_count) =>
      let candidate_count := suffix_count + 1 in
      if u32_max <? candidate_count then Panic else
      better ← match best_count t !! i with
               | None => Panic
               | Some None => Ok true
               | Some (Some existing) =>
                   if candidate_count <? existing then Ok true else
                   if candidate_count =? existing then
                     match choice t !! i with
                     | Some (Some (_, current_hash)) => Ok (hash_lt e.2 current_hash)
                     | _ => Panic
                     end
                   else Ok false
               end;
      if better : bool then
        mret {| best_count := <[i := Some candidate_count]> (best_count t); choice := <[i := Some e]> (choice t) |}
      else mret t
  end.

Fixpoint relax_all (i : nat) (t : Tables) (es : list edge) : res Tables :=
  match es with [] => Ok t | e :: es => t ← relax i t e; relax_all i t es end.

(** [for i in (start..start + n).rev()]. *)
Fixpoint search (outgoing : list (list edge)) (start n : nat) (t : Tables) : res Tables :=
  match n with
  | O => Ok t
  | S n =>
      match outgoing !! (start + n)%nat with
      | Some es => t ← relax_all (start + n) t es; search outgoing start n t
      | None => Panic
      end
  end.

(** The walk along the recorded choices; each step goes to a later point. *)
Fixpoint read_cover (fuel : nat) (choices : list (option edge)) (current end_idx : nat) : res (list bytes) :=
  if bool_decide (current = end_idx) then Ok [] else
  match fuel with
  | O => Panic
  | S fuel =>
      match choices !! current with
      | Some (Some (next, hash)) => rest ← read_cover fuel choices next end_idx; mret (hash :: rest)
      | _ => Panic
      end
  end.

Definition select_exact_cover `{Blake3} (mh : bytes) (total : Z) (candidates : list (bytes * PackIndex)) : res (list bytes) :=
  if total =? 0 then Ok [] else
  ivs ← check_candidates mh total candidates;
  let pts := points total ivs in
  let index := index_of pts in
  match index !! 0 with
  | None => fail NoCoverAtZero
  | Some start_idx =>
  match index !! total with
  | None => fail (NoCoverAtEnd total)
  | Some end_idx =>
      outgoing ← add_edges index (replicate (length pts) []) ivs;
      let outgoing := map (sort_by (cmp_on snd bytes_cmp)) outgoing in
      let best := <[end_idx := Some 0]> (replicate (length pts) None) in
      t ← search outgoing start_idx (end_idx - start_idx)
            {| best_count := best; choice := replicate (length pts) None |};
      match best_count t !! start_idx with
      | None => Panic
      | Some None => fail (NoExactCover total (Z.of_nat (length candidates)))
      | Some (Some _) => read_cover (length pts) (choice t) start_idx end_idx
      end
  end
  end.

(** * The contract *)

(** Consecutive intervals from [a] to [b], all of them candidates. *)
Fixpoint exact_cover (ivs : list interval) (a b : Z) (c : list interval) : Prop :=
  match c with
  | [] => a = b
  | iv :: c => iv ∈ ivs /\ iv.1.1 = a /\ exact_cover ivs iv.1.2 b c
  end.

Definition cover_hashes (c : list interval) : list bytes := map snd c.

(** Lexicographic order on the hashes of covers. *)
Fixpoint lex_le (x y : list bytes) : Prop :=
  match x, y with
  | [], _ => True
  | _ :: _, [] => False
  | a :: x, b :: y => bytes_cmp a b = Lt \/ (a = b /\ lex_le x y)
  end.

(** Candidates that start together under one hash end together. *)
Definition hash_fixes_range (ivs : list interval) : Prop :=
  forall s e e' h, (s, e, h) ∈ ivs -> (s, e', h) ∈ ivs -> e = e'.

(** * The dynamic program *)

(** The best transition among [pre], from the counts of the later points. *)
Definition best_of (t : Tables) (pre : list edge) (b : option Z) (c : option edge) : Prop :=
  match b, c with
  | None, None => forall j h, (j, h) ∈ pre -> best_count t !! j = Some None
  | Some n, Some (j, h) =>
      (j, h) ∈ pre /\ best_count t !! j = Some (Some (n - 1))
      /\ forall j' h' m, (j', h') ∈ pre -> best_count t !! j' = Some (Some m) ->
           n < m + 1 \/ (n = m + 1 /\ bytes_cmp h h' <> Gt)
  | _, _ => False
  end.

Lemma elem_of_snoc_edge (x : edge) pre e : x ∈ pre ++ [e] <-> x ∈ pre \/ x = e.
Proof. by rewrite elem_of_app, list_elem_of_singleton. Qed.

Lemma best_of_skip t pre b c j h :
  best_count t !! j = Some None -> best_of t pre b c -> best_of t (pre ++ [(j, h)]) b c.
Proof.
  intros Hn. destruct b as [n|], c as [[j1 h1]|]; simpl; [|done|done|].
  - intros (Hin & Hb & Hm). split_and!; [apply elem_of_snoc_edge; by left|done|].
    intros j' h' m [Hp|[= -> ->]]%elem_of_snoc_edge Hm'; [eauto|congruence].
  - intros Hx j' h' [Hp|[= -> ->]]%elem_of_snoc_edge; eauto.
Qed.

Lemma best_of_first t pre j h m :
  best_count t !! j = Some (Some m) -> best_of t pre None None ->
  best_of t (pre ++ [(j, h)]) (Some (m + 1)) (Some (j, h)).
Proof.
  intros Hb Hx. simpl. rewrite Z.add_simpl_r. split_and!; [apply elem_of_snoc_edge; by right|done|].
  intros j' h' m' [Hp|[= -> ->]]%elem_of_snoc_edge Hm'; [by rewrite (Hx _ _ Hp) in Hm'|].
  assert (m' = m) as -> by congruence. right. by rewrite (cmp_refl bytes_cmp).
Qed.

Lemma best_of_better t pre n j1 h1 j h m :
  best_count t !! j = Some (Some m) -> best_of t pre (Some n) (Some (j1, h1)) ->
  m + 1 < n \/ (m + 1 = n /\ bytes_cmp h h1 = Lt) ->
  best_of t (pre ++ [(j, h)]) (Some (m + 1)) (Some (j, h)).
Proof.
  intros Hb (_ & _ & Hmin) Hlt. simpl. rewrite Z.add_simpl_r. split_and!; [apply elem_of_snoc_edge; by right|done|].
  intros j' h' m' [Hp|[= -> ->]]%elem_of_snoc_edge Hm'.
  - destruct (Hmin _ _ _ Hp Hm') as [?|[-> Hle]]; [left; lia|]. destruct Hlt as [?|[E1 Hlt]]; [left; lia|].
    right. split; [lia|]. by rewrite (cmp_lt_trans bytes_cmp h h1 h').
  - assert (m' = m) as -> by congruence. right. by rewrite (cmp_refl bytes_cmp).
Qed.

Lemma best_of_keep t pre n j1 h1 j h m :
  best_count t !! j = Some (Some m) -> best_of t pre (Some n) (Some (j1, h1)) ->
  n < m + 1 \/ (n = m + 1 /\ bytes_cmp h1 h <> Gt) ->
  best_of t (pre ++ [(j, h)]) (Some n) (Some (j1, h1)).
Proof.
  intros Hb (Hin & Hb1 & Hmin) Hlt. split_and!; [apply elem_of_snoc_edge; by left|done|].
  intros j' h' m' [Hp|[= -> ->]]%elem_of_snoc_edge Hm'; [eauto|]. assert (m' = m) as -> by congruence. done.
Qed.

Section Program.
Context (out : list (list edge)) (E : nat).
Context (out_up : forall i l j h, out !! i = Some l -> (j, h) ∈ l -> (i < j <= E)%nat).
Context (E_u32 : Z.of_nat E <= u32_max).
#[local] Set Default Proof Using "Type*".

Inductive cover_path : nat -> list bytes -> Prop :=
| path_end : cover_path E []
| path_step i l j h hs : out !! i = Some l -> (j, h) ∈ l -> cover_path j hs -> cover_path i (h :: hs).

(** Transitions from one point under one hash lead to one point. *)
Definition fixes : Prop :=
  forall i l j j' h, out !! i = Some l -> (j, h) ∈ l -> (j', h) ∈ l -> j = j'.

Definition best_path (i : nat) (hs : list bytes) : Prop :=
  cover_path i hs /\ forall hs', cover_path i hs' ->
    (length hs <= length hs')%nat /\ (fixes -> length hs = length hs' -> lex_le hs hs').

(** The walk along a table of choices. *)
Inductive chosen (ch : list (option edge)) : nat -> list bytes -> Prop :=
| chosen_end : chosen ch E []
| chosen_step i j h hs : ch !! i = Some (Some (j, h)) -> (i < j <= E)%nat -> chosen ch j hs -> chosen ch i (h :: hs).

Lemma chosen_fun ch i hs hs' : chosen ch i hs -> chosen ch i hs' -> hs = hs'.
Proof.
  intros H. revert hs'. induction H as [|i j h hs Hi Hj H IH]; intros hs' H';
    inversion H' as [Hx|? j' h' t0 Hi' Hj' Hc']; subst; [done|lia..|].
  rewrite Hi in Hi'. injection Hi' as -> ->. f_equal. auto.
Qed.

Lemma chosen_frame ch i k v hs : (k < i)%nat -> chosen ch i hs -> chosen (<[k := v]> ch) i hs.
Proof.
  intros Hk H. induction H as [|i j h hs Hi Hj H IH]; [constructor|]. econstructor; [|exact Hj|apply IH; lia].
  by rewrite list_lookup_insert_ne by lia.
Qed.

Lemma chosen_read ch i hs fuel :
  chosen ch i hs -> (length hs <= fuel)%nat -> read_cover fuel ch i E = Ok hs.
Proof.
  intros H. revert fuel. induction H as [|i j h hs Hi Hj H IH]; intros fuel Hf.
  - destruct fuel; simpl; by rewrite bool_decide_true by done.
  - destruct fuel as [|fuel]; simpl in Hf; [lia|]. simpl. rewrite bool_decide_false by lia. rewrite Hi.
    rewrite (bind_eq _ _ hs); [done|]. apply IH. lia.
Qed.

(** What the tables record of point [i]. *)
Definition recorded (t : Tables) (i : nat) : Prop :=
  (best_count t !! i = Some None /\ forall hs, ~ cover_path i hs)
  \/ exists hs, chosen (choice t) i hs /\ best_path i hs
       /\ best_count t !! i = Some (Some (Z.of_nat (length hs))) /\ (length hs <= E - i)%nat.

(** The points from [k] on are done. *)
Record done_from (k : nat) (t : Tables) : Prop := {
  done_count : length (best_count t) = length out;
  done_choice : length (choice t) = length out;
  done_rest : forall i, (i < k)%nat -> (k <= E)%nat -> best_count t !! i = Some None /\ choice t !! i = Some None;
  done_recorded : forall i, (k <= i <= E)%nat -> recorded t i;
}.

(** The state of the loop over the transitions of [i], with [pre] behind it. *)
Definition relaxed (t : Tables) (i : nat) (pre : list edge) (t' : Tables) : Prop :=
  exists b c, t' = {| best_count := <[i := b]> (best_count t); choice := <[i := c]> (choice t) |}
    /\ best_of t pre b c.

Lemma relax_step t i l pre j h t' :
  done_from (S i) t -> (i < E)%nat -> (E < length out)%nat -> out !! i = Some l -> (j, h) ∈ l ->
  relaxed t i pre t' ->
  exists t'', relax i t' (j, h) = Ok t'' /\ relaxed t i (pre ++ [(j, h)]) t''.
Proof.
  intros [Hc Hch _ Hrec] HiE HE Hl Hjl (b & c & -> & Hbc). pose proof (out_up _ _ _ _ Hl Hjl) as Hj.
  unfold relax. cbn [fst snd best_count choice]. rewrite list_lookup_insert_ne by lia.
  rewrite !list_lookup_insert_eq by lia.
  destruct (Hrec j ltac:(lia)) as [[Hn _]|(hs & _ & _ & Hs & Hlen)].
  { rewrite Hn. eexists. split; [done|]. exists b, c. split; [done|]. by apply best_of_skip. }
  rewrite Hs. set (m := Z.of_nat (length hs)) in *. destruct (Z.ltb_spec u32_max (m + 1)) as [|_]; [lia|].
  destruct b as [n|], c as [[j1 h1]|]; [|done|done|].
  2: { cbn [mbind outcome_bind]. eexists. split; [reflexivity|]. exists (Some (m + 1)), (Some (j, h)). split; [by rewrite !list_insert_insert_eq|]. by apply best_of_first. }
  destruct (Z.ltb_spec (m + 1) n); cbn [mbind outcome_bind].
  { eexists. split; [reflexivity|]. exists (Some (m + 1)), (Some (j, h)). split; [by rewrite !list_insert_insert_eq|]. eapply best_of_better; [done..|]. by left. }
  destruct (Z.eqb_spec (m + 1) n) as [En|]; cbn [mbind outcome_bind].
  2: { eexists. split; [reflexivity|]. exists (Some n), (Some (j1, h1)). split; [done|]. eapply best_of_keep; [done..|]. left. lia. }
  unfold hash_lt. pose proof (cmp_opp bytes_cmp h h1) as Hopp.
  destruct (bytes_cmp h h1) eqn:Ecmp; simpl in Hopp; eexists; (split; [reflexivity|]).
  - exists (Some n), (Some (j1, h1)). split; [done|]. eapply best_of_keep; [done..|]. right. split; [lia|]. by rewrite Hopp.
  - exists (Some (m + 1)), (Some (j, h)). split; [by rewrite !list_insert_insert_eq|]. eapply best_of_better; [done..|]. by right.
  - exists (Some n), (Some (j1, h1)). split; [done|]. eapply best_of_keep; [done..|]. right. split; [lia|]. by rewrite Hopp.
Qed.

Lemma relax_all_ok t i l :
  done_from (S i) t -> (i < E)%nat -> (E < length out)%nat -> out !! i = Some l -> forall es pre t',
  l = pre ++ es -> relaxed t i pre t' -> exists t'', relax_all i t' es = Ok t'' /\ relaxed t i l t''.
Proof.
  intros Hd Hi HE Hl. induction es as [|[j h] es IH]; intros pre t' El Hr.
  - exists t'. rewrite app_nil_r in El. by subst.
  - destruct (relax_step t i l pre j h t') as (t1 & E1 & Hr1); [done..|rewrite El; set_solver|done|].
    simpl. rewrite (bind_eq _ _ _ E1). apply (IH (pre ++ [(j, h)])); [|done]. by rewrite <- app_assoc.
Qed.

Lemma chosen_best t j hs :
  recorded t j -> best_count t !! j = Some (Some (Z.of_nat (length hs))) -> chosen (choice t) j hs -> best_path j hs.
Proof.
  intros [[Hn _]|(hs' & Hch & Hb & _)] Hs Hc; [congruence|]. by rewrite (chosen_fun _ _ _ _ Hc Hch).
Qed.

(** The point [i] once all its transitions are relaxed. *)
Lemma relaxed_recorded t i l t' :
  done_from (S i) t -> (i < E)%nat -> (E < length out)%nat -> out !! i = Some l -> relaxed t i l t' -> recorded t' i.
Proof.
  intros [Hc Hch _ Hrec] Hi HE Hl (b & c & -> & Hb). unfold recorded. cbn [best_count choice].
  rewrite list_lookup_insert_eq by lia.
  destruct b as [n|], c as [[j h]|]; [|done|done|].
  2: { left. split; [done|]. intros hs Hp. inversion Hp as [|? l' j h t0 Hl' Hin Hp']; subst; [lia|].
       rewrite Hl in Hl'. injection Hl' as <-. pose proof (out_up _ _ _ _ Hl Hin).
       destruct (Hrec j ltac:(lia)) as [[_ Hno]|(hs & _ & _ & Hs & _)]; [by apply (Hno t0)|].
       rewrite (Hb _ _ Hin) in Hs. done. }
  destruct Hb as (Hin & Hbj & Hmin). pose proof (out_up _ _ _ _ Hl Hin) as Hj. right.
  destruct (Hrec j ltac:(lia)) as [[Hn _]|(hs & Hcj & [Hpj Hbest] & Hs & Hlen)]; [congruence|].
  assert (n = Z.of_nat (length hs) + 1) as -> by (rewrite Hbj in Hs; injection Hs; lia).
  exists (h :: hs). split_and!; [|split| |].
  - eapply (chosen_step _ i j); [by rewrite (list_lookup_insert_eq (choice t)) by lia|lia|]. apply chosen_frame; [lia|done].
  - by econstructor.
  - intros hs' Hp. inversion Hp as [|? l' j' h' t0 Hl' Hin' Hp']; subst; [lia|].
    rewrite Hl in Hl'. injection Hl' as <-. pose proof (out_up _ _ _ _ Hl Hin').
    destruct (Hrec j' ltac:(lia)) as [[_ Hno]|(hs2 & Hc2 & [_ Hb2] & Hs2 & _)]; [by destruct (Hno t0)|].
    destruct (Hb2 t0 Hp') as [Hl2 Hlex]. destruct (Hmin _ _ _ Hin' Hs2) as [Hlt|[Heq Hle]].
    { simpl. split; [lia|]. intros _ ?. lia. }
    simpl. split; [lia|]. intros Hfix Elen. destruct (bytes_cmp h h') eqn:Ecmp; [|by left|done].
    apply cmp_eq in Ecmp as <-. right. split; [done|].
    rewrite (Hfix _ _ _ _ _ Hl Hin' Hin) in *. rewrite (chosen_fun _ _ _ _ Hcj Hc2). apply Hlex; [done|lia].
  - simpl. do 2 f_equal. lia.
  - simpl. lia.
Qed.

Lemma search_ok start n t :
  (E < length out)%nat -> (start + n <= E)%nat -> done_from (start + n) t ->
  exists t', search out start n t = Ok t' /\ done_from start t'.
Proof.
  intros HE. revert t. induction n as [|n IH]; intros t Hn Hd.
  { exists t. rewrite Nat.add_0_r in Hd. done. }
  simpl. destruct (lookup_lt_is_Some_2 out (start + n)%nat ltac:(lia)) as [l Hl]. rewrite Hl.
  rewrite Nat.add_succ_r in Hd, Hn. pose proof Hd as [Hc Hch Hrest Hrec].
  destruct (Hrest (start + n)%nat ltac:(lia) ltac:(lia)) as [Hb0 Hc0].
  destruct (relax_all_ok t (start + n) l Hd ltac:(lia) HE Hl l [] t) as (t1 & E1 & Hr); [done| |].
  { exists None, None. split; [|by intros ? ? ?%elem_of_nil]. rewrite !list_insert_id by done. by destruct t. }
  rewrite (bind_eq _ _ _ E1). apply IH; [lia|].
  pose proof (relaxed_recorded t (start + n) l t1 Hd ltac:(lia) HE Hl Hr) as Hri.
  destruct Hr as (b & c & -> & Hb). constructor; cbn [best_count choice] in *; rewrite ?length_insert; try done.
  - intros i Hi HiE. rewrite !list_lookup_insert_ne by lia. apply Hrest; lia.
  - intros i Hi. destruct (decide (i = start + n)%nat) as [->|Hne]; [done|].
    destruct (Hrec i ltac:(lia)) as [[Hnb Hno]|(hs & Hcs & Hbp & Hbc & Hlen)]; [left|right]; cbn [best_count choice].
    + by rewrite list_lookup_insert_ne by lia.
    + exists hs. rewrite list_lookup_insert_ne by lia. split_and!; try done. apply chosen_frame; [lia|done].
Qed.

Lemma program_ok start fuel t :
  (E < length out)%nat -> (start <= E)%nat -> (E <= fuel)%nat -> done_from start t ->
  (best_count t !! start = Some None /\ forall hs, ~ cover_path start hs)
  \/ exists hs n, best_count t !! start = Some (Some n) /\ read_cover fuel (choice t) start E = Ok hs /\ best_path start hs.
Proof.
  intros HE Hs Hf Hd. destruct (done_recorded start t Hd start ltac:(lia)) as [?|(hs & Hc & Hb & Hn & Hl)]; [by left|].
  right. exists hs, (Z.of_nat (length hs)). split_and!; [done| |done]. apply chosen_read; [done|lia].
Qed.

Lemma initial_done : (E < length out)%nat ->
  done_from E {| best_count := <[E := Some 0]> (replicate (length out) None); choice := replicate (length out) None |}.
Proof.
  intros HE. constructor; cbn [best_count choice]; rewrite ?length_insert, ?length_replicate; try done.
  - intros i Hi _. rewrite list_lookup_insert_ne, !lookup_replicate_2 by lia. done.
  - intros i Hi. replace i with E by lia. right. exists []. split_and!; [constructor|split; [constructor|]| |simpl; lia].
    + intros hs' _. split; [simpl; lia|done].
    + cbn [best_count]. by rewrite list_lookup_insert_eq by (rewrite length_replicate; lia).
Qed.
End Program.

(** * The compressed coordinates *)

Lemma index_of_lookup pts p i :
  NoDup pts -> index_of pts !! p = Some i <-> pts !! i = Some p.
Proof.
  intros Hnd. unfold index_of.
  assert ((zip pts (seq 0 (length pts))).*1 = pts) as Efst by (rewrite fst_zip; [done|by rewrite length_seq]).
  rewrite <- elem_of_list_to_map by (by rewrite Efst). rewrite list_elem_of_lookup.
  setoid_rewrite lookup_zip_Some. setoid_rewrite lookup_seq. split.
  - intros (k & Hk & -> & _). done.
  - intros Hi. exists i. split_and!; [done|lia|]. by eapply lookup_lt_Some.
Qed.

Lemma points_elem total ivs p :
  p ∈ points total ivs <-> p = 0 \/ p = total \/ exists iv, iv ∈ ivs /\ (p = iv.1.1 \/ p = iv.1.2).
Proof.
  unfold points. rewrite dedup_elem, (sort_by_perm Z.compare), !elem_of_cons, list_elem_of_In, in_concat.
  setoid_rewrite <- list_elem_of_In. do 2 (apply or_iff_compat_l). split.
  - intros (x & (iv & -> & Hiv)%list_elem_of_fmap & Hp). exists iv. split; [done|]. set_solver.
  - intros (iv & Hiv & Hp). exists [iv.1.1; iv.1.2]. split; [apply list_elem_of_fmap; eauto|set_solver].
Qed.

Lemma strictly_sorted_lt l : StronglySorted (cmp_lt Z.compare) l -> StronglySorted Z.lt l.
Proof.
  induction 1 as [|x l Hs IH Hx]; constructor; [done|]. eapply Forall_impl; [exact Hx|].
  intros y Hxy. by apply Z.compare_lt_iff.
Qed.

Lemma points_sorted total ivs : StronglySorted Z.lt (points total ivs).
Proof. apply strictly_sorted_lt, (dedup_sort_strict Z.compare). Qed.

Lemma sorted_lookup_lt (l : list Z) i j x y :
  StronglySorted Z.lt l -> l !! i = Some x -> l !! j = Some y -> (i < j)%nat <-> x < y.
Proof.
  intros Hs. revert i j. induction Hs as [|a l Hs IH Ha]; intros i j Hi Hj; [done|].
  rewrite Forall_lookup in Ha. destruct i as [|i], j as [|j]; simpl in *.
  - simplify_eq. lia.
  - simplify_eq. specialize (Ha _ _ Hj). lia.
  - simplify_eq. specialize (Ha _ _ Hi). lia.
  - rewrite <- (IH i j Hi Hj). lia.
Qed.

Lemma points_nodup total ivs : NoDup (points total ivs).
Proof.
  apply NoDup_alt. intros i j x Hi Hj.
  pose proof (sorted_lookup_lt _ i j x x (points_sorted total ivs) Hi Hj).
  pose proof (sorted_lookup_lt _ j i x x (points_sorted total ivs) Hj Hi). lia.
Qed.

Lemma dedup_from_length {A} `{EqDecision A} (x : A) l : (length (dedup_from x l) <= S (length l))%nat.
Proof. revert x. induction l as [|y l IH]; intros x; simpl; [done|]. case_decide; [etrans; [apply IH|lia]|simpl; specialize (IH y); lia]. Qed.

Lemma points_length total ivs : (length (points total ivs) <= 2 * length ivs + 2)%nat.
Proof.
  unfold points. assert (forall l : list Z, length (dedup l) <= length l)%nat as Hd.
  { intros [|x l]; [done|]. simpl. apply dedup_from_length. }
  etrans; [apply Hd|]. rewrite (sort_by_perm Z.compare). simpl.
  induction ivs as [|iv ivs IH]; simpl in *; lia.
Qed.

Lemma add_edges_ok index n ivs : forall out,
  length out = n ->
  (forall iv, iv ∈ ivs -> exists i j, index !! iv.1.1 = Some i /\ index !! iv.1.2 = Some j /\ (i < n)%nat) ->
  exists out', add_edges index out ivs = Ok out' /\ length out' = n
    /\ forall i j h, (exists l, out' !! i = Some l /\ (j, h) ∈ l)
         <-> (exists l, out !! i = Some l /\ (j, h) ∈ l)
             \/ exists s e, (s, e, h) ∈ ivs /\ index !! s = Some i /\ index !! e = Some j.
Proof.
  induction ivs as [|[[s e] h] ivs IH]; intros out Hn Hiv.
  { exists out. split_and!; [done..|]. intros i j h. split; [by left|].
    intros [?|(s & e & Hx%elem_of_nil & _)]; [done|done]. }
  destruct (Hiv (s, e, h)) as (i & j & Hi & Hj & Hlt); [by left|]. simpl in Hi, Hj. simpl. rewrite Hi, Hj.
  destruct (lookup_lt_is_Some_2 out i ltac:(lia)) as [l Hl]. rewrite Hl.
  destruct (IH (<[i := l ++ [(j, h)]]> out)) as (out' & E1 & El & Hch); [by rewrite length_insert|by intros; apply Hiv; right|].
  exists out'. split_and!; [done..|]. intros i' j' h'. rewrite Hch. setoid_rewrite elem_of_cons. split.
  - intros [(l' & Hl' & Hin)|(s' & e' & ? & ? & ?)]; [|right; by eauto 10].
    destruct (decide (i = i')) as [<-|Hne].
    + rewrite list_lookup_insert_eq in Hl' by lia. injection Hl' as <-.
      apply elem_of_app in Hin as [?|[= -> ->]%list_elem_of_singleton]; [left; by eauto|]. right. by eauto 10.
    + rewrite list_lookup_insert_ne in Hl' by done. left. by eauto.
  - intros [(l' & Hl' & Hin)|(s' & e' & [[= -> -> ->]|Hin] & Hs' & He')].
    + left. destruct (decide (i = i')) as [<-|Hne].
      * exists (l ++ [(j, h)]). rewrite list_lookup_insert_eq by lia. split; [done|]. apply elem_of_app. left. congruence.
      * exists l'. by rewrite list_lookup_insert_ne.
    + left. assert (i' = i) as -> by congruence. assert (j' = j) as -> by congruence.
      exists (l ++ [(j, h)]). rewrite list_lookup_insert_eq by lia. split; [done|]. apply elem_of_app. right. by apply list_elem_of_singleton.
    + right. by eauto 10.
Qed.

(** The transitions are the candidate intervals. *)
Lemma outgoing_ok total ivs :
  exists out, add_edges (index_of (points total ivs)) (replicate (length (points total ivs)) []) ivs = Ok out
    /\ length out = length (points total ivs)
    /\ forall i j h,
         (exists l, map (sort_by (cmp_on snd bytes_cmp)) out !! i = Some l /\ (j, h) ∈ l)
         <-> exists s e, (s, e, h) ∈ ivs /\ points total ivs !! i = Some s /\ points total ivs !! j = Some e.
Proof.
  pose proof (points_nodup total ivs) as Hnd. pose proof (fun p => points_elem total ivs p) as Hel. revert Hnd Hel.
  generalize (points total ivs) as pts. intros pts Hnd Hel.
  destruct (add_edges_ok (index_of pts) (length pts) ivs (replicate (length pts) [])) as (out & Ho & Hl & Hch).
  { by rewrite length_replicate. }
  { intros iv Hiv. destruct (list_elem_of_lookup_1 pts iv.1.1) as [i Hi]; [apply Hel; right; right; eauto|].
    destruct (list_elem_of_lookup_1 pts iv.1.2) as [j Hj]; [apply Hel; right; right; eauto|].
    exists i, j. split_and!; [by apply index_of_lookup..|]. by eapply lookup_lt_Some. }
  exists out. split_and!; [done..|]. intros i j h. setoid_rewrite list_lookup_fmap.
  transitivity (exists l, out !! i = Some l /\ (j, h) ∈ l).
  { split.
    - intros (l & Hl' & Hin). destruct (out !! i) as [l0|]; [|done]. injection Hl' as <-. exists l0. split; [done|].
      by rewrite (sort_by_perm (cmp_on snd bytes_cmp)) in Hin.
    - intros (l & Hl' & Hin). rewrite Hl'. eexists. split; [done|]. by rewrite (sort_by_perm (cmp_on snd bytes_cmp)). }
  rewrite Hch. setoid_rewrite index_of_lookup; [|done..]. split; [|by right].
  intros [(l & Hl' & Hin)|?]; [|done]. apply lookup_replicate in Hl' as [-> _]. by apply elem_of_nil in Hin.
Qed.

(** * The chosen cover *)

Section Cover.
Context (total : Z) (ivs : list interval) (out : list (list edge)) (S0 E : nat).
Context (ivs_in : Forall (fun iv => 0 <= iv.1.1 < iv.1.2 /\ iv.1.2 <= total) ivs).
Context (Hstart : points total ivs !! S0 = Some 0) (Hend : points total ivs !! E = Some total).
Context (Hout : forall i j h, (exists l, out !! i = Some l /\ (j, h) ∈ l)
  <-> exists s e, (s, e, h) ∈ ivs /\ points total ivs !! i = Some s /\ points total ivs !! j = Some e).
#[local] Set Default Proof Using "Type*".

Lemma outgoing_up i l j h : out !! i = Some l -> (j, h) ∈ l -> (i < j <= E)%nat.
Proof.
  intros Hl Hin. destruct (proj1 (Hout i j h)) as (s & e & Hiv & Hs & He); [by eauto|].
  rewrite Forall_forall in ivs_in. specialize (ivs_in _ Hiv). simpl in ivs_in.
  pose proof (sorted_lookup_lt _ i j s e (points_sorted total ivs) Hs He).
  pose proof (sorted_lookup_lt _ E j total e (points_sorted total ivs) Hend He). lia.
Qed.

Lemma path_covers i p hs :
  points total ivs !! i = Some p ->
  cover_path out E i hs <-> exists c, exact_cover ivs p total c /\ cover_hashes c = hs.
Proof.
  intros Hp. split.
  - intros Hpath. revert p Hp. induction Hpath as [|i l j h hs Hl Hin Hpath IH]; intros p Hp.
    { exists []. split; [simpl; congruence|done]. }
    destruct (proj1 (Hout i j h)) as (s & e & Hiv & Hs & He); [by eauto|].
    destruct (IH e He) as (c & Hc & <-). exists ((s, e, h) :: c). split; [|done].
    split_and!; [done|simpl; congruence|done].
  - intros (c & Hc & <-). revert i p Hp Hc. induction c as [|[[s e] h] c IH]; intros i p Hp Hc; simpl in Hc |- *.
    { subst p. assert (i = E) as -> by (eapply NoDup_lookup; [apply (points_nodup total ivs)|done|done]). constructor. }
    destruct Hc as (Hiv & -> & Hc).
    destruct (list_elem_of_lookup_1 (points total ivs) e) as [j Hj].
    { apply points_elem. right; right. exists (p, e, h). auto. }
    destruct (proj2 (Hout i j h)) as (l & Hl & Hin); [by eauto|]. econstructor; [done|done|]. by apply (IH j e).
Qed.

Lemma fixes_of : hash_fixes_range ivs -> fixes out.
Proof.
  intros Hf i l j j' h Hl Hin Hin'.
  destruct (proj1 (Hout i j h)) as (s & e & Hiv & Hs & He); [by eauto|].
  destruct (proj1 (Hout i j' h)) as (s' & e' & Hiv' & Hs' & He'); [by eauto|].
  assert (s' = s) as -> by congruence. rewrite (Hf _ _ _ _ Hiv Hiv') in He.
  eapply NoDup_lookup; [apply (points_nodup total ivs)|done|done].
Qed.

Lemma best_path_covers hs :
  best_path out E S0 hs -> exists c, exact_cover ivs 0 total c /\ cover_hashes c = hs
    /\ forall c', exact_cover ivs 0 total c' -> (length c <= length c')%nat
         /\ (hash_fixes_range ivs -> length c = length c' -> lex_le hs (cover_hashes c')).
Proof.
  intros [Hp Hb]. destruct (proj1 (path_covers S0 0 hs Hstart) Hp) as (c & Hc & <-).
  exists c. split_and!; [done..|]. intros c' Hc'.
  destruct (Hb (cover_hashes c')) as [Hl Hlex]; [apply (path_covers S0 0 _ Hstart); eauto|].
  unfold cover_hashes in Hl, Hlex. rewrite !length_map in *. split; [done|]. intros Hf%fixes_of. auto.
Qed.

(** The program over the candidate intervals, from its initial tables. *)
Lemma cover_found :
  0 < total -> length out = length (points total ivs) -> Z.of_nat (length ivs) < 2 ^ 31 ->
  exists t, search out S0 (E - S0)
      {| best_count := <[E := Some 0]> (replicate (length (points total ivs)) None);
         choice := replicate (length (points total ivs)) None |} = Ok t
    /\ ((best_count t !! S0 = Some None /\ forall c, ~ exact_cover ivs 0 total c)
        \/ exists n c, best_count t !! S0 = Some (Some n)
             /\ read_cover (length (points total ivs)) (choice t) S0 E = Ok (cover_hashes c)
             /\ exact_cover ivs 0 total c
             /\ forall c', exact_cover ivs 0 total c' -> (length c <= length c')%nat
                  /\ (hash_fixes_range ivs -> length c = length c' -> lex_le (cover_hashes c) (cover_hashes c'))).
Proof.
  intros Ht Hol Hlen. pose proof (points_length total ivs) as Hpl. rewrite <- Hol in *.
  pose proof (lookup_lt_Some _ _ _ Hend) as HElt. rewrite <- Hol in HElt.
  assert (S0 <= E)%nat as HSE.
  { destruct (decide (E < S0)%nat) as [Hlt|]; [|lia].
    rewrite (sorted_lookup_lt _ E S0 total 0 (points_sorted total ivs) Hend Hstart) in Hlt. lia. }
  assert (Z.of_nat E <= u32_max) as Hu by (unfold u32_max; lia).
  pose proof (initial_done out E outgoing_up Hu HElt) as Hi. replace E with (S0 + (E - S0))%nat in Hi at 2 by lia.
  destruct (search_ok out E outgoing_up Hu S0 (E - S0) _ HElt ltac:(lia) Hi) as (t & Hs & Hd).
  exists t. split; [done|].
  destruct (program_ok out E outgoing_up Hu S0 (length out) t HElt HSE ltac:(lia) Hd) as [[Hn Hno]|(hs & n & Hn & Hr & Hb)].
  - left. split; [done|]. intros c Hcov. apply (Hno (cover_hashes c)). apply (path_covers S0 0 _ Hstart). eauto.
  - right. destruct (best_path_covers hs Hb) as (c & Hcov & <- & Hmin). by exists n, c.
Qed.
End Cover.

Lemma check_candidates_Ok `{Blake3} mh total cands ivs :
  check_candidates mh total cands = Ok ivs ->
  ivs = map (fun c => (leaf_start c.2, leaf_end c.2, c.1)) cands
  /\ Forall (fun c => pack_hash c.2 = Ok c.1 /\ leaf_start c.2 < leaf_end c.2 /\ leaf_end c.2 <= total) cands.
Proof.
  revert ivs. induction cands as [|[key p] cands IH]; intros ivs; simpl; [by intros <-%Ok_inj|].
  intros (h & Hh & Hc)%bind_Ok. case_bool_decide as Ek; [|done]. subst h. case_bool_decide; [|done].
  destruct (Z.eqb_spec (total_leaf_count p) total); [|done].
  destruct (Z.leb_spec (leaf_end p) (leaf_start p)); [done|]. destruct (Z.ltb_spec total (leaf_end p)); [done|].
  cbn [negb orb] in Hc. apply bind_Ok in Hc as (rest & [-> Hf]%IH & <-%Ok_inj). split; [done|]. by constructor.
Qed.

Section Select.
Context `{Blake3} `{JsonParser}.

(** The encodings of the candidates. *)
Definition candidate_inputs (cands : list (bytes * PackIndex)) : list bytes :=
  map (fun c => unwrap_or [] (pack_encode c.2)) cands.

Lemma candidates_fix mh total cands ivs :
  Forall (fun c => wf_pack_index c.2 = true /\ valid_pack c.2) cands ->
  check_candidates mh total cands = Ok ivs ->
  hash_fixes_range ivs \/ blake_collision (candidate_inputs cands) (candidate_inputs cands).
Proof.
  intros Hv [-> Hf]%check_candidates_Ok.
  destruct (collision_or_injective (candidate_inputs cands)) as [Hinj|]; [left|by right].
  intros s e e' h H1 H2. apply list_elem_of_fmap in H1 as ([k p] & [= -> -> ->] & Hp).
  apply list_elem_of_fmap in H2 as ([k' p'] & [= Es -> ->] & Hp'). simpl in *.
  rewrite Forall_forall in Hv, Hf. destruct (Hv _ Hp) as [Hw Hva], (Hv _ Hp') as [Hw' Hva'].
  destruct (Hf _ Hp) as [Hh _], (Hf _ Hp') as [Hh' _]. simpl in *. unfold pack_hash in Hh, Hh'.
  apply bind_Ok in Hh as (b & Hb & Eb%Ok_inj). apply bind_Ok in Hh' as (b' & Hb' & Eb'%Ok_inj).
  assert (b = b') as <-.
  { apply Hinj; [| |unfold of_bytes in Eb, Eb'; congruence]; apply list_elem_of_fmap.
    - exists (k', p). simpl. by rewrite Hb.
    - exists (k', p'). simpl. by rewrite Hb'. }
  assert (Ok p = Ok p' :> res PackIndex) as [= ->]; [|done].
  transitivity (pack_decode b); [symmetry|]; by apply pack_decode_exact.
Qed.

Lemma select_cover mh total cands ivs :
  0 < total -> Z.of_nat (length cands) < 2 ^ 31 -> Forall (fun c => 0 <= leaf_start c.2) cands ->
  check_candidates mh total cands = Ok ivs ->
  (exists c, exact_cover ivs 0 total c /\ select_exact_cover mh total cands = Ok (cover_hashes c)
     /\ forall c', exact_cover ivs 0 total c' -> (length c <= length c')%nat
          /\ (hash_fixes_range ivs -> length c = length c' -> lex_le (cover_hashes c) (cover_hashes c')))
  \/ (select_exact_cover mh total cands = fail (NoExactCover total (Z.of_nat (length cands)))
      /\ forall c, ~ exact_cover ivs 0 total c).
Proof.
  intros Ht Hlen Hpos Hc. unfold select_exact_cover. destruct (Z.eqb_spec total 0); [lia|]. rewrite (bind_eq _ _ _ Hc).
  apply check_candidates_Ok in Hc as [Eivs Hf].
  assert (Forall (fun iv => 0 <= iv.1.1 < iv.1.2 /\ iv.1.2 <= total) ivs) as Hin.
  { subst ivs. apply Forall_fmap. rewrite Forall_forall in *. intros c Hcin. simpl.
    destruct (Hf c Hcin) as (_ & ? & ?). specialize (Hpos c Hcin). simpl in Hpos. lia. }
  assert (length ivs = length cands) as El by (subst ivs; by rewrite length_map).
  destruct (list_elem_of_lookup_1 (points total ivs) 0) as [S0 HS]; [apply points_elem; by left|].
  destruct (list_elem_of_lookup_1 (points total ivs) total) as [E HE]; [apply points_elem; by right; left|].
  pose proof (points_nodup total ivs) as Hnd.
  cbv zeta. rewrite (proj2 (index_of_lookup _ _ S0 Hnd) HS), (proj2 (index_of_lookup _ _ E Hnd) HE).
  destruct (outgoing_ok total ivs) as (out & Ho & Hol & Hch). rewrite (bind_eq _ _ _ Ho).
  destruct (cover_found total ivs _ S0 E Hin HS HE Hch Ht) as (t & Hs & Hres); [by rewrite length_map|lia|].
  rewrite (bind_eq _ _ _ Hs). destruct Hres as [[Hn Hno]|(n0 & c & Hn & Hr & Hcov & Hmin)]; rewrite Hn.
  - by right.
  - left. exists c. by rewrite Hr.
Qed.

(** A candidate of the series: its key is its hash, it names the series with its
    number of leaves, and its range lies in the series. *)
Definition of_series (mh : bytes) (total : Z) (c : bytes * PackIndex) : Prop :=
  pack_hash c.2 = Ok c.1 /\ series_hash c.2 = mh /\ total_leaf_count c.2 = total
  /\ leaf_start c.2 < leaf_end c.2 /\ leaf_end c.2 <= total.

Definition intervals (cands : list (bytes * PackIndex)) : list interval :=
  map (fun c => (leaf_start c.2, leaf_end c.2, c.1)) cands.

(** A candidate read from a remote: its index was decoded from some bytes. *)
Definition decoded (c : bytes * PackIndex) : Prop := exists b, pack_decode b = Ok c.2.

(** The candidates pass exactly when all of them are of the series. *)
Lemma check_candidates_exact mh total cands :
  Forall decoded cands ->
  (Forall (of_series mh total) cands /\ check_candidates mh total cands = Ok (intervals cands))
  \/ (Exists (fun c => ~ of_series mh total c) cands /\ exists e, check_candidates mh total cands = Err e).
Proof.
  induction 1 as [|[key p] cands [b (_ & _ & Hb)%pack_decode_exact] _ IH]; [by left|]. cbn [snd] in Hb.
  assert (Hh : pack_hash p = Ok (of_bytes b)) by (unfold pack_hash; by rewrite Hb).
  cbn [check_candidates]. rewrite Hh. cbn [mbind outcome_bind].
  case_bool_decide as Ek; cbn [negb]; [|right; split; [left; unfold of_series; cbn [fst snd]; rewrite Hh; by intros ([= E] & _)|by eexists]].
  case_bool_decide as Es; cbn [negb]; [|right; split; [left; by intros (_ & E & _)|by eexists]].
  destruct (Z.eqb_spec (total_leaf_count p) total) as [Et|Et]; cbn [negb]; [|right; split; [left; by intros (_ & _ & E & _)|by eexists]].
  destruct (Z.leb_spec (leaf_end p) (leaf_start p)); cbn [orb]; [right; split; [left; intros (_ & _ & _ & E & _); simpl in E; lia|by eexists]|].
  destruct (Z.ltb_spec total (leaf_end p)); [right; split; [left; intros (_ & _ & _ & _ & E); simpl in E; lia|by eexists]|].
  destruct IH as [[Hf E]|[Hx [e E]]]; rewrite E; [left|right].
  - split; [|done]. constructor; [|done]. unfold of_series. cbn [fst snd]. rewrite Hh. by subst.
  - split; [by right|by eexists].
Qed.

End Select.

(** * Witness *)

Definition ex_cover_pack (start stop : Z) : PackIndex :=
  {| series_hash := to_le 32 77; parent_series_hash := None; leaf_start := start; leaf_end := stop;
     total_leaf_count := 3; pack_root := ex_series_root 3; pack_proof := ex_proof 3 start stop;
     object_spans := [{| object_hash := to_le 32 100; logical_start := 0; logical_end := 10 * (stop - start);
                         physical_start := 0; physical_end := 10 * (stop - start) |}];
     pack_count := 10 * (stop - start); physical_byte_count := 10 * (stop - start);
     leaf_descriptors := map (fun h => {| logical_leaf_hash := h; d_count := 10; d_schema := None; d_min := None;
                                          d_max := None; d_attributes := None |})
                           (firstn (Z.to_nat (stop - start)) (skipn (Z.to_nat start) (ex_leaves 3))) |}.
Definition ex_candidate (p : PackIndex) : bytes * PackIndex := (unwrap_or [] (@pack_hash mix_blake3 p), p).

(** Packs [0,1), [1,2), [0,2), [2,3): the cover is [0,2), [2,3). *)
Definition ex_candidates : list (bytes * PackIndex) :=
  map ex_candidate [ex_cover_pack 0 1; ex_cover_pack 1 2; ex_cover_pack 0 2; ex_cover_pack 2 3].
