(* ===== verification/PackBuilder.v ===== *)
(** The pack builder, [content/series_pack_builder.rs]: file leaves bound to a
    manifest, cut into objects of bounded size independently of the leaf
    boundaries, and indexed; the same for table leaves, with the rows, the slices
    of a batch and the Parquet writer as parameters. *)

From stdpp Require Import base list numbers gmap sets sorting strings options.
From Stdlib Require Import ZArith Lia.
From S2P Require Import Prelude RustStd Wire CanonicalJson Tree MerkleTree SeriesMerkle SeriesLeaf SeriesManifest SeriesPack PackLayout.

Open Scope Z_scope.

Record BuiltPhysicalObject := {
  bo_hash : bytes;
  bo_bytes : bytes;
  bo_start : Z;
  bo_end : Z;
}.

Record BuiltSeriesPack := {
  built_index : PackIndex;
  built_objects : list (bytes * bytes);
}.

Record FileLeafInput := {
  fl_bytes : bytes;
  fl_descriptor : PackLeafDescriptor;
  fl_hash : bytes;
}.

(** [FilePackLayout::new], [TablePackLayout::new]: the cap. *)
Definition layout_new (cap : Z) : res Z := if cap =? 0 then fail ZeroCap else Ok cap.

(** Machine addition that overflows. *)
Definition uadd (a b : Z) : res Z := if u64_max <? a + b then Panic else Ok (a + b).
Definition checked_add (e : pack_error) (a b : Z) : res Z := if u64_max <? a + b then fail e else Ok (a + b).

(** The running state of the splitting loops: finished objects, the object
    being filled, and the two logical cursors. *)
Record Filling A := {
  objects : list BuiltPhysicalObject;
  current : A;
  f_start : Z;
  f_cursor : Z;
}.
Arguments objects {A}. Arguments current {A}. Arguments f_start {A}. Arguments f_cursor {A}.

Section Builder.
Context `{Blake3} `{JsonParser}.

Definition file_leaf_new (b : bytes) (mn mx : option Z) (attrs : option bytes) : res FileLeafInput :=
  _ ← match attrs with
      | Some a => if bool_decide (a = []) then Err EmptyAttributes else validate_canonical_attributes a
      | None => Ok tt
      end;
  h ← file_leaf_hash_canonical b mn mx attrs;
  d ← new_with_leaf_hash h (Z.of_nat (length b)) mn mx attrs;
  mret {| fl_bytes := b; fl_descriptor := d; fl_hash := h |}.

Definition verify_manifest_binding (mh : bytes) (m : SeriesManifest) (whole : list bytes) (kind : PayloadKind) : res unit :=
  h ← series_object_hash m;
  if negb (bool_decide (h = mh)) then fail ManifestHashMismatch else
  if negb (bool_decide (sm_kind m = kind)) then fail PackKindMismatch else
  if negb (Z.of_nat (length whole) =? sm_leaf_count m) then fail (WholeCount (Z.of_nat (length whole)) (sm_leaf_count m)) else
  root ← merkle_root whole;
  if negb (bool_decide (root = leaf_merkle_root m)) then fail WholeRoot else Ok tt.

Definition verify_full_range_aggregate (m : SeriesManifest) (ds : list PackLeafDescriptor) (logical : Z) : res unit :=
  if negb (logical =? sm_logical_count m) then fail (FullRangeCount logical (sm_logical_count m)) else
  if negb (bool_decide (fold_left (aggregate Z.min) (map d_min ds) None = sm_min m)) then fail FullRangeMin else
  if negb (bool_decide (fold_left (aggregate Z.max) (map d_max ds) None = sm_max m)) then fail FullRangeMax else
  Ok tt.

(** The loop over the leaves with their expected hashes; indexing the range
    beyond its end panics. *)
Fixpoint recompute (index : Z) (hashes expected : list bytes) : res (list bytes) :=
  match hashes with
  | [] => Ok []
  | h :: hashes =>
      match expected with
      | [] => Panic
      | x :: expected =>
          if negb (bool_decide (h = x)) then fail (LeafContent index) else
          rest ← recompute (index + 1) hashes expected; mret (h :: rest)
      end
  end.

Definition bind_and_recompute_range {T} (whole : list bytes) (start len : Z) (leaves : list T) (leaf_hash_of : T -> bytes)
  : res (Z * list bytes) :=
  stop ← checked_add PackRangeOverflow start len;
  if Z.of_nat (length whole) <? stop then fail (PackRangeBounds start stop (Z.of_nat (length whole))) else
  hashes ← recompute 0 (map leaf_hash_of leaves) (firstn (Z.to_nat (stop - start)) (skipn (Z.to_nat start) whole));
  mret (stop, hashes).

Fixpoint sum_leaves (acc : Z) (counts : list Z) : res Z :=
  match counts with [] => Ok acc | c :: counts => acc ← checked_add PackCountOverflow acc c; sum_leaves acc counts end.

Fixpoint physical_sum (acc : Z) (os : list BuiltPhysicalObject) : res Z :=
  match os with
  | [] => Ok acc
  | o :: os => acc ← checked_add PhysicalOverflow acc (Z.of_nat (length (bo_bytes o))); physical_sum acc os
  end.
Definition checked_physical_byte_count (os : list BuiltPhysicalObject) : res Z := physical_sum 0 os.

Fixpoint spans_from (physical_start : Z) (os : list BuiltPhysicalObject) : res (list PackObjectSpan) :=
  match os with
  | [] => Ok []
  | o :: os =>
      physical_end ← checked_add SpanOverflow physical_start (Z.of_nat (length (bo_bytes o)));
      s ← span_new (bo_hash o) (bo_start o) (bo_end o) physical_start physical_end;
      rest ← spans_from physical_end os;
      mret (s :: rest)
  end.
Definition pack_object_spans (os : list BuiltPhysicalObject) : res (list PackObjectSpan) := spans_from 0 os.

(** [while !remaining.is_empty()]: each turn takes at least one byte. *)
Fixpoint fill_object (fuel : nat) (cap : Z) (st : Filling bytes) (remaining : bytes) : res (Filling bytes) :=
  if bool_decide (remaining = []) then Ok st else
  match fuel with
  | O => Panic
  | S fuel =>
      space ← usub cap (Z.of_nat (length (current st)));
      let n := Z.min space (Z.of_nat (length remaining)) in
      let cur := current st ++ firstn (Z.to_nat n) remaining in
      let remaining := skipn (Z.to_nat n) remaining in
      cursor ← uadd (f_cursor st) n;
      if Z.of_nat (length cur) =? cap then
        fill_object fuel cap
          {| objects := objects st ++ [{| bo_hash := of_bytes cur; bo_bytes := cur; bo_start := f_start st; bo_end := cursor |}];
             current := []; f_start := cursor; f_cursor := cursor |} remaining
      else fill_object fuel cap {| objects := objects st; current := cur; f_start := f_start st; f_cursor := cursor |} remaining
  end.

Fixpoint fill_leaves (cap : Z) (st : Filling bytes) (leaves : list FileLeafInput) : res (Filling bytes) :=
  match leaves with
  | [] => Ok st
  | l :: leaves => st ← fill_object (length (fl_bytes l)) cap st (fl_bytes l); fill_leaves cap st leaves
  end.

Definition build_file_physical_objects (leaves : list FileLeafInput) (cap : Z) : res (list BuiltPhysicalObject) :=
  st ← fill_leaves cap {| objects := []; current := []; f_start := 0; f_cursor := 0 |} leaves;
  mret (if bool_decide (current st = []) then objects st
        else objects st ++ [{| bo_hash := of_bytes (current st); bo_bytes := current st; bo_start := f_start st; bo_end := f_cursor st |}]).

(** What both builders do once the objects are known. *)
Definition assemble (mh : bytes) (m : SeriesManifest) (whole : list bytes) (start stop : Z) (hashes : list bytes)
    (logical : Z) (ds : list PackLeafDescriptor) (os : list BuiltPhysicalObject) : res BuiltSeriesPack :=
  physical ← checked_physical_byte_count os;
  spans ← pack_object_spans os;
  proof ← generate_range_proof whole start stop;
  index ← new_with_spans mh start stop (sm_leaf_count m) (leaf_merkle_root m) proof spans logical physical ds;
  _ ← verify_pack_against_manifest mh m index hashes;
  mret {| built_index := index; built_objects := map (fun o => (bo_hash o, bo_bytes o)) os |}.

Definition build_file_pack (mh : bytes) (m : SeriesManifest) (whole : list bytes) (start : Z) (leaves : list FileLeafInput)
    (cap : Z) : res BuiltSeriesPack :=
  if bool_decide (length leaves = 0%nat) then fail NoLeaves else
  _ ← verify_manifest_binding mh m whole File;
  '(stop, hashes) ← bind_and_recompute_range whole start (Z.of_nat (length leaves)) leaves fl_hash;
  logical ← sum_leaves 0 (map (fun l => d_count (fl_descriptor l)) leaves);
  let ds := map fl_descriptor leaves in
  _ ← (if (start =? 0) && (stop =? sm_leaf_count m) then verify_full_range_aggregate m ds logical else Ok tt);
  os ← build_file_physical_objects leaves cap;
  assemble mh m whole start stop hashes logical ds os.
End Builder.

(** * The objects of a file pack *)

(** The reference cut: pieces of [n] bytes, the last possibly shorter. *)
Fixpoint chunks_loop (fuel n : nat) (d : bytes) : list bytes :=
  match fuel, d with
  | S fuel, _ :: _ => firstn n d :: chunks_loop fuel n (skipn n d)
  | _, _ => []
  end.
Definition chunks (cap : Z) (d : bytes) : list bytes := chunks_loop (length d) (Z.to_nat cap) d.

Section Objects.
Context `{Blake3}.

(** Objects for consecutive pieces. *)
Fixpoint place (start : Z) (cs : list bytes) : list BuiltPhysicalObject :=
  match cs with
  | [] => []
  | c :: cs => {| bo_hash := of_bytes c; bo_bytes := c; bo_start := start; bo_end := start + Z.of_nat (length c) |}
               :: place (start + Z.of_nat (length c)) cs
  end.

Lemma place_snoc start cs c :
  place start (cs ++ [c]) = place start cs
    ++ [{| bo_hash := of_bytes c; bo_bytes := c; bo_start := start + Z.of_nat (length (concat cs));
           bo_end := start + Z.of_nat (length (concat cs)) + Z.of_nat (length c) |}].
Proof.
  revert start. induction cs as [|x cs IH]; intros start; simpl; [by rewrite Z.add_0_r|].
  rewrite IH, length_app, Nat2Z.inj_add, !Z.add_assoc. done.
Qed.

Lemma chunks_loop_fuel fuel fuel' n d :
  (0 < n)%nat -> (length d <= fuel)%nat -> (length d <= fuel')%nat -> chunks_loop fuel n d = chunks_loop fuel' n d.
Proof.
  intros Hn. revert fuel' d. induction fuel as [|fuel IH]; intros fuel' d H1 H2.
  { destruct d; simpl in H1; [|lia]. by destruct fuel'. }
  destruct d as [|c d]; [by destruct fuel'|]. destruct fuel' as [|fuel']; simpl in H1, H2; [lia|].
  cbn [chunks_loop]. f_equal. apply IH; rewrite length_skipn; simpl; lia.
Qed.

Lemma chunks_full cap c d :
  0 < cap -> Z.of_nat (length c) = cap -> chunks cap (c ++ d) = c :: chunks cap d.
Proof.
  intros Hc Hl. unfold chunks. destruct c as [|x c]; [simpl in Hl; lia|].
  assert (Z.to_nat cap = length (x :: c)) as -> by lia. cbn [length app chunks_loop].
  replace (firstn (S (length c)) (x :: c ++ d)) with (x :: c)
    by (change (x :: c ++ d) with ((x :: c) ++ d); by rewrite (take_app_length' (x :: c) d)).
  f_equal. change (x :: c ++ d) with ((x :: c) ++ d). rewrite (drop_app_length' (x :: c) d) by done.
  apply chunks_loop_fuel; rewrite ?length_app; lia.
Qed.

Lemma chunks_last cap c : c <> [] -> Z.of_nat (length c) <= cap -> chunks cap c = [c].
Proof.
  intros Hne Hl. unfold chunks. destruct c as [|x c]; [done|]. cbn [length chunks_loop].
  rewrite firstn_all2, skipn_all2 by (simpl in *; lia). by destruct (length c).
Qed.

Lemma chunks_app cap cs d :
  0 < cap -> Forall (fun c => Z.of_nat (length c) = cap) cs -> chunks cap (concat cs ++ d) = cs ++ chunks cap d.
Proof.
  intros Hc. induction 1 as [|c cs Hl Hcs IH]; [done|]. simpl. rewrite <- app_assoc, chunks_full by done. by rewrite IH.
Qed.

(** What the loop holds after the bytes [d]. *)
Definition filled (cap : Z) (st : Filling bytes) (d : bytes) : Prop :=
  exists cs, Forall (fun c => Z.of_nat (length c) = cap) cs /\ d = concat cs ++ current st
    /\ Z.of_nat (length (current st)) < cap /\ objects st = place 0 cs
    /\ f_start st = Z.of_nat (length (concat cs)) /\ f_cursor st = Z.of_nat (length d).

Lemma fill_object_ok cap : 0 < cap -> forall fuel st d remaining,
  filled cap st d -> Z.of_nat (length d) + Z.of_nat (length remaining) <= u64_max -> (length remaining <= fuel)%nat ->
  exists st', fill_object fuel cap st remaining = Ok st' /\ filled cap st' (d ++ remaining).
Proof.
  intros Hcap. induction fuel as [|fuel IH]; intros st d rem Hf Hb Hl.
  { destruct rem; [|simpl in Hl; lia]. exists st. by rewrite app_nil_r. }
  destruct rem as [|x rem]; [exists st; by rewrite app_nil_r|].
  cbn [fill_object]. rewrite bool_decide_false by done.
  destruct Hf as (cs & Hcs & Ed & Hcur & Ho & Hs & Hcu). set (r := x :: rem) in *.
  unfold usub. destruct (Z.ltb_spec cap (Z.of_nat (length (current st)))); [lia|]. cbn [mbind outcome_bind].
  set (n := Z.min (cap - Z.of_nat (length (current st))) (Z.of_nat (length r))).
  assert (0 < n <= Z.of_nat (length r)) as Hn by (subst n r; simpl; lia).
  unfold uadd. rewrite Hcu. destruct (Z.ltb_spec u64_max (Z.of_nat (length d) + n)); [lia|]. cbn [mbind outcome_bind].
  assert (length (firstn (Z.to_nat n) r) = Z.to_nat n) as Eft by (rewrite length_firstn; lia).
  assert (d ++ r = (d ++ firstn (Z.to_nat n) r) ++ skipn (Z.to_nat n) r) as -> by (by rewrite <- app_assoc, firstn_skipn).
  assert (Z.of_nat (length d) + n = Z.of_nat (length (d ++ firstn (Z.to_nat n) r))) as -> by (rewrite length_app, Eft; lia).
  assert (d ++ firstn (Z.to_nat n) r = concat cs ++ (current st ++ firstn (Z.to_nat n) r)) as Ed' by (by rewrite Ed, <- app_assoc).
  destruct (Z.eqb_spec (Z.of_nat (length (current st ++ firstn (Z.to_nat n) r))) cap) as [Efull|Hnf]; apply IH.
  2,3,5,6: rewrite ?length_app, ?Eft, ?length_skipn; lia.
  - exists (cs ++ [current st ++ firstn (Z.to_nat n) r]). cbn [current objects f_start f_cursor].
    rewrite concat_app, place_snoc. simpl. rewrite !app_nil_r. split_and!; [by apply Forall_app; repeat constructor|done|lia| | |done].
    + rewrite Ho, Hs, Ed', (length_app (concat cs)), Nat2Z.inj_add. done.
    + by rewrite <- Ed'.
  - exists cs. cbn [current objects f_start f_cursor]. split_and!; try done.
    rewrite length_app, Eft in Hnf |- *. subst n. lia.
Qed.

Lemma fill_leaves_ok cap : 0 < cap -> forall leaves st d,
  filled cap st d -> Z.of_nat (length d) + Z.of_nat (length (concat (map fl_bytes leaves))) <= u64_max ->
  exists st', fill_leaves cap st leaves = Ok st' /\ filled cap st' (d ++ concat (map fl_bytes leaves)).
Proof.
  intros Hcap. induction leaves as [|l leaves IH]; intros st d Hf Hb; simpl in *.
  { exists st. by rewrite app_nil_r. }
  rewrite length_app in Hb.
  destruct (fill_object_ok cap Hcap (length (fl_bytes l)) st d (fl_bytes l) Hf) as (st1 & E1 & Hf1); [lia|done|].
  rewrite (bind_eq _ _ _ E1), app_assoc. apply IH; [done|]. rewrite length_app. lia.
Qed.

Lemma file_objects leaves cap :
  0 < cap -> Z.of_nat (length (concat (map fl_bytes leaves))) <= u64_max ->
  build_file_physical_objects leaves cap = Ok (place 0 (chunks cap (concat (map fl_bytes leaves)))).
Proof.
  intros Hcap Hb. unfold build_file_physical_objects.
  destruct (fill_leaves_ok cap Hcap leaves {| objects := []; current := []; f_start := 0; f_cursor := 0 |} [])
    as (st & E & cs & Hcs & Ed & Hcur & Ho & Hs & Hcu); [|done|].
  { exists []. split_and!; done. }
  rewrite (bind_eq _ _ _ E). simpl in Ed. rewrite Ed, chunks_app by done.
  case_bool_decide as Ec.
  - rewrite Ec, app_nil_r. by rewrite Ho.
  - rewrite chunks_last by (done || lia). rewrite place_snoc, Ho, Hs, Hcu. simpl.
    rewrite Ed, length_app, Nat2Z.inj_add. done.
Qed.
End Objects.

(** * The index of a file pack *)

Section FilePack.
Context `{Blake3} `{JsonParser}.

Lemma chunks_restore cap d : 0 < cap -> concat (chunks cap d) = d.
Proof.
  intros Hc. unfold chunks. generalize (le_n (length d)). generalize (length d) at 2 3 as fuel. intros fuel. revert d.
  induction fuel as [|fuel IH]; intros d Hl; [by destruct d; [|simpl in Hl; lia]|].
  destruct d as [|x d]; [done|]. cbn [chunks_loop concat]. rewrite IH by (rewrite length_skipn; simpl in *; lia).
  apply firstn_skipn.
Qed.

Lemma chunks_bounds cap d : 0 < cap -> Forall (fun c => 0 < Z.of_nat (length c) <= cap) (chunks cap d).
Proof.
  intros Hc. unfold chunks. generalize (length d) as fuel. intros fuel. revert d.
  induction fuel as [|fuel IH]; intros d; [constructor|]. destruct d as [|x d]; [constructor|].
  cbn [chunks_loop]. constructor; [rewrite length_firstn; simpl; lia|apply IH].
Qed.

(** The spans of consecutive pieces of a byte stream. *)
Fixpoint spans_of (start : Z) (cs : list bytes) : list PackObjectSpan :=
  match cs with
  | [] => []
  | c :: cs =>
      let stop := start + Z.of_nat (length c) in
      {| object_hash := of_bytes c; logical_start := start; logical_end := stop; physical_start := start; physical_end := stop |}
      :: spans_of stop cs
  end.

Lemma place_spans start cs :
  Forall (fun c => 0 < Z.of_nat (length c)) cs -> start + Z.of_nat (length (concat cs)) <= u64_max ->
  spans_from start (place start cs) = Ok (spans_of start cs).
Proof.
  intros Hc. revert start. induction Hc as [|c cs Hl Hcs IH]; intros start Hb; [done|]. simpl in Hb. rewrite length_app in Hb.
  cbn [place spans_from spans_of bo_bytes bo_hash bo_start bo_end]. unfold checked_add.
  destruct (Z.ltb_spec u64_max (start + Z.of_nat (length c))); [lia|]. cbn [mbind outcome_bind].
  rewrite (bind_eq _ _ {| object_hash := of_bytes c; logical_start := start; logical_end := start + Z.of_nat (length c);
    physical_start := start; physical_end := start + Z.of_nat (length c) |}).
  - by rewrite (bind_eq _ _ _ (IH (start + Z.of_nat (length c)) ltac:(lia))).
  - apply span_new_Ok. split; [done|]. unfold nonempty_span. simpl. lia.
Qed.

Lemma place_sum acc start cs :
  acc + Z.of_nat (length (concat cs)) <= u64_max ->
  physical_sum acc (place start cs) = Ok (acc + Z.of_nat (length (concat cs))).
Proof.
  revert acc start. induction cs as [|c cs IH]; intros acc start Hb; simpl in *; [by rewrite Z.add_0_r|].
  rewrite length_app in *. unfold checked_add. destruct (Z.ltb_spec u64_max (acc + Z.of_nat (length c))); [lia|].
  cbn [mbind outcome_bind]. rewrite IH by lia. f_equal. lia.
Qed.

Lemma spans_of_tile start cs :
  Forall (fun c => 0 < Z.of_nat (length c)) cs ->
  spans_tile start start (spans_of start cs) (start + Z.of_nat (length (concat cs))) (start + Z.of_nat (length (concat cs))).
Proof.
  intros Hc. revert start. induction Hc as [|c cs Hl Hcs IH]; intros start; simpl; [lia|].
  rewrite length_app, Nat2Z.inj_add, Z.add_assoc. split_and!; [done|done|lia|lia|apply IH].
Qed.

Lemma spans_of_elem start cs s :
  s ∈ spans_of start cs -> equal_lengths s /\ exists c, c ∈ cs /\ object_hash s = of_bytes c /\ physical_len s = Z.of_nat (length c).
Proof.
  revert start. induction cs as [|c cs IH]; intros start; simpl; [by intros ?%elem_of_nil|].
  intros [->|Hs]%elem_of_cons.
  - unfold equal_lengths, physical_len. simpl. split; [lia|]. exists c. split_and!; [set_solver|done|lia].
  - destruct (IH _ Hs) as (He & c' & Hc' & ?). split; [done|]. exists c'. split; [set_solver|done].
Qed.

Lemma spans_of_hashes start cs : map object_hash (spans_of start cs) = map of_bytes cs.
Proof. revert start. induction cs as [|c cs IH]; intros start; simpl; [done|]. by rewrite IH. Qed.

(** The layout contract of the cut, for file leaves. *)
Lemma chunks_layout cap d ds :
  0 < cap -> file_leaves ds -> ds <> [] -> units ds = Z.of_nat (length d) -> Z.of_nat (length d) <= u64_max ->
  layout (spans_of 0 (chunks cap d)) ds (Z.of_nat (length d)) (Z.of_nat (length d))
  \/ blake_collision (chunks cap d) (chunks cap d).
Proof.
  intros Hc Hf Hne Hu Hb. destruct (collision_or_injective (chunks cap d)) as [Hinj|]; [left|by right].
  assert (Forall (fun c => 0 < Z.of_nat (length c)) (chunks cap d)) as Hpos.
  { eapply Forall_impl; [by apply chunks_bounds|]. simpl. lia. }
  pose proof (spans_of_tile 0 _ Hpos) as Ht. rewrite Z.add_0_l, chunks_restore in Ht by done.
  split_and!; [by left|lia|done| | |].
  - intros _. apply Forall_forall. intros s Hs. by apply (spans_of_elem 0 _ s Hs).
  - intros Htab. destruct ds as [|d0 ds]; [done|]. apply Forall_inv in Hf, Htab. done.
  - intros s s' Hs Hs' E. destruct (spans_of_elem _ _ _ Hs) as (_ & c & Hc1 & E1 & ->).
    destruct (spans_of_elem _ _ _ Hs') as (_ & c' & Hc2 & E2 & ->). rewrite (Hinj c c'); [done|done|done|]. unfold of_bytes in *. congruence.
Qed.

(** A leaf [FileLeafInput::new] returned. *)
Definition good_leaf (l : FileLeafInput) : Prop :=
  exists mn mx attrs, opt_all is_i64 mn = true /\ opt_all is_i64 mx = true
    /\ file_leaf_new (fl_bytes l) mn mx attrs = Ok l.

Lemma good_leaf_inv l :
  good_leaf l ->
  d_count (fl_descriptor l) = Z.of_nat (length (fl_bytes l)) /\ d_schema (fl_descriptor l) = None
  /\ logical_leaf_hash (fl_descriptor l) = fl_hash l /\ fl_bytes l <> []
  /\ (is_u64 (Z.of_nat (length (fl_bytes l))) = true -> wf_descriptor (fl_descriptor l) = true)
  /\ validate_descriptor (d_count (fl_descriptor l)) (d_attributes (fl_descriptor l)) = Ok tt.
Proof.
  intros (mn & mx & attrs & Hmn & Hmx & Hl). unfold file_leaf_new in Hl.
  apply bind_Ok in Hl as ([] & Ha & Hl). apply bind_Ok in Hl as (h & Hh & Hl). apply bind_Ok in Hl as (d & Hd & Hl%Ok_inj).
  unfold new_with_leaf_hash, new_with_leaf_hash_and_schema in Hd. apply bind_Ok in Hd as ([] & Hv & <-%Ok_inj).
  unfold file_leaf_hash_canonical in Hh. case_bool_decide as Eb; [done|].
  unfold leaf_hash_with_magic in Hh. apply bind_Ok in Hh as (pre & _ & <-%Ok_inj).
  rewrite <- Hl. cbn [fl_descriptor fl_bytes fl_hash d_count d_schema logical_leaf_hash d_attributes].
  split_and!; try done. intros Hu. unfold wf_descriptor. cbn [logical_leaf_hash d_count d_schema d_min d_max].
  rewrite Hu, Hmn, Hmx. unfold wf_hash, of_bytes. by rewrite (bool_decide_true _ (blake3_len _)).
Qed.
End FilePack.

(** * Building succeeds *)

Section Succeeds.
Context `{Blake3} `{JsonParser}.

Lemma recompute_ok index hs : recompute index hs hs = Ok hs.
Proof.
  revert index. induction hs as [|h hs IH]; intros index; simpl; [done|].
  rewrite bool_decide_true by done. cbn [negb]. by rewrite (bind_eq _ _ _ (IH _)).
Qed.

Lemma bind_range_ok {T} whole start (leaves : list T) f :
  0 <= start -> start + Z.of_nat (length leaves) <= Z.of_nat (length whole) -> Z.of_nat (length whole) <= u64_max ->
  map f leaves = take (length leaves) (drop (Z.to_nat start) whole) ->
  bind_and_recompute_range whole start (Z.of_nat (length leaves)) leaves f
  = Ok (start + Z.of_nat (length leaves), map f leaves).
Proof.
  intros Hs0 Hle Hb Hm. unfold bind_and_recompute_range, checked_add.
  destruct (Z.ltb_spec u64_max (start + Z.of_nat (length leaves))); [lia|]. cbn [mbind outcome_bind].
  destruct (Z.ltb_spec (Z.of_nat (length whole)) (start + Z.of_nat (length leaves))); [lia|].
  replace (Z.to_nat (start + Z.of_nat (length leaves) - start)) with (length leaves) by lia.
  rewrite <- Hm. by rewrite (bind_eq _ _ _ (recompute_ok 0 _)).
Qed.

Lemma sum_leaves_ok acc counts :
  Forall (fun c => 0 <= c) counts -> acc + foldr Z.add 0 counts <= u64_max ->
  sum_leaves acc counts = Ok (acc + foldr Z.add 0 counts).
Proof.
  intros Hc. revert acc. induction Hc as [|c counts Hc Hcs IH]; intros acc Hb; simpl in *; [by rewrite Z.add_0_r|].
  assert (0 <= foldr Z.add 0 counts) by (clear -Hcs; induction Hcs; simpl; lia).
  unfold checked_add. destruct (Z.ltb_spec u64_max (acc + c)); [lia|]. cbn [mbind outcome_bind]. rewrite IH by lia. f_equal. lia.
Qed.

Lemma sum_counts_ok acc ds :
  counts_ok ds -> acc + units ds <= u64_max -> sum_counts acc ds = Ok (acc + units ds).
Proof.
  intros Hc. revert acc. induction Hc as [|d ds Hd Hds IH]; intros acc Hb; simpl in *; [by rewrite Z.add_0_r|].
  pose proof (units_nonneg ds Hds). destruct (Z.ltb_spec u64_max (acc + d_count d)); [lia|]. rewrite IH by lia. f_equal. lia.
Qed.

Lemma binding_ok mh m whole kind :
  series_object_hash m = Ok mh -> sm_kind m = kind -> manifest_of m whole ->
  verify_manifest_binding mh m whole kind = Ok tt.
Proof.
  intros Hh Hk [Hc Hr]. unfold verify_manifest_binding. rewrite (bind_eq _ _ _ Hh).
  rewrite (bool_decide_true (mh = mh)), (bool_decide_true (sm_kind m = kind)) by done. cbn [negb].
  rewrite Hc, Z.eqb_refl. cbn [negb]. rewrite (bind_eq _ _ _ Hr).
  by rewrite (bool_decide_true (leaf_merkle_root m = leaf_merkle_root m)).
Qed.

(** The totals of the whole series, when the pack covers it. *)
Definition totals_agree (m : SeriesManifest) (ds : list PackLeafDescriptor) (logical : Z) : Prop :=
  sm_logical_count m = logical
  /\ sm_min m = fold_left (aggregate Z.min) (map d_min ds) None
  /\ sm_max m = fold_left (aggregate Z.max) (map d_max ds) None.

Lemma aggregate_ok m ds logical : totals_agree m ds logical -> verify_full_range_aggregate m ds logical = Ok tt.
Proof.
  intros (H1 & H2 & H3). unfold verify_full_range_aggregate. rewrite H1, Z.eqb_refl, H2, H3. cbn [negb].
  by rewrite !bool_decide_true by done.
Qed.

Lemma check_leaf_hashes_refl index ds : check_leaf_hashes index ds (leaf_hashes ds) = Ok tt.
Proof. revert index. induction ds as [|d ds IH]; intros index; simpl; [done|]. rewrite bool_decide_true by done. apply IH. Qed.

Lemma check_descriptors_ok m index ds :
  (sm_kind m = File /\ file_leaves ds) \/ (sm_kind m = Table /\ table_leaves ds) -> check_descriptors m index ds = Ok tt.
Proof.
  intros Hk. revert index. induction ds as [|d ds IH]; intros index; [done|]. simpl. unfold effective_leaf_schema_fingerprint.
  destruct Hk as [[E Hf]|[E Ht]]; rewrite E.
  - apply Forall_cons in Hf as [-> Hf]. apply IH. by left.
  - apply Forall_cons in Ht as [Hd Ht]. destruct (d_schema d); [|done]. apply IH. by right.
Qed.

(** The last steps of both builders succeed on objects whose spans are a valid
    layout. *)
Lemma assemble_ok mh m whole start stop logical physical ds os spans :
  manifest_of m whole -> Z.of_nat (length whole) < 2 ^ 64 ->
  0 <= start < stop -> stop <= Z.of_nat (length whole) ->
  Z.of_nat (length ds) = stop - start -> Forall (fun d => is_u64 (d_count d) = true) ds ->
  (sm_kind m = File /\ file_leaves ds) \/ (sm_kind m = Table /\ table_leaves ds) ->
  units ds = logical ->
  leaf_hashes ds = take (Z.to_nat (stop - start)) (drop (Z.to_nat start) whole) ->
  checked_physical_byte_count os = Ok physical -> pack_object_spans os = Ok spans -> spans <> [] ->
  layout spans ds logical physical ->
  exists p, assemble mh m whole start stop (leaf_hashes ds) logical ds os
      = Ok {| built_index := p; built_objects := map (fun o => (bo_hash o, bo_bytes o)) os |}
    /\ series_hash p = mh /\ leaf_start p = start /\ leaf_end p = stop /\ leaf_descriptors p = ds
    /\ object_spans p = spans /\ pack_rebuild p = Ok p
    /\ verify_pack_against_manifest mh m p (leaf_hashes ds) = Ok tt.
Proof.
  intros [Hc Hroot] Hb Hr Hstop Hlen Hw Hk Hu Hh Hp Hs Hne Hlay.
  destruct (range_proof_generated whole start stop Hb Hr Hstop) as (proof & root & Hg & Hroot' & Hsh & Hv).
  rewrite Hroot in Hroot'. apply Ok_inj in Hroot' as <-. rewrite <- Hh, <- Hc in Hv. rewrite <- Hc in Hsh, Hstop.
  assert (counts_ok ds) as Hco by (eapply Forall_impl; [exact Hw|]; intros d Hd; unfold is_u64 in Hd; simpl; lia).
  assert (pack_validate start stop (sm_leaf_count m) (leaf_merkle_root m) proof spans ds logical physical = Ok tt) as Hval.
  { unfold pack_validate. destruct (Z.leb_spec stop start); [lia|]. destruct (Z.ltb_spec (sm_leaf_count m) stop); [lia|].
    rewrite bool_decide_false by (by destruct spans). rewrite Hlen, Z.eqb_refl. cbn [negb].
    assert (units ds <= u64_max) as Hum by apply Hlay. rewrite (bind_eq _ _ logical) by (rewrite sum_counts_ok by (done || lia); f_equal; lia).
    rewrite Z.eqb_refl. cbn [negb]. rewrite (bind_eq _ _ _ Hv), bool_decide_true by done. cbn [negb].
    rewrite (bind_eq _ _ tt) by (by apply layout_decides). done. }
  set (p := {| series_hash := mh; parent_series_hash := None; leaf_start := start; leaf_end := stop;
    total_leaf_count := sm_leaf_count m; pack_root := leaf_merkle_root m; pack_proof := proof; object_spans := spans;
    pack_count := logical; physical_byte_count := physical; leaf_descriptors := ds |}).
  assert (pack_rebuild p = Ok p) as Hre.
  { unfold pack_rebuild, new_segment_with_spans. rewrite bool_decide_false by done. by rewrite (bind_eq _ _ _ Hval). }
  assert (verify_pack_against_manifest mh m p (leaf_hashes ds) = Ok tt) as Hver.
  { unfold verify_pack_against_manifest. cbn [p series_hash total_leaf_count leaf_descriptors leaf_start leaf_end pack_proof pack_root].
    rewrite (bool_decide_true (mh = mh)), Z.eqb_refl by done. cbn [negb].
    rewrite (bind_eq _ _ tt) by (by apply check_descriptors_ok).
    unfold leaf_hashes at 1 2. rewrite length_map, Hlen, Z.eqb_refl. cbn [negb].
    rewrite (bind_eq _ _ tt) by apply check_leaf_hashes_refl. rewrite (bind_eq _ _ _ Hv).
    by rewrite (bool_decide_true (leaf_merkle_root m = leaf_merkle_root m)). }
  exists p. split_and!; try done. unfold assemble. rewrite (bind_eq _ _ _ Hp), (bind_eq _ _ _ Hs), (bind_eq _ _ _ Hg).
  rewrite (bind_eq _ _ p) by exact Hre. by rewrite (bind_eq _ _ _ Hver).
Qed.

Lemma file_units leaves :
  Forall good_leaf leaves ->
  units (map fl_descriptor leaves) = Z.of_nat (length (concat (map fl_bytes leaves)))
  /\ foldr Z.add 0 (map (fun l => d_count (fl_descriptor l)) leaves) = Z.of_nat (length (concat (map fl_bytes leaves)))
  /\ file_leaves (map fl_descriptor leaves)
  /\ leaf_hashes (map fl_descriptor leaves) = map fl_hash leaves
  /\ Forall (fun l => Z.of_nat (length (fl_bytes l)) <= Z.of_nat (length (concat (map fl_bytes leaves)))) leaves.
Proof.
  induction 1 as [|l leaves Hl Hls IH]; [split_and!; constructor|]. destruct (good_leaf_inv l Hl) as (Ec & Es & Eh & _).
  destruct IH as (E1 & E2 & Hf & E3 & Hle). simpl. rewrite length_app, Nat2Z.inj_add, Ec, E1, E2, Eh.
  split_and!; [done|done|by constructor|by f_equal|]. constructor; [lia|].
  eapply Forall_impl; [exact Hle|]. simpl. lia.
Qed.

Lemma place_objects start cs : map (fun o => (bo_hash o, bo_bytes o)) (place start cs) = map (fun c => (of_bytes c, c)) cs.
Proof. revert start. induction cs as [|c cs IH]; intros start; simpl; [done|]. by rewrite IH. Qed.

Lemma file_counts leaves :
  Forall good_leaf leaves -> Z.of_nat (length (concat (map fl_bytes leaves))) <= u64_max ->
  Forall (fun d => is_u64 (d_count d) = true) (map fl_descriptor leaves)
  /\ Forall (fun c => 0 <= c) (map (fun l => d_count (fl_descriptor l)) leaves).
Proof.
  intros Hg Hb. destruct (file_units leaves Hg) as (_ & _ & _ & _ & Hlens). rewrite Forall_forall in Hg, Hlens.
  split; apply Forall_fmap, Forall_forall; intros l Hl; simpl;
    destruct (good_leaf_inv l (Hg l Hl)) as (-> & _); [|lia].
  specialize (Hlens l Hl). simpl in Hlens. unfold is_u64, u64_max in *. lia.
Qed.

Lemma file_chunks_nonempty cap leaves :
  0 < cap -> leaves <> [] -> Forall good_leaf leaves -> chunks cap (concat (map fl_bytes leaves)) <> [].
Proof.
  intros Hcap Hne Hg E. pose proof (chunks_restore cap (concat (map fl_bytes leaves)) Hcap) as Ec. rewrite E in Ec. simpl in Ec.
  destruct leaves as [|l leaves]; [done|]. apply Forall_inv in Hg. destruct (good_leaf_inv l Hg) as (_ & _ & _ & Hb0 & _).
  simpl in Ec. by destruct (fl_bytes l).
Qed.

(** The builder up to its last steps. *)
Lemma build_file_assemble mh m whole start leaves cap :
  0 < cap -> series_object_hash m = Ok mh -> sm_kind m = File -> manifest_of m whole ->
  Z.of_nat (length whole) < 2 ^ 64 -> leaves <> [] -> Forall good_leaf leaves ->
  Z.of_nat (length (concat (map fl_bytes leaves))) <= u64_max ->
  0 <= start -> start + Z.of_nat (length leaves) <= Z.of_nat (length whole) ->
  map fl_hash leaves = take (length leaves) (drop (Z.to_nat start) whole) ->
  (start = 0 -> length leaves = length whole ->
   totals_agree m (map fl_descriptor leaves) (Z.of_nat (length (concat (map fl_bytes leaves))))) ->
  build_file_pack mh m whole start leaves cap
  = assemble mh m whole start (start + Z.of_nat (length leaves)) (map fl_hash leaves)
      (Z.of_nat (length (concat (map fl_bytes leaves)))) (map fl_descriptor leaves)
      (place 0 (chunks cap (concat (map fl_bytes leaves)))).
Proof.
  intros Hcap Hh Hk Hm Hb Hne Hg Hdata Hs0 Hle Hmap Htot. unfold build_file_pack.
  rewrite bool_decide_false by (by destruct leaves). rewrite (bind_eq _ _ _ (binding_ok mh m whole File Hh Hk Hm)).
  rewrite (bind_eq _ _ _ (bind_range_ok whole start leaves fl_hash Hs0 Hle ltac:(unfold u64_max; lia) Hmap)).
  destruct (file_units leaves Hg) as (_ & Ef & _). destruct (file_counts leaves Hg Hdata) as [_ Hpos].
  rewrite (bind_eq _ _ (Z.of_nat (length (concat (map fl_bytes leaves)))))
    by (rewrite sum_leaves_ok; rewrite ?Ef; [done|done|lia]).
  rewrite (bind_eq _ _ tt).
  - by rewrite (bind_eq _ _ _ (file_objects leaves cap Hcap Hdata)).
  - destruct Hm as [Hc _]. destruct (Z.eqb_spec start 0); [|done].
    destruct (Z.eqb_spec (start + Z.of_nat (length leaves)) (sm_leaf_count m)); [|done]. apply aggregate_ok, Htot; [done|lia].
Qed.

(** C35: Building a file pack succeeds on the leaves of any range of a published
    series and any positive cap: the objects are the leaves' bytes cut every
    [cap] bytes whatever the leaf boundaries, each named by its hash, and the
    index is valid, names exactly these objects and leaves, and verifies against
    the manifest (or two objects exhibit a BLAKE3 collision, when their lengths
    may conflict). *)
Theorem file_pack_builds (mh : bytes) (m : SeriesManifest) (whole : list bytes) (start : Z) (leaves : list FileLeafInput)
    (cap : Z) (data := concat (map fl_bytes leaves)) :
  0 < cap -> series_object_hash m = Ok mh -> sm_kind m = File -> manifest_of m whole ->
  Z.of_nat (length whole) < 2 ^ 64 -> leaves <> [] -> Forall good_leaf leaves ->
  Z.of_nat (length data) <= u64_max ->
  0 <= start -> start + Z.of_nat (length leaves) <= Z.of_nat (length whole) ->
  map fl_hash leaves = take (length leaves) (drop (Z.to_nat start) whole) ->
  (start = 0 -> length leaves = length whole -> totals_agree m (map fl_descriptor leaves) (Z.of_nat (length data))) ->
  (exists p, build_file_pack mh m whole start leaves cap
      = Ok {| built_index := p; built_objects := map (fun c => (of_bytes c, c)) (chunks cap data) |}
    /\ concat (chunks cap data) = data /\ Forall (fun c => 0 < Z.of_nat (length c) <= cap) (chunks cap data)
    /\ pack_rebuild p = Ok p /\ leaf_start p = start /\ leaf_descriptors p = map fl_descriptor leaves
    /\ physical_object_hashes p = map of_bytes (chunks cap data)
    /\ verify_pack_against_manifest mh m p (map fl_hash leaves) = Ok tt)
  \/ blake_collision (chunks cap data) (chunks cap data).
Proof.
  intros Hcap Hh Hk Hm Hb Hne Hg Hdata Hs0 Hle Hmap Htot. unfold data in *.
  rewrite (build_file_assemble mh m whole start leaves cap) by done.
  destruct (file_units leaves Hg) as (Eu & _ & Hfile & Elh & _). destruct (file_counts leaves Hg Hdata) as [Hw _].
  pose proof (file_chunks_nonempty cap leaves Hcap Hne Hg) as Hcne. revert Eu Hdata Hcne. clear Htot.
  generalize (concat (map fl_bytes leaves)) as d. intros d Eu Hdata Hcne.
  destruct (chunks_layout cap d (map fl_descriptor leaves) Hcap Hfile ltac:(by destruct leaves) Eu Hdata) as [Hlay|]; [left|by right].
  assert (Forall (fun c => 0 < Z.of_nat (length c)) (chunks cap d)) as Hpos
    by (eapply Forall_impl; [by apply chunks_bounds|]; simpl; lia).
  assert (length leaves <> 0%nat) as Hl0 by (by destruct leaves).
  destruct (assemble_ok mh m whole start (start + Z.of_nat (length leaves)) (Z.of_nat (length d)) (Z.of_nat (length d))
    (map fl_descriptor leaves) (place 0 (chunks cap d)) (spans_of 0 (chunks cap d)))
    as (p & Hp & Es & Est & _ & Eds & Esp & Hre & Hver); try done; try lia.
  { rewrite length_map. lia. }
  { by left. }
  { rewrite Elh, Hmap. f_equal. lia. }
  { unfold checked_physical_byte_count. rewrite place_sum; rewrite chunks_restore by done; [done|lia]. }
  { apply place_spans; [done|]. rewrite chunks_restore by done. lia. }
  { by destruct (chunks cap d). }
  exists p. rewrite Elh in Hp, Hver. split_and!; try done; [|by apply chunks_restore|by apply chunks_bounds|].
  - rewrite Hp, place_objects. done.
  - unfold physical_object_hashes. by rewrite Esp, spans_of_hashes.
Qed.
End Succeeds.

(** * Witness *)

Definition ex_empty_descriptor : PackLeafDescriptor :=
  {| logical_leaf_hash := []; d_count := 0; d_schema := None; d_min := None; d_max := None; d_attributes := None |}.
Definition ex_file_leaf (text : bytes) : FileLeafInput :=
  unwrap_or {| fl_bytes := []; fl_descriptor := ex_empty_descriptor; fl_hash := [] |}
    (@file_leaf_new mix_blake3 no_json text (Some 5) None None).
Definition ex_file_series : list FileLeafInput := [ex_file_leaf (bstr "abcde"); ex_file_leaf (bstr "fgh"); ex_file_leaf (bstr "ijklmn")].
Definition ex_file_hashes : list bytes := map fl_hash ex_file_series.

(** The manifest of a series with the given leaf hashes. *)
Definition ex_series_manifest (kind : PayloadKind) (units : Z) (mn : option Z) (hashes : list bytes) : SeriesManifest :=
  unwrap_or ex_manifest (@series_new mix_blake3 no_json kind units (Z.of_nat (length hashes)) mn None None
    (unwrap_or frontier_empty (@from_leaves mix_blake3 hashes))).
Definition ex_file_manifest : SeriesManifest := ex_series_manifest File 14 (Some 5) ex_file_hashes.
Definition ex_manifest_hash (m : SeriesManifest) : bytes := unwrap_or [] (@series_object_hash mix_blake3 m).

(** Leaves 1 and 2 of the series in objects of four bytes. *)
Definition ex_file_range : list FileLeafInput := skipn 1 ex_file_series.

Lemma file_pack_builds_witness :
  (exists p, @build_file_pack mix_blake3 (ex_manifest_hash ex_file_manifest) ex_file_manifest ex_file_hashes 1 ex_file_range 4
      = Ok {| built_index := p; built_objects := map (fun c => (@of_bytes mix_blake3 c, c)) (chunks 4 (concat (map fl_bytes ex_file_range))) |}
    /\ concat (chunks 4 (concat (map fl_bytes ex_file_range))) = concat (map fl_bytes ex_file_range)
    /\ Forall (fun c => 0 < Z.of_nat (length c) <= 4) (chunks 4 (concat (map fl_bytes ex_file_range)))
    /\ @pack_rebuild mix_blake3 p = Ok p /\ leaf_start p = 1 /\ leaf_descriptors p = map fl_descriptor ex_file_range
    /\ physical_object_hashes p = map (@of_bytes mix_blake3) (chunks 4 (concat (map fl_bytes ex_file_range)))
    /\ @verify_pack_against_manifest mix_blake3 (ex_manifest_hash ex_file_manifest) ex_file_manifest p (map fl_hash ex_file_range) = Ok tt)
  \/ @blake_collision mix_blake3 (chunks 4 (concat (map fl_bytes ex_file_range))) (chunks 4 (concat (map fl_bytes ex_file_range))).
Proof.
  refine (@file_pack_builds mix_blake3 no_json (ex_manifest_hash ex_file_manifest) ex_file_manifest ex_file_hashes 1 ex_file_range 4
            _ _ _ _ _ _ _ _ _ _ _ _).
  - lia.
  - vm_compute. reflexivity.
  - vm_compute. reflexivity.
  - split; vm_compute; reflexivity.
  - vm_compute. reflexivity.
  - vm_compute. discriminate.
  - repeat (apply Forall_cons; split; [exists (Some 5), None, None; split_and!; vm_compute; reflexivity|]). apply Forall_nil. exact I.
  - vm_compute. discriminate.
  - lia.
  - vm_compute. discriminate.
  - vm_compute. reflexivity.
  - intros E. discriminate E.
Defined.
