(* ===== verification/TablePack.v ===== *)
(** Table packs, [content/series_pack_builder.rs]: the rows of the leaves cut
    into Parquet objects of at most [max_rows_per_object] rows that never cross
    a change of schema, and the index over them, where a record batch is the list
    of its rows and the Arrow writer is a parameter; then the leaves handed to the
    builder, [TableLeafInput::new], over Arrow schemas and record batches. *)

From stdpp Require Import base list numbers gmap sets sorting strings options.
From Stdlib Require Import ZArith Lia.
From S2P Require Import Prelude RustStd Wire CanonicalJson Tree MerkleTree SeriesMerkle SeriesLeaf SeriesManifest SeriesPack PackLayout PackBuilder TableLeaf TableRows.

Open Scope Z_scope.

(** Arrow as the builder uses it: schemas, rows, and the bytes of a Parquet file
    with the given batches, or the writer's error. *)
Class ArrowWriter := {
  Schema : Type;
  Row : Type;
  arrow_write : Schema -> list (list Row) -> option bytes;
}.

Section Table.
Context `{Blake3} `{JsonParser} `{ArrowWriter}.

Record TableLeafInput := {
  tl_schema : Schema;
  tl_batches : list (list Row);
  tl_descriptor : PackLeafDescriptor;
  tl_hash : bytes;
  tl_fingerprint : bytes;
}.

Definition with_schema_fingerprint (d : PackLeafDescriptor) (fp : bytes) : PackLeafDescriptor :=
  {| logical_leaf_hash := logical_leaf_hash d; d_count := d_count d; d_schema := Some fp; d_min := d_min d;
     d_max := d_max d; d_attributes := d_attributes d |}.

Definition encode_table_leaf_parquet (schema : Schema) (batches : list (list Row)) : res bytes :=
  match arrow_write schema batches with Some b => Ok b | None => fail TableObjectWrite end.

Definition write_table_object (schema : Schema) (pieces : list (list Row)) : res (bytes * bytes) :=
  b ← encode_table_leaf_parquet schema pieces; mret (of_bytes b, b).

(** The object being filled. *)
Record Pending := {
  pieces : list (list Row);
  rows : Z;
  fingerprint : option bytes;
  schema : option Schema;
}.

Definition flush (st : Filling Pending) : res (Filling Pending) :=
  match schema (current st) with
  | None => Panic
  | Some sc =>
      '(h, b) ← write_table_object sc (pieces (current st));
      mret {| objects := objects st ++ [{| bo_hash := h; bo_bytes := b; bo_start := f_start st; bo_end := f_cursor st |}];
              current := {| pieces := []; rows := 0; fingerprint := fingerprint (current st); schema := schema (current st) |};
              f_start := f_cursor st; f_cursor := f_cursor st |}
  end.

(** [current_pieces.push(batch.slice(offset, take))]. *)
Definition push_piece (st : Filling Pending) (n : Z) (piece : list Row) : res (Filling Pending) :=
  r ← uadd (rows (current st)) n;
  c ← uadd (f_cursor st) n;
  mret {| objects := objects st;
          current := {| pieces := pieces (current st) ++ [piece]; rows := r; fingerprint := fingerprint (current st);
                        schema := schema (current st) |};
          f_start := f_start st; f_cursor := c |}.

(** [while offset < total], with the rows from the offset on. *)
Fixpoint fill_batch (fuel : nat) (cap : Z) (st : Filling Pending) (rest : list Row) : res (Filling Pending) :=
  match rest with
  | [] => Ok st
  | _ :: _ =>
      match fuel with
      | O => Panic
      | S fuel =>
          space ← usub cap (rows (current st));
          let n := Z.min space (Z.of_nat (length rest)) in
          st ← (if 0 <? n then push_piece st n (firstn (Z.to_nat n) rest) else Ok st);
          st ← (if rows (current st) =? cap then flush st else Ok st);
          fill_batch fuel cap st (skipn (Z.to_nat n) rest)
      end
  end.

Fixpoint fill_batches (cap : Z) (st : Filling Pending) (batches : list (list Row)) : res (Filling Pending) :=
  match batches with
  | [] => Ok st
  | b :: batches => st ← fill_batch (length b) cap st b; fill_batches cap st batches
  end.

(** The schema transition at the start of a leaf. *)
Definition switch_schema (st : Filling Pending) (l : TableLeafInput) : res (Filling Pending) :=
  if bool_decide (fingerprint (current st) = Some (tl_fingerprint l)) then Ok st else
  st ← (if bool_decide (length (pieces (current st)) = 0%nat) then Ok st else flush st);
  mret {| objects := objects st;
          current := {| pieces := pieces (current st); rows := rows (current st); fingerprint := Some (tl_fingerprint l);
                        schema := Some (tl_schema l) |};
          f_start := f_start st; f_cursor := f_cursor st |}.

Fixpoint fill_tables (cap : Z) (st : Filling Pending) (leaves : list TableLeafInput) : res (Filling Pending) :=
  match leaves with
  | [] => Ok st
  | l :: leaves => st ← switch_schema st l; st ← fill_batches cap st (tl_batches l); fill_tables cap st leaves
  end.

Definition build_table_physical_objects (leaves : list TableLeafInput) (cap : Z) : res (list BuiltPhysicalObject) :=
  st ← fill_tables cap {| objects := []; current := {| pieces := []; rows := 0; fingerprint := None; schema := None |};
                          f_start := 0; f_cursor := 0 |} leaves;
  if bool_decide (length (pieces (current st)) = 0%nat) then mret (objects st)
  else st ← flush st; mret (objects st).

Definition build_table_pack (mh : bytes) (m : SeriesManifest) (whole : list bytes) (start : Z) (leaves : list TableLeafInput)
    (cap : Z) : res BuiltSeriesPack :=
  if bool_decide (length leaves = 0%nat) then fail NoLeaves else
  _ ← verify_manifest_binding mh m whole Table;
  '(stop, hashes) ← bind_and_recompute_range whole start (Z.of_nat (length leaves)) leaves tl_hash;
  logical ← sum_leaves 0 (map (fun l => d_count (tl_descriptor l)) leaves);
  let ds := map (fun l => with_schema_fingerprint (tl_descriptor l) (tl_fingerprint l)) leaves in
  _ ← (if (start =? 0) && (stop =? sm_leaf_count m) then verify_full_range_aggregate m ds logical else Ok tt);
  os ← build_table_physical_objects leaves cap;
  assemble mh m whole start stop hashes logical ds os.
End Table.

(** * The objects of a table pack *)

Section Objects.
Context `{Blake3} `{ArrowWriter}.

(** The rows of one object, with the fingerprint they all carry. *)
Record Group := { g_fp : bytes; g_schema : Schema; g_pieces : list (list Row) }.

Definition tag (fp : bytes) (rs : list Row) : list (bytes * Row) := map (pair fp) rs.
Definition group_rows (g : Group) : list (bytes * Row) := tag (g_fp g) (concat (g_pieces g)).
Definition leaf_rows (l : TableLeafInput) : list (bytes * Row) := tag (tl_fingerprint l) (concat (tl_batches l)).
Definition group_count (g : Group) : Z := Z.of_nat (length (concat (g_pieces g))).

(** [os] are the groups written one after the other from position [start]. *)
Fixpoint written (start : Z) (gs : list Group) (os : list BuiltPhysicalObject) : Prop :=
  match gs, os with
  | [], [] => True
  | g :: gs, o :: os =>
      arrow_write (g_schema g) (g_pieces g) = Some (bo_bytes o) /\ bo_hash o = of_bytes (bo_bytes o)
      /\ bo_start o = start /\ bo_end o = start + group_count g /\ written (start + group_count g) gs os
  | _, _ => False
  end.

Definition groups_rows (gs : list Group) : list (bytes * Row) := concat (map group_rows gs).

Lemma length_tag fp rs : length (tag fp rs) = length rs.
Proof. apply length_map. Qed.

Lemma written_snoc start gs os g o :
  written start gs os -> arrow_write (g_schema g) (g_pieces g) = Some (bo_bytes o) -> bo_hash o = of_bytes (bo_bytes o) ->
  bo_start o = start + Z.of_nat (length (groups_rows gs)) ->
  bo_end o = start + Z.of_nat (length (groups_rows gs)) + group_count g -> written start (gs ++ [g]) (os ++ [o]).
Proof.
  revert start os. induction gs as [|g' gs IH]; intros start [|o' os]; simpl; try done.
  - intros _ Hw Hh Hs He. rewrite Z.add_0_r in *. subst start. by split_and!.
  - intros (Hw' & Hh' & Hs' & He' & Hrest) Hw Hh Hs He.
    assert (forall x, start + Z.of_nat (length (groups_rows (g' :: gs))) + x
      = start + group_count g' + Z.of_nat (length (groups_rows gs)) + x) as E.
    { intros x. unfold groups_rows, group_count, group_rows. simpl. rewrite length_app, length_tag. lia. }
    split_and!; [done..|]. apply IH; [done..| |].
    + specialize (E 0). lia.
    + by rewrite He, E.
Qed.

Definition group_ok (cap : Z) (leaves : list TableLeafInput) (g : Group) : Prop :=
  0 < group_count g <= cap /\ exists l, l ∈ leaves /\ tl_fingerprint l = g_fp g /\ tl_schema l = g_schema g.

(** The rows of the object being filled. *)
Definition pending_rows (p : Pending) : list (bytes * Row) := tag (default [] (fingerprint p)) (concat (pieces p)).

(** The object being filled belongs to one of [leaves]. *)
Definition pending_ok (leaves : list TableLeafInput) (p : Pending) : Prop :=
  rows p = Z.of_nat (length (concat (pieces p))) /\ Forall (fun x => x <> []) (pieces p)
  /\ match fingerprint p, schema p with
     | Some fp, Some sc => exists l, l ∈ leaves /\ tl_fingerprint l = fp /\ tl_schema l = sc
     | None, None => pieces p = []
     | _, _ => False
     end.

(** What the loop holds after the tagged rows [d], with at most [b] rows pending. *)
Definition tabled (cap b : Z) (leaves : list TableLeafInput) (d : list (bytes * Row)) (st : Filling Pending) : Prop :=
  exists gs, Forall (group_ok cap leaves) gs /\ written 0 gs (objects st)
    /\ d = groups_rows gs ++ pending_rows (current st)
    /\ f_start st = Z.of_nat (length (groups_rows gs)) /\ f_cursor st = Z.of_nat (length d)
    /\ pending_ok leaves (current st) /\ rows (current st) <= b.

(** Success with [P], or the error of a writer that can fail. *)
Definition or_write_error {A} (P : A -> Prop) (m : res A) : Prop :=
  (m = fail TableObjectWrite /\ exists sc ps, arrow_write sc ps = None) \/ exists a, m = Ok a /\ P a.

Lemma or_bind {A B} (P : A -> Prop) (Q : B -> Prop) (m : res A) (k : A -> res B) :
  or_write_error P m -> (forall a, P a -> or_write_error Q (k a)) -> or_write_error Q (m ≫= k).
Proof. intros [[-> Hx]|(a & -> & Ha)] Hk; [by left|exact (Hk a Ha)]. Qed.

Lemma or_ok {A} (P : A -> Prop) a : P a -> or_write_error P (Ok a).
Proof. right. eauto. Qed.

Lemma groups_rows_snoc gs g : groups_rows (gs ++ [g]) = groups_rows gs ++ group_rows g.
Proof. unfold groups_rows. rewrite map_app, concat_app. simpl. by rewrite app_nil_r. Qed.

Lemma nonempty_pieces (ps : list (list Row)) : Forall (fun x => x <> []) ps -> ps <> [] -> (0 < length (concat ps))%nat.
Proof. destruct 1 as [|x ps Hx Hps]; [done|]. intros _. simpl. rewrite length_app. destruct x; [done|simpl; lia]. Qed.

Lemma flush_ok cap leaves d st :
  tabled cap cap leaves d st -> pieces (current st) <> [] ->
  or_write_error (fun st' => tabled cap 0 leaves d st' /\ fingerprint (current st') = fingerprint (current st)) (flush st).
Proof.
  intros (gs & Hgs & Hw & Ed & Hs & Hc & (Hr & Hne & Hp) & Hb) Hpne. unfold flush.
  pose proof (nonempty_pieces _ Hne Hpne) as Hlen. unfold pending_rows in Ed.
  destruct (fingerprint (current st)) as [fp|] eqn:Efp, (schema (current st)) as [sc|] eqn:Esc; [|done|done|by rewrite Hp in Hpne].
  unfold write_table_object, encode_table_leaf_parquet.
  destruct (arrow_write sc (pieces (current st))) as [b|] eqn:Eb; [|left; split; [done|by eauto]]. cbn [mbind outcome_bind]. apply or_ok.
  split; [|done]. exists (gs ++ [{| g_fp := fp; g_schema := sc; g_pieces := pieces (current st) |}]).
  cbn [objects current f_start f_cursor default] in *.
  assert (d = groups_rows (gs ++ [{| g_fp := fp; g_schema := sc; g_pieces := pieces (current st) |}])) as Ed' by (by rewrite groups_rows_snoc).
  split_and!.
  - apply Forall_app. split; [done|]. apply Forall_singleton. split; [unfold group_count; simpl; lia|done].
  - apply written_snoc; simpl; [done..|by rewrite Hs|].
    rewrite Hc, Ed, length_app, length_tag. unfold group_count. simpl. lia.
  - by rewrite <- Ed', app_nil_r.
  - by rewrite Hc, <- Ed'.
  - done.
  - unfold pending_ok. cbn [rows pieces fingerprint schema]. split_and!; [done|constructor|done].
  - done.
Qed.

Lemma push_piece_ok cap b leaves d st n piece fp :
  tabled cap b leaves d st -> fingerprint (current st) = Some fp ->
  0 < n -> Z.of_nat (length piece) = n -> rows (current st) + n <= cap -> cap <= u64_max ->
  Z.of_nat (length d) + n <= u64_max ->
  exists st', push_piece st n piece = Ok st' /\ tabled cap cap leaves (d ++ tag fp piece) st'
    /\ fingerprint (current st') = Some fp /\ pieces (current st') <> [] /\ rows (current st') = rows (current st) + n.
Proof.
  intros (gs & Hgs & Hw & Ed & Hs & Hc & (Hr & Hne & Hp) & Hb) Efp Hn Hl Hcap Hcu Hd. unfold push_piece, uadd.
  destruct (Z.ltb_spec u64_max (rows (current st) + n)); [lia|]. cbn [mbind outcome_bind].
  destruct (Z.ltb_spec u64_max (f_cursor st + n)); [lia|]. cbn [mbind outcome_bind].
  eexists. split; [reflexivity|]. cbn [current fingerprint pieces rows]. split_and!; [|done|by destruct (pieces (current st))|done].
  exists gs. cbn [objects current f_start f_cursor]. unfold pending_ok, pending_rows in *. cbn [rows pieces fingerprint schema].
  rewrite Efp in *. cbn [default] in *. rewrite concat_app. cbn [concat]. rewrite app_nil_r. unfold tag in *. rewrite map_app, app_assoc.
  split_and!; try done; rewrite ?Ed, ?length_app, ?length_map in *; try lia.
  { reflexivity. }
  apply Forall_app. split; [done|]. apply Forall_singleton. intros ->. simpl in Hl. lia.
Qed.

Lemma tabled_weaken cap b b' leaves d st : b <= b' -> tabled cap b leaves d st -> tabled cap b' leaves d st.
Proof. intros Hb (gs & ? & ? & ? & ? & ? & ? & ?). exists gs. split_and!; try done. lia. Qed.

Lemma fill_batch_ok cap leaves fp : 0 < cap <= u64_max -> forall fuel d st rest,
  tabled cap (cap - 1) leaves d st -> fingerprint (current st) = Some fp -> (length rest <= fuel)%nat ->
  Z.of_nat (length d) + Z.of_nat (length rest) <= u64_max ->
  or_write_error (fun st' => tabled cap (cap - 1) leaves (d ++ tag fp rest) st' /\ fingerprint (current st') = Some fp)
    (fill_batch fuel cap st rest).
Proof.
  intros Hcap. induction fuel as [|fuel IH]; intros d st rest Ht Efp Hl Hb.
  { destruct rest; [|simpl in Hl; lia]. apply or_ok. by rewrite app_nil_r. }
  destruct rest as [|x rest]; [apply or_ok; by rewrite app_nil_r|]. cbn [fill_batch].
  assert (rows (current st) <= cap - 1) as Hr by (by destruct Ht as (? & ? & ? & ? & ? & ? & ? & ?)).
  set (r := x :: rest) in *. unfold usub. destruct (Z.ltb_spec cap (rows (current st))); [lia|]. cbn [mbind outcome_bind].
  assert (0 < Z.of_nat (length r)) as Hr0 by (subst r; simpl; lia).
  set (n := Z.min (cap - rows (current st)) (Z.of_nat (length r))). destruct (Z.ltb_spec 0 n); [|lia].
  assert (Z.of_nat (length (firstn (Z.to_nat n) r)) = n) as Hn by (rewrite length_firstn; lia).
  destruct (push_piece_ok cap (cap - 1) leaves d st n (firstn (Z.to_nat n) r) fp) as (st1 & E1 & Ht1 & Efp1 & Hne1 & Hr1);
    [done|done|lia|done|lia|lia|lia|]. rewrite (bind_eq _ _ _ E1).
  assert (d ++ tag fp r = (d ++ tag fp (firstn (Z.to_nat n) r)) ++ tag fp (skipn (Z.to_nat n) r)) as ->.
  { rewrite <- app_assoc. unfold tag. by rewrite <- map_app, firstn_skipn. }
  apply (or_bind (fun st' => tabled cap (cap - 1) leaves (d ++ tag fp (firstn (Z.to_nat n) r)) st' /\ fingerprint (current st') = Some fp)).
  - destruct (Z.eqb_spec (rows (current st1)) cap) as [Efull|Hnf].
    + destruct (flush_ok _ _ _ _ Ht1 Hne1) as [?|(st2 & E2 & Ht2 & Ef2)]; [by left|]. right. exists st2. split; [done|].
      split; [|congruence]. eapply tabled_weaken; [|done]. lia.
    + apply or_ok. split; [|done]. destruct Ht1 as (gs & ? & ? & ? & ? & ? & ? & ?). exists gs. split_and!; try done. lia.
  - intros st2 [Ht2 Ef2]. apply IH; [done|done| |]; rewrite ?length_app, ?length_tag, ?length_skipn; lia.
Qed.

Lemma fill_batches_ok cap leaves fp : 0 < cap <= u64_max -> forall batches d st,
  tabled cap (cap - 1) leaves d st -> fingerprint (current st) = Some fp ->
  Z.of_nat (length d) + Z.of_nat (length (concat batches)) <= u64_max ->
  or_write_error (tabled cap (cap - 1) leaves (d ++ tag fp (concat batches))) (fill_batches cap st batches).
Proof.
  intros Hcap. induction batches as [|b batches IH]; intros d st Ht Efp Hb.
  { apply or_ok. simpl. by rewrite app_nil_r. }
  simpl in Hb |- *. rewrite length_app in Hb. unfold tag. rewrite map_app, app_assoc. eapply or_bind.
  - apply (fill_batch_ok cap leaves fp Hcap); [done|done|done|lia].
  - intros st1 [Ht1 Ef1]. apply IH; [done|done|]. rewrite length_app, length_map. lia.
Qed.

Lemma switch_ok cap leaves d st l :
  0 < cap -> l ∈ leaves -> tabled cap (cap - 1) leaves d st ->
  or_write_error (fun st' => tabled cap (cap - 1) leaves d st' /\ fingerprint (current st') = Some (tl_fingerprint l))
    (switch_schema st l).
Proof.
  intros Hcap Hl Ht. unfold switch_schema. case_bool_decide as Efp; [by apply or_ok|].
  apply (or_bind (fun st' => tabled cap (cap - 1) leaves d st' /\ pieces (current st') = [])).
  - case_bool_decide as Ep; [apply or_ok; split; [done|by destruct (pieces (current st))]|].
    destruct (flush_ok cap leaves d st) as [?|(st1 & E1 & Ht1 & _)]; [eapply tabled_weaken; [|done]; lia|intros E; by rewrite E in Ep|by left|].
    right. exists st1. split; [done|]. split; [eapply tabled_weaken; [|done]; lia|].
    destruct Ht1 as (gs & _ & _ & _ & _ & _ & (Hr & Hne & _) & H0r).
    destruct (decide (pieces (current st1) = [])) as [|Hx]; [done|]. pose proof (nonempty_pieces _ Hne Hx). lia.
  - intros st1 [(gs & ? & ? & Ed & ? & ? & (Hr & Hne & _) & Hb) Ep]. apply or_ok. split; [|done].
    exists gs. cbn [objects current f_start f_cursor]. unfold pending_rows, pending_ok in *.
    cbn [rows pieces fingerprint schema]. rewrite Ep in *. split_and!; try done. by exists l.
Qed.

Lemma fill_tables_ok cap all : 0 < cap <= u64_max -> forall leaves d st,
  leaves ⊆ all -> tabled cap (cap - 1) all d st ->
  Z.of_nat (length d) + Z.of_nat (length (concat (map leaf_rows leaves))) <= u64_max ->
  or_write_error (tabled cap (cap - 1) all (d ++ concat (map leaf_rows leaves))) (fill_tables cap st leaves).
Proof.
  intros Hcap. induction leaves as [|l leaves IH]; intros d st Hsub Ht Hb.
  { apply or_ok. simpl. by rewrite app_nil_r. }
  simpl in Hb |- *. rewrite length_app in Hb. rewrite app_assoc. unfold leaf_rows in Hb at 1. rewrite length_tag in Hb.
  eapply or_bind; [apply (switch_ok cap all d); [lia|set_solver|done]|]. intros st1 [Ht1 Ef1]. simpl.
  eapply or_bind; [apply (fill_batches_ok cap all (tl_fingerprint l) Hcap); [done|done|lia]|]. intros st2 Ht2.
  apply IH; [set_solver|done|]. rewrite length_app. unfold leaf_rows at 1. rewrite length_tag. lia.
Qed.

(** The objects of a table pack, or the writer's error. *)
Lemma table_objects leaves cap :
  0 < cap <= u64_max -> Z.of_nat (length (concat (map leaf_rows leaves))) <= u64_max ->
  or_write_error (fun os => exists gs, written 0 gs os /\ groups_rows gs = concat (map leaf_rows leaves)
      /\ Forall (group_ok cap leaves) gs) (build_table_physical_objects leaves cap).
Proof.
  intros Hcap Hb. unfold build_table_physical_objects. eapply or_bind.
  { apply (fill_tables_ok cap leaves Hcap leaves [] _); [done| |done].
    exists []. split_and!; try done; simpl; lia. }
  intros st (gs & Hgs & Hw & Ed & Hs & Hc & Hp & Hr). simpl in Ed. case_bool_decide as Ep.
  - apply or_ok. exists gs. split_and!; [done| |done]. rewrite Ed. unfold pending_rows.
    assert (pieces (current st) = []) as -> by (by destruct (pieces (current st))). by rewrite app_nil_r.
  - destruct (flush_ok cap leaves (concat (map leaf_rows leaves)) st) as [[-> Hx]|(st1 & -> & (gs1 & Hg1 & Hw1 & Ed1 & _ & _ & (Hr1 & Hne1 & _) & Hb1) & _)];
      [|by intros E; rewrite E in Ep|by left|].
    { exists gs. split_and!; try done; lia. }
    apply or_ok. exists gs1. split_and!; [done| |done]. rewrite Ed1. unfold pending_rows.
    destruct (decide (pieces (current st1) = [])) as [->|Hx]; [by rewrite app_nil_r|]. pose proof (nonempty_pieces _ Hne1 Hx). lia.
Qed.
End Objects.

(** * The index of a table pack *)

Section TablePack.
Context `{Blake3} `{JsonParser} `{ArrowWriter}.

Definition bytes_total (os : list BuiltPhysicalObject) : Z := foldr (fun o n => Z.of_nat (length (bo_bytes o)) + n) 0 os.

Lemma bytes_total_nonneg os : 0 <= bytes_total os.
Proof. induction os; simpl; lia. Qed.

Lemma physical_sum_ok acc os : acc + bytes_total os <= u64_max -> physical_sum acc os = Ok (acc + bytes_total os).
Proof.
  revert acc. induction os as [|o os IH]; intros acc Hb; simpl in *; [by rewrite Z.add_0_r|].
  pose proof (bytes_total_nonneg os). unfold checked_add.
  destruct (Z.ltb_spec u64_max (acc + Z.of_nat (length (bo_bytes o)))); [lia|]. cbn [mbind outcome_bind]. rewrite IH by lia. f_equal. lia.
Qed.

(** The span of a group between those before it. *)
Definition span_of_group (start : Z) (gs : list Group) (os : list BuiltPhysicalObject) (s : PackObjectSpan) : Prop :=
  exists pre g post o, gs = pre ++ g :: post /\ o ∈ os /\ object_hash s = of_bytes (bo_bytes o)
    /\ physical_len s = Z.of_nat (length (bo_bytes o))
    /\ logical_start s = start + Z.of_nat (length (groups_rows pre)) /\ logical_end s = logical_start s + group_count g.

Lemma group_rows_length g gs : Z.of_nat (length (groups_rows (g :: gs))) = group_count g + Z.of_nat (length (groups_rows gs)).
Proof. unfold groups_rows, group_count, group_rows. simpl. rewrite length_app, length_tag. lia. Qed.

Lemma written_spans gs : forall start p os,
  written start gs os -> Forall (fun g => 0 < group_count g) gs -> Forall (fun o => bo_bytes o <> []) os ->
  p + bytes_total os <= u64_max ->
  exists spans, spans_from p os = Ok spans /\ length spans = length gs
    /\ spans_tile start p spans (start + Z.of_nat (length (groups_rows gs))) (p + bytes_total os)
    /\ Forall (span_of_group start gs os) spans.
Proof.
  induction gs as [|g gs IH]; intros start p [|o os] Hw Hg Hne Hb; try done.
  { exists []. simpl. split_and!; try done; lia. }
  destruct Hw as (_ & Hh & Hs & He & Hw). apply Forall_cons in Hg as [Hg0 Hg], Hne as [Hne0 Hne].
  assert (0 < Z.of_nat (length (bo_bytes o))) as Hlo by (destruct (bo_bytes o); [done|simpl; lia]).
  simpl in Hb. pose proof (bytes_total_nonneg os).
  destruct (IH (start + group_count g) (p + Z.of_nat (length (bo_bytes o))) os Hw Hg Hne ltac:(lia)) as (spans & Esp & El & Ht & Hf).
  cbn [spans_from]. unfold checked_add. destruct (Z.ltb_spec u64_max (p + Z.of_nat (length (bo_bytes o)))); [lia|].
  cbn [mbind outcome_bind]. set (s := {| object_hash := bo_hash o; logical_start := bo_start o; logical_end := bo_end o;
    physical_start := p; physical_end := p + Z.of_nat (length (bo_bytes o)) |}).
  exists (s :: spans). rewrite (bind_eq _ _ s), (bind_eq _ _ _ Esp) by (apply span_new_Ok; split; [done|]; unfold nonempty_span; simpl; lia).
  split_and!; [done|simpl; lia| |constructor].
  - cbn [spans_tile]. rewrite group_rows_length. simpl. rewrite Hs, He. rewrite !Z.add_assoc in *. split_and!; try done; lia.
  - exists [], g, gs, o. unfold physical_len. simpl. split_and!; try done; [by left|lia..].
  - eapply Forall_impl; [exact Hf|]. intros s' (pre & g' & post & o' & -> & Ho & ? & ? & Hls & ?).
    exists (g :: pre), g', post, o'. rewrite group_rows_length. split_and!; try done; [by right|lia].
Qed.

Lemma tag_lookup (pre rest : list (bytes * Row)) fp rs x :
  (length pre <= x < length pre + length rs)%nat -> fst <$> (pre ++ tag fp rs ++ rest) !! x = Some fp.
Proof.
  intros Hx. rewrite lookup_app_r, lookup_app_l by (rewrite ?length_tag; lia). unfold tag. rewrite list_lookup_fmap.
  destruct (lookup_lt_is_Some_2 rs (x - length pre)%nat ltac:(lia)) as [r ->]. done.
Qed.

(** What [TableLeafInput::new] guarantees of a leaf. *)
Definition good_table_leaf (l : TableLeafInput) : Prop :=
  d_count (tl_descriptor l) = Z.of_nat (length (concat (tl_batches l))) /\ 0 < d_count (tl_descriptor l)
  /\ logical_leaf_hash (tl_descriptor l) = tl_hash l.

Definition table_descriptor (l : TableLeafInput) : PackLeafDescriptor :=
  with_schema_fingerprint (tl_descriptor l) (tl_fingerprint l).

Lemma table_units leaves :
  Forall good_table_leaf leaves ->
  units (map table_descriptor leaves) = Z.of_nat (length (concat (map leaf_rows leaves)))
  /\ foldr Z.add 0 (map (fun l => d_count (tl_descriptor l)) leaves) = Z.of_nat (length (concat (map leaf_rows leaves)))
  /\ leaf_hashes (map table_descriptor leaves) = map tl_hash leaves.
Proof.
  induction 1 as [|l leaves (Hc & _ & Hh) Hls (E1 & E2 & E3)]; [done|]. simpl. rewrite length_app. unfold leaf_rows at 1 3.
  rewrite !length_tag, E1, E2, Hc, Hh. split_and!; [lia|lia|by f_equal].
Qed.

Lemma table_leaf_at leaves i l x :
  leaves !! i = Some l -> Forall good_table_leaf leaves ->
  units (take i (map table_descriptor leaves)) <= Z.of_nat x < units (take (S i) (map table_descriptor leaves)) ->
  fst <$> concat (map leaf_rows leaves) !! x = Some (tl_fingerprint l).
Proof.
  intros Hi Hg Hx. pose proof (take_S_r leaves i l Hi) as Etk.
  rewrite <- !fmap_take in Hx. change (table_descriptor <$> take i leaves) with (map table_descriptor (take i leaves)) in Hx.
  change (table_descriptor <$> take (S i) leaves) with (map table_descriptor (take (S i) leaves)) in Hx.
  destruct (table_units (take i leaves)) as (E1 & _); [by apply Forall_take|].
  destruct (table_units (take (S i) leaves)) as (E2 & _); [by apply Forall_take|]. rewrite E1, E2, Etk in Hx.
  rewrite map_app, concat_app in Hx. simpl in Hx. rewrite app_nil_r, length_app in Hx. unfold leaf_rows at 3 in Hx. rewrite length_tag in Hx.
  rewrite <- (take_drop_middle leaves i l Hi) at 1. rewrite map_app, concat_app. simpl. apply tag_lookup. lia.
Qed.

Lemma table_leaf_exists leaves x :
  Forall good_table_leaf leaves -> (x < length (concat (map leaf_rows leaves)))%nat ->
  exists i l, leaves !! i = Some l
    /\ units (take i (map table_descriptor leaves)) <= Z.of_nat x < units (take (S i) (map table_descriptor leaves)).
Proof.
  intros Hg. revert x. induction Hg as [|l leaves (Hc & Hp & _) Hls IH]; intros x Hx; simpl in Hx; [lia|].
  rewrite length_app in Hx. unfold leaf_rows in Hx at 1. rewrite length_tag in Hx.
  destruct (decide (x < length (concat (tl_batches l)))%nat) as [Hlt|Hge].
  { exists 0%nat, l. simpl. split; [done|]. lia. }
  destruct (IH (x - length (concat (tl_batches l)))%nat ltac:(lia)) as (i & l' & Hi & Hu). exists (S i), l'. split; [done|].
  simpl in Hu |- *. rewrite Hc. destruct (map table_descriptor leaves); simpl in *; lia.
Qed.

(** Every object of the pack holds rows of one fingerprint. *)
Lemma group_one_schema leaves gs os s :
  Forall good_table_leaf leaves -> groups_rows gs = concat (map leaf_rows leaves) ->
  Forall (fun g => 0 < group_count g) gs -> span_of_group 0 gs os s -> one_schema (map table_descriptor leaves) s.
Proof.
  intros Hg E Hpos (pre & g & post & o & -> & _ & _ & _ & Hs & He). apply Forall_app in Hpos as [_ [Hg0 _]%Forall_cons].
  assert (forall x, logical_start s <= Z.of_nat x < logical_end s -> fst <$> concat (map leaf_rows leaves) !! x = Some (g_fp g)) as Hfp.
  { intros x Hx. rewrite <- E. unfold groups_rows. rewrite map_app, concat_app. simpl. apply tag_lookup.
    unfold groups_rows, group_count in *. lia. }
  assert (Z.of_nat (length (concat (map leaf_rows leaves))) >= logical_end s) as Hlen.
  { rewrite <- E. unfold groups_rows. rewrite map_app, concat_app, length_app.
    pose proof (group_rows_length g post). unfold groups_rows in *. simpl in *. lia. }
  exists (g_fp g). split.
  - destruct (table_leaf_exists leaves (length (groups_rows pre)) Hg) as (i & l & Hi & Hu); [lia|].
    exists i. split; [rewrite length_map; by eapply lookup_lt_Some|]. unfold leaf_meets. lia.
  - intros i d Hd [Hm1 Hm2]. apply list_lookup_fmap_Some_1 in Hd as (l & -> & Hi).
    pose proof (take_S_r (map table_descriptor leaves) i (table_descriptor l)) as Etk.
    assert (units (take i (map table_descriptor leaves)) < units (take (S i) (map table_descriptor leaves))) as Hlt.
    { rewrite Forall_lookup in Hg. destruct (Hg _ _ Hi) as (_ & Hp & _).
      rewrite Etk by (rewrite list_lookup_fmap, Hi; done). clear -Hp. induction (take i (map table_descriptor leaves)); simpl; lia. }
    assert (0 <= units (take i (map table_descriptor leaves))) as Hnn.
    { apply units_nonneg, Forall_take, Forall_fmap. eapply Forall_impl; [exact Hg|]. intros l' (_ & ? & _). simpl. lia. }
    set (x := Z.max (units (take i (map table_descriptor leaves))) (logical_start s)) in *.
    pose proof (table_leaf_at leaves i l (Z.to_nat x) Hi Hg ltac:(lia)) as Hx. rewrite Hfp in Hx by lia. simpl. congruence.
Qed.

Lemma written_bytes start gs os :
  written start gs os ->
  Forall2 (fun g o => arrow_write (g_schema g) (g_pieces g) = Some (bo_bytes o) /\ bo_hash o = of_bytes (bo_bytes o)) gs os.
Proof.
  revert start os. induction gs as [|g gs IH]; intros start [|o os]; simpl; try done.
  intros (? & ? & _ & _ & Hw). constructor; [done|]. by eapply IH.
Qed.

Lemma table_layout leaves gs os spans :
  Forall good_table_leaf leaves -> leaves <> [] -> groups_rows gs = concat (map leaf_rows leaves) ->
  Forall (fun g => 0 < group_count g) gs -> Z.of_nat (length (concat (map leaf_rows leaves))) <= u64_max ->
  spans_tile 0 0 spans (Z.of_nat (length (groups_rows gs))) (bytes_total os) -> Forall (span_of_group 0 gs os) spans ->
  layout spans (map table_descriptor leaves) (Z.of_nat (length (concat (map leaf_rows leaves)))) (bytes_total os)
  \/ blake_collision (map bo_bytes os) (map bo_bytes os).
Proof.
  intros Hg Hne E Hpos Hb Ht Hf. destruct (collision_or_injective (map bo_bytes os)) as [Hinj|]; [left|by right].
  destruct (table_units leaves Hg) as (Eu & _ & _).
  assert (table_leaves (map table_descriptor leaves)) as Htl by (apply Forall_fmap, Forall_forall; intros l _; done).
  split_and!; [by right|lia|by rewrite <- E| | |].
  - intros Hfl. destruct leaves as [|l leaves]; [done|]. apply Forall_inv in Hfl. done.
  - intros _. eapply Forall_impl; [exact Hf|]. intros s. by apply group_one_schema.
  - rewrite Forall_forall in Hf. intros s s' Hs Hs' Eh.
    destruct (Hf s Hs) as (_ & _ & _ & o & _ & Ho & E1 & -> & _). destruct (Hf s' Hs') as (_ & _ & _ & o' & _ & Ho' & E2 & -> & _).
    rewrite (Hinj (bo_bytes o) (bo_bytes o')); [done|by apply list_elem_of_fmap_2|by apply list_elem_of_fmap_2|].
    unfold of_bytes in *. congruence.
Qed.

Lemma build_table_assemble mh m whole start leaves cap os :
  series_object_hash m = Ok mh -> sm_kind m = Table -> manifest_of m whole ->
  Z.of_nat (length whole) < 2 ^ 64 -> leaves <> [] -> Forall good_table_leaf leaves ->
  Z.of_nat (length (concat (map leaf_rows leaves))) <= u64_max ->
  0 <= start -> start + Z.of_nat (length leaves) <= Z.of_nat (length whole) ->
  map tl_hash leaves = take (length leaves) (drop (Z.to_nat start) whole) ->
  (start = 0 -> length leaves = length whole ->
   totals_agree m (map table_descriptor leaves) (Z.of_nat (length (concat (map leaf_rows leaves))))) ->
  build_table_physical_objects leaves cap = Ok os ->
  build_table_pack mh m whole start leaves cap
  = assemble mh m whole start (start + Z.of_nat (length leaves)) (map tl_hash leaves)
      (Z.of_nat (length (concat (map leaf_rows leaves)))) (map table_descriptor leaves) os.
Proof.
  intros Hh Hk Hm Hb Hne Hg Hdata Hs0 Hle Hmap Htot Hos. unfold build_table_pack.
  rewrite bool_decide_false by (by destruct leaves). rewrite (bind_eq _ _ _ (binding_ok mh m whole Table Hh Hk Hm)).
  rewrite (bind_eq _ _ _ (bind_range_ok whole start leaves tl_hash Hs0 Hle ltac:(unfold u64_max; lia) Hmap)).
  destruct (table_units leaves Hg) as (_ & Ef & _).
  rewrite (bind_eq _ _ (Z.of_nat (length (concat (map leaf_rows leaves))))).
  - rewrite (bind_eq _ _ tt); [by rewrite (bind_eq _ _ _ Hos)|].
    destruct Hm as [Hc _]. destruct (Z.eqb_spec start 0); [|done].
    destruct (Z.eqb_spec (start + Z.of_nat (length leaves)) (sm_leaf_count m)); [|done]. apply aggregate_ok, Htot; [done|lia].
  - rewrite sum_leaves_ok; rewrite ?Ef; [done| |lia]. apply Forall_fmap. eapply Forall_impl; [exact Hg|].
    intros l (_ & ? & _). simpl. lia.
Qed.

Lemma table_counts leaves :
  Forall good_table_leaf leaves -> Z.of_nat (length (concat (map leaf_rows leaves))) <= u64_max ->
  Forall (fun d => is_u64 (d_count d) = true) (map table_descriptor leaves).
Proof.
  induction 1 as [|l leaves (Hc & Hp & _) Hls IH]; intros Hb; simpl; constructor; simpl in Hb; rewrite length_app in Hb;
    unfold leaf_rows in Hb at 1; rewrite length_tag in Hb; [|apply IH; lia].
  simpl. unfold is_u64, u64_max in *. lia.
Qed.

(** With a writer that does not fail, the splitting does not. *)
Lemma table_objects_total leaves cap :
  (forall sc ps, exists b, arrow_write sc ps = Some b /\ b <> []) ->
  0 < cap <= u64_max -> Z.of_nat (length (concat (map leaf_rows leaves))) <= u64_max ->
  exists gs os, build_table_physical_objects leaves cap = Ok os /\ written 0 gs os
    /\ groups_rows gs = concat (map leaf_rows leaves) /\ Forall (group_ok cap leaves) gs
    /\ Forall (fun o => bo_bytes o <> []) os.
Proof.
  intros Hwr Hcap Hb. destruct (table_objects leaves cap Hcap Hb) as [(_ & sc & ps & E)|(os & Hos & gs & Hw & Er & Hg)].
  { destruct (Hwr sc ps) as (b & E' & _). congruence. }
  exists gs, os. split_and!; try done. apply Forall_lookup. intros i o Ho.
  destruct (Forall2_lookup_r _ _ _ _ _ (written_bytes _ _ _ Hw) Ho) as (g & _ & E & _).
  destruct (Hwr (g_schema g) (g_pieces g)) as (b & E' & Hne). congruence.
Qed.

End TablePack.

(** * Witness *)

(** A writer that frames the rows; schemas are numbers and rows bytes. *)
Definition ex_arrow : ArrowWriter :=
  {| Schema := nat; Row := byte; arrow_write := fun sc ps => Some (bstr "PAR1" ++ to_le 4 (Z.of_nat sc) ++ concat ps) |}.

Definition ex_table_leaf (sc : nat) (batches : list bytes) : @TableLeafInput ex_arrow :=
  let h := @of_bytes mix_blake3 (to_le 4 (Z.of_nat sc) ++ concat batches) in
  @Build_TableLeafInput ex_arrow sc batches
    {| logical_leaf_hash := h; d_count := Z.of_nat (length (concat batches)); d_schema := None; d_min := None; d_max := None;
       d_attributes := None |} h (to_le 32 (Z.of_nat sc)).

(** Three leaves, the last with another schema; objects of two rows. *)
Definition ex_tables : list (@TableLeafInput ex_arrow) :=
  [ex_table_leaf 1 [bstr "ab"; bstr "c"]; ex_table_leaf 1 [bstr "def"]; ex_table_leaf 2 [bstr "gh"; bstr "i"]].
Definition ex_table_hashes : list bytes := map (@tl_hash ex_arrow) ex_tables.
Definition ex_table_manifest : SeriesManifest := ex_series_manifest Table 9 None ex_table_hashes.


(** The leaves handed to the table pack builder, [TableLeafInput::new] of
    [content/series_pack_builder.rs], over Arrow schemas and record batches: what
    it builds is what the builder of [TablePack] relies on. *)

(** The Parquet writer on batches of rows. *)
Class ParquetWriter := { parquet_write : ArrowSchema -> list (list (list (option Scalar))) -> option bytes }.

#[export] Instance arrow_rows `{ParquetWriter} : ArrowWriter :=
  {| Schema := ArrowSchema; Row := list (option Scalar); arrow_write := parquet_write |}.

Section Input.
Context `{Blake3} `{JsonParser} `{ArrowCast} `{ParquetWriter}.

Definition table_leaf_new (s : ArrowSchema) (bs : list RecordBatch) (mn mx : option Z) (attrs : option bytes) : tres TableLeafInput :=
  _ ← match attrs with
      | Some a => from_codec (if bool_decide (a = []) then Err EmptyAttributes else validate_canonical_attributes a)
      | None => Ok tt
      end;
  fp ← schema_fingerprint_of s;
  h ← table_leaf_hash_canonical s bs mn mx attrs;
  count ← row_total 0 bs;
  d ← from_codec (new_with_leaf_hash h count mn mx attrs);
  mret {| tl_schema := (s : Schema); tl_batches := (map batch_rows bs : list (list Row)); tl_descriptor := d; tl_hash := h; tl_fingerprint := fp |}.

Lemma row_total_value t bs n : 0 <= t -> row_total t bs = Ok n -> n = t + Z.of_nat (length (all_rows bs)).
Proof.
  revert t. induction bs as [|b bs IH]; intros t Ht E; cbn [row_total] in E.
  { apply Ok_inj in E as <-. cbn. lia. }
  destruct (_ <? _); [done|]. apply IH in E; [|lia]. rewrite E. unfold all_rows. cbn [map concat]. rewrite length_app, batch_rows_length. lia.
Qed.

(** A leaf that is accepted carries its own rows, their hash and their count. *)
Lemma table_leaf_new_good s bs mn mx attrs l :
  table_leaf_new s bs mn mx attrs = Ok l ->
  good_table_leaf l /\ concat (tl_batches l) = all_rows bs /\ table_leaf_hash_canonical s bs mn mx attrs = Ok (tl_hash l)
  /\ schema_fingerprint_of s = Ok (tl_fingerprint l).
Proof.
  unfold table_leaf_new. intros E. apply bind_Ok in E as ([] & _ & E). apply bind_Ok in E as (fp & Hfp & E). apply bind_Ok in E as (h & Hh & E).
  apply bind_Ok in E as (count & Hc & E). apply bind_Ok in E as (d & Hd%from_codec_Ok & <-%Ok_inj).
  unfold new_with_leaf_hash, new_with_leaf_hash_and_schema in Hd. apply bind_Ok in Hd as ([] & _ & <-%Ok_inj).
  pose proof (row_total_value 0 bs count ltac:(lia) Hc) as En. cbn [tl_batches tl_hash tl_fingerprint]. split; [|done].
  unfold good_table_leaf. cbn [tl_descriptor d_count tl_batches tl_hash logical_leaf_hash].
  split; [rewrite En; reflexivity|]. split; [|done].
  unfold table_leaf_hash_canonical, table_leaf_hash_canonical_with_magic in Hh. apply bind_Ok in Hh as (x & _ & Hh). apply bind_Ok in Hh as (y & _ & Hh).
  rewrite Hc in Hh. cbn [mbind outcome_bind] in Hh. destruct (Z.eqb_spec count 0); [done|]. lia.
Qed.

(** So a list of accepted leaves meets the precondition of the builder. *)
Lemma table_leaves_good args ls :
  omap_list (fun '(s, bs, mn, mx, attrs) => table_leaf_new s bs mn mx attrs) args = Ok ls -> Forall good_table_leaf ls.
Proof.
  intros E%omap_list_Ok. induction E as [|[[[[s bs] mn] mx] attrs] l args ls Hl _ IH]; constructor; [|done]. by apply table_leaf_new_good in Hl as [? _].
Qed.
End Input.
