(* ===== verification/Capsule.v ===== *)
(** The recovery capsule, [content/capsule.rs]: the manifest of a live snapshot,
    the validation of its paths, entries and topology, the root over the leaf
    descriptors of a series, and the closure of payload objects. *)

From stdpp Require Import base list numbers gmap sets sorting strings options.
From Stdlib Require Import ZArith Lia.
From S2P Require Import Prelude RustStd RustText EntryType Wire CanonicalJson Tree MerkleTree SeriesMerkle SeriesLeaf.

Open Scope Z_scope.

(** * Errors *)

Inductive cap_error :=
| CapsuleFormat (found : bytes)
| EmptyPondId
| EmptyBirthplace
| EmptyToolVersion
| ExportedAtNotPositive
| NotAbsolute (path : bytes)
| TrailingSlash (path : bytes)
| ControlCharacter (path : bytes)
| NoncanonicalComponent (path : bytes)
| DuplicatePath (path : bytes)
| PathOrder
| NoRoot
| RootNotDirectory
| MissingParent (path parent : bytes)
| ParentNotDirectory (path parent : bytes)
| EmptySourceNode (path : bytes)
| PhysicalIncompatible (path : bytes)
| PayloadKindMismatch (path : bytes)
| FileWithNodeSchema (path : bytes)
| LeavesWithoutObjects (path : bytes)
| NoSchemaCarrier (path : bytes)
| EmptyTableSchema (path : bytes)
| LeafZero (path : bytes) (index : Z)
| LeafBounds (path : bytes) (index : Z)
| LeafAttributes (path : bytes) (index : Z)
| FileLeafSchema (path : bytes) (index : Z)
| TableLeafSchema (path : bytes) (index : Z)
| LeafSchemaDiffers (path : bytes) (index : Z)
| LogicalRoot (path : bytes)
| ContentMismatch (path : bytes)
| ConflictingSizes (hash : bytes)
| EmptyCapsuleLeaf
| LeafMinAboveMax
| FileDeclaresSchema
| TableDeclaresNoSchema
| AttributesEncoding (e : cerror)
| NoncanonicalAttributes
| FieldTooLong
| ManifestJson
| ManifestNotCanonical
| PayloadMissing (hash : bytes)
| PayloadHash (hash : bytes)
| PayloadTooLong (hash : bytes)
| PayloadSize (hash : bytes)
| PhysicalCountOverflow
| LogicalCountOverflow
| StreamLength (path : bytes)
| LeafHashing (path : bytes) (index : Z)
| LeafMismatch (path : bytes) (index : Z)
| BytesAfterLeaves (path : bytes)
| EndedEarly (path : bytes) (leaves : Z)
| SeriesRoot (path : bytes)
| PayloadCount (declared received : Z)
| UnstagedPayload (path : bytes)
| UnalignedSparse (path : bytes)
| UnstagedLeaf (path : bytes)
| TableOpen (path : bytes)
| TableNodeSchema (path : bytes)
| TableSchema (path : bytes) (index : Z)
| ObjectsAfterLeaves (path : bytes)
| RowsAfterLeaves (path : bytes)
| RowUnderflow (path : bytes) (index : Z)
| RowsOverflow (path : bytes)
| NoRowsForLeaf (path : bytes)
| RefUppercase
| RefHex
| RefMissing
| ManifestMissing
| ManifestRoot.

#[export] Instance cap_error_eq_dec : EqDecision cap_error.
Proof. solve_decision. Defined.

Abbreviation cres := (outcome cap_error).

(** * Data *)

Definition CAPSULE_FORMAT_V4 : bytes := bstr "pondcapsule.4".
Definition CAPSULE_ROOT_DOMAIN_V4 : bytes := bstr "pondcapsule.root.4" ++ [Byte.x0a].
Definition CAPSULE_SERIES_DOMAIN : bytes := bstr "pondcapsule.series.3" ++ [Byte.x0a].
Definition LOGICAL_LEAF_DOMAIN : bytes := bstr "watertown.series-leaf.v1" ++ [Byte.x0a].

Record CapsuleSource := {
  pond_id : bytes;
  birthplace : bytes;
  source_tip : bytes;
  exported_at_micros : Z;
  tool_version : bytes;
}.

Inductive CapsulePayloadKind := FilePayload | TablePayload.

Record CapsuleObject := { co_hash : bytes; co_size : Z }.

Record CapsuleLeaf := {
  cl_hash : bytes;
  cl_count : Z;
  source_timestamp : Z;
  cl_min : option Z;
  cl_max : option Z;
  cl_attributes : option bytes;
  cl_schema : option bytes;
}.

Inductive CapsuleNode :=
| Directory
| SymlinkNode (target : CapsuleObject)
| Dynamic (recipe : CapsuleObject) (timestamp : option Z)
| Physical (kind : CapsulePayloadKind) (schema : option bytes) (root : bytes) (objects : list CapsuleObject)
    (leaves : list CapsuleLeaf).

Record CapsuleEntry := {
  ce_path : bytes;
  ce_type : EntryType;
  source_node_id : bytes;
  ce_node : CapsuleNode;
}.

Record CapsuleManifest := {
  cm_format : bytes;
  cm_source : CapsuleSource;
  cm_entries : list CapsuleEntry;
}.

#[export] Instance CapsulePayloadKind_eq_dec : EqDecision CapsulePayloadKind.
Proof. solve_decision. Defined.
#[export] Instance CapsuleObject_eq_dec : EqDecision CapsuleObject.
Proof. solve_decision. Defined.
#[export] Instance CapsuleLeaf_eq_dec : EqDecision CapsuleLeaf.
Proof. solve_decision. Defined.
#[export] Instance CapsuleNode_eq_dec : EqDecision CapsuleNode.
Proof. solve_decision. Defined.

(** * Paths *)

Definition SLASH : byte := Byte.x2f.
Definition ROOT_PATH : bytes := [SLASH].

(** [chars().any(char::is_control)]: U+0000..U+001F, U+007F..U+009F. *)
Fixpoint has_control (s : bytes) : bool :=
  match s with
  | [] => false
  | c :: s' =>
      in_range 0 0x1F c || in_range 0x7F 0x7F c
      || (in_range 0xC2 0xC2 c && match s' with d :: _ => in_range 0x80 0x9F d | [] => false end)
      || has_control s'
  end.

Definition bad_component (c : bytes) : bool :=
  bool_decide (c = []) || bool_decide (c = bstr ".") || bool_decide (c = bstr "..").

Definition validate_path (path : bytes) : cres unit :=
  if bool_decide (path = ROOT_PATH) then Ok tt else
  match path with
  | c :: rest =>
      if negb (bool_decide (c = SLASH)) then Err (NotAbsolute path) else
      if bool_decide (last path = Some SLASH) then Err (TrailingSlash path) else
      if has_control path then Err (ControlCharacter path) else
      if existsb bad_component (split_on SLASH rest) then Err (NoncanonicalComponent path) else Ok tt
  | [] => Err (NotAbsolute path)
  end.

(** [path.rfind('/')]. *)
Fixpoint rfind (sep : byte) (s : bytes) : option nat :=
  match s with
  | [] => None
  | c :: s => match rfind sep s with
              | Some i => Some (S i)
              | None => if bool_decide (c = sep) then Some 0%nat else None
              end
  end.

Definition parent_path (path : bytes) : cres bytes :=
  match rfind SLASH path with
  | None => Panic
  | Some O => Ok ROOT_PATH
  | Some i => Ok (firstn i path)
  end.

(** * Roots and leaves *)

Definition is_some {A} (o : option A) : bool := match o with Some _ => true | None => false end.

(** The flags of the optional fields of one leaf. *)
Definition series_leaf_flags (l : CapsuleLeaf) : Z :=
  Z.lor (Z.lor (Z.lor (if is_some (cl_min l) then 1 else 0) (if is_some (cl_max l) then 2 else 0))
    (if is_some (cl_attributes l) then 4 else 0)) (if is_some (cl_schema l) then 8 else 0).


Definition series_leaf_bytes (l : CapsuleLeaf) : bytes :=
  cl_hash l ++ to_le 8 (cl_count l) ++ to_le 1 (series_leaf_flags l)
  ++ push_opt_i64 (cl_min l) ++ push_opt_i64 (cl_max l)
  ++ match cl_attributes l with Some a => push_len_prefixed_u64 a | None => [] end
  ++ default [] (cl_schema l).

Definition kind_byte (k : CapsulePayloadKind) : Z := match k with FilePayload => 0 | TablePayload => 1 end.

(** The bytes [capsule_series_root] feeds to the hasher. *)
Definition series_preimage (k : CapsulePayloadKind) (schema : option bytes) (leaves : list CapsuleLeaf) : bytes :=
  CAPSULE_SERIES_DOMAIN ++ to_le 1 (kind_byte k)
  ++ match schema with Some h => to_le 1 1 ++ h | None => to_le 1 0 end
  ++ to_le 8 (Z.of_nat (length leaves)) ++ concat (map series_leaf_bytes leaves).

Definition capsule_series_root `{Blake3} (k : CapsulePayloadKind) (schema : option bytes) (leaves : list CapsuleLeaf) : bytes :=
  blake3 (series_preimage k schema leaves).

Definition above (mn mx : option Z) : bool :=
  match mn, mx with Some a, Some b => b <? a | _, _ => false end.

Definition push_len_prefixed_u32 (b : bytes) : cres bytes :=
  if Z.of_nat (length b) <=? u32_max then Ok (to_le 4 (Z.of_nat (length b)) ++ b) else Err FieldTooLong.

Definition encode_capsule_attributes `{JsonParser} (a : bytes) : res bytes := encode_canonical_attributes a.
Definition validate_capsule_attributes `{JsonParser} (a : bytes) : res unit := validate_canonical_attributes a.

Definition capsule_leaf_hash `{Blake3} `{JsonParser} (k : CapsulePayloadKind) (schema : option bytes) (count : Z)
    (payload : bytes) (mn mx : option Z) (attrs : option bytes) : cres bytes :=
  if (count =? 0) || bool_decide (payload = []) then Err EmptyCapsuleLeaf else
  if above mn mx then Err LeafMinAboveMax else
  '(kind, schema) ← match k, schema with
                    | FilePayload, None => Ok (1, [])
                    | TablePayload, Some s => Ok (0, s)
                    | FilePayload, Some _ => Err FileDeclaresSchema
                    | TablePayload, None => Err TableDeclaresNoSchema
                    end;
  attributes ← match attrs with
               | Some a =>
                   canonical ← map_err AttributesEncoding (encode_capsule_attributes a);
                   if bool_decide (canonical = a) then Ok canonical else Err NoncanonicalAttributes
               | None => Ok []
               end;
  schema ← push_len_prefixed_u32 schema;
  attributes ← push_len_prefixed_u32 attributes;
  Ok (of_bytes (LOGICAL_LEAF_DOMAIN ++ to_le 1 kind ++ schema ++ to_le 8 count ++ push_len_prefixed_u64 payload
        ++ push_bounds mn mx ++ attributes)).

(** * Validation *)

Section Validation.
Context `{Blake3} `{JsonParser}.

Definition validate_leaf (path : bytes) (k : CapsulePayloadKind) (schema : option bytes) (index : Z) (l : CapsuleLeaf) : cres unit :=
  if cl_count l =? 0 then Err (LeafZero path index) else
  if above (cl_min l) (cl_max l) then Err (LeafBounds path index) else
  _ ← match cl_attributes l with
      | Some a => match validate_capsule_attributes a with
                  | Ok _ => Ok tt
                  | Err _ => Err (LeafAttributes path index)
                  | Panic => Panic
                  end
      | None => Ok tt
      end;
  match k with
  | FilePayload => if is_some (cl_schema l) then Err (FileLeafSchema path index) else Ok tt
  | TablePayload =>
      match cl_schema l with
      | None => Err (TableLeafSchema path index)
      | Some s => match schema with
                  | Some n => if bool_decide (n = s) then Ok tt else Err (LeafSchemaDiffers path index)
                  | None => Ok tt
                  end
      end
  end.

Fixpoint validate_leaves (path : bytes) (k : CapsulePayloadKind) (schema : option bytes) (index : Z) (ls : list CapsuleLeaf) : cres unit :=
  match ls with
  | [] => Ok tt
  | l :: ls => _ ← validate_leaf path k schema index l; validate_leaves path k schema (index + 1) ls
  end.

Definition is_nil {A} (l : list A) : bool := match l with [] => true | _ :: _ => false end.

Definition validate_physical (path : bytes) (t : EntryType) (k : CapsulePayloadKind) (schema : option bytes) (root : bytes)
    (objects : list CapsuleObject) (leaves : list CapsuleLeaf) : cres unit :=
  expected ← match t with
             | FilePhysicalVersion | FilePhysicalSeries => Ok FilePayload
             | TablePhysicalVersion | TablePhysicalSeries => Ok TablePayload
             | _ => Err (PhysicalIncompatible path)
             end;
  if negb (bool_decide (k = expected)) then Err (PayloadKindMismatch path) else
  if bool_decide (k = FilePayload) && is_some schema then Err (FileWithNodeSchema path) else
  _ ← match k with
      | FilePayload => if negb (Bool.eqb (is_nil leaves) (is_nil objects)) then Err (LeavesWithoutObjects path) else Ok tt
      | TablePayload => if is_nil objects then Err (NoSchemaCarrier path) else Ok tt
      end;
  if bool_decide (k = TablePayload) && is_nil leaves && negb (is_some schema) then Err (EmptyTableSchema path) else
  _ ← validate_leaves path k schema 0 leaves;
  if bool_decide (root = capsule_series_root k schema leaves) then Ok tt else Err (LogicalRoot path).

Definition validate_entry (e : CapsuleEntry) : cres unit :=
  if bool_decide (source_node_id e = []) then Err (EmptySourceNode (ce_path e)) else
  match ce_node e, ce_type e with
  | Directory, DirectoryPhysical => Ok tt
  | SymlinkNode _, Symlink => Ok tt
  | Dynamic _ _, (DirectoryDynamic | FileDynamic | TableDynamic) => Ok tt
  | Physical k schema root objects leaves, t => validate_physical (ce_path e) t k schema root objects leaves
  | _, _ => Err (ContentMismatch (ce_path e))
  end.

(** The first loop of [validate]: order, entries, and the map by path. *)
Fixpoint index_entries (prior : option bytes) (by_path : gmap bytes CapsuleEntry) (es : list CapsuleEntry)
  : cres (gmap bytes CapsuleEntry) :=
  match es with
  | [] => Ok by_path
  | e :: es =>
      _ ← validate_path (ce_path e);
      _ ← match prior with
          | Some p => match bytes_cmp p (ce_path e) with
                      | Lt => Ok tt
                      | Eq => Err (DuplicatePath (ce_path e))
                      | Gt => Err PathOrder
                      end
          | None => Ok tt
          end;
      _ ← validate_entry e;
      index_entries (Some (ce_path e)) (<[ce_path e := e]> by_path) es
  end.

Definition is_directory_node (n : CapsuleNode) : bool := match n with Directory => true | _ => false end.

(** The second loop: every entry but the root has a directory as its parent. *)
Fixpoint check_parents (by_path : gmap bytes CapsuleEntry) (es : list CapsuleEntry) : cres unit :=
  match es with
  | [] => Ok tt
  | e :: es =>
      if bool_decide (ce_path e = ROOT_PATH) then check_parents by_path es else
      parent ← parent_path (ce_path e);
      match by_path !! parent with
      | None => Err (MissingParent (ce_path e) parent)
      | Some d => if is_directory_node (ce_node d) then check_parents by_path es else Err (ParentNotDirectory (ce_path e) parent)
      end
  end.

Definition validate_manifest (m : CapsuleManifest) : cres unit :=
  if negb (bool_decide (cm_format m = CAPSULE_FORMAT_V4)) then Err (CapsuleFormat (cm_format m)) else
  if bool_decide (pond_id (cm_source m) = []) then Err EmptyPondId else
  if bool_decide (birthplace (cm_source m) = []) then Err EmptyBirthplace else
  if bool_decide (tool_version (cm_source m) = []) then Err EmptyToolVersion else
  if exported_at_micros (cm_source m) <=? 0 then Err ExportedAtNotPositive else
  by_path ← index_entries None ∅ (cm_entries m);
  match by_path !! ROOT_PATH with
  | None => Err NoRoot
  | Some root =>
      if negb (bool_decide (ce_type root = DirectoryPhysical)) || negb (is_directory_node (ce_node root)) then Err RootNotDirectory else
      check_parents by_path (cm_entries m)
  end.

Definition manifest_new (source : CapsuleSource) (entries : list CapsuleEntry) : cres CapsuleManifest :=
  let m := {| cm_format := CAPSULE_FORMAT_V4; cm_source := source; cm_entries := sort_by (cmp_on ce_path bytes_cmp) entries |} in
  _ ← validate_manifest m;
  mret m.
End Validation.

(** * Payload objects *)

Definition entry_objects (n : CapsuleNode) : list CapsuleObject :=
  match n with
  | Directory => []
  | SymlinkNode target => [target]
  | Dynamic recipe _ => [recipe]
  | Physical _ _ _ objects _ => objects
  end.

Definition declared_objects (m : CapsuleManifest) : list CapsuleObject :=
  concat (map (fun e => entry_objects (ce_node e)) (cm_entries m)).

Fixpoint collect_objects (sizes : gmap bytes Z) (os : list CapsuleObject) : cres (gmap bytes Z) :=
  match os with
  | [] => Ok sizes
  | o :: os =>
      if match sizes !! co_hash o with Some size => negb (size =? co_size o) | None => false end
      then Err (ConflictingSizes (co_hash o))
      else collect_objects (<[co_hash o := co_size o]> sizes) os
  end.

(** The map in the order of a [BTreeMap]. *)
Definition payload_objects (m : CapsuleManifest) : cres (list CapsuleObject) :=
  sizes ← collect_objects ∅ (declared_objects m);
  mret (map (fun kv => {| co_hash := kv.1; co_size := kv.2 |}) (sort_by (cmp_on fst bytes_cmp) (map_to_list sizes))).

(** * Canonical paths *)

(** The path of a list of components. *)
Definition path_of (comps : list bytes) : bytes :=
  match comps with [] => ROOT_PATH | _ :: _ => concat (map (cons SLASH) comps) end.

Definition component_ok (c : bytes) : Prop := bad_component c = false /\ SLASH ∉ c.
Definition canonical (comps : list bytes) : Prop := Forall component_ok comps /\ has_control (path_of comps) = false.

Lemma path_of_cons c comps : path_of (c :: comps) = SLASH :: c ++ concat (map (cons SLASH) comps).
Proof. done. Qed.

Lemma path_of_snoc comps c : path_of (comps ++ [c]) = concat (map (cons SLASH) comps) ++ SLASH :: c.
Proof. destruct comps as [|d comps]; simpl; [by rewrite app_nil_r|]. by rewrite map_app, concat_app; simpl; rewrite app_nil_r, app_assoc. Qed.

Lemma component_nonempty c : component_ok c -> c <> [].
Proof. intros [Hb _] ->. done. Qed.

Lemma path_of_root comps : Forall component_ok comps -> path_of comps = ROOT_PATH <-> comps = [].
Proof.
  intros Hc. split; [|by intros ->]. destruct comps as [|c comps]; [done|]. rewrite path_of_cons. intros [= E].
  apply Forall_cons in Hc as [Hc%component_nonempty _]. by destruct c.
Qed.

Lemma path_of_inj comps comps' :
  Forall component_ok comps -> Forall component_ok comps' -> path_of comps = path_of comps' -> comps = comps'.
Proof.
  intros H1 H2 E. destruct comps as [|c comps]; [symmetry; apply path_of_root; [done|by rewrite <- E]|].
  destruct comps' as [|c' comps']; [by apply path_of_root|]. rewrite !path_of_cons in E. injection E as E.
  assert (forall l, Forall component_ok l -> Forall (fun x => SLASH ∉ x) l) as Hf
    by (intros l Hl; eapply Forall_impl; [exact Hl|]; by intros x [_ ?]).
  rewrite <- (split_on_path SLASH c comps), <- (split_on_path SLASH c' comps') by auto. by rewrite E.
Qed.

Lemma path_last comps c : component_ok c -> last (path_of (comps ++ [c])) <> Some SLASH.
Proof.
  intros Hc. pose proof (component_nonempty c Hc) as Hne. destruct Hc as [_ Hc]. rewrite path_of_snoc.
  destruct c as [|x c _] using rev_ind; [done|].
  change (SLASH :: c ++ [x]) with ((SLASH :: c) ++ [x]). rewrite app_assoc, last_snoc. set_solver.
Qed.

(** [validate_path] accepts exactly the canonical paths. *)
Lemma validate_path_spec p :
  validate_path p = Ok tt <-> exists comps, canonical comps /\ p = path_of comps.
Proof.
  unfold validate_path. case_bool_decide as Er.
  { split; [|done]. intros _. exists []. split; [split; [constructor|done]|done]. }
  destruct p as [|c rest].
  { split; [done|]. intros ([|c comps] & _ & E); [done|]. by rewrite path_of_cons in E. }
  case_bool_decide as Ec; cbn [negb].
  2: { split; [done|]. intros ([|d comps] & _ & E); [done|]. rewrite path_of_cons in E. by injection E. }
  subst c. destruct (decide (last (SLASH :: rest) = Some SLASH)) as [El|El];
    [rewrite (bool_decide_true _ El)|rewrite (bool_decide_false _ El)].
  { split; [done|]. intros (comps & [Hc _] & E). destruct comps as [|c comps _] using rev_ind; [done|].
    apply Forall_app in Hc as [_ [Hc _]%Forall_cons]. rewrite E in El. by apply path_last in El. }
  destruct (has_control (SLASH :: rest)) eqn:Ectl.
  { split; [done|]. intros (comps & [_ Hc] & E). rewrite E in Ectl. congruence. }
  destruct (existsb bad_component (split_on SLASH rest)) eqn:Eb.
  - split; [done|]. intros (comps & [Hc _] & E). destruct comps as [|c comps]; [done|].
    rewrite path_of_cons in E. injection E as ->. rewrite split_on_path in Eb
      by (eapply Forall_impl; [exact Hc|]; by intros x [_ ?]).
    apply existsb_exists in Eb as (x & Hx & Hbad). rewrite Forall_forall in Hc. apply list_elem_of_In, Hc in Hx as [? _]. congruence.
  - split; [|done]. intros _. pose proof (split_on_join SLASH rest) as Ej. exists (split_on SLASH rest).
    assert (path_of (split_on SLASH rest) = SLASH :: rest) as Ep by (destruct (split_on SLASH rest); done).
    split; [|done]. split; [|by rewrite Ep]. apply Forall_forall. intros x Hx. split.
    + destruct (bad_component x) eqn:Ex; [|done]. assert (existsb bad_component (split_on SLASH rest) = true) as E; [|congruence].
      apply existsb_exists. exists x. by rewrite <- list_elem_of_In.
    + pose proof (split_on_free SLASH rest) as Hf. rewrite Forall_forall in Hf. by apply Hf.
Qed.

Lemma rfind_app sep a c : sep ∉ c -> rfind sep (a ++ sep :: c) = Some (length a).
Proof.
  intros Hc. induction a as [|x a IH]; simpl; [|by rewrite IH].
  assert (rfind sep c = None) as -> by (clear -Hc; induction c as [|y c IH]; simpl; [done|];
    rewrite IH by set_solver; rewrite bool_decide_false by set_solver; done). by rewrite bool_decide_true.
Qed.

Lemma parent_path_of comps c :
  component_ok c -> parent_path (path_of (comps ++ [c])) = Ok (path_of comps).
Proof.
  intros [_ Hc]. rewrite path_of_snoc. unfold parent_path. rewrite rfind_app by done.
  destruct comps as [|d comps]; [done|]. cbn [map concat app length]. f_equal.
  change (SLASH :: (d ++ concat (map (cons SLASH) comps)) ++ SLASH :: c)
    with ((SLASH :: d ++ concat (map (cons SLASH) comps)) ++ SLASH :: c).
  by rewrite (take_app_length' (SLASH :: d ++ concat (map (cons SLASH) comps))).
Qed.

(** * The namespace of a valid manifest *)

Abbreviation path_lt := (cmp_lt (cmp_on ce_path bytes_cmp)).

(** What the topology checks establish: canonical paths in strictly ascending
    order, a physical directory at the root, and a directory at every proper
    prefix of every path. *)
Record namespace (es : list CapsuleEntry) : Prop := {
  ns_sorted : StronglySorted path_lt es;
  ns_root : exists r, r ∈ es /\ ce_path r = ROOT_PATH /\ ce_type r = DirectoryPhysical /\ ce_node r = Directory;
  ns_tree : forall e, e ∈ es -> exists comps, canonical comps /\ ce_path e = path_of comps
    /\ forall pre c suf, comps = pre ++ c :: suf ->
         exists d, d ∈ es /\ ce_path d = path_of pre /\ ce_node d = Directory;
}.

Definition source_valid (s : CapsuleSource) : Prop :=
  pond_id s <> [] /\ birthplace s <> [] /\ tool_version s <> [] /\ 0 < exported_at_micros s.

Section Namespace.
Context `{Blake3} `{JsonParser}.

(** The map the first loop builds. *)
Definition by_path_of (es : list CapsuleEntry) : gmap bytes CapsuleEntry :=
  foldl (fun m e => <[ce_path e := e]> m) ∅ es.

Definition follows (prior : option bytes) (es : list CapsuleEntry) : Prop :=
  match prior, es with Some p, e :: _ => bytes_cmp p (ce_path e) = Lt | _, _ => True end.

Lemma index_entries_spec prior m0 es m :
  index_entries prior m0 es = Ok m <->
  Forall (fun e => validate_path (ce_path e) = Ok tt /\ validate_entry e = Ok tt) es
  /\ follows prior es /\ Sorted path_lt es /\ m = foldl (fun m e => <[ce_path e := e]> m) m0 es.
Proof.
  revert prior m0. induction es as [|e es IH]; intros prior m0.
  { cbn [index_entries foldl]. split; [intros ->%Ok_inj|by intros (_ & _ & _ & ->)].
    repeat split; try constructor. by destruct prior. }
  cbn [index_entries foldl]. split.
  - intros E. apply bind_Ok in E as ([] & Hp & E). apply bind_Ok in E as ([] & Hc & E).
    apply bind_Ok in E as ([] & Hv & E). apply IH in E as (Hf & Hfol & Hs & ->).
    repeat split; [by constructor| |].
    + destruct prior as [p|]; [|done]. simpl in *. by destruct (bytes_cmp p (ce_path e)).
    + constructor; [done|]. destruct es as [|e' es]; constructor. exact Hfol.
  - intros (Hf & Hfol & Hs & ->). apply Forall_cons in Hf as [[Hp Hv] Hf]. rewrite Hp. cbn [mbind outcome_bind].
    apply Sorted_inv in Hs as [Hs Hhd].
    assert (match prior with
            | Some p => match bytes_cmp p (ce_path e) with
                        | Lt => Ok tt | Eq => Err (DuplicatePath (ce_path e)) | Gt => Err PathOrder end
            | None => Ok tt end = Ok tt) as ->.
    { destruct prior as [p|]; [|done]. simpl in Hfol. by rewrite Hfol. }
    rewrite Hv. cbn [mbind outcome_bind]. apply IH. repeat split; [done| |done].
    destruct es as [|e' es]; [done|]. by inversion Hhd.
Qed.

Lemma path_lt_sorted es : Sorted path_lt es <-> StronglySorted path_lt es.
Proof.
  split; [|apply StronglySorted_Sorted]. apply Sorted_StronglySorted. intros x y z Hxy Hyz. unfold cmp_lt in *.
  apply (cmp_lt_trans (cmp_on ce_path bytes_cmp) x y z); [done|by rewrite Hyz].
Qed.

Lemma by_path_lookup es p e :
  StronglySorted path_lt es -> by_path_of es !! p = Some e <-> e ∈ es /\ ce_path e = p.
Proof.
  unfold by_path_of. induction es as [|x es IH] using rev_ind; intros Hs.
  { cbn [foldl]. rewrite lookup_empty. set_solver. }
  rewrite foldl_app. cbn [foldl].
  assert (forall y, y ∈ es -> path_lt y x) as Hlt.
  { intros y Hy. clear IH. induction es as [|z es IH]; [set_solver|]. apply StronglySorted_inv in Hs as [Hs Hz].
    apply elem_of_cons in Hy as [->|Hy]; [|by apply IH]. rewrite Forall_forall in Hz. apply Hz. set_solver. }
  assert (StronglySorted path_lt es) as Hes.
  { clear IH Hlt. induction es as [|z es IH]; [constructor|]. apply StronglySorted_inv in Hs as [Hs Hz].
    constructor; [by apply IH|]. by apply Forall_app in Hz as [? _]. }
  rewrite lookup_insert_Some, (IH Hes), elem_of_app, list_elem_of_singleton. split.
  - intros [[<- <-]|[Hne [? ?]]]; [by auto|by auto].
  - intros [[Hin|<-] Ep]; [|by left]. right. split; [|done]. intros E. apply Hlt in Hin.
    unfold cmp_lt, cmp_on in Hin. rewrite Ep, <- E, (cmp_refl bytes_cmp) in Hin. done.
Qed.

Lemma check_parents_spec m es :
  check_parents m es = Ok tt <->
  forall e, e ∈ es -> ce_path e <> ROOT_PATH ->
    exists p d, parent_path (ce_path e) = Ok p /\ m !! p = Some d /\ ce_node d = Directory.
Proof.
  induction es as [|e es IH]; cbn [check_parents]; [split; [set_solver|done]|]. case_bool_decide as Er.
  { rewrite IH. split; intros Hes x; [|by intros; apply Hes; set_solver].
    intros [->|Hx]%elem_of_cons Hn; [done|by apply Hes]. }
  split.
  - intros E. apply bind_Ok in E as (p & Hp & E). destruct (m !! p) as [d|] eqn:Ed; [|done].
    destruct (ce_node d) eqn:En; try done. cbn [is_directory_node] in E. rewrite IH in E.
    intros x [->|Hx]%elem_of_cons Hn; [by exists p, d|by apply E].
  - intros Hes. destruct (Hes e ltac:(set_solver) Er) as (p & d & -> & Hd & Hn). cbn [mbind outcome_bind].
    rewrite Hd, Hn. cbn [is_directory_node]. apply IH. intros x Hx. apply Hes. set_solver.
Qed.

(** One directory above every entry gives one at every prefix. *)
Lemma parents_prefixes es :
  Forall (fun e => validate_path (ce_path e) = Ok tt) es ->
  (forall e, e ∈ es -> ce_path e <> ROOT_PATH -> exists p d, parent_path (ce_path e) = Ok p /\ d ∈ es /\ ce_path d = p /\ ce_node d = Directory) ->
  forall comps e, e ∈ es -> canonical comps -> ce_path e = path_of comps ->
  forall pre c suf, comps = pre ++ c :: suf -> exists d, d ∈ es /\ ce_path d = path_of pre /\ ce_node d = Directory.
Proof.
  intros Hv Hup comps. induction comps as [|x comps IH] using rev_ind; intros e He Hc Ep pre c suf E.
  { by destruct pre. }
  destruct Hc as [Hok Hctl]. pose proof Hok as Hok'. apply Forall_app in Hok' as [Hok1 [Hx _]%Forall_cons].
  destruct (Hup e He) as (p & d & Hp & Hd & Ed & Hn).
  { rewrite Ep. rewrite path_of_root by done. by destruct comps. }
  rewrite Ep, parent_path_of in Hp by done. apply Ok_inj in Hp as <-.
  destruct suf as [|y suf _] using rev_ind.
  { apply app_inj_tail in E as [-> ->]. by exists d. }
  change (pre ++ c :: suf ++ [y]) with (pre ++ (c :: suf) ++ [y]) in E. rewrite app_assoc in E.
  apply app_inj_tail in E as [-> ->]. eapply (IH d); [done| |done|done].
  rewrite Forall_forall in Hv. apply Hv, validate_path_spec in Hd as (comps & Hc & Epd).
  rewrite Ed in Epd. apply path_of_inj in Epd; [by subst|done|by destruct Hc].
Qed.

Lemma namespace_parents es :
  Forall (fun e => validate_path (ce_path e) = Ok tt) es ->
  (forall e, e ∈ es -> ce_path e <> ROOT_PATH -> exists p d, parent_path (ce_path e) = Ok p /\ d ∈ es /\ ce_path d = p /\ ce_node d = Directory)
  <-> (forall e, e ∈ es -> exists comps, canonical comps /\ ce_path e = path_of comps
    /\ forall pre c suf, comps = pre ++ c :: suf -> exists d, d ∈ es /\ ce_path d = path_of pre /\ ce_node d = Directory).
Proof.
  intros Hv. split.
  - intros Hup e He. rewrite Forall_forall in Hv. destruct (proj1 (validate_path_spec _) (Hv _ He)) as (comps & Hc & Ep).
    exists comps. split; [done|]. split; [done|]. intros pre c suf. eapply parents_prefixes; [by rewrite Forall_forall|done..].
  - intros Ht e He Hn. destruct (Ht e He) as (comps & [Hc _] & Ep & Hpre).
    destruct comps as [|c comps _] using rev_ind; [by rewrite Ep in Hn|].
    destruct (Hpre comps c []) as (d & Hd & Ed & Hnode); [done|]. exists (path_of comps), d.
    apply Forall_app in Hc as [_ [Hc _]%Forall_cons]. by rewrite Ep, parent_path_of.
Qed.

Lemma namespace_checks es :
  Forall (fun e => validate_path (ce_path e) = Ok tt) es -> StronglySorted path_lt es ->
  namespace es <->
  (exists r, by_path_of es !! ROOT_PATH = Some r /\ ce_type r = DirectoryPhysical /\ ce_node r = Directory)
  /\ check_parents (by_path_of es) es = Ok tt.
Proof.
  intros Hv Hs. rewrite check_parents_spec.
  assert (forall e, (exists p d, parent_path (ce_path e) = Ok p /\ by_path_of es !! p = Some d /\ ce_node d = Directory)
    <-> (exists p d, parent_path (ce_path e) = Ok p /\ d ∈ es /\ ce_path d = p /\ ce_node d = Directory)) as Hup.
  { intros e. split; intros (p & d & Hp & Hd); exists p, d; (split; [done|]).
    - destruct Hd as [Hd Hn]. apply by_path_lookup in Hd; [|done]. by destruct Hd.
    - destruct Hd as (Hd & Ed & Hn). split; [|done]. by apply by_path_lookup. }
  setoid_rewrite Hup. rewrite namespace_parents by done. split.
  - intros [_ (r & Hr & Ep & Ht & Hn) Htree]. split; [|done]. exists r. split; [by apply by_path_lookup|done].
  - intros [(r & Hr & Ht & Hn) Htree]. apply by_path_lookup in Hr as [Hr Ep]; [|done]. split; [done| |done]. by exists r.
Qed.

Lemma validate_manifest_spec m :
  validate_manifest m = Ok tt <->
  cm_format m = CAPSULE_FORMAT_V4 /\ source_valid (cm_source m)
  /\ Forall (fun e => validate_entry e = Ok tt) (cm_entries m) /\ namespace (cm_entries m).
Proof.
  unfold validate_manifest, source_valid.
  case_bool_decide as E0; cbn [negb]; [|by split; [|intros [? _]]].
  case_bool_decide as E1; [by split; [|intros (_ & [? _] & _)]|].
  case_bool_decide as E2; [by split; [|intros (_ & (_ & ? & _) & _)]|].
  case_bool_decide as E3; [by split; [|intros (_ & (_ & _ & ? & _) & _)]|].
  destruct (Z.leb_spec (exported_at_micros (cm_source m)) 0) as [E4|E4]; [by split; [|intros (_ & (_ & _ & _ & ?) & _); lia]|].
  split.
  - intros E. apply bind_Ok in E as (by_path & Hi & E). apply index_entries_spec in Hi as (Hf & _ & Hs & ->).
    apply path_lt_sorted in Hs. fold (by_path_of (cm_entries m)) in E.
    assert (Forall (fun e => validate_path (ce_path e) = Ok tt) (cm_entries m)) as Hv by (eapply Forall_impl; [exact Hf|]; by intros ? [? _]).
    destruct (by_path_of (cm_entries m) !! ROOT_PATH) as [r|] eqn:Er; [|done].
    case_bool_decide as Et; [|done]. cbn [negb orb] in E. destruct (ce_node r) eqn:En; try done.
    split; [done|]. split; [done|]. split; [eapply Forall_impl; [exact Hf|]; by intros ? [_ ?]|].
    apply namespace_checks; [done|done|]. split; [by exists r|done].
  - intros (_ & _ & Hf & Hns).
    assert (Forall (fun e => validate_path (ce_path e) = Ok tt) (cm_entries m)) as Hv.
    { apply Forall_forall. intros e He. destruct (ns_tree _ Hns e He) as (comps & Hc & Ep & _). apply validate_path_spec. by exists comps. }
    pose proof (ns_sorted _ Hns) as Hs. apply namespace_checks in Hns as [(r & Er & Et & En) Hp]; [|done..].
    assert (index_entries None ∅ (cm_entries m) = Ok (by_path_of (cm_entries m))) as ->.
    { apply index_entries_spec. repeat split; [|by apply path_lt_sorted]. rewrite Forall_forall in *. auto. }
    cbn [mbind outcome_bind]. rewrite Er, bool_decide_true by done. rewrite En. done.
Qed.

(** C33: A manifest is accepted exactly when its format and source are, each entry is,
    and its entries form a tree: canonical paths in strict order under a physical
    root directory, with a directory at every proper prefix of every path. *)
Theorem capsule_namespace m :
  validate_manifest m = Ok tt <->
  cm_format m = CAPSULE_FORMAT_V4 /\ source_valid (cm_source m)
  /\ Forall (fun e => validate_entry e = Ok tt) (cm_entries m) /\ namespace (cm_entries m).
Proof. apply validate_manifest_spec. Qed.

(** [new] puts the entries in order: two lists of the same entries give the same result. *)
Lemma manifest_new_sorted source es m :
  manifest_new source es = Ok m -> cm_entries m ≡ₚ es /\ validate_manifest m = Ok tt.
Proof. unfold manifest_new. intros E. apply bind_Ok in E as ([] & Hv & <-%Ok_inj). split; [apply sort_by_perm|done]. Qed.
End Namespace.

(** * The payload objects *)

(** Two declarations of one object disagree on its size. *)
Definition size_conflict (os : list CapsuleObject) : Prop :=
  exists a b, a ∈ os /\ b ∈ os /\ co_hash a = co_hash b /\ co_size a <> co_size b.

Abbreviation hash_lt := (cmp_lt (cmp_on co_hash bytes_cmp)).

(** The objects a map of sizes stands for. *)
Definition sized (sizes : gmap bytes Z) (o : CapsuleObject) : Prop := sizes !! co_hash o = Some (co_size o).

Lemma collect_objects_Ok sizes os r :
  collect_objects sizes os = Ok r -> forall o, sized r o <-> sized sizes o \/ o ∈ os.
Proof.
  revert sizes. induction os as [|x os IH]; intros sizes; cbn [collect_objects].
  { intros ->%Ok_inj o. set_solver. }
  destruct (sizes !! co_hash x) as [s|] eqn:Ex; [destruct (Z.eqb_spec s (co_size x)) as [Es|]; [|done]|]; cbn [negb];
    intros E o; rewrite (IH _ E o), elem_of_cons; unfold sized; rewrite lookup_insert_Some.
  all: destruct (decide (co_hash x = co_hash o)) as [Eh|Eh].
  - rewrite <- Eh, Ex. destruct x, o; simpl in *. subst. naive_solver.
  - naive_solver.
  - rewrite <- Eh, Ex. destruct x, o; simpl in *. subst. naive_solver.
  - naive_solver.
Qed.

Lemma collect_objects_Err sizes os e :
  collect_objects sizes os = Err e ->
  exists a b, e = ConflictingSizes (co_hash a) /\ (sized sizes a \/ a ∈ os) /\ b ∈ os
    /\ co_hash a = co_hash b /\ co_size a <> co_size b.
Proof.
  revert sizes. induction os as [|x os IH]; intros sizes; cbn [collect_objects]; [done|].
  destruct (sizes !! co_hash x) as [s|] eqn:Ex; [destruct (Z.eqb_spec s (co_size x)) as [Es|Es]|]; cbn [negb].
  2: { intros [= <-]. exists {| co_hash := co_hash x; co_size := s |}, x. split_and!; [done|by left|set_solver|done|done]. }
  all: intros (a & b & -> & Ha & Hb & Hh & Hs)%IH; exists a, b;
    split_and!; [done| |set_solver|done|done]; destruct Ha as [Ha|Ha]; [|set_solver].
  all: unfold sized in *; rewrite lookup_insert_Some in Ha; destruct Ha as [[E1 E2]|[_ ?]]; [|by left].
  all: right; apply elem_of_cons; left; destruct x, a; simpl in *; by subst.
Qed.

Lemma collect_objects_total sizes os : collect_objects sizes os <> Panic.
Proof.
  revert sizes. induction os as [|x os IH]; intros sizes; cbn [collect_objects]; [done|].
  destruct (sizes !! co_hash x); [destruct (negb _)|]; auto; done.
Qed.

Lemma sorted_pairs_objects (sizes : gmap bytes Z) :
  let os := map (fun kv => {| co_hash := kv.1; co_size := kv.2 |}) (sort_by (cmp_on fst bytes_cmp) (map_to_list sizes)) in
  StronglySorted hash_lt os /\ forall o, o ∈ os <-> sized sizes o.
Proof.
  simpl. set (l := sort_by (cmp_on fst bytes_cmp) (map_to_list sizes)). split.
  - assert (StronglySorted (cmp_le (cmp_on fst bytes_cmp)) l) as Hs by apply sort_by_sorted, _.
    assert (NoDup l.*1) as Hnd by (unfold l; rewrite sort_by_perm; apply NoDup_fst_map_to_list).
    induction Hs as [|[h s] l' Hs IH Hh]; simpl; [constructor|]. apply NoDup_cons in Hnd as [Hn Hnd].
    constructor; [by apply IH|]. apply Forall_map, Forall_forall. intros [h' s'] Hin. rewrite Forall_forall in Hh.
    specialize (Hh _ Hin). unfold cmp_le, cmp_lt, cmp_on in *. simpl in *. destruct (bytes_cmp h h') eqn:E; [|done|done].
    apply (cmp_eq (cmp := bytes_cmp)) in E as ->. destruct Hn. by apply (list_elem_of_fmap_2 fst _ (h', s')).
  - intros [h s]. rewrite list_elem_of_In, in_map_iff. unfold sized. cbn [co_hash co_size].
    setoid_rewrite <- list_elem_of_In. unfold l. setoid_rewrite (sort_by_perm (cmp_on fst bytes_cmp)).
    setoid_rewrite elem_of_map_to_list'. split.
    + intros ([h' s'] & E & Hl). simpl in *. by injection E as -> ->.
    + intros Hl. by exists (h, s).
Qed.

Lemma payload_closure_spec m :
  match payload_objects m with
  | Ok os => StronglySorted hash_lt os /\ (forall o, o ∈ os <-> o ∈ declared_objects m) /\ ~ size_conflict (declared_objects m)
  | Err _ => size_conflict (declared_objects m)
  | Panic => False
  end.
Proof.
  unfold payload_objects. destruct (collect_objects ∅ (declared_objects m)) as [r|e|] eqn:E; cbn [mbind outcome_bind mret].
  - pose proof (collect_objects_Ok _ _ _ E) as Hr. destruct (sorted_pairs_objects r) as [Hs Hin].
    assert (forall o, sized r o <-> o ∈ declared_objects m) as Hd.
    { intros o. rewrite Hr. unfold sized at 1. rewrite lookup_empty. naive_solver. }
    split; [exact Hs|]. split; [intros o; by rewrite <- Hd, <- Hin|].
    intros (a & b & Ha%Hd & Hb%Hd & Eh & Hne). unfold sized in *. rewrite Eh, Hb in Ha. congruence.
  - apply collect_objects_Err in E as (a & b & _ & [Ha|Ha] & Hb & Eh & Hs); [|by exists a, b].
    unfold sized in Ha. by rewrite lookup_empty in Ha.
  - by apply collect_objects_total in E.
Qed.

(** The payload closure: in strictly ascending hash order exactly the declared
    objects, each once; refused exactly when one hash is declared with two sizes. *)
Theorem payload_closure m :
  match payload_objects m with
  | Ok os => StronglySorted hash_lt os /\ (forall o, o ∈ os <-> o ∈ declared_objects m) /\ ~ size_conflict (declared_objects m)
  | Err _ => size_conflict (declared_objects m)
  | Panic => False
  end.
Proof. apply payload_closure_spec. Qed.

(** * The root of a series *)

(** What the root covers of a leaf: all of its descriptor but the source timestamp. *)
Definition logical_part (l : CapsuleLeaf) : bytes * Z * option Z * option Z * option bytes * option bytes :=
  (cl_hash l, cl_count l, cl_min l, cl_max l, cl_attributes l, cl_schema l).

Definition wf_capsule_leaf (l : CapsuleLeaf) : bool :=
  wf_hash (cl_hash l) && is_u64 (cl_count l) && opt_all is_i64 (cl_min l) && opt_all is_i64 (cl_max l)
  && opt_all (fun a => is_u64 (Z.of_nat (length a))) (cl_attributes l) && opt_all wf_hash (cl_schema l).

Definition take_len_prefixed_u64 : Dec bytes := len ← take_u64; take_bytes (Z.to_nat len).

(** A reader for one leaf of the preimage. *)
Definition take_series_leaf : Dec (bytes * Z * option Z * option Z * option bytes * option bytes) :=
  h ← take_hash;
  n ← take_u64;
  flags ← take_u8;
  mn ← take_if (has_flag flags 1) take_i64;
  mx ← take_if (has_flag flags 2) take_i64;
  a ← take_if (has_flag flags 4) take_len_prefixed_u64;
  s ← take_if (has_flag flags 8) take_hash;
  mret (h, n, mn, mx, a, s).

Definition take_capsule_series : Dec (Z * option bytes * list (bytes * Z * option Z * option Z * option bytes * option bytes)) :=
  _ ← expect_tag CAPSULE_SERIES_DOMAIN;
  k ← take_u8;
  f ← take_u8;
  schema ← take_if (f =? 1) take_hash;
  n ← take_u64;
  ls ← take_many (Z.to_nat n) take_series_leaf;
  mret (k, schema, ls).

Lemma series_flags_spec l :
  is_u8 (series_leaf_flags l) = true
  /\ has_flag (series_leaf_flags l) 1 = negb (is_none (cl_min l))
  /\ has_flag (series_leaf_flags l) 2 = negb (is_none (cl_max l))
  /\ has_flag (series_leaf_flags l) 4 = negb (is_none (cl_attributes l))
  /\ has_flag (series_leaf_flags l) 8 = negb (is_none (cl_schema l)).
Proof. unfold series_leaf_flags. destruct (cl_min l), (cl_max l), (cl_attributes l), (cl_schema l); vm_compute; done. Qed.

Lemma decodes_series_leaf l : wf_capsule_leaf l = true -> decodes take_series_leaf (series_leaf_bytes l) (logical_part l).
Proof.
  unfold wf_capsule_leaf. rewrite !andb_true_iff. intros [[[[[Hh Hn] Hmn] Hmx] Ha] Hs].
  destruct (series_flags_spec l) as (Hu & F1 & F2 & F3 & F4). unfold take_series_leaf, series_leaf_bytes.
  do 3 dec_step. rewrite F1, F2, F3, F4.
  eapply decodes_bind; [by apply decodes_opt, decodes_opt_i64|].
  eapply decodes_bind; [by apply decodes_opt, decodes_opt_i64|].
  eapply decodes_bind.
  { apply decodes_opt. destruct (cl_attributes l) as [a|]; [|done]. simpl in Ha.
    unfold take_len_prefixed_u64, push_len_prefixed_u64. eapply decodes_bind; [by apply decodes_u64|]. apply decodes_take. lia. }
  eapply decodes_bind_nil; [|apply decodes_ret]. apply decodes_opt. destruct (cl_schema l); [by apply decodes_hash|done].
Qed.

Lemma decodes_capsule_series k schema ls :
  opt_all wf_hash schema = true -> forallb wf_capsule_leaf ls = true -> is_u64 (Z.of_nat (length ls)) = true ->
  decodes take_capsule_series (series_preimage k schema ls) (kind_byte k, schema, map logical_part ls).
Proof.
  intros Hs Hl Hn. unfold take_capsule_series, series_preimage. dec_step.
  eapply decodes_bind; [apply decodes_u8; by destruct k|].
  assert (forall e b, decodes (n ← take_u64; ls ← take_many (Z.to_nat n) take_series_leaf; mret (kind_byte k, schema, ls)) e b ->
    decodes (f ← take_u8; schema ← take_if (f =? 1) take_hash; n ← take_u64;
      ls ← take_many (Z.to_nat n) take_series_leaf; mret (kind_byte k, schema, ls))
      (match schema with Some h => to_le 1 1 ++ h | None => to_le 1 0 end ++ e) b) as Hsch.
  { intros e b Hd. destruct schema as [h|]; [rewrite <- app_assoc|];
      (eapply decodes_bind; [by apply decodes_u8|]); cbn [Z.eqb take_if].
    - eapply decodes_bind; [|exact Hd]. eapply decodes_bind_nil; [by apply decodes_hash|apply decodes_ret].
    - by eapply (decodes_bind _ _ []); [apply decodes_ret|]. }
  apply Hsch. dec_step. rewrite Nat2Z.id. eapply decodes_bind_nil; [|apply decodes_ret].
  rewrite <- (length_map logical_part). apply decodes_many. clear Hn Hsch.
  induction ls as [|l ls IH]; simpl in *; [constructor|]. apply andb_true_iff in Hl as [Hl1 Hl2].
  constructor; [by apply decodes_series_leaf|by apply IH].
Qed.

(** The root of a series identifies its payload kind, its schema and every leaf
    descriptor, or its preimages are a BLAKE3 collision. *)
Theorem capsule_series_identity `{Blake3} k1 k2 s1 s2 l1 l2 :
  opt_all wf_hash s1 = true -> forallb wf_capsule_leaf l1 = true -> is_u64 (Z.of_nat (length l1)) = true ->
  opt_all wf_hash s2 = true -> forallb wf_capsule_leaf l2 = true -> is_u64 (Z.of_nat (length l2)) = true ->
  capsule_series_root k1 s1 l1 = capsule_series_root k2 s2 l2 ->
  (k1 = k2 /\ s1 = s2 /\ map logical_part l1 = map logical_part l2)
  \/ (series_preimage k1 s1 l1 <> series_preimage k2 s2 l2 /\ capsule_series_root k1 s1 l1 = capsule_series_root k2 s2 l2).
Proof.
  intros Hs1 Hl1 Hn1 Hs2 Hl2 Hn2 E. destruct (decide (series_preimage k1 s1 l1 = series_preimage k2 s2 l2)) as [Ep|Hne]; [left|by right].
  pose proof (decodes_capsule_series k1 s1 l1 Hs1 Hl1 Hn1) as H1. rewrite Ep in H1.
  pose proof (decodes_inj _ _ _ _ H1 (decodes_capsule_series k2 s2 l2 Hs2 Hl2 Hn2)) as E'. injection E' as Ek -> ->.
  split_and!; [|done|done]. by destruct k1, k2.
Qed.

(** On a canonical file leaf the two leaf hashes of the crate agree. *)
Lemma capsule_leaf_hash_file `{Blake3} `{JsonParser} payload mn mx attrs h :
  above mn mx = false -> from_option (fun a => validate_capsule_attributes a = Ok tt) True attrs ->
  capsule_leaf_hash FilePayload None (Z.of_nat (length payload)) payload mn mx attrs = Ok h
  <-> file_leaf_hash payload mn mx attrs = Ok h.
Proof.
  intros Hb Ha.
  assert (match attrs with
     | Some json => a ← encode_canonical_attributes json; mret (Some a)
     | None => mret None end = Ok attrs
    /\ match attrs with
     | Some a => canonical ← map_err AttributesEncoding (encode_capsule_attributes a);
                 if bool_decide (canonical = a) then Ok canonical else Err NoncanonicalAttributes
     | None => Ok [] end = Ok (default [] attrs)) as [E1 E2].
  { destruct attrs as [a|]; [|done]. simpl in Ha. unfold validate_capsule_attributes, validate_canonical_attributes in Ha.
    destruct (utf8_valid a); [|done]. unfold encode_capsule_attributes.
    destruct (encode_canonical_attributes a) as [c| |]; [|done|done]. cbn [mbind outcome_bind map_err] in *.
    case_bool_decide; [|done]. subst. done. }
  unfold file_leaf_hash, capsule_leaf_hash. rewrite E1, Hb. cbn [mbind outcome_bind].
  unfold file_leaf_hash_canonical, leaf_hash_with_magic, leaf_preimage.
  destruct payload as [|x payload]; [done|]. rewrite !bool_decide_false by done.
  destruct (Z.eqb_spec (Z.of_nat (length (x :: payload))) 0) as [|_]; [simpl in *; lia|]. cbn [orb].
  rewrite E2. cbn [mbind outcome_bind file_fields schema_fingerprint canonical_attributes payload_kind logical_count canonical_payload leaf_min leaf_max].
  unfold push_len_prefixed_u32, push_len_prefixed. cbn [length]. change (Z.of_nat 0 <=? u32_max) with true. cbn [mbind outcome_bind].
  destruct (Z.of_nat (length (default [] attrs)) <=? u32_max); [|done]. cbn [mbind outcome_bind mret].
  split; intros <-%Ok_inj; reflexivity.
Qed.
