(* ===== verification/CapsuleStream.v ===== *)
(** The payload streams of a recovery capsule, [content/capsule.rs]: the file
    stream verified in memory and the one verified while reading, and the proof
    that they accept the same streams. *)

From stdpp Require Import base list numbers gmap sets sorting strings options.
From Stdlib Require Import ZArith Lia.
From S2P Require Import Prelude RustStd RustText EntryType Wire CanonicalJson Tree MerkleTree SeriesMerkle SeriesLeaf Capsule.

Open Scope Z_scope.

(** The payload files of a directory, by the hash in the name [blake3=<hash>]. *)
Abbreviation store := (gmap bytes bytes).

(** [Read::read] until it returns 0: the contents in chunks of any sizes. *)
Class FileReads := {
  read_chunks : bytes -> list bytes;
  read_all : forall b, concat (read_chunks b) = b;
  read_some : forall b, Forall (fun c => c <> []) (read_chunks b);
}.

Section Payloads.
Context `{Blake3}.

Definition verify_payload (o : CapsuleObject) (b : bytes) : cres unit :=
  if negb (bool_decide (of_bytes b = co_hash o)) then Err (PayloadHash (co_hash o)) else
  if negb (Z.of_nat (length b) =? co_size o) then Err (PayloadSize (co_hash o)) else Ok tt.

(** The read loop of [verify_payload_file]. *)
Fixpoint hash_chunks (hash input : bytes) (size : Z) (cs : list bytes) : cres (bytes * Z) :=
  match cs with
  | [] => Ok (input, size)
  | c :: cs =>
      let size := size + Z.of_nat (length c) in
      if u64_max <? size then Err (PayloadTooLong hash) else hash_chunks hash (input ++ c) size cs
  end.

Definition verify_payload_file `{FileReads} (objects_dir : store) (o : CapsuleObject) : cres unit :=
  match objects_dir !! co_hash o with
  | None => Err (PayloadMissing (co_hash o))
  | Some b =>
      '(input, size) ← hash_chunks (co_hash o) [] 0 (read_chunks b);
      if negb (bool_decide (blake3 input = co_hash o)) || negb (size =? co_size o) then Err (PayloadHash (co_hash o)) else Ok tt
  end.

(** * File streams in memory *)

Definition Reads := bytes -> cres bytes.

(** The objects of a stream, verified and concatenated. *)
Fixpoint read_stream (read : Reads) (stream : bytes) (objects : list CapsuleObject) : cres bytes :=
  match objects with
  | [] => Ok stream
  | o :: objects =>
      b ← read (co_hash o);
      _ ← verify_payload o b;
      read_stream read (stream ++ b) objects
  end.

Fixpoint declared_count (total : Z) (ls : list CapsuleLeaf) : cres Z :=
  match ls with
  | [] => Ok total
  | l :: ls => if u64_max <? total + cl_count l then Err LogicalCountOverflow else declared_count (total + cl_count l) ls
  end.

(** The loop over the leaves, on the stream from the offset on. *)
Fixpoint check_file_leaves `{JsonParser} (path : bytes) (index : Z) (rest : bytes) (ls : list CapsuleLeaf) : cres unit :=
  match ls with
  | [] => Ok tt
  | l :: ls =>
      let count := Z.to_nat (cl_count l) in
      if (length rest <? count)%nat then Panic else
      computed ← map_err (fun _ => LeafHashing path index) (file_leaf_hash (firstn count rest) (cl_min l) (cl_max l) (cl_attributes l));
      if negb (bool_decide (computed = cl_hash l)) then Err (LeafMismatch path index) else
      check_file_leaves path (index + 1) (skipn count rest) ls
  end.

Definition verify_file_stream `{JsonParser} (read : Reads) (path : bytes) (objects : list CapsuleObject) (ls : list CapsuleLeaf) : cres unit :=
  stream ← read_stream read [] objects;
  declared ← declared_count 0 ls;
  if negb (Z.of_nat (length stream) =? declared) then Err (StreamLength path) else
  check_file_leaves path 0 stream ls.

(** * File streams while reading *)

Record FileStream := { fs_index : nat; fs_hasher : option FileHasher }.

Definition new_file_leaf_hasher (l : CapsuleLeaf) : outcome leaf_error FileHasher :=
  hasher_new (cl_count l) (cl_min l) (cl_max l) (cl_attributes l).

(** [leaves.get(index).map(new_file_leaf_hasher).transpose()]. *)
Definition next_hasher (path : bytes) (ls : list CapsuleLeaf) (index : nat) : cres (option FileHasher) :=
  match ls !! index with
  | None => Ok None
  | Some l => h ← map_err (fun _ => LeafHashing path (Z.of_nat index)) (new_file_leaf_hasher l); mret (Some h)
  end.

(** The inner loop over one chunk, [while offset < count], on the bytes from the offset on. *)
Fixpoint feed_chunk (fuel : nat) (path : bytes) (ls : list CapsuleLeaf) (st : FileStream) (chunk : bytes) : cres FileStream :=
  match chunk with
  | [] => Ok st
  | _ :: _ =>
      match fuel with
      | O => Panic
      | S fuel =>
          match fs_hasher st with
          | None => Err (BytesAfterLeaves path)
          | Some current =>
              let n := Nat.min (Z.to_nat (hasher_remaining current)) (length chunk) in
              current ← map_err (fun _ => LeafHashing path (Z.of_nat (fs_index st))) (hasher_write current (firstn n chunk));
              if hasher_remaining current =? 0 then
                computed ← map_err (fun _ => LeafHashing path (Z.of_nat (fs_index st))) (hasher_finish current);
                match ls !! fs_index st with
                | None => Panic
                | Some l =>
                    if negb (bool_decide (computed = cl_hash l)) then Err (LeafMismatch path (Z.of_nat (fs_index st))) else
                    next ← next_hasher path ls (S (fs_index st));
                    feed_chunk fuel path ls {| fs_index := S (fs_index st); fs_hasher := next |} (skipn n chunk)
                end
              else feed_chunk fuel path ls {| fs_index := fs_index st; fs_hasher := Some current |} (skipn n chunk)
          end
      end
  end.

Fixpoint feed_chunks (path : bytes) (ls : list CapsuleLeaf) (st : FileStream) (cs : list bytes) : cres FileStream :=
  match cs with
  | [] => Ok st
  | c :: cs => st ← feed_chunk (length c) path ls st c; feed_chunks path ls st cs
  end.

Fixpoint feed_objects `{FileReads} (objects_dir : store) (path : bytes) (ls : list CapsuleLeaf) (st : FileStream) (objects : list CapsuleObject)
  : cres FileStream :=
  match objects with
  | [] => Ok st
  | o :: objects =>
      match objects_dir !! co_hash o with
      | None => Err (PayloadMissing (co_hash o))
      | Some b => st ← feed_chunks path ls st (read_chunks b); feed_objects objects_dir path ls st objects
      end
  end.

Definition verify_file_stream_directory `{FileReads} (objects_dir : store) (path : bytes) (objects : list CapsuleObject) (ls : list CapsuleLeaf)
  : cres unit :=
  first ← next_hasher path ls 0;
  st ← feed_objects objects_dir path ls {| fs_index := 0; fs_hasher := first |} objects;
  if negb (fs_index st =? length ls)%nat then Err (EndedEarly path (Z.of_nat (fs_index st))) else Ok tt.
End Payloads.

(** * What both accept *)

(** The stream is cut by the leaf counts into segments with the leaf hashes. *)
Definition leaf_segment `{Blake3} (l : CapsuleLeaf) (seg : bytes) : Prop :=
  Z.of_nat (length seg) = cl_count l /\ file_leaf_hash_canonical seg (cl_min l) (cl_max l) (cl_attributes l) = Ok (cl_hash l).
Definition stream_matches `{Blake3} (ls : list CapsuleLeaf) (stream : bytes) : Prop :=
  exists segs, Forall2 leaf_segment ls segs /\ concat segs = stream.

(** The counts and attributes that [validate_entry] lets through. *)
Definition leaf_valid `{JsonParser} (l : CapsuleLeaf) : Prop :=
  0 < cl_count l <= u64_max /\ from_option (fun a => validate_capsule_attributes a = Ok tt) True (cl_attributes l).

(** The contents of the objects in a directory. *)
Definition contents (objects_dir : store) (objects : list CapsuleObject) : list bytes :=
  map (fun o => default [] (objects_dir !! co_hash o)) objects.

Section Streams.
#[local] Set Default Proof Using "Type*".
Context `{Blake3}.

(** ** The reading verifier *)

(** Its state with [i] leaves done, [rest] to come and the bytes [partial] of the first of them fed. *)
Definition stream_at (i : nat) (rest : list CapsuleLeaf) (partial : bytes) : FileStream :=
  {| fs_index := i; fs_hasher := match rest with
                                 | [] => None
                                 | l :: _ => Some (hashing (cl_count l) (cl_min l) (cl_max l) (cl_attributes l) partial)
                                 end |}.

Definition partial_ok (rest : list CapsuleLeaf) (partial : bytes) : Prop :=
  match rest with [] => partial = [] | l :: _ => Z.of_nat (length partial) < cl_count l end.

Definition hash_is (l : CapsuleLeaf) (seg : bytes) : bool :=
  bool_decide (file_leaf_hash_canonical seg (cl_min l) (cl_max l) (cl_attributes l) = Ok (cl_hash l)).

(** What remains after the bytes [data]: [None] if a leaf does not match or bytes are left over. *)
Fixpoint consume (rest : list CapsuleLeaf) (data : bytes) : option (list CapsuleLeaf * bytes) :=
  match rest with
  | [] => if bool_decide (data = []) then Some ([], []) else None
  | l :: rest' =>
      if Z.of_nat (length data) <? cl_count l then Some (rest, data) else
      let n := Z.to_nat (cl_count l) in
      if hash_is l (firstn n data) then consume rest' (skipn n data) else None
  end.

Definition counts_ok (ls : list CapsuleLeaf) : Prop := Forall (fun l => 0 < cl_count l <= u64_max) ls.

Lemma consume_partial rest data r p : counts_ok rest -> consume rest data = Some (r, p) -> partial_ok r p /\ counts_ok r /\ (length r <= length rest)%nat.
Proof.
  revert data. induction rest as [|l rest IH]; intros data Hc; cbn [consume].
  { case_bool_decide; [|done]. intros [= <- <-]. done. }
  destruct (Z.ltb_spec (Z.of_nat (length data)) (cl_count l)) as [Hl|Hl]; [by intros [= <- <-]|].
  destruct (hash_is l _); [|done]. intros E%IH; [|by apply Forall_cons in Hc as [_ ?]]. destruct E as (? & ? & ?). simpl. auto with lia.
Qed.

(** Consuming in two parts. *)
Lemma consume_app rest a b :
  counts_ok rest ->
  consume rest (a ++ b) = match consume rest a with Some (r, p) => consume r (p ++ b) | None => None end.
Proof.
  revert a. induction rest as [|l rest IH]; intros a Hc; cbn [consume].
  { destruct a as [|x a]; [done|]. cbn [app]. by rewrite !bool_decide_false by done. }
  apply Forall_cons in Hc as [Hl Hc]. destruct (Z.ltb_spec (Z.of_nat (length a)) (cl_count l)) as [Ha|Ha]; [done|].
  rewrite length_app. destruct (Z.ltb_spec (Z.of_nat (length a + length b)) (cl_count l)); [lia|].
  rewrite take_app_le, drop_app_le by lia. destruct (hash_is l _); [|done]. by apply IH.
Qed.

(** The result of the reading verifier against [consume]. *)
Definition follows_consume (ls : list CapsuleLeaf) (out : cres FileStream) (c : option (list CapsuleLeaf * bytes)) : Prop :=
  match c with
  | Some (r, p) => out = Ok (stream_at (length ls - length r) r p)
  | None => exists e, out = Err e
  end.

Lemma next_hasher_at path ls done rest :
  ls = done ++ rest -> counts_ok rest ->
  next_hasher path ls (length done) = Ok (fs_hasher (stream_at (length done) rest [])).
Proof.
  intros -> Hc. unfold next_hasher. rewrite lookup_app_r, Nat.sub_diag by done.
  destruct rest as [|l rest]; [done|]. apply Forall_cons in Hc as [Hl _]. cbn. unfold new_file_leaf_hasher.
  rewrite hasher_new_hashing by lia. done.
Qed.

Lemma finish_hashing_cases l seg :
  0 < cl_count l -> Z.of_nat (length seg) = cl_count l ->
  match hasher_finish (hashing (cl_count l) (cl_min l) (cl_max l) (cl_attributes l) seg) with
  | Ok h => bool_decide (h = cl_hash l) = hash_is l seg
  | Err _ => hash_is l seg = false
  | Panic => False
  end.
Proof.
  intros Hc Hl. assert (seg <> []) as Hne by (intros ->; simpl in Hl; lia).
  pose proof (hasher_finish_hashing (cl_min l) (cl_max l) (cl_attributes l) seg) as Hf. rewrite Hl in Hf. unfold hash_is.
  destruct (hasher_finish _) as [h|e|] eqn:E.
  - specialize (Hf h Hne). apply bool_decide_ext. rewrite (proj1 Hf eq_refl). split; [by intros ->|congruence].
  - apply bool_decide_false. intros E'%Hf; [|done]. congruence.
  - unfold hasher_finish in E. by repeat case_match.
Qed.

Lemma feed_chunk_spec fuel path ls done rest partial chunk :
  ls = done ++ rest -> counts_ok rest -> partial_ok rest partial -> (length chunk <= fuel)%nat ->
  follows_consume ls (feed_chunk fuel path ls (stream_at (length done) rest partial) chunk) (consume rest (partial ++ chunk)).
Proof.
  revert done rest partial chunk. induction fuel as [|fuel IH]; intros done rest partial chunk Els Hc Hp Hf.
  all: destruct chunk as [|x chunk].
  1,3: rewrite app_nil_r; cbn [feed_chunk];
    assert (consume rest partial = Some (rest, partial)) as -> by
      (destruct rest as [|l rest]; cbn [consume]; [simpl in Hp; subst; done|]; simpl in Hp; by destruct (Z.ltb_spec (Z.of_nat (length partial)) (cl_count l)); [|lia]);
    cbn; f_equal; f_equal; subst; rewrite length_app; lia.
  { simpl in Hf. lia. }
  set (data := x :: chunk) in *. destruct rest as [|l rest].
  { simpl in Hp. subst partial. cbn. by eexists. }
  apply Forall_cons in Hc as [Hl Hc]. simpl in Hp.
  change (feed_chunk (S fuel) path ls (stream_at (length done) (l :: rest) partial) data) with
    (let n := Nat.min (Z.to_nat (hasher_remaining (hashing (cl_count l) (cl_min l) (cl_max l) (cl_attributes l) partial))) (length data) in
     current ← map_err (fun _ => LeafHashing path (Z.of_nat (length done)))
       (hasher_write (hashing (cl_count l) (cl_min l) (cl_max l) (cl_attributes l) partial) (firstn n data));
     if hasher_remaining current =? 0 then
       computed ← map_err (fun _ => LeafHashing path (Z.of_nat (length done))) (hasher_finish current);
       match ls !! length done with
       | None => Panic
       | Some l' =>
           if negb (bool_decide (computed = cl_hash l')) then Err (LeafMismatch path (Z.of_nat (length done))) else
           next ← next_hasher path ls (S (length done));
           feed_chunk fuel path ls {| fs_index := S (length done); fs_hasher := next |} (skipn n data)
       end
     else feed_chunk fuel path ls {| fs_index := length done; fs_hasher := Some current |} (skipn n data)).
  cbv zeta. change (hasher_remaining (hashing (cl_count l) (cl_min l) (cl_max l) (cl_attributes l) partial))
    with (cl_count l - Z.of_nat (length partial)).
  set (n := Nat.min (Z.to_nat (cl_count l - Z.of_nat (length partial))) (length data)).
  assert (0 < length data)%nat by (simpl; lia). assert (0 < n)%nat by lia.
  assert (length (firstn n data) = n) as Hn by (rewrite length_take; lia).
  rewrite hasher_write_hashing by lia. cbn [map_err mbind outcome_bind].
  assert (hasher_remaining (hashing (cl_count l) (cl_min l) (cl_max l) (cl_attributes l) (partial ++ firstn n data))
    = cl_count l - Z.of_nat (length partial + n)) as -> by (unfold hasher_remaining; cbn [hashing fh_count fh_written]; by rewrite length_app, Hn).
  cbn [consume]. rewrite length_app. destruct (Z.eqb_spec (cl_count l - Z.of_nat (length partial + n)) 0) as [E0|E0].
  - destruct (Z.ltb_spec (Z.of_nat (length partial + length data)) (cl_count l)); [lia|].
    replace (Z.to_nat (cl_count l)) with (length partial + n)%nat by lia.
    rewrite take_app_add, drop_app_add.
    pose proof (finish_hashing_cases l (partial ++ firstn n data)) as Hfin. rewrite length_app, Hn in Hfin. specialize (Hfin ltac:(lia) ltac:(lia)).
    destruct (hasher_finish _) as [h|e|]; cbn [map_err mbind outcome_bind]; [|rewrite Hfin; by eexists|done].
    assert (ls !! length done = Some l) as -> by (subst ls; by rewrite lookup_app_r, Nat.sub_diag).
    rewrite Hfin. destruct (hash_is l _); cbn [negb]; [|by eexists].
    pose proof (next_hasher_at path ls (done ++ [l]) rest) as Hnext. rewrite length_app in Hnext. cbn [length] in Hnext. rewrite Nat.add_1_r in Hnext.
    rewrite Hnext; [|by subst ls; rewrite <- app_assoc|done]. cbn [mbind outcome_bind].
    specialize (IH (done ++ [l]) rest [] (skipn n data)). rewrite length_app, Nat.add_1_r in IH. cbn [app] in IH. apply IH.
    + by subst ls; rewrite <- app_assoc.
    + done.
    + destruct rest as [|l' rest]; [done|]. apply Forall_cons in Hc as [? _]. simpl. lia.
    + rewrite length_drop. simpl in Hf. subst data. simpl in *. lia.
  - assert (n = length data) as En by lia. destruct (Z.ltb_spec (Z.of_nat (length partial + length data)) (cl_count l)) as [Hlt|]; [|lia].
    rewrite En, drop_all, firstn_all. cbn [follows_consume].
    replace (length ls - length (l :: rest))%nat with (length done) by (subst ls; rewrite length_app; lia). by destruct fuel.
Qed.

Lemma consume_suffix rest data r p : consume rest data = Some (r, p) -> exists pre, rest = pre ++ r.
Proof.
  revert data. induction rest as [|l rest IH]; intros data; cbn [consume].
  { case_bool_decide; [|done]. intros [= <- <-]. by exists []. }
  destruct (Z.ltb_spec (Z.of_nat (length data)) (cl_count l)); [intros [= <- <-]; by exists []|].
  destruct (hash_is l _); [|done]. intros (pre & ->)%IH. by exists (l :: pre).
Qed.

Lemma feed_chunks_spec path ls done rest partial cs :
  ls = done ++ rest -> counts_ok rest -> partial_ok rest partial ->
  follows_consume ls (feed_chunks path ls (stream_at (length done) rest partial) cs) (consume rest (partial ++ concat cs)).
Proof.
  revert done rest partial. induction cs as [|c cs IH]; intros done rest partial Els Hc Hp.
  { pose proof (feed_chunk_spec 0 path ls done rest partial [] Els Hc Hp ltac:(done)) as Hf. exact Hf. }
  cbn [feed_chunks concat]. rewrite app_assoc, consume_app by done.
  pose proof (feed_chunk_spec (length c) path ls done rest partial c Els Hc Hp ltac:(done)) as Hf.
  destruct (consume rest (partial ++ c)) as [[r p]|] eqn:Ec; cbn [follows_consume] in Hf.
  - rewrite Hf. cbn [mbind outcome_bind]. destruct (consume_partial _ _ _ _ Hc Ec) as (Hp' & Hc' & _).
    destruct (consume_suffix _ _ _ _ Ec) as (pre & Er). subst rest. subst ls.
    replace (length (done ++ pre ++ r) - length r)%nat with (length (done ++ pre)) by (rewrite !length_app; lia).
    apply IH; [by rewrite <- app_assoc|done|done].
  - destruct Hf as (e & ->). by eexists.
Qed.

Lemma consume_matches ls data : counts_ok ls -> consume ls data = Some ([], []) <-> stream_matches ls data.
Proof.
  revert data. induction ls as [|l ls IH]; intros data Hc; cbn [consume].
  { split.
    - case_bool_decide; [|done]. intros _. subst. exists []. split; [constructor|done].
    - intros (segs & Hs & <-). inversion Hs; subst. done. }
  apply Forall_cons in Hc as [Hl Hc]. unfold leaf_segment in *. split.
  - destruct (Z.ltb_spec (Z.of_nat (length data)) (cl_count l)); [done|].
    destruct (hash_is l _) eqn:Eh; [|done]. intros (segs & Hs & Ec)%IH; [|done]. exists (firstn (Z.to_nat (cl_count l)) data :: segs).
    split; [constructor; [|done]|cbn [concat]; by rewrite Ec, take_drop]. split; [rewrite length_take; lia|]. by apply bool_decide_eq_true in Eh.
  - intros (segs & Hs & <-). inversion Hs as [|? seg ? segs' [Hlen Hh] Hs']; subst. cbn [concat]. rewrite length_app.
    destruct (Z.ltb_spec (Z.of_nat (length seg + length (concat segs'))) (cl_count l)); [lia|].
    rewrite take_app_length', drop_app_length' by lia. unfold hash_is. rewrite bool_decide_true by done. apply IH; [done|]. by exists segs'.
Qed.

Lemma stream_matches_length ls data :
  stream_matches ls data -> Z.of_nat (length data) = foldr (fun l t => cl_count l + t) 0 ls.
Proof.
  intros (segs & Hs & <-). induction Hs as [|l seg ls segs [Hl _] _ IH]; cbn [concat foldr]; [done|]. rewrite length_app. lia.
Qed.

Lemma feed_objects_spec `{FileReads} dir path ls done rest partial objects :
  ls = done ++ rest -> counts_ok rest -> partial_ok rest partial -> Forall (fun o => is_Some (dir !! co_hash o)) objects ->
  follows_consume ls (feed_objects dir path ls (stream_at (length done) rest partial) objects)
    (consume rest (partial ++ concat (contents dir objects))).
Proof.
  intros Els Hc Hp Ho. revert done rest partial Els Hc Hp.
  induction Ho as [|o objects [b Hb] _ IH]; intros done rest partial Els Hc Hp.
  { exact (feed_chunk_spec 0 path ls done rest partial [] Els Hc Hp ltac:(done)). }
  cbn [feed_objects contents map concat]. rewrite Hb. cbn [default from_option id]. rewrite app_assoc, consume_app by done.
  pose proof (feed_chunks_spec path ls done rest partial (read_chunks b) Els Hc Hp) as Hf. rewrite read_all in Hf.
  destruct (consume rest (partial ++ b)) as [[r p]|] eqn:Ec; cbn [follows_consume] in Hf.
  - rewrite Hf. cbn [mbind outcome_bind]. destruct (consume_partial _ _ _ _ Hc Ec) as (Hp' & Hc' & _).
    destruct (consume_suffix _ _ _ _ Ec) as (pre & ->). subst ls.
    replace (length (done ++ pre ++ r) - length r)%nat with (length (done ++ pre)) by (rewrite !length_app; lia).
    apply IH; [by rewrite <- app_assoc|done|done].
  - destruct Hf as (e & ->). by eexists.
Qed.

(** The reading verifier accepts exactly the streams that match, and never panics. *)
Lemma verify_file_stream_directory_spec `{FileReads} dir path objects ls :
  Forall (fun o => is_Some (dir !! co_hash o)) objects -> counts_ok ls ->
  (verify_file_stream_directory dir path objects ls = Ok tt <-> stream_matches ls (concat (contents dir objects)))
  /\ verify_file_stream_directory dir path objects ls <> Panic.
Proof.
  intros Ho Hc. unfold verify_file_stream_directory. change (next_hasher path ls 0) with (next_hasher path ls (length (@nil CapsuleLeaf))).
  rewrite (next_hasher_at path ls [] ls) by done. cbn [mbind outcome_bind length].
  assert (partial_ok ls []) as Hp by (destruct ls as [|l ls]; [done|]; apply Forall_cons in Hc as [? _]; simpl; lia).
  pose proof (feed_objects_spec dir path ls [] ls [] objects eq_refl Hc Hp Ho) as Hf. cbn [length app] in Hf.
  change {| fs_index := 0; fs_hasher := fs_hasher (stream_at 0 ls []) |} with (stream_at 0 ls []).
  rewrite <- consume_matches by done. destruct (consume ls _) as [[r p]|] eqn:Ec; cbn [follows_consume] in Hf.
  - rewrite Hf. cbn [mbind outcome_bind stream_at fs_index]. destruct (consume_partial _ _ _ _ Hc Ec) as (Hp' & _ & Hl).
    destruct (Nat.eqb_spec (length ls - length r) (length ls)) as [E|E]; cbn [negb]; (split; [|done]).
    + split; [|done]. intros _. destruct r as [|l r]; [simpl in Hp'; by subst|]. simpl in *. lia.
    + split; [done|]. intros [= -> ->]. simpl in E. lia.
  - destruct Hf as (e & ->). done.
Qed.

(** ** The verifier in memory *)

Definition read_from (dir : store) : Reads := fun h => match dir !! h with Some b => Ok b | None => Err (PayloadMissing h) end.

Lemma read_stream_spec dir acc objects s :
  read_stream (read_from dir) acc objects = Ok s <->
  Forall (fun o => exists b, dir !! co_hash o = Some b /\ verify_payload o b = Ok tt) objects /\ s = acc ++ concat (contents dir objects).
Proof.
  revert acc. induction objects as [|o objects IH]; intros acc; cbn [read_stream contents map concat].
  { rewrite app_nil_r. split; [intros ->%Ok_inj; split; [constructor|done]|by intros [_ ->]]. }
  assert (read_from dir (co_hash o) = match dir !! co_hash o with Some b => Ok b | None => Err (PayloadMissing (co_hash o)) end) as -> by done.
  destruct (dir !! co_hash o) as [b|] eqn:Eb; cbn [mbind outcome_bind].
  - split.
    + intros E. apply bind_Ok in E as ([] & Hv & E). apply IH in E as [Hf ->]. split; [constructor; [by exists b|done]|].
      unfold contents. by rewrite app_assoc.
    + intros [Hf ->]. apply Forall_cons in Hf as [(b' & E & Hv) Hf]. rewrite Eb in E. injection E as <-. rewrite Hv. cbn [mbind outcome_bind].
      apply IH. split; [done|]. cbn [default from_option id]. unfold contents. by rewrite app_assoc.
  - split; [done|]. intros [Hf _]. apply Forall_cons in Hf as [(b' & E & _) _]. congruence.
Qed.

Lemma declared_count_spec t ls n :
  0 <= t <= u64_max -> counts_ok ls ->
  declared_count t ls = Ok n <-> n = t + foldr (fun l t => cl_count l + t) 0 ls /\ n <= u64_max.
Proof.
  revert t. induction ls as [|l ls IH]; intros t Ht Hc; cbn [declared_count foldr].
  { rewrite Z.add_0_r. split; [intros ->%Ok_inj; lia|by intros [-> _]]. }
  apply Forall_cons in Hc as [Hl Hc].
  assert (0 <= foldr (fun l t => cl_count l + t) 0 ls) by (clear -Hc; induction Hc; simpl; lia).
  destruct (Z.ltb_spec u64_max (t + cl_count l)); [split; [done|lia]|]. rewrite IH by (done || lia). rewrite Z.add_assoc. done.
Qed.

Section Memory.
Context `{JsonParser}.

Lemma valid_attributes_encode attrs :
  from_option (fun a => validate_capsule_attributes a = Ok tt) True attrs ->
  match attrs with Some json => a ← encode_canonical_attributes json; mret (Some a) | None => mret None end = Ok attrs.
Proof.
  destruct attrs as [a|]; [|done]. simpl. unfold validate_capsule_attributes, validate_canonical_attributes.
  destruct (utf8_valid a); [|done]. destruct (encode_canonical_attributes a) as [c| |]; [|done|done]. cbn [mbind outcome_bind].
  case_bool_decide; [by subst|done].
Qed.

Lemma file_leaf_hash_valid seg mn mx attrs :
  from_option (fun a => validate_capsule_attributes a = Ok tt) True attrs ->
  file_leaf_hash seg mn mx attrs = file_leaf_hash_canonical seg mn mx attrs.
Proof. intros Ha. unfold file_leaf_hash. by rewrite (valid_attributes_encode attrs Ha). Qed.

Lemma check_file_leaves_spec path i data ls :
  Forall leaf_valid ls -> Z.of_nat (length data) = foldr (fun l t => cl_count l + t) 0 ls ->
  check_file_leaves path i data ls = Ok tt <-> stream_matches ls data.
Proof.
  revert i data. induction ls as [|l ls IH]; intros i data Hv Hlen; cbn [check_file_leaves].
  { split; [|done]. intros _. exists []. destruct data; [split; [constructor|done]|simpl in Hlen; lia]. }
  apply Forall_cons in Hv as [[Hl Ha] Hv]. cbn [foldr] in Hlen.
  assert (0 <= foldr (fun l t => cl_count l + t) 0 ls) by (clear -Hv; induction Hv as [|? ? [? _]]; simpl; lia).
  destruct (Nat.ltb_spec (length data) (Z.to_nat (cl_count l))); [lia|]. rewrite file_leaf_hash_valid by done.
  split.
  - intros E. apply bind_Ok in E as (h & Hh & E). case_bool_decide; [|done]. cbn [negb] in E. subst h.
    apply IH in E as (segs & Hs & Ec); [|done|rewrite length_drop; lia]. exists (firstn (Z.to_nat (cl_count l)) data :: segs).
    split; [constructor; [|done]|cbn [concat]; by rewrite Ec, take_drop]. split; [rewrite length_take; lia|].
    revert Hh. destruct (file_leaf_hash_canonical _ _ _ _); simpl; congruence.
  - intros (segs & Hs & <-). inversion Hs as [|? seg ? segs' [Hsl Hh] Hs']; subst. cbn [concat] in *.
    rewrite take_app_length', drop_app_length' by lia. rewrite Hh. cbn [map_err mbind outcome_bind]. rewrite bool_decide_true by done. cbn [negb].
    apply IH; [done| |by exists segs']. rewrite length_app in Hlen. lia.
Qed.

Lemma verify_file_stream_spec dir path objects ls :
  Forall leaf_valid ls ->
  verify_file_stream (read_from dir) path objects ls = Ok tt <->
  Forall (fun o => exists b, dir !! co_hash o = Some b /\ verify_payload o b = Ok tt) objects
  /\ Z.of_nat (length (concat (contents dir objects))) <= u64_max
  /\ stream_matches ls (concat (contents dir objects)).
Proof.
  intros Hv. assert (counts_ok ls) as Hc by (eapply Forall_impl; [exact Hv|]; by intros ? [? _]). unfold verify_file_stream. split.
  - intros E. apply bind_Ok in E as (s & Hs & E). apply read_stream_spec in Hs as [Hf ->]. cbn [app] in E.
    apply bind_Ok in E as (n & Hn & E). apply declared_count_spec in Hn as [-> Hn]; [|unfold u64_max; lia|done]. rewrite Z.add_0_l in *.
    destruct (Z.eqb_spec (Z.of_nat (length (concat (contents dir objects)))) (foldr (fun l t => cl_count l + t) 0 ls)) as [El|]; [|done]. cbn [negb] in E.
    apply check_file_leaves_spec in E; [|done|done]. split; [done|]. split; [lia|done].
  - intros (Hf & Hl & Hm). assert (read_stream (read_from dir) [] objects = Ok (concat (contents dir objects))) as -> by (by apply read_stream_spec).
    cbn [mbind outcome_bind]. pose proof (stream_matches_length _ _ Hm) as El.
    assert (declared_count 0 ls = Ok (Z.of_nat (length (concat (contents dir objects))))) as ->
      by (apply declared_count_spec; [unfold u64_max; lia|done|lia]).
    cbn [mbind outcome_bind]. rewrite Z.eqb_refl. cbn [negb]. by apply check_file_leaves_spec.
Qed.
End Memory.

(** The file check of one payload, read in chunks, is the check in memory. *)
Lemma hash_chunks_spec hash input size cs :
  size + Z.of_nat (length (concat cs)) <= u64_max ->
  hash_chunks hash input size cs = Ok (input ++ concat cs, size + Z.of_nat (length (concat cs))).
Proof.
  revert input size. induction cs as [|c cs IH]; intros input size Hl; cbn [hash_chunks concat] in *.
  { by rewrite app_nil_r, Z.add_0_r. }
  rewrite length_app in *. destruct (Z.ltb_spec u64_max (size + Z.of_nat (length c))); [lia|].
  rewrite IH by lia. f_equal. rewrite <- app_assoc. f_equal. lia.
Qed.

Lemma verify_payload_file_spec `{FileReads} dir o :
  (forall b, dir !! co_hash o = Some b -> Z.of_nat (length b) <= u64_max) ->
  verify_payload_file dir o = Ok tt <-> exists b, dir !! co_hash o = Some b /\ verify_payload o b = Ok tt.
Proof.
  intros Hl. unfold verify_payload_file, verify_payload, of_bytes. destruct (dir !! co_hash o) as [b|]; [|split; [done|by intros (? & ? & _)]].
  rewrite hash_chunks_spec by (rewrite read_all, Z.add_0_l; auto). rewrite read_all. cbn [mbind outcome_bind app]. rewrite Z.add_0_l.
  split.
  - intros E. exists b. split; [done|]. case_bool_decide; [|done]. destruct (_ =? _); [done|]. done.
  - intros (b' & [= <-] & E). case_bool_decide; [|done]. cbn [negb orb] in *. by destruct (_ =? _).
Qed.
End Streams.
