(* ===== verification/CapsuleTable.v ===== *)
(** The table streams of a recovery capsule, [content/capsule.rs]: Parquet objects
    whose rows, cut at the leaf counts, have the leaf hashes.  One verifier keeps
    the slices in memory, the other reads the objects twice; both accept the same
    streams unless two schemas collide under BLAKE3. *)

From stdpp Require Import base list numbers gmap sets sorting strings options.
From Stdlib Require Import ZArith Lia.
From S2P Require Import Prelude RustStd RustText EntryType Wire CanonicalJson Tree MerkleTree SeriesMerkle SeriesLeaf TableLeaf TableRows Capsule CapsuleStream.

Open Scope Z_scope.

(** The Parquet reader: the Arrow schema of a file, and its batches in order,
    each of which can fail to decode. *)
Class Parquet := {
  parquet_schema : bytes -> option ArrowSchema;
  parquet_batches : bytes -> option (list (option RecordBatch));
}.

(** * The first pass *)

(** [records] are the slices with their leaf; only the verifier in memory keeps them. *)
Record Scan := {
  sc_index : nat;
  sc_rows : Z;
  sc_schemas : list ArrowSchema;
  sc_lengths : list Z;
  sc_records : list (nat * RecordBatch);
}.

Section Tables.
Context `{Blake3} `{ArrowCast} `{Parquet}.

(** The schema of an object in canonical form, with its fingerprint. *)
Definition open_table (path b : bytes) : cres (ArrowSchema * bytes) :=
  match parquet_schema b with
  | None => Err (TableOpen path)
  | Some raw =>
      schema ← map_err (fun _ => TableOpen path) (canonicalize_schema raw);
      fp ← map_err (fun _ => TableOpen path) (schema_fingerprint_of schema);
      mret (schema, fp)
  end.

(** The leaf a row or an object belongs to must declare the object's schema. *)
Definition require_schema (path fp : bytes) (index : nat) (l : CapsuleLeaf) : cres unit :=
  match cl_schema l with
  | None => Err (TableSchema path (Z.of_nat index))
  | Some expected => if bool_decide (fp = expected) then Ok tt else Err (TableSchema path (Z.of_nat index))
  end.

(** Before the rows of an object are read. *)
Definition check_object (path fp : bytes) (node_schema : option bytes) (ls : list CapsuleLeaf) (index : nat) : cres unit :=
  if is_nil ls then
    match node_schema with
    | None => Err (TableNodeSchema path)
    | Some expected => if bool_decide (fp = expected) then Ok tt else Err (TableNodeSchema path)
    end
  else match ls !! index with
       | None => Err (ObjectsAfterLeaves path)
       | Some l => require_schema path fp index l
       end.

(** The schema of the leaf in progress; the directory verifier also compares it
    with the one the leaf started with. *)
Definition note_schema (strict : bool) (path : bytes) (schema : ArrowSchema) (index : nat) (schemas : list ArrowSchema) : cres (list ArrowSchema) :=
  if (length schemas =? index)%nat then Ok (schemas ++ [schema]) else
  if strict then
    match schemas !! index with
    | None => Panic
    | Some s => if bool_decide (s = schema) then Ok schemas else Err (TableSchema path (Z.of_nat index))
    end
  else Ok schemas.

Definition leaf_take (rows : Z) (l : CapsuleLeaf) (n : nat) : nat := Nat.min (Z.to_nat (cl_count l - rows)) n.

(** [while offset < batch.num_rows()]. *)
Fixpoint scan_batch (fuel : nat) (strict : bool) (path : bytes) (ls : list CapsuleLeaf) (schema : ArrowSchema) (fp : bytes) (batch : RecordBatch)
    (offset : nat) (st : Scan) : cres Scan :=
  if negb (offset <? num_rows batch)%nat then Ok st else
  match fuel with
  | O => Panic
  | S fuel =>
      let i := sc_index st in
      match ls !! i with
      | None => Err (RowsAfterLeaves path)
      | Some l =>
          _ ← require_schema path fp i l;
          schemas ← note_schema strict path schema i (sc_schemas st);
          if cl_count l <? sc_rows st then Err (RowUnderflow path (Z.of_nat i)) else
          let n := leaf_take (sc_rows st) l (num_rows batch - offset) in
          let piece := slice batch offset n in
          b ← map_err (fun _ => LeafHashing path (Z.of_nat i)) (encode_canonical_batch_rows schema piece);
          match sc_lengths st !! i with
          | None => Panic
          | Some len =>
              let len := len + Z.of_nat (length b) in
              if u64_max <? len then Err (RowsOverflow path) else
              let rows := sc_rows st + Z.of_nat n in
              let complete := rows =? cl_count l in
              scan_batch fuel strict path ls schema fp batch (offset + n)
                {| sc_index := if complete then S i else i; sc_rows := if complete then 0 else rows; sc_schemas := schemas;
                   sc_lengths := <[i := len]> (sc_lengths st); sc_records := sc_records st ++ [(i, piece)] |}
          end
      end
  end.

Fixpoint scan_batches (strict : bool) (path : bytes) (ls : list CapsuleLeaf) (schema : ArrowSchema) (fp : bytes) (object_rows : Z)
    (batches : list (option RecordBatch)) (st : Scan) : cres (Z * Scan) :=
  match batches with
  | [] => Ok (object_rows, st)
  | None :: _ => Err (TableOpen path)
  | Some b :: batches =>
      let object_rows := object_rows + Z.of_nat (num_rows b) in
      if u64_max <? object_rows then Err (RowsOverflow path) else
      st ← scan_batch (num_rows b + length ls) strict path ls schema fp b 0 st;
      scan_batches strict path ls schema fp object_rows batches st
  end.

Definition scan_object (strict : bool) (path : bytes) (node_schema : option bytes) (ls : list CapsuleLeaf) (b : bytes) (st : Scan) : cres Scan :=
  '(schema, fp) ← open_table path b;
  _ ← check_object path fp node_schema ls (sc_index st);
  match parquet_batches b with
  | None => Err (TableOpen path)
  | Some batches =>
      '(rows, st) ← scan_batches strict path ls schema fp 0 batches st;
      if negb (is_nil ls) && (rows =? 0) then Err (NoRowsForLeaf path) else Ok st
  end.

Definition scan_start (ls : list CapsuleLeaf) : Scan :=
  {| sc_index := 0; sc_rows := 0; sc_schemas := []; sc_lengths := repeat 0 (length ls); sc_records := [] |}.

(** Every leaf is complete and has a schema. *)
Definition scan_end (path : bytes) (ls : list CapsuleLeaf) (st : Scan) : cres unit :=
  if negb (sc_index st =? length ls)%nat || negb (sc_rows st =? 0) || negb (length (sc_schemas st) =? length ls)%nat
  then Err (EndedEarly path (Z.of_nat (sc_index st))) else Ok tt.

Definition new_table_leaf_hasher (path : bytes) (index : nat) (schemas : list ArrowSchema) (ls : list CapsuleLeaf) (lengths : list Z) : cres TableHasher :=
  match schemas !! index, ls !! index, lengths !! index with
  | Some schema, Some l, Some len =>
      map_err (fun _ => LeafHashing path (Z.of_nat index))
        (table_hasher_new schema (cl_count l) len (cl_min l) (cl_max l) (cl_attributes l))
  | _, _, _ => Panic
  end.

(** [finish] and the comparison with the leaf's hash. *)
Definition finish_table_leaf (path : bytes) (index : nat) (ls : list CapsuleLeaf) (h : TableHasher) : cres unit :=
  computed ← map_err (fun _ => LeafHashing path (Z.of_nat index)) (table_hasher_finish h);
  match ls !! index with
  | None => Panic
  | Some l => if bool_decide (computed = cl_hash l) then Ok tt else Err (LeafMismatch path (Z.of_nat index))
  end.

Definition write_table (path : bytes) (index : nat) (h : TableHasher) (b : RecordBatch) : cres TableHasher :=
  map_err (fun _ => LeafHashing path (Z.of_nat index)) (table_hasher_write h b).

(** * In memory *)

Fixpoint scan_objects (read : Reads) (path : bytes) (node_schema : option bytes) (ls : list CapsuleLeaf) (objects : list CapsuleObject) (st : Scan)
  : cres Scan :=
  match objects with
  | [] => Ok st
  | o :: objects =>
      b ← read (co_hash o);
      _ ← verify_payload o b;
      st ← scan_object false path node_schema ls b st;
      scan_objects read path node_schema ls objects st
  end.

(** [while current < index]: complete the leaves before [index]. *)
Fixpoint advance_hasher (steps : nat) (path : bytes) (schemas : list ArrowSchema) (lengths : list Z) (ls : list CapsuleLeaf) (current : nat)
    (h : option TableHasher) : cres (nat * option TableHasher) :=
  match steps with
  | O => Ok (current, h)
  | S steps =>
      match h with
      | None => Panic
      | Some h =>
          _ ← finish_table_leaf path current ls h;
          h ← new_table_leaf_hasher path (S current) schemas ls lengths;
          advance_hasher steps path schemas lengths ls (S current) (Some h)
      end
  end.

Fixpoint hash_records (path : bytes) (schemas : list ArrowSchema) (lengths : list Z) (ls : list CapsuleLeaf) (records : list (nat * RecordBatch))
    (current : nat) (h : option TableHasher) : cres (nat * option TableHasher) :=
  match records with
  | [] => Ok (current, h)
  | (index, batch) :: records =>
      '(current, h) ← advance_hasher (index - current) path schemas lengths ls current h;
      match h with
      | None => Panic
      | Some h => h ← write_table path current h batch; hash_records path schemas lengths ls records current (Some h)
      end
  end.

(** [while current < leaves.len()], [steps] leaves from [current] on. *)
Fixpoint finish_records (steps : nat) (path : bytes) (schemas : list ArrowSchema) (lengths : list Z) (ls : list CapsuleLeaf) (current : nat)
    (h : option TableHasher) : cres unit :=
  match steps with
  | O => Ok tt
  | S steps =>
      match h with
      | None => Panic
      | Some h =>
          _ ← finish_table_leaf path current ls h;
          h ← (if (S current <? length ls)%nat then h ← new_table_leaf_hasher path (S current) schemas ls lengths; mret (Some h) else mret None);
          finish_records steps path schemas lengths ls (S current) h
      end
  end.

Definition verify_table_stream_v3 (read : Reads) (path : bytes) (node_schema : option bytes) (objects : list CapsuleObject) (ls : list CapsuleLeaf)
  : cres unit :=
  st ← scan_objects read path node_schema ls objects (scan_start ls);
  _ ← scan_end path ls st;
  h ← (if is_nil ls then Ok None else h ← new_table_leaf_hasher path 0 (sc_schemas st) ls (sc_lengths st); mret (Some h));
  '(current, h) ← hash_records path (sc_schemas st) (sc_lengths st) ls (sc_records st) 0 h;
  finish_records (length ls - current) path (sc_schemas st) (sc_lengths st) ls current h.

(** * From a directory *)

Fixpoint scan_files (objects_dir : store) (path : bytes) (node_schema : option bytes) (ls : list CapsuleLeaf) (objects : list CapsuleObject) (st : Scan)
  : cres Scan :=
  match objects with
  | [] => Ok st
  | o :: objects =>
      match objects_dir !! co_hash o with
      | None => Err (PayloadMissing (co_hash o))
      | Some b => st ← scan_object true path node_schema ls b st; scan_files objects_dir path node_schema ls objects st
      end
  end.

Definition scan_table_stream_v3_directory (objects_dir : store) (path : bytes) (node_schema : option bytes) (objects : list CapsuleObject)
    (ls : list CapsuleLeaf) : cres (list ArrowSchema * list Z) :=
  st ← scan_files objects_dir path node_schema ls objects (scan_start ls);
  _ ← scan_end path ls st;
  mret (sc_schemas st, sc_lengths st).

(** The second pass: the leaf, the rows of it that are hashed, and its hasher. *)
Record Rehash := { rh_index : nat; rh_rows : Z; rh_hasher : option TableHasher }.

Fixpoint rehash_batch (fuel : nat) (path : bytes) (schemas : list ArrowSchema) (lengths : list Z) (ls : list CapsuleLeaf) (batch : RecordBatch)
    (offset : nat) (st : Rehash) : cres Rehash :=
  if negb (offset <? num_rows batch)%nat then Ok st else
  match fuel with
  | O => Panic
  | S fuel =>
      let i := rh_index st in
      match ls !! i with
      | None => Err (RowsAfterLeaves path)
      | Some l =>
          h ← match rh_hasher st with
              | Some h => Ok h
              | None => new_table_leaf_hasher path i schemas ls lengths
              end;
          if cl_count l <? rh_rows st then Err (RowUnderflow path (Z.of_nat i)) else
          let n := leaf_take (rh_rows st) l (num_rows batch - offset) in
          h ← write_table path i h (slice batch offset n);
          let rows := rh_rows st + Z.of_nat n in
          if rows =? cl_count l then
            _ ← finish_table_leaf path i ls h;
            rehash_batch fuel path schemas lengths ls batch (offset + n) {| rh_index := S i; rh_rows := 0; rh_hasher := None |}
          else rehash_batch fuel path schemas lengths ls batch (offset + n) {| rh_index := i; rh_rows := rows; rh_hasher := Some h |}
      end
  end.

Fixpoint rehash_batches (path : bytes) (schemas : list ArrowSchema) (lengths : list Z) (ls : list CapsuleLeaf) (batches : list (option RecordBatch))
    (st : Rehash) : cres Rehash :=
  match batches with
  | [] => Ok st
  | None :: _ => Err (TableOpen path)
  | Some b :: batches =>
      st ← rehash_batch (num_rows b + length ls) path schemas lengths ls b 0 st; rehash_batches path schemas lengths ls batches st
  end.

Fixpoint rehash_files (objects_dir : store) (path : bytes) (schemas : list ArrowSchema) (lengths : list Z) (ls : list CapsuleLeaf)
    (objects : list CapsuleObject) (st : Rehash) : cres Rehash :=
  match objects with
  | [] => Ok st
  | o :: objects =>
      match objects_dir !! co_hash o with
      | None => Err (PayloadMissing (co_hash o))
      | Some b =>
          match parquet_schema b with
          | None => Err (TableOpen path)
          | Some raw =>
              _ ← map_err (fun _ => TableOpen path) (canonicalize_schema raw);
              match parquet_batches b with
              | None => Err (TableOpen path)
              | Some batches =>
                  st ← rehash_batches path schemas lengths ls batches st;
                  rehash_files objects_dir path schemas lengths ls objects st
              end
          end
      end
  end.

Definition verify_table_stream_v3_directory (objects_dir : store) (path : bytes) (node_schema : option bytes) (objects : list CapsuleObject)
    (ls : list CapsuleLeaf) : cres unit :=
  '(schemas, lengths) ← scan_table_stream_v3_directory objects_dir path node_schema objects ls;
  if is_nil ls then Ok tt else
  st ← rehash_files objects_dir path schemas lengths ls objects {| rh_index := 0; rh_rows := 0; rh_hasher := None |};
  if negb (rh_index st =? length ls)%nat || negb (rh_rows st =? 0) then Err (EndedEarly path (Z.of_nat (rh_index st))) else Ok tt.
End Tables.

(** * Cutting rows into leaves *)

Definition sum_rows (g : list RecordBatch) : Z := foldr (fun b t => Z.of_nat (num_rows b) + t) 0 g.

(** The records of consecutive leaves from [i] on. *)
Fixpoint tag_groups (i : nat) (gs : list (list RecordBatch)) : list (nat * RecordBatch) :=
  match gs with
  | [] => []
  | g :: gs => map (pair i) g ++ tag_groups (S i) gs
  end.

(** The slices of one leaf: none empty, as many rows as the leaf declares. *)
Definition group_ok (l : CapsuleLeaf) (g : list RecordBatch) : Prop :=
  Forall (fun b => (0 < num_rows b)%nat) g /\ sum_rows g = cl_count l.

Lemma sum_rows_app g1 g2 : sum_rows (g1 ++ g2) = sum_rows g1 + sum_rows g2.
Proof. induction g1 as [|b g1 IH]; [done|]. cbn [app sum_rows foldr]. unfold sum_rows in *. lia. Qed.

Lemma sum_rows_nonneg g : 0 <= sum_rows g.
Proof. induction g as [|b g IH]; cbn [sum_rows foldr]; [lia|]. unfold sum_rows in IH. lia. Qed.

Lemma tag_groups_app i gs1 gs2 : tag_groups i (gs1 ++ gs2) = tag_groups i gs1 ++ tag_groups (i + length gs1) gs2.
Proof.
  revert i. induction gs1 as [|g gs1 IH]; intros i; cbn [app tag_groups length]; [by rewrite Nat.add_0_r|].
  rewrite IH, <- app_assoc. by replace (i + S (length gs1))%nat with (S i + length gs1)%nat by lia.
Qed.

Lemma batch_rows_slice b o n : (o + n <= num_rows b)%nat -> batch_rows (slice b o n) = firstn n (skipn o (batch_rows b)).
Proof.
  intros Hn. apply list_eq. intros i. unfold batch_rows. cbn [slice num_rows].
  destruct (decide (i < n)%nat) as [Hi|Hi].
  - rewrite lookup_take_lt, lookup_drop by done. rewrite !list_lookup_fmap, !lookup_seq_lt by lia. cbn. f_equal.
    unfold row_at. cbn [slice columns]. rewrite map_map. apply map_ext. intros a. unfold slice_array. cbn [a_values].
    by rewrite lookup_take_lt, lookup_drop by done.
  - rewrite lookup_take_ge by lia. apply lookup_ge_None_2. rewrite length_map, length_seq. lia.
Qed.

(** * The first pass *)

Section Scan.
#[local] Set Default Proof Using "Type*".
Context `{Blake3} `{ArrowCast} `{Parquet}.
Context (ls : list CapsuleLeaf) (Hcounts : counts_ok ls).
(** The schemas of the objects of the stream, with their fingerprints. *)
Context (opened : ArrowSchema -> bytes -> Prop).

(** The state of a scan: complete leaves, the slices of the leaf in progress, the
    rows read, and a schema for every leaf with rows. *)
Record scan_inv (rows : list (list (option Scalar))) (st : Scan) : Prop := {
  si_groups : exists gs part, sc_records st = tag_groups 0 gs ++ map (pair (sc_index st)) part
    /\ Forall2 group_ok (firstn (sc_index st) ls) gs /\ Forall (fun b => (0 < num_rows b)%nat) part /\ sum_rows part = sc_rows st
    /\ length gs = sc_index st;
  si_rows : all_rows (map snd (sc_records st)) = rows;
  si_index : (sc_index st <= length ls)%nat;
  si_open : match ls !! sc_index st with Some l => 0 <= sc_rows st < cl_count l | None => sc_rows st = 0 end;
  si_schemas : length (sc_schemas st) = if sc_rows st =? 0 then sc_index st else S (sc_index st);
  si_opened : forall k s l, sc_schemas st !! k = Some s -> ls !! k = Some l -> exists fp, cl_schema l = Some fp /\ opened s fp;
}.

Lemma count_at i l : ls !! i = Some l -> 0 < cl_count l <= u64_max.
Proof. unfold counts_ok in Hcounts. rewrite Forall_forall in Hcounts. intros Hl. by eapply Hcounts, list_elem_of_lookup_2. Qed.

Lemma all_rows_snoc bs b : all_rows (bs ++ [b]) = all_rows bs ++ batch_rows b.
Proof. unfold all_rows. rewrite map_app, concat_app. cbn. by rewrite app_nil_r. Qed.

Lemma note_schema_inv strict path schema fp rows st l schemas :
  scan_inv rows st -> ls !! sc_index st = Some l -> opened schema fp -> cl_schema l = Some fp ->
  note_schema strict path schema (sc_index st) (sc_schemas st) = Ok schemas ->
  length schemas = S (sc_index st)
  /\ forall k s l, schemas !! k = Some s -> ls !! k = Some l -> exists fp, cl_schema l = Some fp /\ opened s fp.
Proof.
  intros I Hl Ho Hs E. pose proof (si_schemas _ _ I) as Hlen. unfold note_schema in E.
  destruct (Nat.eqb_spec (length (sc_schemas st)) (sc_index st)) as [El|El].
  - apply Ok_inj in E as <-. split; [rewrite length_app; simpl; lia|]. intros k s l' Hk Hl'.
    apply lookup_app_Some in Hk as [Hk|[Hge Hk]]; [by eapply (si_opened _ _ I)|].
    destruct (k - length (sc_schemas st))%nat as [|m] eqn:Em; [|by destruct m]. injection Hk as <-.
    replace k with (sc_index st) in Hl' by lia. rewrite Hl in Hl'. injection Hl' as <-. by exists fp.
  - destruct (sc_rows st =? 0); [done|].
    assert (schemas = sc_schemas st) as ->; [|split; [done|apply (si_opened _ _ I)]].
    destruct strict; [|congruence]. destruct (sc_schemas st !! sc_index st); [|done]. case_bool_decide; [congruence|done].
Qed.

(** One turn of the loop keeps the invariant. *)
Lemma scan_step_inv rows st l schemas len batch offset :
  scan_inv rows st -> ls !! sc_index st = Some l -> (offset < num_rows batch)%nat ->
  length schemas = S (sc_index st) ->
  (forall k s l, schemas !! k = Some s -> ls !! k = Some l -> exists fp, cl_schema l = Some fp /\ opened s fp) ->
  let n := leaf_take (sc_rows st) l (num_rows batch - offset) in
  let complete := sc_rows st + Z.of_nat n =? cl_count l in
  (0 < n)%nat /\ (offset + n <= num_rows batch)%nat
  /\ scan_inv (rows ++ firstn n (skipn offset (batch_rows batch)))
       {| sc_index := if complete then S (sc_index st) else sc_index st; sc_rows := if complete then 0 else sc_rows st + Z.of_nat n;
          sc_schemas := schemas; sc_lengths := <[sc_index st := len]> (sc_lengths st);
          sc_records := sc_records st ++ [(sc_index st, slice batch offset n)] |}.
Proof.
  intros I Hl Ho Hlen Hop n complete. pose proof (si_open _ _ I) as Hrow. rewrite Hl in Hrow. pose proof (count_at _ _ Hl) as Hc.
  assert ((0 < n)%nat /\ (offset + n <= num_rows batch)%nat /\ sc_rows st + Z.of_nat n <= cl_count l) as (Hn & Hle & Hrle)
    by (subst n; unfold leaf_take; lia).
  split; [done|]. split; [done|]. destruct (si_groups _ _ I) as (gs & part & Er & Hg & Hp & Hsum & Hgl).
  assert (Forall (fun b => (0 < num_rows b)%nat) (part ++ [slice batch offset n])) as Hp' by (apply Forall_app; split; [done|by repeat constructor]).
  assert (sum_rows (part ++ [slice batch offset n]) = sc_rows st + Z.of_nat n) as Hsum' by (rewrite sum_rows_app, Hsum; cbn; lia).
  assert (sc_records st ++ [(sc_index st, slice batch offset n)]
    = tag_groups 0 gs ++ map (pair (sc_index st)) (part ++ [slice batch offset n])) as Er' by (rewrite Er, map_app, app_assoc; done).
  split; cbn [sc_index sc_rows sc_schemas sc_records].
  - subst complete. destruct (Z.eqb_spec (sc_rows st + Z.of_nat n) (cl_count l)) as [Ec|Ec].
    + exists (gs ++ [part ++ [slice batch offset n]]), []. rewrite Er', tag_groups_app. cbn [tag_groups map Nat.add].
      rewrite !app_nil_r, Hgl. split; [done|]. rewrite (take_S_r _ _ l) by done.
      split; [apply Forall2_app; [done|]; constructor; [|constructor]; split; [done|lia]|].
      split; [constructor|]. split; [done|]. rewrite length_app. simpl. lia.
    + exists gs, (part ++ [slice batch offset n]). rewrite Er'. done.
  - rewrite map_app. cbn [map snd]. rewrite all_rows_snoc, (si_rows _ _ I), batch_rows_slice by done. done.
  - pose proof (lookup_lt_Some _ _ _ Hl). destruct complete; lia.
  - subst complete. destruct (Z.eqb_spec (sc_rows st + Z.of_nat n) (cl_count l)) as [Ec|Ec]; [|rewrite Hl; lia].
    destruct (ls !! S (sc_index st)) as [l'|] eqn:El'; [|done]. apply count_at in El'. lia.
  - subst complete. destruct (Z.eqb_spec (sc_rows st + Z.of_nat n) (cl_count l)); cbn; [done|].
    destruct (Z.eqb_spec (sc_rows st + Z.of_nat n) 0); [lia|done].
  - exact Hop.
Qed.

Lemma require_schema_Ok path fp i l : require_schema path fp i l = Ok tt <-> cl_schema l = Some fp.
Proof.
  unfold require_schema. destruct (cl_schema l) as [e|]; [|done]. case_bool_decide; split; try congruence; done.
Qed.

(** The rows of a batch enter the state. *)
Lemma scan_batch_inv fuel strict path schema fp batch offset st st' rows :
  opened schema fp -> scan_inv rows st -> scan_batch fuel strict path ls schema fp batch offset st = Ok st' ->
  scan_inv (rows ++ skipn offset (batch_rows batch)) st'.
Proof.
  intros Ho. revert offset st rows. induction fuel as [|fuel IH]; intros offset st rows I E; cbn [scan_batch] in E;
    (destruct (Nat.ltb_spec offset (num_rows batch)) as [Hlt|Hge]; cbn [negb] in E;
      [|apply Ok_inj in E as <-; rewrite skipn_all2, app_nil_r by (rewrite batch_rows_length; lia); done]); [done|].
  destruct (ls !! sc_index st) as [l|] eqn:El; [|done]. apply bind_Ok in E as ([] & Hs%require_schema_Ok & E).
  apply bind_Ok in E as (schemas & Hn & E). destruct (Z.ltb_spec (cl_count l) (sc_rows st)); [done|].
  apply bind_Ok in E as (b & _ & E). destruct (sc_lengths st !! sc_index st) as [len|]; [|done]. destruct (_ <? _); [done|].
  destruct (note_schema_inv _ _ _ _ _ _ _ _ I El Ho Hs Hn) as [Hlen Hop].
  destruct (scan_step_inv rows st l schemas (len + Z.of_nat (length b)) batch offset I El Hlt Hlen Hop) as (Hn0 & Hle & I').
  apply (IH _ _ _ I') in E. rewrite <- app_assoc in E.
  assert (forall n, firstn n (skipn offset (batch_rows batch)) ++ skipn (offset + n) (batch_rows batch) = skipn offset (batch_rows batch)) as Hcat
    by (intros n; rewrite <- drop_drop; apply take_drop).
  by rewrite Hcat in E.
Qed.

(** With one schema per fingerprint the strict comparison never fails. *)
Lemma scan_batch_strict fuel path schema fp batch offset st rows :
  (forall s1 s2 fp, opened s1 fp -> opened s2 fp -> s1 = s2) -> opened schema fp -> scan_inv rows st ->
  scan_batch fuel true path ls schema fp batch offset st = scan_batch fuel false path ls schema fp batch offset st.
Proof.
  intros Hinj Ho. revert offset st rows. induction fuel as [|fuel IH]; intros offset st rows I; cbn [scan_batch];
    (destruct (Nat.ltb_spec offset (num_rows batch)) as [Hlt|Hge]; cbn [negb]; [|done]); [done|].
  destruct (ls !! sc_index st) as [l|] eqn:El; [|done]. destruct (require_schema path fp (sc_index st) l) as [[]|e|] eqn:Er; [|done|done].
  apply require_schema_Ok in Er. cbn [mbind outcome_bind].
  assert (note_schema true path schema (sc_index st) (sc_schemas st) = note_schema false path schema (sc_index st) (sc_schemas st)) as ->.
  { unfold note_schema. destruct (Nat.eqb_spec (length (sc_schemas st)) (sc_index st)) as [|Hne]; [done|].
    pose proof (si_schemas _ _ I) as Hlen. destruct (sc_rows st =? 0); [done|].
    destruct (lookup_lt_is_Some_2 (sc_schemas st) (sc_index st)) as [s Hs]; [lia|]. rewrite Hs.
    destruct (si_opened _ _ I _ _ _ Hs El) as (fp' & E' & Hos). rewrite Er in E'. injection E' as <-.
    by rewrite (bool_decide_true _ (Hinj _ _ _ Hos Ho)). }
  destruct (note_schema false path schema (sc_index st) (sc_schemas st)) as [schemas|e|] eqn:En; cbn [mbind outcome_bind]; [|done|done].
  destruct (_ <? _); [done|]. destruct (encode_canonical_batch_rows schema _) as [b|e|]; cbn [map_err mbind outcome_bind]; [|done|done].
  destruct (sc_lengths st !! sc_index st) as [len|]; [|done]. destruct (_ <? _); [done|].
  destruct (note_schema_inv _ _ _ _ _ _ _ _ I El Ho Er En) as [Hlen Hop].
  destruct (scan_step_inv rows st l schemas (len + Z.of_nat (length b)) batch offset I El Hlt Hlen Hop) as (_ & _ & I'). eapply IH, I'.
Qed.

(** The fuel of one batch is enough: more changes nothing. *)
Lemma scan_batch_fuel fuel k strict path schema fp batch offset st rows :
  opened schema fp -> scan_inv rows st -> (num_rows batch - offset <= fuel)%nat ->
  scan_batch (fuel + k) strict path ls schema fp batch offset st = scan_batch fuel strict path ls schema fp batch offset st.
Proof.
  intros Ho. revert offset st rows. induction fuel as [|fuel IH]; intros offset st rows I Hf.
  { destruct k; cbn [scan_batch Nat.add]; (destruct (Nat.ltb_spec offset (num_rows batch)); [lia|done]). }
  cbn [scan_batch Nat.add]. destruct (Nat.ltb_spec offset (num_rows batch)) as [Hlt|Hge]; cbn [negb]; [|done].
  destruct (ls !! sc_index st) as [l|] eqn:El; [|done]. destruct (require_schema path fp (sc_index st) l) as [[]|e|] eqn:Er; [|done|done].
  apply require_schema_Ok in Er. cbn [mbind outcome_bind].
  destruct (note_schema strict path schema (sc_index st) (sc_schemas st)) as [schemas|e|] eqn:En; cbn [mbind outcome_bind]; [|done|done].
  destruct (_ <? _); [done|]. destruct (encode_canonical_batch_rows schema _) as [b|e|]; cbn [map_err mbind outcome_bind]; [|done|done].
  destruct (sc_lengths st !! sc_index st) as [len|]; [|done]. destruct (_ <? _); [done|].
  destruct (note_schema_inv _ _ _ _ _ _ _ _ I El Ho Er En) as [Hlen Hop].
  destruct (scan_step_inv rows st l schemas (len + Z.of_nat (length b)) batch offset I El Hlt Hlen Hop) as (Hn & _ & I').
  eapply IH; [exact I'|]. lia.
Qed.
End Scan.

Definition object_rows `{Parquet} (b : bytes) : list (list (option Scalar)) :=
  match parquet_batches b with Some bs => all_rows (omap id bs) | None => [] end.

Section ScanObjects.
#[local] Set Default Proof Using "Type*".
Context `{Blake3} `{ArrowCast} `{Parquet}.
Context (ls : list CapsuleLeaf) (Hcounts : counts_ok ls) (path : bytes) (opened : ArrowSchema -> bytes -> Prop).

Lemma scan_batches_inv strict schema fp n batches st m st' rows :
  opened schema fp -> scan_inv ls opened rows st -> scan_batches strict path ls schema fp n batches st = Ok (m, st') ->
  scan_inv ls opened (rows ++ all_rows (omap id batches)) st'.
Proof.
  intros Ho. revert n st rows. induction batches as [|[b|] batches IH]; intros n st rows I E; cbn [scan_batches] in E; [|destruct (_ <? _)|]; try done.
  { injection E as <- <-. cbn. by rewrite app_nil_r. }
  apply bind_Ok in E as (st1 & E1 & E). apply (scan_batch_inv ls Hcounts opened _ _ _ _ _ _ _ _ _ rows Ho I) in E1. apply (IH _ _ _ E1) in E.
  cbn [omap list_omap id]. unfold all_rows in *. cbn [map concat]. by rewrite drop_0, <- app_assoc in E.
Qed.

Lemma scan_batches_strict schema fp n batches st rows :
  (forall s1 s2 fp, opened s1 fp -> opened s2 fp -> s1 = s2) -> opened schema fp -> scan_inv ls opened rows st ->
  scan_batches true path ls schema fp n batches st = scan_batches false path ls schema fp n batches st.
Proof.
  intros Hinj Ho. revert n st rows. induction batches as [|[b|] batches IH]; intros n st rows I; cbn [scan_batches]; [done| |done].
  destruct (_ <? _); [done|]. rewrite (scan_batch_strict ls Hcounts opened _ _ _ _ _ _ _ rows Hinj Ho I).
  destruct (scan_batch _ false _ _ _ _ _ _ st) as [st1|e|] eqn:E1; cbn [mbind outcome_bind]; [|done|done].
  apply (scan_batch_inv ls Hcounts opened _ _ _ _ _ _ _ _ _ rows Ho I) in E1. by eapply IH.
Qed.

(** Every object of the stream is among the opened ones. *)
Definition opens (b : bytes) : Prop := forall schema fp, open_table path b = Ok (schema, fp) -> opened schema fp.

Lemma scan_object_inv strict ns b st st' rows :
  opens b -> scan_inv ls opened rows st -> scan_object strict path ns ls b st = Ok st' -> scan_inv ls opened (rows ++ object_rows b) st'.
Proof.
  intros Ho I E. unfold scan_object, object_rows in *. apply bind_Ok in E as ([schema fp] & Hop & E). apply bind_Ok in E as ([] & _ & E).
  destruct (parquet_batches b) as [batches|]; [|done]. apply bind_Ok in E as ([m st1] & E1 & E).
  apply (scan_batches_inv _ _ _ _ _ _ _ _ rows (Ho _ _ Hop) I) in E1. destruct (_ && _); [done|]. by apply Ok_inj in E as <-.
Qed.

Lemma scan_object_strict ns b st rows :
  (forall s1 s2 fp, opened s1 fp -> opened s2 fp -> s1 = s2) -> opens b -> scan_inv ls opened rows st ->
  scan_object true path ns ls b st = scan_object false path ns ls b st.
Proof.
  intros Hinj Ho I. unfold scan_object. destruct (open_table path b) as [[schema fp]|e|] eqn:Hop; cbn [mbind outcome_bind]; [|done|done].
  destruct (check_object _ _ _ _ _) as [[]|e|]; cbn [mbind outcome_bind]; [|done|done]. destruct (parquet_batches b) as [batches|]; [|done].
  by rewrite (scan_batches_strict _ _ _ _ _ rows Hinj (Ho _ _ Hop) I).
Qed.

Context (dir : store).
Definition stream_rows (objects : list CapsuleObject) : list (list (option Scalar)) := concat (map object_rows (contents dir objects)).

Lemma scan_files_inv ns objects st st' rows :
  Forall opens (contents dir objects) -> scan_inv ls opened rows st ->
  scan_files dir path ns ls objects st = Ok st' -> scan_inv ls opened (rows ++ stream_rows objects) st'.
Proof.
  unfold stream_rows. revert st rows. induction objects as [|o objects IH]; intros st rows Ho I E; cbn [scan_files contents map concat] in *.
  { apply Ok_inj in E as <-. by rewrite app_nil_r. }
  destruct (dir !! co_hash o) as [b|]; [|done]. cbn [default from_option id] in *. apply Forall_cons in Ho as [Ho Hos].
  apply bind_Ok in E as (st1 & E1 & E). apply (scan_object_inv _ _ _ _ _ rows Ho I) in E1. apply (IH _ _ Hos E1) in E. by rewrite app_assoc.
Qed.

(** Both first passes end in the same state. *)
Lemma scan_files_memory ns objects st rows :
  (forall s1 s2 fp, opened s1 fp -> opened s2 fp -> s1 = s2) -> Forall opens (contents dir objects) -> scan_inv ls opened rows st ->
  Forall (fun o => exists b, dir !! co_hash o = Some b /\ verify_payload o b = Ok tt) objects ->
  scan_objects (read_from dir) path ns ls objects st = scan_files dir path ns ls objects st.
Proof.
  intros Hinj. revert st rows. induction objects as [|o objects IH]; intros st rows Ho I Hv; cbn [scan_files scan_objects]; [done|].
  apply Forall_cons in Hv as [(b & Hb & Hvb) Hv]. cbn [contents map] in Ho. rewrite Hb in Ho. apply Forall_cons in Ho as [Ho Hos].
  assert (read_from dir (co_hash o) = Ok b) as -> by (unfold read_from; by rewrite Hb). cbn [mbind outcome_bind]. rewrite Hvb, Hb. cbn [mbind outcome_bind].
  rewrite (scan_object_strict ns b st rows Hinj Ho I). destruct (scan_object false path ns ls b st) as [st1|e|] eqn:E1; cbn [mbind outcome_bind]; [|done|done].
  apply (scan_object_inv _ _ _ _ _ rows Ho I) in E1. by eapply IH.
Qed.
End ScanObjects.

(** * The second pass *)

Section Rehash.
#[local] Set Default Proof Using "Type*".
Context `{Blake3} `{ArrowCast} `{Parquet}.
Context (ls : list CapsuleLeaf) (path : bytes) (schemas : list ArrowSchema) (lengths : list Z).

(** The second pass of the directory verifier over given slices. *)
Fixpoint rehash_records (records : list (nat * RecordBatch)) (st : Rehash) : cres Rehash :=
  match records with
  | [] => Ok st
  | (i, piece) :: records =>
      match ls !! i with
      | None => Panic
      | Some l =>
          h ← match rh_hasher st with Some h => Ok h | None => new_table_leaf_hasher path i schemas ls lengths end;
          h ← write_table path i h piece;
          let rows := rh_rows st + Z.of_nat (num_rows piece) in
          if rows =? cl_count l then
            _ ← finish_table_leaf path i ls h; rehash_records records {| rh_index := S i; rh_rows := 0; rh_hasher := None |}
          else rehash_records records {| rh_index := i; rh_rows := rows; rh_hasher := Some h |}
      end
  end.

Lemma rehash_records_app r1 r2 st : rehash_records (r1 ++ r2) st = st ← rehash_records r1 st; rehash_records r2 st.
Proof.
  revert st. induction r1 as [|[i p] r1 IH]; intros st; [done|]. cbn [app rehash_records]. destruct (ls !! i) as [l|]; [|done].
  destruct (match rh_hasher st with Some h => Ok h | None => new_table_leaf_hasher path i schemas ls lengths end) as [h|e|]; cbn [mbind outcome_bind]; [|done|done].
  destruct (write_table path i h p) as [h'|e|]; cbn [mbind outcome_bind]; [|done|done].
  destruct (_ =? _); [|apply IH]. destruct (finish_table_leaf path i ls h') as [[]|e|]; cbn [mbind outcome_bind]; [apply IH|done|done].
Qed.

(** A batch that the first pass accepts is hashed slice by slice, as recorded. *)
Lemma rehash_batch_records fuel strict schema fp batch offset st st' h :
  scan_batch fuel strict path ls schema fp batch offset st = Ok st' ->
  exists rs, sc_records st' = sc_records st ++ rs
    /\ rehash_batch fuel path schemas lengths ls batch offset {| rh_index := sc_index st; rh_rows := sc_rows st; rh_hasher := h |}
       = rehash_records rs {| rh_index := sc_index st; rh_rows := sc_rows st; rh_hasher := h |}
    /\ forall r, rehash_records rs {| rh_index := sc_index st; rh_rows := sc_rows st; rh_hasher := h |} = Ok r ->
         rh_index r = sc_index st' /\ rh_rows r = sc_rows st'.
Proof.
  revert offset st h. induction fuel as [|fuel IH]; intros offset st h E; cbn [scan_batch rehash_batch rh_index rh_rows rh_hasher] in *;
    (destruct (Nat.ltb_spec offset (num_rows batch)) as [Hlt|Hge]; cbn [negb] in *;
      [|apply Ok_inj in E as <-; exists []; rewrite app_nil_r; split; [done|]; split; [done|]; by intros r <-%Ok_inj]); [done|].
  destruct (ls !! sc_index st) as [l|] eqn:El; [|done]. apply bind_Ok in E as ([] & _ & E). apply bind_Ok in E as (sch & _ & E).
  destruct (_ <? sc_rows st); [done|]. apply bind_Ok in E as (b & _ & E). destruct (sc_lengths st !! sc_index st) as [len|]; [|done].
  destruct (_ <? _); [done|]. set (n := leaf_take (sc_rows st) l (num_rows batch - offset)) in *.
  set (piece := slice batch offset n) in *. change (Z.of_nat n) with (Z.of_nat (num_rows piece)) in E.
  destruct (sc_rows st + Z.of_nat (num_rows piece) =? cl_count l) eqn:Ec.
  - destruct (IH _ _ None E) as (rs & Hrs & Hre & Hidx). exists ((sc_index st, piece) :: rs). cbn [sc_records sc_index sc_rows] in *.
    split; [by rewrite Hrs, <- app_assoc|]. cbn [rehash_records rh_index rh_rows rh_hasher]. rewrite El. cbv zeta.
    change (Z.of_nat n) with (Z.of_nat (num_rows piece)). rewrite Ec. split.
    + do 2 (match goal with |- context [?m ≫= _] => destruct m as [?|?|] end; cbn [mbind outcome_bind]; [|done|done]).
      match goal with |- context [?m ≫= _] => destruct m as [[]|?|] end; cbn [mbind outcome_bind]; [exact Hre|done|done].
    + intros r Hr. apply bind_Ok in Hr as (h1 & _ & Hr). apply bind_Ok in Hr as (h2 & _ & Hr). apply bind_Ok in Hr as ([] & _ & Hr). by apply Hidx.
  - assert (exists rs, sc_records st' = sc_records st ++ (sc_index st, piece) :: rs /\ forall h',
      rehash_batch fuel path schemas lengths ls batch (offset + n) {| rh_index := sc_index st; rh_rows := sc_rows st + Z.of_nat (num_rows piece); rh_hasher := Some h' |}
       = rehash_records rs {| rh_index := sc_index st; rh_rows := sc_rows st + Z.of_nat (num_rows piece); rh_hasher := Some h' |}
      /\ forall r, rehash_records rs {| rh_index := sc_index st; rh_rows := sc_rows st + Z.of_nat (num_rows piece); rh_hasher := Some h' |} = Ok r ->
         rh_index r = sc_index st' /\ rh_rows r = sc_rows st') as (rs & Hrs & Hre).
    { pose proof (IH _ _ None E) as (rs & Hrs & _). exists rs. cbn [sc_records] in Hrs. split; [by rewrite Hrs, <- app_assoc|].
      intros h'. destruct (IH _ _ (Some h') E) as (rs' & Hrs' & Hre'). cbn [sc_records] in Hrs'. rewrite Hrs in Hrs'. by apply app_inv_head in Hrs' as <-. }
    exists ((sc_index st, piece) :: rs). split; [done|]. cbn [rehash_records rh_index rh_rows rh_hasher]. rewrite El. cbv zeta.
    change (Z.of_nat n) with (Z.of_nat (num_rows piece)). rewrite Ec. split.
    + do 2 (match goal with |- context [?m ≫= _] => destruct m as [?|?|] end; cbn [mbind outcome_bind]; [|done|done]). apply Hre.
    + intros r Hr. apply bind_Ok in Hr as (h1 & _ & Hr). apply bind_Ok in Hr as (h2 & _ & Hr). by eapply Hre.
Qed.

(** The second pass stands where the first one stood. *)
Definition at_scan (st : Scan) (r : Rehash) : Prop := rh_index r = sc_index st /\ rh_rows r = sc_rows st.

(** [pass] hashes the slices [rs] and goes from the position of [st] to that of [st']. *)
Definition passes (pass : Rehash -> cres Rehash) (rs : list (nat * RecordBatch)) (st st' : Scan) : Prop :=
  forall r, at_scan st r -> pass r = rehash_records rs r /\ forall r', rehash_records rs r = Ok r' -> at_scan st' r'.

Lemma passes_nil st : passes Ok [] st st.
Proof. intros r Hr. split; [done|]. by intros r' <-%Ok_inj. Qed.

Lemma passes_app p1 p2 r1 r2 st st1 st2 :
  passes p1 r1 st st1 -> passes p2 r2 st1 st2 -> passes (fun r => r ← p1 r; p2 r) (r1 ++ r2) st st2.
Proof.
  intros H1' H2' r Hr. destruct (H1' r Hr) as [E1 A1]. rewrite E1, rehash_records_app.
  destruct (rehash_records r1 r) as [r'|e|] eqn:E; cbn [mbind outcome_bind]; [|done|done]. apply H2'. by apply A1.
Qed.

Lemma rehash_batch_passes fuel strict schema fp batch offset st st' :
  scan_batch fuel strict path ls schema fp batch offset st = Ok st' ->
  exists rs, sc_records st' = sc_records st ++ rs /\ passes (rehash_batch fuel path schemas lengths ls batch offset) rs st st'.
Proof.
  intros E. destruct (rehash_batch_records _ _ _ _ _ _ _ _ None E) as (rs & Hrs & _). exists rs. split; [done|].
  intros [i n h] [Ei En]. cbn in Ei, En. subst i n. destruct (rehash_batch_records _ _ _ _ _ _ _ _ h E) as (rs' & Hrs' & Hre & Hat).
  rewrite Hrs in Hrs'. by apply app_inv_head in Hrs' as <-.
Qed.

Lemma rehash_batches_passes strict schema fp n batches st m st' :
  scan_batches strict path ls schema fp n batches st = Ok (m, st') ->
  exists rs, sc_records st' = sc_records st ++ rs /\ passes (rehash_batches path schemas lengths ls batches) rs st st'.
Proof.
  revert n st. induction batches as [|[b|] batches IH]; intros n st E; cbn [scan_batches] in E; [|destruct (_ <? _)|]; try done.
  { injection E as <- <-. exists []. rewrite app_nil_r. split; [done|apply passes_nil]. }
  apply bind_Ok in E as (st1 & E1 & E). apply rehash_batch_passes in E1 as (r1 & Hr1 & P1). apply IH in E as (r2 & Hr2 & P2).
  exists (r1 ++ r2). split; [by rewrite Hr2, Hr1, app_assoc|]. exact (passes_app _ _ _ _ _ _ _ P1 P2).
Qed.

Lemma rehash_files_passes dir ns objects st st' :
  scan_files dir path ns ls objects st = Ok st' ->
  exists rs, sc_records st' = sc_records st ++ rs /\ passes (rehash_files dir path schemas lengths ls objects) rs st st'.
Proof.
  revert st. induction objects as [|o objects IH]; intros st E; cbn [scan_files] in E.
  { apply Ok_inj in E as <-. exists []. rewrite app_nil_r. split; [done|apply passes_nil]. }
  destruct (dir !! co_hash o) as [b|] eqn:Eb; [|done]. apply bind_Ok in E as (st1 & E1 & E). apply IH in E as (r2 & Hr2 & P2).
  unfold scan_object, open_table in E1. apply bind_Ok in E1 as ([schema fp] & Hop & E1). apply bind_Ok in E1 as ([] & _ & E1).
  destruct (parquet_schema b) as [raw|] eqn:Es; [|done]. apply bind_Ok in Hop as (c & Hc & _).
  destruct (parquet_batches b) as [batches|] eqn:Ebs; [|done]. apply bind_Ok in E1 as ([m st2] & E1 & E2). destruct (_ && _); [done|].
  apply Ok_inj in E2 as ->. apply rehash_batches_passes in E1 as (r1 & Hr1 & P1).
  exists (r1 ++ r2). split; [by rewrite Hr2, Hr1, app_assoc|]. intros r Hr. cbn [rehash_files]. rewrite Eb, Es, Hc, Ebs. cbn [mbind outcome_bind].
  exact (passes_app _ _ _ _ _ _ _ P1 P2 r Hr).
Qed.

(** * Leaf by leaf *)

Fixpoint write_group (i : nat) (g : list RecordBatch) (h : TableHasher) : cres TableHasher :=
  match g with
  | [] => Ok h
  | b :: g => h ← write_table path i h b; write_group i g h
  end.

(** The reference: each leaf in turn is hashed from its slices and compared. *)
Fixpoint check_groups (i : nat) (gs : list (list RecordBatch)) : cres unit :=
  match gs with
  | [] => Ok tt
  | g :: gs =>
      h ← new_table_leaf_hasher path i schemas ls lengths;
      h ← write_group i g h;
      _ ← finish_table_leaf path i ls h;
      check_groups (S i) gs
  end.

(** The rest of a group, once its hasher exists. *)
Lemma rehash_group i l g records h n :
  ls !! i = Some l -> Forall (fun b => (0 < num_rows b)%nat) g -> g <> [] -> 0 <= n -> n + sum_rows g = cl_count l ->
  rehash_records (map (pair i) g ++ records) {| rh_index := i; rh_rows := n; rh_hasher := Some h |}
  = (h ← write_group i g h; _ ← finish_table_leaf path i ls h; rehash_records records {| rh_index := S i; rh_rows := 0; rh_hasher := None |}).
Proof.
  intros Hl Hp Hne. revert h n. induction Hp as [|b g Hb Hp IH]; intros h n Hn Hs; [done|].
  cbn [map app rehash_records rh_hasher rh_rows write_group]. rewrite Hl. cbn [mbind outcome_bind].
  destruct (write_table path i h b) as [h'|e|]; cbn [mbind outcome_bind]; [|done|done].
  unfold sum_rows in Hs. cbn [foldr] in Hs. fold (sum_rows g) in Hs. pose proof (sum_rows_nonneg g) as Hg. destruct g as [|b' g].
  - cbn in Hs. rewrite Z.add_0_r in Hs. rewrite Hs, Z.eqb_refl. done.
  - assert (0 < sum_rows (b' :: g)). { apply Forall_cons in Hp as [? _]. unfold sum_rows. cbn [foldr]. fold (sum_rows g). pose proof (sum_rows_nonneg g). lia. }
    destruct (Z.eqb_spec (n + Z.of_nat (num_rows b)) (cl_count l)); [lia|]. apply IH; [done|lia|lia].
Qed.

Lemma group_nonempty l g : 0 < cl_count l -> group_ok l g -> g <> [].
Proof. intros Hc [_ Hs] ->. cbn in Hs. lia. Qed.

(** The directory verifier is the reference on the recorded slices. *)
Lemma rehash_groups i gs :
  counts_ok ls -> Forall2 group_ok (skipn i ls) gs ->
  rehash_records (tag_groups i gs) {| rh_index := i; rh_rows := 0; rh_hasher := None |}
  = (_ ← check_groups i gs; Ok {| rh_index := i + length gs; rh_rows := 0; rh_hasher := None |}).
Proof.
  intros Hc. revert i. induction gs as [|g gs IH]; intros i Hg; cbn [tag_groups check_groups length].
  { cbn. by rewrite Nat.add_0_r. }
  inversion Hg as [|l ? rest ? Hgl Hgs Erest]; subst. symmetry in Erest.
  assert (ls !! i = Some l) as Hl by (rewrite <- (Nat.add_0_r i), <- lookup_drop, Erest; done).
  assert (skipn (S i) ls = rest) as Er by (rewrite <- Nat.add_1_r, <- drop_drop, Erest; done).
  assert (0 < cl_count l) as Hcl by (unfold counts_ok in Hc; rewrite Forall_forall in Hc; apply Hc; by eapply list_elem_of_lookup_2).
  pose proof (group_nonempty l g Hcl Hgl) as Hne. destruct Hgl as [Hp Hs].
  destruct (new_table_leaf_hasher path i schemas ls lengths) as [h|e|] eqn:En; cbn [mbind outcome_bind].
  2,3: destruct g as [|b g]; [done|]; cbn [map app rehash_records rh_hasher]; rewrite Hl, En; done.
  assert (rehash_records (map (pair i) g ++ tag_groups (S i) gs) {| rh_index := i; rh_rows := 0; rh_hasher := None |}
    = rehash_records (map (pair i) g ++ tag_groups (S i) gs) {| rh_index := i; rh_rows := 0; rh_hasher := Some h |}) as ->.
  { destruct g as [|b g]; [done|]. cbn [map app rehash_records rh_hasher rh_rows]. rewrite Hl, En. done. }
  rewrite (rehash_group i l) by (done || lia). destruct (write_group i g h) as [h'|e|]; cbn [mbind outcome_bind]; [|done|done].
  destruct (finish_table_leaf path i ls h') as [[]|e|]; cbn [mbind outcome_bind]; [|done|done].
  rewrite IH by (by rewrite Er). by replace (S i + length gs)%nat with (i + S (length gs))%nat by lia.
Qed.

(** ** The verifier in memory *)

Lemma hash_records_group i g records h :
  hash_records path schemas lengths ls (map (pair i) g ++ records) i (Some h)
  = (h ← write_group i g h; hash_records path schemas lengths ls records i (Some h)).
Proof.
  revert h. induction g as [|b g IH]; intros h; [done|]. cbn [map app hash_records write_group]. rewrite Nat.sub_diag. cbn [advance_hasher mbind outcome_bind].
  destruct (write_table path i h b) as [h'|e|]; cbn [mbind outcome_bind]; [apply IH|done|done].
Qed.

Lemma memory_rest i gs h :
  Forall (fun g => g <> []) gs -> length ls = (S i + length gs)%nat ->
  ('(c, h) ← hash_records path schemas lengths ls (tag_groups (S i) gs) i (Some h); finish_records (length ls - c) path schemas lengths ls c h)
  = (_ ← finish_table_leaf path i ls h; check_groups (S i) gs).
Proof.
  revert i h. induction gs as [|g gs IH]; intros i h Hne Hlen; cbn [tag_groups check_groups].
  - cbn [hash_records mbind outcome_bind]. simpl length in Hlen. replace (length ls - i)%nat with 1%nat by lia. cbn [finish_records].
    destruct (finish_table_leaf path i ls h) as [[]|e|]; cbn [mbind outcome_bind]; [|done|done].
    destruct (Nat.ltb_spec (S i) (length ls)); [lia|done].
  - apply Forall_cons in Hne as [Hg Hne]. destruct g as [|b g]; [done|]. cbn [map app hash_records length] in *.
    replace (S i - i)%nat with 1%nat by lia. cbn [advance_hasher].
    destruct (finish_table_leaf path i ls h) as [[]|e|]; cbn [mbind outcome_bind]; [|done|done].
    destruct (new_table_leaf_hasher path (S i) schemas ls lengths) as [h1|e|]; cbn [mbind outcome_bind]; [|done|done]. cbn [write_group].
    destruct (write_table path (S i) h1 b) as [h2|e|]; cbn [mbind outcome_bind]; [|done|done].
    rewrite hash_records_group. destruct (write_group (S i) g h2) as [h3|e|]; cbn [mbind outcome_bind]; [|done|done].
    apply IH; [done|lia].
Qed.

(** The verifier in memory is the reference too. *)
Lemma memory_groups gs :
  Forall (fun g => g <> []) gs -> length ls = length gs -> gs <> [] ->
  (h ← (h ← new_table_leaf_hasher path 0 schemas ls lengths; mret (Some h));
   '(c, h) ← hash_records path schemas lengths ls (tag_groups 0 gs) 0 h;
   finish_records (length ls - c) path schemas lengths ls c h) = check_groups 0 gs.
Proof.
  intros Hne Hlen Hgs. destruct gs as [|g gs]; [done|]. apply Forall_cons in Hne as [Hg Hne]. cbn [check_groups tag_groups].
  destruct (new_table_leaf_hasher path 0 schemas ls lengths) as [h|e|]; cbn [mbind outcome_bind]; [|done|done].
  cbn [mret outcome_ret mbind outcome_bind]. rewrite hash_records_group. destruct (write_group 0 g h) as [h'|e|]; cbn [mbind outcome_bind]; [|done|done].
  by apply (memory_rest 0).
Qed.
End Rehash.

(** * Both verifiers *)

(** Parquet gives schemas with the field widths of Arrow. *)
Class ParquetLaws `{Parquet} := {
  parquet_wf : forall b s, parquet_schema b = Some s -> wf_schema s = true;
}.

(** The canonical schemas of two objects have one fingerprint but two encodings. *)
Definition schema_collision `{Blake3} `{Parquet} (bs : list bytes) : Prop :=
  exists b1 b2 r1 r2 s1 s2 x y, b1 ∈ bs /\ b2 ∈ bs /\ parquet_schema b1 = Some r1 /\ parquet_schema b2 = Some r2
    /\ canonicalize_schema r1 = Ok s1 /\ canonicalize_schema r2 = Ok s2
    /\ encode_canonical_schema s1 = Ok x /\ encode_canonical_schema s2 = Ok y /\ x <> y /\ blake3 x = blake3 y.

Lemma canonicalize_canonical s c : wf_schema s = true -> canonicalize_schema s = Ok c -> wf_schema c = true /\ canonicalize_schema c = Ok c.
Proof.
  unfold canonicalize_schema, wf_schema. intros Hw E. apply bind_Ok in E as (fs & Hf & <-%Ok_inj). cbn [fields schema_metadata].
  assert (forallb wf_field fs = true /\ omap_list canonicalize_field fs = Ok fs) as [H1 H2]; [|by rewrite H2].
  apply omap_list_Ok in Hf. induction Hf as [|f c l fs Hc _ IH]; [done|]. cbn [forallb] in Hw. apply andb_true_iff in Hw as [Hw1 Hw2].
  destruct (IH Hw2) as [H1 H2]. unfold canonicalize_field in Hc. apply bind_Ok in Hc as (r & Hr & <-%Ok_inj).
  destruct (canonical_not_dictionary _ _ Hr) as [_ Hrr]. cbn [forallb omap_list]. unfold wf_field in *. cbn [field_type]. rewrite Hr in Hw1. rewrite Hrr.
  cbn [unwrap_or] in *. rewrite Hw1, H1. split; [done|].
  assert (canonicalize_field {| field_name := field_name f; nullable := nullable f; field_type := r; field_metadata := field_metadata f |}
    = Ok {| field_name := field_name f; nullable := nullable f; field_type := r; field_metadata := field_metadata f |}) as ->
    by (unfold canonicalize_field; cbn [field_type]; by erewrite bind_eq by exact Hrr).
  cbn [mbind outcome_bind]. by rewrite H2.
Qed.

(** An incremental hash that is reached is the hash of the whole leaf. *)
Lemma incremental_sound `{Blake3} `{ArrowCast} s count len mn mx attrs bs h :
  (hs ← table_hasher_new s count len mn mx attrs; hs ← write_batches hs bs; table_hasher_finish hs) = Ok h ->
  table_leaf_hash_canonical s bs mn mx attrs = Ok h.
Proof.
  intros E. apply bind_Ok in E as (h0 & E0 & E). apply bind_Ok in E as (h1 & E1 & E). unfold table_hasher_new in E0.
  destruct (Z.eqb_spec count 0) as [|Hc]; [done|]. apply bind_Ok in E0 as (fp & Hfp & E0). destruct (Z.ltb_spec u64_max (Z.of_nat (length ROWS_MAGIC + 8) + len)); [done|].
  apply Ok_inj in E0.
  assert (forall hs hs', 0 <= th_rows hs -> write_batches hs bs = Ok hs' -> th_schema hs = s ->
    exists es, omap_list (encode_canonical_batch_rows_at s) bs = Ok es /\ row_total (th_rows hs) bs = Ok (th_rows hs')
      /\ th_input hs' = th_input hs ++ concat es /\ th_bytes hs' = th_bytes hs + Z.of_nat (length (concat es))
      /\ th_count hs' = th_count hs /\ th_len hs' = th_len hs /\ th_min hs' = th_min hs /\ th_max hs' = th_max hs /\ th_attributes hs' = th_attributes hs) as Hw.
  { clear. induction bs as [|b bs IH]; intros hs hs' Hr0 E Es; cbn [write_batches omap_list row_total] in *.
    { apply Ok_inj in E as <-. exists []. cbn. rewrite app_nil_r, Z.add_0_r. done. }
    apply bind_Ok in E as (h1 & E1 & E). unfold table_hasher_write in E1. apply bind_Ok in E1 as (r & Hr & E1). rewrite Es in Hr.
    unfold encode_canonical_batch_rows in Hr. rewrite Hr. cbn [mbind outcome_bind]. destruct (_ <? th_rows hs + _); [done|]. destruct (_ <? _); [done|].
    destruct (_ || _); [done|]. apply Ok_inj in E1 as <-. apply IH in E as (es & -> & Ht & Hi & Hb & Hrest); cbn [th_rows th_schema] in *; [|lia|done].
    eexists. split; [reflexivity|]. split; [done|]. cbn [th_input th_bytes th_count th_len th_min th_max th_attributes concat] in *.
    rewrite Hi, Hb, length_app, <- app_assoc. split; [done|]. split; [lia|done]. }
  rewrite <- E0 in E1. apply Hw in E1 as (es & Hes & Ht & Hi & Hb & Hcn & Hl & Hmn & Hmx & Ha); [|done|done]. clear Hw.
  cbn [th_input th_rows th_bytes th_count th_len th_min th_max th_attributes] in *. unfold table_hasher_finish in E.
  rewrite Hi, Hb, Hcn, Hl, Hmn, Hmx, Ha, Z.add_0_l in E.
  destruct (Z.eqb_spec (th_rows h1) count) as [Ec|]; [|done]. destruct (Z.eqb_spec (Z.of_nat (length (concat es))) len) as [El|]; [|done]. cbn [negb orb] in E.
  destruct (Z.ltb_spec u32_max (Z.of_nat (length (default [] attrs)))) as [|Hal]; [done|]. apply Ok_inj in E as <-.
  unfold table_leaf_hash_canonical, table_leaf_hash_canonical_with_magic, encode_canonical_rows_with_magic. rewrite Hfp. cbn [mbind outcome_bind].
  rewrite Ht, Hes. cbn [mbind outcome_bind mret outcome_ret]. rewrite Ec. destruct (Z.eqb_spec count 0); [done|].
  apply from_codec_Ok. unfold leaf_hash_with_magic, leaf_preimage, push_len_prefixed, push_len_prefixed_u64.
  cbn [payload_kind schema_fingerprint logical_count canonical_payload leaf_min leaf_max canonical_attributes].
  assert (length fp = 32%nat) as Hlen.
  { unfold schema_fingerprint_with_magic in Hfp. apply bind_Ok in Hfp as (b & _ & <-%Ok_inj). apply blake3_len. }
  destruct (Z.leb_spec (Z.of_nat (length fp)) u32_max) as [_|Hx]; [|rewrite Hlen in Hx; unfold u32_max in Hx; lia].
  destruct (Z.leb_spec (Z.of_nat (length (default [] attrs))) u32_max) as [_|Hx]; [|lia]. cbn [mbind outcome_bind mret outcome_ret]. unfold of_bytes.
  assert (Z.of_nat (length ROWS_MAGIC + 8) + len = Z.of_nat (length (ROWS_MAGIC ++ to_le 8 count ++ concat es))) as ->
    by (rewrite !length_app, length_to_le; lia).
  rewrite <- !app_assoc. reflexivity.
Qed.

Section Verifiers.
#[local] Set Default Proof Using "Type*".
Context `{Blake3} `{ArrowCast} `{ParquetLaws}.
Context (dir : store) (path : bytes) (ns : option bytes) (objects : list CapsuleObject) (ls : list CapsuleLeaf) (Hcounts : counts_ok ls).

Definition opened_by (s : ArrowSchema) (fp : bytes) : Prop := exists b, b ∈ contents dir objects /\ open_table path b = Ok (s, fp).

Lemma open_table_inv b s fp :
  open_table path b = Ok (s, fp) ->
  exists r, parquet_schema b = Some r /\ canonicalize_schema r = Ok s /\ schema_fingerprint_of s = Ok fp.
Proof.
  unfold open_table. destruct (parquet_schema b) as [r|]; [|done]. intros E. apply bind_Ok in E as (s' & Hs & E). apply bind_Ok in E as (fp' & Hf & E).
  injection E as -> ->. exists r. split; [done|]. split.
  - revert Hs. destruct (canonicalize_schema r); cbn; congruence.
  - revert Hf. destruct (schema_fingerprint_of s); cbn; congruence.
Qed.

Lemma opened_functional :
  (forall s1 s2 fp, opened_by s1 fp -> opened_by s2 fp -> s1 = s2) \/ schema_collision (contents dir objects).
Proof.
  set (prs := omap (fun b => match open_table path b with Ok p => Some p | _ => None end) (contents dir objects)).
  assert (forall s fp, opened_by s fp <-> (s, fp) ∈ prs) as Hp.
  { intros s fp. unfold opened_by, prs. rewrite list_elem_of_omap. split; intros (b & Hb & E); exists b; (split; [done|]); [by rewrite E|].
    destruct (open_table path b); [congruence|done|done]. }
  destruct (decide (Exists (fun p => Exists (fun q => p.2 = q.2 /\ p.1 <> q.1) prs) prs)) as [Hx|Hx].
  - right. apply Exists_exists in Hx as ([s1 fp1] & Hi1 & Hx). apply Exists_exists in Hx as ([s2 fp2] & Hi2 & Ef & Hne). cbn in Ef, Hne. subst fp2.
    apply Hp in Hi1 as (b1 & Hb1 & O1%open_table_inv), Hi2 as (b2 & Hb2 & O2%open_table_inv).
    destruct O1 as (r1 & P1 & C1 & F1), O2 as (r2 & P2 & C2 & F2).
    apply bind_Ok in F1 as (x & Ex & Hfx%Ok_inj), F2 as (y & Ey & Hfy%Ok_inj). unfold of_bytes in *.
    exists b1, b2, r1, r2, s1, s2, x, y. split_and!; try done; [|congruence]. intros <-. apply Hne.
    destruct (canonicalize_canonical r1 s1) as [W1 I1]; [by eapply parquet_wf|done|].
    destruct (canonicalize_canonical r2 s2) as [W2 I2]; [by eapply parquet_wf|done|].
    destruct (schema_encoding_inj s1 s2 SCHEMA_MAGIC x W1 W2 Ex Ey) as (c & Ec1 & Ec2). congruence.
  - left. intros s1 s2 fp O1%Hp O2%Hp. destruct (decide (s1 = s2)) as [|Hne]; [done|]. destruct Hx.
    apply Exists_exists. exists (s1, fp). split; [done|]. apply Exists_exists. exists (s2, fp). done.
Qed.

Lemma contents_open : Forall (opens path opened_by) (contents dir objects).
Proof. apply Forall_forall. intros b Hb s fp E. by exists b. Qed.

Lemma scan_start_inv : scan_inv ls opened_by [] (scan_start ls).
Proof.
  split; cbn.
  - exists [], []. rewrite take_0. repeat constructor.
  - done.
  - lia.
  - destruct ls as [|l ls']; [done|]. apply Forall_cons in Hcounts as [? _]. cbn. lia.
  - done.
  - intros k s l E. by destruct k.
Qed.

(** Where the first pass ends well, its slices are the groups of the leaves. *)
Lemma scan_end_groups rows st :
  scan_inv ls opened_by rows st -> scan_end path ls st = Ok tt ->
  exists gs, sc_records st = tag_groups 0 gs /\ Forall2 group_ok ls gs /\ Forall (fun g => g <> []) gs
    /\ sc_index st = length ls /\ sc_rows st = 0.
Proof.
  intros I E. unfold scan_end in E. destruct (Nat.eqb_spec (sc_index st) (length ls)) as [Ei|]; [|done].
  destruct (Z.eqb_spec (sc_rows st) 0) as [Er|]; [|done]. destruct (si_groups _ _ _ _ I) as (gs & part & Erec & Hg & Hp & Hs & Hlen).
  rewrite Ei, firstn_all in Hg. exists gs.
  assert (part = []) as ->. { destruct part as [|b part]; [done|]. apply Forall_cons in Hp as [Hb _]. cbn in Hs. pose proof (sum_rows_nonneg part). unfold sum_rows in *. lia. }
  rewrite app_nil_r in Erec. split; [done|]. split; [done|]. split; [|done].
  clear -Hg Hcounts. induction Hg as [|l g ls' gs Hlg _ IH]; constructor; apply Forall_cons in Hcounts as [Hl Hc']; [|by apply IH].
  by apply (group_nonempty l); [lia|].
Qed.


(** After the first pass both verifiers hash and compare leaf by leaf. *)
Lemma second_passes st :
  scan_files dir path ns ls objects (scan_start ls) = Ok st -> scan_end path ls st = Ok tt ->
  exists gs, Forall2 group_ok ls gs /\ all_rows (concat gs) = stream_rows dir objects
    /\ verify_table_stream_v3_directory dir path ns objects ls = check_groups ls path (sc_schemas st) (sc_lengths st) 0 gs
    /\ (h ← (if is_nil ls then Ok None else h ← new_table_leaf_hasher path 0 (sc_schemas st) ls (sc_lengths st); mret (Some h));
        '(current, h) ← hash_records path (sc_schemas st) (sc_lengths st) ls (sc_records st) 0 h;
        finish_records (length ls - current) path (sc_schemas st) (sc_lengths st) ls current h)
       = check_groups ls path (sc_schemas st) (sc_lengths st) 0 gs.
Proof.
  intros Es Ee. pose proof (scan_files_inv ls Hcounts path opened_by dir ns objects _ _ [] contents_open scan_start_inv Es) as I.
  destruct (scan_end_groups _ _ I Ee) as (gs & Er & Hg & Hne & _). exists gs. split; [done|]. split.
  { pose proof (si_rows _ _ _ _ I) as Hr. cbn [app] in Hr. rewrite <- Hr, Er. f_equal. clear. generalize 0%nat.
    induction gs as [|g gs IH]; intros i; [done|]. cbn [tag_groups concat]. rewrite map_app, map_map, (IH (S i)). f_equal. symmetry. apply map_id. }
  split.
  - unfold verify_table_stream_v3_directory, scan_table_stream_v3_directory. rewrite Es. cbn [mbind outcome_bind]. rewrite Ee.
    cbn [mbind outcome_bind mret outcome_ret]. destruct (is_nil ls) eqn:En. { destruct ls; [|done]. by inversion Hg. }
    destruct (rehash_files_passes ls path (sc_schemas st) (sc_lengths st) dir ns objects _ _ Es) as (rs & Hrs & P).
    cbn [sc_records scan_start app] in Hrs. rewrite Er in Hrs. subst rs.
    destruct (P {| rh_index := 0; rh_rows := 0; rh_hasher := None |}) as [-> _]; [done|].
    rewrite rehash_groups by (by rewrite ?drop_0). destruct (check_groups _ _ _ _ 0 gs) as [[]|e|]; cbn [mbind outcome_bind rh_index rh_rows]; [|done|done].
    by rewrite (Forall2_length _ _ _ Hg), Nat.eqb_refl.
  - rewrite Er. destruct (is_nil ls) eqn:En. { destruct ls; [|done]. by inversion Hg. }
    apply memory_groups; [done|by apply Forall2_length in Hg|]. intros ->. inversion Hg. subst ls. done.
Qed.

(** The verifier in memory and the one that reads the directory twice agree. *)
Lemma table_verifiers_agree :
  (forall s1 s2 fp, opened_by s1 fp -> opened_by s2 fp -> s1 = s2) ->
  Forall (fun o => exists b, dir !! co_hash o = Some b /\ verify_payload o b = Ok tt) objects ->
  verify_table_stream_v3_directory dir path ns objects ls = verify_table_stream_v3 (read_from dir) path ns objects ls.
Proof.
  intros Hinj Hv. unfold verify_table_stream_v3.
  rewrite (scan_files_memory ls Hcounts path opened_by dir ns objects _ [] Hinj contents_open scan_start_inv Hv).
  destruct (scan_files dir path ns ls objects (scan_start ls)) as [st|e|] eqn:Es; cbn [mbind outcome_bind].
  2,3: unfold verify_table_stream_v3_directory, scan_table_stream_v3_directory; by rewrite Es.
  destruct (scan_end path ls st) as [[]|e|] eqn:Ee; cbn [mbind outcome_bind].
  2,3: unfold verify_table_stream_v3_directory, scan_table_stream_v3_directory; rewrite Es; cbn [mbind outcome_bind]; by rewrite Ee.
  destruct (second_passes st Es Ee) as (gs & _ & _ & -> & ->). done.
Qed.

Lemma write_group_batches i g h h' : write_group path i g h = Ok h' -> write_batches h g = Ok h'.
Proof.
  revert h. induction g as [|b g IH]; intros h E; cbn [write_group write_batches] in *; [by apply Ok_inj in E as <-|].
  apply bind_Ok in E as (h1 & E1 & E). unfold write_table in E1. destruct (table_hasher_write h b) as [h2|e|]; [|done|done].
  apply Ok_inj in E1 as <-. cbn [mbind outcome_bind]. by apply IH.
Qed.

Lemma check_groups_sound schemas lengths i gs k g :
  check_groups ls path schemas lengths i gs = Ok tt -> gs !! k = Some g ->
  exists l s, ls !! (i + k)%nat = Some l /\ schemas !! (i + k)%nat = Some s
    /\ table_leaf_hash_canonical s g (cl_min l) (cl_max l) (cl_attributes l) = Ok (cl_hash l).
Proof.
  revert i k. induction gs as [|g' gs IH]; intros i k E Hk; [done|]. cbn [check_groups] in E.
  apply bind_Ok in E as (h0 & E0 & E). apply bind_Ok in E as (h1 & E1 & E). apply bind_Ok in E as ([] & E2 & E).
  destruct k as [|k].
  - injection Hk as <-. rewrite Nat.add_0_r. unfold new_table_leaf_hasher in E0. destruct (schemas !! i) as [s|]; [|done].
    destruct (ls !! i) as [l|] eqn:El; [|done]. destruct (lengths !! i) as [len|]; [|done]. exists l, s. split; [done|]. split; [done|].
    unfold finish_table_leaf in E2. rewrite El in E2. apply bind_Ok in E2 as (c & Ec & E2). case_bool_decide as Eh; [|done]. subst c.
    apply (incremental_sound s (cl_count l) len).
    destruct (table_hasher_new s _ _ _ _ _) as [h|e|]; [|done|done]. apply Ok_inj in E0 as ->. cbn [mbind outcome_bind].
    rewrite (write_group_batches _ _ _ _ E1). cbn [mbind outcome_bind]. revert Ec. destruct (table_hasher_finish h1); cbn; congruence.
  - replace (i + S k)%nat with (S i + k)%nat by lia. by apply IH.
Qed.

(** An accepted table stream: its rows, in order, are the rows of the leaves, and
    each leaf is the table leaf its hash names, under the schema it declares. *)
Lemma table_stream_sound :
  verify_table_stream_v3_directory dir path ns objects ls = Ok tt ->
  exists gs, all_rows (concat gs) = stream_rows dir objects /\ length gs = length ls
    /\ forall k l g, ls !! k = Some l -> gs !! k = Some g ->
       sum_rows g = cl_count l /\ exists s fp, cl_schema l = Some fp /\ opened_by s fp
         /\ table_leaf_hash_canonical s g (cl_min l) (cl_max l) (cl_attributes l) = Ok (cl_hash l).
Proof.
  intros E. destruct (scan_files dir path ns ls objects (scan_start ls)) as [st|e|] eqn:Es.
  2,3: unfold verify_table_stream_v3_directory, scan_table_stream_v3_directory in E; by rewrite Es in E.
  destruct (scan_end path ls st) as [[]|e|] eqn:Ee.
  2,3: unfold verify_table_stream_v3_directory, scan_table_stream_v3_directory in E; rewrite Es in E; cbn [mbind outcome_bind] in E; by rewrite Ee in E.
  destruct (second_passes st Es Ee) as (gs & Hg & Hr & Hd & _). rewrite Hd in E. exists gs. split; [done|]. split; [by apply Forall2_length in Hg|].
  intros k l g Hl Hgk. destruct (Forall2_lookup_l _ _ _ _ _ Hg Hl) as (g' & Hg' & Hok). rewrite Hgk in Hg'. injection Hg' as <-.
  split; [apply Hok|]. destruct (check_groups_sound _ _ 0 gs k g E Hgk) as (l' & s & Hl' & Hs & Hh). cbn [Nat.add] in *. rewrite Hl in Hl'. injection Hl' as <-.
  pose proof (scan_files_inv ls Hcounts path opened_by dir ns objects _ _ [] contents_open scan_start_inv Es) as I.
  destruct (si_opened _ _ _ _ I _ _ _ Hs Hl) as (fp & Hfp & Ho). by exists s, fp.
Qed.
End Verifiers.
