(* ===== verification/CapsuleVerify.v ===== *)
(** The verification of a recovery capsule, [content/capsule.rs]: the manifest
    file and its root, the payload closure in memory and in a directory, and the
    incremental check against a prior manifest. *)

From stdpp Require Import base list numbers gmap sets sorting strings options.
From Stdlib Require Import ZArith Lia.
From S2P Require Import Prelude RustStd RustText EntryType Wire CanonicalJson Tree MerkleTree SeriesMerkle SeriesLeaf SeriesManifest TableLeaf TableRows Capsule CapsuleStream CapsuleTable.

Open Scope Z_scope.

(** * Manifest bytes *)

(** Serde for the manifest types: the JSON value the derived serializer builds,
    the text of a value, and the derived deserializer. *)
Class ManifestSerde := {
  to_value : CapsuleManifest -> option Value;
  to_vec : Value -> option bytes;
  from_slice : bytes -> option CapsuleManifest;
}.

(** [Value::get] and friends on the members of an object. *)
Fixpoint member (k : bytes) (ms : list (bytes * Value)) : option Value :=
  match ms with
  | [] => None
  | (k', v) :: ms => if bool_decide (k' = k) then Some v else member k ms
  end.
Definition set_member (k : bytes) (v : Value) (ms : list (bytes * Value)) : list (bytes * Value) :=
  map (fun kv => if bool_decide (kv.1 = k) then (k, v) else kv) ms.
Definition remove_member (k : bytes) (ms : list (bytes * Value)) : list (bytes * Value) :=
  filter (fun kv => kv.1 <> k) ms.

(** A physical node without a schema leaves the field out. *)
Definition drop_null_schema (entry : Value) : Value :=
  match entry with
  | Object ms =>
      match member (bstr "node") ms with
      | Some (Object node) =>
          match member (bstr "kind") node, member (bstr "schema_fingerprint") node with
          | Some (Str k), Some Null =>
              if bool_decide (k = bstr "physical")
              then Object (set_member (bstr "node") (Object (remove_member (bstr "schema_fingerprint") node)) ms)
              else entry
          | _, _ => entry
          end
      | _ => entry
      end
  | _ => entry
  end.

Section ManifestBytes.
Context `{Blake3} `{JsonParser} `{ManifestSerde}.

(** The text of a manifest, after validation. *)
Definition manifest_text (m : CapsuleManifest) : cres bytes :=
  match to_value m with
  | None => Err ManifestJson
  | Some (Object ms) =>
      match member (bstr "entries") ms with
      | Some (CanonicalJson.Array es) =>
          match to_vec (Object (set_member (bstr "entries") (CanonicalJson.Array (map drop_null_schema es)) ms)) with
          | None => Err ManifestJson
          | Some b => Ok b
          end
      | _ => Panic
      end
  | Some _ => Panic
  end.

Definition capsule_manifest_bytes (m : CapsuleManifest) : cres bytes := _ ← validate_manifest m; manifest_text m.

Definition capsule_root (m : CapsuleManifest) : cres bytes :=
  b ← capsule_manifest_bytes m; mret (blake3 (CAPSULE_ROOT_DOMAIN_V4 ++ b)).

Definition decode_capsule_manifest (b : bytes) : cres CapsuleManifest :=
  match from_slice b with
  | None => Err ManifestJson
  | Some m =>
      _ ← validate_manifest m;
      canonical ← capsule_manifest_bytes m;
      if bool_decide (canonical = b) then Ok m else Err ManifestNotCanonical
  end.

(** A downloaded capsule: [recovery/refs/latest], [recovery/manifests/] by the
    root in the name, and [recovery/objects/]. *)
Record CapsuleDir := { latest : option bytes; manifests : gmap bytes bytes; objects_of : store }.

Definition read_capsule_manifest (d : CapsuleDir) : cres (CapsuleManifest * bytes) :=
  match latest d with
  | None => Err RefMissing
  | Some reference =>
      let root_text := trim_end reference in
      if existsb (in_range 65 90) root_text then Err RefUppercase else
      root ← map_err (fun _ => RefHex) (from_hex root_text);
      match manifests d !! to_hex root with
      | None => Err ManifestMissing
      | Some b =>
          m ← decode_capsule_manifest b;
          computed ← capsule_root m;
          if bool_decide (computed = root) then Ok (m, root) else Err ManifestRoot
      end
  end.

(** * Payloads *)

Record CapsuleVerifyReport := {
  report_root : bytes;
  report_entries : Z;
  report_payload_objects : Z;
  physical_bytes : Z;
  report_logical_count : Z;
}.

(** The loop over the payload closure. *)
Fixpoint verify_objects (check : CapsuleObject -> cres unit) (total : Z) (os : list CapsuleObject) : cres Z :=
  match os with
  | [] => Ok total
  | o :: os =>
      _ ← check o;
      if u64_max <? total + co_size o then Err PhysicalCountOverflow else verify_objects check (total + co_size o) os
  end.

Fixpoint add_counts (total : Z) (ls : list CapsuleLeaf) : cres Z :=
  match ls with
  | [] => Ok total
  | l :: ls => if u64_max <? total + cl_count l then Err LogicalCountOverflow else add_counts (total + cl_count l) ls
  end.

(** The loop over the entries, with the verifiers of a file and of a table stream. *)
Fixpoint verify_streams (file : bytes -> list CapsuleObject -> list CapsuleLeaf -> cres unit)
    (table : bytes -> option bytes -> list CapsuleObject -> list CapsuleLeaf -> cres unit) (total : Z) (es : list CapsuleEntry) : cres Z :=
  match es with
  | [] => Ok total
  | e :: es =>
      match ce_node e with
      | Physical k schema root objects ls =>
          _ ← match k with
              | FilePayload => file (ce_path e) objects ls
              | TablePayload => table (ce_path e) schema objects ls
              end;
          if negb (bool_decide (capsule_series_root k schema ls = root)) then Err (SeriesRoot (ce_path e)) else
          total ← add_counts total ls;
          verify_streams file table total es
      | _ => verify_streams file table total es
      end
  end.

Definition report (root : bytes) (m : CapsuleManifest) (os : list CapsuleObject) (physical logical : Z) : CapsuleVerifyReport :=
  {| report_root := root; report_entries := Z.of_nat (length (cm_entries m)); report_payload_objects := Z.of_nat (length os);
     physical_bytes := physical; report_logical_count := logical |}.

Context `{ArrowCast} `{Parquet}.

Definition verify_capsule_with (root : bytes) (m : CapsuleManifest) (read : Reads) : cres CapsuleVerifyReport :=
  os ← payload_objects m;
  physical ← verify_objects (fun o => b ← read (co_hash o); verify_payload o b) 0 os;
  logical ← verify_streams (verify_file_stream read) (verify_table_stream_v3 read) 0 (cm_entries m);
  mret (report root m os physical logical).

Definition verify_capsule_payloads (m : CapsuleManifest) (payloads : store) : cres CapsuleVerifyReport :=
  root ← capsule_root m;
  declared ← payload_objects m;
  if negb (length declared =? size payloads)%nat
  then Err (PayloadCount (Z.of_nat (length declared)) (Z.of_nat (size payloads)))
  else verify_capsule_with root m (read_from payloads).

Context `{FileReads}.

Definition verify_capsule_payload_directory_at_root (m : CapsuleManifest) (objects_dir : store) (root : bytes) : cres CapsuleVerifyReport :=
  os ← payload_objects m;
  physical ← verify_objects (verify_payload_file objects_dir) 0 os;
  logical ← verify_streams (verify_file_stream_directory objects_dir) (verify_table_stream_v3_directory objects_dir) 0 (cm_entries m);
  mret (report root m os physical logical).

Definition verify_capsule_payload_directory (m : CapsuleManifest) (objects_dir : store) : cres CapsuleVerifyReport :=
  root ← capsule_root m; verify_capsule_payload_directory_at_root m objects_dir root.

Definition verify_capsule_directory (d : CapsuleDir) : cres CapsuleVerifyReport :=
  '(m, root) ← read_capsule_manifest d; verify_capsule_payload_directory_at_root m (objects_of d) root.

(** * Incremental verification *)

Definition staged_payload_exists (objects_dir : store) (hash : bytes) : bool := is_some (objects_dir !! hash).

Definition verify_stream_directory (objects_dir : store) (path : bytes) (k : CapsulePayloadKind) (schema : option bytes)
    (objects : list CapsuleObject) (ls : list CapsuleLeaf) : cres unit :=
  match k with
  | TablePayload => verify_table_stream_v3_directory objects_dir path schema objects ls
  | FilePayload => verify_file_stream_directory objects_dir path objects ls
  end.

(** The object and leaf pairs of the prior node, where it is comparable. *)
Definition prior_pairs (prior : option CapsuleNode) (k : CapsulePayloadKind) (schema : option bytes) : list (CapsuleObject * CapsuleLeaf) :=
  match prior with
  | Some (Physical pk ps _ po pl) =>
      if bool_decide (pk = k) && bool_decide (ps = schema) && (length po =? length pl)%nat then zip po pl else []
  | _ => []
  end.

(** The loop over the aligned pairs: the staged ones, or an error. *)
Fixpoint staged_pairs (objects_dir : store) (path : bytes) (prior : list (CapsuleObject * CapsuleLeaf)) (pairs : list (CapsuleObject * CapsuleLeaf))
  : cres (list (CapsuleObject * CapsuleLeaf)) :=
  match pairs with
  | [] => Ok []
  | (o, l) :: pairs =>
      if staged_payload_exists objects_dir (co_hash o) then
        _ ← verify_payload_file objects_dir o;
        rest ← staged_pairs objects_dir path prior pairs;
        mret ((o, l) :: rest)
      else if bool_decide ((o, l) ∈ prior) then staged_pairs objects_dir path prior pairs
      else Err (UnstagedLeaf path)
  end.

Fixpoint verify_all (objects_dir : store) (os : list CapsuleObject) : cres unit :=
  match os with
  | [] => Ok tt
  | o :: os => _ ← verify_payload_file objects_dir o; verify_all objects_dir os
  end.

Definition verify_changed_node (objects_dir : store) (path : bytes) (prior : option CapsuleNode) (node : CapsuleNode) : cres unit :=
  match node with
  | Directory => Ok tt
  | SymlinkNode target | Dynamic target _ =>
      if staged_payload_exists objects_dir (co_hash target) then verify_payload_file objects_dir target else Err (UnstagedPayload path)
  | Physical k schema _ objects ls =>
      if negb (length objects =? length ls)%nat then
        if negb (forallb (fun o => staged_payload_exists objects_dir (co_hash o)) objects) then Err (UnalignedSparse path) else
        _ ← verify_all objects_dir objects;
        verify_stream_directory objects_dir path k schema objects ls
      else
        staged ← staged_pairs objects_dir path (prior_pairs prior k schema) (zip objects ls);
        if is_nil staged then Ok tt else verify_stream_directory objects_dir path k schema (map fst staged) (map snd staged)
  end.

Definition find_node (path : bytes) (es : list CapsuleEntry) : option CapsuleNode :=
  ce_node <$> List.find (fun c => bool_decide (ce_path c = path)) es.

Fixpoint verify_changed (objects_dir : store) (prior : list CapsuleEntry) (es : list CapsuleEntry) : cres unit :=
  match es with
  | [] => Ok tt
  | e :: es =>
      let prior_node := find_node (ce_path e) prior in
      _ ← (if bool_decide (prior_node = Some (ce_node e)) then Ok tt else verify_changed_node objects_dir (ce_path e) prior_node (ce_node e));
      verify_changed objects_dir prior es
  end.

Definition verify_incremental_capsule_payload_directory (m prior : CapsuleManifest) (objects_dir : store) : cres unit :=
  _ ← validate_manifest m;
  _ ← validate_manifest prior;
  verify_changed objects_dir (cm_entries prior) (cm_entries m).
End ManifestBytes.

(** * The manifest and its root *)

(** Serde reads back what it wrote; an optional field that was left out is read as absent. *)
Class ManifestSerdeLaws `{ManifestSerde} := {
  serde_round_trip : forall m b, manifest_text m = Ok b -> from_slice b = Some m;
}.

Section Root.
#[local] Set Default Proof Using "Type*".
Context `{Blake3} `{JsonParser} `{ManifestSerdeLaws}.

(** Decoding accepts exactly the canonical bytes of a valid manifest. *)
Lemma decode_manifest_spec b m : decode_capsule_manifest b = Ok m <-> capsule_manifest_bytes m = Ok b.
Proof.
  unfold decode_capsule_manifest. split.
  - destruct (from_slice b) as [m'|]; [|done]. intros E. apply bind_Ok in E as ([] & Hv & E). apply bind_Ok in E as (c & Hc & E).
    case_bool_decide; [|done]. apply Ok_inj in E as ->. by subst.
  - intros E. unfold capsule_manifest_bytes in *. pose proof E as E'. apply bind_Ok in E' as ([] & Hv & Ht).
    rewrite (serde_round_trip m b Ht). rewrite Hv. cbn [mbind outcome_bind]. rewrite Ht. cbn [mbind outcome_bind]. by rewrite bool_decide_true.
Qed.

(** A root names one manifest. *)
Lemma capsule_root_inj m1 m2 r :
  capsule_root m1 = Ok r -> capsule_root m2 = Ok r ->
  m1 = m2 \/ exists b1 b2, capsule_manifest_bytes m1 = Ok b1 /\ capsule_manifest_bytes m2 = Ok b2 /\ b1 <> b2
    /\ blake3 (CAPSULE_ROOT_DOMAIN_V4 ++ b1) = blake3 (CAPSULE_ROOT_DOMAIN_V4 ++ b2).
Proof.
  unfold capsule_root. intros E1 E2. apply bind_Ok in E1 as (b1 & B1 & R1%Ok_inj), E2 as (b2 & B2 & R2%Ok_inj).
  destruct (decide (b1 = b2)) as [<-|Hne].
  - left. apply decode_manifest_spec in B1, B2. congruence.
  - right. exists b1, b2. split_and!; congruence.
Qed.

(** [read_capsule_manifest] returns the manifest whose canonical bytes the named
    file holds, and the root the ref names is its root. *)
Lemma read_manifest_spec d m root :
  read_capsule_manifest d = Ok (m, root) <->
  exists reference b, latest d = Some reference /\ existsb (in_range 65 90) (trim_end reference) = false
    /\ from_hex (trim_end reference) = Ok root /\ manifests d !! to_hex root = Some b
    /\ capsule_manifest_bytes m = Ok b /\ root = blake3 (CAPSULE_ROOT_DOMAIN_V4 ++ b).
Proof.
  unfold read_capsule_manifest. split.
  - destruct (latest d) as [reference|]; [|done]. destruct (existsb _ _) eqn:Ex; [done|]. intros E. apply bind_Ok in E as (r & Hr & E).
    destruct (manifests d !! to_hex r) as [b|] eqn:Eb; [|done]. apply bind_Ok in E as (m' & Hm & E). apply bind_Ok in E as (c & Hc & E).
    case_bool_decide as Ec; [|done]. injection E as -> ->. subst c. exists reference, b. apply decode_manifest_spec in Hm.
    split_and!; try done; [revert Hr; destruct (from_hex _); cbn; congruence|].
    unfold capsule_root in Hc. rewrite Hm in Hc. by apply Ok_inj in Hc.
  - intros (reference & b & -> & Ex & Hr & Hb & Hm & ->). rewrite Ex, Hr. cbn [map_err mbind outcome_bind]. rewrite Hb.
    rewrite (proj2 (decode_manifest_spec b m) Hm). cbn [mbind outcome_bind]. unfold capsule_root. rewrite Hm. cbn [mbind outcome_bind mret outcome_ret].
    by rewrite bool_decide_true.
Qed.
End Root.

(** * Valid leaves *)

Definition node_streams (e : CapsuleEntry) : option (CapsulePayloadKind * option bytes * list CapsuleObject * list CapsuleLeaf) :=
  match ce_node e with Physical k schema _ objects ls => Some (k, schema, objects, ls) | _ => None end.

(** Counts are [u64]. *)
Definition wf_manifest (m : CapsuleManifest) : Prop :=
  forall e k s os ls, e ∈ cm_entries m -> node_streams e = Some (k, s, os, ls) -> Forall (fun l => 0 <= cl_count l <= u64_max) ls.

Section Valid.
#[local] Set Default Proof Using "Type*".
Context `{Blake3} `{JsonParser}.

Lemma validate_leaves_valid path k s i ls :
  validate_leaves path k s i ls = Ok tt -> Forall (fun l => 0 <= cl_count l <= u64_max) ls -> Forall leaf_valid ls.
Proof.
  intros E Hu. revert i E. induction Hu as [|l ls Hl _ IH]; intros i E; cbn [validate_leaves] in E; [constructor|].
  apply bind_Ok in E as ([] & El & E). constructor; [|by eapply IH]. unfold validate_leaf in El.
  destruct (Z.eqb_spec (cl_count l) 0); [done|]. destruct (above _ _); [done|]. apply bind_Ok in El as ([] & Ea & _).
  split; [lia|]. destruct (cl_attributes l) as [a|]; [|done]. cbn. by destruct (validate_capsule_attributes a) as [[]| |].
Qed.

Lemma valid_streams m e k s os ls :
  validate_manifest m = Ok tt -> wf_manifest m -> e ∈ cm_entries m -> node_streams e = Some (k, s, os, ls) -> Forall leaf_valid ls.
Proof.
  intros Hv Hw He Hn. apply validate_manifest_spec in Hv as (_ & _ & Hf & _). rewrite Forall_forall in Hf. specialize (Hf e He).
  pose proof (Hw _ _ _ _ _ He Hn) as Hu. unfold node_streams in Hn. unfold validate_entry in Hf. case_bool_decide; [done|].
  destruct (ce_node e) as [| | |k' s' root objects leaves]; try done. injection Hn as -> -> -> ->.
  unfold validate_physical in Hf. apply bind_Ok in Hf as (x & _ & Hf). destruct (negb _); [done|]. destruct (_ && _); [done|].
  apply bind_Ok in Hf as ([] & _ & Hf). destruct (_ && _); [done|]. apply bind_Ok in Hf as ([] & Hl & _). by eapply validate_leaves_valid.
Qed.

Lemma valid_counts ls : Forall leaf_valid ls -> counts_ok ls.
Proof. intros Hv. eapply Forall_impl; [exact Hv|]. by intros l [? _]. Qed.

(** The objects of an entry are in the closure. *)
Lemma streams_in_closure m e k s os ls all :
  payload_objects m = Ok all -> e ∈ cm_entries m -> node_streams e = Some (k, s, os, ls) -> Forall (fun o => o ∈ all) os.
Proof.
  intros Ha He Hn. pose proof (payload_closure_spec m) as Hc. rewrite Ha in Hc. destruct Hc as (_ & Hin & _).
  apply Forall_forall. intros o Ho. apply Hin. unfold declared_objects. rewrite list_elem_of_In, in_concat.
  exists (entry_objects (ce_node e)). rewrite <- !list_elem_of_In. split.
  - apply list_elem_of_In, in_map_iff. exists e. by rewrite <- list_elem_of_In.
  - unfold node_streams in Hn. destruct (ce_node e); try done. by injection Hn as -> -> -> ->.
Qed.

Lemma verify_objects_all c t os n : verify_objects c t os = Ok n -> Forall (fun o => c o = Ok tt) os.
Proof.
  revert t. induction os as [|o os IH]; intros t E; cbn [verify_objects] in E; [constructor|].
  apply bind_Ok in E as ([] & Ho & E). destruct (_ <? _); [done|]. constructor; [done|by eapply IH].
Qed.

Lemma verify_objects_ext c1 c2 t os n :
  (forall o, o ∈ os -> c1 o = Ok tt -> c2 o = Ok tt) -> verify_objects c1 t os = Ok n -> verify_objects c2 t os = Ok n.
Proof.
  revert t. induction os as [|o os IH]; intros t Hc E; cbn [verify_objects] in *; [done|]. apply bind_Ok in E as ([] & Ho & E).
  rewrite (Hc o) by (done || set_solver). cbn [mbind outcome_bind]. destruct (_ <? _); [done|]. apply IH; [|done]. intros x Hx. apply Hc. set_solver.
Qed.

Lemma verify_streams_ext f1 f2 t1 t2 n es r :
  (forall e k s os ls, e ∈ es -> node_streams e = Some (k, s, os, ls) ->
     match k with
     | FilePayload => f1 (ce_path e) os ls = Ok tt -> f2 (ce_path e) os ls = Ok tt
     | TablePayload => t1 (ce_path e) s os ls = Ok tt -> t2 (ce_path e) s os ls = Ok tt
     end) ->
  verify_streams f1 t1 n es = Ok r -> verify_streams f2 t2 n es = Ok r.
Proof.
  revert n. induction es as [|e es IH]; intros n Hc E; cbn [verify_streams] in *; [done|].
  assert (forall n', verify_streams f1 t1 n' es = Ok r -> verify_streams f2 t2 n' es = Ok r) as Hes
    by (intros n'; apply IH; intros x k s os ls Hx; apply Hc; set_solver).
  pose proof (Hc e) as He. unfold node_streams in He. destruct (ce_node e) as [| | |k s root os ls]; [by auto..|].
  specialize (He _ _ _ _ ltac:(set_solver) eq_refl). apply bind_Ok in E as ([] & Hk & E).
  destruct k; rewrite (He Hk); cbn [mbind outcome_bind]; (destruct (negb _); [done|]);
    apply bind_Ok in E as (n' & -> & E); cbn [mbind outcome_bind]; by apply Hes.
Qed.
End Valid.

(** * Memory and directory *)

(** No file, and no file stream of the manifest, is longer than [u64::MAX]. *)
Definition fits (m : CapsuleManifest) (dir : store) : Prop :=
  (forall h b, dir !! h = Some b -> Z.of_nat (length b) <= u64_max)
  /\ forall e k s os ls, e ∈ cm_entries m -> node_streams e = Some (k, s, os, ls) -> Z.of_nat (length (concat (contents dir os))) <= u64_max.

(** Two canonical schemas of the objects of one table collide under BLAKE3. *)
Definition table_collision `{Blake3} `{Parquet} (m : CapsuleManifest) (dir : store) : Prop :=
  exists e s os ls, e ∈ cm_entries m /\ node_streams e = Some (TablePayload, s, os, ls) /\ schema_collision (contents dir os).

Section Agree.
#[local] Set Default Proof Using "Type*".
Context `{Blake3} `{JsonParser} `{ManifestSerde} `{ArrowCast} `{ParquetLaws} `{FileReads}.

Lemma functional_or_collision m dir :
  (forall e s os ls, e ∈ cm_entries m -> node_streams e = Some (TablePayload, s, os, ls) ->
     forall s1 s2 fp, opened_by dir (ce_path e) os s1 fp -> opened_by dir (ce_path e) os s2 fp -> s1 = s2)
  \/ table_collision m dir.
Proof.
  unfold table_collision. induction (cm_entries m) as [|e es IH]; [left; set_solver|].
  destruct IH as [IH|(e' & s & os & ls & He & Hn & Hc)]; [|right; exists e', s, os, ls; set_solver].
  destruct (node_streams e) as [[[[[] s] os] ls]|] eqn:En.
  2: destruct (opened_functional dir (ce_path e) os) as [Hf|Hc]; [|right; exists e, s, os, ls; set_solver].
  all: left; intros e' s' os' ls' [->|He]%elem_of_cons Hn; [congruence || (rewrite En in Hn; injection Hn as <- <- <-; exact Hf)|by eapply IH].
Qed.

(** The checks of the payload files in memory and from the directory. *)
Lemma payload_checks m dir all n :
  fits m dir -> payload_objects m = Ok all ->
  verify_objects (verify_payload_file dir) 0 all = Ok n <-> verify_objects (fun o => b ← read_from dir (co_hash o); verify_payload o b) 0 all = Ok n.
Proof.
  intros [Hfit _] Ha.
  assert (forall o, verify_payload_file dir o = Ok tt <-> (b ← read_from dir (co_hash o); verify_payload o b) = Ok tt) as He.
  { intros o. rewrite verify_payload_file_spec by (intros b; apply Hfit). unfold read_from. split.
    - intros (b & -> & Hv). done.
    - destruct (dir !! co_hash o) as [b|]; [|done]. intros Hv. by exists b. }
  split; apply verify_objects_ext; intros o _; apply He.
Qed.

Lemma verifiers_agree m dir root r :
  validate_manifest m = Ok tt -> wf_manifest m -> fits m dir ->
  (forall e s os ls, e ∈ cm_entries m -> node_streams e = Some (TablePayload, s, os, ls) ->
     forall s1 s2 fp, opened_by dir (ce_path e) os s1 fp -> opened_by dir (ce_path e) os s2 fp -> s1 = s2) ->
  verify_capsule_payload_directory_at_root m dir root = Ok r <-> verify_capsule_with root m (read_from dir) = Ok r.
Proof.
  intros Hv Hw Hfit Hinj. unfold verify_capsule_payload_directory_at_root, verify_capsule_with.
  destruct (payload_objects m) as [all|e|] eqn:Ea; cbn [mbind outcome_bind]; [|done|done].
  assert (forall n, verify_objects (verify_payload_file dir) 0 all = Ok n ->
    forall e k s os ls, e ∈ cm_entries m -> node_streams e = Some (k, s, os, ls) ->
     Forall (fun o => exists b, dir !! co_hash o = Some b /\ verify_payload o b = Ok tt) os) as Hpay.
  { intros n Hn e k s os ls He Hns. pose proof (streams_in_closure _ _ _ _ _ _ _ Ea He Hns) as Hin. apply verify_objects_all in Hn.
    rewrite Forall_forall in *. intros o Ho. apply verify_payload_file_spec; [intros b; apply Hfit|]. by apply Hn, Hin. }
  assert (forall n e k s os ls, verify_objects (verify_payload_file dir) 0 all = Ok n -> e ∈ cm_entries m -> node_streams e = Some (k, s, os, ls) ->
    match k with
    | FilePayload => verify_file_stream_directory dir (ce_path e) os ls = Ok tt <-> verify_file_stream (read_from dir) (ce_path e) os ls = Ok tt
    | TablePayload => verify_table_stream_v3_directory dir (ce_path e) s os ls = Ok tt <-> verify_table_stream_v3 (read_from dir) (ce_path e) s os ls = Ok tt
    end) as Hst.
  { intros n e k s os ls Hn He Hns. pose proof (Hpay n Hn _ _ _ _ _ He Hns) as Hp. pose proof (valid_streams _ _ _ _ _ _ Hv Hw He Hns) as Hlv.
    pose proof (valid_counts _ Hlv) as Hc. destruct k.
    - rewrite verify_file_stream_spec by done. rewrite (proj1 (verify_file_stream_directory_spec dir (ce_path e) os ls
        ltac:(eapply Forall_impl; [exact Hp|]; intros o (b & -> & _); by eexists) Hc)).
      split; [|by intros (_ & _ & ?)]. intros Hm. split; [done|]. split; [|done]. by eapply Hfit.
    - rewrite (table_verifiers_agree dir (ce_path e) s os ls Hc); [done| |done]. by eapply Hinj. }
  split; intros E; apply bind_Ok in E as (p & Hp & E); apply bind_Ok in E as (q & Hq & E).
  - rewrite (proj1 (payload_checks m dir all p Hfit Ea) Hp). cbn [mbind outcome_bind].
    eapply verify_streams_ext in Hq; [rewrite Hq; exact E|].
    intros e k s os ls He Hns. pose proof (Hst p e k s os ls Hp He Hns) as Hk. destruct k; apply Hk.
  - apply (payload_checks m dir all p Hfit Ea) in Hp. rewrite Hp. cbn [mbind outcome_bind].
    eapply verify_streams_ext in Hq; [rewrite Hq; exact E|].
    intros e k s os ls He Hns. pose proof (Hst p e k s os ls Hp He Hns) as Hk. destruct k; apply Hk.
Qed.
End Agree.
