(* ===== verification/CapsuleIncremental.v ===== *)
(** Incremental verification of a recovery capsule against a prior manifest,
    [content/capsule.rs], what full verification establishes, and the claims on
    both, with a small capsule as the example. *)

From stdpp Require Import base list numbers gmap sets sorting strings options.
From Stdlib Require Import ZArith Lia.
From S2P Require Import Prelude RustStd RustText EntryType Wire CanonicalJson Tree MerkleTree SeriesMerkle SeriesLeaf SeriesManifest TableLeaf TableRows Capsule CapsuleStream CapsuleTable CapsuleVerify.

Open Scope Z_scope.

(** * Incremental verification *)

(** Where a node has as many objects as leaves, each object holds its leaf. *)
Definition aligned (es : list CapsuleEntry) : Prop :=
  forall e k s os ls, e ∈ es -> node_streams e = Some (k, s, os, ls) -> length os = length ls ->
    Forall2 (fun o l => co_size o = cl_count l) os ls.

(** The directories agree on the objects they share, as content-addressed stores do. *)
Definition same_objects (d1 d2 : store) : Prop := forall h b1 b2, d1 !! h = Some b1 -> d2 !! h = Some b2 -> b1 = b2.

Section Incremental.
#[local] Set Default Proof Using "Type*".
Context `{Blake3} `{JsonParser} `{ManifestSerde} `{ArrowCast} `{Parquet} `{FileReads}.

Lemma same_cut ls cs :
  Forall2 (fun l c => Z.of_nat (length c) = cl_count l) ls cs -> stream_matches ls (concat cs) -> Forall2 leaf_segment ls cs.
Proof.
  intros Hl (segs & Hs & E). revert cs Hl E. induction Hs as [|l seg ls segs [Hlen Hh] _ IH]; intros cs Hl E; inversion Hl; subst; [constructor|].
  cbn [concat] in E. apply app_inj_1 in E as [-> E]; [|lia]. constructor; [done|by apply IH].
Qed.

Lemma segments_match ls cs : Forall2 leaf_segment ls cs -> stream_matches ls (concat cs).
Proof. intros Hs. by exists cs. Qed.

Lemma contents_left d1 d2 os : Forall (fun o => is_Some (d1 !! co_hash o)) os -> contents (d1 ∪ d2) os = contents d1 os.
Proof.
  intros Hp. unfold contents. apply map_ext_in. intros o Ho%list_elem_of_In. rewrite Forall_forall in Hp. destruct (Hp o Ho) as [b Hb].
  by rewrite (lookup_union_Some_l _ _ _ _ Hb), Hb.
Qed.

Lemma lookup_shared (d1 d2 : store) h b : same_objects d1 d2 -> d2 !! h = Some b -> (d1 ∪ d2) !! h = Some b.
Proof. intros Hs Hb. rewrite lookup_union, Hb. destruct (d1 !! h) as [b'|] eqn:E; cbn; [|done]. by rewrite (Hs _ _ _ E Hb). Qed.

Lemma contents_right d1 d2 os :
  same_objects d1 d2 -> Forall (fun o => is_Some (d2 !! co_hash o)) os -> contents (d1 ∪ d2) os = contents d2 os.
Proof.
  intros Hs Hp. unfold contents. apply map_ext_in. intros o Ho%list_elem_of_In. rewrite Forall_forall in Hp. destruct (Hp o Ho) as [b Hb].
  by rewrite (lookup_shared d1 d2 _ b Hs Hb), Hb.
Qed.

(** The pairs the loop keeps are the staged ones; the others are in the prior manifest. *)
Lemma staged_pairs_spec dir path prior pairs staged :
  staged_pairs dir path prior pairs = Ok staged ->
  staged = filter (fun p => is_Some (dir !! co_hash p.1)) pairs
  /\ Forall (fun p => verify_payload_file dir p.1 = Ok tt) staged
  /\ Forall (fun p => dir !! co_hash p.1 = None -> p ∈ prior) pairs.
Proof.
  revert staged. induction pairs as [|[o l] pairs IH]; intros staged E; cbn [staged_pairs] in E.
  { apply Ok_inj in E as <-. split; [done|]. split; constructor. }
  unfold staged_payload_exists in E. destruct (dir !! co_hash o) as [b|] eqn:Eb; cbn [is_some] in E.
  - apply bind_Ok in E as ([] & Hv & E). apply bind_Ok in E as (rest & Hr & <-%Ok_inj). destruct (IH _ Hr) as (-> & Hf & Hp).
    rewrite filter_cons_True by (cbn; by rewrite Eb). split; [done|]. split; constructor; try done. cbn. congruence.
  - case_bool_decide as Hin; [|done]. destruct (IH _ E) as (-> & Hf & Hp).
    rewrite filter_cons_False by (cbn; rewrite Eb; by intros [? ?]). split; [done|]. split; [done|]. by constructor.
Qed.

Lemma payload_file_size (dir : store) o :
  (forall h b, dir !! h = Some b -> Z.of_nat (length b) <= u64_max) -> verify_payload_file dir o = Ok tt ->
  exists b, dir !! co_hash o = Some b /\ Z.of_nat (length b) = co_size o.
Proof.
  intros Hfit Hv. apply verify_payload_file_spec in Hv as (b & Hb & Hv); [|intros b; apply Hfit]. exists b. split; [done|].
  unfold verify_payload in Hv. destruct (negb _); [done|]. by destruct (Z.eqb_spec (Z.of_nat (length b)) (co_size o)).
Qed.

Lemma verify_streams_entry f t n es r e k s os ls :
  verify_streams f t n es = Ok r -> e ∈ es -> node_streams e = Some (k, s, os, ls) ->
  match k with FilePayload => f (ce_path e) os ls = Ok tt | TablePayload => t (ce_path e) s os ls = Ok tt end.
Proof.
  revert n. induction es as [|x es IH]; intros n E He Hn; [set_solver|]. cbn [verify_streams] in E. apply elem_of_cons in He as [<-|He].
  - unfold node_streams in Hn. destruct (ce_node e); try done. injection Hn as -> -> -> ->. apply bind_Ok in E as ([] & Hk & _). by destruct k.
  - destruct (ce_node x); [by eapply IH..|]. apply bind_Ok in E as ([] & _ & E). destruct (negb _); [done|]. apply bind_Ok in E as (n' & _ & E). by eapply IH.
Qed.

Lemma find_node_elem path es n : find_node path es = Some n -> exists e, e ∈ es /\ ce_path e = path /\ ce_node e = n.
Proof.
  unfold find_node. destruct (List.find _ es) as [e|] eqn:E; [|done]. intros [= <-]. apply find_some in E as [He Hp].
  exists e. rewrite list_elem_of_In. split; [done|]. split; [by apply bool_decide_eq_true in Hp|done].
Qed.

Context (m prior : CapsuleManifest) (dir pdir : store) (root : bytes) (rep : CapsuleVerifyReport).
Context (Hwf : wf_manifest m) (Hpwf : wf_manifest prior).
Context (Hfit : forall h b, dir !! h = Some b -> Z.of_nat (length b) <= u64_max).
Context (Hpfit : forall h b, pdir !! h = Some b -> Z.of_nat (length b) <= u64_max).
Context (Hsame : same_objects dir pdir) (Hal : aligned (cm_entries m)) (Hpal : aligned (cm_entries prior)).
Context (Hpv : validate_manifest prior = Ok tt) (Hprior : verify_capsule_payload_directory_at_root prior pdir root = Ok rep).
Context (Hmv : validate_manifest m = Ok tt).

(** What full verification of the prior manifest gives for a file entry of it. *)
Lemma prior_stream e s os ls :
  e ∈ cm_entries prior -> node_streams e = Some (FilePayload, s, os, ls) ->
  Forall (fun o => exists b, pdir !! co_hash o = Some b /\ Z.of_nat (length b) = co_size o) os /\ stream_matches ls (concat (contents pdir os)).
Proof.
  intros He Hn. pose proof Hprior as E. unfold verify_capsule_payload_directory_at_root in E.
  apply bind_Ok in E as (all & Ha & E). apply bind_Ok in E as (p & Hp & E). apply bind_Ok in E as (q & Hq & _).
  pose proof (streams_in_closure _ _ _ _ _ _ _ Ha He Hn) as Hin. apply verify_objects_all in Hp.
  assert (Forall (fun o => exists b, pdir !! co_hash o = Some b /\ Z.of_nat (length b) = co_size o) os) as Hpres.
  { rewrite Forall_forall in *. intros o Ho. apply payload_file_size; [exact Hpfit|]. by apply Hp, Hin. }
  split; [done|]. pose proof (verify_streams_entry _ _ _ _ _ _ _ _ _ _ Hq He Hn) as Hs. cbn in Hs.
  eapply verify_file_stream_directory_spec; [| |exact Hs].
  - eapply Forall_impl; [exact Hpres|]. intros o (b & -> & _). by eexists.
  - eapply valid_counts, valid_streams; [exact Hpv|exact Hpwf|exact He|exact Hn].
Qed.

(** Every pair of an aligned prior file node is a leaf and its bytes. *)
Lemma prior_pair path k o l :
  (o, l) ∈ prior_pairs (find_node path (cm_entries prior)) FilePayload k -> exists b, pdir !! co_hash o = Some b /\ leaf_segment l b.
Proof.
  unfold prior_pairs. destruct (find_node path (cm_entries prior)) as [n|] eqn:Ef; [|set_solver]. destruct n as [| | |pk ps pr po pl]; try set_solver.
  case_bool_decide as Ek; [|set_solver]. case_bool_decide as Es; [|set_solver]. destruct (Nat.eqb_spec (length po) (length pl)) as [El|]; [|set_solver].
  cbn [andb]. subst pk ps. apply find_node_elem in Ef as (e & He & Hpath & Hnode).
  assert (node_streams e = Some (FilePayload, k, po, pl)) as Hn by (unfold node_streams; by rewrite Hnode).
  destruct (prior_stream e k po pl He Hn) as [Hpres Hm]. pose proof (Hpal _ _ _ _ _ He Hn El) as Ha.
  assert (Forall2 leaf_segment pl (contents pdir po)) as Hseg.
  { apply same_cut; [|done]. unfold contents. clear -Hpres Ha. induction Ha as [|o l po pl Hol _ IH]; [constructor|].
    apply Forall_cons in Hpres as [(b & Hb & Hlb) Hp]. constructor; [rewrite Hb; cbn; lia|by apply IH]. }
  clear -Hseg Hpres. revert pl Hseg. induction Hpres as [|o' po (b & Hb & _) _ IH]; intros pl Hseg; inversion Hseg; subst; [set_solver|].
  cbn [zip_with]. rewrite Hb in *. intros [[= -> ->]|Hin]%elem_of_cons; [by exists b|by eapply IH].
Qed.

(** The staged pairs, with the prior ones, are the leaves of an aligned node. *)
Lemma aligned_node path s os ls staged :
  length os = length ls -> Forall2 (fun o l => co_size o = cl_count l) os ls -> counts_ok ls ->
  staged_pairs dir path (prior_pairs (find_node path (cm_entries prior)) FilePayload s) (zip os ls) = Ok staged ->
  (is_nil staged = true \/ verify_file_stream_directory dir path (map fst staged) (map snd staged) = Ok tt) ->
  Forall (fun o => is_Some ((dir ∪ pdir) !! co_hash o)) os /\ stream_matches ls (concat (contents (dir ∪ pdir) os)).
Proof.
  intros Hlen Hsz Hc Hst Hver. destruct (staged_pairs_spec _ _ _ _ _ Hst) as (Hfil & Hvf & Hun).
  assert (Forall (fun p => exists b, dir !! co_hash p.1 = Some b /\ leaf_segment p.2 b) staged) as Hseg.
  { destruct Hver as [Hnil|Hver]; [by destruct staged|].
    assert (Forall (fun p => exists b, dir !! co_hash p.1 = Some b /\ Z.of_nat (length b) = cl_count p.2) staged) as Hpres.
    { rewrite Forall_forall in *. intros [o l] Hp. destruct (payload_file_size dir o Hfit (Hvf _ Hp)) as (b & Hb & Hl). exists b. split; [done|].
      rewrite Hfil in Hp. apply list_elem_of_filter in Hp as [_ Hz]. rewrite Hl. cbn [fst snd]. clear -Hsz Hz.
      induction Hsz as [|o' l' os ls E _ IH]; [set_solver|]. cbn [zip_with] in Hz. apply elem_of_cons in Hz as [[= -> ->]|Hz]; [done|by apply IH]. }
    apply verify_file_stream_directory_spec in Hver.
    - assert (Forall2 leaf_segment (map snd staged) (contents dir (map fst staged))) as Hf2.
      { apply same_cut; [|done]. unfold contents. rewrite map_map. clear -Hpres. induction Hpres as [|[o l] st (b & Hb & Hl) _ IH]; cbn [map]; constructor; [|done].
        cbn in *. by rewrite Hb. }
      unfold contents in Hf2. rewrite map_map in Hf2. clear -Hf2 Hpres. induction Hpres as [|[o l] st (b & Hb & Hl) _ IH]; [constructor|].
      cbn [map] in Hf2. inversion Hf2; subst. constructor; [|by apply IH]. cbn in *. rewrite Hb in *. by exists b.
    - apply Forall_map. eapply Forall_impl; [exact Hpres|]. intros p (b & Hb & _). cbn. by rewrite Hb.
    - apply Forall_map. apply Forall_forall. intros p Hp. rewrite Hfil in Hp. apply list_elem_of_filter in Hp as [_ Hz]. destruct p as [o l]. cbn.
      unfold counts_ok in Hc. rewrite Forall_forall in Hc. apply Hc. by eapply elem_of_zip_r. }
  assert (Forall2 (fun l o => exists b, (dir ∪ pdir) !! co_hash o = Some b /\ leaf_segment l b) ls os) as Hall.
  { assert (forall p, p ∈ zip os ls -> exists b, (dir ∪ pdir) !! co_hash p.1 = Some b /\ leaf_segment p.2 b) as Hz.
    { intros [o l] Hp. destruct (dir !! co_hash o) as [b|] eqn:Eb.
      - rewrite Forall_forall in Hseg. destruct (Hseg (o, l)) as (b' & Hb' & Hs); [rewrite Hfil; apply list_elem_of_filter; cbn; by rewrite Eb|].
        exists b'. split; [by apply lookup_union_Some_l|done].
      - rewrite Forall_forall in Hun. apply Hun in Hp; [|done]. apply prior_pair in Hp as (b & Hb & Hs). exists b. split; [by apply lookup_shared|done]. }
    clear -Hz Hlen. revert ls Hz Hlen. induction os as [|o os IH]; intros [|l ls] Hz Hlen; try done; constructor; [apply (Hz (o, l)); cbn; set_solver|].
    apply IH; [|by injection Hlen]. intros p Hp. apply Hz. cbn. set_solver. }
  clear -Hall. split.
  - induction Hall as [|l o ls os (b & Hb & _) _ IH]; constructor; [by rewrite Hb|done].
  - apply segments_match. unfold contents. induction Hall as [|l o ls os (b & Hb & Hs) _ IH]; cbn [map]; constructor; [by rewrite Hb|done].
Qed.

(** A file entry that the incremental check accepts. *)
Lemma changed_node e s os ls :
  e ∈ cm_entries m -> node_streams e = Some (FilePayload, s, os, ls) ->
  (find_node (ce_path e) (cm_entries prior) = Some (ce_node e)
   \/ verify_changed_node dir (ce_path e) (find_node (ce_path e) (cm_entries prior)) (ce_node e) = Ok tt) ->
  verify_file_stream_directory (dir ∪ pdir) (ce_path e) os ls = Ok tt.
Proof.
  intros He Hn Hch. pose proof (valid_counts _ (valid_streams _ _ _ _ _ _ Hmv Hwf He Hn)) as Hc.
  assert (Forall (fun o => is_Some ((dir ∪ pdir) !! co_hash o)) os /\ stream_matches ls (concat (contents (dir ∪ pdir) os))) as [Hp Hm];
    [|by apply verify_file_stream_directory_spec].
  pose proof Hn as Hnode. unfold node_streams in Hnode. destruct Hch as [Hf|Hv].
  - apply find_node_elem in Hf as (e' & He' & _ & Hne). assert (node_streams e' = Some (FilePayload, s, os, ls)) as Hn' by (unfold node_streams; by rewrite Hne).
    destruct (prior_stream _ _ _ _ He' Hn') as [Hpres Hm]. assert (Forall (fun o => is_Some (pdir !! co_hash o)) os) as Hp
      by (eapply Forall_impl; [exact Hpres|]; intros o (b & -> & _); by eexists).
    split; [|by rewrite contents_right]. eapply Forall_impl; [exact Hp|]. intros o [b Hb]. exists b. by apply lookup_shared.
  - destruct (ce_node e) as [| | |k s' root' os' ls']; try done. injection Hnode as -> -> -> ->. cbn [verify_changed_node] in Hv.
    destruct (Nat.eqb_spec (length os) (length ls)) as [El|El]; cbn [negb] in Hv.
    + apply bind_Ok in Hv as (staged & Hst & Hv). eapply (aligned_node (ce_path e) s os ls staged); [done|by eapply Hal|done|done|].
      destruct (is_nil staged); [by left|by right].
    + destruct (forallb _ os) eqn:Ef; [|done]. cbn [negb] in Hv. apply bind_Ok in Hv as ([] & _ & Hv).
      assert (Forall (fun o => is_Some (dir !! co_hash o)) os) as Hp.
      { apply forallb_Forall in Ef. eapply Forall_impl; [exact Ef|]. intros o Ho. unfold staged_payload_exists in Ho. by destruct (dir !! co_hash o). }
      cbn [verify_stream_directory] in Hv. apply verify_file_stream_directory_spec in Hv; [|done|done].
      split; [|by rewrite contents_left]. eapply Forall_impl; [exact Hp|]. intros o [b Hb]. exists b. by apply lookup_union_Some_l.
Qed.

Lemma incremental_files :
  verify_incremental_capsule_payload_directory m prior dir = Ok tt ->
  forall e s os ls, e ∈ cm_entries m -> node_streams e = Some (FilePayload, s, os, ls) ->
    verify_file_stream_directory (dir ∪ pdir) (ce_path e) os ls = Ok tt.
Proof.
  intros E e s os ls He Hn. unfold verify_incremental_capsule_payload_directory in E. rewrite Hmv, Hpv in E. cbn [mbind outcome_bind] in E.
  apply (changed_node e s os ls He Hn). clear -E He. induction (cm_entries m) as [|x es IH]; [set_solver|]. cbn [verify_changed] in E.
  apply bind_Ok in E as ([] & Ex & E). apply elem_of_cons in He as [<-|He]; [|by apply IH].
  case_bool_decide as Eq; [by left|by right].
Qed.
End Incremental.

(** * Claims *)

(** The bytes of a manifest determine it, and a root does: decoding accepts
    exactly the canonical bytes of a valid manifest, and two manifests with one
    root are the same manifest, or their bytes are a BLAKE3 collision. *)
Theorem capsule_round_trip `{Blake3} `{JsonParser} `{ManifestSerdeLaws} :
  (forall b m, decode_capsule_manifest b = Ok m <-> capsule_manifest_bytes m = Ok b)
  /\ forall m1 m2 r, capsule_root m1 = Ok r -> capsule_root m2 = Ok r ->
     m1 = m2 \/ exists b1 b2, capsule_manifest_bytes m1 = Ok b1 /\ capsule_manifest_bytes m2 = Ok b2 /\ b1 <> b2
       /\ blake3 (CAPSULE_ROOT_DOMAIN_V4 ++ b1) = blake3 (CAPSULE_ROOT_DOMAIN_V4 ++ b2).
Proof. split; [apply decode_manifest_spec|apply capsule_root_inj]. Qed.

(** What a verified table stream holds: groups of slices, one per leaf, whose rows
    are the rows of the objects in order, each group of the declared count and
    with the declared hash under a schema that an object has and the leaf names. *)
Definition table_restores `{Blake3} `{ArrowCast} `{Parquet} (dir : store) (path : bytes) (os : list CapsuleObject) (ls : list CapsuleLeaf) : Prop :=
  exists gs, all_rows (concat gs) = stream_rows dir os /\ length gs = length ls
    /\ forall k l g, ls !! k = Some l -> gs !! k = Some g ->
       sum_rows g = cl_count l /\ exists s fp, cl_schema l = Some fp /\ opened_by dir path os s fp
         /\ table_leaf_hash_canonical s g (cl_min l) (cl_max l) (cl_attributes l) = Ok (cl_hash l).

(** C30: A downloaded capsule that verifies is restorable: the manifest it returns is
    the one the ref names, every declared object is present with its hash and
    size, and the bytes or rows of the objects of every physical entry are, in
    order, those of its leaves, each with its hash. *)
Theorem capsule_verified `{Blake3} `{JsonParser} `{ManifestSerde} `{ArrowCast} `{ParquetLaws} `{FileReads} d r :
  (forall m root, read_capsule_manifest d = Ok (m, root) -> wf_manifest m) ->
  (forall h b, objects_of d !! h = Some b -> Z.of_nat (length b) <= u64_max) ->
  verify_capsule_directory d = Ok r ->
  exists m, read_capsule_manifest d = Ok (m, report_root r)
    /\ (forall o, o ∈ declared_objects m -> exists b, objects_of d !! co_hash o = Some b /\ blake3 b = co_hash o /\ Z.of_nat (length b) = co_size o)
    /\ (forall e s os ls, e ∈ cm_entries m -> node_streams e = Some (FilePayload, s, os, ls) -> stream_matches ls (concat (contents (objects_of d) os)))
    /\ (forall e s os ls, e ∈ cm_entries m -> node_streams e = Some (TablePayload, s, os, ls) -> table_restores (objects_of d) (ce_path e) os ls).
Proof.
  intros Hwf Hfit E. unfold verify_capsule_directory in E. apply bind_Ok in E as ([m root] & Hr & E). pose proof (Hwf _ _ Hr) as Hw.
  assert (validate_manifest m = Ok tt) as Hv.
  { unfold read_capsule_manifest in Hr. destruct (latest d); [|done]. destruct (existsb _ _); [done|]. apply bind_Ok in Hr as (x & _ & Hr).
    destruct (manifests d !! to_hex x); [|done]. apply bind_Ok in Hr as (m' & Hm & Hr). apply bind_Ok in Hr as (c & Hc & Hr). case_bool_decide; [|done].
    injection Hr as -> ->. unfold capsule_root, capsule_manifest_bytes in Hc. apply bind_Ok in Hc as (b & Hb & _). by apply bind_Ok in Hb as ([] & ? & _). }
  unfold verify_capsule_payload_directory_at_root in E. apply bind_Ok in E as (all & Ha & E). apply bind_Ok in E as (p & Hp & E).
  apply bind_Ok in E as (q & Hq & <-%Ok_inj). exists m. split; [done|].
  assert (forall o, o ∈ all -> exists b, objects_of d !! co_hash o = Some b /\ verify_payload o b = Ok tt) as Hall.
  { intros o Ho. apply verify_objects_all in Hp. rewrite Forall_forall in Hp. apply verify_payload_file_spec; [intros b; apply Hfit|]. by apply Hp. }
  split.
  { intros o Ho. pose proof (payload_closure_spec m) as Hc. rewrite Ha in Hc. destruct Hc as (_ & Hin & _). apply Hin, Hall in Ho as (b & Hb & Hvb).
    exists b. split; [done|]. unfold verify_payload, of_bytes in Hvb. case_bool_decide; [|done]. cbn [negb] in Hvb.
    by destruct (Z.eqb_spec (Z.of_nat (length b)) (co_size o)). }
  split; intros e s os ls He Hn; pose proof (valid_counts _ (valid_streams _ _ _ _ _ _ Hv Hw He Hn)) as Hc;
    pose proof (verify_streams_entry _ _ _ _ _ _ _ _ _ _ Hq He Hn) as Hs; cbn in Hs.
  - apply verify_file_stream_directory_spec in Hs; [done| |done]. pose proof (streams_in_closure _ _ _ _ _ _ _ Ha He Hn) as Hin.
    eapply Forall_impl; [exact Hin|]. intros o Ho. destruct (Hall o Ho) as (b & -> & _). by eexists.
  - exact (table_stream_sound _ _ _ _ _ Hc Hs).
Qed.

(** The verifier of an in-memory closure and the one that streams a directory
    accept the same capsules with the same report, unless two schemas of one
    table collide under BLAKE3. *)
Theorem capsule_verifiers_agree `{Blake3} `{JsonParser} `{ManifestSerde} `{ArrowCast} `{ParquetLaws} `{FileReads} m dir os :
  wf_manifest m -> fits m dir -> payload_objects m = Ok os -> length os = size dir ->
  (forall r, verify_capsule_payload_directory m dir = Ok r <-> verify_capsule_payloads m dir = Ok r) \/ table_collision m dir.
Proof.
  intros Hw Hf Ho Hl. destruct (functional_or_collision m dir) as [Hinj|Hc]; [left; intros r|by right].
  unfold verify_capsule_payload_directory, verify_capsule_payloads. destruct (capsule_root m) as [root|e|] eqn:Er; cbn [mbind outcome_bind]; [|done|done].
  rewrite Ho. cbn [mbind outcome_bind]. rewrite Hl, Nat.eqb_refl. cbn [negb]. apply verifiers_agree; [|done..].
  unfold capsule_root, capsule_manifest_bytes in Er. apply bind_Ok in Er as (b & Hb & _). by apply bind_Ok in Hb as ([] & ? & _).
Qed.

(** C31: Incremental verification of a capsule whose objects each hold one leaf is
    sound: with a prior capsule that was verified in full, every file stream of
    the new manifest verifies against the staged and the prior objects together. *)
Theorem incremental_sound_aligned `{Blake3} `{JsonParser} `{ManifestSerde} `{ArrowCast} `{Parquet} `{FileReads} m prior dir pdir root rep :
  wf_manifest m -> wf_manifest prior ->
  (forall h b, dir !! h = Some b -> Z.of_nat (length b) <= u64_max) -> (forall h b, pdir !! h = Some b -> Z.of_nat (length b) <= u64_max) ->
  same_objects dir pdir -> aligned (cm_entries m) -> aligned (cm_entries prior) ->
  verify_capsule_payload_directory_at_root prior pdir root = Ok rep ->
  verify_incremental_capsule_payload_directory m prior dir = Ok tt ->
  forall e s os ls, e ∈ cm_entries m -> node_streams e = Some (FilePayload, s, os, ls) ->
    verify_file_stream_directory (dir ∪ pdir) (ce_path e) os ls = Ok tt.
Proof.
  intros Hw Hpw Hf Hpf Hs Ha Hpa Hp Hi. pose proof Hi as Hi'. unfold verify_incremental_capsule_payload_directory in Hi'.
  apply bind_Ok in Hi' as ([] & Hv & Hi'). apply bind_Ok in Hi' as ([] & Hpv & _).
  by apply (incremental_files m prior dir pdir root rep).
Qed.

(** * Examples *)

Definition ex_source : CapsuleSource :=
  {| pond_id := bstr "p"; birthplace := bstr "b"; source_tip := []; exported_at_micros := 1; tool_version := bstr "t" |}.
Definition ex_object (b : bytes) : CapsuleObject := {| co_hash := mix b; co_size := Z.of_nat (length b) |}.
Definition ex_file_leaf (b : bytes) : CapsuleLeaf :=
  {| cl_hash := unwrap_or [] (@file_leaf_hash_canonical mix_blake3 b None None None); cl_count := Z.of_nat (length b); source_timestamp := 0;
     cl_min := None; cl_max := None; cl_attributes := None; cl_schema := None |}.
Definition ex_root_entry : CapsuleEntry :=
  {| ce_path := ROOT_PATH; ce_type := DirectoryPhysical; source_node_id := bstr "0"; ce_node := Directory |}.
Definition ex_file (objects : list CapsuleObject) (ls : list CapsuleLeaf) : CapsuleEntry :=
  {| ce_path := bstr "/a"; ce_type := FilePhysicalSeries; source_node_id := bstr "1";
     ce_node := Physical FilePayload None (@capsule_series_root mix_blake3 FilePayload None ls) objects ls |}.
Definition ex_capsule (es : list CapsuleEntry) : CapsuleManifest :=
  {| cm_format := CAPSULE_FORMAT_V4; cm_source := ex_source; cm_entries := ex_root_entry :: es |}.
Definition ex_store (bs : list bytes) : store := list_to_map (map (fun b => (mix b, b)) bs).

Definition ex_parquet : Parquet :=
  {| parquet_schema := fun b => if bool_decide (b = bstr "T") then Some ex_schema else None;
     parquet_batches := fun b => if bool_decide (b = bstr "T") then Some (map Some ex_batches) else None |}.
Definition ex_parquet_laws : @ParquetLaws ex_parquet.
Proof. split. intros b s. cbn. case_bool_decide; [|done]. intros [= <-]. vm_compute. reflexivity. Defined.

Definition one_read (b : bytes) : list bytes := match b with [] => [] | _ => [b] end.
Lemma one_read_all b : concat (one_read b) = b.
Proof. destruct b; cbn; [done|]. by rewrite app_nil_r. Qed.
Lemma one_read_some b : Forall (fun c => c <> []) (one_read b).
Proof. destruct b; repeat constructor; done. Qed.
Definition ex_reads : FileReads := {| read_chunks := one_read; read_all := one_read_all; read_some := one_read_some |}.

(** The leaf that the rows of the table in [ex_batches] make. *)
Definition ex_fp : bytes := unwrap_or [] (@schema_fingerprint_of mix_blake3 ex_schema).
Definition ex_canonical : ArrowSchema := unwrap_or ex_schema (canonicalize_schema ex_schema).
Definition ex_table_leaf : CapsuleLeaf :=
  {| cl_hash := unwrap_or [] (@table_leaf_hash_canonical ex_cast mix_blake3 ex_canonical ex_batches None None None);
     cl_count := 3; source_timestamp := 0; cl_min := None; cl_max := None; cl_attributes := None; cl_schema := Some ex_fp |}.
Definition ex_table : CapsuleEntry :=
  {| ce_path := bstr "/t"; ce_type := TablePhysicalSeries; source_node_id := bstr "2";
     ce_node := Physical TablePayload (Some ex_fp) (@capsule_series_root mix_blake3 TablePayload (Some ex_fp) [ex_table_leaf])
       [ex_object (bstr "T")] [ex_table_leaf] |}.

Definition ex_manifest : CapsuleManifest :=
  ex_capsule [ex_file [ex_object (bstr "xy"); ex_object (bstr "z")] [ex_file_leaf (bstr "x"); ex_file_leaf (bstr "yz")]; ex_table].
Definition ex_objects : store := ex_store [bstr "xy"; bstr "z"; bstr "T"].

#[export] Instance CapsuleSource_eq_dec : EqDecision CapsuleSource.
Proof. solve_decision. Defined.
#[export] Instance CapsuleEntry_eq_dec : EqDecision CapsuleEntry.
Proof. solve_decision. Defined.
#[export] Instance CapsuleManifest_eq_dec : EqDecision CapsuleManifest.
Proof. solve_decision. Defined.

(** Serde on the one manifest of the example. *)
Definition ex_serde : ManifestSerde :=
  {| to_value := fun m => if bool_decide (m = ex_manifest) then Some (Object [(bstr "entries", CanonicalJson.Array [])]) else None;
     to_vec := fun _ => Some (bstr "{}");
     from_slice := fun b => if bool_decide (b = bstr "{}") then Some ex_manifest else None |}.
Definition ex_serde_laws : @ManifestSerdeLaws ex_serde.
Proof.
  split. intros m b. unfold manifest_text. cbn [to_value ex_serde]. case_bool_decide as E; [|done]. cbn [member].
  rewrite bool_decide_true by done. cbn [to_vec ex_serde]. intros <-%Ok_inj. cbn [from_slice ex_serde]. rewrite bool_decide_true by done. by subst.
Defined.

Definition ex_capsule_root : bytes := unwrap_or [] (@capsule_root mix_blake3 no_json ex_serde ex_manifest).
Definition ex_dir : CapsuleDir :=
  {| latest := Some (to_hex ex_capsule_root ++ [Byte.x0a]); manifests := {[ to_hex ex_capsule_root := bstr "{}" ]}; objects_of := ex_objects |}.

(** Sizes in a concrete directory. *)
Lemma store_fits (dir : store) :
  bool_decide (map_Forall (fun _ b => Z.of_nat (length b) <= u64_max) dir) = true -> forall h b, dir !! h = Some b -> Z.of_nat (length b) <= u64_max.
Proof. intros Hd%bool_decide_eq_true h b Hb. by apply (Hd h b). Qed.

(** The entries of a concrete manifest, one by one. *)
Definition check_entries (p : CapsulePayloadKind -> option bytes -> list CapsuleObject -> list CapsuleLeaf -> bool) (es : list CapsuleEntry) : bool :=
  forallb (fun e => match node_streams e with Some (k, s, os, ls) => p k s os ls | None => true end) es.

Lemma check_entries_spec p es e k s os ls :
  check_entries p es = true -> e ∈ es -> node_streams e = Some (k, s, os, ls) -> p k s os ls = true.
Proof. unfold check_entries. intros Hf%forallb_Forall He Hn. rewrite Forall_forall in Hf. specialize (Hf e He). by rewrite Hn in Hf. Qed.

Lemma check_wf m :
  check_entries (fun _ _ _ ls => bool_decide (Forall (fun l => 0 <= cl_count l <= u64_max) ls)) (cm_entries m) = true -> wf_manifest m.
Proof. intros Hc e k s os ls He Hn. by apply (check_entries_spec _ _ _ _ _ _ _ Hc He), bool_decide_eq_true in Hn. Qed.

Lemma check_aligned es :
  check_entries (fun _ _ os ls => bool_decide (length os = length ls -> Forall2 (fun o l => co_size o = cl_count l) os ls)) es = true -> aligned es.
Proof. intros Hc e k s os ls He Hn. by apply (check_entries_spec _ _ _ _ _ _ _ Hc He), bool_decide_eq_true in Hn. Qed.

Lemma check_same (d1 d2 : store) : bool_decide (map_Forall (fun h b => default b (d2 !! h) = b) d1) = true -> same_objects d1 d2.
Proof. intros Hd%bool_decide_eq_true h b1 b2 H1 H2. specialize (Hd h b1 H1). cbn in Hd. by rewrite H2 in Hd. Qed.

Lemma check_fits m dir :
  bool_decide (map_Forall (fun _ b => Z.of_nat (length b) <= u64_max) dir) = true ->
  check_entries (fun _ _ os _ => Z.of_nat (length (concat (contents dir os))) <=? u64_max) (cm_entries m) = true -> fits m dir.
Proof.
  intros Hd Hc. split; [by apply store_fits|]. intros e k s os ls He Hn. apply (check_entries_spec _ _ _ _ _ _ _ Hc He) in Hn. lia.
Qed.

Lemma capsule_round_trip_witness :
  (forall b m, @decode_capsule_manifest mix_blake3 no_json ex_serde b = Ok m <-> @capsule_manifest_bytes mix_blake3 no_json ex_serde m = Ok b)
  /\ @decode_capsule_manifest mix_blake3 no_json ex_serde (bstr "{}") = Ok ex_manifest.
Proof.
  pose proof (proj1 (@capsule_round_trip mix_blake3 no_json ex_serde ex_serde_laws)) as Hr. split; [exact Hr|].
  apply (proj2 (Hr (bstr "{}") ex_manifest)). vm_compute. reflexivity.
Defined.

Lemma capsule_verified_witness :
  exists m, @read_capsule_manifest mix_blake3 no_json ex_serde ex_dir = Ok (m, ex_capsule_root)
    /\ (forall o, o ∈ declared_objects m -> exists b, ex_objects !! co_hash o = Some b /\ mix b = co_hash o /\ Z.of_nat (length b) = co_size o)
    /\ (forall e s os ls, e ∈ cm_entries m -> node_streams e = Some (FilePayload, s, os, ls) ->
          @stream_matches mix_blake3 ls (concat (contents ex_objects os)))
    /\ (forall e s os ls, e ∈ cm_entries m -> node_streams e = Some (TablePayload, s, os, ls) ->
          @table_restores mix_blake3 ex_cast ex_parquet ex_objects (ce_path e) os ls).
Proof.
  apply (@capsule_verified mix_blake3 no_json ex_serde ex_cast ex_parquet ex_parquet_laws ex_reads ex_dir
    {| report_root := ex_capsule_root; report_entries := 3; report_payload_objects := 3; physical_bytes := 4; report_logical_count := 6 |}).
  - intros m root E. assert (@read_capsule_manifest mix_blake3 no_json ex_serde ex_dir = Ok (ex_manifest, ex_capsule_root)) as E' by (vm_compute; reflexivity).
    rewrite E in E'. apply Ok_inj, (f_equal fst) in E'. cbn [fst] in E'. rewrite E'. apply check_wf. vm_compute. reflexivity.
  - apply store_fits. vm_compute. reflexivity.
  - vm_compute. reflexivity.
Defined.

Lemma capsule_verifiers_agree_witness :
  (forall r, @verify_capsule_payload_directory mix_blake3 no_json ex_serde ex_cast ex_parquet ex_reads ex_manifest ex_objects = Ok r
     <-> @verify_capsule_payloads mix_blake3 no_json ex_serde ex_cast ex_parquet ex_manifest ex_objects = Ok r)
  \/ @table_collision mix_blake3 ex_parquet ex_manifest ex_objects.
Proof.
  apply (@capsule_verifiers_agree mix_blake3 no_json ex_serde ex_cast ex_parquet ex_parquet_laws ex_reads ex_manifest ex_objects
    (unwrap_or [] (payload_objects ex_manifest))).
  - apply check_wf. vm_compute. reflexivity.
  - apply check_fits; vm_compute; reflexivity.
  - vm_compute. reflexivity.
  - vm_compute. reflexivity.
Defined.

(** A capsule with one stored leaf, and a next one that appends a leaf. *)
Definition prior_manifest : CapsuleManifest := ex_capsule [ex_file [ex_object (bstr "mm")] [ex_file_leaf (bstr "mm")]].
Definition next_manifest : CapsuleManifest :=
  ex_capsule [ex_file [ex_object (bstr "mm"); ex_object (bstr "q")] [ex_file_leaf (bstr "mm"); ex_file_leaf (bstr "q")]].

Lemma incremental_sound_aligned_witness :
  @verify_file_stream_directory mix_blake3 ex_reads (ex_store [bstr "q"] ∪ ex_store [bstr "mm"]) (bstr "/a")
    [ex_object (bstr "mm"); ex_object (bstr "q")] [ex_file_leaf (bstr "mm"); ex_file_leaf (bstr "q")] = Ok tt.
Proof.
  apply (@incremental_sound_aligned mix_blake3 no_json ex_serde ex_cast ex_parquet ex_reads next_manifest prior_manifest (ex_store [bstr "q"])
    (ex_store [bstr "mm"]) [] (unwrap_or (report [] prior_manifest [] 0 0)
      (@verify_capsule_payload_directory_at_root mix_blake3 ex_cast ex_parquet ex_reads prior_manifest (ex_store [bstr "mm"]) []))
    ltac:(apply check_wf; vm_compute; reflexivity) ltac:(apply check_wf; vm_compute; reflexivity)
    ltac:(apply store_fits; vm_compute; reflexivity) ltac:(apply store_fits; vm_compute; reflexivity)
    ltac:(apply check_same; vm_compute; reflexivity)
    ltac:(apply check_aligned; vm_compute; reflexivity) ltac:(apply check_aligned; vm_compute; reflexivity)
    ltac:(vm_compute; reflexivity) ltac:(vm_compute; reflexivity)
    (ex_file [ex_object (bstr "mm"); ex_object (bstr "q")] [ex_file_leaf (bstr "mm"); ex_file_leaf (bstr "q")]) None).
  - apply elem_of_cons. right. apply elem_of_cons. by left.
  - reflexivity.
Defined.

(** A node whose objects do not each hold one leaf. *)
Definition gap_objects : list CapsuleObject := [ex_object (bstr "xy"); ex_object (bstr "mm"); ex_object (bstr "z")].
Definition gap_leaves : list CapsuleLeaf := [ex_file_leaf (bstr "x"); ex_file_leaf (bstr "mm"); ex_file_leaf (bstr "yz")].
Definition gap_manifest : CapsuleManifest := ex_capsule [ex_file gap_objects gap_leaves].

