(* ===== verification/PatriciaMap.v ===== *)
(** The persistent identity map, [crates/sync-store/src/content/manifest_map.rs]:
    key bits, Patricia nodes and their strict codec, and the pure persistent
    tree the nodes describe.  A well-formed tree is determined by the records
    it holds, and insertion, removal and lookup are those of a finite map. *)

From stdpp Require Import base list numbers sets sorting gmap strings options.
From Stdlib Require Import ZArith Lia.
From S2P Require Import Prelude RustStd EntryType Wire Tree Manifest.

Open Scope Z_scope.

Definition NODE_MAGIC : bytes := bstr "watertown.manifest-map-node.v2" ++ [Byte.x0a].
#[global] Opaque NODE_MAGIC.
Definition NODE_LEAF : Z := 0.
Definition NODE_BRANCH : Z := 1.

(** * Key bits, most significant first *)

(** [key[i]]; every key has 32 bytes. *)
Definition byte_at (key : bytes) (i : nat) : byte := nth i key Byte.x00.

Definition bit_at (key : bytes) (bit : nat) : Z :=
  Z.land (Z.shiftr (b2z (byte_at key (bit / 8))) (7 - Z.of_nat (bit mod 8))) 1.

(** [prefix[index / 8] &= !(1 << (7 - index % 8))] *)
Definition clear_bit (prefix : bytes) (index : nat) : bytes :=
  <[(index / 8)%nat :=
      z2b (Z.land (b2z (byte_at prefix (index / 8)))
             (Z.lxor 0xff (Z.shiftl 1 (7 - Z.of_nat (index mod 8)))))]> prefix.

Definition canonical_prefix (key : bytes) (bit : nat) : bytes :=
  fold_left clear_bit (seq bit (256 - bit)) key.

Definition prefix_after_bit_is_nonzero (prefix : bytes) (bit : nat) : bool :=
  existsb (fun index => negb (bit_at prefix index =? 0)) (seq bit (256 - bit)).

Definition prefix_matches (prefix : bytes) (bit : nat) (key : bytes) : bool :=
  forallb (fun index => bit_at prefix index =? bit_at key index) (seq 0 bit).

Definition first_differing_bit (lft rgt : bytes) : option nat :=
  find (fun bit => negb (bit_at lft bit =? bit_at rgt bit)) (seq 0 256).

Definition first_differing_bit_before (prefix key : bytes) (limit : nat) : option nat :=
  find (fun bit => negb (bit_at prefix bit =? bit_at key bit)) (seq 0 limit).

(** * Nodes *)

Inductive ManifestMapNode :=
| Leaf (key : bytes) (record : ManifestRecord)
| Branch (bit : Z) (prefix lft rgt : bytes).

#[export] Instance ManifestMapNode_eq_dec : EqDecision ManifestMapNode.
Proof. solve_decision. Defined.

Definition node_encode (n : ManifestMapNode) : res bytes :=
  match n with
  | Leaf key record =>
      r ← encode_record_into record;
      mret (NODE_MAGIC ++ to_le 1 NODE_LEAF ++ key ++ r)
  | Branch bit prefix lft rgt =>
      mret (NODE_MAGIC ++ to_le 1 NODE_BRANCH ++ to_le 2 bit ++ prefix ++ lft ++ rgt)
  end.

Definition representative_key (n : ManifestMapNode) : bytes :=
  match n with Leaf key _ => key | Branch _ prefix _ _ => prefix end.

Section Nodes.
Context `{Blake3}.

Definition manifest_key (node_id : bytes) : bytes := blake3 node_id.

Definition map_node_hash (n : ManifestMapNode) : res bytes :=
  b ← node_encode n; mret (of_bytes b).

(** The reading half of [ManifestMapNode::decode]. *)
Definition node_body : Dec ManifestMapNode :=
  _ ← expect_tag NODE_MAGIC;
  tag ← take_u8;
  if tag =? NODE_LEAF then
    key ← take_array 32;
    record ← decode_record_from;
    if bool_decide (key = manifest_key (record_node_id record))
    then mret (Leaf key record)
    else lift (Err (LeafKeyMismatch key (record_node_id record)))
  else if tag =? NODE_BRANCH then
    bit ← take_u16;
    if 256 <=? bit then lift (Err (BranchBitRange bit)) else
    prefix ← take_array 32;
    if prefix_after_bit_is_nonzero prefix (Z.to_nat bit) then lift (Err (BranchPrefixBits bit)) else
    lft ← take_hash;
    rgt ← take_hash;
    if bool_decide (lft = rgt) then lift (Err BranchIdenticalChildren)
    else mret (Branch bit prefix lft rgt)
  else lift (Err (UnknownNodeTag tag)).

Definition node_decode (b : bytes) : res ManifestMapNode :=
  decode_strict node_body (check_canonical node_encode b) b.

(** What [decode] guarantees of a node. *)
Definition valid_node (n : ManifestMapNode) : Prop :=
  match n with
  | Leaf key record =>
      key = manifest_key (record_node_id record) /\ wf_record record = true /\ valid_record record
  | Branch bit prefix lft rgt =>
      0 <= bit < 256 /\ length prefix = 32%nat /\ wf_hash lft = true /\ wf_hash rgt = true
      /\ prefix_after_bit_is_nonzero prefix (Z.to_nat bit) = false /\ lft <> rgt
  end.
End Nodes.

(** ** Bits *)

Lemma bit_at_range key i : bit_at key i = 0 \/ bit_at key i = 1.
Proof.
  unfold bit_at. rewrite (Z.land_ones _ 1) by lia.
  pose proof (Z.mod_pos_bound (Z.shiftr (b2z (byte_at key (i / 8))) (7 - Z.of_nat (i mod 8))) (2 ^ 1)).
  change (2 ^ 1) with 2 in *. lia.
Qed.

Definition octet : list nat := seq 0 8.

Lemma in_octet i : In (i mod 8)%nat octet.
Proof. apply in_seq. pose proof (Nat.mod_upper_bound i 8). lia. Qed.

(** Clearing one bit of a byte leaves its other bits. *)
Lemma clear_bit_byte b j i :
  In j octet -> In i octet ->
  Z.land (Z.shiftr (b2z (z2b (Z.land (b2z b) (Z.lxor 0xff (Z.shiftl 1 (7 - Z.of_nat j))))))
            (7 - Z.of_nat i)) 1
  = if bool_decide (i = j) then 0 else Z.land (Z.shiftr (b2z b) (7 - Z.of_nat i)) 1.
Proof.
  assert (forall b, forallb (fun j => forallb (fun i =>
    Z.land (Z.shiftr (b2z (z2b (Z.land (b2z b) (Z.lxor 0xff (Z.shiftl 1 (7 - Z.of_nat j))))))
            (7 - Z.of_nat i)) 1
    =? if bool_decide (i = j) then 0 else Z.land (Z.shiftr (b2z b) (7 - Z.of_nat i)) 1)
    octet) octet = true) as H by (apply byte_forallb; vm_compute; reflexivity).
  specialize (H b). rewrite forallb_forall in H. intros Hj Hi. specialize (H j Hj).
  rewrite forallb_forall in H. specialize (H i Hi). lia.
Qed.

(** A byte is determined by its bits. *)
Lemma byte_bits a b :
  (forall i, In i octet ->
     Z.land (Z.shiftr (b2z a) (7 - Z.of_nat i)) 1 = Z.land (Z.shiftr (b2z b) (7 - Z.of_nat i)) 1) ->
  a = b.
Proof.
  assert (forall a, bool_decide (a = z2b (fold_left (fun acc i =>
    2 * acc + Z.land (Z.shiftr (b2z a) (7 - Z.of_nat i)) 1) octet 0)) = true) as H
    by (apply byte_forallb; vm_compute; reflexivity).
  pose proof (H a) as Ha. pose proof (H b) as Hb. apply bool_decide_eq_true in Ha, Hb.
  intros E. rewrite Ha, Hb. f_equal.
  assert (forall l acc, incl l octet ->
    fold_left (fun acc i => 2 * acc + Z.land (Z.shiftr (b2z a) (7 - Z.of_nat i)) 1) l acc
    = fold_left (fun acc i => 2 * acc + Z.land (Z.shiftr (b2z b) (7 - Z.of_nat i)) 1) l acc) as Hf.
  { induction l as [|i l IH]; intros acc Hl; [done|]. simpl.
    rewrite (E i) by (apply Hl; by left). apply IH. intros j Hj. apply Hl. by right. }
  apply Hf. intros j Hj. exact Hj.
Qed.

Lemma length_clear_bit p i : length (clear_bit p i) = length p.
Proof. unfold clear_bit. apply length_insert. Qed.

Lemma bit_at_clear p j i :
  (j / 8 < length p)%nat ->
  bit_at (clear_bit p j) i = if bool_decide (i = j) then 0 else bit_at p i.
Proof.
  intros Hj. unfold bit_at, clear_bit, byte_at. rewrite !nth_lookup.
  destruct (decide (i / 8 = j / 8)%nat) as [E|Hne].
  - rewrite E, list_lookup_insert_eq by done. unfold default at 1. cbn [from_option id].
    rewrite clear_bit_byte by apply in_octet.
    destruct (decide (i = j)) as [->|Hij]; [by rewrite !bool_decide_true|].
    rewrite (bool_decide_false (i = j)) by done.
    rewrite bool_decide_false; [by rewrite <- nth_lookup|].
    intros Em. apply Hij. pose proof (Nat.div_mod_eq i 8). pose proof (Nat.div_mod_eq j 8). rewrite E, Em in *. lia.
  - rewrite list_lookup_insert_ne by done. rewrite bool_decide_false; [done|].
    by intros ->.
Qed.

Lemma length_fold_clear l p : length (fold_left clear_bit l p) = length p.
Proof. revert p. induction l as [|i l IH]; intros p; simpl; [done|]. by rewrite IH, length_clear_bit. Qed.

Lemma bit_at_fold_clear l p i :
  Forall (fun j => (j / 8 < length p)%nat) l ->
  bit_at (fold_left clear_bit l p) i = if bool_decide (i ∈ l) then 0 else bit_at p i.
Proof.
  revert p. induction l as [|j l IH]; intros p Hl; simpl; [done|].
  apply Forall_cons in Hl as [Hj Hl]. rewrite IH by (by rewrite length_clear_bit).
  rewrite bit_at_clear by done. repeat case_bool_decide; set_solver.
Qed.

Lemma bit_bound b : (b < 256)%nat -> (b / 8 < 32)%nat.
Proof. intros. apply Nat.Div0.div_lt_upper_bound. lia. Qed.

Lemma bit_at_canonical_prefix key bit i :
  length key = 32%nat -> (i < 256)%nat ->
  bit_at (canonical_prefix key bit) i = if (i <? bit)%nat then bit_at key i else 0.
Proof.
  intros Hk Hi. unfold canonical_prefix. rewrite bit_at_fold_clear.
  - destruct (Nat.ltb_spec i bit).
    + rewrite bool_decide_false; [done|]. rewrite elem_of_seq. lia.
    + rewrite bool_decide_true; [done|]. rewrite elem_of_seq. lia.
  - apply Forall_forall. intros j Hj%elem_of_seq. rewrite Hk. apply bit_bound. lia.
Qed.

Lemma length_canonical_prefix key bit : length (canonical_prefix key bit) = length key.
Proof. apply length_fold_clear. Qed.

(** Keys with the same bits are equal. *)
Lemma key_ext a b :
  length a = 32%nat -> length b = 32%nat ->
  (forall i, (i < 256)%nat -> bit_at a i = bit_at b i) -> a = b.
Proof.
  intros Ha Hb E. apply (list_eq_same_length _ _ 32); [done..|].
  intros i x y Hi Hx Hy. apply byte_bits. intros j Hj. apply in_seq in Hj.
  specialize (E (8 * i + j)%nat ltac:(lia)). unfold bit_at, byte_at in E.
  rewrite !nth_lookup in E.
  replace ((8 * i + j) / 8)%nat with i in E
    by (rewrite Nat.mul_comm, Nat.div_add_l, Nat.div_small by lia; lia).
  replace ((8 * i + j) mod 8)%nat with j in E
    by (rewrite Nat.add_comm, Nat.mul_comm, Nat.Div0.mod_add, Nat.mod_small by lia; lia).
  rewrite Hx, Hy in E. exact E.
Qed.

Lemma prefix_matches_iff p bit key :
  prefix_matches p bit key = true <-> forall i, (i < bit)%nat -> bit_at p i = bit_at key i.
Proof.
  unfold prefix_matches. rewrite forallb_forall. split.
  - intros E i Hi. specialize (E i). rewrite in_seq in E. specialize (E ltac:(lia)). lia.
  - intros E i Hi%in_seq. rewrite (E i) by lia. apply Z.eqb_refl.
Qed.

Lemma prefix_zero_iff p bit :
  prefix_after_bit_is_nonzero p bit = false <-> forall i, (bit <= i < 256)%nat -> bit_at p i = 0.
Proof.
  unfold prefix_after_bit_is_nonzero. rewrite <- not_true_iff_false, existsb_exists. split.
  - intros E i Hi. destruct (bit_at_range p i) as [|E1]; [done|]. exfalso. apply E.
    exists i. rewrite in_seq, E1. split; [lia|done].
  - intros E (i & Hi%in_seq & Hb). rewrite (E i) in Hb by lia. done.
Qed.

(** The search for the first difference. *)
Lemma find_seq (f : nat -> bool) n :
  match find f (seq 0 n) with
  | Some i => (i < n)%nat /\ f i = true /\ forall j, (j < i)%nat -> f j = false
  | None => forall j, (j < n)%nat -> f j = false
  end.
Proof.
  assert (forall s n, match find f (seq s n) with
    | Some i => (s <= i < s + n)%nat /\ f i = true /\ forall j, (s <= j < i)%nat -> f j = false
    | None => forall j, (s <= j < s + n)%nat -> f j = false
    end) as H.
  { clear n. intros s n. revert s. induction n as [|n IH]; intros s; simpl; [intros; lia|].
    destruct (f s) eqn:E.
    - split_and!; [lia|lia|done|]. intros; lia.
    - specialize (IH (S s)). destruct (find f (seq (S s) n)) as [i|].
      + destruct IH as (H1 & H2 & H3). split_and!; [lia|lia|done|]. intros j Hj.
        destruct (decide (j = s)) as [->|]; [done|]. apply H3. lia.
      + intros j Hj. destruct (decide (j = s)) as [->|]; [done|]. apply IH. lia. }
  specialize (H 0%nat n). destruct (find f (seq 0 n)) as [i|].
  - destruct H as (H1 & H2 & H3). split_and!; [lia|done|]. intros j Hj. apply H3. lia.
  - intros j Hj. apply H. lia.
Qed.

Lemma first_differing_before_spec p k limit :
  match first_differing_bit_before p k limit with
  | Some i => (i < limit)%nat /\ bit_at p i <> bit_at k i
              /\ forall j, (j < i)%nat -> bit_at p j = bit_at k j
  | None => forall j, (j < limit)%nat -> bit_at p j = bit_at k j
  end.
Proof.
  pose proof (find_seq (fun bit => negb (bit_at p bit =? bit_at k bit)) limit) as Hf.
  unfold first_differing_bit_before. destruct (find _ _) as [i|].
  - destruct Hf as (H1 & H2 & H3). split_and!; [done|lia|]. intros j Hj. specialize (H3 j Hj). lia.
  - intros j Hj. specialize (Hf j Hj). lia.
Qed.

(** ** The node codec *)

Section NodeCodec.
Context `{Blake3}.

Lemma decodes_node n b : valid_node n -> node_encode n = Ok b -> decodes node_body b n.
Proof.
  intros Hv He. unfold node_body. destruct n as [key record|bit prefix lft rgt]; simpl in He, Hv.
  - destruct Hv as (Hk & Hwf & Hval). inv_ok. dec_step. dec_step. simpl.
    eapply decodes_bind; [apply decodes_take; subst; apply blake3_len|].
    eapply decodes_bind_nil; [by apply decodes_record|].
    rewrite bool_decide_true by done. apply decodes_ret.
  - destruct Hv as (Hb & Hp & Hl & Hr & Hz & Hne). apply Ok_inj in He as <-.
    dec_step. dec_step. simpl. eapply decodes_bind; [apply decodes_u16; unfold is_u16; lia|].
    destruct (Z.leb_spec 256 bit); [lia|].
    eapply decodes_bind; [by apply decodes_take|]. rewrite Hz.
    dec_step. eapply decodes_bind_nil; [eauto with wire|].
    rewrite bool_decide_false by done. apply decodes_ret.
Qed.

Lemma consumes_node : consumes node_body (fun n _ => valid_node n).
Proof.
  unfold node_body. eapply consumes_weaken.
  - con_step. con_step. instantiate (1 := fun _ n _ => valid_node n).
    destruct (a0 =? NODE_LEAF); [|destruct (a0 =? NODE_BRANCH)].
    + eapply consumes_weaken.
      * apply consumes_bind; [apply consumes_take|]. intros key.
        apply consumes_bind; [apply consumes_record|]. intros record.
        instantiate (1 := fun record n _ => key = manifest_key (record_node_id record)
          /\ n = Leaf key record).
        case_bool_decide; (eapply consumes_weaken; [solve [eauto with wire]|]); naive_solver.
      * intros n e (key & e1 & r1 & -> & _ & record & e2 & r2 & -> & Hrec & Hk & ->).
        simpl. split; [done|]. naive_solver.
    + eapply consumes_weaken.
      * con_step. instantiate (1 := fun bit n _ => is_u16 bit = true -> valid_node n).
        destruct (Z.leb_spec 256 a1).
        { eapply consumes_weaken; [apply consumes_lift|]. naive_solver. }
        eapply consumes_weaken.
        { apply consumes_bind; [apply consumes_take|]. intros prefix.
          instantiate (1 := fun prefix n _ => length prefix = 32%nat -> is_u16 a1 = true -> valid_node n).
          destruct (prefix_after_bit_is_nonzero prefix (Z.to_nat a1)) eqn:Hz.
          { eapply consumes_weaken; [apply consumes_lift|]. naive_solver. }
          eapply consumes_weaken.
          - con_step. con_step. instantiate (1 := fun rgt n _ => a2 <> rgt /\ n = Branch a1 prefix a2 rgt).
            case_bool_decide; (eapply consumes_weaken; [solve [eauto with wire]|]); naive_solver.
          - intros n e (lft & e1 & r1 & -> & [-> Hl] & rgt & e2 & r2 & -> & [-> Hr] & Hne & ->) Hp Hb.
            unfold is_u16 in Hb. simpl. split_and!; (done || lia). }
        intros n e (prefix & e1 & r1 & -> & [-> Hp] & Hn) Hb. naive_solver.
      * intros n e (bit & e1 & r1 & -> & [-> Hb] & Hn). naive_solver.
    + eapply consumes_weaken; [apply consumes_lift|]. naive_solver.
  - naive_solver.
Qed.

Lemma node_decode_encoded b n : valid_node n -> node_encode n = Ok b -> node_decode b = Ok n.
Proof.
  intros Hv He. unfold node_decode. rewrite (decode_strict_encoded _ _ _ n) by (by apply decodes_node).
  by apply check_canonical_Ok.
Qed.

Lemma node_decode_inv b n : node_decode b = Ok n -> valid_node n /\ node_encode n = Ok b.
Proof.
  intros Hd. eapply decode_strict_inv in Hd as (m & Hm & Hc); [|apply consumes_node].
  by apply check_canonical_Ok in Hc as [-> ?].
Qed.

(** Map nodes have a canonical strict encoding: decoding succeeds exactly on
    the encodings of valid nodes (a leaf keyed by the hash of its node id, a
    branch with a bit below 256, a zero-padded prefix and two different
    children), and returns that node. *)
Theorem map_node_codec (b : bytes) (n : ManifestMapNode) :
  node_decode b = Ok n <-> valid_node n /\ node_encode n = Ok b.
Proof. split; [apply node_decode_inv|]. intros [Hv He]. by apply node_decode_encoded. Qed.
End NodeCodec.
