(* ===== verification/PatriciaTree.v ===== *)
(** The pure path-compressed tree that the nodes of the identity map describe:
    lookup, insertion and removal as [manifest_map.rs] performs them, without
    hashes.  They are the operations of a finite map, they keep the tree well
    formed, and a well-formed tree is determined by the records it holds. *)

From stdpp Require Import base list numbers sets sorting gmap strings options.
From Stdlib Require Import ZArith Lia.
From S2P Require Import Prelude RustStd EntryType Wire Tree Manifest PatriciaMap.

Open Scope Z_scope.

Inductive ptree :=
| PLeaf (key : bytes) (record : ManifestRecord)
| PBranch (bit : nat) (prefix : bytes) (lft rgt : ptree).

Fixpoint elems (t : ptree) : list (bytes * ManifestRecord) :=
  match t with
  | PLeaf k r => [(k, r)]
  | PBranch _ _ l r => elems l ++ elems r
  end.

Fixpoint plookup (k : bytes) (t : ptree) : option ManifestRecord :=
  match t with
  | PLeaf k' r => if bool_decide (k' = k) then Some r else None
  | PBranch b p l r =>
      if prefix_matches p b k then
        if bit_at k b =? 0 then plookup k l else plookup k r
      else None
  end.

(** [make_branch]: the new key's side is given by its bit. *)
Definition pmake_branch (bit : nat) (new_key : bytes) (existing new_leaf : ptree) : ptree :=
  let prefix := canonical_prefix new_key bit in
  if bit_at new_key bit =? 0 then PBranch bit prefix new_leaf existing
  else PBranch bit prefix existing new_leaf.

Fixpoint pinsert (k : bytes) (v : ManifestRecord) (t : ptree) : ptree :=
  match t with
  | PLeaf k' r =>
      if bool_decide (k' = k) then PLeaf k v else
      match first_differing_bit k' k with
      | Some d => pmake_branch d k t (PLeaf k v)
      | None => t
      end
  | PBranch b p l r =>
      match first_differing_bit_before p k b with
      | Some d => pmake_branch d k t (PLeaf k v)
      | None =>
          if bit_at k b =? 0 then PBranch b p (pinsert k v l) r else PBranch b p l (pinsert k v r)
      end
  end.

Fixpoint premove (k : bytes) (t : ptree) : option ptree * bool :=
  match t with
  | PLeaf k' _ => if bool_decide (k' = k) then (None, true) else (Some t, false)
  | PBranch b p l r =>
      if prefix_matches p b k then
        if bit_at k b =? 0 then
          match premove k l with
          | (_, false) => (Some t, false)
          | (None, true) => (Some r, true)
          | (Some l', true) => (Some (PBranch b p l' r), true)
          end
        else
          match premove k r with
          | (_, false) => (Some t, false)
          | (None, true) => (Some l, true)
          | (Some r', true) => (Some (PBranch b p l r'), true)
          end
      else (Some t, false)
  end.

(** Two keys agree on the bits below [b]. *)
Definition agree_below (b : nat) (p k : bytes) : Prop :=
  forall i, (i < b)%nat -> bit_at p i = bit_at k i.

(** The keys under a node extend its prefix, and lie on the side of their bit. *)
Definition keys_ok (b : nat) (p : bytes) (side : Z) (t : ptree) : Prop :=
  forall k v, (k, v) ∈ elems t -> agree_below b p k /\ bit_at k b = side.

Inductive wf_tree : ptree -> Prop :=
| wf_pleaf k v : length k = 32%nat -> wf_tree (PLeaf k v)
| wf_pbranch b p l r :
    (b < 256)%nat -> length p = 32%nat -> (forall i, (b <= i < 256)%nat -> bit_at p i = 0) ->
    keys_ok b p 0 l -> keys_ok b p 1 r -> wf_tree l -> wf_tree r ->
    wf_tree (PBranch b p l r).

Lemma elems_nonempty t : exists k v, (k, v) ∈ elems t.
Proof.
  induction t as [k v|b p l [k [v IH]] r _]; exists k, v; simpl; [set_solver|].
  apply elem_of_app. by left.
Qed.

Lemma elems_length t k v : wf_tree t -> (k, v) ∈ elems t -> length k = 32%nat.
Proof.
  induction 1 as [k' v' Hk|b p l r _ _ _ _ _ _ IHl _ IHr]; simpl.
  - intros E%list_elem_of_singleton. by injection E as -> ->.
  - intros [?|?]%elem_of_app; auto.
Qed.

(** ** Lookup is membership *)

Lemma plookup_elems t k v : wf_tree t -> plookup k t = Some v <-> (k, v) ∈ elems t.
Proof.
  induction 1 as [k' v' Hk|b p l r Hb Hp Hz Hl Hr _ IHl _ IHr]; simpl.
  - rewrite list_elem_of_singleton. case_bool_decide; naive_solver.
  - rewrite elem_of_app. destruct (prefix_matches p b k) eqn:Em.
    + destruct (Z.eqb_spec (bit_at k b) 0) as [E0|E0].
      * rewrite IHl. split; [by left|]. intros [?|Hin]; [done|].
        destruct (Hr _ _ Hin) as [_ E1]. lia.
      * rewrite IHr. split; [by right|]. intros [Hin|?]; [|done].
        destruct (Hl _ _ Hin) as [_ E1]. lia.
    + split; [done|]. intros Hin. exfalso.
      assert (agree_below b p k) as Ha by (destruct Hin as [Hin|Hin]; [by apply (Hl k v)|by apply (Hr k v)]).
      apply prefix_matches_iff in Ha. congruence.
Qed.

Lemma elems_functional t k v1 v2 :
  wf_tree t -> (k, v1) ∈ elems t -> (k, v2) ∈ elems t -> v1 = v2.
Proof. intros Hw. rewrite <- !plookup_elems by done. congruence. Qed.

(** ** Insertion *)

Lemma pmake_branch_spec d k v t :
  wf_tree t -> length k = 32%nat -> (d < 256)%nat ->
  (forall k' v', (k', v') ∈ elems t -> agree_below d k' k /\ bit_at k' d <> bit_at k d) ->
  wf_tree (pmake_branch d k t (PLeaf k v))
  /\ forall k' v', (k', v') ∈ elems (pmake_branch d k t (PLeaf k v))
       <-> (k' = k /\ v' = v) \/ (k' <> k /\ (k', v') ∈ elems t).
Proof.
  intros Hw Hk Hd Hall.
  assert (forall k' v', (k', v') ∈ elems t -> k' <> k) as Hne
    by (intros k' v' Hin ->; by destruct (Hall _ _ Hin)).
  assert (forall k', agree_below d k' k -> agree_below d (canonical_prefix k d) k') as Hpre.
  { intros k' Ha i Hi. rewrite bit_at_canonical_prefix by (done || lia).
    destruct (Nat.ltb_spec i d); [|lia]. symmetry. by apply Ha. }
  assert (forall i, (d <= i < 256)%nat -> bit_at (canonical_prefix k d) i = 0) as Hzero.
  { intros i Hi. rewrite bit_at_canonical_prefix by (done || lia).
    by destruct (Nat.ltb_spec i d); [lia|]. }
  assert (length (canonical_prefix k d) = 32%nat) as Hlen by (by rewrite length_canonical_prefix).
  assert (forall s, bit_at k d = s -> keys_ok d (canonical_prefix k d) s (PLeaf k v)) as Hleaf.
  { intros s Hs k' v' E%list_elem_of_singleton. injection E as -> ->. split; [by apply Hpre|done]. }
  assert (forall s, bit_at k d <> s -> s = 0 \/ s = 1 ->
    keys_ok d (canonical_prefix k d) s t) as Htree.
  { intros s Hs Hrange k' v' Hin. destruct (Hall _ _ Hin) as [Ha Hb]. split; [by apply Hpre|].
    destruct (bit_at_range k d), (bit_at_range k' d); lia. }
  unfold pmake_branch. destruct (Z.eqb_spec (bit_at k d) 0) as [E0|E0]; split.
  - constructor; try done; [by apply Hleaf|apply Htree; lia|by constructor].
  - intros k' v'. simpl. rewrite elem_of_cons. naive_solver.
  - destruct (bit_at_range k d); [done|].
    constructor; try done; [apply Htree; lia|by apply Hleaf|by constructor].
  - intros k' v'. simpl. rewrite elem_of_app, list_elem_of_singleton. naive_solver.
Qed.

(** All keys of a tree agree with its prefix below its bit. *)
Lemma branch_keys b p l r k v :
  wf_tree (PBranch b p l r) -> (k, v) ∈ elems (PBranch b p l r) -> agree_below b p k.
Proof.
  inversion 1 as [|? ? ? ? _ _ _ Hl Hr _ _]; subst. simpl.
  intros [Hin|Hin]%elem_of_app; [by apply (Hl k v)|by apply (Hr k v)].
Qed.

Lemma pinsert_spec t k v :
  wf_tree t -> length k = 32%nat ->
  wf_tree (pinsert k v t)
  /\ forall k' v', (k', v') ∈ elems (pinsert k v t)
       <-> (k' = k /\ v' = v) \/ (k' <> k /\ (k', v') ∈ elems t).
Proof.
  intros Hw Hk. induction Hw as [k0 v0 Hk0|b p l r Hb Hp Hz Hl Hr Hwl IHl Hwr IHr].
  - cbn [pinsert]. case_bool_decide as E.
    + subst. split; [by constructor|]. intros k' v'. simpl. rewrite !list_elem_of_singleton. naive_solver.
    + pose proof (first_differing_before_spec k0 k 256) as Hd.
      change (first_differing_bit_before k0 k 256) with (first_differing_bit k0 k) in Hd.
      destruct (first_differing_bit k0 k) as [d|].
      * destruct Hd as (Hd & Hne & Hag). apply pmake_branch_spec; [by constructor|done|done|].
        intros k' v' E'%list_elem_of_singleton. injection E' as -> ->. done.
      * exfalso. apply E. by apply key_ext.
  - pose proof (wf_pbranch b p l r Hb Hp Hz Hl Hr Hwl Hwr) as Hw.
    cbn [pinsert]. pose proof (first_differing_before_spec p k b) as Hd.
    destruct (first_differing_bit_before p k b) as [d|].
    + destruct Hd as (Hdb & Hne & Hag). apply pmake_branch_spec; [done|done|lia|].
      intros k' v' Hin. pose proof (branch_keys _ _ _ _ _ _ Hw Hin) as Hka. split.
      * intros i Hi. rewrite <- (Hka i) by lia. by apply Hag.
      * rewrite <- (Hka d) by lia. done.
    + destruct IHl as [Wl El], IHr as [Wr Er]. destruct (Z.eqb_spec (bit_at k b) 0) as [E0|E0].
      * split.
        { constructor; try done. intros k' v' Hin. apply El in Hin as [[-> ->]|[_ Hin]]; [done|].
          by apply (Hl k' v'). }
        intros k' v'. simpl. rewrite !elem_of_app, El. split; [|naive_solver].
        intros [Hin|Hin]; [naive_solver|]. right. split; [|by right]. intros ->.
        destruct (Hr _ _ Hin). lia.
      * destruct (bit_at_range k b) as [|E1]; [done|]. split.
        { constructor; try done. intros k' v' Hin. apply Er in Hin as [[-> ->]|[_ Hin]]; [done|].
          by apply (Hr k' v'). }
        intros k' v'. simpl. rewrite !elem_of_app, Er. split; [|naive_solver].
        intros [Hin|Hin]; [|naive_solver]. right. split; [|by left]. intros ->.
        destruct (Hl _ _ Hin). lia.
Qed.

Lemma plookup_pinsert t k v k' :
  wf_tree t -> length k = 32%nat ->
  plookup k' (pinsert k v t) = if bool_decide (k' = k) then Some v else plookup k' t.
Proof.
  intros Hw Hk. destruct (pinsert_spec t k v Hw Hk) as [Hw' He].
  apply option_eq. intros v'. rewrite plookup_elems, He by done.
  case_bool_decide as E; [|rewrite <- plookup_elems by done]; naive_solver.
Qed.

(** ** Removal *)

Definition opt_elems (o : option ptree) : list (bytes * ManifestRecord) :=
  match o with Some t => elems t | None => [] end.

Definition wf_opt (o : option ptree) : Prop :=
  match o with Some t => wf_tree t | None => True end.

(** What removal of [k] from [t] promises. *)
Definition removes (k : bytes) (t : ptree) (res : option ptree * bool) : Prop :=
  wf_opt res.1 /\ res.2 = bool_decide (is_Some (plookup k t))
  /\ (res.2 = false -> res.1 = Some t)
  /\ forall k' v', (k', v') ∈ opt_elems res.1 <-> k' <> k /\ (k', v') ∈ elems t.

(** Removal from the child [c] of [t], whose other child [o] does not hold [k]. *)
Lemma removes_side k t c o (mk : ptree -> ptree) :
  wf_tree t -> wf_tree o -> plookup k t = plookup k c ->
  (forall x, x ∈ elems t <-> x ∈ elems c \/ x ∈ elems o) ->
  (forall c' x, x ∈ elems (mk c') <-> x ∈ elems c' \/ x ∈ elems o) ->
  (forall c', wf_tree c' -> (forall x, x ∈ elems c' -> x ∈ elems c) -> wf_tree (mk c')) ->
  (forall k' v', (k', v') ∈ elems o -> k' <> k) ->
  removes k c (premove k c) ->
  removes k t (match premove k c with
               | (_, false) => (Some t, false)
               | (None, true) => (Some o, true)
               | (Some c', true) => (Some (mk c'), true)
               end).
Proof.
  intros Hwt Hwo Elook Et Emk Wmk Hko. unfold removes. rewrite Elook.
  destruct (premove k c) as [[c'|] [|]]; simpl; intros (Wc & Hrem & Hsame & Hel).
  - split_and!; [|done|done|].
    + apply Wmk; [done|]. intros [k' v'] Hin. by apply Hel in Hin as [_ ?].
    + intros k' v'. rewrite Emk, Et, Hel. naive_solver.
  - specialize (Hsame eq_refl). injection Hsame as ->. split_and!; [done|done|done|].
    intros k' v'. rewrite Et. split; [|naive_solver]. intros [Hin|Hin].
    + apply Hel in Hin as [? ?]. auto.
    + split; [by eapply Hko|by right].
  - split_and!; [done|done|done|]. intros k' v'. rewrite Et. split.
    + intros Hin. split; [by eapply Hko|by right].
    + intros [Hne [Hin|Hin]]; [|done]. exfalso.
      assert ((k', v') ∈ @nil (bytes * ManifestRecord)) as Hx by (by apply Hel). set_solver.
  - specialize (Hsame eq_refl). done.
Qed.

Lemma premove_spec t k : wf_tree t -> removes k t (premove k t).
Proof.
  induction 1 as [k0 v0 Hk0|b p l r Hb Hp Hz Hl Hr Hwl IHl Hwr IHr].
  - unfold removes. cbn [premove plookup]. case_bool_decide as E; cbn [fst snd opt_elems elems].
    + split_and!; [done|by rewrite bool_decide_true|done|]. intros k' v'.
      rewrite list_elem_of_singleton. subst. split; [set_solver|naive_solver].
    + split_and!; [by constructor|by rewrite bool_decide_false by (by intros [])|done|].
      intros k' v'. rewrite list_elem_of_singleton. naive_solver.
  - pose proof (wf_pbranch b p l r Hb Hp Hz Hl Hr Hwl Hwr) as Hw. cbn [premove].
    destruct (prefix_matches p b k) eqn:Em.
    2:{ unfold removes. cbn [plookup fst snd opt_elems]. rewrite Em.
        split_and!; [done|by rewrite bool_decide_false by (by intros [])|done|].
        intros k' v'. split; [|naive_solver]. intros Hin. split; [|done]. intros ->.
        pose proof (branch_keys _ _ _ _ _ _ Hw Hin) as Ha. apply prefix_matches_iff in Ha. congruence. }
    destruct (Z.eqb_spec (bit_at k b) 0) as [E0|E0].
    + apply (removes_side k _ l r (fun l' => PBranch b p l' r)); [done|done|..|exact IHl].
      * cbn [plookup]. by rewrite Em, E0.
      * intros x. apply elem_of_app.
      * intros c' x. apply elem_of_app.
      * intros c' Wc Hsub. constructor; try done. intros k' v' Hin. by apply (Hl k' v'), Hsub.
      * intros k' v' Hin ->. destruct (Hr _ _ Hin). lia.
    + apply (removes_side k _ r l (fun r' => PBranch b p l r')); [done|done|..|exact IHr].
      * cbn [plookup]. rewrite Em. by destruct (Z.eqb_spec (bit_at k b) 0).
      * intros x. rewrite (or_comm (x ∈ elems r)). apply elem_of_app.
      * intros c' x. rewrite (or_comm (x ∈ elems c')). apply elem_of_app.
      * intros c' Wc Hsub. constructor; try done. intros k' v' Hin. by apply (Hr k' v'), Hsub.
      * intros k' v' Hin ->. destruct (Hl _ _ Hin). lia.
Qed.

Definition olookup (k : bytes) (o : option ptree) : option ManifestRecord :=
  match o with Some t => plookup k t | None => None end.

Lemma olookup_elems o k v : wf_opt o -> olookup k o = Some v <-> (k, v) ∈ opt_elems o.
Proof. destruct o as [t|]; simpl; [apply plookup_elems|]. intros _. split; [done|set_solver]. Qed.

Lemma olookup_premove t k k' :
  wf_tree t ->
  olookup k' (premove k t).1 = if bool_decide (k' = k) then None else plookup k' t.
Proof.
  intros Hw. destruct (premove_spec t k Hw) as (Wo & _ & _ & He).
  apply option_eq. intros v. rewrite olookup_elems, He by done.
  case_bool_decide as E; [naive_solver|]. rewrite <- plookup_elems by done. naive_solver.
Qed.

(** ** Canonicity *)

Lemma branch_sides b p l r :
  wf_tree (PBranch b p l r) ->
  exists k1 v1 k2 v2, (k1, v1) ∈ elems (PBranch b p l r) /\ (k2, v2) ∈ elems (PBranch b p l r)
    /\ bit_at k1 b = 0 /\ bit_at k2 b = 1.
Proof.
  inversion 1 as [|? ? ? ? _ _ _ Hl Hr _ _]; subst.
  destruct (elems_nonempty l) as (k1 & v1 & H1), (elems_nonempty r) as (k2 & v2 & H2).
  exists k1, v1, k2, v2. simpl. rewrite !elem_of_app.
  split_and!; [by left|by right|by apply (Hl k1 v1)|by apply (Hr k2 v2)].
Qed.

(** The split bit of a tree is the first bit on which its keys differ. *)
Lemma branch_bit_le b1 p1 l1 r1 b2 p2 l2 r2 :
  wf_tree (PBranch b1 p1 l1 r1) -> wf_tree (PBranch b2 p2 l2 r2) ->
  (forall x, x ∈ elems (PBranch b1 p1 l1 r1) -> x ∈ elems (PBranch b2 p2 l2 r2)) ->
  (b2 <= b1)%nat.
Proof.
  intros H1 H2 Hsub. destruct (decide (b1 < b2)%nat) as [Hlt|]; [exfalso|lia].
  destruct (branch_sides _ _ _ _ H1) as (k1 & v1 & k2 & v2 & Hin1 & Hin2 & E1 & E2).
  pose proof (branch_keys _ _ _ _ _ _ H2 (Hsub _ Hin1)) as A1.
  pose proof (branch_keys _ _ _ _ _ _ H2 (Hsub _ Hin2)) as A2.
  specialize (A1 b1 Hlt). specialize (A2 b1 Hlt). lia.
Qed.

Lemma canonical_tree t1 t2 :
  wf_tree t1 -> wf_tree t2 -> (forall x, x ∈ elems t1 <-> x ∈ elems t2) -> t1 = t2.
Proof.
  intros H1. revert t2. induction H1 as [k v Hk|b p l r Hb Hp Hz Hl Hr Hwl IHl Hwr IHr];
    intros t2 H2 E.
  - destruct t2 as [k2 v2|b2 p2 l2 r2].
    + specialize (E (k, v)). simpl in E. rewrite !list_elem_of_singleton in E. naive_solver.
    + exfalso. destruct (branch_sides _ _ _ _ H2) as (k1 & v1 & k2 & v2 & Hin1 & Hin2 & E1 & E2).
      apply E, list_elem_of_singleton in Hin1, Hin2. injection Hin1 as -> ->.
      injection Hin2 as -> ->. lia.
  - pose proof (wf_pbranch b p l r Hb Hp Hz Hl Hr Hwl Hwr) as H1.
    destruct t2 as [k2 v2|b2 p2 l2 r2].
    + exfalso. destruct (branch_sides _ _ _ _ H1) as (k1 & v1 & k3 & v3 & Hin1 & Hin2 & E1 & E2).
      apply E, list_elem_of_singleton in Hin1, Hin2. injection Hin1 as -> ->.
      injection Hin2 as -> ->. lia.
    + assert (b = b2) as <-.
      { pose proof (branch_bit_le _ _ _ _ _ _ _ _ H1 H2 (fun x => proj1 (E x))).
        pose proof (branch_bit_le _ _ _ _ _ _ _ _ H2 H1 (fun x => proj2 (E x))). lia. }
      pose proof H2 as H2'. inversion H2' as [|? ? ? ? _ Hp2 Hz2 Hl2 Hr2 Hwl2 Hwr2]; subst.
      assert (p = p2) as <-.
      { destruct (elems_nonempty (PBranch b p l r)) as (k & v & Hin).
        pose proof (branch_keys _ _ _ _ _ _ H1 Hin) as A1.
        pose proof (branch_keys _ _ _ _ _ _ H2 (proj1 (E _) Hin)) as A2.
        apply key_ext; [done|done|]. intros i Hi. destruct (decide (i < b)%nat).
        - rewrite (A1 i), (A2 i) by lia. done.
        - rewrite Hz, Hz2 by lia. done. }
      assert (forall x, x ∈ elems l <-> x ∈ elems l2) as El.
      { intros [k v]. specialize (E (k, v)). simpl in E. rewrite !elem_of_app in E. split; intros Hin.
        - destruct (proj1 E (or_introl Hin)) as [|Hin']; [done|].
          destruct (Hl _ _ Hin), (Hr2 _ _ Hin'). lia.
        - destruct (proj2 E (or_introl Hin)) as [|Hin']; [done|].
          destruct (Hl2 _ _ Hin), (Hr _ _ Hin'). lia. }
      assert (forall x, x ∈ elems r <-> x ∈ elems r2) as Er.
      { intros [k v]. specialize (E (k, v)). simpl in E. rewrite !elem_of_app in E. split; intros Hin.
        - destruct (proj1 E (or_intror Hin)) as [Hin'|]; [|done].
          destruct (Hr _ _ Hin), (Hl2 _ _ Hin'). lia.
        - destruct (proj2 E (or_intror Hin)) as [Hin'|]; [|done].
          destruct (Hr2 _ _ Hin), (Hl _ _ Hin'). lia. }
      by rewrite (IHl l2 Hwl2 El), (IHr r2 Hwr2 Er).
Qed.

Lemma canonical_opt o1 o2 :
  wf_opt o1 -> wf_opt o2 -> (forall k, olookup k o1 = olookup k o2) -> o1 = o2.
Proof.
  intros H1 H2 E.
  assert (forall x, x ∈ opt_elems o1 <-> x ∈ opt_elems o2) as Ee.
  { intros [k v]. by rewrite <- !olookup_elems, E by done. }
  destruct o1 as [t1|], o2 as [t2|]; simpl in *; [f_equal; by apply canonical_tree|..|done].
  - destruct (elems_nonempty t1) as (k & v & Hin%Ee). set_solver.
  - destruct (elems_nonempty t2) as (k & v & Hin%Ee). set_solver.
Qed.
