(* ===== verification/PatriciaEditor.v ===== *)
(** The incremental editor of the identity map,
    [crates/sync-store/src/content/manifest_map.rs]: a content-addressed node
    store behind a cache, edited by path copying.  On a stored tree the editor
    computes exactly the operations of the pure tree of [PatriciaTree], so its
    contents are those of a finite map and its root does not depend on the
    history of edits. *)

From stdpp Require Import base list numbers sets sorting gmap strings options.
From Stdlib Require Import ZArith Lia.
From S2P Require Import Prelude RustStd EntryType Wire Tree Manifest PatriciaMap PatriciaTree.

Open Scope Z_scope.

(** The mutable fields of [ManifestMapEditor]. *)
Record Editor := {
  ed_root : option bytes;
  cache : gmap bytes ManifestMapNode;
  created : gmap bytes bytes;
}.

(** A method of the editor: its result, and the editor afterwards, also when it
    fails. *)
Definition Ed (A : Type) : Type := Editor -> res A * Editor.

#[export] Instance Ed_ret : MRet Ed := fun A a ed => (Ok a, ed).
#[export] Instance Ed_bind : MBind Ed := fun A B k m ed =>
  match m ed with
  | (Ok a, ed) => k a ed
  | (Err e, ed) => (Err e, ed)
  | (Panic, ed) => (Panic, ed)
  end.

Definition ed_lift {A} (m : res A) : Ed A := fun ed => (m, ed).

(** The recursion follows branch bits, which increase along a path of a
    well-formed map: at most 256 branches and a leaf.  A deeper recursion
    counts as a crash. *)
Definition MAP_DEPTH : nat := 257.

Section Editor.
Context `{Blake3}.
(** The caller-supplied loader of immutable objects. *)
Variable loader : bytes -> res bytes.

Definition editor_new (root : option bytes) : Editor :=
  {| ed_root := root; cache := ∅; created := ∅ |}.

Definition get_cached (hash : bytes) : Ed (option ManifestMapNode) := fun ed =>
  (Ok (cache ed !! hash), ed).
Definition get_created (hash : bytes) : Ed (option bytes) := fun ed =>
  (Ok (created ed !! hash), ed).
(** [cache.insert]. *)
Definition put_cached (hash : bytes) (node : ManifestMapNode) : Ed unit := fun ed =>
  (Ok tt, {| ed_root := ed_root ed; cache := <[hash := node]> (cache ed);
             created := created ed |}).
(** [created.entry(hash).or_insert(b)]. *)
Definition put_created (hash b : bytes) : Ed unit := fun ed =>
  (Ok tt, {| ed_root := ed_root ed; cache := cache ed;
             created := match created ed !! hash with
                        | Some _ => created ed
                        | None => <[hash := b]> (created ed)
                        end |}).

Definition load (hash : bytes) : Ed ManifestMapNode :=
  cached ← get_cached hash;
  match cached with
  | Some node => mret node
  | None =>
      c ← get_created hash;
      b ← ed_lift (match c with Some b => Ok b | None => loader hash end);
      if bool_decide (of_bytes b = hash) then
        node ← ed_lift (node_decode b);
        _ ← put_cached hash node;
        mret node
      else ed_lift (Err (MismatchedObject hash))
  end.

Definition store (node : ManifestMapNode) : Ed bytes :=
  b ← ed_lift (node_encode node);
  let hash := of_bytes b in
  _ ← put_created hash b;
  _ ← put_cached hash node;
  mret hash.

Definition make_branch (bit : nat) (new_key existing_hash new_hash : bytes) : Ed bytes :=
  let prefix := canonical_prefix new_key bit in
  let '(lft, rgt) :=
    if bit_at new_key bit =? 0 then (new_hash, existing_hash) else (existing_hash, new_hash) in
  store (Branch (Z.of_nat bit) prefix lft rgt).

Fixpoint insert_at (fuel : nat) (current_hash key : bytes) (record : ManifestRecord) : Ed bytes :=
  match fuel with
  | O => ed_lift Panic
  | S fuel =>
      current ← load current_hash;
      match current with
      | Leaf existing_key existing =>
          if bool_decide (existing_key = key) then
            if bool_decide (existing = record) then mret current_hash
            else store (Leaf key record)
          else
            differing ← ed_lift (match first_differing_bit existing_key key with
                                 | Some d => Ok d | None => Panic end);
            new_leaf ← store (Leaf key record);
            make_branch differing key current_hash new_leaf
      | Branch bit prefix lft rgt =>
          let bit_index := Z.to_nat bit in
          match first_differing_bit_before prefix key bit_index with
          | Some differing =>
              new_leaf ← store (Leaf key record);
              make_branch differing key current_hash new_leaf
          | None =>
              next ← (if bit_at key bit_index =? 0 then insert_at fuel lft key record
                      else insert_at fuel rgt key record);
              if bit_at key bit_index =? 0 then
                if bool_decide (next = lft) then mret current_hash
                else store (Branch bit prefix next rgt)
              else
                if bool_decide (next = rgt) then mret current_hash
                else store (Branch bit prefix lft next)
          end
      end
  end.

Fixpoint remove_at (fuel : nat) (current_hash key : bytes) : Ed (option bytes * bool) :=
  match fuel with
  | O => ed_lift Panic
  | S fuel =>
      current ← load current_hash;
      match current with
      | Leaf existing_key _ =>
          if bool_decide (existing_key = key) then mret (None, true)
          else mret (Some current_hash, false)
      | Branch bit prefix lft rgt =>
          let bit_index := Z.to_nat bit in
          if prefix_matches prefix bit_index key then
            if bit_at key bit_index =? 0 then
              r ← remove_at fuel lft key;
              match r with
              | (_, false) => mret (Some current_hash, false)
              | (None, true) => mret (Some rgt, true)
              | (Some new_left, true) =>
                  h ← store (Branch bit prefix new_left rgt); mret (Some h, true)
              end
            else
              r ← remove_at fuel rgt key;
              match r with
              | (_, false) => mret (Some current_hash, false)
              | (None, true) => mret (Some lft, true)
              | (Some new_right, true) =>
                  h ← store (Branch bit prefix lft new_right); mret (Some h, true)
              end
          else mret (Some current_hash, false)
      end
  end.

(** The loop of [lookup]. *)
Fixpoint lookup_at (fuel : nat) (cursor key : bytes) : Ed (option ManifestRecord) :=
  match fuel with
  | O => ed_lift Panic
  | S fuel =>
      node ← load cursor;
      match node with
      | Leaf leaf_key record => mret (if bool_decide (leaf_key = key) then Some record else None)
      | Branch bit prefix lft rgt =>
          let bit_index := Z.to_nat bit in
          if prefix_matches prefix bit_index key
          then lookup_at fuel (if bit_at key bit_index =? 0 then lft else rgt) key
          else mret None
      end
  end.

Definition set_root (root : option bytes) : Ed unit := fun ed =>
  (Ok tt, {| ed_root := root; cache := cache ed; created := created ed |}).
Definition count_created : Ed nat := fun ed => (Ok (size (created ed)), ed).
Definition get_root : Ed (option bytes) := fun ed => (Ok (ed_root ed), ed).

Definition lookup_id (id : bytes) : Ed (option ManifestRecord) :=
  root ← get_root;
  match root with
  | Some cursor => lookup_at MAP_DEPTH cursor (manifest_key id)
  | None => mret None
  end.

Definition upsert (record : ManifestRecord) : Ed unit :=
  let key := manifest_key (record_node_id record) in
  root ← get_root;
  root ← match root with
         | Some root => insert_at MAP_DEPTH root key record
         | None => store (Leaf key record)
         end;
  set_root (Some root).

Definition remove_id (id : bytes) : Ed bool :=
  root ← get_root;
  match root with
  | None => mret false
  | Some root =>
      r ← remove_at MAP_DEPTH root (manifest_key id);
      _ ← set_root r.1;
      mret r.2
  end.

(** The [while let Some(hash) = stack.pop()] loop of [finish]; [seen] and the
    stack hold hashes, a created node pushes its two children. *)
Fixpoint finish_loop (fuel : nat) (stack : list bytes) (seen : gset bytes)
    (reachable : gmap bytes bytes) : Ed (gmap bytes bytes) :=
  match stack with
  | [] => mret reachable
  | hash :: stack =>
      match fuel with
      | O => ed_lift Panic
      | S fuel =>
          if bool_decide (hash ∈ seen) then finish_loop fuel stack seen reachable else
          let seen := {[hash]} ∪ seen in
          c ← get_created hash;
          match c with
          | None => finish_loop fuel stack seen reachable
          | Some b =>
              node ← load hash;
              let reachable := <[hash := b]> reachable in
              match node with
              | Branch _ _ lft rgt => finish_loop fuel (lft :: rgt :: stack) seen reachable
              | Leaf _ _ => finish_loop fuel stack seen reachable
              end
          end
      end
  end.

(** [finish]: every turn pops a hash and at most the created ones push two. *)
Definition finish : Ed (bytes * gmap bytes bytes) :=
  root ← get_root;
  match root with
  | None => ed_lift (Err EmptyMap)
  | Some root =>
      n ← count_created;
      out ← finish_loop (2 * n + 1) [root] ∅ ∅;
      mret (root, out)
  end.
End Editor.

Definition record_cmp : ManifestRecord -> ManifestRecord -> comparison :=
  cmp_on record_node_id bytes_cmp.
Definition same_record_node (a b : ManifestRecord) : bool :=
  bool_decide (record_node_id a = record_node_id b).

Definition absent_loader (hash : bytes) : res bytes := Err (MissingObject hash).

Fixpoint upsert_all `{Blake3} (loader : bytes -> res bytes) (rs : list ManifestRecord) : Ed unit :=
  match rs with
  | [] => mret tt
  | r :: rs => _ ← upsert loader r; upsert_all loader rs
  end.

Definition build_manifest_map `{Blake3} (records : list ManifestRecord)
  : res (bytes * gmap bytes bytes) :=
  let ordered := sort_by record_cmp records in
  match find_pair same_record_node ordered with
  | Some (a, _) => Err (DuplicateNodeId (record_node_id a))
  | None => (( _ ← upsert_all absent_loader ordered; finish absent_loader) (editor_new None)).1
  end.

(** * What the editor stores

    The node, bytes and hash of a pure tree; a branch refers to its children by
    hash. *)

Section Stored.
Context `{Blake3}.

Definition enc (n : ManifestMapNode) : bytes := unwrap_or [] (node_encode n).

Fixpoint phash (t : ptree) : bytes :=
  match t with
  | PLeaf k r => of_bytes (enc (Leaf k r))
  | PBranch b p l r => of_bytes (enc (Branch (Z.of_nat b) p (phash l) (phash r)))
  end.

Definition pnode (t : ptree) : ManifestMapNode :=
  match t with
  | PLeaf k r => Leaf k r
  | PBranch b p l r => Branch (Z.of_nat b) p (phash l) (phash r)
  end.

Definition pbytes (t : ptree) : bytes := enc (pnode t).

Lemma phash_pbytes t : phash t = of_bytes (pbytes t).
Proof. by destruct t. Qed.

(** A record the map can hold: valid, and within the lengths its encoding can
    write. *)
Definition storable (r : ManifestRecord) : Prop :=
  wf_record r = true /\ valid_record r /\ is_ok (encode_record_into r) = true.

Definition leaf_ok (k : bytes) (r : ManifestRecord) : Prop :=
  k = manifest_key (record_node_id r) /\ storable r.

Fixpoint leaves_ok (t : ptree) : Prop :=
  match t with
  | PLeaf k r => leaf_ok k r
  | PBranch _ _ l r => leaves_ok l /\ leaves_ok r
  end.

Fixpoint subtrees (t : ptree) : list ptree :=
  t :: match t with PLeaf _ _ => [] | PBranch _ _ l r => subtrees l ++ subtrees r end.

(** No two of these byte strings collide. *)
Definition collision_free (bs : list bytes) : Prop :=
  Forall (fun a => Forall (fun b => of_bytes a = of_bytes b -> a = b) bs) bs.

Lemma subtrees_self t : t ∈ subtrees t.
Proof. destruct t; simpl; apply elem_of_cons; by left. Qed.

Lemma subtrees_trans s t u : s ∈ subtrees t -> t ∈ subtrees u -> s ∈ subtrees u.
Proof.
  intros Hs. induction u as [k r|b p l IHl r IHr]; simpl; rewrite ?elem_of_cons, ?elem_of_app.
  - intros [->|Hx]; [by apply elem_of_cons in Hs|]. by apply not_elem_of_nil in Hx.
  - intros [->|[Hx|Hx]]; [by apply elem_of_cons in Hs as [->|?%elem_of_app]; auto|..]; auto.
Qed.

(** ** Injectivity of hashes within a collision-free universe *)

Variable U : list bytes.
Hypothesis free : collision_free U.
#[local] Set Default Proof Using "Type*".

(** A well-formed tree of valid records, all of whose encodings are in [U]. *)
Definition ok_tree (t : ptree) : Prop :=
  wf_tree t /\ leaves_ok t /\ forall s, s ∈ subtrees t -> pbytes s ∈ U.

Lemma ok_branch b p l r : ok_tree (PBranch b p l r) -> ok_tree l /\ ok_tree r.
Proof.
  intros (Hw & [Hl Hr] & Hu). inversion Hw; subst.
  split; (split_and!; [done|done|]); intros s Hs; apply Hu; simpl;
    rewrite elem_of_cons, elem_of_app; auto.
Qed.

Lemma ok_sub s t : ok_tree t -> s ∈ subtrees t -> ok_tree s.
Proof.
  induction t as [k r|b p l IHl r IHr]; intros Hok; simpl; rewrite elem_of_cons.
  - intros [->|Hx]; [done|]. by apply not_elem_of_nil in Hx.
  - destruct (ok_branch _ _ _ _ Hok). rewrite elem_of_app. intros [->|[?|?]]; auto.
Qed.

Lemma free_inj a b : a ∈ U -> b ∈ U -> of_bytes a = of_bytes b -> a = b.
Proof. intros Ha Hb. pose proof free as F. unfold collision_free in F. rewrite Forall_forall in F.
  specialize (F a Ha). rewrite Forall_forall in F. by apply F. Qed.

Lemma enc_leaf k r : storable r -> node_encode (Leaf k r) = Ok (enc (Leaf k r)).
Proof.
  intros (_ & _ & Ho). unfold enc. simpl. by destruct (encode_record_into r).
Qed.

Lemma enc_ok t : ok_tree t -> node_encode (pnode t) = Ok (pbytes t).
Proof. destruct t as [k r|]; [|done]. intros (_ & [_ Hr] & _). by apply enc_leaf. Qed.

Lemma enc_inj n m :
  valid_node n -> valid_node m -> node_encode n = Ok (enc n) -> node_encode m = Ok (enc m) ->
  enc n = enc m -> n = m.
Proof.
  intros Hn Hm En Em E. apply node_decode_encoded in En, Em; [|done..]. rewrite E in En.
  congruence.
Qed.

Lemma leaf_valid k r : leaf_ok k r -> valid_node (Leaf k r).
Proof. intros (Hk & Hw & Hv & _). done. Qed.

Lemma branch_valid b p l r :
  wf_tree (PBranch b p l r) -> phash l <> phash r -> valid_node (pnode (PBranch b p l r)).
Proof.
  inversion 1 as [|? ? ? ? Hb Hp Hz _ _ _ _]; subst. intros Hne. simpl.
  rewrite Nat2Z.id, !phash_pbytes in *. unfold wf_hash, of_bytes in *.
  rewrite !bool_decide_true by apply blake3_len.
  split_and!; [lia|lia|done|done|done|by apply prefix_zero_iff|done].
Qed.

Lemma sides_differ b p l r : wf_tree (PBranch b p l r) -> l <> r.
Proof.
  inversion 1 as [|? ? ? ? _ _ _ Hl Hr _ _]; subst. intros ->.
  destruct (elems_nonempty r) as (k & v & Hin). destruct (Hl _ _ Hin), (Hr _ _ Hin). lia.
Qed.

Fixpoint tsize (t : ptree) : nat :=
  match t with PLeaf _ _ => 1 | PBranch _ _ l r => S (tsize l + tsize r) end.

Lemma phash_inj_sized n t1 t2 :
  (tsize t1 + tsize t2 < n)%nat -> ok_tree t1 -> ok_tree t2 -> phash t1 = phash t2 -> t1 = t2.
Proof.
  revert t1 t2. induction n as [|n IH]; intros t1 t2 Hn H1 H2 E; [lia|].
  assert (forall t, (tsize t < n)%nat -> ok_tree t -> valid_node (pnode t)) as Hval.
  { intros [k r|b p l r] Hs Ht.
    - destruct Ht as (_ & Ht & _). by apply leaf_valid.
    - destruct (ok_branch _ _ _ _ Ht) as [Hl Hr]. destruct Ht as [Hw _].
      apply branch_valid; [done|]. intros Eh. apply (sides_differ _ _ _ _ Hw).
      apply IH; [simpl in Hs; lia|done..]. }
  assert (forall t, (1 <= tsize t)%nat) as Hpos by (intros []; simpl; lia).
  pose proof (Hpos t1). pose proof (Hpos t2).
  rewrite !phash_pbytes in E. apply free_inj in E; [|apply H1, subtrees_self|apply H2, subtrees_self].
  apply enc_inj in E; [|apply Hval; [lia|done]|apply Hval; [lia|done]|by apply enc_ok|by apply enc_ok].
  destruct t1 as [k1 r1|b1 p1 l1 r1], t2 as [k2 r2|b2 p2 l2 r2]; simpl in E; try congruence.
  destruct (ok_branch _ _ _ _ H1), (ok_branch _ _ _ _ H2). simpl in Hn.
  injection E as Eb Ep El Er. apply Nat2Z.inj in Eb. subst.
  apply IH in El, Er; [congruence|lia|done|done|lia|done|done].
Qed.

Lemma phash_inj t1 t2 : ok_tree t1 -> ok_tree t2 -> phash t1 = phash t2 -> t1 = t2.
Proof. apply (phash_inj_sized (S (tsize t1 + tsize t2))). lia. Qed.

Lemma pnode_valid t : ok_tree t -> valid_node (pnode t).
Proof.
  destruct t as [k r|b p l r]; intros Ht; [destruct Ht as (_ & Ht & _); by apply leaf_valid|].
  destruct (ok_branch _ _ _ _ Ht) as [Hl Hr]. destruct Ht as [Hw _].
  apply branch_valid; [done|]. intros E. by apply (sides_differ _ _ _ _ Hw), phash_inj.
Qed.

(** ** The editor's store *)

Variable loader : bytes -> res bytes.

(** Every node below [t] can be loaded from the caller's store. *)
Definition durable (t : ptree) : Prop :=
  forall s, s ∈ subtrees t -> loader (phash s) = Ok (pbytes s).

(** [load h] returns [n]. *)
Definition backed (ed : Editor) (h : bytes) (n : ManifestMapNode) : Prop :=
  cache ed !! h = Some n
  \/ (cache ed !! h = None
      /\ exists b, match created ed !! h with Some b' => Ok b' | None => loader h end = Ok b
                   /\ of_bytes b = h /\ node_decode b = Ok n).

Definition stored (ed : Editor) (t : ptree) : Prop :=
  forall s, s ∈ subtrees t ->
    backed ed (phash s) (pnode s) /\ (is_Some (created ed !! phash s) \/ durable s).

(** The new objects are addressed by their hash. *)
Definition created_ok (ed : Editor) : Prop :=
  forall h b, created ed !! h = Some b -> of_bytes b = h /\ b ∈ U.

(** What every internal step keeps. *)
Definition ext (ed ed' : Editor) : Prop :=
  ed_root ed' = ed_root ed
  /\ (forall s, ok_tree s -> stored ed s -> stored ed' s)
  /\ (created_ok ed -> created_ok ed').

#[local] Instance ext_preorder : PreOrder ext.
Proof.
  split; [by intros ed|]. intros e1 e2 e3 (R1 & S1 & C1) (R2 & S2 & C2). split_and!; [congruence|auto|auto].
Qed.

Lemma stored_branch ed b p l r : stored ed (PBranch b p l r) -> stored ed l /\ stored ed r.
Proof.
  intros Hs. split; intros s Hin; apply Hs; simpl; rewrite elem_of_cons, elem_of_app; auto.
Qed.

(** [load] only fills the cache. *)
Lemma load_spec ed t :
  stored ed t ->
  exists ed', load loader (phash t) ed = (Ok (pnode t), ed') /\ ext ed ed' /\ created ed' = created ed.
Proof.
  intros Hs. destruct (Hs t (subtrees_self t)) as [Hb _]. unfold load.
  cbv [mbind Ed_bind get_cached get_created ed_lift mret Ed_ret].
  destruct Hb as [Ec|(Ec & b & El & Eh & Ed)]; rewrite Ec; [by exists ed|].
  rewrite El, bool_decide_true, Ed by done.
  eexists. split; [done|]. split; [|done]. split_and!; [done| |done].
  intros s _ Hst s' Hs'. destruct (Hst s' Hs') as [Hb Hc]. split; [|done]. unfold backed. simpl.
  destruct (decide (phash t = phash s')) as [E|Hne]; [|by rewrite lookup_insert_ne by done].
  rewrite E, lookup_insert_eq. left. rewrite <- E in Hb.
  destruct Hb as [Hb|(_ & b' & El' & _ & Ed')]; congruence.
Qed.

(** [store] makes the node of [t] available, once its children are. *)
Lemma store_spec ed t :
  ok_tree t ->
  match t with PLeaf _ _ => True | PBranch _ _ l r => stored ed l /\ stored ed r end ->
  exists ed', store (pnode t) ed = (Ok (phash t), ed') /\ ext ed ed' /\ stored ed' t.
Proof.
  intros Ht Hch. pose proof (phash_pbytes t) as Eh. unfold store.
  cbv [mbind Ed_bind ed_lift mret Ed_ret put_created put_cached]. rewrite (enc_ok t Ht).
  rewrite <- Eh. eexists. split; [done|].
  match goal with |- ext ed ?e /\ _ => set (ed' := e) end.
  assert (is_Some (created ed' !! phash t)) as Hin.
  { subst ed'. simpl. destruct (created ed !! phash t) eqn:E; [by rewrite E|].
    by rewrite lookup_insert_eq. }
  assert (cache ed' !! phash t = Some (pnode t)) as Hca by (apply lookup_insert_eq).
  assert (forall h, h <> phash t -> cache ed' !! h = cache ed !! h
    /\ created ed' !! h = created ed !! h) as Hother.
  { intros h Hne. subst ed'. simpl. split; [by rewrite lookup_insert_ne|].
    destruct (created ed !! phash t); [done|by rewrite lookup_insert_ne]. }
  assert (ext ed ed') as Hext.
  { split_and!; [done| |].
    - intros s Hok Hs s' Hs'. destruct (Hs s' Hs') as [Hb Hc].
      destruct (decide (phash s' = phash t)) as [E|Hne].
      + apply phash_inj in E; [|by eapply ok_sub|done]. subst s'. split; [by left|by left].
      + destruct (Hother _ Hne) as [E1 E2]. unfold backed. by rewrite E1, E2.
    - intros Hc h b. destruct (decide (h = phash t)) as [->|Hne].
      + subst ed'. simpl. destruct (created ed !! phash t) eqn:E; [by apply Hc|].
        rewrite lookup_insert_eq. intros [= <-]. split; [done|]. apply Ht, subtrees_self.
      + destruct (Hother _ Hne) as [_ ->]. apply Hc. }
  split; [done|]. intros s Hs. destruct t as [k r|b p l r]; simpl in Hs; apply elem_of_cons in Hs.
  - destruct Hs as [->|Hs]; [|by apply not_elem_of_nil in Hs]. split; by left.
  - destruct Hs as [->|Hs%elem_of_app]; [split; by left|].
    destruct (ok_branch _ _ _ _ Ht) as [Hol Hor], Hch as [Hl Hr], Hext as (_ & Hst & _).
    destruct Hs as [Hs|Hs]; [by apply (Hst l)|by apply (Hst r)].
Qed.

(** ** Depth *)

Fixpoint depth (t : ptree) : nat :=
  match t with PLeaf _ _ => 1 | PBranch _ _ l r => S (Nat.max (depth l) (depth r)) end.

(** Branch bits increase along every path. *)
Lemma child_bit b p side b' p' l' r' :
  keys_ok b p side (PBranch b' p' l' r') -> wf_tree (PBranch b' p' l' r') -> (b < b')%nat.
Proof.
  intros Hk Hw. destruct (branch_sides _ _ _ _ Hw) as (k1 & v1 & k2 & v2 & H1 & H2 & E1 & E2).
  destruct (Hk _ _ H1) as [A1 S1], (Hk _ _ H2) as [A2 S2].
  destruct (Nat.lt_trichotomy b b') as [|[->|Hlt]]; [done|lia|].
  specialize (A1 b' Hlt). specialize (A2 b' Hlt). lia.
Qed.

Lemma depth_bit t :
  wf_tree t -> match t with PLeaf _ _ => True | PBranch b _ _ _ => (depth t + b <= 257)%nat end.
Proof.
  induction 1 as [|b p l r Hb Hp Hz Hl Hr Hwl IHl Hwr IHr]; [done|].
  assert (forall t side, wf_tree t -> keys_ok b p side t ->
    match t with PLeaf _ _ => True | PBranch b _ _ _ => (depth t + b <= 257)%nat end ->
    (depth t + b <= 256)%nat) as Hc.
  { intros [|b' p' l' r'] side Hw Hk Hd; [simpl; lia|].
    pose proof (child_bit _ _ _ _ _ _ _ Hk Hw). lia. }
  pose proof (Hc l 0 Hwl Hl IHl). pose proof (Hc r 1 Hwr Hr IHr). simpl. lia.
Qed.

Lemma depth_bound t : wf_tree t -> (depth t <= MAP_DEPTH)%nat.
Proof.
  intros Hw. pose proof (depth_bit t Hw). unfold MAP_DEPTH. destruct t; [simpl|]; lia.
Qed.

(** ** The recursive operations follow the pure tree *)

Lemma ed_step {A B} (m : Ed A) (k : A -> Ed B) ed a ed' :
  m ed = (Ok a, ed') -> (m ≫= k) ed = k a ed'.
Proof using. unfold mbind, Ed_bind. by intros ->. Qed.

(** The recursion computes [t'] from the editor [ed]. *)
Definition computes (m : Ed bytes) (ed : Editor) (t' : ptree) : Prop :=
  exists ed', m ed = (Ok (phash t'), ed') /\ ext ed ed' /\ stored ed' t'.

Lemma computes_step {A} (m : Ed A) (k : A -> Ed bytes) ed a ed1 t' :
  m ed = (Ok a, ed1) -> ext ed ed1 -> computes (k a) ed1 t' -> computes (m ≫= k) ed t'.
Proof.
  intros Hm He (ed2 & Hk & He2 & Hs). exists ed2. rewrite (ed_step _ _ _ _ _ Hm).
  split_and!; [done|by etransitivity|done].
Qed.

Lemma computes_ret ed t : stored ed t -> computes (mret (phash t)) ed t.
Proof. intros Hs. by exists ed. Qed.

Lemma pbranch_leaf d k t v : PLeaf k v ∈ subtrees (pmake_branch d k t (PLeaf k v)).
Proof using.
  unfold pmake_branch. destruct (_ =? 0); simpl; rewrite ?elem_of_cons, ?elem_of_app, ?elem_of_cons;
    auto.
Qed.

Lemma split_computes d k t v ed :
  (d < 256)%nat -> ok_tree t -> ok_tree (pmake_branch d k t (PLeaf k v)) -> stored ed t ->
  computes (new_leaf ← store (Leaf k v); make_branch d k (phash t) new_leaf) ed
    (pmake_branch d k t (PLeaf k v)).
Proof.
  intros Hd Ht Hok Hs.
  pose proof (ok_sub _ _ Hok (pbranch_leaf d k t v)) as Hleaf.
  destruct (store_spec ed (PLeaf k v) Hleaf I) as (ed1 & E1 & X1 & S1).
  eapply computes_step; [exact E1|done|]. destruct X1 as (_ & X1 & _). specialize (X1 t Ht Hs).
  unfold make_branch, computes. revert Hok. unfold pmake_branch.
  destruct (bit_at k d =? 0); intros Hok; apply (store_spec ed1 (PBranch d _ _ _) Hok); by split.
Qed.

Lemma insert_at_spec fuel t k v ed :
  (depth t <= fuel)%nat -> length k = 32%nat -> ok_tree t -> ok_tree (pinsert k v t) -> stored ed t ->
  computes (insert_at loader fuel (phash t) k v) ed (pinsert k v t).
Proof.
  revert t ed. induction fuel as [|fuel IH]; intros t ed Hf Hk Ht Ht' Hs; [destruct t; simpl in Hf; lia|].
  destruct (load_spec ed t Hs) as (ed1 & E1 & X1 & _). cbn [insert_at].
  eapply computes_step; [exact E1|done|]. clear E1.
  assert (stored ed1 t) as Hs1 by (by apply X1). clear X1 Hs.
  destruct t as [k0 v0|b p l r]; cbn [pnode pinsert] in *.
  - pose proof (first_differing_before_spec k0 k 256) as Hd.
    change (first_differing_bit_before k0 k 256) with (first_differing_bit k0 k) in Hd.
    case_bool_decide as Ek; [subst k0|].
    + case_bool_decide as Ev; [subst v0; by apply computes_ret|].
      apply (store_spec ed1 (PLeaf k v) Ht' I).
    + destruct (first_differing_bit k0 k) as [d|].
      * eapply computes_step; [reflexivity|done|]. destruct Hd as (Hd & _).
        by apply (split_computes d k (PLeaf k0 v0) v ed1).
      * exfalso. apply Ek. apply key_ext; [by destruct Ht as [Hw _]; inversion Hw|done|done].
  - rewrite Nat2Z.id. pose proof (first_differing_before_spec p k b) as Hd.
    destruct (first_differing_bit_before p k b) as [d|].
    + assert (d < 256)%nat by (destruct Ht as [Hw _]; inversion Hw; lia).
      by apply (split_computes d k (PBranch b p l r) v ed1).
    + destruct (ok_branch _ _ _ _ Ht) as [Hl Hr], (stored_branch _ _ _ _ _ Hs1) as [Sl Sr].
      simpl in Hf. destruct (bit_at k b =? 0).
      * destruct (ok_branch _ _ _ _ Ht') as [Hl' _].
        destruct (IH l ed1 ltac:(lia) Hk Hl Hl' Sl) as (ed2 & E2 & X2 & S2).
        eapply computes_step; [exact E2|done|].
        case_bool_decide as Eh.
        { apply phash_inj in Eh; [|done..]. rewrite Eh.
          apply (computes_ret ed2 (PBranch b p l r)). by apply X2. }
        apply (store_spec ed2 (PBranch b p (pinsert k v l) r) Ht'). split; [done|]. by apply X2.
      * destruct (ok_branch _ _ _ _ Ht') as [_ Hr'].
        destruct (IH r ed1 ltac:(lia) Hk Hr Hr' Sr) as (ed2 & E2 & X2 & S2).
        eapply computes_step; [exact E2|done|].
        case_bool_decide as Eh.
        { apply phash_inj in Eh; [|done..]. rewrite Eh.
          apply (computes_ret ed2 (PBranch b p l r)). by apply X2. }
        apply (store_spec ed2 (PBranch b p l (pinsert k v r)) Ht'). split; [|done]. by apply X2.
Qed.

(** The root after removal, and whether the key was there. *)
Definition ohash (o : option ptree) : option bytes := phash <$> o.
Definition ostored (ed : Editor) (o : option ptree) : Prop :=
  match o with Some t => stored ed t | None => True end.
Definition ok_opt (o : option ptree) : Prop := match o with Some t => ok_tree t | None => True end.

Definition removes_to (m : Ed (option bytes * bool)) (ed : Editor) (out : option ptree * bool) : Prop :=
  exists ed', m ed = (Ok (ohash out.1, out.2), ed') /\ ext ed ed' /\ ostored ed' out.1.

(** One level of removal: [t] has the child [c], which removal turns into
    [out], and the sibling [o]; [mk] rebuilds the branch. *)
Lemma removes_to_child (m : Ed (option bytes * bool)) ed t o out (mk : ptree -> ptree)
    (mkn : bytes -> ManifestMapNode) (up : option ptree * bool) :
  up = match out with
       | (_, false) => (Some t, false)
       | (None, true) => (Some o, true)
       | (Some c', true) => (Some (mk c'), true)
       end ->
  (forall c', mkn (phash c') = pnode (mk c')) ->
  (forall ed c', stored ed c' -> stored ed o ->
     match mk c' with PLeaf _ _ => True | PBranch _ _ l r => stored ed l /\ stored ed r end) ->
  ok_tree t -> ok_tree o -> ok_opt up.1 -> stored ed t -> stored ed o ->
  removes_to m ed out ->
  removes_to (r ← m;
              match r with
              | (_, false) => mret (Some (phash t), false)
              | (None, true) => mret (Some (phash o), true)
              | (Some c', true) => h ← store (mkn c'); mret (Some h, true)
              end) ed up.
Proof.
  intros -> Hn Hch Ht Ho Hok St So (ed2 & E2 & X2 & S2). unfold removes_to.
  rewrite (ed_step _ _ _ _ _ E2). pose proof X2 as (_ & Hst & _).
  destruct out as [[c'|] [|]]; cbn [fst snd ohash fmap option_fmap option_map ostored] in *.
  - destruct (store_spec ed2 (mk c') Hok) as (ed3 & E3 & X3 & S3); [apply Hch; auto|].
    rewrite <- Hn in E3. exists ed3. rewrite (ed_step _ _ _ _ _ E3).
    split_and!; [done|by etransitivity|done].
  - exists ed2. auto.
  - exists ed2. auto.
  - exists ed2. auto.
Qed.

(** The tree that removal keeps below a branch is one of [U]. *)
Lemma ok_premove_child k c t o (mk : ptree -> ptree) :
  ok_tree c -> (forall c', ok_tree (mk c') -> ok_tree c') ->
  ok_opt (match premove k c with
          | (_, false) => (Some t, false)
          | (None, true) => (Some o, true)
          | (Some c', true) => (Some (mk c'), true)
          end).1 ->
  ok_opt (premove k c).1.
Proof.
  intros Hc Hmk. destruct (premove_spec c k (proj1 Hc)) as (_ & _ & Hsame & _). revert Hsame.
  destruct (premove k c) as [[c'|] [|]]; simpl; intros Hsame Hok; [auto| |done|done].
  specialize (Hsame eq_refl). by injection Hsame as ->.
Qed.

Lemma removes_step {A} (m : Ed A) (k : A -> Ed (option bytes * bool)) ed a ed1 out :
  m ed = (Ok a, ed1) -> ext ed ed1 -> removes_to (k a) ed1 out -> removes_to (m ≫= k) ed out.
Proof.
  intros Hm He (ed2 & Hk & He2 & Hs). exists ed2. rewrite (ed_step _ _ _ _ _ Hm).
  split_and!; [done|by etransitivity|done].
Qed.

Lemma remove_at_spec fuel t k ed :
  (depth t <= fuel)%nat -> ok_tree t -> ok_opt (premove k t).1 -> stored ed t ->
  removes_to (remove_at loader fuel (phash t) k) ed (premove k t).
Proof.
  revert t ed. induction fuel as [|fuel IH]; intros t ed Hf Ht Ht' Hs; [destruct t; simpl in Hf; lia|].
  destruct (load_spec ed t Hs) as (ed1 & E1 & X1 & _). cbn [remove_at].
  assert (stored ed1 t) as Hs1 by (by apply X1).
  eapply removes_step; [exact E1|done|]. clear E1 X1 Hs ed.
  destruct t as [k0 v0|b p l r]; cbn [pnode premove] in *.
  { case_bool_decide; by exists ed1. }
  rewrite Nat2Z.id. destruct (prefix_matches p b k); [|by exists ed1].
  destruct (ok_branch _ _ _ _ Ht) as [Hl Hr], (stored_branch _ _ _ _ _ Hs1) as [Sl Sr].
  simpl in Hf. destruct (bit_at k b =? 0).
  - assert (ok_opt (premove k l).1) as Hl'
      by (eapply ok_premove_child; [done| |exact Ht']; by intros c' [? ?]%ok_branch).
    apply (removes_to_child _ ed1 (PBranch b p l r) r (premove k l) (fun c' => PBranch b p c' r)
      (fun h => Branch (Z.of_nat b) p h (phash r))); try done. apply IH; (done || lia).
  - assert (ok_opt (premove k r).1) as Hr'
      by (eapply ok_premove_child; [done| |exact Ht']; by intros c' [? ?]%ok_branch).
    apply (removes_to_child _ ed1 (PBranch b p l r) l (premove k r) (fun c' => PBranch b p l c')
      (fun h => Branch (Z.of_nat b) p (phash l) h)); try done. apply IH; (done || lia).
Qed.

Lemma lookup_at_spec fuel t k ed :
  (depth t <= fuel)%nat -> ok_tree t -> stored ed t ->
  exists ed', lookup_at loader fuel (phash t) k ed = (Ok (plookup k t), ed') /\ ext ed ed'.
Proof.
  revert t ed. induction fuel as [|fuel IH]; intros t ed Hf Ht Hs; [destruct t; simpl in Hf; lia|].
  destruct (load_spec ed t Hs) as (ed1 & E1 & X1 & _). cbn [lookup_at].
  rewrite (ed_step _ _ _ _ _ E1). assert (stored ed1 t) as Hs1 by (by apply X1).
  destruct t as [k0 v0|b p l r]; cbn [pnode plookup] in *; [by exists ed1|].
  rewrite Nat2Z.id. destruct (prefix_matches p b k); [|by exists ed1].
  destruct (ok_branch _ _ _ _ Ht) as [Hl Hr], (stored_branch _ _ _ _ _ Hs1) as [Sl Sr].
  simpl in Hf. destruct (bit_at k b =? 0).
  - destruct (IH l ed1 ltac:(lia) Hl Sl) as (ed2 & E2 & X2). exists ed2. split; [done|by etransitivity].
  - destruct (IH r ed1 ltac:(lia) Hr Sr) as (ed2 & E2 & X2). exists ed2. split; [done|by etransitivity].
Qed.

(** ** [finish] walks the new part of the tree *)

Definition pchildren (t : ptree) : list ptree :=
  match t with PLeaf _ _ => [] | PBranch _ _ l r => [l; r] end.

Lemma pchildren_sub c s t : s ∈ subtrees t -> c ∈ pchildren s -> c ∈ subtrees t.
Proof.
  intros Hs Hc. eapply subtrees_trans; [|exact Hs].
  destruct s as [|b p l r]; simpl in *; [by apply not_elem_of_nil in Hc|].
  rewrite !elem_of_cons in Hc. rewrite elem_of_cons, elem_of_app.
  destruct Hc as [->|[->|Hc]]; [right; left; apply subtrees_self|right; right; apply subtrees_self|].
  by apply not_elem_of_nil in Hc.
Qed.

(** The store after the new objects are published. *)
Definition extended (objects : gmap bytes bytes) (h : bytes) : res bytes :=
  match objects !! h with Some b => Ok b | None => loader h end.

Section Walk.
Variable t : ptree.
Variable objects : gmap bytes bytes.
Hypothesis Ht : ok_tree t.
#[local] Set Default Proof Using "All".

(** The state of the walk: what was seen and created is collected, with its
    children seen or waiting. *)
Record walk (stack : list bytes) (seen : gset bytes) (out : gmap bytes bytes) : Prop := {
  walk_stack : forall h, h ∈ stack -> exists s, s ∈ subtrees t /\ phash s = h;
  walk_seen : forall s, s ∈ subtrees t -> phash s ∈ seen -> is_Some (objects !! phash s) ->
    out !! phash s = objects !! phash s
    /\ forall c, c ∈ pchildren s -> phash c ∈ seen \/ phash c ∈ stack;
  walk_out : forall h b, out !! h = Some b ->
    objects !! h = Some b /\ exists s, s ∈ subtrees t /\ phash s = h;
}.

Definition work (stack : list bytes) (seen : gset bytes) : nat :=
  2 * size (dom objects ∖ seen) + length stack.

Lemma walk_skip h stack seen out :
  walk (h :: stack) seen out -> h ∈ seen \/ objects !! h = None -> walk stack ({[h]} ∪ seen) out.
Proof.
  intros [W1 W2 W3] Hh. split; [intros h' Hh'; apply W1; by right| |done].
  intros s Hs Hin Hcr. assert (phash s ∈ seen) as Hseen.
  { apply elem_of_union in Hin as [Eh%elem_of_singleton|]; [|done]. rewrite Eh in *.
    destruct Hh as [|E]; [done|]. rewrite E in Hcr. by destruct Hcr. }
  destruct (W2 s Hs Hseen Hcr) as [E Hc]. split; [done|]. intros c Hcin.
  destruct (Hc c Hcin) as [|Hst]; [set_solver|]. apply elem_of_cons in Hst as [->|]; set_solver.
Qed.

Lemma walk_collect s stack seen out b :
  s ∈ subtrees t -> walk (phash s :: stack) seen out -> objects !! phash s = Some b ->
  walk (map phash (pchildren s) ++ stack) ({[phash s]} ∪ seen) (<[phash s := b]> out).
Proof.
  intros Hs [W1 W2 W3] Eb. split.
  - intros h [(c & -> & Hc)%list_elem_of_fmap|Hh]%elem_of_app; [|apply W1; by right].
    exists c. split; [|done]. by eapply pchildren_sub.
  - intros s' Hs' Hin Hcr. destruct (decide (phash s' = phash s)) as [E|Hne].
    + apply phash_inj in E; [|by eapply ok_sub|by eapply ok_sub]. subst s'.
      rewrite lookup_insert_eq. split; [done|]. intros c Hc. right.
      apply elem_of_app. left. by apply list_elem_of_fmap_2.
    + assert (phash s' ∈ seen) as Hseen by set_solver. rewrite lookup_insert_ne by done.
      destruct (W2 s' Hs' Hseen Hcr) as [E Hc]. split; [done|]. intros c Hcin.
      destruct (Hc c Hcin) as [|Hst]; [set_solver|]. apply elem_of_cons in Hst as [->|]; set_solver.
  - intros h b' Hh. destruct (decide (h = phash s)) as [->|Hne].
    + rewrite lookup_insert_eq in Hh. split; [congruence|]. by exists s.
    + rewrite lookup_insert_ne in Hh by done. by apply W3.
Qed.

Lemma work_new h stack seen b :
  objects !! h = Some b -> h ∉ seen ->
  (3 + work stack ({[h]} ∪ seen) <= work (h :: stack) seen)%nat.
Proof.
  intros Eb Hn. unfold work. simpl.
  assert (size (dom objects ∖ seen) = S (size (dom objects ∖ ({[h]} ∪ seen)))) as ->; [|lia].
  assert (dom objects ∖ seen = {[h]} ∪ dom objects ∖ ({[h]} ∪ seen)) as ->.
  { apply set_eq. intros x. rewrite elem_of_union, !elem_of_difference, elem_of_union, elem_of_singleton.
    destruct (decide (x = h)) as [->|]; [|tauto]. rewrite elem_of_dom, Eb. intuition. }
  rewrite size_union by set_solver. by rewrite size_singleton.
Qed.

Lemma finish_loop_spec fuel stack seen out ed :
  created ed = objects -> stored ed t -> walk stack seen out -> (work stack seen <= fuel)%nat ->
  exists ed' seen' out', finish_loop loader fuel stack seen out ed = (Ok out', ed')
    /\ walk [] seen' out' /\ forall h, h ∈ seen \/ h ∈ stack -> h ∈ seen'.
Proof.
  revert stack seen out ed. induction fuel as [|fuel IH]; intros stack seen out ed Hc Hs Hw Hf.
  { destruct stack; [|unfold work in Hf; simpl in Hf; lia]. exists ed, seen, out.
    split_and!; [done|done|set_solver]. }
  destruct stack as [|h stack]; [exists ed, seen, out; split_and!; [done|done|set_solver]|].
  cbn [finish_loop]. case_bool_decide as Hseen.
  { destruct (IH stack seen out ed) as (ed' & seen' & out' & E & W & Hsub); [done|done|..].
    - replace seen with ({[h]} ∪ seen) by set_solver. apply walk_skip; [done|by left].
    - unfold work in *. simpl in Hf. lia.
    - exists ed', seen', out'. split_and!; [done|done|set_solver]. }
  rewrite (ed_step _ _ _ (created ed !! h) ed) by done. rewrite Hc.
  destruct (objects !! h) as [b|] eqn:Eb.
  - destruct (walk_stack _ _ _ Hw h (list_elem_of_here _ _)) as (s & Hsub & <-).
    assert (stored ed s) as Hss by (intros s' ?; apply Hs; by eapply subtrees_trans).
    destruct (load_spec ed s Hss) as (ed1 & E1 & X1 & C1). rewrite (ed_step _ _ _ _ _ E1).
    pose proof (walk_collect s stack seen out b Hsub Hw Eb) as Hw'.
    pose proof (work_new (phash s) stack seen b Eb Hseen) as Hwork.
    assert (exists ed' seen' out', finish_loop loader fuel (map phash (pchildren s) ++ stack)
      ({[phash s]} ∪ seen) (<[phash s := b]> out) ed1 = (Ok out', ed')
      /\ walk [] seen' out' /\ forall h, h ∈ {[phash s]} ∪ seen \/ h ∈ map phash (pchildren s) ++ stack -> h ∈ seen')
      as (ed' & seen' & out' & E & W & Hin).
    { apply IH; [congruence|by apply X1|done|]. unfold work in *. rewrite length_app, length_map.
      destruct s; simpl in *; lia. }
    exists ed', seen', out'. split_and!; [by destruct s|done|]. intros h Hh. apply Hin.
    rewrite elem_of_cons in Hh. rewrite elem_of_union, elem_of_singleton, elem_of_app. tauto.
  - destruct (IH stack ({[h]} ∪ seen) out ed) as (ed' & seen' & out' & E & W & Hsub); [done|done|..].
    + apply walk_skip; [done|by right].
    + unfold work in *. simpl in Hf.
      assert (size (dom objects ∖ ({[h]} ∪ seen)) <= size (dom objects ∖ seen))%nat
        by (apply subseteq_size; set_solver). lia.
    + exists ed', seen', out'. split_and!; [done|done|set_solver].
Qed.

(** A finished walk covers every node it has seen: collected, or durable. *)
Lemma walk_covers seen out :
  walk [] seen out ->
  (forall s, s ∈ subtrees t -> is_Some (objects !! phash s) \/ durable s) ->
  (forall s b, s ∈ subtrees t -> objects !! phash s = Some b -> b = pbytes s) ->
  forall u, u ∈ subtrees t -> phash u ∈ seen -> forall s, s ∈ subtrees u ->
    extended out (phash s) = Ok (pbytes s).
Proof.
  intros [_ W2 W3] Hs Hbytes.
  assert (forall s, s ∈ subtrees t -> durable s -> extended out (phash s) = Ok (pbytes s)) as Hdur.
  { intros s Hsub Hd. unfold extended. destruct (out !! phash s) as [b|] eqn:Eb.
    - destruct (W3 _ _ Eb) as [Hcr _]. by rewrite (Hbytes s b).
    - apply Hd, subtrees_self. }
  induction u as [k r|b p l IHl r IHr]; intros Hu Hseen s Hsub.
  all: pose proof (subtrees_trans _ _ _ Hsub Hu) as Hst; destruct (Hs _ Hu) as [Hcr|Hd];
    [|apply Hdur; [done|]; intros s' Hs'; apply Hd; by eapply subtrees_trans].
  all: destruct (W2 _ Hu Hseen Hcr) as [Eout Hch]; destruct Hcr as [b' Hb'];
    pose proof (Hbytes _ _ Hu Hb') as ->; rewrite Hb' in Eout.
  - apply elem_of_cons in Hsub as [->|Hx]; [|by apply not_elem_of_nil in Hx].
    unfold extended. by rewrite Eout.
  - cbn [subtrees] in Hsub. rewrite elem_of_cons, elem_of_app in Hsub.
    assert (forall c, c ∈ pchildren (PBranch b p l r) -> c ∈ subtrees t /\ phash c ∈ seen) as Hc2.
    { intros c Hcin. split; [exact (pchildren_sub c _ t Hu Hcin)|].
      destruct (Hch c Hcin) as [|Hx]; [done|]. by apply not_elem_of_nil in Hx. }
    destruct Hsub as [->|[Hsub|Hsub]]; [unfold extended; by rewrite Eout|..].
    + destruct (Hc2 l) as [? ?]; [cbn [pchildren]; set_solver|]. by apply IHl.
    + destruct (Hc2 r) as [? ?]; [cbn [pchildren]; set_solver|]. by apply IHr.
Qed.
End Walk.

(** ** The public operations *)

Definition represents (ed : Editor) (o : option ptree) : Prop :=
  ok_opt o /\ ed_root ed = ohash o /\ ostored ed o /\ created_ok ed.

Definition oinsert (k : bytes) (v : ManifestRecord) (o : option ptree) : option ptree :=
  Some (match o with Some t => pinsert k v t | None => PLeaf k v end).
Definition oremove (k : bytes) (o : option ptree) : option ptree :=
  match o with Some t => (premove k t).1 | None => None end.

#[local] Opaque MAP_DEPTH.

Lemma upsert_spec ed o r :
  represents ed o -> ok_opt (oinsert (manifest_key (record_node_id r)) r o) ->
  exists ed', upsert loader r ed = (Ok tt, ed')
              /\ represents ed' (oinsert (manifest_key (record_node_id r)) r o).
Proof.
  intros (Ho & Er & Hs & Hc) Hok. set (k := manifest_key (record_node_id r)) in *.
  unfold upsert. rewrite (ed_step _ _ _ (ed_root ed) ed), Er by done.
  assert (exists ed', (match ohash o with
      | Some root => insert_at loader MAP_DEPTH root k r | None => store (Leaf k r) end) ed
    = (Ok (phash (default (PLeaf k r) (oinsert k r o))), ed')
    /\ ext ed ed' /\ stored ed' (default (PLeaf k r) (oinsert k r o))) as (ed1 & E1 & X1 & S1).
  { destruct o as [t|]; [|apply (store_spec ed (PLeaf k r) Hok I)].
    apply insert_at_spec; [by apply depth_bound, Ho|by apply blake3_len|done..]. }
  fold k. rewrite (ed_step _ _ _ _ _ E1). eexists. split; [reflexivity|].
  split_and!; [done|done| |]; simpl.
  - intros s Hin. destruct (S1 s Hin) as [Hb Hcr]. by split.
  - intros h b Hb. destruct X1 as (_ & _ & X1). by apply (X1 Hc).
Qed.

Lemma remove_spec ed o id :
  represents ed o -> ok_opt (oremove (manifest_key id) o) ->
  exists ed', remove_id loader id ed = (Ok (bool_decide (is_Some (olookup (manifest_key id) o))), ed')
              /\ represents ed' (oremove (manifest_key id) o).
Proof.
  intros (Ho & Er & Hs & Hc) Hok. unfold remove_id.
  rewrite (ed_step _ _ _ (ed_root ed) ed), Er by done. destruct o as [t|];
    cbn [ohash fmap option_fmap option_map olookup oremove ok_opt ostored] in *.
  2:{ exists ed. split; [by rewrite bool_decide_false by (by intros [])|]. done. }
  destruct (remove_at_spec MAP_DEPTH t (manifest_key id) ed) as (ed1 & E1 & X1 & S1);
    [by apply depth_bound, Ho|done..|].
  destruct (premove_spec t (manifest_key id) (proj1 Ho)) as (_ & Hp & _).
  rewrite (ed_step _ _ _ _ _ E1). eexists. split; [by rewrite <- Hp|].
  split_and!; [done|done| |]; simpl.
  - destruct (premove (manifest_key id) t).1; [|done]. intros s Hin.
    destruct (S1 s Hin) as [Hb Hcr]. by split.
  - intros h b Hb. destruct X1 as (_ & _ & X1). by apply (X1 Hc).
Qed.

Lemma lookup_spec ed o id :
  represents ed o ->
  exists ed', lookup_id loader id ed = (Ok (olookup (manifest_key id) o), ed') /\ represents ed' o.
Proof.
  intros (Ho & Er & Hs & Hc). unfold lookup_id.
  rewrite (ed_step _ _ _ (ed_root ed) ed), Er by done. destruct o as [t|];
    cbn [ohash fmap option_fmap option_map olookup oremove ok_opt ostored] in *.
  2:{ by exists ed. }
  destruct (lookup_at_spec MAP_DEPTH t (manifest_key id) ed) as (ed1 & E1 & X1);
    [by apply depth_bound, Ho|done..|].
  exists ed1. split; [done|]. destruct X1 as (R1 & S1 & C1). split_and!; [done|by rewrite R1, Er|by apply S1|auto].
Qed.

Lemma finish_spec ed t :
  represents ed (Some t) ->
  exists ed' out, finish loader ed = (Ok (phash t, out), ed')
    /\ (forall s, s ∈ subtrees t -> extended out (phash s) = Ok (pbytes s))
    /\ (forall h b, out !! h = Some b -> exists s, s ∈ subtrees t /\ h = phash s /\ b = pbytes s).
Proof.
  intros (Ho & Er & Hs & Hc). unfold finish. simpl in Ho.
  rewrite (ed_step _ _ _ (ed_root ed) ed), Er by done. cbn [ohash fmap option_fmap option_map].
  rewrite (ed_step _ _ _ (size (created ed)) ed) by done.
  destruct (finish_loop_spec t (created ed) Ho (2 * size (created ed) + 1) [phash t] ∅ ∅ ed)
    as (ed' & seen & out & E & W & Hin); [done|done|..].
  - split; [|set_solver|set_solver]. intros h ->%list_elem_of_singleton. exists t. split; [|done].
    apply subtrees_self.
  - unfold work. rewrite difference_empty_L, size_dom. simpl. lia.
  - exists ed', out. rewrite (ed_step _ _ _ _ _ E). split; [done|].
    assert (forall s b, s ∈ subtrees t -> created ed !! phash s = Some b -> b = pbytes s) as Hbytes.
    { intros s b Hsub Hb. destruct (Hc _ _ Hb) as [Hh Hu]. rewrite phash_pbytes in Hh.
      apply free_inj in Hh; [done|done|]. by apply Ho. }
    split.
    + intros s. apply (walk_covers t (created ed) Ho seen out W); [|exact Hbytes|apply subtrees_self|].
      * intros s' Hs'. by destruct (Hs s' Hs').
      * apply Hin. right. by left.
    + intros h b Hb. destruct (walk_out _ _ _ _ _ W h b Hb) as (Hcr & s & Hsub & <-). eauto.
Qed.
End Stored.

(** * Editing sessions and the finite map they implement *)

Inductive edit :=
| Upsert (record : ManifestRecord)
| Remove (id : bytes)
| Lookup (id : bytes).

(** What the caller sees of an edit. *)
Inductive answer :=
| Done
| Removed (present : bool)
| Found (record : option ManifestRecord).

Section Sessions.
Context `{Blake3}.

(** The calls of a session on one editor. *)
Definition run_edit (loader : bytes -> res bytes) (e : edit) : Ed answer :=
  match e with
  | Upsert r => _ ← upsert loader r; mret Done
  | Remove id => b ← remove_id loader id; mret (Removed b)
  | Lookup id => r ← lookup_id loader id; mret (Found r)
  end.

Fixpoint run_edits (loader : bytes -> res bytes) (es : list edit) : Ed (list answer) :=
  match es with
  | [] => mret []
  | e :: es => a ← run_edit loader e; rest ← run_edits loader es; mret (a :: rest)
  end.

(** The specification: a finite map from keys to records. *)
Abbreviation records := (gmap bytes ManifestRecord).

Definition map_edit (e : edit) (m : records) : answer * records :=
  match e with
  | Upsert r => (Done, <[manifest_key (record_node_id r) := r]> m)
  | Remove id =>
      (Removed (bool_decide (is_Some (m !! manifest_key id))), delete (manifest_key id) m)
  | Lookup id => (Found (m !! manifest_key id), m)
  end.

Fixpoint map_edits (es : list edit) (m : records) : list answer * records :=
  match es with
  | [] => ([], m)
  | e :: es => let '(a, m) := map_edit e m in let '(rest, m) := map_edits es m in (a :: rest, m)
  end.

(** The trees a session goes through. *)
Definition tree_edit (e : edit) (o : option ptree) : option ptree :=
  match e with
  | Upsert r => oinsert (manifest_key (record_node_id r)) r o
  | Remove id => oremove (manifest_key id) o
  | Lookup _ => o
  end.

Fixpoint tree_edits (es : list edit) (o : option ptree) : list (option ptree) :=
  o :: match es with [] => [] | e :: es => tree_edits es (tree_edit e o) end.

Definition obytes (o : option ptree) : list bytes :=
  match o with Some t => map pbytes (subtrees t) | None => [] end.

(** Every node encoding of a session. *)
Definition session_bytes (es : list edit) (o : option ptree) : list bytes :=
  concat (map obytes (tree_edits es o)).

Definition contents (o : option ptree) : records := list_to_map (opt_elems o).

Definition edit_ok (e : edit) : Prop := match e with Upsert r => storable r | _ => True end.
Definition leaves_ok_opt (o : option ptree) : Prop :=
  match o with Some t => leaves_ok t | None => True end.
Definition durable_opt (loader : bytes -> res bytes) (o : option ptree) : Prop :=
  match o with Some t => durable loader t | None => True end.

(** A map that a store holds: well formed, valid, and loadable. *)
Record persisted (loader : bytes -> res bytes) (o : option ptree) : Prop := {
  persisted_wf : wf_opt o;
  persisted_leaves : leaves_ok_opt o;
  persisted_durable : durable_opt loader o;
}.

Lemma leaves_elems t : leaves_ok t <-> forall k v, (k, v) ∈ elems t -> leaf_ok k v.
Proof.
  induction t as [k v|b p l IHl r IHr]; simpl.
  - split; [|intros E; apply E; by apply list_elem_of_singleton].
    intros Hl k' v' [= -> ->]%list_elem_of_singleton. done.
  - rewrite IHl, IHr. split.
    + intros [Hl Hr] k v [?|?]%elem_of_app; auto.
    + intros E. split; intros k v Hin; apply E, elem_of_app; auto.
Qed.

Lemma tree_edit_ok e o :
  edit_ok e -> wf_opt o -> leaves_ok_opt o -> wf_opt (tree_edit e o) /\ leaves_ok_opt (tree_edit e o).
Proof.
  intros He Hw Hl. destruct e as [r|id|id]; simpl; [| |done].
  - assert (leaf_ok (manifest_key (record_node_id r)) r) as Hleaf by (by split).
    destruct o as [t|]; simpl; [|split; [constructor; apply blake3_len|done]].
    destruct (pinsert_spec t (manifest_key (record_node_id r)) r Hw (blake3_len _)) as [Hw' Hel].
    split; [done|]. apply leaves_elems. intros k v [[-> ->]|[_ Hin]]%Hel; [done|].
    simpl in Hl. rewrite leaves_elems in Hl. auto.
  - destruct o as [t|]; simpl; [|done].
    destruct (premove_spec t (manifest_key id) Hw) as (Hw' & _ & _ & Hel). split; [done|].
    destruct (premove (manifest_key id) t).1 as [t'|]; [|done]. simpl in *.
    apply leaves_elems. intros k v [_ Hin]%Hel. rewrite leaves_elems in Hl. auto.
Qed.

Lemma olookup_oinsert k v o k' :
  length k = 32%nat -> wf_opt o ->
  olookup k' (oinsert k v o) = if bool_decide (k' = k) then Some v else olookup k' o.
Proof.
  intros Hk Hw. destruct o as [t|]; simpl; [by apply plookup_pinsert|].
  repeat case_bool_decide; congruence.
Qed.

Lemma olookup_oremove k o k' :
  wf_opt o -> olookup k' (oremove k o) = if bool_decide (k' = k) then None else olookup k' o.
Proof.
  intros Hw. destruct o as [t|]; simpl; [by apply olookup_premove|]. by case_bool_decide.
Qed.

Lemma contents_lookup o k : wf_opt o -> contents o !! k = olookup k o.
Proof.
  intros Hw. unfold contents. apply option_eq. intros v. rewrite olookup_elems by done.
  destruct o as [t|]; simpl in *; [|rewrite lookup_empty; split; [done|set_solver]].
  split; [apply elem_of_list_to_map_2|]. intros Hin. apply elem_of_list_to_map_1'; [|done].
  intros v'. by intros ?%(elems_functional t k v v' Hw Hin).
Qed.

(** The tree follows the map. *)
Lemma tree_edit_map e o m :
  wf_opt o -> (forall k, m !! k = olookup k o) ->
  forall k, (map_edit e m).2 !! k = olookup k (tree_edit e o).
Proof.
  intros Hw Hm k. destruct e as [r|id|id]; cbn [map_edit tree_edit snd]; [| |done].
  - rewrite olookup_oinsert, lookup_insert, Hm by (apply blake3_len || done).
    repeat case_bool_decide || case_decide; congruence.
  - rewrite olookup_oremove, lookup_delete, Hm by done.
    repeat case_bool_decide || case_decide; congruence.
Qed.

Definition tree_after (es : list edit) (o : option ptree) : option ptree :=
  fold_left (fun o e => tree_edit e o) es o.

Lemma ok_opt_in U o :
  wf_opt o -> leaves_ok_opt o -> (forall b, b ∈ obytes o -> b ∈ U) -> ok_opt U o.
Proof.
  destruct o as [t|]; simpl; [|done]. intros Hw Hl Hu. split_and!; [done|done|].
  intros s Hs. by apply Hu, list_elem_of_fmap_2.
Qed.

(** Opening an editor on a stored map. *)
Lemma editor_new_represents U loader o :
  collision_free U -> persisted loader o -> (forall b, b ∈ obytes o -> b ∈ U) ->
  represents U loader (editor_new (ohash o)) o.
Proof.
  intros Hfree [Hw Hl Hd] Hu. pose proof (ok_opt_in U o Hw Hl Hu) as Hok.
  split_and!; [done|done| |]; [|intros h b; simpl; by rewrite lookup_empty].
  destruct o as [t|]; simpl in *; [|done]. intros s Hs. split.
  - right. simpl. rewrite !lookup_empty. split; [done|]. exists (pbytes s).
    split_and!; [by apply Hd|by rewrite phash_pbytes|].
    pose proof (ok_sub U Hfree s t Hok Hs) as Hoks.
    apply node_decode_encoded; [by eapply pnode_valid|by eapply enc_ok].
  - right. intros s' Hs'. apply Hd. by eapply subtrees_trans.
Qed.

Lemma run_edit_spec U loader e o m ed :
  collision_free U -> edit_ok e -> represents U loader ed o -> ok_opt U (tree_edit e o) ->
  (forall k, m !! k = olookup k o) ->
  exists ed', run_edit loader e ed = (Ok (map_edit e m).1, ed') /\ represents U loader ed' (tree_edit e o).
Proof.
  intros Hfree He Hr Hok Hm. destruct e as [r|id|id]; cbn [run_edit map_edit tree_edit fst] in *.
  - destruct (upsert_spec U Hfree loader ed o r Hr Hok) as (ed1 & E1 & R1).
    exists ed1. by rewrite (ed_step _ _ _ _ _ E1).
  - destruct (remove_spec U Hfree loader ed o id Hr Hok) as (ed1 & E1 & R1).
    exists ed1. by rewrite (ed_step _ _ _ _ _ E1), Hm.
  - destruct (lookup_spec U Hfree loader ed o id Hr) as (ed1 & E1 & R1).
    exists ed1. by rewrite (ed_step _ _ _ _ _ E1), Hm.
Qed.

Lemma run_edits_spec U loader es o m ed :
  collision_free U -> Forall edit_ok es -> wf_opt o -> leaves_ok_opt o ->
  (forall b, b ∈ session_bytes es o -> b ∈ U) -> represents U loader ed o ->
  (forall k, m !! k = olookup k o) ->
  exists ed', run_edits loader es ed = (Ok (map_edits es m).1, ed')
    /\ represents U loader ed' (tree_after es o)
    /\ wf_opt (tree_after es o) /\ leaves_ok_opt (tree_after es o)
    /\ forall k, (map_edits es m).2 !! k = olookup k (tree_after es o).
Proof.
  intros Hfree. revert o m ed. induction es as [|e es IH]; intros o m ed Hes Hw Hl Hu Hr Hm.
  { exists ed. done. }
  apply Forall_cons in Hes as [He Hes]. destruct (tree_edit_ok e o He Hw Hl) as [Hw' Hl'].
  unfold session_bytes in Hu. cbn [tree_edits map concat] in Hu.
  assert (forall b, b ∈ session_bytes es (tree_edit e o) -> b ∈ U) as Hu'
    by (intros b Hb; apply Hu, elem_of_app; by right).
  assert (ok_opt U (tree_edit e o)) as Hok.
  { apply ok_opt_in; [done|done|]. intros b Hb. apply Hu'. unfold session_bytes.
    destruct es; cbn [tree_edits map concat]; apply elem_of_app; by left. }
  destruct (run_edit_spec U loader e o m ed Hfree He Hr Hok Hm) as (ed1 & E1 & R1).
  pose proof (tree_edit_map e o m Hw Hm) as Hm'.
  cbn [run_edits map_edits tree_after fold_left]. destruct (map_edit e m) as [a m'].
  destruct (IH (tree_edit e o) m' ed1 Hes Hw' Hl' Hu' R1 Hm') as (ed2 & E2 & R2 & W2 & L2 & M2).
  exists ed2. rewrite (ed_step _ _ _ _ _ E1), (ed_step _ _ _ _ _ E2).
  destruct (map_edits es m') as [rest m'']. done.
Qed.

(** A whole session on a stored map. *)
Lemma session_spec U loader es o :
  collision_free U -> persisted loader o -> Forall edit_ok es ->
  (forall b, b ∈ session_bytes es o -> b ∈ U) ->
  exists ed', run_edits loader es (editor_new (ohash o)) = (Ok (map_edits es (contents o)).1, ed')
    /\ represents U loader ed' (tree_after es o)
    /\ wf_opt (tree_after es o) /\ leaves_ok_opt (tree_after es o)
    /\ forall k, (map_edits es (contents o)).2 !! k = olookup k (tree_after es o).
Proof.
  intros Hfree Hp Hes Hu. apply run_edits_spec; try done; [by destruct Hp..| |].
  - apply editor_new_represents; [done|done|]. intros b Hb. apply Hu. unfold session_bytes.
    destruct es; cbn [tree_edits map concat]; apply elem_of_app; by left.
  - intros k. apply contents_lookup. by destruct Hp.
Qed.

Lemma contents_eq o m : wf_opt o -> (forall k, m !! k = olookup k o) -> contents o = m.
Proof. intros Hw Hm. apply map_eq. intros k. by rewrite contents_lookup, Hm. Qed.

(** C20: The editor of the identity map behaves as a finite map from keys to
    records: opened on any stored map, every sequence of upserts, removals and
    lookups succeeds and answers what the map would answer, provided the node
    encodings of the session have no BLAKE3 collision among them. *)
Theorem editor_refines_map (loader : bytes -> res bytes) (o : option ptree) (es : list edit) :
  persisted loader o -> Forall edit_ok es -> collision_free (session_bytes es o) ->
  (run_edits loader es (editor_new (ohash o))).1 = Ok (map_edits es (contents o)).1.
Proof.
  intros Hp Hes Hfree. by destruct (session_spec _ loader es o Hfree Hp Hes (fun b Hb => Hb)) as (ed & -> & _).
Qed.

(** C21: The root hash identifies the contents: whatever the stores the two
    sessions start from and the edits they make, they end at the same root
    exactly when they end at the same records, provided the node encodings of
    both have no BLAKE3 collision among them. *)
Theorem root_identifies_contents (loader1 loader2 : bytes -> res bytes) (o1 o2 : option ptree)
    (es1 es2 : list edit) :
  persisted loader1 o1 -> persisted loader2 o2 -> Forall edit_ok es1 -> Forall edit_ok es2 ->
  collision_free (session_bytes es1 o1 ++ session_bytes es2 o2) ->
  ed_root (run_edits loader1 es1 (editor_new (ohash o1))).2
    = ed_root (run_edits loader2 es2 (editor_new (ohash o2))).2
  <-> (map_edits es1 (contents o1)).2 = (map_edits es2 (contents o2)).2.
Proof.
  intros Hp1 Hp2 He1 He2 Hfree. set (U := session_bytes es1 o1 ++ session_bytes es2 o2) in *.
  destruct (session_spec U loader1 es1 o1) as (ed1 & -> & R1 & W1 & _ & M1);
    [done..|intros b Hb; apply elem_of_app; by left|].
  destruct (session_spec U loader2 es2 o2) as (ed2 & -> & R2 & W2 & _ & M2);
    [done..|intros b Hb; apply elem_of_app; by right|].
  destruct R1 as (K1 & E1 & _), R2 as (K2 & E2 & _). cbn [snd]. rewrite E1, E2. split.
  - intros E. apply map_eq. intros k. rewrite M1, M2. f_equal.
    destruct (tree_after es1 o1) as [t1|], (tree_after es2 o2) as [t2|]; simpl in *; try done.
    injection E as E. f_equal. by eapply phash_inj.
  - intros E. f_equal. apply canonical_opt; [done|done|]. intros k. by rewrite <- M1, <- M2, E.
Qed.

(** C22: Finishing a session publishes the map: the returned root and objects,
    together with the objects the session started from, are a stored map with
    exactly the final contents, and every returned object is a node of it
    under its own hash.  An empty map cannot be published. *)
Theorem finish_publishes (loader : bytes -> res bytes) (o : option ptree) (es : list edit) :
  persisted loader o -> Forall edit_ok es -> collision_free (session_bytes es o) ->
  let final := (map_edits es (contents o)).2 in
  let result := ((_ ← run_edits loader es; finish loader) (editor_new (ohash o))).1 in
  (final = ∅ -> result = Err EmptyMap)
  /\ (final <> ∅ -> exists t objects, result = Ok (phash t, objects)
        /\ persisted (extended loader objects) (Some t) /\ contents (Some t) = final
        /\ forall h b, objects !! h = Some b ->
             exists s, s ∈ subtrees t /\ h = phash s /\ b = pbytes s).
Proof.
  intros Hp Hes Hfree final result.
  destruct (session_spec _ loader es o Hfree Hp Hes (fun b Hb => Hb)) as (ed & E & R & W & L & M).
  assert (result = (finish loader ed).1) as -> by (subst result; by rewrite (ed_step _ _ _ _ _ E)).
  pose proof (contents_eq _ _ W M) as Hc. fold final in Hc. destruct (tree_after es o) as [t|] eqn:Et.
  - split.
    + intros Hf. exfalso. destruct (elems_nonempty t) as (k & v & Hin).
      apply plookup_elems in Hin; [|done]. specialize (M k). fold final in M.
      rewrite Hf, lookup_empty in M. simpl in M. congruence.
    + intros _. destruct (finish_spec _ Hfree loader ed t R) as (ed' & out & Ef & Hd & Ho).
      exists t, out. rewrite Ef. done.
  - split; [|by rewrite <- Hc].
    intros _. destruct R as (_ & Er & _). unfold finish.
    by rewrite (ed_step _ _ _ (ed_root ed) ed), Er by done.
Qed.

(** ** The batch builder *)

(** The batch builder does not depend on the order of its input: permuted
    record lists give the same root and the same objects, or the same
    duplicate-id error. *)
Theorem build_order_independent (rs1 rs2 : list ManifestRecord) :
  rs1 ≡ₚ rs2 -> build_manifest_map rs1 = build_manifest_map rs2.
Proof.
  intros Hp. unfold build_manifest_map.
  pose proof (sort_unique_key record_node_id bytes_cmp rs1 rs2 Hp) as Hu. cbv zeta in Hu.
  fold record_cmp same_record_node in Hu. revert Hu.
  destruct (find_pair same_record_node (sort_by record_cmp rs1)) as [[]|],
    (find_pair same_record_node (sort_by record_cmp rs2)) as [[]|]; [by intros ->|done|done|].
  by intros [-> _].
Qed.

Definition keyed (r : ManifestRecord) : bytes * ManifestRecord := (manifest_key (record_node_id r), r).

Lemma upsert_all_run loader rs ed out ed' :
  run_edits loader (map Upsert rs) ed = (Ok out, ed') -> upsert_all loader rs ed = (Ok tt, ed').
Proof.
  revert ed out. induction rs as [|r rs IH]; intros ed out; cbn [map run_edits upsert_all run_edit];
    [by intros [= _ ->]|]. cbv [mbind Ed_bind mret Ed_ret].
  destruct (upsert loader r ed) as [[[]|e|] ed1]; [|done|done].
  destruct (run_edits loader (map Upsert rs) ed1) as [[rest|e|] ed2] eqn:E; [|done|done].
  intros [= _ ->]. by apply (IH _ rest).
Qed.

Lemma map_edits_upserts (rs : list ManifestRecord) (m : records) :
  NoDup (map keyed rs).*1 -> (map_edits (map Upsert rs) m).2 = list_to_map (map keyed rs) ∪ m.
Proof.
  revert m. induction rs as [|r rs IH]; intros m Hnd.
  { change (m = ∅ ∪ m). by rewrite (left_id_L ∅ (∪)). }
  cbn [map map_edits map_edit]. apply NoDup_cons in Hnd as [Hn Hnd].
  pose proof (IH (<[manifest_key (record_node_id r) := r]> m) Hnd) as E.
  destruct (map_edits (map Upsert rs) _) as [rest m']. cbn [snd] in *. rewrite E.
  change (keyed r) with (manifest_key (record_node_id r), r). rewrite list_to_map_cons, <- insert_union_l, insert_union_r; [done|].
  by apply not_elem_of_list_to_map_1.
Qed.

Lemma keyed_NoDup (rs : list ManifestRecord) :
  NoDup (map record_node_id rs) -> collision_free (map record_node_id rs) -> NoDup (map keyed rs).*1.
Proof.
  intros Hn Hf. change ((map keyed rs).*1) with (map fst (map keyed rs)). rewrite map_map. cbn [keyed fst].
  rewrite <- (map_map record_node_id manifest_key).
  assert (forall l, NoDup l -> l ⊆ map record_node_id rs -> NoDup (map manifest_key l)) as Hg;
    [|by apply Hg].
  induction 1 as [|x l Hx Hl IH]; intros Hsub; simpl; [constructor|].
  apply NoDup_cons. split; [|apply IH; set_solver]. intros (y & E & Hy)%list_elem_of_fmap.
  unfold collision_free in Hf. rewrite Forall_forall in Hf. specialize (Hf x ltac:(set_solver)).
  rewrite Forall_forall in Hf. rewrite (Hf y) in Hx; [done|set_solver|done].
Qed.

(** The batch builder builds the map of its records: distinct node ids give a
    published map with exactly these records under their keys, provided ids and
    node encodings have no BLAKE3 collision among them. *)
Theorem build_correct (rs : list ManifestRecord) :
  rs <> [] -> NoDup (map record_node_id rs) -> Forall storable rs ->
  collision_free (map record_node_id rs) ->
  collision_free (session_bytes (map Upsert (sort_by record_cmp rs)) None) ->
  exists t objects, build_manifest_map rs = Ok (phash t, objects)
    /\ persisted (extended absent_loader objects) (Some t)
    /\ contents (Some t) = list_to_map (map keyed rs).
Proof.
  intros Hne Hnd Hst Hids Hfree. pose proof (sort_by_perm record_cmp rs) as Hperm.
  set (s := sort_by record_cmp rs) in *.
  assert (find_pair same_record_node s = None) as Hfp.
  { destruct (find_pair same_record_node s) as [[a b]|] eqn:E; [|done]. exfalso.
    apply find_pair_Some in E as (l1 & l2 & E & Es%bool_decide_eq_true).
    rewrite <- Hperm, E, map_app in Hnd. apply NoDup_app in Hnd as (_ & _ & Hnd).
    cbn [map] in Hnd. rewrite Es in Hnd. apply NoDup_cons in Hnd as [Hin _].
    apply Hin, elem_of_cons. by left. }
  assert (persisted absent_loader None) as Hp by done.
  assert (Forall edit_ok (map Upsert s)) as Hes by (apply Forall_fmap; by rewrite Hperm).
  destruct (session_spec _ absent_loader _ _ Hfree Hp Hes (fun b Hb => Hb)) as (ed & E & R & W & L & M).
  assert (NoDup (map keyed rs).*1) as Hkn by (by apply keyed_NoDup).
  assert ((map_edits (map Upsert s) (contents None)).2 = list_to_map (map keyed rs)) as Hfinal.
  { rewrite map_edits_upserts by (by rewrite Hperm). change (contents None) with (∅ : records).
    rewrite (right_id_L ∅ (∪)).
    apply list_to_map_proper; rewrite ?Hperm; done. }
  pose proof (contents_eq _ _ W M) as Hc. rewrite Hfinal in Hc.
  unfold build_manifest_map. fold s. rewrite Hfp.
  rewrite (ed_step _ _ _ tt ed) by (by eapply upsert_all_run).
  destruct (tree_after (map Upsert s) None) as [t|].
  - destruct (finish_spec _ Hfree absent_loader ed t R) as (ed' & out & Ef & Hd & _).
    exists t, out. rewrite Ef. split; [done|]. split; [|done]. by split.
  - exfalso. destruct rs as [|r rs]; [done|]. apply (f_equal (lookup (keyed r).1)) in Hc.
    change (map keyed (r :: rs)) with ((manifest_key (record_node_id r), r) :: map keyed rs) in Hc.
    by rewrite list_to_map_cons, lookup_insert_eq in Hc.
Qed.
End Sessions.

(** * The theorems at a concrete store *)

#[local] Existing Instance mix_blake3.

(** Decide a closed proposition by evaluation. *)
Ltac by_decision := unfold collision_free; refine (bool_decide_unpack _ _); vm_compute; exact I.

Definition ex_a : ManifestRecord := ex_record (bstr "a") 1.
Definition ex_b : ManifestRecord := ex_record (bstr "b") 2.
Definition ex_c : ManifestRecord := ex_record (bstr "c") 3.
Definition ex_map : option ptree := tree_after [Upsert ex_a; Upsert ex_b] None.

(** A store that holds the nodes of [ex_map]. *)
Definition ex_store (h : bytes) : res bytes :=
  match find (fun s => bool_decide (phash s = h))
          (match ex_map with Some t => subtrees t | None => [] end) with
  | Some s => Ok (pbytes s)
  | None => Err (MissingObject h)
  end.

Definition ex_edits : list edit :=
  [Upsert ex_c; Lookup (bstr "a"); Remove (bstr "a"); Remove (bstr "x"); Lookup (bstr "a");
   Upsert (ex_record (bstr "b") 9)].
(** The same records, entered from scratch. *)
Definition ex_rebuild : list edit := [Upsert (ex_record (bstr "b") 9); Upsert ex_c].

Lemma ex_storable_a : storable ex_a.
Proof. vm_compute. done. Qed.
Lemma ex_storable_b : storable ex_b.
Proof. vm_compute. done. Qed.
Lemma ex_storable_c : storable ex_c.
Proof. vm_compute. done. Qed.
Lemma ex_storable_b' : storable (ex_record (bstr "b") 9).
Proof. vm_compute. done. Qed.

Lemma ex_persisted : persisted ex_store ex_map.
Proof.
  destruct (tree_edit_ok (Upsert ex_a) None ex_storable_a I I) as [W1 L1].
  destruct (tree_edit_ok (Upsert ex_b) _ ex_storable_b W1 L1) as [W2 L2].
  split; [exact W2|exact L2|].
  assert (Forall (fun s => ex_store (phash s) = Ok (pbytes s))
    (match ex_map with Some t => subtrees t | None => [] end)) as Hs
    by (by_decision).
  unfold durable_opt. destruct ex_map as [t|]; [|done].
  by rewrite Forall_forall in Hs.
Qed.

Lemma ex_edits_ok : Forall edit_ok ex_edits.
Proof.
  repeat apply Forall_cons_2; try exact I; [apply ex_storable_c|apply ex_storable_b'|constructor].
Qed.

Lemma editor_refines_map_witness :
  (run_edits ex_store ex_edits (editor_new (ohash ex_map))).1
  = Ok [Done; Found (Some ex_a); Removed true; Removed false; Found None; Done].
Proof.
  rewrite (editor_refines_map ex_store ex_map ex_edits ex_persisted ex_edits_ok);
    [vm_compute; reflexivity|]. by_decision.
Defined.

Lemma root_identifies_contents_witness :
  ed_root (run_edits ex_store ex_edits (editor_new (ohash ex_map))).2
  = ed_root (run_edits absent_loader ex_rebuild (editor_new (ohash None))).2.
Proof.
  apply (root_identifies_contents ex_store absent_loader ex_map None ex_edits ex_rebuild).
  - apply ex_persisted.
  - done.
  - apply ex_edits_ok.
  - repeat apply Forall_cons_2; [apply ex_storable_b'|apply ex_storable_c|constructor].
  - by_decision.
  - by_decision.
Defined.

Lemma finish_publishes_witness :
  exists t objects,
    ((_ ← run_edits ex_store ex_edits; finish ex_store) (editor_new (ohash ex_map))).1
      = Ok (phash t, objects)
    /\ persisted (extended ex_store objects) (Some t)
    /\ contents (Some t) = (map_edits ex_edits (contents ex_map)).2
    /\ forall h b, objects !! h = Some b ->
         exists s, s ∈ subtrees t /\ h = phash s /\ b = pbytes s.
Proof.
  apply (finish_publishes ex_store ex_map ex_edits ex_persisted ex_edits_ok).
  - by_decision.
  - intros E. apply (f_equal (fun m => m !! manifest_key (bstr "c"))) in E. vm_compute in E. discriminate E.
Defined.

Lemma build_order_independent_witness :
  build_manifest_map [ex_c; ex_a; ex_b] = build_manifest_map [ex_a; ex_b; ex_c].
Proof.
  apply (build_order_independent [ex_c; ex_a; ex_b] [ex_a; ex_b; ex_c]).
  rewrite Permutation_swap. apply perm_skip, Permutation_swap.
Defined.

Lemma build_correct_witness :
  exists t objects, build_manifest_map [ex_c; ex_a; ex_b] = Ok (phash t, objects)
    /\ persisted (extended absent_loader objects) (Some t)
    /\ contents (Some t) = list_to_map (map keyed [ex_c; ex_a; ex_b]).
Proof.
  apply (build_correct [ex_c; ex_a; ex_b]).
  - done.
  - by_decision.
  - repeat apply Forall_cons_2; [apply ex_storable_c|apply ex_storable_a|apply ex_storable_b|constructor].
  - by_decision.
  - by_decision.
Defined.
