(* ===== verification/Limiter.v ===== *)
(** Rate limiting, [crates/steward/src/limiter.rs] with the policy data of
    [crates/provider/src/factory/rate_limit/mod.rs] and the usage queue of
    [crates/steward/src/limiter_usage.rs]: bucketed sliding windows, the check
    before an action, the charge after it, and their persistence in the control
    table. *)

From stdpp Require Import base list numbers sets sorting gmap strings options.
From Stdlib Require Import ZArith Lia.
From S2P Require Import Prelude RustStd RustText.

Open Scope Z_scope.

(** * Machine arithmetic *)

Definition u64_max : Z := 2 ^ 64 - 1.
(** [u64::saturating_add] *)
Definition sat_add (a b : Z) : Z := Z.min u64_max (a + b).
(** The nearest [i64], for [i64::saturating_add] and [saturating_sub]. *)
Definition sat_i64 (z : Z) : Z := Z.max (- 2 ^ 63) (Z.min (2 ^ 63 - 1) z).
(** [as i64], and the [i64] subtraction of a release build. *)
Definition wrap_i64 (z : Z) : Z := (z + 2 ^ 63) mod 2 ^ 64 - 2 ^ 63.

(** [std::time::Duration], in nanoseconds. *)
Definition Duration : Type := Z.
Definition as_secs (d : Duration) : Z := d / 1000000000.
Definition as_micros (d : Duration) : Z := d / 1000.
Definition from_secs (s : Z) : Duration := s * 1000000000.
Definition from_micros (s : Z) : Duration := s * 1000.

(** * Policy *)

Inductive LimitUnit := Bytes | Ops.

#[export] Instance LimitUnit_eq_dec : EqDecision LimitUnit.
Proof. solve_decision. Defined.

Definition unit_as_str (u : LimitUnit) : bytes :=
  match u with Bytes => bstr "bytes" | Ops => bstr "ops" end.

Inductive RateParseError :=
| Malformed (unit : bytes)
| UnknownScale (scale : bytes)
| DecimalByteScale (got want : bytes)
| UnknownPeriod (period : bytes)
| UnknownDimension (name : bytes).

Definition unit_parse (s : bytes) : outcome RateParseError LimitUnit :=
  if bool_decide (s = bstr "bytes") then Ok Bytes
  else if bool_decide (s = bstr "ops") then Ok Ops
  else Err (UnknownDimension s).

(** A [match] on a string with the given arms. *)
Fixpoint str_match {A} (s : bytes) (arms : list (bytes * A)) : option A :=
  match arms with
  | [] => None
  | (pat, a) :: arms => if bool_decide (s = pat) then Some a else str_match s arms
  end.

Definition parse_scale (s : bytes) : outcome RateParseError (LimitUnit * Z) :=
  match str_match s [(bstr "B", 1); (bstr "KiB", 1024); (bstr "MiB", 1024 * 1024);
                     (bstr "GiB", 1024 * 1024 * 1024); (bstr "TiB", 1024 * 1024 * 1024 * 1024)] with
  | Some scale => Ok (Bytes, scale)
  | None =>
      match str_match s [(bstr "kB", bstr "KiB"); (bstr "KB", bstr "KiB"); (bstr "MB", bstr "MiB");
                         (bstr "GB", bstr "GiB"); (bstr "TB", bstr "TiB")] with
      | Some want => Err (DecimalByteScale s want)
      | None =>
          match str_match s [(bstr "iops", tt); (bstr "ops", tt); (bstr "op", tt)] with
          | Some _ => Ok (Ops, 1)
          | None => Err (UnknownScale s)
          end
      end
  end.

Definition parse_period (s : bytes) : outcome RateParseError Duration :=
  match str_match s [(bstr "second", 1); (bstr "seconds", 1); (bstr "s", 1);
                     (bstr "minute", 60); (bstr "minutes", 60); (bstr "m", 60);
                     (bstr "hour", 3600); (bstr "hours", 3600); (bstr "h", 3600);
                     (bstr "day", 86400); (bstr "days", 86400); (bstr "d", 86400)] with
  | Some secs => Ok (from_secs secs)
  | None => Err (UnknownPeriod s)
  end.

Definition parse_unit (unit : bytes) : outcome RateParseError (LimitUnit * Z * Duration) :=
  match split_on SLASH unit with
  | [scale_part; period_part] =>
      let scale_text := trim scale_part in
      let period_text := trim period_part in
      if bool_decide (scale_text = []) || bool_decide (period_text = []) then Err (Malformed unit) else
      '(dimension, scale) ← parse_scale scale_text;
      w ← parse_period period_text;
      Ok (dimension, scale, w)
  | _ => Err (Malformed unit)
  end.

Record RateSpec := {
  spec_unit : LimitUnit;
  amount : Z;
  window : Duration;
  burst : Z;
}.

(** * Windows *)

Definition bucket_count (w : Duration) : Z :=
  let s := as_secs w in
  if s =? 86400 then 96 else if s =? 3600 then 60 else if s =? 60 then 60 else 20.

Definition window_micros (w : Duration) : Z := Z.min (2 ^ 63 - 1) (as_micros w).
Definition bucket_micros (w : Duration) : Z := Z.max 1 (window_micros w / bucket_count w).

(** Bucket start to amount charged. *)
Abbreviation Buckets := (gmap Z Z).

Module Buckets.
(** The entries of a [BTreeMap], in key order, and those of [range(cutoff..)]. *)
Definition entries (b : Buckets) : list (Z * Z) := sort_by (cmp_on fst Z.compare) (map_to_list b).
Definition range_from (cutoff : Z) (b : Buckets) : list (Z * Z) := filter (fun e => cutoff <= e.1) (entries b).
(** [*entry(start).or_insert(0)] saturating-added [amt]. *)
Definition charge (start amt : Z) (b : Buckets) : Buckets :=
  <[start := sat_add (default 0 (b !! start)) amt]> b.

Definition add (now bucket amt : Z) (b : Buckets) : Buckets :=
  charge (wrap_i64 (now - now mod bucket)) amt b.

Definition sum_since (now span : Z) (b : Buckets) : Z :=
  fold_left sat_add (map snd (range_from (sat_i64 (now - span)) b)) 0.

Definition prune (now window bucket : Z) (b : Buckets) : Buckets :=
  let cutoff := sat_i64 (sat_i64 (now - window) - bucket) in
  filter (fun e => cutoff <= e.1) b.

Definition merge (b other : Buckets) : Buckets :=
  fold_left (fun b e => charge e.1 e.2 b) (entries other) b.

Definition total (b : Buckets) : Z := fold_left sat_add (map snd (entries b)) 0.

Definition oldest_start (now window : Z) (b : Buckets) : option Z :=
  fst <$> head (filter (fun e => 0 < e.2) (range_from (sat_i64 (now - window)) b)).

(** The serialised form is the sequence of pairs; collecting it lets a later
    pair replace an earlier one. *)
Definition serialize (b : Buckets) : list (Z * Z) := entries b.
Definition deserialize (l : list (Z * Z)) : Buckets := fold_left (fun b e => <[e.1 := e.2]> b) l ∅.
End Buckets.

(** The persisted window, as the derived JSON object has it. *)
Record StoredWindow := {
  v : Z;
  stored_unit : LimitUnit;
  stored_window_us : Z;
  stored_bucket_us : Z;
  stored_buckets : list (Z * Z);
  stored_observed : list (Z * Z);
  stored_since : option Z;
}.

Definition STORED_WINDOW_VERSION : Z := 1.

Record UsageSample := {
  at_us : Z;
  sample_limiter : bytes;
  sample_unit : bytes;
  sample_amount : Z;
  sample_observed : Z;
  sample_used : Z;
  sample_limit : Z;
  sample_window_us : Z;
}.

(** The derived [serde_json] text of the two record types: reading what was
    written gives it back, and no text is empty. *)
Class LimiterJson := {
  window_to_string : StoredWindow -> bytes;
  window_from_str : bytes -> option StoredWindow;
  samples_to_string : list UsageSample -> bytes;
  samples_from_str : bytes -> option (list UsageSample);
  window_json : forall w, window_from_str (window_to_string w) = Some w;
  window_nonempty : forall w, window_to_string w <> [];
  samples_json : forall l, samples_from_str (samples_to_string l) = Some l;
  samples_nonempty : forall l, samples_to_string l <> [];
}.

(** The control table: the settings it caches, over a Delta table whose write
    may fail. *)
Class ControlBackend := { config_set : bytes -> bytes -> outcome bytes unit }.

Record ControlTable := { raw_settings : gmap bytes bytes }.

Definition raw_config_get (c : ControlTable) (key : bytes) : outcome bytes (option bytes) :=
  Ok (raw_settings c !! key).

Definition raw_config_set `{ControlBackend} (c : ControlTable) (key value : bytes) : outcome bytes ControlTable :=
  _ ← config_set key value;
  Ok {| raw_settings := <[key := value]> (raw_settings c) |}.

(** * Limiters *)

Inductive LimiterError :=
| NotFound (path reason : bytes)
| NotRateLimit (path reason : bytes)
| UnitMismatch (path : bytes) (configured expected : LimitUnit)
| Exceeded (path : bytes) (unit : LimitUnit) (used limit requested window_secs retry_after_secs : Z)
| Control (path reason : bytes).

Definition is_exceeded (e : LimiterError) : bool := match e with Exceeded _ _ _ _ _ _ _ => true | _ => false end.

Record Limiter := {
  path : bytes;
  spec : RateSpec;
  loaded : Buckets;
  pending : Buckets;
  observed_loaded : Buckets;
  observed_pending : Buckets;
  observed_since_us : option Z;
  dirty : bool;
}.

Record LimiterState := {
  st_path : bytes;
  st_unit : LimitUnit;
  st_used : Z;
  st_observed : Z;
  st_observed_since_us : option Z;
  st_observed_window_complete : bool;
  st_limit : Z;
  st_burst_used : Z;
  st_burst_observed : Z;
  st_burst : Z;
  st_window : Duration;
  st_burst_window : Duration;
  st_reset_in : Duration;
  st_burst_reset_in : Duration;
}.

Definition LIMITER_KEY_PREFIX : bytes := bstr "limiter:".
Definition limiter_key (path : bytes) : bytes := LIMITER_KEY_PREFIX ++ path.

(** [span as i64] of the [i128] quotient, clamped; [clamp] panics on an empty range. *)
Definition burst_span_micros (s : RateSpec) (window_us : Z) : outcome LimiterError Z :=
  if amount s =? 0 then Ok window_us else
  if window_us <? 1 then Panic else
  Ok (Z.min window_us (Z.max 1 (wrap_i64 (window_us * burst s ÷ amount s)))).

Section Limiter.
Context `{LimiterJson, ControlBackend}.

Definition set_pending (b : Buckets) (d : bool) (l : Limiter) : Limiter :=
  {| path := path l; spec := spec l; loaded := loaded l; pending := b;
     observed_loaded := observed_loaded l; observed_pending := observed_pending l;
     observed_since_us := observed_since_us l; dirty := d |}.

(** The window a control value holds for the policy; a value that measures
    something else, or does not parse, is an empty window. *)
Definition load_window (s : RateSpec) (raw : option bytes) : Buckets * Buckets * option Z :=
  let empty : Buckets * Buckets * option Z := (∅, ∅, None) in
  match raw with
  | None => empty
  | Some text =>
      if bool_decide (text = []) then empty else
      match window_from_str text with
      | Some w =>
          if (v w =? STORED_WINDOW_VERSION) && bool_decide (stored_unit w = spec_unit s)
             && (stored_window_us w =? window_micros (window s))
          then (Buckets.deserialize (stored_buckets w), Buckets.deserialize (stored_observed w), stored_since w)
          else empty
      | None => empty
      end
  end.

Definition bind_limiter (c : ControlTable) (p : bytes) (s : RateSpec) (expect : LimitUnit) : outcome LimiterError Limiter :=
  if negb (bool_decide (spec_unit s = expect)) then Err (UnitMismatch p (spec_unit s) expect) else
  match raw_config_get c (limiter_key p) with
  | Err reason => Err (Control p reason)
  | Panic => Panic
  | Ok raw =>
      let '(ld, obs, since) := load_window s raw in
      Ok {| path := p; spec := s; loaded := ld; pending := ∅; observed_loaded := obs;
            observed_pending := ∅; observed_since_us := since; dirty := false |}
  end.

Definition used_at (l : Limiter) (now span : Z) : Z :=
  sat_add (Buckets.sum_since now span (loaded l)) (Buckets.sum_since now span (pending l)).
Definition observed_at (l : Limiter) (now span : Z) : Z :=
  sat_add (Buckets.sum_since now span (observed_loaded l)) (Buckets.sum_since now span (observed_pending l)).

(** [into_iter().chain(..).min()] of two options. *)
Definition min_option (a b : option Z) : option Z :=
  match a, b with
  | Some x, Some y => Some (Z.min x y)
  | Some x, None | None, Some x => Some x
  | None, None => None
  end.

Definition retry_after_secs (l : Limiter) (now span : Z) : Z :=
  match min_option (Buckets.oldest_start now span (loaded l)) (Buckets.oldest_start now span (pending l)) with
  | None => 0
  | Some start =>
      let expires_at := sat_i64 (start + span) in
      let remaining := Z.max 0 (sat_i64 (expires_at - now)) in
      let secs := remaining / 1000000 + (if remaining mod 1000000 =? 0 then 0 else 1) in
      Z.max 1 secs
  end.

Definition exceeded (l : Limiter) (now used requested window_us : Z) : LimiterError :=
  Exceeded (path l) (spec_unit (spec l)) used (amount (spec l)) requested
    (Z.max 1 (Z.quot window_us 1000000)) (retry_after_secs l now window_us).

Definition check_at (l : Limiter) (now amt : Z) : outcome LimiterError unit :=
  let window_us := window_micros (window (spec l)) in
  if amount (spec l) <? amt then Err (exceeded l now (used_at l now window_us) amt window_us) else
  let used := used_at l now window_us in
  if amount (spec l) <? sat_add used amt then Err (exceeded l now used amt window_us) else
  if burst (spec l) <? amount (spec l) then
    burst_span ← burst_span_micros (spec l) window_us;
    let burst_used := used_at l now burst_span in
    if burst (spec l) <? sat_add burst_used amt then
      Err (Exceeded (path l) (spec_unit (spec l)) burst_used (burst (spec l)) amt
             (Z.max 1 (Z.quot burst_span 1000000)) (retry_after_secs l now burst_span))
    else Ok tt
  else Ok tt.

Definition record_at (l : Limiter) (now amt : Z) : Limiter :=
  if amt =? 0 then l
  else set_pending (Buckets.add now (bucket_micros (window (spec l))) amt (pending l)) true l.

Definition record_observed_at (l : Limiter) (now amt : Z) : Limiter :=
  if amt =? 0 then l
  else {| path := path l; spec := spec l; loaded := loaded l; pending := pending l;
          observed_loaded := observed_loaded l;
          observed_pending := Buckets.add now (bucket_micros (window (spec l))) amt (observed_pending l);
          observed_since_us := match observed_since_us l with None => Some now | Some t => Some t end;
          dirty := true |}.

Definition spent (l : Limiter) : Z := Buckets.total (pending l).

Definition discard_pending (l : Limiter) : Limiter := set_pending ∅ (dirty l) l.

Definition state_at (l : Limiter) (now : Z) : outcome LimiterError LimiterState :=
  let window_us := window_micros (window (spec l)) in
  burst_us ← burst_span_micros (spec l) window_us;
  Ok {| st_path := path l; st_unit := spec_unit (spec l);
        st_used := used_at l now window_us; st_observed := observed_at l now window_us;
        st_observed_since_us := observed_since_us l;
        st_observed_window_complete :=
          match observed_since_us l with Some since => window_us <=? sat_i64 (now - since) | None => false end;
        st_limit := amount (spec l);
        st_burst_used := used_at l now burst_us; st_burst_observed := observed_at l now burst_us;
        st_burst := burst (spec l); st_window := window (spec l);
        st_burst_window := from_micros (if burst_us <? 0 then u64_max else burst_us);
        st_reset_in := from_secs (retry_after_secs l now window_us);
        st_burst_reset_in := from_secs (retry_after_secs l now burst_us) |}.

(** [commit_window_at]: one write of the control table, none when nothing was
    recorded.  A failed write leaves the limiter as it was. *)
Definition commit_window_at (l : Limiter) (c : ControlTable) (now : Z)
  : outcome LimiterError (option UsageSample) * Limiter * ControlTable :=
  if negb (dirty l) then (Ok None, l, c) else
  let window_us := window_micros (window (spec l)) in
  let bucket_us := bucket_micros (window (spec l)) in
  let merged := Buckets.prune now window_us bucket_us (Buckets.merge (loaded l) (pending l)) in
  let observed_merged :=
    Buckets.prune now window_us bucket_us (Buckets.merge (observed_loaded l) (observed_pending l)) in
  let text := window_to_string
    {| v := STORED_WINDOW_VERSION; stored_unit := spec_unit (spec l); stored_window_us := window_us;
       stored_bucket_us := bucket_us; stored_buckets := Buckets.serialize merged;
       stored_observed := Buckets.serialize observed_merged; stored_since := observed_since_us l |} in
  match raw_config_set c (limiter_key (path l)) text with
  | Err reason => (Err (Control (path l) reason), l, c)
  | Panic => (Panic, l, c)
  | Ok c =>
      let l' := {| path := path l; spec := spec l; loaded := merged; pending := ∅;
                   observed_loaded := observed_merged; observed_pending := ∅;
                   observed_since_us := observed_since_us l; dirty := false |} in
      let amt := spent l in
      let observed := Buckets.total (observed_pending l) in
      if (amt =? 0) && (observed =? 0) then (Ok None, l', c) else
      match state_at l' now with
      | Ok state =>
          (Ok (Some {| at_us := now; sample_limiter := st_path state; sample_unit := unit_as_str (st_unit state);
                       sample_amount := amt; sample_observed := observed; sample_used := st_used state;
                       sample_limit := st_limit state; sample_window_us := window_us |}), l', c)
      | Err e => (Err e, l', c)
      | Panic => (Panic, l', c)
      end
  end.

(** * The usage queue *)

Definition LIMITER_USAGE_PENDING_KEY : bytes := bstr "limiter-usage-pending".
Definition MAX_PENDING : nat := Z.to_nat 4096.

Definition read_pending (c : ControlTable) : list UsageSample :=
  match raw_config_get c LIMITER_USAGE_PENDING_KEY with
  | Ok (Some text) =>
      if bool_decide (text = []) then [] else
      match samples_from_str text with Some l => l | None => [] end
  | _ => []
  end.

(** A failed write is logged and dropped. *)
Definition set_or_keep (c : ControlTable) (key text : bytes) : ControlTable :=
  match raw_config_set c key text with Ok c => c | _ => c end.

Definition queue (c : ControlTable) (samples : list UsageSample) : ControlTable :=
  match samples with
  | [] => c
  | _ =>
      let all := read_pending c ++ samples in
      let all := if (MAX_PENDING <? length all)%nat then drop (length all - MAX_PENDING) all else all in
      set_or_keep c LIMITER_USAGE_PENDING_KEY (samples_to_string all)
  end.

Definition drop_emitted (c : ControlTable) (count : nat) : ControlTable :=
  if (count =? 0)%nat then c else
  let all := read_pending c in
  let remaining := drop (Nat.min count (length all)) all in
  let text := match remaining with [] => [] | _ => samples_to_string remaining end in
  set_or_keep c LIMITER_USAGE_PENDING_KEY text.

Definition commit_at (l : Limiter) (c : ControlTable) (now : Z) : outcome LimiterError unit * Limiter * ControlTable :=
  let '(r, l, c) := commit_window_at l c now in
  match r with
  | Ok sample => (Ok tt, l, queue c (option_list sample))
  | Err e => (Err e, l, c)
  | Panic => (Panic, l, c)
  end.
End Limiter.

(** * Limiter sets *)

Record LimiterSet := {
  bound : list Limiter;
  ignored : bool;
  observed_ops : Z;
  observed_bytes : Z;
}.

Definition unlimited : LimiterSet := {| bound := []; ignored := false; observed_ops := 0; observed_bytes := 0 |}.

Definition ignore_setting (value : option bytes) : bool :=
  match value with
  | Some v => match str_match (map ascii_lower (trim v)) [(bstr "1", tt); (bstr "true", tt); (bstr "yes", tt)] with
              | Some _ => true | None => false end
  | None => false
  end.

Section Set_.
Context `{LimiterJson, ControlBackend}.
(** The bytes of a pond node, and the YAML of its policy. *)
Variable read_node_bytes : bytes -> outcome LimiterError bytes.
Variable spec_from_config_bytes : bytes -> outcome bytes RateSpec.

Definition limiter_open (c : ControlTable) (p : bytes) (expect : LimitUnit) : outcome LimiterError Limiter :=
  config ← read_node_bytes p;
  s ← match spec_from_config_bytes config with
      | Ok s => Ok s | Err reason => Err (NotRateLimit p reason) | Panic => Panic end;
  bind_limiter c p s expect.

Fixpoint open_all (c : ControlTable) (bound : list Limiter) (limits : list (LimitUnit * bytes))
  : outcome LimiterError (list Limiter) :=
  match limits with
  | [] => Ok bound
  | (u, p) :: limits =>
      if existsb (fun l => bool_decide (spec_unit (spec l) = u)) bound
      then Err (Control p (bstr "dimension `" ++ unit_as_str u ++ bstr "` is bound more than once"))
      else l ← limiter_open c p u; open_all c (bound ++ [l]) limits
  end.

Definition set_open (env : option bytes) (c : ControlTable) (limits : list (LimitUnit * bytes)) : outcome LimiterError LimiterSet :=
  b ← open_all c [] limits;
  Ok {| bound := b; ignored := ignore_setting env; observed_ops := 0; observed_bytes := 0 |}.

Definition has_unit (u : LimitUnit) (l : Limiter) : bool := bool_decide (spec_unit (spec l) = u).

Definition set_get (s : LimiterSet) (u : LimitUnit) : option Limiter := List.find (has_unit u) (bound s).

Definition set_check (s : LimiterSet) (now : Z) (u : LimitUnit) (amt : Z) : outcome LimiterError unit :=
  if ignored s then Ok tt else
  match set_get s u with Some l => check_at l now amt | None => Ok tt end.

(** [iter_mut().find(..)]: the first limiter of the dimension changes. *)
Fixpoint update_first (p : Limiter -> bool) (f : Limiter -> Limiter) (ls : list Limiter) : list Limiter :=
  match ls with
  | [] => []
  | l :: ls => if p l then f l :: ls else l :: update_first p f ls
  end.

Definition with_bound (s : LimiterSet) (b : list Limiter) : LimiterSet :=
  {| bound := b; ignored := ignored s; observed_ops := observed_ops s; observed_bytes := observed_bytes s |}.

Definition set_record (s : LimiterSet) (now : Z) (u : LimitUnit) (amt : Z) : LimiterSet :=
  with_bound s (update_first (has_unit u) (fun l => record_at l now amt) (bound s)).

Definition set_record_observed (s : LimiterSet) (u : LimitUnit) (amt : Z) : LimiterSet :=
  match u with
  | Ops => {| bound := bound s; ignored := ignored s; observed_ops := amt; observed_bytes := observed_bytes s |}
  | Bytes => {| bound := bound s; ignored := ignored s; observed_ops := observed_ops s; observed_bytes := amt |}
  end.

Definition set_observed (s : LimiterSet) (u : LimitUnit) : Z :=
  match u with Ops => observed_ops s | Bytes => observed_bytes s end.

Definition discard_ignored_spending (s : LimiterSet) : list (bytes * bytes * Z) * LimiterSet :=
  (omap (fun l => if 0 <? spent l then Some (path l, unit_as_str (spec_unit (spec l)), spent l) else None) (bound s),
   with_bound s (map discard_pending (bound s))).

Definition prepare_windows_at (s : LimiterSet) (now : Z) : list (bytes * bytes * Z) * LimiterSet :=
  let '(spending, s) := if ignored s then discard_ignored_spending s else ([], s) in
  (spending,
   {| bound := map (fun l => record_observed_at l now
                     (match spec_unit (spec l) with Ops => observed_ops s | Bytes => observed_bytes s end)) (bound s);
      ignored := ignored s; observed_ops := 0; observed_bytes := 0 |}).

(** The loop over the bound limiters; it stops at the first error. *)
Fixpoint commit_windows (ls : list Limiter) (c : ControlTable) (now : Z)
  : outcome LimiterError (list UsageSample) * list Limiter * ControlTable :=
  match ls with
  | [] => (Ok [], [], c)
  | l :: ls =>
      let '(r, l, c) := commit_window_at l c now in
      match r with
      | Ok sample =>
          let '(r, ls, c) := commit_windows ls c now in
          match r with
          | Ok samples => (Ok (option_list sample ++ samples), l :: ls, c)
          | Err e => (Err e, l :: ls, c)
          | Panic => (Panic, l :: ls, c)
          end
      | Err e => (Err e, l :: ls, c)
      | Panic => (Panic, l :: ls, c)
      end
  end.

Definition set_commit_at (s : LimiterSet) (c : ControlTable) (now : Z)
  : outcome LimiterError unit * LimiterSet * ControlTable :=
  let '(_, s) := prepare_windows_at s now in
  let '(r, b, c) := commit_windows (bound s) c now in
  match r with
  | Ok samples => (Ok tt, with_bound s b, queue c samples)
  | Err e => (Err e, with_bound s b, c)
  | Panic => (Panic, with_bound s b, c)
  end.
End Set_.
