(* ===== verification/LimiterBudget.v ===== *)
(** What the rate limiter guarantees: charged amounts in a sliding window, over
    every sequence of checked charges, commits and reopenings, and when a denied
    caller can succeed. *)

From stdpp Require Import base list numbers sets sorting gmap strings options.
From Stdlib Require Import ZArith Lia.
From S2P Require Import Prelude RustStd RustText Limiter.

Open Scope Z_scope.

(** * Sums over windows *)

Definition sat (z : Z) : Z := Z.min u64_max z.

Fixpoint zsum (l : list Z) : Z :=
  match l with [] => 0 | x :: l => x + zsum l end.

Lemma zsum_app a b : zsum (a ++ b) = zsum a + zsum b.
Proof. induction a as [|x a IH]; simpl; [done|]. rewrite IH. lia. Qed.

#[export] Instance zsum_perm : Proper ((≡ₚ) ==> (=)) zsum.
Proof. induction 1; simpl in *; lia. Qed.

Lemma zsum_nonneg l : Forall (fun x => 0 <= x) l -> 0 <= zsum l.
Proof. induction 1; simpl in *; lia. Qed.

Lemma fold_sat_add l acc :
  0 <= acc <= u64_max -> Forall (fun x => 0 <= x) l -> fold_left sat_add l acc = sat (acc + zsum l).
Proof.
  intros Hacc Hl. revert acc Hacc. induction Hl as [|x l Hx Hl IH]; intros acc Hacc; simpl.
  { unfold sat. lia. }
  pose proof (zsum_nonneg l Hl). rewrite IH by (unfold sat_add, u64_max in *; lia).
  unfold sat, sat_add. lia.
Qed.

(** What an entry contributes to the window from [c] on. *)
Definition part (c : Z) (e : Z * Z) : Z := if c <=? e.1 then e.2 else 0.
(** The amount in the buckets from [c] on. *)
Definition wsum (c : Z) (b : Buckets) : Z := zsum (map (part c) (map_to_list b)).

Definition nonneg (b : Buckets) : Prop := map_Forall (fun _ x => 0 <= x) b.

Lemma nonneg_entries b : nonneg b -> Forall (fun e => 0 <= e.2) (map_to_list b).
Proof. intros Hb. apply map_Forall_to_list in Hb. eapply Forall_impl; [exact Hb|]. by intros []. Qed.

Lemma part_nonneg c l : Forall (fun e => 0 <= e.2) l -> Forall (fun x => 0 <= x) (map (part c) l).
Proof.
  intros Hl. apply Forall_fmap. eapply Forall_impl; [exact Hl|]. intros [k x] Hx. unfold compose, part.
  simpl in *. destruct (c <=? k); lia.
Qed.

Lemma wsum_nonneg c b : nonneg b -> 0 <= wsum c b.
Proof. intros Hb. apply zsum_nonneg, part_nonneg. by apply nonneg_entries. Qed.

Lemma zsum_filter c l : zsum (map snd (filter (fun e => c <= e.1) l)) = zsum (map (part c) l).
Proof.
  induction l as [|[k x] l IH]; [done|]. rewrite filter_cons. simpl. unfold part at 1. simpl.
  destruct (Z.leb_spec c k); case_decide; try lia; simpl; lia.
Qed.

Lemma sum_since_spec now span b :
  nonneg b -> Buckets.sum_since now span b = sat (wsum (sat_i64 (now - span)) b).
Proof.
  intros Hb. unfold Buckets.sum_since, Buckets.range_from, Buckets.entries. set (c := sat_i64 (now - span)).
  rewrite fold_sat_add.
  - rewrite Z.add_0_l. f_equal. rewrite zsum_filter. unfold wsum.
    by rewrite (sort_by_perm (cmp_on fst Z.compare) (map_to_list b)).
  - unfold u64_max. lia.
  - apply Forall_fmap, Forall_forall. intros e [_ He]%list_elem_of_filter. rewrite sort_by_perm in He.
    pose proof (nonneg_entries b Hb) as Hn. rewrite Forall_forall in Hn. by apply Hn.
Qed.

Lemma total_spec b : nonneg b -> Buckets.total b = sat (zsum (map snd (map_to_list b))).
Proof.
  intros Hb. unfold Buckets.total, Buckets.entries. rewrite fold_sat_add.
  - rewrite Z.add_0_l. by rewrite (sort_by_perm (cmp_on fst Z.compare) (map_to_list b)).
  - unfold u64_max. lia.
  - apply Forall_fmap. rewrite sort_by_perm. eapply Forall_impl; [by apply nonneg_entries|done].
Qed.

Lemma wsum_insert c k x b :
  wsum c (<[k := x]> b) = wsum c b - part c (k, default 0 (b !! k)) + part c (k, x).
Proof.
  unfold wsum. rewrite <- insert_delete_eq.
  rewrite (map_to_list_insert (delete k b)) by apply lookup_delete_eq. cbn [map zsum].
  destruct (b !! k) as [y|] eqn:E; simpl.
  - rewrite <- (map_to_list_delete b k y E). simpl. lia.
  - rewrite delete_id by done.
    unfold part at 4. simpl. destruct (c <=? k); lia.
Qed.

Lemma nonneg_insert k x b : 0 <= x -> nonneg b -> nonneg (<[k := x]> b).
Proof. intros Hx Hb. by apply map_Forall_insert_2. Qed.

Lemma nonneg_default k b : nonneg b -> 0 <= default 0 (b !! k).
Proof. intros Hb. destruct (b !! k) as [x|] eqn:E; simpl; [|done]. by apply (Hb k). Qed.

(** A charge adds to every window that holds its bucket, up to saturation. *)
Lemma wsum_charge c k a b :
  nonneg b -> 0 <= a -> sat (wsum c (Buckets.charge k a b)) = sat (wsum c b + part c (k, a))
  /\ nonneg (Buckets.charge k a b).
Proof.
  intros Hb Ha. pose proof (nonneg_default k b Hb) as Hk. unfold Buckets.charge. split.
  2:{ apply nonneg_insert; [unfold sat_add, u64_max; lia|done]. }
  rewrite wsum_insert. pose proof (wsum_nonneg c b Hb) as Hw.
  assert (part c (k, default 0 (b !! k)) <= wsum c b) as Hle.
  { destruct (b !! k) as [y|] eqn:E; [|unfold part; simpl; destruct (c <=? k); lia].
    unfold wsum. rewrite <- (map_to_list_delete b k y E). simpl.
    pose proof (wsum_nonneg c (delete k b)) as Hd. unfold wsum in Hd. apply Z.le_sub_le_add_l.
    rewrite Z.sub_diag. apply Hd. by apply map_Forall_delete. }
  unfold part in *. simpl in *. unfold sat, sat_add. destruct (c <=? k); lia.
Qed.

Lemma wsum_merge_list c l b :
  nonneg b -> Forall (fun e => 0 <= e.2) l ->
  sat (wsum c (fold_left (fun b e => Buckets.charge e.1 e.2 b) l b)) = sat (wsum c b + zsum (map (part c) l))
  /\ nonneg (fold_left (fun b e => Buckets.charge e.1 e.2 b) l b).
Proof.
  intros Hb Hl. revert b Hb. induction Hl as [|[k a] l Ha Hl IH]; intros b Hb; simpl in *.
  { by rewrite Z.add_0_r. }
  destruct (wsum_charge c k a b Hb Ha) as [Hs Hn]. destruct (IH _ Hn) as [-> Hn']. split; [|done].
  pose proof (zsum_nonneg _ (part_nonneg c l Hl)). pose proof (wsum_nonneg c b Hb). pose proof (wsum_nonneg c _ Hn).
  unfold part in *. simpl in *. unfold sat in *. destruct (c <=? k); lia.
Qed.

Lemma wsum_merge c b other :
  nonneg b -> nonneg other ->
  sat (wsum c (Buckets.merge b other)) = sat (wsum c b + wsum c other) /\ nonneg (Buckets.merge b other).
Proof.
  intros Hb Ho. unfold Buckets.merge, Buckets.entries.
  destruct (wsum_merge_list c (sort_by (cmp_on fst Z.compare) (map_to_list other)) b Hb) as [-> Hn].
  - rewrite sort_by_perm. by apply nonneg_entries.
  - split; [|done]. unfold wsum at 3. by rewrite (sort_by_perm (cmp_on fst Z.compare) (map_to_list other)).
Qed.

(** Pruning keeps what any later window sees. *)
Lemma wsum_prune c now w bk b :
  nonneg b -> sat_i64 (sat_i64 (now - w) - bk) <= c ->
  wsum c (Buckets.prune now w bk b) = wsum c b /\ nonneg (Buckets.prune now w bk b).
Proof.
  intros Hb Hc. split; [|intros k x [Hx _]%map_lookup_filter_Some; by apply (Hb k)]. unfold Buckets.prune.
  set (cut := sat_i64 (sat_i64 (now - w) - bk)) in *. clear Hb.
  induction b as [|k x b Hk IH] using map_ind; [by rewrite map_filter_empty|].
  unfold wsum in *. rewrite (map_to_list_insert b) by done. simpl. destruct (decide (cut <= k)) as [Hin|Hout].
  - rewrite map_filter_insert_True by done. rewrite map_to_list_insert by (apply map_lookup_filter_None; by left).
    simpl. lia.
  - rewrite map_filter_insert_not by done.
    assert (part c (k, x) = 0) as -> by (unfold part; simpl; destruct (Z.leb_spec c k); lia). done.
Qed.

(** * The persisted form *)

Lemma collect_pairs (l : list (Z * Z)) (b : Buckets) :
  NoDup (map fst l) -> fold_left (fun b e => <[e.1 := e.2]> b) l b = list_to_map l ∪ b.
Proof.
  revert b. induction l as [|[k x] l IH]; intros b; cbn [map fold_left].
  { intros _. change (b = ∅ ∪ b). by rewrite map_empty_union. }
  intros [Hk Hl]%NoDup_cons. rewrite IH by done. cbn [fst snd]. rewrite list_to_map_cons.
  rewrite <- insert_union_l. rewrite insert_union_r; [done|]. by apply not_elem_of_list_to_map_1.
Qed.

Lemma buckets_round_trip b : Buckets.deserialize (Buckets.serialize b) = b.
Proof.
  unfold Buckets.deserialize, Buckets.serialize, Buckets.entries.
  assert (NoDup (map fst (sort_by (cmp_on fst Z.compare) (map_to_list b)))) as Hn.
  { rewrite sort_by_perm. apply NoDup_fst_map_to_list. }
  rewrite collect_pairs by done. rewrite map_union_empty.
  rewrite (list_to_map_proper _ (map_to_list b)); [apply list_to_map_to_list|done|apply sort_by_perm].
Qed.

(** * Sessions *)

Lemma sat_i64_small z : - 2 ^ 63 <= z < 2 ^ 63 -> sat_i64 z = z.
Proof. unfold sat_i64. lia. Qed.

Lemma wrap_i64_small z : - 2 ^ 63 <= z < 2 ^ 63 -> wrap_i64 z = z.
Proof. intros Hz. unfold wrap_i64. rewrite Z.mod_small; [lia|]. change (2 ^ 64) with (2 * 2 ^ 63). lia. Qed.

Section Budget.
Context `{LimiterJson, ControlBackend}.
Variable p : bytes.
Variable s : RateSpec.

Abbreviation W := (window_micros (window s)).
Abbreviation bk := (bucket_micros (window s)).

(** Clock readings and window lengths far from the ends of the [i64] range. *)
Hypothesis window_bound : 0 < W < 2 ^ 62.
Hypothesis amount_bound : 0 <= amount s < u64_max.
#[local] Set Default Proof Using "Type*".

Lemma bucket_bound : 0 < bk <= W.
Proof using window_bound.
  unfold bucket_micros. assert (0 < bucket_count (window s)) as Hc
    by (unfold bucket_count; repeat destruct (_ =? _); lia).
  pose proof (Z.div_le_upper_bound W (bucket_count (window s)) W Hc). nia.
Qed.

(** The life of a limiter, with the charges it admitted (time, amount), newest
    first, and the latest clock reading: it is opened with no stored window,
    spends after a check, observes traffic, commits (successfully or not), other
    keys of the control table change, and it is opened again after a commit. *)
Inductive session : Limiter -> ControlTable -> list (Z * Z) -> Z -> Prop :=
| s_open c l :
    raw_settings c !! limiter_key p = None -> bind_limiter c p s (spec_unit s) = Ok l -> session l c [] 0
| s_spend l c h t t' a :
    session l c h t -> t <= t' < 2 ^ 62 -> 0 <= a ->
    check_at l t' a = Ok tt -> session (record_at l t' a) c ((t', a) :: h) t'
| s_observe l c h t t' a :
    session l c h t -> t <= t' < 2 ^ 62 -> session (record_observed_at l t' a) c h t'
| s_commit l c h t t' r l' c' :
    session l c h t -> t <= t' < 2 ^ 62 -> commit_window_at l c t' = (r, l', c') -> session l' c' h t'
| s_other l c h t c' :
    session l c h t -> raw_settings c' !! limiter_key p = raw_settings c !! limiter_key p -> session l c' h t
| s_reopen l c h t l' :
    session l c h t -> dirty l = false -> bind_limiter c p s (spec_unit s) = Ok l' -> session l' c h t.

Definition start_of (t : Z) : Z := t - t mod bk.
(** The charges whose buckets start at [c] or later. *)
Definition counted (c : Z) (h : list (Z * Z)) : Z := zsum (map (fun e => part c (start_of e.1, e.2)) h).

Definition stored_loaded (c : ControlTable) : Buckets := (load_window s (raw_settings c !! limiter_key p)).1.1.

(** The buckets hold the admitted charges, as far back as any later check looks. *)
Record tracks (l : Limiter) (c : ControlTable) (h : list (Z * Z)) (t : Z) : Prop := {
  tr_path : path l = p;
  tr_spec : spec l = s;
  tr_now : 0 <= t < 2 ^ 62;
  tr_loaded : nonneg (loaded l);
  tr_pending : nonneg (pending l);
  tr_times : Forall (fun e => 0 <= e.1 <= t /\ 0 <= e.2) h;
  tr_sum : forall x, t - W - bk <= x -> sat (wsum x (loaded l) + wsum x (pending l)) = sat (counted x h);
  tr_clean : dirty l = false -> pending l = ∅ /\ loaded l = stored_loaded c;
}.

Lemma bind_spec c l : bind_limiter c p s (spec_unit s) = Ok l ->
  path l = p /\ spec l = s /\ pending l = ∅ /\ dirty l = false /\ loaded l = stored_loaded c.
Proof using.
  unfold bind_limiter, raw_config_get, stored_loaded. rewrite bool_decide_true by done. cbn [negb].
  destruct (load_window s _) as [[ld obs] since]. by intros [= <-].
Qed.

Lemma used_at_spec l c h t t' span :
  tracks l c h t -> t <= t' < 2 ^ 62 -> 0 <= span <= W -> used_at l t' span = sat (counted (t' - span) h).
Proof.
  intros [T1 T2 T3 T4 T5 T6 T7 T8] Ht Hs. unfold used_at. rewrite !sum_since_spec by done.
  rewrite sat_i64_small by lia. pose proof bucket_bound. rewrite <- T7 by lia.
  pose proof (wsum_nonneg (t' - span) _ T4). pose proof (wsum_nonneg (t' - span) _ T5). unfold sat, sat_add, u64_max. lia.
Qed.

Lemma counted_nonneg x h t : Forall (fun e => 0 <= e.1 <= t /\ 0 <= e.2) h -> 0 <= counted x h.
Proof using.
  intros Hh. apply zsum_nonneg, Forall_fmap. eapply Forall_impl; [exact Hh|]. intros e [_ He]. unfold compose, part.
  cbn [fst snd]. destruct (x <=? start_of e.1); lia.
Qed.

Lemma tracks_spend l c h t t' a :
  tracks l c h t -> t <= t' < 2 ^ 62 -> 0 <= a -> tracks (record_at l t' a) c ((t', a) :: h) t'.
Proof.
  intros [T1 T2 T3 T4 T5 T6 T7 T8] Ht Ha. pose proof bucket_bound as Hbk.
  assert (Forall (fun e => 0 <= e.1 <= t' /\ 0 <= e.2) ((t', a) :: h)) as Hh.
  { constructor; [cbn [fst snd]; lia|]. eapply Forall_impl; [exact T6|]. cbv beta. lia. }
  pose proof (Z.mod_pos_bound t' bk ltac:(lia)) as Hm.
  unfold record_at. destruct (Z.eqb_spec a 0) as [->|Hne].
  - split; [done|done|lia|done|done|done| |done]. intros x Hx. rewrite T7 by lia.
    unfold counted. cbn [map zsum]. unfold part at 2. cbn [fst snd]. by destruct (x <=? _).
  - rewrite T2. unfold Buckets.add. rewrite wrap_i64_small by lia. fold (start_of t').
    destruct (wsum_charge 0 (start_of t') a (pending l) T5 Ha) as [_ Hn].
    split; cbn [set_pending path spec loaded pending dirty]; [done|done|lia|done|done|done| |done].
    intros x Hx. destruct (wsum_charge x (start_of t') a (pending l) T5 Ha) as [Hs _].
    specialize (T7 x ltac:(lia)). pose proof (counted_nonneg x h t T6). pose proof (wsum_nonneg x _ T4).
    pose proof (wsum_nonneg x _ T5). pose proof (wsum_nonneg x _ Hn).
    unfold counted in *. cbn [map zsum fst snd]. unfold part in *. cbn [fst snd] in *.
    unfold sat, u64_max in *. destruct (x <=? start_of t'); lia.
Qed.

Lemma tracks_commit l c h t t' r l' c' :
  tracks l c h t -> t <= t' < 2 ^ 62 -> commit_window_at l c t' = (r, l', c') -> tracks l' c' h t'.
Proof.
  intros [T1 T2 T3 T4 T5 T6 T7 T8] Ht. pose proof bucket_bound as Hbk.
  assert (Forall (fun e => 0 <= e.1 <= t' /\ 0 <= e.2) h) as Hh.
  { eapply Forall_impl; [exact T6|]. cbv beta. lia. }
  assert (tracks l c h t') as Hkeep by (split; [done|done|lia|done|done|done|intros x Hx; apply T7; lia|done]).
  unfold commit_window_at. destruct (dirty l) eqn:Ed; cbn [negb]; [|by intros [= <- <- <-]].
  rewrite T1, T2. unfold raw_config_set. set (text := window_to_string _).
  destruct (config_set (limiter_key p) text) as [[]|e|]; cbn [mbind outcome_bind];
    [|by intros [= <- <- <-]|by intros [= <- <- <-]].
  set (merged := Buckets.prune t' W bk (Buckets.merge (loaded l) (pending l))) in *.
  assert (forall l0 c0, path l0 = p -> spec l0 = s -> loaded l0 = merged -> pending l0 = ∅ ->
      raw_settings c0 = <[limiter_key p := text]> (raw_settings c) -> tracks l0 c0 h t') as Hnew.
  { intros l0 c0 E1 E2 E3 E4 E5. destruct (wsum_merge 0 (loaded l) (pending l) T4 T5) as [_ Hm].
    assert (sat_i64 (sat_i64 (t' - W) - bk) = t' - W - bk) as Ecut by (rewrite (sat_i64_small (t' - W)) by lia; apply sat_i64_small; lia).
    assert (nonneg merged) as Hn by (apply (wsum_prune (t' - W - bk) t' W bk _ Hm); lia).
    split; [done|done|lia|by rewrite E3|by rewrite E4|done| |].
    - intros x Hx. rewrite E3, E4. destruct (wsum_prune x t' W bk _ Hm ltac:(lia)) as [Hp _]. subst merged. rewrite Hp.
      change (wsum x ∅) with 0. rewrite Z.add_0_r. destruct (wsum_merge x (loaded l) (pending l) T4 T5) as [-> _].
      apply T7. lia.
    - intros _. split; [done|]. rewrite E3. unfold stored_loaded. rewrite E5, lookup_insert_eq.
      unfold load_window. rewrite bool_decide_false by apply window_nonempty. subst text. rewrite window_json.
      cbn [v stored_unit stored_window_us stored_buckets]. rewrite Z.eqb_refl, bool_decide_true, Z.eqb_refl by done.
      cbn [andb fst]. by rewrite buckets_round_trip. }
  destruct (_ && _); [by intros [= <- <- <-]; apply Hnew|].
  destruct (state_at _ t') as [st|e|]; intros [= <- <- <-]; by apply Hnew.
Qed.

Lemma session_tracks l c h t : session l c h t -> tracks l c h t.
Proof.
  induction 1 as [c l Hc Hb|l c h t t' a Hs IH Ht Ha Hck|l c h t t' a Hs IH Ht|l c h t t' r l' c' Hs IH Ht Hc
                 |l c h t c' Hs IH Hc|l c h t l' Hs IH Hd Hb].
  - destruct (bind_spec c l Hb) as (E1 & E2 & E3 & E4 & E5).
    assert (loaded l = ∅) as E6 by (rewrite E5; unfold stored_loaded; by rewrite Hc).
    split; rewrite ?E3, ?E6; [done|done|lia|done|done|constructor|done|]. intros _. by rewrite <- E5, E6.
  - by apply tracks_spend with t.
  - destruct IH as [T1 T2 T3 T4 T5 T6 T7 T8]. pose proof bucket_bound.
    unfold record_observed_at. destruct (a =? 0);
      (split; cbn [path spec loaded pending dirty]; [done|done|lia|done|done| |intros x Hx; apply T7; lia|done]);
      (eapply Forall_impl; [exact T6|]; cbv beta; lia).
  - by eapply tracks_commit.
  - destruct IH as [T1 T2 T3 T4 T5 T6 T7 T8]. split; try done. unfold stored_loaded in *. by rewrite Hc.
  - destruct IH as [T1 T2 T3 T4 T5 T6 T7 T8]. destruct (bind_spec c l' Hb) as (E1 & E2 & E3 & E4 & E5).
    destruct (T8 Hd) as [E6 E7]. split; try done; rewrite ?E3, ?E5; try done; rewrite <- E7; [done|].
    intros x Hx. rewrite <- E6. by apply T7.
Qed.

(** ** Budgets *)

(** The two constraints of a policy: a span and the most it may hold. *)
Definition constraint (span cap : Z) : Prop :=
  (span = W /\ cap = amount s)
  \/ (burst s < amount s /\ burst_span_micros s W = Ok span /\ cap = burst s).

Lemma constraint_bound span cap : 0 <= burst s -> constraint span cap -> 0 < span <= W /\ 0 <= cap < u64_max.
Proof.
  intros Hb [[-> ->]|(Hlt & E & ->)]; [lia|]. revert E. unfold burst_span_micros.
  destruct (Z.eqb_spec (amount s) 0); [lia|]. destruct (Z.ltb_spec W 1); [done|]. intros [= <-]. lia.
Qed.

Lemma check_at_spec l t a :
  spec l = s ->
  check_at l t a = Ok tt <->
  a <= amount s /\ (forall span cap, constraint span cap -> sat_add (used_at l t span) a <= cap).
Proof.
  intros Hs. unfold check_at. rewrite Hs. destruct (Z.ltb_spec (amount s) a) as [Hgt|Ha].
  { split; [done|]. lia. }
  destruct (Z.ltb_spec (amount s) (sat_add (used_at l t W) a)) as [Hu|Hu].
  { split; [done|]. intros [_ Hc]. specialize (Hc W (amount s) ltac:(by left)). lia. }
  destruct (Z.ltb_spec (burst s) (amount s)) as [Hb|Hb].
  - destruct (burst_span_micros s W) as [span|e|] eqn:E; cbn [mbind outcome_bind].
    + destruct (Z.ltb_spec (burst s) (sat_add (used_at l t span) a)) as [Hx|Hx].
      * split; [done|]. intros [_ Hc]. specialize (Hc span (burst s) ltac:(by right)). lia.
      * split; [|done]. intros _. split; [done|]. intros span' cap [[-> ->]|(_ & E' & ->)]; [done|].
        rewrite E in E'. by injection E' as <-.
    + exfalso. revert E. unfold burst_span_micros. destruct (amount s =? 0); [done|]. by destruct (W <? 1).
    + exfalso. revert E. unfold burst_span_micros. destruct (amount s =? 0); [done|]. by destruct (Z.ltb_spec W 1); [lia|].
  - split; [|done]. intros _. split; [done|]. intros span cap [[-> ->]|(Hlt & _)]; [done|lia].
Qed.

(** The charges made in [[x, y]]. *)
Definition charged_between (x y : Z) (h : list (Z * Z)) : Z :=
  zsum (map snd (filter (fun e => x <= e.1 <= y) h)).

Lemma charged_cons x y e h :
  charged_between x y (e :: h) = (if decide (x <= e.1 <= y) then e.2 else 0) + charged_between x y h.
Proof using. unfold charged_between. rewrite filter_cons. by case_decide. Qed.

Lemma charged_counted x y c h t :
  c <= x - bk -> Forall (fun e => 0 <= e.1 <= t /\ 0 <= e.2) h -> charged_between x y h <= counted c h.
Proof.
  intros Hc. pose proof bucket_bound as Hbk. induction 1 as [|e h [_ He] Hh IH]; [done|].
  rewrite charged_cons. unfold counted in *. cbn [map zsum]. unfold part at 1. cbn [fst snd].
  pose proof (Z.mod_pos_bound e.1 bk ltac:(lia)). unfold start_of at 1.
  case_decide; destruct (Z.leb_spec c (e.1 - e.1 mod bk)); lia.
Qed.

Lemma session_budget l c h t span cap x :
  0 <= burst s -> session l c h t -> constraint span cap -> charged_between x (x + span - bk) h <= cap.
Proof.
  intros Hb Hsess Hc. destruct (constraint_bound span cap Hb Hc) as [Hspan Hcap].
  induction Hsess as [c l|l c h t t' a Hs IH Ht Ha Hck|l c h t t' a Hs IH Ht|l c h t t' r l' c' Hs IH
                     |l c h t c' Hs IH|l c h t l' Hs IH]; [unfold charged_between; simpl; lia| |done..].
  rewrite charged_cons. cbn [fst snd]. case_decide as Hin; [|lia].
  pose proof (session_tracks _ _ _ _ Hs) as Htr. pose proof (tr_times _ _ _ _ Htr) as Hh.
  apply check_at_spec in Hck as [_ Hck]; [|apply Htr]. specialize (Hck span cap Hc).
  rewrite (used_at_spec l c h t t' span Htr) in Hck by lia.
  pose proof (charged_counted x (x + span - bk) (t' - span) h t ltac:(lia) Hh).
  pose proof (counted_nonneg (t' - span) h t Hh). unfold sat_add, sat, u64_max in *. lia.
Qed.
End Budget.


(** Denial is never permanent: once a whole window has passed since the last
    recorded instant, a check admits every amount up to the limit and the burst
    allowance. *)
Theorem limiter_recovers `{LimiterJson, ControlBackend} (p : bytes) (s : RateSpec)
    (l : Limiter) (c : ControlTable) (h : list (Z * Z)) (t t' a : Z) :
  0 < window_micros (window s) < 2 ^ 62 -> 0 <= amount s < u64_max -> 0 <= burst s ->
  session p s l c h t -> t + window_micros (window s) < t' < 2 ^ 62 ->
  0 <= a <= Z.min (amount s) (burst s) -> check_at l t' a = Ok tt.
Proof.
  intros Hw Ha Hb Hs Ht Hamt. pose proof (session_tracks p s Hw Ha l c h t Hs) as Htr.
  apply (check_at_spec s Hw Ha); [apply Htr|]. split; [lia|]. intros span cap Hc.
  destruct (constraint_bound s Hw Ha span cap Hb Hc) as [Hspan Hcap].
  rewrite (used_at_spec p s Hw Ha l c h t t' span Htr) by lia.
  assert (counted s (t' - span) h = 0) as ->.
  { pose proof (bucket_bound s Hw). pose proof (tr_times _ _ _ _ _ _ Htr) as Hh. clear -Hh Ht Hspan H1.
    induction Hh as [|e h [He _] Hh IH]; [done|]. unfold counted in *. cbn [map zsum]. rewrite IH.
    unfold part. cbn [fst snd]. unfold start_of. pose proof (Z.mod_pos_bound e.1 (bucket_micros (window s)) ltac:(lia)).
    destruct (Z.leb_spec (t' - span) (e.1 - e.1 mod bucket_micros (window s))); lia. }
  unfold sat_add, sat, u64_max. destruct Hc as [[-> ->]|(_ & _ & ->)]; lia.
Qed.

(** * Persistence *)

Lemma sat_wsum_prune_merge x now w bk a b :
  nonneg a -> nonneg b -> sat_i64 (sat_i64 (now - w) - bk) <= x ->
  sat (wsum x (Buckets.prune now w bk (Buckets.merge a b))) = sat (wsum x a + wsum x b)
  /\ nonneg (Buckets.prune now w bk (Buckets.merge a b)).
Proof.
  intros Ha Hb Hx. destruct (wsum_merge x a b Ha Hb) as [Hm Hn].
  destruct (wsum_prune x now w bk _ Hn Hx) as [-> Hn']. by rewrite Hm.
Qed.

(** Two pairs of windows with the same saturated sums. *)
Lemma window_used now span a b a' b' :
  nonneg a -> nonneg b -> nonneg a' -> nonneg b' ->
  sat (wsum (sat_i64 (now - span)) a + wsum (sat_i64 (now - span)) b)
  = sat (wsum (sat_i64 (now - span)) a' + wsum (sat_i64 (now - span)) b') ->
  sat_add (Buckets.sum_since now span a) (Buckets.sum_since now span b)
  = sat_add (Buckets.sum_since now span a') (Buckets.sum_since now span b').
Proof.
  intros Ha Hb Ha' Hb'. rewrite !sum_since_spec by done. set (x := sat_i64 (now - span)).
  pose proof (wsum_nonneg x _ Ha). pose proof (wsum_nonneg x _ Hb).
  pose proof (wsum_nonneg x _ Ha'). pose proof (wsum_nonneg x _ Hb'). unfold sat, sat_add, u64_max. lia.
Qed.

Definition wf_limiter (l : Limiter) : Prop :=
  nonneg (loaded l) /\ nonneg (pending l) /\ nonneg (observed_loaded l) /\ nonneg (observed_pending l).

Section Persist.
Context `{LimiterJson, ControlBackend}.

(** The limiter after a successful commit. *)
Definition committed (l : Limiter) (now : Z) : Limiter :=
  let w := window_micros (window (spec l)) in
  let bk := bucket_micros (window (spec l)) in
  {| path := path l; spec := spec l; loaded := Buckets.prune now w bk (Buckets.merge (loaded l) (pending l));
     pending := ∅;
     observed_loaded := Buckets.prune now w bk (Buckets.merge (observed_loaded l) (observed_pending l));
     observed_pending := ∅; observed_since_us := observed_since_us l; dirty := false |}.

Lemma commit_window_Ok l c now r l' c' :
  dirty l = true -> commit_window_at l c now = (Ok r, l', c') ->
  l' = committed l now /\ (forall k, k <> limiter_key (path l) -> raw_settings c' !! k = raw_settings c !! k)
  /\ bind_limiter c' (path l) (spec l) (spec_unit (spec l)) = Ok (committed l now).
Proof.
  intros Hd. unfold commit_window_at. rewrite Hd. cbn [negb]. unfold raw_config_set. set (text := window_to_string _).
  destruct (config_set _ text) as [[]|e|]; cbn [mbind outcome_bind]; [|done..]. fold (committed l now).
  assert (forall c0, raw_settings c0 = <[limiter_key (path l) := text]> (raw_settings c) ->
    (forall k, k <> limiter_key (path l) -> raw_settings c0 !! k = raw_settings c !! k)
    /\ bind_limiter c0 (path l) (spec l) (spec_unit (spec l)) = Ok (committed l now)) as Hc.
  { intros c0 E. split; [intros k Hk; by rewrite E, lookup_insert_ne|].
    unfold bind_limiter, raw_config_get. rewrite bool_decide_true by done. cbn [negb]. rewrite E, lookup_insert_eq.
    unfold load_window. rewrite bool_decide_false by apply window_nonempty. subst text. rewrite window_json.
    cbn [v stored_unit stored_window_us stored_buckets stored_observed stored_since].
    rewrite Z.eqb_refl, bool_decide_true, Z.eqb_refl by done. cbn [andb]. by rewrite !buckets_round_trip. }
  destruct (_ && _); [by intros [= <- <- <-]; split; [|apply Hc]|].
  destruct (state_at _ now) as [st|e|]; intros [= <- <- <-]; (split; [done|by apply Hc]).
Qed.

Lemma committed_used l now now' span :
  wf_limiter l -> 0 <= now <= now' -> now' < 2 ^ 62 ->
  window_micros (window (spec l)) < 2 ^ 62 -> 0 <= span <= window_micros (window (spec l)) ->
  used_at (committed l now) now' span = used_at l now' span
  /\ observed_at (committed l now) now' span = observed_at l now' span.
Proof.
  intros (N1 & N2 & N3 & N4) Hn Hn' Hw Hs.
  set (w := window_micros (window (spec l))) in *. set (bk := bucket_micros (window (spec l))).
  assert (0 < bk) as Hbk by (subst bk; unfold bucket_micros; lia).
  assert (sat_i64 (sat_i64 (now - w) - bk) <= sat_i64 (now' - span)) as Hcut
    by (rewrite (sat_i64_small (now - w)), (sat_i64_small (now' - span)) by lia; unfold sat_i64; lia).
  assert (forall a b, nonneg a -> nonneg b -> sat_add
      (Buckets.sum_since now' span (Buckets.prune now w bk (Buckets.merge a b))) (Buckets.sum_since now' span ∅)
      = sat_add (Buckets.sum_since now' span a) (Buckets.sum_since now' span b)) as Hgen.
  { intros a b Ha Hb. destruct (sat_wsum_prune_merge _ now w bk a b Ha Hb Hcut) as [E Hn0].
    apply window_used; try done. change (wsum (sat_i64 (now' - span)) ∅) with 0. by rewrite Z.add_0_r. }
  split; by apply Hgen.
Qed.

(** A commit loses nothing: after a successful commit, a limiter opened anew
    from the control table reports at every later instant, over every span up to
    the window, exactly the charged and the observed amounts of the limiter that
    was committed; and no other key of the control table changed. *)
Theorem commit_persists (l : Limiter) (c : ControlTable) (now : Z) r l' c' :
  wf_limiter l -> dirty l = true -> 0 <= now -> window_micros (window (spec l)) < 2 ^ 62 ->
  commit_window_at l c now = (Ok r, l', c') ->
  exists l2, bind_limiter c' (path l) (spec l) (spec_unit (spec l)) = Ok l2
    /\ (forall k, k <> limiter_key (path l) -> raw_settings c' !! k = raw_settings c !! k)
    /\ forall now' span, now <= now' < 2 ^ 62 -> 0 <= span <= window_micros (window (spec l)) ->
         used_at l2 now' span = used_at l now' span /\ observed_at l2 now' span = observed_at l now' span.
Proof.
  intros Hwf Hd Hn Hw Hc. destruct (commit_window_Ok l c now r l' c' Hd Hc) as (_ & Hk & Hb).
  exists (committed l now). split; [done|]. split; [done|]. intros now' span H1 H2. apply committed_used; (done || lia).
Qed.
End Persist.

(** * Retrying *)

Lemma wsum_mono x y b : nonneg b -> x <= y -> wsum y b <= wsum x b.
Proof.
  intros Hb Hxy. unfold wsum. pose proof (nonneg_entries b Hb) as He.
  induction He as [|[k v] l Hv Hl IH]; simpl in *; [done|]. unfold part at 1 3. simpl.
  destruct (Z.leb_spec x k), (Z.leb_spec y k); lia.
Qed.

(** A positive bucket that falls out of the window. *)
Lemma wsum_drop x y b k v :
  nonneg b -> b !! k = Some v -> 0 < v -> x <= k < y -> wsum y b < wsum x b.
Proof.
  intros Hb Hk Hv Hin. pose proof (map_Forall_delete _ b k Hb) as Hd.
  pose proof (wsum_mono x y (delete k b) Hd ltac:(lia)) as Hm. unfold wsum in *.
  rewrite <- !(map_to_list_delete b k v Hk). simpl. unfold part at 1 3. simpl.
  destruct (Z.leb_spec x k), (Z.leb_spec y k); lia.
Qed.

Lemma oldest_start_spec now w b :
  nonneg b ->
  match Buckets.oldest_start now w b with
  | Some k => sat_i64 (now - w) <= k /\ exists v, b !! k = Some v /\ 0 < v
  | None => wsum (sat_i64 (now - w)) b = 0
  end.
Proof.
  intros Hb. unfold Buckets.oldest_start, Buckets.range_from, Buckets.entries. set (x := sat_i64 (now - w)).
  set (l := sort_by (cmp_on fst Z.compare) (map_to_list b)).
  destruct (filter (fun e => 0 < e.2) (filter (fun e => x <= e.1) l)) as [|[k v] r] eqn:E; simpl.
  - unfold wsum. rewrite <- (sort_by_perm (cmp_on fst Z.compare) (map_to_list b)). fold l.
    assert (Forall (fun e => 0 <= e.2) l) as Hl by (unfold l; rewrite sort_by_perm; by apply nonneg_entries).
    clearbody l. induction Hl as [|[k v] l Hv Hl IH]; [done|]. simpl in *. unfold part at 1. simpl.
    rewrite filter_cons in E. simpl in E. destruct (decide (x <= k)), (Z.leb_spec x k); try lia.
    + rewrite filter_cons in E. simpl in E. destruct (decide (0 < v)); [done|]. rewrite IH by done. lia.
    + rewrite IH by done. lia.
  - assert ((k, v) ∈ filter (fun e => 0 < e.2) (filter (fun e => x <= e.1) l)) as Hin by (rewrite E; by left).
    apply list_elem_of_filter in Hin as [Hv [Hk Hin]%list_elem_of_filter]. simpl in *. split; [done|].
    exists v. split; [|done]. unfold l in Hin. rewrite sort_by_perm in Hin. by apply elem_of_map_to_list.
Qed.

Lemma min_option_Some a b z : min_option a b = Some z -> a = Some z \/ b = Some z.
Proof.
  destruct a as [x|], b as [y|]; simpl; intros E; [|by auto..]. injection E as <-.
  destruct (Z.min_spec x y) as [[_ ->]|[_ ->]]; auto.
Qed.

(** The seconds until a bucket expires, and an instant after them. *)
Lemma expiry_secs now span start now' :
  0 <= now < 2 ^ 62 -> 0 <= span < 2 ^ 62 -> now' < 2 ^ 62 -> now - span <= start ->
  let remaining := Z.max 0 (sat_i64 (sat_i64 (start + span) - now)) in
  let secs := Z.max 1 (remaining / 1000000 + (if remaining mod 1000000 =? 0 then 0 else 1)) in
  now + secs * 1000000 < now' -> 1 <= secs /\ start < now' - span.
Proof.
  intros Hn Hs Hn' Hst remaining secs Hlt. subst secs.
  pose proof (Z.div_mod remaining 1000000 ltac:(lia)). pose proof (Z.mod_pos_bound remaining 1000000 ltac:(lia)).
  split; [lia|]. assert (remaining < now' - now) by (destruct (Z.eqb_spec (remaining mod 1000000) 0); lia).
  subst remaining. unfold sat_i64 in *. lia.
Qed.

(** The retry hint is honest: when charges are live in a span, waiting strictly
    longer than the reported number of seconds frees part of the budget, and the
    hint is at least one second. *)
Theorem retry_after_frees (l : Limiter) (now span now' : Z) :
  wf_limiter l -> 0 <= now < 2 ^ 62 -> 0 <= span < 2 ^ 62 -> now' < 2 ^ 62 ->
  0 < used_at l now span < u64_max ->
  now + retry_after_secs l now span * 1000000 < now' ->
  1 <= retry_after_secs l now span /\ used_at l now' span < used_at l now span.
Proof.
  intros (N1 & N2 & _ & _) Hn Hs Hn' Hu.
  pose proof (oldest_start_spec now span (loaded l) N1) as O1.
  pose proof (oldest_start_spec now span (pending l) N2) as O2.
  unfold retry_after_secs. unfold used_at in *. rewrite !sum_since_spec in * by done.
  rewrite (sat_i64_small (now - span)) in * by lia.
  destruct (min_option _ _) as [start|] eqn:Em.
  - assert (now - span <= start) as Hst by (apply min_option_Some in Em as [Em|Em]; rewrite Em in *; naive_solver).
    intros Hr. destruct (expiry_secs now span start now' Hn Hs Hn' Hst Hr) as [Hsecs Hexp]. split; [done|].
    rewrite (sat_i64_small (now' - span)) by lia.
    assert (forall b, nonneg b -> wsum (now' - span) b <= wsum (now - span) b) as Hmono
      by (intros b Hb; apply wsum_mono; [done|lia]).
    assert (wsum (now' - span) (loaded l) < wsum (now - span) (loaded l)
            \/ wsum (now' - span) (pending l) < wsum (now - span) (pending l)) as Hdrop.
    { apply min_option_Some in Em as [Em|Em]; rewrite Em in *; [left; destruct O1 as (_ & v & Hv & Hpos)
        |right; destruct O2 as (_ & v & Hv & Hpos)]; by apply (wsum_drop _ _ _ start v). }
    pose proof (Hmono _ N1). pose proof (Hmono _ N2).
    pose proof (wsum_nonneg (now' - span) _ N1). pose proof (wsum_nonneg (now' - span) _ N2).
    unfold sat, sat_add, u64_max in *. lia.
  - exfalso. destruct (Buckets.oldest_start now span (loaded l)), (Buckets.oldest_start now span (pending l)); try done.
    rewrite O1, O2 in Hu. unfold sat, sat_add, u64_max in Hu. lia.
Qed.

(** * Limiter sets *)

Lemma Forall2_with {A B} (P : A -> Prop) (R : A -> B -> Prop) l k :
  Forall P l -> Forall2 R l k -> Forall2 (fun x y => P x /\ R x y) l k.
Proof. intros HP. induction 1; inversion HP; subst; constructor; auto. Qed.

Section Sets.
Context `{LimiterJson, ControlBackend}.

Lemma commit_windows_Ok ls c now samples ls' c' :
  commit_windows ls c now = (Ok samples, ls', c') ->
  Forall2 (fun l l' => l' = if dirty l then committed l now else l) ls ls'.
Proof.
  revert c samples ls' c'. induction ls as [|l ls IH]; intros c samples ls' c'; cbn [commit_windows].
  { intros [= _ <- _]. constructor. }
  destruct (commit_window_at l c now) as [[r l1] c1] eqn:E1. destruct r as [sample|e|]; [|done..].
  destruct (commit_windows ls c1 now) as [[r ls1] c2] eqn:E2. destruct r as [more|e|]; [|done..].
  intros [= _ <- _]. constructor; [|by eapply IH]. destruct (dirty l) eqn:Ed.
  - by apply (commit_window_Ok l c now sample l1 c1 Ed E1).
  - unfold commit_window_at in E1. rewrite Ed in E1. by injection E1.
Qed.

Lemma nonneg_add now bk a b : nonneg b -> 0 <= a -> nonneg (Buckets.add now bk a b).
Proof. intros Hb Ha. by apply (wsum_charge 0). Qed.

Lemma wf_prepared l now a : wf_limiter l -> 0 <= a -> wf_limiter (record_observed_at (discard_pending l) now a).
Proof.
  intros (N1 & N2 & N3 & N4) Ha. unfold record_observed_at. destruct (a =? 0);
    (split; [done|]; split; [apply map_Forall_empty|]; split; [done|]); [done|]. by apply nonneg_add.
Qed.

(** Suspended enforcement: with the override set, every check admits; a commit
    then leaves each window's charged amounts as they were before the run, and
    still records the traffic observed during it. *)
Theorem ignored_run_uncharged (s : LimiterSet) (c : ControlTable) (now : Z) s' c' :
  ignored s = true -> 0 <= now -> 0 <= observed_ops s -> 0 <= observed_bytes s ->
  Forall (fun l => wf_limiter l /\ window_micros (window (spec l)) < 2 ^ 62) (bound s) ->
  set_commit_at s c now = (Ok tt, s', c') ->
  (forall t u a, set_check s t u a = Ok tt)
  /\ Forall2 (fun l l' => forall now' span, now <= now' < 2 ^ 62 -> 0 <= span <= window_micros (window (spec l)) ->
       used_at l' now' span = used_at (discard_pending l) now' span
       /\ observed_at l' now' span
          = observed_at (record_observed_at l now (set_observed s (spec_unit (spec l)))) now' span)
     (bound s) (bound s').
Proof.
  intros Hi Hn Ho Hb Hwf. unfold set_commit_at, prepare_windows_at, discard_ignored_spending. rewrite Hi.
  cbn [with_bound bound ignored observed_ops observed_bytes].
  set (obs := fun l => match spec_unit (spec l) with Ops => observed_ops s | Bytes => observed_bytes s end).
  set (ls := map _ (map discard_pending (bound s))).
  destruct (commit_windows ls c now) as [[r b] c1] eqn:E. destruct r as [samples|e|]; intros [= <- <-]; [].
  split; [intros; unfold set_check; by rewrite Hi|]. cbn [with_bound bound].
  apply commit_windows_Ok in E. subst ls. rewrite map_map, Forall2_fmap_l in E.
  eapply Forall2_impl; [exact (Forall2_with _ _ _ _ Hwf E)|]. clear E Hwf. unfold compose. intros l l' [[Hl Hw] ->] now' span H1 H2.
  change (match spec_unit (spec (discard_pending l)) with Ops => observed_ops s | Bytes => observed_bytes s end)
    with (obs l) in *.
  set (lp := record_observed_at (discard_pending l) now (obs l)) in *.
  assert (0 <= obs l) as Hobs by (unfold obs; by destruct (spec_unit (spec l))).
  assert (used_at lp now' span = used_at (discard_pending l) now' span
          /\ observed_at lp now' span = observed_at (record_observed_at l now (obs l)) now' span
          /\ spec lp = spec l) as (E1 & E2 & E3).
  { subst lp. unfold record_observed_at. by destruct (obs l =? 0). }
  change (set_observed s (spec_unit (spec l))) with (obs l).
  destruct (dirty lp) eqn:Ed; [|done]. rewrite <- E1, <- E2.
  apply committed_used; [by apply wf_prepared|lia|lia|by rewrite E3|by rewrite E3].
Qed.

(** ** The usage queue *)

Hypothesis writes_succeed : forall k v, config_set k v = Ok tt.

Lemma read_pending_set c text :
  read_pending (set_or_keep c LIMITER_USAGE_PENDING_KEY text)
  = if bool_decide (text = []) then [] else default [] (samples_from_str text).
Proof using writes_succeed.
  unfold read_pending, set_or_keep, raw_config_set, raw_config_get. rewrite writes_succeed. cbn [mbind outcome_bind].
  cbn [raw_settings]. rewrite lookup_insert_eq. case_bool_decide; [done|]. by destruct (samples_from_str text).
Qed.

Lemma read_pending_samples c l :
  read_pending (set_or_keep c LIMITER_USAGE_PENDING_KEY (samples_to_string l)) = l.
Proof using writes_succeed.
  rewrite read_pending_set, bool_decide_false by apply samples_nonempty. by rewrite samples_json.
Qed.

Lemma read_pending_queue c samples :
  (length (read_pending c ++ samples) <= MAX_PENDING)%nat -> read_pending (queue c samples) = read_pending c ++ samples.
Proof using writes_succeed.
  intros Hlen. unfold queue. destruct samples as [|x samples]; [by rewrite app_nil_r|].
  destruct (Nat.ltb_spec MAX_PENDING (length (read_pending c ++ x :: samples))); [lia|]. apply read_pending_samples.
Qed.
End Sets.

(** The usage queue hands every sample on once: samples queued while earlier ones
    are being emitted survive the removal of the emitted ones, and the queue never
    holds more than 4096 samples, of which it keeps the newest. *)
Theorem usage_queue `{LimiterJson, ControlBackend} (c : ControlTable) (more : list UsageSample) :
  (forall k v, config_set k v = Ok tt) ->
  ((length (read_pending c ++ more) <= MAX_PENDING)%nat ->
     read_pending (drop_emitted (queue c more) (length (read_pending c))) = more)
  /\ (more <> [] -> (length (read_pending (queue c more)) <= MAX_PENDING)%nat
        /\ exists lost, read_pending c ++ more = lost ++ read_pending (queue c more)).
Proof.
  intros Hw. split.
  - intros Hlen. pose proof (read_pending_queue Hw c more Hlen) as E. unfold drop_emitted.
    destruct (Nat.eqb_spec (length (read_pending c)) 0) as [E0|E0].
    { rewrite E. destruct (read_pending c); [done|simpl in E0; lia]. }
    rewrite E, length_app, Nat.min_l, drop_app_length by lia. destruct more as [|x more].
    + by rewrite read_pending_set.
    + by rewrite read_pending_samples.
  - intros Hne. unfold queue. destruct more as [|x more]; [done|]. rewrite read_pending_samples by done.
    set (all := read_pending c ++ x :: more). destruct (Nat.ltb_spec MAX_PENDING (length all)).
    + split; [rewrite length_drop; lia|]. exists (take (length all - MAX_PENDING) all). by rewrite take_drop.
    + split; [lia|]. by exists [].
Qed.

(** * Concrete limiters *)

(** A text form with the laws of [LimiterJson], to evaluate the model. *)
Fixpoint pos_bytes (n : positive) : bytes :=
  match n with xH => [Byte.x01] | xO n => Byte.x00 :: pos_bytes n | xI n => Byte.x02 :: pos_bytes n end.

Fixpoint bytes_pos (b : bytes) : option positive :=
  match b with
  | [Byte.x01] => Some xH
  | Byte.x00 :: b => xO <$> bytes_pos b
  | Byte.x02 :: b => xI <$> bytes_pos b
  | _ => None
  end.

Lemma pos_bytes_round n : bytes_pos (pos_bytes n) = Some n.
Proof. induction n as [n IH|n IH|]; cbn; rewrite ?IH; done. Qed.

Lemma pos_bytes_nonempty n : pos_bytes n <> [].
Proof. by destruct n. Qed.

Definition text_of {A} `{Countable A} (a : A) : bytes := pos_bytes (encode a).
Definition of_text {A} `{Countable A} (b : bytes) : option A := bytes_pos b ≫= decode.

Lemma of_text_of {A} `{Countable A} (a : A) : of_text (text_of a) = Some a.
Proof. unfold of_text, text_of. rewrite pos_bytes_round. simpl. apply decode_encode. Qed.

Abbreviation window_tuple := (Z * bool * Z * Z * list (Z * Z) * list (Z * Z) * option Z)%type.
Definition window_out (w : StoredWindow) : window_tuple :=
  (v w, bool_decide (stored_unit w = Ops), stored_window_us w, stored_bucket_us w, stored_buckets w,
   stored_observed w, stored_since w).
Definition window_in (t : window_tuple) : StoredWindow :=
  let '(x, u, wu, bu, b, o, si) := t in
  {| v := x; stored_unit := if u : bool then Ops else Bytes; stored_window_us := wu; stored_bucket_us := bu;
     stored_buckets := b; stored_observed := o; stored_since := si |}.

Abbreviation sample_tuple := (Z * bytes * bytes * Z * Z * Z * Z * Z)%type.
Definition sample_out (x : UsageSample) : sample_tuple :=
  (at_us x, sample_limiter x, sample_unit x, sample_amount x, sample_observed x, sample_used x, sample_limit x, sample_window_us x).
Definition sample_in (t : sample_tuple) : UsageSample :=
  let '(a, l, u, am, ob, us, li, w) := t in
  {| at_us := a; sample_limiter := l; sample_unit := u; sample_amount := am; sample_observed := ob;
     sample_used := us; sample_limit := li; sample_window_us := w |}.

Lemma window_text w : window_in <$> of_text (text_of (window_out w)) = Some w.
Proof. rewrite of_text_of. simpl. f_equal. destruct w as [? [] ? ? ? ? ?]; done. Qed.

Lemma samples_text (l : list UsageSample) : map sample_in <$> of_text (text_of (map sample_out l)) = Some l.
Proof.
  rewrite of_text_of. simpl. f_equal. rewrite map_map. rewrite <- (map_id l) at 2. apply map_ext. by intros [].
Qed.

Definition ex_json : LimiterJson :=
  {| window_to_string w := text_of (window_out w); window_from_str b := window_in <$> of_text b;
     samples_to_string l := text_of (map sample_out l); samples_from_str b := map sample_in <$> of_text b;
     window_json := window_text; window_nonempty w := pos_bytes_nonempty _;
     samples_json := samples_text; samples_nonempty l := pos_bytes_nonempty _ |}.
Definition ex_backend : ControlBackend := {| config_set _ _ := Ok tt |}.

#[local] Existing Instance ex_json.
#[local] Existing Instance ex_backend.

(** 10 operations per second, 4 at once. *)
Definition ex_spec : RateSpec := {| spec_unit := Ops; amount := 10; window := from_secs 1; burst := 4 |}.
Definition ex_path : bytes := bstr "/sys/limits/ops".
Definition ex_control : ControlTable := {| raw_settings := ∅ |}.
Definition ex_limiter : Limiter :=
  {| path := ex_path; spec := ex_spec; loaded := ∅; pending := ∅; observed_loaded := ∅;
     observed_pending := ∅; observed_since_us := None; dirty := false |}.

Lemma ex_session : session ex_path ex_spec
  (record_at (record_at ex_limiter 1000000 3) 1500000 4) ex_control [(1500000, 4); (1000000, 3)] 1500000.
Proof.
  apply s_spend with 1000000; [|lia|lia|vm_compute; reflexivity].
  apply s_spend with 0; [|lia|lia|vm_compute; reflexivity].
  apply s_open; vm_compute; reflexivity.
Qed.


Lemma limiter_recovers_witness :
  check_at (record_at (record_at ex_limiter 1000000 3) 1500000 4) 2600000 4 = Ok tt.
Proof.
  apply (limiter_recovers ex_path ex_spec (record_at (record_at ex_limiter 1000000 3) 1500000 4) ex_control
           [(1500000, 4); (1000000, 3)] 1500000 2600000 4);
    [vm_compute; split; reflexivity|vm_compute; split; [discriminate|reflexivity]|vm_compute; discriminate|apply ex_session
    |vm_compute; split; reflexivity|vm_compute; split; discriminate].
Defined.

Definition ex_charged : Limiter := record_at ex_limiter 1000000 3.

Lemma ex_charged_wf : wf_limiter ex_charged.
Proof.
  unfold wf_limiter, ex_charged, record_at. cbn [set_pending loaded pending observed_loaded observed_pending ex_limiter].
  split_and!; try apply map_Forall_empty. apply nonneg_add; [apply map_Forall_empty|lia].
Qed.

Lemma commit_persists_witness :
  exists l2, bind_limiter (commit_window_at ex_charged ex_control 1200000).2 ex_path ex_spec Ops = Ok l2
    /\ used_at l2 1300000 1000000 = 3.
Proof.
  destruct (commit_persists ex_charged ex_control 1200000
    (unwrap_or None (commit_window_at ex_charged ex_control 1200000).1.1)
    (commit_window_at ex_charged ex_control 1200000).1.2 (commit_window_at ex_charged ex_control 1200000).2)
    as (l2 & E & _ & Hu); [apply ex_charged_wf|reflexivity|lia|vm_compute; reflexivity|vm_compute; reflexivity|].
  exists l2. split; [exact E|]. destruct (Hu 1300000 1000000) as [-> _]; [lia|vm_compute; split; discriminate|].
  vm_compute. reflexivity.
Defined.

Lemma retry_after_frees_witness : used_at ex_charged 2100001 1000000 < used_at ex_charged 1100000 1000000.
Proof.
  apply (retry_after_frees ex_charged 1100000 1000000 2100001);
    [apply ex_charged_wf|lia|lia|lia|vm_compute; split; reflexivity|vm_compute; reflexivity].
Defined.

Definition ex_set : LimiterSet :=
  {| bound := [ex_charged]; ignored := true; observed_ops := 7; observed_bytes := 0 |}.

Lemma triple_eta {A B C} (x : A * B * C) a : x.1.1 = a -> x = (a, x.1.2, x.2).
Proof. intros <-. by destruct x as [[? ?] ?]. Qed.

Lemma ignored_run_uncharged_witness : set_check ex_set 1300000 Ops 100 = Ok tt.
Proof.
  refine (proj1 (ignored_run_uncharged ex_set ex_control 1200000 (set_commit_at ex_set ex_control 1200000).1.2
    (set_commit_at ex_set ex_control 1200000).2 _ _ _ _ _ _) 1300000 Ops 100);
    [reflexivity|lia|vm_compute; discriminate|vm_compute; discriminate
    |constructor; [split; [apply ex_charged_wf|vm_compute; reflexivity]|constructor]
    |apply triple_eta; vm_compute; reflexivity].
Defined.

Definition ex_sample (n : Z) : UsageSample :=
  {| at_us := n; sample_limiter := ex_path; sample_unit := bstr "ops"; sample_amount := 1; sample_observed := 1;
     sample_used := 1; sample_limit := 10; sample_window_us := 1000000 |}.

Lemma ex_queue_length : length (read_pending (queue ex_control [ex_sample 1])) = 1%nat.
Proof. vm_compute. reflexivity. Qed.

Lemma usage_queue_witness :
  read_pending (drop_emitted (queue (queue ex_control [ex_sample 1]) [ex_sample 2]) 1) = [ex_sample 2].
Proof.
  rewrite <- ex_queue_length at 1.
  apply (usage_queue (queue ex_control [ex_sample 1]) [ex_sample 2]); [reflexivity|].
  rewrite length_app, ex_queue_length. unfold MAX_PENDING. simpl length. lia.
Defined.
