(* ===== verification/Checksum.v ===== *)
(** Partition checksums, [crates/sync-store/src/checksum]: the Merkle and the
    homomorphic strategy behind one interface, what each is insensitive to (the
    order of the leaves) and what each detects. *)

From stdpp Require Import base list numbers sets sorting strings options.
From Stdlib Require Import ZArith Lia.
From S2P Require Import Prelude RustStd RustText Wire.

Open Scope Z_scope.

Inductive ChecksumKind := KMerkle | KHomomorphic.

#[export] Instance ChecksumKind_eq_dec : EqDecision ChecksumKind.
Proof. solve_decision. Defined.

Definition kind_as_str (k : ChecksumKind) : bytes :=
  match k with KMerkle => bstr "merkle" | KHomomorphic => bstr "homomorphic" end.

Record Checksum := { ck_kind : ChecksumKind; ck_bytes : bytes }.

#[export] Instance Checksum_eq_dec : EqDecision Checksum.
Proof. solve_decision. Defined.

Definition ck_hex (c : Checksum) : bytes := to_hex (ck_bytes c).

Record Leaf := { leaf_key : bytes; value_blake3 : bytes }.

#[export] Instance Leaf_eq_dec : EqDecision Leaf.
Proof. solve_decision. Defined.

(** The trait of the strategies. *)
Class PartitionChecksum (S : Type) := {
  kind : S -> ChecksumKind;
  compute : S -> list Leaf -> Checksum;
}.

(** * The homomorphic strategy *)

Definition TAG_HOMOMORPHIC : bytes := bstr "H".

(** The hashed bytes of a leaf under a tag; [key.len() as u32] wraps. *)
Definition tagged_leaf (tag : bytes) (l : Leaf) : bytes :=
  tag ++ to_le 4 (Z.of_nat (length (leaf_key l))) ++ leaf_key l ++ value_blake3 l.

(** Adding from the last byte on: the bytes and the carry out. *)
Fixpoint add_carry (acc addend : bytes) : bytes * Z :=
  match acc, addend with
  | a :: acc, d :: addend =>
      let '(r, carry) := add_carry acc addend in
      let sum := b2z a + b2z d + carry in
      (z2b sum :: r, Z.shiftr sum 8)
  | _, _ => ([], 0)
  end.
Definition add_assign_u256 (acc addend : bytes) : bytes := (add_carry acc addend).1.

Fixpoint sub_borrow (acc subtrahend : bytes) : bytes * Z :=
  match acc, subtrahend with
  | a :: acc, d :: subtrahend =>
      let '(r, borrow) := sub_borrow acc subtrahend in
      let diff := b2z a - b2z d - borrow in
      if diff <? 0 then (z2b (diff + 256) :: r, 1) else (z2b diff :: r, 0)
  | _, _ => ([], 0)
  end.
Definition sub_assign_u256 (acc subtrahend : bytes) : bytes := (sub_borrow acc subtrahend).1.

Inductive Homomorphic := homomorphic.

Section Homomorphic.
Context `{Blake3}.

Definition leaf_digest (l : Leaf) : bytes := blake3 (tagged_leaf TAG_HOMOMORPHIC l).

Definition homomorphic_compute (leaves : list Leaf) : Checksum :=
  {| ck_kind := KHomomorphic;
     ck_bytes := fold_left (fun acc l => add_assign_u256 acc (leaf_digest l)) leaves (repeat Byte.x00 32) |}.

#[export] Instance Homomorphic_checksum : PartitionChecksum Homomorphic :=
  {| kind _ := KHomomorphic; compute _ := homomorphic_compute |}.
End Homomorphic.

(** * The Merkle strategy *)

Definition TAG_LEAF : bytes := bstr "L".
Definition TAG_NODE : bytes := bstr "N".
Definition TAG_EMPTY : bytes := bstr "E".

Definition leaf_cmp : Leaf -> Leaf -> comparison :=
  then_cmp (cmp_on leaf_key bytes_cmp) (cmp_on value_blake3 bytes_cmp).

(** One level up: pairs of neighbours, an odd last one with itself. *)
Fixpoint pair_dup {A} (node : A -> A -> A) (l : list A) : list A :=
  match l with
  | a :: b :: l => node a b :: pair_dup node l
  | [a] => [node a a]
  | [] => []
  end.

(** The loop until one element remains. *)
Fixpoint reduce_loop {A} (node : A -> A -> A) (fuel : nat) (level : list A) : option A :=
  match level with
  | [] => None
  | [a] => Some a
  | _ => match fuel with O => None | S fuel => reduce_loop node fuel (pair_dup node level) end
  end.
Definition reduce {A} (node : A -> A -> A) (level : list A) : option A := reduce_loop node (length level) level.

Inductive Merkle := merkle.

Section Merkle.
Context `{Blake3}.

Definition leaf_hash (l : Leaf) : bytes := blake3 (tagged_leaf TAG_LEAF l).
Definition node_hash (left right : bytes) : bytes := blake3 (TAG_NODE ++ left ++ right).

Definition merkle_compute (leaves : list Leaf) : Checksum :=
  {| ck_kind := KMerkle;
     ck_bytes :=
       match leaves with
       | [] => blake3 TAG_EMPTY
       | _ => default [] (reduce node_hash (map leaf_hash (sort_by leaf_cmp leaves)))
       end |}.

#[export] Instance Merkle_checksum : PartitionChecksum Merkle :=
  {| kind _ := KMerkle; compute _ := merkle_compute |}.
End Merkle.

(** * Big-endian sums *)

Fixpoint be_value (b : bytes) : Z :=
  match b with [] => 0 | x :: b => b2z x * 256 ^ Z.of_nat (length b) + be_value b end.

Lemma be_value_range b : 0 <= be_value b < 256 ^ Z.of_nat (length b).
Proof.
  induction b as [|x b IH]; [simpl; lia|]. cbn [be_value length]. rewrite Nat2Z.inj_succ, Z.pow_succ_r by lia.
  pose proof (b2z_range x). nia.
Qed.

Lemma be_value_inj a b : length a = length b -> be_value a = be_value b -> a = b.
Proof.
  revert b. induction a as [|x a IH]; intros [|y b] Hl; try done. simpl in Hl. injection Hl as Hl.
  cbn [be_value]. rewrite Hl. intros E. pose proof (be_value_range a) as Ha. pose proof (be_value_range b) as Hb.
  rewrite Hl in Ha. assert (b2z x = b2z y) as Exy by nia. f_equal; [by apply b2z_inj|]. apply IH; [done|]. nia.
Qed.

Lemma add_carry_spec a d :
  length a = length d ->
  length (add_carry a d).1 = length a
  /\ be_value (add_carry a d).1 + (add_carry a d).2 * 256 ^ Z.of_nat (length a) = be_value a + be_value d
  /\ 0 <= (add_carry a d).2 <= 1.
Proof.
  revert d. induction a as [|x a IH]; intros [|y d] Hl; try done. simpl in Hl. injection Hl as Hl.
  destruct (IH d Hl) as (L & E & C). cbn [add_carry]. destruct (add_carry a d) as [r c]. cbn [fst snd] in *.
  cbn [be_value length]. rewrite L, Hl in *. rewrite Z.shiftr_div_pow2, b2z_z2b by lia. change (2 ^ 8) with 256.
  pose proof (b2z_range x). pose proof (b2z_range y). set (sum := b2z x + b2z y + c).
  pose proof (Z.div_mod sum 256 ltac:(lia)) as Hdm. pose proof (Z.mod_pos_bound sum 256 ltac:(lia)).
  rewrite Nat2Z.inj_succ, Z.pow_succ_r by lia. split; [done|]. split; [subst sum; nia|].
  split; [apply Z.div_pos; subst sum; lia|]. apply Z.lt_succ_r, Z.div_lt_upper_bound; subst sum; lia.
Qed.

Lemma sub_borrow_spec a d :
  length a = length d ->
  length (sub_borrow a d).1 = length a
  /\ be_value (sub_borrow a d).1 - (sub_borrow a d).2 * 256 ^ Z.of_nat (length a) = be_value a - be_value d
  /\ 0 <= (sub_borrow a d).2 <= 1.
Proof.
  revert d. induction a as [|x a IH]; intros [|y d] Hl; try done. simpl in Hl. injection Hl as Hl.
  destruct (IH d Hl) as (L & E & C). cbn [sub_borrow]. destruct (sub_borrow a d) as [r c]. cbn [fst snd] in *.
  pose proof (b2z_range x). pose proof (b2z_range y).
  destruct (Z.ltb_spec (b2z x - b2z y - c) 0); cbn [fst snd be_value length];
    rewrite L, Hl, b2z_z2b, Z.mod_small, Nat2Z.inj_succ, Z.pow_succ_r in * by lia; (split; [done|]); (split; [nia|lia]).
Qed.

Abbreviation u256 := (256 ^ 32).

Lemma add_assign_value a d :
  length a = 32%nat -> length d = 32%nat ->
  length (add_assign_u256 a d) = 32%nat /\ be_value (add_assign_u256 a d) = (be_value a + be_value d) mod u256.
Proof.
  intros Ha Hd. destruct (add_carry_spec a d ltac:(congruence)) as (L & E & C).
  unfold add_assign_u256. rewrite Ha in *. split; [done|].
  pose proof (be_value_range (add_carry a d).1) as Hr. rewrite L in Hr.
  apply (Z.mod_unique _ _ (add_carry a d).2); [left; exact Hr|]. change (Z.of_nat 32) with 32 in *. lia.
Qed.

Lemma sub_assign_value a d :
  length a = 32%nat -> length d = 32%nat ->
  length (sub_assign_u256 a d) = 32%nat /\ be_value (sub_assign_u256 a d) = (be_value a - be_value d) mod u256.
Proof.
  intros Ha Hd. destruct (sub_borrow_spec a d ltac:(congruence)) as (L & E & C).
  unfold sub_assign_u256. rewrite Ha in *. split; [done|].
  pose proof (be_value_range (sub_borrow a d).1) as Hr. rewrite L in Hr.
  apply (Z.mod_unique _ _ (- (sub_borrow a d).2)); [left; exact Hr|]. change (Z.of_nat 32) with 32 in *. lia.
Qed.

(** * What the homomorphic checksum computes *)

Fixpoint sum_of (f : Leaf -> Z) (l : list Leaf) : Z :=
  match l with [] => 0 | x :: l => f x + sum_of f l end.

#[export] Instance sum_of_perm f : Proper ((≡ₚ) ==> (=)) (sum_of f).
Proof. induction 1; simpl in *; lia. Qed.

Section HomomorphicProofs.
Context `{Blake3}.

Definition digest_value (l : Leaf) : Z := be_value (leaf_digest l).

Lemma homomorphic_fold leaves acc :
  length acc = 32%nat ->
  let r := fold_left (fun acc l => add_assign_u256 acc (leaf_digest l)) leaves acc in
  length r = 32%nat /\ be_value r = (be_value acc + sum_of digest_value leaves) mod u256.
Proof.
  revert acc. induction leaves as [|l leaves IH]; intros acc Ha.
  { split; [done|]. simpl. rewrite Z.add_0_r, Z.mod_small; [done|]. pose proof (be_value_range acc) as Hr.
    rewrite Ha in Hr. exact Hr. }
  cbn [fold_left sum_of]. destruct (add_assign_value acc (leaf_digest l) Ha (blake3_len _)) as [L E].
  destruct (IH _ L) as [L' E']. split; [done|]. rewrite E', E. fold (digest_value l).
  rewrite Zplus_mod_idemp_l. f_equal. lia.
Qed.

Lemma homomorphic_bytes leaves :
  length (ck_bytes (homomorphic_compute leaves)) = 32%nat
  /\ be_value (ck_bytes (homomorphic_compute leaves)) = sum_of digest_value leaves mod u256.
Proof.
  destruct (homomorphic_fold leaves (repeat Byte.x00 32) eq_refl) as [L E]. split; [done|].
  replace (be_value (repeat Byte.x00 32)) with 0 in E by (by vm_compute). exact E.
Qed.

(** The homomorphic checksum is the sum of the leaf digests modulo 2^256, in
    big-endian bytes; it does not depend on the order of the leaves. *)
Theorem homomorphic_is_sum (leaves : list Leaf) :
  be_value (ck_bytes (homomorphic_compute leaves)) = sum_of digest_value leaves mod u256
  /\ forall leaves', leaves ≡ₚ leaves' -> homomorphic_compute leaves' = homomorphic_compute leaves.
Proof.
  destruct (homomorphic_bytes leaves) as [L E]. split; [done|]. intros leaves' Hp.
  destruct (homomorphic_bytes leaves') as [L' E'].
  assert (ck_bytes (homomorphic_compute leaves') = ck_bytes (homomorphic_compute leaves)) as Eb.
  { apply be_value_inj; [congruence|]. rewrite E, E'. by rewrite Hp. }
  unfold homomorphic_compute in *. cbn [ck_bytes] in Eb. by rewrite Eb.
Qed.

(** Incremental maintenance of the homomorphic checksum: inserting a leaf anywhere
    adds its digest, and removing it subtracts it again, without the other leaves. *)
Theorem homomorphic_incremental (l1 l2 : list Leaf) (x : Leaf) :
  let without := ck_bytes (homomorphic_compute (l1 ++ l2)) in
  let with_x := ck_bytes (homomorphic_compute (l1 ++ x :: l2)) in
  add_assign_u256 without (leaf_digest x) = with_x /\ sub_assign_u256 with_x (leaf_digest x) = without.
Proof.
  intros without with_x. destruct (homomorphic_bytes (l1 ++ l2)) as [L1 E1].
  destruct (homomorphic_bytes (l1 ++ x :: l2)) as [L2 E2]. fold without in L1, E1. fold with_x in L2, E2.
  destruct (add_assign_value without (leaf_digest x) L1 (blake3_len _)) as [L3 E3].
  destruct (sub_assign_value with_x (leaf_digest x) L2 (blake3_len _)) as [L4 E4].
  assert (sum_of digest_value (l1 ++ x :: l2) = digest_value x + sum_of digest_value (l1 ++ l2)) as Es
    by (by rewrite <- Permutation_middle).
  rewrite Es in E2. fold (digest_value x) in E3, E4. split; apply be_value_inj; try congruence.
  - rewrite E3, E2, E1, Zplus_mod_idemp_l. f_equal. lia.
  - rewrite E4, E2, E1, Zminus_mod_idemp_l. f_equal. lia.
Qed.
End HomomorphicProofs.

(** * What the Merkle checksum detects *)

#[export] Instance leaf_cmp_order : CmpOrder leaf_cmp.
Proof. unfold leaf_cmp. apply _. Qed.

#[export] Instance leaf_cmp_eq : CmpEq leaf_cmp.
Proof. unfold leaf_cmp. apply then_cmp_eq; [|apply _..]. intros [k1 v1] [k2 v2]; simpl. by intros -> ->. Qed.

(** The tree behind a checksum. *)
Inductive tree := Lf (l : Leaf) | Nd (t1 t2 : tree).

Fixpoint fringe (t : tree) : list Leaf :=
  match t with Lf l => [l] | Nd a b => fringe a ++ fringe b end.

(** The leaves of a store: a key below 4 GiB and a 32-byte value hash. *)
Definition wf_leaf (l : Leaf) : bool :=
  is_u32 (Z.of_nat (length (leaf_key l))) && bool_decide (length (value_blake3 l) = 32%nat).

Section MerkleProofs.
Context `{Blake3}.

Fixpoint tree_hash (t : tree) : bytes :=
  match t with Lf l => leaf_hash l | Nd a b => node_hash (tree_hash a) (tree_hash b) end.
(** Everything the computation hashes. *)
Fixpoint hashed (t : tree) : list bytes :=
  match t with
  | Lf l => [tagged_leaf TAG_LEAF l]
  | Nd a b => (TAG_NODE ++ tree_hash a ++ tree_hash b) :: hashed a ++ hashed b
  end.

(** Two different inputs of the hash function with the same hash. *)
Definition collide (A B : list bytes) : Prop := exists a b, a ∈ A /\ b ∈ B /\ a <> b /\ blake3 a = blake3 b.

Lemma tree_hash_len t : length (tree_hash t) = 32%nat.
Proof. destruct t; apply blake3_len. Qed.

Lemma tagged_leaf_inj tag l1 l2 :
  wf_leaf l1 = true -> wf_leaf l2 = true -> tagged_leaf tag l1 = tagged_leaf tag l2 -> l1 = l2.
Proof.
  unfold wf_leaf. rewrite !andb_true_iff, !bool_decide_eq_true. intros [K1 V1] [K2 V2] E.
  unfold tagged_leaf in E. apply app_inv_head in E.
  apply app_inj_1 in E as [El E]; [|by rewrite !length_to_le].
  apply (f_equal from_le) in El. rewrite !from_to_le_small in El by (unfold is_u32 in *; simpl; lia).
  apply app_inj_1 in E as [Ek Ev]; [|lia]. destruct l1, l2; simpl in *. by subst.
Qed.

(** Equal hashes come from equal trees, or a collision. *)
Lemma tree_hash_inj t1 t2 :
  forallb wf_leaf (fringe t1) = true -> forallb wf_leaf (fringe t2) = true ->
  tree_hash t1 = tree_hash t2 -> t1 = t2 \/ collide (hashed t1) (hashed t2).
Proof.
  revert t2. induction t1 as [l1|a1 IHa b1 IHb]; intros [l2|a2 b2] W1 W2 E; cbn [tree_hash hashed fringe] in *.
  - destruct (decide (tagged_leaf TAG_LEAF l1 = tagged_leaf TAG_LEAF l2)) as [Et|Hne].
    + left. f_equal. simpl in W1, W2. rewrite andb_true_r in W1, W2. by apply (tagged_leaf_inj TAG_LEAF).
    + right. exists (tagged_leaf TAG_LEAF l1), (tagged_leaf TAG_LEAF l2). split_and!; [by left..|done|done].
  - right. exists (tagged_leaf TAG_LEAF l1), (TAG_NODE ++ tree_hash a2 ++ tree_hash b2). split_and!; [by left..|done|done].
  - right. exists (TAG_NODE ++ tree_hash a1 ++ tree_hash b1), (tagged_leaf TAG_LEAF l2). split_and!; [by left..|done|done].
  - rewrite forallb_app, andb_true_iff in W1, W2. destruct W1, W2.
    destruct (decide (TAG_NODE ++ tree_hash a1 ++ tree_hash b1 = TAG_NODE ++ tree_hash a2 ++ tree_hash b2)) as [Et|Hne].
    + apply app_inv_head in Et. apply app_inj_1 in Et as [Ea Eb]; [|by rewrite !tree_hash_len].
      assert (forall A A' B B', collide A B -> A ⊆ A' -> B ⊆ B' -> collide A' B') as Hmono
        by (intros A A' B B' (a & b & HA & HB & Hc) HsA HsB; exists a, b; split_and!; [by apply HsA|by apply HsB|apply Hc..]).
      destruct (IHa a2) as [->|Hc]; [done..| |right; eapply Hmono; [exact Hc|set_solver..]].
      destruct (IHb b2) as [->|Hc]; [done..|by left|right; eapply Hmono; [exact Hc|set_solver..]].
    + right. eexists _, _. split_and!; [by left..|exact Hne|exact E].
Qed.

(** The reduction of a level of hashes is the hash of the reduction of trees. *)
Lemma pair_dup_map {A B} (f : A -> B) nodeA nodeB l :
  (forall x y, f (nodeA x y) = nodeB (f x) (f y)) -> map f (pair_dup nodeA l) = pair_dup nodeB (map f l).
Proof using.
  intros Hf. assert (forall n l, (length l <= n)%nat -> map f (pair_dup nodeA l) = pair_dup nodeB (map f l)) as Hn;
    [|by apply (Hn (length l))].
  induction n as [|n IH]; intros [|x [|y k]] Hl; simpl in *; try done; try lia; [by rewrite Hf|]. by rewrite Hf, IH by lia.
Qed.

Lemma reduce_loop_map {A B} (f : A -> B) nodeA nodeB fuel l :
  (forall x y, f (nodeA x y) = nodeB (f x) (f y)) ->
  f <$> reduce_loop nodeA fuel l = reduce_loop nodeB fuel (map f l).
Proof using.
  intros Hf. revert l. induction fuel as [|fuel IH]; intros [|x [|y l]]; try done.
  cbn [reduce_loop map]. rewrite IH. f_equal. by apply (pair_dup_map f nodeA nodeB (x :: y :: l)).
Qed.
End MerkleProofs.

(** The fringe of the reduced tree: the leaves, then repetitions of some. *)
Lemma pair_dup_fringe l :
  exists extra, concat (map fringe (pair_dup Nd l)) = concat (map fringe l) ++ extra
    /\ extra ⊆ concat (map fringe l).
Proof.
  assert (forall n l, (length l <= n)%nat -> exists extra,
    concat (map fringe (pair_dup Nd l)) = concat (map fringe l) ++ extra /\ extra ⊆ concat (map fringe l)) as Hn;
    [|by apply (Hn (length l))].
  induction n as [|n IH]; intros [|x [|y k]] Hl; simpl in *; try lia; try (exists []; split; [done|set_solver]).
  - exists (fringe x). rewrite !app_nil_r. split; [done|set_solver].
  - destruct (IH k ltac:(lia)) as (extra & -> & Hin). exists extra. split; [by rewrite !app_assoc|set_solver].
Qed.

Lemma length_pair_dup {A} (node : A -> A -> A) l :
  (2 <= length l)%nat -> (0 < length (pair_dup node l) < length l)%nat.
Proof.
  assert (forall n l, (length l <= n)%nat -> (length l <= 2 * length (pair_dup node l) <= length l + 1)%nat) as Hn.
  { induction n as [|n IH]; intros [|x [|y k]] Hl; simpl in *; try lia. specialize (IH k). lia. }
  intros H2. specialize (Hn (length l) l). lia.
Qed.

Lemma reduce_fringe fuel l :
  (length l <= fuel)%nat -> l <> [] ->
  exists t extra, reduce_loop Nd fuel l = Some t /\ fringe t = concat (map fringe l) ++ extra
    /\ extra ⊆ concat (map fringe l).
Proof.
  revert l. induction fuel as [|fuel IH]; intros [|x [|y k]] Hl Hne; try done; try (simpl in Hl; lia).
  - exists x, []. simpl. rewrite !app_nil_r. split_and!; [done|done|set_solver].
  - cbn [reduce_loop]. set (l := x :: y :: k) in *. pose proof (length_pair_dup Nd l ltac:(simpl; lia)) as Hp.
    destruct (IH (pair_dup Nd l) ltac:(lia)) as (t & e & -> & Hf & He); [by destruct (pair_dup Nd l); simpl in *; [lia|]|].
    destruct (pair_dup_fringe l) as (e' & Ep & Hp'). exists t, (e' ++ e). rewrite Ep in Hf, He.
    split; [done|]. split; [by rewrite Hf, app_assoc|]. set_solver.
Qed.

(** Duplicate-free lists are determined by themselves with repetitions appended. *)
Lemma repeated_suffix_inj {A} (l1 l2 e1 e2 : list A) :
  NoDup l1 -> NoDup l2 -> e1 ⊆ l1 -> e2 ⊆ l2 -> l1 ++ e1 = l2 ++ e2 -> l1 = l2.
Proof.
  assert (forall l1 l2 e1 e2 : list A, (length l1 <= length l2)%nat ->
    NoDup l2 -> e1 ⊆ l1 -> l1 ++ e1 = l2 ++ e2 -> l1 = l2) as Hw.
  { clear. intros l1 l2 e1 e2 Hl Hn He E.
    assert (l2 = l1 ++ take (length l2 - length l1) e1) as E2.
    { apply (f_equal (take (length l2))) in E. rewrite take_app_length, take_app, take_ge in E by lia. done. }
    destruct (take (length l2 - length l1) e1) as [|x m] eqn:Em; [by rewrite app_nil_r in E2|]. exfalso.
    rewrite E2 in Hn. apply NoDup_app in Hn as (_ & Hd & _). apply (Hd x); [|by left].
    apply He. rewrite <- (take_drop (length l2 - length l1) e1), Em. set_solver. }
  intros N1 N2 E1 E2 E. destruct (Nat.le_ge_cases (length l1) (length l2)); [by eapply Hw|]. symmetry. by eapply Hw.
Qed.

Section MerkleIdentity.
Context `{Blake3}.

Definition merkle_tree (leaves : list Leaf) : option tree := reduce Nd (map Lf (sort_by leaf_cmp leaves)).

(** Everything [merkle_compute] hashes. *)
Definition merkle_hashed (leaves : list Leaf) : list bytes :=
  match leaves with
  | [] => [TAG_EMPTY]
  | _ => match merkle_tree leaves with Some t => hashed t | None => [] end
  end.

Lemma merkle_tree_spec leaves :
  leaves <> [] ->
  exists t extra, merkle_tree leaves = Some t /\ fringe t = sort_by leaf_cmp leaves ++ extra
    /\ extra ⊆ sort_by leaf_cmp leaves /\ ck_bytes (merkle_compute leaves) = tree_hash t.
Proof.
  intros Hne. set (l := sort_by leaf_cmp leaves).
  assert (map Lf l <> []) as Hl.
  { intros E. apply map_eq_nil in E. apply (f_equal length) in E. unfold l in E.
    rewrite (Permutation_length (sort_by_perm leaf_cmp leaves)) in E. by destruct leaves. }
  destruct (reduce_fringe (length (map Lf l)) (map Lf l) ltac:(lia) Hl) as (t & extra & Et & Ef & He).
  assert (concat (map fringe (map Lf l)) = l) as Ec.
  { clear. induction l as [|x l IH]; [done|]. simpl. by f_equal. }
  rewrite Ec in Ef, He. exists t, extra. split; [exact Et|]. split; [done|]. split; [done|].
  unfold merkle_compute. destruct leaves as [|x leaves]; [done|]. cbn [ck_bytes]. fold l. unfold reduce.
  replace (map leaf_hash l) with (map tree_hash (map Lf l)) by (by rewrite map_map).
  rewrite length_map, <- (reduce_loop_map tree_hash Nd node_hash) by done. by rewrite Et.
Qed.

Lemma collide_empty_l t : collide [TAG_EMPTY] (hashed t) \/ blake3 TAG_EMPTY <> tree_hash t.
Proof.
  destruct (decide (blake3 TAG_EMPTY = tree_hash t)) as [E|]; [left|by right].
  destruct t as [l|a b]; eexists _, _; (split_and!; [by left|by left| |exact E]); done.
Qed.

Lemma collide_sym A B : collide A B -> collide B A.
Proof. intros (a & b & HA & HB & Hne & E). exists b, a. split_and!; [done..|by intros ->|done]. Qed.

(** The Merkle checksum identifies the live items of a partition: it does not
    depend on the order of the leaves, and two sets of leaves with the same
    checksum are the same, or the two computations hash two different byte strings
    to the same value.  That an odd node is paired with itself loses nothing on
    sets. *)
Theorem merkle_checksum_identity (l1 l2 : list Leaf) :
  NoDup l1 -> NoDup l2 -> forallb wf_leaf l1 = true -> forallb wf_leaf l2 = true ->
  (l1 ≡ₚ l2 -> merkle_compute l1 = merkle_compute l2)
  /\ (merkle_compute l1 = merkle_compute l2 -> l1 ≡ₚ l2 \/ collide (merkle_hashed l1) (merkle_hashed l2)).
Proof.
  intros N1 N2 W1 W2. split.
  { intros Hp. unfold merkle_compute. rewrite (sort_by_canonical leaf_cmp l1 l2) by (done || intros; by apply leaf_cmp_eq).
    destruct l1, l2; [done|by apply Permutation_nil_l in Hp|by symmetry in Hp; apply Permutation_nil_l in Hp|done]. }
  intros E. apply (f_equal ck_bytes) in E.
  assert (forall l, l <> [] -> exists t extra, merkle_hashed l = hashed t /\ fringe t = sort_by leaf_cmp l ++ extra
    /\ extra ⊆ sort_by leaf_cmp l /\ ck_bytes (merkle_compute l) = tree_hash t) as Hsp.
  { intros l Hl. destruct (merkle_tree_spec l Hl) as (t & e & Et & Hrest). exists t, e. split; [|done].
    unfold merkle_hashed. destruct l; [done|]. by rewrite Et. }
  destruct (decide (l1 = [])) as [->|H1], (decide (l2 = [])) as [->|H2]; [by left| | |].
  - right. destruct (Hsp l2 H2) as (t & e & -> & _ & _ & Et). rewrite Et in E.
    by destruct (collide_empty_l t).
  - right. destruct (Hsp l1 H1) as (t & e & -> & _ & _ & Et). rewrite Et in E.
    apply collide_sym. by destruct (collide_empty_l t).
  - destruct (Hsp l1 H1) as (t1 & e1 & -> & F1 & I1 & T1), (Hsp l2 H2) as (t2 & e2 & -> & F2 & I2 & T2).
    assert (forall l e t, fringe t = sort_by leaf_cmp l ++ e -> e ⊆ sort_by leaf_cmp l -> forallb wf_leaf l = true ->
      forallb wf_leaf (fringe t) = true) as Hwf.
    { intros l e t -> He Hw. rewrite forallb_Forall in *. rewrite Forall_forall in *. intros x Hx. apply Hw.
      rewrite <- (sort_by_perm leaf_cmp l). set_solver. }
    destruct (tree_hash_inj t1 t2) as [->|Hc]; [by eapply Hwf..|congruence| |by right]. left.
    rewrite <- (sort_by_perm leaf_cmp l1), <- (sort_by_perm leaf_cmp l2).
    rewrite (repeated_suffix_inj (sort_by leaf_cmp l1) (sort_by leaf_cmp l2) e1 e2); [done| | |done|done|congruence].
    + by rewrite sort_by_perm.
    + by rewrite sort_by_perm.
Qed.
End MerkleIdentity.

(** * Concrete checksums *)

#[local] Existing Instance mix_blake3.

Definition ex_item (k : string) (n : Z) : Leaf := {| leaf_key := bstr k; value_blake3 := repeat (z2b n) 32 |}.
Definition ex_items : list Leaf := [ex_item "b" 2; ex_item "a" 1; ex_item "c" 3].

Lemma merkle_checksum_identity_witness : merkle_compute ex_items = merkle_compute (rev ex_items).
Proof.
  apply (merkle_checksum_identity ex_items (rev ex_items)); [..|apply Permutation_rev]; vm_compute; try reflexivity;
    refine (bool_decide_unpack _ _); vm_compute; exact I.
Defined.
