(* ===== verification/PackKeys.v ===== *)
(** The names of pack advertisements and their sidecars,
    [crates/sync-store/src/pack_keys.rs]: formatting, strict parsing, and the
    classification of a directory entry. *)

From stdpp Require Import base list numbers strings options.
From Stdlib Require Import ZArith Lia.
From S2P Require Import Prelude RustStd RustText Wire.

Open Scope Z_scope.

Definition PACKS_ROOT : bytes := bstr "_packs".
Definition PACK_INDEX_ROOT : bytes := bstr "_packs/v4".
Definition LAYOUT_MARKER_SUFFIX : bytes := bstr ".layout".
Definition STALE_MARKER_SUFFIX : bytes := bstr ".stale".

(** The error texts, by their cause. *)
Inductive KeyError :=
| NotPackSeries (name : bytes)
| NotPackFile (name : bytes)
| BadHash (name : bytes) (e : cerror).

Definition series_dir_name (h : bytes) : bytes := bstr "series=" ++ to_hex h.
Definition pack_file_name (h : bytes) : bytes := bstr "pack=" ++ to_hex h.

Definition parse_hash (name hex : bytes) : outcome KeyError bytes :=
  match from_hex hex with Ok h => Ok h | Err e => Err (BadHash name e) | Panic => Panic end.

Definition parse_series_dir_name (name : bytes) : outcome KeyError bytes :=
  match strip_prefix (bstr "series=") name with
  | Some hex => parse_hash name hex
  | None => Err (NotPackSeries name)
  end.

Definition parse_pack_file_name (name : bytes) : outcome KeyError bytes :=
  match strip_prefix (bstr "pack=") name with
  | Some hex => parse_hash name hex
  | None => Err (NotPackFile name)
  end.

Definition layout_marker_file_name (h : bytes) : bytes := pack_file_name h ++ LAYOUT_MARKER_SUFFIX.

Definition parse_layout_marker_file_name (name : bytes) : outcome KeyError (option bytes) :=
  match strip_suffix LAYOUT_MARKER_SUFFIX name with
  | None => Ok None
  | Some inner => h ← parse_pack_file_name inner; mret (Some h)
  end.

Definition stale_marker_file_name (h : bytes) : bytes := pack_file_name h ++ STALE_MARKER_SUFFIX.

Definition parse_stale_marker_file_name (name : bytes) : outcome KeyError (option bytes) :=
  match strip_suffix STALE_MARKER_SUFFIX name with
  | None => Ok None
  | Some inner => h ← parse_pack_file_name inner; mret (Some h)
  end.

Definition stale_series_marker_file_name (h : bytes) : bytes := series_dir_name h ++ STALE_MARKER_SUFFIX.

Definition parse_stale_series_marker_file_name (name : bytes) : outcome KeyError (option bytes) :=
  match strip_suffix STALE_MARKER_SUFFIX name with
  | None => Ok None
  | Some inner => h ← parse_series_dir_name inner; mret (Some h)
  end.

Definition IGNORABLE_METADATA_FILENAMES : list bytes := [bstr ".DS_Store"; bstr "Thumbs.db"; bstr "desktop.ini"].

Definition is_ignorable_directory_entry (name : bytes) : bool :=
  match strip_prefix (bstr ".tmp-") name with Some _ => true | None => false end
  || bool_decide (name ∈ IGNORABLE_METADATA_FILENAMES).

(** * The names a parser accepts *)

(** A parser of names accepts exactly these texts, in either case of the hex
    digits, and returns their hash. *)
Definition hash_name (pre hex suf name h : bytes) : Prop :=
  name = pre ++ hex ++ suf /\ length hex = 64%nat /\ wf_hash h = true /\ to_hex h = map ascii_lower hex.

Lemma from_hex_spec hex h :
  from_hex hex = Ok h -> length hex = 64%nat /\ wf_hash h = true /\ to_hex h = map ascii_lower hex.
Proof.
  intros E. destruct (object_hash_hex h hex) as [_ Hp]. destruct (Hp E) as [Hw Hh]. split; [|done].
  apply (f_equal length) in Hh. rewrite length_to_hex, length_map in Hh.
  unfold wf_hash in Hw. apply bool_decide_eq_true in Hw. lia.
Qed.

Lemma parse_hash_spec name hex h :
  parse_hash name hex = Ok h -> length hex = 64%nat /\ wf_hash h = true /\ to_hex h = map ascii_lower hex.
Proof. unfold parse_hash. destruct (from_hex hex) eqn:E; [|done..]. intros [= <-]. by apply from_hex_spec. Qed.

Lemma parse_prefixed pre name h :
  match strip_prefix pre name with Some hex => parse_hash name hex | None => Err (NotPackFile name) end = Ok h ->
  exists hex, hash_name pre hex [] name h.
Proof.
  destruct (strip_prefix pre name) as [hex|] eqn:E; [|done]. intros Hp. apply strip_prefix_spec in E.
  exists hex. unfold hash_name. rewrite app_nil_r. split; [done|]. by eapply parse_hash_spec.
Qed.

Lemma parse_pack_inv name h : parse_pack_file_name name = Ok h -> exists hex, hash_name (bstr "pack=") hex [] name h.
Proof. apply parse_prefixed. Qed.

Lemma parse_series_inv name h : parse_series_dir_name name = Ok h -> exists hex, hash_name (bstr "series=") hex [] name h.
Proof.
  unfold parse_series_dir_name. intros E. apply parse_prefixed.
  by destruct (strip_prefix (bstr "series=") name).
Qed.

Lemma parse_pack_name h : wf_hash h = true -> parse_pack_file_name (pack_file_name h) = Ok h.
Proof.
  intros Hh. unfold parse_pack_file_name, pack_file_name.
  assert (strip_prefix (bstr "pack=") (bstr "pack=" ++ to_hex h) = Some (to_hex h)) as -> by (by apply strip_prefix_spec).
  unfold parse_hash. by rewrite (proj1 (object_hash_hex h [])).
Qed.

Lemma parse_series_name h : wf_hash h = true -> parse_series_dir_name (series_dir_name h) = Ok h.
Proof.
  intros Hh. unfold parse_series_dir_name, series_dir_name.
  assert (strip_prefix (bstr "series=") (bstr "series=" ++ to_hex h) = Some (to_hex h)) as -> by (by apply strip_prefix_spec).
  unfold parse_hash. by rewrite (proj1 (object_hash_hex h [])).
Qed.

Lemma strip_suffix_app suf l : strip_suffix suf (l ++ suf) = Some l.
Proof. by apply strip_suffix_spec. Qed.

(** Pack names round-trip: every advertisement, layout marker, stale marker and
    series directory name parses back to the hash it was formatted from. *)
Theorem pack_names_round_trip (h : bytes) :
  wf_hash h = true ->
  parse_pack_file_name (pack_file_name h) = Ok h
  /\ parse_series_dir_name (series_dir_name h) = Ok h
  /\ parse_layout_marker_file_name (layout_marker_file_name h) = Ok (Some h)
  /\ parse_stale_marker_file_name (stale_marker_file_name h) = Ok (Some h)
  /\ parse_stale_series_marker_file_name (stale_series_marker_file_name h) = Ok (Some h).
Proof.
  intros Hh. unfold parse_layout_marker_file_name, layout_marker_file_name, parse_stale_marker_file_name,
    stale_marker_file_name, parse_stale_series_marker_file_name, stale_series_marker_file_name.
  rewrite !strip_suffix_app, parse_pack_name, parse_series_name by done. done.
Qed.

(** The classes of an entry of a series directory. *)
Inductive EntryClass := CAdvertisement (h : bytes) | CLayout (h : bytes) | CStale (h : bytes) | CIgnored.

Definition in_class (name : bytes) (c : EntryClass) : Prop :=
  match c with
  | CAdvertisement h => parse_pack_file_name name = Ok h
  | CLayout h => parse_layout_marker_file_name name = Ok (Some h)
  | CStale h => parse_stale_marker_file_name name = Ok (Some h)
  | CIgnored => is_ignorable_directory_entry name = true
  end.

Definition class_suffix (c : EntryClass) : bytes :=
  match c with CLayout _ => LAYOUT_MARKER_SUFFIX | CStale _ => STALE_MARKER_SUFFIX | _ => [] end.

Lemma marked_inv suf name h :
  match strip_suffix suf name with
  | None => Ok None | Some inner => h ← parse_pack_file_name inner; mret (Some h) end = Ok (Some h) ->
  exists hex, hash_name (bstr "pack=") hex suf name h.
Proof.
  destruct (strip_suffix suf name) as [inner|] eqn:E; [|done]. apply strip_suffix_spec in E as ->.
  destruct (parse_pack_file_name inner) as [h'|e|] eqn:Ep; cbn [mbind outcome_bind mret outcome_ret]; [|done..].
  intros [= <-]. destruct (parse_pack_inv inner h' Ep) as (hex & -> & Hl & Hrest). exists hex.
  split; [|done]. by rewrite app_nil_r, <- app_assoc.
Qed.

Lemma in_class_inv name c :
  in_class name c ->
  match c with
  | CAdvertisement h | CLayout h | CStale h => exists hex, hash_name (bstr "pack=") hex (class_suffix c) name h
  | CIgnored => True
  end.
Proof. destruct c; simpl; intros Hc; [by apply parse_pack_inv|by apply marked_inv|by apply marked_inv|done]. Qed.

Lemma pack_not_ignored name hex suf h : hash_name (bstr "pack=") hex suf name h -> is_ignorable_directory_entry name = false.
Proof.
  intros (-> & Hl & _). unfold is_ignorable_directory_entry.
  destruct (strip_prefix (bstr ".tmp-") (bstr "pack=" ++ hex ++ suf)) as [r|] eqn:E; [by apply strip_prefix_spec in E|].
  done.
Qed.

Lemma class_suffix_unique c1 c2 :
  length (class_suffix c1) = length (class_suffix c2) -> class_suffix c1 = class_suffix c2.
Proof. by destruct c1, c2. Qed.

(** Directory entries are classified without overlap: no name is at once two of
    an advertisement, a layout marker, a stale marker and an ignorable entry, and a
    name determines the hash it carries. *)
Theorem entry_class_unique (name : bytes) (c1 c2 : EntryClass) :
  in_class name c1 -> in_class name c2 -> c1 = c2.
Proof.
  intros H1 H2. pose proof (in_class_inv name c1 H1) as I1. pose proof (in_class_inv name c2 H2) as I2.
  assert (forall c h hex, hash_name (bstr "pack=") hex (class_suffix c) name h -> in_class name CIgnored -> False) as Hign.
  { intros c h hex Hn Hi. apply pack_not_ignored in Hn. simpl in Hi. congruence. }
  assert (forall c c' h h' hex hex', hash_name (bstr "pack=") hex (class_suffix c) name h ->
    hash_name (bstr "pack=") hex' (class_suffix c') name h' -> class_suffix c = class_suffix c' /\ h = h') as Hsame.
  { intros c c' h h' hex hex' (E & L & W & X) (E' & L' & W' & X'). rewrite E in E'. apply app_inv_head in E'.
    apply app_inj_1 in E' as [-> Es]; [|congruence]. split; [done|].
    assert (Ok h = Ok h' :> res bytes) as Eh; [|by injection Eh].
    rewrite <- (proj1 (object_hash_hex h []) W), <- (proj1 (object_hash_hex h' []) W'). congruence. }
  destruct c1 as [h1|h1|h1|], c2 as [h2|h2|h2|]; try done;
    repeat match goal with H : exists _, _ |- _ => destruct H as [? H] end;
    try (exfalso; by eauto using Hign); edestruct (Hsame _ _ _ _ _ _ I1 I2) as [Es ->]; done.
Qed.

(** * Concrete names *)

Definition ex_hash : bytes := repeat Byte.xab 32.

Lemma pack_names_round_trip_witness : parse_pack_file_name (pack_file_name ex_hash) = Ok ex_hash.
Proof. apply (pack_names_round_trip ex_hash). vm_compute. reflexivity. Defined.

Lemma entry_class_unique_witness : CLayout ex_hash = CLayout ex_hash.
Proof. apply (entry_class_unique (layout_marker_file_name ex_hash)); vm_compute; reflexivity. Defined.
