(* ===== verification/QueryStats.v ===== *)
(** Event-time statistics and chunk pruning, [crates/query-foundation/src]:
    inclusive intervals and the bounds a conjunction of filters implies
    ([statistics.rs]) and the selection of the chunks a scan reads
    ([provider.rs]).  The filters are expressions of the query engine; what the
    engine means by them is the interface [FilterSemantics]. *)

From stdpp Require Import base list numbers strings options.
From Stdlib Require Import ZArith Lia.
From S2P Require Import Prelude RustStd.

Open Scope Z_scope.

(** [checked_add], [checked_sub] and [checked_mul] of [i64]. *)
Definition checked_i64 (z : Z) : option Z := if is_i64 z then Some z else None.

(** * Intervals *)

Record TimeInterval := { tmin : Z; tmax : Z }.

#[export] Instance TimeInterval_eq_dec : EqDecision TimeInterval.
Proof. solve_decision. Defined.

(** The plans the crate refuses, one constructor per message. *)
Inductive PlanError :=
| InvertedInterval (min max : Z)
| NegativeLateness (max_lateness : Z)
| FrontierWithoutObserved
| FrontierBeyondObserved (settled observed : Z)
| UnknownExtent
| RepairRejected (changed : TimeInterval) (frontier : Z)
| RepairTooLate (changed : TimeInterval) (frontier earliest : Z)
| FrontierOverflow
| FrontierBackward (previous current : Z)
| EmptySource
| EmptyIdentity
| BadWindowWidth (width : Z)
| NoInputs
| EmptyInput
| DuplicateInput (input : bytes)
| MinimumOverflow
| MaximumOverflow
| WindowEndOverflow.

Definition interval_try_new (min max : Z) : outcome PlanError TimeInterval :=
  if max <? min then Err (InvertedInterval min max) else Ok {| tmin := min; tmax := max |}.

(** The intervals [interval_try_new] makes of [i64] values. *)
Definition wf_interval (i : TimeInterval) : bool := is_i64 (tmin i) && is_i64 (tmax i) && (tmin i <=? tmax i).

Definition within (t : Z) (i : TimeInterval) : Prop := tmin i <= t <= tmax i.

Record Bound := { value : Z; inclusive : bool }.
Record QueryBounds := { lower : option Bound; upper : option Bound }.

Definition can_intersect (i : TimeInterval) (bounds : QueryBounds) : bool :=
  if match lower bounds with
     | Some b => (tmax i <? value b) || ((tmax i =? value b) && negb (inclusive b))
     | None => false
     end then false else
  if match upper bounds with
     | Some b => (value b <? tmin i) || ((tmin i =? value b) && negb (inclusive b))
     | None => false
     end then false else true.

Definition tighter_lower (left right : option Bound) : option Bound :=
  match left, right with
  | None, bound | bound, None => bound
  | Some l, Some r =>
      if value r <? value l then Some l else
      if value l <? value r then Some r else
      Some {| value := value l; inclusive := inclusive l && inclusive r |}
  end.

Definition tighter_upper (left right : option Bound) : option Bound :=
  match left, right with
  | None, bound | bound, None => bound
  | Some l, Some r =>
      if value l <? value r then Some l else
      if value r <? value l then Some r else
      Some {| value := value l; inclusive := inclusive l && inclusive r |}
  end.

Definition intersect (a b : QueryBounds) : QueryBounds :=
  {| lower := tighter_lower (lower a) (lower b); upper := tighter_upper (upper a) (upper b) |}.

Definition retains (b : QueryBounds) (i : TimeInterval) : bool := can_intersect i b.

(** * Filters *)

Inductive TimeUnit := Second | Millisecond | Microsecond | Nanosecond.

#[export] Instance TimeUnit_eq_dec : EqDecision TimeUnit.
Proof. solve_decision. Defined.

(** The scalars the code tells apart; [None] is a typed null. *)
Inductive ScalarValue :=
| SInt64 (v : option Z)
| SDate64 (v : option Z)
| STimestamp (unit : TimeUnit) (v : option Z)
| SOther (text : bytes).

Inductive Operator := OpAnd | OpEq | OpGt | OpGtEq | OpLt | OpLtEq | OpOther (name : bytes).

#[export] Instance Operator_eq_dec : EqDecision Operator.
Proof. solve_decision. Defined.

(** Expressions of the query engine; every form the code does not look into is
    an [EOther] with its subexpressions. *)
Inductive Expr :=
| EColumn (name : bytes)
| ELiteral (v : ScalarValue)
| EBinary (left : Expr) (op : Operator) (right : Expr)
| EBetween (expr : Expr) (negated : bool) (low high : Expr)
| EOther (name : bytes) (args : list Expr).

Definition is_column (e : Expr) (name : bytes) : bool :=
  match e with EColumn n => bool_decide (n = name) | _ => false end.

Definition scalar_i64 (e : Expr) : option Z :=
  match e with
  | ELiteral (SInt64 v) | ELiteral (SDate64 v) | ELiteral (STimestamp _ v) => v
  | _ => None
  end.

Definition reverse (op : Operator) : option Operator :=
  match op with
  | OpEq => Some OpEq
  | OpGt => Some OpLt
  | OpGtEq => Some OpLtEq
  | OpLt => Some OpGt
  | OpLtEq => Some OpGtEq
  | _ => None
  end.

Definition bound_for_operator (op : Operator) (v : Z) : option QueryBounds :=
  let inc := match op with OpEq | OpGtEq | OpLtEq => true | _ => false end in
  let b := {| value := v; inclusive := inc |} in
  match op with
  | OpEq => Some {| lower := Some b; upper := Some b |}
  | OpGt | OpGtEq => Some {| lower := Some b; upper := None |}
  | OpLt | OpLtEq => Some {| lower := None; upper := Some b |}
  | _ => None
  end.

Definition comparison_bounds (left : Expr) (op : Operator) (right : Expr) (column : bytes) : option QueryBounds :=
  if is_column left column then v ← scalar_i64 right; bound_for_operator op v else
  if is_column right column then op ← reverse op; v ← scalar_i64 left; bound_for_operator op v else
  None.

Fixpoint expression_bounds (e : Expr) (column : bytes) : option QueryBounds :=
  match e with
  | EBinary el op er =>
      if bool_decide (op = OpAnd) then
        match expression_bounds el column, expression_bounds er column with
        | Some l, Some r => Some (intersect l r)
        | Some b, None | None, Some b => Some b
        | None, None => None
        end
      else comparison_bounds el op er column
  | EBetween e negated low high =>
      if negb negated && is_column e column then
        let inclusively v := {| value := v; inclusive := true |} in
        let bounds := {| lower := inclusively <$> scalar_i64 low; upper := inclusively <$> scalar_i64 high |} in
        match lower bounds, upper bounds with
        | None, None => None
        | _, _ => Some bounds
        end
      else None
  | _ => None
  end.

(** [Iterator::reduce]. *)
Definition reduce_with {A} (f : A -> A -> A) (l : list A) : option A :=
  match l with [] => None | x :: l => Some (fold_left f l x) end.

Definition event_time_bounds (filters : list Expr) (column : bytes) : option QueryBounds :=
  reduce_with intersect (omap (fun f => expression_bounds f column) filters).

(** * Chunk selection *)

Section Selection.
Context {Chunk : Type} (bounds_of : Chunk -> option TimeInterval).

(** The chunks a scan reads, and how many of them had no statistics. *)
Definition select_chunks (event_time : option bytes) (filters : list Expr) (chunks : list Chunk) : list Chunk * Z :=
  let query_bounds := event_time ≫= event_time_bounds filters in
  (List.filter (fun c =>
     match query_bounds, bounds_of c with
     | Some b, Some i => retains b i
     | Some _, None => true
     | None, _ => true
     end) chunks,
   Z.of_nat (length (List.filter (fun c =>
     match query_bounds, bounds_of c with Some _, None => true | _, _ => false end) chunks))).
End Selection.

(** * What filters mean *)

(** The scalar types an event-time column can have. *)
Inductive TimeType := TInt64 | TDate64 | TTimestamp (unit : TimeUnit).

#[export] Instance TimeType_eq_dec : EqDecision TimeType.
Proof. solve_decision. Defined.

Definition scalar_type (v : ScalarValue) : option TimeType :=
  match v with
  | SInt64 _ => Some TInt64
  | SDate64 _ => Some TDate64
  | STimestamp u _ => Some (TTimestamp u)
  | SOther _ => None
  end.

Definition compares (op : Operator) (x y : Z) : Prop :=
  match op with
  | OpEq => x = y | OpGt => x > y | OpGtEq => x >= y | OpLt => x < y | OpLtEq => x <= y
  | _ => True
  end.

(** What the query engine documents of filters it keeps a row for: a conjunction
    holds when both sides do, and comparing the event-time column with a literal
    of the column's type compares the column's value with it.  [holds f r]: the
    filter is true, not false and not null, for the row. *)
Class FilterSemantics (Row : Type) (column : bytes) (type : TimeType) := {
  holds : Expr -> Row -> bool;
  time_of : Row -> option Z;
  holds_and l r row : holds (EBinary l OpAnd r) row = true -> holds l row = true /\ holds r row = true;
  holds_left op v x row : op <> OpAnd -> scalar_type v = Some type -> scalar_i64 (ELiteral v) = Some x ->
    holds (EBinary (EColumn column) op (ELiteral v)) row = true ->
    exists t, time_of row = Some t /\ compares op t x;
  holds_right op v x row : op <> OpAnd -> scalar_type v = Some type -> scalar_i64 (ELiteral v) = Some x ->
    holds (EBinary (ELiteral v) op (EColumn column)) row = true ->
    exists t, time_of row = Some t /\ compares op x t;
  holds_between low high row : holds (EBetween (EColumn column) false low high) row = true ->
    exists t, time_of row = Some t
      /\ (forall v x, low = ELiteral v -> scalar_type v = Some type -> scalar_i64 low = Some x -> x <= t)
      /\ (forall v x, high = ELiteral v -> scalar_type v = Some type -> scalar_i64 high = Some x -> t <= x);
}.

(** A filter the engine's type coercion produces: literals that meet the column
    have its type. *)
Definition meets (type : TimeType) (e : Expr) : bool :=
  match e with
  | ELiteral v => match scalar_i64 e with Some _ => bool_decide (scalar_type v = Some type) | None => true end
  | _ => true
  end.
Fixpoint coerced (column : bytes) (type : TimeType) (e : Expr) : bool :=
  match e with
  | EBinary el OpAnd er => coerced column type el && coerced column type er
  | EBinary el _ er =>
      (if is_column el column then meets type er else true)
      && (if is_column er column then meets type el else true)
  | EBetween e _ low high => if is_column e column then meets type low && meets type high else true
  | _ => true
  end.

(** * Bounds are conservative *)

(** The values a pair of bounds admits. *)
Definition above (b : option Bound) (t : Z) : Prop :=
  match b with None => True | Some b => if inclusive b then value b <= t else value b < t end.
Definition below (b : option Bound) (t : Z) : Prop :=
  match b with None => True | Some b => if inclusive b then t <= value b else t < value b end.
Definition admits (b : QueryBounds) (t : Z) : Prop := above (lower b) t /\ below (upper b) t.

Lemma tighter_lower_spec a b t : above (tighter_lower a b) t <-> above a t /\ above b t.
Proof.
  destruct a as [[va ia]|], b as [[vb ib]|]; cbn [tighter_lower value above]; try tauto.
  destruct (Z.ltb_spec vb va), (Z.ltb_spec va vb); cbn [above value inclusive]; destruct ia, ib; cbn [andb]; lia.
Qed.

Lemma tighter_upper_spec a b t : below (tighter_upper a b) t <-> below a t /\ below b t.
Proof.
  destruct a as [[va ia]|], b as [[vb ib]|]; cbn [tighter_upper value below]; try tauto.
  destruct (Z.ltb_spec va vb), (Z.ltb_spec vb va); cbn [below value inclusive]; destruct ia, ib; cbn [andb]; lia.
Qed.

Lemma intersect_spec a b t : admits (intersect a b) t <-> admits a t /\ admits b t.
Proof. unfold admits, intersect. cbn [lower upper]. rewrite tighter_lower_spec, tighter_upper_spec. tauto. Qed.

Lemma bound_for_operator_spec op v b t : bound_for_operator op v = Some b -> admits b t <-> compares op t v.
Proof. destruct op; try done; intros [= <-]; unfold admits; cbn; lia. Qed.

Lemma compares_reverse op op' x y : reverse op = Some op' -> compares op x y -> compares op' y x.
Proof. destruct op; try done; intros [= <-]; cbn; lia. Qed.

Lemma retains_spec b i t : within t i -> admits b t -> retains b i = true.
Proof.
  intros [H1 H2] [Hl Hu]. unfold retains, can_intersect. destruct b as [[[vl il]|] [[vu iu]|]]; cbn in *;
    repeat match goal with |- context [?a <? ?b] => destruct (Z.ltb_spec a b) end;
    repeat match goal with |- context [?a =? ?b] => destruct (Z.eqb_spec a b) end;
    try destruct il; try destruct iu; cbn; (done || lia).
Qed.

Lemma reduce_intersect l t b : reduce_with intersect l = Some b -> admits b t <-> Forall (fun x => admits x t) l.
Proof.
  destruct l as [|x l]; [done|]. cbn [reduce_with]. intros [= <-]. revert x.
  induction l as [|y l IH]; intros x; cbn [fold_left].
  - rewrite Forall_singleton. done.
  - rewrite IH, !Forall_cons, intersect_spec. tauto.
Qed.

Section Pruning.
Context {Row : Type} {column : bytes} {type : TimeType} `{!FilterSemantics Row column type}.

Lemma meets_literal e x : meets type e = true -> scalar_i64 e = Some x -> exists v, e = ELiteral v /\ scalar_type v = Some type.
Proof using.
  destruct e as [|v| | |]; try done. unfold meets. intros H E. rewrite E in H. exists v. split; [done|].
  by apply bool_decide_eq_true in H.
Qed.

Lemma comparison_bounds_sound left op right b row :
  op <> OpAnd -> (if is_column left column then meets type right else true) = true ->
  (if is_column right column then meets type left else true) = true ->
  comparison_bounds left op right column = Some b -> holds (EBinary left op right) row = true ->
  exists t, time_of row = Some t /\ admits b t.
Proof using Type*.
  intros Hop Ml Mr Hb Hh. unfold comparison_bounds in Hb. destruct (is_column left column) eqn:El.
  - destruct left as [n| | | |]; try done. apply bool_decide_eq_true in El as ->.
    apply bind_Some in Hb as (x & Hx & Hb). destruct (meets_literal _ _ Ml Hx) as (v & -> & Ht).
    destruct (holds_left op v x row Hop Ht Hx Hh) as (t & Et & Hc). exists t. split; [done|].
    by apply (bound_for_operator_spec _ _ _ _ Hb).
  - destruct (is_column right column) eqn:Er; [|done].
    destruct right as [n| | | |]; try done. apply bool_decide_eq_true in Er as ->.
    apply bind_Some in Hb as (op' & Hr & Hb). apply bind_Some in Hb as (x & Hx & Hb).
    destruct (meets_literal _ _ Mr Hx) as (v & -> & Ht).
    destruct (holds_right op v x row Hop Ht Hx Hh) as (t & Et & Hc). exists t. split; [done|].
    apply (bound_for_operator_spec _ _ _ _ Hb). by apply (compares_reverse op).
Qed.

Lemma expression_bounds_sound e b row :
  coerced column type e = true -> expression_bounds e column = Some b -> holds e row = true ->
  exists t, time_of row = Some t /\ admits b t.
Proof using Type*.
  revert b. induction e as [n|v|l IHl op r IHr|e IHe neg lo _ hi _|n args]; intros b Hc Hb Hh; try done.
  - cbn [expression_bounds] in Hb. case_bool_decide as Hop.
    + subst op. cbn [coerced] in Hc. apply andb_true_iff in Hc as [Cl Cr]. apply holds_and in Hh as [Hl Hr].
      destruct (expression_bounds l column) as [bl|] eqn:El, (expression_bounds r column) as [br|] eqn:Er; [| | |done];
        injection Hb as <-; [|by apply IHl|by apply IHr].
      destruct (IHl bl Cl eq_refl Hl) as (t & Et & A1), (IHr br Cr eq_refl Hr) as (t' & Et' & A2).
      rewrite Et in Et'. injection Et' as <-. exists t. split; [done|]. by apply intersect_spec.
    + assert ((if is_column l column then meets type r else true) = true
              /\ (if is_column r column then meets type l else true) = true) as [Ml Mr]
        by (destruct op; try done; by apply andb_true_iff in Hc).
      by apply (comparison_bounds_sound l op r b row).
  - cbn [expression_bounds] in Hb. destruct neg; [done|]. cbn [negb andb] in Hb.
    destruct (is_column e column) eqn:Ee; [|done]. cbn [coerced] in Hc. rewrite Ee in Hc.
    apply andb_true_iff in Hc as [Ml Mh]. destruct e as [n| | | |]; try done. apply bool_decide_eq_true in Ee as ->.
    destruct (holds_between lo hi row Hh) as (t & Et & Hlo & Hhi). exists t. split; [done|].
    assert (b = {| lower := (fun v => {| value := v; inclusive := true |}) <$> scalar_i64 lo;
                   upper := (fun v => {| value := v; inclusive := true |}) <$> scalar_i64 hi |}) as ->
      by (cbn [lower upper] in Hb; destruct (scalar_i64 lo), (scalar_i64 hi); by simplify_eq/=).
    split; cbn [lower upper].
    + destruct (scalar_i64 lo) as [x|] eqn:Ex; [|done]. destruct (meets_literal _ _ Ml Ex) as (v & -> & Ht). by eapply Hlo.
    + destruct (scalar_i64 hi) as [x|] eqn:Ex; [|done]. destruct (meets_literal _ _ Mh Ex) as (v & -> & Ht). by eapply Hhi.
Qed.

Lemma event_time_bounds_sound filters b row :
  forallb (coerced column type) filters = true -> event_time_bounds filters column = Some b ->
  forallb (fun f => holds f row) filters = true -> exists t, time_of row = Some t /\ admits b t.
Proof using Type*.
  intros Hc Hb Hh. unfold event_time_bounds in Hb. apply forallb_Forall in Hc, Hh.
  assert (Forall (fun x => exists t, time_of row = Some t /\ admits x t)
    (omap (fun f => expression_bounds f column) filters)) as Hall.
  { apply Forall_forall. intros x Hx. apply list_elem_of_omap in Hx as (f & Hf & Hx).
    rewrite Forall_forall in Hc, Hh. by apply (expression_bounds_sound f); [apply Hc|..|apply Hh]. }
  assert (exists t, time_of row = Some t) as [t Ht].
  { destruct (omap _ _) as [|x l]; [done|]. apply Forall_inv in Hall as (t & Et & _). by exists t. }
  exists t. split; [done|]. apply (reduce_intersect _ t b Hb). eapply Forall_impl; [exact Hall|].
  cbn beta. intros x (t' & Et' & Ha). rewrite Ht in Et'. by injection Et' as <-.
Qed.

End Pruning.

(** * A concrete engine *)

Definition ex_column : bytes := bstr "ts".
Definition ex_value (e : Expr) (row : option Z) : option Z :=
  match e with
  | EColumn n => if bool_decide (n = ex_column) then row else None
  | ELiteral (SInt64 v) => v
  | _ => None
  end.
Definition ex_compare (op : Operator) (x y : Z) : bool :=
  match op with
  | OpEq => x =? y | OpGt => y <? x | OpGtEq => y <=? x | OpLt => x <? y | OpLtEq => x <=? y
  | _ => false
  end.
Fixpoint ex_holds (e : Expr) (row : option Z) : bool :=
  match e with
  | EBinary l OpAnd r => ex_holds l row && ex_holds r row
  | EBinary l op r => match ex_value l row, ex_value r row with Some x, Some y => ex_compare op x y | _, _ => false end
  | EBetween e negated low high =>
      match ex_value e row, ex_value low row, ex_value high row with
      | Some t, Some x, Some y => xorb negated ((x <=? t) && (t <=? y))
      | _, _, _ => false
      end
  | _ => false
  end.

Lemma ex_value_column row : ex_value (EColumn ex_column) row = row.
Proof. unfold ex_value. by rewrite bool_decide_true. Qed.
Lemma ex_compare_spec op x y : op <> OpAnd -> ex_compare op x y = true -> compares op x y.
Proof. destruct op; cbn; try done; lia. Qed.
Lemma ex_literal v x : scalar_type v = Some TInt64 -> scalar_i64 (ELiteral v) = Some x ->
  forall row, ex_value (ELiteral v) row = Some x.
Proof. by destruct v. Qed.
Lemma ex_holds_binary l op r row : op <> OpAnd -> ex_holds (EBinary l op r) row = true ->
  exists x y, ex_value l row = Some x /\ ex_value r row = Some y /\ compares op x y.
Proof.
  intros Hop Hh. assert (match ex_value l row, ex_value r row with Some x, Some y => ex_compare op x y | _, _ => false end = true)
    as H by (destruct op; done).
  destruct (ex_value l row) as [x|], (ex_value r row) as [y|]; try done. exists x, y. split_and!; [done..|].
  by apply ex_compare_spec.
Qed.

#[export] Instance ex_engine : FilterSemantics (option Z) ex_column TInt64.
Proof.
  refine {| holds := ex_holds; time_of := id |}.
  - intros l r row H. by apply andb_true_iff in H.
  - intros op v x row Hop Ht Hx (a & b & Ea & Eb & Hc)%ex_holds_binary; [|done].
    rewrite ex_value_column in Ea. rewrite (ex_literal v x Ht Hx) in Eb. injection Eb as <-. by exists a.
  - intros op v x row Hop Ht Hx (a & b & Ea & Eb & Hc)%ex_holds_binary; [|done].
    rewrite ex_value_column in Eb. rewrite (ex_literal v x Ht Hx) in Ea. injection Ea as <-. by exists b.
  - intros low high row H. cbn [ex_holds] in H. rewrite ex_value_column in H. destruct row as [t|]; [|done].
    destruct (ex_value low (Some t)) as [x|] eqn:El, (ex_value high (Some t)) as [y|] eqn:Eh; try done.
    cbn [xorb] in H. exists t. split; [done|].
    split; intros v z -> Ht Hz; [rewrite (ex_literal v z Ht Hz) in El|rewrite (ex_literal v z Ht Hz) in Eh]; simplify_eq; lia.
Defined.

(** Three chunks, the middle one without statistics, and a range filter. *)
Definition ex_chunks : list (option TimeInterval * list (option Z)) :=
  [(Some {| tmin := 0; tmax := 9 |}, [Some 3; Some 9]); (None, [Some 12; None]);
   (Some {| tmin := 20; tmax := 29 |}, [Some 20; Some 29])].
Definition ex_filters : list Expr :=
  [EBinary (EBinary (EColumn ex_column) OpGtEq (ELiteral (SInt64 (Some 9)))) OpAnd
     (EBinary (ELiteral (SInt64 (Some 20))) OpGt (EColumn ex_column))].

