(* ===== verification/QueryChange.v ===== *)
(** Incremental planning, [crates/query-foundation/src]: classifying a change
    against the settled frontier ([frontier.rs]), and the output a change
    invalidates and the input an output needs under a recipe's locality
    ([locality.rs]). *)

From stdpp Require Import base list numbers sorting gmap strings options.
From Stdlib Require Import ZArith Lia.
From S2P Require Import Prelude RustStd.
From S2P Require Import QueryStats.

Open Scope Z_scope.

(** * The settled frontier *)

Record RepairPolicy := { max_lateness : option Z }.
Definition policy_reject : RepairPolicy := {| max_lateness := None |}.
Definition policy_within (l : Z) : outcome PlanError RepairPolicy :=
  if l <? 0 then Err (NegativeLateness l) else Ok {| max_lateness := Some l |}.

Inductive ChangeExtent := Empty | Bounded (i : TimeInterval) | Unknown.

Inductive ChangeDisposition :=
| NoRows
| Append (changed : TimeInterval)
| UnsealedDisorder (changed : TimeInterval)
| Repair (changed retroactive : TimeInterval) (unsealed : option TimeInterval).

Record SettledState := {
  settled_through : option Z;
  observed_through : option Z;
  repair_policy : RepairPolicy;
}.

Definition state_try_new (settled observed : option Z) (policy : RepairPolicy) : outcome PlanError SettledState :=
  match settled, observed with
  | Some _, None => Err FrontierWithoutObserved
  | Some s, Some o =>
      if o <? s then Err (FrontierBeyondObserved s o)
      else Ok {| settled_through := settled; observed_through := observed; repair_policy := policy |}
  | _, _ => Ok {| settled_through := settled; observed_through := observed; repair_policy := policy |}
  end.

(** The repair of a change that reaches the frontier. *)
Definition classify_repair (policy : RepairPolicy) (frontier : Z) (changed : TimeInterval) : outcome PlanError ChangeDisposition :=
  match max_lateness policy with
  | None => Err (RepairRejected changed frontier)
  | Some lateness =>
      let earliest := match checked_i64 (frontier - lateness) with Some e => e | None => - 2 ^ 63 end in
      if tmin changed <? earliest then Err (RepairTooLate changed frontier earliest) else
      retroactive ← interval_try_new (tmin changed) (Z.min (tmax changed) frontier);
      unsealed ← (if frontier <? tmax changed then
                    match checked_i64 (frontier + 1) with
                    | None => Err FrontierOverflow
                    | Some next => i ← interval_try_new next (tmax changed); Ok (Some i)
                    end
                  else Ok None);
      Ok (Repair changed retroactive unsealed)
  end.

Definition classify (s : SettledState) (extent : ChangeExtent) : outcome PlanError ChangeDisposition :=
  match extent with
  | Empty => Ok NoRows
  | Unknown => Err UnknownExtent
  | Bounded changed =>
      if match observed_through s with None => true | Some o => o <? tmin changed end then Ok (Append changed) else
      match settled_through s with
      | None => Ok (UnsealedDisorder changed)
      | Some frontier =>
          if frontier <? tmin changed then Ok (UnsealedDisorder changed)
          else classify_repair (repair_policy s) frontier changed
      end
  end.

(** * Change sets *)

Inductive ChangeKind := AddedChunk | RemovedChunk | WildcardMemberAdded | WildcardMemberRemoved.

Record LogicalChange := { kind : ChangeKind; source : bytes; identity : bytes; extent : ChangeExtent }.

Definition change_try_new (k : ChangeKind) (src ident : bytes) (e : ChangeExtent) : outcome PlanError LogicalChange :=
  if bool_decide (src = []) then Err EmptySource else
  if bool_decide (ident = []) then Err EmptyIdentity else
  Ok {| kind := k; source := src; identity := ident; extent := e |}.

Record FrontierChange := { previous : option Z; current : Z }.

Definition frontier_try_new (prev : option Z) (cur : Z) : outcome PlanError FrontierChange :=
  match prev with
  | Some p => if cur <? p then Err (FrontierBackward p cur) else Ok {| previous := prev; current := cur |}
  | None => Ok {| previous := prev; current := cur |}
  end.

Record ChangeSet := {
  changes : list LogicalChange;
  recipe_changed : bool;
  schema_changed : bool;
  frontier : option FrontierChange;
}.

Definition changeset_new : ChangeSet :=
  {| changes := []; recipe_changed := false; schema_changed := false; frontier := None |}.
Definition with_change (s : ChangeSet) (c : LogicalChange) : ChangeSet :=
  {| changes := changes s ++ [c]; recipe_changed := recipe_changed s; schema_changed := schema_changed s; frontier := frontier s |}.
Definition with_recipe_change (s : ChangeSet) : ChangeSet :=
  {| changes := changes s; recipe_changed := true; schema_changed := schema_changed s; frontier := frontier s |}.
Definition with_schema_change (s : ChangeSet) : ChangeSet :=
  {| changes := changes s; recipe_changed := recipe_changed s; schema_changed := true; frontier := frontier s |}.
Definition with_frontier_change (s : ChangeSet) (f : FrontierChange) : ChangeSet :=
  {| changes := changes s; recipe_changed := recipe_changed s; schema_changed := schema_changed s; frontier := Some f |}.

(** * Locality *)

Inductive LocalityClass := RowLocal | TimestampLocal | FixedWindow (width origin : Z) | Global.
Inductive StateContract := StateNone | WindowPartials | CompleteInput.
Inductive RangeRequirement := RangeBounded (l : list TimeInterval) | RangeComplete.
Inductive OutputImpact := ImpactNone | ImpactBounded (l : list TimeInterval) | ImpactComplete.

Record LocalityContract := { class : LocalityClass; inputs : list bytes }.

(** The loop over the input names with the set of names seen. *)
Fixpoint check_inputs (seen : gset bytes) (l : list bytes) : outcome PlanError unit :=
  match l with
  | [] => Ok tt
  | x :: l =>
      if bool_decide (x = []) then Err EmptyInput else
      if bool_decide (x ∈ seen) then Err (DuplicateInput x) else check_inputs ({[x]} ∪ seen) l
  end.

Definition contract_try_new (c : LocalityClass) (ins : list bytes) : outcome PlanError LocalityContract :=
  _ ← match c with FixedWindow w _ => if w <=? 0 then Err (BadWindowWidth w) else Ok tt | _ => Ok tt end;
  if bool_decide (ins = []) then Err NoInputs else
  _ ← check_inputs ∅ ins;
  Ok {| class := c; inputs := ins |}.

Definition depends_on (c : LocalityContract) (src : bytes) : bool := existsb (fun i => bool_decide (i = src)) (inputs c).

Definition state_contract (c : LocalityContract) : StateContract :=
  match class c with
  | RowLocal | TimestampLocal => StateNone
  | FixedWindow _ _ => WindowPartials
  | Global => CompleteInput
  end.

Definition ok_or {A} (e : PlanError) (o : option A) : outcome PlanError A :=
  match o with Some a => Ok a | None => Err e end.

(** [div_euclid] of [i64]; the width is positive, so it is the floor. *)
Definition expand_to_windows (i : TimeInterval) (width origin : Z) : outcome PlanError TimeInterval :=
  min_delta ← ok_or MinimumOverflow (checked_i64 (tmin i - origin));
  max_delta ← ok_or MaximumOverflow (checked_i64 (tmax i - origin));
  min_off ← ok_or MinimumOverflow (checked_i64 (min_delta / width * width));
  lo ← ok_or MinimumOverflow (checked_i64 (origin + min_off));
  max_off ← ok_or MaximumOverflow (checked_i64 (max_delta / width * width));
  max_start ← ok_or MaximumOverflow (checked_i64 (origin + max_off));
  hi ← ok_or WindowEndOverflow (checked_i64 (max_start + (width - 1)));
  interval_try_new lo hi.

Definition interval_cmp : TimeInterval -> TimeInterval -> comparison :=
  then_cmp (cmp_on tmin Z.compare) (cmp_on tmax Z.compare).

(** One step of the merge: [acc] is the reversed vector, its head the last
    interval; [previous.max() + 1] does not overflow behind the guard. *)
Definition merge_interval (acc : list TimeInterval) (i : TimeInterval) : outcome PlanError (list TimeInterval) :=
  match acc with
  | [] => Ok [i]
  | p :: rest =>
      if (tmax p =? 2 ^ 63 - 1) || (tmin i <=? tmax p) || (tmin i =? tmax p + 1)
      then m ← interval_try_new (tmin p) (Z.max (tmax p) (tmax i)); Ok (m :: rest)
      else Ok (i :: acc)
  end.
Fixpoint merge_intervals (acc : list TimeInterval) (l : list TimeInterval) : outcome PlanError (list TimeInterval) :=
  match l with
  | [] => Ok (rev acc)
  | i :: l => acc ← merge_interval acc i; merge_intervals acc l
  end.
Definition normalize_intervals (l : list TimeInterval) : outcome PlanError (list TimeInterval) :=
  merge_intervals [] (sort_by interval_cmp l).

Definition required_input_ranges (c : LocalityContract) (requested : TimeInterval)
  : outcome PlanError (gmap bytes RangeRequirement) :=
  requirement ← match class c with
    | RowLocal | TimestampLocal => Ok (RangeBounded [requested])
    | FixedWindow width origin => i ← expand_to_windows requested width origin; Ok (RangeBounded [i])
    | Global => Ok RangeComplete
    end;
  Ok (list_to_map (map (fun input => (input, requirement)) (rev (inputs c)))).

(** The interval a bounded change dirties. *)
Definition affected_interval (c : LocalityClass) (i : TimeInterval) : outcome PlanError TimeInterval :=
  match c with
  | RowLocal | TimestampLocal => Ok i
  | FixedWindow width origin => expand_to_windows i width origin
  | Global => Panic
  end.

(** The loop over the relevant changes; [None] is its early return of
    [Complete] at an unknown extent. *)
Fixpoint affected_intervals (c : LocalityClass) (acc : list TimeInterval) (l : list LogicalChange)
  : outcome PlanError (option (list TimeInterval)) :=
  match l with
  | [] => Ok (Some acc)
  | x :: l =>
      match extent x with
      | Empty => affected_intervals c acc l
      | Unknown => Ok None
      | Bounded i => j ← affected_interval c i; affected_intervals c (acc ++ [j]) l
      end
  end.

Definition affected_output_ranges (c : LocalityContract) (s : ChangeSet) : outcome PlanError OutputImpact :=
  if recipe_changed s || schema_changed s then Ok ImpactComplete else
  let relevant := List.filter (fun x => depends_on c (source x)) (changes s) in
  if match relevant with [] => true | _ => false end then Ok ImpactNone else
  if match class c with Global => true | _ => false end then Ok ImpactComplete else
  r ← affected_intervals (class c) [] relevant;
  match r with
  | None => Ok ImpactComplete
  | Some [] => Ok ImpactNone
  | Some l => n ← normalize_intervals l; Ok (ImpactBounded n)
  end.

(** * Classification *)

Lemma interval_try_new_Ok a b i : interval_try_new a b = Ok i <-> a <= b /\ i = {| tmin := a; tmax := b |}.
Proof.
  unfold interval_try_new. destruct (Z.ltb_spec b a); split; [done|lia| |].
  - intros [= <-]. done.
  - by intros [_ ->].
Qed.

Lemma interval_ok a b : a <= b -> interval_try_new a b = Ok {| tmin := a; tmax := b |}.
Proof. intros H. by apply interval_try_new_Ok. Qed.

Lemma wf_interval_spec i : wf_interval i = true <-> - 2 ^ 63 <= tmin i /\ tmin i <= tmax i /\ tmax i < 2 ^ 63.
Proof. unfold wf_interval, is_i64. lia. Qed.

(** The part of the time line a disposition of a change speaks about, and why a
    change is refused. *)
Definition disposition_spec (s : SettledState) (ch : TimeInterval) (r : outcome PlanError ChangeDisposition) : Prop :=
  let fresh t := match observed_through s with None => True | Some o => o < t end in
  let unsettled t := match settled_through s with None => True | Some f => f < t end in
  match r with
  | Ok NoRows => False
  | Ok (Append c) => c = ch /\ forall t, within t ch -> fresh t
  | Ok (UnsealedDisorder c) => c = ch /\ ~ fresh (tmin ch) /\ forall t, within t ch -> unsettled t
  | Ok (Repair c retro unsealed) =>
      c = ch /\ (exists late, max_lateness (repair_policy s) = Some late
                 /\ forall t f, within t ch -> settled_through s = Some f -> f - late <= t)
      /\ (exists t, within t retro)
      /\ (forall t, within t retro <-> within t ch /\ ~ unsettled t)
      /\ (forall t, (exists u, unsealed = Some u /\ within t u) <-> within t ch /\ unsettled t)
  | Err (RepairRejected c f) => c = ch /\ settled_through s = Some f /\ tmin ch <= f /\ max_lateness (repair_policy s) = None
  | Err (RepairTooLate c f _) =>
      c = ch /\ settled_through s = Some f
      /\ exists late, max_lateness (repair_policy s) = Some late /\ tmin ch < f - late
  | _ => False
  end.

(** The states [state_try_new] makes of [i64] positions and a policy. *)
Definition wf_state (s : SettledState) : Prop :=
  (forall f, settled_through s = Some f -> is_i64 f = true /\ exists o, observed_through s = Some o /\ f <= o)
  /\ forall late, max_lateness (repair_policy s) = Some late -> 0 <= late.

Lemma state_try_new_wf settled observed policy s :
  (policy = policy_reject \/ exists late, policy_within late = Ok policy) ->
  (forall f, settled = Some f -> is_i64 f = true) -> state_try_new settled observed policy = Ok s ->
  wf_state s /\ settled_through s = settled /\ observed_through s = observed /\ repair_policy s = policy.
Proof.
  intros Hp Hi Hs.
  assert ((forall f, settled = Some f -> exists o, observed = Some o /\ f <= o)
    /\ s = {| settled_through := settled; observed_through := observed; repair_policy := policy |}) as [Ho ->].
  { unfold state_try_new in Hs. destruct settled as [f|], observed as [o|]; try (injection Hs as <-; by split); [|done].
    destruct (Z.ltb_spec o f); [done|]. injection Hs as <-. split; [|done]. intros ? [= <-]. by exists o. }
  split_and!; try done. split; cbn [settled_through observed_through repair_policy].
  - intros f Hf. split; [by apply Hi|by apply Ho].
  - intros late El. destruct Hp as [->|[l Hl]]; [done|]. unfold policy_within in Hl.
    destruct (Z.ltb_spec l 0); [done|]. injection Hl as <-. cbn in El. by injection El as <-.
Qed.

Lemma classify_repair_spec s f ch :
  wf_interval ch = true -> wf_state s -> settled_through s = Some f -> tmin ch <= f ->
  disposition_spec s ch (classify_repair (repair_policy s) f ch).
Proof.
  intros Hc [Hf Hl] Es Hmin. apply wf_interval_spec in Hc. destruct (Hf f Es) as [Hi _]. unfold is_i64 in Hi.
  unfold classify_repair. destruct (max_lateness (repair_policy s)) as [late|] eqn:El; [|by split_and!].
  specialize (Hl late eq_refl). set (earliest := match checked_i64 _ with Some e => e | None => _ end).
  assert (earliest = Z.max (f - late) (- 2 ^ 63)) as He
    by (unfold earliest, checked_i64; destruct (is_i64 (f - late)) eqn:E; unfold is_i64 in E; lia).
  destruct (Z.ltb_spec (tmin ch) earliest) as [Hlt|Hge].
  { split_and!; [done..|]. exists late. split; [done|lia]. }
  rewrite interval_ok by lia. cbn [mbind outcome_bind].
  assert (exists u, (if f <? tmax ch then match checked_i64 (f + 1) with
      | None => Err FrontierOverflow | Some next => i ← interval_try_new next (tmax ch); Ok (Some i) end else Ok None) = Ok u
    /\ forall t, (exists i, u = Some i /\ within t i) <-> f < t <= tmax ch) as (u & -> & Hu).
  { destruct (Z.ltb_spec f (tmax ch)).
    - unfold checked_i64, is_i64. replace (_ && _) with true by lia.
      rewrite interval_ok by lia. eexists. split; [done|]. intros t. unfold within. split.
      + intros (i & [= <-] & Hw). cbn in Hw. lia.
      + intros Ht. eexists. split; [done|]. cbn. lia.
    - exists None. split; [done|]. intros t. split; [by intros (? & ? & _)|lia]. }
  cbn [mbind outcome_bind disposition_spec]. rewrite Es. split; [done|].
  split; [exists late; split; [done|]; intros t f' [Ht _] [= <-]; lia|].
  split; [exists (tmin ch); unfold within; cbn; lia|]. unfold within in *. cbn [tmin tmax].
  split; intros t; [lia|]. rewrite Hu. lia.
Qed.

(** Classification against the settled frontier is total and exact: an append
    lies wholly beyond observed time, unsealed disorder wholly beyond the
    frontier, and a repair is split at the frontier into a retroactive part
    within the permitted lateness and an unsealed part that together are the
    change; refusals are exactly the retroactive changes the policy does not
    permit, and no alignment overflows. *)
Theorem classify_spec (settled observed : option Z) (policy : RepairPolicy) (s : SettledState) (ch : TimeInterval) :
  (policy = policy_reject \/ exists late, policy_within late = Ok policy) ->
  (forall f, settled = Some f -> is_i64 f = true) -> state_try_new settled observed policy = Ok s ->
  wf_interval ch = true -> disposition_spec s ch (classify s (Bounded ch)).
Proof.
  intros Hp Hi Hs Hc. destruct (state_try_new_wf _ _ _ _ Hp Hi Hs) as [Hwf _]. unfold classify.
  destruct (match observed_through s with None => true | Some o => o <? tmin ch end) eqn:Ef.
  { split; [done|]. intros t Ht. destruct (observed_through s); [unfold within in Ht; lia|done]. }
  destruct (observed_through s) as [o|] eqn:Eo; [|done].
  destruct (settled_through s) as [f|] eqn:Es; [destruct (Z.ltb_spec f (tmin ch))|].
  - cbn. rewrite Eo, Es. split; [done|]. split; [lia|]. unfold within. lia.
  - by apply classify_repair_spec.
  - cbn. rewrite Eo, Es. split; [done|]. split; [lia|]. done.
Qed.

(** * Windows *)

(** Output at [t] depends on input at [t'] under a locality class. *)
Definition same_cell (c : LocalityClass) (t t' : Z) : Prop :=
  match c with
  | RowLocal | TimestampLocal => t = t'
  | FixedWindow w o => (t - o) / w = (t' - o) / w
  | Global => True
  end.

Definition wf_class (c : LocalityClass) : Prop := match c with FixedWindow w _ => 0 < w | _ => True end.

Definition covers (l : list TimeInterval) (t : Z) : Prop := Exists (within t) l.

Lemma ok_or_Ok {A} e (o : option A) a : ok_or e o = Ok a <-> o = Some a.
Proof. destruct o; cbn; split; congruence. Qed.
Lemma checked_Some z y : checked_i64 z = Some y -> y = z /\ is_i64 z = true.
Proof. unfold checked_i64. destruct (is_i64 z); [|done]. by intros [= ->]. Qed.

Lemma expand_shape i w o j : expand_to_windows i w o = Ok j ->
  j = {| tmin := o + (tmin i - o) / w * w; tmax := o + (tmax i - o) / w * w + (w - 1) |} /\ tmin j <= tmax j < 2 ^ 63.
Proof.
  unfold expand_to_windows. intros H.
  do 7 (apply bind_Ok in H as (? & E & H); apply ok_or_Ok, checked_Some in E as [-> ?]).
  apply interval_try_new_Ok in H as [H ->]. split; [done|]. cbn [tmin tmax]. unfold is_i64 in *. lia.
Qed.

Lemma ok_or_bind_no_panic {A B} e (o : option A) (k : A -> outcome PlanError B) :
  (forall a, k a <> Panic) -> ok_or e o ≫= k <> Panic.
Proof. intros Hk. destruct o; [apply Hk|done]. Qed.
Lemma expand_no_panic i w o : expand_to_windows i w o <> Panic.
Proof. repeat (apply ok_or_bind_no_panic; intros ?). unfold interval_try_new. by destruct (_ <? _). Qed.

Lemma cell_bounds w o t q : 0 < w -> (t - o) / w = q <-> o + q * w <= t <= o + q * w + (w - 1).
Proof.
  intros Hw. pose proof (Z.div_mod (t - o) w ltac:(lia)). pose proof (Z.mod_pos_bound (t - o) w Hw). split; [nia|].
  intros Ht. symmetry. apply (Z.div_unique_pos (t - o) w q (t - o - q * w)); lia.
Qed.

Lemma cell_le w o t q : 0 < w -> q <= (t - o) / w <-> o + q * w <= t.
Proof.
  intros Hw. pose proof (Z.div_mod (t - o) w ltac:(lia)). pose proof (Z.mod_pos_bound (t - o) w Hw). split; nia.
Qed.

(** A window expansion is exactly the windows that meet the interval. *)
Lemma expand_spec i w o j t : 0 < w -> tmin i <= tmax i -> expand_to_windows i w o = Ok j ->
  within t j <-> exists t', within t' i /\ (t - o) / w = (t' - o) / w.
Proof.
  intros Hw Hi [-> _]%expand_shape. unfold within. cbn [tmin tmax].
  pose proof (cell_le w o t ((tmin i - o) / w) Hw) as Hlo.
  pose proof (proj1 (cell_bounds w o (tmin i) _ Hw) eq_refl) as Hm.
  pose proof (proj1 (cell_bounds w o (tmax i) _ Hw) eq_refl) as HM. split.
  - intros Ht. exists (Z.max (tmin i) (o + (t - o) / w * w)).
    assert ((t - o) / w <= (tmax i - o) / w) as Hq.
    { apply Z.lt_succ_r. apply Z.nle_gt. intros Hc. apply (cell_le w o t _ Hw) in Hc. nia. }
    assert ((tmin i - o) / w <= (t - o) / w) as Hq' by (apply Hlo; lia).
    split; [split; [lia|]; apply Z.max_lub; [done|]; by apply cell_le|].
    symmetry. apply cell_bounds; [done|]. nia.
  - intros (t' & Ht' & E). pose proof (proj1 (cell_bounds w o t _ Hw) eq_refl) as Ht.
    assert ((tmin i - o) / w <= (t' - o) / w <= (tmax i - o) / w) as Hq by (split; apply Z.div_le_mono; lia).
    rewrite <- E in Hq. nia.
Qed.

Lemma affected_interval_spec c i j t : wf_class c -> tmin i <= tmax i < 2 ^ 63 -> affected_interval c i = Ok j ->
  tmin j <= tmax j < 2 ^ 63 /\ (within t j <-> exists t', within t' i /\ same_cell c t t').
Proof.
  intros Hc Hi H. destruct c as [| |w o|]; try done; cbn [affected_interval same_cell] in *.
  - injection H as <-. split; [done|]. split; [by exists t|by intros (? & ? & ->)].
  - injection H as <-. split; [done|]. split; [by exists t|by intros (? & ? & ->)].
  - split; [by destruct (expand_shape _ _ _ _ H)|]. apply expand_spec; (done || lia).
Qed.

(** * Normalization *)

(** Sorted, and no two intervals touch. *)
Definition separated : list TimeInterval -> Prop := StronglySorted (fun a b => tmax a + 1 < tmin b).

Lemma ssorted_rev {A} (R : A -> A -> Prop) l : StronglySorted (fun a b => R b a) l -> StronglySorted R (rev l).
Proof.
  induction 1 as [|x l Hs IH Hx]; [constructor|]. simpl. apply StronglySorted_app_2; [|done|repeat constructor].
  intros a b Ha Hb. apply list_elem_of_singleton in Hb as ->. rewrite Forall_forall in Hx. apply Hx.
  apply list_elem_of_In, in_rev. by apply list_elem_of_In.
Qed.

Lemma merge_interval_spec acc i :
  tmin i <= tmax i < 2 ^ 63 -> Forall (fun p => tmin p <= tmax p < 2 ^ 63 /\ tmin p <= tmin i) acc ->
  StronglySorted (fun a b => tmax b + 1 < tmin a) acc ->
  exists acc', merge_interval acc i = Ok acc'
    /\ Forall (fun p => tmin p <= tmax p < 2 ^ 63 /\ tmin p <= tmin i) acc'
    /\ StronglySorted (fun a b => tmax b + 1 < tmin a) acc'
    /\ acc' <> [] /\ forall t, covers acc' t <-> covers acc t \/ within t i.
Proof.
  intros Hi Hacc Hs. destruct acc as [|p rest]; cbn [merge_interval].
  { exists [i]. split; [done|]. split; [repeat constructor; lia|]. split; [repeat constructor|]. split; [done|].
    intros t. unfold covers. rewrite Exists_cons, !Exists_nil. tauto. }
  apply Forall_cons in Hacc as [Hp Hrest]. inversion Hs as [|? ? Hs' Hp']; subst.
  destruct (_ || _) eqn:Et.
  - rewrite interval_ok by lia. cbn [mbind outcome_bind]. eexists. split; [done|].
    split; [constructor; [cbn; lia|done]|]. split; [constructor; [done|]; exact Hp'|]. split; [done|].
    intros t. unfold covers. rewrite !Exists_cons. unfold within. cbn [tmin tmax].
    rewrite !orb_true_iff in Et. split; [intros [H|H]; [|tauto]|intros [[H|H]|H]; [left; lia|by right|left; lia]].
    destruct (decide (t <= tmax p)); [left; left; lia|right; lia].
  - eexists. split; [done|]. rewrite !orb_false_iff in Et. split; [by repeat (constructor; [lia|])|].
    assert (Forall (fun b => tmax b + 1 < tmin i) (p :: rest)) as Hall.
    { constructor; [lia|]. eapply Forall_impl; [exact Hp'|]. cbn beta. lia. }
    split; [by constructor|]. split; [done|]. intros t. unfold covers. rewrite (Exists_cons _ i). tauto.
Qed.

Lemma merge_intervals_spec l : forall acc,
  StronglySorted (fun a b => tmin a <= tmin b) l -> Forall (fun i => tmin i <= tmax i < 2 ^ 63) l ->
  Forall (fun p => tmin p <= tmax p < 2 ^ 63 /\ Forall (fun i => tmin p <= tmin i) l) acc ->
  StronglySorted (fun a b => tmax b + 1 < tmin a) acc ->
  exists n, merge_intervals acc l = Ok n /\ separated n /\ forall t, covers n t <-> covers acc t \/ covers l t.
Proof.
  induction l as [|i l IH]; intros acc Hl Hw Hacc Hs.
  { exists (rev acc). split; [done|]. split; [by apply ssorted_rev|]. intros t. unfold covers.
    rewrite Exists_nil, <- (Permutation_rev acc). tauto. }
  apply Forall_cons in Hw as [Hi Hw]. inversion Hl as [|? ? Hl' Hli]; subst. cbn [merge_intervals].
  destruct (merge_interval_spec acc i Hi) as (acc' & -> & Hacc' & Hs' & _ & Hc); [|done|].
  { eapply Forall_impl; [exact Hacc|]. cbn beta. intros p [Hp Hpi]. by apply Forall_cons in Hpi as [Hpi _]. }
  cbn [mbind outcome_bind]. destruct (IH acc') as (n & -> & Hn & Hcn); try done.
  { eapply Forall_impl; [exact Hacc'|]. cbn beta. intros p [Hp Hpi]. split; [done|].
    eapply Forall_impl; [exact Hli|]. cbn beta. lia. }
  exists n. split; [done|]. split; [done|]. intros t. rewrite Hcn, Hc. unfold covers. rewrite (Exists_cons _ i). tauto.
Qed.

#[export] Instance interval_cmp_order : CmpOrder interval_cmp.
Proof. apply _. Qed.

Lemma interval_cmp_le a b : cmp_le interval_cmp a b -> tmin a <= tmin b.
Proof.
  unfold cmp_le, interval_cmp, then_cmp, cmp_on. destruct (Z.compare_spec (tmin a) (tmin b)); [lia|lia|]. done.
Qed.

Lemma normalize_spec l : Forall (fun i => tmin i <= tmax i < 2 ^ 63) l ->
  exists n, normalize_intervals l = Ok n /\ separated n /\ forall t, covers n t <-> covers l t.
Proof.
  intros Hw. unfold normalize_intervals. pose proof (sort_by_sorted interval_cmp l) as Hs.
  destruct (merge_intervals_spec (sort_by interval_cmp l) []) as (n & -> & Hn & Hc).
  - clear Hw. induction Hs as [|x k Hs IH Hx]; constructor; [done|]. eapply Forall_impl; [exact Hx|]. apply interval_cmp_le.
  - by rewrite sort_by_perm.
  - constructor.
  - constructor.
  - exists n. split; [done|]. split; [done|]. intros t. rewrite Hc. unfold covers. rewrite sort_by_perm, Exists_nil. tauto.
Qed.

(** * Invalidation *)

(** A relevant change has rows whose event time output at [t] depends on. *)
Definition dirty (c : LocalityContract) (s : ChangeSet) (t : Z) : Prop :=
  exists x i t', x ∈ changes s /\ depends_on c (source x) = true /\ extent x = Bounded i
    /\ within t' i /\ same_cell (class c) t t'.

Definition wf_extent (e : ChangeExtent) : bool := match e with Bounded i => wf_interval i | _ => true end.

Lemma affected_intervals_spec c l : forall acc,
  wf_class c -> c <> Global -> forallb (fun x => wf_extent (extent x)) l = true ->
  Forall (fun i => tmin i <= tmax i < 2 ^ 63) acc ->
  match affected_intervals c acc l with
  | Ok None => Exists (fun x => extent x = Unknown) l
  | Ok (Some r) =>
      Forall (fun i => tmin i <= tmax i < 2 ^ 63) r /\ Forall (fun x => extent x <> Unknown) l
      /\ forall t, covers r t <-> covers acc t \/ exists x i t', x ∈ l /\ extent x = Bounded i /\ within t' i /\ same_cell c t t'
  | Err e => Exists (fun x => exists i, extent x = Bounded i /\ affected_interval c i = Err e) l
  | Panic => False
  end.
Proof.
  induction l as [|x l IH]; intros acc Hc Hg Hw Hacc; cbn [affected_intervals].
  { split; [done|]. split; [constructor|]. intros t. split; [by left|]. intros [H|(x & i & t' & Hx & _)]; [done|].
    by apply not_elem_of_nil in Hx. }
  cbn [forallb] in Hw. apply andb_true_iff in Hw as [Hx Hw]. destruct (extent x) as [|i|] eqn:Ex.
  - specialize (IH acc Hc Hg Hw Hacc). destruct (affected_intervals c acc l) as [[r|]|e|]; [|by right..|done].
    destruct IH as (Hr & Hu & Hcov). split; [done|]. split; [constructor; [by rewrite Ex|done]|]. intros t. rewrite Hcov.
    split; (intros [H|(y & i & t' & Hy & Ey & H)]; [by left|right; exists y, i, t']).
    + split; [by right|done].
    + apply elem_of_cons in Hy as [->|Hy]; [congruence|done].
  - cbn [wf_extent] in Hx. apply wf_interval_spec in Hx. destruct (affected_interval c i) as [j|e|] eqn:Ej.
    + cbn [mbind outcome_bind].
      assert (tmin j <= tmax j < 2 ^ 63) as Hj by (by eapply (affected_interval_spec c i j 0); [..|lia|]).
      specialize (IH (acc ++ [j]) Hc Hg Hw ltac:(apply Forall_app; split; [done|]; by apply Forall_singleton)).
      destruct (affected_intervals c (acc ++ [j]) l) as [[r|]|e|]; [|by right..|done].
      destruct IH as (Hr & Hu & Hcov). split; [done|]. split; [constructor; [by rewrite Ex|done]|]. intros t.
      rewrite Hcov. unfold covers. rewrite Exists_app, (Exists_cons _ j), Exists_nil.
      rewrite (proj2 (affected_interval_spec c i j t Hc ltac:(lia) Ej)).
      setoid_rewrite elem_of_cons. split.
      * intros [[H|[(t' & H)|[]]]|(y & k & t' & Hy & H)]; [by left|right; exists x, i, t'; tauto|right; exists y, k, t'; tauto].
      * intros [H|(y & k & t' & [->|Hy] & Ey & H)]; [tauto| |right; by exists y, k, t'].
        left. right. left. exists t'. congruence.
    + left. by exists i.
    + destruct c as [| |w o|]; try done. by apply expand_no_panic in Ej.
  - by left.
Qed.

(** The invalidated output is exact: without a recipe or schema change, the dirty
    intervals reported for a change set are sorted, do not touch one another, and
    cover exactly the times that depend on a changed row of an input; nothing is
    reported only when no such time exists, everything only when a change's
    extent is unknown or the recipe is global; and the computation fails only
    when the windows of a change leave the range of the clock. *)
Theorem affected_output_exact (c : LocalityContract) (s : ChangeSet) :
  wf_class (class c) -> forallb (fun x => wf_extent (extent x)) (changes s) = true ->
  recipe_changed s = false -> schema_changed s = false ->
  let relevant x := x ∈ changes s /\ depends_on c (source x) = true in
  match affected_output_ranges c s with
  | Ok ImpactNone => forall t, ~ dirty c s t
  | Ok (ImpactBounded n) => separated n /\ forall t, covers n t <-> dirty c s t
  | Ok ImpactComplete => exists x, relevant x /\ (class c = Global \/ extent x = Unknown)
  | Err e => exists x i, relevant x /\ extent x = Bounded i /\ affected_interval (class c) i = Err e
  | Panic => False
  end.
Proof.
  intros Hc Hw Hr Hs relevant. unfold affected_output_ranges. rewrite Hr, Hs. cbn [orb].
  set (rel := List.filter _ (changes s)).
  assert (forall x, x ∈ rel <-> relevant x) as Hrel
    by (intros x; unfold rel, relevant; rewrite !list_elem_of_In; apply filter_In).
  assert (forallb (fun x => wf_extent (extent x)) rel = true) as Hwr.
  { rewrite forallb_forall in *. intros x Hx. apply Hw. rewrite <- list_elem_of_In in *. by apply Hrel. }
  assert (forall t, dirty c s t <-> exists x i t', x ∈ rel /\ extent x = Bounded i /\ within t' i /\ same_cell (class c) t t') as Hd.
  { intros t. unfold dirty. split; intros (x & i & t' & H); exists x, i, t'; specialize (Hrel x); unfold relevant in Hrel; tauto. }
  clearbody rel. destruct (match rel with [] => true | _ => false end) eqn:En.
  { destruct rel; [|done]. intros t. rewrite Hd. intros (x & i & t' & Hx & _). by apply not_elem_of_nil in Hx. }
  destruct (match class c with Global => true | _ => false end) eqn:Eg.
  { destruct rel as [|x rel]; [done|]. exists x. split; [apply Hrel; by left|]. left. by destruct (class c). }
  pose proof (affected_intervals_spec (class c) rel [] Hc ltac:(by destruct (class c)) Hwr ltac:(constructor)) as Hspec.
  destruct (affected_intervals (class c) [] rel) as [[r|]|e|]; cbn [mbind outcome_bind]; [| | |done].
  - destruct Hspec as (Hr' & _ & Hcov).
    assert (forall t, covers r t <-> dirty c s t) as Hcd
      by (intros t; rewrite Hcov, Hd; unfold covers; rewrite Exists_nil; tauto).
    destruct r as [|j r]; [intros t; rewrite <- Hcd; by intros ?%Exists_nil|].
    destruct (normalize_spec (j :: r) Hr') as (n & -> & Hn & Hcn). cbn [mbind outcome_bind]. split; [done|].
    intros t. by rewrite Hcn.
  - apply Exists_exists in Hspec as (x & Hx & Ex). exists x. split; [by apply Hrel|by right].
  - apply Exists_exists in Hspec as (x & Hx & i & Ex & Ei). exists x, i. split; [by apply Hrel|done].
Qed.

(** Input requirements are exact: to recompute the output of an interval, each
    input of the recipe, and no other source, is read at exactly the times the
    interval's output depends on, or completely when the recipe is global. *)
Theorem required_input_exact (c : LocalityContract) (requested : TimeInterval) (m : gmap bytes RangeRequirement) :
  wf_class (class c) -> tmin requested <= tmax requested -> required_input_ranges c requested = Ok m ->
  forall input,
    (depends_on c input = false -> m !! input = None)
    /\ (depends_on c input = true ->
          (class c = Global /\ m !! input = Some RangeComplete)
          \/ exists l, class c <> Global /\ m !! input = Some (RangeBounded l)
               /\ forall t', covers l t' <-> exists t, within t requested /\ same_cell (class c) t' t).
Proof.
  intros Hc Hi H input. unfold required_input_ranges in H. apply bind_Ok in H as (req & Hreq & [= <-]).
  assert (depends_on c input = true <-> input ∈ inputs c) as Hdep.
  { unfold depends_on. rewrite existsb_exists. setoid_rewrite bool_decide_eq_true. setoid_rewrite <- list_elem_of_In.
    split; [by intros (x & Hx & ->)|]. intros Hx. by exists input. }
  assert (input ∈ inputs c -> (list_to_map (map (fun input => (input, req)) (rev (inputs c))) : gmap bytes _) !! input = Some req) as Hin.
  { intros Hx. apply elem_of_list_to_map_1'.
    - intros y Hy. apply list_elem_of_In, in_map_iff in Hy as (? & [= _ <-] & _). done.
    - apply list_elem_of_In, in_map_iff. exists input. split; [done|]. apply -> in_rev. by apply list_elem_of_In. }
  assert (input ∉ inputs c -> (list_to_map (map (fun input => (input, req)) (rev (inputs c))) : gmap bytes _) !! input = None) as Hout.
  { intros Hx. apply not_elem_of_list_to_map_1. intros Hy. apply Hx. apply list_elem_of_In, in_map_iff in Hy as ([k v] & <- & Hk).
    apply in_map_iff in Hk as (? & [= <- <-] & Hk). apply list_elem_of_In. by apply in_rev. }
  split.
  { intros Hd. apply Hout. intros Hx. apply Hdep in Hx. congruence. }
  intros Hd. rewrite (Hin (proj1 Hdep Hd)). clear Hin Hout Hdep Hd.
  assert (forall j, affected_interval (class c) requested = Ok j -> class c <> Global -> req = RangeBounded [j] ->
    class c <> Global /\ Some req = Some (RangeBounded [j])
    /\ forall t', covers [j] t' <-> exists t, within t requested /\ same_cell (class c) t' t) as Hgen.
  { intros j Ej Hg ->. split; [done|]. split; [done|]. intros t'. unfold covers. rewrite Exists_cons, Exists_nil.
    destruct (class c) as [| |w o|]; cbn [affected_interval same_cell] in *; [..|done].
    - injection Ej as <-. split; [intros [?|[]]; by exists t'|intros (? & ? & ->); by left].
    - injection Ej as <-. split; [intros [?|[]]; by exists t'|intros (? & ? & ->); by left].
    - rewrite (expand_spec _ _ _ _ t' Hc Hi Ej). tauto. }
  destruct (class c) as [| |w o|] eqn:Ec.
  - right. exists [requested]. apply Hgen; [done..|congruence].
  - right. exists [requested]. apply Hgen; [done..|congruence].
  - right. apply bind_Ok in Hreq as (j & Ej & [= <-]). exists [j]. by apply Hgen.
  - left. split; [done|congruence].
Qed.

(** * Concrete plans *)

Definition ex_interval (a b : Z) : TimeInterval := {| tmin := a; tmax := b |}.

Lemma classify_spec_witness :
  classify {| settled_through := Some 100; observed_through := Some 200; repair_policy := {| max_lateness := Some 50 |} |}
    (Bounded (ex_interval 60 150)) = Ok (Repair (ex_interval 60 150) (ex_interval 60 100) (Some (ex_interval 101 150)))
  /\ disposition_spec {| settled_through := Some 100; observed_through := Some 200; repair_policy := {| max_lateness := Some 50 |} |}
       (ex_interval 40 150) (Err (RepairTooLate (ex_interval 40 150) 100 50)).
Proof.
  split; [reflexivity|].
  refine (classify_spec (Some 100) (Some 200) {| max_lateness := Some 50 |}
    {| settled_through := Some 100; observed_through := Some 200; repair_policy := {| max_lateness := Some 50 |} |}
    (ex_interval 40 150) _ _ _ _).
  - right. exists 50. reflexivity.
  - by intros f [= <-].
  - reflexivity.
  - reflexivity.
Defined.

Definition ex_contract : LocalityContract := {| class := FixedWindow 10 3; inputs := [bstr "a"; bstr "b"] |}.
Definition ex_changes : ChangeSet :=
  fold_left with_change
    [{| kind := AddedChunk; source := bstr "b"; identity := bstr "x"; extent := Bounded (ex_interval 31 35) |};
     {| kind := AddedChunk; source := bstr "c"; identity := bstr "y"; extent := Unknown |};
     {| kind := RemovedChunk; source := bstr "a"; identity := bstr "z"; extent := Bounded (ex_interval (-8) (-8)) |};
     {| kind := RemovedChunk; source := bstr "a"; identity := bstr "w"; extent := Bounded (ex_interval 15 15) |}] changeset_new.

Lemma affected_output_exact_witness :
  affected_output_ranges ex_contract ex_changes = Ok (ImpactBounded [ex_interval (-17) (-8); ex_interval 13 42])
  /\ (covers [ex_interval (-17) (-8); ex_interval 13 42] 20 <-> dirty ex_contract ex_changes 20).
Proof.
  assert (affected_output_ranges ex_contract ex_changes = Ok (ImpactBounded [ex_interval (-17) (-8); ex_interval 13 42])) as E
    by (vm_compute; reflexivity).
  split; [exact E|].
  pose proof (affected_output_exact ex_contract ex_changes ltac:(cbn; lia) ltac:(vm_compute; reflexivity) eq_refl eq_refl) as H.
  cbv zeta in H. rewrite E in H. apply H.
Defined.

Definition ex_ranges : gmap bytes RangeRequirement := unwrap_or ∅ (required_input_ranges ex_contract (ex_interval 0 5)).

Lemma required_input_exact_witness :
  required_input_ranges ex_contract (ex_interval 0 5) = Ok ex_ranges
  /\ ex_ranges !! bstr "c" = None /\ ex_ranges !! bstr "a" = Some (RangeBounded [ex_interval (-7) 12]).
Proof.
  assert (required_input_ranges ex_contract (ex_interval 0 5) = Ok ex_ranges) as E by (vm_compute; reflexivity).
  split; [exact E|]. split; [|vm_compute; reflexivity].
  apply (required_input_exact ex_contract (ex_interval 0 5) ex_ranges ltac:(cbn; lia) ltac:(cbn; lia) E (bstr "c")).
  vm_compute; reflexivity.
Defined.
