(* ===== verification/QuerySnapshot.v ===== *)
(** Query snapshots, [crates/query-foundation/src]: the membership a snapshot
    captures and its validation ([snapshot.rs]), and the declared treatment of
    overlapping chunks ([overlap.rs]). *)

From stdpp Require Import base list numbers sorting gmap strings options.
From Stdlib Require Import ZArith Lia.
From S2P Require Import Prelude RustStd.
From S2P Require Import QueryStats.

Open Scope Z_scope.

(** * Schemas and chunks *)

(** The Arrow types the code tells apart; any other type by its text. *)
Inductive DataType := DInt64 | DDate64 | DTimestamp (unit : TimeUnit) (zone : option bytes) | DOther (text : bytes).

#[export] Instance DataType_eq_dec : EqDecision DataType.
Proof. solve_decision. Defined.

Record Field := { field_name : bytes; data_type : DataType; is_nullable : bool }.
Abbreviation Schema := (list Field).

(** [Schema::field_with_name]: the first field of the name. *)
Definition field_with_name (s : Schema) (name : bytes) : option Field :=
  List.find (fun f => bool_decide (field_name f = name)) s.

Record ObjectDescriptor := { url : bytes; is_collection : bool }.
Record SortExpr := { sort_expr : Expr; asc : bool; nulls_first : bool }.

Record ChunkDescriptor := {
  chunk_id : bytes;
  sequence : Z;
  object : ObjectDescriptor;
  chunk_schema : Schema;
  logical_count : Z;
  event_time_bounds : option TimeInterval;
  ordering : list SortExpr;
}.

Inductive SnapshotError :=
| EmptyRowIdentity
| EmptyIdentityColumn
| DuplicateIdentityColumn (column : bytes)
| IdentityColumnAbsent (column : bytes)
| DisjointNeedsEventTime
| DisjointNeedsBounds (id : bytes)
| Overlapping (id1 : bytes) (i1 : TimeInterval) (id2 : bytes) (i2 : TimeInterval)
| EmptySnapshotId
| EventTimeAbsent (column : bytes)
| EventTimeType (column : bytes) (t : DataType)
| EmptyChunkId
| DuplicateChunkId (id : bytes)
| SequenceNotIncreasing (sequence : Z)
| CollectionUrl (id : bytes)
| EmptyChunkWithBounds (id : bytes)
| UntimedChunkWithBounds (id : bytes)
| UndeclaredColumn (id column : bytes)
| ColumnType (id column : bytes)
| ColumnNullable (id column : bytes)
| MissingRequiredColumn (id column : bytes)
| MissingEventTime (id column : bytes)
| OrderingNotColumn (id : bytes)
| OrderingColumnAbsent (id column : bytes).

Abbreviation check := (outcome SnapshotError unit).

(** Run a check on every element, stopping at the first error. *)
Fixpoint each {A} (f : A -> check) (l : list A) : check :=
  match l with [] => Ok tt | x :: l => _ ← f x; each f l end.

Definition guard (b : bool) (e : SnapshotError) : check := if b then Ok tt else Err e.

(** * Row identity and overlap *)

Record RowIdentity := { columns : list bytes }.

Fixpoint check_columns (seen : gset bytes) (l : list bytes) : check :=
  match l with
  | [] => Ok tt
  | x :: l =>
      if bool_decide (x = []) then Err EmptyIdentityColumn else
      if bool_decide (x ∈ seen) then Err (DuplicateIdentityColumn x) else check_columns ({[x]} ∪ seen) l
  end.

Definition identity_try_new (cols : list bytes) : outcome SnapshotError RowIdentity :=
  if bool_decide (cols = []) then Err EmptyRowIdentity else
  _ ← check_columns ∅ cols;
  Ok {| columns := cols |}.

Definition validate_schema (id : RowIdentity) (s : Schema) : check :=
  each (fun c => match field_with_name s c with Some _ => Ok tt | None => Err (IdentityColumnAbsent c) end) (columns id).

Inductive OverlapPolicy :=
| PreserveAll
| RequireDisjoint
| RejectDuplicateKey (key : RowIdentity)
| PreferBySequence (key : RowIdentity).

Definition bounds_cmp : bytes * TimeInterval -> bytes * TimeInterval -> comparison :=
  then_cmp (cmp_on (fun p => tmin p.2) Z.compare) (cmp_on (fun p => tmax p.2) Z.compare).

(** The sweep over the chunks in order of their bounds. *)
Fixpoint sweep (prior : bytes * TimeInterval) (l : list (bytes * TimeInterval)) : check :=
  match l with
  | [] => Ok tt
  | c :: l =>
      if tmin c.2 <=? tmax prior.2 then Err (Overlapping prior.1 prior.2 c.1 c.2)
      else sweep (if tmax prior.2 <? tmax c.2 then c else prior) l
  end.

Definition bounded_chunk (c : ChunkDescriptor) : outcome SnapshotError (bytes * TimeInterval) :=
  match event_time_bounds c with Some b => Ok (chunk_id c, b) | None => Err (DisjointNeedsBounds (chunk_id c)) end.

Definition with_rows (chunks : list ChunkDescriptor) : list ChunkDescriptor :=
  List.filter (fun c => negb (logical_count c =? 0)) chunks.

Definition validate_disjoint (chunks : list ChunkDescriptor) (event_time : option bytes) : check :=
  match event_time with
  | None => Err DisjointNeedsEventTime
  | Some _ =>
      non_empty ← omap_list bounded_chunk (with_rows chunks);
      match sort_by bounds_cmp non_empty with
      | [] => Ok tt
      | p :: l => sweep p l
      end
  end.

Definition overlap_validate (p : OverlapPolicy) (s : Schema) (chunks : list ChunkDescriptor) (event_time : option bytes) : check :=
  match p with
  | PreserveAll => Ok tt
  | RequireDisjoint => validate_disjoint chunks event_time
  | RejectDuplicateKey key | PreferBySequence key => validate_schema key s
  end.

(** * Snapshots *)

Definition validate_event_time (s : Schema) (event_time : option bytes) : check :=
  match event_time with
  | None => Ok tt
  | Some column =>
      match field_with_name s column with
      | None => Err (EventTimeAbsent column)
      | Some f =>
          match data_type f with
          | DInt64 | DDate64 | DTimestamp _ _ => Ok tt
          | t => Err (EventTimeType column t)
          end
      end
  end.

Definition validate_chunk_schema (s : Schema) (c : ChunkDescriptor) (event_time : option bytes) : check :=
  _ ← each (fun f =>
        match field_with_name s (field_name f) with
        | None => Err (UndeclaredColumn (chunk_id c) (field_name f))
        | Some g =>
            _ ← guard (bool_decide (data_type g = data_type f)) (ColumnType (chunk_id c) (field_name f));
            guard (negb (is_nullable f && negb (is_nullable g))) (ColumnNullable (chunk_id c) (field_name f))
        end) (chunk_schema c);
  _ ← each (fun f =>
        match field_with_name (chunk_schema c) (field_name f) with
        | None => guard (is_nullable f) (MissingRequiredColumn (chunk_id c) (field_name f))
        | Some _ => Ok tt
        end) s;
  _ ← match event_time with
      | Some column =>
          match field_with_name (chunk_schema c) column with
          | None => Err (MissingEventTime (chunk_id c) column) | Some _ => Ok tt end
      | None => Ok tt
      end;
  each (fun o =>
    match sort_expr o with
    | EColumn name =>
        match field_with_name (chunk_schema c) name with
        | None => Err (OrderingColumnAbsent (chunk_id c) name) | Some _ => Ok tt end
    | _ => Err (OrderingNotColumn (chunk_id c))
    end) (ordering c).

(** The loop with the identities seen and the last sequence. *)
Fixpoint validate_chunks_from (seen : gset bytes) (previous : option Z) (s : Schema) (event_time : option bytes)
    (chunks : list ChunkDescriptor) : check :=
  match chunks with
  | [] => Ok tt
  | c :: chunks =>
      if bool_decide (chunk_id c = []) then Err EmptyChunkId else
      if bool_decide (chunk_id c ∈ seen) then Err (DuplicateChunkId (chunk_id c)) else
      if match previous with Some p => sequence c <=? p | None => false end then Err (SequenceNotIncreasing (sequence c)) else
      if is_collection (object c) then Err (CollectionUrl (chunk_id c)) else
      if (logical_count c =? 0) && bool_decide (is_Some (event_time_bounds c)) then Err (EmptyChunkWithBounds (chunk_id c)) else
      if bool_decide (event_time = None) && bool_decide (is_Some (event_time_bounds c))
      then Err (UntimedChunkWithBounds (chunk_id c)) else
      _ ← validate_chunk_schema s c event_time;
      validate_chunks_from ({[chunk_id c]} ∪ seen) (Some (sequence c)) s event_time chunks
  end.
Definition validate_chunks := validate_chunks_from ∅ None.

Record DatasetSnapshot := {
  snapshot_id : bytes;
  snapshot_schema : Schema;
  chunks : list ChunkDescriptor;
  event_time : option bytes;
  overlap : OverlapPolicy;
}.

Definition snapshot_try_new (id : bytes) (s : Schema) (cs : list ChunkDescriptor) (et : option bytes) (p : OverlapPolicy)
  : outcome SnapshotError DatasetSnapshot :=
  if bool_decide (id = []) then Err EmptySnapshotId else
  _ ← validate_event_time s et;
  _ ← validate_chunks s et cs;
  _ ← overlap_validate p s cs et;
  Ok {| snapshot_id := id; snapshot_schema := s; chunks := cs; event_time := et; overlap := p |}.

(** The chunks a scan of the snapshot reads ([ChunkTableProvider::scan]). *)
Definition scan_selection (s : DatasetSnapshot) (filters : list Expr) : list ChunkDescriptor * Z :=
  select_chunks event_time_bounds (event_time s) filters (chunks s).

(** * Disjointness *)

Definition holds_time (t : Z) (i : TimeInterval) : bool := (tmin i <=? t) && (t <=? tmax i).
(** How many intervals hold a time. *)
Definition overlap_count (t : Z) (l : list TimeInterval) : nat := length (List.filter (holds_time t) l).

Lemma overlap_count_perm t l1 l2 : l1 ≡ₚ l2 -> overlap_count t l1 = overlap_count t l2.
Proof.
  intros Hp. apply Permutation_length. induction Hp as [|x l1 l2 Hp IH|x y l|l1 l2 l3 H1 IH1 H2 IH2]; simpl.
  - done.
  - destruct (holds_time t x); [by constructor|done].
  - destruct (holds_time t x), (holds_time t y); (done || constructor).
  - by rewrite IH1.
Qed.

Lemma overlap_count_cons t i l : overlap_count t (i :: l) = ((if holds_time t i then 1 else 0) + overlap_count t l)%nat.
Proof. unfold overlap_count. simpl. by destruct (holds_time t i). Qed.

Lemma overlap_count_zero t l : Forall (fun i => t < tmin i) l -> overlap_count t l = 0%nat.
Proof.
  induction 1 as [|i l Hi Hl IH]; [done|]. rewrite overlap_count_cons, IH. unfold holds_time.
  destruct (Z.leb_spec (tmin i) t); [lia|done].
Qed.

Lemma sweep_spec l : forall p,
  StronglySorted (fun a b => tmin a.2 <= tmin b.2) (p :: l) -> Forall (fun c => tmin c.2 <= tmax c.2) (p :: l) ->
  sweep p l = Ok tt <-> forall t, (overlap_count t (map snd (p :: l)) <= 1)%nat.
Proof.
  induction l as [|c l IH]; intros p Hs Hw.
  { split; [|done]. intros _ t. cbn [map]. rewrite overlap_count_cons. unfold overlap_count. simpl. destruct (holds_time t p.2); lia. }
  inversion Hs as [|? ? Hs' Hp]; subst. apply Forall_cons in Hw as [Hwp Hw]. cbn [sweep].
  pose proof (Forall_inv Hp) as Hpc. pose proof (Forall_inv Hw) as Hwc. cbn beta in *.
  destruct (Z.leb_spec (tmin c.2) (tmax p.2)) as [Hov|Hsep].
  - split; [done|]. intros H. specialize (H (tmin c.2)). cbn [map] in H. rewrite !overlap_count_cons in H.
    unfold holds_time in H at 1 2. replace (_ && _) with true in H by lia. rewrite Z.leb_refl in H.
    replace (tmin c.2 <=? tmax c.2) with true in H by lia. cbn in H. lia.
  - replace (tmax p.2 <? tmax c.2) with true by lia. rewrite (IH c Hs' Hw). split.
    + intros H t. cbn [map] in *. rewrite overlap_count_cons. specialize (H t).
      destruct (holds_time t p.2) eqn:Et; [|lia]. unfold holds_time in Et.
      rewrite (overlap_count_zero t (c.2 :: map snd l)); [lia|].
      change (c.2 :: map snd l) with (map snd (c :: l)). apply Forall_map. constructor; [lia|].
      inversion Hs' as [|? ? _ Hc]; subst. eapply Forall_impl; [exact Hc|]. cbn. lia.
    + intros H t. specialize (H t). cbn [map] in *. rewrite overlap_count_cons in H. lia.
Qed.

#[export] Instance bounds_cmp_order : CmpOrder bounds_cmp.
Proof. apply _. Qed.

Lemma bounds_cmp_le a b : cmp_le bounds_cmp a b -> tmin a.2 <= tmin b.2.
Proof.
  unfold cmp_le, bounds_cmp, then_cmp, cmp_on. destruct (Z.compare_spec (tmin a.2) (tmin b.2)); [lia|lia|done].
Qed.

(** The sweep decides disjointness: a set of chunks with sound statistics passes
    exactly when every chunk that has rows has statistics and every instant lies
    in the range of at most one of them. *)
Theorem disjoint_check_exact (cs : list ChunkDescriptor) (column : bytes) :
  Forall (fun c => forall i, event_time_bounds c = Some i -> tmin i <= tmax i) cs ->
  validate_disjoint cs (Some column) = Ok tt <->
  Forall (fun c => is_Some (event_time_bounds c)) (with_rows cs)
  /\ forall t, (overlap_count t (omap event_time_bounds (with_rows cs)) <= 1)%nat.
Proof.
  intros Hw. assert (Forall (fun c => forall i, event_time_bounds c = Some i -> tmin i <= tmax i) (with_rows cs)) as Hwr.
  { rewrite Forall_forall in *. intros c Hc. apply Hw. apply list_elem_of_In, filter_In in Hc as [Hc _]. by apply list_elem_of_In. }
  unfold validate_disjoint. set (rows := with_rows cs) in *. clearbody rows.
  assert (forall r, omap_list bounded_chunk rows = Ok r ->
    Forall (fun c => is_Some (event_time_bounds c)) rows /\ omap event_time_bounds rows = map snd r
    /\ Forall (fun c => tmin c.2 <= tmax c.2) r) as Hr.
  { intros r Hr. apply omap_list_Ok in Hr. induction Hr as [|c p l r Hc Hr IH]; [done|].
    apply Forall_cons in Hwr as [Hc' Hwr]. destruct (IH Hwr) as (I1 & I2 & I3). unfold bounded_chunk in Hc.
    destruct (event_time_bounds c) as [b|] eqn:E; [|done]. injection Hc as <-. cbn. rewrite E. cbn. rewrite I2.
    split; [constructor; [by rewrite E|done]|]. split; [done|]. constructor; [by apply Hc'|done]. }
  destruct (omap_list bounded_chunk rows) as [r|e|] eqn:Eo; cbn [mbind outcome_bind].
  - destruct (Hr r eq_refl) as (H1 & -> & H3). rewrite (and_comm (Forall _ _)).
    assert ((match sort_by bounds_cmp r with [] => Ok tt | p :: l => sweep p l end = Ok tt)
            <-> forall t, (overlap_count t (map snd (sort_by bounds_cmp r)) <= 1)%nat) as ->.
    { pose proof (sort_by_sorted bounds_cmp r) as Hs.
      assert (Forall (fun c => tmin c.2 <= tmax c.2) (sort_by bounds_cmp r)) as Hw' by (by rewrite sort_by_perm).
      destruct (sort_by bounds_cmp r) as [|p l]; [split; [intros _ t; cbn; lia|done]|]. apply sweep_spec; [|done].
      clear -Hs. induction Hs as [|x k Hs IH Hx]; constructor; [done|]. eapply Forall_impl; [exact Hx|]. apply bounds_cmp_le. }
    split; [intros H; split; [|done]|intros [H _]]; intros t; specialize (H t);
      [rewrite <- (overlap_count_perm t (map snd (sort_by bounds_cmp r)))|rewrite (overlap_count_perm t _ (map snd r))];
      try done; by rewrite sort_by_perm.
  - split; [done|]. intros [H _]. exfalso. clear -H Eo. induction H as [|c l [b Hb] H IH]; [done|]. cbn [omap_list] in Eo.
    assert (bounded_chunk c = Ok (chunk_id c, b)) as Eb by (unfold bounded_chunk; by rewrite Hb).
    rewrite Eb in Eo. cbn [mbind outcome_bind] in Eo. destruct (omap_list bounded_chunk l) as [r|e'|]; [done| |done]. by apply IH.
  - exfalso. clear -Eo. induction rows as [|c l IH]; [done|]. cbn [omap_list] in Eo.
    assert (bounded_chunk c <> Panic) as Hp by (unfold bounded_chunk; by destruct (event_time_bounds c)).
    destruct (bounded_chunk c); [|done..]. cbn [mbind outcome_bind] in Eo.
    destruct (omap_list bounded_chunk l); [done..|]. by apply IH.
Qed.

(** * Accepted snapshots *)

Lemma each_Ok {A} (f : A -> check) l : each f l = Ok tt <-> Forall (fun x => f x = Ok tt) l.
Proof.
  induction l as [|x l IH]; simpl; [split; [constructor|done]|]. rewrite Forall_cons, <- IH.
  destruct (f x) as [[]|e|]; cbn [mbind outcome_bind]; naive_solver.
Qed.

Lemma validate_chunks_inv seen prev s et cs : validate_chunks_from seen prev s et cs = Ok tt ->
  NoDup (map chunk_id cs) /\ Forall (fun c => chunk_id c <> [] /\ chunk_id c ∉ seen) cs
  /\ StronglySorted (fun a b => sequence a < sequence b) cs
  /\ Forall (fun c => forall p, prev = Some p -> p < sequence c) cs
  /\ Forall (fun c => is_collection (object c) = false
       /\ (event_time_bounds c <> None -> logical_count c <> 0 /\ et <> None)
       /\ validate_chunk_schema s c et = Ok tt) cs.
Proof.
  revert seen prev. induction cs as [|c cs IH]; intros seen prev; cbn [validate_chunks_from].
  { intros _. split_and!; constructor. }
  case_bool_decide as H1; [done|]. case_bool_decide as H2; [done|].
  destruct (match prev with Some p => sequence c <=? p | None => false end) eqn:H3; [done|].
  destruct (is_collection (object c)) eqn:H4; [done|].
  destruct ((logical_count c =? 0) && bool_decide (is_Some (event_time_bounds c))) eqn:H5; [done|].
  destruct (bool_decide (et = None) && bool_decide (is_Some (event_time_bounds c))) eqn:H6; [done|].
  intros H. apply bind_Ok in H as ([] & H7 & H). apply IH in H as (I1 & I2 & I3 & I4 & I5).
  assert (Forall (fun d => sequence c < sequence d) cs) as Hseq
    by (eapply Forall_impl; [exact I4|]; cbn beta; intros d Hd; by apply Hd).
  assert (Forall (fun d => chunk_id d <> chunk_id c /\ chunk_id d ∉ seen) cs) as Hids
    by (eapply Forall_impl; [exact I2|]; cbn beta; set_solver).
  split_and!.
  - cbn [map]. constructor; [|done]. intros Hin. apply list_elem_of_In, in_map_iff in Hin as (d & Ed & Hd).
    rewrite Forall_forall in Hids. apply list_elem_of_In in Hd. by apply Hids in Hd as [Hd _].
  - constructor; [done|]. rewrite Forall_forall in *. intros d Hd. split; [by apply I2|by apply Hids].
  - by constructor.
  - assert (forall p, prev = Some p -> p < sequence c) as Hp by (intros p ->; lia).
    constructor; [done|]. eapply Forall_impl; [exact Hseq|]. cbn beta. intros d Hd p E. specialize (Hp p E). lia.
  - constructor; [|done]. split; [done|]. split; [|done]. intros Hb.
    assert (is_Some (event_time_bounds c)) as Hs by (destruct (event_time_bounds c); [done|by destruct Hb]).
    rewrite (bool_decide_true _ Hs), andb_true_r in H5, H6. split; [lia|]. by apply bool_decide_eq_false in H6.
Qed.

(** An accepted snapshot is well formed: its chunks have distinct names and
    strictly increasing sequences and name exact objects; every column of a chunk
    is a declared one of the declared type; a chunk lacks only columns that may be
    null; and only chunks with rows of a time series carry time statistics. *)
Theorem snapshot_wellformed (id : bytes) (s : Schema) (cs : list ChunkDescriptor) (et : option bytes) (p : OverlapPolicy)
    (r : DatasetSnapshot) :
  snapshot_try_new id s cs et p = Ok r ->
  chunks r = cs /\ NoDup (map chunk_id cs) /\ StronglySorted (fun a b => sequence a < sequence b) cs
  /\ forall c, c ∈ cs ->
      is_collection (object c) = false
      /\ (event_time_bounds c <> None -> logical_count c <> 0 /\ et <> None)
      /\ (forall f, f ∈ chunk_schema c -> exists g, field_with_name s (field_name f) = Some g
           /\ data_type g = data_type f /\ (is_nullable f = true -> is_nullable g = true))
      /\ (forall f, f ∈ s -> is_nullable f = false -> field_with_name (chunk_schema c) (field_name f) <> None)
      /\ (forall column, et = Some column -> field_with_name (chunk_schema c) column <> None).
Proof.
  unfold snapshot_try_new. case_bool_decide; [done|]. intros H0.
  apply bind_Ok in H0 as (_ & _ & H0). apply bind_Ok in H0 as ([] & Hv & H0). apply bind_Ok in H0 as (_ & _ & [= <-]).
  apply validate_chunks_inv in Hv as (H1 & _ & H3 & _ & H5). cbn [chunks]. split_and!; try done.
  intros c Hc. rewrite Forall_forall in H5. destruct (H5 c Hc) as (C1 & C2 & C3). split; [done|]. split; [done|].
  unfold validate_chunk_schema in C3. apply bind_Ok in C3 as ([] & E1 & C3). apply bind_Ok in C3 as ([] & E2 & C3).
  apply bind_Ok in C3 as ([] & E3 & _). apply each_Ok in E1, E2. rewrite Forall_forall in E1, E2. split_and!.
  - intros f Hf. specialize (E1 f Hf). cbn beta in E1. destruct (field_with_name s (field_name f)) as [g|]; [|done].
    exists g. split; [done|]. apply bind_Ok in E1 as ([] & G1 & G2). unfold guard in G1, G2.
    case_bool_decide; [|done]. split; [done|]. intros Hn. rewrite Hn in G2. by destruct (is_nullable g).
  - intros f Hf Hn. specialize (E2 f Hf). cbn beta in E2. destruct (field_with_name (chunk_schema c) (field_name f)); [done|].
    unfold guard in E2. by rewrite Hn in E2.
  - intros column ->. by destruct (field_with_name (chunk_schema c) column).
Qed.

(** * A concrete snapshot *)

Definition ex_field (n : bytes) (t : DataType) (nullable : bool) : Field :=
  {| field_name := n; data_type := t; is_nullable := nullable |}.
Definition ex_schema : Schema := [ex_field (bstr "ts") DInt64 false; ex_field (bstr "level") (DOther (bstr "Float64")) true].
Definition ex_chunk (n : string) (seq lo hi : Z) : ChunkDescriptor :=
  {| chunk_id := bstr n; sequence := seq; object := {| url := bstr n; is_collection := false |};
     chunk_schema := [ex_field (bstr "ts") DInt64 false]; logical_count := 2;
     event_time_bounds := Some {| tmin := lo; tmax := hi |}; ordering := [] |}.
Definition ex_snapshot (lo : Z) : outcome SnapshotError DatasetSnapshot :=
  snapshot_try_new (bstr "s1") ex_schema [ex_chunk "b" 1 10 19; ex_chunk "a" 2 lo 9] (Some (bstr "ts")) RequireDisjoint.

Lemma disjoint_check_exact_witness :
  validate_disjoint [ex_chunk "b" 1 10 19; ex_chunk "a" 2 0 9] (Some (bstr "ts")) = Ok tt
  /\ forall t, (overlap_count t [ {| tmin := 10; tmax := 19 |}; {| tmin := 0; tmax := 9 |}] <= 1)%nat.
Proof.
  assert (validate_disjoint [ex_chunk "b" 1 10 19; ex_chunk "a" 2 0 9] (Some (bstr "ts")) = Ok tt) as E by (vm_compute; reflexivity).
  split; [exact E|].
  apply (disjoint_check_exact [ex_chunk "b" 1 10 19; ex_chunk "a" 2 0 9] (bstr "ts")); [|exact E].
  repeat constructor; intros i [= <-]; cbn; lia.
Defined.

Lemma snapshot_wellformed_witness : is_ok (ex_snapshot 0) = true /\ NoDup (map chunk_id [ex_chunk "b" 1 10 19; ex_chunk "a" 2 0 9]).
Proof.
  split; [vm_compute; reflexivity|]. destruct (ex_snapshot 0) as [r|e|] eqn:E; [|vm_compute in E; discriminate E..].
  exact (proj1 (proj2 (snapshot_wellformed _ _ _ _ _ r E))).
Defined.
