(* ===== verification/Glob.v ===== *)
(** Glob patterns, [crates/utilities/src/glob.rs]: parsing a pattern into
    components, matching a name with its captures, and the walk over a host
    directory tree.  The host file system is a tree of files and directories
    without symbolic links; every directory of it can be read. *)

From stdpp Require Import base list numbers strings options.
From Stdlib Require Import ZArith Lia.
From S2P Require Import Prelude RustStd RustText.

Inductive WildcardComponent :=
| DoubleWildcard (index : nat)
| Wildcard (segments : list bytes) (index : nat)
| Normal (name : bytes).

Inductive GlobError := InvalidComponent (path : bytes) | ReadDir (path : list bytes).

(** * Matching one component *)

(** [str::find]: the text before and behind the first occurrence. *)
Fixpoint find_split (pat s : bytes) : option (bytes * bytes) :=
  match strip_prefix pat s with
  | Some rest => Some ([], rest)
  | None => match s with
            | [] => None
            | c :: s => '(before, rest) ← find_split pat s; Some (c :: before, rest)
            end
  end.

(** The loop over the segments behind the first; [rest] is [name[pos..]].  The
    result is the unmatched rest and the captures. *)
Fixpoint match_segments (rest : bytes) (segments : list bytes) : option (bytes * list bytes) :=
  match segments with
  | [] => Some (rest, [])
  | segment :: segments =>
      if negb (bool_decide (segment = [])) then
        '(capture, rest) ← find_split segment rest;
        '(rest, captures) ← match_segments rest segments;
        Some (rest, capture :: captures)
      else match segments with
           | [] => Some ([], [rest])
           | _ => match_segments rest segments
           end
  end.

Definition match_component (c : WildcardComponent) (name : bytes) : option (list bytes) :=
  match c with
  | DoubleWildcard _ => Some [name]
  | Wildcard [] _ => Some [name]
  | Wildcard (first :: segments) _ =>
      rest ← (if negb (bool_decide (first = [])) then strip_prefix first name else Some name);
      '(rest, captures) ← match_segments rest segments;
      let last_literal := negb (bool_decide (List.last (first :: segments) [] = [])) in
      if last_literal && negb (bool_decide (rest = [])) then None else
      Some (captures ++ match segments with [] => [rest] | _ => [] end)
  | Normal pattern => if bool_decide (name = pattern) then Some [] else None
  end.

(** * Parsing a pattern *)

Definition STAR : byte := Byte.x2a.
Definition QUESTION : byte := Byte.x3f.

(** [std::path::Component] on Unix. *)
Inductive Component := RootDir | CurDir | ParentDir | NormalComponent (s : bytes).

(** [Path::components]: empty and inner [.] components vanish. *)
Definition path_component (s : bytes) : option Component :=
  if bool_decide (s = []) || bool_decide (s = bstr ".") then None
  else if bool_decide (s = bstr "..") then Some ParentDir else Some (NormalComponent s).
Definition path_components (path : bytes) : list Component :=
  let parts := split_on SLASH path in
  (if bool_decide (head path = Some SLASH) then [RootDir]
   else if bool_decide (head parts = Some (bstr ".")) then [CurDir] else [])
  ++ omap path_component parts.

Definition component_str (path : bytes) (c : Component) : outcome GlobError bytes :=
  match c with NormalComponent s => Ok s | _ => Err (InvalidComponent path) end.

Definition has (c : byte) (s : bytes) : bool := existsb (fun b => bool_decide (b = c)) s.

Fixpoint make_components (index : nat) (l : list bytes) : list WildcardComponent :=
  match l with
  | [] => []
  | s :: l =>
      if bool_decide (s = bstr "**") then DoubleWildcard index :: make_components (S index) l
      else if has STAR s then Wildcard (split_on STAR s) index :: make_components (S index) l
      else Normal s :: make_components index l
  end.

Definition parse_glob (pattern : bytes) : outcome GlobError (list WildcardComponent) :=
  strings ← omap_list (component_str pattern) (path_components pattern);
  Ok (make_components 0 strings).

(** The text of a component ([as_os_str]). *)
Definition component_text (c : Component) : bytes :=
  match c with RootDir => bstr "/" | CurDir => bstr "." | ParentDir => bstr ".." | NormalComponent s => s end.

Definition wild (c : Component) : bool := has STAR (component_text c) || has QUESTION (component_text c).

(** The components before the first wildcard, and the others joined. *)
Fixpoint split_components (l : list Component) : list Component * list Component :=
  match l with
  | [] => ([], [])
  | c :: rest => if wild c then ([], l) else let '(b, p) := split_components rest in (c :: b, p)
  end.
Definition split_absolute_pattern (pattern : bytes) : list Component * bytes :=
  let '(base, rest) := split_components (path_components pattern) in (base, join SLASH (map component_text rest)).

(** * Walking the host *)

Inductive host := HFile | HDir (entries : list (bytes * host)).

Definition is_dir (t : host) : bool := match t with HDir _ => true | HFile => false end.

Abbreviation Found := (list (list bytes * list bytes)) (only parsing).

(** [visit_host_recursive] and [visit_host_match]: the paths, relative to the
    start of the walk, and their captures, in the order they are pushed.  The walk
    only enters directories. *)
Fixpoint visit_host_recursive (t : host) : list WildcardComponent -> list bytes -> list bytes -> Found :=
  match t with HFile => fun _ _ _ => [] | HDir entries =>
  fix go (pattern : list WildcardComponent) (path captured : list bytes) {struct pattern} : Found :=
    match pattern with
    | [] => []
    | c :: rest =>
        let visit_host_match (is_double : bool) (e : bytes * host) (captured : list bytes) (deeper : Found) : Found :=
          match rest with
          | [] => [(path ++ [e.1], captured)]
          | _ => if is_dir e.2 then deeper else []
          end in
        match c with
        | Normal name =>
            flat_map (fun e => if bool_decide (e.1 = name)
              then visit_host_match false e captured (visit_host_recursive e.2 rest (path ++ [e.1]) captured) else [])
              entries
        | Wildcard _ _ =>
            flat_map (fun e => match match_component c e.1 with
              | Some caps => visit_host_match false e (captured ++ caps)
                               (visit_host_recursive e.2 rest (path ++ [e.1]) (captured ++ caps))
              | None => [] end) entries
        | DoubleWildcard _ =>
            (match rest with
             | [] => flat_map (fun e => if is_dir e.2 then [] else visit_host_match true e (captured ++ [e.1]) [])
                       entries
             | _ => go rest path captured
             end)
            ++ flat_map (fun e => if is_dir e.2
                 then visit_host_match true e (captured ++ [e.1])
                        (visit_host_recursive e.2 pattern (path ++ [e.1]) (captured ++ [e.1])) else [])
                 entries
        end
    end
  end.

(** The node a path names, from the root; the stack holds the directories above. *)
Definition path_step (stack : list host) (c : Component) : option (list host) :=
  match stack with
  | [] => None
  | t :: above =>
      match c, t with
      | RootDir, _ => Some [List.last stack t]
      | _, HFile => None
      | CurDir, _ => Some stack
      | ParentDir, _ => Some (match above with [] => stack | _ => above end)
      | NormalComponent n, HDir entries =>
          e ← List.find (fun e => bool_decide (e.1 = n)) entries; Some (e.2 :: stack)
      end
  end.
Fixpoint resolve (stack : list host) (path : list Component) : option host :=
  match path with
  | [] => head stack
  | c :: path => stack ← path_step stack c; resolve stack path
  end.

(** The walk from a base that may be missing: only the forms that list a
    directory fail then. *)
Definition visit_base (base : option host) (pattern : list WildcardComponent) : outcome GlobError Found :=
  match base with
  | Some (HDir entries) => Ok (visit_host_recursive (HDir entries) pattern [] [])
  | _ => match pattern with
         | [] | Normal _ :: _ => Ok []
         | _ => Err (ReadDir [])
         end
  end.

(** [root] is the file system, [base] the tree at [base_dir]; a match is its base
    path, the names below it and the captures. *)
Definition collect_host_matches (root : host) (base : option host) (pattern : bytes)
  : outcome GlobError (list (list Component * (list bytes * list bytes))) :=
  let walk (at_ : list Component) (base : option host) (relative : bytes) :=
    components ← parse_glob relative;
    found ← visit_base base components;
    Ok (map (fun f => (at_, f)) found) in
  if bool_decide (head pattern = Some SLASH) then
    let '(at_, relative) := split_absolute_pattern pattern in
    if bool_decide (relative = []) then
      Ok (match resolve [root] (path_components pattern) with
          | Some _ => [(path_components pattern, ([], []))] | None => [] end)
    else walk at_ (resolve [root] at_) relative
  else walk [] base pattern.

(** * What a match means *)

(** The text the captures and the segments behind the first spell. *)
Fixpoint spell (captures segments : list bytes) : bytes :=
  match captures, segments with
  | c :: captures, s :: segments => c ++ s ++ spell captures segments
  | _, _ => []
  end.

(** Adjacent stars act as one: an empty segment counts only at the end. *)
Fixpoint effective (segments : list bytes) : list bytes :=
  match segments with
  | [] => []
  | [s] => [s]
  | s :: segments => if bool_decide (s = []) then effective segments else s :: effective segments
  end.

(** A name a wildcard component describes. *)
Definition spelled (first : bytes) (segments : list bytes) (name : bytes) (captures : list bytes) : Prop :=
  length captures = length (effective segments) /\ name = first ++ spell captures (effective segments).

Lemma find_split_sound pat s a b : find_split pat s = Some (a, b) -> s = a ++ pat ++ b.
Proof.
  revert a. induction s as [|c s IH]; intros a; simpl.
  - destruct (strip_prefix pat []) as [r|] eqn:E; [|done]. intros [= <- <-]. by apply strip_prefix_spec in E.
  - destruct (strip_prefix pat (c :: s)) as [r|] eqn:E; [intros [= <- <-]; by apply strip_prefix_spec in E|].
    destruct (find_split pat s) as [[x y]|]; [|done]. intros [= <- <-]. simpl. by rewrite (IH x eq_refl).
Qed.

(** The first occurrence ends no later than any other. *)
Lemma find_split_first pat a b : exists x y z, find_split pat (a ++ pat ++ b) = Some (x, y) /\ y = z ++ b.
Proof.
  induction a as [|c a (x & y & z & IH & Hy)]; simpl.
  - destruct (pat ++ b) as [|c s] eqn:E; simpl.
    + apply app_eq_nil in E as [-> ->]. by exists [], [], [].
    + assert (strip_prefix pat (c :: s) = Some b) as Hp by (apply strip_prefix_spec; by rewrite E).
      rewrite Hp. by exists [], b, [].
  - destruct (strip_prefix pat (c :: a ++ pat ++ b)) as [r|] eqn:E.
    + apply strip_prefix_spec in E. exists [], r.
      assert (exists z, r = z ++ b) as [z' ->].
      { assert (length pat <= length (c :: a ++ pat))%nat as Hl by (simpl; rewrite length_app; lia).
        rewrite app_assoc, app_comm_cons in E.
        exists (drop (length pat) (c :: a ++ pat)).
        assert (drop (length pat) ((c :: a ++ pat) ++ b) = drop (length pat) (pat ++ r)) as E' by (by rewrite E).
        rewrite drop_app_le in E' by done. by rewrite drop_app_length in E'. }
      by exists z'.
    + rewrite IH. simpl. by exists (c :: x), y, z.
Qed.

Lemma match_segments_sound segments rest r caps :
  match_segments rest segments = Some (r, caps) ->
  length caps = length (effective segments) /\ rest = spell caps (effective segments) ++ r
  /\ (segments <> [] -> List.last segments [] = [] -> r = []).
Proof.
  revert rest caps. induction segments as [|s segments IH]; intros rest caps; cbn [match_segments].
  { intros [= <- <-]. simpl. done. }
  case_bool_decide as Hs; cbn [negb].
  - subst s. destruct segments as [|s' segments].
    + intros [= <- <-]. simpl. by rewrite !app_nil_r.
    + intros H. apply IH in H as (L & E & Hl). cbn [effective]. rewrite bool_decide_true by done. split_and!; try done.
      intros _ Hlast. by apply Hl.
  - intros H. apply bind_Some in H as ([a b] & Hf & H). apply bind_Some in H as ([r' caps'] & Hm & [= <- <-]).
    apply find_split_sound in Hf. apply IH in Hm as (L & E & Hl). subst rest b.
    assert (effective (s :: segments) = s :: effective segments) as ->
      by (destruct segments; [done|]; cbn [effective]; by rewrite bool_decide_false).
    simpl. rewrite L, <- !app_assoc. split_and!; try done. intros _ Hlast. destruct segments as [|s' segments]; [done|].
    by apply Hl.
Qed.

(** Behind a trailing star every spelled rest is found, the leftmost way. *)
Lemma match_segments_complete segments : forall rest caps,
  segments <> [] -> List.last segments [] = [] -> length caps = length (effective segments) ->
  rest = spell caps (effective segments) -> match_segments rest segments <> None.
Proof.
  induction segments as [|s segments IH]; intros rest caps Hne Hlast Hl Hr; [done|]. cbn [match_segments].
  case_bool_decide as Hs; cbn [negb].
  - subst s. destruct segments as [|s' segments]; [done|]. cbn [effective] in Hl, Hr. rewrite bool_decide_true in Hl, Hr by done.
    by eapply IH.
  - destruct segments as [|s' segments]; [by simpl in Hlast|].
    assert (effective (s :: s' :: segments) = s :: effective (s' :: segments)) as Ee
      by (cbn [effective]; by rewrite bool_decide_false).
    rewrite Ee in Hl, Hr. destruct caps as [|c caps]; [done|]. apply eq_add_S in Hl. cbn [spell] in Hr.
    destruct (find_split_first s c (spell caps (effective (s' :: segments)))) as (x & y & z & Hf & ->).
    rewrite Hr, Hf. cbn [mbind option_bind].
    destruct (effective (s' :: segments)) as [|e es] eqn:Eeff.
    { exfalso. clear -Eeff. revert s' Eeff. induction segments as [|t l IHl]; intros s' E; [done|]. cbn [effective] in E.
      case_bool_decide; [|done]. by apply (IHl t). }
    destruct caps as [|c0 caps]; [done|].
    specialize (IH (z ++ spell (c0 :: caps) (e :: es)) ((z ++ c0) :: caps) ltac:(done) Hlast Hl).
    destruct (match_segments (z ++ spell (c0 :: caps) (e :: es)) (s' :: segments)) as [[r k]|] eqn:Em; [done|].
    exfalso. apply IH; [|done]. cbn [spell]. by rewrite <- app_assoc.
Qed.

(** What a wildcard component matches: a name it matches is its literal segments
    in order with the captures between them, one for each run of stars; and a
    component that ends in a star matches every such name. *)
Theorem wildcard_match_spec (first : bytes) (segments : list bytes) (index : nat) (name : bytes) :
  segments <> [] ->
  (forall caps, match_component (Wildcard (first :: segments) index) name = Some caps -> spelled first segments name caps)
  /\ (List.last segments [] = [] -> (exists caps, spelled first segments name caps) ->
        exists caps, match_component (Wildcard (first :: segments) index) name = Some caps).
Proof.
  intros Hne. cbn [match_component].
  assert ((if negb (bool_decide (first = [])) then strip_prefix first name else Some name) = strip_prefix first name) as ->
    by (case_bool_decide; [by subst|done]).
  assert (List.last (first :: segments) [] = List.last segments []) as -> by (by destruct segments).
  split.
  - intros caps H. apply bind_Some in H as (rest & Hp & H). apply strip_prefix_spec in Hp as ->.
    apply bind_Some in H as ([r k] & Hm & H). apply match_segments_sound in Hm as (L & -> & Hl).
    assert (r = []) as ->.
    { destruct (bool_decide (List.last segments [] = [])) eqn:El.
      - apply bool_decide_eq_true in El. by apply Hl.
      - destruct (bool_decide_reflect (r = [])) as [->|Hr]; done. }
    rewrite (bool_decide_true ([] = [])) in H by done. rewrite andb_false_r in H. destruct segments; [done|].
    injection H as <-. by rewrite !app_nil_r.
  - intros Hlast (caps & Hl & ->). rewrite bool_decide_true by done. cbn [negb andb].
    assert (strip_prefix first (first ++ spell caps (effective segments)) = Some (spell caps (effective segments))) as ->
      by (by apply strip_prefix_spec).
    cbn [mbind option_bind]. pose proof (match_segments_complete segments _ caps Hne Hlast Hl eq_refl) as Hm.
    destruct (match_segments _ segments) as [[r k]|]; [|done]. cbn [mbind option_bind]. by eexists.
Qed.

(** A pattern of a star and a literal suffix looks only at the first occurrence
    of the suffix: it does not match the suffix written twice, although the star
    could take the first copy. *)
Theorem literal_suffix_incomplete (suffix : bytes) (index : nat) :
  suffix <> [] ->
  spelled [] [suffix] (suffix ++ suffix) [suffix]
  /\ match_component (Wildcard [[]; suffix] index) (suffix ++ suffix) = None.
Proof.
  intros Hs. split; [split; [done|]; simpl; by rewrite app_nil_r|].
  cbn [match_component match_segments]. rewrite (bool_decide_true ([] = [])), (bool_decide_false (suffix = [])) by done. cbn [negb mbind option_bind].
  assert (find_split suffix (suffix ++ suffix) = Some ([], suffix)) as ->.
  { assert (strip_prefix suffix (suffix ++ suffix) = Some suffix) as E by (by apply strip_prefix_spec).
    destruct (suffix ++ suffix); cbn [find_split]; by rewrite E. }
  cbn [match_segments mbind option_bind List.last]. rewrite (bool_decide_false (suffix = [])) by done.
  cbn [negb mbind option_bind andb]. by rewrite (bool_decide_false (suffix = [])).
Qed.

(** * The walk *)

Definition is_double (c : WildcardComponent) : bool := match c with DoubleWildcard _ => true | _ => false end.

(** The files and directories below [t] a pattern describes, with the captures. *)
Inductive globs : list WildcardComponent -> host -> list bytes -> list bytes -> Prop :=
| globs_last c n t es caps :
    is_double c = false -> (n, t) ∈ es -> match_component c n = Some caps -> globs [c] (HDir es) [n] caps
| globs_step c rest n t es path caps caps' :
    is_double c = false -> (n, t) ∈ es -> is_dir t = true -> match_component c n = Some caps ->
    globs rest t path caps' -> globs (c :: rest) (HDir es) (n :: path) (caps ++ caps')
| globs_zero i rest es path caps :
    globs rest (HDir es) path caps -> globs (DoubleWildcard i :: rest) (HDir es) path caps
| globs_more i rest n t es path caps :
    rest <> [] -> (n, t) ∈ es -> is_dir t = true -> globs (DoubleWildcard i :: rest) t path caps ->
    globs (DoubleWildcard i :: rest) (HDir es) (n :: path) (n :: caps).

Lemma globs_nonempty pattern t path caps : globs pattern t path caps -> pattern <> [].
Proof. by induction 1. Qed.

Lemma host_ind' (P : host -> Prop) :
  P HFile -> (forall es, (forall n t, (n, t) ∈ es -> P t) -> P (HDir es)) -> forall t, P t.
Proof.
  intros H1 H2. assert (forall es, Forall (fun e => P e.2) es -> P (HDir es)) as H3.
  { intros es Hes. apply H2. intros n t Hin. rewrite Forall_forall in Hes. exact (Hes (n, t) Hin). }
  fix IH 1. intros [|es]; [exact H1|]. apply H3. induction es as [|e es IHes]; constructor; [apply IH|exact IHes].
Qed.

Lemma in_flat_map_iff {A B} (f : A -> list B) l y : y ∈ flat_map f l <-> exists x, x ∈ l /\ y ∈ f x.
Proof. rewrite list_elem_of_In, in_flat_map. by setoid_rewrite list_elem_of_In. Qed.

(** The non-recursive components at a directory. *)
Lemma visit_single c rest es path captured : is_double c = false ->
  visit_host_recursive (HDir es) (c :: rest) path captured =
  flat_map (fun e => match match_component c e.1 with
    | Some caps => match rest with
        | [] => [(path ++ [e.1], captured ++ caps)]
        | _ => if is_dir e.2 then visit_host_recursive e.2 rest (path ++ [e.1]) (captured ++ caps) else []
        end
    | None => [] end) es.
Proof.
  destruct c as [i|segs i|name]; [done|done|]. intros _. cbn [visit_host_recursive]. apply flat_map_ext. intros e.
  cbn [match_component]. destruct (bool_decide (e.1 = name)); [by rewrite app_nil_r|done].
Qed.

Lemma visit_double i rest es path captured : rest <> [] ->
  visit_host_recursive (HDir es) (DoubleWildcard i :: rest) path captured =
  visit_host_recursive (HDir es) rest path captured
  ++ flat_map (fun e => if is_dir e.2 then
       visit_host_recursive e.2 (DoubleWildcard i :: rest) (path ++ [e.1]) (captured ++ [e.1]) else []) es.
Proof.
  destruct rest as [|r rest]; [done|]. intros _. cbn [visit_host_recursive]. f_equal. apply flat_map_ext. intros e.
  by destruct (is_dir e.2).
Qed.

Definition closed_end (pattern : list WildcardComponent) : bool :=
  match split_last pattern with Some (c, _) => negb (is_double c) | None => false end.

Lemma closed_end_cons c rest : rest <> [] -> closed_end (c :: rest) = closed_end rest.
Proof.
  intros Hne. unfold closed_end. destruct (split_last rest) as [[x r]|] eqn:E.
  - apply split_last_Some in E as ->. by rewrite (split_last_snoc (c :: r) x : split_last (c :: r ++ [x]) = _).
  - by apply split_last_None in E.
Qed.

Lemma visit_globs t : forall pattern path captured p k,
  closed_end pattern = true ->
  (p, k) ∈ visit_host_recursive t pattern path captured <->
  exists p' k', p = path ++ p' /\ k = captured ++ k' /\ globs pattern t p' k'.
Proof.
  induction t as [|es IH] using host_ind'; intros pattern path captured p k Hc.
  { split; [by intros ?%not_elem_of_nil|]. intros (p' & k' & _ & _ & Hg). inversion Hg. }
  induction pattern as [|c rest IHp]; [done|]. destruct (is_double c) eqn:Ed.
  - destruct c as [i| |]; try done. destruct (decide (rest = [])) as [->|Hne]; [done|].
    rewrite closed_end_cons in Hc by done. rewrite visit_double, elem_of_app, (IHp Hc), in_flat_map_iff by done. split.
    + intros [(p' & k' & -> & -> & Hg)|([n t] & Hin & H)]; [exists p', k'; split_and!; [done..|]; by constructor|].
      cbn [fst snd] in H. destruct (is_dir t) eqn:Et; [|by apply not_elem_of_nil in H].
      apply (IH n t Hin) in H as (p' & k' & -> & -> & Hg); [|by rewrite closed_end_cons].
      exists (n :: p'), (n :: k'). rewrite <- !app_assoc. split_and!; [done..|]. by econstructor.
    + intros (p' & k' & -> & -> & Hg). inversion Hg as [| |? ? ? ? ? Hg'|? ? n t ? p2 k2 _ Hin Et Hg']; subst; [done|done| |].
      * left. by exists p', k'.
      * right. exists (n, t). split; [done|]. cbn [fst snd]. rewrite Et. apply (IH n t Hin); [by rewrite closed_end_cons|].
        exists p2, k2. by rewrite <- !app_assoc.
  - rewrite visit_single, in_flat_map_iff by done. split.
    + intros ([n t] & Hin & H). cbn [fst snd] in H. destruct (match_component c n) as [caps|] eqn:Em; [|by apply not_elem_of_nil in H].
      destruct rest as [|r rest].
      * apply list_elem_of_singleton in H as [= -> ->]. exists [n], caps. split_and!; [done..|]. by econstructor.
      * destruct (is_dir t) eqn:Et; [|by apply not_elem_of_nil in H].
        apply (IH n t Hin) in H as (p' & k' & -> & -> & Hg); [|by rewrite closed_end_cons in Hc].
        exists (n :: p'), (caps ++ k'). rewrite <- !app_assoc. split_and!; [done..|]. by econstructor.
    + intros (p' & k' & -> & -> & Hg).
      inversion Hg as [? n t ? caps _ Hin Em|? ? n t ? p2 caps k2 _ Hin Et Em Hg'| |]; subst; [| |done|done].
      * exists (n, t). split; [done|]. cbn [fst snd]. rewrite Em. by apply list_elem_of_singleton.
      * exists (n, t). split; [done|]. cbn [fst snd]. rewrite Em, Et. pose proof (globs_nonempty _ _ _ _ Hg') as Hne.
        destruct rest as [|r rest]; [done|]. apply (IH n t Hin); [by rewrite closed_end_cons in Hc|].
        exists p2, k2. by rewrite <- !app_assoc.
Qed.

(** The walk over a directory finds exactly what the pattern describes: a
    relative pattern that parses, and does not end in a double star, returns the
    paths, with their captures, whose components the pattern's components match
    one by one, a double star standing for any number of directories. *)
Theorem walk_exact (root : host) (entries : list (bytes * host)) (pattern : bytes) (components : list WildcardComponent) :
  head pattern <> Some SLASH -> parse_glob pattern = Ok components -> closed_end components = true ->
  exists found, collect_host_matches root (Some (HDir entries)) pattern = Ok (map (pair []) found)
    /\ forall path captures, (path, captures) ∈ found <-> globs components (HDir entries) path captures.
Proof.
  intros Hrel Hp Hc. exists (visit_host_recursive (HDir entries) components [] []). split.
  - unfold collect_host_matches. rewrite bool_decide_false by done. by rewrite Hp.
  - intros path captures. rewrite visit_globs by done. split; [by intros (? & ? & -> & -> & ?)|]. by exists path, captures.
Qed.

(** A pattern that ends in a double star does not descend: the walk returns the
    direct children of the directory only, files first, whatever is below them. *)
Theorem terminal_double_shallow (i : nat) (entries : list (bytes * host)) :
  visit_host_recursive (HDir entries) [DoubleWildcard i] [] []
  = map (fun e => ([e.1], [e.1])) (List.filter (fun e => negb (is_dir e.2)) entries ++ List.filter (fun e => is_dir e.2) entries).
Proof.
  cbn [visit_host_recursive]. rewrite map_app.
  f_equal; (induction entries as [|e es IH]; [done|]; cbn [flat_map List.filter]; rewrite IH; by destruct (is_dir e.2)).
Qed.

(** * Concrete patterns and trees *)

Lemma wildcard_match_spec_witness :
  spelled (bstr "file") [bstr "."; []] (bstr "file1.txt") [bstr "1"; bstr "txt"].
Proof.
  apply (wildcard_match_spec (bstr "file") [bstr "."; []] 0 (bstr "file1.txt")); [done|vm_compute; reflexivity].
Defined.

Lemma literal_suffix_incomplete_witness :
  match_component (Wildcard [[]; bstr ".txt"] 0) (bstr ".txt.txt") = None.
Proof. apply (literal_suffix_incomplete (bstr ".txt") 0). done. Defined.

Definition ex_tree : list (bytes * host) :=
  [(bstr "root.txt", HFile); (bstr "dir1", HDir [(bstr "file1.txt", HFile); (bstr "dir2", HDir [(bstr "file2.txt", HFile)])])].
Definition ex_pattern : list WildcardComponent := [DoubleWildcard 0; Wildcard [[]; bstr ".txt"] 1].

Lemma walk_exact_witness :
  exists found, collect_host_matches HFile (Some (HDir ex_tree)) (bstr "**/*.txt") = Ok (map (pair []) found)
    /\ length found = 3%nat
    /\ globs ex_pattern (HDir ex_tree) [bstr "dir1"; bstr "dir2"; bstr "file2.txt"] [bstr "dir1"; bstr "dir2"; bstr "file2"].
Proof.
  destruct (walk_exact HFile ex_tree (bstr "**/*.txt") ex_pattern ltac:(done) ltac:(vm_compute; reflexivity) ltac:(vm_compute; reflexivity))
    as (found & E & Hf).
  exists found. split; [exact E|].
  assert (found = visit_host_recursive (HDir ex_tree) ex_pattern [] []) as ->.
  { assert (collect_host_matches HFile (Some (HDir ex_tree)) (bstr "**/*.txt")
      = Ok (map (pair []) (visit_host_recursive (HDir ex_tree) ex_pattern [] []))) as E' by (vm_compute; reflexivity).
    rewrite E in E'. apply Ok_inj in E'. apply (f_equal (map snd)) in E'. rewrite !map_map in E'. cbn [snd] in E'. by rewrite !map_id in E'. }
  split; [vm_compute; reflexivity|]. apply Hf. rewrite list_elem_of_In. vm_compute. tauto.
Defined.
