(* ===== verification/Publication.v ===== *)
(** The publication table, [crates/sync-store/src/publication.rs]: one live row
    per pond and ref, replaced by a compare-and-swap on its generation and record
    head.  The table is a Delta table shared by concurrent writers; what the code
    relies on of it is the interface [DeltaTable]. *)

From stdpp Require Import base list numbers gmap strings options.
From Stdlib Require Import ZArith Lia.
From S2P Require Import Prelude RustStd RustText.
From S2P Require Import Wire Commit.

Open Scope Z_scope.

Inductive StoreError :=
| EmptyRefName
| BadGeneration (generation : Z)
| SeveralRows (count : nat)
| BadFormat (format : bytes)
| BadHash (field : bytes)
| InitialGeneration (generation : Z)
| NextGeneration (generation expected : Z)
| ExpectedMissing (generation : Z) (record : bytes)
| ExpectedExisting
| ExpectedOther (generation : Z) (record : bytes) (found : Z) (found_record : bytes)
| DeltaError.

(** The identity of a row: the pond and the ref. *)
Abbreviation key := (bytes * bytes)%type.

Record PublicationState := {
  ps_pond_id : bytes;
  ps_ref_name : bytes;
  ps_format : bytes;
  snapshot_tip : bytes;
  ps_manifest_root : bytes;
  publication_record : bytes;
  generation : Z;
  updated_at : Z;
}.

#[export] Instance PublicationState_eq_dec : EqDecision PublicationState.
Proof. solve_decision. Defined.

Definition state_key (s : PublicationState) : key := (ps_pond_id s, ps_ref_name s).

Definition state_new (pond ref tip root record : bytes) (gen at_ : Z) : outcome StoreError PublicationState :=
  if bool_decide (ref = []) then Err EmptyRefName else
  if gen <=? 0 then Err (BadGeneration gen) else
  Ok {| ps_pond_id := pond; ps_ref_name := ref; ps_format := NATIVE_FORMAT_V2; snapshot_tip := tip;
        ps_manifest_root := root; publication_record := record; generation := gen; updated_at := at_ |}.

Inductive PublicationExpectation :=
| Missing
| Existing (generation : Z) (publication_record : bytes).

(** A row of the table; hashes are stored as hex text. *)
Record Row := {
  row_format : bytes;
  row_tip : bytes;
  row_root : bytes;
  row_record : bytes;
  row_generation : Z;
  row_updated : Z;
}.

Definition state_batch (s : PublicationState) : Row :=
  {| row_format := ps_format s; row_tip := to_hex (snapshot_tip s); row_root := to_hex (ps_manifest_root s);
     row_record := to_hex (publication_record s); row_generation := generation s; row_updated := updated_at s |}.

Definition parse_hash (value field : bytes) : outcome StoreError bytes :=
  match from_hex value with Ok h => Ok h | _ => Err (BadHash field) end.

(** What is relied on of the Delta table: the live rows of a key, and a write
    that replaces the rows of one key, made by a writer that loaded [snapshot]
    while [now] is the current table.  An optimistic write fails when the rows of
    its key changed in between, and otherwise changes that key only.  A
    checkpoint does not change the rows. *)
Class DeltaTable := {
  table : Type;
  rows : table -> key -> list Row;
  replace_where : table -> table -> key -> Row -> option table;
  checkpoint_fails : table -> bool;
  replace_rows snapshot now k r t : replace_where snapshot now k r = Some t -> rows t k = [r];
  replace_other snapshot now k r t k' : replace_where snapshot now k r = Some t -> k' <> k -> rows t k' = rows now k';
  replace_conflict snapshot now k r t : replace_where snapshot now k r = Some t -> rows now k = rows snapshot k;
}.

Section Table.
Context `{DeltaTable}.

Definition checkpoint (t : table) : outcome StoreError unit := if checkpoint_fails t then Err DeltaError else Ok tt.

Definition get (t : table) (k : key) : outcome StoreError (option PublicationState) :=
  match rows t k with
  | [] => Ok None
  | [r] =>
      if negb (bool_decide (row_format r = NATIVE_FORMAT_V2)) then Err (BadFormat (row_format r)) else
      tip ← parse_hash (row_tip r) (bstr "snapshot_tip");
      root ← parse_hash (row_root r) (bstr "manifest_root");
      record ← parse_hash (row_record r) (bstr "publication_record");
      s ← state_new k.1 k.2 tip root record (row_generation r) (row_updated r);
      Ok (Some s)
  | l => Err (SeveralRows (length l))
  end.

(** [generation + 1] overflows for the largest generation. *)
Definition next_generation (g : Z) : outcome StoreError Z := if g =? 2 ^ 63 - 1 then Panic else Ok (g + 1).

(** The match of [compare_and_swap]: whether to write ([true]), or the row is
    already there ([false]). *)
Definition cas_decide (expectation : PublicationExpectation) (current : option PublicationState) (next : PublicationState)
  : outcome StoreError bool :=
  match expectation, current with
  | Missing, None => if negb (generation next =? 1) then Err (InitialGeneration (generation next)) else Ok true
  | Missing, Some cur =>
      if bool_decide (cur = next) then Ok false else Err (ExpectedMissing (generation cur) (publication_record cur))
  | Existing _ _, None => Err ExpectedExisting
  | Existing g r, Some cur =>
      if (generation cur =? g) && bool_decide (publication_record cur = r) then
        g1 ← next_generation g;
        if negb (generation next =? g1) then Err (NextGeneration (generation next) g1) else Ok true
      else if bool_decide (cur = next) then Ok false
      else Err (ExpectedOther g r (generation cur) (publication_record cur))
  end.

(** The first half: refresh, read and decide.  [Some] is the loaded table to
    write against. *)
Definition cas_prepare (now : table) (expectation : PublicationExpectation) (next : PublicationState)
  : outcome StoreError (option table) :=
  current ← get now (state_key next);
  write ← cas_decide expectation current next;
  if write : bool then Ok (Some now) else _ ← checkpoint now; Ok None.

(** The second half: the write and the checkpoint.  A failed checkpoint is
    reported although the row is visible. *)
Definition cas_commit (snapshot now : table) (next : PublicationState) : outcome StoreError PublicationState * table :=
  match replace_where snapshot now (state_key next) (state_batch next) with
  | None => (Err DeltaError, now)
  | Some t => (_ ← checkpoint t; Ok next, t)
  end.

(** A [compare_and_swap] no other writer comes between. *)
Definition compare_and_swap (now : table) (expectation : PublicationExpectation) (next : PublicationState)
  : outcome StoreError PublicationState * table :=
  match cas_prepare now expectation next with
  | Ok (Some snapshot) => cas_commit snapshot now next
  | Ok None => (Ok next, now)
  | Err e => (Err e, now)
  | Panic => (Panic, now)
  end.
End Table.

(** * Quoting *)

Definition QUOTE : byte := Byte.x27.

Definition sql_escape (value : bytes) : bytes :=
  flat_map (fun c => if bool_decide (c = QUOTE) then [QUOTE; QUOTE] else [c]) value.

(** Reading an SQL string literal behind its opening quote: a doubled quote is a
    quote, a single one ends it. *)
Fixpoint read_literal (s : bytes) : option (bytes * bytes) :=
  match s with
  | [] => None
  | c :: s =>
      if bool_decide (c = QUOTE) then
        match s with
        | c' :: s' => if bool_decide (c' = QUOTE) then '(v, r) ← read_literal s'; Some (QUOTE :: v, r) else Some ([], s)
        | [] => Some ([], [])
        end
      else '(v, r) ← read_literal s; Some (c :: v, r)
  end.

(** A value put between quotes reads back as itself, and what follows it is not
    read as part of it: no value can break out of its literal. *)
Theorem sql_literal_safe (value rest : bytes) :
  head rest <> Some QUOTE -> read_literal (sql_escape value ++ QUOTE :: rest) = Some (value, rest).
Proof.
  intros Hr. induction value as [|c value IH].
  - cbn [sql_escape flat_map app read_literal]. rewrite bool_decide_true by done. destruct rest as [|c rest]; [done|]. rewrite bool_decide_false; [done|].
    intros ->. by apply Hr.
  - unfold sql_escape in *. cbn [flat_map]. case_bool_decide as Hc.
    + subst c. cbn [app read_literal]. rewrite bool_decide_true by done. by rewrite IH.
    + cbn [app read_literal]. rewrite bool_decide_false by done. by rewrite IH.
Qed.

(** * Histories *)

(** The states the code writes: made by [state_new] from well-formed hashes. *)
Definition wf_published (s : PublicationState) : bool :=
  negb (bool_decide (ps_ref_name s = [])) && bool_decide (ps_format s = NATIVE_FORMAT_V2) && (0 <? generation s)
  && wf_hash (snapshot_tip s) && wf_hash (ps_manifest_root s) && wf_hash (publication_record s).

Section Histories.
Context `{DeltaTable}.

Lemma parse_hash_hex h f : wf_hash h = true -> parse_hash (to_hex h) f = Ok h.
Proof using. intros Hh. unfold parse_hash. by rewrite (proj1 (object_hash_hex h []) Hh). Qed.

(** A published row reads back as the state that was written. *)
Lemma get_published t s : wf_published s = true -> rows t (state_key s) = [state_batch s] -> get t (state_key s) = Ok (Some s).
Proof using.
  unfold wf_published. rewrite !andb_true_iff, negb_true_iff, bool_decide_eq_false, bool_decide_eq_true, Z.ltb_lt.
  intros (((((Hr & Hf) & Hg) & H1) & H2) & H3) Hrows. unfold get. rewrite Hrows.
  cbn [row_format row_tip row_root row_record row_generation row_updated state_batch].
  rewrite Hf, bool_decide_true by done. cbn [negb]. rewrite !parse_hash_hex by done. cbn [mbind outcome_bind state_key fst snd].
  unfold state_new. rewrite bool_decide_false by done. replace (generation s <=? 0) with false by lia.
  cbn [mbind outcome_bind]. destruct s. cbn in *. by subst.
Qed.

(** The writers: each has decided against a table it loaded and not yet written. *)
Definition pending : Type := table * PublicationExpectation * PublicationState.

(** Any interleaving of writers: loads, writes that succeed, writes that lose and
    writers that disappear.  [log] is the states written, newest first, with the
    expectation each was written under. *)
Inductive run (t0 : table) : table -> list pending -> list (PublicationExpectation * PublicationState) -> Prop :=
| run_start : run t0 t0 [] []
| run_prepare t ps log e next s :
    run t0 t ps log -> wf_published next = true -> cas_prepare t e next = Ok (Some s) -> run t0 t ((s, e, next) :: ps) log
| run_write t ps ps1 ps2 log s e next r t' :
    run t0 t ps log -> ps = ps1 ++ (s, e, next) :: ps2 -> cas_commit s t next = (r, t') ->
    replace_where s t (state_key next) (state_batch next) <> None -> run t0 t' (ps1 ++ ps2) ((e, next) :: log)
| run_drop t ps ps1 ps2 log p :
    run t0 t ps log -> ps = ps1 ++ p :: ps2 -> run t0 t (ps1 ++ ps2) log.

Definition of_key (k : key) (log : list (PublicationExpectation * PublicationState)) :=
  List.filter (fun p => bool_decide (state_key p.2 = k)) log.

(** A history of one key: every state was written over the one its expectation
    names, with the next generation. *)
Fixpoint chain (log : list (PublicationExpectation * PublicationState)) : Prop :=
  match log with
  | [] => True
  | (e, s) :: older =>
      match older with
      | [] => e = Missing /\ generation s = 1
      | (_, prev) :: _ => e = Existing (generation prev) (publication_record prev) /\ generation s = generation prev + 1
      end /\ chain older
  end.

Definition live (t : table) (k : key) (log : list (PublicationExpectation * PublicationState)) : Prop :=
  rows t k = match of_key k log with [] => [] | (_, s) :: _ => [state_batch s] end.

(** What a waiting writer decided was true of the table it loaded. *)
Definition decided (p : pending) : Prop :=
  let '(s, e, next) := p in
  wf_published next = true /\ exists current, get s (state_key next) = Ok current /\ cas_decide e current next = Ok true.

Lemma cas_prepare_decided t e next s : wf_published next = true -> cas_prepare t e next = Ok (Some s) -> decided (s, e, next) /\ s = t.
Proof using.
  intros Hwf H0. unfold cas_prepare in H0. apply bind_Ok in H0 as (cur & Hg & H0). apply bind_Ok in H0 as (w & Hd & H0).
  destruct w; [injection H0 as <-|by apply bind_Ok in H0 as (? & _ & ?)]. split; [|done]. split; [done|]. by exists cur.
Qed.

Lemma decide_write e cur next : cas_decide e cur next = Ok true ->
  match cur with
  | None => e = Missing /\ generation next = 1
  | Some c => e = Existing (generation c) (publication_record c) /\ generation next = generation c + 1
  end.
Proof using.
  destruct e as [|g r], cur as [c|]; cbn [cas_decide]; try done.
  - by case_bool_decide.
  - destruct (Z.eqb_spec (generation next) 1); done.
  - destruct (Z.eqb_spec (generation c) g) as [Hg|]; cbn [andb]; [|by case_bool_decide].
    destruct (bool_decide_reflect (publication_record c = r)) as [Hr|]; [|by case_bool_decide]. unfold next_generation. destruct (g =? 2 ^ 63 - 1); [done|]. cbn [mbind outcome_bind].
    destruct (Z.eqb_spec (generation next) (g + 1)); [|done]. intros _. subst. done.
Qed.

Lemma get_rows_eq t1 t2 k : rows t1 k = rows t2 k -> get t1 k = get t2 k.
Proof using. intros E. unfold get. by rewrite E. Qed.

Lemma run_inv t0 t ps log : (forall k, rows t0 k = []) -> run t0 t ps log ->
  (forall k, live t k log) /\ Forall decided ps /\ Forall (fun p => wf_published p.2 = true) log
  /\ forall k, chain (of_key k log).
Proof using.
  intros H0. induction 1 as [|t ps log e next s Hrun IH Hwf Hp|t ps ps1 ps2 log s e next r t' Hrun IH -> Hc Hw|t ps ps1 ps2 log p Hrun IH ->].
  - split_and!; [intros k; apply H0|constructor|constructor|done].
  - destruct IH as (L & D & W & C). split_and!; [done| |done|done]. constructor; [|done].
    by apply (cas_prepare_decided t e next s).
  - destruct IH as (L & D & W & C). apply Forall_app in D as [D1 D2]. apply Forall_cons in D2 as [[Hwf (cur & Hg & Hd)] D2].
    unfold cas_commit in Hc. destruct (replace_where s t (state_key next) (state_batch next)) as [u|] eqn:Eu; [|done].
    injection Hc as _ <-. pose proof (replace_conflict _ _ _ _ _ Eu) as Hsame. apply decide_write in Hd.
    rewrite (get_rows_eq s t) in Hg by done. pose proof (L (state_key next)) as Lk. unfold live in Lk.
    split_and!.
    + intros k. unfold live, of_key. cbn [List.filter snd]. case_bool_decide as Hk.
      * subst k. by apply (replace_rows _ _ _ _ _ Eu).
      * rewrite (replace_other _ _ _ _ _ k Eu) by congruence. apply L.
    + by apply Forall_app.
    + by constructor.
    + intros k. unfold of_key. cbn [List.filter snd]. case_bool_decide as Hk; [|apply C]. subst k.
      fold (of_key (state_key next) log). specialize (C (state_key next)). split; [|done].
      destruct (of_key (state_key next) log) as [|[e' prev] older] eqn:Eo.
      * unfold get in Hg. rewrite Lk in Hg. by injection Hg as <-.
      * assert (In (e', prev) (of_key (state_key next) log)) as Hin by (rewrite Eo; by left).
        apply filter_In in Hin as [Hin Hkey]. apply bool_decide_eq_true in Hkey. cbn [snd] in Hkey.
        rewrite Forall_forall in W. apply list_elem_of_In in Hin. specialize (W _ Hin). cbn [snd] in W.
        rewrite <- Hkey in Lk, Hg. rewrite (get_published t prev W Lk) in Hg. by injection Hg as <-.
  - destruct IH as (L & D & W & C). apply Forall_app in D as [D1 D2]. apply Forall_cons in D2 as [_ D2].
    split_and!; try done. by apply Forall_app.
Qed.

(** C7: Publication never forks: under every interleaving of writers on a table that
    starts empty, the states written to a ref form a chain of generations 1, 2, 3
    and so on in which each was written over the very state its writer expected,
    and the table's live row of the ref reads back as the last of them. *)
Theorem publication_chain (t0 t : table) (ps : list pending) (log : list (PublicationExpectation * PublicationState)) (k : key) :
  (forall k, rows t0 k = []) -> run t0 t ps log ->
  chain (of_key k log)
  /\ get t k = Ok (match of_key k log with [] => None | (_, s) :: _ => Some s end).
Proof using.
  intros H0 Hr. destruct (run_inv t0 t ps log H0 Hr) as (L & D & W & C). split; [apply C|].
  specialize (L k). unfold live in L. destruct (of_key k log) as [|[e s] older] eqn:Eo; [unfold get; by rewrite L|].
  assert (In (e, s) (of_key k log)) as Hin by (rewrite Eo; by left).
  apply filter_In in Hin as [Hin Hk]. apply bool_decide_eq_true in Hk. cbn [snd] in Hk. subst k.
  rewrite Forall_forall in W. apply list_elem_of_In in Hin. by apply get_published; [apply (W _ Hin)|].
Qed.

(** Publishing again after a lost answer: once a write is visible, whether or not
    its checkpoint succeeded, repeating the same call changes nothing and
    succeeds as soon as the checkpoint does. *)
Theorem publication_retry (t s t' : table) (e : PublicationExpectation) (next : PublicationState) :
  wf_published next = true -> cas_prepare t e next = Ok (Some s) ->
  replace_where s t (state_key next) (state_batch next) = Some t' ->
  compare_and_swap t e next = ((if checkpoint_fails t' then Err DeltaError else Ok next), t')
  /\ compare_and_swap t' e next = ((if checkpoint_fails t' then Err DeltaError else Ok next), t').
Proof using.
  intros Hwf Hp Hw. destruct (cas_prepare_decided t e next s Hwf Hp) as [(_ & cur & Hg & Hd) ->].
  unfold compare_and_swap at 1. rewrite Hp. unfold cas_commit, checkpoint. rewrite Hw.
  split; [by destruct (checkpoint_fails t')|].
  assert (get t' (state_key next) = Ok (Some next)) as Hg' by (apply get_published; [done|]; by eapply replace_rows).
  assert (cas_decide e (Some next) next = Ok false) as Hd'.
  { apply decide_write in Hd. destruct cur as [c|], Hd as [-> Hgen]; cbn [cas_decide]; [|by rewrite bool_decide_true].
    destruct (Z.eqb_spec (generation next) (generation c)); [lia|]. cbn [andb]. by rewrite bool_decide_true. }
  unfold compare_and_swap, cas_prepare. rewrite Hg'. cbn [mbind outcome_bind]. rewrite Hd'. cbn [mbind outcome_bind].
  unfold checkpoint. by destruct (checkpoint_fails t').
Qed.
End Histories.

(** * A concrete table *)

#[export] Instance Row_eq_dec : EqDecision Row.
Proof. solve_decision. Defined.

Definition ex_replace (s now : key -> list Row) (k : key) (r : Row) : option (key -> list Row) :=
  if decide (now k = s k) then Some (fun k' => if decide (k' = k) then [r] else now k') else None.

#[export] Instance ex_delta : DeltaTable.
Proof.
  refine {| table := key -> list Row; rows t k := t k; replace_where := ex_replace; checkpoint_fails _ := false |};
    intros s now k r t; [|intros k'|]; unfold ex_replace; destruct (decide (now k = s k)) as [E|]; try done; intros [= <-].
  - by rewrite decide_True.
  - intros Hk. by rewrite decide_False.
Defined.

Definition ex_empty : table := fun _ => [].
Definition ex_state (g : Z) (b : byte) : PublicationState :=
  {| ps_pond_id := bstr "pond"; ps_ref_name := bstr "main"; ps_format := NATIVE_FORMAT_V2; snapshot_tip := repeat b 32;
     ps_manifest_root := repeat b 32; publication_record := repeat b 32; generation := g; updated_at := 7 |}.
Definition ex_key : key := (bstr "pond", bstr "main").
Definition ex_table (s : PublicationState) : table := fun k => if decide (k = ex_key) then [state_batch s] else [].
Definition ex_log : list (PublicationExpectation * PublicationState) :=
  [(Existing 1 (repeat Byte.x01 32), ex_state 2 Byte.x03); (Missing, ex_state 1 Byte.x01)].

Definition ex_after (t : table) (s : PublicationState) : table := (cas_commit t t s).2.
Definition ex_t1 : table := ex_after ex_empty (ex_state 1 Byte.x01).
Definition ex_t2 : table := ex_after ex_t1 (ex_state 2 Byte.x03).

(** Two writers load the empty table; the first publishes, the second gives up; a
    third publishes the next generation. *)
Lemma ex_publication_run : run ex_empty ex_t2 [] ex_log.
Proof.
  assert (run ex_empty ex_t1 [(ex_empty, Missing, ex_state 1 Byte.x02)] [(Missing, ex_state 1 Byte.x01)]) as R1.
  { apply (run_write ex_empty ex_empty [(ex_empty, Missing, ex_state 1 Byte.x01); (ex_empty, Missing, ex_state 1 Byte.x02)]
      [] [(ex_empty, Missing, ex_state 1 Byte.x02)] [] ex_empty Missing (ex_state 1 Byte.x01)
      (Ok (ex_state 1 Byte.x01)) ex_t1); [|done|reflexivity|vm_compute; discriminate].
    apply run_prepare; [|vm_compute; reflexivity|vm_compute; reflexivity].
    apply run_prepare; [constructor|vm_compute; reflexivity|vm_compute; reflexivity]. }
  assert (run ex_empty ex_t1 [] [(Missing, ex_state 1 Byte.x01)]) as R2
    by (apply (run_drop ex_empty ex_t1 [(ex_empty, Missing, ex_state 1 Byte.x02)] [] [] _ (ex_empty, Missing, ex_state 1 Byte.x02) R1); done).
  apply (run_write ex_empty ex_t1 [(ex_t1, Existing 1 (repeat Byte.x01 32), ex_state 2 Byte.x03)] [] [] [(Missing, ex_state 1 Byte.x01)] ex_t1 (Existing 1 (repeat Byte.x01 32))
    (ex_state 2 Byte.x03) (Ok (ex_state 2 Byte.x03)) ex_t2); [|done|reflexivity|vm_compute; discriminate].
  apply run_prepare; [exact R2|vm_compute; reflexivity|vm_compute; reflexivity].
Qed.

Lemma publication_chain_witness : chain ex_log /\ get ex_t2 ex_key = Ok (Some (ex_state 2 Byte.x03)).
Proof.
  assert (of_key ex_key ex_log = ex_log) as E by (vm_compute; reflexivity).
  rewrite <- E at 1. refine (match publication_chain ex_empty ex_t2 [] ex_log ex_key _ ex_publication_run with conj a b => conj a _ end); [done|].
  rewrite b, E. reflexivity.
Defined.

Lemma publication_retry_witness :
  compare_and_swap ex_t1 Missing (ex_state 1 Byte.x01) = (Ok (ex_state 1 Byte.x01), ex_t1).
Proof.
  refine (proj2 (publication_retry ex_empty ex_empty ex_t1 Missing (ex_state 1 Byte.x01) _ _ _)); [vm_compute; reflexivity|reflexivity|reflexivity].
Defined.

Lemma sql_literal_safe_witness :
  read_literal (sql_escape (bstr "o'brien") ++ QUOTE :: bstr " AND 1") = Some (bstr "o'brien", bstr " AND 1").
Proof. apply (sql_literal_safe (bstr "o'brien") (bstr " AND 1")). done. Defined.
