(* ===== verification/RemoteStore.v ===== *)
(** The object store beneath the content remote,
    [crates/sync-store/src/content_remote.rs], and the programs that use it.

    The remote's operations are sequences of requests to an object store, each
    request atomic at the store and each able to fail, with other processes'
    requests in between.  A [prog] is such a sequence: a tree of [call]s, each
    continued by the store's reply.  The store itself (the object_store crate
    and the provider behind it) is a parameter: the class [ObjectStore] gives
    the replies a request may get in a state, and its law [obeys] is the
    documented contract of the trait (conditional create, unconditional put,
    copy-if-absent, multipart uploads visible only on completion), with every
    request allowed to fail, and a failed write allowed to have happened.

    The second half is a small rely/guarantee logic for such programs: [wp]
    follows one thread through any interference the other threads' guarantee
    allows, and [pool_sound] puts the threads together. *)

From stdpp Require Import base list gmap numbers strings option relations options.
From Stdlib Require Import ZArith Lia.
From S2P Require Import Prelude RustStd Wire Tree Manifest Commit Capsule.

(** * Errors *)

(** [StoreError::Invariant(format!(..))]: the message's fixed text; the errors
    of the content library it interpolates; and a failure whose clean-up failed too. *)
Inductive rerror :=
| Invariant (what : string)
| ContentErr (e : cerror)
| CapsuleErr (e : cap_error)
| Both (e cleanup : rerror).

Abbreviation rres := (outcome rerror).

(** [object_store::Error], as the code tells them apart. *)
Inductive oerror := ONotFound | OAlreadyExists | OOther.

#[export] Instance oerror_eq_dec : EqDecision oerror.
Proof. solve_decision. Defined.

(** * Objects and requests *)

Record obj := { o_bytes : bytes; o_etag : option bytes; o_version : option bytes; o_modified : Z }.

(** [ObjectMeta]. *)
Record ObjectMeta := { m_location : bytes; m_size : Z; m_etag : option bytes; m_version : option bytes; m_modified : Z }.

(** [GetResult]: the metadata and the body's chunks, up to an error when the body is incomplete. *)
Record GetResult := { g_meta : ObjectMeta; g_chunks : list bytes; g_complete : bool }.

(** [PutResult]. *)
Record PutResult := { p_etag : option bytes; p_version : option bytes }.

(** A [MultipartUpload] handle: the destination and the parts in the order of [put_part]. *)
Record upload := { u_path : bytes; u_parts : list bytes }.

Inductive call :=
| CGet (p : bytes)
| CHead (p : bytes)
| CPut (p b : bytes)
| CCreate (p b : bytes)
| CCopyIfAbsent (src dst : bytes)
| CDelete (p : bytes)
| CList (prefix : bytes)
| CMultipart (p : bytes)
| CPart (u : upload)
| CComplete (u : upload)
| CAbort (u : upload)
| CNow
| CUuid.

Definition reply (c : call) : Type :=
  match c with
  | CGet _ => outcome oerror GetResult
  | CHead _ => outcome oerror ObjectMeta
  | CPut _ _ | CCreate _ _ => outcome oerror PutResult
  | CList _ => list (outcome oerror ObjectMeta)
  | CNow => Z
  | CUuid => bytes
  | _ => outcome oerror unit
  end.

(** The store's objects, and which thread drew each identifier of [Uuid::new_v4]. *)
Record world := { objs : gmap bytes obj; issued : gmap bytes nat }.

Definition meta_of (p : bytes) (o : obj) : ObjectMeta :=
  {| m_location := p; m_size := Z.of_nat (length (o_bytes o)); m_etag := o_etag o; m_version := o_version o; m_modified := o_modified o |}.

Definition put_result (o : obj) : PutResult := {| p_etag := o_etag o; p_version := o_version o |}.

(** Sizes are [u64] and tags are [String]s. *)
Definition typed (o : obj) : Prop :=
  is_u64 (Z.of_nat (length (o_bytes o))) = true /\ opt_all utf8_valid (o_etag o) = true /\ opt_all utf8_valid (o_version o) = true.

(** A path lies beneath a prefix of whole segments. *)
Definition beneath (prefix p : bytes) : Prop := exists rest, p = prefix ++ Byte.x2f :: rest.

(** A write of the bytes at a path, with whatever tags the provider chooses. *)
Definition put_at (p b : bytes) (o : obj) (m m' : gmap bytes obj) : Prop :=
  o_bytes o = b /\ typed o /\ m' = <[p := o]> m.

(** A failed write has happened or has not. *)
Definition perhaps (m m' : gmap bytes obj) (P : Prop) : Prop := m' = m \/ P.

(** What a thread may see of one request: the documented contract of the store. *)
Definition contract (t : nat) (c : call) : world -> reply c -> world -> Prop :=
  match c return world -> reply c -> world -> Prop with
  | CGet p => fun w r w' => w' = w /\
      match r with
      | Ok g => exists o, objs w !! p = Some o /\ g_meta g = meta_of p o /\ (g_complete g = true -> concat (g_chunks g) = o_bytes o)
      | Err ONotFound => objs w !! p = None
      | _ => True
      end
  | CHead p => fun w r w' => w' = w /\
      match r with
      | Ok m => exists o, objs w !! p = Some o /\ m = meta_of p o
      | Err ONotFound => objs w !! p = None
      | _ => True
      end
  | CPut p b => fun w r w' => issued w' = issued w /\
      match r with
      | Ok pr => exists o, put_at p b o (objs w) (objs w') /\ pr = put_result o
      | _ => perhaps (objs w) (objs w') (exists o, put_at p b o (objs w) (objs w'))
      end
  | CCreate p b => fun w r w' => issued w' = issued w /\
      match r with
      | Ok pr => objs w !! p = None /\ exists o, put_at p b o (objs w) (objs w') /\ pr = put_result o
      | Err OAlreadyExists => objs w !! p <> None /\ objs w' = objs w
      | _ => perhaps (objs w) (objs w') (objs w !! p = None /\ exists o, put_at p b o (objs w) (objs w'))
      end
  | CCopyIfAbsent src dst => fun w r w' => issued w' = issued w /\
      let copied := objs w !! dst = None /\ exists s o, objs w !! src = Some s /\ put_at dst (o_bytes s) o (objs w) (objs w') in
      match r with
      | Ok _ => copied
      | Err OAlreadyExists => objs w !! dst <> None /\ objs w' = objs w
      | _ => perhaps (objs w) (objs w') copied
      end
  | CDelete p => fun w r w' => issued w' = issued w /\
      match r with
      | Ok _ => objs w' = delete p (objs w)
      | _ => perhaps (objs w) (objs w') (objs w' = delete p (objs w))
      end
  | CList prefix => fun w r w' => w' = w /\
      (forall m, Ok m ∈ r -> beneath prefix (m_location m) /\ exists o, objs w !! m_location m = Some o /\ m = meta_of (m_location m) o) /\
      ((forall x, x ∈ r -> is_ok x = true) -> forall p o, beneath prefix p -> objs w !! p = Some o -> Ok (meta_of p o) ∈ r) /\
      NoDup (m_location <$> omap (fun x => match x with Ok m => Some m | _ => None end) r)
  | CComplete u => fun w r w' => issued w' = issued w /\
      match r with
      | Ok _ => exists o, put_at (u_path u) (concat (u_parts u)) o (objs w) (objs w')
      | _ => perhaps (objs w) (objs w') (exists o, put_at (u_path u) (concat (u_parts u)) o (objs w) (objs w'))
      end
  | CUuid => fun w u w' => objs w' = objs w /\ issued w !! u = None /\ issued w' = <[u := t]> (issued w)
  | CMultipart _ | CPart _ | CAbort _ | CNow => fun w _ w' => w' = w
  end.

(** The store: which replies each request of each thread may get, within the contract. *)
Class ObjectStore := {
  serves : nat -> forall c, world -> reply c -> world -> Prop;
  obeys : forall t c w r w', serves t c w r w' -> contract t c w r w';
}.

(** * Programs *)

Inductive prog (A : Type) :=
| Ret (r : rres A)
| Do (c : call) (k : reply c -> prog A).
Arguments Ret {A} r.
Arguments Do {A} c k.

(** Continue with the result, success or not. *)
Fixpoint catch {A B} (p : prog A) (f : rres A -> prog B) : prog B :=
  match p with
  | Ret r => f r
  | Do c k => Do c (fun x => catch (k x) f)
  end.

(** [?]: errors and panics end the program. *)
Definition propagate {A B} (f : A -> prog B) (r : rres A) : prog B :=
  match r with
  | Ok a => f a
  | Err e => Ret (Err e)
  | Panic => Ret Panic
  end.

#[export] Instance prog_ret : MRet prog := fun A a => Ret (Ok a).
#[export] Instance prog_bind : MBind prog := fun A B f p => catch p (propagate f).

Definition invoke (c : call) : prog (reply c) := Do c (fun x => Ret (Ok x)).
Definition pure {A} (r : rres A) : prog A := Ret r.
Definition abort {A} (e : rerror) : prog A := Ret (Err e).
Definition failing {A} (what : string) : prog A := abort (Invariant what).

(** [.map_err(StoreError::Invariant)] on the content library's results. *)
Definition content {A} (r : res A) : rres A := map_err ContentErr r.
Definition capsule {A} (r : cres A) : rres A := map_err CapsuleErr r.

(** [for x in xs { .. }] threading an accumulator. *)
Fixpoint for_each {A B} (f : B -> A -> prog B) (acc : B) (xs : list A) : prog B :=
  match xs with
  | [] => mret acc
  | x :: xs => acc ← f acc x; for_each f acc xs
  end.

(** ** Programs that write nothing *)

Definition read_call (c : call) : Prop := match c with CGet _ | CHead _ | CList _ | CNow => True | _ => False end.

Fixpoint reads {A} (p : prog A) : Prop :=
  match p with
  | Ret _ => True
  | Do c k => read_call c /\ forall r, reads (k r)
  end.

Lemma read_call_same t c w r w' : read_call c -> contract t c w r w' -> w' = w.
Proof. destruct c; try done; intros _ Hc; try apply Hc. Qed.

Lemma reads_catch {A B} (p : prog A) (f : rres A -> prog B) : reads p -> (forall r, reads (f r)) -> reads (catch p f).
Proof. intros Hp Hf. induction p as [r|c k IH]; [apply Hf|]. destruct Hp as [Hc Hk]. split; [done|]. intros r. by apply IH. Qed.

Lemma reads_bind {A B} (p : prog A) (f : A -> prog B) : reads p -> (forall a, reads (f a)) -> reads (p ≫= f).
Proof. intros Hp Hf. apply reads_catch; [done|]. by intros [a|e|]; [apply Hf|..]. Qed.

Lemma reads_for_each {A B} (f : B -> A -> prog B) acc xs : (forall acc x, reads (f acc x)) -> reads (for_each f acc xs).
Proof. intros Hf. revert acc. induction xs as [|x xs IH]; intros acc; [done|]. by apply reads_bind. Qed.

(** * Threads *)

(** One request of one thread of the pool. *)
Inductive pool_step `{ObjectStore} {A} : list (prog A) * world -> list (prog A) * world -> Prop :=
| pool_call t c k rep ps w w' :
    ps !! t = Some (Do c k) -> serves t c w rep w' ->
    pool_step (ps, w) (<[t := k rep]> ps, w').

Lemma pool_length `{ObjectStore} {A} (c c' : list (prog A) * world) : rtc pool_step c c' -> length c'.1 = length c.1.
Proof. induction 1 as [|c1 c2 c3 Hs _ IH]; [done|]. rewrite IH. inversion Hs; subst. simpl. by rewrite length_insert. Qed.

Section Logic.
(** The invariant of the store, and what one request of a thread may change. *)
Context (I : world -> Prop) (G : nat -> world -> world -> Prop).

Definition rely (t : nat) : world -> world -> Prop := rtc (fun w w' => exists t', t' <> t /\ G t' w w').

#[export] Instance rely_preorder t : PreOrder (rely t).
Proof. unfold rely. apply _. Qed.

(** From [w], whatever the other threads do before each request, the thread keeps the
    invariant and the guarantee, and the result it returns satisfies [Q]. *)
Fixpoint wp {A} (t : nat) (p : prog A) (Q : rres A -> world -> Prop) (w : world) : Prop :=
  match p with
  | Ret r => Q r w
  | Do c k => forall w1 rep w2, rely t w w1 -> I w1 -> contract t c w1 rep w2 -> (I w2 /\ G t w1 w2) /\ wp t (k rep) Q w2
  end.

(** What holds when the program succeeds. *)
Definition on_ok {A} (P : A -> world -> Prop) (r : rres A) (w : world) : Prop :=
  match r with Ok a => P a w | _ => True end.

Lemma wp_mono {A} t (p : prog A) (Q R : rres A -> world -> Prop) w :
  wp t p Q w -> (forall r w', Q r w' -> R r w') -> wp t p R w.
Proof.
  intros Hp HQ. revert w Hp. induction p as [r|c k IH]; intros w Hp; [by apply HQ|].
  intros w1 rep w2 Hr HI Hc. destruct (Hp w1 rep w2 Hr HI Hc) as [Hg Hk]. split; [done|]. by apply IH.
Qed.

Lemma wp_catch {A B} t (p : prog A) (f : rres A -> prog B) Q w :
  wp t p (fun r w' => wp t (f r) Q w') w -> wp t (catch p f) Q w.
Proof.
  revert w. induction p as [r|c k IH]; intros w Hp; [done|].
  intros w1 rep w2 Hr HI Hc. destruct (Hp w1 rep w2 Hr HI Hc) as [Hg Hk]. split; [done|]. by apply IH.
Qed.

Lemma wp_bind {A B} t (p : prog A) (f : A -> prog B) P Q w :
  wp t p (on_ok P) w -> (forall a w', P a w' -> wp t (f a) (on_ok Q) w') -> wp t (p ≫= f) (on_ok Q) w.
Proof.
  intros Hp Hf. apply wp_catch. eapply wp_mono; [exact Hp|]. intros [a|e|] w' Hr; [by apply Hf|done|done].
Qed.

Lemma wp_ok {A} t (p : prog A) (P Q : A -> world -> Prop) w :
  wp t p (on_ok P) w -> (forall a w', P a w' -> Q a w') -> wp t p (on_ok Q) w.
Proof. intros Hp HPQ. eapply wp_mono; [exact Hp|]. intros [a|e|] w' Hr; [by apply HPQ|done|done]. Qed.

(** A program that writes nothing keeps every invariant. *)
Lemma wp_reads {A} t (p : prog A) (Q : A -> world -> Prop) w :
  (forall t w, G t w w) -> reads p -> (forall a w, Q a w) -> wp t p (on_ok Q) w.
Proof.
  intros HG Hp HQ. revert w. induction p as [r|c k IH]; intros w; [destruct r; simpl; auto|]. destruct Hp as [Hc Hk].
  intros w1 rep w2 Hr HI Hcon. apply read_call_same in Hcon as ->; [|done]. split; [split; [done|apply HG]|]. by apply IH.
Qed.

(** A computation without requests. *)
Lemma wp_pure {A} t (r : rres A) (Q : A -> world -> Prop) w : (forall a, r = Ok a -> Q a w) -> wp t (pure r) (on_ok Q) w.
Proof. destruct r; simpl; auto. Qed.

(** A loop, with an invariant of the accumulator and the elements still to come. *)
Lemma wp_for_each {A B} t (f : B -> A -> prog B) (J : B -> list A -> world -> Prop) acc xs w :
  J acc xs w ->
  (forall acc x xs w, J acc (x :: xs) w -> wp t (f acc x) (on_ok (fun acc' w' => J acc' xs w')) w) ->
  wp t (for_each f acc xs) (on_ok (fun acc' w' => J acc' [] w')) w.
Proof.
  intros HJ Hf. revert acc w HJ. induction xs as [|x xs IH]; intros acc w HJ; [exact HJ|].
  eapply wp_bind; [by apply Hf|]. intros acc' w' HJ'. by apply IH.
Qed.

(** Facts no step undoes survive the program. *)
Lemma wp_frame {A} t (p : prog A) (P : world -> Prop) Q w :
  (forall t' w w', G t' w w' -> P w -> P w') -> P w -> wp t p Q w -> wp t p (fun r w' => Q r w' /\ P w') w.
Proof.
  intros HP. revert w. induction p as [r|c k IH]; intros w Hw Hp; [done|].
  intros w1 rep w2 Hr HI Hc. destruct (Hp w1 rep w2 Hr HI Hc) as [[HI2 HG] Hk]. split; [done|]. apply IH; [|done].
  eapply HP; [exact HG|]. clear -HP Hw Hr. induction Hr as [|w w1 w2 (t' & _ & Hs) _ IH]; [done|]. apply IH. by eapply HP.
Qed.

Lemma rely_one t t' w w' : t' <> t -> G t' w w' -> rely t w w'.
Proof. intros Ht HG. apply rtc_once. by exists t'. Qed.

Context `{ObjectStore}.

(** The world changes by the threads' guarantees only. *)
Definition moves : world -> world -> Prop := rtc (fun w w' => exists t, G t w w').

(** The threads together: what each of them is proved to do alone, it does in the pool. *)
Lemma pool_sound {A} (Q : nat -> rres A -> world -> Prop) (ps ps' : list (prog A)) w w' :
  (forall t r w w', Q t r w -> rely t w w' -> Q t r w') ->
  I w -> (forall t p, ps !! t = Some p -> wp t p (Q t) w) ->
  rtc pool_step (ps, w) (ps', w') ->
  I w' /\ moves w w' /\ (forall t p, ps' !! t = Some p -> wp t p (Q t) w').
Proof.
  intros HQ HI Hps Hrun. remember (ps, w) as c0 eqn:E0. remember (ps', w') as c1 eqn:E1.
  revert ps w HI Hps E0 E1. induction Hrun as [c|c0 c c1 Hstep Hrun IH]; intros ps w HI Hps E0 E1.
  { subst. injection E1 as -> ->. split; [done|]. split; [apply rtc_refl|done]. }
  subst c0. inversion Hstep as [t c2 k rep ps0 w0 w2 Ht Hs]; subst. apply obeys in Hs.
  destruct (Hps t _ Ht w rep w2 ltac:(reflexivity) HI Hs) as [[HI2 HG] Hk].
  destruct (IH (<[t := k rep]> ps) w2 HI2) as (HIw & Hm & Hp); [|done|done|].
  - intros t' p Hp. destruct (decide (t' = t)) as [->|Hne].
    + rewrite list_lookup_insert_eq in Hp by (apply lookup_lt_Some in Ht; done). injection Hp as <-. exact Hk.
    + rewrite list_lookup_insert_ne in Hp by done. specialize (Hps t' p Hp).
      pose proof (rely_one t' t w w2 ltac:(done) HG) as Hr.
      destruct p as [r|c3 k3]; [exact (HQ t' r w w2 Hps Hr)|].
      intros w3 rep3 w4 Hr3. apply Hps. by etransitivity.
  - split; [done|]. split; [|done]. eapply rtc_l; [by exists t|exact Hm].
Qed.

End Logic.

(** * A store in memory *)

(** Every request succeeds when the contract lets it; no object has tags; identifiers are numbered. *)
Definition mem_obj (b : bytes) : obj := {| o_bytes := b; o_etag := None; o_version := None; o_modified := 0 |}.

Fixpoint is_prefix (pre l : bytes) : bool :=
  match pre, l with
  | [], _ => true
  | a :: pre, b :: l => bool_decide (a = b) && is_prefix pre l
  | _ :: _, [] => false
  end.

Lemma is_prefix_spec pre l : is_prefix pre l = true <-> exists rest, l = pre ++ rest.
Proof.
  revert l. induction pre as [|a pre IH]; intros l; simpl; [split; [by exists l|done]|].
  destruct l as [|b l]; [split; [done|by intros (? & ?)]|]. rewrite andb_true_iff, bool_decide_eq_true, IH. split.
  - intros [-> [rest ->]]. by exists rest.
  - intros [rest E]. injection E as -> ->. split; [done|by exists rest].
Qed.

Definition mem_list (prefix : bytes) (m : gmap bytes obj) : list ObjectMeta :=
  map (fun '(p, o) => meta_of p o) (filter (fun '(p, _) => is_prefix (prefix ++ [Byte.x2f]) p = true) (map_to_list m)).

Definition mem_uuid (w : world) : bytes := bstr "uuid-" ++ repeat Byte.x30 (size (issued w)).

Definition with_objs (w : world) (m : gmap bytes obj) : world := {| objs := m; issued := issued w |}.

Definition mem_reply (t : nat) (w : world) (c : call) : reply c * world :=
  match c return reply c * world with
  | CGet p => (match objs w !! p with
               | Some o => Ok {| g_meta := meta_of p o; g_chunks := [o_bytes o]; g_complete := true |}
               | None => Err ONotFound
               end, w)
  | CHead p => (match objs w !! p with Some o => Ok (meta_of p o) | None => Err ONotFound end, w)
  | CPut p b => (Ok (put_result (mem_obj b)), with_objs w (<[p := mem_obj b]> (objs w)))
  | CCreate p b => match objs w !! p with
                   | Some _ => (Err OAlreadyExists, w)
                   | None => (Ok (put_result (mem_obj b)), with_objs w (<[p := mem_obj b]> (objs w)))
                   end
  | CCopyIfAbsent src dst => match objs w !! dst, objs w !! src with
                             | Some _, _ => (Err OAlreadyExists, w)
                             | None, Some o => (Ok tt, with_objs w (<[dst := mem_obj (o_bytes o)]> (objs w)))
                             | None, None => (Err ONotFound, w)
                             end
  | CDelete p => (Ok tt, with_objs w (delete p (objs w)))
  | CList prefix => (map Ok (mem_list prefix (objs w)), w)
  | CMultipart _ => (Ok tt, w)
  | CPart _ => (Ok tt, w)
  | CComplete u => (Ok tt, with_objs w (<[u_path u := mem_obj (concat (u_parts u))]> (objs w)))
  | CAbort _ => (Ok tt, w)
  | CNow => (0, w)
  | CUuid => (mem_uuid w, {| objs := objs w; issued := <[mem_uuid w := t]> (issued w) |})
  end.

(** Run a program alone in memory. *)
Fixpoint run_mem {A} (t : nat) (p : prog A) (w : world) : rres A * world :=
  match p with
  | Ret r => (r, w)
  | Do c k => let '(rep, w') := mem_reply t w c in run_mem t (k rep) w'
  end.

(** The sizes fit and the identifier is fresh. *)
Definition call_fits (w : world) (c : call) : bool :=
  let ok (b : bytes) := is_u64 (Z.of_nat (length b)) in
  match c with
  | CPut _ b | CCreate _ b => ok b
  | CCopyIfAbsent src _ => match objs w !! src with Some o => ok (o_bytes o) | None => true end
  | CComplete u => ok (concat (u_parts u))
  | CUuid => bool_decide (issued w !! mem_uuid w = None)
  | _ => true
  end.

Lemma mem_written p b m : is_u64 (Z.of_nat (length b)) = true -> put_at p b (mem_obj b) m (<[p := mem_obj b]> m).
Proof. by intros ?. Qed.

Lemma mem_list_elem prefix m x : x ∈ mem_list prefix m <-> exists p o, x = meta_of p o /\ beneath prefix p /\ m !! p = Some o.
Proof.
  unfold mem_list, beneath. rewrite list_elem_of_fmap. split.
  - intros ([p o] & -> & Hin). apply list_elem_of_filter in Hin as [Hp Hin]. apply is_prefix_spec in Hp as [rest ->].
    apply elem_of_map_to_list in Hin. exists ((prefix ++ [Byte.x2f]) ++ rest), o. split; [done|]. split; [|done].
    exists rest. by rewrite <- app_assoc.
  - intros (p & o & -> & (rest & ->) & Hin). exists (prefix ++ Byte.x2f :: rest, o). split; [done|].
    apply list_elem_of_filter. split; [|by apply elem_of_map_to_list]. apply is_prefix_spec. exists rest. by rewrite <- app_assoc.
Qed.

Lemma mem_list_nodup prefix m : NoDup (m_location <$> mem_list prefix m).
Proof.
  unfold mem_list. rewrite <- list_fmap_compose.
  assert (E : forall l : list (bytes * obj), (m_location ∘ (fun '(p, o) => meta_of p o)) <$> l = l.*1).
  { induction l as [|[p o] l IH]; [done|]. csimpl. by f_equal. }
  rewrite E. eapply sublist_NoDup; [apply (NoDup_fst_map_to_list m)|]. apply fmap_sublist, sublist_filter.
Qed.

Lemma mem_obeys t c w r w' : call_fits w c = true -> mem_reply t w c = (r, w') -> contract t c w r w'.
Proof.
  intros Hf E. destruct c; simpl in *; try (injection E as <- <-; done).
  - injection E as <- <-. split; [done|]. destruct (objs w !! p) as [o|] eqn:Ho; [|done].
    exists o. split; [done|]. split; [done|]. intros _. simpl. by rewrite app_nil_r.
  - injection E as <- <-. split; [done|]. destruct (objs w !! p) as [o|] eqn:Ho; [by exists o|done].
  - injection E as <- <-. split; [done|]. eexists. split; [by apply mem_written|done].
  - destruct (objs w !! p) as [o|] eqn:Ho; injection E as <- <-; (split; [done|]); [by split|].
    split; [done|]. eexists. split; [by apply mem_written|done].
  - destruct (objs w !! dst) as [o|] eqn:Ho; [injection E as <- <-; by repeat split|].
    destruct (objs w !! src) as [s|] eqn:Hs; injection E as <- <-; (split; [done|]); [|by left].
    split; [done|]. exists s. eexists. split; [done|by apply mem_written].
  - injection E as <- <-. split; [done|]. split.
    { intros m Hm. apply list_elem_of_fmap in Hm as (m' & [= <-] & Hin). apply mem_list_elem in Hin as (p & o & -> & Hb & Ho).
      split; [done|]. by exists o. }
    split.
    + intros _ p o Hb Ho. apply list_elem_of_fmap. exists (meta_of p o). split; [done|]. apply mem_list_elem. by exists p, o.
    + assert (E : forall l : list ObjectMeta, omap (fun x => match x with Ok m => Some m | _ => None end) (map (@Ok oerror ObjectMeta) l) = l).
      { induction l as [|x l IH]; [done|]. csimpl. by f_equal. }
      rewrite E. apply mem_list_nodup.
  - injection E as <- <-. split; [done|]. eexists. by apply mem_written.
  - injection E as <- <-. split; [done|]. apply bool_decide_eq_true in Hf. done.
Qed.

Definition memory : ObjectStore := {|
  serves := fun t c w r w' => call_fits w c = true /\ mem_reply t w c = (r, w');
  obeys := fun t c w r w' '(conj Hf E) => mem_obeys t c w r w' Hf E |}.

(** A schedule of a pool in memory: the threads' numbers in the order of their requests. *)
Fixpoint run_pool {A} (schedule : list nat) (ps : list (prog A)) (w : world) : option (list (prog A) * world) :=
  match schedule with
  | [] => Some (ps, w)
  | t :: schedule =>
      match ps !! t with
      | Some (Do c k) =>
          if call_fits w c then let '(rep, w') := mem_reply t w c in run_pool schedule (<[t := k rep]> ps) w' else None
      | _ => None
      end
  end.

Lemma run_pool_steps {A} schedule (ps ps' : list (prog A)) w w' :
  run_pool schedule ps w = Some (ps', w') -> rtc (@pool_step memory A) (ps, w) (ps', w').
Proof.
  revert ps w. induction schedule as [|t schedule IH]; intros ps w; simpl; [intros [= <- <-]; apply rtc_refl|].
  destruct (ps !! t) as [[r|c k]|] eqn:Ht; [done| |done]. destruct (call_fits w c) eqn:Hf; [|done].
  destruct (mem_reply t w c) as [rep w2] eqn:E. intros Hr. eapply rtc_l; [|exact (IH _ _ Hr)].
  eapply pool_call; [exact Ht|]. by split.
Qed.

Lemma run_pool_app {A} s1 s2 (ps : list (prog A)) w :
  run_pool (s1 ++ s2) ps w = c ← run_pool s1 ps w; run_pool s2 c.1 c.2.
Proof.
  revert ps w. induction s1 as [|t s1 IH]; intros ps w; [done|]. cbn [app run_pool].
  destruct (ps !! t) as [[r|c k]|]; [done| |done]. destruct (call_fits w c); [|done]. destruct (mem_reply t w c) as [rep w']. apply IH.
Qed.

Lemma run_pool_one {A} t (ps ps' : list (prog A)) w w' : run_pool [t] ps w = Some (ps', w') -> @pool_step memory A (ps, w) (ps', w').
Proof.
  cbn [run_pool]. destruct (ps !! t) as [[r|c k]|] eqn:Ht; [done| |done]. destruct (call_fits w c) eqn:Hf; [|done].
  destruct (mem_reply t w c) as [rep w2] eqn:E. intros [= <- <-]. eapply pool_call; [exact Ht|]. by split.
Qed.
