(* ===== verification/RemoteObjects.v ===== *)
(** The keys and the payloads of the content remote,
    [crates/sync-store/src/content_remote.rs]: the prefixes, the path of each
    kind of object and the area of the store it lies in; then immutable payloads
    with their receipts, and streamed uploads. *)

From stdpp Require Import base list gmap numbers strings options.
From Stdlib Require Import ZArith Lia.
From S2P Require Import Prelude RustStd RustText Wire RemoteStore Tree Manifest Commit SeriesMerkle.

Definition V2_OBJECT_PREFIX : bytes := bstr "_content/v2/objects".
Definition V2_RECEIPT_PREFIX : bytes := bstr "_content/v2/receipts".
Definition V2_PUBLICATION_PREFIX : bytes := bstr "_content/v2/publications".
Definition V2_PACK_PREFIX : bytes := bstr "_content/v2/packs".
Definition V2_UPLOAD_PREFIX : bytes := bstr "_content/v2/fallback/uploads".
Definition CAPSULE_PREFIX : bytes := bstr "recovery".
Definition RECIPE_NATIVE_FORMAT : bytes := bstr "watertown.commit.v1".

Definition v2_object_path (h : bytes) : bytes := V2_OBJECT_PREFIX ++ bstr "/blake3=" ++ to_hex h.
Definition v2_receipt_path (h : bytes) : bytes := V2_RECEIPT_PREFIX ++ bstr "/blake3=" ++ to_hex h.
Definition v2_publication_path (h : bytes) : bytes := V2_PUBLICATION_PREFIX ++ bstr "/blake3=" ++ to_hex h.
Definition v2_pack_path (h : bytes) : bytes := V2_PACK_PREFIX ++ bstr "/blake3=" ++ to_hex h.
Definition v2_series_pack_path (h : bytes) : bytes := V2_PACK_PREFIX ++ bstr "/by-series/blake3=" ++ to_hex h.
Definition v2_consolidated_series_pack_path (h : bytes) : bytes :=
  V2_PACK_PREFIX ++ bstr "/consolidated/by-series/blake3=" ++ to_hex h.
Definition staging_path (uuid : bytes) : bytes := V2_UPLOAD_PREFIX ++ bstr "/" ++ uuid.
Definition recovery_recipe_versioned_path (h : bytes) : bytes :=
  CAPSULE_PREFIX ++ bstr "/recipes/" ++ RECIPE_NATIVE_FORMAT ++ bstr "/" ++ to_hex h ++ bstr "/README.sh".
Definition recovery_recipe_discoverable_path : bytes := CAPSULE_PREFIX ++ bstr "/README.sh".
Definition capsule_payload_path (h : bytes) : bytes := CAPSULE_PREFIX ++ bstr "/objects/blake3=" ++ to_hex h.
Definition capsule_manifest_path (root : bytes) : bytes := CAPSULE_PREFIX ++ bstr "/manifests/" ++ to_hex root ++ bstr ".json".
Definition capsule_generation_path (root name : bytes) : bytes :=
  CAPSULE_PREFIX ++ bstr "/generations/" ++ to_hex root ++ bstr "/" ++ name.
Definition capsule_latest_path : bytes := CAPSULE_PREFIX ++ bstr "/refs/latest".
Definition capsule_history_path : bytes := CAPSULE_PREFIX ++ bstr "/refs/history".
Definition capsule_publish_lock_path : bytes := CAPSULE_PREFIX ++ bstr "/locks/publish".

(** * Areas *)

Inductive area := AObject | AReceipt | ARecord | ALocator | APack | AUpload | ARecipe | ALock | ACapsule | AOther.

#[export] Instance area_eq_dec : EqDecision area.
Proof. solve_decision. Defined.

Definition area_prefixes : list (bytes * area) :=
  [(bstr "_content/v2/objects/", AObject); (bstr "_content/v2/receipts/", AReceipt);
   (bstr "_content/v2/publications/", ARecord); (bstr "_content/v2/packs/by-series/", ALocator);
   (bstr "_content/v2/packs/consolidated/", ALocator); (bstr "_content/v2/packs/", APack);
   (bstr "_content/v2/fallback/uploads/", AUpload); (bstr "recovery/recipes/", ARecipe);
   (bstr "recovery/README.sh", ARecipe); (bstr "recovery/locks/", ALock); (bstr "recovery/", ACapsule)].

Fixpoint first_area (l : list (bytes * area)) (p : bytes) : area :=
  match l with
  | [] => AOther
  | (pre, a) :: l => if is_prefix pre p then a else first_area l p
  end.

Definition area_of (p : bytes) : area := first_area area_prefixes p.

(** The areas whose objects are created once and never change. *)
Definition create_once (a : area) : bool :=
  match a with AObject | AReceipt | ARecord | ALocator | APack | ARecipe => true | _ => false end.

Lemma area_object h : area_of (v2_object_path h) = AObject. Proof. reflexivity. Qed.
Lemma area_receipt h : area_of (v2_receipt_path h) = AReceipt. Proof. reflexivity. Qed.
Lemma area_publication h : area_of (v2_publication_path h) = ARecord. Proof. reflexivity. Qed.
Lemma area_pack h : area_of (v2_pack_path h) = APack. Proof. reflexivity. Qed.
Lemma area_series_pack h : area_of (v2_series_pack_path h) = ALocator. Proof. reflexivity. Qed.
Lemma area_consolidated h : area_of (v2_consolidated_series_pack_path h) = ALocator. Proof. reflexivity. Qed.
Lemma area_staging u : area_of (staging_path u) = AUpload. Proof. reflexivity. Qed.
Lemma area_recipe h : area_of (recovery_recipe_versioned_path h) = ARecipe. Proof. reflexivity. Qed.
Lemma area_discoverable : area_of recovery_recipe_discoverable_path = ARecipe. Proof. reflexivity. Qed.
Lemma area_payload h : area_of (capsule_payload_path h) = ACapsule. Proof. reflexivity. Qed.
Lemma area_manifest r : area_of (capsule_manifest_path r) = ACapsule. Proof. reflexivity. Qed.
Lemma area_generation r n : area_of (capsule_generation_path r n) = ACapsule. Proof. reflexivity. Qed.
Lemma area_latest : area_of capsule_latest_path = ACapsule. Proof. reflexivity. Qed.
Lemma area_history : area_of capsule_history_path = ACapsule. Proof. reflexivity. Qed.
Lemma area_lock : area_of capsule_publish_lock_path = ALock. Proof. reflexivity. Qed.

Create Rewrite HintDb areas.
#[export] Hint Rewrite area_object area_receipt area_publication area_pack area_series_pack area_consolidated
  area_staging area_recipe area_discoverable area_payload area_manifest area_generation area_latest
  area_history area_lock : areas.

(** Two paths of different areas differ. *)
Lemma area_ne p q : area_of p <> area_of q -> p <> q.
Proof. congruence. Qed.

(** Two texts with clashing starts differ, whatever follows. *)
Fixpoint clash (a b : bytes) : bool :=
  match a, b with
  | x :: a, y :: b => if bool_decide (x = y) then clash a b else true
  | _, _ => false
  end.

Lemma clash_ne a b x y : clash a b = true -> a ++ x <> b ++ y.
Proof.
  revert b. induction a as [|c a IH]; intros [|d b]; simpl; try done.
  case_bool_decide as Hc; [|congruence]. intros Hcl E. injection E as _ E. exact (IH _ Hcl E).
Qed.

Lemma locators_differ h1 h2 : v2_series_pack_path h1 <> v2_consolidated_series_pack_path h2.
Proof. unfold v2_series_pack_path, v2_consolidated_series_pack_path. intros E%app_inv_head. revert E. by apply clash_ne. Qed.

Lemma recipe_paths_differ h : recovery_recipe_discoverable_path <> recovery_recipe_versioned_path h.
Proof.
  unfold recovery_recipe_discoverable_path, recovery_recipe_versioned_path. intros E%app_inv_head.
  rewrite <- (app_nil_r (bstr "/README.sh")) in E. revert E. by apply clash_ne.
Qed.

Lemma to_hex_inj a b : to_hex a = to_hex b -> a = b.
Proof. intros E. apply (Ok_inj (E := cerror)). by rewrite <- !from_to_hex_loop, E. Qed.

#[export] Instance v2_object_path_inj : Inj (=) (=) v2_object_path.
Proof. intros a b E. unfold v2_object_path in E. do 2 apply app_inv_head in E. by apply to_hex_inj. Qed.
#[export] Instance v2_receipt_path_inj : Inj (=) (=) v2_receipt_path.
Proof. intros a b E. unfold v2_receipt_path in E. do 2 apply app_inv_head in E. by apply to_hex_inj. Qed.
#[export] Instance v2_publication_path_inj : Inj (=) (=) v2_publication_path.
Proof. intros a b E. unfold v2_publication_path in E. do 2 apply app_inv_head in E. by apply to_hex_inj. Qed.
#[export] Instance v2_pack_path_inj : Inj (=) (=) v2_pack_path.
Proof. intros a b E. unfold v2_pack_path in E. do 2 apply app_inv_head in E. by apply to_hex_inj. Qed.
#[export] Instance v2_series_pack_path_inj : Inj (=) (=) v2_series_pack_path.
Proof. intros a b E. unfold v2_series_pack_path in E. do 2 apply app_inv_head in E. by apply to_hex_inj. Qed.
#[export] Instance v2_consolidated_inj : Inj (=) (=) v2_consolidated_series_pack_path.
Proof. intros a b E. unfold v2_consolidated_series_pack_path in E. do 2 apply app_inv_head in E. by apply to_hex_inj. Qed.
#[export] Instance staging_path_inj : Inj (=) (=) staging_path.
Proof. intros a b E. unfold staging_path in E. by do 2 apply app_inv_head in E. Qed.
#[export] Instance capsule_payload_path_inj : Inj (=) (=) capsule_payload_path.
Proof. intros a b E. unfold capsule_payload_path in E. do 2 apply app_inv_head in E. by apply to_hex_inj. Qed.
#[export] Instance capsule_manifest_path_inj : Inj (=) (=) capsule_manifest_path.
Proof. intros a b E. unfold capsule_manifest_path in E. do 2 apply app_inv_head in E. apply app_inv_tail in E. by apply to_hex_inj. Qed.
#[export] Instance recipe_path_inj : Inj (=) (=) recovery_recipe_versioned_path.
Proof. intros a b E. unfold recovery_recipe_versioned_path in E. do 4 apply app_inv_head in E. apply app_inv_tail in E. by apply to_hex_inj. Qed.

(** The kinds of keys of the capsule area. *)
Inductive ckind := KPayload | KManifest | KGeneration | KLatest | KHistory | KNone.

Definition ckind_prefixes : list (bytes * ckind) :=
  [(bstr "recovery/objects/", KPayload); (bstr "recovery/manifests/", KManifest); (bstr "recovery/generations/", KGeneration);
   (bstr "recovery/refs/latest", KLatest); (bstr "recovery/refs/history", KHistory)].

Fixpoint first_kind (l : list (bytes * ckind)) (p : bytes) : ckind :=
  match l with
  | [] => KNone
  | (pre, a) :: l => if is_prefix pre p then a else first_kind l p
  end.

Definition ckind_of (p : bytes) : ckind := first_kind ckind_prefixes p.

Lemma ckind_payload h : ckind_of (capsule_payload_path h) = KPayload. Proof. reflexivity. Qed.
Lemma ckind_manifest r : ckind_of (capsule_manifest_path r) = KManifest. Proof. reflexivity. Qed.
Lemma ckind_generation r n : ckind_of (capsule_generation_path r n) = KGeneration. Proof. reflexivity. Qed.
Lemma ckind_latest : ckind_of capsule_latest_path = KLatest. Proof. reflexivity. Qed.
Lemma ckind_history : ckind_of capsule_history_path = KHistory. Proof. reflexivity. Qed.

Create Rewrite HintDb ckinds.
#[export] Hint Rewrite ckind_payload ckind_manifest ckind_generation ckind_latest ckind_history : ckinds.

Lemma ckind_ne p q : ckind_of p <> ckind_of q -> p <> q.
Proof. congruence. Qed.

#[global] Opaque v2_object_path v2_receipt_path v2_publication_path v2_pack_path v2_series_pack_path
  v2_consolidated_series_pack_path staging_path recovery_recipe_versioned_path recovery_recipe_discoverable_path
  capsule_payload_path capsule_manifest_path capsule_generation_path capsule_latest_path capsule_history_path
  capsule_publish_lock_path area_of ckind_of.

(** Immutable payloads and their receipts,
    [crates/sync-store/src/content_remote.rs]: [put_immutable_object],
    [put_immutable_object_stream], [put_hashed_object], the receipts, the
    reads, and the clean-up of stale uploads. *)

(** The fields of a write's result. *)
Record ImmutableWriteOutcome := { payload_created : bool; receipt_created : bool; payload_bytes_created : Z }.
Record UploadCleanupOutcome := { objects_deleted : Z; bytes_deleted : Z }.

Definition saturating_add (a b : Z) : Z := Z.min u64_max (a + b).

(** [result.bytes().await]. *)
Definition collect (what : string) (g : GetResult) : prog bytes :=
  if g_complete g then mret (concat (g_chunks g)) else failing what.

(** * Receipts *)

Definition receipt_from_put (d : ObjectDescriptor) (len : Z) (r : PutResult) : rres ObjectReceipt :=
  content (receipt_new (obj_hash d) len (p_etag r) (p_version r)).

Definition receipt_from_meta (d : ObjectDescriptor) (len : Z) (m : ObjectMeta) : rres ObjectReceipt :=
  content (receipt_new (obj_hash d) len (m_etag m) (m_version m)).

(** [expected.is_some_and(|expected| found != Some(expected))]. *)
Definition tag_changed (expected found : option bytes) : bool :=
  match expected with
  | Some _ => negb (bool_decide (found = expected))
  | None => false
  end.

Definition verify_receipt_metadata (r : ObjectReceipt) (m : ObjectMeta) : rres unit :=
  if negb (m_size m =? byte_length r) then Err (Invariant "receipt-backed object has size") else
  if tag_changed (e_tag r) (m_etag m) then Err (Invariant "receipt-backed object ETag changed") else
  if tag_changed (version r) (m_version m) then Err (Invariant "receipt-backed object version changed") else
  Ok tt.

(** * Readers *)

(** The results of the successive [reader.read] calls on a large enough buffer; the end of the list is end of file. *)
Inductive read_event := Data (b : bytes) | ReadErr.

Abbreviation reader := (list read_event).

Inductive fill_error := FRead | FSize.

(** The inner loop: [while filled < part.len()] of [put_hashed_object], with [room = part.len() - filled]. *)
Fixpoint fill (room size : Z) (rd : reader) : outcome fill_error (bytes * Z * reader) :=
  if room =? 0 then Ok ([], size, rd) else
  match rd with
  | [] => Ok ([], size, [])
  | ReadErr :: _ => Err FRead
  | Data [] :: rd => Ok ([], size, rd)
  | Data d :: rd =>
      let n := Z.of_nat (length d) in
      if n <=? room then
        if u64_max <? size + n then Err FSize else
        '(part, size, rd) ← fill (room - n) (size + n) rd;
        mret (d ++ part, size, rd)
      else if u64_max <? size + room then Err FSize else
        Ok (firstn (Z.to_nat room) d, size + room, Data (skipn (Z.to_nat room) d) :: rd)
  end.

(** [reader.read(&mut [0u8; 1])]: the count and nothing else. *)
Definition probe (rd : reader) : option Z :=
  match rd with
  | [] | Data [] :: _ => Some 0
  | Data (_ :: _) :: _ => Some 1
  | ReadErr :: _ => None
  end.

Section Remote.
Context `{Blake3}.

Definition read_receipt (hash : bytes) : prog (option ObjectReceipt) :=
  r ← invoke (CGet (v2_receipt_path hash));
  match r with
  | Ok g =>
      b ← collect "collect receipt" g;
      receipt ← pure (content (receipt_decode b));
      if negb (bool_decide (payload_hash receipt = hash)) then failing "receipt path names payload"
      else mret (Some receipt)
  | Err ONotFound => mret None
  | _ => failing "read receipt"
  end.

Definition create_receipt (receipt : ObjectReceipt) : prog bool :=
  b ← pure (content (receipt_encode receipt));
  r ← invoke (CCreate (v2_receipt_path (payload_hash receipt)) b);
  match r with
  | Ok _ => mret true
  | Err OAlreadyExists =>
      existing ← read_receipt (payload_hash receipt);
      match existing with
      | None => failing "receipt disappeared after AlreadyExists"
      | Some existing =>
          if bool_decide (existing = receipt) then mret false else failing "receipt conflicts with established identity"
      end
  | _ => failing "create receipt"
  end.

Definition verify_receipt_identity (d : ObjectDescriptor) (expected_length : Z) (receipt : ObjectReceipt) : prog unit :=
  if negb (bool_decide (payload_hash receipt = obj_hash d)) || negb (byte_length receipt =? expected_length)
  then failing "receipt does not match requested hash/length" else
  r ← invoke (CHead (v2_object_path (obj_hash d)));
  match r with
  | Ok m => pure (verify_receipt_metadata receipt m)
  | _ => failing "head receipt-backed object"
  end.

(** [while let Some(chunk)]: the hashed bytes and the checked length. *)
Fixpoint receiptless_chunks (hashed : bytes) (length_ : Z) (chunks : list bytes) : rres (bytes * Z) :=
  match chunks with
  | [] => Ok (hashed, length_)
  | c :: chunks =>
      if u64_max <? length_ + Z.of_nat (length c) then Err (Invariant "receipt-less object exceeds u64::MAX")
      else receiptless_chunks (hashed ++ c) (length_ + Z.of_nat (length c)) chunks
  end.

Definition verify_receiptless_object (d : ObjectDescriptor) (path : bytes) : prog ObjectReceipt :=
  r ← invoke (CGet path);
  match r with
  | Ok g =>
      '(hashed, len) ← pure (receiptless_chunks [] 0 (g_chunks g));
      if negb (g_complete g) then failing "stream receipt-less object" else
      if negb (bool_decide (blake3 hashed = obj_hash d)) || negb (len =? m_size (g_meta g))
      then failing "receipt-less object has hash and length" else
      pure (receipt_from_meta d len (g_meta g))
  | _ => failing "read receipt-less object"
  end.

Definition unchanged : ImmutableWriteOutcome :=
  {| payload_created := false; receipt_created := false; payload_bytes_created := 0 |}.

Definition put_immutable_object (d : ObjectDescriptor) (b : bytes) : prog ImmutableWriteOutcome :=
  if negb (bool_decide (of_bytes b = obj_hash d)) then failing "refusing object whose bytes hash to" else
  let len := Z.of_nat (length b) in
  receipt ← read_receipt (obj_hash d);
  match receipt with
  | Some receipt => _ ← verify_receipt_identity d len receipt; mret unchanged
  | None =>
      let path := v2_object_path (obj_hash d) in
      r ← invoke (CCreate path b);
      match r with
      | Ok result =>
          receipt ← pure (receipt_from_put d len result);
          created ← create_receipt receipt;
          mret {| payload_created := true; receipt_created := created; payload_bytes_created := len |}
      | Err OAlreadyExists =>
          receipt ← read_receipt (obj_hash d);
          created ← match receipt with
                    | Some receipt => _ ← verify_receipt_identity d len receipt; mret false
                    | None =>
                        r ← invoke (CGet path);
                        match r with
                        | Ok g =>
                            existing ← collect "collect receipt-less object" g;
                            if negb (bool_decide (of_bytes existing = obj_hash d))
                               || negb (bool_decide (length existing = length b)) || negb (bool_decide (existing = b))
                            then failing "receipt-less object has conflicting bytes" else
                            receipt ← pure (receipt_from_meta d (Z.of_nat (length existing)) (g_meta g));
                            create_receipt receipt
                        | _ => failing "read receipt-less object"
                        end
                    end;
          mret {| payload_created := false; receipt_created := created; payload_bytes_created := 0 |}
      | _ => failing "create immutable object"
      end
  end.

(** * Multipart uploads *)

Definition MULTIPART_PART_SIZE : Z := 5 * 1024 * 1024.
Definition MAX_INFLIGHT_UPLOAD_PARTS : nat := 16.

(** Abort the upload and report the failure, and the abort's when it fails too. *)
Definition abort_upload {A} (u : upload) (what : string) : prog A :=
  r ← invoke (CAbort u);
  match r with
  | Ok _ => failing what
  | _ => abort (Both (Invariant what) (Invariant "abort failed"))
  end.

(** Wait for one part in flight. *)
Definition next_part (u : upload) : prog unit :=
  r ← invoke (CPart u);
  match r with
  | Ok _ => mret tt
  | _ => abort_upload u "blob upload part"
  end.

(** The outer [loop]: one part per round, until a round reads nothing. *)
Fixpoint upload_parts (fuel : nat) (u : upload) (inflight : nat) (size : Z) (rd : reader) : prog (upload * nat * Z) :=
  match fuel with
  | O => Ret Panic
  | S fuel =>
      inflight ← (if (MAX_INFLIGHT_UPLOAD_PARTS <=? inflight)%nat then _ ← next_part u; mret (pred inflight) else mret inflight);
      match fill MULTIPART_PART_SIZE size rd with
      | Err FRead => abort_upload u "blob read"
      | Err FSize => abort_upload u "streamed object exceeds u64::MAX"
      | Panic => Ret Panic
      | Ok (part, size, rd) =>
          if bool_decide (part = []) then mret (u, inflight, size)
          else upload_parts fuel {| u_path := u_path u; u_parts := u_parts u ++ [part] |} (S inflight) size rd
      end
  end.

(** [while let Some(result) = parts.next().await]. *)
Fixpoint drain_parts (u : upload) (inflight : nat) : prog unit :=
  match inflight with
  | O => mret tt
  | S inflight => _ ← next_part u; drain_parts u inflight
  end.

(** One round per byte the reader can yield, and the one that finds the end. *)
Fixpoint reader_bytes (rd : reader) : nat :=
  match rd with
  | [] => 0
  | Data d :: rd => length d + reader_bytes rd
  | ReadErr :: rd => reader_bytes rd
  end.

Definition size_differs (expected : option Z) (size : Z) : bool :=
  match expected with
  | Some expected => negb (expected =? size)
  | None => false
  end.

Definition put_hashed_object (path hash : bytes) (expected_size : option Z) (rd : reader) : prog unit :=
  if bool_decide (expected_size = Some 0) then
    match probe rd with
    | None => failing "read empty streamed object"
    | Some count =>
        if negb (count =? 0) || negb (bool_decide (hash = of_bytes [])) then failing "streamed object is not the declared empty payload" else
        r ← invoke (CPut path []);
        match r with
        | Ok _ => mret tt
        | _ => failing "publish empty streamed object"
        end
    end
  else
    r ← invoke (CMultipart path);
    match r with
    | Ok _ =>
        '(u, inflight, size) ← upload_parts (S (reader_bytes rd)) {| u_path := path; u_parts := [] |} 0 0 rd;
        if negb (bool_decide (blake3 (concat (u_parts u)) = hash)) || size_differs expected_size size then
          r ← invoke (CAbort u);
          match r with
          | Ok _ => failing "streamed object has hash and size"
          | _ => failing "blob abort"
          end
        else
          _ ← drain_parts u inflight;
          r ← invoke (CComplete u);
          match r with
          | Ok _ => mret tt
          | _ => abort_upload u "blob complete"
          end
    | _ => failing "blob put_multipart"
    end.

(** Delete the staging object and report the failure. *)
Definition unstage {A} (staging : bytes) (what : string) : prog A :=
  r ← invoke (CDelete staging);
  match r with
  | Ok _ => failing what
  | _ => abort (Both (Invariant what) (Invariant "staging cleanup failed"))
  end.

Definition put_immutable_object_stream (d : ObjectDescriptor) (rd : reader) : prog ImmutableWriteOutcome :=
  receipt ← read_receipt (obj_hash d);
  match receipt with
  | Some receipt => _ ← verify_receipt_identity d (byte_length receipt) receipt; mret unchanged
  | None =>
      let canonical := v2_object_path (obj_hash d) in
      r ← invoke (CHead canonical);
      match r with
      | Ok _ =>
          receipt ← verify_receiptless_object d canonical;
          created ← create_receipt receipt;
          mret {| payload_created := false; receipt_created := created; payload_bytes_created := 0 |}
      | Err ONotFound =>
          uuid ← invoke CUuid;
          let staging := staging_path uuid in
          _ ← put_hashed_object staging (obj_hash d) None rd;
          r ← invoke (CHead staging);
          match r with
          | Ok _ =>
              r ← invoke (CCopyIfAbsent staging canonical);
              copied ← match r with
                       | Ok _ => mret true
                       | Err OAlreadyExists => mret false
                       | _ => unstage staging "promote immutable object"
                       end;
              r ← invoke (CDelete staging);
              match r with
              | Ok _ =>
                  receipt ← (if (copied : bool) then
                               r ← invoke (CHead canonical);
                               match r with
                               | Ok m => pure (receipt_from_meta d (m_size m) m)
                               | _ => failing "head promoted immutable object"
                               end
                             else verify_receiptless_object d canonical);
                  created ← create_receipt receipt;
                  mret {| payload_created := copied; receipt_created := created;
                          payload_bytes_created := if copied then byte_length receipt else 0 |}
              | _ => failing "delete staged immutable object"
              end
          | _ => unstage staging "head staged immutable object"
          end
      | _ => failing "head immutable object"
      end
  end.

(** [put_blob]. *)
Definition put_blob (hash : bytes) (rd : reader) : prog unit :=
  _ ← put_immutable_object_stream {| obj_hash := hash; obj_kind := RawBlob |} rd; mret tt.

(** * Listings *)

(** The listing's items up to its first error. *)
Fixpoint list_items (what : string) (items : list (outcome oerror ObjectMeta)) : rres (list ObjectMeta) :=
  match items with
  | [] => Ok []
  | Ok m :: items => ms ← list_items what items; mret (m :: ms)
  | _ :: _ => Err (Invariant what)
  end.

Definition delete_stale (out : UploadCleanupOutcome) (m : ObjectMeta) : prog UploadCleanupOutcome :=
  r ← invoke (CDelete (m_location m));
  match r with
  | Ok _ => mret {| objects_deleted := objects_deleted out + 1; bytes_deleted := saturating_add (bytes_deleted out) (m_size m) |}
  | _ => failing "delete stale immutable upload staging"
  end.

Definition cleanup_stale_uploads (older_than : Z) : prog UploadCleanupOutcome :=
  items ← invoke (CList V2_UPLOAD_PREFIX);
  listed ← pure (list_items "list immutable upload staging" items);
  let stale := filter (fun m => m_modified m <= older_than) listed in
  for_each delete_stale {| objects_deleted := 0; bytes_deleted := 0 |} stale.

(** [Path::filename]: the last segment. *)
Definition filename (p : bytes) : option bytes := if bool_decide (p = []) then None else last (split_on SLASH p).

Definition counted_object (m : ObjectMeta) : bool :=
  match filename (m_location m) with
  | Some name => is_prefix (bstr "blake3=") name
  | None => false
  end.

Definition immutable_object_count : prog Z :=
  items ← invoke (CList V2_OBJECT_PREFIX);
  listed ← pure (list_items "list immutable objects" items);
  mret (fold_left (fun count m => if counted_object m then saturating_add count 1 else count) listed 0).

(** * Reads *)

Definition get_immutable_object (hash : bytes) : prog (option bytes) :=
  r ← invoke (CGet (v2_object_path hash));
  match r with
  | Ok g =>
      b ← collect "collect immutable object" g;
      if negb (bool_decide (of_bytes b = hash)) then failing "immutable object hashes to" else mret (Some b)
  | Err ONotFound => mret None
  | _ => failing "get immutable object"
  end.

Definition immutable_object_size (hash : bytes) : prog (option Z) :=
  receipt ← read_receipt hash;
  r ← invoke (CHead (v2_object_path hash));
  match receipt with
  | Some receipt =>
      match r with
      | Ok m => _ ← pure (verify_receipt_metadata receipt m); mret (Some (byte_length receipt))
      | _ => failing "head receipt-backed object"
      end
  | None =>
      match r with
      | Ok _ => failing "immutable object is visible without a receipt"
      | Err ONotFound => mret None
      | _ => failing "head immutable object"
      end
  end.

(** The stream is handed to the caller: the chunks it will read, and whether they end in an error. *)
Definition get_immutable_object_reader (hash : bytes) : prog (option (list bytes * bool)) :=
  r ← invoke (CGet (v2_object_path hash));
  match r with
  | Ok g => mret (Some (g_chunks g, g_complete g))
  | Err ONotFound => mret None
  | _ => failing "get immutable object stream"
  end.

Definition get_objects (hashes : list bytes) : prog (gmap bytes bytes) :=
  for_each (fun objects hash =>
    b ← get_immutable_object hash;
    match b with
    | Some b => mret (<[hash := b]> objects)
    | None => mret objects
    end) ∅ (dedup (sort_by bytes_cmp hashes)).

Definition has_object (hash : bytes) : prog bool :=
  b ← get_immutable_object hash; mret (match b with Some _ => true | None => false end).

Definition has_blob (hash : bytes) : prog bool :=
  r ← invoke (CHead (v2_object_path hash));
  match r with
  | Ok _ => mret true
  | Err ONotFound => mret false
  | _ => failing "blob head"
  end.

Definition has_physical_object (hash : bytes) : prog bool :=
  size ← immutable_object_size hash; mret (match size with Some _ => true | None => false end).

End Remote.
