(* ===== verification/RemotePacks.v ===== *)
(** Content-addressed packs, their per-series locators, publication records and
    the recovery recipe, [crates/sync-store/src/content_remote.rs]. *)

From stdpp Require Import base list gmap numbers strings options.
From Stdlib Require Import ZArith Lia.
From S2P Require Import Prelude RustStd RustText Wire Tree Manifest CanonicalJson Commit SeriesManifest SeriesPack RemoteStore RemoteObjects.

Record ConsolidatedPackWriteOutcome := { cp_hash : bytes; cp_pack_created : bool; cp_locator_created : bool }.

Record RecoveryRecipePublishOutcome := { rr_hash : bytes; rr_versioned_created : bool; rr_discoverable_created : bool }.

(** [PublicationFailurePoint]: the deterministic one-shot failure of the tests. *)
Inductive PublicationFailurePoint :=
| BeforeObjects
| AfterObject (n : Z)
| AfterObjects
| AfterPacks
| AfterRecord
| AfterRef
| BeforeConsolidatedLocator.

#[export] Instance PublicationFailurePoint_eq_dec : EqDecision PublicationFailurePoint.
Proof. solve_decision. Defined.

(** [publication_stage]: the remaining injected failure, and whether this point triggers it. *)
Definition publication_stage (injected : option PublicationFailurePoint) (point : PublicationFailurePoint) : rres unit * option PublicationFailurePoint :=
  if bool_decide (injected = Some point) then (Err (Invariant "injected publication failure"), None) else (Ok tt, injected).

Definition RECIPE_DOMAIN : bytes := bstr "pondcapsule.recipe.1" ++ [NL].

Section Packs.
Context `{Blake3} `{JsonParser}.

(** * Small content-addressed objects *)

Definition read_content_addressed_small (path hash : bytes) : prog (option bytes) :=
  r ← invoke (CGet path);
  match r with
  | Ok g =>
      b ← collect "collect" g;
      if negb (bool_decide (of_bytes b = hash)) then failing "hashes to" else mret (Some b)
  | Err ONotFound => mret None
  | _ => failing "read"
  end.

Definition create_content_addressed_small (path hash b : bytes) : prog bool :=
  if negb (bool_decide (of_bytes b = hash)) then failing "bytes do not hash to" else
  r ← invoke (CCreate path b);
  match r with
  | Ok _ => mret true
  | Err OAlreadyExists =>
      existing ← read_content_addressed_small path hash;
      match existing with
      | None => failing "disappeared after AlreadyExists"
      | Some existing => if bool_decide (existing = b) then mret false else failing "has conflicting bytes"
      end
  | _ => failing "create"
  end.

(** * Packs *)

Definition get_immutable_pack (d : PackDescriptor) : prog (option bytes) :=
  b ← read_content_addressed_small (v2_pack_path (Commit.pack_hash d)) (Commit.pack_hash d);
  match b with
  | None => mret None
  | Some b =>
      pack ← pure (content (pack_decode b));
      if negb (bool_decide (series_hash pack = Commit.series_hash d)) then failing "pack names series" else mret (Some b)
  end.

Definition get_pack_index_bytes (series pack : bytes) : prog (option bytes) :=
  get_immutable_pack {| Commit.series_hash := series; Commit.pack_hash := pack |}.

Definition store_immutable_pack (d : PackDescriptor) (b : bytes) : prog (bool * PackIndex) :=
  if negb (bool_decide (of_bytes b = Commit.pack_hash d)) then failing "pack bytes hash to" else
  pack ← pure (content (pack_decode b));
  if negb (bool_decide (series_hash pack = Commit.series_hash d)) then failing "pack names series" else
  created ← create_content_addressed_small (v2_pack_path (Commit.pack_hash d)) (Commit.pack_hash d) b;
  mret (created, pack).

(** ** Locators *)

Definition read_series_pack_locator (series path : bytes) : prog (option PackDescriptor) :=
  r ← invoke (CGet path);
  match r with
  | Ok g =>
      b ← collect "read pack locator" g;
      if negb (bool_decide (length b = 32%nat)) then failing "pack locator is not 32 bytes" else
      mret (Some {| Commit.series_hash := series; Commit.pack_hash := b |})
  | Err ONotFound => mret None
  | _ => failing "get pack locator"
  end.

Definition canonical_pack_for_series (series : bytes) : prog (option PackDescriptor) :=
  read_series_pack_locator series (v2_series_pack_path series).

Definition consolidated_pack_for_series (series : bytes) : prog (option PackDescriptor) :=
  read_series_pack_locator series (v2_consolidated_series_pack_path series).

Definition ensure_series_pack_locator (d : PackDescriptor) : prog unit :=
  r ← invoke (CCreate (v2_series_pack_path (Commit.series_hash d)) (Commit.pack_hash d));
  match r with
  | Ok _ => mret tt
  | Err OAlreadyExists =>
      existing ← canonical_pack_for_series (Commit.series_hash d);
      match existing with
      | None => failing "canonical pack locator disappeared"
      | Some existing =>
          pack ← get_immutable_pack existing;
          match pack with
          | None => failing "canonical pack locator names missing pack"
          | Some _ => mret tt
          end
      end
  | _ => failing "create canonical pack locator"
  end.

Definition ensure_consolidated_series_pack_locator (d : PackDescriptor) : prog bool :=
  let path := v2_consolidated_series_pack_path (Commit.series_hash d) in
  r ← invoke (CCreate path (Commit.pack_hash d));
  match r with
  | Ok _ => mret true
  | Err OAlreadyExists =>
      existing ← read_series_pack_locator (Commit.series_hash d) path;
      match existing with
      | None => failing "consolidated pack locator disappeared"
      | Some existing =>
          pack ← get_immutable_pack existing;
          match pack with
          | None => failing "consolidated pack locator names missing pack"
          | Some _ =>
              if bool_decide (Commit.pack_hash existing = Commit.pack_hash d) then mret false
              else failing "series already has consolidated pack"
          end
      end
  | _ => failing "create consolidated pack locator"
  end.

Definition put_immutable_pack (d : PackDescriptor) (b : bytes) : prog bool :=
  '(created, pack) ← store_immutable_pack d b;
  _ ← (if is_ok (validate_series_segment pack) then ensure_series_pack_locator d else mret tt);
  mret created.

(** ** Publication of packs *)

(** The blobs the remote lacks, each uploaded once. *)
Definition upload_blobs (known_present : gset bytes) (blobs : list (bytes * bytes)) : prog (gset bytes) :=
  for_each (fun uploaded '(hash, b) =>
    if bool_decide (hash ∈ uploaded) || bool_decide (hash ∈ known_present) then mret uploaded else
    present ← has_blob hash;
    if present : bool then mret uploaded else
    _ ← put_blob hash [Data b];
    mret ({[hash]} ∪ uploaded)) ∅ blobs.

Definition check_physical (known_present : gset bytes) (hashes : list bytes) : prog (gset bytes) :=
  for_each (fun checked hash =>
    if bool_decide (hash ∈ known_present) || bool_decide (hash ∈ checked) then mret checked else
    present ← has_physical_object hash;
    if present : bool then mret ({[hash]} ∪ checked) else failing "cannot publish pack: physical object is not present") ∅ hashes.

Definition publish_pack_with_known_present (series : bytes) (pack : PackIndex) (blobs : list (bytes * bytes))
    (known_present : gset bytes) : prog bytes :=
  if negb (bool_decide (series_hash pack = series)) then failing "refusing to publish pack (cross-series index)" else
  b ← pure (content (pack_encode pack));
  let hash := of_bytes b in
  _ ← upload_blobs known_present blobs;
  _ ← check_physical known_present (physical_object_hashes pack);
  _ ← store_immutable_pack {| Commit.series_hash := series; Commit.pack_hash := hash |} b;
  mret hash.

Definition publish_pack (series : bytes) (pack : PackIndex) (blobs : list (bytes * bytes)) : prog bytes :=
  publish_pack_with_known_present series pack blobs ∅.

(** Every referenced object is durable or is found. *)
Definition require_physical (known_present : gset bytes) (hashes : list bytes) : prog unit :=
  for_each (fun _ hash =>
    if bool_decide (hash ∈ known_present) then mret tt else
    present ← has_physical_object hash;
    if present : bool then mret tt else failing "cannot publish consolidated pack: physical object is absent") tt hashes.

Definition publish_consolidated_pack_with_known_present (injected : option PublicationFailurePoint) (series : bytes)
    (m : SeriesManifest) (pack : PackIndex) (known_present : gset bytes) : prog ConsolidatedPackWriteOutcome :=
  mh ← pure (content (series_object_hash m));
  if negb (bool_decide (mh = series)) then failing "consolidated series manifest hashes to" else
  if negb (bool_decide (series_hash pack = series)) then failing "refusing to publish consolidated pack" else
  _ ← pure (content (verify_complete_pack_against_manifest series m pack));
  _ ← require_physical known_present (physical_object_hashes pack);
  b ← pure (content (pack_encode pack));
  let hash := of_bytes b in
  let d := {| Commit.series_hash := series; Commit.pack_hash := hash |} in
  '(created, _) ← store_immutable_pack d b;
  _ ← pure (publication_stage injected BeforeConsolidatedLocator).1;
  locator ← ensure_consolidated_series_pack_locator d;
  mret {| cp_hash := hash; cp_pack_created := created; cp_locator_created := locator |}.

(** ** The diagnostic scan *)

Definition scan_pack (series : bytes) (out : gset bytes) (m : outcome oerror ObjectMeta) : prog (gset bytes) :=
  match m with
  | Ok m =>
      let p := m_location m in
      if is_prefix (V2_PACK_PREFIX ++ bstr "/by-series/") p || is_prefix (V2_PACK_PREFIX ++ bstr "/consolidated/") p then mret out else
      match filename p ≫= strip_prefix (bstr "blake3=") with
      | None => mret out
      | Some hex =>
          hash ← pure (content (from_hex hex));
          b ← read_content_addressed_small p hash;
          match b with
          | None => mret out
          | Some b =>
              pack ← pure (content (pack_decode b));
              mret (if bool_decide (series_hash pack = series) then {[hash]} ∪ out else out)
          end
      end
  | _ => failing "list packs"
  end.

Definition diagnostic_list_pack_hashes (series : bytes) : prog (gset bytes) :=
  items ← invoke (CList V2_PACK_PREFIX);
  for_each (scan_pack series) ∅ items.

(** * Publication records *)

Definition put_publication_record (pond : bytes) (record : PublicationRecord) : prog bool :=
  if negb (bool_decide (pub_pond_id record = pond)) then failing "publication record pond does not match remote pond" else
  b ← pure (content (publication_encode record));
  create_content_addressed_small (v2_publication_path (of_bytes b)) (of_bytes b) b.

Definition get_publication_record (hash : bytes) : prog (option PublicationRecord) :=
  b ← read_content_addressed_small (v2_publication_path hash) hash;
  match b with
  | None => mret None
  | Some b => record ← pure (content (publication_decode b)); mret (Some record)
  end.

(** * The recovery recipe *)

Definition recovery_recipe_hash (recipe : bytes) : bytes := blake3 (RECIPE_DOMAIN ++ recipe).

Definition create_exact_object (path b : bytes) : prog bool :=
  r ← invoke (CCreate path b);
  match r with
  | Ok _ => mret true
  | Err OAlreadyExists =>
      r ← invoke (CGet path);
      match r with
      | Ok g =>
          existing ← collect "collect existing" g;
          if bool_decide (existing = b) then mret false else failing "existing differs from the reviewed recovery recipe"
      | _ => failing "read existing"
      end
  | _ => failing "create"
  end.

Definition read_recovery_recipe (path : bytes) : prog bytes :=
  r ← invoke (CGet path);
  match r with
  | Ok g => collect "collect" g
  | _ => failing "read"
  end.

Definition inspect_discoverable_recovery_recipe : prog bytes :=
  discoverable ← read_recovery_recipe recovery_recipe_discoverable_path;
  let hash := recovery_recipe_hash discoverable in
  immutable ← read_recovery_recipe (recovery_recipe_versioned_path hash);
  if bool_decide (immutable = discoverable) then mret hash
  else failing "discoverable recovery recipe differs from its immutable copy".

Definition ensure_discoverable_recovery_recipe (current : bytes) : prog bool :=
  r ← invoke (CCreate recovery_recipe_discoverable_path current);
  match r with
  | Ok _ => mret true
  | Err OAlreadyExists => _ ← inspect_discoverable_recovery_recipe; mret false
  | _ => failing "create discoverable recovery recipe"
  end.

(** [publish_recovery_recipe_watertown_commit_v1], for the bytes of the built-in recipe. *)
Definition publish_recovery_recipe (recipe : bytes) : prog RecoveryRecipePublishOutcome :=
  let hash := recovery_recipe_hash recipe in
  versioned ← create_exact_object (recovery_recipe_versioned_path hash) recipe;
  discoverable ← ensure_discoverable_recovery_recipe recipe;
  mret {| rr_hash := hash; rr_versioned_created := versioned; rr_discoverable_created := discoverable |}.

Definition ensure_recovery_recipe (recipe : bytes) : prog bytes :=
  outcome ← publish_recovery_recipe recipe; mret (rr_hash outcome).

Definition inspect_recovery_recipe (recipe : bytes) : prog bytes :=
  let hash := recovery_recipe_hash recipe in
  current ← read_recovery_recipe (recovery_recipe_versioned_path hash);
  if negb (bool_decide (current = recipe)) then failing "current versioned recovery recipe differs" else
  _ ← inspect_discoverable_recovery_recipe;
  mret hash.

End Packs.
