(* ===== verification/RemoteCapsule.v ===== *)
(** Recovery-capsule generations on the remote,
    [crates/sync-store/src/content_remote.rs]: the publication lock, the latest
    and history refs, and the three publishers. *)

From stdpp Require Import base list gmap numbers strings options.
From Stdlib Require Import ZArith Lia.
From S2P Require Import Prelude RustStd RustText Wire CanonicalJson SeriesMerkle TableLeaf TableRows Capsule CapsuleStream CapsuleTable CapsuleVerify RemoteStore RemoteObjects.

Definition CAPSULE_HISTORY_LIMIT : nat := 3.
Definition CAPSULE_PUBLISH_LOCK_STALE_MICROS : Z := 15 * 60 * 1000000.

Record CapsulePublishOutcome := { po_root : bytes; payloads_uploaded : Z; payloads_total : Z }.

Inductive CapsuleRefVersion := Missing | Present (root : bytes).

#[export] Instance CapsuleRefVersion_eq_dec : EqDecision CapsuleRefVersion.
Proof. solve_decision. Defined.

(** The files of the recovery kit that the crate includes ([include_str!]) and
    publishes with each generation, by name. *)
Class Artifacts := { included : string -> bytes }.

(** * Texts *)

(** [i64::MIN..=i64::MAX] and [saturating_sub]. *)
Definition i64_saturating_sub (a b : Z) : Z := Z.max (- 2 ^ 63) (Z.min (2 ^ 63 - 1) (a - b)).

(** [str::parse::<i64>]. *)
Definition parse_i64 (s : bytes) : option Z :=
  let '(negative, digits) :=
    match s with
    | c :: rest => if bool_decide (c = Byte.x2d) then (true, rest) else if bool_decide (c = Byte.x2b) then (false, rest) else (false, s)
    | [] => (false, [])
    end in
  if bool_decide (digits = []) || negb (forallb is_digit digits) then None else
  let n := fold_left (fun acc c => acc * 10 + (b2z c - 48)) digits 0 in
  let v := if negative : bool then - n else n in
  if is_i64 v then Some v else None.

(** [text.lines()] of the history: each a lowercase root, none twice, at most three. *)
Fixpoint parse_roots (roots : list bytes) (ls : list bytes) : rres (list bytes) :=
  match ls with
  | [] => if (CAPSULE_HISTORY_LIMIT <? length roots)%nat then Err (Invariant "capsule history contains too many roots") else Ok roots
  | line :: ls =>
      if bool_decide (line = []) then Err (Invariant "capsule history contains an empty root") else
      if existsb (in_range 65 90) line then Err (Invariant "capsule history root is not lowercase hexadecimal") else
      root ← content (from_hex line);
      if bool_decide (root ∈ roots) then Err (Invariant "capsule history repeats root") else
      parse_roots (roots ++ [root]) ls
  end.

Definition parse_capsule_history (b : bytes) : rres (list bytes) :=
  if negb (utf8_valid b) then Err (Invariant "capsule history is not UTF-8") else parse_roots [] (lines b).

(** [history.iter().map(to_hex).join("\n") + "\n"]. *)
Definition history_text (roots : list bytes) : bytes := join NL (map to_hex roots) ++ [NL].

(** [retain(|prior| prior != root)], [insert(0, root)], [truncate]. *)
Definition merge_roots (root : bytes) (history : list bytes) : list bytes :=
  take CAPSULE_HISTORY_LIMIT (root :: filter (fun prior => prior <> root) history).

Definition latest_text (root : bytes) : bytes := to_hex root ++ [NL].

(** The root a ref names: UTF-8, the end trimmed, hexadecimal. *)
Definition parse_ref (b : bytes) : rres bytes :=
  if negb (utf8_valid b) then Err (Invariant "capsule ref is not UTF-8") else content (from_hex (trim_end b)).

Definition lock_token (created : Z) (uuid : bytes) : bytes := show_i64 created ++ [NL] ++ uuid ++ [NL].

Definition capsule_object_list (root : bytes) (objects : list CapsuleObject) : bytes :=
  let root := to_hex root in
  CAPSULE_PREFIX ++ bstr "/manifests/" ++ root ++ bstr ".json" ++ [NL] ++
  concat (map (fun o => CAPSULE_PREFIX ++ bstr "/objects/blake3=" ++ to_hex (co_hash o) ++ [NL]) objects) ++
  concat (map (fun name => CAPSULE_PREFIX ++ bstr "/generations/" ++ root ++ bstr "/" ++ bstr name ++ [NL])
    ["CAPSULE-README.md"; "CAPSULE-FORMAT.md"; "capsule.py"; "parquet_schema.py"; "capsule-requirements.lock"; "recover.sh"]%string).

Definition capsule_checksums (objects : list CapsuleObject) : bytes :=
  concat (map (fun o => to_hex (co_hash o) ++ bstr "  " ++ CAPSULE_PREFIX ++ bstr "/objects/blake3=" ++ to_hex (co_hash o) ++ [NL]) objects).

Definition capsule_runbook (root : bytes) : bytes :=
  bstr "Watertown recovery capsule " ++ to_hex root ++ [NL; NL] ++
  concat (map (fun line => bstr line ++ [NL])
    ["1. Download and review download-az.sh or download-mc.sh.";
     "2. Authenticate with managed identity or your normal client environment.";
     "3. Run the reviewed script; it embeds no credentials.";
     "4. Authenticate the watertown.commit.v1 recovery kit through its independently supplied README.sh hash.";
     "5. Compare every downloaded recovery aid named in CAPSULE-README.md byte for byte with the authenticated kit copies.";
     "6. Read CAPSULE-README.md in the downloaded capsule.";
     "7. Recover without Pond: sh /trusted/recovery-kit/recover.sh <download-directory> <new-output-directory>";
     "8. Read <new-output-directory>/README.txt and inventory.json.";
     "9. Never delete the source namespace as part of recovery."]%string).

(** A line of a download script: a caret stands for the root in hexadecimal, a
    backquote for a double quote and a tilde for an asterisk; none of the
    three occurs in the scripts otherwise. *)
Definition script_line (root : bytes) (line : string) : bytes :=
  flat_map (fun c =>
    if bool_decide (c = Byte.x5e) then to_hex root else
    if bool_decide (c = Byte.x60) then [Byte.x22] else
    if bool_decide (c = Byte.x7e) then [Byte.x2a] else [c]) (bstr line) ++ [NL].

Definition capsule_az_script (root : bytes) : bytes := concat (map (script_line root)
  ["#!/bin/sh";
   "set -eu";
   ": `${AZURE_CONTAINER:?set AZURE_CONTAINER}`";
   "DEST=${DEST:-capsule-^}";
   "case `$DEST` in ''|'/'|'.'|'..'|-~) printf '%s\n' 'unsafe destination' >&2; exit 2;; esac";
   "if [ -e `$DEST` ]; then printf '%s\n' `destination already exists: $DEST` >&2; exit 2; fi";
   "mkdir -p `$DEST/recovery/generations/^` `$DEST/recovery/manifests` `$DEST/recovery/objects` `$DEST/recovery/refs`";
   "printf '%s\n' '^' > `$DEST/recovery/refs/latest`";
   "az storage blob download --auth-mode login --container-name `$AZURE_CONTAINER` --name `recovery/generations/^/objects.list` --file `$DEST/recovery/generations/^/objects.list` --overwrite";
   "while IFS= read -r key; do";
   "case `$key` in";
   "`recovery/manifests/^.json`) target=`$DEST/$key` ;;";
   "recovery/objects/blake3=~) digest=${key#recovery/objects/blake3=}; case `$digest` in ~[!0-9a-f]~|'') exit 1;; esac; [ `${#digest}` -eq 64 ] || exit 1; target=`$DEST/$key` ;;";
   "`recovery/generations/^/CAPSULE-README.md`) target=`$DEST/CAPSULE-README.md` ;;";
   "`recovery/generations/^/CAPSULE-FORMAT.md`) target=`$DEST/CAPSULE-FORMAT.md` ;;";
   "`recovery/generations/^/capsule.py`) target=`$DEST/capsule.py` ;;";
   "`recovery/generations/^/parquet_schema.py`) target=`$DEST/parquet_schema.py` ;;";
   "`recovery/generations/^/capsule-requirements.lock`) target=`$DEST/capsule-requirements.lock` ;;";
   "`recovery/generations/^/recover.sh`) target=`$DEST/recover.sh` ;;";
   "~) exit 1 ;;";
   "esac";
   "mkdir -p `$(dirname `$target`)`";
   "az storage blob download --auth-mode login --container-name `$AZURE_CONTAINER` --name `$key` --file `$target` --overwrite";
   "done < `$DEST/recovery/generations/^/objects.list`"]%string).

Definition capsule_mc_script (root : bytes) : bytes := concat (map (script_line root)
  ["#!/bin/sh";
   "set -eu";
   ": `${MC_SOURCE:?set MC_SOURCE to alias/bucket-or-prefix}`";
   "DEST=${DEST:-capsule-^}";
   "case `$DEST` in ''|'/'|'.'|'..'|-~) printf '%s\n' 'unsafe destination' >&2; exit 2;; esac";
   "if [ -e `$DEST` ]; then printf '%s\n' `destination already exists: $DEST` >&2; exit 2; fi";
   "mkdir -p `$DEST/recovery/generations/^` `$DEST/recovery/manifests` `$DEST/recovery/objects` `$DEST/recovery/refs`";
   "printf '%s\n' '^' > `$DEST/recovery/refs/latest`";
   "mc cp `$MC_SOURCE/recovery/generations/^/objects.list` `$DEST/recovery/generations/^/objects.list`";
   "while IFS= read -r key; do";
   "case `$key` in";
   "`recovery/manifests/^.json`) target=`$DEST/$key` ;;";
   "recovery/objects/blake3=~) digest=${key#recovery/objects/blake3=}; case `$digest` in ~[!0-9a-f]~|'') exit 1;; esac; [ `${#digest}` -eq 64 ] || exit 1; target=`$DEST/$key` ;;";
   "`recovery/generations/^/CAPSULE-README.md`) target=`$DEST/CAPSULE-README.md` ;;";
   "`recovery/generations/^/CAPSULE-FORMAT.md`) target=`$DEST/CAPSULE-FORMAT.md` ;;";
   "`recovery/generations/^/capsule.py`) target=`$DEST/capsule.py` ;;";
   "`recovery/generations/^/parquet_schema.py`) target=`$DEST/parquet_schema.py` ;;";
   "`recovery/generations/^/capsule-requirements.lock`) target=`$DEST/capsule-requirements.lock` ;;";
   "`recovery/generations/^/recover.sh`) target=`$DEST/recover.sh` ;;";
   "~) exit 1 ;;";
   "esac";
   "mkdir -p `$(dirname `$target`)`";
   "mc cp `$MC_SOURCE/$key` `$target`";
   "done < `$DEST/recovery/generations/^/objects.list`"]%string).

(** The [artifacts] of one generation, in the order they are published. *)
Definition artifacts `{Artifacts} (root : bytes) (declared : list CapsuleObject) : list (bytes * bytes) :=
  [(bstr "objects.list", capsule_object_list root declared); (bstr "checksums", capsule_checksums declared);
   (bstr "RUNBOOK.txt", capsule_runbook root); (bstr "download-az.sh", capsule_az_script root);
   (bstr "download-mc.sh", capsule_mc_script root)] ++
  map (fun name => (bstr name, included name))
    ["CAPSULE-README.md"; "CAPSULE-FORMAT.md"; "capsule.py"; "parquet_schema.py"; "capsule-requirements.lock"; "recover.sh"]%string.

(** * The lock *)

Definition acquire_capsule_publish_lock : prog bytes :=
  created ← invoke CNow;
  uuid ← invoke CUuid;
  let token := lock_token created uuid in
  r ← invoke (CCreate capsule_publish_lock_path token);
  match r with
  | Ok _ => mret token
  | Err OAlreadyExists =>
      r ← invoke (CGet capsule_publish_lock_path);
      match r with
      | Ok g =>
          existing ← collect "collect capsule publication lock" g;
          if negb (utf8_valid existing) then failing "capsule publication lock is not UTF-8" else
          match head (lines existing) with
          | None => failing "capsule publication lock has no timestamp"
          | Some line =>
              match parse_i64 line with
              | None => failing "capsule publication lock timestamp is invalid"
              | Some timestamp =>
                  if CAPSULE_PUBLISH_LOCK_STALE_MICROS <? i64_saturating_sub created timestamp
                  then failing "stale capsule publication lock"
                  else failing "another capsule publication holds the remote lock"
              end
          end
      | _ => failing "read capsule publication lock"
      end
  | _ => failing "acquire capsule publication lock"
  end.

Definition release_capsule_publish_lock (token : bytes) : prog unit :=
  r ← invoke (CGet capsule_publish_lock_path);
  match r with
  | Ok g =>
      current ← collect "collect capsule publication lock" g;
      if negb (bool_decide (current = token)) then failing "capsule publication lock ownership changed" else
      r ← invoke (CDelete capsule_publish_lock_path);
      match r with
      | Ok _ => mret tt
      | _ => failing "release capsule publication lock"
      end
  | _ => failing "read capsule publication lock"
  end.

(** [match (result, release)]; a panic unwinds before the release. *)
Definition finish_locked {A} (token : bytes) (result : rres A) : prog A :=
  match result with
  | Panic => Ret Panic
  | Ok a => _ ← release_capsule_publish_lock token; mret a
  | Err e => catch (release_capsule_publish_lock token) (fun release =>
               match release with
               | Ok _ => abort e
               | Err e' => abort (Both e e')
               | Panic => Ret Panic
               end)
  end.

Definition with_capsule_publish_lock {A} (operation : prog A) : prog A :=
  token ← acquire_capsule_publish_lock;
  catch operation (finish_locked token).

(** * Refs *)

Definition capsule_ref_version : prog CapsuleRefVersion :=
  r ← invoke (CGet capsule_latest_path);
  match r with
  | Ok g =>
      b ← collect "read capsule latest ref version" g;
      root ← pure (parse_ref b);
      mret (Present root)
  | Err ONotFound => mret Missing
  | _ => failing "get capsule latest ref version"
  end.

Definition require_current_capsule (expected : bytes) : prog CapsuleRefVersion :=
  current ← capsule_ref_version;
  match current with
  | Missing => failing "incremental capsule publication requires a current generation"
  | Present root =>
      if negb (bool_decide (root = expected)) then failing "capsule generation changed during incremental publication"
      else mret current
  end.

Definition capsule_history_bytes : prog (option bytes) :=
  r ← invoke (CGet capsule_history_path);
  match r with
  | Ok g => b ← collect "read capsule history" g; mret (Some b)
  | Err ONotFound => mret None
  | _ => failing "get capsule history"
  end.

Definition capsule_roots : prog (list bytes) :=
  b ← capsule_history_bytes;
  match b with
  | None => mret []
  | Some b => pure (parse_capsule_history b)
  end.

Definition merge_capsule_history (root : bytes) : prog unit :=
  history ← capsule_roots;
  r ← invoke (CPut capsule_history_path (history_text (merge_roots root history)));
  match r with
  | Ok _ => mret tt
  | _ => failing "publish capsule history ref"
  end.

Definition restore_capsule_history (prior : option bytes) : prog unit :=
  match prior with
  | Some b =>
      r ← invoke (CPut capsule_history_path b);
      match r with
      | Ok _ => mret tt
      | _ => failing "restore capsule history ref"
      end
  | None =>
      r ← invoke (CDelete capsule_history_path);
      match r with
      | Ok _ => mret tt
      | _ => failing "remove new capsule history ref"
      end
  end.

Definition finish_capsule_refs_locked (root : bytes) (expected_ref : CapsuleRefVersion) : prog unit :=
  current ← capsule_ref_version;
  if negb (bool_decide (current = expected_ref)) then failing "capsule latest ref changed before publication lock was acquired" else
  prior_history ← capsule_history_bytes;
  _ ← merge_capsule_history root;
  r ← invoke (CPut capsule_latest_path (latest_text root));
  match r with
  | Ok _ => mret tt
  | _ => catch (restore_capsule_history prior_history) (fun restored =>
           match restored with
           | Ok _ => failing "publish capsule latest ref"
           | Err e => abort (Both (Invariant "publish capsule latest ref") e)
           | Panic => Ret Panic
           end)
  end.

(** * Publication *)

Section Publish.
Context `{Blake3} `{JsonParser} `{ManifestSerde} `{ArrowCast} `{Parquet} `{FileReads} `{Artifacts}.

Definition put_artifact (root : bytes) (_ : unit) (artifact : bytes * bytes) : prog unit :=
  r ← invoke (CPut (capsule_generation_path root artifact.1) artifact.2);
  match r with
  | Ok _ => mret tt
  | _ => failing "publish capsule artifact"
  end.

Definition finish_capsule_publication_locked (root manifest_bytes : bytes) (declared : list CapsuleObject) (uploaded : Z)
    (expected_ref : CapsuleRefVersion) : prog CapsulePublishOutcome :=
  r ← invoke (CPut (capsule_manifest_path root) manifest_bytes);
  match r with
  | Ok _ =>
      _ ← for_each (put_artifact root) tt (artifacts root declared);
      _ ← finish_capsule_refs_locked root expected_ref;
      mret {| po_root := root; payloads_uploaded := uploaded; payloads_total := Z.of_nat (length declared) |}
  | _ => failing "publish capsule manifest"
  end.

Definition put_payload (payloads : store) (uploaded : Z) (o : CapsuleObject) : prog Z :=
  match payloads !! co_hash o with
  | None => failing "capsule payload was not supplied"
  | Some b =>
      if negb (bool_decide (of_bytes b = co_hash o)) then failing "capsule payload bytes do not hash" else
      if negb (Z.of_nat (length b) =? co_size o) then failing "capsule payload has size" else
      r ← invoke (CPut (capsule_payload_path (co_hash o)) b);
      match r with
      | Ok _ => mret (uploaded + 1)
      | _ => failing "publish capsule payload"
      end
  end.

Definition publish_capsule (m : CapsuleManifest) (payloads : store) : prog CapsulePublishOutcome :=
  root ← pure (capsule (capsule_root m));
  manifest_bytes ← pure (capsule (capsule_manifest_bytes m));
  declared ← pure (capsule (payload_objects m));
  _ ← pure (capsule (verify_capsule_payloads m payloads));
  if negb (bool_decide (length declared = size payloads)) then failing "capsule declares payloads but publisher supplied" else
  with_capsule_publish_lock (
    expected_ref ← capsule_ref_version;
    uploaded ← for_each (put_payload payloads) 0 declared;
    finish_capsule_publication_locked root manifest_bytes declared uploaded expected_ref).

(** The reads of a staged file. *)
Definition file_reader (b : bytes) : reader := map Data (read_chunks b).

Definition put_staged (objects_dir : store) (uploaded : Z) (o : CapsuleObject) : prog Z :=
  match objects_dir !! co_hash o with
  | None => failing "open staged capsule payload"
  | Some b =>
      _ ← put_hashed_object (capsule_payload_path (co_hash o)) (co_hash o) (Some (co_size o)) (file_reader b);
      mret (uploaded + 1)
  end.

Definition publish_capsule_directory (m : CapsuleManifest) (objects_dir : store) : prog CapsulePublishOutcome :=
  root ← pure (capsule (capsule_root m));
  manifest_bytes ← pure (capsule (capsule_manifest_bytes m));
  declared ← pure (capsule (payload_objects m));
  _ ← pure (capsule (verify_capsule_payload_directory m objects_dir));
  with_capsule_publish_lock (
    expected_ref ← capsule_ref_version;
    uploaded ← for_each (put_staged objects_dir) 0 declared;
    finish_capsule_publication_locked root manifest_bytes declared uploaded expected_ref).

(** [while let Some(chunk)]: the hashed bytes and the checked size. *)
Fixpoint stream_payload (hashed : bytes) (size : Z) (chunks : list bytes) : rres (bytes * Z) :=
  match chunks with
  | [] => Ok (hashed, size)
  | c :: chunks =>
      if u64_max <? size + Z.of_nat (length c) then Err (Invariant "inherited capsule payload exceeds u64::MAX")
      else stream_payload (hashed ++ c) (size + Z.of_nat (length c)) chunks
  end.

Definition verify_remote_capsule_payload (hash : bytes) (size : Z) : prog unit :=
  r ← invoke (CGet (capsule_payload_path hash));
  match r with
  | Ok g =>
      '(hashed, actual) ← pure (stream_payload [] 0 (g_chunks g));
      if negb (g_complete g) then failing "stream inherited capsule payload" else
      if negb (bool_decide (blake3 hashed = hash)) || negb (actual =? size) then failing "inherited capsule payload has hash and size"
      else mret tt
  | _ => failing "read inherited capsule payload"
  end.

Definition put_inherited (objects_dir : store) (prior : gmap bytes Z) (uploaded : Z) (o : CapsuleObject) : prog Z :=
  if bool_decide (prior !! co_hash o = Some (co_size o)) then
    _ ← verify_remote_capsule_payload (co_hash o) (co_size o); mret uploaded
  else if negb (bool_decide (is_Some (objects_dir !! co_hash o))) then failing "unstaged capsule payload is not inherited from the prior generation"
  else put_staged objects_dir uploaded o.

Definition sizes_of (objects : list CapsuleObject) : gmap bytes Z :=
  fold_left (fun m o => <[co_hash o := co_size o]> m) objects ∅.

Definition publish_capsule_incremental (m : CapsuleManifest) (objects_dir : store) (prior : CapsuleManifest) : prog CapsulePublishOutcome :=
  root ← pure (capsule (capsule_root m));
  manifest_bytes ← pure (capsule (capsule_manifest_bytes m));
  declared ← pure (capsule (payload_objects m));
  prior_root ← pure (capsule (capsule_root prior));
  _ ← pure (capsule (verify_incremental_capsule_payload_directory m prior objects_dir));
  prior_declared ← pure (capsule (payload_objects prior));
  with_capsule_publish_lock (
    _ ← require_current_capsule prior_root;
    uploaded ← for_each (put_inherited objects_dir (sizes_of prior_declared)) 0 declared;
    expected_ref ← require_current_capsule prior_root;
    finish_capsule_publication_locked root manifest_bytes declared uploaded expected_ref).

(** * Reads *)

Definition capsule_manifest (root : bytes) : prog CapsuleManifest :=
  r ← invoke (CGet (capsule_manifest_path root));
  match r with
  | Ok g =>
      b ← collect "read capsule manifest" g;
      m ← pure (capsule (decode_capsule_manifest b));
      computed ← pure (capsule (capsule_root m));
      if negb (bool_decide (computed = root)) then failing "capsule manifest hashes to" else mret m
  | _ => failing "get capsule manifest"
  end.

Definition latest_capsule : prog (option (bytes * CapsuleManifest)) :=
  r ← invoke (CGet capsule_latest_path);
  match r with
  | Ok g =>
      b ← collect "read capsule ref" g;
      root ← pure (parse_ref b);
      m ← capsule_manifest root;
      mret (Some (root, m))
  | Err ONotFound => mret None
  | _ => failing "get capsule latest ref"
  end.

End Publish.
