(* ===== verification/RemoteGc.v ===== *)
(** Garbage collection of recovery-capsule generations,
    [crates/sync-store/src/content_remote.rs]: the reviewed plan and its
    canonical form, the snapshot of what is retained, the candidates, and the
    plan, verify and apply operations. *)

From stdpp Require Import base list gmap numbers strings options.
From Stdlib Require Import ZArith Lia.
From S2P Require Import Prelude RustStd RustText Wire CanonicalJson Capsule CapsuleStream CapsuleVerify RemoteStore RemoteObjects RemoteCapsule.

Definition CAPSULE_GC_PLAN_FORMAT : bytes := bstr "pondcapsule.gc-plan.1".
Definition CAPSULE_GC_PLAN_DOMAIN : bytes := bstr "pondcapsule.gc-plan-root.1" ++ [NL].

Record CapsuleGcObject := { gc_key : bytes; gc_size : Z }.

Record CapsuleGcPlan := {
  gp_format : bytes;
  gp_remote_url : bytes;
  gp_remote_pond_id : bytes;
  gp_latest_root : bytes;
  gp_retained_roots : list bytes;
  gp_created_at_micros : Z;
  gp_not_before_micros : Z;
  gp_deletions : list CapsuleGcObject;
}.

#[export] Instance CapsuleGcObject_eq_dec : EqDecision CapsuleGcObject.
Proof. solve_decision. Defined.
#[export] Instance CapsuleGcPlan_eq_dec : EqDecision CapsuleGcPlan.
Proof. solve_decision. Defined.

(** The JSON of a plan: [serde_json] on the derived implementations. *)
Class PlanSerde := {
  plan_to_vec : CapsuleGcPlan -> option bytes;
  plan_from_slice : bytes -> option CapsuleGcPlan;
}.

(** * Keys *)

Definition contains_slash (s : bytes) : bool := existsb (fun c => bool_decide (c = RustText.SLASH)) s.

Definition parse_capsule_payload_key (key : bytes) : rres (option bytes) :=
  match strip_prefix (CAPSULE_PREFIX ++ bstr "/objects/blake3=") key with
  | None => Ok None
  | Some hex =>
      if contains_slash hex then Err (Invariant "malformed capsule payload key") else
      h ← content (from_hex hex); mret (Some h)
  end.

Definition parse_capsule_manifest_key (key : bytes) : rres (option bytes) :=
  match strip_prefix (CAPSULE_PREFIX ++ bstr "/manifests/") key with
  | None => Ok None
  | Some name =>
      match strip_suffix (bstr ".json") name with
      | None => Err (Invariant "malformed capsule manifest key")
      | Some hex =>
          if contains_slash hex then Err (Invariant "malformed capsule manifest key") else
          h ← content (from_hex hex); mret (Some h)
      end
  end.

(** [str::split_once('/')]. *)
Fixpoint split_once (sep : byte) (s : bytes) : option (bytes * bytes) :=
  match s with
  | [] => None
  | c :: s => if bool_decide (c = sep) then Some ([], s) else '(a, b) ← split_once sep s; Some (c :: a, b)
  end.

Definition artifact_names : list bytes :=
  map bstr ["objects.list"; "checksums"; "RUNBOOK.txt"; "download-az.sh"; "download-mc.sh"; "CAPSULE-README.md";
            "CAPSULE-FORMAT.md"; "capsule.py"; "parquet_schema.py"; "capsule-requirements.lock"; "recover.sh"]%string.

Definition parse_capsule_generation_key (key : bytes) : rres (option bytes) :=
  match strip_prefix (CAPSULE_PREFIX ++ bstr "/generations/") key with
  | None => Ok None
  | Some rest =>
      match split_once RustText.SLASH rest with
      | None => Err (Invariant "malformed capsule generation key")
      | Some (hex, artifact) =>
          if negb (bool_decide (artifact ∈ artifact_names)) then Err (Invariant "unexpected capsule generation artifact") else
          h ← content (from_hex hex); mret (Some h)
      end
  end.

Definition is_present {A} (o : option A) : bool := match o with Some _ => true | None => false end.

Definition validate_capsule_gc_key (key : bytes) : rres unit :=
  if is_prefix [RustText.SLASH] key
     || existsb (fun part => bool_decide (part = []) || bool_decide (part = bstr "..")) (split_on RustText.SLASH key)
  then Err (Invariant "unsafe capsule GC key") else
  payload ← parse_capsule_payload_key key;
  if is_present payload then Ok tt else
  manifest ← parse_capsule_manifest_key key;
  if is_present manifest then Ok tt else
  generation ← parse_capsule_generation_key key;
  if is_present generation then Ok tt else Err (Invariant "capsule GC key is outside managed objects").

(** * Plans *)

Fixpoint check_retained (roots : list bytes) : rres unit :=
  match roots with
  | [] => Ok tt
  | root :: roots =>
      if existsb (in_range 65 90) root then Err (Invariant "capsule GC plan root is not lowercase hexadecimal") else
      _ ← content (from_hex root);
      check_retained roots
  end.

Fixpoint check_deletions (prior : option bytes) (ds : list CapsuleGcObject) : rres unit :=
  match ds with
  | [] => Ok tt
  | d :: ds =>
      _ ← validate_capsule_gc_key (gc_key d);
      if match prior with Some k => negb (bool_decide (bytes_cmp k (gc_key d) = Lt)) | None => false end
      then Err (Invariant "capsule GC plan deletions are not uniquely sorted")
      else check_deletions (Some (gc_key d)) ds
  end.

(** [CapsuleGcPlan::validate]. *)
Definition plan_validate (p : CapsuleGcPlan) : rres unit :=
  if negb (bool_decide (gp_format p = CAPSULE_GC_PLAN_FORMAT)) then Err (Invariant "unsupported capsule GC plan format") else
  if bool_decide (gp_remote_url p = []) || bool_decide (gp_remote_pond_id p = []) then Err (Invariant "capsule GC plan remote identity is empty") else
  if negb (bool_decide (head (gp_retained_roots p) = Some (gp_latest_root p))) then Err (Invariant "capsule GC plan latest root is not first in retention") else
  _ ← check_retained (gp_retained_roots p);
  if gp_not_before_micros p <? gp_created_at_micros p then Err (Invariant "capsule GC plan not-before precedes creation") else
  check_deletions None (gp_deletions p).

Section Plans.
Context `{Blake3} `{PlanSerde}.

Definition capsule_gc_plan_bytes (p : CapsuleGcPlan) : rres bytes :=
  _ ← plan_validate p;
  match plan_to_vec p with
  | Some b => Ok b
  | None => Err (Invariant "encode capsule GC plan")
  end.

Definition decode_capsule_gc_plan (b : bytes) : rres CapsuleGcPlan :=
  match plan_from_slice b with
  | None => Err (Invariant "decode capsule GC plan")
  | Some p =>
      canonical ← capsule_gc_plan_bytes p;
      if bool_decide (canonical = b) then Ok p else Err (Invariant "capsule GC plan is not canonically encoded")
  end.

Definition capsule_gc_plan_hash (p : CapsuleGcPlan) : rres bytes :=
  b ← capsule_gc_plan_bytes p; mret (blake3 (CAPSULE_GC_PLAN_DOMAIN ++ b)).
End Plans.

(** * Candidates *)

Section Gc.
Context `{Blake3} `{JsonParser} `{ManifestSerde} `{PlanSerde}.

(** What the candidates pass decides for one key. *)
Definition is_garbage (retained : list bytes) (reachable : gset bytes) (key : bytes) : rres bool :=
  payload ← parse_capsule_payload_key key;
  match payload with
  | Some hash => Ok (negb (bool_decide (hash ∈ reachable)))
  | None =>
      manifest ← parse_capsule_manifest_key key;
      match manifest with
      | Some root => Ok (negb (bool_decide (root ∈ retained)))
      | None =>
          generation ← parse_capsule_generation_key key;
          match generation with
          | Some root => Ok (negb (bool_decide (root ∈ retained)))
          | None => Ok false
          end
      end
  end.

Fixpoint select_garbage (retained : list bytes) (reachable : gset bytes) (items : list (outcome oerror ObjectMeta)) : rres (list CapsuleGcObject) :=
  match items with
  | [] => Ok []
  | Ok m :: items =>
      garbage ← is_garbage retained reachable (m_location m);
      rest ← select_garbage retained reachable items;
      mret (if garbage : bool then {| gc_key := m_location m; gc_size := m_size m |} :: rest else rest)
  | _ :: _ => Err (Invariant "list capsule GC objects")
  end.

Definition gc_cmp : CapsuleGcObject -> CapsuleGcObject -> comparison := cmp_on gc_key bytes_cmp.

Definition capsule_gc_candidates (retained : list bytes) (reachable : gset bytes) : prog (list CapsuleGcObject) :=
  items ← invoke (CList CAPSULE_PREFIX);
  deletions ← pure (select_garbage retained reachable items);
  mret (sort_by gc_cmp deletions).

(** The payloads of the retained generations. *)
Definition reach (reachable : gset bytes) (root : bytes) : prog (gset bytes) :=
  m ← capsule_manifest root;
  objects ← pure (capsule (payload_objects m));
  mret (list_to_set (co_hash <$> objects) ∪ reachable).

Definition capsule_retention_snapshot : prog (bytes * list bytes * gset bytes) :=
  latest ← latest_capsule;
  match latest with
  | None => failing "capsule GC requires a current generation"
  | Some (latest_root, _) =>
      retained ← capsule_roots;
      if negb (bool_decide (head retained = Some latest_root)) then failing "capsule history does not begin with latest" else
      reachable ← for_each reach ∅ retained;
      mret (latest_root, retained, reachable)
  end.

Definition plan_capsule_gc (pond_id remote_url : bytes) (grace_micros : Z) : prog CapsuleGcPlan :=
  if grace_micros <? 0 then failing "capsule GC grace period cannot be negative" else
  '(latest_root, retained, reachable) ← capsule_retention_snapshot;
  created ← invoke CNow;
  if negb (is_i64 (created + grace_micros)) then failing "capsule GC not-before exceeds i64::MAX" else
  deletions ← capsule_gc_candidates retained reachable;
  let plan := {| gp_format := CAPSULE_GC_PLAN_FORMAT; gp_remote_url := remote_url; gp_remote_pond_id := pond_id;
                 gp_latest_root := to_hex latest_root; gp_retained_roots := map to_hex retained;
                 gp_created_at_micros := created; gp_not_before_micros := created + grace_micros; gp_deletions := deletions |} in
  _ ← pure (plan_validate plan);
  mret plan.

Definition sizes_by_key (objects : list CapsuleGcObject) : gmap bytes Z :=
  fold_left (fun m o => <[gc_key o := gc_size o]> m) objects ∅.

Definition validated_capsule_gc_candidates (pond_id remote_url : bytes) (plan : CapsuleGcPlan) : prog (gmap bytes Z) :=
  _ ← pure (plan_validate plan);
  if negb (bool_decide (gp_remote_url plan = remote_url)) || negb (bool_decide (gp_remote_pond_id plan = pond_id))
  then failing "capsule GC plan targets a different remote" else
  '(latest_root, retained, reachable) ← capsule_retention_snapshot;
  plan_roots ← pure (omap_list (fun root => content (from_hex root)) (gp_retained_roots plan));
  if negb (bool_decide (to_hex latest_root = gp_latest_root plan)) || negb (bool_decide (retained = plan_roots))
  then failing "capsule retention changed after the GC plan was created" else
  candidates ← capsule_gc_candidates retained reachable;
  mret (sizes_by_key candidates).

Fixpoint check_targets (candidates : gmap bytes Z) (ds : list CapsuleGcObject) : rres unit :=
  match ds with
  | [] => Ok tt
  | d :: ds =>
      if negb (bool_decide (candidates !! gc_key d = Some (gc_size d))) then Err (Invariant "capsule GC target no longer matches the plan")
      else check_targets candidates ds
  end.

Definition verify_capsule_gc_plan (pond_id remote_url : bytes) (plan : CapsuleGcPlan) : prog unit :=
  candidates ← validated_capsule_gc_candidates pond_id remote_url plan;
  pure (check_targets candidates (gp_deletions plan)).

Definition delete_target (candidates : gmap bytes Z) (deleted : Z) (d : CapsuleGcObject) : prog Z :=
  match candidates !! gc_key d with
  | Some size =>
      if negb (size =? gc_size d) then failing "capsule GC target has size" else
      r ← invoke (CDelete (gc_key d));
      match r with
      | Ok _ => mret (deleted + 1)
      | _ => failing "delete capsule GC target"
      end
  | None => mret deleted
  end.

Definition apply_capsule_gc_plan (pond_id remote_url : bytes) (plan : CapsuleGcPlan) (reviewed_hash : bytes) : prog Z :=
  actual ← pure (capsule_gc_plan_hash plan);
  if negb (bool_decide (actual = reviewed_hash)) then failing "capsule GC plan hashes to" else
  now ← invoke CNow;
  if now <? gp_not_before_micros plan then failing "capsule GC grace period has not elapsed" else
  with_capsule_publish_lock (
    candidates ← validated_capsule_gc_candidates pond_id remote_url plan;
    for_each (delete_target candidates) 0 (gp_deletions plan)).

End Gc.
