(* ===== verification/RemoteInvariant.v ===== *)
(** What every state of the content remote satisfies and what one request of a
    writer may change: the invariant [remote_inv] and the guarantee [remote_step]
    of the threads, with a preservation lemma per kind of write and the rules
    of the requests. *)

From stdpp Require Import base list gmap numbers strings option relations options.
From Stdlib Require Import ZArith Lia.
From S2P Require Import Prelude RustStd RustText Wire Tree Manifest CanonicalJson Commit SeriesManifest SeriesPack Capsule CapsuleStream CapsuleVerify RemoteStore RemoteObjects RemotePacks RemoteCapsule RemoteGc.

(** * The lock's holder *)

(** The lock object carries a token with an identifier the thread drew. *)
Definition held (t : nat) (w : world) : Prop :=
  exists o created u, objs w !! capsule_publish_lock_path = Some o /\ o_bytes o = lock_token created u /\ issued w !! u = Some t.

Lemma show_i64_no_nl n : no_nl (show_i64 n) = true.
Proof.
  assert (Hd : forall m, 0 <= m -> no_nl (show_u64 m) = true).
  { intros m Hm. destruct (show_u64_digits m Hm) as [Hd _]. unfold no_nl. rewrite forallb_forall in *. intros c Hc.
    specialize (Hd c Hc). apply negb_true_iff, bool_decide_eq_false. intros ->. done. }
  unfold show_i64. destruct (Z.ltb_spec n 0); [|by apply Hd]. simpl. apply Hd. lia.
Qed.

Lemma no_nl_delimited a b x y : no_nl a = true -> no_nl b = true -> a ++ NL :: x = b ++ NL :: y -> a = b /\ x = y.
Proof.
  revert b. induction a as [|c a IH]; intros [|d b]; simpl; rewrite ?andb_true_iff, ?negb_true_iff, ?bool_decide_eq_false.
  - by intros _ _ [= ->].
  - intros _ [Hd _] [= ? _]. congruence.
  - intros [Hc _] _ [= ? _]. congruence.
  - intros [_ Ha] [_ Hb] [= -> E]. destruct (IH b Ha Hb E) as [-> ->]. done.
Qed.

Lemma lock_token_uuid c1 u1 c2 u2 : lock_token c1 u1 = lock_token c2 u2 -> u1 = u2.
Proof.
  unfold lock_token. intros E. apply no_nl_delimited in E as [_ E]; [|apply show_i64_no_nl..]. by apply app_inv_tail in E.
Qed.

Lemma held_unique t t' w : held t w -> held t' w -> t = t'.
Proof.
  intros (o & c & u & Ho & Hb & Hu) (o' & c' & u' & Ho' & Hb' & Hu'). rewrite Ho in Ho'. injection Ho' as <-.
  rewrite Hb in Hb'. apply lock_token_uuid in Hb' as ->. congruence.
Qed.

(** * The guarantee *)

Record remote_step (t : nat) (w w' : world) : Prop := {
  g_once : forall p o, create_once (area_of p) = true -> objs w !! p = Some o -> objs w' !! p = Some o;
  g_issued : issued w ⊆ issued w';
  g_upload : forall u t', issued w !! u = Some t' -> t' <> t ->
    objs w' !! staging_path u = objs w !! staging_path u \/ objs w' !! staging_path u = None;
  g_lock : objs w' !! capsule_publish_lock_path = objs w !! capsule_publish_lock_path
    \/ (objs w !! capsule_publish_lock_path = None /\ held t w') \/ (held t w /\ objs w' !! capsule_publish_lock_path = None);
  g_capsule : held t w \/ forall p, area_of p = ACapsule -> objs w' !! p = objs w !! p;
}.

Lemma remote_step_refl t w : remote_step t w w.
Proof. split; auto. Qed.

(** What the holder of the lock keeps while the others run. *)
Lemma step_other_held t t' w w' : t' <> t -> remote_step t' w w' -> held t w ->
  held t w' /\ forall p, area_of p = ACapsule -> objs w' !! p = objs w !! p.
Proof.
  intros Hne Hs Hh. split.
  - destruct Hh as (o & c & u & Ho & Hb & Hu). destruct (g_lock _ _ _ Hs) as [E|[[E _]|[Hh' _]]].
    + exists o, c, u. rewrite E. split; [done|]. split; [done|]. eapply lookup_weaken; [done|apply (g_issued _ _ _ Hs)].
    + congruence.
    + exfalso. apply Hne. apply (held_unique t' t w); [done|]. by exists o, c, u.
  - destruct (g_capsule _ _ _ Hs) as [Hh'|?]; [|done]. exfalso. apply Hne. by apply (held_unique t' t w).
Qed.

Abbreviation others := (rely remote_step).

Lemma others_once t w w' p o : others t w w' -> create_once (area_of p) = true -> objs w !! p = Some o -> objs w' !! p = Some o.
Proof. intros Hr Hp. induction Hr as [|w w1 w2 (t' & _ & Hs) _ IH]; [done|]. intros Ho. apply IH. by eapply g_once. Qed.

Lemma others_issued t w w' u x : others t w w' -> issued w !! u = Some x -> issued w' !! u = Some x.
Proof.
  intros Hr. induction Hr as [|w w1 w2 (t' & _ & Hs) _ IH]; [done|]. intros Ho. apply IH.
  eapply lookup_weaken; [done|apply (g_issued _ _ _ Hs)].
Qed.

(** The staged object of the thread's own identifier is still there or has been cleaned up. *)
Lemma others_staged t w w' u x : others t w w' -> issued w !! u = Some t ->
  (objs w !! staging_path u = Some x \/ objs w !! staging_path u = None) ->
  objs w' !! staging_path u = Some x \/ objs w' !! staging_path u = None.
Proof.
  intros Hr. induction Hr as [|w w1 w2 (t' & Hne & Hs) _ IH]; [done|]. intros Hu Ho.
  apply IH; [eapply lookup_weaken; [done|apply (g_issued _ _ _ Hs)]|].
  destruct (g_upload _ _ _ Hs u t Hu ltac:(congruence)) as [->| ->]; [done|by right].
Qed.

Lemma others_held t w w' : others t w w' -> held t w ->
  held t w' /\ forall p, area_of p = ACapsule -> objs w' !! p = objs w !! p.
Proof.
  intros Hr. induction Hr as [|w w1 w2 (t' & Hne & Hs) _ IH]; [by intros; split|]. intros Hh.
  destruct (step_other_held _ _ _ _ Hne Hs Hh) as [Hh1 E1]. destruct (IH Hh1) as [Hh2 E2]. split; [done|].
  intros p Hp. by rewrite E2, E1.
Qed.

(** * The invariant *)

Section Invariant.
#[local] Set Default Proof Using "Type*".
Context `{Blake3} `{JsonParser} `{ManifestSerde}.

(** The receipt authenticates the payload's length and tags. *)
Definition backs (r : ObjectReceipt) (h : bytes) (po : obj) : Prop :=
  payload_hash r = h /\ byte_length r = Z.of_nat (length (o_bytes po)) /\ e_tag r = o_etag po /\ version r = o_version po.

(** A payload with its receipt. *)
Definition receipted (h : bytes) (po : obj) (w : world) : Prop :=
  objs w !! v2_object_path h = Some po /\
  exists ro r, objs w !! v2_receipt_path h = Some ro /\ receipt_decode (o_bytes ro) = Ok r /\ backs r h po.

(** A pack of a series, at the key of its hash. *)
Definition pack_of (series hash : bytes) (pk : PackIndex) (w : world) : Prop :=
  exists po, objs w !! v2_pack_path hash = Some po /\ pack_decode (o_bytes po) = Ok pk /\ series_hash pk = series.

Definition is_segment (pk : PackIndex) : Prop := validate_series_segment pk = Ok tt.
Definition is_whole (pk : PackIndex) : Prop := is_segment pk /\ parent_series_hash pk = None.

(** Everything a reader needs of one generation is there. *)
Definition generation (root : bytes) (w : world) : Prop :=
  exists o m os, objs w !! capsule_manifest_path root = Some o /\ capsule_manifest_bytes m = Ok (o_bytes o) /\
    capsule_root m = Ok root /\ payload_objects m = Ok os /\
    (forall ob, ob ∈ os -> is_Some (objs w !! capsule_payload_path (co_hash ob))) /\
    (forall name, name ∈ artifact_names -> is_Some (objs w !! capsule_generation_path root name)).

Record content_inv (w : world) : Prop := {
  i_object : forall h o, objs w !! v2_object_path h = Some o -> blake3 (o_bytes o) = h;
  i_receipt : forall h o, objs w !! v2_receipt_path h = Some o -> exists po, receipted h po w;
}.

Record pack_inv (w : world) : Prop := {
  i_pack : forall h o, objs w !! v2_pack_path h = Some o -> blake3 (o_bytes o) = h /\ is_ok (pack_decode (o_bytes o)) = true;
  i_locator : forall s o, objs w !! v2_series_pack_path s = Some o -> length (o_bytes o) = 32%nat /\ exists pk, pack_of s (o_bytes o) pk w /\ is_segment pk;
  i_consolidated : forall s o, objs w !! v2_consolidated_series_pack_path s = Some o -> length (o_bytes o) = 32%nat /\ exists pk, pack_of s (o_bytes o) pk w /\ is_whole pk;
}.

Record record_inv (w : world) : Prop := {
  i_record : forall h o, objs w !! v2_publication_path h = Some o -> blake3 (o_bytes o) = h;
}.

Record recipe_inv (w : world) : Prop := {
  i_versioned : forall h o, objs w !! recovery_recipe_versioned_path h = Some o -> recovery_recipe_hash (o_bytes o) = h;
  i_discoverable : forall o, objs w !! recovery_recipe_discoverable_path = Some o ->
    exists o', objs w !! recovery_recipe_versioned_path (recovery_recipe_hash (o_bytes o)) = Some o' /\ o_bytes o' = o_bytes o;
}.

Record capsule_inv (w : world) : Prop := {
  i_payload : forall h o, objs w !! capsule_payload_path h = Some o -> blake3 (o_bytes o) = h;
  i_latest : forall o, objs w !! capsule_latest_path = Some o -> exists r, parse_ref (o_bytes o) = Ok r /\ generation r w;
  i_history : forall o, objs w !! capsule_history_path = Some o ->
    exists rs, parse_capsule_history (o_bytes o) = Ok rs /\ forall r, r ∈ rs -> generation r w;
}.

Record remote_inv (w : world) : Prop := {
  i_typed : forall p o, objs w !! p = Some o -> typed o;
  i_content : content_inv w;
  i_packs : pack_inv w;
  i_records : record_inv w;
  i_recipes : recipe_inv w;
  i_capsules : capsule_inv w;
}.

(** ** Frames *)

(** The states agree on the areas. *)
Definition agree_on (areas : list area) (w w' : world) : Prop := forall p, area_of p ∈ areas -> objs w' !! p = objs w !! p.

Lemma content_frame w w' : agree_on [AObject; AReceipt] w w' -> content_inv w -> content_inv w'.
Proof.
  intros E Hi. split.
  - intros h o. rewrite E by (rewrite area_object; set_solver). apply Hi.
  - intros h o. rewrite E by (rewrite area_receipt; set_solver). intros Ho. destruct (i_receipt _ Hi h o Ho) as (po & Hpo & ro & r & Hro & Hr).
    exists po. split; [by rewrite E by (rewrite area_object; set_solver)|]. exists ro, r.
    by rewrite E by (rewrite area_receipt; set_solver).
Qed.

Lemma pack_of_frame s h pk w w' : agree_on [APack] w w' -> pack_of s h pk w -> pack_of s h pk w'.
Proof. intros E (po & Hpo & Hr). exists po. by rewrite E by (rewrite area_pack; set_solver). Qed.

Lemma pack_frame w w' : agree_on [APack; ALocator] w w' -> pack_inv w -> pack_inv w'.
Proof.
  intros E Hi. assert (E' : agree_on [APack] w w') by (intros p Hp; apply E; set_solver). split.
  - intros h o. rewrite E by (rewrite area_pack; set_solver). apply Hi.
  - intros s o. rewrite E by (rewrite area_series_pack; set_solver). intros Ho.
    destruct (i_locator _ Hi s o Ho) as (Hl & pk & Hpk & Hs). split; [done|]. exists pk. split; [|done]. by eapply pack_of_frame.
  - intros s o. rewrite E by (rewrite area_consolidated; set_solver). intros Ho.
    destruct (i_consolidated _ Hi s o Ho) as (Hl & pk & Hpk & Hs). split; [done|]. exists pk. split; [|done]. by eapply pack_of_frame.
Qed.

Lemma record_frame w w' : agree_on [ARecord] w w' -> record_inv w -> record_inv w'.
Proof. intros E Hi. split. intros h o. rewrite E by (rewrite area_publication; set_solver). apply Hi. Qed.

Lemma recipe_frame w w' : agree_on [ARecipe] w w' -> recipe_inv w -> recipe_inv w'.
Proof.
  intros E Hi. split.
  - intros h o. rewrite E by (rewrite area_recipe; set_solver). apply Hi.
  - intros o. rewrite E by (rewrite area_discoverable; set_solver). intros Ho.
    rewrite E by (rewrite area_recipe; set_solver). by apply Hi.
Qed.

(** A generation needs its own keys only. *)
Lemma generation_frame r w w' :
  objs w' !! capsule_manifest_path r = objs w !! capsule_manifest_path r ->
  (forall h, is_Some (objs w !! capsule_payload_path h) -> is_Some (objs w' !! capsule_payload_path h)) ->
  (forall name, is_Some (objs w !! capsule_generation_path r name) -> is_Some (objs w' !! capsule_generation_path r name)) ->
  generation r w -> generation r w'.
Proof.
  intros Em Ep Eg (o & m & os & Ho & Hm & Hr & Hos & Hp & Hg). exists o, m, os. rewrite Em.
  do 4 (split; [done|]). split; [intros ob Hob; apply Ep; by apply Hp|intros name Hn; apply Eg; by apply Hg].
Qed.

Lemma generation_agree r w w' : agree_on [ACapsule] w w' -> generation r w -> generation r w'.
Proof.
  intros E. apply generation_frame.
  - by rewrite E by (rewrite area_manifest; set_solver).
  - intros h. by rewrite E by (rewrite area_payload; set_solver).
  - intros name. by rewrite E by (rewrite area_generation; set_solver).
Qed.

Lemma capsule_frame w w' : agree_on [ACapsule] w w' -> capsule_inv w -> capsule_inv w'.
Proof.
  intros E Hi. split.
  - intros h o. rewrite E by (rewrite area_payload; set_solver). apply Hi.
  - intros o. rewrite E by (rewrite area_latest; set_solver). intros Ho. destruct (i_latest _ Hi o Ho) as (r & Hr & Hg).
    exists r. split; [done|]. by eapply generation_agree.
  - intros o. rewrite E by (rewrite area_history; set_solver). intros Ho. destruct (i_history _ Hi o Ho) as (rs & Hr & Hg).
    exists rs. split; [done|]. intros r Hin. eapply generation_agree; [done|]. by apply Hg.
Qed.

(** ** One key changes *)

Definition changes (p : bytes) (w w' : world) : Prop :=
  issued w' = issued w /\ (forall q, q <> p -> objs w' !! q = objs w !! q) /\ (forall o, objs w' !! p = Some o -> typed o).

Lemma changes_agree p w w' areas : changes p w w' -> area_of p ∉ areas -> agree_on areas w w'.
Proof. intros (_ & E & _) Hp q Hq. apply E. intros ->. done. Qed.

Lemma written_changes p b o w w' : issued w' = issued w -> put_at p b o (objs w) (objs w') ->
  changes p w w' /\ objs w' !! p = Some o /\ o_bytes o = b.
Proof.
  intros Hi (Hb & Ht & E). split; [|split; [by rewrite E, lookup_insert_eq|done]]. split; [done|]. rewrite E. split.
  - intros q Hq. by rewrite lookup_insert_ne by done.
  - intros o'. rewrite lookup_insert_eq. by intros [= <-].
Qed.

Lemma deleted_changes p w w' : issued w' = issued w -> objs w' = delete p (objs w) -> changes p w w' /\ objs w' !! p = None.
Proof.
  intros Hi E. split; [|by rewrite E, lookup_delete_eq]. split; [done|]. rewrite E. split.
  - intros q Hq. by rewrite lookup_delete_ne by done.
  - intros o. by rewrite lookup_delete_eq.
Qed.

(** What remains to show of a change, by its area. *)
Lemma changes_inv p w w' : changes p w w' -> remote_inv w ->
  (area_of p ∈ [AObject; AReceipt] -> content_inv w') ->
  (area_of p ∈ [APack; ALocator] -> pack_inv w') ->
  (area_of p ∈ [ARecord] -> record_inv w') ->
  (area_of p ∈ [ARecipe] -> recipe_inv w') ->
  (area_of p ∈ [ACapsule] -> capsule_inv w') -> remote_inv w'.
Proof.
  intros Hc Hi H1' H2' H3' H4' H5'. split.
  - intros q o Hq. destruct (decide (q = p)) as [->|Hne]; [by apply Hc|]. destruct Hc as (_ & E & _).
    rewrite E in Hq by done. by apply (i_typed _ Hi q).
  - destruct (decide (area_of p ∈ [AObject; AReceipt])); [auto|]. eapply content_frame; [by eapply changes_agree|apply Hi].
  - destruct (decide (area_of p ∈ [APack; ALocator])); [auto|]. eapply pack_frame; [by eapply changes_agree|apply Hi].
  - destruct (decide (area_of p ∈ [ARecord])); [auto|]. eapply record_frame; [by eapply changes_agree|apply Hi].
  - destruct (decide (area_of p ∈ [ARecipe])); [auto|]. eapply recipe_frame; [by eapply changes_agree|apply Hi].
  - destruct (decide (area_of p ∈ [ACapsule])); [auto|]. eapply capsule_frame; [by eapply changes_agree|apply Hi].
Qed.

(** What remains to show of a change for the guarantee. *)
Lemma changes_step t p w w' : changes p w w' ->
  (create_once (area_of p) = true -> objs w !! p = None) ->
  (forall u t', p = staging_path u -> issued w !! u = Some t' -> t' <> t -> objs w' !! p = None) ->
  (p = capsule_publish_lock_path -> (objs w !! p = None /\ held t w') \/ (held t w /\ objs w' !! p = None)) ->
  (area_of p = ACapsule -> held t w) -> remote_step t w w'.
Proof.
  intros (Hi & E & _) Honce Hup Hlock Hcap. split.
  - intros q o Hq Ho. destruct (decide (q = p)) as [->|Hne]; [|by rewrite E]. rewrite Honce in Ho by done. done.
  - by rewrite Hi.
  - intros u t' Hu Hne. destruct (decide (staging_path u = p)) as [<-|Hp]; [|left; by apply E]. right. by eapply Hup.
  - destruct (decide (p = capsule_publish_lock_path)) as [->|Hp]; [|left; apply E; congruence]. right. by apply Hlock.
  - destruct (decide (area_of p = ACapsule)) as [Ha|Ha]; [left; by apply Hcap|]. right. intros q Hq. apply E. congruence.
Qed.

End Invariant.
