(* ===== verification/RemoteRules.v ===== *)
(** The writers' proof rules: each kind of write keeps the remote's invariant and
    guarantee, and each request has a rule that says what its reply shows. *)

From stdpp Require Import base list gmap numbers strings option relations options.
From Stdlib Require Import ZArith Lia.
From S2P Require Import Prelude RustStd RustText Wire Tree Manifest CanonicalJson Commit SeriesManifest SeriesPack Capsule CapsuleStream CapsuleVerify RemoteStore RemoteObjects RemotePacks RemoteCapsule RemoteGc RemoteInvariant.

(** A premise about another area. *)
Ltac elsewhere := let Hin := fresh in intros Hin; exfalso; autorewrite with areas in Hin; revert Hin; clear; set_solver.
(** A key of another area is not the changed one. *)
Ltac other_key E := rewrite E by (apply area_ne; autorewrite with areas; discriminate).

Section Keeps.
#[local] Set Default Proof Using "Type*".
Context `{Blake3} `{JsonParser} `{ManifestSerde}.

Abbreviation keeps t w w' := (remote_inv w' /\ remote_step t w w').

(** A create of a key in a create-once area keeps the guarantee. *)
Lemma once_step t p b o w w' :
  create_once (area_of p) = true -> issued w' = issued w -> objs w !! p = None -> put_at p b o (objs w) (objs w') -> remote_step t w w'.
Proof.
  intros Hp Hi Hn Hw. apply written_changes in Hw as (Hc & _ & _); [|done]. eapply changes_step; [exact Hc|done|..].
  - intros u t' ->. by rewrite area_staging in Hp.
  - intros ->. by rewrite area_lock in Hp.
  - intros E. by rewrite E in Hp.
Qed.

Lemma keep_object t h b o w w' :
  remote_inv w -> issued w' = issued w -> objs w !! v2_object_path h = None -> blake3 b = h ->
  put_at (v2_object_path h) b o (objs w) (objs w') -> keeps t w w'.
Proof.
  intros Hi Hs Hn Hb Hw. split; [|by eapply once_step; [rewrite area_object|..]].
  apply written_changes in Hw as (Hc & Ho & Hob); [|done]. pose proof Hc as (_ & E & _).
  eapply changes_inv; [exact Hc|exact Hi| |elsewhere..]. intros _. split.
  - intros h' o'. destruct (decide (h' = h)) as [->|Hne]; [rewrite Ho; intros [= <-]; by rewrite Hob|].
    rewrite E by (intros ?%(inj _); done). apply (i_object _ (i_content _ Hi)).
  - intros h' ro. other_key E. intros Hro. destruct (i_receipt _ (i_content _ Hi) h' ro Hro) as (po & Hpo & ro' & r & Hro' & Hr).
    exists po. split.
    + rewrite E; [done|]. intros Ep. rewrite Ep in Hpo. congruence.
    + exists ro', r. by other_key E.
Qed.

Lemma keep_receipt t h b o r po w w' :
  remote_inv w -> issued w' = issued w -> objs w !! v2_receipt_path h = None -> receipt_decode b = Ok r ->
  objs w !! v2_object_path h = Some po -> backs r h po ->
  put_at (v2_receipt_path h) b o (objs w) (objs w') -> keeps t w w'.
Proof.
  intros Hi Hs Hn Hb Hpo Hr Hw. split; [|by eapply once_step; [rewrite area_receipt|..]].
  apply written_changes in Hw as (Hc & Ho & Hob); [|done]. pose proof Hc as (_ & E & _).
  eapply changes_inv; [exact Hc|exact Hi| |elsewhere..]. intros _. split.
  - intros h' o'. other_key E. apply (i_object _ (i_content _ Hi)).
  - intros h' ro. destruct (decide (h' = h)) as [->|Hne].
    + intros _. exists po. split; [by other_key E|]. exists o, r. by rewrite Ho, Hob.
    + rewrite E by (intros ?%(inj _); done). intros Hro.
      destruct (i_receipt _ (i_content _ Hi) h' ro Hro) as (po' & Hpo' & ro' & r' & Hro' & Hr').
      exists po'. split; [by other_key E|]. exists ro', r'. by rewrite E by (intros ?%(inj _); done).
Qed.

Lemma pack_of_new s h h' pk w w' :
  objs w !! v2_pack_path h' = None -> (forall q, q <> v2_pack_path h' -> objs w' !! q = objs w !! q) -> pack_of s h pk w -> pack_of s h pk w'.
Proof.
  intros Hn E (po & Hpo & Hr). exists po. split; [|done]. rewrite E; [done|]. intros Ep. rewrite Ep in Hpo. congruence.
Qed.

Lemma keep_pack t h b o w w' :
  remote_inv w -> issued w' = issued w -> objs w !! v2_pack_path h = None -> blake3 b = h -> is_ok (pack_decode b) = true ->
  put_at (v2_pack_path h) b o (objs w) (objs w') -> keeps t w w'.
Proof.
  intros Hi Hs Hn Hb Hd Hw. split; [|by eapply once_step; [rewrite area_pack|..]].
  apply written_changes in Hw as (Hc & Ho & Hob); [|done]. pose proof Hc as (_ & E & _).
  eapply changes_inv; [exact Hc|exact Hi|elsewhere| |elsewhere..]. intros _. split.
  - intros h' o'. destruct (decide (h' = h)) as [->|Hne]; [rewrite Ho; intros [= <-]; by rewrite Hob|].
    rewrite E by (intros ?%(inj _); done). apply (i_pack _ (i_packs _ Hi)).
  - intros s so. other_key E. intros Hso. destruct (i_locator _ (i_packs _ Hi) s so Hso) as (Hl & pk & Hpk & Hseg).
    split; [done|]. exists pk. split; [|done]. by eapply pack_of_new.
  - intros s so. other_key E. intros Hso. destruct (i_consolidated _ (i_packs _ Hi) s so Hso) as (Hl & pk & Hpk & Hseg).
    split; [done|]. exists pk. split; [|done]. by eapply pack_of_new.
Qed.

Lemma keep_locator t s b o pk w w' :
  remote_inv w -> issued w' = issued w -> objs w !! v2_series_pack_path s = None -> length b = 32%nat ->
  pack_of s b pk w -> is_segment pk ->
  put_at (v2_series_pack_path s) b o (objs w) (objs w') -> keeps t w w'.
Proof.
  intros Hi Hs Hn Hb Hpk Hseg Hw. split; [|by eapply once_step; [rewrite area_series_pack|..]].
  apply written_changes in Hw as (Hc & Ho & Hob); [|done]. pose proof Hc as (_ & E & _).
  assert (Hp : forall s h pk, pack_of s h pk w -> pack_of s h pk w').
  { intros s' h' pk' (po & Hpo & Hr). exists po. by other_key E. }
  eapply changes_inv; [exact Hc|exact Hi|elsewhere| |elsewhere..]. intros _. split.
  - intros h o'. other_key E. apply (i_pack _ (i_packs _ Hi)).
  - intros s' so. destruct (decide (s' = s)) as [->|Hne].
    + rewrite Ho. intros [= <-]. rewrite Hob. split; [done|]. exists pk. auto.
    + rewrite E by (intros ?%(inj _); done). intros Hso. destruct (i_locator _ (i_packs _ Hi) s' so Hso) as (Hl & pk' & Hpk' & Hseg').
      split; [done|]. exists pk'. auto.
  - intros s' so. rewrite E by (apply not_eq_sym, locators_differ). intros Hso.
    destruct (i_consolidated _ (i_packs _ Hi) s' so Hso) as (Hl & pk' & Hpk' & Hseg'). split; [done|]. exists pk'. auto.
Qed.

Lemma keep_consolidated t s b o pk w w' :
  remote_inv w -> issued w' = issued w -> objs w !! v2_consolidated_series_pack_path s = None -> length b = 32%nat ->
  pack_of s b pk w -> is_whole pk ->
  put_at (v2_consolidated_series_pack_path s) b o (objs w) (objs w') -> keeps t w w'.
Proof.
  intros Hi Hs Hn Hb Hpk Hseg Hw. split; [|by eapply once_step; [rewrite area_consolidated|..]].
  apply written_changes in Hw as (Hc & Ho & Hob); [|done]. pose proof Hc as (_ & E & _).
  assert (Hp : forall s h pk, pack_of s h pk w -> pack_of s h pk w').
  { intros s' h' pk' (po & Hpo & Hr). exists po. by other_key E. }
  eapply changes_inv; [exact Hc|exact Hi|elsewhere| |elsewhere..]. intros _. split.
  - intros h o'. other_key E. apply (i_pack _ (i_packs _ Hi)).
  - intros s' so. rewrite E by apply locators_differ. intros Hso.
    destruct (i_locator _ (i_packs _ Hi) s' so Hso) as (Hl & pk' & Hpk' & Hseg'). split; [done|]. exists pk'. auto.
  - intros s' so. destruct (decide (s' = s)) as [->|Hne].
    + rewrite Ho. intros [= <-]. rewrite Hob. split; [done|]. exists pk. auto.
    + rewrite E by (intros ?%(inj _); done). intros Hso. destruct (i_consolidated _ (i_packs _ Hi) s' so Hso) as (Hl & pk' & Hpk' & Hseg').
      split; [done|]. exists pk'. auto.
Qed.

Lemma keep_record t h b o w w' :
  remote_inv w -> issued w' = issued w -> objs w !! v2_publication_path h = None -> blake3 b = h ->
  put_at (v2_publication_path h) b o (objs w) (objs w') -> keeps t w w'.
Proof.
  intros Hi Hs Hn Hb Hw. split; [|by eapply once_step; [rewrite area_publication|..]].
  apply written_changes in Hw as (Hc & Ho & Hob); [|done]. pose proof Hc as (_ & E & _).
  eapply changes_inv; [exact Hc|exact Hi|elsewhere|elsewhere| |elsewhere..]. intros _. split.
  intros h' o'. destruct (decide (h' = h)) as [->|Hne]; [rewrite Ho; intros [= <-]; by rewrite Hob|].
  rewrite E by (intros ?%(inj _); done). apply (i_record _ (i_records _ Hi)).
Qed.

Lemma keep_recipe t b o w w' (h := recovery_recipe_hash b) :
  remote_inv w -> issued w' = issued w -> objs w !! recovery_recipe_versioned_path h = None ->
  put_at (recovery_recipe_versioned_path h) b o (objs w) (objs w') -> keeps t w w'.
Proof.
  intros Hi Hs Hn Hw. split; [|by eapply once_step; [rewrite area_recipe|..]].
  apply written_changes in Hw as (Hc & Ho & Hob); [|done]. pose proof Hc as (_ & E & _).
  eapply changes_inv; [exact Hc|exact Hi|elsewhere|elsewhere|elsewhere| |elsewhere]. intros _. split.
  { intros h' o' Ho'. destruct (decide (h' = h)) as [->|Hne].
    - rewrite Ho in Ho'. injection Ho' as <-. by rewrite Hob.
    - rewrite E in Ho' by (by intros ?%(inj recovery_recipe_versioned_path)). by apply (i_versioned _ (i_recipes _ Hi)). }
  intros o'. rewrite E by apply recipe_paths_differ. intros Ho'. destruct (i_discoverable _ (i_recipes _ Hi) o' Ho') as (v & Hv & Hvb).
  exists v. split; [|done]. rewrite E; [done|]. intros Ep. rewrite Ep in Hv. congruence.
Qed.

Lemma keep_discoverable t b o v w w' :
  remote_inv w -> issued w' = issued w -> objs w !! recovery_recipe_discoverable_path = None ->
  objs w !! recovery_recipe_versioned_path (recovery_recipe_hash b) = Some v -> o_bytes v = b ->
  put_at recovery_recipe_discoverable_path b o (objs w) (objs w') -> keeps t w w'.
Proof.
  intros Hi Hs Hn Hv Hvb Hw. split; [|by eapply once_step; [rewrite area_discoverable|..]].
  apply written_changes in Hw as (Hc & Ho & Hob); [|done]. pose proof Hc as (_ & E & _).
  eapply changes_inv; [exact Hc|exact Hi|elsewhere|elsewhere|elsewhere| |elsewhere]. intros _. split.
  { intros h o'. rewrite E by (apply not_eq_sym, recipe_paths_differ). apply (i_versioned _ (i_recipes _ Hi)). }
  intros o'. rewrite Ho. intros [= <-]. exists v. rewrite Hob. by rewrite E by (apply not_eq_sym, recipe_paths_differ).
Qed.

(** Uploads: the owner writes, anyone may delete. *)
Lemma keep_staged t u b o w w' :
  remote_inv w -> issued w' = issued w -> issued w !! u = Some t ->
  put_at (staging_path u) b o (objs w) (objs w') -> keeps t w w'.
Proof.
  intros Hi Hs Hu Hw. apply written_changes in Hw as (Hc & Ho & Hob); [|done].
  split; [eapply changes_inv; [exact Hc|exact Hi|elsewhere..]|].
  eapply changes_step; [exact Hc|by rewrite area_staging| | |by rewrite area_staging].
  - intros u' t' ->%(inj _) Hu' Hne. congruence.
  - intros Ep. apply (f_equal area_of) in Ep. by autorewrite with areas in Ep.
Qed.

Lemma keep_unstaged t p w w' :
  remote_inv w -> issued w' = issued w -> area_of p = AUpload -> objs w' = delete p (objs w) -> keeps t w w'.
Proof.
  intros Hi Hs Hp Hw. apply deleted_changes in Hw as (Hc & Ho); [|done].
  split; [eapply changes_inv; [exact Hc|exact Hi|rewrite Hp; clear; set_solver..]|].
  eapply changes_step; [exact Hc|by rewrite Hp|done| |by rewrite Hp].
  intros ->. by rewrite area_lock in Hp.
Qed.

(** The lock. *)
Lemma keep_acquired t c u o w w' :
  remote_inv w -> issued w' = issued w -> issued w !! u = Some t -> objs w !! capsule_publish_lock_path = None ->
  put_at capsule_publish_lock_path (lock_token c u) o (objs w) (objs w') -> keeps t w w' /\ held t w'.
Proof.
  intros Hi Hs Hu Hn Hw. apply written_changes in Hw as (Hc & Ho & Hob); [|done].
  assert (Hh : held t w') by (exists o, c, u; by rewrite Hs). split; [|done].
  split; [eapply changes_inv; [exact Hc|exact Hi|elsewhere..]|].
  eapply changes_step; [exact Hc|by rewrite area_lock| |auto|by rewrite area_lock].
  intros u' t' Ep. apply (f_equal area_of) in Ep. by autorewrite with areas in Ep.
Qed.

Lemma keep_released t w w' :
  remote_inv w -> issued w' = issued w -> held t w -> objs w' = delete capsule_publish_lock_path (objs w) -> keeps t w w'.
Proof.
  intros Hi Hs Hh Hw. apply deleted_changes in Hw as (Hc & Ho); [|done].
  split; [eapply changes_inv; [exact Hc|exact Hi|elsewhere..]|].
  eapply changes_step; [exact Hc|by rewrite area_lock| |auto|by rewrite area_lock].
  intros u' t' Ep. apply (f_equal area_of) in Ep. by autorewrite with areas in Ep.
Qed.

(** The holder's changes of the capsule area. *)
Lemma keep_capsule t p w w' :
  remote_inv w -> held t w -> area_of p = ACapsule -> changes p w w' -> capsule_inv w' -> keeps t w w' /\ held t w'.
Proof.
  intros Hi Hh Hp Hc Hcap. split; [split|].
  - eapply changes_inv; [exact Hc|exact Hi|by rewrite Hp; set_solver+..|done].
  - eapply changes_step; [exact Hc|by rewrite Hp| | |done].
    + intros u' t' ->. by rewrite area_staging in Hp.
    + intros ->. by rewrite area_lock in Hp.
  - destruct Hh as (o & c & u & Ho & Hb & Hu). exists o, c, u. destruct Hc as (-> & E & _). rewrite E; [done|].
    intros <-. by rewrite area_lock in Hp.
Qed.

End Keeps.

(** * The requests' rules *)

Section Requests.
#[local] Set Default Proof Using "Type*".
Context `{Blake3} `{JsonParser} `{ManifestSerde}.

Definition rwp {A} : nat -> prog A -> (rres A -> world -> Prop) -> world -> Prop := wp remote_inv remote_step.

Lemma rwp_bind {A B} t (p : prog A) (f : A -> prog B) P Q w :
  rwp t p (on_ok P) w -> (forall a w', P a w' -> rwp t (f a) (on_ok Q) w') -> rwp t (p ≫= f) (on_ok Q) w.
Proof. apply wp_bind. Qed.

(** Facts of create-once keys and drawn identifiers are kept by every step. *)
Definition lasting (P : world -> Prop) : Prop := forall t w w', remote_step t w w' -> P w -> P w'.

Lemma rwp_lasting {A} t (p : prog A) (P : world -> Prop) (Q : A -> world -> Prop) w :
  lasting P -> P w -> rwp t p (on_ok Q) w -> rwp t p (on_ok (fun a w' => Q a w' /\ P w')) w.
Proof.
  intros HP Hw Hp. eapply wp_mono; [eapply wp_frame; [exact HP|exact Hw|exact Hp]|]. by intros [a|e|] w' [? ?].
Qed.

Lemma lasting_others P t w w' : lasting P -> others t w w' -> P w -> P w'.
Proof. intros HP Hr. induction Hr as [|w w1 w2 (t' & _ & Hs) _ IH]; [done|]. intros Hw. apply IH. by eapply HP. Qed.

Lemma lasting_once p o : create_once (area_of p) = true -> lasting (fun w => objs w !! p = Some o).
Proof. intros Hp t w w' Hs. by apply (g_once _ _ _ Hs). Qed.

Lemma lasting_issued u t : lasting (fun w => issued w !! u = Some t).
Proof. intros t' w w' Hs Hu. eapply lookup_weaken; [exact Hu|apply (g_issued _ _ _ Hs)]. Qed.

Lemma lasting_and P Q : lasting P -> lasting Q -> lasting (fun w => P w /\ Q w).
Proof. intros HP HQ t w w' Hs [? ?]. split; [by eapply HP|by eapply HQ]. Qed.

Lemma lasting_receipted h po : lasting (receipted h po).
Proof.
  intros t w w' Hs (Ho & ro & r & Hro & Hr). split; [by apply (g_once _ _ _ Hs); [rewrite area_object|]|].
  exists ro, r. split; [|done]. by apply (g_once _ _ _ Hs); [rewrite area_receipt|].
Qed.

Lemma lasting_pack s h pk : lasting (pack_of s h pk).
Proof. intros t w w' Hs (po & Hpo & Hr). exists po. split; [|done]. by apply (g_once _ _ _ Hs); [rewrite area_pack|]. Qed.

Lemma same_world w w' : issued w' = issued w -> objs w' = objs w -> w' = w.
Proof. destruct w, w'. simpl. by intros -> ->. Qed.

Lemma rwp_get {A} t p (f : _ -> prog A) Q w :
  (forall w1 g o, others t w w1 -> remote_inv w1 -> objs w1 !! p = Some o -> g_meta g = meta_of p o ->
     (g_complete g = true -> concat (g_chunks g) = o_bytes o) -> rwp t (f (Ok g)) Q w1) ->
  (forall w1, others t w w1 -> remote_inv w1 -> objs w1 !! p = None -> rwp t (f (Err ONotFound)) Q w1) ->
  (forall w1 r, others t w w1 -> is_ok r = false -> r <> Err ONotFound -> rwp t (f r) Q w1) ->
  rwp t (invoke (CGet p) ≫= f) Q w.
Proof.
  intros Hok Hnf He w1 r w2 Hr Hi [-> Hc]. split; [split; [done|apply remote_step_refl]|].
  destruct r as [g|[]|]; [destruct Hc as (o & Ho & Hm & Hb); by eapply Hok|by apply Hnf|by apply He..].
Qed.

Lemma rwp_head {A} t p (f : _ -> prog A) Q w :
  (forall w1 o, others t w w1 -> remote_inv w1 -> objs w1 !! p = Some o -> rwp t (f (Ok (meta_of p o))) Q w1) ->
  (forall w1, others t w w1 -> remote_inv w1 -> objs w1 !! p = None -> rwp t (f (Err ONotFound)) Q w1) ->
  (forall w1 r, others t w w1 -> is_ok r = false -> r <> Err ONotFound -> rwp t (f r) Q w1) ->
  rwp t (invoke (CHead p) ≫= f) Q w.
Proof.
  intros Hok Hnf He w1 r w2 Hr Hi [-> Hc]. split; [split; [done|apply remote_step_refl]|].
  destruct r as [g|[]|]; [destruct Hc as (o & Ho & ->); by apply Hok|by apply Hnf|by apply He..].
Qed.

Lemma rwp_create {A} t p b (f : _ -> prog A) Q w :
  (forall w1 o w2, others t w w1 -> remote_inv w1 -> objs w1 !! p = None -> issued w2 = issued w1 ->
     put_at p b o (objs w1) (objs w2) -> remote_inv w2 /\ remote_step t w1 w2) ->
  (forall w1 o w2, others t w w1 -> remote_inv w2 -> objs w1 !! p = None -> remote_step t w1 w2 -> issued w2 = issued w1 ->
     put_at p b o (objs w1) (objs w2) -> rwp t (f (Ok (put_result o))) Q w2) ->
  (forall w1 o, others t w w1 -> remote_inv w1 -> objs w1 !! p = Some o -> rwp t (f (Err OAlreadyExists)) Q w1) ->
  (forall w1 r, is_ok r = false -> r <> Err OAlreadyExists -> rwp t (f r) Q w1) ->
  rwp t (invoke (CCreate p b) ≫= f) Q w.
Proof.
  intros Hk Hok Hae He w1 r w2 Hr Hi [Hs Hc].
  assert (Hp : forall P : Prop, perhaps (objs w1) (objs w2) (objs w1 !! p = None /\ exists o, put_at p b o (objs w1) (objs w2)) ->
    remote_inv w2 /\ remote_step t w1 w2).
  { intros _ [E|(Hn & o & Hw)]; [|by eapply Hk]. rewrite (same_world _ _ Hs E). split; [done|apply remote_step_refl]. }
  destruct r as [pr|[]|].
  - destruct Hc as (Hn & o & Hw & ->). destruct (Hk w1 o w2 Hr Hi Hn Hs Hw) as [Hi2 Hg]. split; [done|]. by eapply Hok.
  - split; [by apply (Hp True)|]. by apply He.
  - destruct Hc as [Hn E]. rewrite (same_world _ _ Hs E). split; [split; [done|apply remote_step_refl]|].
    destruct (objs w1 !! p) as [o|] eqn:Ho; [|done]. by eapply Hae.
  - split; [by apply (Hp True)|]. by apply He.
  - split; [by apply (Hp True)|]. by apply He.
Qed.

Lemma rwp_put {A} t p b (f : _ -> prog A) Q w :
  (forall w1 o w2, others t w w1 -> remote_inv w1 -> issued w2 = issued w1 ->
     put_at p b o (objs w1) (objs w2) -> remote_inv w2 /\ remote_step t w1 w2) ->
  (forall w1 o w2, others t w w1 -> remote_inv w1 -> remote_inv w2 -> issued w2 = issued w1 ->
     put_at p b o (objs w1) (objs w2) -> rwp t (f (Ok (put_result o))) Q w2) ->
  (forall w1 w2 r, others t w w1 -> remote_inv w1 -> is_ok r = false ->
     w2 = w1 \/ (exists o, issued w2 = issued w1 /\ put_at p b o (objs w1) (objs w2)) -> rwp t (f r) Q w2) ->
  rwp t (invoke (CPut p b) ≫= f) Q w.
Proof.
  intros Hk Hok He w1 r w2 Hr Hi [Hs Hc].
  assert (Hp : perhaps (objs w1) (objs w2) (exists o, put_at p b o (objs w1) (objs w2)) ->
    (remote_inv w2 /\ remote_step t w1 w2) /\ (w2 = w1 \/ (exists o, issued w2 = issued w1 /\ put_at p b o (objs w1) (objs w2)))).
  { intros [E|(o & Hw)]; [|split; [by eapply Hk|right; by exists o]]. rewrite (same_world _ _ Hs E).
    split; [split; [done|apply remote_step_refl]|by left]. }
  destruct r as [pr|e|].
  - destruct Hc as (o & Hw & ->). pose proof (Hk w1 o w2 Hr Hi Hs Hw) as [Hi2 Hg]. split; [done|]. by eapply Hok.
  - destruct (Hp Hc) as [Hkeep Hcase]. split; [done|]. by eapply He.
  - destruct (Hp Hc) as [Hkeep Hcase]. split; [done|]. by eapply He.
Qed.

Lemma rwp_delete {A} t p (f : _ -> prog A) Q w :
  (forall w1 w2, others t w w1 -> remote_inv w1 -> issued w2 = issued w1 -> objs w2 = delete p (objs w1) ->
     remote_inv w2 /\ remote_step t w1 w2) ->
  (forall w1 w2 x, others t w w1 -> remote_inv w1 -> remote_inv w2 -> issued w2 = issued w1 -> objs w2 = delete p (objs w1) ->
     rwp t (f (Ok x)) Q w2) ->
  (forall w1 w2 r, others t w w1 -> remote_inv w1 -> is_ok r = false ->
     w2 = w1 \/ (issued w2 = issued w1 /\ objs w2 = delete p (objs w1)) -> rwp t (f r) Q w2) ->
  rwp t (invoke (CDelete p) ≫= f) Q w.
Proof.
  intros Hk Hok He w1 r w2 Hr Hi [Hs Hc].
  assert (Hp : perhaps (objs w1) (objs w2) (objs w2 = delete p (objs w1)) ->
    (remote_inv w2 /\ remote_step t w1 w2) /\ (w2 = w1 \/ (issued w2 = issued w1 /\ objs w2 = delete p (objs w1)))).
  { intros [E|Hw]; [|split; [by apply Hk|by right]]. rewrite (same_world _ _ Hs E).
    split; [split; [done|apply remote_step_refl]|by left]. }
  destruct r as [[]|e|].
  - pose proof (Hk w1 w2 Hr Hi Hs Hc) as [Hi2 Hg]. split; [done|]. by eapply Hok.
  - destruct (Hp Hc) as [Hkeep Hcase]. split; [done|]. by eapply He.
  - destruct (Hp Hc) as [Hkeep Hcase]. split; [done|]. by eapply He.
Qed.

(** A multipart upload becomes visible when it completes, or perhaps when completing it fails. *)
Lemma rwp_complete {A} t u (f : _ -> prog A) Q w :
  (forall w1 o w2, others t w w1 -> remote_inv w1 -> issued w2 = issued w1 ->
     put_at (u_path u) (concat (u_parts u)) o (objs w1) (objs w2) -> remote_inv w2 /\ remote_step t w1 w2) ->
  (forall w1 o w2 x, others t w w1 -> remote_inv w1 -> remote_inv w2 -> issued w2 = issued w1 ->
     put_at (u_path u) (concat (u_parts u)) o (objs w1) (objs w2) -> rwp t (f (Ok x)) Q w2) ->
  (forall w2 r, is_ok r = false -> rwp t (f r) Q w2) ->
  rwp t (invoke (CComplete u) ≫= f) Q w.
Proof.
  intros Hk Hok He w1 r w2 Hr Hi [Hs Hc].
  assert (Hp : perhaps (objs w1) (objs w2) (exists o, put_at (u_path u) (concat (u_parts u)) o (objs w1) (objs w2)) ->
    remote_inv w2 /\ remote_step t w1 w2).
  { intros [E|(o & Hw)]; [|by eapply Hk]. rewrite (same_world _ _ Hs E). split; [done|apply remote_step_refl]. }
  destruct r as [[]|e|].
  - destruct Hc as (o & Hw). pose proof (Hk w1 o w2 Hr Hi Hs Hw) as [Hi2 Hg]. split; [done|]. by eapply Hok.
  - split; [by apply Hp|]. by eapply He.
  - split; [by apply Hp|]. by eapply He.
Qed.

Lemma rwp_copy {A} t src dst (f : _ -> prog A) Q w :
  (forall w1 s o w2, others t w w1 -> remote_inv w1 -> objs w1 !! dst = None -> objs w1 !! src = Some s -> issued w2 = issued w1 ->
     put_at dst (o_bytes s) o (objs w1) (objs w2) -> remote_inv w2 /\ remote_step t w1 w2) ->
  (forall w1 s o w2 x, others t w w1 -> remote_inv w2 -> objs w1 !! dst = None -> objs w1 !! src = Some s -> issued w2 = issued w1 ->
     put_at dst (o_bytes s) o (objs w1) (objs w2) -> rwp t (f (Ok x)) Q w2) ->
  (forall w1 o, others t w w1 -> remote_inv w1 -> objs w1 !! dst = Some o -> rwp t (f (Err OAlreadyExists)) Q w1) ->
  (forall w2 r, is_ok r = false -> r <> Err OAlreadyExists -> rwp t (f r) Q w2) ->
  rwp t (invoke (CCopyIfAbsent src dst) ≫= f) Q w.
Proof.
  intros Hk Hok Hae He w1 r w2 Hr Hi [Hs Hc].
  assert (Hp : perhaps (objs w1) (objs w2) (objs w1 !! dst = None /\ exists s o, objs w1 !! src = Some s /\ put_at dst (o_bytes s) o (objs w1) (objs w2)) ->
    remote_inv w2 /\ remote_step t w1 w2).
  { intros [E|(Hn & s & o & Hsrc & Hw)]; [|by eapply Hk]. rewrite (same_world _ _ Hs E). split; [done|apply remote_step_refl]. }
  destruct r as [[]|[]|].
  - destruct Hc as (Hn & s & o & Hsrc & Hw). pose proof (Hk w1 s o w2 Hr Hi Hn Hsrc Hs Hw) as [Hi2 Hg]. split; [done|]. by eapply Hok.
  - split; [by apply Hp|]. by eapply He.
  - destruct Hc as [Hn E]. rewrite (same_world _ _ Hs E). split; [split; [done|apply remote_step_refl]|].
    destruct (objs w1 !! dst) as [o|] eqn:Ho; [|done]. by eapply Hae.
  - split; [by apply Hp|]. by eapply He.
  - split; [by apply Hp|]. by eapply He.
Qed.

Lemma rwp_list {A} t prefix (f : _ -> prog A) Q w :
  (forall w1 r, others t w w1 -> remote_inv w1 -> contract t (CList prefix) w1 r w1 -> rwp t (f r) Q w1) ->
  rwp t (invoke (CList prefix) ≫= f) Q w.
Proof.
  intros Hk w1 r w2 Hr Hi Hc. pose proof Hc as [-> _]. split; [split; [done|apply remote_step_refl]|]. by apply Hk.
Qed.

Lemma rwp_uuid {A} t (f : _ -> prog A) Q w :
  (forall w1 u w2, others t w w1 -> remote_inv w2 -> objs w2 = objs w1 -> issued w1 ⊆ issued w2 -> issued w2 !! u = Some t -> rwp t (f u) Q w2) ->
  rwp t (invoke CUuid ≫= f) Q w.
Proof.
  intros Hk w1 u w2 Hr Hi (Ho & Hn & Hs). assert (Hsub : issued w1 ⊆ issued w2) by (rewrite Hs; by apply insert_subseteq).
  assert (Hag : forall l, agree_on l w1 w2) by (intros l p _; by rewrite Ho).
  assert (Hi2 : remote_inv w2).
  { split; [rewrite Ho; apply (i_typed _ Hi)|eapply content_frame|eapply pack_frame|eapply record_frame|eapply recipe_frame|eapply capsule_frame];
      try apply Hag; apply Hi. }
  split; [split; [done|]|].
  - split; [intros p o _; by rewrite Ho|done|intros; left; by rewrite Ho|left; by rewrite Ho|right; intros; by rewrite Ho].
  - eapply Hk; [done..|]. by rewrite Hs, lookup_insert_eq.
Qed.

(** The requests that change nothing. *)
Lemma rwp_now {A} t (f : _ -> prog A) Q w :
  (forall w1 n, others t w w1 -> remote_inv w1 -> rwp t (f n) Q w1) -> rwp t (invoke CNow ≫= f) Q w.
Proof. intros Hk w1 r w2 Hr Hi ->. split; [split; [done|apply remote_step_refl]|]. by apply Hk. Qed.

Lemma rwp_multipart {A} t p (f : _ -> prog A) Q w :
  (forall w1 r, others t w w1 -> rwp t (f r) Q w1) -> rwp t (invoke (CMultipart p) ≫= f) Q w.
Proof. intros Hk w1 r w2 Hr Hi ->. split; [split; [done|apply remote_step_refl]|]. by apply Hk. Qed.

Lemma rwp_part {A} t u (f : _ -> prog A) Q w :
  (forall w1 r, others t w w1 -> rwp t (f r) Q w1) -> rwp t (invoke (CPart u) ≫= f) Q w.
Proof. intros Hk w1 r w2 Hr Hi ->. split; [split; [done|apply remote_step_refl]|]. by apply Hk. Qed.

Lemma rwp_abort {A} t u (f : _ -> prog A) Q w :
  (forall w1 r, others t w w1 -> rwp t (f r) Q w1) -> rwp t (invoke (CAbort u) ≫= f) Q w.
Proof. intros Hk w1 r w2 Hr Hi ->. split; [split; [done|apply remote_step_refl]|]. by apply Hk. Qed.

End Requests.
