(* ===== verification/RemoteWriters.v ===== *)
(** What the writers of payloads, packs, locators, publication records and the
    recovery recipe do, whatever the other writers do meanwhile: the
    specifications of the operations of [RemoteObjects] and [RemotePacks] in the
    logic of [RemoteRules]. *)

From stdpp Require Import base list gmap numbers strings option relations options.
From Stdlib Require Import ZArith Lia.
From S2P Require Import Prelude RustStd RustText Wire Tree Manifest CanonicalJson Commit SeriesMerkle Capsule CapsuleVerify RemoteStore RemoteObjects RemoteInvariant RemoteRules SeriesManifest SeriesPack RemotePacks.

(** The replies that end the program. *)
Ltac bad_reply := intros; cbn [reply] in *; repeat match goal with r : outcome _ _ |- _ => destruct r as [?|[]|] end; first [done|congruence].

Section Writers.
#[local] Set Default Proof Using "Type*".
Context `{Blake3} `{JsonParser} `{ManifestSerde}.

Lemma rwp_pure {A} t (r : rres A) (Q : A -> world -> Prop) w : (forall a, r = Ok a -> Q a w) -> rwp t (pure r) (on_ok Q) w.
Proof. apply wp_pure. Qed.

Lemma rwp_ret {A} t (a : A) (Q : A -> world -> Prop) w : Q a w -> rwp t (mret a) (on_ok Q) w.
Proof. done. Qed.

Lemma rwp_mret_bind {A B} t (a : A) (f : A -> prog B) Q w : rwp t (f a) Q w -> rwp t (mret a ≫= f) Q w.
Proof. done. Qed.

Lemma rwp_fail {A} t what (Q : A -> world -> Prop) w : rwp t (failing what) (on_ok Q) w.
Proof. done. Qed.

(** A pure step followed by more. *)
Lemma rwp_let {A B} t (r : rres A) (f : A -> prog B) Q w :
  (forall a, r = Ok a -> rwp t (f a) (on_ok Q) w) -> rwp t (pure r ≫= f) (on_ok Q) w.
Proof. destruct r as [a|e|]; [by intros Hf; apply Hf|done|done]. Qed.

Lemma rwp_collect {B} t what g (f : bytes -> prog B) Q w :
  (g_complete g = true -> rwp t (f (concat (g_chunks g))) (on_ok Q) w) -> rwp t (collect what g ≫= f) (on_ok Q) w.
Proof. unfold collect. destruct (g_complete g); [by intros Hf; apply Hf|done]. Qed.

Lemma content_Ok {A} (r : res A) a : content r = Ok a -> r = Ok a.
Proof. by destruct r as [?|?|]; intros [= ->]. Qed.

(** ** Receipts *)

Lemma read_receipt_spec t h w :
  rwp t (read_receipt h) (on_ok (fun r w' => match r with Some rc => exists po, receipted h po w' /\ backs rc h po | None => True end)) w.
Proof.
  unfold read_receipt. apply rwp_get; [|done|bad_reply].
  intros w1 g o Hr Hi Ho _ Hb. apply rwp_collect. intros Hc. apply rwp_let. intros rc Hrc%content_Ok.
  case_bool_decide as Hh; [|done]. apply rwp_ret.
  destruct (i_receipt _ (i_content _ Hi) h o Ho) as (po & Hpo & ro & r & Hro & Hdr & Hbk).
  rewrite Hb in Hrc by done. rewrite Ho in Hro. injection Hro as <-. rewrite Hdr in Hrc. injection Hrc as ->.
  exists po. split; [|done]. split; [done|]. by exists o, rc.
Qed.

Lemma create_receipt_spec t r h po w :
  wf_receipt r = true -> valid_receipt r = true -> objs w !! v2_object_path h = Some po -> backs r h po ->
  rwp t (create_receipt r) (on_ok (fun _ w' => receipted h po w')) w.
Proof.
  intros Hwf Hv Hpo Hbk. unfold create_receipt. apply rwp_let. intros b Hb%content_Ok.
  assert (Hd : receipt_decode b = Ok r) by (by apply receipt_codec). pose proof Hbk as (Eh & _). rewrite Eh.
  assert (Hst : forall w1, others t w w1 -> objs w1 !! v2_object_path h = Some po).
  { intros w1 Hr. by eapply others_once; [exact Hr|rewrite area_object|]. }
  apply rwp_create; [| | |bad_reply].
  - intros w1 o w2 Hr Hi Hn Hs Hw. eapply keep_receipt; eauto.
  - intros w1 o w2 Hr Hi2 Hn Hs Hiss Hw. apply rwp_ret.
    apply written_changes in Hw as (Hc & Ho & Hob); [|done]. split; [by apply (g_once _ _ _ Hs); [rewrite area_object|auto]|].
    exists o, r. by rewrite Hob.
  - intros w1 o Hr Hi Ho. eapply rwp_bind.
    { eapply rwp_lasting; [apply lasting_once|exact (Hst w1 Hr)|apply read_receipt_spec]. by rewrite area_object. }
    intros [rc|] w2 [Hrc Hpo2]; [|done]. case_bool_decide as Heq; [|done]. apply rwp_ret.
    destruct Hrc as (po2 & Hpo2' & Hb2). destruct Hpo2' as [Hpo2' Hro]. rewrite Hpo2 in Hpo2'. injection Hpo2' as <-. by split.
Qed.

Lemma receipt_new_backs h len tag ver r po :
  receipt_new h len tag ver = Ok r -> wf_hash h = true -> typed po -> len = Z.of_nat (length (o_bytes po)) -> tag = o_etag po -> ver = o_version po ->
  wf_receipt r = true /\ valid_receipt r = true /\ backs r h po.
Proof.
  unfold receipt_new. destruct (_ || _) eqn:E; [done|]. intros [= <-] Hh (Hs & Ht & Hv) -> -> ->. split; [|split; [|done]].
  - unfold wf_receipt. simpl. by rewrite Hh, Hs, Ht, Hv.
  - unfold valid_receipt. simpl. by rewrite E.
Qed.

Lemma wf_blake3 b : wf_hash (blake3 b) = true.
Proof. unfold wf_hash. apply bool_decide_true. apply blake3_len. Qed.

(** The receipt of a payload in the store, from its metadata. *)
Lemma receipt_backed_spec t d len m po r w :
  receipt_from_meta d len m = Ok r -> remote_inv w -> objs w !! v2_object_path (obj_hash d) = Some po ->
  len = Z.of_nat (length (o_bytes po)) -> m_etag m = o_etag po -> m_version m = o_version po ->
  rwp t (create_receipt r) (on_ok (fun _ w' => receipted (obj_hash d) po w')) w.
Proof.
  intros Hr%content_Ok Hi Hpo Hl He Hv.
  destruct (receipt_new_backs _ _ _ _ _ po Hr) as (Hwf & Hval & Hbk); [|by apply (i_typed _ Hi _ _ Hpo)|done..|].
  - rewrite <- (i_object _ (i_content _ Hi) _ _ Hpo). apply wf_blake3.
  - by eapply create_receipt_spec.
Qed.

Lemma verify_receipt_identity_spec t d len r (P : world -> Prop) w :
  lasting P -> P w -> rwp t (verify_receipt_identity d len r) (on_ok (fun _ w' => byte_length r = len /\ P w')) w.
Proof.
  intros HP Hw. unfold verify_receipt_identity. destruct (_ || _) eqn:E; [done|].
  apply orb_false_iff in E as [_ E]. apply negb_false_iff, Z.eqb_eq in E.
  apply rwp_head; [|done|bad_reply]. intros w1 o Hr Hi Ho. apply rwp_pure. intros _ _. split; [done|]. by eapply lasting_others.
Qed.

(** ** Payloads from memory *)

(** What a successful write of a payload leaves, for good. *)
Definition stored_object (h : bytes) (w : world) : Prop := exists po, receipted h po w.

Lemma lasting_stored h : lasting (stored_object h).
Proof. intros t w w' Hs (po & Hpo). exists po. by eapply lasting_receipted. Qed.

Lemma put_immutable_object_spec t d b w :
  rwp t (put_immutable_object d b) (on_ok (fun out w' => blake3 b = obj_hash d /\
    exists po, receipted (obj_hash d) po w' /\ length (o_bytes po) = length b)) w.
Proof.
  unfold put_immutable_object. case_bool_decide as Hb; [|done]. cbn [negb]. unfold of_bytes in Hb.
  eapply rwp_bind; [apply read_receipt_spec|]. intros [r|] w1.
  { intros (po & Hpo & Hbk). eapply rwp_bind; [apply (verify_receipt_identity_spec t d _ r (receipted (obj_hash d) po)); [apply lasting_receipted|exact Hpo]|].
    intros _ w2 [Hl Hpo2]. apply rwp_ret. split; [done|]. exists po. split; [done|]. destruct Hbk as (_ & Hlen & _). lia. }
  intros _. apply rwp_create; [| | |bad_reply].
  - intros w2 o w3 Hr Hi Hn Hs Hw. by eapply keep_object.
  - intros w2 o w3 Hr Hi Hn Hst Hs Hw. apply written_changes in Hw as (Hc & Ho & Hob); [|done].
    apply rwp_let. intros r Hr'%content_Ok. eapply rwp_bind.
    + destruct (receipt_new_backs _ _ _ _ _ o Hr') as (Hwf & Hval & Hbk); [rewrite <- Hb; apply wf_blake3|by apply (i_typed _ Hi _ _ Ho)|by rewrite Hob|done..|].
      by eapply (create_receipt_spec _ _ _ o).
    + intros created w4 Hrec. apply rwp_ret. split; [done|]. exists o. by rewrite Hob.
  - intros w2 o Hr Hi Ho. eapply rwp_bind; [apply read_receipt_spec|]. intros [r|] w3.
    + intros (po & Hpo & Hbk). eapply rwp_bind.
      { eapply rwp_bind; [apply (verify_receipt_identity_spec t d _ r (receipted (obj_hash d) po)); [apply lasting_receipted|exact Hpo]|].
        intros _ w4 [Hl Hpo4]. by apply (rwp_ret t false (fun _ w' => byte_length r = Z.of_nat (length b) /\ receipted (obj_hash d) po w')). }
      intros created w5 [Hl Hpo5]. apply rwp_ret. split; [done|]. exists po. split; [done|]. destruct Hbk as (_ & Hlen & _). lia.
    + intros _. eapply (rwp_bind _ _ _ (fun _ w' => exists po, receipted (obj_hash d) po w' /\ length (o_bytes po) = length b)).
      * apply rwp_get; [|done|bad_reply]. intros w4 g o4 Hr4 Hi4 Ho4 Hm Hg. apply rwp_collect. intros Hcomp. rewrite (Hg Hcomp).
        destruct (_ || _) eqn:E; [done|]. rewrite !orb_false_iff, !negb_false_iff, !bool_decide_eq_true in E. destruct E as [[_ El] Eb].
        apply rwp_let. intros r Hr'. eapply wp_ok; [eapply (receipt_backed_spec t d _ _ o4 r w4 Hr' Hi4 Ho4); [done|by rewrite Hm..]|].
        intros created w6 Hrec. exists o4. by rewrite Eb.
      * intros created w7 Hpost. apply rwp_ret. by split.
Qed.

(** ** Streams *)

Lemma fill_size room size rd part size' rd' :
  0 <= room -> fill room size rd = Ok (part, size', rd') -> size' = size + Z.of_nat (length part).
Proof.
  revert room size part size' rd'. induction rd as [|[d|] rd IH]; intros room size part size' rd' Hroom; simpl;
    destruct (Z.eqb_spec room 0); try (intros [= <- <- <-]; simpl; lia).
  destruct d as [|c d]; [intros [= <- <- <-]; simpl; lia|].
  destruct (Z.leb_spec (Z.of_nat (length (c :: d))) room) as [Hle|Hgt].
  - destruct (u64_max <? _); [done|]. intros E. apply bind_Ok in E as ([[part0 size0] rd0] & E & Er). injection Er as <- <- <-.
    apply IH in E; [|lia]. cbn [length app] in *. rewrite length_app. lia.
  - destruct (u64_max <? _); [done|]. intros [= <- <- <-]. cbn [length] in *. rewrite length_take. cbn [length]. lia.
Qed.

Lemma next_part_spec t u (J : world -> Prop) w :
  (forall w w', others t w w' -> J w -> J w') -> J w -> rwp t (next_part u) (on_ok (fun _ w' => J w')) w.
Proof.
  intros HJ Hw. unfold next_part. apply rwp_part. intros w1 [[]|e|] Hr; [by apply rwp_ret, (HJ w)| |];
    apply rwp_abort; bad_reply.
Qed.

Lemma upload_parts_spec t (J : world -> Prop) fuel u inflight size rd w :
  (forall w w', others t w w' -> J w -> J w') -> J w -> size = Z.of_nat (length (concat (u_parts u))) ->
  rwp t (upload_parts fuel u inflight size rd) (on_ok (fun r w' =>
    J w' /\ u_path r.1.1 = u_path u /\ r.2 = Z.of_nat (length (concat (u_parts r.1.1))))) w.
Proof.
  intros HJ. revert u inflight size rd w. induction fuel as [|fuel IH]; intros u inflight size rd w Hw Hs; [done|].
  cbn [upload_parts]. eapply (rwp_bind _ _ _ (fun _ w' => J w')).
  { destruct (_ <=? _)%nat; [|done]. eapply rwp_bind; [by apply (next_part_spec t u J)|]. intros ? w1 Hw1. by apply rwp_ret. }
  intros infl w1 Hw1. destruct (fill _ size rd) as [[[part size'] rd']|[]|] eqn:Ef; [|by unfold abort_upload; apply rwp_abort; bad_reply..|done].
  apply fill_size in Ef; [|done]. case_bool_decide as Hp; [apply rwp_ret; subst; simpl; repeat split; [done|lia]|].
  eapply wp_ok; [apply IH; [done|]|done]. simpl. rewrite concat_app, length_app. simpl. rewrite app_nil_r. lia.
Qed.

Lemma drain_parts_spec t u n (J : world -> Prop) w :
  (forall w w', others t w w' -> J w -> J w') -> J w -> rwp t (drain_parts u n) (on_ok (fun _ w' => J w')) w.
Proof.
  intros HJ. revert w. induction n as [|n IH]; intros w Hw; [done|]. eapply rwp_bind; [by apply (next_part_spec t u J)|].
  intros ? w1 Hw1. by apply IH.
Qed.

(** The bytes become visible at the path only when they hash to the declared hash and have the declared size. *)
Lemma put_hashed_object_spec t p h esz rd (J J' : world -> Prop) w :
  (forall w w', others t w w' -> J w -> J w') -> J w ->
  (forall w1 b o w2, J w1 -> remote_inv w1 -> blake3 b = h -> (forall n, esz = Some n -> Z.of_nat (length b) = n) ->
     issued w2 = issued w1 -> put_at p b o (objs w1) (objs w2) -> (remote_inv w2 /\ remote_step t w1 w2) /\ J' w2) ->
  rwp t (put_hashed_object p h esz rd) (on_ok (fun _ w' => J' w')) w.
Proof.
  intros HJ Hw Hwrite. unfold put_hashed_object. case_bool_decide as Hz.
  { destruct (probe rd) as [count|]; [|done]. destruct (_ || _) eqn:E; [done|].
    rewrite orb_false_iff, !negb_false_iff, bool_decide_eq_true in E. destruct E as [_ ->].
    assert (Hn : forall n, esz = Some n -> Z.of_nat (length (@nil byte)) = n) by (intros n Hn; rewrite Hz in Hn; injection Hn as <-; done).
    apply rwp_put.
    - intros w1 o w2 Hr Hi Hs Hwr. by destruct (Hwrite w1 [] o w2 (HJ _ _ Hr Hw) Hi eq_refl Hn Hs Hwr).
    - intros w1 o w2 Hr Hi Hi2 Hs Hwr. apply rwp_ret. by destruct (Hwrite w1 [] o w2 (HJ _ _ Hr Hw) Hi eq_refl Hn Hs Hwr).
    - bad_reply. }
  apply rwp_multipart. intros w1 [[]|e|] Hr; [|done..]. apply HJ in Hr; [|done].
  eapply rwp_bind; [by apply (upload_parts_spec t J)|]. intros [[u infl] size] w2 (Hw2 & Hp & Hsz). simpl in Hp, Hsz.
  destruct (_ || _) eqn:E; [apply rwp_abort; bad_reply|].
  rewrite orb_false_iff, negb_false_iff, bool_decide_eq_true in E. destruct E as [Eh Es].
  assert (Hn : forall n, esz = Some n -> Z.of_nat (length (concat (u_parts u))) = n).
  { intros n ->. simpl in Es. apply negb_false_iff, Z.eqb_eq in Es. lia. }
  eapply rwp_bind; [by apply (drain_parts_spec t u infl J)|]. intros ? w3 Hw3. rewrite <- Hp in Hwrite.
  apply rwp_complete.
  - intros w4 o w5 Hr4 Hi Hs Hwr. by destruct (Hwrite w4 _ o w5 (HJ _ _ Hr4 Hw3) Hi Eh Hn Hs Hwr).
  - intros w4 o w5 x Hr4 Hi Hi2 Hs Hwr. apply rwp_ret. by destruct (Hwrite w4 _ o w5 (HJ _ _ Hr4 Hw3) Hi Eh Hn Hs Hwr).
  - intros w4 [x|e|] Hx; [done|apply rwp_abort; bad_reply..].
Qed.

Lemma receiptless_chunks_spec hashed len chunks hashed' len' :
  receiptless_chunks hashed len chunks = Ok (hashed', len') -> hashed' = hashed ++ concat chunks /\ len' = len + Z.of_nat (length (concat chunks)).
Proof.
  revert hashed len. induction chunks as [|c chunks IH]; intros hashed len; simpl.
  - intros [= <- <-]. rewrite app_nil_r. split; [done|lia].
  - destruct (u64_max <? _); [done|]. intros E. apply IH in E as [-> ->]. rewrite <- app_assoc, length_app. split; [done|lia].
Qed.

(** A payload in the store and a receipt that authenticates it. *)
Definition found (d : ObjectDescriptor) (r : ObjectReceipt) (w : world) : Prop :=
  remote_inv w /\ exists m po, objs w !! v2_object_path (obj_hash d) = Some po /\
    receipt_from_meta d (Z.of_nat (length (o_bytes po))) m = Ok r /\ m_etag m = o_etag po /\ m_version m = o_version po.

Lemma verify_receiptless_spec t d w : rwp t (verify_receiptless_object d (v2_object_path (obj_hash d))) (on_ok (found d)) w.
Proof.
  unfold verify_receiptless_object. apply rwp_get; [|done|bad_reply]. intros w1 g o Hr Hi Ho Hm Hg.
  apply rwp_let. intros [hashed len] Hh%receiptless_chunks_spec. destruct (g_complete g); [|done]. cbn [negb].
  destruct (_ || _); [done|]. apply rwp_pure. intros r Hrm. split; [done|]. exists (g_meta g), o. split; [done|].
  destruct Hh as [_ ->]. rewrite Hg in Hrm by done. rewrite Z.add_0_l in Hrm. split; [done|]. by rewrite Hm.
Qed.

Lemma found_receipt_spec t d r w : found d r w -> rwp t (create_receipt r) (on_ok (fun _ w' => stored_object (obj_hash d) w')) w.
Proof.
  intros (Hi & m & po & Hpo & Hr & He & Hv). eapply wp_ok; [by eapply receipt_backed_spec|]. intros ? w2 Hrec. by exists po.
Qed.

Lemma put_immutable_object_stream_spec t d rd w :
  rwp t (put_immutable_object_stream d rd) (on_ok (fun _ w' => stored_object (obj_hash d) w')) w.
Proof.
  unfold put_immutable_object_stream. eapply rwp_bind; [apply read_receipt_spec|]. intros [r|] w1.
  { intros (po & Hpo & _). eapply rwp_bind; [apply (verify_receipt_identity_spec t d _ r (receipted (obj_hash d) po)); [apply lasting_receipted|exact Hpo]|].
    intros _ w2 [_ Hpo2]. apply rwp_ret. by exists po. }
  intros _. apply rwp_head; [| |bad_reply].
  { intros w2 o _ _ _. eapply rwp_bind; [apply verify_receiptless_spec|]. intros r w3 Hf.
    eapply rwp_bind; [by eapply found_receipt_spec|]. intros c w4 Hs. by apply rwp_ret. }
  intros w2 _ _ _. apply rwp_uuid. intros w3 u w4 _ _ _ _ Hu.
  eapply rwp_bind.
  { apply (put_hashed_object_spec t _ _ None rd (fun w => issued w !! u = Some t)
      (fun w => issued w !! u = Some t /\ exists o, objs w !! staging_path u = Some o /\ blake3 (o_bytes o) = obj_hash d)); [|done|].
    - intros w5 w6 Hr Hu5. by eapply others_issued.
    - intros w5 b o w6 Hu5 Hi Hb _ Hs Hw. split; [by eapply keep_staged|]. rewrite Hs. split; [done|].
      apply written_changes in Hw as (_ & Ho & Hob); [|done]. exists o. by rewrite Hob. }
  intros _ w5 (Hu5 & o & Ho & Hob).
  assert (Hunstage : forall {A} what (Q : A -> world -> Prop) w, rwp t (unstage (staging_path u) what) (on_ok Q) w).
  { intros A what Q w6. unfold unstage. apply rwp_delete; [|by bad_reply..].
    intros w7 w8 _ Hi Hs Hd. eapply keep_unstaged; [done|done|apply area_staging|done]. }
  apply rwp_head; [|by intros; apply Hunstage|intros; repeat match goal with r : outcome _ _ |- _ => destruct r as [?|[]|] end; first [done|apply Hunstage]].
  intros w6 _ Hr6 _ _. pose proof (others_issued _ _ _ _ _ Hr6 Hu5) as Hu6.
  pose proof (others_staged _ _ _ _ o Hr6 Hu5 (or_introl Ho)) as Ho6.
  assert (Hsrc : forall w7 x, others t w6 w7 -> objs w7 !! staging_path u = Some x -> blake3 (o_bytes x) = obj_hash d).
  { intros w7 x Hr7 Hx. destruct (others_staged _ _ _ _ o Hr7 Hu6 Ho6); congruence. }
  assert (Hdelete : forall {A} (f : reply (CDelete (staging_path u)) -> prog A) Q w,
    (forall w' x, remote_inv w' -> rwp t (f (Ok x)) (on_ok Q) w') -> (forall w' r, is_ok r = false -> rwp t (f r) (on_ok Q) w') ->
    rwp t (invoke (CDelete (staging_path u)) ≫= f) (on_ok Q) w).
  { intros A f Q w7 Hok Hbad. apply rwp_delete; [|by intros; apply Hok|by intros; apply Hbad].
    intros w8 w9 _ Hi Hs Hd. eapply keep_unstaged; [done|done|apply area_staging|done]. }
  apply rwp_copy.
  - intros w7 x o7 w8 Hr7 Hi Hn Hx Hs Hw. eapply keep_object; [done..|exact (Hsrc _ _ Hr7 Hx)|done].
  - intros w7 x o7 w8 [] Hr7 Hi Hn Hx Hs Hw. apply rwp_mret_bind. apply Hdelete; [|bad_reply].
    intros w9 [] _. eapply rwp_bind with (P := found d); [|].
    + apply rwp_head; [|done|bad_reply]. intros w10 o10 _ Hi10 Ho10. apply rwp_pure. intros r Hrm. split; [done|].
      by exists (meta_of (v2_object_path (obj_hash d)) o10), o10.
    + intros r w10 Hf. eapply rwp_bind; [by eapply found_receipt_spec|]. intros c w11 Hst. by apply rwp_ret.
  - intros w7 x Hr7 Hi Hx. apply rwp_mret_bind. apply Hdelete; [|bad_reply]. intros w9 [] _.
    eapply rwp_bind; [apply verify_receiptless_spec|].
    intros r w10 Hf. eapply rwp_bind; [by eapply found_receipt_spec|]. intros c w11 Hst. by apply rwp_ret.
  - intros w7 r Hb Hne. cbn [reply] in r. destruct r as [|[]|]; [done| |done| |];
      (eapply rwp_bind with (P := fun _ _ => False); [apply Hunstage|done]).
Qed.

Lemma put_blob_spec t h rd w : rwp t (put_blob h rd) (on_ok (fun _ w' => stored_object h w')) w.
Proof.
  unfold put_blob. eapply rwp_bind; [apply put_immutable_object_stream_spec|]. intros out w1 Hs. by apply rwp_ret.
Qed.

(** ** Clean-up and reads *)

Lemma beneath_upload p : beneath V2_UPLOAD_PREFIX p -> area_of p = AUpload.
Proof. intros (rest & ->). apply (area_staging rest). Qed.

Lemma list_items_elem what items ms m : list_items what items = Ok ms -> m ∈ ms -> Ok m ∈ items.
Proof.
  revert ms. induction items as [|[x|e|] items IH]; intros ms; simpl; [|intros E|done|done].
  - intros [= <-] Hm. by apply not_elem_of_nil in Hm.
  - apply bind_Ok in E as (ms' & E & [= <-]). intros [->|Hm]%elem_of_cons; [by left|]. right. by eapply IH.
Qed.

Lemma cleanup_stale_uploads_spec t older w : rwp t (cleanup_stale_uploads older) (on_ok (fun _ _ => True)) w.
Proof.
  unfold cleanup_stale_uploads. apply rwp_list. intros w1 items _ Hi (_ & Hl & _). apply rwp_let. intros ms Hms.
  eapply wp_ok; [apply (wp_for_each _ _ t delete_stale (fun _ xs _ => forall m, m ∈ xs -> area_of (m_location m) = AUpload))|done].
  - intros m [_ Hm]%list_elem_of_filter. apply beneath_upload. eapply Hl, list_items_elem; done.
  - intros acc m xs w2 Hxs. unfold delete_stale. apply rwp_delete.
    + intros w3 w4 _ Hi3 Hs Hd. eapply keep_unstaged; [done|done|apply Hxs; by left|done].
    + intros w3 w4 x _ _ _ _ _. apply rwp_ret. intros m' Hm'. apply Hxs. by right.
    + bad_reply.
Qed.

(** A payload that is read hashes to its key. *)
Lemma get_immutable_object_spec t h (P : world -> Prop) w : lasting P -> P w ->
  rwp t (get_immutable_object h) (on_ok (fun r w' => P w' /\ forall b, r = Some b -> blake3 b = h)) w.
Proof.
  intros HP Hw. unfold get_immutable_object. apply rwp_get; [| |bad_reply].
  - intros w1 g o Hr Hi Ho _ Hg. apply rwp_collect. intros Hc. rewrite (Hg Hc).
    case_bool_decide as Hb; [|done]. apply rwp_ret. split; [by eapply lasting_others|]. by intros b [= <-].
  - intros w1 Hr _ _. apply rwp_ret. split; [by eapply lasting_others|done].
Qed.

(** The size of a payload is that of its receipt. *)
Lemma immutable_object_size_spec t h (P : world -> Prop) w : lasting P -> P w ->
  rwp t (immutable_object_size h) (on_ok (fun r w' => P w' /\ forall n, r = Some n ->
    exists po, receipted h po w' /\ n = Z.of_nat (length (o_bytes po)))) w.
Proof.
  intros HP Hw. unfold immutable_object_size. eapply rwp_bind; [eapply rwp_lasting; [exact HP|exact Hw|apply read_receipt_spec]|].
  intros [r|] w1 [Hr HP1].
  - destruct Hr as (po & Hpo & Hb & Hl & _). apply rwp_head; [|done|bad_reply]. intros w2 o Hr2 Hi2 Ho2. apply rwp_let. intros [] _.
    apply rwp_ret. split; [by eapply lasting_others|]. intros n [= <-]. exists po. split; [|done].
    eapply lasting_others; [apply lasting_receipted|exact Hr2|exact Hpo].
  - apply rwp_head; [done| |bad_reply]. intros w2 Hr2 _ _. apply rwp_ret. split; [by eapply lasting_others|done].
Qed.

End Writers.

(** What the writers of packs, locators, publication records and the recovery
    recipe do, whatever the other writers do meanwhile: the specifications of
    the operations of [RemotePacks]. *)

Section PackWriters.
#[local] Set Default Proof Using "Type*".
Context `{Blake3} `{JsonParser} `{ManifestSerde}.

(** The object at a key has the bytes. *)
Definition holds (p b : bytes) (w : world) : Prop := exists o, objs w !! p = Some o /\ o_bytes o = b.

Lemma lasting_holds p b : create_once (area_of p) = true -> lasting (holds p b).
Proof. intros Hp t w w' Hs (o & Ho & Hb). exists o. split; [|done]. by apply (g_once _ _ _ Hs). Qed.

(** ** Small objects *)

Lemma read_small_spec t path hash w :
  rwp t (read_content_addressed_small path hash) (on_ok (fun r w' => remote_inv w' /\
    match r with Some b => holds path b w' /\ blake3 b = hash | None => objs w' !! path = None end)) w.
Proof.
  unfold read_content_addressed_small. apply rwp_get; [| |bad_reply].
  - intros w1 g o Hr Hi Ho _ Hg. apply rwp_collect. intros Hc. rewrite (Hg Hc). case_bool_decide as Hb; [|done].
    apply rwp_ret. split; [done|]. split; [by exists o|done].
  - intros w1 Hr Hi Ho. by apply rwp_ret.
Qed.

(** A conditional create that finds the key taken compares the bytes. *)
Lemma create_small_spec t path hash b w :
  create_once (area_of path) = true ->
  (forall w1 o w2, others t w w1 -> remote_inv w1 -> blake3 b = hash -> objs w1 !! path = None -> issued w2 = issued w1 ->
     put_at path b o (objs w1) (objs w2) -> remote_inv w2 /\ remote_step t w1 w2) ->
  rwp t (create_content_addressed_small path hash b) (on_ok (fun _ w' => holds path b w')) w.
Proof.
  intros Hp Hk. unfold create_content_addressed_small. case_bool_decide as Hb; [|done]. cbn [negb].
  apply rwp_create; [| | |bad_reply].
  - intros w1 o w2 Hr Hi Hn Hs Hw. by eapply Hk.
  - intros w1 o w2 Hr Hi Hn _ Hs Hw. apply rwp_ret. apply written_changes in Hw as (_ & Ho & Hob); [|done]. by exists o.
  - intros w1 o Hr Hi Ho. eapply rwp_bind; [apply read_small_spec|]. intros [e|] w2 [_ He]; [|done].
    case_bool_decide as Heq; [|done]. apply rwp_ret. subst e. apply He.
Qed.

(** ** Packs *)

Lemma get_pack_spec t d (P : world -> Prop) w : lasting P -> P w ->
  rwp t (get_immutable_pack d) (on_ok (fun r w' => P w' /\ forall b, r = Some b ->
    exists pk, pack_of (Commit.series_hash d) (Commit.pack_hash d) pk w' /\ pack_decode b = Ok pk)) w.
Proof.
  intros HP Hw. unfold get_immutable_pack. eapply rwp_bind; [eapply rwp_lasting; [exact HP|exact Hw|apply read_small_spec]|].
  intros [b|] w1 [[_ Hb] HPw]; [|by apply rwp_ret]. apply rwp_let. intros pk Hpk%content_Ok.
  case_bool_decide as Hs; [|done]. apply rwp_ret. split; [done|]. intros b' [= <-]. exists pk. split; [|done].
  destruct Hb as [(o & Ho & Hob) _]. exists o. by rewrite Hob.
Qed.

Lemma store_pack_spec t d b w :
  rwp t (store_immutable_pack d b) (on_ok (fun r w' => blake3 b = Commit.pack_hash d /\ pack_decode b = Ok r.2 /\
    pack_of (Commit.series_hash d) (Commit.pack_hash d) r.2 w')) w.
Proof.
  unfold store_immutable_pack. case_bool_decide as Hb; [|done]. cbn [negb]. apply rwp_let. intros pk Hpk%content_Ok.
  case_bool_decide as Hs; [|done]. cbn [negb]. eapply rwp_bind.
  - apply create_small_spec; [by rewrite area_pack|]. intros w1 o w2 Hr Hi Hh Hn Hi2 Hw. eapply keep_pack; [done..|by rewrite Hpk|done].
  - intros c w1 (o & Ho & Hob). apply rwp_ret. split; [done|]. split; [done|]. exists o. by rewrite Hob.
Qed.

(** ** Locators *)

(** The locator of a series names a pack of that series which is there. *)
Definition located (path s : bytes) (S : PackIndex -> Prop) (w : world) : Prop :=
  exists h pk, holds path h w /\ pack_of s h pk w /\ S pk.

Lemma lasting_located path s S : create_once (area_of path) = true -> lasting (located path s S).
Proof.
  intros Hp t w w' Hst (h & pk & Hh & Hpk & HS). exists h, pk. split; [by eapply lasting_holds|]. split; [by eapply lasting_pack|done].
Qed.

(** What the invariant says of the locator that is read. *)
Lemma read_locator_spec t s path (S : PackIndex -> Prop) (P : world -> Prop) w :
  create_once (area_of path) = true -> lasting P -> P w ->
  (forall w o, remote_inv w -> objs w !! path = Some o -> length (o_bytes o) = 32%nat /\ exists pk, pack_of s (o_bytes o) pk w /\ S pk) ->
  rwp t (read_series_pack_locator s path) (on_ok (fun r w' => P w' /\ forall d, r = Some d -> Commit.series_hash d = s /\
    holds path (Commit.pack_hash d) w' /\ located path s S w')) w.
Proof.
  intros Hp HP Hw Hinv. unfold read_series_pack_locator. apply rwp_get; [| |bad_reply].
  - intros w1 g o Hr Hi Ho _ Hg. apply rwp_collect. intros Hc. rewrite (Hg Hc). case_bool_decide as Hl; [|done].
    apply rwp_ret. split; [by eapply lasting_others|]. intros d [= <-]. split; [done|]. split; [by exists o|].
    destruct (Hinv w1 o Hi Ho) as (_ & pk & Hpk & HS). exists (o_bytes o), pk. split; [by exists o|done].
  - intros w1 Hr Hi Ho. apply rwp_ret. split; [by eapply lasting_others|done].
Qed.

Lemma canonical_pack_spec t s (P : world -> Prop) w : lasting P -> P w ->
  rwp t (canonical_pack_for_series s) (on_ok (fun r w' => P w' /\ forall d, r = Some d -> Commit.series_hash d = s /\
    holds (v2_series_pack_path s) (Commit.pack_hash d) w' /\ located (v2_series_pack_path s) s is_segment w')) w.
Proof.
  intros HP Hw. apply read_locator_spec; [by rewrite area_series_pack|done|done|].
  intros w1 o Hi. apply (i_locator _ (i_packs _ Hi)).
Qed.

Lemma consolidated_pack_spec t s (P : world -> Prop) w : lasting P -> P w ->
  rwp t (consolidated_pack_for_series s) (on_ok (fun r w' => P w' /\ forall d, r = Some d -> Commit.series_hash d = s /\
    holds (v2_consolidated_series_pack_path s) (Commit.pack_hash d) w' /\ located (v2_consolidated_series_pack_path s) s is_whole w')) w.
Proof.
  intros HP Hw. apply read_locator_spec; [by rewrite area_consolidated|done|done|].
  intros w1 o Hi. apply (i_consolidated _ (i_packs _ Hi)).
Qed.

Lemma ensure_locator_spec t d pk w :
  length (Commit.pack_hash d) = 32%nat -> pack_of (Commit.series_hash d) (Commit.pack_hash d) pk w -> is_segment pk ->
  rwp t (ensure_series_pack_locator d) (on_ok (fun _ w' => located (v2_series_pack_path (Commit.series_hash d)) (Commit.series_hash d) is_segment w')) w.
Proof.
  intros Hl Hpk Hseg. unfold ensure_series_pack_locator.
  assert (Hst : forall w1, others t w w1 -> pack_of (Commit.series_hash d) (Commit.pack_hash d) pk w1).
  { intros w1 Hr. eapply lasting_others; [apply lasting_pack|exact Hr|exact Hpk]. }
  apply rwp_create; [| | |bad_reply].
  - intros w1 o w2 Hr Hi Hn Hs Hw. eapply keep_locator; eauto.
  - intros w1 o w2 Hr Hi Hn Hg Hs Hw. apply rwp_ret. apply written_changes in Hw as (_ & Ho & Hob); [|done].
    exists (Commit.pack_hash d), pk. split; [by exists o|]. split; [eapply lasting_pack; eauto|done].
  - intros w1 o Hr Hi Ho. eapply rwp_bind; [apply (canonical_pack_spec t _ (fun _ => True)); [by intros ? ? ?|done]|].
    intros [e|] w2 [_ He]; [|done]. destruct (He e eq_refl) as (_ & _ & Hloc).
    eapply rwp_bind; [eapply get_pack_spec; [|exact Hloc]; by apply lasting_located; rewrite area_series_pack|].
    intros [b|] w3 [Hloc3 _]; [|done]. by apply rwp_ret.
Qed.

Lemma ensure_consolidated_spec t d pk w :
  length (Commit.pack_hash d) = 32%nat -> pack_of (Commit.series_hash d) (Commit.pack_hash d) pk w -> is_whole pk ->
  rwp t (ensure_consolidated_series_pack_locator d)
    (on_ok (fun _ w' => holds (v2_consolidated_series_pack_path (Commit.series_hash d)) (Commit.pack_hash d) w')) w.
Proof.
  intros Hl Hpk Hseg. unfold ensure_consolidated_series_pack_locator.
  assert (Hst : forall w1, others t w w1 -> pack_of (Commit.series_hash d) (Commit.pack_hash d) pk w1).
  { intros w1 Hr. eapply lasting_others; [apply lasting_pack|exact Hr|exact Hpk]. }
  apply rwp_create; [| | |bad_reply].
  - intros w1 o w2 Hr Hi Hn Hs Hw. eapply keep_consolidated; eauto.
  - intros w1 o w2 Hr Hi Hn Hg Hs Hw. apply rwp_ret. apply written_changes in Hw as (_ & Ho & Hob); [|done]. by exists o.
  - intros w1 o Hr Hi Ho. eapply rwp_bind; [apply (consolidated_pack_spec t _ (fun _ => True)); [by intros ? ? ?|done]|].
    intros [e|] w2 [_ He]; [|done]. destruct (He e eq_refl) as (_ & Hh & _).
    eapply rwp_bind; [eapply get_pack_spec; [|exact Hh]; by apply lasting_holds; rewrite area_consolidated|].
    intros [b|] w3 [Hh3 _]; [|done]. case_bool_decide as E; [|done]. apply rwp_ret. by rewrite <- E.
Qed.

Lemma put_immutable_pack_spec t d b w :
  rwp t (put_immutable_pack d b) (on_ok (fun _ w' => blake3 b = Commit.pack_hash d /\ exists pk, pack_decode b = Ok pk /\
    pack_of (Commit.series_hash d) (Commit.pack_hash d) pk w' /\
    (is_segment pk -> located (v2_series_pack_path (Commit.series_hash d)) (Commit.series_hash d) is_segment w'))) w.
Proof.
  unfold put_immutable_pack. eapply rwp_bind; [apply store_pack_spec|]. intros [c pk] w1 (Hb & Hd & Hpk). simpl in Hd, Hpk.
  assert (Hl : length (Commit.pack_hash d) = 32%nat) by (rewrite <- Hb; apply blake3_len).
  eapply (rwp_bind _ _ _ (fun _ w' => pack_of (Commit.series_hash d) (Commit.pack_hash d) pk w' /\
    (is_segment pk -> located (v2_series_pack_path (Commit.series_hash d)) (Commit.series_hash d) is_segment w'))).
  - destruct (validate_series_segment pk) as [[]|e|] eqn:Hseg; cbn [is_ok].
    + eapply wp_ok; [eapply rwp_lasting; [apply lasting_pack|exact Hpk|by eapply ensure_locator_spec]|]. intros [] w2 [? ?]. auto.
    + apply rwp_ret. split; [done|]. unfold is_segment. congruence.
    + apply rwp_ret. split; [done|]. unfold is_segment. congruence.
  - intros ? w2 [Hp2 Hloc]. apply rwp_ret. split; [done|]. by exists pk.
Qed.

(** ** Publication of packs *)

Lemma has_physical_spec t h (P : world -> Prop) w : lasting P -> P w ->
  rwp t (has_physical_object h) (on_ok (fun r w' => P w' /\ (r = true -> stored_object h w'))) w.
Proof.
  intros HP Hw. unfold has_physical_object. eapply rwp_bind; [by apply immutable_object_size_spec|].
  intros [n|] w1 [HP1 Hn]; apply rwp_ret; (split; [done|]); [|done]. intros _. destruct (Hn n eq_refl) as (po & Hpo & _). by exists po.
Qed.

Lemma lasting_forall {A} (P : A -> world -> Prop) (xs : A -> Prop) : (forall x, lasting (P x)) -> lasting (fun w => forall x, xs x -> P x w).
Proof. intros HP t w w' Hs Hw x Hx. eapply HP; [exact Hs|]. by apply Hw. Qed.

(** The hashes checked so far are stored. *)
Lemma check_physical_spec t known hashes w :
  rwp t (check_physical known hashes) (on_ok (fun _ w' => forall h, h ∈ hashes -> h ∉ known -> stored_object h w')) w.
Proof.
  unfold check_physical. eapply wp_ok; [apply (wp_for_each _ _ t _
    (fun checked rest w => (forall h, h ∈ hashes -> h ∉ known -> h ∉ rest -> h ∈ checked) /\ forall h, h ∈ checked -> stored_object h w))|].
  - split; [intros h ? ? []; done|]. intros h. set_solver.
  - intros checked x rest w1 [Hin Hst]. destruct (_ || _) eqn:E.
    + apply rwp_ret. split; [|done]. intros h Hh Hk Hr. destruct (decide (h = x)) as [->|Hne]; [|apply Hin; set_solver].
      apply orb_true_iff in E as [E|E]; apply bool_decide_eq_true in E; [done|done].
    + eapply rwp_bind; [apply (has_physical_spec t x (fun w => forall h, h ∈ checked -> stored_object h w)); [apply lasting_forall; apply lasting_stored|done]|].
      intros [] w2 [Hst2 Hx]; [|done]. apply rwp_ret. split.
      * intros h Hh Hk Hr. destruct (decide (h = x)) as [->|Hne]; [set_solver|]. apply elem_of_union_r, Hin; set_solver.
      * intros h [->%elem_of_singleton|Hh]%elem_of_union; [auto|by apply Hst2].
  - intros checked w1 [Hin Hst] h Hh Hk. apply Hst, Hin; [done|done|]. apply not_elem_of_nil.
Qed.

Lemma require_physical_spec t known hashes w :
  rwp t (require_physical known hashes) (on_ok (fun _ w' => forall h, h ∈ hashes -> h ∉ known -> stored_object h w')) w.
Proof.
  unfold require_physical. eapply wp_ok; [apply (wp_for_each _ _ t _ (fun _ rest w => forall h, h ∈ hashes -> h ∉ known -> h ∉ rest -> stored_object h w))|].
  - intros h ? ? []; done.
  - intros [] x rest w1 Hst. case_bool_decide as E.
    + apply rwp_ret. intros h Hh Hk Hr. apply Hst; set_solver.
    + eapply rwp_bind; [apply (has_physical_spec t x (fun w => forall h, (h ∈ hashes /\ h ∉ known /\ h ∉ (x :: rest)) -> stored_object h w)); [apply lasting_forall; apply lasting_stored|]|].
      { intros h (? & ? & ?). by apply Hst. }
      intros [] w2 [Hst2 Hx]; [|done]. apply rwp_ret. intros h Hh Hk Hr. destruct (decide (h = x)) as [->|Hne]; [auto|]. apply Hst2. set_solver.
  - intros [] w1 Hst h Hh Hk. apply Hst; [done|done|]. apply not_elem_of_nil.
Qed.

Lemma upload_blobs_spec t known blobs w : rwp t (upload_blobs known blobs) (on_ok (fun _ _ => True)) w.
Proof.
  unfold upload_blobs. eapply wp_ok; [apply (wp_for_each _ _ t _ (fun _ _ _ => True)); [done|]|done].
  intros uploaded [h b] rest w1 _. destruct (_ || _); [done|].
  eapply (rwp_bind _ _ _ (fun _ _ => True)); [unfold has_blob; apply rwp_head; [done|done|bad_reply]|].
  intros [] w2 _; [done|]. eapply rwp_bind; [apply put_blob_spec|]. by intros [] w3 _.
Qed.

Lemma publish_pack_spec t series pack blobs known w :
  rwp t (publish_pack_with_known_present series pack blobs known) (on_ok (fun hash w' => exists b pk,
    pack_encode pack = Ok b /\ hash = blake3 b /\ pack_decode b = Ok pk /\ pack_of series hash pk w' /\
    forall h, h ∈ physical_object_hashes pack -> h ∉ known -> stored_object h w')) w.
Proof.
  unfold publish_pack_with_known_present. destruct (negb _); [done|]. apply rwp_let. intros b Hb%content_Ok.
  eapply rwp_bind; [apply upload_blobs_spec|]. intros ? w1 _. eapply rwp_bind; [apply check_physical_spec|]. intros ? w2 Hst.
  eapply rwp_bind.
  - eapply (rwp_lasting _ _ (fun w => forall h, (h ∈ physical_object_hashes pack /\ h ∉ known) -> stored_object h w)); [apply lasting_forall; apply lasting_stored| |apply store_pack_spec].
    intros h [? ?]. by apply Hst.
  - intros [c pk] w3 [(_ & Hd & Hpk) Hst3]. simpl in Hd, Hpk. apply rwp_ret. exists b, pk. repeat split; auto.
Qed.

Lemma whole_of_complete mh m pk : verify_complete_pack_against_manifest mh m pk = Ok tt -> is_whole pk.
Proof.
  unfold verify_complete_pack_against_manifest. intros E. apply bind_Ok in E as ([] & Hs & E). split; [done|].
  destruct (_ || _) eqn:Ec; [done|]. rewrite !orb_false_iff, negb_false_iff, bool_decide_eq_true in Ec. apply Ec.
Qed.

(** The type invariant of [PackIndex]: its fields are private and every constructor validates. *)
Definition pack_typed (pk : PackIndex) : Prop := wf_pack_index pk = true /\ valid_pack pk.

Lemma publish_consolidated_spec t inj series m pack known w :
  pack_typed pack ->
  rwp t (publish_consolidated_pack_with_known_present inj series m pack known) (on_ok (fun out w' =>
    pack_of series (cp_hash out) pack w' /\ is_whole pack /\ holds (v2_consolidated_series_pack_path series) (cp_hash out) w' /\
    forall h, h ∈ physical_object_hashes pack -> h ∉ known -> stored_object h w')) w.
Proof.
  intros [Hwf Hval]. unfold publish_consolidated_pack_with_known_present. apply rwp_let. intros mh _.
  destruct (negb _); [done|]. destruct (negb _); [done|]. apply rwp_let. intros [] Hc%content_Ok. apply whole_of_complete in Hc.
  eapply rwp_bind; [apply require_physical_spec|]. intros ? w1 Hst. apply rwp_let. intros b Hb%content_Ok.
  set (P := fun w => forall h, (h ∈ physical_object_hashes pack /\ h ∉ known) -> stored_object h w).
  assert (HP : lasting P) by (apply lasting_forall; apply lasting_stored).
  eapply rwp_bind; [eapply (rwp_lasting _ _ P); [exact HP|intros h [? ?]; by apply Hst|apply store_pack_spec]|].
  intros [c pk] w2 [(_ & Hd & Hpk) HP2]. simpl in Hd, Hpk.
  assert (pk = pack) as ->. { assert (E : pack_decode b = Ok pack) by (by apply pack_decode_exact). rewrite Hd in E. by injection E. }
  apply rwp_let. intros [] _. eapply rwp_bind.
  - eapply (rwp_lasting _ _ (fun w => P w /\ pack_of series (of_bytes b) pack w)); [apply lasting_and; [exact HP|apply lasting_pack]|by split|].
    eapply ensure_consolidated_spec; [apply blake3_len|exact Hpk|done].
  - intros lc w3 (Hh & HP3 & Hpk3). apply rwp_ret. repeat split; [exact Hpk3|apply Hc|apply Hc|exact Hh|]. intros h ? ?. by apply HP3.
Qed.

(** ** Records and recipes *)

Lemma put_publication_record_spec t pond record w :
  rwp t (put_publication_record pond record) (on_ok (fun _ w' => exists b, publication_encode record = Ok b /\
    pub_pond_id record = pond /\ holds (v2_publication_path (blake3 b)) b w')) w.
Proof.
  unfold put_publication_record. case_bool_decide as Hp; [|done]. cbn [negb]. apply rwp_let. intros b Hb%content_Ok.
  eapply wp_ok; [apply create_small_spec; [by rewrite area_publication|]|].
  - intros w1 o w2 Hr Hi Hh Hn Hs Hw. by eapply keep_record.
  - intros c w1 Hh. by exists b.
Qed.

Lemma create_recipe_spec t b w (h := recovery_recipe_hash b) :
  rwp t (create_exact_object (recovery_recipe_versioned_path h) b) (on_ok (fun _ w' => holds (recovery_recipe_versioned_path h) b w')) w.
Proof.
  unfold create_exact_object. apply rwp_create; [| | |bad_reply].
  - intros w1 o w2 Hr Hi Hn Hs Hw. by eapply keep_recipe.
  - intros w1 o w2 Hr Hi Hn _ Hs Hw. apply rwp_ret. apply written_changes in Hw as (_ & Ho & Hob); [|done]. by exists o.
  - intros w1 o Hr Hi Ho. apply rwp_get; [|done|bad_reply]. intros w2 g o2 Hr2 Hi2 Ho2 _ Hg. apply rwp_collect. intros Hc.
    rewrite (Hg Hc). case_bool_decide as E; [|done]. apply rwp_ret. by exists o2.
Qed.

(** The discoverable bootstrap is backed by its own immutable copy. *)
Definition recipe_backed (w : world) : Prop :=
  exists b, holds recovery_recipe_discoverable_path b w /\ holds (recovery_recipe_versioned_path (recovery_recipe_hash b)) b w.

Lemma lasting_recipe : lasting recipe_backed.
Proof.
  intros t w w' Hs (b & Hd & Hv). exists b. split; (eapply lasting_holds; [|exact Hs|done]); [by rewrite area_discoverable|by rewrite area_recipe].
Qed.

Lemma publish_recipe_spec t recipe w :
  rwp t (publish_recovery_recipe recipe) (on_ok (fun out w' => rr_hash out = recovery_recipe_hash recipe /\
    holds (recovery_recipe_versioned_path (rr_hash out)) recipe w' /\ recipe_backed w')) w.
Proof.
  unfold publish_recovery_recipe. set (h := recovery_recipe_hash recipe). eapply rwp_bind; [apply create_recipe_spec|].
  intros c w1 Hv. eapply (rwp_bind _ _ _ (fun _ w' => recipe_backed w' /\ holds (recovery_recipe_versioned_path h) recipe w')).
  - assert (Hlast : lasting (holds (recovery_recipe_versioned_path h) recipe)) by (apply lasting_holds; by rewrite area_recipe).
    eapply rwp_lasting; [exact Hlast|exact Hv|]. unfold ensure_discoverable_recovery_recipe. apply rwp_create; [| | |bad_reply].
    + intros w2 o w3 Hr Hi Hn Hs Hw. destruct (lasting_others _ _ _ _ Hlast Hr Hv) as (v & Hv2 & Hvb). by eapply keep_discoverable.
    + intros w2 o w3 Hr Hi Hn Hg Hs Hw. apply rwp_ret. apply written_changes in Hw as (_ & Ho & Hob); [|done].
      exists recipe. split; [by exists o|]. eapply Hlast; [exact Hg|]. by eapply lasting_others.
    + intros w2 o Hr Hi Ho. destruct (i_discoverable _ (i_recipes _ Hi) o Ho) as (v & Hv2 & Hvb).
      assert (Hb : recipe_backed w2) by (exists (o_bytes o); split; [by exists o|by exists v]).
      eapply (rwp_bind _ _ _ (fun _ w' => recipe_backed w')); [|by intros ? w3 ?; apply rwp_ret].
      eapply wp_ok; [eapply (rwp_lasting _ _ recipe_backed (fun _ _ => True) w2); [apply lasting_recipe|exact Hb|]|by intros ? ? [_ ?]].
      unfold inspect_discoverable_recovery_recipe, read_recovery_recipe.
      eapply (rwp_bind _ _ _ (fun _ _ => True)); [apply rwp_get; [|done|bad_reply]; intros; unfold collect; by destruct (g_complete g)|].
      intros b w3 _. eapply (rwp_bind _ _ _ (fun _ _ => True)); [apply rwp_get; [|done|bad_reply]; intros; unfold collect; by destruct (g_complete g)|].
      intros b' w4 _. by case_bool_decide.
  - intros c' w2 [Hb Hv2]. by apply rwp_ret.
Qed.

End PackWriters.
