(* ===== verification/RemoteCapsuleWriters.v ===== *)
(** What the publishers of recovery capsules do, whatever the other writers do
    meanwhile: the lock is exclusive, every generation a ref names is complete,
    and a publication that stops anywhere leaves the refs as good as before. *)

From stdpp Require Import base list gmap numbers strings option relations options.
From Stdlib Require Import ZArith Lia.
From S2P Require Import Prelude RustStd RustText Wire Tree Manifest CanonicalJson TableLeaf TableRows Commit Capsule CapsuleStream CapsuleTable CapsuleVerify RemoteStore RemoteObjects RemoteCapsule RemoteGc RemoteInvariant RemoteRules RemoteWriters.

(** * The refs' texts *)

Definition lower_hex (c : byte) : bool := is_digit c || in_range 97 102 c.

Lemma to_hex_lower h : forallb lower_hex (to_hex h) = true.
Proof.
  induction h as [|c h IH]; [done|]. cbn [to_hex forallb]. rewrite IH, andb_true_r, andb_true_iff. apply andb_true_iff.
  revert c. apply (byte_forallb (fun c => lower_hex (hex_digit (Z.shiftr (b2z c) 4)) && lower_hex (hex_digit (Z.land (b2z c) 0x0f)))).
  by vm_compute.
Qed.

Lemma lower_hex_spec c : lower_hex c = true ->
  in_range 0 0x7F c = true /\ plain c = true /\ c <> NL /\ c <> CR /\ in_range 65 90 c = false /\ c <> RustText.SLASH.
Proof.
  intros Hc. assert (E : (negb (lower_hex c) || (in_range 0 0x7F c && plain c && negb (bool_decide (c = NL)) && negb (bool_decide (c = CR))
    && negb (in_range 65 90 c) && negb (bool_decide (c = RustText.SLASH)))) = true).
  { revert c Hc. intros c _. revert c. apply byte_forallb. by vm_compute. }
  rewrite Hc in E. simpl in E. rewrite !andb_true_iff, !negb_true_iff, !bool_decide_eq_false in E. tauto.
Qed.

Lemma to_hex_utf8 h s : utf8_valid (to_hex h ++ s) = utf8_valid s.
Proof.
  apply utf8_app, utf8_ascii. pose proof (to_hex_lower h) as Hl. rewrite forallb_forall in *. intros c Hc. by apply lower_hex_spec, Hl.
Qed.

Lemma to_hex_no_nl h : no_nl (to_hex h) = true.
Proof.
  unfold no_nl. pose proof (to_hex_lower h) as Hl. rewrite forallb_forall in *. intros c Hc. apply negb_true_iff, bool_decide_eq_false. by apply lower_hex_spec, Hl.
Qed.

Lemma to_hex_no_cr h : strip_cr (to_hex h) = to_hex h.
Proof.
  unfold strip_cr. destruct (split_last (to_hex h)) as [[c r]|] eqn:E; [|done]. apply split_last_Some in E.
  case_bool_decide as Hc; [|done]. pose proof (to_hex_lower h) as Hl. rewrite E, forallb_app in Hl. simpl in Hl.
  rewrite !andb_true_iff in Hl. destruct Hl as (_ & Hl & _). apply lower_hex_spec in Hl. tauto.
Qed.

Lemma trim_end_plain l : forallb plain l = true -> trim_end (l ++ [NL]) = l.
Proof.
  induction l as [|c l IH]; [done|]. cbn [forallb app trim_end]. rewrite andb_true_iff. intros [Hc Hl].
  cbn [all_ws]. rewrite ws_len_plain by done. by rewrite IH.
Qed.

Lemma to_hex_plain_text h : forallb plain (to_hex h) = true.
Proof. pose proof (to_hex_lower h) as Hl. rewrite forallb_forall in *. intros c Hc. by apply lower_hex_spec, Hl. Qed.

Lemma from_to_hex h : wf_hash h = true -> from_hex (to_hex h) = Ok h.
Proof. intros Hh. by apply (object_hash_hex h []). Qed.

(** The latest ref names the root it was written for. *)
Lemma parse_latest root : wf_hash root = true -> parse_ref (latest_text root) = Ok root.
Proof.
  intros Hr. unfold parse_ref, latest_text. rewrite to_hex_utf8. cbn [negb utf8_valid]. simpl.
  by rewrite trim_end_plain, from_to_hex by (done || apply to_hex_plain_text).
Qed.

(** What the history's parser guarantees, and that it reads what the publisher writes. *)
Lemma parse_roots_spec roots ls rs :
  parse_roots roots ls = Ok rs -> NoDup roots -> Forall (fun r => wf_hash r = true) roots ->
  NoDup rs /\ Forall (fun r => wf_hash r = true) rs /\ (length rs <= CAPSULE_HISTORY_LIMIT)%nat.
Proof.
  revert roots. induction ls as [|l ls IH]; intros roots; cbn [parse_roots].
  - destruct (Nat.ltb_spec CAPSULE_HISTORY_LIMIT (length roots)); [done|]. intros [= <-]. auto.
  - case_bool_decide; [done|]. destruct (existsb _ _); [done|]. intros E Hn Hw. apply bind_Ok in E as (r & Hr%content_Ok & E).
    case_bool_decide as Hin; [done|]. apply (IH _ E).
    + apply NoDup_app. split; [done|]. split; [|apply NoDup_singleton]. intros x Hx ->%list_elem_of_singleton. done.
    + apply Forall_app. split; [done|]. apply Forall_singleton. by apply (object_hash_hex r l).
Qed.

Lemma parse_roots_hex roots rs :
  NoDup (roots ++ rs) -> Forall (fun r => wf_hash r = true) rs -> (length (roots ++ rs) <= CAPSULE_HISTORY_LIMIT)%nat ->
  parse_roots roots (map to_hex rs) = Ok (roots ++ rs).
Proof.
  revert roots. induction rs as [|r rs IH]; intros roots Hn Hw Hl; cbn [map parse_roots].
  - rewrite app_nil_r in *. destruct (Nat.ltb_spec CAPSULE_HISTORY_LIMIT (length roots)); [lia|done].
  - apply Forall_cons in Hw as [Hr Hw]. rewrite bool_decide_false.
    2: { intros E. apply (f_equal length) in E. rewrite length_to_hex in E. unfold wf_hash in Hr. apply bool_decide_eq_true in Hr. simpl in E. lia. }
    assert (existsb (in_range 65 90) (to_hex r) = false) as ->.
    { apply not_true_iff_false. intros (c & Hc & Hu)%existsb_exists. pose proof (to_hex_lower r) as Hlow. rewrite forallb_forall in Hlow.
      apply Hlow, lower_hex_spec in Hc. destruct Hc as (_ & _ & _ & _ & Hc & _). congruence. }
    rewrite from_to_hex by done. cbn. rewrite bool_decide_false.
    2: { apply NoDup_app in Hn as (_ & Hd & _). intros Hin. apply (Hd r Hin). by left. }
    rewrite IH; rewrite <- ?app_assoc; done.
Qed.

Lemma history_lines rs : rs <> [] -> lines (history_text rs) = map to_hex rs.
Proof.
  intros Hne. unfold history_text.
  assert (E : forall ls, ls <> [] -> join NL ls ++ [NL] = concat (map (fun l => l ++ [NL]) ls)).
  { induction ls as [|l [|l' ls] IH]; intros Hls; [done|simpl; by rewrite app_nil_r|].
    change (join NL (l :: l' :: ls)) with (l ++ NL :: join NL (l' :: ls)). rewrite <- app_assoc.
    change ((NL :: join NL (l' :: ls)) ++ [NL]) with (NL :: (join NL (l' :: ls) ++ [NL])). rewrite IH by done.
    change (concat (map (fun l => l ++ [NL]) (l :: l' :: ls))) with ((l ++ [NL]) ++ concat (map (fun l => l ++ [NL]) (l' :: ls))).
    by rewrite <- app_assoc. }
  rewrite E by (by destruct rs). rewrite <- (app_nil_r (concat _)), lines_app.
  - change (lines []) with (@nil bytes). rewrite app_nil_r, map_map. apply map_ext. apply to_hex_no_cr.
  - apply Forall_forall. intros l Hl. apply list_elem_of_fmap in Hl as (r & -> & _). apply to_hex_no_nl.
Qed.

Lemma history_utf8 rs : utf8_valid (history_text rs) = true.
Proof.
  unfold history_text. induction rs as [|r [|r' rs] IH]; [done| |].
  - cbn [map join]. by rewrite to_hex_utf8.
  - cbn [map join] in *. rewrite <- app_assoc. by rewrite to_hex_utf8.
Qed.

Lemma parse_history_text rs :
  rs <> [] -> NoDup rs -> Forall (fun r => wf_hash r = true) rs -> (length rs <= CAPSULE_HISTORY_LIMIT)%nat ->
  parse_capsule_history (history_text rs) = Ok rs.
Proof.
  intros Hne Hn Hw Hl. unfold parse_capsule_history. rewrite history_utf8, history_lines by done. cbn [negb]. by apply (parse_roots_hex [] rs).
Qed.

Lemma merge_roots_spec root rs :
  NoDup rs -> Forall (fun r => wf_hash r = true) rs -> wf_hash root = true ->
  parse_capsule_history (history_text (merge_roots root rs)) = Ok (merge_roots root rs)
  /\ head (merge_roots root rs) = Some root /\ forall r, r ∈ merge_roots root rs -> r = root \/ r ∈ rs.
Proof.
  intros Hn Hw Hr. unfold merge_roots. split; [|split; [done|]].
  - assert (Hnd : NoDup (root :: filter (fun prior => prior <> root) rs)).
    { apply NoDup_cons. split; [|by apply NoDup_filter]. intros [? _]%list_elem_of_filter. done. }
    apply parse_history_text; [done| | |rewrite length_take; lia].
    + eapply sublist_NoDup; [exact Hnd|apply sublist_take].
    + apply Forall_take, Forall_cons. split; [done|]. apply Forall_forall. intros x [_ Hx]%list_elem_of_filter. rewrite Forall_forall in Hw. by apply Hw.
  - intros r Hin. apply elem_of_take in Hin as (i & Hi & _). apply list_elem_of_lookup_2 in Hi.
    apply elem_of_cons in Hi as [->|Hi]; [by left|right]. by apply list_elem_of_filter in Hi as [_ ?].
Qed.

Section CapsuleWriters.
#[local] Set Default Proof Using "Type*".
Context `{Blake3} `{JsonParser} `{ManifestSerde}.

(** * Writes of the capsule area *)

(** A key of another kind is not the changed one. *)
Ltac other_kind E := rewrite E by (apply ckind_ne; autorewrite with ckinds; discriminate).

(** The change keeps what is there and no ref. *)
Lemma capsule_grows p w w' :
  changes p w w' -> is_Some (objs w' !! p) -> capsule_inv w ->
  (forall o h, p = capsule_payload_path h -> objs w' !! p = Some o -> blake3 (o_bytes o) = h) ->
  (forall r, p = capsule_manifest_path r -> generation r w -> generation r w') ->
  ckind_of p <> KLatest -> ckind_of p <> KHistory -> capsule_inv w'.
Proof.
  intros Hc Hp Hi Hpay Hman Hl Hh. pose proof Hc as (_ & E & _).
  assert (Hsome : forall q, is_Some (objs w !! q) -> is_Some (objs w' !! q)).
  { intros q Hq. destruct (decide (q = p)) as [->|Hne]; [done|]. by rewrite E. }
  assert (Hgen : forall r, generation r w -> generation r w').
  { intros r Hg. destruct (decide (p = capsule_manifest_path r)) as [Ep|Hne]; [by apply Hman|].
    eapply generation_frame; [apply E; congruence|auto|auto|done]. }
  split.
  - intros h o Ho. destruct (decide (capsule_payload_path h = p)) as [Ep|Hne]; [apply (Hpay o h); congruence|].
    rewrite E in Ho by done. by apply (i_payload _ Hi).
  - intros o. rewrite E by (intros Ep; rewrite <- Ep, ckind_latest in Hl; done). intros Ho.
    destruct (i_latest _ Hi o Ho) as (r & Hr & Hg). exists r. auto.
  - intros o. rewrite E by (intros Ep; rewrite <- Ep, ckind_history in Hh; done). intros Ho.
    destruct (i_history _ Hi o Ho) as (rs & Hr & Hg). exists rs. auto.
Qed.

Lemma write_payload t h b o w w' :
  remote_inv w -> held t w -> issued w' = issued w -> blake3 b = h -> put_at (capsule_payload_path h) b o (objs w) (objs w') ->
  (remote_inv w' /\ remote_step t w w') /\ held t w'.
Proof.
  intros Hi Hh Hs Hb Hw. apply written_changes in Hw as (Hc & Ho & Hob); [|done].
  eapply keep_capsule; [done|done|apply area_payload|exact Hc|].
  eapply capsule_grows; [exact Hc|by eexists|apply Hi| | |by rewrite ckind_payload|by rewrite ckind_payload].
  - intros o' h' <-%(inj _). rewrite Ho. intros [= <-]. by rewrite Hob.
  - intros r Ep. apply (f_equal ckind_of) in Ep. by autorewrite with ckinds in Ep.
Qed.

Lemma write_artifact t root name b o w w' :
  remote_inv w -> held t w -> issued w' = issued w -> put_at (capsule_generation_path root name) b o (objs w) (objs w') ->
  (remote_inv w' /\ remote_step t w w') /\ held t w'.
Proof.
  intros Hi Hh Hs Hw. apply written_changes in Hw as (Hc & Ho & Hob); [|done].
  eapply keep_capsule; [done|done|apply area_generation|exact Hc|].
  eapply capsule_grows; [exact Hc|by eexists|apply Hi| | |by rewrite ckind_generation|by rewrite ckind_generation].
  - intros o' h' Ep. apply (f_equal ckind_of) in Ep. by autorewrite with ckinds in Ep.
  - intros r Ep. apply (f_equal ckind_of) in Ep. by autorewrite with ckinds in Ep.
Qed.

(** The manifest of a generation whose payloads are there. *)
Definition payloads_present (os : list CapsuleObject) (w : world) : Prop :=
  forall ob, ob ∈ os -> is_Some (objs w !! capsule_payload_path (co_hash ob)).

Definition artifacts_present (root : bytes) (names : list bytes) (w : world) : Prop :=
  forall name, name ∈ names -> is_Some (objs w !! capsule_generation_path root name).

Lemma write_manifest t root b o m os w w' :
  remote_inv w -> held t w -> issued w' = issued w ->
  capsule_manifest_bytes m = Ok b -> capsule_root m = Ok root -> payload_objects m = Ok os -> payloads_present os w ->
  put_at (capsule_manifest_path root) b o (objs w) (objs w') ->
  (remote_inv w' /\ remote_step t w w') /\ held t w'.
Proof.
  intros Hi Hh Hs Hm Hr Hos Hp Hw. apply written_changes in Hw as (Hc & Ho & Hob); [|done]. pose proof Hc as (_ & E & _).
  eapply keep_capsule; [done|done|apply area_manifest|exact Hc|].
  eapply capsule_grows; [exact Hc|by eexists|apply Hi| | |by rewrite ckind_manifest|by rewrite ckind_manifest].
  - intros o' h' Ep. apply (f_equal ckind_of) in Ep. by autorewrite with ckinds in Ep.
  - intros r <-%(inj _) (o' & m' & os' & _ & _ & _ & _ & _ & Hart). exists o, m, os. rewrite Hob. do 4 (split; [done|]). split.
    + intros ob Hob'. other_kind E. by apply Hp.
    + intros name Hn. other_kind E. by apply Hart.
Qed.

(** The refs. *)
Lemma write_latest t root b o w w' :
  remote_inv w -> held t w -> issued w' = issued w -> parse_ref b = Ok root -> generation root w ->
  put_at capsule_latest_path b o (objs w) (objs w') -> (remote_inv w' /\ remote_step t w w') /\ held t w'.
Proof.
  intros Hi Hh Hs Hb Hg Hw. apply written_changes in Hw as (Hc & Ho & Hob); [|done]. pose proof Hc as (_ & E & _).
  eapply keep_capsule; [done|done|apply area_latest|exact Hc|].
  assert (Hgen : forall r, generation r w -> generation r w').
  { intros r. apply generation_frame; [by other_kind E|intros h; by other_kind E|intros name; by other_kind E]. }
  split.
  - intros h o'. other_kind E. apply (i_payload _ (i_capsules _ Hi)).
  - intros o'. rewrite Ho. intros [= <-]. rewrite Hob. exists root. auto.
  - intros o'. other_kind E. intros Ho'. destruct (i_history _ (i_capsules _ Hi) o' Ho') as (rs & Hr & Hrs). exists rs. auto.
Qed.

(** The history is replaced or removed. *)
Lemma change_history t w w' :
  remote_inv w -> held t w -> changes capsule_history_path w w' ->
  (forall o, objs w' !! capsule_history_path = Some o -> exists rs, parse_capsule_history (o_bytes o) = Ok rs /\ forall r, r ∈ rs -> generation r w) ->
  (remote_inv w' /\ remote_step t w w') /\ held t w'.
Proof.
  intros Hi Hh Hc Hnew. pose proof Hc as (_ & E & _). eapply keep_capsule; [done|done|apply area_history|exact Hc|].
  assert (Hgen : forall r, generation r w -> generation r w').
  { intros r. apply generation_frame; [by other_kind E|intros h; by other_kind E|intros name; by other_kind E]. }
  split.
  - intros h o'. other_kind E. apply (i_payload _ (i_capsules _ Hi)).
  - intros o'. other_kind E. intros Ho'. destruct (i_latest _ (i_capsules _ Hi) o' Ho') as (r & Hr & Hg). exists r. auto.
  - intros o' Ho'. destruct (Hnew o' Ho') as (rs & Hr & Hrs). exists rs. auto.
Qed.

(** * Facts of the capsule area, while the lock is held *)

(** The fact depends on the capsule area only. *)
Definition in_capsule (F : world -> Prop) : Prop := forall w w', agree_on [ACapsule] w w' -> F w -> F w'.

Lemma held_others t F w w' : in_capsule F -> others t w w' -> held t w /\ F w -> held t w' /\ F w'.
Proof.
  intros HF Hr [Hh Hw]. destruct (others_held _ _ _ Hr Hh) as [Hh' E]. split; [done|]. eapply HF; [|exact Hw].
  intros p Hp. apply E. set_solver.
Qed.

Lemma in_capsule_true : in_capsule (fun _ => True).
Proof. by intros ? ?. Qed.

Lemma in_capsule_and F F' : in_capsule F -> in_capsule F' -> in_capsule (fun w => F w /\ F' w).
Proof. intros HF HF' w w' E [? ?]. split; [by eapply HF|by eapply HF']. Qed.

Lemma in_capsule_lookup (p : bytes) (S : option obj -> Prop) : area_of p = ACapsule -> in_capsule (fun w => S (objs w !! p)).
Proof. intros Hp w w' E. by rewrite E by (rewrite Hp; set_solver). Qed.

Lemma in_capsule_generation r : in_capsule (generation r).
Proof. intros w w'. apply generation_agree. Qed.

Lemma in_capsule_payloads os : in_capsule (payloads_present os).
Proof. intros w w' E Hp ob Hob. rewrite E by (rewrite area_payload; set_solver). by apply Hp. Qed.

Lemma in_capsule_artifacts root names : in_capsule (artifacts_present root names).
Proof. intros w w' E Hp n Hn. rewrite E by (rewrite area_generation; set_solver). by apply Hp. Qed.

Lemma present_grows os w p o b w' : put_at p b o (objs w) (objs w') -> payloads_present os w -> payloads_present os w'.
Proof.
  intros (_ & _ & E) Hp ob Hob. rewrite E. destruct (decide (p = capsule_payload_path (co_hash ob))) as [->|Hne].
  - rewrite lookup_insert_eq. by eexists.
  - rewrite lookup_insert_ne by done. by apply Hp.
Qed.

Lemma artifacts_grow root names w p o b w' : put_at p b o (objs w) (objs w') -> artifacts_present root names w -> artifacts_present root names w'.
Proof.
  intros (_ & _ & E) Hp n Hn. rewrite E. destruct (decide (p = capsule_generation_path root n)) as [->|Hne].
  - rewrite lookup_insert_eq. by eexists.
  - rewrite lookup_insert_ne by done. by apply Hp.
Qed.

End CapsuleWriters.
