(* ===== verification/RemotePublish.v ===== *)
(** The lock and the publishers of recovery capsules, verified in the logic of
    [RemoteRules]: a publication writes the payloads, the manifest and the
    artifacts before the refs, under a lock only its owner releases. *)

From stdpp Require Import base list gmap numbers strings option relations options.
From Stdlib Require Import ZArith Lia.
From S2P Require Import Prelude RustStd RustText Wire Tree Manifest CanonicalJson TableLeaf TableRows Commit Capsule CapsuleStream CapsuleTable CapsuleVerify RemoteStore RemoteObjects RemoteCapsule RemoteGc RemoteInvariant RemoteRules RemoteWriters RemoteCapsuleWriters.

Section Publish.
#[local] Set Default Proof Using "Type*".
Context `{Blake3} `{JsonParser} `{ManifestSerde}.

(** * The lock *)

Lemma acquire_spec t w :
  rwp t acquire_capsule_publish_lock (on_ok (fun token w' => exists c u, token = lock_token c u /\ issued w' !! u = Some t /\ held t w')) w.
Proof.
  unfold acquire_capsule_publish_lock. apply rwp_now. intros w1 c _ _. apply rwp_uuid. intros w2 u w3 _ _ _ _ Hu.
  apply rwp_create; [| | |bad_reply].
  - intros w4 o w5 Hr Hi Hn Hs Hw. eapply keep_acquired; [done|done| |done|exact Hw]. by eapply others_issued.
  - intros w4 o w5 Hr Hi Hn _ Hs Hw. apply rwp_ret. exists c, u. rewrite Hs. pose proof (others_issued _ _ _ _ _ Hr Hu) as Hu4.
    split; [done|]. split; [done|]. apply written_changes in Hw as (_ & Ho & Hob); [|done]. exists o, c, u. by rewrite Hs.
  - intros w4 o _ _ _. apply rwp_get; [|done|bad_reply]. intros w5 g o5 _ _ _ _ _. apply rwp_collect. intros _.
    destruct (negb _); [done|]. destruct (head _) as [line|]; [|done]. destruct (parse_i64 line); [|done]. by destruct (_ <? _).
Qed.

(** Only the owner's token is removed. *)
Lemma release_spec t c u w :
  issued w !! u = Some t -> rwp t (release_capsule_publish_lock (lock_token c u)) (on_ok (fun _ _ => True)) w.
Proof.
  intros Hu. unfold release_capsule_publish_lock. apply rwp_get; [|done|bad_reply]. intros w1 g o Hr Hi Ho _ Hg.
  apply rwp_collect. intros Hc. rewrite (Hg Hc). case_bool_decide as Hb; [|done]. cbn [negb].
  assert (Hh : held t w1) by (exists o, c, u; split; [done|]; split; [done|]; by eapply others_issued).
  apply rwp_delete; [|done|bad_reply]. intros w2 w3 Hr2 Hi2 Hs Hd. eapply keep_released; [done|done| |done]. by eapply others_held.
Qed.

Lemma with_lock_spec {A} t (op : prog A) w :
  (forall w1, held t w1 -> rwp t op (on_ok (fun _ _ => True)) w1) ->
  rwp t (with_capsule_publish_lock op) (on_ok (fun _ _ => True)) w.
Proof.
  intros Hop. unfold with_capsule_publish_lock. eapply rwp_bind; [apply acquire_spec|]. intros token w1 (c & u & -> & Hu & Hh).
  apply wp_catch. eapply wp_mono; [eapply wp_frame; [apply (lasting_issued u t)|exact Hu|by apply Hop]|].
  intros [a|e|] w2 [_ Hu2]; [| |done].
  - eapply rwp_bind; [by apply release_spec|]. by intros ? w3 _.
  - apply wp_catch. eapply wp_mono; [by apply release_spec|]. by intros [x|e'|] w3 _.
Qed.

(** * The refs *)

(** Reads by the holder keep what it knows of the capsule area. *)
Lemma held_get {A} t p (f : _ -> prog A) (F : world -> Prop) Q w :
  in_capsule F -> held t w -> F w ->
  (forall w1 g o, held t w1 -> F w1 -> remote_inv w1 -> objs w1 !! p = Some o -> (g_complete g = true -> concat (g_chunks g) = o_bytes o) -> rwp t (f (Ok g)) Q w1) ->
  (forall w1, held t w1 -> F w1 -> objs w1 !! p = None -> rwp t (f (Err ONotFound)) Q w1) ->
  (forall w1 r, is_ok r = false -> r <> Err ONotFound -> rwp t (f r) Q w1) ->
  rwp t (invoke (CGet p) ≫= f) Q w.
Proof.
  intros HF Hh Hw Hok Hnf Hbad. apply rwp_get.
  - intros w1 g o Hr Hi Ho _ Hg. destruct (held_others t F w w1 HF Hr (conj Hh Hw)) as [Hh1 Hw1]. by eapply Hok.
  - intros w1 Hr Hi Ho. destruct (held_others t F w w1 HF Hr (conj Hh Hw)) as [Hh1 Hw1]. by eapply Hnf.
  - intros w1 r _ ? ?. by apply Hbad.
Qed.

Lemma ref_version_spec t (F : world -> Prop) w : in_capsule F -> held t w -> F w ->
  rwp t capsule_ref_version (on_ok (fun _ w' => held t w' /\ F w')) w.
Proof.
  intros HF Hh Hw. unfold capsule_ref_version. eapply held_get; [done..| | |bad_reply].
  - intros w1 g o Hh1 Hw1 Hi Ho Hg. apply rwp_collect. intros Hc. apply rwp_let. intros root _. by apply rwp_ret.
  - intros w1 Hh1 Hw1 _. by apply rwp_ret.
Qed.

Lemma require_current_spec t expected (F : world -> Prop) w : in_capsule F -> held t w -> F w ->
  rwp t (require_current_capsule expected) (on_ok (fun _ w' => held t w' /\ F w')) w.
Proof.
  intros HF Hh Hw. unfold require_current_capsule. eapply rwp_bind; [by apply (ref_version_spec t F)|]. intros [|root] w1 Hw1; [done|].
  destruct (negb _); [done|]. by apply rwp_ret.
Qed.

(** The roots of a history are complete generations. *)
Definition history_ok (b : bytes) (w : world) : Prop := exists rs, parse_capsule_history b = Ok rs /\ forall r, r ∈ rs -> generation r w.
Definition prior_ok (prior : option bytes) (w : world) : Prop := match prior with Some b => history_ok b w | None => True end.

Lemma in_capsule_history b : in_capsule (history_ok b).
Proof. intros w w' E (rs & Hrs & Hg). exists rs. split; [done|]. intros r Hr. eapply in_capsule_generation; [exact E|auto]. Qed.

Lemma in_capsule_prior prior : in_capsule (prior_ok prior).
Proof. destruct prior; [apply in_capsule_history|apply in_capsule_true]. Qed.

Lemma history_bytes_spec t (F : world -> Prop) w : in_capsule F -> held t w -> F w ->
  rwp t capsule_history_bytes (on_ok (fun r w' => held t w' /\ F w' /\ prior_ok r w')) w.
Proof.
  intros HF Hh Hw. unfold capsule_history_bytes. eapply held_get; [done..| | |bad_reply].
  - intros w1 g o Hh1 Hw1 Hi Ho Hg. apply rwp_collect. intros Hc. apply rwp_ret. split; [done|]. split; [done|].
    rewrite (Hg Hc). apply (i_history _ (i_capsules _ Hi) o Ho).
  - intros w1 Hh1 Hw1 _. by apply rwp_ret.
Qed.

Lemma roots_spec t (F : world -> Prop) w : in_capsule F -> held t w -> F w ->
  rwp t capsule_roots (on_ok (fun rs w' => held t w' /\ F w' /\ NoDup rs /\ Forall (fun r => wf_hash r = true) rs /\ forall r, r ∈ rs -> generation r w')) w.
Proof.
  intros HF Hh Hw. unfold capsule_roots. eapply rwp_bind; [by apply (history_bytes_spec t F)|]. intros [b|] w1 (Hh1 & Hw1 & Hp).
  - apply rwp_pure. intros rs Hrs. destruct Hp as (rs' & Hrs' & Hg). rewrite Hrs in Hrs'. injection Hrs' as <-.
    unfold parse_capsule_history in Hrs. destruct (negb _); [done|].
    destruct (parse_roots_spec [] _ _ Hrs (NoDup_nil_2) (Forall_nil_2 _)) as (Hn & Hwf & _). auto.
  - apply rwp_ret. split; [done|]. split; [done|]. split; [apply NoDup_nil_2|]. split; [apply Forall_nil_2|].
    intros r Hr. by apply not_elem_of_nil in Hr.
Qed.

(** Changes of the refs touch no generation. *)
Lemma generation_ref p r w w' : changes p w w' -> ckind_of p = KLatest \/ ckind_of p = KHistory -> generation r w -> generation r w'.
Proof.
  intros (_ & E & _) Hp. apply generation_frame.
  - rewrite E; [done|]. apply ckind_ne. rewrite ckind_manifest. destruct Hp as [-> | ->]; done.
  - intros h. rewrite E; [done|]. apply ckind_ne. rewrite ckind_payload. destruct Hp as [-> | ->]; done.
  - intros n. rewrite E; [done|]. apply ckind_ne. rewrite ckind_generation. destruct Hp as [-> | ->]; done.
Qed.

Lemma prior_ref p prior w w' : changes p w w' -> ckind_of p = KLatest \/ ckind_of p = KHistory -> prior_ok prior w -> prior_ok prior w'.
Proof.
  intros Hc Hp. destruct prior as [b|]; [|done]. intros (rs & Hrs & Hg). exists rs. split; [done|]. intros r Hr.
  eapply generation_ref; eauto.
Qed.

Lemma write_history t b o w w' :
  remote_inv w -> held t w -> issued w' = issued w -> history_ok b w -> put_at capsule_history_path b o (objs w) (objs w') ->
  (remote_inv w' /\ remote_step t w w') /\ held t w'.
Proof.
  intros Hi Hh Hs Hb Hw. apply written_changes in Hw as (Hc & Ho & Hob); [|done]. eapply change_history; [done|done|exact Hc|].
  intros o' Ho'. rewrite Ho in Ho'. injection Ho' as <-. by rewrite Hob.
Qed.

Lemma merge_history_spec t root prior w :
  wf_hash root = true -> held t w -> generation root w -> prior_ok prior w ->
  rwp t (merge_capsule_history root) (on_ok (fun _ w' => held t w' /\ generation root w' /\ prior_ok prior w')) w.
Proof.
  intros Hr Hh Hg Hp. unfold merge_capsule_history.
  assert (HF : in_capsule (fun w => generation root w /\ prior_ok prior w)) by (apply in_capsule_and; [apply in_capsule_generation|apply in_capsule_prior]).
  eapply rwp_bind; [by apply (roots_spec t (fun w => generation root w /\ prior_ok prior w))|].
  intros rs w1 (Hh1 & [Hg1 Hp1] & Hn & Hwf & Hgs). destruct (merge_roots_spec root rs Hn Hwf Hr) as (Ht & _ & Hin).
  assert (HF' : in_capsule (fun w => (generation root w /\ prior_ok prior w) /\ history_ok (history_text (merge_roots root rs)) w))
    by (apply in_capsule_and; [done|apply in_capsule_history]).
  assert (Hw1 : (generation root w1 /\ prior_ok prior w1) /\ history_ok (history_text (merge_roots root rs)) w1).
  { split; [done|]. exists (merge_roots root rs). split; [done|]. intros r Hr'. destruct (Hin r Hr') as [->|?]; auto. }
  apply rwp_put; [| |bad_reply].
  - intros w2 o w3 Hr2 Hi Hs Hw. destruct (held_others t _ w1 w2 HF' Hr2 (conj Hh1 Hw1)) as (Hh2 & _ & Hok). by eapply write_history.
  - intros w2 o w3 Hr2 Hi Hi3 Hs Hw. destruct (held_others t _ w1 w2 HF' Hr2 (conj Hh1 Hw1)) as (Hh2 & [Hg2 Hp2] & Hok).
    apply rwp_ret. pose proof (write_history t _ o w2 w3 Hi Hh2 Hs Hok Hw) as [_ Hh3].
    apply written_changes in Hw as (Hc & _ & _); [|done]. split; [done|].
    split; [eapply generation_ref|eapply prior_ref]; try exact Hc; try done; right; apply ckind_history.
Qed.

Lemma restore_history_spec t prior w :
  held t w -> prior_ok prior w -> rwp t (restore_capsule_history prior) (on_ok (fun _ _ => True)) w.
Proof.
  intros Hh Hp. unfold restore_capsule_history. destruct prior as [b|].
  - apply rwp_put; [|done|bad_reply]. intros w1 o w2 Hr Hi Hs Hw.
    destruct (held_others t _ w w1 (in_capsule_history b) Hr (conj Hh Hp)) as [Hh1 Hok]. by eapply write_history.
  - apply rwp_delete; [|done|bad_reply]. intros w1 w2 Hr Hi Hs Hd. apply deleted_changes in Hd as (Hc & Hn); [|done].
    eapply change_history; [done|by eapply others_held|exact Hc|]. intros o Ho. congruence.
Qed.

(** The latest ref is written when the generation is complete; if that fails, the history is put back. *)
Lemma finish_refs_spec t root expected w :
  wf_hash root = true -> held t w -> generation root w ->
  rwp t (finish_capsule_refs_locked root expected) (on_ok (fun _ w' => held t w' /\ generation root w' /\
    exists o, objs w' !! capsule_latest_path = Some o /\ o_bytes o = latest_text root)) w.
Proof.
  intros Hr Hh Hg. unfold finish_capsule_refs_locked. pose proof (in_capsule_generation root) as HG.
  eapply rwp_bind; [by apply (ref_version_spec t (generation root))|]. intros cur w1 [Hh1 Hg1]. destruct (negb _); [done|].
  eapply rwp_bind; [by apply (history_bytes_spec t (generation root))|]. intros prior w2 (Hh2 & Hg2 & Hp2).
  eapply rwp_bind; [by apply (merge_history_spec t root prior)|]. intros [] w3 (Hh3 & Hg3 & Hp3).
  assert (HF : in_capsule (fun w => generation root w /\ prior_ok prior w)) by (apply in_capsule_and; [apply in_capsule_generation|apply in_capsule_prior]).
  apply rwp_put.
  - intros w4 o w5 Hr4 Hi Hs Hw. destruct (held_others t _ w3 w4 HF Hr4 (conj Hh3 (conj Hg3 Hp3))) as (Hh4 & Hg4 & _).
    eapply write_latest; [done..|by apply parse_latest|done|done].
  - intros w4 o w5 Hr4 Hi Hi5 Hs Hw. destruct (held_others t _ w3 w4 HF Hr4 (conj Hh3 (conj Hg3 Hp3))) as (Hh4 & Hg4 & _).
    apply rwp_ret. pose proof (write_latest t root _ o w4 w5 Hi Hh4 Hs (parse_latest root Hr) Hg4 Hw) as [_ Hh5].
    apply written_changes in Hw as (Hc & Ho & Hob); [|done]. split; [done|]. split; [|by exists o].
    eapply generation_ref; [exact Hc|left; apply ckind_latest|done].
  - intros w4 w5 r Hr4 Hi Hbad Hcase. destruct (held_others t _ w3 w4 HF Hr4 (conj Hh3 (conj Hg3 Hp3))) as (Hh4 & Hg4 & Hp4).
    assert (Hw5 : held t w5 /\ prior_ok prior w5).
    { destruct Hcase as [->|(o & Hs & Hw)]; [done|].
      pose proof (write_latest t root _ o w4 w5 Hi Hh4 Hs (parse_latest root Hr) Hg4 Hw) as [_ Hh5]. split; [done|].
      apply written_changes in Hw as (Hc & _ & _); [|done]. eapply prior_ref; [exact Hc|left; apply ckind_latest|done]. }
    destruct Hw5 as [Hh5 Hp5]. destruct r as [pr|e|]; [done| |]; (apply wp_catch; eapply wp_mono; [by apply (restore_history_spec t prior)|]; by intros [x|e'|] w6 _).
Qed.

(** * Generations *)

Context `{ArrowCast} `{Parquet} `{FileReads} `{Artifacts}.

Lemma artifact_names_of root declared : map fst (artifacts root declared) = artifact_names.
Proof. reflexivity. Qed.

(** What the publisher of a generation knows while it writes. *)
Record publishing (m : CapsuleManifest) (root b : bytes) (os : list CapsuleObject) : Prop := {
  pb_bytes : capsule_manifest_bytes m = Ok b;
  pb_root : capsule_root m = Ok root;
  pb_objects : payload_objects m = Ok os;
}.

Lemma publishing_wf m root b os : publishing m root b os -> wf_hash root = true.
Proof. intros [_ Hr _]. unfold capsule_root in Hr. apply bind_Ok in Hr as (? & _ & [= <-]). apply wf_blake3. Qed.

Lemma put_artifacts_spec t root arts (F : world -> Prop) w :
  in_capsule F -> (forall w p b o w', ckind_of p = KGeneration -> issued w' = issued w -> put_at p b o (objs w) (objs w') -> F w -> F w') ->
  held t w -> F w ->
  rwp t (for_each (put_artifact root) tt arts) (on_ok (fun _ w' => held t w' /\ F w' /\ artifacts_present root (map fst arts) w')) w.
Proof.
  intros HF HFw Hh Hw. eapply wp_ok; [apply (wp_for_each _ _ t _
    (fun _ rest w => held t w /\ F w /\ artifacts_present root (filter (fun n => n ∉ map fst rest) (map fst arts)) w))|].
  - split; [done|]. split; [done|]. intros n [Hn ?]%list_elem_of_filter. done.
  - intros [] [name b] rest w1 (Hh1 & Hw1 & Ha1). unfold put_artifact. simpl.
    set (ns := filter (fun n => n ∉ map fst ((name, b) :: rest)) (map fst arts)) in *.
    assert (HFa : in_capsule (fun w => F w /\ artifacts_present root ns w)) by (apply in_capsule_and; [done|apply in_capsule_artifacts]).
    apply rwp_put; [| |bad_reply].
    + intros w2 o w3 Hr Hi Hs Hwr. eapply write_artifact; [done| |done|exact Hwr]. by eapply others_held.
    + intros w2 o w3 Hr Hi Hi3 Hs Hwr. destruct (held_others t _ w1 w2 HFa Hr (conj Hh1 (conj Hw1 Ha1))) as (Hh2 & Hw2 & Ha2).
      pose proof (write_artifact t root name b o w2 w3 Hi Hh2 Hs Hwr) as [_ Hh3]. apply rwp_ret. split; [done|]. split; [eapply HFw; [|exact Hs|exact Hwr|done]; apply ckind_generation|].
      pose proof (artifacts_grow root ns w2 _ o b w3 Hwr Ha2) as Ha3. intros n [Hn Hin]%list_elem_of_filter.
      destruct (decide (n = name)) as [->|Hne].
      * destruct Hwr as (_ & _ & E). rewrite E, lookup_insert_eq. by eexists.
      * apply Ha3, list_elem_of_filter. split; [|done]. simpl. set_solver.
  - intros [] w1 (Hh1 & Hw1 & Ha1). split; [done|]. split; [done|]. intros n Hn. apply Ha1, list_elem_of_filter. split; [|done]. simpl. apply not_elem_of_nil.
Qed.

Lemma finish_publication_spec t m root b os uploaded expected w :
  publishing m root b os -> held t w -> payloads_present os w ->
  rwp t (finish_capsule_publication_locked root b os uploaded expected) (on_ok (fun out w' => held t w' /\ generation root w' /\
    exists o, objs w' !! capsule_latest_path = Some o /\ o_bytes o = latest_text root)) w.
Proof.
  intros Hpb Hh Hp. pose proof (publishing_wf _ _ _ _ Hpb) as Hwf. destruct Hpb as [Hb Hr Hos].
  unfold finish_capsule_publication_locked. apply rwp_put; [| |bad_reply].
  - intros w1 o w2 Hr1 Hi Hs Hw. destruct (held_others t _ w w1 (in_capsule_payloads os) Hr1 (conj Hh Hp)) as [Hh1 Hp1]. by eapply write_manifest.
  - intros w1 o w2 Hr1 Hi Hi2 Hs Hw. destruct (held_others t _ w w1 (in_capsule_payloads os) Hr1 (conj Hh Hp)) as [Hh1 Hp1].
    pose proof (write_manifest t root b o m os w1 w2 Hi Hh1 Hs Hb Hr Hos Hp1 Hw) as [_ Hh2].
    pose proof (present_grows os w1 _ o b w2 Hw Hp1) as Hp2.
    set (F := fun w => objs w !! capsule_manifest_path root = Some o /\ payloads_present os w).
    assert (HF : in_capsule F) by (apply in_capsule_and; [apply (in_capsule_lookup _ (fun x => x = Some o)), area_manifest|apply in_capsule_payloads]).
    apply written_changes in Hw as (Hc & Ho & Hob); [|done].
    eapply rwp_bind; [eapply (put_artifacts_spec t root _ F); [done| |done|done]|].
    { intros w3 p b' o' w4 Hk Hs' Hw' [Hm3 Hp3]. split; [|by eapply present_grows].
      apply written_changes in Hw' as ((_ & E & _) & _); [|done]. rewrite E; [done|]. apply ckind_ne. by rewrite ckind_manifest, Hk. }
    intros [] w3 (Hh3 & [Hm3 Hp3] & Ha3). rewrite artifact_names_of in Ha3.
    assert (Hg3 : generation root w3) by (exists o, m, os; rewrite Hob; auto 10).
    eapply rwp_bind; [by apply finish_refs_spec|]. intros [] w4 Hpost. by apply rwp_ret.
Qed.

(** One payload, put or found, and the ones before it. *)
Lemma payload_loop t (f : Z -> CapsuleObject -> prog Z) os w :
  (forall n ob (F : world -> Prop) w, in_capsule F -> (forall w p b o w', ckind_of p = KPayload -> issued w' = issued w -> put_at p b o (objs w) (objs w') -> F w -> F w') ->
     held t w -> F w -> rwp t (f n ob) (on_ok (fun _ w' => held t w' /\ F w' /\ is_Some (objs w' !! capsule_payload_path (co_hash ob)))) w) ->
  held t w -> rwp t (for_each f 0 os) (on_ok (fun _ w' => held t w' /\ payloads_present os w')) w.
Proof.
  intros Hf Hh. eapply wp_ok; [apply (wp_for_each _ _ t f (fun _ rest w => held t w /\ payloads_present (filter (fun ob => ob ∉ rest) os) w))|].
  - split; [done|]. intros ob [Hn Hin]%list_elem_of_filter. done.
  - intros n ob rest w1 [Hh1 Hp1]. eapply wp_ok; [eapply (Hf n ob (payloads_present (filter (fun x => x ∉ ob :: rest) os))); [apply in_capsule_payloads| |done|done]|].
    + intros w2 p b o w3 _ _ Hw. by eapply present_grows.
    + intros n' w2 (Hh2 & Hp2 & Hs2). split; [done|]. intros x [Hx Hin]%list_elem_of_filter. destruct (decide (x = ob)) as [->|Hne]; [done|].
      apply Hp2, list_elem_of_filter. split; [|done]. set_solver.
  - intros n w1 [Hh1 Hp1]. split; [done|]. intros ob Hob. apply Hp1, list_elem_of_filter. split; [apply not_elem_of_nil|done].
Qed.

Lemma put_payload_spec t payloads n ob (F : world -> Prop) w :
  in_capsule F -> (forall w p b o w', ckind_of p = KPayload -> issued w' = issued w -> put_at p b o (objs w) (objs w') -> F w -> F w') ->
  held t w -> F w -> rwp t (put_payload payloads n ob) (on_ok (fun _ w' => held t w' /\ F w' /\ is_Some (objs w' !! capsule_payload_path (co_hash ob)))) w.
Proof.
  intros HF HFw Hh Hw. unfold put_payload. destruct (payloads !! co_hash ob) as [b|]; [|done].
  case_bool_decide as Hb; [|done]. cbn [negb]. destruct (negb _); [done|]. apply rwp_put; [| |bad_reply].
  - intros w1 o w2 Hr Hi Hs Hwr. eapply write_payload; [done| |done|done|exact Hwr]. by eapply others_held.
  - intros w1 o w2 Hr Hi Hi2 Hs Hwr. destruct (held_others t F w w1 HF Hr (conj Hh Hw)) as [Hh1 Hw1]. apply rwp_ret.
    pose proof (write_payload t _ b o w1 w2 Hi Hh1 Hs Hb Hwr) as [_ Hh2]. split; [done|]. split; [eapply HFw; [apply ckind_payload|exact Hs|exact Hwr|done]|].
    destruct Hwr as (_ & _ & E). rewrite E, lookup_insert_eq. by eexists.
Qed.

Lemma put_staged_spec t dir n ob (F : world -> Prop) w :
  in_capsule F -> (forall w p b o w', ckind_of p = KPayload -> issued w' = issued w -> put_at p b o (objs w) (objs w') -> F w -> F w') ->
  held t w -> F w -> rwp t (put_staged dir n ob) (on_ok (fun _ w' => held t w' /\ F w' /\ is_Some (objs w' !! capsule_payload_path (co_hash ob)))) w.
Proof.
  intros HF HFw Hh Hw. unfold put_staged. destruct (dir !! co_hash ob) as [b|]; [|done].
  eapply rwp_bind; [apply (put_hashed_object_spec t _ _ _ _ (fun w => held t w /\ F w)
    (fun w' => held t w' /\ F w' /\ is_Some (objs w' !! capsule_payload_path (co_hash ob))))|by intros [] w1 ?; apply rwp_ret].
  - intros w1 w2 Hr Hw1. by eapply held_others.
  - done.
  - intros w1 b' o w2 [Hh1 Hw1] Hi Hb _ Hs Hwr. pose proof (write_payload t _ b' o w1 w2 Hi Hh1 Hs Hb Hwr) as [Hk Hh2].
    split; [done|]. split; [done|]. split; [eapply HFw; [apply ckind_payload|exact Hs|exact Hwr|done]|].
    destruct Hwr as (_ & _ & E). rewrite E, lookup_insert_eq. by eexists.
Qed.

Lemma put_inherited_spec t dir prior n ob (F : world -> Prop) w :
  in_capsule F -> (forall w p b o w', ckind_of p = KPayload -> issued w' = issued w -> put_at p b o (objs w) (objs w') -> F w -> F w') ->
  held t w -> F w -> rwp t (put_inherited dir prior n ob) (on_ok (fun _ w' => held t w' /\ F w' /\ is_Some (objs w' !! capsule_payload_path (co_hash ob)))) w.
Proof.
  intros HF HFw Hh Hw. unfold put_inherited. case_bool_decide.
  - eapply (rwp_bind _ _ _ (fun _ w' => held t w' /\ F w' /\ is_Some (objs w' !! capsule_payload_path (co_hash ob)))); [|by intros [] w1 ?; apply rwp_ret].
    unfold verify_remote_capsule_payload. eapply held_get; [done..| |done|bad_reply].
    intros w1 g o Hh1 Hw1 Hi Ho Hg. apply rwp_let. intros [hashed size] _. destruct (negb _); [done|]. destruct (_ || _); [done|].
    apply rwp_ret. split; [done|]. split; [done|]. rewrite Ho. by eexists.
  - destruct (negb _); [done|]. by apply put_staged_spec.
Qed.

Lemma capsule_Ok {A} (r : cres A) a : capsule r = Ok a -> r = Ok a.
Proof. by destruct r as [?|?|]; intros [= ->]. Qed.

(** The common end of the publishers. *)
Lemma finish_safe t m root b os uploaded expected w :
  publishing m root b os -> held t w -> payloads_present os w ->
  rwp t (finish_capsule_publication_locked root b os uploaded expected) (on_ok (fun _ _ => True)) w.
Proof. intros Hpb Hh Hp. eapply wp_ok; [by eapply finish_publication_spec|done]. Qed.

Lemma publish_capsule_spec t m payloads w : rwp t (publish_capsule m payloads) (on_ok (fun _ _ => True)) w.
Proof.
  unfold publish_capsule. apply rwp_let. intros root Hr%capsule_Ok. apply rwp_let. intros b Hb%capsule_Ok.
  apply rwp_let. intros os Hos%capsule_Ok. apply rwp_let. intros rep _. destruct (negb _); [done|].
  apply with_lock_spec. intros w1 Hh1. eapply rwp_bind; [by apply (ref_version_spec t (fun _ => True)); [apply in_capsule_true|..]|].
  intros r w2 [Hh2 _]. eapply rwp_bind; [apply payload_loop; [intros; by apply put_payload_spec|done]|]. intros n w3 [Hh3 Hp3].
  by apply (finish_safe t m).
Qed.

Lemma publish_directory_spec t m dir w : rwp t (publish_capsule_directory m dir) (on_ok (fun _ _ => True)) w.
Proof.
  unfold publish_capsule_directory. apply rwp_let. intros root Hr%capsule_Ok. apply rwp_let. intros b Hb%capsule_Ok.
  apply rwp_let. intros os Hos%capsule_Ok. apply rwp_let. intros rep _.
  apply with_lock_spec. intros w1 Hh1. eapply rwp_bind; [by apply (ref_version_spec t (fun _ => True)); [apply in_capsule_true|..]|].
  intros r w2 [Hh2 _]. eapply rwp_bind; [apply payload_loop; [intros; by apply put_staged_spec|done]|]. intros n w3 [Hh3 Hp3].
  by apply (finish_safe t m).
Qed.

Lemma publish_incremental_spec t m dir prior w : rwp t (publish_capsule_incremental m dir prior) (on_ok (fun _ _ => True)) w.
Proof.
  unfold publish_capsule_incremental. apply rwp_let. intros root Hr%capsule_Ok. apply rwp_let. intros b Hb%capsule_Ok.
  apply rwp_let. intros os Hos%capsule_Ok. apply rwp_let. intros proot _. apply rwp_let. intros [] _. apply rwp_let. intros pos _.
  apply with_lock_spec. intros w1 Hh1. eapply rwp_bind; [by apply (require_current_spec t proot (fun _ => True)); [apply in_capsule_true|..]|].
  intros r w2 [Hh2 _]. eapply rwp_bind; [apply payload_loop; [intros; by apply put_inherited_spec|done]|]. intros n w3 [Hh3 Hp3].
  eapply rwp_bind; [by apply (require_current_spec t proot (payloads_present os)); [apply in_capsule_payloads|..]|].
  intros e w4 [Hh4 Hp4]. by apply (finish_safe t m).
Qed.

End Publish.
