(* ===== verification/RemoteCollect.v ===== *)
(** Garbage collection of capsule generations, verified in the logic of
    [RemoteRules]: what is deleted belongs to no generation a ref names. *)

From stdpp Require Import base list gmap numbers strings option relations options.
From Stdlib Require Import ZArith Lia.
From S2P Require Import Prelude RustStd RustText Wire Tree Manifest CanonicalJson Commit Capsule CapsuleStream CapsuleVerify RemoteStore RemoteObjects RemoteCapsule RemoteGc RemoteInvariant RemoteRules RemoteWriters RemoteCapsuleWriters RemotePublish.

(** * Keys *)

#[local] Transparent capsule_payload_path capsule_manifest_path capsule_generation_path capsule_latest_path capsule_history_path area_of.

Lemma strip_prefix_app pre l : strip_prefix pre (pre ++ l) = Some l.
Proof. by apply strip_prefix_spec. Qed.

Lemma strip_prefix_clash a b l : clash a b = true -> strip_prefix a (b ++ l) = None.
Proof.
  intros Hc. destruct (strip_prefix a (b ++ l)) as [r|] eqn:E; [|done]. apply strip_prefix_spec in E. exfalso. by eapply clash_ne.
Qed.

Lemma to_hex_no_slash h : contains_slash (to_hex h) = false.
Proof.
  apply not_true_iff_false. intros (c & Hc & Hs)%existsb_exists. apply bool_decide_eq_true in Hs. subst c.
  pose proof (to_hex_lower h) as Hl. rewrite forallb_forall in Hl. apply Hl, lower_hex_spec in Hc. tauto.
Qed.

Lemma split_once_spec sep a b : sep ∉ a -> split_once sep (a ++ sep :: b) = Some (a, b).
Proof.
  induction a as [|c a IH]; intros Hn; simpl; [by rewrite bool_decide_true|]. rewrite bool_decide_false by set_solver.
  by rewrite IH by set_solver.
Qed.

Lemma gc_payload_key h : wf_hash h = true -> parse_capsule_payload_key (capsule_payload_path h) = Ok (Some h).
Proof.
  intros Hh. unfold parse_capsule_payload_key, capsule_payload_path. rewrite app_assoc, strip_prefix_app, to_hex_no_slash.
  by rewrite from_to_hex.
Qed.

(** The three parsers look at different prefixes. *)
Lemma payload_key_other pre l : clash (CAPSULE_PREFIX ++ bstr "/objects/blake3=") pre = true -> parse_capsule_payload_key (pre ++ l) = Ok None.
Proof. intros Hc. unfold parse_capsule_payload_key. by rewrite strip_prefix_clash. Qed.
Lemma manifest_key_other pre l : clash (CAPSULE_PREFIX ++ bstr "/manifests/") pre = true -> parse_capsule_manifest_key (pre ++ l) = Ok None.
Proof. intros Hc. unfold parse_capsule_manifest_key. by rewrite strip_prefix_clash. Qed.
Lemma generation_key_other pre l : clash (CAPSULE_PREFIX ++ bstr "/generations/") pre = true -> parse_capsule_generation_key (pre ++ l) = Ok None.
Proof. intros Hc. unfold parse_capsule_generation_key. by rewrite strip_prefix_clash. Qed.

Lemma gc_manifest_key r : wf_hash r = true -> parse_capsule_manifest_key (capsule_manifest_path r) = Ok (Some r).
Proof.
  intros Hr. unfold parse_capsule_manifest_key, capsule_manifest_path. rewrite app_assoc, strip_prefix_app.
  assert (strip_suffix (bstr ".json") (to_hex r ++ bstr ".json") = Some (to_hex r)) as -> by (by apply strip_suffix_spec).
  by rewrite to_hex_no_slash, from_to_hex.
Qed.

Lemma gc_generation_key r name : wf_hash r = true -> name ∈ artifact_names -> parse_capsule_generation_key (capsule_generation_path r name) = Ok (Some r).
Proof.
  intros Hr Hn. unfold parse_capsule_generation_key, capsule_generation_path. rewrite app_assoc, strip_prefix_app.
  change (bstr "/" ++ name) with (RustText.SLASH :: name). rewrite split_once_spec.
  - rewrite bool_decide_true by done. by rewrite from_to_hex.
  - intros Hin. pose proof (to_hex_lower r) as Hl. rewrite forallb_forall in Hl. apply list_elem_of_In in Hin. apply Hl, lower_hex_spec in Hin. tauto.
Qed.

Section Garbage.
Context (retained : list bytes) (reachable : gset bytes).

Lemma garbage_payload h : wf_hash h = true -> is_garbage retained reachable (capsule_payload_path h) = Ok (negb (bool_decide (h ∈ reachable))).
Proof. intros Hh. unfold is_garbage. by rewrite gc_payload_key. Qed.

Lemma garbage_manifest r : wf_hash r = true -> is_garbage retained reachable (capsule_manifest_path r) = Ok (negb (bool_decide (r ∈ retained))).
Proof.
  intros Hr. unfold is_garbage. assert (parse_capsule_payload_key (capsule_manifest_path r) = Ok None) as ->.
  { unfold capsule_manifest_path. rewrite app_assoc. by apply payload_key_other. }
  cbn [mbind outcome_bind]. by rewrite gc_manifest_key.
Qed.

Lemma garbage_generation r name : wf_hash r = true -> name ∈ artifact_names ->
  is_garbage retained reachable (capsule_generation_path r name) = Ok (negb (bool_decide (r ∈ retained))).
Proof.
  intros Hr Hn. unfold is_garbage. assert (parse_capsule_payload_key (capsule_generation_path r name) = Ok None) as ->.
  { unfold capsule_generation_path. rewrite app_assoc. by apply payload_key_other. }
  assert (parse_capsule_manifest_key (capsule_generation_path r name) = Ok None) as ->.
  { unfold capsule_generation_path. rewrite app_assoc. by apply manifest_key_other. }
  cbn [mbind outcome_bind]. by rewrite gc_generation_key.
Qed.

Lemma garbage_latest : is_garbage retained reachable capsule_latest_path = Ok false.
Proof. by vm_compute. Qed.
Lemma garbage_history : is_garbage retained reachable capsule_history_path = Ok false.
Proof. by vm_compute. Qed.

Lemma garbage_area p : is_garbage retained reachable p = Ok true -> area_of p = ACapsule.
Proof.
  unfold is_garbage, parse_capsule_payload_key, parse_capsule_manifest_key, parse_capsule_generation_key.
  destruct (strip_prefix (_ ++ bstr "/objects/blake3=") p) as [x|] eqn:E1; [apply strip_prefix_spec in E1 as ->; reflexivity|].
  destruct (strip_prefix (_ ++ bstr "/manifests/") p) as [x|] eqn:E2; [apply strip_prefix_spec in E2 as ->; reflexivity|].
  destruct (strip_prefix (_ ++ bstr "/generations/") p) as [x|] eqn:E3; [apply strip_prefix_spec in E3 as ->; reflexivity|]. done.
Qed.

Lemma select_garbage_elem items ds d :
  select_garbage retained reachable items = Ok ds -> d ∈ ds -> is_garbage retained reachable (gc_key d) = Ok true.
Proof.
  revert ds. induction items as [|[m|e|] items IH]; intros ds; cbn [select_garbage]; [intros [= <-] Hd; by apply not_elem_of_nil in Hd| |done|done].
  intros E. apply bind_Ok in E as (g & Hg & E). apply bind_Ok in E as (rest & Hrest & [= <-]). destruct g; [|by eapply IH].
  intros [->|Hd]%elem_of_cons; [done|by eapply IH].
Qed.
End Garbage.

Section Collect.
#[local] Set Default Proof Using "Type*".
Context `{Blake3} `{JsonParser} `{ManifestSerdeLaws} `{PlanSerde}.

(** * What is protected *)

(** The payloads of a root's manifest. *)
Definition covers_root (r : bytes) (reachable : gset bytes) (w : world) : Prop :=
  forall o m os, objs w !! capsule_manifest_path r = Some o -> capsule_manifest_bytes m = Ok (o_bytes o) -> payload_objects m = Ok os ->
    forall ob, ob ∈ os -> co_hash ob ∈ reachable.

(** The refs name retained roots only, and the payloads of those are reachable. *)
Record protected (retained : list bytes) (reachable : gset bytes) (w : world) : Prop := {
  pr_latest : forall o r, objs w !! capsule_latest_path = Some o -> parse_ref (o_bytes o) = Ok r -> r ∈ retained;
  pr_history : forall o rs, objs w !! capsule_history_path = Some o -> parse_capsule_history (o_bytes o) = Ok rs -> forall r, r ∈ rs -> r ∈ retained;
  pr_covers : forall r, r ∈ retained -> covers_root r reachable w;
}.

Lemma in_capsule_covers r reachable : in_capsule (covers_root r reachable).
Proof. intros w w' E Hc o m os. rewrite E by (rewrite area_manifest; set_solver). apply Hc. Qed.

Lemma in_capsule_protected retained reachable : in_capsule (protected retained reachable).
Proof.
  intros w w' E [Hl Hh Hc]. split.
  - intros o r. rewrite E by (rewrite area_latest; set_solver). apply Hl.
  - intros o rs. rewrite E by (rewrite area_history; set_solver). apply Hh.
  - intros r Hr. eapply in_capsule_covers; [exact E|auto].
Qed.

Lemma root_wf m r : capsule_root m = Ok r -> wf_hash r = true.
Proof. intros Hr. unfold capsule_root in Hr. apply bind_Ok in Hr as (? & _ & [= <-]). apply wf_blake3. Qed.

(** Deleting garbage leaves every generation a ref names complete. *)
Lemma delete_garbage t p retained reachable w w' :
  remote_inv w -> held t w -> issued w' = issued w -> protected retained reachable w -> is_garbage retained reachable p = Ok true ->
  objs w' = delete p (objs w) -> ((remote_inv w' /\ remote_step t w w') /\ held t w') /\ protected retained reachable w'.
Proof.
  intros Hi Hh Hs [Hl Hhist Hc] Hg Hd. apply deleted_changes in Hd as (Hch & Hn); [|done]. pose proof Hch as (_ & E & _).
  assert (Elatest : objs w' !! capsule_latest_path = objs w !! capsule_latest_path).
  { apply E. intros <-. by rewrite garbage_latest in Hg. }
  assert (Ehist : objs w' !! capsule_history_path = objs w !! capsule_history_path).
  { apply E. intros <-. by rewrite garbage_history in Hg. }
  assert (Hgen : forall r, r ∈ retained -> generation r w -> generation r w').
  { intros r Hr (o & m & os & Ho & Hm & Hroot & Hos & Hp & Ha). pose proof (root_wf _ _ Hroot) as Hwf. exists o, m, os.
    split; [rewrite E; [done|]; intros <-; rewrite garbage_manifest, bool_decide_true in Hg by done; done|].
    do 3 (split; [done|]). split.
    - intros ob Hob. destruct (Hp ob Hob) as [po Hpo]. assert (Hwo : wf_hash (co_hash ob) = true).
      { rewrite <- (i_payload _ (i_capsules _ Hi) _ _ Hpo). apply wf_blake3. }
      rewrite E; [by exists po|]. intros <-. rewrite garbage_payload, bool_decide_true in Hg; [done| |done]. by eapply Hc.
    - intros name Hname. rewrite E; [by apply Ha|]. intros <-. rewrite garbage_generation, bool_decide_true in Hg by done. done. }
  split.
  - eapply keep_capsule; [done|done|by eapply garbage_area|exact Hch|]. split.
    + intros h o. destruct (decide (capsule_payload_path h = p)) as [->|Hne]; [by rewrite Hn|]. rewrite E by done. apply (i_payload _ (i_capsules _ Hi)).
    + rewrite Elatest. intros o Ho. destruct (i_latest _ (i_capsules _ Hi) o Ho) as (r & Hr & Hgr). exists r. split; [done|]. apply Hgen; [by eapply Hl|done].
    + rewrite Ehist. intros o Ho. destruct (i_history _ (i_capsules _ Hi) o Ho) as (rs & Hrs & Hgr). exists rs. split; [done|].
      intros r Hr. apply Hgen; [by eapply Hhist|auto].
  - split; [by rewrite Elatest|by rewrite Ehist|]. intros r Hr o m os Ho. destruct (decide (capsule_manifest_path r = p)) as [Ep|Hne]; [congruence|].
    rewrite E in Ho by done. by eapply Hc.
Qed.

(** * The snapshot *)

Lemma manifest_spec t root (F : world -> Prop) w : in_capsule F -> held t w -> F w ->
  rwp t (capsule_manifest root) (on_ok (fun m w' => held t w' /\ F w' /\
    exists o, objs w' !! capsule_manifest_path root = Some o /\ capsule_manifest_bytes m = Ok (o_bytes o))) w.
Proof.
  intros HF Hh Hw. unfold capsule_manifest. eapply held_get; [done..| |done|bad_reply].
  intros w1 g o Hh1 Hw1 Hi Ho Hg. apply rwp_collect. intros Hc. rewrite (Hg Hc). apply rwp_let. intros m Hm%capsule_Ok.
  apply rwp_let. intros r Hr. destruct (negb _); [done|]. apply rwp_ret. split; [done|]. split; [done|]. exists o. split; [done|].
  by apply decode_manifest_spec.
Qed.

(** Two manifests with the same bytes are the same. *)
Lemma manifest_bytes_inj m m' b : capsule_manifest_bytes m = Ok b -> capsule_manifest_bytes m' = Ok b -> m = m'.
Proof. intros Hm%decode_manifest_spec Hm'%decode_manifest_spec. congruence. Qed.

Lemma reach_spec t root acc (F : world -> Prop) w : in_capsule F -> held t w -> F w ->
  rwp t (reach acc root) (on_ok (fun acc' w' => held t w' /\ F w' /\ acc ⊆ acc' /\ covers_root root acc' w')) w.
Proof.
  intros HF Hh Hw. unfold reach. eapply rwp_bind; [by apply (manifest_spec t root F)|]. intros m w1 (Hh1 & Hw1 & o & Ho & Hm).
  apply rwp_let. intros os Hos%capsule_Ok. apply rwp_ret. split; [done|]. split; [done|]. split; [set_solver|].
  intros o' m' os' Ho' Hm' Hos' ob Hob. rewrite Ho in Ho'. injection Ho' as <-. pose proof (manifest_bytes_inj _ _ _ Hm Hm') as <-.
  rewrite Hos in Hos'. injection Hos' as <-. apply elem_of_union_l, elem_of_list_to_set, list_elem_of_fmap. by exists ob.
Qed.

Lemma covers_mono r acc acc' w : acc ⊆ acc' -> covers_root r acc w -> covers_root r acc' w.
Proof. intros Hs Hc o m os Ho Hm Hos ob Hob. apply Hs. by eapply Hc. Qed.

Lemma snapshot_spec t w : held t w ->
  rwp t capsule_retention_snapshot (on_ok (fun r w' => held t w' /\ protected r.1.2 r.2 w')) w.
Proof.
  intros Hh. unfold capsule_retention_snapshot, latest_capsule.
  eapply (rwp_bind _ _ _ (fun r w' => held t w' /\ forall root m, r = Some (root, m) ->
    exists o, objs w' !! capsule_latest_path = Some o /\ parse_ref (o_bytes o) = Ok root)).
  { eapply held_get; [apply in_capsule_true|done|done| | |bad_reply].
    - intros w1 g o Hh1 _ Hi Ho Hg. apply rwp_collect. intros Hc. rewrite (Hg Hc). apply rwp_let. intros root Hroot.
      assert (HF : in_capsule (fun w => objs w !! capsule_latest_path = Some o)) by (apply (in_capsule_lookup _ (fun x => x = Some o)), area_latest).
      eapply rwp_bind; [by apply (manifest_spec t root _ _ HF)|]. intros m w2 (Hh2 & Ho2 & _). apply rwp_ret. split; [done|].
      intros ? ? [= <- <-]. by exists o.
    - intros w1 Hh1 _ _. apply rwp_ret. by split. }
  intros [[latest m]|] w1 [Hh1 Hl1]; [|done]. destruct (Hl1 latest m eq_refl) as (o & Ho & Href). clear Hl1.
  assert (HF : in_capsule (fun w => objs w !! capsule_latest_path = Some o)) by (apply (in_capsule_lookup _ (fun x => x = Some o)), area_latest).
  eapply (rwp_bind _ _ _ (fun rs w' => held t w' /\ objs w' !! capsule_latest_path = Some o /\
    (rs = [] \/ exists ho, objs w' !! capsule_history_path = Some ho /\ parse_capsule_history (o_bytes ho) = Ok rs))).
  { unfold capsule_roots. eapply (rwp_bind _ _ _ (fun b w' => held t w' /\ objs w' !! capsule_latest_path = Some o /\
      forall x, b = Some x -> exists ho, objs w' !! capsule_history_path = Some ho /\ o_bytes ho = x)).
    - unfold capsule_history_bytes. eapply held_get; [exact HF|done|done| | |bad_reply].
      + intros w2 g ho Hh2 Ho2 Hi Hho Hg. apply rwp_collect. intros Hc. rewrite (Hg Hc). apply rwp_ret. split; [done|]. split; [done|].
        intros x [= <-]. by exists ho.
      + intros w2 Hh2 Ho2 _. by apply rwp_ret.
    - intros [b|] w2 (Hh2 & Ho2 & Hb); [|apply rwp_ret; auto]. apply rwp_pure. intros rs Hrs. split; [done|]. split; [done|].
      right. destruct (Hb b eq_refl) as (ho & Hho & <-). by exists ho. }
  intros rs w2 (Hh2 & Ho2 & Hrs). case_bool_decide as Hhead; [|done]. cbn [negb].
  destruct Hrs as [->|(ho & Hho & Hrs)]; [done|].
  set (F := fun w => objs w !! capsule_latest_path = Some o /\ objs w !! capsule_history_path = Some ho).
  assert (HF' : in_capsule F) by (apply in_capsule_and; [exact HF|apply (in_capsule_lookup _ (fun x => x = Some ho)), area_history]).
  eapply rwp_bind; [apply (wp_for_each _ _ t reach (fun acc rest w => held t w /\ F w /\ forall r, r ∈ rs -> r ∉ rest -> covers_root r acc w))|].
  - split; [done|]. split; [done|]. intros r Hr Hn. done.
  - intros acc root rest w3 (Hh3 & HFw3 & Hc3).
    assert (HF3 : in_capsule (fun w => F w /\ forall r, r ∈ rs -> r ∉ root :: rest -> covers_root r acc w)).
    { apply in_capsule_and; [done|]. intros w5 w6 E Hc r Hr Hn. eapply in_capsule_covers; [exact E|auto]. }
    eapply wp_ok; [apply (reach_spec t root acc _ _ HF3); [done|split; [done|exact Hc3]]|].
    intros acc' w4 (Hh4 & (HFw4 & Hc4) & Hsub & Hroot). split; [done|]. split; [done|]. intros r Hr Hn.
    destruct (decide (r = root)) as [->|Hne]; [done|]. eapply covers_mono; [exact Hsub|]. apply Hc4; set_solver.
  - intros acc w3 (Hh3 & [Hlat3 Hhist3] & Hc3). apply rwp_ret. split; [done|]. simpl. split.
    + intros o' r Ho'. rewrite Hlat3 in Ho'. injection Ho' as <-. rewrite Href. intros [= <-]. destruct rs as [|x rs]; [done|].
      injection Hhead as ->. by left.
    + intros o' rs' Ho'. rewrite Hhist3 in Ho'. injection Ho' as <-. rewrite Hrs. by intros [= <-].
    + intros r Hr. apply Hc3; [done|]. apply not_elem_of_nil.
Qed.

(** * Applying a plan *)

Lemma sizes_lookup (os : list CapsuleGcObject) (acc : gmap bytes Z) (k : bytes) (n : Z) :
  fold_left (fun m o => <[gc_key o := gc_size o]> m) os acc !! k = Some n -> acc !! k = Some n \/ exists o, o ∈ os /\ gc_key o = k.
Proof.
  revert acc. induction os as [|o os IH]; intros acc; simpl; [auto|]. intros [Hk|(o' & Ho' & Hk)]%IH.
  - destruct (decide (gc_key o = k)) as [<-|Hne]; [right; exists o; split; [by left|done]|].
    rewrite lookup_insert_ne in Hk by done. by left.
  - right. exists o'. split; [by right|done].
Qed.

Lemma candidates_spec t retained reachable w : held t w -> protected retained reachable w ->
  rwp t (capsule_gc_candidates retained reachable) (on_ok (fun ds w' => (held t w' /\ protected retained reachable w') /\
    forall d, d ∈ ds -> is_garbage retained reachable (gc_key d) = Ok true)) w.
Proof.
  intros Hh Hp. unfold capsule_gc_candidates. apply rwp_list. intros w1 items Hr Hi _. apply rwp_let. intros ds Hds. apply rwp_ret.
  split; [by eapply held_others; [apply in_capsule_protected|..]|]. intros d Hd. eapply select_garbage_elem; [exact Hds|].
  by rewrite <- (sort_by_perm gc_cmp ds).
Qed.

Lemma validated_spec t pond url plan w : held t w ->
  rwp t (validated_capsule_gc_candidates pond url plan) (on_ok (fun sizes w' => exists retained reachable,
    (held t w' /\ protected retained reachable w') /\ forall k n, sizes !! k = Some n -> is_garbage retained reachable k = Ok true)) w.
Proof.
  intros Hh. unfold validated_capsule_gc_candidates. apply rwp_let. intros [] _. destruct (_ || _); [done|].
  eapply rwp_bind; [by apply snapshot_spec|]. intros [[latest retained] reachable] w1 [Hh1 Hp1]. simpl in Hp1.
  apply rwp_let. intros roots _. destruct (_ || _); [done|]. eapply rwp_bind; [by apply candidates_spec|].
  intros ds w2 [Hw2 Hds]. apply rwp_ret. exists retained, reachable. split; [done|]. intros k n Hk. unfold sizes_by_key in Hk.
  apply sizes_lookup in Hk as [Hk|(d & Hd & <-)]; [by rewrite lookup_empty in Hk|]. by apply Hds.
Qed.

Lemma apply_gc_spec t pond url plan reviewed w : rwp t (apply_capsule_gc_plan pond url plan reviewed) (on_ok (fun _ _ => True)) w.
Proof.
  unfold apply_capsule_gc_plan. apply rwp_let. intros actual _. destruct (negb _); [done|]. apply rwp_now. intros w1 now _ _.
  destruct (_ <? _); [done|]. apply with_lock_spec. intros w2 Hh2. eapply rwp_bind; [by apply validated_spec|].
  intros sizes w3 (retained & reachable & [Hh3 Hp3] & Hsizes).
  eapply wp_ok; [apply (wp_for_each _ _ t _ (fun _ _ w => held t w /\ protected retained reachable w))|done]; [done|].
  intros n d rest w4 [Hh4 Hp4]. unfold delete_target. destruct (sizes !! gc_key d) as [size|] eqn:Hd; [|by apply rwp_ret].
  destruct (negb _); [done|]. pose proof (in_capsule_protected retained reachable) as HF.
  apply rwp_delete; [| |bad_reply].
  - intros w5 w6 Hr Hi Hs Hdel. destruct (held_others t _ w4 w5 HF Hr (conj Hh4 Hp4)) as [Hh5 Hp5].
    eapply (delete_garbage t (gc_key d) retained reachable w5 w6); eauto.
  - intros w5 w6 x Hr Hi Hi6 Hs Hdel. destruct (held_others t _ w4 w5 HF Hr (conj Hh4 Hp4)) as [Hh5 Hp5]. apply rwp_ret.
    destruct (delete_garbage t (gc_key d) retained reachable w5 w6 Hi Hh5 Hs Hp5 (Hsizes _ _ Hd) Hdel) as [[_ Hh6] Hp6]. by split.
Qed.

End Collect.
