(* ===== verification/RemoteSafety.v ===== *)
(** The content remote under any number of concurrent, failing and crashing
    clients: the requests, what a successful one leaves, and the theorems. *)

From stdpp Require Import base list gmap numbers strings option relations options.
From Stdlib Require Import ZArith Lia.
From S2P Require Import Prelude RustStd RustText Wire Tree Manifest CanonicalJson TableLeaf TableRows Commit SeriesManifest SeriesPack Capsule CapsuleStream CapsuleTable CapsuleVerify CapsuleIncremental RemoteStore RemoteObjects RemotePacks RemoteCapsule RemoteGc RemoteInvariant RemoteRules RemoteWriters RemoteCapsuleWriters RemotePublish RemoteCollect.

Create HintDb lasting.

(** * Requests *)

Inductive request :=
| PutObject (d : ObjectDescriptor) (b : bytes)
| PutObjectStream (d : ObjectDescriptor) (rd : reader)
| PutPack (d : PackDescriptor) (b : bytes)
| PublishPack (series : bytes) (pack : PackIndex) (blobs : list (bytes * bytes)) (known : gset bytes)
| PublishConsolidated (injected : option PublicationFailurePoint) (series : bytes) (m : SeriesManifest) (pack : PackIndex) (known : gset bytes)
| PutRecord (pond : bytes) (record : PublicationRecord)
| PublishRecipe (recipe : bytes)
| CleanupUploads (older_than : Z)
| PublishCapsule (m : CapsuleManifest) (payloads : store)
| PublishCapsuleDirectory (m : CapsuleManifest) (dir : store)
| PublishCapsuleIncremental (m : CapsuleManifest) (dir : store) (prior : CapsuleManifest)
| PlanGc (pond url : bytes) (grace : Z)
| VerifyGc (pond url : bytes) (plan : CapsuleGcPlan)
| ApplyGc (pond url : bytes) (plan : CapsuleGcPlan) (reviewed : bytes)
| GetObject (h : bytes)
| GetObjects (hs : list bytes)
| ObjectSize (h : bytes)
| GetPack (d : PackDescriptor)
| CanonicalPack (series : bytes)
| ConsolidatedPack (series : bytes)
| GetRecord (h : bytes)
| InspectRecipe (recipe : bytes)
| LatestCapsule
| CapsuleRoots.

Inductive response :=
| Wrote (out : ImmutableWriteOutcome)
| Created (created : bool)
| PackAt (h : bytes)
| ConsolidatedAt (out : ConsolidatedPackWriteOutcome)
| RecipeAt (out : RecoveryRecipePublishOutcome)
| Cleaned (out : UploadCleanupOutcome)
| Published (out : CapsulePublishOutcome)
| Planned (plan : CapsuleGcPlan)
| Deleted (n : Z)
| Payload (b : option bytes)
| Payloads (bs : gmap bytes bytes)
| Size (n : option Z)
| Pack (d : option PackDescriptor)
| PubRecord (r : option PublicationRecord)
| Root (h : bytes)
| Manifest (m : option (bytes * CapsuleManifest))
| Roots (rs : list bytes)
| Done.

Section Requests.
Context `{Blake3} `{JsonParser} `{ManifestSerde} `{ArrowCast} `{Parquet} `{FileReads} `{Artifacts} `{PlanSerde}.

(** The operation of a request. *)
Definition serve (q : request) : prog response :=
  match q with
  | PutObject d b => x ← put_immutable_object d b; mret (Wrote x)
  | PutObjectStream d rd => x ← put_immutable_object_stream d rd; mret (Wrote x)
  | PutPack d b => x ← put_immutable_pack d b; mret (Created x)
  | PublishPack s pack blobs known => x ← publish_pack_with_known_present s pack blobs known; mret (PackAt x)
  | PublishConsolidated injected s m pack known => x ← publish_consolidated_pack_with_known_present injected s m pack known; mret (ConsolidatedAt x)
  | PutRecord pond record => x ← put_publication_record pond record; mret (Created x)
  | PublishRecipe recipe => x ← publish_recovery_recipe recipe; mret (RecipeAt x)
  | CleanupUploads older_than => x ← cleanup_stale_uploads older_than; mret (Cleaned x)
  | PublishCapsule m payloads => x ← publish_capsule m payloads; mret (Published x)
  | PublishCapsuleDirectory m dir => x ← publish_capsule_directory m dir; mret (Published x)
  | PublishCapsuleIncremental m dir prior => x ← publish_capsule_incremental m dir prior; mret (Published x)
  | PlanGc pond url grace => x ← plan_capsule_gc pond url grace; mret (Planned x)
  | VerifyGc pond url plan => _ ← verify_capsule_gc_plan pond url plan; mret Done
  | ApplyGc pond url plan reviewed => x ← apply_capsule_gc_plan pond url plan reviewed; mret (Deleted x)
  | GetObject h => x ← get_immutable_object h; mret (Payload x)
  | GetObjects hs => x ← get_objects hs; mret (Payloads x)
  | ObjectSize h => x ← immutable_object_size h; mret (Size x)
  | GetPack d => x ← get_immutable_pack d; mret (Payload x)
  | CanonicalPack s => x ← canonical_pack_for_series s; mret (Pack x)
  | ConsolidatedPack s => x ← consolidated_pack_for_series s; mret (Pack x)
  | GetRecord h => x ← get_publication_record h; mret (PubRecord x)
  | InspectRecipe recipe => x ← inspect_recovery_recipe recipe; mret (Root x)
  | LatestCapsule => x ← latest_capsule; mret (Manifest x)
  | CapsuleRoots => x ← capsule_roots; mret (Roots x)
  end.

(** Values of private-field types satisfy their constructors' checks. *)
Definition wf_request (q : request) : Prop :=
  match q with
  | PublishConsolidated _ _ _ pack _ => pack_typed pack
  | _ => True
  end.

(** What a request that succeeded has left, for good, in the store. *)
Definition fulfilled (q : request) (a : response) (w : world) : Prop :=
  match q, a with
  | PutObject d b, _ => blake3 b = obj_hash d /\ exists po, receipted (obj_hash d) po w /\ length (o_bytes po) = length b
  | PutObjectStream d _, _ => stored_object (obj_hash d) w
  | PutPack d b, _ => blake3 b = Commit.pack_hash d /\ exists pk, pack_decode b = Ok pk /\
      pack_of (Commit.series_hash d) (Commit.pack_hash d) pk w /\
      (is_segment pk -> located (v2_series_pack_path (Commit.series_hash d)) (Commit.series_hash d) is_segment w)
  | PublishPack s pack _ known, PackAt h => exists b pk, pack_encode pack = Ok b /\ h = blake3 b /\ pack_decode b = Ok pk /\ pack_of s h pk w /\
      forall x, x ∈ physical_object_hashes pack -> x ∉ known -> stored_object x w
  | PublishConsolidated _ s _ pack known, ConsolidatedAt out =>
      pack_of s (cp_hash out) pack w /\ is_whole pack /\ holds (v2_consolidated_series_pack_path s) (cp_hash out) w /\
      forall x, x ∈ physical_object_hashes pack -> x ∉ known -> stored_object x w
  | PutRecord pond record, _ => exists b, publication_encode record = Ok b /\ pub_pond_id record = pond /\ holds (v2_publication_path (blake3 b)) b w
  | PublishRecipe recipe, RecipeAt out => rr_hash out = recovery_recipe_hash recipe /\
      holds (recovery_recipe_versioned_path (rr_hash out)) recipe w /\ recipe_backed w
  | GetObject h, Payload (Some b) => blake3 b = h
  | ObjectSize h, Size (Some n) => exists po, receipted h po w /\ n = Z.of_nat (length (o_bytes po))
  | GetPack d, Payload (Some b) => exists pk, pack_of (Commit.series_hash d) (Commit.pack_hash d) pk w /\ pack_decode b = Ok pk
  | CanonicalPack s, Pack (Some d) => Commit.series_hash d = s /\ holds (v2_series_pack_path s) (Commit.pack_hash d) w /\ located (v2_series_pack_path s) s is_segment w
  | ConsolidatedPack s, Pack (Some d) => Commit.series_hash d = s /\ holds (v2_consolidated_series_pack_path s) (Commit.pack_hash d) w /\
      located (v2_consolidated_series_pack_path s) s is_whole w
  | _, _ => True
  end.
End Requests.

Section Safety.
#[local] Set Default Proof Using "Type*".
Context `{Blake3} `{JsonParser} `{ManifestSerdeLaws} `{ArrowCast} `{Parquet} `{FileReads} `{Artifacts} `{PlanSerde}.

Lemma lasting_const (P : Prop) : lasting (fun _ => P).
Proof. by intros ? ? ?. Qed.

Lemma lasting_ex {A} (P : A -> world -> Prop) : (forall x, lasting (P x)) -> lasting (fun w => exists x, P x w).
Proof. intros HP t w w' Hs [x Hx]. exists x. by eapply HP. Qed.

Lemma lasting_impl (A : Prop) P : lasting P -> lasting (fun w => A -> P w).
Proof. intros HP t w w' Hs Hw Ha. eapply HP; eauto. Qed.

#[local] Hint Resolve lasting_const lasting_and lasting_receipted lasting_stored lasting_pack lasting_recipe : lasting.
#[local] Hint Extern 1 (lasting (fun w => exists _, _)) => apply lasting_ex; intros : lasting.
#[local] Hint Extern 1 (lasting (fun w => _ -> _)) => apply lasting_impl : lasting.
#[local] Hint Extern 1 (lasting (holds _ _)) => apply lasting_holds; autorewrite with areas; reflexivity : lasting.
#[local] Hint Extern 1 (lasting (located _ _ _)) => apply lasting_located; autorewrite with areas; reflexivity : lasting.

Lemma lasting_stored_all (S : bytes -> Prop) (T : bytes -> Prop) : lasting (fun w => forall x, S x -> T x -> stored_object x w).
Proof. intros t w w' Hs Hw x HS HT. eapply lasting_stored; eauto. Qed.
#[local] Hint Resolve lasting_stored_all : lasting.

Lemma lasting_fulfilled q a : lasting (fulfilled q a).
Proof.
  unfold fulfilled. destruct q; destruct a as [| | | | | | | | |[?|]| |[?|]|[?|]| | | | |]; auto 20 with lasting.
Qed.

Lemma serve_then {A} t (p : prog A) (g : A -> response) (q : request) w (P : A -> world -> Prop) :
  rwp t p (on_ok P) w -> (forall x w', P x w' -> fulfilled q (g x) w') -> rwp t (x ← p; mret (g x)) (on_ok (fulfilled q)) w.
Proof. intros Hp Hq. eapply rwp_bind; [exact Hp|]. intros x w' Hx. apply rwp_ret. auto. Qed.

(** ** The operations that write nothing *)

#[local] Hint Extern 1 (reads (_ ≫= _)) => apply reads_bind; [|intros] : lasting.

Ltac reading := repeat match goal with
  | |- reads (_ ≫= _) => apply reads_bind; [|intros]
  | |- reads (for_each _ _ _) => apply reads_for_each; intros
  | |- reads (pure _) => exact Logic.I
  | |- reads (invoke _) => split; [exact Logic.I|done]
  | |- reads (mret _) => exact Logic.I
  | |- reads (failing _) => exact Logic.I
  | |- reads (abort _) => exact Logic.I
  | |- reads (match ?x with _ => _ end) => destruct x
  | |- reads (collect _ _) => unfold collect
  end.

Lemma reads_manifest root : reads (capsule_manifest root).
Proof. unfold capsule_manifest. reading. Qed.
Lemma reads_latest : reads latest_capsule.
Proof. unfold latest_capsule. reading. apply reads_manifest. Qed.
Lemma reads_roots : reads capsule_roots.
Proof. unfold capsule_roots, capsule_history_bytes. reading. Qed.
Lemma reads_snapshot : reads capsule_retention_snapshot.
Proof. unfold capsule_retention_snapshot, reach. reading; (apply reads_latest || apply reads_roots || apply reads_manifest). Qed.
Lemma reads_candidates retained reachable : reads (capsule_gc_candidates retained reachable).
Proof. unfold capsule_gc_candidates. reading. Qed.
Lemma reads_plan pond url grace : reads (plan_capsule_gc pond url grace).
Proof. unfold plan_capsule_gc. reading; (apply reads_snapshot || apply reads_candidates). Qed.
Lemma reads_verify pond url plan : reads (verify_capsule_gc_plan pond url plan).
Proof. unfold verify_capsule_gc_plan, validated_capsule_gc_candidates. reading; (apply reads_snapshot || apply reads_candidates). Qed.
Lemma reads_get_objects hs : reads (get_objects hs).
Proof. unfold get_objects, get_immutable_object. reading. Qed.
Lemma reads_get_record h : reads (get_publication_record h).
Proof. unfold get_publication_record, read_content_addressed_small. reading. Qed.
Lemma reads_inspect recipe : reads (inspect_recovery_recipe recipe).
Proof. unfold inspect_recovery_recipe, inspect_discoverable_recovery_recipe, read_recovery_recipe. reading. Qed.

Lemma rwp_reads {A} t (p : prog A) w : reads p -> rwp t p (on_ok (fun _ _ => True)) w.
Proof. intros Hp. apply wp_reads; [apply remote_step_refl|done|done]. Qed.

(** ** One request among the others *)

Lemma serve_spec t q w : wf_request q -> rwp t (serve q) (on_ok (fulfilled q)) w.
Proof.
  intros Hq. destruct q; cbn [serve].
  - eapply serve_then; [apply put_immutable_object_spec|done].
  - eapply serve_then; [apply put_immutable_object_stream_spec|done].
  - eapply serve_then; [apply put_immutable_pack_spec|done].
  - eapply serve_then; [apply publish_pack_spec|done].
  - eapply serve_then; [by apply publish_consolidated_spec|done].
  - eapply serve_then; [apply put_publication_record_spec|done].
  - eapply serve_then; [apply publish_recipe_spec|done].
  - eapply serve_then; [apply cleanup_stale_uploads_spec|done].
  - eapply serve_then; [apply publish_capsule_spec|done].
  - eapply serve_then; [apply publish_directory_spec|done].
  - eapply serve_then; [apply publish_incremental_spec|done].
  - eapply serve_then; [apply rwp_reads, reads_plan|done].
  - eapply serve_then; [apply rwp_reads, reads_verify|done].
  - eapply serve_then; [apply apply_gc_spec|done].
  - eapply serve_then; [apply (get_immutable_object_spec t _ (fun _ => True)); [apply lasting_const|done]|].
    intros [b|] w' [_ Hb]; [|done]. by apply Hb.
  - eapply serve_then; [apply rwp_reads, reads_get_objects|done].
  - eapply serve_then; [apply (immutable_object_size_spec t _ (fun _ => True)); [apply lasting_const|done]|].
    intros [n|] w' [_ Hn]; [|done]. by apply Hn.
  - eapply serve_then; [apply (get_pack_spec t _ (fun _ => True)); [apply lasting_const|done]|].
    intros [b|] w' [_ Hb]; [|done]. by apply Hb.
  - eapply serve_then; [apply (canonical_pack_spec t _ (fun _ => True)); [apply lasting_const|done]|].
    intros [d|] w' [_ Hd]; [|done]. by apply Hd.
  - eapply serve_then; [apply (consolidated_pack_spec t _ (fun _ => True)); [apply lasting_const|done]|].
    intros [d|] w' [_ Hd]; [|done]. by apply Hd.
  - eapply serve_then; [apply rwp_reads, reads_get_record|done].
  - eapply serve_then; [apply rwp_reads, reads_inspect|done].
  - eapply serve_then; [apply rwp_reads, reads_latest|done].
  - eapply serve_then; [apply rwp_reads, reads_roots|done].
Qed.

Context `{ObjectStore}.

(** The clients' operations, from a state of the store, after any of their requests in any order. *)
Definition reachable_from (qs : list request) (w0 : world) (ps : list (prog response)) (w : world) : Prop :=
  rtc pool_step (serve <$> qs, w0) (ps, w).

Lemma pool_requests qs w0 ps w :
  Forall wf_request qs -> remote_inv w0 -> reachable_from qs w0 ps w ->
  remote_inv w /\ moves remote_step w0 w /\
  forall t q p, qs !! t = Some q -> ps !! t = Some p -> rwp t p (on_ok (fulfilled q)) w.
Proof.
  intros Hqs Hi Hrun.
  set (Q := fun (t : nat) (r : rres response) (w : world) => forall q, qs !! t = Some q -> on_ok (fulfilled q) r w).
  destruct (pool_sound remote_inv remote_step Q (serve <$> qs) ps w0 w) as (Hi' & Hm & Hp); [|done| |exact Hrun|].
  - intros t r w1 w2 HQ Hr q Hq. specialize (HQ q Hq). destruct r as [a|e|]; [|done|done].
    eapply lasting_others; [apply lasting_fulfilled|exact Hr|exact HQ].
  - intros t p Hp. apply list_lookup_fmap_Some in Hp as (q & -> & Hq). rewrite Forall_forall in Hqs.
    eapply wp_mono; [apply (serve_spec t q); apply Hqs; by eapply list_elem_of_lookup_2|].
    intros r w1 Hr q' Hq'. congruence.
  - split; [done|]. split; [done|]. intros t q p Hq Hpt. eapply wp_mono; [exact (Hp t p Hpt)|]. intros r w1 HQ. by apply HQ.
Qed.

(** Later states of the same clients. *)
Lemma pool_later qs w0 ps w ps' w' :
  Forall wf_request qs -> remote_inv w0 -> reachable_from qs w0 ps w -> rtc pool_step (ps, w) (ps', w') -> moves remote_step w w'.
Proof.
  intros Hqs Hi Hrun Hrun'. destruct (pool_requests qs w0 ps w Hqs Hi Hrun) as (Hi1 & _ & Hp).
  destruct (pool_sound remote_inv remote_step (fun _ _ _ => True) ps ps' w w') as (_ & Hm & _); [done|done| |exact Hrun'|done].
  intros t p Ht. destruct (qs !! t) as [q|] eqn:Hq; [eapply wp_mono; [exact (Hp t q p Hq Ht)|done]|].
  exfalso. apply lookup_lt_Some in Ht. apply lookup_ge_None_1 in Hq.
  apply pool_length in Hrun. simpl in Hrun. rewrite length_fmap in Hrun. lia.
Qed.

Lemma moves_once w w' p o : moves remote_step w w' -> create_once (area_of p) = true -> objs w !! p = Some o -> objs w' !! p = Some o.
Proof. intros Hm Hp. induction Hm as [|w w1 w2 (t & Hs) _ IH]; [done|]. intros Ho. apply IH. by eapply g_once. Qed.

(** C25: The canonical keys of the remote (payloads, receipts, packs, locators,
    publication records, recovery recipes) are written once: however many clients
    run which operations, in whatever order their requests reach the store, and
    wherever they fail or stop, an object found at such a key is there, unchanged,
    in every later state. *)
Theorem remote_keys_immutable (qs : list request) (w0 w w' : world) (ps ps' : list (prog response)) (p : bytes) (o : obj) :
  Forall wf_request qs -> remote_inv w0 -> reachable_from qs w0 ps w -> rtc pool_step (ps, w) (ps', w') ->
  create_once (area_of p) = true -> objs w !! p = Some o -> objs w' !! p = Some o.
Proof. intros Hqs Hi Hrun Hrun' Hp Ho. eapply moves_once; [by eapply pool_later|done|done]. Qed.

(** C26: In every state the clients can reach, the remote is content addressed and
    authenticated: a payload hashes to its key, a receipt decodes, names the
    payload of its key and carries its length and tags, a pack hashes to its key
    and decodes, a series' locators name a pack of that series that is there (a
    suffix segment, or the whole range), a publication record hashes to its key,
    an immutable recovery recipe hashes to its key, and the discoverable recipe has
    its immutable copy. *)
Theorem remote_content_addressed (qs : list request) (w0 w : world) (ps : list (prog response)) :
  Forall wf_request qs -> remote_inv w0 -> reachable_from qs w0 ps w ->
  content_inv w /\ pack_inv w /\ record_inv w /\ recipe_inv w.
Proof. intros Hqs Hi Hrun. destruct (pool_requests qs w0 ps w Hqs Hi Hrun) as ([] & _ & _). done. Qed.

(** An operation that returned success has its effect in the store from then on,
    whatever the other clients do: the payload of the requested hash and length
    with its authenticating receipt, the pack at its hash with a locator for its
    series, every physical object a published pack names, the record, the recipe;
    and what a read returned was authentic. *)
Theorem remote_requests_fulfilled (qs : list request) (w0 w : world) (ps : list (prog response)) (t : nat) (q : request) (a : response) :
  Forall wf_request qs -> remote_inv w0 -> reachable_from qs w0 ps w ->
  qs !! t = Some q -> ps !! t = Some (Ret (Ok a)) -> fulfilled q a w.
Proof. intros Hqs Hi Hrun Hq Ht. destruct (pool_requests qs w0 ps w Hqs Hi Hrun) as (_ & _ & Hp). exact (Hp t q _ Hq Ht). Qed.

(** C27: Every recovery-capsule generation a ref names can be recovered, at every
    moment: while generations are published (in full, from a directory, or
    incrementally) and garbage is collected, concurrently and with failures
    anywhere, the latest ref and every root of the history name a generation
    whose manifest is there and hashes to the root, with all its payloads,
    each hashing to its key, and all its recovery artifacts. *)
Theorem capsule_refs_recoverable (qs : list request) (w0 w : world) (ps : list (prog response)) :
  Forall wf_request qs -> remote_inv w0 -> reachable_from qs w0 ps w ->
  (forall h o, objs w !! capsule_payload_path h = Some o -> blake3 (o_bytes o) = h)
  /\ (forall o, objs w !! capsule_latest_path = Some o -> exists r, parse_ref (o_bytes o) = Ok r /\ generation r w)
  /\ (forall o, objs w !! capsule_history_path = Some o -> exists rs, parse_capsule_history (o_bytes o) = Ok rs /\ forall r, r ∈ rs -> generation r w).
Proof. intros Hqs Hi Hrun. destruct (pool_requests qs w0 ps w Hqs Hi Hrun) as ([_ _ _ _ _ []] & _ & _). done. Qed.

(** C28: The publication lock is exclusive: while the lock object carries a token of
    one client, no request of another client changes the refs, the manifests,
    the payloads or the artifacts of the capsules, or the lock itself. *)
Theorem capsule_lock_exclusive (qs : list request) (w0 w w' : world) (ps ps' : list (prog response)) (t : nat) :
  Forall wf_request qs -> remote_inv w0 -> reachable_from qs w0 ps w -> pool_step (ps, w) (ps', w') -> held t w ->
  (exists p, ps' = <[t := p]> ps) \/ (held t w' /\ forall p, area_of p = ACapsule -> objs w' !! p = objs w !! p).
Proof.
  intros Hqs Hi Hrun Hs Hh. destruct (pool_requests qs w0 ps w Hqs Hi Hrun) as (Hi1 & _ & Hp).
  inversion Hs as [t' c k rep ps0 w1 w2 Ht Hserve E1 E2]; subst. destruct (decide (t' = t)) as [->|Hne]; [left; by eexists|right].
  assert (exists q, qs !! t' = Some q) as [q Hq].
  { apply lookup_lt_is_Some_2. apply lookup_lt_Some in Ht. apply pool_length in Hrun. simpl in Hrun. rewrite length_fmap in Hrun. lia. }
  destruct (Hp t' q _ Hq Ht w rep w') as [[_ Hg] _]; [reflexivity|done|by eapply obeys|]. by eapply step_other_held.
Qed.

End Safety.

(** * Examples *)

#[local] Existing Instances mix_blake3 no_json ex_serde ex_serde_laws ex_cast ex_parquet ex_reads memory.

#[local] Instance ex_artifacts : Artifacts :=
  {| included := fun name => bstr name |}.
#[local] Instance ex_plan_serde : PlanSerde := {| plan_to_vec := fun _ => Some (bstr "plan"); plan_from_slice := fun _ => None |}.

Definition ex_object_of (b : bytes) : ObjectDescriptor := {| obj_hash := mix b; obj_kind := RawBlob |}.
Definition ex_payload : bytes := bstr "payload".

(** A store with one capsule payload that no generation names. *)
Definition ex_start : world := {| objs := {[ capsule_payload_path (mix (bstr "mm")) := mem_obj (bstr "mm") ]}; issued := ∅ |}.

Definition ex_remote_run (schedule : list nat) (qs : list request) (w : world) : list (prog response) * world :=
  default ([], w) (run_pool schedule (serve <$> qs) w).

(** One client publishes a capsule, two race to write one payload. *)
Definition ex_requests : list request :=
  [PutObject (ex_object_of ex_payload) ex_payload; PutObject (ex_object_of ex_payload) ex_payload; PublishCapsule ex_manifest ex_objects].
Definition ex_schedule : list nat := [0; 1; 2; 0; 1; 1; 1; 1; 2; 0; 0]%nat ++ repeat 2%nat 24.

Definition ex_published : world := (ex_remote_run ex_schedule ex_requests ex_start).2.

(** Then a reviewed plan collects the payload that no generation names. *)
Definition ex_plan : CapsuleGcPlan :=
  unwrap_or {| gp_format := []; gp_remote_url := []; gp_remote_pond_id := []; gp_latest_root := []; gp_retained_roots := [];
               gp_created_at_micros := 0; gp_not_before_micros := 0; gp_deletions := [] |}
    (run_mem 3 (plan_capsule_gc (bstr "pond") (bstr "url") 0) ex_published).1.
Definition ex_gc_requests : list request := ex_requests ++ [ApplyGc (bstr "pond") (bstr "url") ex_plan (unwrap_or [] (capsule_gc_plan_hash ex_plan))].
Definition ex_gc_schedule : list nat := ex_schedule ++ repeat 3%nat 12.

Lemma ex_run_steps schedule qs w :
  bool_decide (is_Some (run_pool schedule (serve <$> qs) w)) = true ->
  reachable_from qs w (ex_remote_run schedule qs w).1 (ex_remote_run schedule qs w).2.
Proof.
  unfold ex_remote_run. destruct (run_pool schedule (serve <$> qs) w) as [[ps w']|] eqn:E; [intros _; by apply (run_pool_steps schedule)|done].
Qed.

Lemma ex_run_app s1 s2 qs w :
  bool_decide (is_Some (run_pool (s1 ++ s2) (serve <$> qs) w)) = true ->
  run_pool s2 (ex_remote_run s1 qs w).1 (ex_remote_run s1 qs w).2 = Some ((ex_remote_run (s1 ++ s2) qs w).1, (ex_remote_run (s1 ++ s2) qs w).2).
Proof.
  unfold ex_remote_run. rewrite run_pool_app. destruct (run_pool s1 (serve <$> qs) w) as [[ps w']|]; [|done]. cbn [mbind option_bind default fst snd].
  cbn. destruct (run_pool s2 ps w') as [[ps2 w2]|]; [by intros _|by intros [? ?]%bool_decide_eq_true].
Qed.

Lemma ex_start_inv : remote_inv ex_start.
Proof.
  assert (E : forall p o, objs ex_start !! p = Some o -> p = capsule_payload_path (mix (bstr "mm")) /\ o = mem_obj (bstr "mm")).
  { intros p o Ho. unfold ex_start in Ho. cbn [objs] in Ho. by apply lookup_singleton_Some in Ho as [-> ->]. }
  assert (Ha : forall p o, objs ex_start !! p = Some o -> area_of p = ACapsule) by (intros p o [-> _]%E; apply area_payload).
  split; [intros p o [-> ->]%E; done|split|split|split|split|split];
    try (intros h o Ho; apply Ha in Ho; autorewrite with areas in Ho; done).
  - intros o Ho. apply Ha in Ho. by autorewrite with areas in Ho.
  - intros h o [->%(inj _) ->]%E. reflexivity.
  - intros o [Ho _]%E. apply (f_equal ckind_of) in Ho. by autorewrite with ckinds in Ho.
  - intros o [Ho _]%E. apply (f_equal ckind_of) in Ho. by autorewrite with ckinds in Ho.
Qed.

Lemma ex_wf : Forall wf_request ex_gc_requests.
Proof. repeat constructor. Qed.

(** The state in which the first client has created the payload, and the last one. *)
Definition ex_mid := ex_remote_run [0; 1; 2; 0]%nat ex_gc_requests ex_start.
Definition ex_end := ex_remote_run ex_gc_schedule ex_gc_requests ex_start.

Lemma ex_mid_end : rtc pool_step (ex_mid.1, ex_mid.2) (ex_end.1, ex_end.2).
Proof. eapply run_pool_steps. apply (ex_run_app [0; 1; 2; 0]%nat (drop 4 ex_gc_schedule)). vm_compute. reflexivity. Qed.

Lemma remote_keys_immutable_witness :
  objs ex_mid.2 !! v2_object_path (mix ex_payload) = Some (mem_obj ex_payload)
  /\ objs ex_end.2 !! v2_object_path (mix ex_payload) = Some (mem_obj ex_payload).
Proof.
  split; [vm_compute; reflexivity|].
  apply (remote_keys_immutable ex_gc_requests ex_start ex_mid.2 ex_end.2 ex_mid.1 ex_end.1).
  - exact ex_wf.
  - exact ex_start_inv.
  - apply ex_run_steps. vm_compute. reflexivity.
  - exact ex_mid_end.
  - reflexivity.
  - vm_compute. reflexivity.
Defined.

Lemma remote_content_addressed_witness : content_inv ex_end.2 /\ pack_inv ex_end.2 /\ record_inv ex_end.2 /\ recipe_inv ex_end.2.
Proof.
  apply (remote_content_addressed ex_gc_requests ex_start ex_end.2 ex_end.1); [exact ex_wf|exact ex_start_inv|].
  apply ex_run_steps. vm_compute. reflexivity.
Defined.

Lemma remote_requests_fulfilled_witness :
  blake3 ex_payload = mix ex_payload /\
  exists po, receipted (mix ex_payload) po ex_end.2 /\ length (o_bytes po) = length ex_payload.
Proof.
  apply (remote_requests_fulfilled ex_gc_requests ex_start ex_end.2 ex_end.1 1%nat (PutObject (ex_object_of ex_payload) ex_payload)
    (Wrote {| payload_created := false; receipt_created := true; payload_bytes_created := 0 |})); [exact ex_wf|exact ex_start_inv| |reflexivity|].
  - apply ex_run_steps. vm_compute. reflexivity.
  - vm_compute. reflexivity.
Defined.

(** The collected payload is gone, the published generation complete. *)
Lemma capsule_refs_recoverable_witness :
  objs ex_published !! capsule_payload_path (mix (bstr "mm")) = Some (mem_obj (bstr "mm"))
  /\ objs ex_end.2 !! capsule_payload_path (mix (bstr "mm")) = None
  /\ exists r, parse_ref (latest_text ex_capsule_root) = Ok r /\ generation r ex_end.2.
Proof.
  split; [vm_compute; reflexivity|]. split; [vm_compute; reflexivity|].
  destruct (capsule_refs_recoverable ex_gc_requests ex_start ex_end.2 ex_end.1) as (_ & Hl & _); [exact ex_wf|exact ex_start_inv| |].
  - apply ex_run_steps. vm_compute. reflexivity.
  - apply (Hl (mem_obj (latest_text ex_capsule_root))). vm_compute. reflexivity.
Defined.

(** The publisher holds the lock while another client's request is served. *)
Definition ex_locked := ex_remote_run [2; 2; 2]%nat ex_gc_requests ex_start.
Definition ex_locked_next := ex_remote_run [2; 2; 2; 0]%nat ex_gc_requests ex_start.

Lemma capsule_lock_exclusive_witness :
  (exists p, ex_locked_next.1 = <[2%nat := p]> ex_locked.1)
  \/ (held 2 ex_locked_next.2 /\ forall p, area_of p = ACapsule -> objs ex_locked_next.2 !! p = objs ex_locked.2 !! p).
Proof.
  apply (capsule_lock_exclusive ex_gc_requests ex_start ex_locked.2 ex_locked_next.2 ex_locked.1 ex_locked_next.1 2%nat);
    [exact ex_wf|exact ex_start_inv|apply ex_run_steps; vm_compute; reflexivity| |].
  - apply (run_pool_one 0%nat). apply (ex_run_app [2; 2; 2]%nat [0%nat]). vm_compute. reflexivity.
  - exists (mem_obj (lock_token 0 (bstr "uuid-"))), 0, (bstr "uuid-"). repeat split; vm_compute; reflexivity.
Defined.
