(* ===== verification/RemoteProgress.v ===== *)
(** The remote's writers without interference or failure: the operations return
    success and do what they are for, up to the publication of a capsule.  The runs
    are those of the store in memory of [RemoteStore], whose objects carry no
    tags. *)

From stdpp Require Import base list gmap numbers strings option relations options.
From Stdlib Require Import ZArith Lia.
From S2P Require Import Prelude RustStd RustText Wire Tree Manifest CanonicalJson Commit SeriesMerkle Capsule CapsuleVerify RemoteStore RemoteObjects RemoteInvariant RemoteRules RemoteWriters SeriesManifest TableLeaf TableRows CapsuleStream CapsuleTable CapsuleIncremental RemoteCapsule RemoteCapsuleWriters RemotePublish RemoteSafety.

(** * Running a sequence *)

Lemma run_catch {A B} t (p : prog A) (f : rres A -> prog B) w :
  run_mem t (catch p f) w = (let '(r, w') := run_mem t p w in run_mem t (f r) w').
Proof.
  revert w. induction p as [r|c k IH]; intros w; [done|]. cbn [catch run_mem]. destruct (mem_reply t w c) as [rep w']. apply IH.
Qed.

Lemma run_bind {A B} t (p : prog A) (f : A -> prog B) w a w' :
  run_mem t p w = (Ok a, w') -> run_mem t (p ≫= f) w = run_mem t (f a) w'.
Proof. intros E. change (p ≫= f) with (catch p (propagate f)). by rewrite run_catch, E. Qed.

Lemma run_invoke {B} t c (f : reply c -> prog B) w :
  run_mem t (invoke c ≫= f) w = run_mem t (f (mem_reply t w c).1) (mem_reply t w c).2.
Proof. change (invoke c ≫= f) with (Do c f). cbn [run_mem]. by destruct (mem_reply t w c). Qed.

Lemma run_pure {A B} t (r : rres A) (f : A -> prog B) w a : r = Ok a -> run_mem t (pure r ≫= f) w = run_mem t (f a) w.
Proof. by intros ->. Qed.

(** The objects carry no tags. *)
Definition untagged (w : world) : Prop := forall p o, objs w !! p = Some o -> o_etag o = None /\ o_version o = None.

(** The one key that changed. *)
Definition puts (p b : bytes) (w : world) : world := with_objs w (<[p := mem_obj b]> (objs w)).

Lemma run_create {B} t p b (f : outcome oerror PutResult -> prog B) w :
  run_mem t (invoke (CCreate p b) ≫= f) w =
  match objs w !! p with
  | Some _ => run_mem t (f (Err OAlreadyExists)) w
  | None => run_mem t (f (Ok (put_result (mem_obj b)))) (puts p b w)
  end.
Proof. etrans; [exact (run_invoke t (CCreate p b) f w)|]. cbn. by destruct (objs w !! p). Qed.

Lemma run_get {B} t p (f : outcome oerror GetResult -> prog B) w :
  run_mem t (invoke (CGet p) ≫= f) w =
  run_mem t (f (match objs w !! p with
                | Some o => Ok {| g_meta := meta_of p o; g_chunks := [o_bytes o]; g_complete := true |}
                | None => Err ONotFound
                end)) w.
Proof. exact (run_invoke t (CGet p) f w). Qed.

Lemma run_head {B} t p (f : outcome oerror ObjectMeta -> prog B) w :
  run_mem t (invoke (CHead p) ≫= f) w =
  run_mem t (f (match objs w !! p with Some o => Ok (meta_of p o) | None => Err ONotFound end)) w.
Proof. exact (run_invoke t (CHead p) f w). Qed.

Lemma run_collect {B} t what p o (f : bytes -> prog B) w :
  run_mem t (collect what {| g_meta := meta_of p o; g_chunks := [o_bytes o]; g_complete := true |} ≫= f) w = run_mem t (f (o_bytes o)) w.
Proof. unfold collect. simpl. by rewrite app_nil_r. Qed.

Section Alone.
#[local] Set Default Proof Using "Type*".
Context `{Blake3} `{JsonParser} `{ManifestSerde}.

(** * Receipts *)

Lemma untagged_receipt h len : exists b, receipt_encode {| payload_hash := h; byte_length := len; e_tag := None; version := None |} = Ok b.
Proof. eexists. unfold receipt_encode, receipt_encode_body. cbn. reflexivity. Qed.

Lemma run_read_none t h w : objs w !! v2_receipt_path h = None -> run_mem t (read_receipt h) w = (Ok None, w).
Proof. intros Hn. unfold read_receipt. by rewrite run_get, Hn. Qed.

Lemma run_read_some t h po w : receipted h po w -> exists r, run_mem t (read_receipt h) w = (Ok (Some r), w) /\ backs r h po.
Proof.
  intros (Hpo & ro & r & Hro & Hr & Hb). exists r. split; [|done]. unfold read_receipt. rewrite run_get, Hro, run_collect.
  erewrite run_pure by (unfold content; by rewrite Hr). destruct Hb as (-> & _). by rewrite bool_decide_true.
Qed.

Lemma tag_same o : tag_changed o o = false.
Proof. destruct o; simpl; [by rewrite bool_decide_true|done]. Qed.

Lemma run_verify_identity t d r po w :
  receipted (obj_hash d) po w -> backs r (obj_hash d) po ->
  run_mem t (verify_receipt_identity d (Z.of_nat (length (o_bytes po))) r) w = (Ok tt, w).
Proof.
  intros (Hpo & _) (Hh & Hl & He & Hv). unfold verify_receipt_identity. rewrite Hh, Hl, Z.eqb_refl, bool_decide_true by done. cbn [negb orb].
  rewrite run_head, Hpo. cbn. unfold verify_receipt_metadata. cbn. by rewrite Hl, Z.eqb_refl, He, Hv, !tag_same.
Qed.

Lemma run_create_receipt t h len w :
  objs w !! v2_receipt_path h = None ->
  exists b, receipt_encode {| payload_hash := h; byte_length := len; e_tag := None; version := None |} = Ok b /\
    run_mem t (create_receipt {| payload_hash := h; byte_length := len; e_tag := None; version := None |}) w = (Ok true, puts (v2_receipt_path h) b w).
Proof.
  intros Hn. destruct (untagged_receipt h len) as [b Hb]. exists b. split; [done|]. unfold create_receipt.
  erewrite run_pure by (unfold content; by rewrite Hb). cbn [payload_hash]. by rewrite run_create, Hn.
Qed.

Lemma new_receipted h b rb w :
  wf_hash h = true -> is_u64 (Z.of_nat (length b)) = true ->
  receipt_encode {| payload_hash := h; byte_length := Z.of_nat (length b); e_tag := None; version := None |} = Ok rb ->
  forall po, objs w !! v2_object_path h = Some po -> o_bytes po = b -> o_etag po = None -> o_version po = None ->
  receipted h po (puts (v2_receipt_path h) rb w).
Proof.
  intros Hh Hl Hrb po Hpo Hb Ht Hv. split.
  - unfold puts. cbn [objs with_objs]. rewrite lookup_insert_ne; [done|]. apply area_ne. by autorewrite with areas.
  - exists (mem_obj rb). eexists. split; [unfold puts; cbn [objs with_objs]; apply lookup_insert_eq|]. split.
    + apply receipt_codec. split; [|split; [|exact Hrb]]; [|done]. unfold wf_receipt. cbn. by rewrite Hh, Hl.
    + unfold backs. cbn. by rewrite Hb, Ht, Hv.
Qed.

(** * Payloads from memory *)

(** The keys other than the two of a payload are untouched. *)
Definition only_payload (h : bytes) (w w' : world) : Prop :=
  forall p, p <> v2_object_path h -> p <> v2_receipt_path h -> objs w' !! p = objs w !! p.

Lemma run_put_object t d b w :
  remote_inv w -> untagged w -> blake3 b = obj_hash d -> is_u64 (Z.of_nat (length b)) = true ->
  (forall po, objs w !! v2_object_path (obj_hash d) = Some po -> o_bytes po = b) ->
  exists w' po, run_mem t (put_immutable_object d b) w =
      (Ok {| payload_created := bool_decide (objs w !! v2_object_path (obj_hash d) = None);
             receipt_created := bool_decide (objs w !! v2_receipt_path (obj_hash d) = None);
             payload_bytes_created := if bool_decide (objs w !! v2_object_path (obj_hash d) = None) then Z.of_nat (length b) else 0 |}, w')
    /\ receipted (obj_hash d) po w' /\ o_bytes po = b /\ only_payload (obj_hash d) w w'.
Proof.
  intros Hi Hu Hb Hl Hsame. assert (Hwf : wf_hash (obj_hash d) = true) by (rewrite <- Hb; apply wf_blake3).
  unfold put_immutable_object, of_bytes. rewrite bool_decide_true by done. cbn [negb].
  destruct (objs w !! v2_receipt_path (obj_hash d)) as [ro|] eqn:Hro.
  { destruct (i_receipt _ (i_content _ Hi) _ _ Hro) as (po & Hrec). destruct (run_read_some t _ _ _ Hrec) as (r & Hr & Hbk).
    pose proof Hrec as (Hpo & _). exists w, po. rewrite (run_bind _ _ _ _ _ _ Hr). rewrite <- (Hsame po Hpo).
    rewrite (run_bind _ _ _ _ _ _ (run_verify_identity t d r po w Hrec Hbk)). rewrite Hpo, !bool_decide_false by done. split; [done|]. split; [done|]. split; [done|]. by intros p _ _. }
  rewrite (run_bind _ _ _ _ _ _ (run_read_none t _ _ Hro)). rewrite run_create.
  destruct (objs w !! v2_object_path (obj_hash d)) as [po|] eqn:Hpo.
  - rewrite (run_bind _ _ _ _ _ _ (run_read_none t _ _ Hro)). destruct (Hu _ _ Hpo) as [Ht Hv]. pose proof (Hsame po eq_refl) as Hpb.
    destruct (run_create_receipt t (obj_hash d) (Z.of_nat (length b)) w Hro) as (rb & Hrb & Hrun).
    exists (puts (v2_receipt_path (obj_hash d)) rb w), po. split; [|split; [by eapply new_receipted|split; [done|]]].
    + erewrite run_bind; [reflexivity|]. rewrite run_get, Hpo, run_collect, Hpb. unfold of_bytes.
      rewrite !bool_decide_true by done. cbn [negb orb].
      erewrite run_pure by (unfold receipt_from_meta, content, meta_of; cbn; rewrite Ht, Hv; reflexivity). exact Hrun.
    + intros p Hp1 Hp2. unfold puts. cbn [objs with_objs]. by rewrite lookup_insert_ne.
  - set (w1 := puts (v2_object_path (obj_hash d)) b w).
    assert (Hro1 : objs w1 !! v2_receipt_path (obj_hash d) = None).
    { unfold w1, puts. cbn [objs with_objs]. rewrite lookup_insert_ne; [done|]. apply area_ne. by autorewrite with areas. }
    destruct (run_create_receipt t (obj_hash d) (Z.of_nat (length b)) w1 Hro1) as (rb & Hrb & Hrun).
    exists (puts (v2_receipt_path (obj_hash d)) rb w1), (mem_obj b).
    split; [|split; [eapply new_receipted; [done|done|exact Hrb|apply lookup_insert_eq|done..]|split; [done|]]].
    + erewrite run_pure by (unfold receipt_from_put, content; cbn; reflexivity). by erewrite run_bind by exact Hrun.
    + intros p Hp1 Hp2. unfold w1, puts. cbn [objs with_objs]. by rewrite !lookup_insert_ne.
Qed.

(** * Streams *)

Fixpoint data (rd : reader) : bytes :=
  match rd with
  | [] => []
  | Data d :: rd => d ++ data rd
  | ReadErr :: rd => data rd
  end.

(** A reader that does not fail and yields bytes until its end. *)
Definition clean (rd : reader) : Prop := Forall (fun e => exists c d, e = Data (c :: d)) rd.

Lemma reader_bytes_data rd : reader_bytes rd = length (data rd).
Proof. induction rd as [|[d|] rd IH]; simpl; [done|rewrite length_app; lia|done]. Qed.

(** One part: the next bytes of the stream, none only at its end. *)
Lemma fill_data room size rd :
  0 <= room -> clean rd -> size + Z.of_nat (length (data rd)) <= u64_max ->
  exists part rd', fill room size rd = Ok (part, size + Z.of_nat (length part), rd') /\ part ++ data rd' = data rd /\ clean rd'
    /\ (0 < room -> part = [] -> data rd = []).
Proof.
  intros Hroom Hc. revert room size Hroom. induction Hc as [|e rd (c & d & ->) Hc IH]; intros room size Hroom Hsz; cbn [fill data] in *.
  { exists [], []. cbn [length]. rewrite Z.add_0_r. destruct (room =? 0); (split; [done|split; [done|split; [by apply Forall_nil|done]]]). }
  destruct (Z.eqb_spec room 0) as [->|Hne].
  { exists [], (Data (c :: d) :: rd). rewrite Z.add_0_r. split; [done|]. split; [done|]. split; [|lia]. constructor; [by exists c, d|done]. }
  rewrite length_app in Hsz. destruct (Z.leb_spec (Z.of_nat (length (c :: d))) room) as [Hle|Hgt].
  - destruct (Z.ltb_spec u64_max (size + Z.of_nat (length (c :: d)))); [lia|].
    destruct (IH (room - Z.of_nat (length (c :: d))) (size + Z.of_nat (length (c :: d))) ltac:(lia) ltac:(lia)) as (part & rd' & -> & Hp & Hc' & _).
    exists ((c :: d) ++ part), rd'. cbn [mbind outcome_bind]. rewrite length_app, Nat2Z.inj_add, Z.add_assoc. split; [done|].
    rewrite <- app_assoc, Hp. by repeat split.
  - destruct (Z.ltb_spec u64_max (size + room)); [lia|].
    exists (firstn (Z.to_nat room) (c :: d)), (Data (skipn (Z.to_nat room) (c :: d)) :: rd).
    assert (El : length (firstn (Z.to_nat room) (c :: d)) = Z.to_nat room) by (rewrite length_firstn; lia). rewrite El, Z2Nat.id by lia.
    split; [done|]. split; [cbn [data]; rewrite app_assoc; by rewrite firstn_skipn|]. split.
    + constructor; [|done]. destruct (skipn (Z.to_nat room) (c :: d)) as [|c' d'] eqn:Es; [|by exists c', d'].
      apply (f_equal length) in Es. rewrite length_skipn in Es. cbn [length] in *. lia.
    + intros _ E. rewrite E in El. cbn [length] in El. lia.
Qed.

Lemma run_part t u w : run_mem t (next_part u) w = (Ok tt, w).
Proof. done. Qed.

(** The fuel is enough: one round per byte and the one that finds the end. *)
Lemma run_upload t fuel u inflight size rd w :
  clean rd -> size + Z.of_nat (length (data rd)) <= u64_max -> (length (data rd) < fuel)%nat ->
  exists parts inflight', run_mem t (upload_parts fuel u inflight size rd) w =
      (Ok ({| u_path := u_path u; u_parts := u_parts u ++ parts |}, inflight', size + Z.of_nat (length (data rd))), w) /\ concat parts = data rd.
Proof.
  revert u inflight size rd. induction fuel as [|fuel IH]; intros u inflight size rd Hc Hsz Hf; [lia|]. cbn [upload_parts].
  assert (Hin : exists n, run_mem t (if (MAX_INFLIGHT_UPLOAD_PARTS <=? inflight)%nat then _ ← next_part u; mret (pred inflight) else mret inflight) w = (Ok n, w)).
  { destruct (_ <=? _)%nat; [|by eexists]. eexists. rewrite (run_bind _ _ _ _ _ _ (run_part t u w)). done. }
  destruct Hin as [n Hin]. rewrite (run_bind _ _ _ _ _ _ Hin).
  destruct (fill_data MULTIPART_PART_SIZE size rd ltac:(done) Hc Hsz) as (part & rd' & -> & Hp & Hc' & Hend).
  case_bool_decide as Hpart.
  - exists [], n. subst part. rewrite (Hend eq_refl eq_refl). cbn [length]. rewrite app_nil_r, !Z.add_0_r. by destruct u.
  - destruct (IH {| u_path := u_path u; u_parts := u_parts u ++ [part] |} (S n) (size + Z.of_nat (length part)) rd' Hc') as (parts & n' & Hrun & Hcat).
    + rewrite <- Hp, length_app in Hsz. lia.
    + rewrite <- Hp, length_app in Hf. destruct part; [done|]. simpl in Hf. lia.
    + exists (part :: parts), n'. rewrite Hrun. cbn [u_path u_parts]. rewrite <- app_assoc, <- Hp, length_app. cbn [app concat]. rewrite Hcat.
      split; [|done]. by rewrite Nat2Z.inj_add, Z.add_assoc.
Qed.

Lemma run_drain t u n w : run_mem t (drain_parts u n) w = (Ok tt, w).
Proof. induction n as [|n IH]; [done|]. cbn [drain_parts]. by rewrite (run_bind _ _ _ _ _ _ (run_part t u w)). Qed.

Lemma run_put_hashed t p esz rd w :
  clean rd -> Z.of_nat (length (data rd)) <= u64_max -> (esz = None \/ esz = Some (Z.of_nat (length (data rd)))) ->
  run_mem t (put_hashed_object p (blake3 (data rd)) esz rd) w = (Ok tt, puts p (data rd) w).
Proof.
  intros Hc Hsz He. unfold put_hashed_object. case_bool_decide as Hz.
  - assert (rd = []) as ->.
    { destruct Hc as [|e rd [c [d ->]] Hc]; [done|]. exfalso. destruct He as [-> | ->]; [done|]. injection Hz as Hz. simpl in Hz. lia. }
    unfold of_bytes. cbn [probe data]. by rewrite bool_decide_true by done.
  - destruct (run_upload t (S (reader_bytes rd)) {| u_path := p; u_parts := [] |} 0 0 rd w Hc) as (parts & n & Hrun & Hcat); [lia|rewrite reader_bytes_data; lia|].
    etrans; [exact (run_invoke t (CMultipart p) _ w)|]. cbn [mem_reply fst snd]. rewrite (run_bind _ _ _ _ _ _ Hrun). cbn [u_parts u_path app].
    rewrite Hcat, bool_decide_true by done.
    assert (size_differs esz (0 + Z.of_nat (length (data rd))) = false) as ->.
    { destruct He as [-> | ->]; [done|]. simpl. by rewrite Z.eqb_refl. }
    cbn [negb orb]. rewrite (run_bind _ _ _ _ _ _ (run_drain t _ n w)). etrans; [exact (run_invoke t (CComplete _) _ w)|].
    cbn [mem_reply fst snd u_path u_parts]. unfold puts. by rewrite Hcat.
Qed.

Lemma run_receiptless t d p po w :
  objs w !! p = Some po -> blake3 (o_bytes po) = obj_hash d -> is_u64 (Z.of_nat (length (o_bytes po))) = true ->
  o_etag po = None -> o_version po = None ->
  run_mem t (verify_receiptless_object d p) w =
    (Ok {| payload_hash := obj_hash d; byte_length := Z.of_nat (length (o_bytes po)); e_tag := None; version := None |}, w).
Proof.
  intros Hpo Hh Hl Ht Hv. unfold verify_receiptless_object. rewrite run_get, Hpo. cbn [g_chunks g_complete g_meta].
  assert (Hc : receiptless_chunks [] 0 [o_bytes po] = Ok (o_bytes po, Z.of_nat (length (o_bytes po)))).
  { cbn [receiptless_chunks]. rewrite Z.add_0_l. unfold is_u64 in Hl. destruct (Z.ltb_spec u64_max (Z.of_nat (length (o_bytes po)))); [|done].
    apply andb_true_iff in Hl as [_ Hl]. unfold u64_max in *. lia. }
  rewrite (run_pure t _ _ w _ Hc). cbn [negb m_size meta_of]. rewrite Hh, bool_decide_true, Z.eqb_refl by done. cbn [negb orb].
  unfold receipt_from_meta, content, meta_of. cbn. by rewrite Ht, Hv.
Qed.

(** An upload touches the payload's two keys and its staging key. *)
Definition only_upload (h : bytes) (w w' : world) : Prop :=
  forall p, p <> v2_object_path h -> p <> v2_receipt_path h -> area_of p <> AUpload -> objs w' !! p = objs w !! p.

Lemma run_promote t d rd w :
  clean rd -> blake3 (data rd) = obj_hash d -> is_u64 (Z.of_nat (length (data rd))) = true ->
  objs w !! v2_receipt_path (obj_hash d) = None -> objs w !! v2_object_path (obj_hash d) = None ->
  exists w' po, run_mem t (put_immutable_object_stream d rd) w =
      (Ok {| payload_created := true; receipt_created := true; payload_bytes_created := Z.of_nat (length (data rd)) |}, w')
    /\ receipted (obj_hash d) po w' /\ o_bytes po = data rd /\ only_upload (obj_hash d) w w'.
Proof.
  intros Hc Hb Hl Hro Hpo. assert (Hwf : wf_hash (obj_hash d) = true) by (rewrite <- Hb; apply wf_blake3).
  set (can := v2_object_path (obj_hash d)) in *. set (stg := staging_path (mem_uuid w)).
  assert (Hsc : stg <> can) by (apply area_ne; unfold stg, can; by autorewrite with areas).
  assert (Hsr : stg <> v2_receipt_path (obj_hash d)) by (apply area_ne; unfold stg; by autorewrite with areas).
  assert (Hcr : can <> v2_receipt_path (obj_hash d)) by (apply area_ne; unfold can; by autorewrite with areas).
  set (w1 := {| objs := objs w; issued := <[mem_uuid w := t]> (issued w) |}). set (w2 := puts stg (data rd) w1).
  set (w3 := puts can (data rd) w2). set (w4 := with_objs w3 (delete stg (objs w3))).
  assert (Hp4 : objs w4 !! can = Some (mem_obj (data rd))) by (cbn; rewrite lookup_delete_ne by done; apply lookup_insert_eq).
  assert (Hr4 : objs w4 !! v2_receipt_path (obj_hash d) = None) by (cbn; by rewrite lookup_delete_ne, !lookup_insert_ne).
  destruct (run_create_receipt t (obj_hash d) (Z.of_nat (length (data rd))) w4 Hr4) as (rb & Hrb & Hrun).
  exists (puts (v2_receipt_path (obj_hash d)) rb w4), (mem_obj (data rd)). split; [|split; [by eapply new_receipted|split; [done|]]].
  - unfold put_immutable_object_stream. rewrite (run_bind _ _ _ _ _ _ (run_read_none t _ _ Hro)), run_head. fold can. rewrite Hpo.
    etrans; [exact (run_invoke t CUuid _ w)|]. cbn [mem_reply fst snd]. fold w1 stg. rewrite <- Hb at 1.
    rewrite (run_bind _ _ _ _ _ _ (run_put_hashed t stg None rd w1 Hc ltac:(unfold is_u64, u64_max in *; lia) ltac:(by left))). fold w2.
    rewrite run_head. assert (Hs2 : objs w2 !! stg = Some (mem_obj (data rd))) by apply lookup_insert_eq. rewrite Hs2.
    etrans; [exact (run_invoke t (CCopyIfAbsent stg can) _ w2)|].
    assert (Hcopy : mem_reply t w2 (CCopyIfAbsent stg can) = (Ok tt, w3)) by (cbn [mem_reply]; rewrite Hs2; cbn; by rewrite lookup_insert_ne, Hpo).
    rewrite Hcopy. cbn [fst snd]. etrans; [exact (run_bind t (mret true) _ w3 true w3 eq_refl)|].
    etrans; [exact (run_invoke t (CDelete stg) _ w3)|]. cbn [mem_reply fst snd]. fold w4.
    etrans; [eapply run_bind; rewrite run_head, Hp4; reflexivity|]. cbn [m_size meta_of byte_length mem_obj o_bytes].
    erewrite run_bind by exact Hrun. done.
  - intros p Hp1 Hp2 Hp3. assert (p <> stg) by (intros ->; apply Hp3; apply area_staging). unfold puts. cbn. by rewrite lookup_insert_ne, lookup_delete_ne, !lookup_insert_ne.
Qed.

Lemma run_put_stream t d rd w :
  remote_inv w -> untagged w -> clean rd -> blake3 (data rd) = obj_hash d -> is_u64 (Z.of_nat (length (data rd))) = true ->
  (forall po, objs w !! v2_object_path (obj_hash d) = Some po -> o_bytes po = data rd) ->
  exists w' po, run_mem t (put_immutable_object_stream d rd) w =
      (Ok {| payload_created := bool_decide (objs w !! v2_object_path (obj_hash d) = None);
             receipt_created := bool_decide (objs w !! v2_receipt_path (obj_hash d) = None);
             payload_bytes_created := if bool_decide (objs w !! v2_object_path (obj_hash d) = None) then Z.of_nat (length (data rd)) else 0 |}, w')
    /\ receipted (obj_hash d) po w' /\ o_bytes po = data rd /\ only_upload (obj_hash d) w w'.
Proof.
  intros Hi Hu Hc Hb Hl Hsame. assert (Hwf : wf_hash (obj_hash d) = true) by (rewrite <- Hb; apply wf_blake3).
  destruct (objs w !! v2_receipt_path (obj_hash d)) as [ro|] eqn:Hro.
  { unfold put_immutable_object_stream. destruct (i_receipt _ (i_content _ Hi) _ _ Hro) as (po & Hrec). destruct (run_read_some t _ _ _ Hrec) as (r & Hr & Hbk).
    pose proof Hrec as (Hpo & _). exists w, po. rewrite (run_bind _ _ _ _ _ _ Hr). pose proof Hbk as (_ & -> & _).
    rewrite (run_bind _ _ _ _ _ _ (run_verify_identity t d r po w Hrec Hbk)). rewrite Hpo, !bool_decide_false by done.
    split; [done|]. split; [done|]. split; [by apply Hsame|]. by intros p _ _. }
  destruct (objs w !! v2_object_path (obj_hash d)) as [po|] eqn:Hpo; [|by apply run_promote].
  unfold put_immutable_object_stream. rewrite (run_bind _ _ _ _ _ _ (run_read_none t _ _ Hro)). rewrite run_head, Hpo.
  destruct (Hu _ _ Hpo) as [Ht Hv]. pose proof (Hsame po eq_refl) as Hpb.
  rewrite (run_bind _ _ _ _ _ _ (run_receiptless t d _ po w Hpo ltac:(by rewrite Hpb) ltac:(by rewrite Hpb) Ht Hv)).
  destruct (run_create_receipt t (obj_hash d) (Z.of_nat (length (o_bytes po))) w Hro) as (rb & Hrb & Hrun). rewrite (run_bind _ _ _ _ _ _ Hrun).
  exists (puts (v2_receipt_path (obj_hash d)) rb w), po. split; [done|]. split; [|split; [done|]].
  - rewrite Hpb in Hrb. by eapply new_receipted.
  - intros p Hp1 Hp2 _. unfold puts. cbn [objs with_objs]. by rewrite lookup_insert_ne.
Qed.

End Alone.

(** Publishing a capsule without interference or failure, and the two
    guarantees of the remote's writers when they run alone. *)

Lemma run_put {B} t p b (f : outcome oerror PutResult -> prog B) w :
  run_mem t (invoke (CPut p b) ≫= f) w = run_mem t (f (Ok (put_result (mem_obj b)))) (puts p b w).
Proof. exact (run_invoke t (CPut p b) f w). Qed.

Lemma puts_eq p b w : objs (puts p b w) !! p = Some (mem_obj b).
Proof. apply lookup_insert_eq. Qed.

Lemma puts_ne p b w q : q <> p -> objs (puts p b w) !! q = objs w !! q.
Proof. intros Hq. unfold puts. cbn. by rewrite lookup_insert_ne. Qed.

(** Only keys of these kinds changed. *)
Definition only_kinds (ks : list ckind) (w w' : world) : Prop := forall p, ckind_of p ∉ ks -> objs w' !! p = objs w !! p.

Lemma only_kinds_refl ks w : only_kinds ks w w.
Proof. by intros p _. Qed.

Lemma only_kinds_trans ks1 ks2 ks w1 w2 w3 :
  only_kinds ks1 w1 w2 -> only_kinds ks2 w2 w3 -> ks1 ⊆ ks -> ks2 ⊆ ks -> only_kinds ks w1 w3.
Proof. intros H1 H2 S1 S2 p Hp. rewrite H2, H1; [done|intros Hin; apply Hp; by apply S1|intros Hin; apply Hp; by apply S2]. Qed.

Lemma only_kinds_puts p b w : only_kinds [ckind_of p] w (puts p b w).
Proof. intros q Hq. apply puts_ne. intros ->. set_solver. Qed.

Lemma ckind_lock : ckind_of capsule_publish_lock_path = KNone.
Proof. vm_compute. reflexivity. Qed.

(** * The lock *)

Definition locked (t : nat) (w : world) : world :=
  puts capsule_publish_lock_path (lock_token 0 (mem_uuid w)) {| objs := objs w; issued := <[mem_uuid w := t]> (issued w) |}.

Lemma run_locked {A} t (op : prog A) w a w' ks :
  objs w !! capsule_publish_lock_path = None ->
  run_mem t op (locked t w) = (Ok a, w') -> only_kinds ks (locked t w) w' -> KNone ∉ ks ->
  run_mem t (with_capsule_publish_lock op) w = (Ok a, with_objs w' (delete capsule_publish_lock_path (objs w'))).
Proof.
  intros Hn Hop Hk Hks. unfold with_capsule_publish_lock, acquire_capsule_publish_lock.
  assert (Hl : objs w' !! capsule_publish_lock_path = Some (mem_obj (lock_token 0 (mem_uuid w)))).
  { rewrite Hk by (by rewrite ckind_lock). apply puts_eq. }
  erewrite run_bind.
  2: { etrans; [exact (run_invoke t CNow _ w)|]. etrans; [exact (run_invoke t CUuid _ w)|]. cbn [mem_reply fst snd]. rewrite run_create.
       cbn [objs]. rewrite Hn. reflexivity. }
  fold (locked t w). rewrite run_catch, Hop. cbn [finish_locked]. unfold release_capsule_publish_lock.
  erewrite run_bind; [reflexivity|]. rewrite run_get, Hl, run_collect. cbn [o_bytes mem_obj]. rewrite bool_decide_true by done. cbn [negb].
  etrans; [exact (run_invoke t (CDelete _) _ w')|]. reflexivity.
Qed.

(** * The refs *)

Section Refs.
#[local] Set Default Proof Using "Type*".
Context `{Blake3} `{JsonParser} `{ManifestSerde}.

Definition same_refs (w w' : world) : Prop :=
  objs w' !! capsule_latest_path = objs w !! capsule_latest_path /\ objs w' !! capsule_history_path = objs w !! capsule_history_path.

Lemma only_kinds_refs ks w w' : only_kinds ks w w' -> KLatest ∉ ks -> KHistory ∉ ks -> same_refs w w'.
Proof. intros Hk Hl Hh. split; apply Hk; by autorewrite with ckinds. Qed.

Lemma run_ref_version t w : capsule_inv w -> exists v, forall w', same_refs w w' -> run_mem t capsule_ref_version w' = (Ok v, w').
Proof.
  intros Hi. unfold capsule_ref_version. destruct (objs w !! capsule_latest_path) as [o|] eqn:Ho.
  - destruct (i_latest _ Hi o Ho) as (r & Hr & _). exists (Present r). intros w' [E _]. rewrite run_get, E, Ho, run_collect.
    by rewrite (run_pure t _ _ w' r Hr).
  - exists Missing. intros w' [E _]. by rewrite run_get, E, Ho.
Qed.

Lemma run_history t w : capsule_inv w -> exists hb rs, forall w', same_refs w w' ->
  run_mem t capsule_history_bytes w' = (Ok hb, w') /\ run_mem t capsule_roots w' = (Ok rs, w')
  /\ NoDup rs /\ Forall (fun r => wf_hash r = true) rs.
Proof.
  intros Hi. unfold capsule_roots, capsule_history_bytes. destruct (objs w !! capsule_history_path) as [o|] eqn:Ho.
  - destruct (i_history _ Hi o Ho) as (rs & Hr & _). exists (Some (o_bytes o)), rs. intros w' [_ E].
    assert (Hb : run_mem t capsule_history_bytes w' = (Ok (Some (o_bytes o)), w')).
    { unfold capsule_history_bytes. by rewrite run_get, E, Ho, run_collect. }
    split; [exact Hb|]. split; [etrans; [exact (run_bind t _ _ w' _ w' Hb)|]; cbn; by rewrite Hr|].
    unfold parse_capsule_history in Hr. destruct (negb _); [done|].
    destruct (parse_roots_spec _ _ _ Hr) as (? & ? & _); [apply NoDup_nil_2|constructor|done].
  - exists None, []. intros w' [_ E].
    assert (Hb : run_mem t capsule_history_bytes w' = (Ok None, w')) by (unfold capsule_history_bytes; by rewrite run_get, E, Ho).
    split; [exact Hb|]. split; [by etrans; [exact (run_bind t _ _ w' _ w' Hb)|]|]. split; [apply NoDup_nil_2|constructor].
Qed.

(** The refs after the publication of a root. *)
Lemma run_refs t root w0 :
  capsule_inv w0 -> wf_hash root = true ->
  exists (v : CapsuleRefVersion) (rs : list bytes), run_mem t capsule_roots w0 = (Ok rs, w0)
    /\ (forall w, same_refs w0 w -> run_mem t capsule_ref_version w = (Ok v, w))
    /\ forall w, same_refs w0 w -> exists w', run_mem t (finish_capsule_refs_locked root v) w = (Ok tt, w')
      /\ only_kinds [KLatest; KHistory] w w' /\ objs w' !! capsule_latest_path = Some (mem_obj (latest_text root))
      /\ forall w2, objs w2 !! capsule_history_path = objs w' !! capsule_history_path -> run_mem t capsule_roots w2 = (Ok (merge_roots root rs), w2).
Proof.
  intros Hi Hw. destruct (run_ref_version t w0 Hi) as [v Hv]. destruct (run_history t w0 Hi) as (hb & rs & Hh).
  exists v, rs. split; [by apply Hh|]. split; [exact Hv|]. intros w Hs. destruct (Hh w Hs) as (Hb & Hr & Hn & Hwf).
  set (w1 := puts capsule_history_path (history_text (merge_roots root rs)) w). exists (puts capsule_latest_path (latest_text root) w1).
  assert (Hlh : capsule_latest_path <> capsule_history_path) by (apply ckind_ne; by autorewrite with ckinds).
  split; [|split; [|split; [apply puts_eq|]]].
  - unfold finish_capsule_refs_locked. rewrite (run_bind _ _ _ _ _ _ (Hv w Hs)), bool_decide_true by done. cbn [negb].
    rewrite (run_bind _ _ _ _ _ _ Hb). erewrite run_bind; [|unfold merge_capsule_history; by rewrite (run_bind _ _ _ _ _ _ Hr), run_put].
    by rewrite run_put.
  - intros p Hp. unfold w1. rewrite !puts_ne; [done|intros ->; autorewrite with ckinds in Hp; set_solver..].
  - intros w2 Hg. rewrite puts_ne in Hg by done. unfold w1 in Hg. rewrite puts_eq in Hg.
    destruct (merge_roots_spec root rs Hn Hwf Hw) as (Hm & _ & _).
    unfold capsule_roots. erewrite run_bind; [|unfold capsule_history_bytes; rewrite run_get, Hg, run_collect; reflexivity]. unfold pure. cbn [run_mem o_bytes mem_obj]. by rewrite Hm.
Qed.

End Refs.

(** * The publisher *)

Section Publish.
#[local] Set Default Proof Using "Type*".
Context `{Blake3} `{JsonParser} `{ManifestSerde} `{ArrowCast} `{Parquet} `{FileReads} `{Artifacts}.

(** The supplied payload of a declared object. *)
Definition supplied (payloads : store) (o : CapsuleObject) : Prop :=
  exists b, payloads !! co_hash o = Some b /\ blake3 b = co_hash o /\ Z.of_nat (length b) = co_size o.

Lemma verified_supplied m payloads r os :
  verify_capsule_payloads m payloads = Ok r -> payload_objects m = Ok os -> length os = size payloads /\ Forall (supplied payloads) os.
Proof.
  unfold verify_capsule_payloads. intros E Hos. apply bind_Ok in E as (root & _ & E). rewrite Hos in E. cbn [mbind outcome_bind] in E.
  destruct (Nat.eqb_spec (length os) (size payloads)) as [Hl|]; cbn [negb] in E; [|done]. split; [done|].
  unfold verify_capsule_with in E. rewrite Hos in E. cbn [mbind outcome_bind] in E. apply bind_Ok in E as (n & Hn & _).
  eapply Forall_impl; [exact (verify_objects_all _ _ _ _ Hn)|]. intros o Ho. cbn beta in Ho. unfold read_from, verify_payload in Ho.
  destruct (payloads !! co_hash o) as [b|] eqn:Hb; [|done]. cbn [mbind outcome_bind] in Ho. exists b. split; [done|].
  case_bool_decide as Hh; [|done]. cbn [negb] in Ho. destruct (Z.eqb_spec (Z.of_nat (length b)) (co_size o)); done.
Qed.

(** The payload is at its key. *)
Definition stored (payloads : store) (w : world) (o : CapsuleObject) : Prop :=
  exists b, payloads !! co_hash o = Some b /\ objs w !! capsule_payload_path (co_hash o) = Some (mem_obj b).

Lemma run_payloads t payloads os n w :
  Forall (supplied payloads) os ->
  exists w', run_mem t (for_each (put_payload payloads) n os) w = (Ok (n + Z.of_nat (length os)), w')
    /\ only_kinds [KPayload] w w' /\ (forall o, stored payloads w o -> stored payloads w' o) /\ Forall (stored payloads w') os.
Proof.
  intros Hs. revert n w. induction Hs as [|o os (b & Hb & Hh & Hz) _ IH]; intros n w.
  { exists w. cbn. rewrite Z.add_0_r. split; [done|]. split; [apply only_kinds_refl|]. split; [done|constructor]. }
  set (w1 := puts (capsule_payload_path (co_hash o)) b w).
  assert (Hrun : run_mem t (put_payload payloads n o) w = (Ok (n + 1), w1)).
  { unfold put_payload, of_bytes. rewrite Hb, Hh, Hz, bool_decide_true, Z.eqb_refl by done. cbn [negb]. by rewrite run_put. }
  assert (Hk : forall o', stored payloads w o' -> stored payloads w1 o').
  { intros o' (b' & Hb' & Ho'). exists b'. split; [done|]. destruct (decide (co_hash o' = co_hash o)) as [E|E].
    - rewrite E in *. unfold w1. rewrite puts_eq. congruence.
    - unfold w1. rewrite puts_ne; [done|]. by intros ?%(inj _). }
  destruct (IH (n + 1) w1) as (w' & Hr & Ho & Hkeep & Hall). exists w'. cbn [for_each]. rewrite (run_bind _ _ _ _ _ _ Hrun), Hr. cbn [length].
  split; [by rewrite Nat2Z.inj_succ, <- Z.add_assoc, (Z.add_comm 1)|]. split; [|split; [by auto|]].
  - eapply only_kinds_trans; [apply only_kinds_puts|exact Ho|by rewrite ckind_payload|done].
  - constructor; [|done]. apply Hkeep. exists b. split; [done|]. apply puts_eq.
Qed.

Lemma run_artifacts t root arts w :
  exists w', run_mem t (for_each (put_artifact root) tt arts) w = (Ok tt, w') /\ only_kinds [KGeneration] w w'.
Proof.
  revert w. induction arts as [|a arts IH]; intros w; [exists w; split; [done|apply only_kinds_refl]|].
  destruct (IH (puts (capsule_generation_path root a.1) a.2 w)) as (w' & Hr & Ho). exists w'. cbn [for_each]. split.
  - erewrite run_bind; [exact Hr|]. unfold put_artifact. by rewrite run_put.
  - eapply only_kinds_trans; [apply only_kinds_puts|exact Ho|by rewrite ckind_generation|done].
Qed.

(** The kinds of keys a publication writes. *)
Definition published_kinds : list ckind := [KPayload; KManifest; KGeneration; KLatest; KHistory].

Lemma run_publish t m payloads root b os r w :
  publishing m root b os -> verify_capsule_payloads m payloads = Ok r ->
  remote_inv w -> objs w !! capsule_publish_lock_path = None ->
  exists w' rs, run_mem t (publish_capsule m payloads) w =
      (Ok {| po_root := root; payloads_uploaded := Z.of_nat (length os); payloads_total := Z.of_nat (length os) |}, w')
    /\ run_mem t capsule_roots w = (Ok rs, w) /\ run_mem t capsule_roots w' = (Ok (merge_roots root rs), w')
    /\ objs w' !! capsule_latest_path = Some (mem_obj (latest_text root)) /\ objs w' !! capsule_manifest_path root = Some (mem_obj b)
    /\ Forall (stored payloads w') os /\ objs w' !! capsule_publish_lock_path = None /\ only_kinds published_kinds w w'.
Proof.
  intros Hp Hv Hi Hn. pose proof (publishing_wf _ _ _ _ Hp) as Hwf. destruct Hp as [Hb Hr Hos].
  destruct (verified_supplied _ _ _ _ Hv Hos) as [Hlen Hsup].
  destruct (run_refs t root w (i_capsules _ Hi) Hwf) as (v & rs & Hrs & Hver & Hfin).
  assert (Hlk : only_kinds [KNone] w (locked t w)).
  { intros p Hp. unfold locked. rewrite puts_ne; [done|]. intros ->. rewrite ckind_lock in Hp. clear -Hp. set_solver. }
  assert (Hl : same_refs w (locked t w)) by (eapply only_kinds_refs; [exact Hlk|clear; set_solver..]).
  destruct (run_payloads t payloads os 0 (locked t w) Hsup) as (w1 & Hr1 & Ho1 & _ & Hst).
  set (w2 := puts (capsule_manifest_path root) b w1).
  destruct (run_artifacts t root (artifacts root os) w2) as (w3 & Hr3 & Ho3).
  assert (Ho13 : only_kinds [KManifest; KGeneration] w1 w3).
  { eapply only_kinds_trans; [apply only_kinds_puts|exact Ho3|rewrite ckind_manifest|]; clear; set_solver. }
  assert (Ho03 : only_kinds [KPayload; KManifest; KGeneration] (locked t w) w3) by (eapply only_kinds_trans; [exact Ho1|exact Ho13|clear; set_solver..]).
  assert (Hs3 : same_refs w w3).
  { destruct (only_kinds_refs _ _ _ Ho03) as [El Eh]; [clear; set_solver..|]. destruct Hl as [El' Eh']. split; congruence. }
  destruct (Hfin w3 Hs3) as (w4 & Hr4 & Ho4 & Hlat & Hroots).
  exists (with_objs w4 (delete capsule_publish_lock_path (objs w4))), rs.
  assert (Hne : forall p, ckind_of p <> KNone -> objs (with_objs w4 (delete capsule_publish_lock_path (objs w4))) !! p = objs w4 !! p).
  { intros p Hp. cbn. rewrite lookup_delete_ne; [done|]. intros <-. by rewrite ckind_lock in Hp. }
  split; [|split; [done|split; [apply Hroots, Hne; by autorewrite with ckinds|]]].
  - unfold publish_capsule. rewrite (run_pure t (capsule (capsule_root m)) _ w root) by (unfold capsule; by rewrite Hr).
    rewrite (run_pure t (capsule (capsule_manifest_bytes m)) _ w b) by (unfold capsule; by rewrite Hb).
    rewrite (run_pure t (capsule (payload_objects m)) _ w os) by (unfold capsule; by rewrite Hos).
    rewrite (run_pure t (capsule (verify_capsule_payloads m payloads)) _ w r) by (unfold capsule; by rewrite Hv).
    rewrite bool_decide_true by done. cbn [negb]. eapply (run_locked t _ w _ w4 published_kinds); [done| | |clear; unfold published_kinds; set_solver].
    + rewrite (run_bind _ _ _ _ _ _ (Hver _ Hl)), (run_bind _ _ _ _ _ _ Hr1), Z.add_0_l. unfold finish_capsule_publication_locked.
      rewrite run_put. fold w2.
      etrans; [exact (run_bind _ _ _ _ _ _ Hr3)|]. etrans; [exact (run_bind _ _ _ _ _ _ Hr4)|]. reflexivity.
    + eapply only_kinds_trans; [exact Ho03|exact Ho4|clear; unfold published_kinds; set_solver..].
  - rewrite !Hne by (by autorewrite with ckinds). split; [done|]. split; [|split; [|split; [apply lookup_delete_eq|]]].
    + rewrite Ho4, Ho3 by (autorewrite with ckinds; clear; set_solver). apply puts_eq.
    + eapply Forall_impl; [exact Hst|]. intros o (c & Hc & Ho). exists c. split; [done|]. rewrite Hne by (by autorewrite with ckinds).
      by rewrite Ho4, Ho13 by (autorewrite with ckinds; clear; set_solver).
    + intros p Hp. destruct (decide (p = capsule_publish_lock_path)) as [->|Hpl]; [cbn; by rewrite lookup_delete_eq, Hn|].
      cbn. rewrite lookup_delete_ne by done. unfold published_kinds in Hp. rewrite Ho4, Ho03 by (clear -Hp; set_solver). unfold locked. by rewrite puts_ne.
Qed.

End Publish.

(** * The guarantees *)

Section Succeeds.
#[local] Set Default Proof Using "Type*".
Context `{Blake3} `{JsonParser} `{ManifestSerdeLaws} `{ArrowCast} `{Parquet} `{FileReads} `{Artifacts}.

(** What a write of one payload reports. *)
Definition write_outcome (h b : bytes) (w : world) : ImmutableWriteOutcome :=
  {| payload_created := bool_decide (objs w !! v2_object_path h = None);
     receipt_created := bool_decide (objs w !! v2_receipt_path h = None);
     payload_bytes_created := if bool_decide (objs w !! v2_object_path h = None) then Z.of_nat (length b) else 0 |}.

Lemma run_get_object t h po w : receipted h po w -> blake3 (o_bytes po) = h -> run_mem t (get_immutable_object h) w = (Ok (Some (o_bytes po)), w).
Proof.
  intros (Hpo & _) Hh. unfold get_immutable_object. rewrite run_get, Hpo, run_collect. unfold of_bytes. by rewrite bool_decide_true.
Qed.

(** Writing a payload always gets there: in a store that refuses nothing and
    whose state satisfies the remote's invariant, writing bytes under their
    hash succeeds, from memory and as a stream of any number of reads (the
    multipart loop ends), whether the payload and its receipt are absent, the
    payload is there without a receipt (an earlier writer stopped between the
    two), or both are there; the outcome says which of the two this call
    created; and a read then returns the bytes. *)
Theorem remote_put_succeeds (t : nat) (d : ObjectDescriptor) (rd : reader) (w : world) :
  remote_inv w -> untagged w -> clean rd -> blake3 (data rd) = obj_hash d -> is_u64 (Z.of_nat (length (data rd))) = true ->
  (forall po, objs w !! v2_object_path (obj_hash d) = Some po -> o_bytes po = data rd) ->
  (exists w', run_mem t (put_immutable_object d (data rd)) w = (Ok (write_outcome (obj_hash d) (data rd) w), w')
     /\ run_mem t (get_immutable_object (obj_hash d)) w' = (Ok (Some (data rd)), w') /\ only_payload (obj_hash d) w w')
  /\ (exists w', run_mem t (put_immutable_object_stream d rd) w = (Ok (write_outcome (obj_hash d) (data rd) w), w')
     /\ run_mem t (get_immutable_object (obj_hash d)) w' = (Ok (Some (data rd)), w') /\ only_upload (obj_hash d) w w').
Proof.
  intros Hi Hu Hc Hb Hl Hs. split.
  - destruct (run_put_object t d (data rd) w Hi Hu Hb Hl Hs) as (w' & po & Hr & Hrec & Hpo & Ho). exists w'. split; [exact Hr|].
    split; [rewrite <- Hpo; apply run_get_object; [done|by rewrite Hpo]|done].
  - destruct (run_put_stream t d rd w Hi Hu Hc Hb Hl Hs) as (w' & po & Hr & Hrec & Hpo & Ho). exists w'. split; [exact Hr|].
    split; [rewrite <- Hpo; apply run_get_object; [done|by rewrite Hpo]|done].
Qed.

(** C29: Publishing a capsule gets there: when the store refuses nothing, its state
    satisfies the remote's invariant and no other publication holds the lock,
    publishing a manifest with payloads that verify succeeds; the latest ref
    then reads back as the manifest and its root, the history is the prior
    one with the root in front (without a duplicate, three roots at most),
    every declared payload is at its key, the lock is free again, and no key
    outside the capsules' payloads, manifests, artifacts and refs changed. *)
Theorem capsule_publish_succeeds (t : nat) (m : CapsuleManifest) (payloads : store) (root b : bytes) (os : list CapsuleObject)
    (r : CapsuleVerifyReport) (w : world) :
  publishing m root b os -> verify_capsule_payloads m payloads = Ok r ->
  remote_inv w -> objs w !! capsule_publish_lock_path = None ->
  exists w' rs, run_mem t (publish_capsule m payloads) w =
      (Ok {| po_root := root; payloads_uploaded := Z.of_nat (length os); payloads_total := Z.of_nat (length os) |}, w')
    /\ run_mem t latest_capsule w' = (Ok (Some (root, m)), w')
    /\ run_mem t capsule_roots w = (Ok rs, w) /\ run_mem t capsule_roots w' = (Ok (merge_roots root rs), w')
    /\ Forall (stored payloads w') os /\ objs w' !! capsule_publish_lock_path = None /\ only_kinds published_kinds w w'.
Proof.
  intros Hp Hv Hi Hn. destruct (run_publish t m payloads root b os r w Hp Hv Hi Hn) as (w' & rs & Hrun & Hr0 & Hr1 & Hl & Hm & Hrest).
  exists w', rs. split; [done|]. split; [|done]. unfold latest_capsule. rewrite run_get, Hl, run_collect.
  rewrite (run_pure t _ _ w' root) by (apply parse_latest; by eapply publishing_wf).
  erewrite run_bind; [reflexivity|]. unfold capsule_manifest. rewrite run_get, Hm, run_collect. destruct Hp as [Hb Hroot _].
  rewrite (run_pure t (capsule (decode_capsule_manifest _)) _ w' m).
  2: { unfold capsule. cbn [o_bytes mem_obj]. by rewrite (proj2 (decode_manifest_spec b m) Hb). }
  rewrite (run_pure t (capsule (capsule_root m)) _ w' root) by (unfold capsule; by rewrite Hroot). by rewrite bool_decide_true.
Qed.

End Succeeds.

(** * Examples *)

#[local] Existing Instances mix_blake3 no_json ex_serde ex_serde_laws ex_cast ex_parquet ex_reads ex_artifacts.

(** The payload is there without its receipt; the stream comes in two reads. *)
Definition ex_receiptless : world := {| objs := {[ v2_object_path (mix ex_payload) := mem_obj ex_payload ]}; issued := ∅ |}.
Definition ex_stream : reader := [Data (bstr "pay"); Data (bstr "load")].

Lemma ex_receiptless_inv : remote_inv ex_receiptless.
Proof.
  assert (E : forall p o, objs ex_receiptless !! p = Some o -> p = v2_object_path (mix ex_payload) /\ o = mem_obj ex_payload).
  { intros p o Ho. unfold ex_receiptless in Ho. cbn [objs] in Ho. by apply lookup_singleton_Some in Ho as [-> ->]. }
  assert (Ha : forall p o, objs ex_receiptless !! p = Some o -> area_of p = AObject) by (intros p o [-> _]%E; apply area_object).
  split; [intros p o [-> ->]%E; done|split|split|split|split|split];
    try (intros h o Ho; apply Ha in Ho; autorewrite with areas in Ho; done);
    try (intros o Ho; apply Ha in Ho; autorewrite with areas in Ho; done).
  intros h o [->%(inj _) ->]%E. reflexivity.
Qed.

Lemma remote_put_succeeds_witness :
  exists w', run_mem 0 (put_immutable_object_stream (ex_object_of ex_payload) ex_stream) ex_receiptless =
      (Ok {| payload_created := false; receipt_created := true; payload_bytes_created := 0 |}, w')
    /\ run_mem 0 (get_immutable_object (mix ex_payload)) w' = (Ok (Some ex_payload), w').
Proof.
  destruct (remote_put_succeeds 0 (ex_object_of ex_payload) ex_stream ex_receiptless) as (_ & w' & Hr & Hg & _).
  - exact ex_receiptless_inv.
  - intros p o Ho. unfold ex_receiptless in Ho. cbn [objs] in Ho. by apply lookup_singleton_Some in Ho as [_ <-].
  - repeat constructor; by eexists _, _.
  - reflexivity.
  - reflexivity.
  - intros po Ho. unfold ex_receiptless in Ho. cbn [objs] in Ho. by apply lookup_singleton_Some in Ho as [_ <-].
  - exists w'. split; [exact Hr|exact Hg].
Defined.

Lemma capsule_publish_succeeds_witness :
  exists w' n, run_mem 0 (publish_capsule ex_manifest ex_objects) ex_start =
      (Ok {| po_root := ex_capsule_root; payloads_uploaded := n; payloads_total := n |}, w')
    /\ run_mem 0 latest_capsule w' = (Ok (Some (ex_capsule_root, ex_manifest)), w').
Proof.
  destruct (verify_capsule_payloads ex_manifest ex_objects) as [r|e|] eqn:Hv; [|vm_compute in Hv; done..].
  destruct (payload_objects ex_manifest) as [os|e|] eqn:Hos; [|vm_compute in Hos; done..].
  destruct (capsule_publish_succeeds 0 ex_manifest ex_objects ex_capsule_root (bstr "{}") os r ex_start) as (w' & rs & Hr & Hl & _).
  - split; [vm_compute; reflexivity|vm_compute; reflexivity|exact Hos].
  - exact Hv.
  - exact ex_start_inv.
  - vm_compute. reflexivity.
  - exists w', (Z.of_nat (length os)). split; [exact Hr|exact Hl].
Defined.
