(* ===== verification/RecoveryRecipe.v ===== *)
(** The self-extracting recovery kit, [crates/sync-store/src/recovery_recipe.rs]:
    the script it builds, and what a shell that runs the script extracts. *)

From stdpp Require Import base list sets numbers strings options.
From Stdlib Require Import ZArith Lia.
From S2P Require Import Prelude RustStd RustText Wire LogMerkle RemoteCapsule RemoteGc RemoteCapsuleWriters RemoteCollect.

(** * The script *)

(** [FILES]: the names, in order; the contents are those the crate includes. *)
Definition FILES : list string :=
  ["README.md"; "FORMAT.md"; "requirements.lock"; "CAPSULE-README.md"; "CAPSULE-FORMAT.md"; "capsule-requirements.lock"; "capsule.py";
   "parquet_schema.py"; "recover.sh"; "capsule_test.py"; "download-azcopy.sh"; "download-mc.sh"; "extract.py"; "integration_test.py"]%string.

Definition QUOTE : byte := Byte.x22.
Definition TICK : byte := Byte.x27.

(** The opening lines, in the notation of [script_line]. *)
Definition recipe_start : bytes := concat (map (script_line [])
  ["#!/bin/sh";
   "set -eu";
   "umask 077";
   "DEST=${1:-watertown-recovery-kit-v1}";
   "case `$DEST` in ''|'/'|'.'|'..'|-~) printf '%s\n' 'unsafe destination' >&2; exit 2;; esac";
   "if [ -e `$DEST` ]; then printf '%s\n' `destination already exists: $DEST` >&2; exit 2; fi";
   "mkdir -m 700 `$DEST`"]%string).

Definition delimiter (index : Z) : bytes := bstr "__WATERTOWN_RECIPE_FILE_" ++ show_u64 index ++ bstr "__".
Definition CHECKSUMS_DELIMITER : bytes := bstr "__WATERTOWN_RECIPE_CHECKSUMS__".

(** The line that opens the here-document of a file. *)
Definition cat_line (name d : bytes) : bytes :=
  bstr "cat > " ++ [QUOTE] ++ bstr "$DEST/" ++ name ++ [QUOTE] ++ bstr " <<" ++ [TICK] ++ d ++ [TICK].

Definition here_file (name d contents : bytes) : bytes := cat_line name d ++ [NL] ++ contents ++ d ++ [NL].

Definition recipe_end : bytes := concat (map (script_line [])
  ["printf '%s\n' `Recovery kit extracted to $DEST` `Review $DEST/README.md and every extracted file before continuing.` `Verify SHA256SUMS with sha256sum, or with shasum -a 256 on macOS.`"]%string).

Section Recipe.
Context `{Sha256}.

Definition checksum_line (file : bytes * bytes) : bytes := to_hex (sha256 file.2) ++ bstr "  " ++ file.1.

(** The loop over the files, from an index: the here-documents; the assertion panics. *)
Fixpoint embed (index : Z) (files : list (bytes * bytes)) : outcome unit bytes :=
  match files with
  | [] => Ok []
  | (name, contents) :: files =>
      if bool_decide (delimiter index ∈ lines contents) then Panic else
      rest ← embed (index + 1) files;
      mret (here_file name (delimiter index) contents ++ rest)
  end.

Definition checksums (files : list (bytes * bytes)) : bytes := concat (map (fun f => checksum_line f ++ [NL]) files).

Definition build_recipe (files : list (bytes * bytes)) : outcome unit bytes :=
  script ← embed 0 files;
  mret (recipe_start ++ script ++ here_file (bstr "SHA256SUMS") CHECKSUMS_DELIMITER (checksums files) ++ recipe_end).

Context `{Artifacts}.

Definition kit : list (bytes * bytes) := map (fun name => (bstr name, included name)) FILES.

Definition recovery_recipe_watertown_commit_v1 : outcome unit bytes := build_recipe kit.
End Recipe.

(** * What the shell extracts *)

(** A line, if the text has one. *)
Fixpoint take_line (line s : bytes) : option (bytes * bytes) :=
  match s with
  | [] => None
  | c :: s => if bool_decide (c = NL) then Some (line, s) else take_line (line ++ [c]) s
  end.

(** A here-document with a quoted delimiter: the lines before the delimiter's, as they are. *)
Fixpoint here_doc (fuel : nat) (d doc s : bytes) : option (bytes * bytes) :=
  match fuel with
  | O => None
  | S fuel =>
      '(line, s) ← take_line [] s;
      if bool_decide (line = d) then Some (doc, s) else here_doc fuel d (doc ++ line ++ [NL]) s
  end.

(** The target and the delimiter of a line that redirects a here-document beneath [$DEST]. *)
Definition cat_target (line : bytes) : option (bytes * bytes) :=
  rest ← strip_prefix (bstr "cat > " ++ [QUOTE] ++ bstr "$DEST/") line;
  '(name, rest) ← split_once QUOTE rest;
  rest ← strip_prefix (bstr " <<" ++ [TICK]) rest;
  d ← strip_suffix [TICK] rest;
  Some (name, d).

(** The files a run of the script writes beneath its destination, in order. *)
Fixpoint extract (fuel : nat) (s : bytes) : option (list (bytes * bytes)) :=
  match fuel with
  | O => None
  | S fuel =>
      match s with
      | [] => Some []
      | _ =>
          '(line, rest) ← take_line [] s;
          match cat_target line with
          | None => extract fuel rest
          | Some (name, d) =>
              '(doc, rest) ← here_doc (S (length rest)) d [] rest;
              files ← extract fuel rest;
              Some ((name, doc) :: files)
          end
      end
  end.

(** * Proofs *)

Lemma take_line_spec l cur s : no_nl l = true -> take_line cur (l ++ NL :: s) = Some (cur ++ l, s).
Proof.
  revert cur. induction l as [|c l IH]; intros cur Hl; cbn [app take_line].
  - rewrite bool_decide_true by done. by rewrite app_nil_r.
  - cbn [no_nl forallb] in Hl. apply andb_true_iff in Hl as [Hc%negb_true_iff Hl]. rewrite Hc, IH by done. by rewrite <- app_assoc.
Qed.

(** The text of whole lines. *)
Definition text (ls : list bytes) : bytes := concat (map (fun l => l ++ [NL]) ls).

Lemma text_cons l ls s : text (l :: ls) ++ s = l ++ NL :: (text ls ++ s).
Proof. unfold text. cbn [map concat]. rewrite <- !app_assoc. done. Qed.

(** Every text is whole lines and an unterminated end. *)
Lemma text_split s : exists ls tail, s = text ls ++ tail /\ Forall (fun l => no_nl l = true) ls /\ no_nl tail = true.
Proof.
  induction s as [|c s (ls & tail & -> & Hls & Ht)]; [by exists [], []|]. destruct (decide (c = NL)) as [->|Hc].
  - exists ([] :: ls), tail. split; [by rewrite text_cons|]. by split; [constructor|].
  - destruct ls as [|l ls].
    + exists [], (c :: tail). split; [done|]. split; [done|]. unfold no_nl in *. cbn [forallb]. by rewrite bool_decide_false, Ht.
    + exists ((c :: l) :: ls), tail. split; [by rewrite !text_cons|]. apply Forall_cons in Hls as [Hl Hls].
      split; [constructor; [unfold no_nl in *; cbn [forallb]; by rewrite bool_decide_false, Hl|done]|done].
Qed.

(** Empty, or ending in a newline. *)
Definition terminated (s : bytes) : Prop := s = [] \/ last s = Some NL.

Lemma terminated_lines s : terminated s -> exists ls, s = text ls /\ Forall (fun l => no_nl l = true) ls.
Proof.
  intros Hs. destruct (text_split s) as (ls & tail & -> & Hls & Ht). exists ls. split; [|done].
  destruct tail as [|c tail] using rev_ind; [apply app_nil_r|]. exfalso. clear IHtail.
  destruct Hs as [E|E]; [by apply app_nil in E as [_ [_ ?]%app_nil]|].
  rewrite app_assoc, last_snoc in E. injection E as ->. unfold no_nl in Ht. rewrite forallb_app in Ht. apply andb_true_iff in Ht as [_ Ht]. done.
Qed.

Lemma here_doc_spec d ls doc s fuel :
  no_nl d = true -> Forall (fun l => no_nl l = true) ls -> d ∉ ls -> (length ls < fuel)%nat ->
  here_doc fuel d doc (text ls ++ d ++ NL :: s) = Some (doc ++ text ls, s).
Proof.
  intros Hd Hls. revert doc fuel. induction Hls as [|l ls Hl _ IH]; intros doc fuel Hn Hf; (destruct fuel as [|fuel]; [simpl in Hf; lia|]).
  - cbn [here_doc text map concat app]. rewrite take_line_spec by done. cbn. rewrite bool_decide_true by done. by rewrite app_nil_r.
  - rewrite text_cons. cbn [here_doc]. rewrite take_line_spec by done. cbn [mbind option_bind app]. rewrite bool_decide_false by set_solver.
    rewrite IH by (set_solver || (simpl in Hf; lia)). rewrite <- !app_assoc. cbn. by rewrite <- app_assoc.
Qed.

Lemma cat_target_spec name d : QUOTE ∉ name -> cat_target (cat_line name d) = Some (name, d).
Proof.
  intros Hn. unfold cat_target, cat_line.
  assert (E : bstr "cat > " ++ [QUOTE] ++ bstr "$DEST/" ++ name ++ [QUOTE] ++ bstr " <<" ++ [TICK] ++ d ++ [TICK]
            = (bstr "cat > " ++ [QUOTE] ++ bstr "$DEST/") ++ name ++ QUOTE :: ((bstr " <<" ++ [TICK]) ++ d ++ [TICK])) by done.
  rewrite E, strip_prefix_app. cbn [mbind option_bind]. rewrite split_once_spec by done. cbn [mbind option_bind]. rewrite strip_prefix_app. cbn [mbind option_bind].
  assert (E2 : strip_suffix [TICK] (d ++ [TICK]) = Some d).
  { unfold strip_suffix. rewrite rev_app_distr. change (rev [TICK]) with [TICK]. rewrite strip_prefix_app. change (Some (rev (rev d)) = Some d). by rewrite rev_involutive. }
  by rewrite E2.
Qed.

Lemma cat_line_no_nl name d : no_nl name = true -> no_nl d = true -> no_nl (cat_line name d) = true.
Proof. intros Hn Hd. unfold cat_line, no_nl in *. rewrite !forallb_app. by rewrite Hn, Hd. Qed.

(** One here-document, and a line that is none. *)
Lemma extract_file name d ls s fuel :
  QUOTE ∉ name -> no_nl name = true -> no_nl d = true -> Forall (fun l => no_nl l = true) ls -> d ∉ ls ->
  extract (S fuel) (here_file name d (text ls) ++ s) = (files ← extract fuel s; Some ((name, text ls) :: files)).
Proof.
  intros Hq Hn Hd Hls Hnot. unfold here_file. rewrite <- !app_assoc. cbn [app]. cbn [extract].
  destruct (cat_line name d ++ NL :: text ls ++ d ++ NL :: s) eqn:E; [by apply app_nil in E as [_ ?]|]. rewrite <- E. clear E.
  rewrite take_line_spec by (by apply cat_line_no_nl). cbn [mbind option_bind app]. rewrite cat_target_spec by done.
  rewrite here_doc_spec; [done|done|done|done|]. rewrite length_app. clear. induction ls as [|l ls IH]; [simpl; lia|].
  unfold text in *. cbn [map concat]. rewrite !length_app in *. simpl in *. lia.
Qed.

Lemma extract_line line s fuel : no_nl line = true -> cat_target line = None -> extract (S fuel) (line ++ NL :: s) = extract fuel s.
Proof.
  intros Hl Hc. cbn [extract]. destruct (line ++ NL :: s) eqn:E; [by apply app_nil in E as [_ ?]|]. rewrite <- E.
  rewrite take_line_spec by done. cbn [mbind option_bind app]. by rewrite Hc.
Qed.

(** Lines that are no here-documents. *)
Lemma extract_lines ls s fuel :
  Forall (fun l => no_nl l = true /\ cat_target l = None) ls -> extract (length ls + fuel) (text ls ++ s) = extract fuel s.
Proof.
  induction 1 as [|l ls [Hl Hc] _ IH]; [done|]. rewrite text_cons. cbn [length Nat.add]. by rewrite extract_line.
Qed.

(** The assertion on the contents keeps the delimiter out of them. *)
Lemma lines_avoid d ls : (forall l, d <> l ++ [CR]) -> Forall (fun l => no_nl l = true) ls -> d ∉ lines (text ls) -> d ∉ ls.
Proof.
  intros Hd Hls Hn Hin. apply Hn. rewrite <- (app_nil_r (text ls)). unfold text. rewrite lines_app by done.
  apply elem_of_app. left. apply list_elem_of_fmap. exists d. split; [|done]. unfold strip_cr.
  destruct (split_last d) as [[c r]|] eqn:E; [|done]. apply split_last_Some in E. case_bool_decide; [|done]. subst. by destruct (Hd r).
Qed.

Lemma delimiter_plain index : 0 <= index -> no_nl (delimiter index) = true /\ forall l, delimiter index <> l ++ [CR].
Proof.
  intros Hi. unfold delimiter. split.
  - unfold no_nl. rewrite !forallb_app. destruct (show_u64_digits index Hi) as [Hd _]. cbn [andb forallb].
    assert (forallb (fun c => negb (bool_decide (c = NL))) (show_u64 index) = true) as ->; [|done].
    apply forallb_forall. intros c Hc. rewrite forallb_forall in Hd. specialize (Hd c Hc).
    apply negb_true_iff, bool_decide_eq_false. intros ->. done.
  - intros l E. apply (f_equal last) in E. rewrite last_snoc in E. change (bstr "__") with ([Byte.x5f] ++ [Byte.x5f]) in E. by rewrite !app_assoc, last_snoc in E.
Qed.

(** A name a here-document can be redirected to. *)
Definition plain_name (name : bytes) : Prop := (QUOTE ∉ name) /\ no_nl name = true.

Definition good_file (f : bytes * bytes) : Prop := plain_name f.1 /\ terminated f.2.

Lemma extract_embed index files script s fuel :
  0 <= index -> Forall good_file files -> embed index files = Ok script ->
  extract (length files + fuel) (script ++ s) = (rest ← extract fuel s; Some (files ++ rest)).
Proof.
  intros Hi Hf. revert index script Hi. induction Hf as [|[name contents] files [[Hq Hn] Ht] _ IH]; intros index script Hi E; cbn [embed] in E.
  { apply Ok_inj in E as <-. cbn. by destruct (extract fuel s). }
  case_bool_decide as Hd; [done|]. apply bind_Ok in E as (more & Hm & E). apply Ok_inj in E as <-. cbn [fst snd] in *.
  destruct (terminated_lines contents Ht) as (ls & -> & Hls). destruct (delimiter_plain index Hi) as [Hdn Hdc].
  rewrite <- app_assoc. cbn [length Nat.add]. rewrite extract_file by (done || by apply lines_avoid). rewrite (IH (index + 1)) by (done || lia).
  by destruct (extract fuel s).
Qed.

Lemma fixed_lines (s : bytes) :
  bool_decide (s = text (lines s)) && forallb (fun l => no_nl l && negb (is_present (cat_target l))) (lines s) = true ->
  s = text (lines s) /\ Forall (fun l => no_nl l = true /\ cat_target l = None) (lines s).
Proof.
  intros [E%bool_decide_eq_true Hl]%andb_true_iff. split; [done|]. apply forallb_Forall in Hl. eapply Forall_impl; [exact Hl|].
  intros l [Hn Hc]%andb_true_iff. split; [done|]. by destruct (cat_target l).
Qed.

Section Extracts.
#[local] Set Default Proof Using "Type*".
Context `{Sha256}.

Lemma checksums_text files : checksums files = text (map checksum_line files).
Proof. unfold checksums, text. by rewrite map_map. Qed.

Lemma checksum_line_plain f : plain_name f.1 -> no_nl (checksum_line f) = true /\ checksum_line f <> CHECKSUMS_DELIMITER.
Proof.
  intros [_ Hn]. unfold checksum_line. split.
  - unfold no_nl in *. rewrite !forallb_app, Hn, andb_true_r. by rewrite (to_hex_no_nl (sha256 f.2)).
  - pose proof (sha256_len f.2) as Hl. destruct (sha256 f.2) as [|b h]; [done|]. cbn [to_hex app]. intros E.
    pose proof (to_hex_lower (b :: h)) as Hx. cbn [to_hex forallb] in Hx. apply andb_true_iff in Hx as [Hx _].
    apply (f_equal head) in E. cbn in E. injection E as E. rewrite E in Hx. done.
Qed.

(** The recovery kit extracts itself: a shell that runs the script the builder
    returns writes exactly the embedded files, byte for byte and in order, and
    then the list of their SHA-256 checksums, provided each file is empty or
    ends in a newline (which every file of the kit does) and no name holds a
    quote or a newline.  The builder returns unless a file contains the line
    that would end its own here-document. *)
Theorem recipe_extracts (files : list (bytes * bytes)) (script : bytes) (fuel : nat) :
  Forall good_file files -> build_recipe files = Ok script -> (length files + 10 <= fuel)%nat ->
  extract fuel script = Some (files ++ [(bstr "SHA256SUMS", checksums files)]).
Proof.
  intros Hf E Hfuel. unfold build_recipe in E. apply bind_Ok in E as (body & Hb & E). apply Ok_inj in E as <-.
  destruct (fixed_lines recipe_start) as [Es Hs]; [vm_compute; reflexivity|]. destruct (fixed_lines recipe_end) as [Ee He]; [vm_compute; reflexivity|].
  assert (Ls : length (lines recipe_start) = 7%nat) by (vm_compute; reflexivity).
  assert (Le : length (lines recipe_end) = 1%nat) by (vm_compute; reflexivity).
  replace fuel with (7 + (length files + S (1 + S (fuel - length files - 10))))%nat by lia.
  rewrite Es, <- Ls, extract_lines by done. rewrite (extract_embed 0) by done. rewrite checksums_text.
  rewrite extract_file; [|by apply (bool_decide_eq_false_1 (QUOTE ∈ bstr "SHA256SUMS")); vm_compute|by vm_compute|by vm_compute| |].
  - rewrite Ee, <- Le, <- (app_nil_r (text (lines recipe_end))), extract_lines by done. done.
  - apply Forall_fmap. eapply Forall_impl; [exact Hf|]. intros f [Hp _]. by apply checksum_line_plain.
  - intros (f & Ef & Hin)%list_elem_of_fmap. rewrite Forall_forall in Hf. destruct (Hf f Hin) as [Hp _]. destruct (checksum_line_plain f Hp) as [_ Hne]. exact (Hne (eq_sym Ef)).
Qed.
End Extracts.

(** * Examples *)

#[local] Existing Instances mix_sha256.

Lemma recipe_extracts_witness :
  exists script, build_recipe [(bstr "a", bstr "x" ++ [NL]); (bstr "b", [])] = Ok script
    /\ extract 12 script = Some [(bstr "a", bstr "x" ++ [NL]); (bstr "b", []); (bstr "SHA256SUMS", checksums [(bstr "a", bstr "x" ++ [NL]); (bstr "b", [])])].
Proof.
  destruct (build_recipe [(bstr "a", bstr "x" ++ [NL]); (bstr "b", [])]) as [script|e|] eqn:E; [|vm_compute in E; done..].
  exists script. split; [done|]. apply (recipe_extracts [(bstr "a", bstr "x" ++ [NL]); (bstr "b", [])] script 12); [|exact E|simpl; lia].
  repeat constructor; cbn; try set_solver; by right || by left.
Defined.
