(* ===== verification/TinyFs.v ===== *)
(** The filesystem of [crates/tinyfs]: its paths, on top of the parts of
    [std::path] it uses; node identities; the resolution of paths through links
    and mounts; and the namespace operations of a working directory. *)

From stdpp Require Import base list sets numbers strings gmap options.
From Stdlib Require Import ZArith Lia.
From Stdlib Require Import Strings.Byte.
From S2P Require Import Prelude RustStd RustText EntryType.

Open Scope Z_scope.

(** * [std::path] *)

(** [std::path::Component] on Unix, where no path has a prefix. *)
Inductive Component := RootDir | CurDir | ParentDir | Normal (name : bytes).

#[export] Instance Component_eq_dec : EqDecision Component.
Proof. solve_decision. Defined.

Definition DOT : bytes := bstr ".".
Definition DOTDOT : bytes := bstr "..".

(** One part between separators; [first] is whether it opens a relative path, the
    only place where a dot is kept. *)
Definition part_component (first : bool) (part : bytes) : list Component :=
  if bool_decide (part = []) then []
  else if bool_decide (part = DOT) then (if first then [CurDir] else [])
  else if bool_decide (part = DOTDOT) then [ParentDir]
  else [Normal part].

(** [Path::components]. *)
Definition components (path : bytes) : list Component :=
  match path with
  | [] => []
  | c :: rest =>
      if bool_decide (c = SLASH) then RootDir :: concat (map (part_component false) (split_on SLASH rest))
      else match split_on SLASH path with
           | part :: parts => part_component true part ++ concat (map (part_component false) parts)
           | [] => []
           end
  end.

(** [Component::as_os_str]. *)
Definition component_text (c : Component) : bytes :=
  match c with RootDir => [SLASH] | CurDir => DOT | ParentDir => DOTDOT | Normal name => name end.

(** [PathBuf::push] of one component: an absolute one replaces the path. *)
Definition push_component (path : bytes) (c : Component) : bytes :=
  match c with
  | RootDir => [SLASH]
  | _ => match last path with
         | None => component_text c
         | Some b => if bool_decide (b = SLASH) then path ++ component_text c else path ++ SLASH :: component_text c
         end
  end.

(** [components.into_iter().collect::<PathBuf>()]. *)
Definition collect (cs : list Component) : bytes := fold_left push_component cs [].

(** * [path.rs] *)

Definition is_root_dir (c : Component) : bool := bool_decide (c = RootDir).
Definition is_parent_dir (c : Component) : bool := bool_decide (c = ParentDir).

Fixpoint skip_while {A} (p : A -> bool) (l : list A) : list A :=
  match l with
  | x :: l' => if p x then skip_while p l' else l
  | [] => []
  end.

Definition strip_root (path : bytes) : bytes := collect (skip_while is_root_dir (components path)).

Definition basename (path : bytes) : option bytes :=
  match last (components path) with Some (Normal name) => Some name | _ => None end.

(** The loop of [normalize]; [acc] is the vector in reverse. *)
Fixpoint fold_parents (acc : list Component) (cs : list Component) : list Component :=
  match cs with
  | [] => rev acc
  | CurDir :: cs => fold_parents acc cs
  | ParentDir :: cs =>
      match acc with
      | Normal _ :: acc => fold_parents acc cs
      | _ => fold_parents (ParentDir :: acc) cs
      end
  | c :: cs => fold_parents (c :: acc) cs
  end.

Fixpoint count_while {A} (p : A -> bool) (l : list A) : nat :=
  match l with
  | x :: l => if p x then S (count_while p l) else O
  | [] => O
  end.

(** How much of a stack of [len] directories to keep, and the path to follow from
    there; [None] is [ParentPathInvalid]. *)
Definition normalize (path : bytes) (len : nat) : option (nat * bytes) :=
  let cs := fold_parents [] (components path) in
  match cs with
  | RootDir :: _ => Some (1%nat, collect cs)
  | _ =>
      let parents := count_while is_parent_dir cs in
      if (len <=? parents)%nat then None else Some ((len - parents)%nat, collect (drop parents cs))
  end.

(** * Reading back a collected path *)

(** A name that [components] reads as itself. *)
Definition plain_name (n : bytes) : Prop := n <> [] /\ (SLASH ∉ n) /\ n <> DOT /\ n <> DOTDOT.

#[export] Instance plain_name_dec n : Decision (plain_name n).
Proof. unfold plain_name. apply _. Defined.

Definition inner (c : Component) : Prop := match c with ParentDir => True | Normal n => plain_name n | _ => False end.

(** A list that is the components of some path. *)
Definition canonical_components (cs : list Component) : Prop :=
  match cs with
  | (RootDir | CurDir) :: cs => Forall inner cs
  | cs => Forall inner cs
  end.

Lemma part_inner part : SLASH ∉ part -> Forall inner (part_component false part).
Proof.
  intros Hs. unfold part_component. repeat case_bool_decide; try constructor; done.
Qed.

Lemma parts_inner parts : Forall (fun p => SLASH ∉ p) parts -> Forall inner (concat (map (part_component false) parts)).
Proof. induction 1; simpl; [constructor|]. apply Forall_app. split; [by apply part_inner|done]. Qed.

Lemma components_canonical path : canonical_components (components path).
Proof.
  unfold components. destruct path as [|c rest]; [constructor|]. case_bool_decide as Ec.
  { simpl. apply parts_inner, split_on_free. }
  pose proof (split_on_free SLASH (c :: rest)) as Hf. destruct (split_on SLASH (c :: rest)) as [|part parts]; [constructor|].
  apply Forall_cons_1 in Hf as [Hp Hf]. apply parts_inner in Hf. unfold part_component at 1. repeat case_bool_decide.
  - destruct parts as [|p ps]; [constructor|]. cbn [app]. destruct (concat _) as [|[] ?]; simpl; try done; apply Forall_cons_1 in Hf as [[] _].
  - done.
  - simpl. by constructor.
  - simpl. constructor; [by split_and!|done].
Qed.

Lemma inner_text c : inner c -> component_text c <> [] /\ (SLASH ∉ component_text c) /\ part_component false (component_text c) = [c].
Proof.
  destruct c as [| | |n]; try done.
  - intros _. split_and!; [done|by apply (bool_decide_unpack _)|done].
  - intros (Hn & Hs & Hd & Hp). split_and!; [done|done|]. unfold part_component. simpl. by rewrite !bool_decide_false.
Qed.

Definition parts_of (l : list Component) : bytes := concat (map (fun c => SLASH :: component_text c) l).

Lemma push_inner path c b : last path = Some b -> b <> SLASH -> inner c -> push_component path c = path ++ SLASH :: component_text c.
Proof. intros Hl Hb Hc. destruct c; simpl; try done; by rewrite Hl, bool_decide_false. Qed.

Lemma last_text path c : inner c -> exists b, last (path ++ component_text c) = Some b /\ b <> SLASH.
Proof.
  intros (Hn & Hs & _)%inner_text. destruct (component_text c) as [|x t] using rev_ind; [done|]. clear IHt.
  exists x. rewrite app_assoc, last_snoc. split; [done|]. intros ->. set_solver.
Qed.

Lemma push_all path l b : last path = Some b -> b <> SLASH -> Forall inner l -> fold_left push_component l path = path ++ parts_of l.
Proof.
  intros Hl Hb Hf. revert path b Hl Hb. induction Hf as [|c l Hc Hf IH]; intros path b Hl Hb; unfold parts_of; simpl; [by rewrite app_nil_r|].
  rewrite (push_inner path c b) by done. destruct (last_text (path ++ [SLASH]) c Hc) as (b' & Hl' & Hb').
  rewrite <- app_assoc in Hl'. rewrite (IH _ b') by done. unfold parts_of. by rewrite <- !app_assoc.
Qed.

Lemma push_first path c l : (path = [] \/ path = [SLASH]) -> Forall inner (c :: l) ->
  fold_left push_component (c :: l) path = path ++ component_text c ++ parts_of l.
Proof.
  intros Hp [Hc Hl]%Forall_cons_1. simpl. destruct (last_text path c Hc) as (b & Hb & Hne).
  assert (push_component path c = path ++ component_text c) as ->.
  { destruct c, Hp as [->| ->]; try done. }
  rewrite (push_all _ l b) by done. by rewrite app_assoc.
Qed.

Lemma split_parts c l : Forall inner (c :: l) -> split_on SLASH (component_text c ++ parts_of l) = map component_text (c :: l).
Proof.
  intros Hf. unfold parts_of. cbn [map]. rewrite <- (split_on_path SLASH (component_text c) (map component_text l)).
  - by rewrite map_map.
  - rewrite <- (map_cons component_text). apply Forall_map. eapply Forall_impl; [exact Hf|]. by intros x (_ & ? & _)%inner_text.
Qed.

Lemma parts_read l : Forall inner l -> concat (map (part_component false) (map component_text l)) = l.
Proof. induction 1 as [|c l Hc Hl IH]; simpl; [done|]. destruct (inner_text c Hc) as (_ & _ & ->). by rewrite IH. Qed.

Lemma text_head c : inner c -> exists x t, component_text c = x :: t /\ x <> SLASH.
Proof. intros (Hn & Hs & _)%inner_text. destruct (component_text c) as [|x t]; [done|]. exists x, t. split; [done|]. intros ->. set_solver. Qed.

Lemma collect_relative c l : Forall inner (c :: l) -> components (collect (c :: l)) = c :: l.
Proof.
  intros Hf. unfold collect. rewrite push_first by (auto). cbn [app]. pose proof Hf as [Hc Hl]%Forall_cons_1.
  destruct (text_head c Hc) as (x & t & Et & Hx). unfold components. rewrite Et. cbn [app]. rewrite bool_decide_false by done.
  rewrite app_comm_cons, <- Et, split_parts by done. cbn [map]. rewrite parts_read by done.
  destruct (inner_text c Hc) as (_ & _ & Ep). unfold part_component in *. destruct (bool_decide (component_text c = [])); [done|].
  destruct (bool_decide (component_text c = DOT)); [done|]. destruct (bool_decide _); by injection Ep as <-.
Qed.

(** Collecting the components of a path gives a path with those components. *)
Lemma components_collect cs : canonical_components cs -> components (collect cs) = cs.
Proof.
  destruct cs as [|[| | |n] l]; intros Hc; try (by apply collect_relative); [done|..]; simpl in Hc.
  - destruct l as [|c l]; [done|]. unfold collect. cbn [fold_left push_component]. change (fold_left push_component l (push_component [SLASH] c)) with (fold_left push_component (c :: l) [SLASH]).
    rewrite push_first by auto. cbn [app]. unfold components. rewrite bool_decide_true by done. rewrite split_parts by done. by rewrite parts_read.
  - unfold collect. cbn [fold_left push_component last component_text]. rewrite (push_all _ l Byte.x2e) by done.
    unfold components. cbn [app DOT bstr]. change (DOT ++ parts_of l) with (component_text CurDir ++ parts_of l).
    assert (split_on SLASH (component_text CurDir ++ parts_of l) = map component_text (CurDir :: l)) as Es.
    { unfold parts_of. cbn [map]. rewrite <- (split_on_path SLASH (component_text CurDir) (map component_text l)).
      - by rewrite map_map.
      - constructor; [by apply (bool_decide_unpack _)|]. apply Forall_map. eapply Forall_impl; [exact Hc|]. by intros x (_ & ? & _)%inner_text. }
    cbn [component_text DOT bstr] in *. change (components (DOT ++ parts_of l) = CurDir :: l). unfold components.
    change (match split_on SLASH (DOT ++ parts_of l) with part :: parts => part_component true part ++ concat (map (part_component false) parts) | [] => [] end = CurDir :: l).
    rewrite Es. cbn [map]. by rewrite parts_read.
Qed.

(** The filesystem, [crates/tinyfs/src]: node identities ([node.rs]), the entries
    of directories ([dir.rs], [memory/directory.rs]), and the working directory
    [WD] ([wd.rs]) with its path resolution and the operations that change the
    namespace. *)

(** * Identities *)

(** The bytes of a UUID. *)
Abbreviation uuid := bytes.

Definition ROOT_UUID : uuid := map z2b [0; 0; 0; 0; 0; 0; 0x71; 0; 0x80; 0; 0; 0; 0; 0; 0; 0].
Definition INDEX_NODE_UUID : uuid := map z2b [0; 0; 0; 0; 0; 0; 0x77; 0; 0x80; 0; 0; 0; 0; 0; 0; 0].
Definition LOG_NODE_UUID : uuid := map z2b [0; 0; 0; 0; 0; 0; 0x77; 0; 0x80; 0; 0; 0; 0; 0; 0; 1].

(** [NodeID::entry_type]: the low nibble of byte 6; anything but a coded type
    panics. *)
Definition id_entry_type (n : uuid) : outcome unit EntryType :=
  match n !! 6%nat with
  | Some b => match try_from (Z.land (b2z b) 0xf) with Ok t => Ok t | _ => Panic end
  | None => Panic
  end.

Record FileID := { fid_node : uuid; fid_part : uuid; fid_pond : uuid }.

#[export] Instance FileID_eq_dec : EqDecision FileID.
Proof. solve_decision. Defined.
#[export] Instance FileID_countable : Countable FileID.
Proof.
  refine (inj_countable (fun i => (fid_node i, fid_part i, fid_pond i)) (fun '(n, p, o) => Some {| fid_node := n; fid_part := p; fid_pond := o |}) _).
  by intros [].
Defined.

(** [FileID::root_for]. *)
Definition root_for (pond : uuid) : FileID := {| fid_node := ROOT_UUID; fid_part := ROOT_UUID; fid_pond := pond |}.

(** [FileID::child_id]: a physical directory is its own partition. *)
Definition child_id (parent : FileID) (child : uuid) : outcome unit FileID :=
  match id_entry_type child with
  | Ok t => Ok {| fid_node := child; fid_part := if bool_decide (t = DirectoryPhysical) then child else fid_part parent; fid_pond := fid_pond parent |}
  | _ => Panic
  end.

(** * Errors *)

(** The errors of [error.rs] the code below returns; a node's display path is not
    modelled, so the errors that show one carry none. *)
Inductive fs_error :=
| OutOfSteps
| AlreadyExists (name : bytes)
| EmptyPath
| EntryTypeMismatch (path : bytes) (requested existing : EntryType)
| InternalError
| NotADirectory
| NotAFile
| NotFound (path : bytes)
| Other (context : bytes)
| ParentPathInvalid (path : bytes)
| SymlinkLoop (path : bytes)
| ReadOnlyImport.

Abbreviation fres := (outcome fs_error).

(** * What path resolution reads *)

Inductive node_type := DirectoryNode | FileNode | SymlinkNode (target : bytes).

(** The persisted namespace as a resolution sees it: the kind of each node, and
    the child a directory gives for a name, which may fail (a dynamic directory
    without its factory). *)
Record namespace := {
  kind_of : FileID -> node_type;
  dir_get : FileID -> bytes -> outcome unit (option FileID);
}.

(** [NodePath::as_dir]. *)
Definition as_dir (ns : namespace) (n : FileID) : fres unit :=
  match kind_of ns n with DirectoryNode => Ok tt | _ => Err NotADirectory end.

(** [WD]: a directory and the root its absolute paths start at. *)
Record WD := { wd_np : FileID; effective_root : FileID }.

Inductive Lookup := LEmpty (n : FileID) | LFound (n : FileID) | LNotFound (path : bytes) (name : bytes).

(** [symlink.rs]. *)
Definition SYMLINK_LOOP_LIMIT : nat := 10.

(** * Resolution *)

Section Resolve.
Variable ns : namespace.
Variable eff : FileID.

(** A resolution result: the directory, what was found, and the mount point
    crossed on the way. *)
Abbreviation resolved := (FileID * Lookup * option FileID)%type.

(** Where the effective root is in the stack, counted from 1. *)
Definition min_size (stack : list FileID) : nat := default 1%nat ((fun p => S p.1) <$> list_find (fun n => n = eff) stack).

(** After the last component; [stack] has its top first. *)
Definition resolve_end (path : bytes) (stack : list FileID) (detected : option FileID) : fres resolved :=
  match stack with
  | [] => Err InternalError
  | [dir] =>
      if forallb (fun c => match c with RootDir | CurDir => true | _ => false end) (components path)
      then Ok (dir, LFound dir, detected) else Ok (dir, LEmpty dir, detected)
  | found :: dir :: _ => Ok (dir, LFound found, detected)
  end.

(** The loop over the components. [follow stack target] resolves the target of a
    link from the bottom of [stack], one level deeper. *)
Section Walk.
Variable follow : list FileID -> bytes -> fres resolved.
Variable limit : bool.

Definition follow_link (stack : list FileID) (target : bytes) (detected : option FileID) : fres (FileID * option FileID) :=
  match normalize target (length stack) with
  | None => Err (ParentPathInvalid target)
  | Some (newsz, relp) =>
      if limit then Err (SymlinkLoop target) else
      let clamped := Nat.max newsz (min_size (rev stack)) in
      if (length stack <? clamped)%nat then Panic else
      r ← follow (drop (length stack - clamped) stack) relp;
      let detected := match detected with Some d => Some d | None => r.2 end in
      match r.1.2 with
      | LFound n | LEmpty n => Ok (n, detected)
      | LNotFound _ _ => Err (NotFound target)
      end
  end.

Fixpoint walk (path : bytes) (cs : list Component) (stack : list FileID) (detected : option FileID) : fres resolved :=
  match cs with
  | [] => resolve_end path stack detected
  | RootDir :: cs => walk path cs [eff] detected
  | CurDir :: cs => walk path cs stack detected
  | ParentDir :: cs =>
      match stack with
      | [] | [_] => walk path cs stack detected
      | top :: below => if bool_decide (top = eff) then walk path cs stack detected else walk path cs below detected
      end
  | Normal name :: cs =>
      match stack with
      | [] => Panic
      | dnode :: _ =>
          _ ← as_dir ns dnode;
          match dir_get ns dnode name with
          | Ok (Some child) =>
              match kind_of ns child with
              | SymlinkNode target =>
                  r ← follow_link stack target detected;
                  walk path cs (r.1 :: stack) r.2
              | _ =>
                  let detected := match detected with
                                  | Some d => Some d
                                  | None => if bool_decide (fid_pond child = fid_pond dnode) then None else Some dnode
                                  end in
                  walk path cs (child :: stack) detected
              end
          | Ok None => match cs with [] => Ok (dnode, LNotFound path name, detected) | _ :: _ => Err (NotFound path) end
          | Err _ => Err (Other path)
          | Panic => Panic
          end
      end
  end.
End Walk.

(** [WD::resolve]; [steps] bounds the nesting of links, which the code bounds by
    [depth]. *)
Fixpoint resolve (steps : nat) (stack : list FileID) (path : bytes) (depth : nat) : fres resolved :=
  match steps with
  | O => Err OutOfSteps
  | S steps => walk (fun stack path => resolve steps stack path (S depth)) (SYMLINK_LOOP_LIMIT <=? depth)%nat path (components path) stack None
  end.
End Resolve.

(** Enough for links followed from depth 0 to the limit. *)
Definition RESOLVE_STEPS : nat := SYMLINK_LOOP_LIMIT + 2.

Definition child_wd (ns : namespace) (w : WD) (n : FileID) : fres WD :=
  _ ← as_dir ns n;
  mret {| wd_np := n; effective_root := effective_root w |}.

Definition resolve_path (ns : namespace) (w : WD) (path : bytes) : fres (WD * Lookup) :=
  r ← resolve ns (effective_root w) RESOLVE_STEPS [wd_np w] path 0;
  let '(n, found, detected) := r in
  c ← child_wd ns w n;
  mret (match detected with Some m => {| wd_np := wd_np c; effective_root := m |} | None => c end, found).

Definition get_node_path (ns : namespace) (w : WD) (path : bytes) : fres FileID :=
  r ← resolve_path ns w path;
  match r.2 with
  | LNotFound _ _ => Err (NotFound path)
  | LFound n | LEmpty n => Ok n
  end.

Definition exists_path (ns : namespace) (w : WD) (path : bytes) : bool := is_ok (get_node_path ns w path).

Definition open_dir_path (ns : namespace) (w : WD) (path : bytes) : fres WD :=
  r ← resolve_path ns w path;
  match r.2 with
  | LFound n | LEmpty n => child_wd ns r.1 n
  | LNotFound full _ => Err (NotFound full)
  end.

Definition as_root (w : WD) : WD := {| wd_np := wd_np w; effective_root := wd_np w |}.

Definition is_at_root_boundary (w : WD) : bool := bool_decide (wd_np w = effective_root w).

(** A directory of another pond is a read-only import. *)
Definition check_writable (w : WD) : fres unit :=
  if bool_decide (fid_pond (wd_np w) = fid_pond (effective_root w)) then Ok tt else Err ReadOnlyImport.

(** * The mutable namespace

    One version of a file is its bytes and the metadata recorded with it. A
    directory, link, dynamic node or file is stored under its identity; a
    directory's entries are the links to its children. *)

Section Store.
Context {version : Type}.

Record store := {
  st_dirs : gmap FileID (gmap bytes FileID);
  st_links : gmap FileID (bytes * option Z);
  st_dynamic : gmap FileID (bytes * bytes * option Z);
  st_files : gmap FileID (list version);
}.

(** What a dynamic directory lists is up to its factory. *)
Variable factory_get : bytes * bytes * option Z -> bytes -> outcome unit (option FileID).

Definition node_kind (st : store) (n : FileID) : node_type :=
  match st_links st !! n with
  | Some (target, _) => SymlinkNode target
  | None =>
      match st_dirs st !! n with
      | Some _ => DirectoryNode
      | None =>
          match st_dynamic st !! n with
          | Some _ => match id_entry_type (fid_node n) with Ok DirectoryDynamic => DirectoryNode | _ => FileNode end
          | None => FileNode
          end
      end
  end.

(** [Directory::get]. *)
Definition get_entry (st : store) (d : FileID) (name : bytes) : outcome unit (option FileID) :=
  match st_dirs st !! d with
  | Some m => Ok (m !! name)
  | None => match st_dynamic st !! d with Some f => factory_get f name | None => Err tt end
  end.

Definition ns_of (st : store) : namespace := {| kind_of := node_kind st; dir_get := get_entry st |}.

Definition with_dirs (m : gmap FileID (gmap bytes FileID)) (st : store) : store :=
  {| st_dirs := m; st_links := st_links st; st_dynamic := st_dynamic st; st_files := st_files st |}.

(** [Directory::insert], [Directory::remove] and [Directory::unlink]; a dynamic
    directory refuses them. *)
Definition dir_insert (d : FileID) (name : bytes) (c : FileID) (st : store) : fres store :=
  match st_dirs st !! d with
  | Some m => match m !! name with
              | Some _ => Err (AlreadyExists name)
              | None => Ok (with_dirs (<[d := <[name := c]> m]> (st_dirs st)) st)
              end
  | None => Err (Other name)
  end.

Definition dir_remove (d : FileID) (name : bytes) (st : store) : fres (option FileID * store) :=
  match st_dirs st !! d with
  | Some m => match m !! name with
              | Some c => Ok (Some c, with_dirs (<[d := delete name m]> (st_dirs st)) st)
              | None => Ok (None, st)
              end
  | None => Err (Other name)
  end.

(** [self.dref.get(name)]. *)
Definition wd_get (st : store) (w : WD) (name : bytes) : fres (option FileID) :=
  match get_entry st (wd_np w) name with Ok o => Ok o | Err _ => Err (Other name) | Panic => Panic end.

Definition insert_node (w : WD) (name : bytes) (n : FileID) (st : store) : fres store :=
  _ ← check_writable w;
  dir_insert (wd_np w) name n st.

(** The nodes that [create_directory_node], [create_file_node],
    [create_symlink_node] and [create_dynamic_node] store. *)
Definition store_directory (n : FileID) (st : store) : store :=
  with_dirs (<[n := ∅]> (st_dirs st)) st.
Definition store_file (n : FileID) (st : store) : store :=
  {| st_dirs := st_dirs st; st_links := st_links st; st_dynamic := st_dynamic st; st_files := <[n := []]> (st_files st) |}.
Definition store_link (n : FileID) (target : bytes) (mtime : option Z) (st : store) : store :=
  {| st_dirs := st_dirs st; st_links := <[n := (target, mtime)]> (st_links st); st_dynamic := st_dynamic st; st_files := st_files st |}.
Definition store_dynamic (n : FileID) (factory config : bytes) (mtime : option Z) (st : store) : store :=
  {| st_dirs := st_dirs st; st_links := st_links st; st_dynamic := <[n := (factory, config, mtime)]> (st_dynamic st); st_files := st_files st |}.

(** The checks of the operations that adopt an explicit identity. *)
Definition adopt (w : WD) (name : bytes) (node : uuid) (st : store) : fres FileID :=
  _ ← check_writable w;
  existing ← wd_get st w name;
  match existing with
  | Some _ => Err (AlreadyExists name)
  | None => match child_id (wd_np w) node with Ok id => Ok id | _ => Panic end
  end.

Definition insert_directory_with_id (w : WD) (name : bytes) (node : uuid) (st : store) : fres (WD * store) :=
  id ← adopt w name node st;
  st ← dir_insert (wd_np w) name id (store_directory id st);
  c ← child_wd (ns_of st) w id;
  mret (c, st).

(** The returned writer writes the first version. *)
Definition create_file_with_id (w : WD) (name : bytes) (node : uuid) (st : store) : fres (FileID * store) :=
  id ← adopt w name node st;
  st ← dir_insert (wd_np w) name id (store_file id st);
  mret (id, st).

Definition insert_symlink_with_id (w : WD) (name : bytes) (node : uuid) (target : bytes) (mtime : option Z) (st : store) : fres store :=
  id ← adopt w name node st;
  dir_insert (wd_np w) name id (store_link id target mtime st).

Definition insert_dynamic_with_id (w : WD) (name : bytes) (node : uuid) (factory config : bytes) (mtime : option Z) (st : store) : fres store :=
  id ← adopt w name node st;
  dir_insert (wd_np w) name id (store_dynamic id factory config mtime st).

Definition rename_entry (w : WD) (old new : bytes) (st : store) : fres store :=
  _ ← check_writable w;
  existing ← wd_get st w new;
  match existing with
  | Some _ => Err (AlreadyExists new)
  | None =>
      r ← dir_remove (wd_np w) old st;
      match r.1 with
      | None => Err (NotFound old)
      | Some n => dir_insert (wd_np w) new n r.2
      end
  end.

Definition remove_entry (w : WD) (name : bytes) (st : store) : fres store :=
  _ ← check_writable w;
  r ← dir_remove (wd_np w) name st;
  match r.1 with Some _ => Ok r.2 | None => Err (NotFound name) end.

(** ** Creation by path

    [node] is the identity [NodeID::generate] makes. *)

Definition create_at (w : WD) (path : bytes) (st : store) (make : WD -> FileID * (store -> store)) : fres (FileID * store) :=
  r ← resolve_path (ns_of st) w path;
  _ ← check_writable r.1;
  match r.2 with
  | LNotFound _ name =>
      let '(id, create) := make r.1 in
      st ← dir_insert (wd_np r.1) name id (create st);
      mret (id, st)
  | LFound _ => Err (AlreadyExists path)
  | LEmpty _ => Err EmptyPath
  end.

Definition create_dir_path (w : WD) (path : bytes) (node : uuid) (st : store) : fres (WD * store) :=
  r ← create_at w path st (fun p =>
        let id := {| fid_node := node; fid_part := node; fid_pond := fid_pond (effective_root p) |} in (id, store_directory id));
  c ← child_wd (ns_of r.2) w r.1;
  mret (c, r.2).

(** A child in its parent's partition. *)
Definition in_partition (p : WD) (node : uuid) : FileID := {| fid_node := node; fid_part := fid_part (wd_np p); fid_pond := fid_pond (wd_np p) |}.

Definition create_symlink_path (w : WD) (path : bytes) (target : bytes) (node : uuid) (st : store) : fres (FileID * store) :=
  create_at w path st (fun p => (in_partition p node, store_link (in_partition p node) target None)).

Definition create_file_path_streaming_with_type (w : WD) (path : bytes) (node : uuid) (st : store) : fres (FileID * store) :=
  create_at w path st (fun p => (in_partition p node, store_file (in_partition p node))).

(** The writer of an existing file, or of a new one with the identity [node] of
    the requested type. *)
Definition async_writer_path_with_type (w : WD) (path : bytes) (t : EntryType) (node : uuid) (st : store) : fres (FileID * store) :=
  r ← resolve_path (ns_of st) w path;
  match r.2 with
  | LFound n =>
      _ ← check_writable r.1;
      match id_entry_type (fid_node n) with
      | Ok existing =>
          if bool_decide (existing = t) then
            match node_kind st n with FileNode => Ok (n, st) | _ => Err NotAFile end
          else Err (EntryTypeMismatch path t existing)
      | _ => Panic
      end
  | LNotFound _ _ => create_file_path_streaming_with_type w path node st
  | LEmpty _ => Err EmptyPath
  end.

(** One more version through a writer. *)
Definition append_version (n : FileID) (v : version) (st : store) : store :=
  {| st_dirs := st_dirs st; st_links := st_links st; st_dynamic := st_dynamic st;
     st_files := <[n := default [] (st_files st !! n) ++ [v]]> (st_files st) |}.

(** [WD::create_dir_all]; [nodes] are the identities made for new directories. *)
Fixpoint create_dirs (w : WD) (path : bytes) (cs : list Component) (nodes : list uuid) (st : store) : fres (WD * store) :=
  match cs with
  | [] => Ok (w, st)
  | (RootDir | CurDir) :: cs => create_dirs w path cs nodes st
  | ParentDir :: _ => Err (Other path)
  | Normal name :: cs =>
      existing ← wd_get st w name;
      match existing with
      | Some child =>
          match node_kind st child with
          | DirectoryNode => c ← child_wd (ns_of st) w child; create_dirs c path cs nodes st
          | _ => Err NotADirectory
          end
      | None =>
          _ ← check_writable w;
          match nodes with
          | [] => Err OutOfSteps
          | node :: nodes =>
              let id := {| fid_node := node; fid_part := node; fid_pond := fid_pond (effective_root w) |} in
              st ← dir_insert (wd_np w) name id (store_directory id st);
              c ← child_wd (ns_of st) w id;
              create_dirs c path cs nodes st
          end
      end
  end.

Definition create_dir_all (w : WD) (path : bytes) (nodes : list uuid) (st : store) : fres (WD * store) :=
  create_dirs w path (components path) nodes st.
End Store.

Arguments store : clear implicits.
