(* ===== verification/TinyFsSpec.v ===== *)
(** Path resolution: it ends, it never leaves the effective root, and on paths of
    plain names through directories it is the walk along the names. *)

From stdpp Require Import base list gmap numbers strings options.
From Stdlib Require Import ZArith Lia.
From Stdlib Require Import Strings.Byte.
From S2P Require Import Prelude RustStd RustText EntryType TinyFs.

(** * Containment and termination *)

Section Contained.
Variable ns : namespace.
Hypothesis gets : forall d n, dir_get ns d n <> Panic.

(** The nodes reached from [root] through directory entries. *)
Inductive below (root : FileID) : FileID -> Prop :=
| below_root : below root root
| below_child d n c : below root d -> dir_get ns d n = Ok (Some c) -> below root c.

Definition lookup_in (P : FileID -> Prop) (l : Lookup) : Prop :=
  match l with LFound n | LEmpty n => P n | LNotFound _ _ => True end.

(** A resolution that ended, within [P]. *)
Definition settles (P : FileID -> Prop) (m : fres (FileID * Lookup * option FileID)) : Prop :=
  match m with
  | Ok (d, l, m) => P d /\ lookup_in P l /\ (forall n, m = Some n -> P n)
  | Err e => e <> OutOfSteps /\ e <> InternalError
  | Panic => False
  end.

Section Walk.
Variables (eff : FileID) (P : FileID -> Prop).
Hypothesis P_eff : P eff.
Hypothesis P_child : forall d n c, P d -> dir_get ns d n = Ok (Some c) -> P c.
Variables (follow : list FileID -> bytes -> fres (FileID * Lookup * option FileID)) (limit : bool).
Hypothesis follows : limit = false -> forall stack path, stack <> [] -> Forall P stack -> settles P (follow stack path).

Lemma resolve_end_settles path stack detected :
  stack <> [] -> Forall P stack -> (forall n, detected = Some n -> P n) -> settles P (resolve_end path stack detected).
Proof using Type.
  intros Hne Hs Hd. destruct stack as [|top [|d rest]]; [done|..]; apply Forall_cons_1 in Hs as [Ht Hs]; simpl.
  - destruct (forallb _ _); by split_and!.
  - apply Forall_cons_1 in Hs as [Hd' _]. by split_and!.
Qed.

Lemma min_size_bound stack : stack <> [] -> (1 <= min_size eff stack <= length stack)%nat.
Proof using Type.
  intros Hne. unfold min_size. destruct (list_find _ stack) as [[i x]|] eqn:E; simpl.
  - apply list_find_Some in E as (E & _). apply lookup_lt_Some in E. lia.
  - destruct stack; [done|]. simpl. lia.
Qed.

Lemma normalize_bound path len n p : (0 < len)%nat -> normalize path len = Some (n, p) -> (1 <= n <= len)%nat.
Proof using Type.
  intros Hl. unfold normalize. generalize (fold_parents [] (components path)). intros cs.
  assert (Hrel : (if (len <=? count_while is_parent_dir cs)%nat then None else Some ((len - count_while is_parent_dir cs)%nat, collect (drop (count_while is_parent_dir cs) cs))) = Some (n, p)
    -> (1 <= n <= len)%nat).
  { destruct (Nat.leb_spec len (count_while is_parent_dir cs)); [done|]. intros [= <- <-]. lia. }
  destruct cs as [|[] ?]; try done. intros [= <- <-]. lia.
Qed.

Lemma follow_link_settles stack target detected :
  stack <> [] -> Forall P stack -> (forall n, detected = Some n -> P n) ->
  match follow_link eff follow limit stack target detected with
  | Ok (n, m) => P n /\ (forall x, m = Some x -> P x)
  | Err e => e <> OutOfSteps /\ e <> InternalError
  | Panic => False
  end.
Proof using P_eff follows.
  intros Hne Hs Hd. unfold follow_link. assert (Hlen : (0 < length stack)%nat) by (destruct stack; simpl; [done|lia]).
  destruct (normalize target (length stack)) as [[newsz relp]|] eqn:En; [|done]. apply normalize_bound in En; [|done].
  destruct limit; [done|]. pose proof (min_size_bound (rev stack)) as Hm. rewrite length_rev in Hm.
  specialize (Hm ltac:(intros E; apply (f_equal (@length _)) in E; rewrite length_rev in E; simpl in E; lia)).
  set (k := Nat.max newsz (min_size eff (rev stack))) in *. assert (Hk : (1 <= k <= length stack)%nat) by lia.
  destruct (Nat.ltb_spec (length stack) k); [lia|]. specialize (follows eq_refl (drop (length stack - k) stack) relp).
  assert (settles P (follow (drop (length stack - k) stack) relp)) as Hf.
  { apply follows; [|by apply Forall_drop]. intros E. apply (f_equal (@length _)) in E. rewrite length_drop in E. simpl in E. lia. }
  destruct (follow _ relp) as [[[d l] m]|e|]; simpl; [|done|done]. destruct Hf as (_ & Hl & Hm').
  destruct l as [n|n|? ?]; simpl in Hl; [| |done]; (split; [done|]); destruct detected; simpl; intros x Hx; auto.
Qed.

Lemma walk_settles path cs stack detected :
  stack <> [] -> Forall P stack -> (forall n, detected = Some n -> P n) -> settles P (walk ns eff follow limit path cs stack detected).
Proof using gets P_eff P_child follows.
  revert stack detected. induction cs as [|c cs IH]; intros stack detected Hne Hs Hd; cbn [walk]; [by apply resolve_end_settles|].
  destruct c as [| | |name].
  - apply IH; [done|by constructor|done].
  - by apply IH.
  - destruct stack as [|top [|b rest]]; [done|by apply IH|]. case_bool_decide; [by apply IH|].
    apply IH; [done| |done]. by apply Forall_cons_1 in Hs as [_ Hs].
  - destruct stack as [|dnode rest]; [done|]. unfold as_dir. pose proof Hs as [Hdn _]%Forall_cons_1.
    destruct (kind_of ns dnode); cbn [mbind outcome_bind]; [|done|done].
    destruct (dir_get ns dnode name) as [[child|]| |] eqn:Eg; [|destruct cs; simpl; by split_and!|done|by destruct (gets dnode name)].
    assert (Hc : P child) by (by eapply P_child).
    destruct (kind_of ns child) as [| |target].
    + apply IH; [done|by constructor|]. destruct detected; [done|]. case_bool_decide; [done|]. by intros n [= <-].
    + apply IH; [done|by constructor|]. destruct detected; [done|]. case_bool_decide; [done|]. by intros n [= <-].
    + pose proof (follow_link_settles (dnode :: rest) target detected Hne Hs Hd) as Hf.
      destruct (follow_link eff follow limit (dnode :: rest) target detected) as [[n m]| |]; cbn [mbind outcome_bind]; [|done|done].
      apply IH; [done|constructor; [exact (proj1 Hf)|done]|exact (proj2 Hf)].
Qed.
End Walk.

Lemma resolve_settles eff (P : FileID -> Prop) (steps : nat) stack path (depth : nat) :
  P eff -> (forall d n c, P d -> dir_get ns d n = Ok (Some c) -> P c) ->
  (SYMLINK_LOOP_LIMIT + 1 <= steps + depth)%nat -> (0 < steps)%nat -> stack <> [] -> Forall P stack -> settles P (resolve ns eff steps stack path depth).
Proof using gets.
  intros He Hc. revert stack path depth. induction steps as [|steps IH]; intros stack path depth Hd H0 Hne Hs; [lia|].
  cbn [resolve]. apply walk_settles; try done. intros Hl%Nat.leb_gt stack' path' Hne' Hs'. apply IH; try done; unfold SYMLINK_LOOP_LIMIT in *; lia.
Qed.

(** C18: Whatever the links and the path, a resolution ends without a panic, and from
    a working directory below its effective root it finds nothing above: the
    directory it returns, the node it finds and the root of the working directory
    it gives are all reached from the effective root through directory entries. *)
Theorem resolution_contained (w : WD) (path : bytes) :
  below (effective_root w) (wd_np w) ->
  match resolve_path ns w path with
  | Ok (w', found) => below (effective_root w) (wd_np w') /\ below (effective_root w) (effective_root w') /\ lookup_in (below (effective_root w)) found
  | Err e => e <> OutOfSteps /\ e <> InternalError
  | Panic => False
  end.
Proof using gets.
  intros Hw. unfold resolve_path. set (P := below (effective_root w)).
  pose proof (resolve_settles (effective_root w) P RESOLVE_STEPS [wd_np w] path 0) as Hr.
  assert (Hc : settles P (resolve ns (effective_root w) RESOLVE_STEPS [wd_np w] path 0)).
  { apply Hr; try done; [constructor|by intros d n c Hd; apply (below_child _ d n)|unfold SYMLINK_LOOP_LIMIT, RESOLVE_STEPS; simpl; lia|unfold RESOLVE_STEPS; simpl; lia|by constructor]. }
  destruct (resolve _ _ _ _ _ _) as [[[n l] m]| |]; cbn [mbind outcome_bind]; [|done|done]. destruct Hc as (Hn & Hl & Hm).
  unfold child_wd, as_dir. destruct (kind_of ns n); cbn [mbind outcome_bind mret outcome_ret]; [|done|done].
  split_and!; [by destruct m|destruct m; simpl; [by apply Hm|constructor]|done].
Qed.
End Contained.

(** * Plain paths *)

Section Plain.
Variable ns : namespace.

(** The entries [names] lead from [d] through directories to [e], without a link
    or a mount. *)
Inductive path_to : FileID -> list bytes -> FileID -> Prop :=
| path_here d : path_to d [] d
| path_down d n c names e :
    kind_of ns d = DirectoryNode -> dir_get ns d n = Ok (Some c) -> (forall t, kind_of ns c <> SymlinkNode t) -> fid_pond c = fid_pond d ->
    path_to c names e -> path_to d (n :: names) e.

Lemma walk_plain eff follow limit path d names e stack :
  path_to d names e ->
  exists nodes, walk ns eff follow limit path (map Normal names) (d :: stack) None = resolve_end path (e :: nodes ++ stack) None
    /\ length nodes = length names /\ Forall (fun x => kind_of ns x = DirectoryNode) nodes.
Proof.
  intros Hp. revert stack. induction Hp as [d|d n c names e Hk Hg Hl Hpo Hp IH]; intros stack; [by exists []; split_and!|].
  cbn [map walk]. unfold as_dir. rewrite Hk, Hg. cbn [mbind outcome_bind].
  assert (Hw : walk ns eff follow limit path (map Normal names) (c :: d :: stack) (if bool_decide (fid_pond c = fid_pond d) then None else Some d)
    = walk ns eff follow limit path (map Normal names) (c :: d :: stack) None) by (by rewrite bool_decide_true).
  destruct (IH (d :: stack)) as (nodes & E & Hlen & Hdirs). exists (nodes ++ [d]). rewrite length_app, <- app_assoc. cbn [app length].
  split_and!; [|lia|apply Forall_app; split; [done|by constructor]]. destruct (kind_of ns c) eqn:Ek; [by rewrite Hw|by rewrite Hw|by destruct (Hl target)].
Qed.

Definition absolute (names : list bytes) : bytes := collect (RootDir :: map Normal names).
Definition relative (names : list bytes) : bytes := collect (map Normal names).

Lemma plain_inner names : Forall plain_name names -> Forall inner (map Normal names).
Proof. intros Hf. apply Forall_map. eapply Forall_impl; [exact Hf|done]. Qed.

Lemma components_absolute names : Forall plain_name names -> components (absolute names) = RootDir :: map Normal names.
Proof. intros Hf. unfold absolute. apply components_collect. by apply plain_inner. Qed.

Lemma components_relative names : Forall plain_name names -> components (relative names) = map Normal names.
Proof.
  intros Hf. unfold relative. apply components_collect. apply plain_inner in Hf. destruct names; [constructor|]. exact Hf.
Qed.

(** What is found at the end of a plain path from the root. *)
Lemma open_absolute w names e :
  Forall plain_name names -> path_to (effective_root w) names e -> kind_of ns (effective_root w) = DirectoryNode -> kind_of ns e = DirectoryNode ->
  open_dir_path ns w (absolute names) = Ok {| wd_np := e; effective_root := effective_root w |}.
Proof.
  intros Hf Hp Hr He. unfold open_dir_path, resolve_path, RESOLVE_STEPS. cbn [SYMLINK_LOOP_LIMIT Nat.add]. cbn [resolve].
  rewrite components_absolute by done. cbn [walk].
  match goal with |- context [walk _ _ ?f ?l ?p _ _ _] => destruct (walk_plain (effective_root w) f l p (effective_root w) names e [] Hp) as (nodes & -> & Hlen & Hdirs) end.
  rewrite app_nil_r. destruct nodes as [|n nodes].
  - destruct names; [|done]. inversion Hp; subst. cbn [resolve_end]. rewrite components_absolute by done. cbn [forallb map andb].
    cbn [mbind outcome_bind]. unfold child_wd, as_dir. rewrite Hr. cbn [mbind outcome_bind mret outcome_ret snd fst effective_root]. by rewrite Hr.
  - apply Forall_cons_1 in Hdirs as [Hn _]. cbn [resolve_end mbind outcome_bind]. unfold child_wd, as_dir. rewrite Hn.
    cbn [mbind outcome_bind mret outcome_ret snd fst effective_root]. by rewrite He.
Qed.

Lemma components_name n : plain_name n -> components n = [Normal n].
Proof.
  intros Hn. assert (Hr : relative [n] = n) by (unfold relative, collect; cbn [map fold_left push_component last]; done).
  rewrite <- Hr at 1. by rewrite components_relative by (by constructor).
Qed.

(** A plain name in a directory. *)
Lemma resolve_child w n c :
  plain_name n -> kind_of ns (wd_np w) = DirectoryNode -> dir_get ns (wd_np w) n = Ok (Some c) -> (forall t, kind_of ns c <> SymlinkNode t) ->
  fid_pond c = fid_pond (wd_np w) -> resolve_path ns w n = Ok (w, LFound c).
Proof.
  intros Hn Hk Hg Hl Hp. unfold resolve_path, RESOLVE_STEPS. cbn [SYMLINK_LOOP_LIMIT Nat.add resolve]. rewrite components_name by done.
  match goal with |- context [walk _ ?e ?f ?l ?p [Normal n] _ _] => destruct (walk_plain e f l p (wd_np w) [n] c []) as (nodes & Hw & Hlen & Hdirs) end.
  { eapply path_down; eauto. constructor. }
  cbn [map] in Hw. rewrite Hw. destruct nodes as [|x [|? ?]]; [done| |done]. assert (x = wd_np w) as ->.
  { clear Hlen Hdirs. cbn [walk] in Hw. unfold as_dir in Hw. rewrite Hk, Hg in Hw. cbn [mbind outcome_bind] in Hw.
    rewrite bool_decide_true in Hw by done. destruct (kind_of ns c) eqn:Ek; [| |by destruct (Hl target)]; cbn [resolve_end app] in Hw; by injection Hw as <-. }
  cbn [resolve_end app mbind outcome_bind]. unfold child_wd, as_dir. rewrite Hk. by destruct w.
Qed.

Lemma open_child w n c :
  plain_name n -> kind_of ns (wd_np w) = DirectoryNode -> dir_get ns (wd_np w) n = Ok (Some c) -> kind_of ns c = DirectoryNode ->
  fid_pond c = fid_pond (wd_np w) -> open_dir_path ns w n = Ok {| wd_np := c; effective_root := effective_root w |}.
Proof.
  intros Hn Hk Hg Hc Hp. unfold open_dir_path. rewrite (resolve_child w n c) by (done || by intros t; rewrite Hc). cbn [mbind outcome_bind snd fst].
  unfold child_wd, as_dir. by rewrite Hc.
Qed.
End Plain.

(** * What is created is found *)

Section Created.
Variables (ns ns' : namespace) (d : FileID) (name : bytes) (c : FileID).

(** [ns'] has the new node [c] as [name] of [d], and is [ns] otherwise. *)
Record adds : Prop := {
  ad_get : forall x n, x <> c -> (x, n) <> (d, name) -> dir_get ns' x n = dir_get ns x n;
  ad_new : dir_get ns' d name = Ok (Some c);
  ad_absent : dir_get ns d name = Ok None;
  ad_kind : forall x, x <> c -> kind_of ns' x = kind_of ns x;
  ad_kind_new : forall t, kind_of ns' c <> SymlinkNode t;
  ad_fresh : forall x n, dir_get ns x n <> Ok (Some c);
}.
Hypothesis added : adds.

(** A result in [ns], and what it is in [ns']. *)
Definition carried (r r' : fres (FileID * Lookup * option FileID)) : Prop :=
  match r with
  | Ok (x, LNotFound p n, m) => if bool_decide (x = d /\ n = name) then exists m', r' = Ok (d, LFound c, m') else r' = r
  | Ok (x, (LFound y | LEmpty y), m) => r' = r /\ y <> c
  | _ => True
  end.

Lemma follow_carried eff follow follow' limit stack target detected n m :
  (forall stack path, Forall (fun x => x <> c) stack -> carried (follow stack path) (follow' stack path)) -> Forall (fun x => x <> c) stack ->
  follow_link eff follow limit stack target detected = Ok (n, m) -> follow_link eff follow' limit stack target detected = Ok (n, m) /\ n <> c.
Proof using Type.
  intros Hf Hs. unfold follow_link. destruct (normalize target (length stack)) as [[newsz relp]|]; [|done]. destruct limit; [done|].
  set (k := Nat.max newsz _). destruct (length stack <? k)%nat; [done|].
  specialize (Hf (drop (length stack - k) stack) relp ltac:(by apply Forall_drop)).
  destruct (follow _ relp) as [[[x l] m']| |]; cbn [mbind outcome_bind]; [|done|done]. cbn [fst snd].
  destruct l as [y|y|]; [..|done]; simpl in Hf; destruct Hf as [-> Hy]; cbn [mbind outcome_bind fst snd]; intros [= <- <-]; done.
Qed.

Lemma walk_carried eff follow follow' limit path cs stack detected :
  eff <> c -> (forall stack path, Forall (fun x => x <> c) stack -> carried (follow stack path) (follow' stack path)) -> Forall (fun x => x <> c) stack ->
  carried (walk ns eff follow limit path cs stack detected) (walk ns' eff follow' limit path cs stack detected).
Proof using added.
  intros He Hf. revert stack detected. induction cs as [|co cs IH]; intros stack detected Hs; cbn [walk].
  { destruct stack as [|x [|y rest]]; [done|..]; apply Forall_cons_1 in Hs as [Hx Hs]; cbn [resolve_end]; [destruct (forallb _ _)|]; done. }
  destruct co as [| | |n].
  - apply IH. by constructor.
  - by apply IH.
  - destruct stack as [|x [|y rest]]; [by apply IH|by apply IH|]. case_bool_decide; [by apply IH|]. apply IH. by apply Forall_cons_1 in Hs as [_ Hs].
  - destruct stack as [|x rest]; [done|]. pose proof Hs as [Hx _]%Forall_cons_1. unfold as_dir. rewrite (ad_kind added x Hx).
    destruct (kind_of ns x) eqn:Ek; cbn [mbind outcome_bind]; [|done|done].
    destruct (decide ((x, n) = (d, name))) as [[= -> ->]|Hne].
    + rewrite (ad_absent added), (ad_new added). destruct cs as [|? ?]; [|done]. cbn [carried]. rewrite bool_decide_true by done.
      cbn [walk resolve_end]. destruct (kind_of ns' c) eqn:Ec; [eauto|eauto|by destruct (ad_kind_new added target)].
    + rewrite (ad_get added x n Hx Hne). destruct (dir_get ns x n) as [[child|]| |] eqn:Eg; [| |done|done].
      * assert (Hc : child <> c) by (intros ->; by apply (ad_fresh added x n)). rewrite (ad_kind added child Hc).
        destruct (kind_of ns child) as [| |target]; [by apply IH; constructor|by apply IH; constructor|].
        destruct (follow_link eff follow limit (x :: rest) target detected) as [[y m]| |] eqn:El; cbn [mbind outcome_bind]; [|done|done].
        destruct (follow_carried _ _ follow' _ _ _ _ _ _ Hf Hs El) as [-> Hy]. cbn [mbind outcome_bind fst snd]. apply IH. by constructor.
      * destruct cs; [|done]. cbn [carried]. rewrite bool_decide_false; [done|]. intros [-> ->]. done.
Qed.

Lemma resolve_carried eff (steps : nat) stack path (depth : nat) :
  eff <> c -> Forall (fun x => x <> c) stack -> carried (resolve ns eff steps stack path depth) (resolve ns' eff steps stack path depth).
Proof using added.
  intros He. revert stack path depth. induction steps as [|steps IH]; intros stack path depth Hs; [done|]. cbn [resolve].
  apply walk_carried; [done| |done]. intros stack' path' Hs'. by apply IH.
Qed.
End Created.

Section Paths.
Context {version : Type}.
Variable factory_get : bytes * bytes * option Z -> bytes -> outcome unit (option FileID).
Implicit Types st : store version.

(** Nothing names [c], and nothing is stored under it. *)
Definition fresh (st : store version) (c : FileID) : Prop :=
  st_dirs st !! c = None /\ st_links st !! c = None /\ st_dynamic st !! c = None /\ forall x n, get_entry factory_get st x n <> Ok (Some c).

Lemma insert_adds st st1 st2 d name c :
  fresh st c -> st_dirs st1 = st_dirs st \/ st_dirs st1 = <[c := ∅]> (st_dirs st) -> st_links st1 = st_links st -> st_dynamic st1 = st_dynamic st ->
  d <> c -> get_entry factory_get st d name = Ok None ->
  dir_insert d name c st1 = Ok st2 -> adds (ns_of factory_get st) (ns_of factory_get st2) d name c.
Proof.
  intros (Hd & Hl & Hy & Hf) Hdirs El Ey Hdc Ha. unfold dir_insert. destruct (st_dirs st1 !! d) as [m|] eqn:Em; [|done]. destruct (m !! name) eqn:En; [done|].
  intros [= <-]. assert (Hsame : forall x, x <> c -> st_dirs st1 !! x = st_dirs st !! x) by (intros x Hx; destruct Hdirs as [->| ->]; [done|by apply lookup_insert_ne]).
  rewrite (Hsame d Hdc) in Em.
  split; simpl.
  - intros x n Hx Hne. unfold get_entry. cbn [st_dirs st_dynamic with_dirs]. rewrite Ey. destruct (decide (x = d)) as [->|Hxd].
    + rewrite lookup_insert_eq, Em, lookup_insert_ne; [done|]. congruence.
    + by rewrite lookup_insert_ne, Hsame by done.
  - unfold get_entry. cbn. by rewrite !lookup_insert_eq.
  - done.
  - intros x Hx. unfold node_kind. cbn. rewrite El, Ey. destruct (decide (x = d)) as [->|Hxd]; [by rewrite lookup_insert_eq, Em|].
    by rewrite lookup_insert_ne, Hsame by done.
  - intros t. unfold node_kind. cbn. rewrite El, Hl, Ey, Hy. destruct (<[d:=<[name:=c]> m]> (st_dirs st1) !! c); done.
  - done.
Qed.

Lemma get_node_path_resolve ns w path n :
  get_node_path ns w path = Ok n <->
  exists x l m, resolve ns (effective_root w) RESOLVE_STEPS [wd_np w] path 0 = Ok (x, l, m) /\ kind_of ns x = DirectoryNode /\ (l = LFound n \/ l = LEmpty n).
Proof.
  unfold get_node_path, resolve_path. destruct (resolve _ _ _ _ _ _) as [[[x l] m]| |]; cbn [mbind outcome_bind].
  2: { split; [done|]. by intros (? & ? & ? & ? & _). }
  2: { split; [done|]. by intros (? & ? & ? & ? & _). }
  unfold child_wd, as_dir. destruct (kind_of ns x) eqn:Ek; cbn [mbind outcome_bind mret outcome_ret].
  2, 3: split; [done|]; intros (? & ? & ? & [= <- <- <-] & ? & _); congruence.
  split.
  - intros E. exists x, l, m. split; [done|]. split; [done|]. destruct m, l; simpl in E; try discriminate; injection E as <-; auto.
  - intros (? & ? & ? & [= <- <- <-] & _ & [-> | ->]); by destruct m.
Qed.

(** Where a walk stops, the name is not in the directory. *)
Lemma walk_not_found ns eff follow limit path cs stack detected x p n m :
  walk ns eff follow limit path cs stack detected = Ok (x, LNotFound p n, m) -> dir_get ns x n = Ok None.
Proof.
  revert stack detected. induction cs as [|co cs IH]; intros stack detected; cbn [walk].
  { destruct stack as [|a [|b rest]]; cbn [resolve_end]; [done|by destruct (forallb _ _)|done]. }
  destruct co as [| | |name]; [apply IH|apply IH| |].
  - destruct stack as [|a [|b rest]]; [apply IH|apply IH|]. case_bool_decide; apply IH.
  - destruct stack as [|a rest]; [done|]. unfold as_dir. destruct (kind_of ns a); cbn [mbind outcome_bind]; [|done|done].
    destruct (dir_get ns a name) as [[child|]| |] eqn:Eg; [| |done|done].
    + destruct (kind_of ns child) as [| |t]; [apply IH|apply IH|].
      destruct (follow_link _ _ _ _ _ _); cbn [mbind outcome_bind]; [apply IH|done|done].
    + destruct cs; [|done]. by intros [= <- <- <- <-].
Qed.

(** The node [create_at] makes is unused, and the working directory is not it. *)
Definition unused (st : store version) (w : WD) (node : uuid) : Prop :=
  fid_node (wd_np w) <> node /\ fid_node (effective_root w) <> node
  /\ forall c, fid_node c = node -> fresh st c.

Definition creates (make : WD -> FileID * (store version -> store version)) (node : uuid) (st : store version) : Prop :=
  forall p, fid_node (make p).1 = node
    /\ (st_dirs ((make p).2 st) = st_dirs st \/ st_dirs ((make p).2 st) = <[(make p).1 := ∅]> (st_dirs st))
    /\ st_links ((make p).2 st) = st_links st /\ st_dynamic ((make p).2 st) = st_dynamic st.

Lemma create_at_adds w path node st make id st' :
  unused st w node -> creates make node st -> create_at factory_get w path st make = Ok (id, st') ->
  exists d name, adds (ns_of factory_get st) (ns_of factory_get st') d name id
    /\ (exists p m, resolve (ns_of factory_get st) (effective_root w) RESOLVE_STEPS [wd_np w] path 0 = Ok (d, LNotFound p name, m))
    /\ kind_of (ns_of factory_get st) d = DirectoryNode /\ d <> id /\ fid_node id = node
    /\ exists p m, make p = (id, (make p).2) /\ st' = with_dirs (<[d := <[name := id]> m]> (st_dirs ((make p).2 st))) ((make p).2 st).
Proof.
  intros (Hw & He & Hf) Hm. unfold create_at, resolve_path.
  destruct (resolve _ _ _ _ _ _) as [[[x l] m]| |] eqn:Er; cbn [mbind outcome_bind]; [|done|done].
  unfold child_wd, as_dir. destruct (kind_of _ x) eqn:Ek; cbn [mbind outcome_bind mret outcome_ret]; [|done|done]. cbn [fst snd].
  set (p := match m with Some _ => _ | None => _ end). assert (wd_np p = x) as Ep by (by destruct m).
  destruct (check_writable p); cbn [mbind outcome_bind]; [|done|done]. destruct l as [|n|pp name]; [done|done|].
  destruct (make p) as [c create] eqn:Emk. rewrite Ep. destruct (dir_insert x name c (create st)) as [st2| |] eqn:Ei; cbn [mbind outcome_bind]; [|done|done].
  intros [= <- <-]. destruct (Hm p) as (Hc & Hdirs & Hl & Hy). rewrite Emk in Hc, Hdirs, Hl, Hy. cbn [fst snd] in *.
  assert (Hxc : x <> c).
  { intros ->. destruct (Hf c Hc) as (Hd & Hlk & Hdy & _). simpl in Ek. unfold node_kind in Ek. by rewrite Hlk, Hd, Hdy in Ek. }
  assert (Hab : get_entry factory_get st x name = Ok None).
  { unfold RESOLVE_STEPS in Er. cbn [SYMLINK_LOOP_LIMIT Nat.add resolve] in Er. by apply walk_not_found in Er. }
  exists x, name. split_and!; [by eapply insert_adds; eauto|by eauto|done|done|done|].
  exists p. rewrite Emk. cbn [fst snd]. unfold dir_insert in Ei. destruct (st_dirs (create st) !! x) as [mm|]; [|done]. destruct (mm !! name); [done|].
  injection Ei as <-. by exists mm.
Qed.

Lemma adds_found w path node st make id st' :
  unused st w node -> creates make node st -> create_at factory_get w path st make = Ok (id, st') ->
  get_node_path (ns_of factory_get st') w path = Ok id
  /\ forall p n, get_node_path (ns_of factory_get st) w p = Ok n -> get_node_path (ns_of factory_get st') w p = Ok n.
Proof.
  intros Hu Hm Hc. pose proof (create_at_adds w path node st make id st' Hu Hm Hc) as (d & name & Ha & (pp & m & Er) & Hk & Hd & Hid & _).
  destruct Hu as (Hw & He & Hf).
  assert (Hr : forall p, carried d name id (resolve (ns_of factory_get st) (effective_root w) RESOLVE_STEPS [wd_np w] p 0)
                (resolve (ns_of factory_get st') (effective_root w) RESOLVE_STEPS [wd_np w] p 0)).
  { intros p. apply (resolve_carried _ _ _ _ _ Ha); [congruence|]. constructor; [congruence|constructor]. }
  split.
  - specialize (Hr path). rewrite Er in Hr. cbn [carried] in Hr. rewrite bool_decide_true in Hr by done. destruct Hr as [m' Hr].
    apply get_node_path_resolve. exists d, (LFound id), m'. split_and!; [done| |by left]. by rewrite (ad_kind _ _ _ _ _ Ha d Hd).
  - intros p n (x & l & m' & Ep & Hkx & Hl)%get_node_path_resolve. specialize (Hr p). rewrite Ep in Hr.
    apply get_node_path_resolve. exists x, l, m'. destruct Hl as [-> | ->]; destruct Hr as [-> _]; split_and!; try done; try (by left); try (by right);
      rewrite (ad_kind _ _ _ _ _ Ha x); try done; intros ->; destruct (Hf id Hid) as (Hd' & Hl' & Hy' & _); simpl in Hkx; unfold node_kind in Hkx; by rewrite Hl', Hd', Hy' in Hkx.
Qed.

(** What is stored under the new node. *)
Lemma create_at_stored w path node st make id st' :
  unused st w node -> creates make node st -> create_at factory_get w path st make = Ok (id, st') ->
  exists p, (make p).1 = id /\ st_files st' = st_files ((make p).2 st) /\ st_dirs st' !! id = st_dirs ((make p).2 st) !! id.
Proof.
  intros Hu Hm E. destruct (create_at_adds _ _ _ _ _ _ _ Hu Hm E) as (d & name & _ & _ & _ & Hd & _ & p & m & Emk & ->).
  exists p. rewrite Emk. cbn [fst with_dirs st_files st_dirs]. by rewrite lookup_insert_ne.
Qed.

(** C19: A directory or file created at a path is what the same path finds afterwards,
    whatever links the path goes through, a new directory is empty and can be
    opened, and every path that found a node still finds the same one. *)
Theorem created_is_found (w : WD) (path : bytes) (node : uuid) (st : store version) :
  unused st w node ->
  match create_dir_path factory_get w path node st with
  | Ok (w', st') => get_node_path (ns_of factory_get st') w path = Ok (wd_np w') /\ st_dirs st' !! wd_np w' = Some ∅
      /\ forall p n, get_node_path (ns_of factory_get st) w p = Ok n -> get_node_path (ns_of factory_get st') w p = Ok n
  | _ => True
  end
  /\ match create_file_path_streaming_with_type factory_get w path node st with
     | Ok (id, st') => get_node_path (ns_of factory_get st') w path = Ok id /\ st_files st' !! id = Some []
         /\ forall p n, get_node_path (ns_of factory_get st) w p = Ok n -> get_node_path (ns_of factory_get st') w p = Ok n
     | _ => True
     end.
Proof.
  intros Hu. split.
  - unfold create_dir_path. set (make := fun p : WD => _). destruct (create_at factory_get w path st make) as [[id st']| |] eqn:E; cbn [mbind outcome_bind]; [|done|done].
    assert (Hm : creates make node st) by (intros p; split_and!; [done|by right|done|done]).
    destruct (adds_found _ _ _ _ _ _ _ Hu Hm E) as [Hg Hk]. destruct (create_at_stored _ _ _ _ _ _ _ Hu Hm E) as (p & Ep & _ & Ed).
    cbn [fst snd]. unfold child_wd, as_dir. destruct (kind_of _ id); cbn [mbind outcome_bind mret outcome_ret]; [|done|done]. cbn [wd_np].
    split_and!; [done| |done]. rewrite Ed, <- Ep. apply lookup_insert_eq.
  - unfold create_file_path_streaming_with_type. set (make := fun p : WD => _). destruct (create_at factory_get w path st make) as [[id st']| |] eqn:E; [|done|done].
    assert (Hm : creates make node st) by (intros p; split_and!; [done|by left|done|done]).
    destruct (adds_found _ _ _ _ _ _ _ Hu Hm E) as [Hg Hk]. destruct (create_at_stored _ _ _ _ _ _ _ Hu Hm E) as (p & Ep & Ef & _).
    split_and!; [done| |done]. rewrite Ef, <- Ep. apply lookup_insert_eq.
Qed.
End Paths.

(** * Witnesses *)

(** A root with a directory [a] that holds a link above the root, a link to
    itself and a link back to [a]. *)
Definition no_factory (f : bytes * bytes * option Z) (name : bytes) : outcome unit (option FileID) := Err tt.
Definition ex_pond : uuid := repeat Byte.x05 16.
Definition ex_id (kind tag : Z) : FileID :=
  let n := map z2b [0; 0; 0; 0; 0; 0; 0x70 + kind; 0; 0x80; 0; 0; 0; 0; 0; 0; tag] in {| fid_node := n; fid_part := n; fid_pond := ex_pond |}.
Definition ex_tree_root : FileID := root_for ex_pond.
Definition ex_links : store unit :=
  {| st_dirs := list_to_map [(ex_tree_root, list_to_map [(bstr "a", ex_id 1 1)]);
                             (ex_id 1 1, list_to_map [(bstr "up", ex_id 3 2); (bstr "self", ex_id 3 3); (bstr "back", ex_id 3 4)])];
     st_links := list_to_map [(ex_id 3 2, (bstr "../../a", None)); (ex_id 3 3, (bstr "self", None)); (ex_id 3 4, (bstr "/a", None))];
     st_dynamic := ∅; st_files := ∅ |}.
Definition ex_wd : WD := {| wd_np := ex_tree_root; effective_root := ex_tree_root |}.

Lemma ex_gets : forall d n, dir_get (ns_of no_factory ex_links) d n <> Panic.
Proof. intros d n. simpl. unfold get_entry. destruct (st_dirs ex_links !! d); [done|]. by destruct (st_dynamic ex_links !! d). Qed.

Lemma resolution_contained_witness :
  resolve_path (ns_of no_factory ex_links) ex_wd (bstr "a/self/x") = Err (SymlinkLoop (bstr "self"))
  /\ resolve_path (ns_of no_factory ex_links) ex_wd (bstr "a/up") = Err (ParentPathInvalid (bstr "../../a"))
  /\ match resolve_path (ns_of no_factory ex_links) ex_wd (bstr "../a/back/../../..") with
     | Ok (w', found) => below (ns_of no_factory ex_links) ex_tree_root (wd_np w') /\ below (ns_of no_factory ex_links) ex_tree_root (effective_root w')
         /\ lookup_in (below (ns_of no_factory ex_links) ex_tree_root) found
     | Err e => e <> OutOfSteps /\ e <> InternalError
     | Panic => False
     end.
Proof.
  split; [vm_compute; reflexivity|]. split; [vm_compute; reflexivity|].
  apply (resolution_contained (ns_of no_factory ex_links) ex_gets ex_wd (bstr "../a/back/../../..")). constructor.
Defined.

Lemma created_is_found_witness :
  is_ok (create_dir_path no_factory ex_wd (bstr "a/back/new") (repeat Byte.x09 16) ex_links) = true
  /\ match create_dir_path no_factory ex_wd (bstr "a/back/new") (repeat Byte.x09 16) ex_links with
     | Ok (w', st') => get_node_path (ns_of no_factory st') ex_wd (bstr "a/back/new") = Ok (wd_np w') /\ st_dirs st' !! wd_np w' = Some ∅
         /\ forall p n, get_node_path (ns_of no_factory ex_links) ex_wd p = Ok n -> get_node_path (ns_of no_factory st') ex_wd p = Ok n
     | _ => True
     end.
Proof.
  split; [vm_compute; reflexivity|].
  refine (proj1 (created_is_found no_factory ex_wd (bstr "a/back/new") (repeat Byte.x09 16) ex_links _)).
  split; [vm_compute; discriminate|]. split; [vm_compute; discriminate|]. intros c Hc.
  assert (Hno : Forall (fun x => fid_node x <> repeat Byte.x09 16) [ex_tree_root; ex_id 1 1; ex_id 3 2; ex_id 3 3; ex_id 3 4]) by (apply (bool_decide_unpack _); vm_compute; exact I).
  assert (Hne : Forall (fun x => x <> c) [ex_tree_root; ex_id 1 1; ex_id 3 2; ex_id 3 3; ex_id 3 4]) by (eapply Forall_impl; [exact Hno|]; intros x Hx ->; done).
  apply Forall_cons_1 in Hne as [H0 Hne]. apply Forall_cons_1 in Hne as [H1 Hne]. apply Forall_cons_1 in Hne as [H2 Hne]. apply Forall_cons_1 in Hne as [H3 Hne]. apply Forall_cons_1 in Hne as [H4 _].
  unfold fresh, ex_links. cbn [st_dirs st_links st_dynamic list_to_map foldr fmap]. unfold get_entry. cbn [st_dirs st_dynamic list_to_map foldr].
  split_and!.
  - by rewrite !lookup_insert_ne, lookup_empty.
  - by rewrite !lookup_insert_ne, lookup_empty.
  - done.
  - intros x n. destruct (_ !! x) as [m|] eqn:Em; [|done]. intros [= E]. cbn [fst snd] in Em.
    repeat (apply lookup_insert_Some in Em as [[_ <-]|[_ Em]]; [repeat (apply lookup_insert_Some in E as [[_ E]|[_ E]]; [congruence|]); by rewrite lookup_empty in E|]).
    by rewrite lookup_empty in Em.
Defined.
