(* ===== verification/PullRenames.v ===== *)
(** The collision-safe renames of one directory,
    [emit_collision_safe_renames] of [crates/steward/src/content_pull.rs]: a
    batch of simultaneous name changes (chains, swaps, rotations) as a sequence
    of single renames, each of which the directory accepts. *)

From stdpp Require Import base list gmap numbers strings sorting options.
From Stdlib Require Import ZArith Lia.
From S2P Require Import Prelude RustStd RustText.

(** One node's desired name change within a single directory. *)
Record RenameIntent := { ri_old : bytes; ri_new : bytes; ri_node_id : bytes }.

(** * The emitted sequence *)

Definition keys {A} (m : gmap bytes A) : list bytes := map fst (map_to_list m).

Definition insert_pending (pending : gmap bytes RenameIntent) (i : RenameIntent) : gmap bytes RenameIntent :=
  if bool_decide (ri_old i = ri_new i) then pending else <[ri_old i := i]> pending.

(** The renames whose target no pending node still holds, in a fixed order. *)
Definition free_renames (pending : gmap bytes RenameIntent) : list bytes :=
  sort_by bytes_cmp (map fst (filter (fun '(_, i) => pending !! ri_new i = None) (map_to_list pending))).

(** [for old in free]. *)
Fixpoint emit_free (pending : gmap bytes RenameIntent) (free : list bytes) : gmap bytes RenameIntent * list (bytes * bytes) :=
  match free with
  | [] => (pending, [])
  | old :: free =>
      match pending !! old with
      | Some i => let '(pending, ops) := emit_free (delete old pending) free in (pending, (ri_old i, ri_new i) :: ops)
      | None => emit_free pending free
      end
  end.

Definition temp_base (id : bytes) : bytes := bstr ".pull-rename-tmp-" ++ id.

Definition temp_name (base : bytes) (suffix : Z) : bytes :=
  if suffix =? 0 then base else base ++ bstr "-" ++ show_u64 suffix.

(** [while reserved_names.contains(&temp) || pending.contains_key(&temp)]. *)
Fixpoint find_temp (fuel : nat) (taken : bytes -> bool) (base : bytes) (suffix : Z) : option bytes :=
  match fuel with
  | O => None
  | S fuel => if taken (temp_name base suffix) then find_temp fuel taken base (suffix + 1) else Some (temp_name base suffix)
  end.

(** The outer [loop]. *)
Fixpoint emit_loop (fuel : nat) (pending : gmap bytes RenameIntent) (reserved : gset bytes) : option (list (bytes * bytes)) :=
  match fuel with
  | O => None
  | S fuel =>
      let free := free_renames pending in
      if bool_decide (free = []) then
        match head (sort_by bytes_cmp (keys pending)) with
        | None => Some []
        | Some victim =>
            i ← pending !! victim;
            let pending := delete victim pending in
            temp ← find_temp (S (size reserved + size pending)) (fun n => bool_decide (n ∈ reserved \/ is_Some (pending !! n)))
                     (temp_base (ri_node_id i)) 0;
            ops ← emit_loop fuel (<[temp := {| ri_old := temp; ri_new := ri_new i; ri_node_id := ri_node_id i |}]> pending) ({[temp]} ∪ reserved);
            Some ((ri_old i, temp) :: ops)
        end
      else
        let '(pending, ops) := emit_free pending free in
        rest ← emit_loop fuel pending reserved;
        Some (ops ++ rest)
  end.

Definition emit_collision_safe_renames (intents : list RenameIntent) (reserved : gset bytes) : option (list (bytes * bytes)) :=
  let pending := fold_left insert_pending intents ∅ in
  emit_loop (S (2 * size pending)) pending reserved.

(** * The directory *)

Inductive dir_error := NameTaken | NameAbsent.

(** [WD::rename_entry] on the entries of one directory. *)
Definition rename_in {A} (old new : bytes) (d : gmap bytes A) : outcome dir_error (gmap bytes A) :=
  match d !! new with
  | Some _ => Err NameTaken
  | None => match d !! old with
            | None => Err NameAbsent
            | Some n => Ok (<[new := n]> (delete old d))
            end
  end.

Fixpoint rename_all {A} (ops : list (bytes * bytes)) (d : gmap bytes A) : outcome dir_error (gmap bytes A) :=
  match ops with
  | [] => Ok d
  | (old, new) :: ops => d ← rename_in old new d; rename_all ops d
  end.

(** * Specification *)

Section Renames.
Context {A : Type}.
Implicit Types (d : gmap bytes A) (p : gmap bytes RenameIntent).

(** The directory after all pending changes at once. *)
Definition settled (p : gmap bytes RenameIntent) (d d' : gmap bytes A) : Prop :=
  (forall k i, p !! k = Some i -> d' !! ri_new i = d !! k) /\
  (forall n, (forall k i, p !! k = Some i -> ri_new i <> n) -> d' !! n = if bool_decide (is_Some (p !! n)) then None else d !! n).

(** A name that could be a temporary one. *)
Definition staging (n : bytes) : Prop := exists rest, n = bstr ".pull-rename-tmp-" ++ rest.

Lemma temp_staging id suffix : staging (temp_name (temp_base id) suffix).
Proof using Type. unfold temp_name, temp_base. destruct (suffix =? 0); [by eexists|]. rewrite <- app_assoc. by eexists. Qed.

(** What holds of the changes still pending. *)
Record pending_ok (p : gmap bytes RenameIntent) (reserved : gset bytes) (d : gmap bytes A) : Prop := {
  po_key : forall k i, p !! k = Some i -> ri_old i = k;
  po_held : forall k i, p !! k = Some i -> is_Some (d !! k);
  po_inj : forall k1 k2 i1 i2, p !! k1 = Some i1 -> p !! k2 = Some i2 -> ri_new i1 = ri_new i2 -> k1 = k2;
  po_free : forall k i, p !! k = Some i -> is_Some (d !! ri_new i) -> is_Some (p !! ri_new i);
  po_dir : forall n, is_Some (d !! n) -> staging n -> n ∈ reserved;
  po_new : forall k i, p !! k = Some i -> ri_new i ∈ reserved;
}.

(** A change whose target is free is done. *)
Lemma rename_step p reserved d k i :
  pending_ok p reserved d -> p !! k = Some i -> p !! ri_new i = None ->
  exists d2, rename_in (ri_old i) (ri_new i) d = Ok d2 /\ pending_ok (delete k p) reserved d2
    /\ forall d', settled (delete k p) d2 d' -> settled p d d'.
Proof.
  intros Hp Hk Hf. destruct (po_held _ _ _ Hp k i Hk) as [v Hv].
  assert (Hn : d !! ri_new i = None).
  { destruct (d !! ri_new i) eqn:E; [|done]. destruct (po_free _ _ _ Hp k i Hk) as [? ?]; [by rewrite E|congruence]. }
  assert (Hne : k <> ri_new i) by congruence.
  exists (<[ri_new i := v]> (delete k d)). unfold rename_in. rewrite (po_key _ _ _ Hp k i Hk), Hn, Hv. split; [done|]. split.
  - split.
    + intros k1 i1 [_ H1]%lookup_delete_Some. by apply (po_key _ _ _ Hp).
    + intros k1 i1 [Hk1 H1]%lookup_delete_Some. assert (k1 <> ri_new i) by congruence.
      rewrite lookup_insert_ne, lookup_delete_ne by done. by apply (po_held _ _ _ Hp k1 i1).
    + intros k1 k2 i1 i2 [_ H1]%lookup_delete_Some [_ H2]%lookup_delete_Some. by apply (po_inj _ _ _ Hp).
    + intros k1 i1 [Hk1 H1]%lookup_delete_Some. assert (Hni : ri_new i1 <> ri_new i) by (intros E; apply Hk1; symmetry; exact (po_inj _ _ _ Hp _ _ _ _ H1 Hk E)).
      rewrite lookup_insert_ne by done. destruct (decide (ri_new i1 = k)) as [->|Hnk]; [by rewrite lookup_delete_eq; intros [? ?]|].
      rewrite !lookup_delete_ne by done. by apply (po_free _ _ _ Hp k1).
    + intros n. destruct (decide (n = ri_new i)) as [->|Hnn]; [intros _ _; by eapply (po_new _ _ _ Hp)|].
      rewrite lookup_insert_ne by done. intros [x [_ Hx]%lookup_delete_Some] Hst. by apply (po_dir _ _ _ Hp).
    + intros k1 i1 [_ H1]%lookup_delete_Some. by eapply (po_new _ _ _ Hp).
  - intros d' [Ha Hb]. split.
    + intros k1 i1 H1. destruct (decide (k1 = k)) as [->|Hk1].
      * replace i1 with i by congruence. rewrite Hb.
        -- rewrite bool_decide_false by (rewrite lookup_delete_ne, Hf by done; by intros [? ?]). by rewrite lookup_insert_eq.
        -- intros k2 i2 [Hk2 H2]%lookup_delete_Some E. apply Hk2. symmetry. exact (po_inj _ _ _ Hp _ _ _ _ H2 Hk E).
      * rewrite (Ha k1 i1) by (by rewrite lookup_delete_ne). assert (k1 <> ri_new i) by congruence. by rewrite lookup_insert_ne, lookup_delete_ne.
    + intros n Hnew. rewrite Hb by (intros k1 i1 [_ H1]%lookup_delete_Some; by eapply Hnew).
      assert (ri_new i <> n) by (by eapply Hnew). rewrite lookup_insert_ne by done. destruct (decide (n = k)) as [->|Hnk].
      * rewrite !lookup_delete_eq. rewrite (bool_decide_true (is_Some (p !! k))) by (by exists i). by rewrite bool_decide_false by (by intros [? ?]).
      * by rewrite !lookup_delete_ne.
Qed.

(** A change is staged through a name nothing has or wants. *)
Lemma temp_step p reserved d k i temp :
  pending_ok p reserved d -> p !! k = Some i -> staging temp -> temp ∉ reserved ->
  let i' := {| ri_old := temp; ri_new := ri_new i; ri_node_id := ri_node_id i |} in
  exists d2, rename_in (ri_old i) temp d = Ok d2 /\ pending_ok (<[temp := i']> (delete k p)) ({[temp]} ∪ reserved) d2
    /\ forall d', settled (<[temp := i']> (delete k p)) d2 d' -> settled p d d'.
Proof.
  intros Hp Hk Hst Ht i'. destruct (po_held _ _ _ Hp k i Hk) as [v Hv].
  assert (Hn : d !! temp = None) by (apply eq_None_not_Some; intros Hs; exact (Ht (po_dir _ _ _ Hp _ Hs Hst))).
  assert (Hne : temp <> k) by (intros ->; congruence).
  assert (Hnew : forall k1 i1, p !! k1 = Some i1 -> ri_new i1 <> temp) by (intros k1 i1 H1 <-; apply Ht; by eapply (po_new _ _ _ Hp)).
  assert (Hpt : p !! temp = None) by (destruct (p !! temp) as [j|] eqn:E; [|done]; destruct (po_held _ _ _ Hp _ _ E); congruence).
  exists (<[temp := v]> (delete k d)). unfold rename_in. rewrite (po_key _ _ _ Hp k i Hk), Hn, Hv. split; [done|]. split.
  - split.
    + intros k1 i1 [[<- <-]|[_ [_ H1]%lookup_delete_Some]]%lookup_insert_Some; [done|]. by apply (po_key _ _ _ Hp).
    + intros k1 i1 [[<- <-]|[H0 [H2 H1]%lookup_delete_Some]]%lookup_insert_Some; [by rewrite lookup_insert_eq|].
      rewrite lookup_insert_ne, lookup_delete_ne by done. by apply (po_held _ _ _ Hp k1 i1).
    + intros k1 k2 i1 i2 [[<- <-]|[H0 [H2 H1]%lookup_delete_Some]]%lookup_insert_Some [[<- <-]|[H3 [H4 H5]%lookup_delete_Some]]%lookup_insert_Some E; [done| | |].
      * destruct H4. exact (po_inj _ _ _ Hp _ _ _ _ Hk H5 E).
      * destruct H2. symmetry. exact (po_inj _ _ _ Hp _ _ _ _ H1 Hk E).
      * exact (po_inj _ _ _ Hp _ _ _ _ H1 H5 E).
    + intros k1 i1 H1 Hs. assert (exists j, p !! j = Some i1 \/ (i1 = i' /\ j = k)) as (j & Hj).
      { apply lookup_insert_Some in H1 as [[_ <-]|[_ [_ H1]%lookup_delete_Some]]; eauto. }
      assert (Hnt : ri_new i1 <> temp) by (destruct Hj as [Hj|[-> _]]; [by eapply Hnew|exact (Hnew k i Hk)]).
      rewrite lookup_insert_ne by done. rewrite lookup_insert_ne in Hs by done. destruct (decide (ri_new i1 = k)) as [E|Hnk]; [rewrite E, lookup_delete_eq in Hs; by destruct Hs|].
      rewrite lookup_delete_ne by done. rewrite lookup_delete_ne in Hs by done. destruct Hj as [Hj|[-> _]]; [by apply (po_free _ _ _ Hp j)|by apply (po_free _ _ _ Hp k i)].
    + intros n. destruct (decide (n = temp)) as [->|Hnn]; [set_solver|]. rewrite lookup_insert_ne by done.
      intros [x [_ Hx]%lookup_delete_Some] Hsn. apply elem_of_union_r. by apply (po_dir _ _ _ Hp).
    + intros k1 i1 [[<- <-]|[_ [_ H1]%lookup_delete_Some]]%lookup_insert_Some; apply elem_of_union_r;
        [exact (po_new _ _ _ Hp k i Hk)|exact (po_new _ _ _ Hp k1 i1 H1)].
  - intros d' [Ha Hb]. split.
    + intros k1 i1 H1. destruct (decide (k1 = k)) as [->|Hk1].
      * replace i1 with i by congruence. pose proof (Ha temp i' ltac:(apply lookup_insert_eq)) as E. cbn [ri_new i'] in E. by rewrite E, lookup_insert_eq.
      * assert (k1 <> temp) by congruence. rewrite (Ha k1 i1) by (by rewrite lookup_insert_ne, lookup_delete_ne). by rewrite lookup_insert_ne, lookup_delete_ne.
    + intros n Hnn. rewrite Hb.
      2: { intros k1 i1 [[<- <-]|[_ [_ H1]%lookup_delete_Some]]%lookup_insert_Some; [exact (Hnn k i Hk)|exact (Hnn k1 i1 H1)]. }
      destruct (decide (n = temp)) as [->|Hnt].
      * rewrite !lookup_insert_eq, Hpt, Hn. rewrite bool_decide_true by (by eexists). by rewrite bool_decide_false by (by intros [? ?]).
      * rewrite !lookup_insert_ne by done. destruct (decide (n = k)) as [->|Hnk].
        -- rewrite !lookup_delete_eq. rewrite (bool_decide_true (is_Some (p !! k))) by (by exists i). by rewrite bool_decide_false by (by intros [? ?]).
        -- by rewrite !lookup_delete_ne.
Qed.

Lemma emit_free_step p reserved d free :
  pending_ok p reserved d -> NoDup free -> (forall k, k ∈ free -> exists i, p !! k = Some i /\ p !! ri_new i = None) ->
  let '(p2, ops) := emit_free p free in
  (exists d2, rename_all ops d = Ok d2 /\ pending_ok p2 reserved d2 /\ forall d', settled p2 d2 d' -> settled p d d')
  /\ p2 ⊆ p /\ (forall k, k ∈ free -> p2 !! k = None).
Proof.
  intros Hp Hnd. revert p d Hp. induction Hnd as [|k free Hk _ IH]; intros p d Hp Hf; cbn [emit_free].
  { split; [exists d; auto|]. split; [done|set_solver]. }
  destruct (Hf k) as (i & Hi & Hfr); [set_solver|]. rewrite Hi.
  destruct (rename_step p reserved d k i Hp Hi Hfr) as (d1 & Hr & Hp1 & Hs1).
  specialize (IH (delete k p) d1 Hp1). destruct (emit_free (delete k p) free) as [p2 ops].
  destruct IH as ((d2 & Hops & Hp2 & Hs2) & Hsub & Hout).
  { intros k' Hin. destruct (Hf k') as (i' & Hi' & Hf'); [set_solver|]. exists i'.
    rewrite lookup_delete_ne by set_solver. split; [done|]. apply lookup_delete_None. by right. }
  split; [|split].
  - exists d2. cbn [rename_all]. rewrite Hr. cbn [mbind outcome_bind]. auto.
  - etrans; [exact Hsub|apply delete_subseteq].
  - intros k' [->|Hin]%elem_of_cons; [|by apply Hout]. destruct (p2 !! k) eqn:E; [|done].
    apply (lookup_weaken _ (delete k p)) in E; [|done]. by rewrite lookup_delete_eq in E.
Qed.

(** ** The loop ends *)

Definition news (p : gmap bytes RenameIntent) : gset bytes := list_to_set (map (fun kv => ri_new kv.2) (map_to_list p)).

Lemma elem_of_news p n : n ∈ news p <-> exists k i, p !! k = Some i /\ ri_new i = n.
Proof.
  unfold news. rewrite elem_of_list_to_set, list_elem_of_fmap. split.
  - intros ([k i] & -> & Hin%elem_of_map_to_list). by exists k, i.
  - intros (k & i & Hk & <-). exists (k, i). split; [done|]. by apply elem_of_map_to_list.
Qed.

Lemma news_size p reserved d : pending_ok p reserved d -> size (news p) = size p.
Proof.
  intros Hp. unfold news. rewrite size_list_to_set, length_map; [apply length_map_to_list|].
  apply NoDup_fmap_2_strong; [|apply NoDup_map_to_list].
  intros [k1 i1] [k2 i2] H1%elem_of_map_to_list H2%elem_of_map_to_list E. cbn in E.
  pose proof (po_inj _ _ _ Hp _ _ _ _ H1 H2 E) as <-. congruence.
Qed.

(** The changes left, and the names among theirs that others wait for. *)
Definition measure (p : gmap bytes RenameIntent) : nat := size (dom p) + size (dom p ∩ news p).

Lemma news_mono p1 p2 : p1 ⊆ p2 -> news p1 ⊆ news p2.
Proof. intros Hs n (k & i & Hk & Hn)%elem_of_news. apply elem_of_news. exists k, i. split; [by eapply lookup_weaken|done]. Qed.

Lemma measure_mono p1 p2 k : p1 ⊆ p2 -> is_Some (p2 !! k) -> p1 !! k = None -> (measure p1 < measure p2)%nat.
Proof.
  intros Hs Hk Hn. pose proof (news_mono _ _ Hs) as Hnews. pose proof (subseteq_dom _ _ Hs) as Hd. unfold measure.
  assert (size (dom p1) < size (dom p2))%nat.
  { apply subset_size. split; [done|]. intros Hd'. apply not_elem_of_dom in Hn. apply Hn, Hd'. by apply elem_of_dom. }
  assert (size (dom p1 ∩ news p1) <= size (dom p2 ∩ news p2))%nat by (apply subseteq_size; set_solver). lia.
Qed.

Lemma measure_temp p reserved d k i temp :
  pending_ok p reserved d -> (forall k i, p !! k = Some i -> is_Some (p !! ri_new i)) -> p !! k = Some i -> staging temp -> temp ∉ reserved ->
  (measure (<[temp := {| ri_old := temp; ri_new := ri_new i; ri_node_id := ri_node_id i |}]> (delete k p)) < measure p)%nat.
Proof.
  intros Hp Hcyc Hk Hst Ht. set (p' := <[temp := _]> (delete k p)).
  assert (Hsub : news p ⊆ dom p) by (intros n (k1 & i1 & H1 & <-)%elem_of_news; apply elem_of_dom; by eapply Hcyc).
  assert (Heq : news p ≡ dom p).
  { apply set_subseteq_size_equiv; [done|]. rewrite (news_size p reserved d Hp), size_dom. done. }
  assert (Hnt : temp ∉ dom p).
  { intros [j Hj]%elem_of_dom. apply Ht, (po_dir _ _ _ Hp); [by apply (po_held _ _ _ Hp _ _ Hj)|done]. }
  assert (Hkd : k ∈ dom p) by (apply elem_of_dom; by exists i).
  assert (Hd : dom p' ≡ {[temp]} ∪ dom p ∖ {[k]}) by (unfold p'; rewrite dom_insert, dom_delete; done).
  assert (Hnn : news p' ⊆ news p).
  { intros n (k1 & i1 & H1 & <-)%elem_of_news. apply elem_of_news. apply lookup_insert_Some in H1 as [[_ <-]|[_ [_ H1]%lookup_delete_Some]]; eauto. }
  assert (S1 : size (dom p') = size (dom p)).
  { rewrite Hd, size_union, size_singleton, size_difference, size_singleton by set_solver.
    assert (size (dom p) <> 0)%nat by (rewrite size_non_empty_iff; set_solver). lia. }
  assert (S2 : (size (dom p' ∩ news p') < size (dom p ∩ news p))%nat); [|unfold measure; lia].
  apply subset_size. split; [set_solver|]. intros Hc. assert (k ∈ dom p' ∩ news p') by (apply Hc; set_solver).
  assert (k <> temp) by set_solver. set_solver.
Qed.

(** ** Temporary names *)

Lemma temp_name_inj base s1 s2 :
  is_u64 s1 = true -> is_u64 s2 = true -> temp_name base s1 = temp_name base s2 -> s1 = s2.
Proof.
  intros H1 H2. unfold temp_name. destruct (Z.eqb_spec s1 0) as [->|N1], (Z.eqb_spec s2 0) as [->|N2]; [done| | |].
  - intros E%(f_equal length). rewrite !length_app in E. cbn in E. lia.
  - intros E%(f_equal length). rewrite !length_app in E. cbn in E. lia.
  - intros E%app_inv_head. change (bstr "-") with [Byte.x2d] in E. injection E as E. by apply show_u64_inj.
Qed.

Lemma find_temp_first fuel taken base s t : find_temp fuel taken base s = Some t -> taken t = false.
Proof.
  revert s. induction fuel as [|fuel IH]; intros s; cbn [find_temp]; [done|].
  destruct (taken (temp_name base s)) eqn:E; [apply IH|]. by intros [= <-].
Qed.

Lemma find_temp_staging fuel taken id s t : find_temp fuel taken (temp_base id) s = Some t -> staging t.
Proof. revert s. induction fuel as [|fuel IH]; intros s; cbn [find_temp]; [done|]. destruct (taken _); [apply IH|]. intros [= <-]. apply temp_staging. Qed.

Lemma find_temp_none fuel taken base s :
  find_temp fuel taken base s = None -> forall j, (j < fuel)%nat -> taken (temp_name base (s + Z.of_nat j)) = true.
Proof.
  revert s. induction fuel as [|fuel IH]; intros s E j Hj; [lia|]. cbn [find_temp] in E.
  destruct (taken (temp_name base s)) eqn:Et; [|done]. destruct j as [|j]; [by rewrite Z.add_0_r|].
  replace (s + Z.of_nat (S j)) with (s + 1 + Z.of_nat j) by lia. apply IH; [done|lia].
Qed.

(** One attempt per taken name and one more are enough. *)
Lemma find_temp_some (fuel : nat) (taken : gset bytes) base :
  (size taken < fuel)%nat -> Z.of_nat fuel < 2 ^ 64 -> exists t, find_temp fuel (fun n => bool_decide (n ∈ taken)) base 0 = Some t.
Proof.
  intros Hf Hu. destruct (find_temp _ _ _ _) as [t|] eqn:E; [by exists t|]. exfalso.
  pose proof (find_temp_none _ _ _ _ E) as Hall. cbn beta in Hall.
  set (l := map (fun j => temp_name base (Z.of_nat j)) (seq 0 fuel)).
  assert (Hnd : NoDup l).
  { apply NoDup_fmap_2_strong; [|apply NoDup_seq]. intros j1 j2 H1%elem_of_seq H2%elem_of_seq Ej.
    apply temp_name_inj in Ej; unfold is_u64; lia. }
  assert (Hsub : list_to_set l ⊆ taken).
  { intros n (j & -> & Hj%elem_of_seq)%elem_of_list_to_set%list_elem_of_fmap. specialize (Hall j ltac:(lia)).
    rewrite Z.add_0_l in Hall. by apply bool_decide_eq_true in Hall. }
  apply subseteq_size in Hsub. rewrite size_list_to_set in Hsub by done. unfold l in Hsub. rewrite length_map, length_seq in Hsub. lia.
Qed.

(** ** The whole sequence *)

Lemma elem_of_free p k : k ∈ free_renames p <-> exists i, p !! k = Some i /\ p !! ri_new i = None.
Proof.
  unfold free_renames. rewrite sort_by_perm, list_elem_of_fmap. split.
  - intros ([k' i] & -> & [Hn Hin]%list_elem_of_filter). exists i. split; [by apply elem_of_map_to_list|done].
  - intros (i & Hk & Hn). exists (k, i). split; [done|]. apply list_elem_of_filter. split; [done|by apply elem_of_map_to_list].
Qed.

Lemma free_nodup p : NoDup (free_renames p).
Proof.
  unfold free_renames. rewrite sort_by_perm. apply NoDup_fmap_2_strong; [|apply NoDup_filter, NoDup_map_to_list].
  intros [k1 i1] [k2 i2] [_ H1%elem_of_map_to_list]%list_elem_of_filter [_ H2%elem_of_map_to_list]%list_elem_of_filter E. cbn in E. subst. congruence.
Qed.

Lemma head_keys (p : gmap bytes RenameIntent) : match head (sort_by bytes_cmp (keys p)) with Some k => is_Some (p !! k) | None => p = ∅ end.
Proof.
  destruct (sort_by bytes_cmp (keys p)) as [|k l] eqn:E; cbn.
  - assert (Hp : keys p = []) by (apply Permutation_nil; rewrite <- E; apply sort_by_perm).
    unfold keys in Hp. apply fmap_nil_inv in Hp. by apply map_to_list_empty_iff.
  - assert (Hin : k ∈ keys p) by (rewrite <- (sort_by_perm bytes_cmp), E; set_solver).
    unfold keys in Hin. apply list_elem_of_fmap in Hin as ([k' i] & -> & Hin%elem_of_map_to_list). by exists i.
Qed.

Lemma rename_all_app ops1 ops2 d d1 : rename_all ops1 d = Ok d1 -> rename_all (ops1 ++ ops2) d = rename_all ops2 d1.
Proof.
  revert d. induction ops1 as [|[old new] ops1 IH]; intros d E; cbn [rename_all app] in *; [by apply Ok_inj in E as ->|].
  apply bind_Ok in E as (d2 & -> & E). cbn [mbind outcome_bind]. by apply IH.
Qed.

Lemma settled_empty d : settled ∅ d d.
Proof. split; [intros k i; by rewrite lookup_empty|]. intros n _. rewrite lookup_empty. by rewrite bool_decide_false by (by intros [? ?]). Qed.

Lemma emit_loop_spec (fuel : nat) p reserved d :
  pending_ok p reserved d -> (measure p < fuel)%nat -> Z.of_nat (2 + size reserved + measure p + measure p) < 2 ^ 64 ->
  exists ops d', emit_loop fuel p reserved = Some ops /\ rename_all ops d = Ok d' /\ settled p d d'.
Proof.
  revert p reserved d. induction fuel as [|fuel IH]; intros p reserved d Hp Hf Hu; [lia|]. cbn [emit_loop].
  case_bool_decide as Hfree.
  - pose proof (head_keys p) as Hh. destruct (head _) as [k|].
    2: { subst p. exists [], d. split; [done|]. split; [done|apply settled_empty]. }
    destruct Hh as [i Hi]. rewrite Hi. cbn [mbind option_bind].
    assert (Hsz : size (delete k p) = pred (size p)) by (apply map_size_delete_Some; by exists i).
    assert (Hne : size p <> 0%nat) by (intros E%map_size_empty_inv; subst; by rewrite lookup_empty in Hi).
    assert (Hmp : (size p <= measure p)%nat) by (unfold measure; rewrite size_dom; lia).
    assert (Hext : forall n, bool_decide (n ∈ reserved \/ is_Some (delete k p !! n)) = bool_decide (n ∈ reserved ∪ dom (delete k p))).
    { intros n. apply bool_decide_ext. by rewrite elem_of_union, elem_of_dom. }
    assert (Htemp : exists t, find_temp (S (size reserved + size (delete k p))) (fun n => bool_decide (n ∈ reserved \/ is_Some (delete k p !! n)))
              (temp_base (ri_node_id i)) 0 = Some t /\ staging t /\ (t ∉ reserved)).
    { destruct (find_temp_some (S (size reserved + size (delete k p))) (reserved ∪ dom (delete k p)) (temp_base (ri_node_id i))) as [t Ht].
      - pose proof (size_union_alt reserved (dom (delete k p))) as Hs. rewrite <- size_dom.
        assert (size (dom (delete k p) ∖ reserved) <= size (dom (delete k p)))%nat by (apply subseteq_size; set_solver). lia.
      - lia.
      - exists t. assert (E : find_temp (S (size reserved + size (delete k p))) (fun n => bool_decide (n ∈ reserved \/ is_Some (delete k p !! n)))
              (temp_base (ri_node_id i)) 0 = Some t).
        { rewrite <- Ht. generalize (S (size reserved + size (delete k p))), 0. clear -Hext. intros fuel. induction fuel as [|fuel IH]; intros s; [done|].
          cbn [find_temp]. rewrite Hext. by rewrite IH. }
        split; [done|]. split; [by eapply find_temp_staging|]. apply find_temp_first in E. apply bool_decide_eq_false in E. tauto. }
    destruct Htemp as (t & -> & Hst & Ht). cbn [mbind option_bind].
    destruct (temp_step p reserved d k i t Hp Hi Hst Ht) as (d2 & Hr & Hp2 & Hs2).
    assert (Hcyc : forall k i, p !! k = Some i -> is_Some (p !! ri_new i)).
    { intros k1 i1 H1. apply not_eq_None_Some. intros Hn. assert (k1 ∈ free_renames p) by (apply elem_of_free; by exists i1). rewrite Hfree in *. set_solver. }
    pose proof (measure_temp p reserved d k i t Hp Hcyc Hi Hst Ht) as Hm.
    destruct (IH _ _ d2 Hp2) as (ops & d' & -> & Hops & Hset); [lia| |].
    { assert (size ({[t]} ∪ reserved) = S (size reserved)) as -> by (rewrite size_union, size_singleton by set_solver; lia). lia. }
    cbn [mbind option_bind]. exists ((ri_old i, t) :: ops), d'. split; [done|]. cbn [rename_all]. rewrite Hr. cbn [mbind outcome_bind]. auto.
  - pose proof (emit_free_step p reserved d (free_renames p) Hp (free_nodup p)) as Hstep.
    destruct (emit_free p (free_renames p)) as [p2 ops]. destruct Hstep as ((d2 & Hr & Hp2 & Hs2) & Hsub & Hout); [by intros k Hk%elem_of_free|].
    destruct (free_renames p) as [|k l] eqn:Efree; [done|]. assert (Hk : k ∈ free_renames p) by (rewrite Efree; set_solver).
    apply elem_of_free in Hk as (i & Hi & _).
    pose proof (measure_mono p2 p k Hsub ltac:(by exists i) (Hout k ltac:(set_solver))) as Hm.
    destruct (IH p2 reserved d2 Hp2) as (rest & d' & -> & Hrest & Hset); [lia|lia|]. cbn [mbind option_bind].
    exists (ops ++ rest), d'. split; [done|]. split; [by rewrite (rename_all_app _ _ _ _ Hr)|auto].
Qed.

Lemma pending_lookup intents p0 k i :
  NoDup (ri_old <$> intents) -> (forall j, j ∈ intents -> p0 !! ri_old j = None) ->
  fold_left insert_pending intents p0 !! k = Some i <-> p0 !! k = Some i \/ (i ∈ intents /\ ri_old i = k /\ ri_old i <> ri_new i).
Proof.
  revert p0. induction intents as [|j intents IH]; intros p0 Hnd Hp0; cbn [fold_left]; [set_solver|].
  rewrite fmap_cons in Hnd. apply NoDup_cons in Hnd as [Hj Hnd]. rewrite IH; [|done|].
  - unfold insert_pending. case_bool_decide as Ej; [split; [intros [?|(? & ? & ?)]; [by left|right; set_solver]|]|].
    + intros [?|([->|?]%elem_of_cons & ? & ?)]; [by left|done|right; set_solver].
    + rewrite lookup_insert_Some. pose proof (Hp0 j ltac:(set_solver)). split.
      * intros [[[<- <-]|[? ?]]|(? & ? & ?)]; [right; set_solver|by left|right; set_solver].
      * intros [Hk|([->|?]%elem_of_cons & ? & ?)]; [|by left; left|by right]. left. right. split; [congruence|done].
  - intros j' Hj'. unfold insert_pending. case_bool_decide; [apply Hp0; set_solver|].
    rewrite lookup_insert_ne; [apply Hp0; set_solver|]. intros E. apply Hj. rewrite E. by apply list_elem_of_fmap_2.
Qed.

(** A batch of changes a directory can make: different nodes of the directory go to
    different names, each free or given up in the same batch. *)
Record batch_ok (intents : list RenameIntent) (reserved : gset bytes) (d : gmap bytes A) : Prop := {
  bo_old : NoDup (ri_old <$> intents);
  bo_new : NoDup (ri_new <$> intents);
  bo_held : forall i, i ∈ intents -> is_Some (d !! ri_old i);
  bo_free : forall i, i ∈ intents -> is_Some (d !! ri_new i) -> ri_new i ∈ ri_old <$> intents;
  bo_dir : forall n, is_Some (d !! n) -> staging n -> n ∈ reserved;
  bo_reserved : forall n, n ∈ ri_new <$> intents -> n ∈ reserved;
}.

(** The directory after the whole batch at once. *)
Definition renamed (intents : list RenameIntent) (d d' : gmap bytes A) : Prop :=
  (forall i, i ∈ intents -> d' !! ri_new i = d !! ri_old i) /\
  (forall n, n ∉ ri_new <$> intents -> d' !! n = if bool_decide (n ∈ ri_old <$> intents) then None else d !! n).

Lemma same_by_old intents i j : NoDup (ri_old <$> intents) -> i ∈ intents -> j ∈ intents -> ri_old i = ri_old j -> i = j.
Proof.
  intros Hnd [a Ha]%list_elem_of_lookup [b Hb]%list_elem_of_lookup E.
  assert (a = b) as ->; [|congruence]. apply (NoDup_lookup _ _ _ (ri_old i) Hnd); rewrite list_lookup_fmap; [by rewrite Ha|by rewrite Hb, E].
Qed.

Lemma same_by_new intents i j : NoDup (ri_new <$> intents) -> i ∈ intents -> j ∈ intents -> ri_new i = ri_new j -> i = j.
Proof.
  intros Hnd [a Ha]%list_elem_of_lookup [b Hb]%list_elem_of_lookup E.
  assert (a = b) as ->; [|congruence]. apply (NoDup_lookup _ _ _ (ri_new i) Hnd); rewrite list_lookup_fmap; [by rewrite Ha|by rewrite Hb, E].
Qed.

Lemma batch_pending intents reserved d :
  batch_ok intents reserved d -> pending_ok (fold_left insert_pending intents ∅) reserved d.
Proof.
  intros [Ho Hn Hh Hf Hd Hr]. assert (Hl : forall k i, fold_left insert_pending intents ∅ !! k = Some i <-> i ∈ intents /\ ri_old i = k /\ ri_old i <> ri_new i).
  { intros k i. rewrite pending_lookup by (done || (intros; apply lookup_empty)). rewrite lookup_empty. naive_solver. }
  split.
  - intros k i (_ & <- & _)%Hl. done.
  - intros k i (Hi & <- & _)%Hl. by apply Hh.
  - intros k1 k2 i1 i2 (H1 & <- & _)%Hl (H2 & <- & _)%Hl E. by rewrite (same_by_new intents i1 i2).
  - intros k i (Hi & <- & Hne)%Hl Hs. apply Hf in Hs as (j & Ej & Hj)%list_elem_of_fmap; [|done]. exists j. apply Hl. split; [done|]. split; [done|].
    intros E. assert (i = j) as -> by (apply (same_by_new intents); congruence). congruence.
  - done.
  - intros k i (Hi & _ & _)%Hl. apply Hr. by apply list_elem_of_fmap_2.
Qed.

Lemma settled_renamed intents reserved d d' :
  batch_ok intents reserved d -> settled (fold_left insert_pending intents ∅) d d' -> renamed intents d d'.
Proof.
  intros Hb [Ha Hs]. pose proof Hb as [Ho Hn Hh Hf Hd Hr].
  assert (Hl : forall k i, fold_left insert_pending intents ∅ !! k = Some i <-> i ∈ intents /\ ri_old i = k /\ ri_old i <> ri_new i).
  { intros k i. rewrite pending_lookup by (done || (intros; apply lookup_empty)). rewrite lookup_empty. naive_solver. }
  split.
  - intros i Hi. destruct (decide (ri_old i = ri_new i)) as [E|Hne]; [|by apply Ha, Hl].
    rewrite Hs.
    + rewrite bool_decide_false; [by rewrite E|]. intros [j (Hj & Ej & Hnj)%Hl]. apply Hnj.
      assert (i = j) as -> by (apply (same_by_old intents); congruence). done.
    + intros k j (Hj & <- & Hnj)%Hl E'. apply Hnj. assert (i = j) as -> by (apply (same_by_new intents); congruence). done.
  - intros n Hnn. rewrite Hs.
    + apply (f_equal (fun b : bool => if b then None else d !! n)). apply bool_decide_ext. rewrite list_elem_of_fmap. split.
      * intros [j (Hj & <- & _)%Hl]. by exists j.
      * intros (j & -> & Hj). exists j. apply Hl. split; [done|]. split; [done|]. intros E. apply Hnn. rewrite E. by apply list_elem_of_fmap_2.
    + intros k i (Hi & _ & _)%Hl <-. apply Hnn. by apply list_elem_of_fmap_2.
Qed.

(** A batch that fits a [u64] many times over. *)
Definition small_batch (intents : list RenameIntent) (reserved : gset bytes) : Prop :=
  Z.of_nat (2 + size reserved + 4 * length intents) < 2 ^ 64.

Lemma pending_size (intents : list RenameIntent) p : (size (fold_left insert_pending intents p) <= size p + length intents)%nat.
Proof.
  revert p. induction intents as [|i intents IH]; intros p; cbn [fold_left length]; [lia|].
  etrans; [apply IH|]. unfold insert_pending. case_bool_decide; [lia|].
  destruct (p !! ri_old i) as [j|] eqn:E; [rewrite map_size_insert_Some by (by exists j)|rewrite map_size_insert_None by done]; lia.
Qed.

Lemma emit_renames_spec intents reserved d :
  batch_ok intents reserved d -> small_batch intents reserved ->
  exists ops d', emit_collision_safe_renames intents reserved = Some ops /\ rename_all ops d = Ok d' /\ renamed intents d d'.
Proof.
  intros Hb Hs. set (p := fold_left insert_pending intents ∅).
  assert (Hm : (measure p <= 2 * size p)%nat).
  { unfold measure. rewrite <- size_dom. assert (size (dom p ∩ news p) <= size (dom p))%nat by (apply subseteq_size; set_solver). lia. }
  pose proof (pending_size intents ∅) as Hz. rewrite map_size_empty in Hz. fold p in Hz.
  destruct (emit_loop_spec (S (2 * size p)) p reserved d) as (ops & d' & E & Hops & Hset); [by apply batch_pending|lia|unfold small_batch in Hs; lia|].
  exists ops, d'. split; [exact E|]. split; [done|]. by eapply settled_renamed.
Qed.

(** C17: A batch of renames of one directory (distinct old names, distinct new names,
    every old name held, every held new name freed by the batch, and every new name
    and every held name that could be a temporary one reserved) is emitted as a sequence of single renames that the
    directory accepts one after the other, without a collision at any point, and
    that leaves it exactly as the simultaneous change would: chains, swaps and
    rotations included, with no temporary name left behind. *)
Theorem renames_land (intents : list RenameIntent) (reserved : gset bytes) (d : gmap bytes A) :
  batch_ok intents reserved d -> small_batch intents reserved ->
  exists ops d', emit_collision_safe_renames intents reserved = Some ops /\ rename_all ops d = Ok d' /\ renamed intents d d'.
Proof. apply emit_renames_spec. Qed.
End Renames.

(** * Witness *)

(** A swap of [a] and [b] and a chain from [c] to [d]'s name and [d] away, in a
    directory that already holds the temporary name of the victim. *)
Definition swap_batch : list RenameIntent :=
  [ {| ri_old := bstr "a"; ri_new := bstr "b"; ri_node_id := bstr "n" |}; {| ri_old := bstr "b"; ri_new := bstr "a"; ri_node_id := bstr "m" |};
    {| ri_old := bstr "c"; ri_new := bstr "d"; ri_node_id := bstr "o" |}; {| ri_old := bstr "d"; ri_new := bstr "e"; ri_node_id := bstr "p" |} ].
Definition swap_dir : gmap bytes Z :=
  list_to_map [(bstr "a", 1); (bstr "b", 2); (bstr "c", 3); (bstr "d", 4); (bstr ".pull-rename-tmp-n", 5)].
Definition swap_reserved : gset bytes := dom swap_dir ∪ list_to_set (map ri_new swap_batch).

Lemma renames_land_witness :
  exists ops d', emit_collision_safe_renames swap_batch swap_reserved = Some ops /\ rename_all ops swap_dir = Ok d' /\ renamed swap_batch swap_dir d'.
Proof.
  apply (renames_land swap_batch swap_reserved swap_dir).
  - split.
    + apply (bool_decide_unpack _). vm_compute. exact I.
    + apply (bool_decide_unpack _). vm_compute. exact I.
    + rewrite <- Forall_forall. apply (bool_decide_unpack _). vm_compute. exact I.
    + rewrite <- (Forall_forall (fun i => is_Some (swap_dir !! ri_new i) -> ri_new i ∈ ri_old <$> swap_batch)). apply (bool_decide_unpack _). vm_compute. exact I.
    + intros n Hn _. unfold swap_reserved. apply elem_of_union_l. by apply elem_of_dom.
    + intros n Hn. unfold swap_reserved. apply elem_of_union_r. by apply elem_of_list_to_set.
  - vm_compute. reflexivity.
Defined.
