(* ===== verification/PullGraph.v ===== *)
(** The consumer's view of a remote, [crates/steward/src/content_source.rs] and
    the head of [crates/steward/src/content_pull.rs]: the read interface
    [ContentSource], the fetched object graph, and the reads every fetch is made
    of, which take no byte on trust. *)

From stdpp Require Import base list gmap numbers strings options.
From Stdlib Require Import ZArith Lia.
From S2P Require Import Prelude RustStd EntryType TinyFs Wire Tree Manifest PatriciaMap Commit SeriesMerkle SeriesManifest SeriesPack SeriesLeaf TableLeaf Publication.

Open Scope Z_scope.

(** * Errors

    One constructor per message of the module, with the values the message is
    formatted from. [SourceFailed] is any error of the source itself. *)
Inductive pull_error :=
| SourceFailed
| OutOfFuel
| Content (e : cerror)
| StateError (e : StoreError)
| HashMismatch (actual expected : bytes)
| ObjectAbsent (hash : bytes)
| NotBuffered (hash : bytes)
| BlobVanished (hash : bytes)
| StreamedMismatch (actual expected : bytes)
| BadNodeId (node : bytes)
| ObjectsRetained
| ParentNotReady (node : bytes)
| BadAttributes (name : bytes)
| FsFailed (e : fs_error)
| LeafRefused (e : leaf_error)
| TableRefused (e : table_error)
| NotASeries
| PlannedLengths (hash : bytes)
| InlineOverflow
| UseOverflow
| InlineLimit (size limit : Z)
| ReceiptLength (hash : bytes) (actual expected : Z)
| PrefetchKey (hash : bytes)
| ObjectLength (hash : bytes) (actual expected : Z)
| InlineOmitted (hash : bytes)
| UnplannedUse (hash : bytes)
| UseUnderflow (hash : bytes)
| PrefixOverflow
| PrefixSkip (pack hash : bytes)
| TrailingContent
| LeafBefore (index : Z)
| LeafUnknown (index : Z)
| LeafDiffers (index : Z)
| LeafOpen (pack : bytes)
| LeavesMissing (pack : bytes)
| LeafTotal (written declared : Z)
| OneBound
| NoBounds (index : Z)
| AttributesUtf8
| AttributesJson
| ColumnNotString
| EmptyTableSeries
| NoFingerprint
| TableDecode (hash : bytes)
| TableWrite
| RowSum (hash : bytes)
| RowsDiffer (hash : bytes) (decoded declared : Z)
| Normalize (hash : bytes)
| LeafSchema (descriptor : Z)
| InferBounds
| RowPondMismatch
| RecordAbsent (hash : bytes)
| HeadDisagrees
| TipMismatch (tip : bytes)
| BadStateGeneration (generation : Z)
| AckIdentity
| AckNotAdvanced (generation acknowledged : Z)
| HistoryEnded
| RecordCycle (hash : bytes)
| RecordIdentity (hash : bytes)
| BoundaryMismatch (generation : Z)
| BoundaryTooEarly (generation : Z)
| BoundaryNotReached
| CommitCycle (hash : bytes)
| CommitMissing (hash : bytes)
| NoTipCommit
| ManifestDisagrees (state commit : bytes)
| DeltaDiscontinuous (node : bytes)
| SeriesKind (series : bytes)
| SeriesCycle (series : bytes)
| NoSeriesPack (series : bytes)
| PackAbsent (pack : bytes)
| PackSeries (pack : bytes)
| ParentLink (pack : bytes)
| ParentKind (series : bytes)
| ParentLeaves (series : bytes)
| LogicalOverflow
| LogicalCount (series : bytes)
| AggregateBounds (series : bytes)
| LatestAttributes (series : bytes)
| NotMerkleAppend (series : bytes)
| NotExtended (series : bytes)
| ChainIncomplete (series : bytes)
| FrontierBeyond (requested count : Z)
| ChainEnds (series : bytes)
| BaseWithoutManifest (series : bytes)
| PredecessorEnd (stop start : Z)
| NoPublicationState
| NotContinuing
| NoBoundary
| BoundaryDisagrees
| LineageLength (records delta : Z)
| NotBound (snapshot : bytes)
| HeadNotBound
| NotAdvancing
| InventoryObjects
| InventoryPacks
| InventoryChanges
| PinnedMismatch
| PinOutside (pin : bytes)
| PinIsHead (pin : bytes)
| NoRecordAt (index : Z)
| GenerationUnderflow
| RootsChanged
| CompleteGraph
| NoBoundaryCommit
| NoPriorCommit
| ExpectsNode (node : bytes)
| BaselineMismatch (node : bytes)
| AlreadyPresent (node : bytes)
| NoRootEntry
| RootTreeMismatch
| NotATree (node : bytes)
| ChildrenMismatch (node : bytes)
| Reparented (node : bytes)
| TypeChanged (node : bytes)
| SymlinkNotUtf8
| SeriesMissing (series : bytes)
| BlobMissing (hash : bytes)
| SuffixOnly (node : bytes)
| PriorManifestHash (node : bytes)
| CoverageBounds (node : bytes)
| NoFrontier (node : bytes)
| FrontierMismatch (node : bytes)
| RetainedKind (node : bytes)
| RetainedMetadata (node : bytes)
| NoPriorManifest (node : bytes)
| Diverged (node : bytes).

Abbreviation pres := (outcome pull_error).

(** An error of a decoder or a verifier, wrapped in a message. *)
Definition content {A} (m : res A) : pres A := map_err Content m.

Definition ensure (b : bool) (e : pull_error) : pres unit := if b then Ok tt else Err e.

(** [ok_or_else]. *)
Definition require {A} (o : option A) (e : pull_error) : pres A :=
  match o with Some a => Ok a | None => Err e end.

(** A loop that stops at its first error. *)
Fixpoint fold_pres {A B} (f : A -> B -> pres A) (l : list B) (a : A) : pres A :=
  match l with
  | [] => Ok a
  | x :: l => a ← f a x; fold_pres f l a
  end.

Lemma fold_pres_app {A B} (f : A -> B -> pres A) l1 l2 a : fold_pres f (l1 ++ l2) a = (a ← fold_pres f l1 a; fold_pres f l2 a).
Proof. revert a. induction l1 as [|x l1 IH]; intros a; [done|]. cbn [fold_pres app]. destruct (f a x) as [b| |]; [|done|done]. apply IH. Qed.

(** * The source *)

(** What a blob reader gives: the non-empty reads in turn, and whether they are
    followed by the end of the blob or by a failure. *)
Record BlobStream := { stream_chunks : list bytes; stream_ends : bool }.

Definition stream_bytes (s : BlobStream) : bytes := concat (stream_chunks s).

(** [trait ContentSource]: point reads whose answers the consumer does not
    trust. *)
Class ContentSource := {
  source_pond_id : bytes;
  get_publication_state : bytes -> outcome unit (option PublicationState);
  get_publication_record : bytes -> outcome unit (option PublicationRecord);
  get_publication_pack : PackDescriptor -> outcome unit (option bytes);
  get_object : bytes -> outcome unit (option bytes);
  get_objects : list bytes -> outcome unit (gmap bytes bytes);
  object_size : bytes -> outcome unit (option Z);
  has_blob : bytes -> outcome unit bool;
  get_blob_reader : bytes -> outcome unit (option BlobStream);
  get_series_pack : bytes -> outcome unit (option PackDescriptor);
  get_consolidated_series_pack : bytes -> outcome unit (option PackDescriptor);
}.

(** Pass an error of the source on. *)
Definition ask {A} (m : outcome unit A) : pres A := map_err (fun _ => SourceFailed) m.

(** ** Running out of fuel *)

Definition no_fuel {A} (m : pres A) : Prop := m <> Err OutOfFuel.

Lemma no_fuel_bind {A B} (m : pres A) (k : A -> pres B) : no_fuel m -> (forall a, m = Ok a -> no_fuel (k a)) -> no_fuel (m ≫= k).
Proof. unfold no_fuel. destruct m; cbn [mbind outcome_bind]; [intros _ Hk; by apply Hk|congruence|done]. Qed.

Lemma no_fuel_content {A} (m : res A) : no_fuel (content m).
Proof. by destruct m. Qed.
Lemma no_fuel_ask {A} (m : outcome unit A) : no_fuel (ask m).
Proof. by destruct m. Qed.
Lemma no_fuel_ensure b e : e <> OutOfFuel -> no_fuel (ensure b e).
Proof. unfold no_fuel. destruct b; simpl; congruence. Qed.
Lemma no_fuel_require {A} (o : option A) e : e <> OutOfFuel -> no_fuel (require o e).
Proof. unfold no_fuel. destruct o; simpl; congruence. Qed.
Lemma no_fuel_Ok {A} (a : A) : no_fuel (Ok a).
Proof. done. Qed.

Lemma no_fuel_ret {A} (a : A) : no_fuel (mret a).
Proof. done. Qed.

#[export] Hint Resolve no_fuel_content no_fuel_ask no_fuel_ensure no_fuel_require no_fuel_Ok no_fuel_ret : core.
#[export] Hint Extern 1 (_ <> OutOfFuel) => discriminate : core.

(** * The graph *)

Record FetchedSeriesV2 := {
  manifest_hash : bytes;
  manifest : SeriesManifest;
  packs : list (bytes * PackIndex);
  fetched_start : Z;
  fetched_leaves : list bytes;
  base_series_hash : option bytes;
  base_manifest : option SeriesManifest;
  fetched_objects : list bytes;
}.

Inductive FetchedObject :=
| FetchedTree (entries : list TreeEntry)
| FetchedBlob (b : bytes)
| FetchedExternal
| FetchedSeries (s : FetchedSeriesV2)
| FetchedManifestNode (n : ManifestMapNode).

Record FetchedGraph := {
  tip : option bytes;
  publication_state : option PublicationState;
  commits : list (bytes * Commit);
  objects : gmap bytes FetchedObject;
  trees : gmap bytes (list TreeEntry);
  series : gmap bytes FetchedSeriesV2;
  blob_hashes : gset bytes;
  fetched_bytes : gmap bytes bytes;
  external_blobs : gset bytes;
  graph_manifest : list ManifestEntry;
  graph_changes : list ManifestChange;
  manifest_complete : bool;
  publication_packs : gmap bytes (list PackDescriptor);
  publication_records : list (bytes * PublicationRecord);
  publication_boundary : option (bytes * PublicationRecord);
}.

(** [FetchedGraph::default]. *)
Definition graph_default : FetchedGraph :=
  {| tip := None; publication_state := None; commits := []; objects := ∅; trees := ∅; series := ∅; blob_hashes := ∅;
     fetched_bytes := ∅; external_blobs := ∅; graph_manifest := []; graph_changes := []; manifest_complete := false;
     publication_packs := ∅; publication_records := []; publication_boundary := None |}.

Definition graph_root_tree_hash (g : FetchedGraph) : option bytes := (fun c => root_tree_hash c.2) <$> head (commits g).

(** [entry(hash).or_insert(o)]. *)
Definition or_insert {A} (h : bytes) (a : A) (m : gmap bytes A) : gmap bytes A :=
  match m !! h with Some _ => m | None => <[h := a]> m end.

Definition add_tree (h : bytes) (entries : list TreeEntry) (b : bytes) (g : FetchedGraph) : FetchedGraph :=
  {| tip := tip g; publication_state := publication_state g; commits := commits g;
     objects := or_insert h (FetchedTree entries) (objects g); trees := <[h := entries]> (trees g); series := series g;
     blob_hashes := blob_hashes g; fetched_bytes := <[h := b]> (fetched_bytes g); external_blobs := external_blobs g;
     graph_manifest := graph_manifest g; graph_changes := graph_changes g; manifest_complete := manifest_complete g;
     publication_packs := publication_packs g; publication_records := publication_records g;
     publication_boundary := publication_boundary g |}.

Definition add_series (h : bytes) (s : FetchedSeriesV2) (b : bytes) (g : FetchedGraph) : FetchedGraph :=
  {| tip := tip g; publication_state := publication_state g; commits := commits g;
     objects := or_insert h (FetchedSeries s) (objects g); trees := trees g; series := <[h := s]> (series g);
     blob_hashes := blob_hashes g; fetched_bytes := <[h := b]> (fetched_bytes g); external_blobs := external_blobs g;
     graph_manifest := graph_manifest g; graph_changes := graph_changes g; manifest_complete := manifest_complete g;
     publication_packs := publication_packs g; publication_records := publication_records g;
     publication_boundary := publication_boundary g |}.

Definition add_external (h : bytes) (g : FetchedGraph) : FetchedGraph :=
  {| tip := tip g; publication_state := publication_state g; commits := commits g;
     objects := or_insert h FetchedExternal (objects g); trees := trees g; series := series g;
     blob_hashes := {[h]} ∪ blob_hashes g; fetched_bytes := fetched_bytes g; external_blobs := {[h]} ∪ external_blobs g;
     graph_manifest := graph_manifest g; graph_changes := graph_changes g; manifest_complete := manifest_complete g;
     publication_packs := publication_packs g; publication_records := publication_records g;
     publication_boundary := publication_boundary g |}.

Definition add_blob (h b : bytes) (g : FetchedGraph) : FetchedGraph :=
  {| tip := tip g; publication_state := publication_state g; commits := commits g;
     objects := or_insert h (FetchedBlob b) (objects g); trees := trees g; series := series g;
     blob_hashes := {[h]} ∪ blob_hashes g; fetched_bytes := <[h := b]> (fetched_bytes g); external_blobs := external_blobs g;
     graph_manifest := graph_manifest g; graph_changes := graph_changes g; manifest_complete := manifest_complete g;
     publication_packs := publication_packs g; publication_records := publication_records g;
     publication_boundary := publication_boundary g |}.

Definition add_map_node (h : bytes) (n : ManifestMapNode) (b : bytes) (g : FetchedGraph) : FetchedGraph :=
  {| tip := tip g; publication_state := publication_state g; commits := commits g;
     objects := or_insert h (FetchedManifestNode n) (objects g); trees := trees g; series := series g;
     blob_hashes := blob_hashes g; fetched_bytes := <[h := b]> (fetched_bytes g); external_blobs := external_blobs g;
     graph_manifest := graph_manifest g; graph_changes := graph_changes g; manifest_complete := manifest_complete g;
     publication_packs := publication_packs g; publication_records := publication_records g;
     publication_boundary := publication_boundary g |}.

Definition with_manifest (entries : list ManifestEntry) (changes : list ManifestChange) (complete : bool)
    (g : FetchedGraph) : FetchedGraph :=
  {| tip := tip g; publication_state := publication_state g; commits := commits g; objects := objects g; trees := trees g;
     series := series g; blob_hashes := blob_hashes g; fetched_bytes := fetched_bytes g; external_blobs := external_blobs g;
     graph_manifest := entries; graph_changes := changes; manifest_complete := complete;
     publication_packs := publication_packs g; publication_records := publication_records g;
     publication_boundary := publication_boundary g |}.

(** The fields that make up the publication window. *)
Definition with_window (cs : list (bytes * Commit)) (packs : gmap bytes (list PackDescriptor))
    (records : list (bytes * PublicationRecord)) (boundary : option (bytes * PublicationRecord)) (g : FetchedGraph) : FetchedGraph :=
  {| tip := tip g; publication_state := publication_state g; commits := cs; objects := objects g; trees := trees g;
     series := series g; blob_hashes := blob_hashes g; fetched_bytes := fetched_bytes g; external_blobs := external_blobs g;
     graph_manifest := graph_manifest g; graph_changes := graph_changes g; manifest_complete := manifest_complete g;
     publication_packs := packs; publication_records := records; publication_boundary := boundary |}.

(** * Verified reads *)

(** [tlogfs::large_files::LARGE_FILE_THRESHOLD]. *)
Definition LARGE_FILE_THRESHOLD : Z := 64 * 1024.

Section Reads.
Context `{Blake3} `{ContentSource}.

(** The bytes must hash to the key. *)
Definition verify (hash b : bytes) : pres unit :=
  ensure (bool_decide (of_bytes b = hash)) (HashMismatch (of_bytes b) hash).

Definition fetch_verified (hash : bytes) : pres bytes :=
  found ← ask (get_object hash);
  b ← require found (ObjectAbsent hash);
  _ ← verify hash b;
  mret b.

Definition fetch_blob (hash : bytes) (require_buffered : bool) (g : FetchedGraph) : pres FetchedGraph :=
  if bool_decide (hash ∈ blob_hashes g) && (negb require_buffered || bool_decide (is_Some (fetched_bytes g !! hash)))
  then Ok g else
  large ← (if require_buffered then Ok false
           else size ← ask (object_size hash); mret (match size with Some n => LARGE_FILE_THRESHOLD <=? n | None => false end));
  if (large : bool) then Ok (add_external hash g) else
  found ← ask (get_object hash);
  match found with
  | Some b => _ ← verify hash b; mret (add_blob hash b g)
  | None =>
      present ← ask (has_blob hash);
      if negb present then Err (ObjectAbsent hash) else
      if require_buffered then Err (NotBuffered hash) else
      Ok (add_external hash g)
  end.

Lemma ask_Ok {A} (m : outcome unit A) a : ask m = Ok a <-> m = Ok a.
Proof. destruct m; simpl; split; congruence. Qed.

Lemma fetch_verified_Ok hash b : fetch_verified hash = Ok b -> get_object hash = Ok (Some b) /\ of_bytes b = hash.
Proof.
  unfold fetch_verified. intros (found & Hg%ask_Ok & Hf)%bind_Ok. apply bind_Ok in Hf as (b' & Hb & Hf).
  destruct found; [|done]. apply Ok_inj in Hb as ->. apply bind_Ok in Hf as ([] & Hv & Hf). apply Ok_inj in Hf as ->.
  unfold verify, ensure in Hv. by case_bool_decide.
Qed.
End Reads.
