(* ===== verification/PullChain.v ===== *)
(** The lineage a consumer walks before it fetches anything else,
    [crates/steward/src/content_pull.rs]: the publication head, the chain of
    publication records back to a durable boundary, and the commits of the
    window. *)

From stdpp Require Import base list gmap numbers strings options.
From Stdlib Require Import ZArith Lia.
From S2P Require Import Prelude RustStd EntryType Wire Tree Manifest PatriciaMap Commit SeriesMerkle SeriesManifest SeriesPack Publication PullGraph.

Open Scope Z_scope.

Inductive PublicationBoundary :=
| NoKnown
| Snapshot (tip : bytes)
| Acknowledged (state : PublicationState).

(** [PublicationBoundary::snapshot_tip]. *)
Definition boundary_tip (b : PublicationBoundary) : option bytes :=
  match b with NoKnown => None | Snapshot t => Some t | Acknowledged s => Some (Publication.snapshot_tip s) end.

Record PublicationWindow := {
  window_records : list (bytes * PublicationRecord);
  window_boundary : option (bytes * PublicationRecord);
}.

Section Chain.
Context `{Blake3} `{ContentSource}.

(** The identity check of a record served for [hash] under an active row. *)
Definition record_identity (s : PublicationState) (hash rh : bytes) (r : PublicationRecord) : bool :=
  bool_decide (rh = hash /\ pub_pond_id r = ps_pond_id s /\ Commit.ref_name r = ps_ref_name s /\ pub_format r = ps_format s).

(** The record is the one the active row names as its content. *)
Definition record_heads (s : PublicationState) (r : PublicationRecord) : bool :=
  bool_decide (Commit.snapshot_tip r = Publication.snapshot_tip s /\ pub_manifest_root r = ps_manifest_root s).

Definition authenticated_publication_head_commit (s : PublicationState) : pres Commit :=
  _ ← ensure (bool_decide (source_pond_id = ps_pond_id s)) RowPondMismatch;
  found ← ask (get_publication_record (publication_record s));
  r ← require found (RecordAbsent (publication_record s));
  rh ← content (publication_hash r);
  _ ← ensure (record_identity s (publication_record s) rh r && record_heads s r) HeadDisagrees;
  b ← fetch_verified (Publication.snapshot_tip s);
  c ← content (commit_decode b);
  ch ← content (commit_hash c);
  _ ← ensure (bool_decide (ch = Publication.snapshot_tip s /\ manifest_root c = ps_manifest_root s)) (TipMismatch (Publication.snapshot_tip s));
  mret c.

Definition authenticate_publication_head (s : PublicationState) : pres unit :=
  _ ← authenticated_publication_head_commit s;
  mret tt.

(** The checks before any record is read. *)
Definition check_boundary (s : PublicationState) (b : PublicationBoundary) : pres unit :=
  _ ← ensure (0 <? generation s) (BadStateGeneration (generation s));
  match b with
  | Acknowledged a =>
      _ ← ensure (bool_decide (ps_pond_id s = ps_pond_id a /\ ps_ref_name s = ps_ref_name a /\ ps_format s = ps_format a)) AckIdentity;
      ensure ((0 <? generation a) && (generation a <? generation s)) (AckNotAdvanced (generation s) (generation a))
  | _ => Ok tt
  end.

(** How many records may be read; both generations are positive [i64]s here, so
    the checked conversions succeed. *)
Definition max_reads (s : PublicationState) (b : PublicationBoundary) : nat :=
  match b with
  | NoKnown => 1
  | Snapshot _ => Z.to_nat (generation s)
  | Acknowledged a => Z.to_nat (generation s - generation a + 1)
  end.

(** [for read_index in 0..max_reads]. *)
Fixpoint read_chain (reads : nat) (s : PublicationState) (b : PublicationBoundary) (next : option bytes) (seen : gset bytes)
    (records : list (bytes * PublicationRecord)) : pres PublicationWindow :=
  match reads with
  | O => Err BoundaryNotReached
  | S reads =>
      hash ← require next HistoryEnded;
      _ ← ensure (bool_decide (hash ∉ seen)) (RecordCycle hash);
      found ← ask (get_publication_record hash);
      r ← require found (RecordAbsent hash);
      rh ← content (publication_hash r);
      _ ← ensure (record_identity s hash rh r) (RecordIdentity hash);
      _ ← ensure (negb (bool_decide (records = [])) || record_heads s r) HeadDisagrees;
      let continue := read_chain reads s b (parent_publication_record r) ({[hash]} ∪ seen) (records ++ [(hash, r)]) in
      match b with
      | NoKnown => Ok {| window_records := records ++ [(hash, r)]; window_boundary := None |}
      | Snapshot known =>
          if bool_decide (Commit.snapshot_tip r = known)
          then Ok {| window_records := records; window_boundary := Some (hash, r) |}
          else continue
      | Acknowledged a =>
          if bool_decide (reads = O) then
            _ ← ensure (bool_decide (hash = publication_record a) && record_heads a r) (BoundaryMismatch (generation a));
            Ok {| window_records := records; window_boundary := Some (hash, r) |}
          else
            _ ← ensure (bool_decide (hash <> publication_record a /\ Commit.snapshot_tip r <> Publication.snapshot_tip a))
                  (BoundaryTooEarly (generation a));
            continue
      end
  end.

Definition fetch_publication_chain (s : PublicationState) (b : PublicationBoundary) : pres PublicationWindow :=
  _ ← check_boundary s b;
  read_chain (max_reads s b) s b (Some (publication_record s)) ∅ [].

(** The bytes of commit [hash]: prefetched, or read when it is the boundary or the
    only commit asked for. *)
Definition commit_bytes_at (known : option bytes) (first : bool) (hash : bytes) (fetched : gmap bytes bytes) : pres bytes :=
  match fetched !! hash with
  | Some b => Ok b
  | None =>
      if bool_decide (Some hash = known) || (bool_decide (known = None) && first)
      then found ← ask (get_object hash); require found (ObjectAbsent hash)
      else Err (CommitMissing hash)
  end.

(** [while let Some(hash) = next]. *)
Fixpoint walk_commits (fuel : nat) (known next : option bytes) (seen : gset bytes) (fetched : gmap bytes bytes)
    (acc : list (bytes * Commit)) : pres (list (bytes * Commit)) :=
  match fuel with
  | O => Err OutOfFuel
  | S fuel =>
      match next with
      | None => Ok acc
      | Some hash =>
          _ ← ensure (bool_decide (hash ∉ seen)) (CommitCycle hash);
          b ← commit_bytes_at known (bool_decide (acc = [])) hash fetched;
          _ ← verify hash b;
          c ← content (commit_decode b);
          if bool_decide (Some hash = known \/ known = None) then Ok (acc ++ [(hash, c)])
          else walk_commits fuel known (parent_commit_hash c) ({[hash]} ∪ seen) (delete hash fetched) (acc ++ [(hash, c)])
      end
  end.

Definition walk_bounded_commit_delta (tip : bytes) (known : option bytes) (fetched : gmap bytes bytes) : pres (list (bytes * Commit)) :=
  walk_commits (size fetched + 2) known (Some tip) ∅ fetched [].
End Chain.

(** * What a returned window is *)

Lemma ensure_Ok (b : bool) (e : pull_error) u : ensure b e = Ok u <-> b = true.
Proof. destruct b, u; by split. Qed.

(** Step past a check that holds. *)
Lemma ensure_bind {A} (b : bool) e (k : unit -> pres A) : b = true -> ensure b e ≫= k = k tt.
Proof. by intros ->. Qed.

Lemma require_Ok {A} (o : option A) e a : require o e = Ok a <-> o = Some a.
Proof. destruct o; simpl; split; congruence. Qed.

Lemma pull_content_Ok {A} (m : res A) a : content m = Ok a <-> m = Ok a.
Proof. destruct m; simpl; split; congruence. Qed.

(** Take a hypothesis [m = Ok x] of the pull code apart into its steps. *)
Ltac inv_pull :=
  repeat match goal with
  | H : ensure _ _ = Ok _ |- _ => apply ensure_Ok in H
  | H : require _ _ = Ok _ |- _ => apply require_Ok in H
  | H : content _ = Ok _ |- _ => apply pull_content_Ok in H
  | H : ask _ = Ok _ |- _ => apply ask_Ok in H
  | H : verify _ _ = Ok _ |- _ => unfold verify in H
  | H : bool_decide _ = true |- _ => apply bool_decide_eq_true in H
  | H : _ && _ = true |- _ => apply andb_true_iff in H as [? ?]
  | H : _ /\ _ |- _ => destruct H
  | H : unit |- _ => destruct H
  | H : (_, _) = (_, _) |- _ => injection H; clear H; intros; subst
  | H : ?x = Some _ |- _ => is_var x; subst x
  | _ => progress inv_ok
  end.

(** Parent-linked records, newest first, the first of them [next]. *)
Fixpoint linked {A} (parent : A -> option bytes) (next : option bytes) (rs : list (bytes * A)) : Prop :=
  match rs with
  | [] => True
  | (h, r) :: rs => next = Some h /\ linked parent (parent r) rs
  end.

Section ChainSpec.
Context `{Blake3} `{ContentSource}.
#[local] Set Default Proof Using "Type*".

(** The source serves the record under its own hash, with the row's identity. *)
Definition served (s : PublicationState) (x : bytes * PublicationRecord) : Prop :=
  get_publication_record x.1 = Ok (Some x.2) /\ publication_hash x.2 = Ok x.1 /\ pub_pond_id x.2 = ps_pond_id s
  /\ Commit.ref_name x.2 = ps_ref_name s /\ pub_format x.2 = ps_format s.

(** An accepted window back to the acknowledgement [a]. *)
Record acknowledged_window (s a : PublicationState) (next : option bytes) (seen : gset bytes) (first : bool)
    (rs : list (bytes * PublicationRecord)) (b : PublicationRecord) : Prop := {
  aw_linked : linked parent_publication_record next (rs ++ [(publication_record a, b)]);
  aw_served : Forall (served s) (rs ++ [(publication_record a, b)]);
  aw_fresh : NoDup ((rs ++ [(publication_record a, b)]).*1) /\ Forall (fun h => h ∉ seen) ((rs ++ [(publication_record a, b)]).*1);
  aw_head : first = true -> forall x, head (rs ++ [(publication_record a, b)]) = Some x -> record_heads s x.2 = true;
  aw_newer : Forall (fun x => Commit.snapshot_tip x.2 <> Publication.snapshot_tip a) rs;
  aw_boundary : record_heads a b = true;
}.

Lemma identity_served s h rh r :
  get_publication_record h = Ok (Some r) -> publication_hash r = Ok rh -> record_identity s h rh r = true <-> served s (h, r) /\ rh = h.
Proof. intros E Eh. unfold record_identity, served. rewrite bool_decide_eq_true. simpl. split; [intros (-> & ? & ? & ?); by split_and!|]. by intros [(? & ? & ? & ? & ?) ->]. Qed.

Lemma aw_cons s a h r seen (first : bool) rs b :
  served s (h, r) -> h ∉ seen -> (first = true -> record_heads s r = true) -> Commit.snapshot_tip r <> Publication.snapshot_tip a ->
  h <> publication_record a ->
  acknowledged_window s a (parent_publication_record r) ({[h]} ∪ seen) false rs b -> acknowledged_window s a (Some h) seen first ((h, r) :: rs) b.
Proof.
  intros Hs Hh Hf Ht Hne [Hl Hse [Hn Hfr] _ Hnw Hb]. split; cbn [app fmap list_fmap fst]; try done.
  - by constructor.
  - rewrite Forall_forall in Hfr. split.
    + apply NoDup_cons. split; [|done]. intros Hin. specialize (Hfr _ Hin). set_solver.
    + constructor; [done|]. apply Forall_forall. intros x Hx. specialize (Hfr _ Hx). set_solver.
  - intros E x Hx. simpl in Hx. injection Hx as <-. by apply Hf.
  - by constructor.
Qed.

Lemma aw_cons_inv s a next seen (first : bool) h r rs b :
  acknowledged_window s a next seen first ((h, r) :: rs) b ->
  next = Some h /\ served s (h, r) /\ (h ∉ seen) /\ (first = true -> record_heads s r = true) /\ h <> publication_record a
  /\ Commit.snapshot_tip r <> Publication.snapshot_tip a
  /\ acknowledged_window s a (parent_publication_record r) ({[h]} ∪ seen) false rs b.
Proof.
  intros [Hl Hse [Hn Hfr] Hh Hnw Hb]. cbn [app fmap list_fmap fst linked] in *. destruct Hl as [-> Hl].
  apply Forall_cons in Hse as [Hs Hse]. apply NoDup_cons in Hn as [Hi Hn]. apply Forall_cons in Hfr as [Hf1 Hfr]. apply Forall_cons in Hnw as [Ht Hnw].
  assert (Hne : h <> publication_record a) by (intros ->; apply Hi; rewrite fmap_app; set_solver).
  split_and!; try done; [intros E; by apply (Hh E (h, r))|]. split; try done.
  split; [done|]. rewrite Forall_forall in *. intros x Hx. specialize (Hfr _ Hx). assert (x <> h) by (by intros ->). set_solver.
Qed.

(** One read of the loop, up to the boundary test. *)
Lemma served_step {A : Type} (s : PublicationState) (h : bytes) (r : PublicationRecord) (seen : gset bytes) (first : bool) (e : pull_error) (k : bytes -> PublicationRecord -> pres A) :
  served s (h, r) -> h ∉ seen -> (first = true -> record_heads s r = true) ->
  (h ← require (Some h) e;
   _ ← ensure (bool_decide (h ∉ seen)) (RecordCycle h);
   found ← ask (get_publication_record h);
   r ← require found (RecordAbsent h);
   rh ← content (publication_hash r);
   _ ← ensure (record_identity s h rh r) (RecordIdentity h);
   _ ← ensure (negb first || record_heads s r) HeadDisagrees;
   k h r) = k h r.
Proof.
  intros Hs Hf Hh. pose proof Hs as (Hg & Hp & _). cbn [fst snd] in *. rewrite (bind_eq _ _ h) by done.
  rewrite ensure_bind by (by apply bool_decide_eq_true). rewrite (bind_eq _ _ (Some r)) by (by rewrite Hg). rewrite (bind_eq _ _ r) by done.
  rewrite (bind_eq _ _ h) by (by rewrite Hp). rewrite ensure_bind by (by apply (identity_served _ _ _ _ Hg Hp)).
  apply ensure_bind. destruct first; [|done]. by apply Hh.
Qed.

Lemma read_chain_ack reads s a next seen acc w :
  read_chain reads s (Acknowledged a) next seen acc = Ok w <->
  exists rs b, w = {| window_records := acc ++ rs; window_boundary := Some (publication_record a, b) |}
    /\ reads = S (length rs) /\ acknowledged_window s a next seen (bool_decide (acc = [])) rs b.
Proof.
  revert next seen acc. induction reads as [|reads IH]; intros next seen acc; [split; [done|by intros (? & ? & _ & ? & _)]|].
  cbn [read_chain]. split.
  - intros E. inv_pull. match goal with Hg' : get_publication_record ?x = Ok (Some ?y) |- _ => rename x into h, y into r, Hg' into Hg end.
    match goal with Hr : record_identity _ _ _ _ = true |- _ => apply (identity_served _ _ _ _ Hg) in Hr as [Hsv ->]; [|done] end.
    assert (Hhead : bool_decide (acc = []) = true -> record_heads s r = true).
    { match goal with Hd : negb _ || _ = true |- _ => intros Ea; by rewrite Ea in Hd end. }
    destruct (decide (reads = 0%nat)) as [E0|E0]; [rewrite bool_decide_true in E by done|rewrite bool_decide_false in E by done].
    + inv_pull. subst. exists [], r. rewrite app_nil_r. split_and!; [done..|]. split; cbn [app fmap list_fmap fst]; try done.
      * by constructor.
      * split; [apply NoDup_singleton|by repeat constructor].
      * intros Ea x Hx. simpl in Hx. injection Hx as <-. by apply Hhead.
    + inv_pull. apply IH in E as (rs & b & -> & -> & Hw). exists ((h, r) :: rs), b. rewrite <- app_assoc. split_and!; [done..|].
      apply aw_cons; try done. by destruct acc.
  - intros ([|[h r] rs] & b & -> & El & Hw).
    + injection El as ->. destruct Hw as [Hl Hse [_ Hfr] Hh _ Hb]. cbn [app fmap list_fmap fst linked] in *. destruct Hl as [-> _].
      apply Forall_cons in Hse as [Hs _]. apply Forall_cons in Hfr as [Hf _].
      rewrite (served_step _ _ _ _ _ _ _ Hs Hf) by (intros Ea; exact (Hh Ea _ eq_refl)).
      rewrite (bool_decide_true (_ = 0%nat)) by done. rewrite ensure_bind by (rewrite Hb; by rewrite bool_decide_true). by rewrite app_nil_r.
    + injection El as ->. apply aw_cons_inv in Hw as (-> & Hs & Hf & Hh & Hne & Ht & Hw).
      rewrite (served_step _ _ _ _ _ _ _ Hs Hf Hh).
      rewrite (bool_decide_false (_ = 0%nat)) by (cbn [length]; lia). rewrite ensure_bind by (by apply bool_decide_eq_true).
      apply IH. exists rs, b. rewrite <- app_assoc. split_and!; [done..|]. by rewrite bool_decide_false by (by destruct acc).
Qed.


Lemma chain_window s a w :
  fetch_publication_chain s (Acknowledged a) = Ok w <->
  (0 < generation a < generation s /\ ps_pond_id s = ps_pond_id a /\ ps_ref_name s = ps_ref_name a /\ ps_format s = ps_format a)
  /\ exists rs b, w = {| window_records := rs; window_boundary := Some (publication_record a, b) |}
       /\ Z.of_nat (length rs) = generation s - generation a
       /\ acknowledged_window s a (Some (publication_record s)) ∅ true rs b.
Proof.
  unfold fetch_publication_chain, check_boundary, max_reads. split.
  - intros E. inv_pull. apply read_chain_ack in E as (rs & b & -> & El & Hw). rewrite !Z.ltb_lt in *. split; [split_and!; done|].
    exists rs, b. split_and!; [done|lia|done].
  - intros [(? & ? & ? & ?) (rs & b & -> & El & Hw)]. rewrite (bind_eq _ _ tt).
    + apply read_chain_ack. exists rs, b. split_and!; [done|lia|done].
    + rewrite ensure_bind by (apply Z.ltb_lt; lia). rewrite ensure_bind by (by apply bool_decide_eq_true).
      apply ensure_Ok. rewrite andb_true_iff, !Z.ltb_lt. lia.
Qed.

(** ** Commits *)

(** A fetched commit: canonical, under its own hash. *)
Definition addressed (x : bytes * Commit) : Prop := commit_hash x.2 = Ok x.1 /\ wf_commit x.2 = true /\ valid_commit x.2.

(** The window of commits from [next]: linked, each once, up to the boundary or a
    commit without a parent. *)
Record commit_window (known next : option bytes) (seen : gset bytes) (cs : list (bytes * Commit)) : Prop := {
  cw_linked : linked parent_commit_hash next cs;
  cw_addressed : Forall addressed cs;
  cw_fresh : NoDup (cs.*1) /\ Forall (fun h => h ∉ seen) (cs.*1);
  cw_end : match last cs with
           | Some (h, c) => Some h = known \/ known = None \/ parent_commit_hash c = None
           | None => next = None
           end;
  cw_inner : forall i x y, cs !! i = Some x -> cs !! S i = Some y -> Some x.1 <> known /\ known <> None;
}.

Lemma decoded_addressed h b c : of_bytes b = h -> commit_decode b = Ok c -> addressed (h, c).
Proof. intros <- (Hw & Hv & He)%commit_decode_inv. split; [|done]. simpl. unfold commit_hash. by rewrite He. Qed.

Lemma walk_commits_Ok (fuel : nat) known next seen fetched acc cs :
  walk_commits fuel known next seen fetched acc = Ok cs -> exists new, cs = acc ++ new /\ commit_window known next seen new.
Proof.
  revert next seen fetched acc. induction fuel as [|fuel IH]; intros next seen fetched acc; [done|]. cbn [walk_commits].
  destruct next as [h|].
  2: { intros E. inv_pull. exists []. rewrite app_nil_r. split; [done|]. split; try done. split; constructor. }
  intros E. inv_pull. match goal with Hd : commit_decode ?b' = Ok ?c', Ho : of_bytes ?b' = _ |- _ => rename c' into c; pose proof (decoded_addressed _ _ _ Ho Hd) as Ha end.
  destruct (decide (Some h = known \/ known = None)) as [Ek|Ek]; [rewrite bool_decide_true in E by done|rewrite bool_decide_false in E by done].
  - apply Ok_inj in E as <-. exists [(h, c)]. split; [done|]. split; [done|by apply Forall_cons|split; [apply NoDup_singleton|by apply Forall_cons]|simpl; tauto|].
    intros [|i] x y; simpl; [intros _|rewrite lookup_nil]; done.
  - apply IH in E as (new & -> & [Hl Had [Hn Hf] He Hi]). exists ((h, c) :: new). rewrite <- app_assoc. split; [done|]. rewrite Forall_forall in Hf. split.
    + done.
    + by constructor.
    + cbn [fmap list_fmap fst]. split; [apply NoDup_cons; split; [|done]; intros Hin; specialize (Hf _ Hin); set_solver|].
      apply Forall_cons. split; [done|]. apply Forall_forall. intros z Hz. specialize (Hf _ Hz). set_solver.
    + rewrite last_cons. by destruct (last new) as [[? ?]|]; [|right; right].
    + intros [|i] x y; cbn [lookup list_lookup]; [|by apply Hi]. intros [= <-] _. simpl. tauto.
Qed.

(** Every further step takes a commit out of the prefetched ones. *)
Lemma walk_commits_fuel (fuel : nat) known next seen fetched acc :
  (size fetched < fuel)%nat -> walk_commits fuel known next seen fetched acc <> Err OutOfFuel.
Proof.
  revert next seen fetched acc. induction fuel as [|fuel IH]; intros next seen fetched acc Hs; [lia|]. cbn [walk_commits].
  destruct next as [h|]; [|done]. destruct (bool_decide (h ∉ seen)); cbn [ensure mbind outcome_bind]; [|done]. unfold commit_bytes_at, verify.
  destruct (fetched !! h) as [b|] eqn:Eb.
  - cbn [mbind outcome_bind]. destruct (bool_decide (of_bytes b = h)); cbn [ensure mbind outcome_bind]; [|done].
    destruct (commit_decode b) as [c|e|]; cbn [content map_err mbind outcome_bind]; [|done|done].
    case_bool_decide; [done|]. apply IH. assert (size (delete h fetched) = pred (size fetched)) as -> by (apply map_size_delete_Some; by exists b).
    assert (size fetched <> 0%nat) by (intros E%map_size_empty_inv; subst; by rewrite lookup_empty in Eb). lia.
  - destruct (bool_decide (Some h = known) || (bool_decide (known = None) && bool_decide (acc = []))) eqn:Ek; [|done].
    destruct (get_object h) as [[b|]|e|] eqn:Eo; cbn [ask map_err require mbind outcome_bind]; try done.
    destruct (bool_decide (of_bytes b = h)); cbn [ensure mbind outcome_bind]; [|done]. destruct (commit_decode b) as [c|e|]; cbn [content map_err mbind outcome_bind]; [|done|done].
    rewrite bool_decide_true; [done|]. apply orb_true_iff in Ek as [Ek|[Ek _]%andb_true_iff]; apply bool_decide_eq_true in Ek; tauto.
Qed.

(** C10: Reading the chain of publication records back to an acknowledged state
    succeeds exactly when the source serves, under their own hashes, the distinct
    records linked from the head to the acknowledged record, one for each
    generation in between, all of the same pond, reference and format, the first
    agreeing with the head, the last with the acknowledgement, and none of the
    newer ones with the acknowledged tip; and it returns exactly those records. *)
Theorem acknowledged_chain_exact (s a : PublicationState) (w : PublicationWindow) :
  fetch_publication_chain s (Acknowledged a) = Ok w <->
  (0 < generation a < generation s /\ ps_pond_id s = ps_pond_id a /\ ps_ref_name s = ps_ref_name a /\ ps_format s = ps_format a)
  /\ exists rs b, w = {| window_records := rs; window_boundary := Some (publication_record a, b) |}
       /\ Z.of_nat (length rs) = generation s - generation a
       /\ acknowledged_window s a (Some (publication_record s)) ∅ true rs b.
Proof. apply chain_window. Qed.

(** The walk of the commits ends whatever the source answers, and what it returns
    is the chain of commits from the tip: each is the preimage of the hash it is
    held under, each names the next as its parent, none repeats, and the chain
    stops at the known tip, at the tip itself when nothing is known, or at a
    commit without a parent. *)
Theorem commit_walk (tip : bytes) (known : option bytes) (fetched : gmap bytes bytes) :
  match walk_bounded_commit_delta tip known fetched with
  | Ok cs => commit_window known (Some tip) ∅ cs
  | Err e => e <> OutOfFuel
  | Panic => True
  end.
Proof.
  unfold walk_bounded_commit_delta. destruct (walk_commits _ _ _ _ _ _) as [cs|e|] eqn:E; [|intros ->|done].
  - by apply walk_commits_Ok in E as (new & -> & Hw).
  - apply walk_commits_fuel in E; [done|lia].
Qed.
End ChainSpec.
