(* ===== verification/PullWindow.v ===== *)
(** The publication window of an incremental pull,
    [crates/steward/src/content_pull.rs]: its authentication against a durable
    acknowledgement, the net changes of the window, and its narrowing when a
    prefix of it was already applied. *)

From stdpp Require Import base list gmap numbers strings sorting options.
From Stdlib Require Import ZArith Lia.
From S2P Require Import Prelude RustStd EntryType Wire Tree Manifest PatriciaMap Commit SeriesMerkle SeriesManifest SeriesPack Publication PullGraph PullChain.

Open Scope Z_scope.

(** * Deltas *)

(** A [BTreeMap] read in key order. *)
Definition ordered {A} (m : gmap bytes A) : list (bytes * A) := sort_by (cmp_on fst bytes_cmp) (map_to_list m).

(** The loop body of [squash_publication_changes]. *)
Definition squash_change (acc : gmap bytes ManifestChange) (c : ManifestChange) : pres (gmap bytes ManifestChange) :=
  let id := change_node_id c in
  match acc !! id with
  | Some e => if bool_decide (after e = before c) then Ok (<[id := {| before := before e; after := after c |}]> acc)
              else Err (DeltaDiscontinuous id)
  | None => Ok (<[id := c]> acc)
  end.

Definition squash_publication_changes (records : list (bytes * PublicationRecord)) : pres (list ManifestChange) :=
  acc ← fold_pres squash_change (concat (map (fun x => pub_changes x.2) (rev records))) ∅;
  mret (filter (fun c => before c <> after c) (map snd (ordered acc))).

(** [BTreeSet]s as their elements in order. *)
Record AuthenticatedPublicationDelta := {
  delta_objects : list ObjectDescriptor;
  delta_packs : list PackDescriptor;
  delta_changes : gmap bytes ManifestChange;
}.

(** The inner loop of [publication_delta_from_commits]: a change that returns to
    the first state is forgotten. *)
Definition net_change (acc : gmap bytes ManifestChange) (c : ManifestChange) : pres (gmap bytes ManifestChange) :=
  let id := change_node_id c in
  match acc !! id with
  | Some e =>
      if bool_decide (after e = before c) then
        Ok (if bool_decide (before e = after c) then delete id acc else <[id := {| before := before e; after := after c |}]> acc)
      else Err (DeltaDiscontinuous id)
  | None => Ok (<[id := c]> acc)
  end.

(** [entry(series_hash).or_default().push(descriptor)]. *)
Definition push_pack (m : gmap bytes (list PackDescriptor)) (d : PackDescriptor) : gmap bytes (list PackDescriptor) :=
  <[Commit.series_hash d := default [] (m !! Commit.series_hash d) ++ [d]]> m.

Definition group_packs (ds : list PackDescriptor) : gmap bytes (list PackDescriptor) :=
  sorted_packs <$> fold_left push_pack ds ∅.

Section Window.
Context `{Blake3}.

Definition commit_delta (d : AuthenticatedPublicationDelta) (c : Commit) : pres AuthenticatedPublicationDelta :=
  h ← content (commit_hash c);
  changes ← fold_pres net_change (manifest_changes c) (delta_changes d);
  mret {| delta_objects := sorted_objects ({| obj_hash := h; obj_kind := CommitObject |} :: introduced_objects c ++ delta_objects d);
          delta_packs := sorted_packs (introduced_packs c ++ delta_packs d);
          delta_changes := changes |}.

(** Oldest commit first. *)
Definition publication_delta_from_commits (cs : list Commit) : pres AuthenticatedPublicationDelta :=
  fold_pres commit_delta cs {| delta_objects := []; delta_packs := []; delta_changes := ∅ |}.

Definition require_record_matches_commit_delta (r : PublicationRecord) (d : AuthenticatedPublicationDelta) : pres unit :=
  _ ← ensure (bool_decide (sorted_objects (pub_objects r) = delta_objects d)) InventoryObjects;
  _ ← ensure (bool_decide (sorted_packs (pub_packs r) = delta_packs d)) InventoryPacks;
  ensure (bool_decide (fold_left (fun m c => <[change_node_id c := c]> m) (pub_changes r) ∅ = delta_changes d)) InventoryChanges.

(** * Authentication *)

(** The commit a record publishes. *)
Definition binds (r : PublicationRecord) (x : bytes * Commit) : Prop :=
  x.1 = Commit.snapshot_tip r /\ manifest_root x.2 = pub_manifest_root r.

#[global] Instance binds_dec r x : Decision (binds r x).
Proof. unfold binds. apply _. Defined.

(** [position]. *)
Definition position {A} (P : A -> Prop) `{!forall x, Decision (P x)} (l : list A) : option nat := fst <$> list_find P l.

(** The commit index of each record, each searched after the one before. *)
Fixpoint bind_records (cs : list (bytes * Commit)) (prior : nat) (rs : list PublicationRecord) : pres (list nat) :=
  match rs with
  | [] => Ok []
  | r :: rs =>
      relative ← require (position (binds r) (drop prior cs)) (NotBound (Commit.snapshot_tip r));
      rest ← bind_records cs (S (prior + relative)) rs;
      mret ((prior + relative)%nat :: rest)
  end.

(** Each record against the commits between its own and the next. *)
Fixpoint check_deltas (cs : list (bytes * Commit)) (rs : list PublicationRecord) (indexes : list nat) : pres unit :=
  match rs, indexes with
  | [], _ => Ok tt
  | r :: rs, start :: ((parent :: _) as indexes) =>
      _ ← ensure (start <? parent)%nat NotAdvancing;
      expected ← publication_delta_from_commits (rev (map snd (take (parent - start) (drop start cs))));
      _ ← require_record_matches_commit_delta r expected;
      check_deltas cs rs indexes
  | _, _ => Panic
  end.

(** The boundary record is the acknowledged one. *)
Definition boundary_matches (a : PublicationState) (bh : bytes) (b : PublicationRecord) : bool :=
  bool_decide (bh = publication_record a /\ Commit.snapshot_tip b = Publication.snapshot_tip a /\ pub_manifest_root b = ps_manifest_root a
               /\ pub_pond_id b = ps_pond_id a /\ Commit.ref_name b = ps_ref_name a).

Definition authenticate_publication_window (g : FetchedGraph) (a : PublicationState) : pres unit :=
  current ← require (publication_state g) NoPublicationState;
  _ ← ensure (bool_decide (ps_pond_id current = ps_pond_id a /\ ps_ref_name current = ps_ref_name a /\ ps_format current = ps_format a)
              && (generation a <? generation current)) NotContinuing;
  bound ← require (publication_boundary g) NoBoundary;
  let '(bh, b) := bound in
  _ ← ensure (boundary_matches a bh b) BoundaryDisagrees;
  let delta := generation current - generation a in
  _ ← ensure (Z.of_nat (length (publication_records g)) =? delta) (LineageLength (Z.of_nat (length (publication_records g))) delta);
  indexes ← bind_records (commits g) 0 (map snd (publication_records g) ++ [b]);
  _ ← ensure (bool_decide (head indexes = Some 0%nat)) HeadNotBound;
  check_deltas (commits g) (map snd (publication_records g)) indexes.

(** The state a record of the window was published as; [newer] records follow it. *)
Definition state_at (current : PublicationState) (record_hash : bytes) (r : PublicationRecord) (newer : nat) : pres PublicationState :=
  let gen := generation current - Z.of_nat newer in
  _ ← ensure (- 2 ^ 63 <=? gen) GenerationUnderflow;
  map_err StateError (state_new (ps_pond_id current) (ps_ref_name current) (Commit.snapshot_tip r) (pub_manifest_root r) record_hash gen 0).

Definition authenticate_pinned_publication_boundary (g : FetchedGraph) (pinned_tip : bytes) : pres PublicationState :=
  current ← require (publication_state g) NoPublicationState;
  bound ← require (publication_boundary g) NoBoundary;
  let '(rh, r) := bound in
  _ ← ensure (bool_decide (Commit.snapshot_tip r = pinned_tip)) PinnedMismatch;
  boundary ← state_at current rh r (length (publication_records g));
  _ ← authenticate_publication_window g boundary;
  mret boundary.

(** * Narrowing *)

Definition narrow_publication_window_at (g : FetchedGraph) (record_index : nat) : pres (PublicationState * FetchedGraph) :=
  current ← require (publication_state g) NoPublicationState;
  found ← require (publication_records g !! record_index) (NoRecordAt (Z.of_nat record_index));
  let '(rh, r) := found in
  commit_index ← require (position (binds r) (commits g)) (NotBound (Commit.snapshot_tip r));
  boundary ← state_at current rh r record_index;
  let records := take record_index (publication_records g) in
  changes ← squash_publication_changes records;
  let packs := group_packs (concat (map (fun x => pub_packs x.2) records)) in
  mret (boundary,
        with_manifest (omap (fun c => entry <$> after c) changes) changes (manifest_complete g)
          (with_window (take (S commit_index) (commits g)) packs records (Some (rh, r)) g)).

Definition narrow_authenticated_publication_window (g : FetchedGraph) (a : PublicationState) (applied_tip : bytes)
    : pres (PublicationState * FetchedGraph) :=
  _ ← authenticate_publication_window g a;
  if bool_decide (applied_tip = Publication.snapshot_tip a) then Ok (a, g) else
  record_index ← require (position (fun x => Commit.snapshot_tip x.2 = applied_tip) (publication_records g)) (PinOutside applied_tip);
  if bool_decide (record_index = 0%nat) then Err (PinIsHead applied_tip) else
  narrow_publication_window_at g record_index.

(** The first applied publication of the window; [matches c] is whether the
    destination folds to commit [c]. *)
Fixpoint recover_loop (g : FetchedGraph) (matches : Commit -> pres bool) (index : nat) (rs : list (bytes * PublicationRecord))
    : pres (option (PublicationState * FetchedGraph)) :=
  match rs with
  | [] => Ok None
  | (_, r) :: rs =>
      x ← require (snd <$> list_find (binds r) (commits g)) (NotBound (Commit.snapshot_tip r));
      applied ← matches x.2;
      if (applied : bool) then narrowed ← narrow_publication_window_at g index; mret (Some narrowed) else recover_loop g matches (S index) rs
  end.

Definition recover_applied_publication (g : FetchedGraph) (a : PublicationState) (target_pond : bytes) (matches : Commit -> pres bool)
    : pres (option (PublicationState * FetchedGraph)) :=
  _ ← authenticate_publication_window g a;
  current ← require (publication_state g) NoPublicationState;
  _ ← ensure (bool_decide (target_pond = ps_pond_id current)) RowPondMismatch;
  recover_loop g matches 1 (drop 1 (publication_records g)).

Definition authenticated_zero_change_transition (g : FetchedGraph) : pres bool :=
  if manifest_complete g || negb (bool_decide (graph_manifest g = [])) || negb (bool_decide (graph_changes g = []))
     || (length (commits g) <? 2)%nat then Ok false else
  match head (commits g), last (commits g) with
  | Some (_, t), Some (_, b) =>
      if bool_decide (root_tree_hash t = root_tree_hash b /\ manifest_root t = manifest_root b) then Ok true else Err RootsChanged
  | _, _ => Panic
  end.

Definition incremental_boundary_manifest_root (g : FetchedGraph) : pres bytes :=
  _ ← ensure (negb (manifest_complete g)) CompleteGraph;
  x ← require (last (commits g)) NoBoundaryCommit;
  _ ← ensure (negb (bool_decide (Some x.1 = tip g))) NoPriorCommit;
  mret (manifest_root x.2).
End Window.

(** * The net change of a window *)

(** A node map before and after; the identity map of a commit, in content. *)
Abbreviation nodes := (gmap bytes ManifestRecord).

(** The change moves [m] forward. *)
Definition apply_change (m : nodes) (c : ManifestChange) : option nodes :=
  let id := change_node_id c in
  if bool_decide (m !! id = before c) then Some (match after c with Some r => <[id := r]> m | None => delete id m end) else None.

Fixpoint apply_changes (m : nodes) (cs : list ManifestChange) : option nodes :=
  match cs with
  | [] => Some m
  | c :: cs => m ← apply_change m c; apply_changes m cs
  end.

(** What differs between two maps, by node. *)
Definition diff (m m' : nodes) : gmap bytes ManifestChange :=
  merge (fun b a => if bool_decide (b = a) then None else Some {| before := b; after := a |}) m m'.

(** A change of the code: not empty, one node, not a no-op. *)
Definition proper (c : ManifestChange) : Prop := change_new (before c) (after c) = Ok c.

Lemma diff_lookup m m' id :
  diff m m' !! id = if bool_decide (m !! id = m' !! id) then None else Some {| before := m !! id; after := m' !! id |}.
Proof.
  unfold diff. rewrite lookup_merge. destruct (m !! id), (m' !! id); simpl; done.
Qed.

Lemma diff_same m : diff m m = ∅.
Proof. apply map_eq. intros id. rewrite diff_lookup, lookup_empty. by rewrite bool_decide_true. Qed.

Lemma proper_spec c : proper c -> before c <> after c.
Proof.
  unfold proper, change_new. destruct (before c) as [b|] eqn:Eb, (after c) as [a|] eqn:Ea; try done.
  destruct (bool_decide (record_node_id b <> record_node_id a)); [done|]. case_bool_decide; [done|]. by intros _ [= ->].
Qed.

Lemma apply_change_lookup m c m' id :
  apply_change m c = Some m' -> m' !! id = if bool_decide (id = change_node_id c) then after c else m !! id.
Proof.
  unfold apply_change. case_bool_decide as E; [|done]. intros [= <-]. case_bool_decide as Ei.
  - subst id. destruct (after c); [by rewrite lookup_insert_eq|by rewrite lookup_delete_eq].
  - destruct (after c); [by rewrite lookup_insert_ne|by rewrite lookup_delete_ne].
Qed.

Lemma apply_change_before m c m' : apply_change m c = Some m' -> m !! change_node_id c = before c.
Proof. unfold apply_change. by case_bool_decide. Qed.

Lemma net_change_step m0 m c m' :
  proper c -> apply_change m c = Some m' -> net_change (diff m0 m) c = Ok (diff m0 m').
Proof.
  intros Hc Ha. pose proof (apply_change_before _ _ _ Ha) as Hb. apply proper_spec in Hc as Hne. unfold net_change. rewrite diff_lookup, Hb.
  assert (Hd : forall id, diff m0 m' !! id = if bool_decide (id = change_node_id c) then (if bool_decide (m0 !! id = after c) then None
     else Some {| before := m0 !! id; after := after c |}) else diff m0 m !! id).
  { intros id. rewrite !diff_lookup, (apply_change_lookup _ _ _ id Ha). destruct (bool_decide (id = change_node_id c)); done. }
  destruct (decide (m0 !! change_node_id c = before c)) as [E0|E0]; [rewrite bool_decide_true by done|rewrite bool_decide_false by done].
  - f_equal. apply map_eq. intros id. rewrite Hd. destruct (decide (id = change_node_id c)) as [->|Ei].
    + rewrite lookup_insert_eq, bool_decide_true, E0, bool_decide_false by done. by destruct c.
    + by rewrite lookup_insert_ne, bool_decide_false.
  - cbn [after before]. rewrite bool_decide_true by done. f_equal. apply map_eq. intros id. rewrite Hd.
    destruct (decide (id = change_node_id c)) as [->|Ei]; [rewrite (bool_decide_true (_ = change_node_id c)) by done|rewrite (bool_decide_false (_ = change_node_id c)) by done];
      destruct (bool_decide (m0 !! change_node_id c = after c)); by rewrite ?lookup_delete_eq, ?lookup_insert_eq, ?lookup_delete_ne, ?lookup_insert_ne.
Qed.

Lemma net_changes m0 m cs m' :
  Forall proper cs -> apply_changes m cs = Some m' -> fold_pres net_change cs (diff m0 m) = Ok (diff m0 m').
Proof.
  intros Hp. revert m. induction Hp as [|c cs Hc _ IH]; intros m; cbn [apply_changes fold_pres]; [by intros [= ->]|].
  destruct (apply_change m c) as [m1|] eqn:E; [|done]. cbn [mbind option_bind]. intros Ha.
  rewrite (bind_eq _ _ _ (net_change_step m0 m c m1 Hc E)). by apply IH.
Qed.

(** What the squash keeps: cancelled changes too. *)
Definition squashed (m0 m : nodes) (acc : gmap bytes ManifestChange) : Prop :=
  forall id, match acc !! id with
             | Some e => before e = m0 !! id /\ after e = m !! id
             | None => m0 !! id = m !! id
             end.

Lemma squash_step m0 m c m' acc :
  squashed m0 m acc -> apply_change m c = Some m' -> exists acc', squash_change acc c = Ok acc' /\ squashed m0 m' acc'.
Proof.
  intros Hs Ha. pose proof (apply_change_before _ _ _ Ha) as Hb. unfold squash_change. pose proof (Hs (change_node_id c)) as Hi.
  destruct (acc !! change_node_id c) as [e|].
  - destruct Hi as [E1 E2]. rewrite bool_decide_true by congruence. eexists. split; [done|]. intros id.
    rewrite (apply_change_lookup _ _ _ id Ha). case_bool_decide as Ei; [subst id; by rewrite lookup_insert_eq|].
    rewrite lookup_insert_ne by done. apply Hs.
  - eexists. split; [done|]. intros id. rewrite (apply_change_lookup _ _ _ id Ha). case_bool_decide as Ei.
    + subst id. rewrite lookup_insert_eq. split; congruence.
    + rewrite lookup_insert_ne by done. apply Hs.
Qed.

Lemma squash_fold m0 m cs m' acc :
  squashed m0 m acc -> apply_changes m cs = Some m' -> exists acc', fold_pres squash_change cs acc = Ok acc' /\ squashed m0 m' acc'.
Proof.
  revert m acc. induction cs as [|c cs IH]; intros m acc Hs; cbn [apply_changes fold_pres]; [intros [= ->]; by exists acc|].
  destruct (apply_change m c) as [m1|] eqn:E; [|done]. cbn [mbind option_bind]. intros Ha.
  destruct (squash_step m0 m c m1 acc Hs E) as (acc1 & E1 & Hs1). rewrite (bind_eq _ _ _ E1). by apply (IH m1).
Qed.

(** ** Maps in key order *)

Lemma StronglySorted_filter {A} (R : A -> A -> Prop) (P : A -> Prop) `{!forall x, Decision (P x)} (l : list A) :
  StronglySorted R l -> StronglySorted R (filter P l).
Proof.
  induction 1 as [|x l Hs IH Hx]; [constructor|]. rewrite filter_cons. destruct (decide (P x)); [|done]. constructor; [done|].
  rewrite Forall_forall in *. intros y [_ Hy]%list_elem_of_filter. by apply Hx.
Qed.

Lemma filter_map_snd {A B} (P : B -> Prop) `{!forall x, Decision (P x)} (l : list (A * B)) :
  filter P (map snd l) = map snd (filter (fun x => P x.2) l).
Proof. induction l as [|x l IH]; [done|]. cbn [map]. rewrite !filter_cons. destruct (decide (P x.2)); cbn [map]; by rewrite IH. Qed.

Lemma ordered_filter {A} (P : A -> Prop) `{!forall x, Decision (P x)} (m m' : gmap bytes A) :
  (forall k a, m' !! k = Some a <-> m !! k = Some a /\ P a) -> filter P (map snd (ordered m)) = map snd (ordered m').
Proof.
  intros Hm. rewrite filter_map_snd. f_equal. unfold ordered.
  apply (sorted_perm_unique (cmp_on fst bytes_cmp)).
  - intros [k a] [k' a'] [_ H1]%list_elem_of_filter [_ H2]%list_elem_of_filter E%(cmp_eq (cmp := bytes_cmp)).
    rewrite (sort_by_perm (cmp_on fst bytes_cmp)), elem_of_map_to_list in H1. rewrite (sort_by_perm (cmp_on fst bytes_cmp)), elem_of_map_to_list in H2.
    simpl in E. congruence.
  - apply StronglySorted_filter, sort_by_sorted, _.
  - apply sort_by_sorted, _.
  - apply NoDup_Permutation.
    + apply NoDup_filter. rewrite (sort_by_perm (cmp_on fst bytes_cmp)). apply NoDup_map_to_list.
    + rewrite (sort_by_perm (cmp_on fst bytes_cmp)). apply NoDup_map_to_list.
    + intros [k a]. rewrite list_elem_of_filter, !(sort_by_perm (cmp_on fst bytes_cmp)), !elem_of_map_to_list, Hm. simpl. tauto.
Qed.

(** The net changes of a map pair, in node order. *)
Definition net (m m' : nodes) : list ManifestChange := map snd (ordered (diff m m')).

Lemma squash_net records m m' :
  apply_changes m (concat (map (fun x => pub_changes x.2) (rev records))) = Some m' -> squash_publication_changes records = Ok (net m m').
Proof.
  intros Ha. assert (H0 : squashed m m ∅) by (intros id; by rewrite lookup_empty). destruct (squash_fold _ _ _ _ _ H0 Ha) as (acc & E & Hs).
  unfold squash_publication_changes. rewrite (bind_eq _ _ _ E). unfold mret, outcome_ret. f_equal. apply ordered_filter. intros id c.
  rewrite diff_lookup. specialize (Hs id). destruct (acc !! id) as [e|].
  - destruct Hs as [E1 E2]. rewrite <- E1, <- E2. case_bool_decide as E3.
    + split; [done|]. by intros [[= ->] ?].
    + split; [intros [= <-]; destruct e; by split|]. intros [[= ->] _]. by destruct c.
  - rewrite bool_decide_true by done. split; [done|by intros [? _]].
Qed.

(** ** Records *)

(** A record whose changes are those between two maps moves one to the other. *)
Lemma apply_distinct m cs :
  NoDup (map change_node_id cs) -> Forall (fun c => m !! change_node_id c = before c) cs ->
  exists m', apply_changes m cs = Some m'
    /\ forall id, match list_find (fun c => change_node_id c = id) cs with
                  | Some (_, c) => m' !! id = after c
                  | None => m' !! id = m !! id
                  end.
Proof.
  revert m. induction cs as [|c cs IH]; intros m Hn Hb; [by exists m|]. cbn [map] in Hn. apply NoDup_cons in Hn as [Hc Hn]. apply Forall_cons in Hb as [Hbc Hb].
  assert (exists m1, apply_change m c = Some m1) as [m1 E] by (unfold apply_change; rewrite bool_decide_true by done; eauto).
  assert (Hne : forall d, d ∈ cs -> change_node_id d <> change_node_id c).
  { intros d Hd Ed. apply Hc. rewrite <- Ed. by apply list_elem_of_In, in_map, list_elem_of_In. }
  destruct (IH m1 Hn) as (m' & Ha & Hm').
  { rewrite Forall_forall in *. intros d Hd. rewrite (apply_change_lookup _ _ _ _ E), bool_decide_false by (by apply Hne). by apply Hb. }
  exists m'. cbn [apply_changes]. rewrite E. cbn [mbind option_bind]. split; [done|]. intros id. specialize (Hm' id).
  cbn [list_find]. destruct (decide (change_node_id c = id)) as [<-|Hi].
  - destruct (list_find _ cs) as [[i d]|] eqn:Ef.
    + apply list_find_Some in Ef as (Hd%list_elem_of_lookup_2 & Ed & _). by destruct (Hne d Hd).
    + rewrite Hm', (apply_change_lookup _ _ _ _ E). by rewrite bool_decide_true.
  - destruct (list_find _ cs) as [[i d]|]; cbn [fmap option_fmap option_map prod_map fst snd]; [done|].
    rewrite Hm', (apply_change_lookup _ _ _ _ E). by rewrite bool_decide_false.
Qed.

Lemma fold_changes_lookup (cs : list ManifestChange) (acc : gmap bytes ManifestChange) (id : bytes) :
  NoDup (map change_node_id cs) ->
  fold_left (fun m c => <[change_node_id c := c]> m) cs acc !! id
  = match list_find (fun c => change_node_id c = id) cs with Some (_, c) => Some c | None => acc !! id end.
Proof.
  revert acc. induction cs as [|c cs IH]; intros acc Hn; [done|]. cbn [map] in Hn. apply NoDup_cons in Hn as [Hc Hn]. cbn [fold_left list_find].
  rewrite IH by done. destruct (decide (change_node_id c = id)) as [<-|Hi].
  - destruct (list_find _ cs) as [[i d]|] eqn:Ef.
    + apply list_find_Some in Ef as (Hd%list_elem_of_lookup_2 & Ed & _). destruct Hc. rewrite <- Ed. by apply list_elem_of_In, in_map, list_elem_of_In.
    + by rewrite lookup_insert_eq.
  - destruct (list_find _ cs) as [[i d]|]; cbn [fmap option_fmap option_map prod_map fst snd]; [done|]. by rewrite lookup_insert_ne.
Qed.

Lemma record_applies m m' cs :
  NoDup (map change_node_id cs) -> fold_left (fun m c => <[change_node_id c := c]> m) cs ∅ = diff m m' -> apply_changes m cs = Some m'.
Proof.
  intros Hn E. assert (Hf : forall id, diff m m' !! id = match list_find (fun c => change_node_id c = id) cs with Some (_, c) => Some c | None => None end).
  { intros id. by rewrite <- E, fold_changes_lookup. }
  destruct (apply_distinct m cs Hn) as (m1 & Ha & Hm1).
  - apply Forall_forall. intros c Hc. specialize (Hf (change_node_id c)). rewrite diff_lookup in Hf.
    assert (list_find (fun d => change_node_id d = change_node_id c) cs <> None).
    { intros E0. apply list_find_None in E0. rewrite Forall_forall in E0. by apply (E0 c). }
    destruct (list_find _ cs) as [[i d]|] eqn:Ef; [|done]. apply list_find_Some in Ef as (Hd & Ed & _).
    assert (d = c) as ->.
    { apply list_elem_of_lookup in Hc as [j Hj]. assert (i = j) as ->; [|congruence].
      apply (NoDup_lookup _ _ _ (change_node_id c) Hn); change (map change_node_id cs) with (change_node_id <$> cs); rewrite list_lookup_fmap; [by rewrite Hd; simpl; rewrite Ed|by rewrite Hj]. }
    case_bool_decide; [done|]. injection Hf as Hf. exact (f_equal before Hf).
  - rewrite Ha. f_equal. apply map_eq. intros id. specialize (Hf id). specialize (Hm1 id). rewrite diff_lookup in Hf.
    destruct (list_find _ cs) as [[i d]|]; rewrite Hm1; case_bool_decide as E1; try done. by injection Hf as <-.
Qed.
(** * What authentication establishes *)

(** Each record is under its own node. *)
Definition keyed (m : nodes) : Prop := forall id r, m !! id = Some r -> record_node_id r = id.

Lemma apply_change_keyed m c m' : keyed m -> apply_change m c = Some m' -> keyed m'.
Proof.
  intros Hk Ha id r. rewrite (apply_change_lookup _ _ _ id Ha). case_bool_decide as E; [|apply Hk]. subst id. unfold change_node_id. by intros ->.
Qed.

Lemma apply_changes_keyed m cs m' : keyed m -> apply_changes m cs = Some m' -> keyed m'.
Proof.
  revert m. induction cs as [|c cs IH]; intros m Hk; cbn [apply_changes]; [by intros [= <-]|].
  destruct (apply_change m c) as [m1|] eqn:E; [|done]. apply IH. by eapply apply_change_keyed.
Qed.

Lemma diff_node m m' id c : keyed m -> keyed m' -> diff m m' !! id = Some c -> change_node_id c = id.
Proof.
  intros Hk Hk'. rewrite diff_lookup. case_bool_decide as E; [done|]. intros [= <-]. unfold change_node_id. cbn [after before].
  destruct (m' !! id) eqn:E1; [by apply Hk'|]. destruct (m !! id) eqn:E2; [by apply Hk|done].
Qed.

Lemma net_elem m m' c : c ∈ net m m' <-> exists id, diff m m' !! id = Some c.
Proof.
  unfold net, ordered. change (map snd) with (@fmap list _ _ _ (@snd bytes ManifestChange)). rewrite list_elem_of_fmap. split.
  - intros ([id d] & -> & Hd). rewrite (sort_by_perm (cmp_on fst bytes_cmp)), elem_of_map_to_list in Hd. by exists id.
  - intros [id Hd]. exists (id, c). split; [done|]. by rewrite (sort_by_perm (cmp_on fst bytes_cmp)), elem_of_map_to_list.
Qed.

(** The net changes move the first map to the second. *)
Lemma net_applies m m' : keyed m -> keyed m' -> apply_changes m (net m m') = Some m'.
Proof.
  intros Hk Hk'. assert (Hn : NoDup (map change_node_id (net m m'))).
  { assert (map change_node_id (net m m') = map fst (ordered (diff m m'))) as ->.
    { unfold net. rewrite map_map. apply map_ext_in. intros [id c] Hc%list_elem_of_In. unfold ordered in Hc.
      rewrite (sort_by_perm (cmp_on fst bytes_cmp)), elem_of_map_to_list in Hc. by apply (diff_node m m'). }
    change (map fst) with (@fmap list _ _ _ (@fst bytes ManifestChange)). unfold ordered. rewrite (sort_by_perm (cmp_on fst bytes_cmp)). apply NoDup_fst_map_to_list. }
  apply record_applies; [done|]. apply map_eq. intros id. rewrite fold_changes_lookup by done.
  destruct (list_find _ _) as [[i c]|] eqn:E.
  - apply list_find_Some in E as (Hc%list_elem_of_lookup_2 & Ei & _). apply net_elem in Hc as [id' Hc]. pose proof (diff_node _ _ _ _ Hk Hk' Hc). congruence.
  - rewrite lookup_empty. destruct (diff m m' !! id) as [c|] eqn:Ed; [|done]. apply list_find_None in E. rewrite Forall_forall in E.
    destruct (E c); [apply net_elem; by exists id|]. by apply (diff_node m m').
Qed.

Section WindowSpec.
Context `{Blake3}.
#[local] Set Default Proof Using "Type*".

Definition interval {A} (l : list A) (start stop : nat) : list A := take (stop - start) (drop start l).

(** The record's inventory is that of a run of commits. *)
Definition accounts (r : PublicationRecord) (cs : list (bytes * Commit)) : Prop :=
  exists d, publication_delta_from_commits (rev (map snd cs)) = Ok d /\ require_record_matches_commit_delta r d = Ok tt.

(** The window, with the commit index of each record and of the boundary. *)
Record authentic (g : FetchedGraph) (a current : PublicationState) (bh : bytes) (b : PublicationRecord) (idx : list nat) : Prop := {
  au_state : publication_state g = Some current;
  au_identity : ps_pond_id current = ps_pond_id a /\ ps_ref_name current = ps_ref_name a /\ ps_format current = ps_format a;
  au_generation : generation a < generation current
                  /\ Z.of_nat (length (publication_records g)) = generation current - generation a;
  au_boundary : publication_boundary g = Some (bh, b) /\ boundary_matches a bh b = true;
  au_bound : Forall2 (fun r i => exists x, commits g !! i = Some x /\ binds r x) (map snd (publication_records g) ++ [b]) idx;
  au_sorted : StronglySorted lt idx;
  au_head : head idx = Some 0%nat;
  au_accounts : forall i x s p, publication_records g !! i = Some x -> idx !! i = Some s -> idx !! S i = Some p ->
                accounts x.2 (interval (commits g) s p);
}.

Lemma position_unique (cs : list (bytes * Commit)) r prior i x :
  NoDup (cs.*1) -> cs !! i = Some x -> binds r x -> (prior <= i)%nat -> position (binds r) (drop prior cs) = Some (i - prior)%nat.
Proof.
  intros Hn Hx Hb Hp. unfold position. assert (list_find (binds r) (drop prior cs) = Some ((i - prior)%nat, x)) as ->; [|done].
  apply list_find_Some. split_and!; [rewrite lookup_drop; by replace (prior + (i - prior))%nat with i by lia|done|].
  intros j y Hy Hj [Ey _]. rewrite lookup_drop in Hy. destruct Hb as [Ex _].
  assert (prior + j = i)%nat; [|lia]. apply (NoDup_lookup _ _ _ (Commit.snapshot_tip r) Hn); rewrite list_lookup_fmap; [by rewrite Hy; simpl; rewrite Ey|by rewrite Hx; simpl; rewrite Ex].
Qed.

Lemma position_binds (cs : list (bytes * Commit)) r prior rel :
  position (binds r) (drop prior cs) = Some rel -> exists x, cs !! (prior + rel)%nat = Some x /\ binds r x.
Proof.
  unfold position. destruct (list_find _ _) as [[i x]|] eqn:E; [|done]. intros [= <-]. apply list_find_Some in E as (Hx & Hb & _).
  rewrite lookup_drop in Hx. by exists x.
Qed.

Lemma bind_records_Ok (cs : list (bytes * Commit)) prior rs idx :
  bind_records cs prior rs = Ok idx ->
  Forall2 (fun r i => exists x, cs !! i = Some x /\ binds r x) rs idx /\ StronglySorted lt idx /\ Forall (fun i => (prior <= i)%nat) idx.
Proof.
  revert prior idx. induction rs as [|r rs IH]; intros prior idx; cbn [bind_records]; intros E; inv_pull; [by split_and!; constructor|].
  match goal with Hp : position _ _ = Some _ |- _ => apply position_binds in Hp end.
  match goal with Hr : bind_records _ _ _ = Ok _ |- _ => apply IH in Hr as (Hf & Hs & Hp) end.
  split; [by constructor|]. split; [constructor; [done|]|constructor; [lia|]]; (eapply Forall_impl; [exact Hp|]); simpl; lia.
Qed.

Lemma bind_records_unique (cs : list (bytes * Commit)) prior rs idx :
  NoDup (cs.*1) -> Forall2 (fun r i => exists x, cs !! i = Some x /\ binds r x) rs idx -> StronglySorted lt idx ->
  Forall (fun i => (prior <= i)%nat) idx -> bind_records cs prior rs = Ok idx.
Proof.
  intros Hn Hf. revert prior. induction Hf as [|r i rs idx (x & Hx & Hb) Hf IH]; intros prior Hs Hp; [done|]. cbn [bind_records].
  apply Forall_cons in Hp as [Hp1 Hp]. apply StronglySorted_inv in Hs as [Hs Hlt].
  rewrite (position_unique cs r prior i x Hn Hx Hb Hp1). cbn [require mbind outcome_bind]. replace (prior + (i - prior))%nat with i by lia.
  rewrite (bind_eq _ _ idx); [done|]. apply IH; [done|]. eapply Forall_impl; [exact Hlt|]. simpl. lia.
Qed.

Lemma check_deltas_iff (cs : list (bytes * Commit)) (rs : list (bytes * PublicationRecord)) idx :
  length idx = S (length rs) -> StronglySorted lt idx ->
  check_deltas cs (map snd rs) idx = Ok tt <->
  forall i x s p, rs !! i = Some x -> idx !! i = Some s -> idx !! S i = Some p -> accounts x.2 (interval cs s p).
Proof.
  revert idx. induction rs as [|y rs IH]; intros [|start [|parent idx]] Hl Hs; cbn [length] in Hl; try lia.
  - cbn [map check_deltas]. split; [|done]. intros _ i x s p Hx. by rewrite lookup_nil in Hx.
  - cbn [map check_deltas]. apply StronglySorted_inv in Hs as [Hs Hlt]. apply Forall_cons in Hlt as [Hlt _].
    rewrite ensure_bind by (by apply Nat.ltb_lt). specialize (IH (parent :: idx) ltac:(cbn [length]; lia) Hs). split.
    + intros E. inv_pull. destruct IH as [IH _]. specialize (IH E). intros [|i] x' s p; cbn [lookup list_lookup].
      * intros [= <-] [= <-] [= <-]. eexists. split; [done|]. by match goal with Hr : require_record_matches_commit_delta _ _ = Ok _ |- _ => rewrite Hr end.
      * apply IH.
    + intros Ha. destruct (Ha 0%nat y start parent) as (d & Ed & Er); [done..|]. unfold interval in Ed. rewrite (bind_eq _ _ _ Ed), (bind_eq _ _ _ Er).
      apply IH. intros i x s p Hx Hi Hp. by apply (Ha (S i)).
Qed.

Lemma authenticate_Ok g a :
  authenticate_publication_window g a = Ok tt -> exists current bh b idx, authentic g a current bh b idx.
Proof.
  unfold authenticate_publication_window. intros E. inv_pull. match goal with Hb : publication_boundary g = Some ?y |- _ => destruct y as [bh b] end. inv_pull.
  match goal with Hs : publication_state g = Some ?c, Hr : bind_records _ _ _ = Ok ?i |- _ => exists c, bh, b, i; apply bind_records_Ok in Hr as (Hf & Hso & _) end.
  split; try done; [by rewrite Z.ltb_lt, Z.eqb_eq in *|].
  apply Forall2_length in Hf as Hl. rewrite length_app, length_map in Hl. cbn [length] in Hl.
  apply (check_deltas_iff (commits g) (publication_records g)); [lia|done|done].
Qed.

Lemma authentic_accepted g a current bh b idx :
  NoDup ((commits g).*1) -> authentic g a current bh b idx -> authenticate_publication_window g a = Ok tt.
Proof.
  intros Hn [Es Hi [Hg Hl] [Eb Hm] Hf Hs Hh Ha]. unfold authenticate_publication_window. rewrite Es, Eb. cbn [require mbind outcome_bind].
  rewrite ensure_bind by (rewrite bool_decide_true by done; by apply Z.ltb_lt). rewrite ensure_bind by done. rewrite ensure_bind by (by apply Z.eqb_eq).
  rewrite (bind_eq _ _ idx). 2: { apply bind_records_unique; try done. apply Forall_forall. intros; lia. }
  rewrite ensure_bind by (by apply bool_decide_eq_true). apply check_deltas_iff; try done.
  apply Forall2_length in Hf. rewrite length_app, length_map in Hf. cbn [length] in Hf. lia.
Qed.

(** ** Changes, oldest first *)

Definition commit_changes (cs : list (bytes * Commit)) : list ManifestChange := concat (map (fun x => manifest_changes x.2) (rev cs)).
Definition record_changes (rs : list (bytes * PublicationRecord)) : list ManifestChange := concat (map (fun x => pub_changes x.2) (rev rs)).

Lemma commit_changes_app l1 l2 : commit_changes (l1 ++ l2) = commit_changes l2 ++ commit_changes l1.
Proof. unfold commit_changes. by rewrite rev_app_distr, map_app, concat_app. Qed.

Lemma record_changes_cons x rs : record_changes (x :: rs) = record_changes rs ++ pub_changes x.2.
Proof. unfold record_changes. cbn [rev]. rewrite map_app, concat_app. cbn [map concat]. by rewrite app_nil_r. Qed.

Lemma apply_changes_app m cs1 cs2 m' :
  apply_changes m (cs1 ++ cs2) = Some m' <-> exists m1, apply_changes m cs1 = Some m1 /\ apply_changes m1 cs2 = Some m'.
Proof.
  revert m. induction cs1 as [|c cs1 IH]; intros m; cbn [app apply_changes]; [naive_solver|].
  destruct (apply_change m c) as [m1|]; cbn [mbind option_bind]; [apply IH|]. split; [done|by intros (? & ? & _)].
Qed.

Lemma canonical_commit c : valid_commit c -> Forall proper (manifest_changes c).
Proof.
  intros [Hr _]. unfold commit_rebuild, commit_new_with_delta in Hr. apply bind_Ok in Hr as (ch & Hc & Hr). apply Ok_inj in Hr.
  apply canonicalize_inv in Hc as (_ & _ & Hp). rewrite <- Hr. exact Hp.
Qed.

Lemma canonical_record r : valid_publication r -> NoDup (map change_node_id (pub_changes r)).
Proof.
  intros [Hr _]. apply publication_rebuild_inv in Hr as (Hc & _ & _). apply canonicalize_inv in Hc as (_ & Hs & _). revert Hs.
  induction 1 as [|c cs Hs IH Hc]; cbn [map]; [constructor|]. apply NoDup_cons. split; [|done]. rewrite Forall_forall in Hc.
  intros (d & Ed & Hd)%list_elem_of_In%in_map_iff. apply list_elem_of_In, Hc in Hd. unfold cmp_lt, change_cmp, cmp_on in Hd.
  by rewrite Ed, (cmp_refl bytes_cmp) in Hd.
Qed.

Lemma delta_folds cs d d' :
  fold_pres commit_delta cs d = Ok d' -> fold_pres net_change (concat (map manifest_changes cs)) (delta_changes d) = Ok (delta_changes d').
Proof.
  revert d. induction cs as [|c cs IH]; intros d; cbn [fold_pres map concat]; [by intros [= ->]|]. intros (d1 & E & Hd)%bind_Ok. apply IH in Hd.
  unfold commit_delta in E. inv_pull. cbn [delta_changes] in Hd. rewrite fold_pres_app. by match goal with Hf : fold_pres net_change _ _ = Ok _ |- _ => rewrite Hf end.
Qed.

Lemma delta_net cs d m m' :
  publication_delta_from_commits (rev (map snd cs)) = Ok d -> Forall (fun x => valid_commit x.2) cs ->
  apply_changes m (commit_changes cs) = Some m' -> delta_changes d = diff m m'.
Proof.
  unfold publication_delta_from_commits. intros E%delta_folds Hv Ha. cbn [delta_changes] in E. rewrite <- (diff_same m) in E.
  assert (commit_changes cs = concat (map manifest_changes (rev (map snd cs)))) as Ec by (unfold commit_changes; by rewrite <- map_rev, map_map).
  rewrite <- Ec, (net_changes m m _ m') in E; [by injection E| |done]. rewrite Forall_forall in Hv. apply Forall_forall. intros c Hc.
  unfold commit_changes in Hc. apply list_elem_of_In, in_concat in Hc as (l & (x & <- & Hx)%in_map_iff & Hc). apply in_rev, list_elem_of_In in Hx.
  specialize (Hv x Hx). apply canonical_commit in Hv. rewrite Forall_forall in Hv. by apply Hv, list_elem_of_In.
Qed.

Lemma interval_split {A} (l : list A) s p e : (s <= p <= e)%nat -> interval l s e = interval l s p ++ interval l p e.
Proof.
  intros Hp. unfold interval. replace (e - s)%nat with ((p - s) + (e - p))%nat by lia. rewrite <- take_take_drop. do 2 f_equal.
  rewrite drop_drop. f_equal. lia.
Qed.

(** The changes of the records are those of the commits they cover. *)
Lemma records_apply (cs : list (bytes * Commit)) (rs : list (bytes * PublicationRecord)) idx s e m m' :
  Forall (fun x => valid_publication x.2) rs -> Forall (fun x => valid_commit x.2) cs ->
  length idx = S (length rs) -> StronglySorted lt idx -> head idx = Some s -> last idx = Some e ->
  (forall i x s p, rs !! i = Some x -> idx !! i = Some s -> idx !! S i = Some p -> accounts x.2 (interval cs s p)) ->
  apply_changes m (commit_changes (interval cs s e)) = Some m' -> apply_changes m (record_changes rs) = Some m'.
Proof.
  intros Hr Hc. revert idx s m m'. induction Hr as [|x rs Hx Hr IH]; intros [|s' [|p idx]] s m m' Hl Hs Eh El Ha Hm; cbn [length] in Hl; try lia.
  - simpl in Eh, El. injection Eh as ->. injection El as ->. unfold interval in Hm. rewrite Nat.sub_diag in Hm. exact Hm.
  - simpl in Eh. injection Eh as ->. rewrite last_cons_cons in El. apply StronglySorted_inv in Hs as [Hs Hlt]. apply Forall_cons in Hlt as [Hlt _].
    assert (Hpe : (p <= e)%nat).
    { apply last_Some in El as [l' El]. destruct l' as [|y l']; [injection El as <- _; lia|]. injection El as -> ->.
      apply StronglySorted_inv in Hs as [_ Hs]. apply Forall_app in Hs as [_ Hs]. apply Forall_cons in Hs as [? _]. lia. }
    rewrite (interval_split cs s p e) in Hm by lia. rewrite commit_changes_app in Hm. apply apply_changes_app in Hm as (m1 & H1 & H2).
    rewrite record_changes_cons. apply apply_changes_app. exists m1. split.
    + apply (IH (p :: idx) p); try done; [cbn [length]; lia|]. intros i y s' p' Hy Hi Hi'. by apply (Ha (S i)).
    + destruct (Ha 0%nat x s p) as (d & Ed & Er); [done..|]. unfold require_record_matches_commit_delta in Er. inv_pull.
      apply record_applies; [by apply canonical_record|]. rewrite <- (delta_net _ _ _ _ Ed); [done| |done].
      unfold interval. by apply Forall_take, Forall_drop.
Qed.

(** ** The window as a whole *)

(** A fetched window: records of the active row's lineage and distinct commits,
    all canonical, as the decoders return them. *)
Record fetched_window (g : FetchedGraph) (current : PublicationState) : Prop := {
  fw_state : publication_state g = Some current;
  fw_wf : wf_published current = true;
  fw_identity : Forall (fun x => pub_pond_id x.2 = ps_pond_id current /\ Commit.ref_name x.2 = ps_ref_name current) (publication_records g);
  fw_records : Forall (fun x => valid_publication x.2) (publication_records g);
  fw_distinct : NoDup ((commits g).*1);
  fw_commits : Forall (fun x => valid_commit x.2) (commits g);
}.

Lemma last_lookup_length {A} (l : list A) n x : length l = S n -> l !! n = Some x -> last l = Some x.
Proof. intros Hl Hx. rewrite last_lookup, Hl. exact Hx. Qed.

Lemma authentic_index g a current bh b idx i x :
  NoDup ((commits g).*1) -> authentic g a current bh b idx -> (map snd (publication_records g) ++ [b]) !! i = Some x ->
  exists s, idx !! i = Some s /\ position (binds x) (commits g) = Some s.
Proof.
  intros Hn Ha Hx. destruct (Forall2_lookup_l _ _ _ _ _ (au_bound _ _ _ _ _ _ Ha) Hx) as (s & Hs & y & Hy & Hb).
  exists s. split; [done|]. pose proof (position_unique (commits g) x 0 s y Hn Hy Hb ltac:(lia)) as Hp. rewrite Nat.sub_0_r in Hp. exact Hp.
Qed.

Lemma interval_take {A} (l : list A) s p n : (p <= n)%nat -> interval (take n l) s p = interval l s p.
Proof.
  intros Hp. unfold interval. destruct (decide (p <= s)%nat).
  - by replace (p - s)%nat with 0%nat by lia.
  - rewrite !take_drop_commute, take_take. by replace ((s + (p - s)) `min` n)%nat with (s + (p - s))%nat by lia.
Qed.

Lemma sorted_take {A} (R : A -> A -> Prop) (l : list A) n : StronglySorted R l -> StronglySorted R (take n l).
Proof.
  intros Hs. revert n. induction Hs as [|x l Hs IH Hx]; intros [|n]; cbn [take]; try constructor; [apply IH|by apply Forall_take].
Qed.

Lemma indexes_lt (l : list nat) i j x y : StronglySorted lt l -> (i < j)%nat -> l !! i = Some x -> l !! j = Some y -> (x < y)%nat.
Proof.
  intros Hs. revert i j. induction Hs as [|z l Hs IH Hz]; intros [|i] [|j] Hij; cbn [lookup list_lookup]; try done; try lia.
  - intros [= <-] Hy. rewrite Forall_forall in Hz. by eapply Hz, list_elem_of_lookup_2.
  - apply IH. lia.
Qed.

(** The commits of the window split at record [k]. *)
Lemma window_split g a current bh b idx n k x m m' :
  fetched_window g current -> authentic g a current bh b idx -> position (binds b) (commits g) = Some n ->
  apply_changes m (commit_changes (take n (commits g))) = Some m' ->
  (map snd (publication_records g) ++ [b]) !! k = Some x ->
  exists ck mk, idx !! k = Some ck /\ position (binds x) (commits g) = Some ck /\ (ck <= n)%nat
    /\ apply_changes m (commit_changes (interval (commits g) ck n)) = Some mk
    /\ apply_changes mk (commit_changes (take ck (commits g))) = Some m'
    /\ squash_publication_changes (take k (publication_records g)) = Ok (net mk m').
Proof.
  intros Hf Ha Hn Hm Hx. pose proof (fw_distinct _ _ Hf) as Hd. destruct (authentic_index _ _ _ _ _ _ _ _ Hd Ha Hx) as (ck & Hi & Hp).
  destruct (authentic_index g a current bh b idx (length (publication_records g)) b Hd Ha) as (n' & Hi' & Hp').
  { rewrite lookup_app_r by (by rewrite length_map). by rewrite length_map, Nat.sub_diag. }
  rewrite Hn in Hp'. injection Hp' as <-. pose proof (au_sorted _ _ _ _ _ _ Ha) as Hs.
  pose proof (Forall2_length _ _ _ (au_bound _ _ _ _ _ _ Ha)) as Hl. rewrite length_app, length_map in Hl. cbn [length] in Hl.
  assert (Hk : (k <= length (publication_records g))%nat) by (apply lookup_lt_Some in Hx; rewrite length_app, length_map in Hx; cbn [length] in Hx; lia).
  assert (Hcn : (ck <= n)%nat).
  { destruct (decide (k = length (publication_records g))) as [->|]; [by assert (ck = n) as -> by congruence|].
    apply Nat.lt_le_incl, (indexes_lt idx k (length (publication_records g))); [done|lia|done|done]. }
  assert (Et : take n (commits g) = take ck (commits g) ++ interval (commits g) ck n).
  { unfold interval. rewrite take_take_drop. f_equal. lia. }
  rewrite Et, commit_changes_app in Hm. apply apply_changes_app in Hm as (mk & H1 & H2).
  exists ck, mk. split_and!; try done. apply squash_net.
  apply (records_apply (commits g) (take k (publication_records g)) (take (S k) idx) 0 ck).
  - by apply Forall_take, (fw_records _ _ Hf).
  - apply (fw_commits _ _ Hf).
  - rewrite !length_take. lia.
  - by apply sorted_take.
  - pose proof (au_head _ _ _ _ _ _ Ha) as Hh. by destruct idx.
  - apply (last_lookup_length _ k); [rewrite length_take; lia|]. rewrite lookup_take_lt by lia. done.
  - intros i y s p Hy Hs' Hp'. apply lookup_take_Some in Hy as [Hy ?]. apply lookup_take_Some in Hs' as [Hs' _]. apply lookup_take_Some in Hp' as [Hp' _].
    exact (au_accounts _ _ _ _ _ _ Ha i y s p Hy Hs' Hp').
  - unfold interval. by rewrite drop_0, Nat.sub_0_r.
Qed.

Lemma window_net g a current bh b n m m' :
  fetched_window g current -> authenticate_publication_window g a = Ok tt -> publication_boundary g = Some (bh, b) ->
  position (binds b) (commits g) = Some n -> apply_changes m (commit_changes (take n (commits g))) = Some m' ->
  squash_publication_changes (publication_records g) = Ok (net m m').
Proof.
  intros Hf Ha%authenticate_Ok Eb Hn Hm. destruct Ha as (current' & bh' & b' & idx & Ha). pose proof (au_boundary _ _ _ _ _ _ Ha) as [Eb' _].
  rewrite Eb in Eb'. injection Eb' as <- <-. pose proof (au_state _ _ _ _ _ _ Ha) as Es. rewrite (fw_state _ _ Hf) in Es. injection Es as <-.
  destruct (window_split _ _ _ _ _ _ _ (length (publication_records g)) b _ _ Hf Ha Hn Hm) as (ck & mk & _ & Hp & _ & H1 & H2 & Hs).
  { rewrite lookup_app_r by (by rewrite length_map). by rewrite length_map, Nat.sub_diag. }
  rewrite take_ge in Hs by lia. rewrite Hn in Hp. injection Hp as <-. unfold interval in H1. rewrite Nat.sub_diag in H1. by injection H1 as <-.
Qed.

(** The state of record [k] of the window. *)
Definition frontier_at (current : PublicationState) (k : nat) (x : bytes * PublicationRecord) : PublicationState :=
  {| ps_pond_id := ps_pond_id current; ps_ref_name := ps_ref_name current; ps_format := NATIVE_FORMAT_V2;
     snapshot_tip := Commit.snapshot_tip x.2; ps_manifest_root := pub_manifest_root x.2; publication_record := x.1;
     generation := generation current - Z.of_nat k; updated_at := 0 |}.

(** The first [k] records, with the commits down to that of record [k]. *)
Lemma authentic_prefix g a current bh b idx k rh r ck g' :
  fetched_window g current -> authentic g a current bh b idx -> publication_records g !! k = Some (rh, r) -> (0 < k)%nat -> idx !! k = Some ck ->
  publication_state g' = publication_state g -> commits g' = take (S ck) (commits g) ->
  publication_records g' = take k (publication_records g) -> publication_boundary g' = Some (rh, r) ->
  authentic g' (frontier_at current k (rh, r)) current rh r (take (S k) idx).
Proof.
  intros Hf Ha Hx Hk Hi Es Ec Er Eb. pose proof (au_bound _ _ _ _ _ _ Ha) as Hb. pose proof (Forall2_length _ _ _ Hb) as Hl.
  pose proof (au_sorted _ _ _ _ _ _ Ha) as Hs. rewrite length_app, length_map in Hl. cbn [length] in Hl. apply lookup_lt_Some in Hx as Hkl.
  pose proof (fw_wf _ _ Hf) as Hw. unfold wf_published in Hw. rewrite !andb_true_iff, negb_true_iff, bool_decide_eq_false, bool_decide_eq_true in Hw.
  pose proof (fw_identity _ _ Hf) as Hid. rewrite Forall_forall in Hid. apply list_elem_of_lookup_2 in Hx as Hx0. apply Hid in Hx0 as [Hx1 Hx2].
  split; rewrite ?Es, ?Ec, ?Er, ?Eb; cbn [frontier_at ps_pond_id ps_ref_name ps_format generation].
  - apply (fw_state _ _ Hf).
  - tauto.
  - rewrite length_take. lia.
  - split; [done|]. unfold boundary_matches. by rewrite bool_decide_true.
  - assert (take k (map snd (publication_records g)) ++ [r] = take (S k) (map snd (publication_records g) ++ [b])) as E.
    { change (map snd) with (@fmap list _ _ _ (@snd bytes PublicationRecord)). rewrite take_app_le by (rewrite length_fmap; lia).
      symmetry. apply take_S_r. by rewrite list_lookup_fmap, Hx. }
    change (map snd) with (@fmap list _ _ _ (@snd bytes PublicationRecord)) in *. rewrite fmap_take, E.
    apply Forall2_same_length_lookup. split; [rewrite !length_take, length_app, length_fmap; cbn [length]; lia|].
    intros i y c [Hy _]%lookup_take_Some [Hc Hik]%lookup_take_Some. destruct (Forall2_lookup_lr _ _ _ _ _ _ Hb Hy Hc) as (z & Hz & Hbz).
    exists z. split; [|done]. apply lookup_take_Some. split; [done|]. destruct (decide (i = k)) as [->|]; [assert (c = ck) as -> by congruence; lia|].
    pose proof (indexes_lt idx i k _ _ Hs ltac:(lia) Hc Hi). lia.
  - by apply sorted_take.
  - pose proof (au_head _ _ _ _ _ _ Ha) as Hh. by destruct idx.
  - intros i y s p [Hy ?]%lookup_take_Some [Hs' _]%lookup_take_Some [Hp' ?]%lookup_take_Some.
    rewrite interval_take; [exact (au_accounts _ _ _ _ _ _ Ha i y s p Hy Hs' Hp')|].
    destruct (decide (S i = k)) as [<-|]; [assert (p = ck) as -> by congruence; lia|].
    pose proof (indexes_lt idx (S i) k _ _ Hs ltac:(lia) Hp' Hi). lia.
Qed.

Lemma state_at_frontier current rh r k :
  wf_published current = true -> 0 < generation current - Z.of_nat k -> state_at current rh r k = Ok (frontier_at current k (rh, r)).
Proof.
  unfold wf_published. rewrite !andb_true_iff, negb_true_iff, bool_decide_eq_false. intros Hw Hg. unfold state_at.
  rewrite ensure_bind by (apply Z.leb_le; lia). unfold state_new. rewrite bool_decide_false by tauto.
  by replace (generation current - Z.of_nat k <=? 0) with false by (symmetry; apply Z.leb_gt; lia).
Qed.

(** The squash fails on a discontinuity only. *)
Lemma squash_fails records :
  match squash_publication_changes records with
  | Ok _ => True
  | Err e => exists id, e = DeltaDiscontinuous id
  | Panic => False
  end.
Proof.
  unfold squash_publication_changes. generalize (∅ : gmap bytes ManifestChange).
  induction (concat (map (fun x => pub_changes x.2) (rev records))) as [|c cs IH]; intros acc; cbn [fold_pres]; [done|].
  assert (Hc : (exists acc', squash_change acc c = Ok acc') \/ exists id, squash_change acc c = Err (DeltaDiscontinuous id)).
  { unfold squash_change. destruct (acc !! change_node_id c); [case_bool_decide|]; eauto. }
  destruct Hc as [[acc' ->]|[id ->]]; cbn [mbind outcome_bind]; [apply IH|by exists id].
Qed.

(** The commit of record [k], and the window after it. *)
Lemma narrowed g a current bh b k x :
  fetched_window g current -> 0 < generation a -> authenticate_publication_window g a = Ok tt -> publication_boundary g = Some (bh, b) ->
  (0 < k)%nat -> publication_records g !! k = Some x ->
  match squash_publication_changes (take k (publication_records g)) with
  | Ok cs => exists g', narrow_publication_window_at g k = Ok (frontier_at current k x, g')
      /\ authenticate_publication_window g' (frontier_at current k x) = Ok tt
      /\ graph_changes g' = cs /\ graph_manifest g' = omap (fun c => entry <$> after c) cs
  | Err e => (exists id, e = DeltaDiscontinuous id) /\ narrow_publication_window_at g k = Err e
  | Panic => False
  end.
Proof.
  intros Hf Hg Ha%authenticate_Ok Eb Hk Hx. destruct Ha as (current' & bh' & b' & idx & Ha). pose proof (au_boundary _ _ _ _ _ _ Ha) as [Eb' _].
  rewrite Eb in Eb'. injection Eb' as <- <-. pose proof (au_state _ _ _ _ _ _ Ha) as Es. rewrite (fw_state _ _ Hf) in Es. injection Es as <-.
  destruct x as [rh r]. apply lookup_lt_Some in Hx as Hkl. pose proof (au_generation _ _ _ _ _ _ Ha) as [Hlt Hgen].
  destruct (authentic_index _ _ _ _ _ _ k r (fw_distinct _ _ Hf) Ha) as (ck & Hi & Hp).
  { rewrite lookup_app_l by (by rewrite length_map). change (map snd) with (@fmap list _ _ _ (@snd bytes PublicationRecord)). by rewrite list_lookup_fmap, Hx. }
  unfold narrow_publication_window_at. rewrite (fw_state _ _ Hf), Hx. cbn [require mbind outcome_bind]. rewrite Hp. cbn [require mbind outcome_bind].
  rewrite (bind_eq _ _ _ (state_at_frontier _ rh r k (fw_wf _ _ Hf) ltac:(lia))). pose proof (squash_fails (take k (publication_records g))) as Hs.
  destruct (squash_publication_changes _) as [cs|e|]; cbn [mbind outcome_bind]; [|done|done].
  eexists. split; [done|]. split_and!; try done. eapply authentic_accepted; [|by apply (authentic_prefix g a current bh b idx k rh r ck)].
  cbn [commits with_manifest with_window]. rewrite fmap_take. eapply sublist_NoDup; [apply (fw_distinct _ _ Hf)|apply sublist_take].
Qed.

(** Where the commits of the window follow each other, so do the records. *)
Lemma narrowed_net g a current bh b n m m' k x :
  fetched_window g current -> authenticate_publication_window g a = Ok tt -> publication_boundary g = Some (bh, b) ->
  position (binds b) (commits g) = Some n -> apply_changes m (commit_changes (take n (commits g))) = Some m' ->
  publication_records g !! k = Some x ->
  exists ck mk, position (binds x.2) (commits g) = Some ck
    /\ apply_changes m (commit_changes (interval (commits g) ck n)) = Some mk
    /\ apply_changes mk (commit_changes (take ck (commits g))) = Some m'
    /\ squash_publication_changes (take k (publication_records g)) = Ok (net mk m').
Proof.
  intros Hf Ha%authenticate_Ok Eb Hn Hm Hx. destruct Ha as (current' & bh' & b' & idx & Ha). pose proof (au_boundary _ _ _ _ _ _ Ha) as [Eb' _].
  rewrite Eb in Eb'. injection Eb' as <- <-. pose proof (au_state _ _ _ _ _ _ Ha) as Es. rewrite (fw_state _ _ Hf) in Es. injection Es as <-.
  destruct x as [rh r]. destruct (window_split _ _ _ _ _ _ _ k r _ _ Hf Ha Hn Hm) as (ck & mk & _ & Hp & _ & H1 & H2 & Hs).
  { apply lookup_lt_Some in Hx as Hkl. rewrite lookup_app_l by (by rewrite length_map). change (map snd) with (@fmap list _ _ _ (@snd bytes PublicationRecord)). by rewrite list_lookup_fmap, Hx. }
  by exists ck, mk.
Qed.

(** An authenticated window names exactly the net change of its commits: when the
    commits between the acknowledged publication and the active one take the
    acknowledged manifest [m] to [m'], squashing the publication records gives
    the nodes that differ between the two, in node order, and applying them to
    [m] gives [m']. *)
Theorem window_net_change (g : FetchedGraph) (a current : PublicationState) (bh : bytes) (b : PublicationRecord) (n : nat) (m m' : nodes) :
  fetched_window g current -> authenticate_publication_window g a = Ok tt -> publication_boundary g = Some (bh, b) ->
  position (binds b) (commits g) = Some n -> keyed m -> apply_changes m (commit_changes (take n (commits g))) = Some m' ->
  squash_publication_changes (publication_records g) = Ok (net m m') /\ apply_changes m (net m m') = Some m'.
Proof.
  intros Hf Ha Eb Hn Hk Hm. split; [by eapply window_net|]. apply net_applies; [done|]. by eapply apply_changes_keyed.
Qed.

End WindowSpec.

(** * Witnesses *)

(** Three publications of one commit each: the acknowledged one, one that creates
    two nodes, and one that rewrites the first and removes the second. *)
Definition ex_hash_of (c : Commit) : bytes := unwrap_or [] (@commit_hash mix_blake3 c).
Definition ex_step (parent : option bytes) (root : Z) (manifest : bytes) (changes : list ManifestChange) : Commit :=
  unwrap_or (ex_commit 0) (commit_new_with_delta PublicationV2 (to_le 32 root) parent manifest changes ex_objects [] (ex_prov root)).
(** The manifest map of the last one has one node. *)
Definition ex_head_node : ManifestMapNode := Leaf (@manifest_key mix_blake3 (bstr "a")) (ex_record (bstr "a") 3).
Definition ex_head_root : bytes := unwrap_or [] (@map_node_hash mix_blake3 ex_head_node).
Definition ex_c0 : Commit := ex_step None 1 (to_le 32 101) [].
Definition ex_c1 : Commit := ex_step (Some (ex_hash_of ex_c0)) 2 (to_le 32 102)
  [ {| before := None; after := Some (ex_record (bstr "a") 1) |}; {| before := None; after := Some (ex_record (bstr "b") 2) |} ].
Definition ex_c2 : Commit := ex_step (Some (ex_hash_of ex_c1)) 3 ex_head_root
  [ {| before := Some (ex_record (bstr "a") 1); after := Some (ex_record (bstr "a") 3) |};
    {| before := Some (ex_record (bstr "b") 2); after := None |} ].
Definition ex_publish (c : Commit) (parent : option bytes) : PublicationRecord :=
  unwrap_or {| pub_format := []; pub_pond_id := []; ref_name := []; Commit.snapshot_tip := []; pub_manifest_root := [];
               parent_publication_record := None; pub_objects := []; pub_packs := []; pub_changes := [] |}
    (publication_new (repeat Byte.x01 16) (bstr "main") (ex_hash_of c) (manifest_root c) parent
       ({| obj_hash := ex_hash_of c; obj_kind := CommitObject |} :: introduced_objects c) [] (manifest_changes c)).
Definition ex_key_of (r : PublicationRecord) : bytes := unwrap_or [] (@publication_hash mix_blake3 r).
Definition ex_r0 : PublicationRecord := ex_publish ex_c0 None.
Definition ex_r1 : PublicationRecord := ex_publish ex_c1 (Some (ex_key_of ex_r0)).
Definition ex_r2 : PublicationRecord := ex_publish ex_c2 (Some (ex_key_of ex_r1)).
Definition ex_published (r : PublicationRecord) (gen : Z) : PublicationState :=
  {| ps_pond_id := repeat Byte.x01 16; ps_ref_name := bstr "main"; ps_format := NATIVE_FORMAT_V2; snapshot_tip := Commit.snapshot_tip r;
     ps_manifest_root := pub_manifest_root r; publication_record := ex_key_of r; generation := gen; updated_at := 0 |}.
Definition ex_window : FetchedGraph :=
  {| tip := Some (ex_hash_of ex_c2); publication_state := Some (ex_published ex_r2 5);
     commits := [(ex_hash_of ex_c2, ex_c2); (ex_hash_of ex_c1, ex_c1); (ex_hash_of ex_c0, ex_c0)];
     objects := ∅; trees := ∅; series := ∅; blob_hashes := ∅; fetched_bytes := ∅; external_blobs := ∅; graph_manifest := []; graph_changes := [];
     manifest_complete := false; publication_packs := ∅;
     publication_records := [(ex_key_of ex_r2, ex_r2); (ex_key_of ex_r1, ex_r1)]; publication_boundary := Some (ex_key_of ex_r0, ex_r0) |}.
Definition ex_after : nodes := {[ bstr "a" := ex_record (bstr "a") 3 ]}.

(** A decision procedure for the examples. *)
Definition side_valid (o : option ManifestRecord) : bool :=
  match o with Some r => match record_new (entry r) (children r) with Ok r' => bool_decide (r' = r) | _ => false end | None => true end.
Definition change_valid (c : ManifestChange) : bool :=
  match change_new (before c) (after c) with Ok c' => bool_decide (c' = c) | _ => false end && side_valid (before c) && side_valid (after c).

Lemma side_valid_spec o r : side_valid o = true -> o = Some r -> valid_record r.
Proof. intros Hs ->. unfold side_valid in Hs. unfold valid_record. destruct (record_new _ _); try done. by apply bool_decide_eq_true in Hs as ->. Qed.

Lemma changes_valid cs : forallb change_valid cs = true -> Forall valid_change cs.
Proof.
  rewrite forallb_Forall, !Forall_forall. intros Hc c Hin. specialize (Hc c Hin). unfold change_valid in Hc. rewrite !andb_true_iff in Hc.
  destruct Hc as [[H1 H2] H3]. split; [|split; intros r; by apply side_valid_spec].
  destruct (change_new _ _); try done. by apply bool_decide_eq_true in H1 as ->.
Qed.

Lemma ex_window_fetched : fetched_window ex_window (ex_published ex_r2 5).
Proof.
  split; [done|vm_compute; done|apply (bool_decide_unpack _); vm_compute; exact I| |apply (bool_decide_unpack _); vm_compute; exact I|];
    apply Forall_forall; intros x Hx; cbn [publication_records commits ex_window] in Hx;
    repeat (apply elem_of_cons in Hx as [->|Hx]; [split; [vm_compute; reflexivity|apply changes_valid; vm_compute; reflexivity]|]);
    by apply elem_of_nil in Hx.
Qed.

Lemma window_net_change_witness :
  squash_publication_changes (publication_records ex_window) = Ok (net ∅ ex_after) /\ apply_changes ∅ (net ∅ ex_after) = Some ex_after.
Proof.
  apply (@window_net_change mix_blake3 ex_window (ex_published ex_r0 3) (ex_published ex_r2 5) (ex_key_of ex_r0) ex_r0 2).
  - exact ex_window_fetched.
  - vm_compute. reflexivity.
  - reflexivity.
  - vm_compute. reflexivity.
  - intros id r Hr. by rewrite lookup_empty in Hr.
  - vm_compute. reflexivity.
Defined.

