(* ===== verification/PullSeries.v ===== *)
(** Series on the consumer's side, [crates/steward/src/content_pull.rs]: the walk
    of the linked pack segments of a series, the checks that make every segment
    an exact Merkle append of its parent, the extension of a fetched suffix to an
    older frontier, and the planning of the suffix a destination is missing. *)

From stdpp Require Import base list gmap numbers strings sorting options.
From Stdlib Require Import ZArith Lia.
From S2P Require Import Prelude RustStd EntryType Wire CanonicalJson Tree Manifest PatriciaMap Commit SeriesMerkle SeriesManifest SeriesPack Publication PullGraph PullChain.

Open Scope Z_scope.

Definition descriptor_bounds (ds : list PackLeafDescriptor) : option Z * option Z :=
  (fold_left (aggregate Z.min) (map d_min ds) None, fold_left (aggregate Z.max) (map d_max ds) None).

(** [(Some(l), Some(r)) => Some(l.min(r)), (l, r) => l.or(r)]. *)
Definition join_bound (f : Z -> Z -> Z) (l r : option Z) : option Z :=
  match l, r with
  | Some a, Some b => Some (f a b)
  | Some a, None => Some a
  | None, r => r
  end.

Definition expected_payload_kind (t : EntryType) : pres PayloadKind :=
  match t with
  | FilePhysicalSeries => Ok File
  | TablePhysicalSeries => Ok Table
  | _ => Panic
  end.

(** The first occurrence of each element. *)
Fixpoint first_seen (seen : gset bytes) (l : list bytes) : list bytes :=
  match l with
  | [] => []
  | x :: l => if bool_decide (x ∈ seen) then first_seen seen l else x :: first_seen ({[x]} ∪ seen) l
  end.

Definition pack_leaves (p : PackIndex) : list bytes := leaf_hashes (leaf_descriptors p).

Definition named_objects (ps : list (bytes * PackIndex)) : list bytes :=
  first_seen ∅ (concat (map (fun x => physical_object_hashes x.2) ps)).

Section Series.
Context `{Blake3} `{JsonParser} `{ContentSource}.

Definition fetch_pack (d : PackDescriptor) : pres PackIndex :=
  found ← ask (get_publication_pack d);
  b ← require found (PackAbsent (Commit.pack_hash d));
  _ ← ensure (bool_decide (of_bytes b = Commit.pack_hash d)) (HashMismatch (of_bytes b) (Commit.pack_hash d));
  p ← content (pack_decode b);
  _ ← ensure (bool_decide (series_hash p = Commit.series_hash d)) (PackSeries (Commit.pack_hash d));
  _ ← content (validate_series_segment p);
  mret p.

Definition verify_series_segment (h : bytes) (m : SeriesManifest) (p : PackIndex) (leaves : list bytes) : pres unit :=
  match parent_series_hash p with
  | None => content (verify_complete_pack_against_manifest h m p)
  | Some _ => content (verify_pack_against_manifest h m p leaves)
  end.

Definition verify_series_extension (parent_hash : bytes) (parent : SeriesManifest) (h : bytes) (m : SeriesManifest)
    (p : PackIndex) (leaves : list bytes) : pres unit :=
  _ ← ensure (bool_decide (parent_series_hash p = Some parent_hash)) (ParentLink parent_hash);
  _ ← ensure (bool_decide (sm_kind parent = sm_kind m)) (ParentKind h);
  _ ← ensure (leaf_start p =? sm_leaf_count parent) (ParentLeaves parent_hash);
  _ ← ensure (sm_logical_count parent + pack_count p <=? u64_max) LogicalOverflow;
  _ ← ensure (sm_logical_count parent + pack_count p =? sm_logical_count m) (LogicalCount h);
  let '(mn, mx) := descriptor_bounds (leaf_descriptors p) in
  _ ← ensure (bool_decide (join_bound Z.min (sm_min parent) mn = sm_min m) && bool_decide (join_bound Z.max (sm_max parent) mx = sm_max m))
        (AggregateBounds h);
  _ ← ensure (bool_decide ((last (leaf_descriptors p) ≫= d_attributes) = sm_attributes m)) (LatestAttributes h);
  extended ← content (extended (merkle_frontier parent) leaves);
  ensure (bool_decide (extended = merkle_frontier m)) (NotMerkleAppend h).

(** The pack that represents a series state. *)
Definition locate_pack (consolidated : bool) (h : bytes) : pres PackDescriptor :=
  found ← (if consolidated then
             preferred ← ask (get_consolidated_series_pack h);
             match preferred with Some d => mret (Some d) | None => ask (get_series_pack h) end
           else ask (get_series_pack h));
  require found (NoSeriesPack h).

Definition fetch_manifest (h : bytes) : pres SeriesManifest :=
  b ← fetch_verified h;
  content (series_decode b).

(** The loop over the linked segments: the packs read, newest first, and the state
    below them when the walk stops above the root. *)
Fixpoint segment_loop (fuel : nat) (complete : bool) (window : gmap bytes (list PackDescriptor)) (h : bytes) (m : SeriesManifest)
    (seen : gset bytes) : pres (list (bytes * PackIndex) * option (bytes * SeriesManifest)) :=
  match fuel with
  | O => Err OutOfFuel
  | S fuel =>
      _ ← ensure (bool_decide (h ∉ seen)) (SeriesCycle h);
      d ← locate_pack complete h;
      p ← fetch_pack d;
      _ ← verify_series_segment h m p (pack_leaves p);
      match parent_series_hash p with
      | None => Ok ([(Commit.pack_hash d, p)], None)
      | Some parent_hash =>
          parent ← fetch_manifest parent_hash;
          _ ← verify_series_extension parent_hash parent h m p (pack_leaves p);
          if complete || bool_decide (is_Some (window !! parent_hash)) then
            rest ← segment_loop fuel complete window parent_hash parent ({[h]} ∪ seen);
            let '(older, base) := rest in
            mret ((Commit.pack_hash d, p) :: older, base)
          else Ok ([(Commit.pack_hash d, p)], Some (parent_hash, parent))
      end
  end.

Definition fetch_series_v2 (h : bytes) (t : EntryType) (m : SeriesManifest) (b : bytes) (complete : bool) (g : FetchedGraph) : pres FetchedGraph :=
  kind ← expected_payload_kind t;
  _ ← ensure (bool_decide (sm_kind m = kind)) (SeriesKind h);
  if sm_leaf_count m =? 0 then
    Ok (add_series h {| manifest_hash := h; manifest := m; packs := []; fetched_start := 0; fetched_leaves := []; base_series_hash := None;
                        base_manifest := None; fetched_objects := [] |} b g)
  else
    walked ← segment_loop (S (Z.to_nat (sm_leaf_count m))) complete (publication_packs g) h m ∅;
    let '(newest_first, base) := walked in
    let ps := rev newest_first in
    let start := match ps with (_, p) :: _ => leaf_start p | [] => sm_leaf_count m end in
    let leaves := concat (map (fun x => pack_leaves x.2) ps) in
    _ ← match base with
        | Some (_, base_m) =>
            extended ← content (extended (merkle_frontier base_m) leaves);
            ensure (bool_decide (extended = merkle_frontier m)) (NotExtended h)
        | None =>
            root ← content (merkle_root leaves);
            ensure ((start =? 0) && (Z.of_nat (length leaves) =? sm_leaf_count m) && bool_decide (root = leaf_merkle_root m)) (ChainIncomplete h)
        end;
    mret (add_series h {| manifest_hash := h; manifest := m; packs := ps; fetched_start := start; fetched_leaves := leaves;
                          base_series_hash := fst <$> base; base_manifest := snd <$> base; fetched_objects := named_objects ps |} b g).

Definition fetch_series (h : bytes) (t : EntryType) (complete : bool) (g : FetchedGraph) : pres FetchedGraph :=
  match series g !! h with
  | Some s =>
      kind ← expected_payload_kind t;
      _ ← ensure (bool_decide (sm_kind (manifest s) = kind)) (SeriesKind h);
      mret g
  | None =>
      b ← fetch_verified h;
      m ← content (series_decode b);
      fetch_series_v2 h t m b complete g
  end.

(** ** Extending a fetched suffix *)

(** [while series.leaf_start > desired_leaf_start]. *)
Fixpoint coverage_loop (fuel : nat) (desired : Z) (prefer_consolidated : bool) (s : FetchedSeriesV2) : pres FetchedSeriesV2 :=
  match fuel with
  | O => Err OutOfFuel
  | S fuel =>
      if fetched_start s <=? desired then Ok s else
      h ← require (base_series_hash s) (ChainEnds (manifest_hash s));
      m ← require (base_manifest s) (BaseWithoutManifest (manifest_hash s));
      d ← locate_pack prefer_consolidated h;
      p ← fetch_pack d;
      _ ← verify_series_segment h m p (pack_leaves p);
      _ ← ensure (leaf_end p =? fetched_start s) (PredecessorEnd (leaf_end p) (fetched_start s));
      parent ← match parent_series_hash p with
               | Some parent_hash =>
                   parent ← fetch_manifest parent_hash;
                   _ ← verify_series_extension parent_hash parent h m p (pack_leaves p);
                   mret (Some (parent_hash, parent))
               | None => Ok None
               end;
      coverage_loop fuel desired prefer_consolidated
        {| manifest_hash := manifest_hash s; manifest := manifest s; packs := (Commit.pack_hash d, p) :: packs s; fetched_start := leaf_start p;
           fetched_leaves := pack_leaves p ++ fetched_leaves s; base_series_hash := fst <$> parent; base_manifest := snd <$> parent;
           fetched_objects := fetched_objects s |}
  end.

Definition ensure_series_coverage (desired : Z) (prefer_consolidated : bool) (s : FetchedSeriesV2) : pres FetchedSeriesV2 :=
  _ ← ensure (desired <=? sm_leaf_count (manifest s)) (FrontierBeyond desired (sm_leaf_count (manifest s)));
  s ← coverage_loop (S (Z.to_nat (fetched_start s))) desired prefer_consolidated s;
  mret {| manifest_hash := manifest_hash s; manifest := manifest s; packs := packs s; fetched_start := fetched_start s;
          fetched_leaves := fetched_leaves s; base_series_hash := base_series_hash s; base_manifest := base_manifest s;
          fetched_objects := named_objects (packs s) |}.

(** ** The suffix a destination is missing *)

(** The retained prefix of the descriptors, on top of the base. *)
Definition retain (acc : Z * option Z * option Z * option bytes) (d : PackLeafDescriptor) : pres (Z * option Z * option Z * option bytes) :=
  let '(count, mn, mx, _) := acc in
  _ ← ensure (count + d_count d <=? u64_max) LogicalOverflow;
  mret (count + d_count d, aggregate Z.min mn (d_min d), aggregate Z.max mx (d_max d), d_attributes d).

Definition plan_series_v2_leaves (e : ManifestEntry) (s : FetchedSeriesV2) (target_leaves : gmap bytes (list bytes))
    (target_manifests : gmap bytes SeriesManifest) (existing : option bytes) : pres Z :=
  match existing with
  | None =>
      _ ← ensure (bool_decide (base_series_hash s = None) && (fetched_start s =? 0)) (SuffixOnly (node_id e));
      mret 0
  | Some held_hash =>
      if bool_decide (held_hash = node_hash e) then Ok (sm_leaf_count (manifest s)) else
      match target_manifests !! node_id e with
      | Some held =>
          hh ← content (series_object_hash held);
          _ ← ensure (bool_decide (hh = held_hash)) (PriorManifestHash (node_id e));
          let held_count := sm_leaf_count held in
          _ ← ensure ((fetched_start s <=? held_count) && (held_count <=? sm_leaf_count (manifest s))) (CoverageBounds (node_id e));
          let prefix := Z.to_nat (held_count - fetched_start s) in
          base ← match base_manifest s with
                 | Some b => if sm_leaf_count b =? fetched_start s then Ok (merkle_frontier b) else Err (NoFrontier (node_id e))
                 | None => if fetched_start s =? 0 then Ok frontier_empty else Err (NoFrontier (node_id e))
                 end;
          _ ← (if (length (fetched_leaves s) <? prefix)%nat then Panic else Ok tt);
          reconstructed ← content (extended base (take prefix (fetched_leaves s)));
          _ ← ensure (bool_decide (reconstructed = merkle_frontier held)) (FrontierMismatch (node_id e));
          _ ← ensure (bool_decide (sm_kind held = sm_kind (manifest s))) (RetainedKind (node_id e));
          retained ← fold_pres retain (take prefix (concat (map (fun x => leaf_descriptors x.2) (packs s))))
                       (default 0 (sm_logical_count <$> base_manifest s), base_manifest s ≫= sm_min, base_manifest s ≫= sm_max,
                        base_manifest s ≫= sm_attributes);
          let '(count, mn, mx, attrs) := retained in
          _ ← ensure (bool_decide (sm_logical_count held = count /\ sm_min held = mn /\ sm_max held = mx /\ sm_attributes held = attrs))
                (RetainedMetadata (node_id e));
          mret held_count
      | None =>
          held ← require (target_leaves !! node_id e) (NoPriorManifest (node_id e));
          _ ← ensure ((fetched_start s =? 0) && (length held <=? length (fetched_leaves s))%nat
                      && bool_decide (take (length held) (fetched_leaves s) = held)) (Diverged (node_id e));
          mret (Z.of_nat (length held))
      end
  end.
End Series.
