(* ===== verification/PullSeriesSpec.v ===== *)
(** What a fetched series is: the frontier of a series commits to its past, up to
    a collision of the strings the code hashes, so that the series the consumer
    accepts has the leaves its manifest commits to. *)

From stdpp Require Import base list sets numbers strings sorting gmap options.
From Stdlib Require Import ZArith Lia.
From S2P Require Import Prelude RustStd EntryType Wire SeriesMerkle CanonicalJson Tree Manifest PatriciaMap Commit SeriesManifest SeriesPack Publication PullGraph PullChain PullSeries.

Open Scope Z_scope.

Section Append.
Context `{Blake3}.
#[local] Set Default Proof Using "Type*".

(** * The strings hashed *)

(** By [frontier_root], over the peaks from the last one. *)
Fixpoint fold_peak_inputs (rest : list FrontierPeak) (acc : bytes) : list bytes :=
  match rest with
  | [] => []
  | p :: rest => interior_input (peak_hash p) acc :: fold_peak_inputs rest (interior_hash (peak_hash p) acc)
  end.
Definition root_inputs (f : MerkleFrontier) : list bytes :=
  match rev (peaks f) with [] => [] | p :: rest => fold_peak_inputs rest (peak_hash p) end.

(** By [append] and [extended]. *)
Fixpoint merge_inputs (rpeaks : list FrontierPeak) (carry : FrontierPeak) : list bytes :=
  match rpeaks with
  | p :: rest =>
      if peak_count p =? peak_count carry then
        interior_input (peak_hash p) (peak_hash carry)
        :: merge_inputs rest {| peak_count := peak_count carry * 2; peak_hash := interior_hash (peak_hash p) (peak_hash carry) |}
      else []
  | [] => []
  end.
Definition append_inputs (leaf : bytes) (f : MerkleFrontier) : list bytes :=
  leaf_input leaf :: merge_inputs (rev (peaks f)) {| peak_count := 1; peak_hash := leaf_node_hash leaf |}.
Fixpoint extend_inputs (f : MerkleFrontier) (leaves : list bytes) : list bytes :=
  match leaves with
  | [] => []
  | leaf :: leaves => append_inputs leaf f ++ match frontier_append leaf f with Ok f => extend_inputs f leaves | _ => [] end
  end.

(** * Injectivity *)

Definition hashed_peaks (ps : list FrontierPeak) : Prop := Forall (fun p => wf_hash (peak_hash p) = true) ps.

Lemma interior_hash_wf l r : wf_hash (interior_hash l r) = true.
Proof. apply bool_decide_true, blake3_len. Qed.

Lemma interior_hash_inj l r l' r' :
  wf_hash l = true -> wf_hash l' = true -> interior_hash l r = interior_hash l' r' ->
  (l = l' /\ r = r') \/ blake_collision [interior_input l r] [interior_input l' r'].
Proof.
  intros Hl Hl' E. destruct (decide (interior_input l r = interior_input l' r')) as [Ei|Hne].
  - left. by apply interior_input_inj.
  - right. exists (interior_input l r), (interior_input l' r'). split_and!; [set_solver..|done|done].
Qed.

Lemma fold_peaks_inj rest1 rest2 acc1 acc2 :
  length rest1 = length rest2 -> hashed_peaks rest1 -> hashed_peaks rest2 ->
  fold_left (fun root p => interior_hash (peak_hash p) root) rest1 acc1 = fold_left (fun root p => interior_hash (peak_hash p) root) rest2 acc2 ->
  (acc1 = acc2 /\ map peak_hash rest1 = map peak_hash rest2) \/ blake_collision (fold_peak_inputs rest1 acc1) (fold_peak_inputs rest2 acc2).
Proof.
  revert rest2 acc1 acc2. induction rest1 as [|p rest1 IH]; intros [|q rest2] acc1 acc2 Hl H1 H2 E; try done; [by left|].
  apply Forall_cons in H1 as [Hp H1]. apply Forall_cons in H2 as [Hq H2]. cbn [fold_left fold_peak_inputs map] in *.
  destruct (IH rest2 _ _ ltac:(cbn [length] in Hl; lia) H1 H2 E) as [[Ea Em]|Hc].
  - destruct (interior_hash_inj _ _ _ _ Hp Hq Ea) as [[-> ->]|Hc]; [left; by rewrite Em|]. right. eapply blake_collision_mono; [| |exact Hc]; set_solver.
  - right. eapply blake_collision_mono; [| |exact Hc]; set_solver.
Qed.

(** Equal counts and equal hashes make equal peaks. *)
Lemma peaks_ext ps qs : map peak_count ps = map peak_count qs -> map peak_hash ps = map peak_hash qs -> ps = qs.
Proof.
  revert qs. induction ps as [|[c h] ps IH]; intros [|[c' h'] qs] Hc Hh; simpl in *; try done. injection Hc as -> Hc. injection Hh as -> Hh. f_equal. by apply IH.
Qed.

(** Two frontiers of one shape. *)
Record similar (f g : MerkleFrontier) : Prop := {
  si_count : leaf_count f = leaf_count g;
  si_counts : map peak_count (peaks f) = map peak_count (peaks g);
  si_left : hashed_peaks (peaks f);
  si_right : hashed_peaks (peaks g);
}.

Lemma frontier_ext f g : similar f g -> map peak_hash (peaks f) = map peak_hash (peaks g) -> f = g.
Proof. intros [Hn Hc _ _] Hh. destruct f, g. simpl in *. f_equal; [done|]. by apply peaks_ext. Qed.

Lemma hashed_peaks_rev ps : hashed_peaks ps -> hashed_peaks (rev ps).
Proof. unfold hashed_peaks. rewrite !Forall_forall. intros Hp p. rewrite list_elem_of_In, <- in_rev, <- list_elem_of_In. apply Hp. Qed.

Lemma frontier_root_inj f g :
  similar f g -> frontier_root f = frontier_root g -> f = g \/ blake_collision (root_inputs f) (root_inputs g).
Proof.
  intros Hs. pose proof Hs as [_ Hc Hf Hg]. unfold frontier_root, root_inputs.
  apply (f_equal (@rev Z)) in Hc. rewrite <- !map_rev in Hc. apply hashed_peaks_rev in Hf. apply hashed_peaks_rev in Hg.
  assert (Hx : map peak_hash (rev (peaks f)) = map peak_hash (rev (peaks g)) -> f = g).
  { intros E. apply frontier_ext; [done|]. apply (f_equal (@rev bytes)) in E. by rewrite <- !map_rev, !rev_involutive in E. }
  destruct (rev (peaks f)) as [|p ps], (rev (peaks g)) as [|q qs]; try done; [intros _; left; by apply Hx|].
  intros E. apply Forall_cons in Hf as [_ Hf]. apply Forall_cons in Hg as [_ Hg]. simpl in Hc. injection Hc as _ Hc.
  destruct (fold_peaks_inj ps qs _ _ ltac:(apply (f_equal length) in Hc; by rewrite !length_map in Hc) Hf Hg E) as [[E1 E2]|Hcol]; [|by right].
  left. apply Hx. simpl. by rewrite E1, E2.
Qed.

Lemma merge_carry_inj ps qs c d r k :
  map peak_count ps = map peak_count qs -> peak_count c = peak_count d -> hashed_peaks ps -> hashed_peaks qs ->
  merge_carry ps c = Ok (r, k) -> merge_carry qs d = Ok (r, k) ->
  (map peak_hash ps = map peak_hash qs /\ peak_hash c = peak_hash d) \/ blake_collision (merge_inputs ps c) (merge_inputs qs d).
Proof.
  revert qs c d. induction ps as [|p ps IH]; intros [|q qs] c d Hcs Hcd Hp Hq; cbn [merge_carry merge_inputs map] in *; try done.
  - intros [= <- <-] [= ->]. by left.
  - injection Hcs as Hpq Hcs. apply Forall_cons in Hp as [Hp1 Hp]. apply Forall_cons in Hq as [Hq1 Hq]. rewrite <- Hpq, <- Hcd.
    destruct (peak_count p =? peak_count c).
    + destruct (u64_max <? peak_count c * 2); [done|]. intros E1 E2.
      pose proof (fun Hcd => IH qs _ _ Hcs Hcd Hp Hq E1 E2) as Hi. destruct (Hi eq_refl) as [[Em Eh]|Hc].
      * cbn [peak_hash] in Eh. destruct (interior_hash_inj _ _ _ _ Hp1 Hq1 Eh) as [[-> ->]|Hc]; [left; by rewrite Em|].
        right. eapply blake_collision_mono; [| |exact Hc]; set_solver.
      * right. eapply blake_collision_mono; [| |exact Hc]; set_solver.
    + intros [= <- <-] [= E1 E2 E3]. left. split; [by rewrite E1, E2|by rewrite E3].
Qed.

(** Merging keeps the shape. *)
Lemma merge_carry_shape ps qs c d r k r' k' :
  map peak_count ps = map peak_count qs -> peak_count c = peak_count d -> hashed_peaks ps -> wf_hash (peak_hash c) = true ->
  merge_carry ps c = Ok (r, k) -> merge_carry qs d = Ok (r', k') ->
  map peak_count r = map peak_count r' /\ peak_count k = peak_count k' /\ hashed_peaks r /\ wf_hash (peak_hash k) = true.
Proof.
  revert qs c d. induction ps as [|p ps IH]; intros [|q qs] c d Hcs Hcd Hp Hc; cbn [merge_carry map] in *; try done.
  - intros [= <- <-] [= <- <-]. done.
  - injection Hcs as Hpq Hcs. apply Forall_cons in Hp as [Hp1 Hp]. rewrite <- Hpq, <- Hcd. destruct (peak_count p =? peak_count c).
    + destruct (u64_max <? peak_count c * 2); [done|]. apply IH; try done. apply interior_hash_wf.
    + intros [= <- <-] [= <- <-]. cbn [map]. split_and!; [by rewrite Hpq, Hcs|done|by apply Forall_cons|done].
Qed.

Lemma append_similar leaf f g f' g' :
  similar f g -> frontier_append leaf f = Ok f' -> frontier_append leaf g = Ok g' -> similar f' g'.
Proof.
  intros [Hn Hc Hf Hg] Ef Eg. unfold frontier_append in *. rewrite <- Hn in Eg.
  destruct (u64_max <? leaf_count f + 1); [done|]. apply bind_Ok in Ef as ([r k] & Ef & E1). apply bind_Ok in Eg as ([r' k'] & Eg & E2).
  apply Ok_inj in E1 as <-. apply Ok_inj in E2 as <-. apply (f_equal (@rev Z)) in Hc. rewrite <- !map_rev in Hc.
  assert (Hl : wf_hash (leaf_node_hash leaf) = true) by (apply bool_decide_true, blake3_len).
  set (c := {| peak_count := 1; peak_hash := leaf_node_hash leaf |}) in *.
  destruct (merge_carry_shape _ _ c c _ _ _ _ Hc eq_refl (hashed_peaks_rev _ Hf) Hl Ef Eg) as (H1 & H2 & H3 & H4).
  destruct (merge_carry_shape _ _ c c _ _ _ _ (eq_sym Hc) eq_refl (hashed_peaks_rev _ Hg) Hl Eg Ef) as (_ & _ & H5 & H6).
  split; cbn [leaf_count peaks]; [done| | |].
  - rewrite !map_app, !map_rev, H1. simpl. by rewrite H2.
  - apply Forall_app. split; [by apply hashed_peaks_rev|by apply Forall_singleton].
  - apply Forall_app. split; [by apply hashed_peaks_rev|by apply Forall_singleton].
Qed.

Lemma append_inj leaf f g f' :
  similar f g -> frontier_append leaf f = Ok f' -> frontier_append leaf g = Ok f' ->
  f = g \/ blake_collision (append_inputs leaf f) (append_inputs leaf g).
Proof.
  intros Hs Ef Eg. pose proof Hs as [Hn Hc Hf Hg]. unfold frontier_append in *. rewrite <- Hn in Eg.
  destruct (u64_max <? leaf_count f + 1); [done|]. apply bind_Ok in Ef as ([r k] & Ef & E1). apply bind_Ok in Eg as ([r' k'] & Eg & E2).
  apply Ok_inj in E1 as <-. apply Ok_inj in E2. injection E2 as E2. apply app_inj_tail in E2 as [E2 ->].
  apply (f_equal (@rev FrontierPeak)) in E2. rewrite !rev_involutive in E2. subst r'.
  apply (f_equal (@rev Z)) in Hc. rewrite <- !map_rev in Hc.
  destruct (merge_carry_inj _ _ _ _ _ _ Hc eq_refl (hashed_peaks_rev _ Hf) (hashed_peaks_rev _ Hg) Ef Eg) as [[Em _]|Hcol].
  - left. apply frontier_ext; [done|]. apply (f_equal (@rev bytes)) in Em. by rewrite <- !map_rev, !rev_involutive in Em.
  - right. eapply blake_collision_mono; [| |exact Hcol]; unfold append_inputs; set_solver.
Qed.

Lemma extended_inj f g leaves f' :
  similar f g -> extended f leaves = Ok f' -> extended g leaves = Ok f' ->
  f = g \/ blake_collision (extend_inputs f leaves) (extend_inputs g leaves).
Proof.
  revert f g. induction leaves as [|x leaves IH]; intros f g Hs; cbn [extended extend_inputs]; [intros [= ->] [= ->]; by left|].
  intros (f1 & Ef & E1)%bind_Ok (g1 & Eg & E2)%bind_Ok. rewrite Ef, Eg.
  destruct (IH f1 g1 (append_similar _ _ _ _ _ Hs Ef Eg) E1 E2) as [->|Hc].
  - destruct (append_inj _ _ _ _ Hs Ef Eg) as [->|Hc]; [by left|]. right. eapply blake_collision_mono; [| |exact Hc]; set_solver.
  - right. eapply blake_collision_mono; [| |exact Hc]; set_solver.
Qed.

(** * Frontiers of leaves *)

Lemma frontier_of_hashed f leaves : frontier_of f leaves -> hashed_peaks (peaks f).
Proof.
  intros [_ [ps Ht]]. rewrite <- (rev_involutive (peaks f)). apply hashed_peaks_rev. induction Ht as [|b p ps rp l c _ _ _ IH]; [constructor|].
  constructor; [apply series_head_wf|done].
Qed.

Lemma from_peak_hashes_counts n hs f : from_peak_hashes n hs = Ok f -> frontier_peak_counts n = Ok (map peak_count (peaks f)).
Proof.
  unfold from_peak_hashes. generalize (frontier_peak_counts n). intros [cs| |]; cbn [mbind outcome_bind]; [|done|done].
  case_bool_decide as El; [|done]. intros E%Ok_inj. rewrite <- E. cbn [peaks]. f_equal. clear E. revert hs El.
  induction cs as [|c cs IH]; intros [|h hs] El; simpl in *; try done. f_equal. apply IH. lia.
Qed.

(** A well-formed frontier has the shape of the frontier of any run of its size. *)
Lemma shape_of f g leaves :
  from_peak_hashes (leaf_count f) (peak_hashes f) = Ok f -> hashed_peaks (peaks f) -> frontier_of g leaves ->
  leaf_count f = Z.of_nat (length leaves) -> Z.of_nat (length leaves) < 2 ^ 64 -> similar f g.
Proof.
  intros Hf%from_peak_hashes_counts Hw Hg Hn Hb. destruct (frontier_counts g leaves Hg Hb) as [Hc _]. pose proof Hg as [Hgn _].
  split; [congruence| |done|by eapply frontier_of_hashed]. rewrite Hn, <- Hgn, Hc in Hf. by apply Ok_inj in Hf.
Qed.

Lemma extend_inputs_app f l1 l2 f1 : extended f l1 = Ok f1 -> extend_inputs f1 l2 ⊆ extend_inputs f (l1 ++ l2).
Proof.
  revert f. induction l1 as [|x l1 IH]; intros f; cbn [extended app extend_inputs]; [by intros [= ->]|].
  intros (f2 & E & He)%bind_Ok. rewrite E. pose proof (IH f2 He). set_solver.
Qed.
End Append.

(** What a consumer holds after it fetched a series: the fetched leaves are the
    leaves of the series the manifest commits to, whatever the source answered,
    and the planned suffix is exactly what the destination is missing. *)

Section SeriesSpec.
Context `{Blake3} `{JsonParser} `{ContentSource}.
#[local] Set Default Proof Using "Type*".

(** * The strings hashed *)

(** For the series itself, at any of its states. *)
Definition state_inputs (leaves : list bytes) : list bytes :=
  series_inputs leaves ++ match from_leaves leaves with Ok f => root_inputs f | _ => [] end.
Definition honest_inputs (leaves : list bytes) : list bytes :=
  concat (map (fun n => state_inputs (take n leaves)) (seq 0 (S (length leaves)))) ++ extend_inputs frontier_empty leaves.

(** One step of the walk: a state, its pack, and the parent state if it was read. *)
Record link := { link_manifest : SeriesManifest; link_pack : PackIndex; link_parent : option SeriesManifest }.

Definition link_inputs (k : link) : list bytes :=
  root_inputs (merkle_frontier (link_manifest k))
  ++ range_inputs (total_leaf_count (link_pack k)) (leaf_start (link_pack k)) (leaf_end (link_pack k)) (pack_leaves (link_pack k)) (pack_proof (link_pack k))
  ++ match link_parent k with Some m => extend_inputs (merkle_frontier m) (pack_leaves (link_pack k)) | None => [] end.

Definition walk_inputs (ks : list link) : list bytes := concat (map link_inputs ks).

Lemma state_inputs_honest n leaves : (n <= length leaves)%nat -> state_inputs (take n leaves) ⊆ honest_inputs leaves.
Proof.
  intros Hn x Hx. unfold honest_inputs. apply elem_of_app. left. apply list_elem_of_In, in_concat. exists (state_inputs (take n leaves)).
  split; [|by apply list_elem_of_In]. apply in_map_iff. exists n. split; [done|]. apply in_seq. lia.
Qed.

Lemma honest_prefix n leaves : honest_inputs (take n leaves) ⊆ honest_inputs leaves.
Proof.
  intros x [Hx|Hx]%elem_of_app.
  - apply list_elem_of_In, in_concat in Hx as (l & (i & <- & Hi%in_seq)%in_map_iff & Hx%list_elem_of_In). rewrite take_take, length_take in *.
    eapply state_inputs_honest; [|exact Hx]. lia.
  - apply elem_of_app. right. replace (extend_inputs frontier_empty leaves) with (extend_inputs frontier_empty (take n leaves ++ drop n leaves)) by (by rewrite take_drop).
    revert x Hx. generalize frontier_empty as f, (drop n leaves) as l2, (take n leaves) as l1. clear. intros f l2 l1. revert f. induction l1 as [|y l1 IH]; intros f x; cbn [app extend_inputs]; [set_solver|]. rewrite !elem_of_app. intros [?|Hx]; [by left|right].
    destruct (frontier_append y f); [by apply IH|done|done].
Qed.

(** * Manifests *)

(** A manifest as the decoder returns it. *)
Definition decoded (m : SeriesManifest) : Prop := wf_series m = true /\ valid_series m.

Lemma decoded_root m : decoded m -> frontier_root (merkle_frontier m) = leaf_merkle_root m /\ leaf_count (merkle_frontier m) = sm_leaf_count m
  /\ from_peak_hashes (leaf_count (merkle_frontier m)) (peak_hashes (merkle_frontier m)) = Ok (merkle_frontier m) /\ hashed_peaks (peaks (merkle_frontier m)).
Proof.
  intros [Hw [Hv Hf]]. unfold validate in Hv. destruct (negb (Bool.eqb _ _)); [done|]. apply bind_Ok in Hv as (u & _ & Hv).
  destruct (Z.eqb_spec (leaf_count (merkle_frontier m)) (sm_leaf_count m)) as [Ec|]; [|done]. cbn [negb] in Hv. case_bool_decide as Er; [|done].
  split_and!; [done|done|by rewrite Ec|]. unfold wf_series in Hw. rewrite !andb_true_iff in Hw. destruct Hw as [_ Hw]. unfold peak_hashes in Hw.
  unfold hashed_peaks. apply forallb_Forall in Hw. by apply Forall_map in Hw.
Qed.

(** The manifest of a run of leaves has its frontier, or BLAKE3 collides. *)
Lemma manifest_frontier m leaves :
  Z.of_nat (length leaves) < 2 ^ 64 -> decoded m -> manifest_of m leaves ->
  from_leaves leaves = Ok (merkle_frontier m) \/ blake_collision (root_inputs (merkle_frontier m)) (state_inputs leaves).
Proof.
  intros Hb Hd [Hn Hr]. destruct (decoded_root m Hd) as (Er & Ec & Hf & Hh). destruct (from_leaves_of leaves Hb) as (f & Ef & Hof).
  unfold merkle_root in Hr. rewrite Ef in Hr. apply Ok_inj in Hr.
  destruct (frontier_root_inj (merkle_frontier m) f) as [->|Hc]; [|congruence|by left|].
  - apply (shape_of _ _ leaves); [done|done|done|congruence|done].
  - right. eapply blake_collision_mono; [done| |exact Hc]. unfold state_inputs. rewrite Ef. set_solver.
Qed.

Lemma frontier_manifest m leaves :
  Z.of_nat (length leaves) < 2 ^ 64 -> decoded m -> from_leaves leaves = Ok (merkle_frontier m) -> manifest_of m leaves.
Proof.
  intros Hb Hd Hf. destruct (decoded_root m Hd) as (Er & Ec & _). destruct (from_leaves_of leaves Hb) as (f & Ef & Hn & _).
  rewrite Ef in Hf. apply Ok_inj in Hf as ->. split; [congruence|]. unfold merkle_root. rewrite Ef. cbn [mbind outcome_bind]. by rewrite Er.
Qed.

(** Appending leaf by leaf. *)
Lemma from_leaves_app l1 l2 f1 : from_leaves l1 = Ok f1 -> Z.of_nat (length (l1 ++ l2)) < 2 ^ 64 ->
  exists f, from_leaves (l1 ++ l2) = Ok f /\ extended f1 l2 = Ok f /\ extend_inputs f1 l2 ⊆ extend_inputs frontier_empty (l1 ++ l2).
Proof.
  unfold from_leaves. intros E1 Hb. destruct (extended frontier_empty l1) as [f0| |] eqn:E0; try done. apply Ok_inj in E1 as ->.
  destruct (extended_of _ [] (l1 ++ l2) frontier_empty_of Hb) as (f & Ef & _). exists f. rewrite Ef. split; [done|].
  rewrite extended_app, E0 in Ef. split; [exact Ef|by apply extend_inputs_app].
Qed.

Lemma decode_manifest h m : fetch_manifest h = Ok m -> decoded m.
Proof.
  unfold fetch_manifest. intros (b & _ & Hd)%bind_Ok. apply pull_content_Ok in Hd. apply series_manifest_codec in Hd as (? & ? & _). by split.
Qed.

(** * Packs *)

(** A pack as [fetch_pack] returns it. *)
Definition fetched_pack (p : PackIndex) : Prop := wf_pack_index p = true /\ valid_pack p /\ validate_series_segment p = Ok tt /\ exists b, pack_encode p = Ok b.

Lemma fetch_pack_Ok d p : fetch_pack d = Ok p -> fetched_pack p.
Proof.
  unfold fetch_pack. intros E. inv_pull. rename select (pack_decode _ = Ok _) into Hd. apply pack_decode_exact in Hd as (? & ? & ?).
  split; [done|split; [done|]]. split; [|by eexists]. by match goal with Hv : validate_series_segment _ = Ok ?u |- _ => rewrite Hv; destruct u end.
Qed.

Lemma segment_verified h m p : verify_series_segment h m p (pack_leaves p) = Ok tt -> verify_pack_against_manifest h m p (pack_leaves p) = Ok tt.
Proof.
  unfold verify_series_segment. destruct (parent_series_hash p); intros E%pull_content_Ok; [done|]. unfold verify_complete_pack_against_manifest in E.
  apply bind_Ok in E as ([] & _ & E). destruct (_ || _); [done|]. by apply bind_Ok in E as ([] & E & _).
Qed.

(** A verified segment holds the leaves of the series from its start on. *)
Lemma segment_suffix h m p leaves :
  Z.of_nat (length leaves) < 2 ^ 64 -> manifest_of m leaves -> fetched_pack p -> verify_series_segment h m p (pack_leaves p) = Ok tt ->
  (0 <= leaf_start p < Z.of_nat (length leaves) /\ leaf_end p = Z.of_nat (length leaves) /\ pack_leaves p = drop (Z.to_nat (leaf_start p)) leaves
   /\ (parent_series_hash p = None -> leaf_start p = 0))
  \/ blake_collision (range_inputs (total_leaf_count p) (leaf_start p) (leaf_end p) (pack_leaves p) (pack_proof p)) (series_inputs leaves).
Proof.
  intros Hb Hm (Hw & Hv & Hs & _) Hver%segment_verified. pose proof (verify_pack_inv _ _ _ _ Hver) as (_ & Ht & _). pose proof Hm as [Hn _]. rewrite Ht, Hn.
  destruct (pack_binds _ _ _ _ _ Hb Hm Hw Hv Hver) as [(_ & Hr1 & Hr2 & Hl & _)|Hc]; [left|by right].
  unfold validate_series_segment in Hs. destruct (Z.eqb_spec (leaf_end p) (total_leaf_count p)) as [Ee|]; [|done]. cbn [negb] in Hs.
  split_and!; [lia|lia|lia| |intros Ep; rewrite Ep in Hs; by destruct (Z.eqb_spec (leaf_start p) 0)].
  rewrite Hl. apply take_ge. rewrite length_drop. lia.
Qed.

(** * The walk *)

(** The packs read hold the leaves from [n] on; the base, if any, is the state of
    the leaves before. *)
Record suffix_of (leaves : list bytes) (n : nat) (ps : list (bytes * PackIndex)) (base : option (bytes * SeriesManifest)) : Prop := {
  su_bound : (n <= length leaves)%nat;
  su_leaves : concat (map (fun x => pack_leaves x.2) (rev ps)) = drop n leaves;
  su_start : forall x, last ps = Some x -> leaf_start x.2 = Z.of_nat n;
  su_nonempty : ps <> [];
  su_base : match base with
            | None => n = 0%nat
            | Some (_, m) => decoded m /\ from_leaves (take n leaves) = Ok (merkle_frontier m)
            end;
}.

Lemma suffix_cons leaves x ps base n k :
  (n <= k <= length leaves)%nat -> pack_leaves x.2 = drop k leaves -> suffix_of (take k leaves) n ps base -> suffix_of leaves n (x :: ps) base.
Proof.
  intros Hk Hx [Hb Hl Hs Hne Hba]. rewrite length_take in Hb. split; [lia| | |done|].
  - cbn [rev]. rewrite map_app, concat_app, Hl. cbn [map concat]. rewrite app_nil_r, Hx. rewrite <- (take_drop k leaves) at 3.
    rewrite drop_app_le by (rewrite length_take; lia). done.
  - intros y. rewrite last_cons. destruct (last ps) as [z|] eqn:El; [intros [= <-]; by apply Hs|]. apply last_None in El. done.
  - destruct base as [[? m]|]; [|done]. rewrite take_take in Hba. by replace (n `min` k)%nat with n in Hba by lia.
Qed.

(** One verified append: the parent has the frontier of the leaves before. *)
Lemma extension_parent ph parent h m p leaves :
  Z.of_nat (length leaves) < 2 ^ 64 -> decoded m -> manifest_of m leaves -> decoded parent -> 0 <= leaf_start p < Z.of_nat (length leaves) ->
  pack_leaves p = drop (Z.to_nat (leaf_start p)) leaves -> verify_series_extension ph parent h m p (pack_leaves p) = Ok tt ->
  from_leaves (take (Z.to_nat (leaf_start p)) leaves) = Ok (merkle_frontier parent)
  \/ blake_collision (root_inputs (merkle_frontier m) ++ extend_inputs (merkle_frontier parent) (pack_leaves p)) (honest_inputs leaves).
Proof.
  intros Hb Hd Hm Hdp Hs Hl Hv. set (k := Z.to_nat (leaf_start p)) in *. assert (Hk : (k < length leaves)%nat) by lia.
  unfold verify_series_extension in Hv. destruct (descriptor_bounds _). inv_pull. rename select ((leaf_start p =? _) = true) into Hst. apply Z.eqb_eq in Hst.
  rename select (extended _ _ = Ok _) into Hext.
  destruct (manifest_frontier m leaves Hb Hd Hm) as [Hf|Hc].
  2: { right. eapply blake_collision_mono; [| |exact Hc]; [set_solver|]. rewrite <- (firstn_all leaves) at 1. apply state_inputs_honest. lia. }
  destruct (from_leaves_of (take k leaves)) as (f1 & Ef1 & Hf1); [rewrite length_take; lia|].
  destruct (from_leaves_app (take k leaves) (drop k leaves) f1 Ef1) as (f & Ef & Ex & Hi); [by rewrite take_drop|]. rewrite take_drop in Ef, Hi.
  destruct (decoded_root parent Hdp) as (_ & Ec & Hpf & Hph). rewrite Hl in *.
  assert (f = merkle_frontier m) as -> by congruence.
  destruct (extended_inj (merkle_frontier parent) f1 (drop k leaves) (merkle_frontier m)) as [->|Hc]; [|congruence|done|by left|].
  - apply (shape_of _ _ (take k leaves)); [done|done|done|rewrite length_take; lia|rewrite length_take; lia].
  - right. eapply blake_collision_mono; [| |exact Hc]; [set_solver|]. unfold honest_inputs. set_solver.
Qed.

(** What the walk verified on its way. *)
Inductive trace : bytes -> SeriesManifest -> list link -> list (bytes * PackIndex) -> option (bytes * SeriesManifest) -> Prop :=
| trace_root h m key p :
    fetched_pack p -> verify_series_segment h m p (pack_leaves p) = Ok tt -> parent_series_hash p = None ->
    trace h m [{| link_manifest := m; link_pack := p; link_parent := None |}] [(key, p)] None
| trace_base h m key p ph parent :
    fetched_pack p -> verify_series_segment h m p (pack_leaves p) = Ok tt -> decoded parent ->
    verify_series_extension ph parent h m p (pack_leaves p) = Ok tt ->
    trace h m [{| link_manifest := m; link_pack := p; link_parent := Some parent |}] [(key, p)] (Some (ph, parent))
| trace_step h m key p ph parent ks ps base :
    fetched_pack p -> verify_series_segment h m p (pack_leaves p) = Ok tt -> decoded parent ->
    verify_series_extension ph parent h m p (pack_leaves p) = Ok tt -> trace ph parent ks ps base ->
    trace h m ({| link_manifest := m; link_pack := p; link_parent := Some parent |} :: ks) ((key, p) :: ps) base.

Lemma segment_loop_trace (fuel : nat) complete window h m seen ps base :
  segment_loop fuel complete window h m seen = Ok (ps, base) -> (complete = true -> base = None) /\ exists ks, trace h m ks ps base.
Proof.
  revert h m seen ps base. induction fuel as [|fuel IH]; intros h m seen ps base; [done|]. cbn [segment_loop]. intros E. inv_pull.
  rename select PackDescriptor into d. rename select PackIndex into p. rename select (fetch_pack d = Ok p) into Hp. apply fetch_pack_Ok in Hp.
  rename select (verify_series_segment _ _ _ _ = Ok _) into Hv. destruct (parent_series_hash p) as [ph|] eqn:Ep; inv_pull.
  2: { split; [done|]. eexists. by apply trace_root. }
  rename select (fetch_manifest ph = Ok _) into Hm. apply decode_manifest in Hm. rename select (verify_series_extension _ _ _ _ _ _ = Ok _) into He.
  destruct (complete || _) eqn:Ec; inv_pull.
  - match goal with Hr : segment_loop _ _ _ _ _ _ = Ok ?r |- _ => destruct r as [older b]; apply IH in Hr as [Hb [ks Hk]] end. inv_pull.
    split; [done|]. eexists. by eapply trace_step.
  - split; [by intros ->|]. eexists. by eapply trace_base.
Qed.

Lemma collision_link k ks xs leaves :
  xs ⊆ link_inputs k -> blake_collision xs (honest_inputs leaves) -> blake_collision (walk_inputs (k :: ks)) (honest_inputs leaves).
Proof. intros Hx. apply blake_collision_mono; [|done]. unfold walk_inputs. cbn [map concat]. set_solver. Qed.

Lemma collision_range k ks leaves :
  blake_collision (range_inputs (total_leaf_count (link_pack k)) (leaf_start (link_pack k)) (leaf_end (link_pack k)) (pack_leaves (link_pack k))
    (pack_proof (link_pack k))) (series_inputs leaves) -> blake_collision (walk_inputs (k :: ks)) (honest_inputs leaves).
Proof.
  intros Hc. eapply collision_link; [|eapply blake_collision_mono; [done| |exact Hc]]; [unfold link_inputs; set_solver|].
  etrans; [|apply (state_inputs_honest (length leaves))]; [|done]. rewrite firstn_all. unfold state_inputs. set_solver.
Qed.

Lemma collision_later k ks n leaves :
  blake_collision (walk_inputs ks) (honest_inputs (take n leaves)) -> blake_collision (walk_inputs (k :: ks)) (honest_inputs leaves).
Proof. apply blake_collision_mono; [unfold walk_inputs; cbn [map concat]; set_solver|apply honest_prefix]. Qed.

(** A verified step on a series of known leaves. *)
Lemma step_sound h m p ph parent leaves ks :
  Z.of_nat (length leaves) < 2 ^ 64 -> decoded m -> manifest_of m leaves -> fetched_pack p ->
  verify_series_segment h m p (pack_leaves p) = Ok tt -> decoded parent -> verify_series_extension ph parent h m p (pack_leaves p) = Ok tt ->
  (exists k, (k <= length leaves)%nat /\ leaf_start p = Z.of_nat k /\ pack_leaves p = drop k leaves /\ from_leaves (take k leaves) = Ok (merkle_frontier parent))
  \/ blake_collision (walk_inputs ({| link_manifest := m; link_pack := p; link_parent := Some parent |} :: ks)) (honest_inputs leaves).
Proof.
  intros Hb Hd Hm Hp Hv Hdp He. destruct (segment_suffix h m p leaves Hb Hm Hp Hv) as [(Hs & _ & Hl & _)|Hc].
  - destruct (extension_parent _ _ _ _ _ _ Hb Hd Hm Hdp Hs Hl He) as [Hf|Hc].
    + left. exists (Z.to_nat (leaf_start p)). split_and!; [lia|lia|done|done].
    + right. eapply collision_link; [|exact Hc]. unfold link_inputs. cbn [link_manifest link_pack link_parent]. set_solver.
  - right. by apply collision_range.
Qed.

Lemma trace_sound h m ks ps base leaves :
  trace h m ks ps base -> Z.of_nat (length leaves) < 2 ^ 64 -> decoded m -> manifest_of m leaves ->
  (exists n, suffix_of leaves n ps base) \/ blake_collision (walk_inputs ks) (honest_inputs leaves).
Proof.
  intros Ht. revert leaves. induction Ht as [h m key p Hp Hv Hr|h m key p ph parent Hp Hv Hdp He|h m key p ph parent ks ps base Hp Hv Hdp He Ht IH];
    intros leaves Hb Hd Hm.
  - destruct (segment_suffix h m p leaves Hb Hm Hp Hv) as [(Hs & _ & Hl & Hz)|Hc].
    + left. exists 0%nat. rewrite (Hz Hr) in Hl. split; [lia| | |done|done].
      * cbn [rev app map concat snd]. by rewrite app_nil_r.
      * intros x [= <-]. by apply Hz.
    + right. by apply collision_range.
  - destruct (step_sound h m p ph parent leaves [] Hb Hd Hm Hp Hv Hdp He) as [(k & Hk & Es & El & Hf)|Hc]; [left|by right].
    exists k. split; [done| | |done|done].
    + cbn [rev app map concat snd]. by rewrite app_nil_r.
    + intros x [= <-]. done.
  - destruct (step_sound h m p ph parent leaves ks Hb Hd Hm Hp Hv Hdp He) as [(k & Hk & Es & El & Hf)|Hc]; [|by right].
    assert (Hbk : Z.of_nat (length (take k leaves)) < 2 ^ 64) by (rewrite length_take; lia).
    destruct (IH (take k leaves) Hbk Hdp (frontier_manifest _ _ Hbk Hdp Hf)) as [[n Hn]|Hc]; [left|right; by eapply collision_later].
    exists n. pose proof (su_bound _ _ _ _ Hn) as Hnk. rewrite length_take in Hnk. apply (suffix_cons leaves (key, p) ps base n k); [lia|done|done].
Qed.

(** * Termination *)

Lemma locate_pack_fuel b h : no_fuel (locate_pack b h).
Proof.
  unfold locate_pack. apply no_fuel_bind; [|intros; apply no_fuel_require; done]. destruct b; [|done].
  apply no_fuel_bind; [done|]. intros [d|] _; [done|apply no_fuel_ask].
Qed.

Lemma fetch_pack_fuel d : no_fuel (fetch_pack d).
Proof. unfold fetch_pack. do 6 (apply no_fuel_bind; [auto|intros]); auto. Qed.

Lemma fetch_manifest_fuel h : no_fuel (fetch_manifest h).
Proof. unfold fetch_manifest, fetch_verified, verify. apply no_fuel_bind; [do 3 (apply no_fuel_bind; [auto|intros]); auto|auto]. Qed.

Lemma verify_segment_fuel h m p l : no_fuel (verify_series_segment h m p l).
Proof. unfold verify_series_segment. destruct (parent_series_hash p); auto. Qed.

Lemma verify_extension_fuel ph pm h m p l : no_fuel (verify_series_extension ph pm h m p l).
Proof. unfold verify_series_extension. destruct (descriptor_bounds _). do 8 (apply no_fuel_bind; [auto|intros]); auto. Qed.

(** A parent is strictly shorter. *)
Lemma parent_shorter h m p ph parent :
  fetched_pack p -> verify_series_segment h m p (pack_leaves p) = Ok tt -> decoded parent ->
  verify_series_extension ph parent h m p (pack_leaves p) = Ok tt -> 0 <= sm_leaf_count parent < sm_leaf_count m.
Proof.
  intros (_ & (Hre & _) & Hs & _) Hv%segment_verified [Hw _] He. apply verify_pack_inv in Hv as (_ & Ht & _).
  apply rebuild_inv in Hre as (_ & _ & (Hlt & _)%pack_validate_inv). unfold validate_series_segment in Hs.
  destruct (Z.eqb_spec (leaf_end p) (total_leaf_count p)) as [Ee|]; [|done].
  unfold verify_series_extension in He. destruct (descriptor_bounds _). inv_pull. rename select ((leaf_start p =? _) = true) into Hst. apply Z.eqb_eq in Hst.
  unfold wf_series, is_u64 in Hw. rewrite !andb_true_iff in Hw. lia.
Qed.

Lemma segment_loop_fuel (fuel : nat) complete window h m seen :
  sm_leaf_count m < Z.of_nat fuel -> 0 <= sm_leaf_count m -> no_fuel (segment_loop fuel complete window h m seen).
Proof.
  revert h m seen. induction fuel as [|fuel IH]; intros h m seen Hf H0'; [lia|]. cbn [segment_loop].
  apply no_fuel_bind; [by apply no_fuel_ensure|]. intros _ _. apply no_fuel_bind; [apply locate_pack_fuel|]. intros d _.
  apply no_fuel_bind; [apply fetch_pack_fuel|]. intros p Hp%fetch_pack_Ok. apply no_fuel_bind; [apply verify_segment_fuel|]. intros [] Hv.
  destruct (parent_series_hash p) as [ph|]; [|done]. apply no_fuel_bind; [apply fetch_manifest_fuel|]. intros parent Hm%decode_manifest.
  apply no_fuel_bind; [apply verify_extension_fuel|]. intros [] He. pose proof (parent_shorter _ _ _ _ _ Hp Hv Hm He).
  destruct (complete || _); [|done]. apply no_fuel_bind; [apply IH; lia|]. by intros [older base] _.
Qed.

(** * Fetched series *)

(** The fetched series holds the leaves from its start on, and, unless it holds
    them all, the state of those before. *)
Record series_holds (leaves : list bytes) (s : FetchedSeriesV2) : Prop := {
  sh_start : 0 <= fetched_start s <= Z.of_nat (length leaves);
  sh_leaves : fetched_leaves s = drop (Z.to_nat (fetched_start s)) leaves;
  sh_manifest : manifest_of (manifest s) leaves;
  sh_base : match base_manifest s with
            | None => fetched_start s = 0
            | Some m => decoded m /\ from_leaves (take (Z.to_nat (fetched_start s)) leaves) = Ok (merkle_frontier m)
            end;
  sh_hash : is_Some (base_series_hash s) <-> is_Some (base_manifest s);
}.

Lemma fetched_sound h t m b (complete : bool) g g' leaves :
  Z.of_nat (length leaves) < 2 ^ 64 -> decoded m -> manifest_of m leaves -> fetch_series_v2 h t m b complete g = Ok g' ->
  exists s ks, series g' !! h = Some s /\ manifest s = m
    /\ (sm_leaf_count m = 0 \/ exists ps base, trace h m ks ps base /\ packs s = rev ps)
    /\ ((series_holds leaves s /\ (complete = true -> fetched_start s = 0 /\ fetched_leaves s = leaves))
        \/ blake_collision (walk_inputs ks) (honest_inputs leaves)).
Proof.
  intros Hb Hd Hm. unfold fetch_series_v2. intros E. inv_pull. destruct (Z.eqb_spec (sm_leaf_count m) 0) as [E0|E0].
  - inv_pull. eexists _, []. cbn [add_series series]. rewrite lookup_insert_eq. split; [done|]. split; [done|]. split; [by left|]. left.
    pose proof Hm as [Hn _]. assert (leaves = []) as -> by (apply nil_length_inv; lia). split; [|done].
    split; cbn [fetched_start fetched_leaves manifest base_manifest base_series_hash length]; [lia|done|done|done|]. split; by intros [? ?].
  - inv_pull. match goal with Hs : segment_loop _ _ _ _ _ _ = Ok ?r |- _ => destruct r as [ps base]; apply segment_loop_trace in Hs as [Hbc [ks Ht]] end. inv_pull.
    eexists _, ks. cbn [add_series series]. rewrite lookup_insert_eq. split; [done|]. split; [done|]. split; [right; by exists ps, base|].
    destruct (trace_sound _ _ _ _ _ _ Ht Hb Hd Hm) as [[n Hn]|Hc]; [left|by right].
    pose proof Hn as [Hbn Hl Hst Hne Hba].
    assert (Hs : match rev ps with (_, p) :: _ => leaf_start p | [] => sm_leaf_count m end = Z.of_nat n).
    { destruct (rev ps) as [|[key p] l] eqn:Er; [apply (f_equal (@rev _)) in Er; rewrite rev_involutive in Er; done|].
      apply (f_equal (@rev _)) in Er. rewrite rev_involutive in Er. apply (Hst (key, p)). rewrite Er. cbn [rev]. by rewrite last_snoc. }
    rewrite Hs. split.
    + split; cbn [fetched_start fetched_leaves manifest base_manifest base_series_hash]; [lia|by rewrite Nat2Z.id|done| |destruct base; simpl; by split; intros [? ?]].
      destruct base as [[bh bm]|]; simpl; [by rewrite Nat2Z.id|lia].
    + intros ->. rewrite (Hbc eq_refl) in Hba. subst n. cbn [fetched_start fetched_leaves]. by rewrite Hl.
Qed.

(** ** Extending the suffix *)

(** The fetched series with one older pack in front. *)
Definition prepend (key : bytes) (p : PackIndex) (parent : option (bytes * SeriesManifest)) (s : FetchedSeriesV2) : FetchedSeriesV2 :=
  {| manifest_hash := manifest_hash s; manifest := manifest s; packs := (key, p) :: packs s; fetched_start := leaf_start p;
     fetched_leaves := pack_leaves p ++ fetched_leaves s; base_series_hash := fst <$> parent; base_manifest := snd <$> parent;
     fetched_objects := fetched_objects s |}.

(** What the coverage loop verified on its way. *)
Inductive covers : list link -> FetchedSeriesV2 -> FetchedSeriesV2 -> Prop :=
| covers_done s : covers [] s s
| covers_root h m key p s s' ks :
    base_manifest s = Some m -> fetched_pack p -> verify_series_segment h m p (pack_leaves p) = Ok tt -> parent_series_hash p = None ->
    covers ks (prepend key p None s) s' -> covers ({| link_manifest := m; link_pack := p; link_parent := None |} :: ks) s s'
| covers_step h m key p ph parent s s' ks :
    base_manifest s = Some m -> fetched_pack p -> verify_series_segment h m p (pack_leaves p) = Ok tt -> decoded parent ->
    verify_series_extension ph parent h m p (pack_leaves p) = Ok tt ->
    covers ks (prepend key p (Some (ph, parent)) s) s' -> covers ({| link_manifest := m; link_pack := p; link_parent := Some parent |} :: ks) s s'.

Lemma coverage_loop_covers (fuel : nat) desired consolidated s s' :
  coverage_loop fuel desired consolidated s = Ok s' -> fetched_start s' <= desired /\ exists ks, covers ks s s'.
Proof.
  revert s. induction fuel as [|fuel IH]; intros s; [done|]. cbn [coverage_loop]. destruct (Z.leb_spec (fetched_start s) desired) as [Hd|Hd].
  { intros [= <-]. split; [done|]. eexists. constructor. }
  intros E. inv_pull. rename select PackDescriptor into d. rename select PackIndex into p. rename select (fetch_pack d = Ok p) into Hp. apply fetch_pack_Ok in Hp.
  rename select (verify_series_segment _ _ _ _ = Ok _) into Hv. destruct (parent_series_hash p) as [ph|] eqn:Ep; inv_pull.
  - rename select (fetch_manifest ph = Ok _) into Hm. apply decode_manifest in Hm. rename select (verify_series_extension _ _ _ _ _ _ = Ok _) into He.
    apply IH in E as [Hs [ks Hk]]. split; [done|]. eexists. by eapply covers_step.
  - apply IH in E as [Hs [ks Hk]]. split; [done|]. eexists. by eapply covers_root.
Qed.

(** One older pack keeps the series exact. *)
Lemma prepend_holds leaves s key p parent m k :
  series_holds leaves s -> base_manifest s = Some m -> (k <= Z.to_nat (fetched_start s))%nat -> leaf_start p = Z.of_nat k ->
  pack_leaves p = drop k (take (Z.to_nat (fetched_start s)) leaves) ->
  match parent with None => k = 0%nat | Some (_, pm) => decoded pm /\ from_leaves (take k leaves) = Ok (merkle_frontier pm) end ->
  series_holds leaves (prepend key p parent s).
Proof.
  intros [Hs Hl Hm Hb Hh] Eb Hk Est Hp Hpar. split; cbn [prepend fetched_start fetched_leaves manifest base_manifest base_series_hash]; [lia| |done| |].
  - rewrite Est, Nat2Z.id, Hp, Hl. rewrite <- (take_drop (Z.to_nat (fetched_start s)) leaves) at 3. by rewrite drop_app_le by (rewrite length_take; lia).
  - rewrite Est. destruct parent as [[? pm]|]; simpl; [by rewrite Nat2Z.id|lia].
  - destruct parent; simpl; by split; intros [? ?].
Qed.

Lemma covers_sound ks s s' leaves :
  covers ks s s' -> Z.of_nat (length leaves) < 2 ^ 64 -> series_holds leaves s ->
  (series_holds leaves s' /\ manifest s' = manifest s) \/ blake_collision (walk_inputs ks) (honest_inputs leaves).
Proof.
  intros Hc Hb. induction Hc as [s|h m key p s s' ks Eb Hp Hv Hr Hc IH|h m key p ph parent s s' ks Eb Hp Hv Hdp He Hc IH]; intros Hs; [by left|..].
  - pose proof (sh_base _ _ Hs) as Hba. rewrite Eb in Hba. destruct Hba as [Hd Hf]. set (n := Z.to_nat (fetched_start s)) in *.
    assert (Hbn : Z.of_nat (length (take n leaves)) < 2 ^ 64) by (rewrite length_take; lia).
    destruct (segment_suffix h m p _ Hbn (frontier_manifest _ _ Hbn Hd Hf) Hp Hv) as [(H1' & _ & Hl & Hz)|Hcol].
    + destruct IH as [[IH Em]|IH]; [|by left|right; by eapply collision_later; rewrite firstn_all].
      apply (prepend_holds leaves s key p None m 0); try done; [lia|by rewrite (Hz Hr)|]. by rewrite (Hz Hr) in Hl.
    + right. eapply blake_collision_mono; [done|apply (honest_prefix n)|by apply collision_range].
  - pose proof (sh_base _ _ Hs) as Hba. rewrite Eb in Hba. destruct Hba as [Hd Hf]. set (n := Z.to_nat (fetched_start s)) in *.
    assert (Hbn : Z.of_nat (length (take n leaves)) < 2 ^ 64) by (rewrite length_take; lia).
    destruct (step_sound h m p ph parent _ ks Hbn Hd (frontier_manifest _ _ Hbn Hd Hf) Hp Hv Hdp He) as [(k & Hk & Es & El & Hfk)|Hcol].
    + rewrite length_take in Hk. rewrite take_take in Hfk. replace (k `min` n)%nat with k in Hfk by lia.
      destruct IH as [[IH Em]|IH]; [|by left|right].
      * apply (prepend_holds leaves s key p (Some (ph, parent)) m k); try done; lia.
      * eapply (collision_later _ _ (length leaves)). by rewrite firstn_all.
    + right. eapply blake_collision_mono; [done|apply (honest_prefix n)|exact Hcol].
Qed.

Lemma coverage_loop_fuel (fuel : nat) desired consolidated s :
  fetched_start s < Z.of_nat fuel -> 0 <= fetched_start s -> no_fuel (coverage_loop fuel desired consolidated s).
Proof.
  revert s. induction fuel as [|fuel IH]; intros s Hf H0'; [lia|]. cbn [coverage_loop]. destruct (fetched_start s <=? desired); [done|].
  do 2 (apply no_fuel_bind; [auto|intros]). apply no_fuel_bind; [apply locate_pack_fuel|]. intros d _.
  apply no_fuel_bind; [apply fetch_pack_fuel|]. intros p (Hw & (Hre & _) & _)%fetch_pack_Ok. apply no_fuel_bind; [apply verify_segment_fuel|]. intros [] _.
  apply no_fuel_bind; [auto|]. intros ? He%ensure_Ok%Z.eqb_eq. apply no_fuel_bind.
  { destruct (parent_series_hash p); [|done]. apply no_fuel_bind; [apply fetch_manifest_fuel|]. intros.
    apply no_fuel_bind; [apply verify_extension_fuel|]. done. }
  intros parent _. apply rebuild_inv in Hre as (_ & _ & (Hlt & _)%pack_validate_inv).
  unfold wf_pack_index, is_u64 in Hw. rewrite !andb_true_iff in Hw. apply IH; cbn [fetched_start]; lia.
Qed.

(** ** The planned suffix *)

(** The leaves the destination holds, as the planner is told about them. *)
Definition target_holds (e : ManifestEntry) (target_leaves : gmap bytes (list bytes)) (target_manifests : gmap bytes SeriesManifest)
    (existing : option bytes) (leaves held : list bytes) : Prop :=
  match existing with
  | None => held = []
  | Some h =>
      if decide (h = node_hash e) then held = leaves
      else match target_manifests !! node_id e with
           | Some m => decoded m /\ manifest_of m held /\ Z.of_nat (length held) < 2 ^ 64
           | None => target_leaves !! node_id e = Some held
           end
  end.

Lemma frontier_at_prefix leaves s k :
  Z.of_nat (length leaves) < 2 ^ 64 -> series_holds leaves s -> fetched_start s <= k <= Z.of_nat (length leaves) ->
  exists f, from_leaves (take (Z.to_nat k) leaves) = Ok f
    /\ extended (match base_manifest s with Some b => merkle_frontier b | None => frontier_empty end)
         (take (Z.to_nat (k - fetched_start s)) (fetched_leaves s)) = Ok f.
Proof.
  intros Hb [Hs Hl Hm Hba _] Hk. set (n := Z.to_nat (fetched_start s)) in *.
  assert (from_leaves (take n leaves) = Ok (match base_manifest s with Some b => merkle_frontier b | None => frontier_empty end)) as Hf.
  { destruct (base_manifest s); [apply Hba|]. subst n. by rewrite Hba. }
  assert (take (Z.to_nat k) leaves = take n leaves ++ take (Z.to_nat (k - fetched_start s)) (fetched_leaves s)) as Et.
  { rewrite Hl, take_take_drop. f_equal. lia. }
  destruct (from_leaves_app _ (take (Z.to_nat (k - fetched_start s)) (fetched_leaves s)) _ Hf) as (f & Ef & Ex & _).
  { rewrite <- Et, length_take. lia. }
  exists f. rewrite Et. done.
Qed.

Lemma same_root_leaves m held leaves f :
  decoded m -> manifest_of m held -> Z.of_nat (length held) < 2 ^ 64 -> Z.of_nat (length leaves) < 2 ^ 64 ->
  from_leaves leaves = Ok f -> f = merkle_frontier m -> sm_leaf_count m = Z.of_nat (length leaves) ->
  held = leaves \/ blake_collision (series_inputs held) (series_inputs leaves).
Proof.
  intros Hd [Hn Hr] Hb1 Hb2 Hf -> Hc. destruct (decoded_root m Hd) as (Er & _). apply series_head_inj; [lia|].
  destruct (from_leaves_of held Hb1) as (f1 & Ef1 & Hf1). unfold merkle_root in Hr. rewrite Ef1 in Hr. apply Ok_inj in Hr.
  destruct (from_leaves_of leaves Hb2) as (f2 & Ef2 & Hf2). assert (f2 = merkle_frontier m) as -> by congruence.
  rewrite <- (frontier_root_of f1 held Hf1), <- (frontier_root_of _ leaves Hf2). congruence.
Qed.

Lemma plan_appends e s target_leaves target_manifests existing n leaves held :
  Z.of_nat (length leaves) < 2 ^ 64 -> series_holds leaves s -> target_holds e target_leaves target_manifests existing leaves held ->
  plan_series_v2_leaves e s target_leaves target_manifests existing = Ok n ->
  (fetched_start s <= n /\ n = Z.of_nat (length held) /\ held ++ drop (Z.to_nat n) leaves = leaves)
  \/ blake_collision (series_inputs held) (honest_inputs leaves).
Proof.
  intros Hb Hs Ht E. pose proof (sh_start _ _ Hs) as Hst. pose proof (sh_manifest _ _ Hs) as [Hn _]. unfold plan_series_v2_leaves, target_holds in *. destruct existing as [hh|].
  2: { subst held. inv_pull. left. rename select ((fetched_start s =? 0) = true) into H0'. apply Z.eqb_eq in H0'. split_and!; [lia|done|done]. }
  destruct (decide (hh = node_hash e)) as [->|Hne]; [rewrite bool_decide_true in E by done|rewrite bool_decide_false in E by done].
  { subst held. inv_pull. left. split; [lia|]. split; [done|]. rewrite Hn, Nat2Z.id, drop_all. apply app_nil_r. }
  destruct (target_manifests !! node_id e) as [m|].
  - destruct Ht as (Hd & Hm & Hbh). inv_pull. match goal with Hr : fold_pres _ _ _ = Ok ?r |- _ => destruct r as [[[? ?] ?] ?] end. inv_pull.
    rename select (extended _ _ = Ok _) into Hext. rename select ((fetched_start s <=? _) = true) into H1'. rename select ((_ <=? sm_leaf_count (manifest s)) = true) into H2'.
    apply Z.leb_le in H1', H2'. pose proof Hm as [Hnm _].
    destruct (frontier_at_prefix leaves s (sm_leaf_count m) Hb Hs ltac:(lia)) as (f & Hf & Hfx).
    match type of Hext with extended ?f0 _ = _ => assert (f0 = match base_manifest s with Some b => merkle_frontier b | None => frontier_empty end) as -> end.
    { destruct (base_manifest s); [destruct (_ =? fetched_start s)|destruct (fetched_start s =? 0)]; inv_pull; done. }
    assert (f = merkle_frontier m) as -> by congruence.
    destruct (same_root_leaves m held (take (Z.to_nat (sm_leaf_count m)) leaves) (merkle_frontier m)) as [->|Hc]; try done;
      [rewrite length_take; lia|rewrite length_take; lia| |].
    + left. split; [lia|]. split; [rewrite length_take; lia|apply take_drop].
    + right. eapply blake_collision_mono; [done| |exact Hc]. etrans; [|apply (state_inputs_honest (Z.to_nat (sm_leaf_count m)))]; [|lia].
      unfold state_inputs. set_solver.
  - left. rewrite Ht in E. cbn [require mbind outcome_bind] in E. inv_pull. rename select (take _ _ = held) into Hp. rename select ((fetched_start s =? 0) = true) into H0'. apply Z.eqb_eq in H0'.
    pose proof (sh_leaves _ _ Hs) as Hl. rewrite H0' in Hl. change (drop (Z.to_nat 0) leaves) with leaves in Hl. rewrite Hl in Hp.
    split; [lia|]. split; [done|]. rewrite Nat2Z.id. rewrite <- Hp at 1. apply take_drop.
Qed.

Lemma fetch_series_v2_fuel h t m b complete g : 0 <= sm_leaf_count m -> no_fuel (fetch_series_v2 h t m b complete g).
Proof.
  intros Hn. unfold fetch_series_v2. apply no_fuel_bind; [by destruct t|]. intros. apply no_fuel_bind; [auto|]. intros. destruct (_ =? 0); [done|].
  apply no_fuel_bind; [apply segment_loop_fuel; lia|]. intros [ps base] _. apply no_fuel_bind; [|done].
  destruct base as [[? ?]|]; (apply no_fuel_bind; [auto|]); auto.
Qed.

(** C14: Whatever the source answers, fetching a series ends, and a series it accepts
    is the one the manifest commits to: if the manifest is that of [leaves], the
    fetched leaves are exactly [leaves] from the fetched start on, all of them
    when the complete chain was asked for, and otherwise the base state has
    exactly the frontier of the leaves before; or the strings the walk hashed
    collide with strings of the series. *)
Theorem fetched_series_exact (h : bytes) (t : EntryType) (m : SeriesManifest) (b : bytes) (complete : bool) (g : FetchedGraph) (leaves : list bytes) :
  Z.of_nat (length leaves) < 2 ^ 64 -> decoded m -> manifest_of m leaves ->
  match fetch_series_v2 h t m b complete g with
  | Ok g' => exists s ks, series g' !! h = Some s /\ manifest s = m
      /\ (sm_leaf_count m = 0 \/ exists ps base, trace h m ks ps base /\ packs s = rev ps)
      /\ ((series_holds leaves s /\ (complete = true -> fetched_start s = 0 /\ fetched_leaves s = leaves))
          \/ blake_collision (walk_inputs ks) (honest_inputs leaves))
  | Err e => e <> OutOfFuel
  | Panic => True
  end.
Proof.
  intros Hb Hd Hm. destruct (fetch_series_v2 h t m b complete g) as [g'|e|] eqn:E; [by apply (fetched_sound h t m b complete g)| |done].
  pose proof Hm as [Hn _]. intros ->. eapply fetch_series_v2_fuel; [|exact E]. lia.
Qed.

(** C15: Extending a fetched series to an older frontier and planning the missing
    suffix complete the destination: the leaves it holds, followed by the
    fetched leaves from the planned index on, are the whole series; or the
    strings hashed on the way, or those of the held leaves, collide with strings
    of the series. *)
Theorem planned_suffix_completes (e : ManifestEntry) (s s' : FetchedSeriesV2) (desired : Z) (consolidated : bool)
    (target_leaves : gmap bytes (list bytes)) (target_manifests : gmap bytes SeriesManifest) (existing : option bytes) (n : Z)
    (leaves held : list bytes) :
  Z.of_nat (length leaves) < 2 ^ 64 -> series_holds leaves s -> ensure_series_coverage desired consolidated s = Ok s' ->
  target_holds e target_leaves target_manifests existing leaves held ->
  plan_series_v2_leaves e s' target_leaves target_manifests existing = Ok n ->
  fetched_start s' <= desired /\ exists ks s1, covers ks s s1 /\ packs s' = packs s1
    /\ (held ++ drop (Z.to_nat (n - fetched_start s')) (fetched_leaves s') = leaves
        \/ blake_collision (walk_inputs ks ++ series_inputs held) (honest_inputs leaves)).
Proof.
  intros Hb Hs Hc Ht Hp. unfold ensure_series_coverage in Hc. inv_pull. rename select (coverage_loop _ _ _ _ = Ok _) into Hl.
  apply coverage_loop_covers in Hl as [Hd [ks Hk]]. split; [done|]. eexists ks, _. split; [exact Hk|]. split; [done|].
  destruct (covers_sound _ _ _ _ Hk Hb Hs) as [[Hs1 Em]|Hcol]; [|right; eapply blake_collision_mono; [| |exact Hcol]; set_solver].
  match type of Hp with plan_series_v2_leaves _ ?s2 _ _ _ = _ => assert (Hs2 : series_holds leaves s2) by (destruct Hs1; by split) end.
  destruct (plan_appends _ _ _ _ _ _ _ _ Hb Hs2 Ht Hp) as [(Hst & Hn & Ha)|Hcol]; [left|right; eapply blake_collision_mono; [| |exact Hcol]; set_solver].
  rewrite (sh_leaves _ _ Hs2), drop_drop. pose proof (sh_start _ _ Hs2). rewrite <- Ha at 2. do 2 f_equal. lia.
Qed.
End SeriesSpec.

(** * Witnesses *)

(** Seven leaves in two segments: three, then four more. *)
Definition ex_series_state (n : nat) : SeriesManifest :=
  unwrap_or ex_part_manifest (@series_new mix_blake3 no_json File (10 * Z.of_nat n) (Z.of_nat n) None None None
    (unwrap_or frontier_empty (@from_leaves mix_blake3 (ex_leaves n)))).
Definition ex_series_key (n : nat) : bytes := unwrap_or [] (@series_object_hash mix_blake3 (ex_series_state n)).
Definition ex_segment (parent : option bytes) (start stop : nat) : PackIndex :=
  unwrap_or ex_part_pack (@new_segment_with_spans mix_blake3 (ex_series_key stop) parent (Z.of_nat start) (Z.of_nat stop) (Z.of_nat stop)
    (ex_series_root stop) (ex_proof stop (Z.of_nat start) (Z.of_nat stop))
    [{| object_hash := to_le 32 (Z.of_nat stop); logical_start := 0; logical_end := 10 * Z.of_nat (stop - start); physical_start := 0;
        physical_end := 10 * Z.of_nat (stop - start) |}] (10 * Z.of_nat (stop - start)) (10 * Z.of_nat (stop - start))
    (map (fun h => {| logical_leaf_hash := h; d_count := 10; d_schema := None; d_min := None; d_max := None; d_attributes := None |})
       (drop start (ex_leaves stop)))).
Definition ex_first : PackIndex := ex_segment None 0 3.
Definition ex_second : PackIndex := ex_segment (Some (ex_series_key 3)) 3 7.
Definition ex_pack_bytes (p : PackIndex) : bytes := unwrap_or [] (pack_encode p).
Definition ex_pack_key (p : PackIndex) : bytes := @of_bytes mix_blake3 (ex_pack_bytes p).
Definition ex_locate (h : bytes) : option PackDescriptor :=
  if bool_decide (h = ex_series_key 7) then Some {| Commit.series_hash := h; Commit.pack_hash := ex_pack_key ex_second |}
  else if bool_decide (h = ex_series_key 3) then Some {| Commit.series_hash := h; Commit.pack_hash := ex_pack_key ex_first |} else None.
Definition ex_source : ContentSource :=
  {| source_pond_id := []; get_publication_state := fun _ => Ok None; get_publication_record := fun _ => Ok None;
     get_publication_pack := fun d => Ok (if bool_decide (Commit.pack_hash d = ex_pack_key ex_second) then Some (ex_pack_bytes ex_second)
                                          else if bool_decide (Commit.pack_hash d = ex_pack_key ex_first) then Some (ex_pack_bytes ex_first) else None);
     get_object := fun h => Ok (if bool_decide (h = ex_series_key 3) then Some (unwrap_or [] (series_encode (ex_series_state 3))) else None);
     get_objects := fun _ => Ok ∅; object_size := fun _ => Ok None; has_blob := fun _ => Ok false; get_blob_reader := fun _ => Ok None; get_series_pack := fun h => Ok (ex_locate h);
     get_consolidated_series_pack := fun _ => Ok None |}.

Lemma ex_state_decoded : @decoded mix_blake3 no_json (ex_series_state 7).
Proof. split; [vm_compute; reflexivity|]. split; vm_compute; reflexivity. Qed.

Lemma fetched_series_exact_witness :
  is_ok (@fetch_series_v2 mix_blake3 no_json ex_source (ex_series_key 7) FilePhysicalSeries (ex_series_state 7) [] true graph_default) = true
  /\ match @fetch_series_v2 mix_blake3 no_json ex_source (ex_series_key 7) FilePhysicalSeries (ex_series_state 7) [] true graph_default with
     | Ok g' => exists s ks, series g' !! ex_series_key 7 = Some s /\ manifest s = ex_series_state 7
         /\ (sm_leaf_count (ex_series_state 7) = 0
             \/ exists ps base, @trace mix_blake3 no_json (ex_series_key 7) (ex_series_state 7) ks ps base /\ packs s = rev ps)
         /\ ((@series_holds mix_blake3 no_json (ex_leaves 7) s /\ (true = true -> fetched_start s = 0 /\ fetched_leaves s = ex_leaves 7))
             \/ @blake_collision mix_blake3 (@walk_inputs mix_blake3 ks) (@honest_inputs mix_blake3 (ex_leaves 7)))
     | Err e => e <> OutOfFuel
     | Panic => True
     end.
Proof.
  split; [vm_compute; reflexivity|].
  apply (@fetched_series_exact mix_blake3 no_json ex_source).
  - vm_compute. reflexivity.
  - exact ex_state_decoded.
  - split; vm_compute; reflexivity.
Defined.

(** The fetched suffix of the second segment only, before the destination's three
    leaves are taken into account. *)
Definition ex_entry : ManifestEntry :=
  {| node_id := bstr "s"; parent_node_id := bstr "root"; node_name := bstr "s"; node_type := FilePhysicalSeries; node_hash := ex_series_key 7;
     node_versions := [] |}.
Definition ex_suffix : FetchedSeriesV2 :=
  {| manifest_hash := ex_series_key 7; manifest := ex_series_state 7; packs := [(ex_pack_key ex_second, ex_second)]; fetched_start := 3;
     fetched_leaves := drop 3 (ex_leaves 7); base_series_hash := Some (ex_series_key 3); base_manifest := Some (ex_series_state 3);
     fetched_objects := named_objects [(ex_pack_key ex_second, ex_second)] |}.

Lemma ex_suffix_holds : @series_holds mix_blake3 no_json (ex_leaves 7) ex_suffix.
Proof.
  split; [vm_compute; split; discriminate|reflexivity|split; vm_compute; reflexivity| |split; intros _; by eexists].
  split; [split; [vm_compute; reflexivity|split; vm_compute; reflexivity]|vm_compute; reflexivity].
Qed.

Lemma planned_suffix_completes_witness :
  fetched_start ex_suffix <= 3 /\ exists ks s1, @covers mix_blake3 no_json ks ex_suffix s1 /\ packs ex_suffix = packs s1
    /\ (ex_leaves 3 ++ drop (Z.to_nat (3 - fetched_start ex_suffix)) (fetched_leaves ex_suffix) = ex_leaves 7
        \/ @blake_collision mix_blake3 (@walk_inputs mix_blake3 ks ++ @series_inputs mix_blake3 (ex_leaves 3)) (@honest_inputs mix_blake3 (ex_leaves 7))).
Proof.
  apply (@planned_suffix_completes mix_blake3 no_json ex_source ex_entry ex_suffix ex_suffix 3 false ∅ {[ bstr "s" := ex_series_state 3 ]}
    (Some (ex_series_key 3)) 3 (ex_leaves 7) (ex_leaves 3)).
  - vm_compute. reflexivity.
  - exact ex_suffix_holds.
  - vm_compute. reflexivity.
  - unfold target_holds. rewrite decide_False by (vm_compute; discriminate). rewrite lookup_singleton_eq.
    split; [split; [vm_compute; reflexivity|split; vm_compute; reflexivity]|]. split; [split; vm_compute; reflexivity|vm_compute; reflexivity].
  - vm_compute. reflexivity.
Defined.
