(* ===== verification/PullFetch.v ===== *)
(** The fetch of one publication, [crates/steward/src/content_pull.rs]: the
    complete manifest map, the object closure of a tree, and
    [descend_from_publication], which puts the window, the commits, the manifest
    and the objects together. *)

From stdpp Require Import base list gmap numbers strings sorting options.
From Stdlib Require Import ZArith Lia.
From S2P Require Import Prelude RustStd EntryType Wire CanonicalJson Tree Manifest PatriciaMap PatriciaTree PatriciaEditor Commit SeriesMerkle SeriesManifest SeriesPack Publication PullGraph PullChain PullWindow PullSeries PullSeriesSpec.

Open Scope Z_scope.

Section Fetch.
Context `{Blake3} `{JsonParser} `{ContentSource}.

(** [while let Some(hash) = stack.pop()]; the right child is pushed first. *)
Fixpoint manifest_loop (fuel : nat) (stack : list bytes) (seen : gset bytes) (records : list ManifestRecord) (g : FetchedGraph)
    : pres (list ManifestRecord * FetchedGraph) :=
  match stack with
  | [] => Ok (records, g)
  | hash :: stack =>
      match fuel with
      | O => Err OutOfFuel
      | S fuel =>
          if bool_decide (hash ∈ seen) then manifest_loop fuel stack seen records g else
          b ← fetch_verified hash;
          node ← content (node_decode b);
          let g := add_map_node hash node b g in
          let seen := {[hash]} ∪ seen in
          match node with
          | Leaf _ record => manifest_loop fuel stack seen (records ++ [record]) g
          | Branch _ _ lft rgt => manifest_loop fuel (lft :: rgt :: stack) seen records g
          end
      end
  end.

Definition fetch_complete_manifest (fuel : nat) (root : bytes) (g : FetchedGraph) : pres (list ManifestRecord * FetchedGraph) :=
  out ← manifest_loop fuel [root] ∅ [] g;
  mret (sort_by record_cmp out.1, out.2).

Definition fetch_manifest_records (fuel : nat) (root : bytes) : pres (list ManifestRecord) :=
  out ← fetch_complete_manifest fuel root graph_default;
  mret out.1.

(** The entries of one tree: directories go on the stack, the rest is fetched. *)
Fixpoint entries_loop (complete : bool) (entries : list TreeEntry) (stack : list bytes) (g : FetchedGraph) : pres (list bytes * FetchedGraph) :=
  match entries with
  | [] => Ok (stack, g)
  | e :: entries =>
      match entry_type e with
      | DirectoryPhysical => entries_loop complete entries (child_hash e :: stack) g
      | FilePhysicalSeries | TablePhysicalSeries =>
          g ← fetch_series (child_hash e) (entry_type e) complete g; entries_loop complete entries stack g
      | FilePhysicalVersion | TablePhysicalVersion =>
          g ← fetch_blob (child_hash e) false g; entries_loop complete entries stack g
      | Symlink | DirectoryDynamic | FileDynamic | TableDynamic =>
          g ← fetch_blob (child_hash e) true g; entries_loop complete entries stack g
      end
  end.

Fixpoint tree_loop (fuel : nat) (complete : bool) (stack : list bytes) (g : FetchedGraph) : pres FetchedGraph :=
  match stack with
  | [] => Ok g
  | hash :: stack =>
      match fuel with
      | O => Err OutOfFuel
      | S fuel =>
          match trees g !! hash with
          | Some _ => tree_loop fuel complete stack g
          | None =>
              b ← fetch_verified hash;
              entries ← content (decode_tree b);
              out ← entries_loop complete entries stack (add_tree hash entries b g);
              tree_loop fuel complete out.1 out.2
          end
      end
  end.

Definition fetch_tree (fuel : nat) (hash : bytes) (complete : bool) (g : FetchedGraph) : pres FetchedGraph := tree_loop fuel complete [hash] g.

(** The commits the records name, prefetched. *)
Fixpoint fetch_commit_bytes (ds : list ObjectDescriptor) (fetched : gmap bytes bytes) : pres (gmap bytes bytes) :=
  match ds with
  | [] => Ok fetched
  | d :: ds =>
      if bool_decide (obj_kind d = CommitObject) then
        found ← ask (get_object (obj_hash d));
        b ← require found (ObjectAbsent (obj_hash d));
        _ ← verify (obj_hash d) b;
        fetch_commit_bytes ds (<[obj_hash d := b]> fetched)
      else fetch_commit_bytes ds fetched
  end.

(** One changed entry of an incremental pull. *)
Definition fetch_changed (g : FetchedGraph) (e : ManifestEntry) : pres FetchedGraph :=
  match node_type e with
  | DirectoryPhysical =>
      b ← fetch_verified (node_hash e);
      tree ← content (decode_tree b);
      mret (add_tree (node_hash e) tree b g)
  | FilePhysicalSeries | TablePhysicalSeries => fetch_series (node_hash e) (node_type e) false g
  | FilePhysicalVersion | TablePhysicalVersion => fetch_blob (node_hash e) false g
  | Symlink | DirectoryDynamic | FileDynamic | TableDynamic => fetch_blob (node_hash e) true g
  end.

Definition descend_from_publication (fuel : nat) (s : PublicationState) (boundary : PublicationBoundary) : pres FetchedGraph :=
  let known := boundary_tip boundary in
  window ← fetch_publication_chain s boundary;
  let records := window_records window in
  let g := {| tip := Some (Publication.snapshot_tip s); publication_state := Some s; commits := []; objects := ∅; trees := ∅; series := ∅;
              blob_hashes := ∅; fetched_bytes := ∅; external_blobs := ∅; graph_manifest := []; graph_changes := []; manifest_complete := false;
              publication_packs := group_packs (sorted_packs (concat (map (fun x => pub_packs x.2) records)));
              publication_records := records; publication_boundary := window_boundary window |} in
  fetched ← fetch_commit_bytes (sorted_objects (concat (map (fun x => pub_objects x.2) records))) ∅;
  fetched ← (if bool_decide (is_Some (fetched !! Publication.snapshot_tip s)) then Ok fetched
             else b ← fetch_verified (Publication.snapshot_tip s); mret (<[Publication.snapshot_tip s := b]> fetched));
  cs ← walk_bounded_commit_delta (Publication.snapshot_tip s) known fetched;
  let g := with_window cs (publication_packs g) records (window_boundary window) g in
  tip_commit ← require (snd <$> head cs) NoTipCommit;
  _ ← ensure (bool_decide (manifest_root tip_commit = ps_manifest_root s)) (ManifestDisagrees (ps_manifest_root s) (manifest_root tip_commit));
  match known with
  | None =>
      out ← fetch_complete_manifest fuel (ps_manifest_root s) (with_manifest [] [] true g);
      fetch_tree fuel (root_tree_hash tip_commit) true (with_manifest (map entry out.1) [] true out.2)
  | Some _ =>
      changes ← squash_publication_changes records;
      let changed := omap (fun c => entry <$> after c) changes in
      fold_pres fetch_changed changed (with_manifest changed changes false g)
  end.

(** One exact publication state, not reread. *)
Definition fetch_object_graph_at_publication (fuel : nat) (s : PublicationState) (known : option bytes) : pres FetchedGraph :=
  descend_from_publication fuel s (match known with Some k => Snapshot k | None => NoKnown end).

Definition fetch_object_graph_since (fuel : nat) (ref : bytes) (known : option bytes) : pres FetchedGraph :=
  state ← ask (get_publication_state ref);
  match state with
  | None => Ok graph_default
  | Some s => fetch_object_graph_at_publication fuel s known
  end.

Definition fetch_object_graph (fuel : nat) (ref : bytes) : pres FetchedGraph := fetch_object_graph_since fuel ref None.

Definition fetch_object_graph_from_acknowledgement (fuel : nat) (s acknowledged : PublicationState) : pres FetchedGraph :=
  descend_from_publication fuel s (Acknowledged acknowledged).
End Fetch.

(** * The complete manifest *)

Section ManifestSpec.
Context `{Blake3} `{ContentSource}.
#[local] Set Default Proof Using "Type*".

(** Every occurrence of a subtree is a different tree. *)
Lemma subtrees_size t s : s ∈ subtrees t -> s = t \/ (tsize s < tsize t)%nat.
Proof.
  induction t as [k r|b p l IHl r IHr]; simpl; rewrite elem_of_cons; [set_solver|]. rewrite elem_of_app.
  intros [->|[Hs|Hs]]; [by left|destruct (IHl Hs) as [->|]; right; lia|destruct (IHr Hs) as [->|]; right; lia].
Qed.

Lemma subtree_elems t s k v : s ∈ subtrees t -> (k, v) ∈ elems s -> (k, v) ∈ elems t.
Proof.
  induction t as [k' r|b p l IHl r IHr]; simpl; rewrite elem_of_cons; [intros [->|Hx]; [done|set_solver]|].
  rewrite !elem_of_app. intros [->|[Hs|Hs]] Hin; [by apply elem_of_app|by left; apply IHl|by right; apply IHr].
Qed.

Lemma subtrees_nodup t : wf_tree t -> NoDup (subtrees t).
Proof.
  induction 1 as [|b p l r Hb Hp Hz Hl Hr Hwl IHl Hwr IHr]; simpl; [apply NoDup_singleton|]. apply NoDup_cons. split.
  - intros [Hs|Hs]%elem_of_app; apply subtrees_size in Hs as [E|Hs]; simpl in *; try lia;
      apply (f_equal tsize) in E; simpl in E; lia.
  - apply NoDup_app. split; [done|]. split; [|done]. intros s H1 H2. destruct (elems_nonempty s) as (k & v & Hin).
    destruct (Hl _ _ (subtree_elems _ _ _ _ H1 Hin)), (Hr _ _ (subtree_elems _ _ _ _ H2 Hin)). lia.
Qed.

(** The source answers for a node of [t] with other bytes of the same hash. *)
Definition forged (t : ptree) : Prop :=
  Exists (fun s => match get_object (phash s) with Ok (Some b) => b <> pbytes s /\ of_bytes b = phash s | _ => False end) (subtrees t).

#[global] Instance forged_dec t : Decision (forged t).
Proof. unfold forged. apply Exists_dec. intros s. destruct (get_object (phash s)) as [[b|]| |]; apply _. Defined.

Definition forest_nodes (ts : list ptree) : list ptree := concat (map subtrees ts).
Definition forest_records (ts : list ptree) : list ManifestRecord := concat (map (fun t => map snd (elems t)) ts).

Section Walk.
Variable U : list bytes.
Hypothesis free : collision_free U.
Variable t : ptree.
Hypothesis ok : ok_tree U t.
Hypothesis genuine : ~ forged t.

Lemma genuine_bytes s b : s ∈ subtrees t -> fetch_verified (phash s) = Ok b -> b = pbytes s.
Proof.
  intros Hs [Hg Hv]%fetch_verified_Ok. destruct (decide (b = pbytes s)) as [|Hne]; [done|]. destruct genuine. unfold forged.
  apply Exists_exists. exists s. split; [done|]. by rewrite Hg.
Qed.

(** The walk of a forest of distinct subtrees of [t]. *)
Lemma manifest_loop_spec (fuel : nat) ts seen records g :
  (length (forest_nodes ts) < fuel)%nat -> NoDup (forest_nodes ts) ->
  (forall s, s ∈ forest_nodes ts -> s ∈ subtrees t /\ phash s ∉ seen) ->
  match manifest_loop fuel (map phash ts) seen records g with
  | Ok (rs, _) => rs = records ++ forest_records ts
  | Err e => exists s, s ∈ subtrees t /\ fetch_verified (phash s) = Err e
  | Panic => exists s, s ∈ subtrees t /\ fetch_verified (phash s) = Panic
  end.
Proof.
  revert ts seen records g. induction fuel as [|fuel IH]; intros [|s ts] seen records g Hf Hn Hin; cbn [map manifest_loop]; try (by rewrite app_nil_r); [lia|].
  assert (Hs : s ∈ forest_nodes (s :: ts)) by (unfold forest_nodes; cbn [map concat]; apply elem_of_app; left; apply subtrees_self).
  destruct (Hin s Hs) as [Hst Hseen]. rewrite bool_decide_false by done.
  destruct (fetch_verified (phash s)) as [b|e|] eqn:Ef; cbn [mbind outcome_bind]; [|by exists s|by exists s].
  apply genuine_bytes in Ef; [|done]. subst b. pose proof (ok_sub U free s t ok Hst) as Hok.
  rewrite (node_decode_encoded (pbytes s) (pnode s)) by (exact (pnode_valid U free s Hok) || exact (enc_ok U free s Hok)). cbn [content map_err mbind outcome_bind].
  unfold forest_nodes in Hn, Hin, Hf. cbn [map concat] in Hn, Hin, Hf. apply NoDup_app in Hn as (Hn1 & Hn12 & Hn2).
  assert (Hother : forall s', s' ∈ forest_nodes ts -> phash s' ∉ {[phash s]} ∪ seen).
  { intros s' Hs'. destruct (Hin s' ltac:(apply elem_of_app; by right)) as [Hst' Hse']. apply not_elem_of_union. split; [|done].
    intros E%elem_of_singleton. apply (phash_inj U free) in E; [|exact (ok_sub U free _ t ok Hst')|done]. subst s'. by apply (Hn12 s (subtrees_self s)). }
  destruct s as [k r|bit pre l r]; cbn [pnode] in *.
  - specialize (IH ts ({[phash (PLeaf k r)]} ∪ seen) (records ++ [r]) (add_map_node (phash (PLeaf k r)) (Leaf k r) (pbytes (PLeaf k r)) g)).
    rewrite length_app in Hf. cbn [subtrees length] in Hf. rewrite <- app_assoc in IH. apply IH; [unfold forest_nodes; lia|done|].
    intros s' Hs'. split; [by apply Hin, elem_of_app; right|by apply Hother].
  - change (phash l :: phash r :: map phash ts) with (map phash (l :: r :: ts)). cbn [subtrees] in Hn1, Hn12, Hin, Hf. apply NoDup_cons in Hn1 as [Hn0 Hn1].
    assert (Hel : forall s', s' ∈ forest_nodes (l :: r :: ts) -> s' ∈ (subtrees l ++ subtrees r) \/ s' ∈ forest_nodes ts).
    { intros s'. unfold forest_nodes. cbn [map concat]. rewrite !elem_of_app. tauto. }
    unfold forest_records. cbn [map concat elems]. rewrite map_app, <- app_assoc.
    apply (IH (l :: r :: ts)).
    + unfold forest_nodes. cbn [map concat]. rewrite !length_app in *. cbn [length] in Hf. rewrite length_app in Hf. lia.
    + unfold forest_nodes. cbn [map concat]. rewrite app_assoc. apply NoDup_app. split; [done|]. split; [|done]. intros s' H1' H2'. apply (Hn12 s'); [by apply elem_of_cons; right|done].
    + intros s' [Hs'|Hs']%Hel; [|by split; [apply Hin, elem_of_app; right|apply Hother]].
      destruct (Hin s') as [Hst' Hse']; [apply elem_of_app; left; by apply elem_of_cons; right|]. split; [done|].
      apply not_elem_of_union. split; [|done]. intros E%elem_of_singleton. apply (phash_inj U free) in E; [|exact (ok_sub U free _ t ok Hst')|done]. by subst s'.
Qed.
End Walk.

(** The walk of the whole map [t]. *)
Lemma clone_reads (t : ptree) (fuel : nat) (g : FetchedGraph) :
  wf_tree t -> leaves_ok t -> collision_free (map pbytes (subtrees t)) -> (length (subtrees t) < fuel)%nat -> ~ forged t ->
  match fetch_complete_manifest fuel (phash t) g with
  | Ok (rs, _) => rs = sort_by record_cmp (map snd (elems t))
  | Err e => exists s, s ∈ subtrees t /\ fetch_verified (phash s) = Err e
  | Panic => exists s, s ∈ subtrees t /\ fetch_verified (phash s) = Panic
  end.
Proof.
  intros Hw Hl Hc Hf Hg.
  assert (Hok : ok_tree (map pbytes (subtrees t)) t).
  { split_and!; [done|done|]. intros s Hs. by apply list_elem_of_In, in_map, list_elem_of_In. }
  pose proof (manifest_loop_spec _ Hc t Hok Hg fuel [t] ∅ [] g) as Hm. unfold forest_nodes, forest_records in Hm. cbn [map concat] in Hm.
  rewrite !app_nil_r in Hm. cbn [app] in Hm. unfold fetch_complete_manifest.
  specialize (Hm Hf (subtrees_nodup t Hw) ltac:(intros s Hs; split; [done|set_solver])).
  destruct (manifest_loop fuel [phash t] ∅ [] g) as [[rs g']|e|]; cbn [mbind outcome_bind mret outcome_ret fst snd]; [by rewrite Hm|done|done].
Qed.

(** C12: A clone reads the manifest the root commits to: for the map [t] with that root
    hash, the walk returns exactly the records of [t] in node order, and fails
    only with the failure of a read of one of [t]'s own nodes; or the source
    forged one of them. *)
Theorem clone_manifest_exact (t : ptree) (fuel : nat) (g : FetchedGraph) :
  wf_tree t -> leaves_ok t -> collision_free (map pbytes (subtrees t)) -> (length (subtrees t) < fuel)%nat ->
  match fetch_complete_manifest fuel (phash t) g with
  | Ok (rs, _) => rs = sort_by record_cmp (map snd (elems t))
  | Err e => exists s, s ∈ subtrees t /\ fetch_verified (phash s) = Err e
  | Panic => exists s, s ∈ subtrees t /\ fetch_verified (phash s) = Panic
  end \/ forged t.
Proof.
  intros Hw Hl Hc Hf. destruct (decide (forged t)) as [|Hg]; [by right|left]. by apply clone_reads.
Qed.
End ManifestSpec.

(** * The object closure *)

Section TreeSpec.
Context `{Blake3} `{JsonParser} `{ContentSource}.
#[local] Set Default Proof Using "Type*".

(** The object an entry names is in the graph, in the entry's role. *)
Definition present (g : FetchedGraph) (e : TreeEntry) : Prop :=
  match entry_type e with
  | DirectoryPhysical => is_Some (trees g !! child_hash e)
  | FilePhysicalSeries | TablePhysicalSeries =>
      exists s, series g !! child_hash e = Some s /\ expected_payload_kind (entry_type e) = Ok (sm_kind (manifest s))
  | FilePhysicalVersion | TablePhysicalVersion => child_hash e ∈ blob_hashes g
  | Symlink | DirectoryDynamic | FileDynamic | TableDynamic => child_hash e ∈ blob_hashes g /\ is_Some (fetched_bytes g !! child_hash e)
  end.

(** Every byte string is under its own hash, and so is every decoded tree and the
    manifest of every series. *)
Record verified (g : FetchedGraph) : Prop := {
  ve_bytes : forall h b, fetched_bytes g !! h = Some b -> of_bytes b = h;
  ve_trees : forall h es, trees g !! h = Some es -> exists b, of_bytes b = h /\ decode_tree b = Ok es;
  ve_series : forall h s, series g !! h = Some s -> exists b, of_bytes b = h /\ series_decode b = Ok (manifest s);
}.

(** Fetching only adds. *)
Record grows (g g' : FetchedGraph) : Prop := {
  gr_trees : forall h es, trees g !! h = Some es -> trees g' !! h = Some es;
  gr_series : forall h s, series g !! h = Some s -> series g' !! h = Some s;
  gr_blobs : blob_hashes g ⊆ blob_hashes g';
  gr_bytes : forall h, is_Some (fetched_bytes g !! h) -> is_Some (fetched_bytes g' !! h);
}.

#[global] Instance grows_preorder : PreOrder grows.
Proof.
  split; [by intros g; split|]. intros g1 g2 g3 [A1 A2 A3 A4] [B1 B2 B3 B4]. split; [auto|auto|set_solver|auto].
Qed.

Lemma fetched_grows g g' e : grows g g' -> present g e -> present g' e.
Proof.
  intros [Ht Hs Hb Hy]. unfold present. destruct (entry_type e);
    first [by intros [es He]; exists es; apply Ht | by intros (s & E & K); exists s; split; [apply Hs|] | apply Hb | by intros [H1' H2']; split; [apply Hb|apply Hy]].
Qed.

Lemma insert_keeps {A} (m : gmap bytes A) h a k : is_Some (m !! k) -> is_Some (<[h := a]> m !! k).
Proof. intros [x Hx]. destruct (decide (h = k)) as [->|]; [rewrite lookup_insert_eq|rewrite lookup_insert_ne by done]; eauto. Qed.

Lemma fetch_blob_spec h buffered g g' :
  verified g -> fetch_blob h buffered g = Ok g' ->
  verified g' /\ grows g g' /\ trees g' = trees g /\ h ∈ blob_hashes g' /\ (buffered = true -> is_Some (fetched_bytes g' !! h)).
Proof.
  intros Hv. unfold fetch_blob. destruct (bool_decide (h ∈ blob_hashes g) && _) eqn:E0.
  { intros [= <-]. apply andb_true_iff in E0 as [E1%bool_decide_eq_true E2]. split_and!; [done|done|done|done|]. intros ->. by apply bool_decide_eq_true in E2. }
  clear E0. intros E. apply bind_Ok in E as (large & El & E). destruct large.
  { apply Ok_inj in E as <-. split_and!; [by destruct Hv|split; cbn; set_solver|done|cbn; set_solver|]. intros ->. done. }
  inv_pull. match goal with Hg : get_object h = Ok ?o |- _ => destruct o as [b|] end; inv_pull.
  - split_and!; [|split; cbn; [done|done|set_solver|intros; by apply insert_keeps]|done|cbn; set_solver|intros _; cbn; by rewrite lookup_insert_eq].
    destruct Hv as [Hb Ht Hs]. split; cbn; [|done|done]. intros h' b' Hl. apply lookup_insert_Some in Hl as [[<- <-]|[_ Hl]]; [done|by apply Hb].
  - destruct (negb _); [done|]. destruct buffered; [done|]. inv_pull.
    split_and!; [by destruct Hv|split; cbn; set_solver|done|cbn; set_solver|done].
Qed.

Lemma fetch_series_spec h t complete g g' :
  verified g -> fetch_series h t complete g = Ok g' ->
  verified g' /\ grows g g' /\ trees g' = trees g /\ exists s, series g' !! h = Some s /\ expected_payload_kind t = Ok (sm_kind (manifest s)).
Proof.
  intros Hv. unfold fetch_series. destruct (series g !! h) as [s|] eqn:Es; intros E.
  - inv_pull. split_and!; [done|done|done|]. exists s. split; [done|congruence].
  - apply bind_Ok in E as (b & [_ Hb]%fetch_verified_Ok & E). apply bind_Ok in E as (m & Hm%pull_content_Ok & E).
    assert (Hadd : forall s, manifest s = m -> verified (add_series h s b g) /\ grows g (add_series h s b g) /\ trees (add_series h s b g) = trees g).
    { intros s Es'. split_and!; [|split; cbn; [done| |set_solver|intros; by apply insert_keeps]|done].
      - destruct Hv as [Hvb Ht Hvs]. split; cbn; [|done|].
        + intros h' b' Hl. apply lookup_insert_Some in Hl as [[<- <-]|[_ Hl]]; [done|by apply Hvb].
        + intros h' s' Hl. apply lookup_insert_Some in Hl as [[<- <-]|[_ Hl]]; [exists b; by rewrite Es'|by apply Hvs].
      - intros h' s' Hl. rewrite lookup_insert_ne; [done|]. intros ->. congruence. }
    unfold fetch_series_v2 in E. apply bind_Ok in E as (kind & Ek & E). apply bind_Ok in E as ([] & Em%ensure_Ok%bool_decide_eq_true & E). subst kind.
    destruct (sm_leaf_count m =? 0).
    + apply Ok_inj in E as <-. split_and!; try by apply Hadd. eexists. cbn. by rewrite lookup_insert_eq.
    + apply bind_Ok in E as ([ps base] & _ & E). apply bind_Ok in E as (u & _ & E). apply Ok_inj in E as <-.
      split_and!; try by apply Hadd. eexists. cbn. by rewrite lookup_insert_eq.
Qed.

(** All entries of all trees are present, up to the directories on the stack. *)
Definition closed_up_to (stack : list bytes) (g : FetchedGraph) : Prop :=
  forall h es e, trees g !! h = Some es -> e ∈ es -> present g e \/ (entry_type e = DirectoryPhysical /\ child_hash e ∈ stack).

(** The entries of one tree, after the loop over them. *)
Lemma entries_loop_spec complete es stack g stack' g' :
  verified g -> entries_loop complete es stack g = Ok (stack', g') ->
  verified g' /\ grows g g' /\ trees g' = trees g /\ stack ⊆ stack'
  /\ Forall (fun e => present g' e \/ (entry_type e = DirectoryPhysical /\ child_hash e ∈ stack')) es.
Proof.
  revert stack g. induction es as [|e es IH]; intros stack g Hv; cbn [entries_loop].
  { intros E. inv_pull. split_and!; [done|done|done|set_solver|constructor]. }
  assert (Hstep : forall g1, verified g1 -> grows g g1 -> trees g1 = trees g -> present g1 e -> entries_loop complete es stack g1 = Ok (stack', g') ->
     verified g' /\ grows g g' /\ trees g' = trees g /\ stack ⊆ stack'
     /\ Forall (fun e => present g' e \/ (entry_type e = DirectoryPhysical /\ child_hash e ∈ stack')) (e :: es)).
  { intros g1 Hv1 Hg1 Ht1 Hp1 E. apply IH in E as (A & B & C & D & F); [|done]. split_and!; [done|by etrans|congruence|done|].
    constructor; [left; by eapply fetched_grows|done]. }
  assert (Hdir : entry_type e = DirectoryPhysical -> entries_loop complete es (child_hash e :: stack) g = Ok (stack', g') ->
     verified g' /\ grows g g' /\ trees g' = trees g /\ stack ⊆ stack'
     /\ Forall (fun e => present g' e \/ (entry_type e = DirectoryPhysical /\ child_hash e ∈ stack')) (e :: es)).
  { intros Et E. apply IH in E as (A & B & C & D & F); [|done]. split_and!; [done|done|done|set_solver|].
    constructor; [right; split; [done|set_solver]|done]. }
  destruct (entry_type e) eqn:Et; try (by apply Hdir); intros (g1 & E1 & E)%bind_Ok;
    first [apply fetch_series_spec in E1 as (A & B & C & s & D1 & D2); [|done] | apply fetch_blob_spec in E1 as (A & B & C & D1 & D2); [|done]];
    apply (Hstep g1); try done; unfold present; rewrite Et; [..]; eauto.
Qed.

Lemma closed_drop h stack g : is_Some (trees g !! h) -> closed_up_to (h :: stack) g -> closed_up_to stack g.
Proof.
  intros Hh Hc h' es e Ht He. destruct (Hc h' es e Ht He) as [|[Et [Eh|Hs]%elem_of_cons]]; [by left| |by right].
  left. unfold present. rewrite Et. by rewrite Eh.
Qed.

Lemma add_tree_spec h es b g :
  trees g !! h = None -> verified g -> of_bytes b = h -> decode_tree b = Ok es -> verified (add_tree h es b g) /\ grows g (add_tree h es b g).
Proof.
  intros Hn [Hvb Hvt Hvs] Hb Hd. split.
  - split; cbn; [intros h' x Hl; apply lookup_insert_Some in Hl as [[<- <-]|[_ Hl]]; eauto..|exact Hvs].
  - split; cbn; [|done|set_solver|intros; by apply insert_keeps]. intros h' es' Hl. rewrite lookup_insert_ne; [done|]. intros ->. congruence.
Qed.

Lemma tree_loop_spec (fuel : nat) complete stack g g' :
  verified g -> closed_up_to stack g -> tree_loop fuel complete stack g = Ok g' ->
  verified g' /\ grows g g' /\ closed_up_to [] g' /\ Forall (fun h => is_Some (trees g' !! h)) stack.
Proof.
  revert stack g. induction fuel as [|fuel IH]; intros [|h stack] g Hv Hc; cbn [tree_loop]; try done;
    try (by intros [= <-]; split_and!; [done|done|done|constructor]).
  destruct (trees g !! h) as [es|] eqn:Et; intros E.
  - apply IH in E as (A & B & C & D); [|done|]. 2: { eapply closed_drop; [|done]. by exists es. }
    split_and!; [done|done|done|]. constructor; [|done]. exists es. by apply (gr_trees _ _ B).
  - apply bind_Ok in E as (b & [_ Hb]%fetch_verified_Ok & E). apply bind_Ok in E as (es & Hd%pull_content_Ok & E). apply bind_Ok in E as ([stack' g1] & El & E).
    destruct (add_tree_spec h es b g Et Hv Hb Hd) as [Hv1 Hg1]. apply entries_loop_spec in El as (A & B & C & D & F); [|done]. cbn [fst snd] in E.
    assert (Hg : grows g g1) by (by etrans). assert (Hh : trees g1 !! h = Some es) by (rewrite C; cbn; by rewrite lookup_insert_eq).
    apply IH in E as (A' & B' & C' & D'); [| done |].
    + split_and!; [done|by etrans|done|]. constructor; [exists es; by apply (gr_trees _ _ B')|]. rewrite Forall_forall in *. intros h' Hh'. apply D'. by apply D.
    + intros h' es' e Ht He. rewrite C in Ht. cbn in Ht. apply lookup_insert_Some in Ht as [[<- <-]|[Hne Ht]].
      * rewrite Forall_forall in F. by apply F.
      * destruct (Hc h' es' e Ht He) as [Hp|[Ete [Eh|Hs]%elem_of_cons]]; [left; by eapply fetched_grows| |right; split; [done|by apply D]].
        left. unfold present. rewrite Ete, Eh. by exists es.
Qed.

(** ** Termination on a finite source *)

(** What is still to be read: the stack and the entries of unread trees. *)
Definition unread (width : bytes -> nat) (g : FetchedGraph) (keys : list bytes) : nat :=
  sum_list_with (fun h => if bool_decide (is_Some (trees g !! h)) then 0%nat else S (width h)) keys.

Lemma unread_tree width g g' keys h es :
  NoDup keys -> h ∈ keys -> trees g !! h = None -> trees g' = <[h := es]> (trees g) ->
  (unread width g' keys + S (width h) = unread width g keys)%nat.
Proof.
  intros Hn Hh Ht Et. unfold unread. induction Hn as [|k keys Hk Hn IH]; [set_solver|]. cbn [sum_list_with]. rewrite Et.
  destruct (decide (k = h)) as [->|Hne].
  - rewrite lookup_insert_eq, Ht, bool_decide_true, bool_decide_false by (done || by intros [? ?]).
    assert (sum_list_with (fun h' => if bool_decide (is_Some (<[h := es]> (trees g) !! h')) then 0%nat else S (width h')) keys
      = sum_list_with (fun h' => if bool_decide (is_Some (trees g !! h')) then 0%nat else S (width h')) keys) as ->; [|lia].
    clear IH Hh. induction keys as [|k keys IH]; [done|]. apply NoDup_cons in Hn as [_ Hn]. apply not_elem_of_cons in Hk as [Hk1 Hk].
    cbn [sum_list_with]. rewrite lookup_insert_ne by done. by rewrite IH.
  - rewrite lookup_insert_ne by done. apply elem_of_cons in Hh as [?|Hh]; [congruence|]. specialize (IH Hh). rewrite Et in IH. lia.
Qed.

Lemma series_decode_count b m : series_decode b = Ok m -> 0 <= sm_leaf_count m.
Proof. intros Hd. apply series_manifest_codec in Hd as (Hw & _). unfold wf_series, is_u64 in Hw. rewrite !andb_true_iff in Hw. lia. Qed.

Lemma fetch_verified_fuel h : no_fuel (fetch_verified h).
Proof. unfold fetch_verified, verify. do 3 (apply no_fuel_bind; [auto|intros]); auto. Qed.

Lemma fetch_blob_fuel h buffered g : no_fuel (fetch_blob h buffered g).
Proof.
  unfold fetch_blob. destruct (_ && _); [done|]. apply no_fuel_bind; [destruct buffered; [done|]; apply no_fuel_bind; auto|]. intros [] _; [done|].
  apply no_fuel_bind; [auto|]. intros [b|] _; [unfold verify; apply no_fuel_bind; auto|]. apply no_fuel_bind; [auto|]. intros [] _; by destruct buffered.
Qed.

Lemma fetch_series_fuel h t complete g : no_fuel (fetch_series h t complete g).
Proof.
  unfold fetch_series. destruct (series g !! h); [do 2 (apply no_fuel_bind; [first [solve [auto] | by destruct t]|intros]); auto|].
  apply no_fuel_bind; [apply fetch_verified_fuel|]. intros b _. apply no_fuel_bind; [auto|]. intros m Hm%pull_content_Ok.
  apply fetch_series_v2_fuel. by apply series_decode_count in Hm.
Qed.

(** The loop over the entries ends, and pushes at most one hash per entry. *)
Lemma entries_loop_fuel complete es stack g :
  match entries_loop complete es stack g with
  | Ok (stack', _) => (length stack' <= length stack + length es)%nat
  | Err e => e <> OutOfFuel
  | Panic => True
  end.
Proof.
  revert stack g. induction es as [|e es IH]; intros stack g; cbn [entries_loop length]; [lia|].
  assert (Hbind : forall m, no_fuel m ->
    match m ≫= (fun g => entries_loop complete es stack g) with
    | Ok (stack', _) => (length stack' <= length stack + S (length es))%nat | Err e => e <> OutOfFuel | Panic => True end).
  { intros [g1|e1|] Hm; cbn [mbind outcome_bind]; [|by intros ->|done]. specialize (IH stack g1).
    destruct (entries_loop complete es stack g1) as [[stack' g2]| |]; [lia|done|done]. }
  destruct (entry_type e); try (apply Hbind; apply fetch_series_fuel || apply fetch_blob_fuel).
  specialize (IH (child_hash e :: stack) g). destruct (entries_loop complete es (child_hash e :: stack) g) as [[stack' g2]| |]; [cbn [length] in IH; lia|done|done].
Qed.

(** The trees a source can serve. *)
Definition serves_trees (served : gmap bytes (list TreeEntry)) : Prop :=
  forall h b es, get_object h = Ok (Some b) -> of_bytes b = h -> decode_tree b = Ok es -> served !! h = Some es.

Definition tree_budget (served : gmap bytes (list TreeEntry)) : nat :=
  unread (fun h => length (default [] (served !! h))) graph_default (elements (dom served)).

Lemma tree_loop_fuel served (fuel : nat) complete stack g :
  serves_trees served -> verified g ->
  (length stack + unread (fun h => length (default [] (served !! h))) g (elements (dom served)) < fuel)%nat ->
  no_fuel (tree_loop fuel complete stack g).
Proof.
  intros Hserve. revert stack g. induction fuel as [|fuel IH]; intros [|h stack] g Hv Hf; cbn [tree_loop]; try done; [cbn [length] in Hf; lia|].
  destruct (trees g !! h) as [es|] eqn:Et; [apply IH; [done|cbn [length] in Hf; lia]|].
  apply no_fuel_bind; [apply fetch_verified_fuel|]. intros b [Hg Hb]%fetch_verified_Ok. apply no_fuel_bind; [auto|]. intros es Hd%pull_content_Ok.
  pose proof (Hserve _ _ _ Hg Hb Hd) as Hs. pose proof (entries_loop_fuel complete es stack (add_tree h es b g)) as Hl.
  destruct (add_tree_spec h es b g Et Hv Hb Hd) as [Hv1 Hg1].
  destruct (entries_loop complete es stack (add_tree h es b g)) as [[stack' g1]|e|] eqn:El; cbn [mbind outcome_bind]; [|by intros [= ->]|done].
  apply entries_loop_spec in El as (Hv2 & _ & Ht & _); [|done]. cbn [fst snd]. apply IH; [done|].
  pose proof (unread_tree (fun h => length (default [] (served !! h))) g g1 (elements (dom served)) h es) as Hu. cbv beta in Hu. rewrite Hs in Hu.
  specialize (Hu (NoDup_elements _) ltac:(apply elem_of_elements, elem_of_dom; by eexists) Et Ht). cbn [length] in Hf. change (length (default [] (Some es))) with (length es) in Hu. lia.
Qed.

End TreeSpec.

(** * Witnesses *)

(** A source that serves a list of objects, all small. *)
Definition serving (bs : list bytes) : ContentSource :=
  {| source_pond_id := []; get_publication_state := fun _ => Ok None; get_publication_record := fun _ => Ok None;
     get_publication_pack := fun _ => Ok None; get_object := fun h => Ok (find (fun b => bool_decide (mix b = h)) bs);
     get_objects := fun _ => Ok ∅; object_size := fun _ => Ok None; has_blob := fun _ => Ok false; get_blob_reader := fun _ => Ok None; get_series_pack := fun _ => Ok None;
     get_consolidated_series_pack := fun _ => Ok None |}.

Definition clone_map : ptree := default (PLeaf [] ex_a) ex_map.

Lemma clone_manifest_exact_witness :
  match @fetch_complete_manifest mix_blake3 (serving (map (@pbytes mix_blake3) (subtrees clone_map))) 4 (@phash mix_blake3 clone_map) graph_default with
  | Ok (rs, _) => rs = sort_by record_cmp (map snd (elems clone_map))
  | Err e => exists s, s ∈ subtrees clone_map
      /\ @fetch_verified mix_blake3 (serving (map (@pbytes mix_blake3) (subtrees clone_map))) (@phash mix_blake3 s) = Err e
  | Panic => exists s, s ∈ subtrees clone_map
      /\ @fetch_verified mix_blake3 (serving (map (@pbytes mix_blake3) (subtrees clone_map))) (@phash mix_blake3 s) = Panic
  end \/ @forged mix_blake3 (serving (map (@pbytes mix_blake3) (subtrees clone_map))) clone_map.
Proof.
  apply (@clone_manifest_exact mix_blake3 (serving (map (@pbytes mix_blake3) (subtrees clone_map))) clone_map 4 graph_default).
  - exact (@persisted_wf mix_blake3 _ _ ex_persisted).
  - exact (@persisted_leaves mix_blake3 _ _ ex_persisted).
  - by_decision.
  - vm_compute. lia.
Defined.

(** A directory with a file and a subdirectory that holds a link. *)
Definition clone_sub : bytes := unwrap_or [] (encode_tree [bare (bstr "l") Symlink (mix (bstr "/f"))]).
Definition clone_root : bytes :=
  unwrap_or [] (encode_tree [bare (bstr "f") FilePhysicalVersion (mix (bstr "body")); bare (bstr "d") DirectoryPhysical (mix clone_sub)]).
Definition clone_objects : list bytes := [clone_root; clone_sub; bstr "body"; bstr "/f"].
Definition clone_trees : gmap bytes (list TreeEntry) :=
  list_to_map (omap (fun b => match decode_tree b with Ok es => Some (mix b, es) | _ => None end) clone_objects).

Lemma clone_serves : @serves_trees mix_blake3 (serving clone_objects) clone_trees.
Proof.
  intros h b es E _ Hd. change (Ok (find (fun b => bool_decide (mix b = h)) clone_objects) = (Ok (Some b) : outcome unit _)) in E.
  apply Ok_inj in E. apply find_some in E as [Hin <-%bool_decide_eq_true].
  cbn [In clone_objects] in Hin. destruct Hin as [<-|[<-|[<-|[<-|[]]]]]; vm_compute in Hd; [..|discriminate|discriminate]; injection Hd as <-; vm_compute; reflexivity.
Qed.

