(* ===== verification/PullPlan.v ===== *)
(** Planning a pull, [crates/steward/src/content_pull.rs]: the effective manifest
    of an incremental publication, its consistency with the fetched trees, and
    the diff by node identity that becomes the operations to apply. *)

From stdpp Require Import base list gmap numbers strings sorting options.
From Stdlib Require Import ZArith Lia.
From S2P Require Import Prelude RustStd RustText EntryType TinyFs Wire CanonicalJson Tree Manifest Commit SeriesMerkle SeriesManifest SeriesPack Publication PullGraph PullSeries PullRenames.

Open Scope Z_scope.

(** * The plan *)

Inductive VersionSource := Inline (b : bytes) | External (hash : bytes).

Record PlannedVersion := { pv_source : VersionSource; pv_meta : VersionMeta }.

Inductive ApplyOp :=
| OpRename (parent old new : bytes)
| OpDir (parent name node : bytes) (create : bool)
| OpFile (parent name node : bytes) (create : bool) (t : EntryType) (versions : list PlannedVersion)
| OpSymlink (parent name node : bytes) (create : bool) (target : bytes) (mtime : option Z)
| OpDynamic (parent name node : bytes) (create : bool) (factory config : bytes) (mtime : option Z)
| OpDelete (parent_path name : bytes)
| OpSeriesV2 (parent name node : bytes) (create : bool) (t : EntryType) (manifest_hash : bytes) (leaves_from : Z) (mtime : option Z).

(** [RebuildOutcome], without the counters of local reads. *)
Record RebuildOutcome := {
  ro_root : option bytes;
  ro_dirs : nat; ro_files : nat; ro_symlinks : nat; ro_series : nat; ro_dynamic : nat;
}.

(** The destination as the planner sees it. *)
Record TargetPlanningState := {
  tp_nodes : gmap bytes ManifestEntry;
  tp_children : gmap bytes (list ManifestRecordChild);
  tp_leaves : gmap bytes (list bytes);
  tp_manifests : gmap bytes SeriesManifest;
}.

(** [entry(parent).or_default().push(child)], over the values in any order, then
    each list by node id. *)
Definition directory_children_from_entries (values : list ManifestEntry) : gmap bytes (list ManifestRecordChild) :=
  sort_by (cmp_on child_node_id bytes_cmp)
    <$> fold_left (fun m e => if bool_decide (parent_node_id e = []) then m else
          <[parent_node_id e := default [] (m !! parent_node_id e)
              ++ [{| child_node_id := node_id e; child_name := node_name e; child_type := node_type e |}]]> m) values ∅.

(** ** The effective manifest *)

Definition effective_change (nodes : gmap bytes ManifestEntry) (c : ManifestChange) : pres (gmap bytes ManifestEntry) :=
  let id := change_node_id c in
  _ ← match before c with
      | Some b =>
          current ← require (nodes !! id) (ExpectsNode id);
          ensure (bool_decide (current = entry b)) (BaselineMismatch id)
      | None => ensure (bool_decide (nodes !! id = None)) (AlreadyPresent id)
      end;
  mret (match after c with Some a => <[id := entry a]> nodes | None => delete id nodes end).

Definition graph_with_effective_manifest (g : FetchedGraph) (target : gmap bytes ManifestEntry) : pres FetchedGraph :=
  if manifest_complete g then Ok g else
  nodes ← fold_pres effective_change (graph_changes g) target;
  mret (with_manifest (sort_by (cmp_on node_id bytes_cmp) (map snd (map_to_list nodes))) (graph_changes g) true g).

Definition is_root_entry (e : ManifestEntry) : Prop := parent_node_id e = [] /\ node_name e = [].

#[global] Instance is_root_entry_dec e : Decision (is_root_entry e).
Proof. unfold is_root_entry. apply _. Defined.

Definition src_root_id (g : FetchedGraph) : pres bytes :=
  require (node_id <$> (snd <$> list_find is_root_entry (graph_manifest g))) NoRootEntry.

(** ** The manifest against the trees *)

(** The children of [parent] in manifest order. *)
Definition kids_of (root_id parent : bytes) (entries : list ManifestEntry) : list ManifestEntry :=
  filter (fun e => node_id e <> root_id /\ parent_node_id e = parent) entries.

Definition entry_shape (e : ManifestEntry) : bytes * EntryType * bytes := (node_name e, node_type e, node_hash e).
Definition tree_shape (e : TreeEntry) : bytes * EntryType * bytes := (name e, entry_type e, child_hash e).
Definition shape_cmp : bytes * EntryType * bytes -> bytes * EntryType * bytes -> comparison := cmp_on (fun s => s.1.1) bytes_cmp.

Definition check_directory (g : FetchedGraph) (root_id : bytes) (e : ManifestEntry) : pres unit :=
  tree ← require (trees g !! node_hash e) (NotATree (node_id e));
  ensure (bool_decide (sort_by shape_cmp (map tree_shape tree) = sort_by shape_cmp (map entry_shape (kids_of root_id (node_id e) (graph_manifest g)))))
    (ChildrenMismatch (node_id e)).

Definition verify_manifest_matches_tree (g : FetchedGraph) : pres unit :=
  match graph_root_tree_hash g with
  | None => Ok tt
  | Some root_tree =>
      root_id ← src_root_id g;
      root_entry ← require (snd <$> list_find (fun e => node_id e = root_id) (graph_manifest g)) NoRootEntry;
      _ ← ensure (bool_decide (node_hash root_entry = root_tree)) RootTreeMismatch;
      fold_pres (fun _ e => check_directory g root_id e) (filter (fun e => node_type e = DirectoryPhysical) (graph_manifest g)) tt
  end.

(** ** Positions in the destination *)

(** [while let Some(entry) = target_nodes.get(current)]: the names from the node
    up to the root; [None] is a loop that does not end. *)
Fixpoint names_up (fuel : nat) (nodes : gmap bytes ManifestEntry) (current : bytes) : option (list bytes) :=
  match nodes !! current with
  | None => Some []
  | Some e =>
      if bool_decide (parent_node_id e = []) then Some [] else
      match fuel with
      | O => None
      | S fuel => cons (node_name e) <$> names_up fuel nodes (parent_node_id e)
      end
  end.

Definition target_depth (id : bytes) (nodes : gmap bytes ManifestEntry) : option nat := @length bytes <$> names_up (size nodes) nodes id.

Definition target_path (id : bytes) (nodes : gmap bytes ManifestEntry) : option bytes :=
  (fun names => match rev names with [] => [] | names => SLASH :: join SLASH names end) <$> names_up (size nodes) nodes id.

(** Deepest first; equal depths stay in order. *)
Definition deeper (x y : nat * ManifestEntry) : comparison := Nat.compare y.1 x.1.

Fixpoint with_depth (nodes : gmap bytes ManifestEntry) (l : list ManifestEntry) : option (list (nat * ManifestEntry)) :=
  match l with
  | [] => Some []
  | e :: l => d ← target_depth (node_id e) nodes; rest ← with_depth nodes l; Some ((d, e) :: rest)
  end.

Fixpoint delete_ops (nodes : gmap bytes ManifestEntry) (l : list (nat * ManifestEntry)) : option (list ApplyOp) :=
  match l with
  | [] => Some []
  | (_, e) :: l => p ← target_path (parent_node_id e) nodes; rest ← delete_ops nodes l; Some (OpDelete p (node_name e) :: rest)
  end.

Definition plan_deletions (nodes : gmap bytes ManifestEntry) (doomed : list ManifestEntry) : pres (list ApplyOp) :=
  require (ds ← with_depth nodes doomed; delete_ops nodes (sort_by deeper ds)) OutOfFuel.

(** ** Contents *)

Definition blob_bytes (g : FetchedGraph) (hash : bytes) : pres bytes :=
  _ ← ensure (bool_decide (hash ∈ blob_hashes g)) (BlobMissing hash);
  match fetched_bytes g !! hash with
  | Some b => Ok b
  | None => if bool_decide (hash ∈ external_blobs g) then Err (NotBuffered hash) else Err (BlobMissing hash)
  end.

Definition version_source (g : FetchedGraph) (hash : bytes) : pres VersionSource :=
  _ ← ensure (bool_decide (hash ∈ blob_hashes g)) (BlobMissing hash);
  match fetched_bytes g !! hash with
  | Some b => Ok (Inline b)
  | None => if bool_decide (hash ∈ external_blobs g) then Ok (External hash) else Err (BlobMissing hash)
  end.

(** [VersionMeta::default]. *)
Definition meta_default : VersionMeta := {| timestamp := None; min_event_time := None; max_event_time := None; extended_attributes := None |}.

Definition planned_version (g : FetchedGraph) (hash : bytes) (meta : option VersionMeta) : pres PlannedVersion :=
  source ← version_source g hash;
  mret {| pv_source := source; pv_meta := default meta_default meta |}.

Definition replicated_mtime (e : ManifestEntry) : option Z := last (node_versions e) ≫= timestamp.

Definition series_v2 (g : FetchedGraph) (hash : bytes) : pres FetchedSeriesV2 := require (series g !! hash) (SeriesMissing hash).

(** ** One node *)

Section Plan.
Context `{Blake3}.
Variables (g : FetchedGraph) (target : TargetPlanningState).

Definition check_twin (e : ManifestEntry) (existing : option ManifestEntry) : pres unit :=
  match existing with
  | Some t =>
      _ ← ensure (bool_decide (parent_node_id t = parent_node_id e)) (Reparented (node_id e));
      ensure (bool_decide (node_type t = node_type e)) (TypeChanged (node_id e))
  | None => Ok tt
  end.

Definition needs_write (e : ManifestEntry) (existing : option ManifestEntry) : bool :=
  match existing with
  | None => true
  | Some t => negb (bool_decide (node_hash t = node_hash e)) || negb (bool_decide (node_versions t = node_versions e))
  end.

Definition is_create (existing : option ManifestEntry) : bool := bool_decide (existing = None).

Definition plan_one (e : ManifestEntry) : pres (list ApplyOp) :=
  let existing := tp_nodes target !! node_id e in
  let create := is_create existing in
  _ ← check_twin e existing;
  match node_type e with
  | DirectoryPhysical => Ok [OpDir (parent_node_id e) (node_name e) (node_id e) create]
  | FilePhysicalVersion | TablePhysicalVersion =>
      versions ← (if needs_write e existing then v ← planned_version g (node_hash e) (head (node_versions e)); mret [v] else Ok []);
      mret [OpFile (parent_node_id e) (node_name e) (node_id e) create (node_type e) versions]
  | FilePhysicalSeries | TablePhysicalSeries =>
      if needs_write e existing then
        s ← series_v2 g (node_hash e);
        leaves_from ← plan_series_v2_leaves e s (tp_leaves target) (tp_manifests target) (node_hash <$> existing);
        mret (if create || (leaves_from <? sm_leaf_count (manifest s))
              then [OpSeriesV2 (parent_node_id e) (node_name e) (node_id e) create (node_type e) (node_hash e) leaves_from (replicated_mtime e)] else [])
      else Ok []
  | Symlink =>
      if needs_write e existing then
        b ← blob_bytes g (node_hash e);
        _ ← ensure (utf8_valid b) SymlinkNotUtf8;
        mret [OpSymlink (parent_node_id e) (node_name e) (node_id e) create b (replicated_mtime e)]
      else Ok []
  | DirectoryDynamic | FileDynamic | TableDynamic =>
      if needs_write e existing then
        b ← blob_bytes g (node_hash e);
        recipe ← content (decode_recipe b);
        mret [OpDynamic (parent_node_id e) (node_name e) (node_id e) create recipe.1 recipe.2 (replicated_mtime e)]
      else Ok []
  end.

(** A series whose leaves are the same and whose metadata is not: the change asks
    for a write, but no leaf is missing, so none is planned. *)
Lemma plan_one_stale e t s :
  tp_nodes target !! node_id e = Some t -> parent_node_id t = parent_node_id e -> node_type t = node_type e ->
  node_type e = FilePhysicalSeries \/ node_type e = TablePhysicalSeries ->
  node_hash t = node_hash e -> node_versions t <> node_versions e -> series g !! node_hash e = Some s ->
  needs_write e (Some t) = true /\ plan_one e = Ok [].
Proof.
  intros Et Ep Ey Hs Eh Hv Es. assert (Hn : needs_write e (Some t) = true).
  { unfold needs_write. rewrite (bool_decide_true (node_hash t = _)), (bool_decide_false (node_versions t = _)) by done. done. }
  split; [done|]. unfold plan_one. rewrite Et. unfold check_twin. rewrite !bool_decide_true by done. cbn [ensure mbind outcome_bind].
  rewrite Hn. unfold series_v2, is_create. rewrite Es. cbn [require mbind outcome_bind fmap option_fmap option_map plan_series_v2_leaves].
  rewrite (bool_decide_true (node_hash t = _)), (bool_decide_false (Some t = None)) by done. cbn [mbind outcome_bind orb]. rewrite Z.ltb_irrefl.
  by destruct Hs as [-> | ->].
Qed.

(** The counters [plan_one] increments. *)
Definition count_one (o : RebuildOutcome) (e : ManifestEntry) : RebuildOutcome :=
  if is_create (tp_nodes target !! node_id e) then
    match node_type e with
    | DirectoryPhysical => {| ro_root := ro_root o; ro_dirs := S (ro_dirs o); ro_files := ro_files o; ro_symlinks := ro_symlinks o; ro_series := ro_series o; ro_dynamic := ro_dynamic o |}
    | FilePhysicalVersion | TablePhysicalVersion => {| ro_root := ro_root o; ro_dirs := ro_dirs o; ro_files := S (ro_files o); ro_symlinks := ro_symlinks o; ro_series := ro_series o; ro_dynamic := ro_dynamic o |}
    | FilePhysicalSeries | TablePhysicalSeries => {| ro_root := ro_root o; ro_dirs := ro_dirs o; ro_files := ro_files o; ro_symlinks := ro_symlinks o; ro_series := S (ro_series o); ro_dynamic := ro_dynamic o |}
    | Symlink => {| ro_root := ro_root o; ro_dirs := ro_dirs o; ro_files := ro_files o; ro_symlinks := S (ro_symlinks o); ro_series := ro_series o; ro_dynamic := ro_dynamic o |}
    | _ => {| ro_root := ro_root o; ro_dirs := ro_dirs o; ro_files := ro_files o; ro_symlinks := ro_symlinks o; ro_series := ro_series o; ro_dynamic := S (ro_dynamic o) |}
    end
  else o.

(** ** One directory *)

Definition name_cmp : ManifestEntry -> ManifestEntry -> comparison := cmp_on node_name bytes_cmp.

Definition sorted_kids (root_id parent : bytes) : list ManifestEntry := sort_by name_cmp (kids_of root_id parent (graph_manifest g)).

(** The intent of a child whose twin has another name in the same parent. *)
Definition rename_intent (e : ManifestEntry) : option RenameIntent :=
  match tp_nodes target !! node_id e with
  | Some t => if bool_decide (parent_node_id t = parent_node_id e) && negb (bool_decide (node_name t = node_name e))
              then Some {| ri_old := node_name t; ri_new := node_name e; ri_node_id := node_id e |} else None
  | None => None
  end.

Definition reserved_names (parent : bytes) (kids : list ManifestEntry) : gset bytes :=
  list_to_set (map node_name kids) ∪ list_to_set (map child_name (default [] (tp_children target !! parent))).

Fixpoint plan_kids (kids : list ManifestEntry) : pres (list ApplyOp) :=
  match kids with
  | [] => Ok []
  | e :: kids => ops ← plan_one e; rest ← plan_kids kids; mret (ops ++ rest)
  end.

Definition plan_directory (parent : bytes) (kids : list ManifestEntry) : pres (list ApplyOp) :=
  renames ← require (emit_collision_safe_renames (omap rename_intent kids) (reserved_names parent kids)) OutOfFuel;
  ops ← plan_kids kids;
  mret (map (fun r => OpRename parent r.1 r.2) renames ++ ops).

(** [while let Some(parent_id) = queue.pop_front()]. *)
Fixpoint plan_queue (fuel : nat) (root_id : bytes) (queue : list bytes) (o : RebuildOutcome) : pres (list ApplyOp * RebuildOutcome) :=
  match queue with
  | [] => Ok ([], o)
  | parent :: queue =>
      match fuel with
      | O => Err OutOfFuel
      | S fuel =>
          let kids := sorted_kids root_id parent in
          ops ← plan_directory parent kids;
          rest ← plan_queue fuel root_id (queue ++ map node_id (filter (fun e => node_type e = DirectoryPhysical) kids)) (fold_left count_one kids o);
          mret (ops ++ rest.1, rest.2)
      end
  end.

Definition is_doomed (root_id : bytes) (t : ManifestEntry) : Prop := node_id t <> root_id /\ node_id t ∉ map node_id (graph_manifest g).

#[global] Instance is_doomed_dec root_id t : Decision (is_doomed root_id t).
Proof. unfold is_doomed. apply _. Defined.

(** [values] are the target's nodes in the order of the hash map. *)
Definition plan_node_diff (root : bytes) (values : list ManifestEntry) : pres (list ApplyOp * RebuildOutcome) :=
  root_id ← src_root_id g;
  deletes ← plan_deletions (tp_nodes target) (filter (is_doomed root_id) values);
  rest ← plan_queue (S (length (graph_manifest g))) root_id [root_id]
           {| ro_root := Some root; ro_dirs := 0; ro_files := 0; ro_symlinks := 0; ro_series := 0; ro_dynamic := 0 |};
  mret (deletes ++ rest.1, rest.2).
End Plan.

(** Everything but the root is deleted and the source created anew. *)
Definition plan_full_replacement `{Blake3} (g : FetchedGraph) (root : bytes) (nodes : gmap bytes ManifestEntry) (values : list ManifestEntry)
    : pres (list ApplyOp * RebuildOutcome) :=
  root_id ← src_root_id g;
  deletes ← plan_deletions nodes (filter (fun e => node_id e <> root_id) values);
  rest ← plan_node_diff g {| tp_nodes := ∅; tp_children := ∅; tp_leaves := ∅; tp_manifests := ∅ |} root [];
  mret (deletes ++ rest.1, rest.2).
