(* ===== verification/PullApply.v ===== *)
(** Applying a plan, [crates/steward/src/content_pull.rs]: the physical objects a
    plan needs and their prefetch; the writer of file and table series, which cuts
    the streams of the packs at the leaf boundaries, checks every leaf against its
    fetched hash and writes it as a version of its own; and [apply_ops], which
    runs the operations of [PullPlan] on the namespace of [TinyFs] in order. *)

From stdpp Require Import base list gmap numbers strings options.
From Stdlib Require Import ZArith Lia.
From S2P Require Import Prelude RustStd RustText EntryType TinyFs Wire CanonicalJson Tree Manifest Commit SeriesMerkle SeriesManifest SeriesPack SeriesLeaf TableLeaf TableRows TablePack CapsuleStream CapsuleTable Publication PullGraph PullSeries PullRenames PullPlan.

Open Scope Z_scope.

(** ** Written versions *)

(** Attributes set by name from a parsed map, or handed over byte for byte. *)
Inductive written_attributes :=
| Parsed (attributes : gmap bytes bytes)
| Exact (b : bytes).

(** A written version: its bytes and what its writer was told: the modification
    time to adopt, the event times with their column, and the attributes. *)
Record version := {
  v_bytes : bytes;
  v_mtime : option Z;
  v_temporal : option (Z * Z * bytes);
  v_attributes : option written_attributes;
}.

Abbreviation fs_store := (TinyFs.store version).

(** What the application of a plan is given: the parser of node identities (a
    UUID library), the identity generated for a new node, serde's reading of an
    object of strings, what factories list, the event times a table writer finds
    in the footer of what it wrote, and [RecordBatch::try_new] of Arrow. *)
Class Destination := {
  uuid_of : bytes -> option uuid;
  generated_id : uuid;
  attributes_from_json : bytes -> option (gmap bytes bytes);
  factory_get : bytes * bytes * option Z -> bytes -> outcome unit (option FileID);
  footer_bounds : bytes -> option (Z * Z * bytes);
  batch_try_new : ArrowSchema -> list TableLeaf.Array -> option RecordBatch;
}.

(** An error of the filesystem, passed on. *)
Definition fs {A} (m : fres A) : pres A := map_err FsFailed m.

Definition leaf_res {A} (m : outcome leaf_error A) : pres A := map_err LeafRefused m.
Definition table_res {A} (m : tres A) : pres A := map_err TableRefused m.

(** ** The part of a pack a suffix needs *)

(** [iter().try_fold(0u64, ..checked_add)]. *)
Fixpoint logical_sum (sum : Z) (ds : list PackLeafDescriptor) : pres Z :=
  match ds with
  | [] => Ok sum
  | d :: ds => _ ← ensure (sum + d_count d <=? u64_max) PrefixOverflow; logical_sum (sum + d_count d) ds
  end.

Definition suffix_start_in_pack (p : PackIndex) (leaves_from : Z) : pres (nat * Z) :=
  _ ← (if leaf_end p <? leaf_start p then Panic else Ok tt);
  let skipped := Z.to_nat (Z.min (Z.max 0 (leaves_from - leaf_start p)) (leaf_end p - leaf_start p)) in
  _ ← (if (length (leaf_descriptors p) <? skipped)%nat then Panic else Ok tt);
  prefix ← logical_sum 0 (take skipped (leaf_descriptors p));
  mret (skipped, prefix).

(** [object_spans().iter().filter(..)]. *)
Definition suffix_spans (p : PackIndex) (prefix : Z) : list PackObjectSpan := filter (fun sp => prefix < logical_end sp) (object_spans p).

(** ** The objects of a plan *)

Record PackObjectPlan := { pl_uses : gmap bytes Z; pl_lengths : gmap bytes Z; pl_inline : Z }.

Definition plan_span (pl : PackObjectPlan) (sp : PackObjectSpan) : pres PackObjectPlan :=
  let hash := object_hash sp in
  let len := physical_len sp in
  r ← match pl_lengths pl !! hash with
      | None =>
          if len <? LARGE_FILE_THRESHOLD then
            _ ← ensure (pl_inline pl + len <=? u64_max) InlineOverflow; mret (<[hash := len]> (pl_lengths pl), pl_inline pl + len)
          else mret (<[hash := len]> (pl_lengths pl), pl_inline pl)
      | Some declared => _ ← ensure (declared =? len) (PlannedLengths hash); mret (pl_lengths pl, pl_inline pl)
      end;
  let count := default 0 (pl_uses pl !! hash) in
  _ ← ensure (count + 1 <=? u64_max) UseOverflow;
  mret {| pl_uses := <[hash := count + 1]> (pl_uses pl); pl_lengths := r.1; pl_inline := r.2 |}.

Definition plan_pack (leaves_from : Z) (pl : PackObjectPlan) (x : bytes * PackIndex) : pres PackObjectPlan :=
  if leaf_end x.2 <=? leaves_from then Ok pl else
  r ← suffix_start_in_pack x.2 leaves_from;
  fold_pres plan_span (suffix_spans x.2 r.2) pl.

Definition plan_series_op (g : FetchedGraph) (pl : PackObjectPlan) (op : ApplyOp) : pres PackObjectPlan :=
  match op with
  | OpSeriesV2 _ _ _ _ _ hash leaves_from _ => s ← series_v2 g hash; fold_pres (plan_pack leaves_from) (packs s) pl
  | _ => Ok pl
  end.

Definition pack_object_plan (ops : list ApplyOp) (g : FetchedGraph) : pres PackObjectPlan :=
  fold_pres (plan_series_op g) ops {| pl_uses := ∅; pl_lengths := ∅; pl_inline := 0 |}.

Definition MAX_INLINE_PACK_PREFETCH_BYTES : Z := 64 * 1024 * 1024.

Definition validate_inline_prefetch_size (size limit : Z) : pres unit := ensure (size <=? limit) (InlineLimit size limit).

(** ** Prepared objects *)

(** In memory, or spooled to a file with its length. *)
Inductive VerifiedPackObject :=
| Memory (b : bytes)
| Spooled (b : bytes) (len : Z).

Definition object_len (o : VerifiedPackObject) : Z := match o with Memory b => Z.of_nat (length b) | Spooled _ len => len end.

Definition validate_len (o : VerifiedPackObject) (hash : bytes) (expected : Z) : pres unit :=
  ensure (object_len o =? expected) (ObjectLength hash (object_len o) expected).

Record PreparedPackObjects := { po_uses : gmap bytes Z; po_inline : gset bytes; po_cache : gmap bytes VerifiedPackObject }.

(** The release after a use; the last one forgets the object. *)
Definition release_pack_object (hash : bytes) (po : PreparedPackObjects) : pres PreparedPackObjects :=
  remaining ← require (po_uses po !! hash) (UnplannedUse hash);
  _ ← ensure (1 <=? remaining) (UseUnderflow hash);
  mret (if remaining - 1 =? 0
        then {| po_uses := delete hash (po_uses po); po_inline := po_inline po; po_cache := delete hash (po_cache po) |}
        else {| po_uses := <[hash := remaining - 1]> (po_uses po); po_inline := po_inline po; po_cache := po_cache po |}).

Section Objects.
Context `{Blake3} `{ContentSource}.

(** The keys in order; an object with a receipt must have the planned length, and
    a small one is fetched with the batch. *)
Fixpoint inline_hashes (lengths : gmap bytes Z) (hs : list bytes) : pres (list bytes) :=
  match hs with
  | [] => Ok []
  | h :: hs =>
      expected ← match lengths !! h with Some n => Ok n | None => Panic end;
      size ← ask (object_size h);
      mine ← match size with
             | Some actual => _ ← ensure (actual =? expected) (ReceiptLength h actual expected); mret (if actual <? LARGE_FILE_THRESHOLD then [h] else [])
             | None => Ok []
             end;
      rest ← inline_hashes lengths hs;
      mret (mine ++ rest)
  end.

(** One object of the batch. *)
Definition take_prefetched (lengths : gmap bytes Z) (acc : gmap bytes VerifiedPackObject * Z) (x : bytes * bytes)
    : pres (gmap bytes VerifiedPackObject * Z) :=
  let '(hash, b) := x in
  expected ← require (lengths !! hash) (PrefetchKey hash);
  _ ← verify hash b;
  let actual := Z.of_nat (length b) in
  _ ← ensure (actual =? expected) (ObjectLength hash actual expected);
  _ ← ensure (acc.2 + actual <=? u64_max) InlineOverflow;
  mret (<[hash := Memory b]> acc.1, acc.2 + actual).

Definition prefetch (lengths : gmap bytes Z) (hashes : list bytes) : pres (gmap bytes VerifiedPackObject) :=
  if bool_decide (hashes = []) then Ok ∅ else
  inline ← ask (get_objects hashes);
  r ← fold_pres (take_prefetched lengths) (map_to_list inline) (∅, 0);
  _ ← validate_inline_prefetch_size r.2 MAX_INLINE_PACK_PREFETCH_BYTES;
  mret r.1.

Definition prepare_pack_objects (ops : list ApplyOp) (g : FetchedGraph) : pres PreparedPackObjects :=
  plan ← pack_object_plan ops g;
  _ ← validate_inline_prefetch_size (pl_inline plan) MAX_INLINE_PACK_PREFETCH_BYTES;
  hashes ← inline_hashes (pl_lengths plan) (sort_by bytes_cmp (elements (dom (pl_uses plan))));
  cache ← prefetch (pl_lengths plan) hashes;
  mret {| po_uses := pl_uses plan; po_inline := list_to_set hashes; po_cache := cache |}.

(** The spooled bytes must hash to the key. *)
Definition spool_external_object (hash : bytes) : pres (bytes * Z) :=
  found ← ask (get_blob_reader hash);
  s ← require found (BlobVanished hash);
  _ ← ensure (stream_ends s) SourceFailed;
  let b := stream_bytes s in
  _ ← ensure (bool_decide (of_bytes b = hash)) (StreamedMismatch (of_bytes b) hash);
  mret (b, Z.of_nat (length b)).

Definition ensure_pack_object (sp : PackObjectSpan) (po : PreparedPackObjects) : pres (VerifiedPackObject * PreparedPackObjects) :=
  let hash := object_hash sp in
  r ← match po_cache po !! hash with
      | Some o => Ok (o, po)
      | None =>
          _ ← ensure (negb (bool_decide (hash ∈ po_inline po))) (InlineOmitted hash);
          spooled ← spool_external_object hash;
          let o := Spooled spooled.1 spooled.2 in
          mret (o, {| po_uses := po_uses po; po_inline := po_inline po; po_cache := <[hash := o]> (po_cache po) |})
      end;
  _ ← validate_len r.1 hash (physical_len sp);
  mret r.
End Objects.

(** ** What a leaf's descriptor says of its version *)

Definition TIMESTAMP_COLUMN : bytes := bstr "watertown.timestamp_column".
Definition DEFAULT_COLUMN : bytes := bstr "Timestamp".

Definition member (key : bytes) (ms : list (bytes * Value)) : option Value := snd <$> find (fun m => bool_decide (m.1 = key)) ms.

Definition descriptor_timestamp_column `{JsonParser} (d : PackLeafDescriptor) : pres bytes :=
  match d_attributes d with
  | None => Ok DEFAULT_COLUMN
  | Some b =>
      _ ← ensure (utf8_valid b) AttributesUtf8;
      value ← require (json_from_str b) AttributesJson;
      match value with
      | Object ms =>
          match member TIMESTAMP_COLUMN ms with
          | None => Ok DEFAULT_COLUMN
          | Some (Str column) => Ok column
          | Some _ => Err ColumnNotString
          end
      | _ => Ok DEFAULT_COLUMN
      end
  end.

(** The event times and attributes [apply_descriptor_bounds] sets. *)
Definition apply_descriptor_bounds `{JsonParser} (d : PackLeafDescriptor) : pres (option (Z * Z * bytes) * option written_attributes) :=
  temporal ← match d_min d, d_max d with
             | Some lo, Some hi => column ← descriptor_timestamp_column d; mret (Some (lo, hi, column))
             | None, None => Ok None
             | _, _ => Err OneBound
             end;
  mret (temporal, Exact <$> d_attributes d).

(** ** Writing one series *)

(** The file created, the index of the next leaf, and the namespace. *)
Record Writing := { wr_created : bool; wr_index : Z; wr_store : fs_store }.

Section Series.
Context `{Blake3} `{JsonParser} `{ContentSource} `{Destination} `{FileReads} `{ArrowCast} `{Parquet} `{ParquetWriter}.
Variables (w : WD) (name : bytes) (node : uuid) (create : bool) (s : FetchedSeriesV2) (leaves_from : Z) (mtime : option Z).

Definition total_leaves : Z := sm_leaf_count (manifest s).

(** The fetched hash of a leaf. *)
Definition expected_leaf (index : Z) : pres bytes :=
  _ ← ensure (fetched_start s <=? index) (LeafBefore index);
  require (fetched_leaves s !! Z.to_nat (index - fetched_start s)) (LeafUnknown index).

(** The writer of the next version: the one of the new file, or one by name. *)
Definition open_writer (t : EntryType) (wr : Writing) : pres (FileID * Writing) :=
  if create && negb (wr_created wr) then
    r ← fs (create_file_with_id factory_get w name node (wr_store wr));
    mret (r.1, {| wr_created := true; wr_index := wr_index wr; wr_store := r.2 |})
  else
    r ← fs (async_writer_path_with_type factory_get w name t generated_id (wr_store wr));
    mret (r.1, {| wr_created := wr_created wr; wr_index := wr_index wr; wr_store := r.2 |}).

(** The bytes, the modification time on the last leaf, and the closed writer. *)
Definition put_leaf (n : FileID) (b : bytes) (temporal : option (Z * Z * bytes)) (attributes : option written_attributes) (wr : Writing) : Writing :=
  {| wr_created := wr_created wr; wr_index := wr_index wr;
     wr_store := append_version n {| v_bytes := b; v_mtime := if wr_index wr + 1 =? total_leaves then mtime else None;
                                     v_temporal := temporal; v_attributes := attributes |} (wr_store wr) |}.

(** [*leaf_index += 1]. *)
Definition next_leaf (wr : Writing) : pres Writing :=
  if u64_max <? wr_index wr + 1 then Panic else Ok {| wr_created := wr_created wr; wr_index := wr_index wr + 1; wr_store := wr_store wr |}.

(** *** Files *)

(** The partition of a pack's bytes: the descriptors to come, and the leaf in
    progress with its hasher, its bytes and its descriptor. *)
Record FileCursor := {
  fc_rest : list PackLeafDescriptor;
  fc_hasher : option FileHasher;
  fc_buffer : option bytes;
  fc_descriptor : option PackLeafDescriptor;
}.

Definition materialize_empty_series (st : fs_store) : pres fs_store :=
  if negb create then Ok st else
  r ← fs (create_file_with_id factory_get w name node st);
  mret (append_version r.1 {| v_bytes := []; v_mtime := mtime; v_temporal := None; v_attributes := None |} r.2).

(** The next descriptor's leaf is begun. *)
Definition begin_file_leaf (index : Z) (c : FileCursor) : pres FileCursor :=
  match fc_hasher c with
  | Some _ => Ok c
  | None =>
      match fc_rest c with
      | [] => Err TrailingContent
      | d :: rest =>
          h ← leaf_res (hasher_new (d_count d) (d_min d) (d_max d) (d_attributes d));
          mret {| fc_rest := rest; fc_hasher := Some h; fc_buffer := if leaves_from <=? index then Some [] else None; fc_descriptor := Some d |}
      end
  end.

(** A leaf whose bytes are complete is checked and written. *)
Definition end_file_leaf (h : FileHasher) (buffer : option bytes) (d : PackLeafDescriptor) (wr : Writing) : pres Writing :=
  computed ← leaf_res (hasher_finish h);
  expected ← expected_leaf (wr_index wr);
  _ ← ensure (bool_decide (computed = expected)) (LeafDiffers (wr_index wr));
  wr ← match buffer with
       | Some b =>
           _ ← (if u64_max <? wr_index wr + 1 then Panic else Ok tt);
           r ← open_writer FilePhysicalSeries wr;
           m ← apply_descriptor_bounds d;
           mret (put_leaf r.1 b m.1 m.2 r.2)
       | None => Ok wr
       end;
  next_leaf wr.

(** [while !chunk.is_empty()]. *)
Fixpoint feed_file_chunk (fuel : nat) (chunk : bytes) (c : FileCursor) (wr : Writing) : pres (FileCursor * Writing) :=
  match chunk with
  | [] => Ok (c, wr)
  | _ =>
      match fuel with
      | O => Err OutOfFuel
      | S fuel =>
          c ← begin_file_leaf (wr_index wr) c;
          match fc_hasher c with
          | None => Panic
          | Some h =>
              let n := Z.to_nat (Z.min (hasher_remaining h) (Z.of_nat (length chunk))) in
              h ← leaf_res (hasher_write h (take n chunk));
              let buffer := (fun b => b ++ take n chunk) <$> fc_buffer c in
              if hasher_remaining h =? 0 then
                match fc_descriptor c with
                | None => Panic
                | Some d =>
                    wr ← end_file_leaf h buffer d wr;
                    feed_file_chunk fuel (drop n chunk) {| fc_rest := fc_rest c; fc_hasher := None; fc_buffer := None; fc_descriptor := None |} wr
                end
              else feed_file_chunk fuel (drop n chunk) {| fc_rest := fc_rest c; fc_hasher := Some h; fc_buffer := buffer; fc_descriptor := fc_descriptor c |} wr
          end
      end
  end.

Definition feed_chunks (chunks : list bytes) (c : FileCursor) (wr : Writing) : pres (FileCursor * Writing) :=
  fold_pres (fun x chunk => feed_file_chunk (length chunk) chunk x.1 x.2) chunks (c, wr).

(** The chunks an object gives after the prefix: all of it at once from memory,
    and as the file is read otherwise. *)
Definition object_chunks (pack : bytes) (sp : PackObjectSpan) (skip : Z) (o : VerifiedPackObject) : pres (list bytes) :=
  match o with
  | Memory b => _ ← ensure (skip <=? Z.of_nat (length b)) (PrefixSkip pack (object_hash sp)); mret [drop (Z.to_nat skip) b]
  | Spooled b _ => mret (read_chunks (drop (Z.to_nat skip) b))
  end.

Definition file_span (pack : bytes) (prefix : Z) (x : FileCursor * PreparedPackObjects * Writing) (sp : PackObjectSpan)
    : pres (FileCursor * PreparedPackObjects * Writing) :=
  let '(c, po, wr) := x in
  let skip := Z.max 0 (prefix - logical_start sp) in
  found ← ensure_pack_object sp po;
  chunks ← object_chunks pack sp skip found.1;
  fed ← feed_chunks chunks c wr;
  po ← release_pack_object (object_hash sp) found.2;
  mret (fed.1, po, fed.2).

Definition file_pack (x : PreparedPackObjects * Writing) (p : bytes * PackIndex) : pres (PreparedPackObjects * Writing) :=
  if leaf_end p.2 <=? leaves_from then Ok x else
  start ← suffix_start_in_pack p.2 leaves_from;
  r ← fold_pres (file_span p.1 start.2) (suffix_spans p.2 start.2)
        ({| fc_rest := drop start.1 (leaf_descriptors p.2); fc_hasher := None; fc_buffer := None; fc_descriptor := None |}, x.1, x.2);
  let '(c, po, wr) := r in
  _ ← ensure (is_none (fc_hasher c)) (LeafOpen p.1);
  _ ← ensure (bool_decide (fc_rest c = [])) (LeavesMissing p.1);
  mret (po, wr).

Definition materialize_file_series_v2 (po : PreparedPackObjects) (st : fs_store) : pres (PreparedPackObjects * fs_store) :=
  if total_leaves =? 0 then st ← materialize_empty_series st; mret (po, st) else
  r ← fold_pres file_pack (packs s) (po, {| wr_created := false; wr_index := leaves_from; wr_store := st |});
  _ ← ensure (wr_index r.2 =? total_leaves) (LeafTotal (wr_index r.2) total_leaves);
  mret (r.1, wr_store r.2).

(** *** Tables *)

(** The partition of a pack's rows: the next descriptor, and the leaf in progress
    with its descriptor, its batches, their rows and its schema. *)
Record TableCursor := {
  tc_next : nat;
  tc_descriptor : option nat;
  tc_batches : list RecordBatch;
  tc_rows : Z;
  tc_schema : option ArrowSchema;
}.

Definition leaf_fingerprint (d : PackLeafDescriptor) : pres bytes :=
  fp ← content (effective_leaf_schema_fingerprint (manifest s) d);
  require fp NoFingerprint.

Definition all_decoded (batches : list (option RecordBatch)) : option (list RecordBatch) := mapM id batches.

(** The decoder runs in a task of its own, whose panic is an error. *)
Definition decode_table_object (hash b expected : bytes) : pres (ArrowSchema * list RecordBatch) :=
  raw ← require (parquet_schema b) (TableDecode hash);
  fp ← match schema_fingerprint_of raw with Ok fp => Ok fp | _ => Err (TableDecode hash) end;
  _ ← ensure (bool_decide (fp = expected)) (TableDecode hash);
  batches ← require (parquet_batches b ≫= all_decoded) (TableDecode hash);
  mret (raw, batches).

(** [try_fold(0u64, ..checked_add)] over the rows of the batches. *)
Fixpoint decoded_rows (hash : bytes) (sum : Z) (bs : list RecordBatch) : pres Z :=
  match bs with
  | [] => Ok sum
  | b :: bs => _ ← ensure (sum + Z.of_nat (num_rows b) <=? u64_max) (RowSum hash); decoded_rows hash (sum + Z.of_nat (num_rows b)) bs
  end.

(** The columns cast to the canonical types, [zip]ped with the fields. *)
Fixpoint cast_columns (hash : bytes) (cols : list TableLeaf.Array) (fs : list Field) : pres (list TableLeaf.Array) :=
  match cols, fs with
  | c :: cols, f :: fs =>
      c ← require (arrow_cast c (field_type f)) (Normalize hash);
      cs ← cast_columns hash cols fs;
      mret (c :: cs)
  | _, _ => Ok []
  end.

Definition normalize (hash : bytes) (schema : ArrowSchema) (b : RecordBatch) : pres RecordBatch :=
  cols ← cast_columns hash (columns b) (fields schema);
  require (batch_try_new schema cols) (Normalize hash).

(** The leaf a row belongs to; it must have the fingerprint of the object. *)
Definition begin_table_leaf (ds : list PackLeafDescriptor) (fp : bytes) (schema : ArrowSchema) (c : TableCursor) : pres TableCursor :=
  match tc_descriptor c with
  | Some _ => Ok c
  | None =>
      d ← require (ds !! tc_next c) TrailingContent;
      expected ← leaf_fingerprint d;
      _ ← ensure (bool_decide (expected = fp)) (LeafSchema (Z.of_nat (tc_next c)));
      mret {| tc_next := S (tc_next c); tc_descriptor := Some (tc_next c); tc_batches := tc_batches c; tc_rows := tc_rows c; tc_schema := Some schema |}
  end.

(** The event times a table leaf must have. *)
Definition table_bounds (index : Z) (d : PackLeafDescriptor) : pres (option (Z * Z * bytes) * option written_attributes) :=
  match d_min d, d_max d with
  | Some lo, Some hi => column ← descriptor_timestamp_column d; mret (Some (lo, hi, column), Exact <$> d_attributes d)
  | None, None => Err (NoBounds index)
  | _, _ => Err OneBound
  end.

(** A leaf whose rows are complete is checked, encoded and written. *)
Definition end_table_leaf (schema : ArrowSchema) (bs : list RecordBatch) (d : PackLeafDescriptor) (wr : Writing) : pres Writing :=
  hash ← table_res (table_leaf_hash_canonical schema bs (d_min d) (d_max d) (d_attributes d));
  expected ← expected_leaf (wr_index wr);
  _ ← ensure (bool_decide (hash = expected)) (LeafDiffers (wr_index wr));
  wr ← (if leaves_from <=? wr_index wr then
          b ← content (@encode_table_leaf_parquet arrow_rows schema (map batch_rows bs));
          _ ← (if u64_max <? wr_index wr + 1 then Panic else Ok tt);
          r ← open_writer TablePhysicalSeries wr;
          m ← table_bounds (wr_index wr) d;
          mret (put_leaf r.1 b m.1 m.2 r.2)
        else Ok wr);
  next_leaf wr.

(** [while batch.num_rows() > 0]. *)
Fixpoint feed_table_batch (fuel : nat) (ds : list PackLeafDescriptor) (fp : bytes) (schema : ArrowSchema) (batch : RecordBatch) (c : TableCursor) (wr : Writing)
    : pres (TableCursor * Writing) :=
  if (num_rows batch =? 0)%nat then Ok (c, wr) else
  match fuel with
  | O => Err OutOfFuel
  | S fuel =>
      c ← begin_table_leaf ds fp schema c;
      match tc_descriptor c ≫= (fun i => (i,.) <$> ds !! i) with
      | None => Panic
      | Some (i, d) =>
          expected ← leaf_fingerprint d;
          _ ← ensure (bool_decide (expected = fp)) (LeafSchema (Z.of_nat i));
          _ ← (if d_count d <? tc_rows c then Panic else Ok tt);
          let n := Z.to_nat (Z.min (d_count d - tc_rows c) (Z.of_nat (num_rows batch))) in
          let bs := tc_batches c ++ [slice batch 0 n] in
          let rows := tc_rows c + Z.of_nat n in
          let rest := slice batch n (num_rows batch - n) in
          if rows =? d_count d then
            match tc_schema c with
            | None => Panic
            | Some leaf_schema =>
                wr ← end_table_leaf leaf_schema bs d wr;
                feed_table_batch fuel ds fp schema rest {| tc_next := tc_next c; tc_descriptor := None; tc_batches := []; tc_rows := 0; tc_schema := None |} wr
            end
          else feed_table_batch fuel ds fp schema rest
                 {| tc_next := tc_next c; tc_descriptor := tc_descriptor c; tc_batches := bs; tc_rows := rows; tc_schema := tc_schema c |} wr
      end
  end.

(** The batches of an object after the rows to skip. *)
Definition table_batch (hash : bytes) (ds : list PackLeafDescriptor) (fp : bytes) (schema : ArrowSchema) (x : Z * TableCursor * Writing) (b : RecordBatch)
    : pres (Z * TableCursor * Writing) :=
  let '(skip, c, wr) := x in
  let n := Z.of_nat (num_rows b) in
  if n <=? skip then Ok (skip - n, c, wr) else
  let b := if 0 <? skip then slice b (Z.to_nat skip) (num_rows b - Z.to_nat skip) else b in
  normal ← normalize hash schema b;
  fed ← feed_table_batch (num_rows normal) ds fp schema normal c wr;
  mret (0, fed.1, fed.2).

Definition object_bytes (o : VerifiedPackObject) : bytes := match o with Memory b => b | Spooled b _ => b end.

Definition table_span (ds : list PackLeafDescriptor) (prefix : Z) (x : TableCursor * PreparedPackObjects * Writing) (sp : PackObjectSpan)
    : pres (TableCursor * PreparedPackObjects * Writing) :=
  let '(c, po, wr) := x in
  let hash := object_hash sp in
  d ← require (ds !! default (tc_next c) (tc_descriptor c)) TrailingContent;
  fp ← leaf_fingerprint d;
  found ← ensure_pack_object sp po;
  table ← decode_table_object hash (object_bytes found.1) fp;
  rows ← decoded_rows hash 0 table.2;
  _ ← (if logical_end sp <? logical_start sp then Panic else Ok tt);
  let declared := logical_end sp - logical_start sp in
  _ ← ensure (rows =? declared) (RowsDiffer hash rows declared);
  schema ← table_res (canonicalize_schema table.1);
  fed ← fold_pres (table_batch hash ds fp schema) table.2 (Z.max 0 (prefix - logical_start sp), c, wr);
  po ← release_pack_object hash found.2;
  mret (fed.1.2, po, fed.2).

Definition table_pack (x : PreparedPackObjects * Writing) (p : bytes * PackIndex) : pres (PreparedPackObjects * Writing) :=
  if leaf_end p.2 <=? leaves_from then Ok x else
  start ← suffix_start_in_pack p.2 leaves_from;
  r ← fold_pres (table_span (leaf_descriptors p.2) start.2) (suffix_spans p.2 start.2)
        ({| tc_next := start.1; tc_descriptor := None; tc_batches := []; tc_rows := 0; tc_schema := None |}, x.1, x.2);
  let '(c, po, wr) := r in
  _ ← ensure (is_none (tc_descriptor c)) (LeafOpen p.1);
  _ ← ensure (tc_next c =? length (leaf_descriptors p.2))%nat (LeavesMissing p.1);
  mret (po, wr).

Definition materialize_table_series_v2 (po : PreparedPackObjects) (st : fs_store) : pres (PreparedPackObjects * fs_store) :=
  if total_leaves =? 0 then Err EmptyTableSeries else
  r ← fold_pres table_pack (packs s) (po, {| wr_created := false; wr_index := leaves_from; wr_store := st |});
  _ ← ensure (wr_index r.2 =? total_leaves) (LeafTotal (wr_index r.2) total_leaves);
  mret (r.1, wr_store r.2).

Definition materialize_series_v2 (t : EntryType) (po : PreparedPackObjects) (st : fs_store) : pres (PreparedPackObjects * fs_store) :=
  match t with
  | FilePhysicalSeries => materialize_file_series_v2 po st
  | TablePhysicalSeries => materialize_table_series_v2 po st
  | _ => Err NotASeries
  end.
End Series.

(** Applying a plan, [apply_ops] of [crates/steward/src/content_pull.rs]: the
    operations of [PullPlan] on the namespace of [TinyFs], in order, inside one
    transaction. *)

Definition set_versions (n : FileID) (vs : list version) (st : fs_store) : fs_store :=
  {| st_dirs := st_dirs st; st_links := st_links st; st_dynamic := st_dynamic st; st_files := <[n := vs]> (st_files st) |}.

Section Apply.
Context `{Blake3} `{JsonParser} `{ContentSource} `{Destination} `{FileReads} `{ArrowCast} `{Parquet} `{ParquetWriter}.

Definition parse_node_id (id : bytes) : pres uuid := require (uuid_of id) (BadNodeId id).

Definition parent_wd (wds : gmap bytes WD) (id : bytes) : pres WD := require (wds !! id) (ParentNotReady id).

(** The bytes that reach the writer, chunk by chunk, and the result: a read that
    fails or a hash that differs comes after them. *)
Definition stream_external_blob (hash : bytes) : bytes * pres unit :=
  match ask (get_blob_reader hash) with
  | Ok None => ([], Err (BlobVanished hash))
  | Ok (Some s) =>
      let b := stream_bytes s in
      (b, _ ← ensure (stream_ends s) SourceFailed; ensure (bool_decide (of_bytes b = hash)) (StreamedMismatch (of_bytes b) hash))
  | Err e => ([], Err e)
  | Panic => ([], Panic)
  end.

(** An error that drops an open writer: [OpLogFileWriter::drop] panics when bytes
    were written and the writer was not shut down. *)
Definition drop_writer {A} (written : bytes) (e : pull_error) : pres A := if bool_decide (written = []) then Err e else Panic.

Definition timestamp_column (meta : VersionMeta) : bytes :=
  default DEFAULT_COLUMN (json ← extended_attributes meta; m ← attributes_from_json json; m !! TIMESTAMP_COLUMN).

Definition finalize_writer (name : bytes) (n : FileID) (t : EntryType) (b : bytes) (meta : VersionMeta) (st : fs_store) : pres fs_store :=
  temporal ← match bounds meta with
             | Some (lo, hi) => Ok (Some (lo, hi, timestamp_column meta))
             | None => if bool_decide (t = TablePhysicalSeries)
                 then match footer_bounds b with Some r => Ok (Some r) | None => drop_writer b InferBounds end else Ok None
             end;
  attributes ← match extended_attributes meta with
               | Some json => m ← require (attributes_from_json json) (BadAttributes name); mret (Some (Parsed m))
               | None => Ok None
               end;
  mret (append_version n {| v_bytes := b; v_mtime := timestamp meta; v_temporal := temporal; v_attributes := attributes |} st).

Definition write_version (name : bytes) (n : FileID) (t : EntryType) (v : PlannedVersion) (st : fs_store) : pres fs_store :=
  let '(b, streamed) := match pv_source v with Inline b => (b, Ok tt) | External hash => stream_external_blob hash end in
  match streamed with
  | Ok _ => finalize_writer name n t b (pv_meta v) st
  | Err e => drop_writer b e
  | Panic => Panic
  end.

(** [for version in remaining]; the writer finds the file by its name. *)
Fixpoint write_remaining (w : WD) (name : bytes) (node : uuid) (t : EntryType) (vs : list PlannedVersion) (st : fs_store) : pres fs_store :=
  match vs with
  | [] => Ok st
  | v :: vs =>
      r ← fs (async_writer_path_with_type factory_get w name t node st);
      st ← write_version name r.1 t v r.2;
      write_remaining w name node t vs st
  end.

(** The working directories by node, the prepared pack objects and the
    namespace. *)
Record apply_state := { ap_wds : gmap bytes WD; ap_prepared : PreparedPackObjects; ap_store : fs_store }.

Definition with_store (a : apply_state) (st : fs_store) : apply_state := {| ap_wds := ap_wds a; ap_prepared := ap_prepared a; ap_store := st |}.

Definition apply_op (root_wd : WD) (g : FetchedGraph) (a : apply_state) (op : ApplyOp) : pres apply_state :=
  let st := ap_store a in
  match op with
  | OpDelete parent_path name =>
      pwd ← (if bool_decide (parent_path = []) then Ok root_wd else fs (open_dir_path (ns_of factory_get st) root_wd parent_path));
      st ← fs (remove_entry pwd name st); mret (with_store a st)
  | OpRename parent old new =>
      pwd ← parent_wd (ap_wds a) parent;
      st ← fs (TinyFs.rename_entry factory_get pwd old new st); mret (with_store a st)
  | OpDir parent name node create =>
      pwd ← parent_wd (ap_wds a) parent;
      r ← (if create : bool then id ← parse_node_id node; fs (insert_directory_with_id factory_get pwd name id st)
           else c ← fs (open_dir_path (ns_of factory_get st) pwd name); mret (c, st));
      mret {| ap_wds := <[node := r.1]> (ap_wds a); ap_prepared := ap_prepared a; ap_store := r.2 |}
  | OpFile parent name node create t versions =>
      pwd ← parent_wd (ap_wds a) parent;
      r ← (match create, versions with
           | true, first :: remaining =>
               id ← parse_node_id node;
               c ← fs (create_file_with_id factory_get pwd name id st);
               st ← write_version name c.1 t first c.2;
               mret (remaining, st)
           | _, _ => Ok (versions, st)
           end);
      st ← write_remaining pwd name generated_id t r.1 r.2; mret (with_store a st)
  | OpSymlink parent name node create target mtime =>
      pwd ← parent_wd (ap_wds a) parent;
      st ← (if create : bool then Ok st else fs (remove_entry pwd name st));
      id ← parse_node_id node;
      st ← fs (insert_symlink_with_id factory_get pwd name id target mtime st); mret (with_store a st)
  | OpDynamic parent name node create factory config mtime =>
      pwd ← parent_wd (ap_wds a) parent;
      st ← (if create : bool then Ok st else fs (remove_entry pwd name st));
      id ← parse_node_id node;
      st ← fs (insert_dynamic_with_id factory_get pwd name id factory config mtime st); mret (with_store a st)
  | OpSeriesV2 parent name node create t hash leaves_from mtime =>
      pwd ← parent_wd (ap_wds a) parent;
      s ← series_v2 g hash;
      id ← parse_node_id node;
      r ← materialize_series_v2 pwd name id create s leaves_from mtime t (ap_prepared a) st;
      mret {| ap_wds := ap_wds a; ap_prepared := r.1; ap_store := r.2 |}
  end.

Definition apply_ops (root_id : bytes) (root_wd : WD) (g : FetchedGraph) (ops : list ApplyOp) (objects : PreparedPackObjects) (st : fs_store) : pres apply_state :=
  a ← fold_pres (apply_op root_wd g) ops {| ap_wds := {[ root_id := root_wd ]}; ap_prepared := objects; ap_store := st |};
  _ ← ensure (bool_decide (po_uses (ap_prepared a) = ∅) && bool_decide (po_cache (ap_prepared a) = ∅)) ObjectsRetained;
  mret a.
End Apply.
