(* ===== verification/PullWritten.v ===== *)
(** The proofs of the series writer of [PullApply]: the physical objects of a plan
    are counted before they are read, every use is made and no other is, and the
    leaves cut out of the packs are written one by one with the fetched hashes. *)

From stdpp Require Import base list gmap numbers strings options.
From Stdlib Require Import ZArith Lia.
From S2P Require Import Prelude RustStd RustText EntryType Wire CanonicalJson Tree Manifest Commit SeriesMerkle SeriesLeaf TableLeaf TableRows SeriesManifest SeriesPack TablePack CapsuleStream CapsuleTable Publication TinyFs PullRenames PullGraph PullChain PullSeries PullPlan PullApply.

Open Scope Z_scope.

(** ** Errors a plan excludes *)

(** The errors a plan must not run into: of the namespace, and of the count of its
    objects; the others are failures of the source or of a content check. The
    split is by constructor: that a content check passes on what an honest source
    serves is not part of it. *)
Definition internal_error (e : pull_error) : Prop :=
  match e with
  | FsFailed _ | ParentNotReady _ | BadNodeId _ | OutOfFuel | UnplannedUse _ | UseUnderflow _ | ObjectsRetained => True
  | _ => False
  end.

(** The application ends in a state of [P], or on a failure that is not internal. *)
Definition lands {A} (P : A -> Prop) (r : pres A) : Prop :=
  match r with Ok a => P a | Err e => ~ internal_error e | Panic => False end.

Lemma lands_bind {A B} (P : A -> Prop) (Q : B -> Prop) (m : pres A) (k : A -> pres B) :
  lands P m -> (forall a, P a -> lands Q (k a)) -> lands Q (m ≫= k).
Proof. destruct m; simpl; auto. Qed.

Lemma lands_impl {A} (P Q : A -> Prop) m : lands P m -> (forall a, P a -> Q a) -> lands Q m.
Proof. destruct m; simpl; auto. Qed.

Lemma lands_ensure b e : ~ internal_error e -> lands (fun _ => b = true) (ensure b e).
Proof. by destruct b. Qed.
Lemma lands_require {A} (o : option A) e : ~ internal_error e -> lands (fun a => o = Some a) (require o e).
Proof. by destruct o. Qed.
Lemma lands_content {A} (m : res A) : m <> Panic -> lands (fun a => m = Ok a) (content m).
Proof. destruct m; simpl; [done|by intros _ []|done]. Qed.
Lemma lands_ask {A} (m : outcome unit A) : m <> Panic -> lands (fun a => m = Ok a) (ask m).
Proof. destruct m; simpl; [done|by intros _ []|done]. Qed.

(** One check after the other. *)
Lemma lands_check {B} b e (Q : B -> Prop) (k : pres B) : ~ internal_error e -> (b = true -> lands Q k) -> lands Q (_ ← ensure b e; k).
Proof. destruct b; simpl; auto. Qed.

Lemma lands_found {A B} (o : option A) e (Q : B -> Prop) (k : A -> pres B) :
  ~ internal_error e -> (forall a, o = Some a -> lands Q (k a)) -> lands Q (a ← require o e; k a).
Proof. destruct o; simpl; auto. Qed.

(** A loop that keeps an invariant, indexed by what is left. *)
Lemma lands_fold {A B} (f : A -> B -> pres A) (P : list B -> A -> Prop) (l : list B) (a : A) :
  (forall x rest a, x ∈ l -> P (x :: rest) a -> lands (P rest) (f a x)) -> P l a -> lands (P []) (fold_pres f l a).
Proof.
  revert a. induction l as [|x l IH]; intros a Hf Ha; [done|]. cbn [fold_pres]. eapply lands_bind; [by apply Hf; [left|]|].
  intros b Hb. apply IH; [|done]. intros y rest c Hy. apply Hf. by right.
Qed.

(** ** Counting *)

Definition occurs (h : bytes) (l : list bytes) : Z := Z.of_nat (length (filter (fun x => x = h) l)).

Lemma occurs_app h l1 l2 : occurs h (l1 ++ l2) = occurs h l1 + occurs h l2.
Proof. unfold occurs. rewrite filter_app, length_app. lia. Qed.

Lemma occurs_cons h x l : occurs h (x :: l) = (if bool_decide (x = h) then 1 else 0) + occurs h l.
Proof. unfold occurs. rewrite filter_cons. case_decide; case_bool_decide; simpl; lia || done. Qed.

Lemma occurs_nonneg h l : 0 <= occurs h l.
Proof. unfold occurs. lia. Qed.

(** The counts are those of the uses to come. *)
Definition counts (need : list bytes) (uses : gmap bytes Z) : Prop :=
  forall h, uses !! h = if bool_decide (occurs h need = 0) then None else Some (occurs h need).

Lemma counts_at need uses h : counts need uses -> default 0 (uses !! h) = occurs h need.
Proof. intros ->. by case_bool_decide. Qed.

Lemma counts_nil uses : counts [] uses -> uses = ∅.
Proof. intros Hc. apply map_eq. intros h. rewrite Hc, lookup_empty. by rewrite bool_decide_true. Qed.

Lemma counts_put need uses h : counts need uses -> counts (need ++ [h]) (<[h := default 0 (uses !! h) + 1]> uses).
Proof.
  intros Hc k. rewrite occurs_app, occurs_cons. change (occurs k []) with 0. pose proof (occurs_nonneg k need). destruct (decide (h = k)) as [<-|Hne].
  - rewrite lookup_insert_eq, (counts_at need) by done. rewrite (bool_decide_true (h = h)) by done. by rewrite bool_decide_false by lia.
  - rewrite lookup_insert_ne by done. rewrite (bool_decide_false (h = k)) by done. rewrite Hc. by rewrite Z.add_0_r.
Qed.

Lemma concat_singles {A B} (f : A -> B) l : concat (map (fun x => [f x]) l) = map f l.
Proof. induction l; cbn; by f_equal. Qed.

(** What a pack is read for. *)
Definition pack_objects (from : Z) (p : PackIndex) : list bytes :=
  if leaf_end p <=? from then [] else
  match suffix_start_in_pack p from with Ok r => map object_hash (suffix_spans p r.2) | _ => [] end.

Definition series_objects (from : Z) (s : FetchedSeriesV2) : list bytes := concat (map (fun x => pack_objects from x.2) (packs s)).

Definition op_objects (g : FetchedGraph) (op : ApplyOp) : list bytes :=
  match op with
  | OpSeriesV2 _ _ _ _ _ hash from _ => match series g !! hash with Some s => series_objects from s | None => [] end
  | _ => []
  end.

Definition ops_objects (g : FetchedGraph) (ops : list ApplyOp) : list bytes := concat (map (op_objects g) ops).

Lemma ops_objects_app g l1 l2 : ops_objects g (l1 ++ l2) = ops_objects g l1 ++ ops_objects g l2.
Proof. unfold ops_objects. by rewrite map_app, concat_app. Qed.

(** A loop that adds what each element needs. *)
Lemma fold_counts {B} (f : PackObjectPlan -> B -> pres PackObjectPlan) (objects : B -> list bytes) l :
  (forall need pl x pl', x ∈ l -> counts need (pl_uses pl) -> dom (pl_uses pl) = dom (pl_lengths pl) -> f pl x = Ok pl' ->
     counts (need ++ objects x) (pl_uses pl') /\ dom (pl_uses pl') = dom (pl_lengths pl')) ->
  forall need pl pl', counts need (pl_uses pl) -> dom (pl_uses pl) = dom (pl_lengths pl) -> fold_pres f l pl = Ok pl' ->
  counts (need ++ concat (map objects l)) (pl_uses pl') /\ dom (pl_uses pl') = dom (pl_lengths pl').
Proof.
  induction l as [|x l IH]; intros Hf need pl pl' Hc Hd E; cbn [fold_pres map concat] in *.
  { injection E as <-. by rewrite app_nil_r. }
  apply bind_Ok in E as (pl1 & E1 & E). destruct (Hf _ _ _ _ ltac:(by left) Hc Hd E1) as [Hc1 Hd1].
  rewrite app_assoc. eapply IH; [|done|done|done]. intros ? ? y ? Hy. apply Hf. by right.
Qed.

Lemma plan_span_counts need pl sp pl' :
  counts need (pl_uses pl) -> dom (pl_uses pl) = dom (pl_lengths pl) -> plan_span pl sp = Ok pl' ->
  counts (need ++ [object_hash sp]) (pl_uses pl') /\ dom (pl_uses pl') = dom (pl_lengths pl').
Proof.
  intros Hc Hd E. unfold plan_span in E. apply bind_Ok in E as (r & Er & E). apply bind_Ok in E as ([] & _ & E). injection E as <-. cbn [pl_uses pl_lengths].
  split; [by apply counts_put|]. rewrite dom_insert_L, Hd. destruct (pl_lengths pl !! object_hash sp) as [n|] eqn:En.
  - apply bind_Ok in Er as ([] & _ & Er). injection Er as <-. cbn [fst]. apply elem_of_dom_2 in En. set_solver.
  - destruct (_ <? _); [apply bind_Ok in Er as ([] & _ & Er)|]; injection Er as <-; cbn [fst]; by rewrite dom_insert_L.
Qed.

Lemma plan_pack_counts from need pl x pl' :
  counts need (pl_uses pl) -> dom (pl_uses pl) = dom (pl_lengths pl) -> plan_pack from pl x = Ok pl' ->
  counts (need ++ pack_objects from x.2) (pl_uses pl') /\ dom (pl_uses pl') = dom (pl_lengths pl').
Proof.
  intros Hc Hd E. unfold plan_pack, pack_objects in *. destruct (_ <=? _); [injection E as <-; by rewrite app_nil_r|].
  apply bind_Ok in E as (r & -> & E). rewrite <- (concat_singles object_hash). eapply (fold_counts plan_span (fun sp => [object_hash sp])); [|done|done|exact E].
  intros ? ? ? ? _. apply plan_span_counts.
Qed.

Lemma pack_object_plan_counts ops g pl : pack_object_plan ops g = Ok pl ->
  counts (ops_objects g ops) (pl_uses pl) /\ dom (pl_uses pl) = dom (pl_lengths pl).
Proof.
  intros E. change (ops_objects g ops) with ([] ++ concat (map (op_objects g) ops)). eapply (fold_counts (plan_series_op g) (op_objects g)); [| | |exact E]; [| |done].
  2: { intros h. cbn [pl_uses]. rewrite lookup_empty. by rewrite bool_decide_true. }
  intros need pl1 op pl2 _ Hc Hd E'. destruct op; try (injection E' as <-; by rewrite app_nil_r). cbn [plan_series_op op_objects] in *.
  apply bind_Ok in E' as (s & Es%require_Ok & E'). rewrite Es. eapply (fold_counts (plan_pack leaves_from) (fun x => pack_objects leaves_from x.2)); [|exact Hc|exact Hd|exact E'].
  intros ? ? ? ? _. apply plan_pack_counts.
Qed.

(** ** Prepared objects *)

(** The counts are those of the uses to come, and only objects still to be used
    are kept. *)
Record balanced (need : list bytes) (po : PreparedPackObjects) : Prop := {
  ba_counts : counts need (po_uses po);
  ba_kept : dom (po_cache po) ⊆ dom (po_uses po);
}.

Lemma balanced_end po : balanced [] po -> po_uses po = ∅ /\ po_cache po = ∅.
Proof.
  intros [->%counts_nil Hk]. split; [done|]. apply dom_empty_inv_L. rewrite dom_empty_L in Hk. set_solver.
Qed.

Lemma release_balanced h need po : balanced (h :: need) po -> exists po', release_pack_object h po = Ok po' /\ balanced need po'.
Proof.
  intros [Hc Hk]. pose proof (occurs_nonneg h need) as Hn. assert (Hh : occurs h (h :: need) = 1 + occurs h need) by (rewrite occurs_cons; by rewrite bool_decide_true).
  unfold release_pack_object. rewrite Hc, Hh. rewrite bool_decide_false by lia. cbn [require mbind outcome_bind].
  destruct (Z.leb_spec 1 (1 + occurs h need)); [|lia]. cbn [ensure mbind outcome_bind]. eexists. split; [reflexivity|].
  assert (Ho : forall k, k <> h -> occurs k (h :: need) = occurs k need) by (intros k Hk'; rewrite occurs_cons; by rewrite bool_decide_false).
  replace (1 + occurs h need - 1) with (occurs h need) by lia. destruct (Z.eqb_spec (occurs h need) 0) as [E|E]; split; cbn [po_uses po_cache].
  - intros k. destruct (decide (h = k)) as [<-|Hne]; [rewrite lookup_delete_eq; by rewrite bool_decide_true|]. rewrite lookup_delete_ne by done. by rewrite Hc, Ho.
  - rewrite !dom_delete_L. set_solver.
  - intros k. destruct (decide (h = k)) as [<-|Hne]; [rewrite lookup_insert_eq; by rewrite bool_decide_false|]. rewrite lookup_insert_ne by done. by rewrite Hc, Ho.
  - rewrite dom_insert_L. set_solver.
Qed.

Section Ensure.
Context `{Blake3} `{ContentSource}.
Hypothesis serves : forall h, get_blob_reader h <> Panic.

Lemma ensure_balanced sp need po : balanced (object_hash sp :: need) po ->
  lands (fun r => balanced (object_hash sp :: need) r.2) (ensure_pack_object sp po).
Proof using Type*.
  intros Hb. unfold ensure_pack_object. apply (lands_bind (fun r => balanced (object_hash sp :: need) r.2)).
  - destruct (po_cache po !! object_hash sp) as [o|] eqn:Eo; [done|]. apply lands_check; [by intros []|]. intros _. apply (lands_bind (fun _ => True)).
    + unfold spool_external_object. eapply lands_bind; [by apply lands_ask|]. intros o _. apply lands_found; [by intros []|]. intros b _.
      do 2 (apply lands_check; [by intros []|]; intros _). exact I.
    + intros x _. cbn. destruct Hb as [Hc Hk]. split; [done|]. cbn [po_cache po_uses]. rewrite dom_insert_L. apply union_least; [|done].
      intros k ->%elem_of_singleton. apply elem_of_dom. rewrite Hc, occurs_cons. rewrite (bool_decide_true (object_hash sp = _)) by done. pose proof (occurs_nonneg (object_hash sp) need).
      rewrite bool_decide_false by lia. by eexists.
  - intros r Hr. apply lands_check; [by intros []|]. intros _. exact Hr.
Qed.

End Ensure.

Section Prepare.
Context `{Blake3} `{ContentSource}.

(** The prefetch keeps only what is planned. *)
Lemma prefetch_planned lengths hashes cache : prefetch lengths hashes = Ok cache -> dom cache ⊆ dom lengths.
Proof.
  unfold prefetch. case_bool_decide; [intros [= <-]; rewrite dom_empty_L; set_solver|]. intros E. apply bind_Ok in E as (inline & _ & E). apply bind_Ok in E as (r & Er & E).
  apply bind_Ok in E as ([] & _ & E). injection E as <-. assert (Hx : dom (∅ : gmap bytes VerifiedPackObject) ⊆ dom lengths) by (rewrite dom_empty_L; set_solver).
  revert Er Hx. generalize (∅ : gmap bytes VerifiedPackObject) at 1 2. generalize 0. generalize (map_to_list inline). intros l.
  induction l as [|[k b] l IH]; intros z m E Hm; cbn [fold_pres] in E; [by injection E as <-|]. apply bind_Ok in E as (a & Ea & E). unfold take_prefetched in Ea.
  apply bind_Ok in Ea as (n & Hn%require_Ok & Ea). do 3 (apply bind_Ok in Ea as ([] & _ & Ea)). injection Ea as <-. eapply IH; [exact E|].
  rewrite dom_insert_L. apply elem_of_dom_2 in Hn. set_solver.
Qed.

(** Preparation counts the uses of the operations. *)
Lemma prepare_balanced ops g po : prepare_pack_objects ops g = Ok po -> balanced (ops_objects g ops) po.
Proof.
  unfold prepare_pack_objects. intros E. apply bind_Ok in E as (pl & Hp & E). apply bind_Ok in E as ([] & _ & E). apply bind_Ok in E as (hs & _ & E).
  apply bind_Ok in E as (cache & Hc%prefetch_planned & E). injection E as <-. apply pack_object_plan_counts in Hp as [Hu Hd]. split; cbn [po_uses po_cache]; [done|]. by rewrite Hd.
Qed.
End Prepare.

(** What the materialization of a series writes: one version per missing leaf, in
    order, each with the fetched hash, into the one file of the series; and the
    planned objects, each used as often as it was counted. *)

(** ** What the packs of a fetched series are known to be *)

Definition good_leaf (d : PackLeafDescriptor) : Prop :=
  0 < d_count d <= u64_max /\ Z.of_nat (length (default [] (d_attributes d))) <= u32_max.

Record good_pack (p : PackIndex) : Prop := {
  gp_range : leaf_start p <= leaf_end p;
  gp_count : Z.of_nat (length (leaf_descriptors p)) = leaf_end p - leaf_start p;
  gp_leaves : Forall good_leaf (leaf_descriptors p);
  gp_spans : Forall (fun sp => logical_start sp <= logical_end sp) (object_spans p);
}.

Record well_packed (s : FetchedSeriesV2) : Prop := {
  wp_packs : Forall (fun x => good_pack x.2) (packs s);
  wp_start : 0 <= fetched_start s;
  wp_leaves : fetched_start s + Z.of_nat (length (fetched_leaves s)) = sm_leaf_count (manifest s);
  wp_bound : sm_leaf_count (manifest s) <= u64_max;
  wp_empty : sm_leaf_count (manifest s) = 0 -> packs s = [];
}.

(** [RecordBatch::try_new] gives columns of the types of the fields, with as many
    values as the batch has rows. *)
Class DestinationLaws `{Destination} := {
  try_new_wf : forall s cols b, batch_try_new s cols = Some b ->
    Forall2 (fun f c => a_type c = field_type f /\ length (a_values c) = num_rows b /\ Forall (fun v => wf_cell (a_type c) v = true) (a_values c))
      (fields s) (columns b);
}.

Lemma append_set n x (st : fs_store) : append_version n x st = set_versions n (default [] (st_files st !! n) ++ [x]) st.
Proof. done. Qed.

Lemma set_versions_set n vs vs' (st : fs_store) : set_versions n vs (set_versions n vs' st) = set_versions n vs st.
Proof. unfold set_versions. cbn. by rewrite insert_insert_eq. Qed.

Lemma logical_sum_lands z ds : lands (fun _ => True) (logical_sum z ds).
Proof. revert z. induction ds as [|d ds IH]; intros z; cbn [logical_sum]; [done|]. apply lands_check; [by intros []|]. intros _. apply IH. Qed.

Lemma suffix_start_good p from : good_pack p -> lands (fun r => (r.1 <= length (leaf_descriptors p))%nat /\ suffix_start_in_pack p from = Ok r) (suffix_start_in_pack p from).
Proof.
  intros [Hr Hc _ _]. unfold suffix_start_in_pack. destruct (Z.ltb_spec (leaf_end p) (leaf_start p)); [lia|]. cbn [mbind outcome_bind].
  destruct (Nat.ltb_spec (length (leaf_descriptors p)) (Z.to_nat (Z.min (Z.max 0 (from - leaf_start p)) (leaf_end p - leaf_start p)))); [lia|]. cbn [mbind outcome_bind].
  pose proof (logical_sum_lands 0 (take (Z.to_nat (Z.min (Z.max 0 (from - leaf_start p)) (leaf_end p - leaf_start p))) (leaf_descriptors p))) as Hl.
  destruct (logical_sum _ _) as [x|e|]; cbn in Hl |- *; [|done|done]. split; [lia|done].
Qed.

(** ** Table leaves do not panic *)

(** Columns as [RecordBatch::try_new] leaves them, of types in canonical form. *)
Definition sound_batch (b : RecordBatch) : Prop :=
  Forall (fun c => is_dictionary (a_type c) = false /\ length (a_values c) = num_rows b /\ Forall (fun v => wf_cell (a_type c) v = true) (a_values c)) (columns b).

Lemma slice_sound b off n : (off + n <= num_rows b)%nat -> sound_batch b -> sound_batch (slice b off n).
Proof.
  intros Hn Hb. unfold sound_batch, slice. cbn [columns num_rows]. apply Forall_map. eapply Forall_impl; [exact Hb|]. intros c (Hd & Hl & Hv). cbn [slice_array a_type a_values].
  split_and!; [done| |by apply Forall_take, Forall_drop]. rewrite length_firstn, length_skipn. lia.
Qed.

Lemma canonicalize_encodes raw c magic : canonicalize_schema raw = Ok c -> encode_canonical_schema_with_magic c magic = encode_canonical_schema_with_magic raw magic.
Proof.
  unfold canonicalize_schema. intros E. apply bind_Ok in E as (fs & Hf%omap_list_Ok & E). injection E as <-. unfold encode_canonical_schema_with_magic. cbn [fields schema_metadata].
  rewrite (Forall2_length _ _ _ Hf). f_equal. enough (Ef : omap_list encode_field fs = omap_list encode_field (fields raw)) by (by rewrite Ef).
  induction Hf as [|f c l fs Hc _ IH]; [done|]. cbn [omap_list]. rewrite IH. unfold canonicalize_field in Hc. apply bind_Ok in Hc as (r & Hr & Hc). injection Hc as <-.
  destruct (canonical_not_dictionary _ _ Hr) as [_ Hrr]. unfold encode_field. cbn [field_name field_type nullable field_metadata]. by rewrite Hr, Hrr.
Qed.

Definition no_panic {E A} (m : outcome E A) : Prop := m <> Panic.

Lemma no_panic_bind {E A B} (m : outcome E A) (k : A -> outcome E B) : no_panic m -> (forall a, m = Ok a -> no_panic (k a)) -> no_panic (m ≫= k).
Proof. unfold no_panic. destruct m; cbn; auto. Qed.

Lemma no_panic_omap {E A B} (f : A -> outcome E B) l : (forall x, x ∈ l -> no_panic (f x)) -> no_panic (omap_list f l).
Proof.
  induction l as [|x l IH]; intros Hf; cbn [omap_list]; [done|]. apply no_panic_bind; [apply Hf; by left|]. intros y _. apply no_panic_bind; [apply IH; intros z Hz; apply Hf; by right|]. done.
Qed.

Lemma canonical_type_total dt : no_panic (canonical_data_type dt).
Proof. by induction dt. Qed.

Lemma canonicalize_total s : no_panic (canonicalize_schema s).
Proof.
  unfold canonicalize_schema. apply no_panic_bind; [|done]. apply no_panic_omap. intros f _. unfold canonicalize_field. apply no_panic_bind; [apply canonical_type_total|done].
Qed.

Section Hashing.
Context `{Blake3} `{ArrowCast}.

Lemma columns_kept index types cols :
  Forall (fun c => is_dictionary (a_type c) = false) cols -> no_panic (canonical_columns index types cols) /\ forall cs, canonical_columns index types cols = Ok cs -> cs `prefix_of` cols.
Proof.
  intros Hc. revert index types. induction Hc as [|c cols Hd _ IH]; intros index types; destruct types as [|dt types]; cbn [canonical_columns];
    try (split; [done|by intros cs [= <-]; apply prefix_nil]).
  assert (Hcol : no_panic (canonical_column index dt c) /\ forall c', canonical_column index dt c = Ok c' -> c' = c).
  { unfold canonical_column. split.
    - apply no_panic_bind; [apply canonical_type_total|]. intros a _. destruct (negb _); [done|]. by rewrite Hd.
    - intros c' E. apply bind_Ok in E as (a & _ & E). destruct (negb _); [done|]. rewrite Hd in E. by injection E as <-. }
  destruct Hcol as [Hp Hk]. split.
  - apply no_panic_bind; [done|]. intros c' _. apply no_panic_bind; [apply IH|done].
  - intros cs E. apply bind_Ok in E as (c' & ->%Hk & E). apply bind_Ok in E as (cs' & Hcs & E). injection E as <-. apply prefix_cons. by apply (proj2 (IH _ _)) in Hcs.
Qed.

Lemma batch_encodes sch b : sound_batch b -> no_panic (encode_canonical_batch_rows_at sch b).
Proof.
  intros Hb. unfold encode_canonical_batch_rows_at. apply no_panic_bind; [apply no_panic_omap; intros f _; apply canonical_type_total|]. intros types _. destruct (negb _); [done|].
  destruct (columns_kept 0 types (columns b)) as [Hp Hk]; [eapply Forall_impl; [exact Hb|]; by intros c [? _]|].
  apply no_panic_bind; [done|]. intros cols Hcols%Hk. apply no_panic_bind; [|done]. apply no_panic_omap. intros row Hrow%elem_of_seq. unfold encode_row.
  apply no_panic_bind; [|done]. apply no_panic_omap. intros c Hc.
  assert (Hin : c ∈ columns b) by (destruct Hcols as [k ->]; set_solver). unfold sound_batch in Hb. rewrite Forall_forall in Hb. destruct (Hb c Hin) as (_ & Hl & Hv).
  unfold encode_scalar. destruct (a_values c !! row) as [[v|]|] eqn:Ev; [|done|apply lookup_ge_None in Ev; lia].
  rewrite Forall_forall in Hv. apply list_elem_of_lookup_2, Hv in Ev. cbn in Ev. rewrite (encode_value_Ok _ _ Ev). done.
Qed.

Lemma row_total_total z bs : no_panic (row_total z bs).
Proof. revert z. induction bs as [|b bs IH]; intros z; cbn [row_total]; [done|]. destruct (_ <? _); [done|apply IH]. Qed.

Lemma table_hash_total sch bs mn mx attrs fp :
  schema_fingerprint_of sch = Ok fp -> Forall sound_batch bs -> Z.of_nat (length (default [] attrs)) <= u32_max -> no_panic (table_leaf_hash_canonical sch bs mn mx attrs).
Proof.
  intros Hf Hb Ha. unfold table_leaf_hash_canonical, table_leaf_hash_canonical_with_magic. unfold schema_fingerprint_of in Hf. rewrite Hf. cbn [mbind outcome_bind].
  rewrite Forall_forall in Hb. apply no_panic_bind.
  { unfold encode_canonical_rows_with_magic. apply no_panic_bind; [apply row_total_total|]. intros n _. apply no_panic_bind; [apply no_panic_omap; intros b Hin; by apply batch_encodes, Hb|done]. }
  intros payload _. apply no_panic_bind; [apply row_total_total|]. intros n _. destruct (n =? 0); [done|].
  unfold leaf_hash_with_magic, leaf_preimage, push_len_prefixed. cbn [SeriesLeaf.schema_fingerprint canonical_attributes].
  unfold schema_fingerprint_with_magic in Hf. apply bind_Ok in Hf as (x & _ & Hf). injection Hf as <-. unfold of_bytes. rewrite blake3_len.
  destruct (Z.leb_spec (Z.of_nat (length (default [] attrs))) u32_max); [|lia]. done.
Qed.
End Hashing.

Section Written.
Context `{Blake3} `{JsonParser} `{ContentSource} `{DestinationLaws} `{FileReads} `{ArrowCast} `{Parquet} `{ParquetWriter}.
Variables (w : WD) (name : bytes) (node : uuid) (create : bool) (s : FetchedSeriesV2) (from : Z) (mtime : option Z).
Variables (t : EntryType) (id : FileID) (st0 stc : fs_store).

(** ** Versions and leaves *)

Definition leaf_hash_at (index : Z) (h : bytes) : Prop :=
  fetched_start s <= index /\ fetched_leaves s !! Z.to_nat (index - fetched_start s) = Some h.

(** The bytes of a file leaf, or the Parquet encoding of rows of a table leaf, with
    the fetched hash, under the event times and attributes the hash covers. *)
Definition leaf_version (index : Z) (v : version) : Prop :=
  v_mtime v = (if index + 1 =? total_leaves s then mtime else None) /\
  exists d h, leaf_hash_at index h /\
    if bool_decide (t = TablePhysicalSeries) then
      table_bounds index d = Ok (v_temporal v, v_attributes v) /\
      exists schema bs, table_leaf_hash_canonical schema bs (d_min d) (d_max d) (d_attributes d) = Ok h /\ parquet_write schema (map batch_rows bs) = Some (v_bytes v)
    else
      apply_descriptor_bounds d = Ok (v_temporal v, v_attributes v) /\
      file_leaf_hash_canonical (v_bytes v) (d_min d) (d_max d) (d_attributes d) = Ok h.

Definition held : list version := default [] (st_files stc !! id).

(** The leaves written so far are the next ones of the series. *)
Record written (vs : list version) (wr : Writing) : Prop := {
  wn_index : wr_index wr = from + Z.of_nat (length vs);
  wn_leaves : forall i v, vs !! i = Some v -> leaf_version (from + Z.of_nat i) v;
  wn_store : match vs with
             | [] => wr_created wr = false /\ wr_store wr = st0
             | _ => wr_created wr = create /\ wr_store wr = set_versions id (held ++ vs) stc
             end;
}.

Hypothesis packed : well_packed s.
Hypothesis serves : forall h, get_blob_reader h <> Panic.
Hypothesis opens : if create then create_file_with_id factory_get w name node st0 = Ok (id, stc) else stc = st0.
Hypothesis finds : forall vs, async_writer_path_with_type factory_get w name t generated_id (set_versions id vs stc) = Ok (id, set_versions id vs stc).
Hypothesis finds_first : create = false -> async_writer_path_with_type factory_get w name t generated_id stc = Ok (id, stc).

Lemma leaf_index_bound index h : leaf_hash_at index h -> index + 1 <= u64_max.
Proof using packed.
  intros [Hs Hl%lookup_lt_Some]. pose proof (wp_bound s packed). pose proof (wp_leaves s packed). lia.
Qed.

(** The writer of the next version is the one of the file. *)
Lemma open_writer_written vs wr : written vs wr ->
  exists wr', open_writer w name node create t wr = Ok (id, wr') /\ wr_index wr' = wr_index wr /\ wr_created wr' = create
    /\ (forall x, append_version id x (wr_store wr') = set_versions id (held ++ vs ++ [x]) stc).
Proof using opens finds finds_first.
  intros [Hi Hl Hs]. unfold open_writer. destruct vs as [|v vs]; destruct Hs as [Hc Hst].
  - rewrite Hc, Hst. destruct create; cbn [andb negb].
    + rewrite opens. cbn [fs map_err mbind outcome_bind]. eexists. split; [reflexivity|]. done.
    + rewrite <- opens. rewrite (finds_first eq_refl). cbn [fs map_err mbind outcome_bind]. eexists. split; [reflexivity|]. done.
  - rewrite Hc, Hst. rewrite andb_negb_r. rewrite finds. cbn [fs map_err mbind outcome_bind fst snd mret outcome_ret]. eexists. split; [reflexivity|]. cbn [wr_index wr_created wr_store].
    split; [done|]. split; [done|]. intros x. rewrite append_set, set_versions_set. cbn. rewrite lookup_insert_eq. cbn. by rewrite <- app_assoc.
Qed.

(** A checked leaf becomes the next version. *)
Lemma put_written vs wr m b (bounds : pres (option (Z * Z * bytes) * option written_attributes)) :
  written vs wr -> bounds = Ok m -> leaf_version (wr_index wr) {| v_bytes := b; v_mtime := if wr_index wr + 1 =? total_leaves s then mtime else None; v_temporal := m.1; v_attributes := m.2 |} ->
  wr_index wr + 1 <= u64_max ->
  lands (fun wr' => exists v, written (vs ++ [v]) wr')
    (wr ← (r ← open_writer w name node create t wr; m ← bounds; mret (put_leaf s mtime r.1 b m.1 m.2 r.2)); next_leaf wr).
Proof using opens finds finds_first.
  intros Hw -> Hv Hb. destruct (open_writer_written vs wr Hw) as (wr' & -> & Ei & Ec & Ha). cbn [mbind outcome_bind fst snd mret outcome_ret]. unfold next_leaf, put_leaf.
  cbn [wr_index wr_created wr_store]. rewrite Ei. destruct (Z.ltb_spec u64_max (wr_index wr + 1)); [lia|]. cbn [lands]. eexists. split; cbn [wr_index wr_created wr_store].
  - rewrite (wn_index _ _ Hw), length_app. cbn. lia.
  - intros i v Hi. apply lookup_snoc_Some in Hi as [[_ Hi]|[-> <-]]; [by apply (wn_leaves _ _ Hw)|]. rewrite <- (wn_index _ _ Hw). exact Hv.
  - rewrite Ha, Ec. by destruct vs.
Qed.

Lemma lands_expected index : lands (fun h => leaf_hash_at index h) (expected_leaf s index).
Proof using Type.
  unfold expected_leaf. apply lands_check; [by intros []|]. intros Hs. eapply lands_impl; [apply lands_require; by intros []|]. intros h Hh. split; [lia|done].
Qed.

Lemma timestamp_column_lands d : lands (fun _ => True) (descriptor_timestamp_column d).
Proof using Type.
  unfold descriptor_timestamp_column. destruct (d_attributes d) as [b|]; [|done]. apply lands_check; [by intros []|]. intros _. apply lands_found; [by intros []|].
  intros v _. destruct v; try done. destruct (member _ _) as [[]|]; cbn; try done; by intros [].
Qed.

Lemma descriptor_bounds_lands d : lands (fun _ => True) (apply_descriptor_bounds d).
Proof using Type.
  unfold apply_descriptor_bounds. apply (lands_bind (fun _ => True)); [|done]. destruct (d_min d), (d_max d); cbn; try done; try (by intros []).
  eapply lands_bind; [apply timestamp_column_lands|done].
Qed.

Lemma table_bounds_lands index d : lands (fun _ => True) (table_bounds index d).
Proof using Type.
  unfold table_bounds. destruct (d_min d), (d_max d); cbn; try done; try (by intros []). eapply lands_bind; [apply timestamp_column_lands|done].
Qed.

(** A leaf whose metadata is refused is an error of the content. *)
Lemma put_lands vs wr b bounds :
  written vs wr -> lands (fun _ => True) bounds -> wr_index wr + 1 <= u64_max ->
  (forall m, bounds = Ok m -> leaf_version (wr_index wr) {| v_bytes := b; v_mtime := if wr_index wr + 1 =? total_leaves s then mtime else None; v_temporal := m.1; v_attributes := m.2 |}) ->
  lands (fun wr' => exists v, written (vs ++ [v]) wr')
    (wr ← (_ ← (if u64_max <? wr_index wr + 1 then Panic else Ok tt); r ← open_writer w name node create t wr; m ← bounds; mret (put_leaf s mtime r.1 b m.1 m.2 r.2)); next_leaf wr).
Proof using opens finds finds_first.
  intros Hw Hl Hb Hv. destruct (Z.ltb_spec u64_max (wr_index wr + 1)); [lia|]. cbn [mbind outcome_bind]. destruct bounds as [m|e|] eqn:Em; [| |done].
  - rewrite <- Em. apply put_written with (m := m); auto.
  - destruct (open_writer_written vs wr Hw) as (wr' & -> & _). done.
Qed.

Definition progress (wr : Writing) : Prop := exists vs, written vs wr.

(** ** Files *)

Section Files.
Hypothesis file : t = FilePhysicalSeries.

Definition file_cursor (c : FileCursor) : Prop :=
  Forall good_leaf (fc_rest c) /\
  match fc_hasher c with
  | None => True
  | Some h => exists d fed, good_leaf d /\ fc_descriptor c = Some d /\ fc_buffer c = Some fed
      /\ h = hashing (d_count d) (d_min d) (d_max d) (d_attributes d) fed /\ Z.of_nat (length fed) < d_count d
  end.

Lemma end_file_written vs wr d fed :
  written vs wr -> good_leaf d -> Z.of_nat (length fed) = d_count d ->
  lands (fun wr' => exists v, written (vs ++ [v]) wr')
    (end_file_leaf w name node create s mtime (hashing (d_count d) (d_min d) (d_max d) (d_attributes d) fed) (Some fed) d wr).
Proof using packed opens finds finds_first file.
  intros Hw [Hc Ha] Hl. unfold end_file_leaf. assert (Hne : fed <> []) by (intros ->; cbn in Hl; lia).
  apply (lands_bind (fun h => file_leaf_hash_canonical fed (d_min d) (d_max d) (d_attributes d) = Ok h)).
  { rewrite <- Hl. destruct (hasher_finish _) as [h|e|] eqn:E; cbn; [|by intros []|].
    - by apply hasher_finish_hashing.
    - unfold hasher_finish in E. by repeat destruct (negb _) || destruct (_ <? _). }
  intros h Hh. eapply lands_bind; [apply lands_expected|]. intros x Hx. apply lands_check; [by intros []|]. intros <-%bool_decide_eq_true.
  rewrite <- file. apply put_lands; [done|apply descriptor_bounds_lands|by eapply leaf_index_bound|].
  intros m Em. split; [done|]. exists d, h. split; [done|]. rewrite bool_decide_false by (by rewrite file). split; [cbn; rewrite Em; by destruct m|done].
Qed.

Lemma begin_file_written vs wr c :
  written vs wr -> file_cursor c ->
  lands (fun c' => file_cursor c' /\ is_Some (fc_hasher c')) (begin_file_leaf from (wr_index wr) c).
Proof using Type.
  intros Hw [Hr Hc]. unfold begin_file_leaf. destruct (fc_hasher c) as [h|] eqn:Eh; [split; [split; [done|by rewrite Eh]|by rewrite Eh]|].
  destruct (fc_rest c) as [|d rest] eqn:Er; [by intros []|]. apply Forall_cons in Hr as [[Hd Ha] Hr]. rewrite hasher_new_hashing by lia. cbn [leaf_res map_err mbind outcome_bind mret outcome_ret lands].
  split; [|by eexists]. split; [done|]. cbn [fc_hasher fc_descriptor fc_buffer]. exists d, []. split_and!; [by split|done| |done|cbn; lia].
  pose proof (wn_index _ _ Hw). destruct (Z.leb_spec from (wr_index wr)); [done|lia].
Qed.

Lemma feed_file_step (fuel : nat) chunk c wr : chunk <> [] ->
  feed_file_chunk w name node create s from mtime (S fuel) chunk c wr =
    (c ← begin_file_leaf from (wr_index wr) c;
     match fc_hasher c with
     | None => Panic
     | Some h =>
         let n := Z.to_nat (Z.min (hasher_remaining h) (Z.of_nat (length chunk))) in
         h ← leaf_res (hasher_write h (take n chunk));
         let buffer := (fun b => b ++ take n chunk) <$> fc_buffer c in
         if hasher_remaining h =? 0 then
           match fc_descriptor c with
           | None => Panic
           | Some d =>
               wr ← end_file_leaf w name node create s mtime h buffer d wr;
               feed_file_chunk w name node create s from mtime fuel (drop n chunk) {| fc_rest := fc_rest c; fc_hasher := None; fc_buffer := None; fc_descriptor := None |} wr
           end
         else feed_file_chunk w name node create s from mtime fuel (drop n chunk) {| fc_rest := fc_rest c; fc_hasher := Some h; fc_buffer := buffer; fc_descriptor := fc_descriptor c |} wr
     end).
Proof using Type. by destruct chunk. Qed.

(** Feeding any bytes writes the leaves they complete. *)
Lemma feed_file_written (fuel : nat) chunk vs c wr :
  (length chunk <= fuel)%nat -> written vs wr -> file_cursor c ->
  lands (fun r => file_cursor r.1 /\ exists vs', written (vs ++ vs') r.2) (feed_file_chunk w name node create s from mtime fuel chunk c wr).
Proof using packed opens finds finds_first file.
  revert chunk vs c wr. induction fuel as [|fuel IH]; intros chunk vs c wr Hf Hw Hc.
  { destruct chunk; [|cbn in Hf; lia]. cbn. split; [done|]. exists []. by rewrite app_nil_r. }
  destruct (decide (chunk = [])) as [->|Hne]; [cbn; split; [done|]; exists []; by rewrite app_nil_r|].
  assert (Hpos : (0 < length chunk)%nat) by (by destruct chunk; [|cbn; lia]). rewrite feed_file_step by done. eapply lands_bind; [by eapply begin_file_written|].
  intros c1 [Hc1 [h Eh]]. rewrite Eh. pose proof Hc1 as [Hr1 Hh1]. rewrite Eh in Hh1. destruct Hh1 as (d & fed & Hd & Ed & Eb & -> & Hlt).
  unfold hasher_remaining at 1 2. cbn [fh_count fh_written hashing]. cbn zeta. set (n := Z.to_nat (Z.min (d_count d - Z.of_nat (length fed)) (Z.of_nat (length chunk)))).
  assert (Hn : (0 < n <= length chunk)%nat) by (unfold n; lia).
  assert (Hnl : length (take n chunk) = n) by (rewrite length_take; lia).
  assert (Hsum : Z.of_nat (length fed) + Z.of_nat n <= d_count d) by (unfold n; lia).
  destruct Hd as [Hd Ha]. rewrite hasher_write_hashing; [|apply Hd|rewrite Hnl; exact Hsum]. cbn [leaf_res map_err mbind outcome_bind].
  unfold hasher_remaining. cbn [fh_count fh_written hashing]. rewrite Eb. cbn [fmap option_fmap option_map]. rewrite length_app, Hnl.
  assert (Hdrop : (length (drop n chunk) <= fuel)%nat) by (rewrite length_drop; lia).
  destruct (Z.eqb_spec (d_count d - Z.of_nat (length fed + n)) 0) as [E0|E0].
  - rewrite Ed. eapply lands_bind; [apply end_file_written; [exact Hw|done|rewrite length_app; lia]|]. intros wr' [v Hv].
    eapply lands_impl; [apply (IH _ (vs ++ [v])); [done|done|by split]|]. intros r [Hr (vs' & Hv')]. split; [done|]. exists (v :: vs'). by rewrite <- app_assoc in Hv'.
  - apply IH; [done|done|]. split; [done|]. cbn [fc_hasher fc_descriptor fc_buffer]. exists d, (fed ++ take n chunk). split_and!; [by split|done|done|done|]. rewrite length_app, Hnl. lia.
Qed.

Lemma feed_chunks_written chunks c wr :
  progress wr -> file_cursor c -> lands (fun r => file_cursor r.1 /\ progress r.2) (feed_chunks w name node create s from mtime chunks c wr).
Proof using packed opens finds finds_first file.
  intros Hw Hc. unfold feed_chunks. apply (lands_fold _ (fun _ x => file_cursor x.1 /\ progress x.2)); [|done].
  intros chunk rest x _ [Hx [vs Hv]]. eapply lands_impl; [by apply feed_file_written|]. intros r [Hr [vs' Hv']]. split; [done|by eexists].
Qed.

Lemma object_chunks_lands pack sp skip o : lands (fun _ => True) (object_chunks pack sp skip o).
Proof using Type. destruct o; cbn; [|done]. apply lands_check; [by intros []|done]. Qed.

Lemma file_span_written pack prefix need sp x :
  file_cursor x.1.1 -> balanced (object_hash sp :: need) x.1.2 -> progress x.2 ->
  lands (fun y => file_cursor y.1.1 /\ balanced need y.1.2 /\ progress y.2) (file_span w name node create s from mtime pack prefix x sp).
Proof using packed serves opens finds finds_first file.
  destruct x as [[c po] wr]. cbn [fst snd]. intros Hc Hb Hw. unfold file_span. eapply lands_bind; [by apply ensure_balanced|]. intros found Hf.
  eapply lands_bind; [apply object_chunks_lands|]. intros chunks _. eapply lands_bind; [by apply feed_chunks_written|]. intros fed [Hfc Hfw].
  destruct (release_balanced _ _ _ Hf) as (po' & -> & Hb'). done.
Qed.

Lemma file_pack_written need p x :
  good_pack p.2 -> balanced (pack_objects from p.2 ++ need) x.1 -> progress x.2 ->
  lands (fun y => balanced need y.1 /\ progress y.2) (file_pack w name node create s from mtime x p).
Proof using packed serves opens finds finds_first file.
  intros Hg Hb Hw. unfold file_pack, pack_objects in *. destruct (leaf_end p.2 <=? from); [done|]. eapply lands_bind; [by apply suffix_start_good|].
  intros r [Hr Er]. rewrite Er in Hb.
  apply (lands_bind (fun y => file_cursor y.1.1 /\ balanced need y.1.2 /\ progress y.2)).
  - apply (lands_fold _ (fun rest y => file_cursor y.1.1 /\ balanced (map object_hash rest ++ need) y.1.2 /\ progress y.2)).
    + intros sp rest y _ (Hc & Hy & Hp). by apply file_span_written.
    + split_and!; [|done|done]. split; [|done]. cbn. apply Forall_drop, Hg.
  - intros [[c po] wr] (Hc & Hp & Hq). apply lands_check; [by intros []|]. intros _. apply lands_check; [by intros []|]. done.
Qed.
End Files.

(** ** Tables *)

Section Tables.
Hypothesis table : t = TablePhysicalSeries.

Definition table_cursor (ds : list PackLeafDescriptor) (c : TableCursor) : Prop :=
  match tc_descriptor c with
  | None => tc_batches c = [] /\ tc_rows c = 0
  | Some i => exists d sch fp, ds !! i = Some d /\ tc_schema c = Some sch /\ schema_fingerprint_of sch = Ok fp
      /\ Forall sound_batch (tc_batches c) /\ 0 <= tc_rows c < d_count d
  end.

Lemma fingerprint_lands d : lands (fun _ => True) (leaf_fingerprint s d).
Proof using Type.
  unfold leaf_fingerprint. eapply lands_bind; [apply lands_content|intros fp _; by destruct fp as [fp|]; [|intros []]].
  unfold effective_leaf_schema_fingerprint. by destruct (sm_kind _), (d_schema d).
Qed.

Lemma end_table_written vs wr d sch bs fp :
  written vs wr -> good_leaf d -> schema_fingerprint_of sch = Ok fp -> Forall sound_batch bs ->
  lands (fun wr' => exists v, written (vs ++ [v]) wr') (end_table_leaf w name node create s from mtime sch bs d wr).
Proof using packed opens finds finds_first table.
  intros Hw [Hc Ha] Hfp Hbs. unfold end_table_leaf. pose proof (table_hash_total sch bs (d_min d) (d_max d) (d_attributes d) fp Hfp Hbs Ha) as Hnp.
  apply (lands_bind (fun h => table_leaf_hash_canonical sch bs (d_min d) (d_max d) (d_attributes d) = Ok h)).
  { destruct (table_leaf_hash_canonical _ _ _ _ _) as [h|e|]; cbn; [done|by intros []|by destruct Hnp]. }
  intros h Hh. eapply lands_bind; [apply lands_expected|]. intros x Hx. apply lands_check; [by intros []|]. intros <-%bool_decide_eq_true.
  pose proof (wn_index _ _ Hw) as Hi. destruct (Z.leb_spec from (wr_index wr)); [|lia]. unfold encode_table_leaf_parquet. change (@arrow_write arrow_rows) with parquet_write.
  destruct (parquet_write sch (map batch_rows bs)) as [b|] eqn:Eb; cbn [content map_err mbind outcome_bind fail]; [|by intros []].
  rewrite <- table. apply put_lands; [done|apply table_bounds_lands|by eapply leaf_index_bound|].
  intros m Em. split; [done|]. exists d, h. split; [done|]. rewrite bool_decide_true by done. split; [cbn; rewrite Em; by destruct m|]. by exists sch, bs.
Qed.

Lemma begin_table_written ds fp sch c :
  Forall good_leaf ds -> (exists x, schema_fingerprint_of sch = Ok x) -> table_cursor ds c ->
  lands (fun c' => table_cursor ds c' /\ is_Some (tc_descriptor c')) (begin_table_leaf s ds fp sch c).
Proof using Type.
  intros Hg [x Hx] Hc. unfold begin_table_leaf. destruct (tc_descriptor c) as [i|] eqn:Ei; [by split; [|rewrite Ei]|].
  unfold table_cursor in Hc. rewrite Ei in Hc. destruct Hc as [Hb Hr]. apply lands_found; [by intros []|]. intros d Hd. eapply lands_bind; [apply fingerprint_lands|]. intros e _.
  apply lands_check; [by intros []|]. intros _. cbn. split; [|by eexists]. unfold table_cursor. cbn [tc_descriptor tc_schema tc_batches tc_rows].
  exists d, sch, x. rewrite Hb, Hr. rewrite Forall_forall in Hg. destruct (Hg d) as [Hg' _]; [by eapply list_elem_of_lookup_2|]. split_and!; [done|done|done|done|lia|lia].
Qed.

(** Feeding the rows of a batch writes the leaves they complete. *)
Lemma feed_table_written (fuel : nat) ds fp sch batch c wr :
  Forall good_leaf ds -> (exists x, schema_fingerprint_of sch = Ok x) -> sound_batch batch -> (num_rows batch <= fuel)%nat -> progress wr -> table_cursor ds c ->
  lands (fun r => table_cursor ds r.1 /\ progress r.2) (feed_table_batch w name node create s from mtime fuel ds fp sch batch c wr).
Proof using packed opens finds finds_first table.
  intros Hg Hsch. revert batch c wr. induction fuel as [|fuel IH]; intros batch c wr Hb Hf Hw Hc; cbn [feed_table_batch].
  { destruct (Nat.eqb_spec (num_rows batch) 0); [done|lia]. }
  destruct (Nat.eqb_spec (num_rows batch) 0) as [|Hn0]; [done|]. eapply lands_bind; [by apply begin_table_written|]. intros c1 [Hc1 [i Ei]].
  unfold table_cursor in Hc1. rewrite Ei in Hc1. destruct Hc1 as (d & leaf & x & Hd & Hls & Hx & Hbs & Hr). rewrite Ei. cbn [mbind option_bind]. rewrite Hd. cbn [fmap option_fmap option_map].
  eapply lands_bind; [apply fingerprint_lands|]. intros e _. apply lands_check; [by intros []|]. intros _. destruct (Z.ltb_spec (d_count d) (tc_rows c1)); [lia|]. cbn [mbind outcome_bind]. cbn zeta.
  set (n := Z.to_nat (Z.min (d_count d - tc_rows c1) (Z.of_nat (num_rows batch)))). assert (Hn : (0 < n <= num_rows batch)%nat) by (unfold n; lia).
  assert (Hsum : tc_rows c1 + Z.of_nat n <= d_count d) by (unfold n; lia).
  assert (Hbs' : Forall sound_batch (tc_batches c1 ++ [slice batch 0 n])) by (apply Forall_app; split; [done|]; apply Forall_singleton, slice_sound; [lia|done]).
  assert (Hrest : sound_batch (slice batch n (num_rows batch - n))) by (apply slice_sound; [lia|done]).
  assert (Hfuel : (num_rows (slice batch n (num_rows batch - n)) <= fuel)%nat) by (cbn; lia).
  destruct (Z.eqb_spec (tc_rows c1 + Z.of_nat n) (d_count d)) as [E|E].
  - rewrite Hls. destruct Hw as [vs Hw]. rewrite Forall_forall in Hg. eapply lands_bind; [eapply end_table_written; [exact Hw| |exact Hx|exact Hbs']; eapply Hg, list_elem_of_lookup_2, Hd|].
    intros wr' [v Hv]. apply IH; [done|done|by eexists|]. by split.
  - apply IH; [done|done|done|]. unfold table_cursor. cbn [tc_descriptor tc_schema tc_batches tc_rows]. exists d, leaf, x. split_and!; [done|done|done|done|lia|lia].
Qed.

Lemma cast_columns_lands hash cols fs : lands (fun _ => True) (cast_columns hash cols fs).
Proof using Type.
  revert fs. induction cols as [|c cols IH]; intros [|f fs]; cbn [cast_columns]; [done..|]. apply lands_found; [by intros []|]. intros c' _. eapply lands_bind; [apply IH|done].
Qed.

Lemma normalize_sound hash raw sch b : canonicalize_schema raw = Ok sch -> lands sound_batch (normalize hash sch b).
Proof using Type*.
  intros Hc. unfold normalize. eapply lands_bind; [apply cast_columns_lands|]. intros cols _. eapply lands_impl; [apply lands_require; by intros []|]. intros x Hx%try_new_wf.
  assert (Hf : Forall (fun f => is_dictionary (field_type f) = false) (fields sch)).
  { unfold canonicalize_schema in Hc. apply bind_Ok in Hc as (fs & Hfs%omap_list_Ok & Hc). injection Hc as <-. cbn [fields]. apply Forall_forall. intros f (i & Hi)%list_elem_of_lookup.
    eapply Forall2_lookup_r in Hfs as (f0 & _ & Hf0); [|exact Hi]. unfold canonicalize_field in Hf0. apply bind_Ok in Hf0 as (r & Hr & Hf0). injection Hf0 as <-. cbn. by apply canonical_not_dictionary in Hr as [? _]. }
  unfold sound_batch. apply Forall_forall. intros c (i & Hi)%list_elem_of_lookup. eapply Forall2_lookup_r in Hx as (f & Hfi & Ht & Hl & Hv); [|exact Hi].
  rewrite Forall_forall in Hf. split_and!; [rewrite Ht; by eapply Hf, list_elem_of_lookup_2|done|done].
Qed.

Lemma table_batch_written hash ds fp raw sch b x :
  Forall good_leaf ds -> canonicalize_schema raw = Ok sch -> schema_fingerprint_of raw = Ok fp -> table_cursor ds x.1.2 -> progress x.2 ->
  lands (fun y => table_cursor ds y.1.2 /\ progress y.2) (table_batch w name node create s from mtime hash ds fp sch x b).
Proof using Type*.
  destruct x as [[skip c] wr]. cbn [fst snd]. intros Hg Hc Hf Ht Hw. unfold table_batch. destruct (_ <=? _); [done|]. cbn zeta. eapply lands_bind; [by eapply normalize_sound|].
  intros nb Hnb. eapply lands_bind; [apply feed_table_written; try done|].
  - exists fp. unfold schema_fingerprint_of, schema_fingerprint_with_magic in *. by rewrite (canonicalize_encodes raw).
  - intros fed [H1' H2']. done.
Qed.

Lemma decoded_rows_lands hash z bs : lands (fun _ => True) (decoded_rows hash z bs).
Proof using Type. revert z. induction bs as [|b bs IH]; intros z; cbn [decoded_rows]; [done|]. apply lands_check; [by intros []|]. intros _. apply IH. Qed.

Lemma decode_lands hash b fp : lands (fun r => schema_fingerprint_of r.1 = Ok fp) (decode_table_object hash b fp).
Proof using Type.
  unfold decode_table_object. apply lands_found; [by intros []|]. intros raw _. destruct (schema_fingerprint_of raw) as [x| |] eqn:Ex; cbn [mbind outcome_bind]; [|by intros []|by intros []].
  apply lands_check; [by intros []|]. intros <-%bool_decide_eq_true. apply lands_found; [by intros []|]. intros bs _. done.
Qed.

Lemma table_span_written ds prefix need sp x :
  Forall good_leaf ds -> logical_start sp <= logical_end sp -> table_cursor ds x.1.1 -> balanced (object_hash sp :: need) x.1.2 -> progress x.2 ->
  lands (fun y => table_cursor ds y.1.1 /\ balanced need y.1.2 /\ progress y.2) (table_span w name node create s from mtime ds prefix x sp).
Proof using Type*.
  destruct x as [[c po] wr]. cbn [fst snd]. intros Hg Hsp Hc Hb Hw. unfold table_span. apply lands_found; [by intros []|]. intros d _. eapply lands_bind; [apply fingerprint_lands|]. intros fp _.
  eapply lands_bind; [by apply ensure_balanced|]. intros found Hf. eapply lands_bind; [apply decode_lands|]. intros [raw batches] Hfp. cbn [fst snd] in *.
  eapply lands_bind; [apply decoded_rows_lands|]. intros rows _. destruct (Z.ltb_spec (logical_end sp) (logical_start sp)); [lia|]. cbn [mbind outcome_bind]. apply lands_check; [by intros []|]. intros _.
  apply (lands_bind (fun sch => canonicalize_schema raw = Ok sch)).
  { pose proof (canonicalize_total raw) as Hnp. destruct (canonicalize_schema raw) as [fs'| |]; cbn; [done|by intros []|by destruct Hnp]. }
  intros sch Hsch. apply (lands_bind (fun y : Z * TableCursor * Writing => table_cursor ds y.1.2 /\ progress y.2)).
  - apply (lands_fold _ (fun _ (y : Z * TableCursor * Writing) => table_cursor ds y.1.2 /\ progress y.2)); [|done]. intros b rest y _ [Hy1 Hy2]. by eapply table_batch_written.
  - intros fed [H1' H2']. destruct (release_balanced _ _ _ Hf) as (po' & -> & Hb'). done.
Qed.

Lemma table_pack_written need p x :
  good_pack p.2 -> balanced (pack_objects from p.2 ++ need) x.1 -> progress x.2 ->
  lands (fun y => balanced need y.1 /\ progress y.2) (table_pack w name node create s from mtime x p).
Proof using Type*.
  intros Hg Hb Hw. unfold table_pack, pack_objects in *. destruct (leaf_end p.2 <=? from); [done|]. eapply lands_bind; [by apply suffix_start_good|].
  intros r [Hr Er]. rewrite Er in Hb.
  apply (lands_bind (fun y => table_cursor (leaf_descriptors p.2) y.1.1 /\ balanced need y.1.2 /\ progress y.2)).
  - apply (lands_fold _ (fun rest y => table_cursor (leaf_descriptors p.2) y.1.1 /\ balanced (map object_hash rest ++ need) y.1.2 /\ progress y.2)).
    + intros sp rest y Hsp (Hc & Hy & Hp). apply table_span_written; [apply Hg| |done|done|done].
      apply list_elem_of_filter in Hsp as [_ Hsp]. pose proof (gp_spans _ Hg) as Hall. rewrite Forall_forall in Hall. by apply Hall.
    + by split_and!.
  - intros [[c po] wr] (Hc & Hp & Hq). apply lands_check; [by intros []|]. intros _. apply lands_check; [by intros []|]. done.
Qed.
End Tables.

(** ** The series *)

(** The namespace after the series is written: the missing leaves are versions of
    the file, in order and after what it held; an empty series is an empty
    version. *)
Definition materialized (st : fs_store) : Prop :=
  if total_leaves s =? 0 then
    st = (if create then set_versions id (held ++ [{| v_bytes := []; v_mtime := mtime; v_temporal := None; v_attributes := None |}]) stc else st0)
  else exists vs, from + Z.of_nat (length vs) = total_leaves s /\ (forall i v, vs !! i = Some v -> leaf_version (from + Z.of_nat i) v)
    /\ match vs with [] => st = st0 | _ => st = set_versions id (held ++ vs) stc end.

Lemma packs_written (f : PreparedPackObjects * Writing -> bytes * PackIndex -> pres (PreparedPackObjects * Writing)) need po :
  (forall need p x, good_pack p.2 -> balanced (pack_objects from p.2 ++ need) x.1 -> progress x.2 -> lands (fun y => balanced need y.1 /\ progress y.2) (f x p)) ->
  total_leaves s <> 0 -> balanced (series_objects from s ++ need) po ->
  lands (fun r => balanced need r.1 /\ materialized r.2)
    (r ← fold_pres f (packs s) (po, {| wr_created := false; wr_index := from; wr_store := st0 |});
     _ ← ensure (wr_index r.2 =? total_leaves s) (LeafTotal (wr_index r.2) (total_leaves s));
     mret (r.1, wr_store r.2)).
Proof using packed.
  intros Hf Ht Hb. apply (lands_bind (fun y => balanced need y.1 /\ progress y.2)).
  - apply (lands_fold _ (fun rest y => balanced (concat (map (fun x => pack_objects from x.2) rest) ++ need) y.1 /\ progress y.2)).
    + intros p rest y Hp [Hy Hw]. cbn [map concat] in Hy. rewrite <- app_assoc in Hy. pose proof (wp_packs s packed) as Hg. rewrite Forall_forall in Hg. apply Hf; [by apply Hg|done|done].
    + split; [done|]. exists []. split; [cbn; lia|done|done].
  - intros [po' wr] [Hp [vs [Hi Hl Hs]]]. cbn [fst snd] in *. apply lands_check; [by intros []|]. intros He%Z.eqb_eq. cbn. split; [done|]. unfold materialized.
    destruct (Z.eqb_spec (total_leaves s) 0); [done|]. exists vs. split; [lia|]. split; [done|]. by destruct vs; destruct Hs.
Qed.

Lemma materialize_written need po :
  t = FilePhysicalSeries \/ t = TablePhysicalSeries -> balanced (series_objects from s ++ need) po ->
  lands (fun r => balanced need r.1 /\ materialized r.2) (materialize_series_v2 w name node create s from mtime t po st0).
Proof using Type*.
  intros Ht Hb. destruct Ht as [Ht|Ht]; rewrite Ht at 1; cbn [materialize_series_v2].
  - unfold materialize_file_series_v2. destruct (Z.eqb_spec (total_leaves s) 0) as [E|E].
    + unfold series_objects in Hb. rewrite (wp_empty s packed E) in Hb. cbn [map concat app] in Hb. unfold materialize_empty_series, materialized. rewrite E. cbn [Z.eqb].
      pose proof opens as Ho. destruct create; cbn [negb]; [|done]. rewrite Ho. cbn. done.
    + apply packs_written; [|done|done]. intros need' p x. by apply file_pack_written.
  - unfold materialize_table_series_v2. destruct (Z.eqb_spec (total_leaves s) 0) as [E|E]; [by intros []|].
    apply packs_written; [|done|done]. intros need' p x. by apply table_pack_written.
Qed.
End Written.
