(* ===== verification/PullMaterialized.v ===== *)
(** Series as they are fetched and as they are written: the packs that
    [fetch_series_v2] and [ensure_series_coverage] of
    [crates/steward/src/content_pull.rs] accept are as the writer relies on, and
    the missing leaves of a series reach the destination. *)

From stdpp Require Import base list gmap numbers strings sorting options.
From Stdlib Require Import ZArith Lia.
From S2P Require Import Prelude RustStd EntryType Wire CanonicalJson Tree Manifest PatriciaMap Commit MerkleTree SeriesMerkle SeriesManifest SeriesPack Publication PullGraph PullChain PullSeries PullSeriesSpec PullApply PullWritten RustText TinyFs SeriesLeaf TableLeaf TableRows TablePack CapsuleStream CapsuleTable CapsuleIncremental PullRenames PullPlan.

Open Scope Z_scope.

Section Packed.
Context `{Blake3} `{JsonParser} `{ContentSource}.

Lemma good_of_fetched p : fetched_pack p -> good_pack p.
Proof.
  intros (Hw & (Hre & Hvd & Hsp) & _ & b & He). apply rebuild_inv in Hre as (_ & _ & (Hlt & _ & Hn & _)%pack_validate_inv). split; [lia|done| |].
  - unfold pack_encode in He. do 3 (apply bind_Ok in He as (? & _ & He)). apply bind_Ok in He as (es & Hes%omap_list_Ok & _).
    unfold wf_pack_index in Hw. rewrite !andb_true_iff in Hw. destruct Hw as [[_ Hds] _]. apply forallb_Forall in Hds. rewrite Forall_forall in Hds, Hvd |- *.
    intros d Hd. pose proof (Hds d Hd) as Hwd. specialize (Hvd d Hd). unfold wf_descriptor, is_u64 in Hwd. rewrite !andb_true_iff in Hwd. apply list_elem_of_lookup in Hd as [i Hi].
    eapply Forall2_lookup_l in Hes as (enc & _ & Hx); [|exact Hi]. unfold encode_into in Hx. apply bind_Ok in Hx as (? & _ & Hx). apply bind_Ok in Hx as (? & Hx & _).
    unfold push_len_prefixed in Hx. destruct (Z.leb_spec (Z.of_nat (length (default [] (d_attributes d)))) u32_max); [|done].
    unfold validate_descriptor in Hvd. destruct (Z.eqb_spec (d_count d) 0); [done|]. split; [unfold u64_max; lia|done].
  - eapply Forall_impl; [exact Hsp|]. intros sp Hs. unfold nonempty_span in Hs. lia.
Qed.

(** A verified segment ends where its series does. *)
Lemma segment_end h m p : fetched_pack p -> verify_series_segment h m p (pack_leaves p) = Ok tt ->
  leaf_end p = sm_leaf_count m /\ Z.of_nat (length (pack_leaves p)) = leaf_end p - leaf_start p /\ 0 <= leaf_start p.
Proof.
  intros (Hw & _ & Hs & _) Hv%segment_verified. apply verify_pack_inv in Hv as (_ & Ht & _ & Hl & _). unfold validate_series_segment in Hs.
  destruct (Z.eqb_spec (leaf_end p) (total_leaf_count p)) as [Ee|]; [|done]. unfold wf_pack_index, is_u64 in Hw. rewrite !andb_true_iff in Hw. split_and!; [lia|done|lia].
Qed.

Lemma extension_start ph parent h m p leaves : verify_series_extension ph parent h m p leaves = Ok tt -> leaf_start p = sm_leaf_count parent.
Proof. unfold verify_series_extension. intros E. destruct (descriptor_bounds _). inv_pull. rename select ((leaf_start p =? _) = true) into Hst. by apply Z.eqb_eq in Hst. Qed.

(** The packs of a walk are good, and their leaves reach the end of the series. *)
Lemma trace_packed h m ks ps base : trace h m ks ps base ->
  Forall (fun x => good_pack x.2) ps /\ exists x, last ps = Some x /\ 0 <= leaf_start x.2
    /\ leaf_start x.2 + Z.of_nat (length (concat (map (fun x => pack_leaves x.2) (rev ps)))) = sm_leaf_count m.
Proof.
  induction 1 as [h m key p Hf Hv|h m key p ph parent Hf Hv|h m key p ph parent ks ps base Hf Hv _ He _ (Hg & x & Hx & H0' & Hs)];
    (destruct (segment_end _ _ _ Hf Hv) as (Hend & Hlen & Hpos)).
  - split; [apply Forall_singleton; by apply good_of_fetched|]. exists (key, p). cbn. rewrite app_nil_r. split_and!; [done|done|lia].
  - split; [apply Forall_singleton; by apply good_of_fetched|]. exists (key, p). cbn. rewrite app_nil_r. split_and!; [done|done|lia].
  - split; [apply Forall_cons; split; [by apply good_of_fetched|done]|]. exists x. apply extension_start in He. split_and!.
    + by destruct ps.
    + done.
    + cbn [rev]. rewrite map_app, concat_app, length_app. cbn [map concat snd]. rewrite app_nil_r. lia.
Qed.

(** A fetched series can be materialized. *)
Lemma fetched_packed h t m b (complete : bool) g g' :
  decoded m -> fetch_series_v2 h t m b complete g = Ok g' -> exists s, series g' !! h = Some s /\ well_packed s.
Proof.
  intros [Hw _] E. unfold wf_series, is_u64 in Hw. rewrite !andb_true_iff in Hw. unfold fetch_series_v2 in E. inv_pull.
  destruct (Z.eqb_spec (sm_leaf_count m) 0) as [E0|E0].
  - inv_pull. eexists. cbn [add_series series]. rewrite lookup_insert_eq. split; [done|]. split; cbn; [constructor|lia|lia|unfold u64_max; lia|done].
  - inv_pull. match goal with Hs : segment_loop _ _ _ _ _ _ = Ok ?r |- _ => destruct r as [ps base]; apply segment_loop_trace in Hs as [_ [ks Ht]] end. inv_pull.
    apply trace_packed in Ht as (Hg & x & Hlast & Hp & Hs). eexists. cbn [add_series series]. rewrite lookup_insert_eq. split; [done|].
    assert (Hst : match rev ps with (_, p) :: _ => leaf_start p | [] => sm_leaf_count m end = leaf_start x.2).
    { destruct (last_Some ps x) as [Hl _]. destruct (Hl Hlast) as [l ->]. rewrite rev_app_distr. cbn. by destruct x. }
    rewrite Hst. split; cbn [packs fetched_start fetched_leaves manifest]; [by apply Forall_rev|done|done|unfold u64_max; lia|done].
Qed.

(** So can a series that was extended to an older state. *)
Lemma coverage_loop_packed (fuel : nat) desired consolidated s s' :
  0 <= desired -> well_packed s -> coverage_loop fuel desired consolidated s = Ok s' -> well_packed s'.
Proof.
  intros Hd. revert s. induction fuel as [|fuel IH]; intros s Hs E; [done|]. cbn [coverage_loop] in E.
  destruct (Z.leb_spec (fetched_start s) desired) as [|Hlt]; [by injection E as <-|]. inv_pull. rename select PackDescriptor into d. rename select PackIndex into p.
  rename select (fetch_pack d = Ok p) into Hp. apply fetch_pack_Ok in Hp. rename select (verify_series_segment _ _ p _ = Ok _) into Hv. apply segment_end in Hv as (_ & Hlen & Hpos); [|done].
  rename select ((leaf_end p =? _) = true) into Hend. apply Z.eqb_eq in Hend. eapply IH; [|exact E]. destruct Hs as [Hg Hst Hl Hb He].
  split; cbn [packs fetched_start fetched_leaves manifest]; [apply Forall_cons; split; [by apply good_of_fetched|done]|done| |done|].
  - rewrite length_app. lia.
  - intros Hz. lia.
Qed.

Lemma coverage_packed desired consolidated s s' :
  0 <= desired -> well_packed s -> ensure_series_coverage desired consolidated s = Ok s' -> well_packed s'.
Proof.
  intros Hd Hs E. unfold ensure_series_coverage in E. inv_pull. rename select (coverage_loop _ _ _ _ = Ok _) into Hl.
  apply coverage_loop_packed in Hl; [|done|done]. by destruct Hl; split.
Qed.
End Packed.

(** The missing leaves of a series reach the destination, [materialize_series_v2]
    of [crates/steward/src/content_pull.rs], with a file series and a table series
    on which it is evaluated. *)

(** C16: Materializing a series writes exactly the leaves the destination misses. The
    packs of the series are as they are fetched, the file is created or found by
    its name, and the prepared objects are counted for this series and what comes
    after: then the writer does not panic, does not fail on the namespace, and
    does not use an object more or less often than counted; if it succeeds (the
    served content passes its checks), the versions of the file grow by one per leaf from
    [leaves_from] to the last, in order, each with bytes that have the fetched
    leaf hash (or the Parquet encoding of rows that have it), with the event times
    and attributes the hash covers, and with the replicated modification time on
    the last one only. Nothing else of the namespace changes. *)
Theorem series_materialized `{Blake3} `{JsonParser} `{ContentSource} `{DestinationLaws} `{FileReads} `{ArrowCast} `{Parquet} `{ParquetWriter}
    (w : WD) (name : bytes) (node : uuid) (create : bool) (s : FetchedSeriesV2) (leaves_from : Z) (mtime : option Z) (t : EntryType) (id : FileID)
    (st st1 : fs_store) (objects : PreparedPackObjects) (need : list bytes) :
  well_packed s -> (forall h, get_blob_reader h <> Panic) -> t = FilePhysicalSeries \/ t = TablePhysicalSeries ->
  (if create then create_file_with_id factory_get w name node st = Ok (id, st1) else st1 = st) ->
  (forall vs, async_writer_path_with_type factory_get w name t generated_id (set_versions id vs st1) = Ok (id, set_versions id vs st1)) ->
  (create = false -> async_writer_path_with_type factory_get w name t generated_id st1 = Ok (id, st1)) ->
  balanced (series_objects leaves_from s ++ need) objects ->
  lands (fun r => balanced need r.1 /\ materialized create s leaves_from mtime t id st st1 r.2)
    (materialize_series_v2 w name node create s leaves_from mtime t objects st).
Proof. intros Hp Hs Ht Ho Hf Hf0 Hb. by apply materialize_written. Qed.

(** * Witness *)

Ltac by_check := refine (bool_decide_unpack _ _); vm_compute; exact I.

Definition pull_node (kind tag : Z) : bytes := map z2b [0; 0; 0; 0; 0; 0; 0x70 + kind; 0; 0x80; 0; 0; 0; 0; 0; 0; tag].

(** [RecordBatch::try_new] with the checks it makes. *)
Definition batch_fits (n : nat) (f : Field) (c : TableLeaf.Array) : Prop :=
  a_type c = field_type f /\ length (a_values c) = n /\ Forall (fun v => wf_cell (a_type c) v = true) (a_values c).
#[global] Instance batch_fits_dec n f c : Decision (batch_fits n f c).
Proof. unfold batch_fits. apply _. Defined.
Definition checked_batch (s : ArrowSchema) (cols : list TableLeaf.Array) : option RecordBatch :=
  match cols with
  | [] => None
  | c :: _ => let n := length (a_values c) in if bool_decide (Forall2 (batch_fits n) (fields s) cols) then Some {| num_rows := n; columns := cols |} else None
  end.

Definition pull_dest : Destination :=
  {| uuid_of := fun b => if (length b =? 16)%nat then Some b else None; generated_id := pull_node 4 99; attributes_from_json := fun _ => Some ∅;
     factory_get := fun _ _ => Err tt; footer_bounds := fun _ => None; batch_try_new := checked_batch |}.
Definition pull_dest_laws : @DestinationLaws pull_dest.
Proof. split. intros s cols b. cbn. unfold checked_batch. destruct cols; [done|]. case_bool_decide as Hf; [|done]. intros [= <-]. exact Hf. Defined.

(** The Parquet writer makes the one file [ex_parquet] reads. *)
Definition pull_writer : ParquetWriter := {| parquet_write := fun _ _ => Some (bstr "T") |}.

(** A source with two objects in one batch and the others to be streamed. *)
Definition pull_batch : list bytes := [bstr "betagamma"; bstr "T"].
Definition pull_streams : list bytes := [bstr "streamed"; bstr "alpha"].
Definition pull_source : ContentSource :=
  {| source_pond_id := []; get_publication_state := fun _ => Ok None; get_publication_record := fun _ => Ok None;
     get_publication_pack := fun _ => Ok None; get_object := fun _ => Ok None;
     get_objects := fun hs => Ok (list_to_map (filter (fun x => x.1 ∈ hs) (map (fun b => (mix b, b)) pull_batch)));
     object_size := fun h => Ok ((fun b => Z.of_nat (length b)) <$> find (fun b => bool_decide (mix b = h)) pull_batch); has_blob := fun _ => Ok true;
     get_blob_reader := fun h => Ok ((fun b => {| stream_chunks := [take 3 b; drop 3 b]; stream_ends := true |}) <$> find (fun b => bool_decide (mix b = h)) pull_streams);
     get_series_pack := fun _ => Ok None; get_consolidated_series_pack := fun _ => Ok None |}.

#[local] Existing Instances mix_blake3 no_json ex_cast ex_parquet ex_reads pull_source pull_dest pull_dest_laws pull_writer.

(** Leaves of bytes, and the pack of some of them as one object. *)
Definition file_leaf (b : bytes) : PackLeafDescriptor :=
  {| logical_leaf_hash := unwrap_or [] (file_leaf_hash_canonical b None None None); d_count := Z.of_nat (length b); d_schema := None; d_min := None; d_max := None; d_attributes := None |}.
Definition pack_of (series : bytes) (start : nat) (object : bytes) (ds : list PackLeafDescriptor) (units : Z) : PackIndex :=
  {| series_hash := series; parent_series_hash := None; leaf_start := Z.of_nat start; leaf_end := Z.of_nat (start + length ds);
     total_leaf_count := Z.of_nat (start + length ds); pack_root := []; pack_proof := ex_proof 7 2 5; pack_count := units;
     object_spans := [{| object_hash := mix object; logical_start := 0; logical_end := units; physical_start := 0; physical_end := Z.of_nat (length object) |}];
     physical_byte_count := Z.of_nat (length object); leaf_descriptors := ds |}.
Definition whole_series (kind : PayloadKind) (key : bytes) (ps : list (bytes * PackIndex)) (units : Z) : FetchedSeriesV2 :=
  let leaves := concat (map (fun x => pack_leaves x.2) ps) in
  {| manifest_hash := key;
     manifest := {| sm_kind := kind; sm_logical_count := units; sm_leaf_count := Z.of_nat (length leaves); sm_min := None; sm_max := None; sm_attributes := None;
                    leaf_merkle_root := unwrap_or [] (merkle_root leaves); merkle_frontier := unwrap_or frontier_empty (from_leaves leaves) |};
     packs := ps; fetched_start := 0; fetched_leaves := leaves; base_series_hash := None; base_manifest := None; fetched_objects := named_objects ps |}.

(** A log of one leaf, the log with two more, and a table of one leaf. *)
Definition log_pack : PackIndex := pack_of (bstr "log") 0 (bstr "alpha") [file_leaf (bstr "alpha")] 5.
Definition log_more : PackIndex := pack_of (bstr "log") 1 (bstr "betagamma") [file_leaf (bstr "beta"); file_leaf (bstr "gamma")] 9.
Definition log_first : FetchedSeriesV2 := whole_series File (mix (bstr "log1")) [(bstr "p1", log_pack)] 5.
Definition log_second : FetchedSeriesV2 := whole_series File (mix (bstr "log2")) [(bstr "p1", log_pack); (bstr "p2", log_more)] 14.
Definition table_leaf : PackLeafDescriptor :=
  {| logical_leaf_hash := ex_table_hash; d_count := 3; d_schema := Some ex_fp; d_min := Some (-5); d_max := Some 9; d_attributes := None |}.
Definition table_series : FetchedSeriesV2 := whole_series Table (mix (bstr "tab")) [(bstr "p3", pack_of (bstr "tab") 0 (bstr "T") [table_leaf] 3)] 3.

(** A pack is good when a finite check says so. *)
Definition pack_check (p : PackIndex) : Prop :=
  leaf_start p <= leaf_end p /\ Z.of_nat (length (leaf_descriptors p)) = leaf_end p - leaf_start p
  /\ Forall (fun d => 0 < d_count d <= u64_max /\ Z.of_nat (length (default [] (d_attributes d))) <= u32_max) (leaf_descriptors p)
  /\ Forall (fun sp => logical_start sp <= logical_end sp) (object_spans p).
Definition series_check (s : FetchedSeriesV2) : Prop :=
  Forall (fun x => pack_check x.2) (packs s) /\ 0 <= fetched_start s /\ fetched_start s + Z.of_nat (length (fetched_leaves s)) = sm_leaf_count (manifest s)
  /\ sm_leaf_count (manifest s) <= u64_max /\ sm_leaf_count (manifest s) <> 0.
#[global] Instance series_check_dec s : Decision (series_check s).
Proof. unfold series_check, pack_check. apply _. Defined.

Lemma checked_series s : series_check s -> well_packed s.
Proof.
  intros (Hp & H1 & H2 & H3 & H4). split; try done. eapply Forall_impl; [exact Hp|]. intros x (P1 & P2 & P3 & P4). by split.
Qed.

Definition pull_pond : uuid := repeat Byte.x05 16.
Definition log_wd : WD := {| wd_np := root_for pull_pond; effective_root := root_for pull_pond |}.
Definition log_node : uuid := pull_node 7 20.
Definition log_fid : FileID := {| fid_node := log_node; fid_part := fid_part (root_for pull_pond); fid_pond := pull_pond |}.
Definition log_before : fs_store := {| st_dirs := {[ root_for pull_pond := ∅ ]}; st_links := ∅; st_dynamic := ∅; st_files := ∅ |}.
Definition log_created : fs_store := {| st_dirs := {[ root_for pull_pond := {[ bstr "log" := log_fid ]} ]}; st_links := ∅; st_dynamic := ∅; st_files := {[ log_fid := [] ]} |}.
Definition log_graph : FetchedGraph := add_series (mix (bstr "log2")) log_second [] graph_default.
Definition log_op : ApplyOp := OpSeriesV2 [] (bstr "log") log_node true FilePhysicalSeries (mix (bstr "log2")) 0 (Some 7).
Definition log_objects : PreparedPackObjects :=
  match prepare_pack_objects [log_op] log_graph with Ok po => po | _ => {| po_uses := ∅; po_inline := ∅; po_cache := ∅ |} end.

Lemma log_balanced : balanced (series_objects 0 log_second ++ []) log_objects.
Proof.
  assert (Hok : is_ok (prepare_pack_objects [log_op] log_graph) = true) by (vm_compute; reflexivity). unfold log_objects. destruct (prepare_pack_objects _ _) as [po| |] eqn:E; [|done|done].
  apply prepare_balanced in E. exact E.
Qed.

Lemma pull_serves h : get_blob_reader h <> Panic.
Proof. cbn. discriminate. Qed.

Lemma log_packed : well_packed log_second.
Proof. apply checked_series. by_check. Qed.

Lemma log_creates : create_file_with_id factory_get log_wd (bstr "log") log_node log_before = Ok (log_fid, log_created).
Proof. reflexivity. Qed.

Lemma log_found vs :
  async_writer_path_with_type factory_get log_wd (bstr "log") FilePhysicalSeries generated_id (set_versions log_fid vs log_created) = Ok (log_fid, set_versions log_fid vs log_created).
Proof. reflexivity. Qed.

(** The three leaves become the three versions of the new file. *)
Lemma series_materialized_witness :
  match materialize_series_v2 log_wd (bstr "log") log_node true log_second 0 (Some 7) FilePhysicalSeries log_objects log_before with
  | Ok r => (balanced [] r.1 /\ materialized true log_second 0 (Some 7) FilePhysicalSeries log_fid log_before log_created r.2)
            /\ (fun v => (v_bytes v, v_mtime v)) <$> default [] (st_files r.2 !! log_fid) = [(bstr "alpha", None); (bstr "beta", None); (bstr "gamma", Some 7)]
  | _ => False
  end.
Proof.
  assert (Hl := series_materialized log_wd (bstr "log") log_node true log_second 0 (Some 7) FilePhysicalSeries log_fid log_before log_created log_objects []
    log_packed pull_serves (or_introl eq_refl) log_creates log_found ltac:(discriminate) log_balanced).
  assert (Hv : match materialize_series_v2 log_wd (bstr "log") log_node true log_second 0 (Some 7) FilePhysicalSeries log_objects log_before with
    | Ok r => (fun v => (v_bytes v, v_mtime v)) <$> default [] (st_files r.2 !! log_fid) = [(bstr "alpha", None); (bstr "beta", None); (bstr "gamma", Some 7)]
    | _ => False end) by (vm_compute; reflexivity).
  destruct (materialize_series_v2 _ _ _ _ _ _ _ _ _ _) as [r| |]; [split; [exact Hl|exact Hv]|exact Hv|exact Hv].
Defined.
