(* ===== verification/PullView.v ===== *)
(** A namespace that represents a manifest: the directories of the store list
    exactly the children the manifest gives them, under the identities of the
    entries, and the other nodes hold what their entries name: a file its bytes
    with their metadata, a series its leaves. Each operation of a pull is a change
    of the manifest. *)

From stdpp Require Import base list gmap numbers strings options.
From Stdlib Require Import ZArith Lia.
From S2P Require Import Prelude RustStd RustText EntryType TinyFs TinyFsSpec Wire CanonicalJson Tree Manifest Commit SeriesMerkle SeriesManifest SeriesPack SeriesLeaf TableLeaf TableRows TablePack CapsuleStream CapsuleTable Publication PullGraph PullSeries PullRenames PullPlan PullApply.

(** A manifest by node identity. *)
Abbreviation view := (bytes -> option ManifestEntry).

Definition upd (M : view) (id : bytes) (e : ManifestEntry) : view := fun i => if bool_decide (i = id) then Some e else M i.
Definition del (M : view) (id : bytes) : view := fun i => if bool_decide (i = id) then None else M i.

Lemma upd_same M id e : upd M id e id = Some e.
Proof. unfold upd. by rewrite bool_decide_true. Qed.
Lemma upd_other M id e i : i <> id -> upd M id e i = M i.
Proof. intros. unfold upd. by rewrite bool_decide_false. Qed.
Lemma del_same M id : del M id id = None.
Proof. unfold del. by rewrite bool_decide_true. Qed.
Lemma del_other M id i : i <> id -> del M id i = M i.
Proof. intros. unfold del. by rewrite bool_decide_false. Qed.

(** The leaf hashes each series hash stands for. *)
Class SeriesContents := { leaves_of : bytes -> list bytes }.

Section Contents.
Context `{Blake3} `{JsonParser} `{Destination} `{ArrowCast} `{ParquetWriter}.

(** A version that is the leaf with hash [h]: the bytes of a file leaf, or the
    Parquet encoding of the rows of a table leaf, with the event times and the
    attributes the hash covers. *)
Definition leaf_of (t : EntryType) (v : version) (h : bytes) : Prop :=
  exists d,
    if bool_decide (t = TablePhysicalSeries) then
      (exists index, table_bounds index d = Ok (v_temporal v, v_attributes v)) /\
      exists schema bs, table_leaf_hash_canonical schema bs (d_min d) (d_max d) (d_attributes d) = Ok h /\ parquet_write schema (map batch_rows bs) = Some (v_bytes v)
    else
      apply_descriptor_bounds d = Ok (v_temporal v, v_attributes v) /\
      file_leaf_hash_canonical (v_bytes v) (d_min d) (d_max d) (d_attributes d) = Ok h.

(** The versions of a series are its leaves in order; a series that was created
    before it had any begins with an empty version. *)
Definition series_versions (t : EntryType) (vs : list version) (leaves : list bytes) : Prop :=
  exists blank rest, vs = blank ++ rest /\ (blank = [] \/ exists v, blank = [v] /\ v_bytes v = []) /\ Forall2 (leaf_of t) rest leaves.

(** A version carries the metadata of the entry: modification time, event times
    with the column the attributes name, and attributes. *)
Definition meta_kept (meta : VersionMeta) (v : version) : Prop :=
  v_mtime v = timestamp meta /\ v_temporal v = (fun b => (b.1, b.2, timestamp_column meta)) <$> bounds meta
  /\ match extended_attributes meta with
     | None => v_attributes v = None
     | Some json => exists m, attributes_from_json json = Some m /\ v_attributes v = Some (Parsed m)
     end.
End Contents.

Section View.
Context `{blake : Blake3} `{json : JsonParser} `{dest : Destination} `{cast : ArrowCast} `{writer : ParquetWriter} `{contents : SeriesContents}.
#[local] Set Default Proof Using "Type*".

(** The root and the pond; the entries of the root that no manifest names; the
    node identities in play with their types. *)
Variables (root : bytes) (pond : uuid) (hidden : gmap bytes FileID) (known : bytes -> option EntryType).

Definition U (id : bytes) : uuid := default [] (uuid_of id).

(** Identities parse, carry their type, and are distinct. *)
Record identities : Prop := {
  id_parses : forall id t, known id = Some t -> uuid_of id = Some (U id);
  id_typed : forall id t, known id = Some t -> id_entry_type (U id) = Ok t;
  id_distinct : forall id1 id2 t1 t2, known id1 = Some t1 -> known id2 = Some t2 -> U id1 = U id2 -> id1 = id2;
}.
Hypothesis ids : identities.

Definition dirfid (p : bytes) : FileID := {| fid_node := U p; fid_part := U p; fid_pond := pond |}.

Definition entry_fid (e : ManifestEntry) : FileID :=
  {| fid_node := U (node_id e); fid_part := if bool_decide (node_type e = DirectoryPhysical) then U (node_id e) else U (parent_node_id e); fid_pond := pond |}.

Definition hid (p : bytes) : gmap bytes FileID := if bool_decide (p = root) then hidden else ∅.

(** A manifest that is a tree. *)
Record wf_view (M : view) : Prop := {
  wv_key : forall id e, M id = Some e -> node_id e = id;
  wv_known : forall id e, M id = Some e -> known id = Some (node_type e);
  wv_root : exists e, M root = Some e /\ node_type e = DirectoryPhysical;
  wv_parent : forall id e, M id = Some e -> id <> root -> exists p, M (parent_node_id e) = Some p /\ node_type p = DirectoryPhysical;
  wv_name : forall id e, M id = Some e -> id <> root -> plain_name (node_name e) /\ hid (parent_node_id e) !! node_name e = None;
  wv_sib : forall id1 id2 e1 e2, M id1 = Some e1 -> M id2 = Some e2 -> id1 <> root -> id2 <> root ->
    parent_node_id e1 = parent_node_id e2 -> node_name e1 = node_name e2 -> id1 = id2;
}.

(** The manifest lists [c] as [n] in [p]. *)
Definition lists (M : view) (p n : bytes) (c : FileID) : Prop :=
  exists id e, M id = Some e /\ id <> root /\ parent_node_id e = p /\ node_name e = n /\ entry_fid e = c.

Definition entries_ok (M : view) (p : bytes) (d : gmap bytes FileID) : Prop :=
  forall n c, d !! n = Some c <-> hid p !! n = Some c \/ lists M p n c.

Definition dir_ok (M : view) (st : fs_store) (p : bytes) : Prop := exists d, st_dirs st !! dirfid p = Some d /\ entries_ok M p d.

(** Nodes are stored under identities of their kind. *)
Record typed (st : fs_store) : Prop := {
  ty_dirs : forall n x, st_dirs st !! n = Some x -> id_entry_type (fid_node n) = Ok DirectoryPhysical;
  ty_links : forall n x, st_links st !! n = Some x -> id_entry_type (fid_node n) = Ok Symlink;
  ty_dynamic : forall n x, st_dynamic st !! n = Some x -> exists t, id_entry_type (fid_node n) = Ok t /\ is_dynamic t = true;
}.

(** What the node of an entry holds: the last version of a file has the entry's
    hash and its metadata; the target of a link and the recipe of a dynamic node
    have its hash, and its modification time; the versions of a series are the
    leaves its hash stands for. (The metadata listed for the versions of a series
    is not asked for: see [plan_one_stale] of [PullPlan].) *)
Definition leaf_ok (st : fs_store) (e : ManifestEntry) : Prop :=
  match node_type e with
  | DirectoryPhysical => True
  | FilePhysicalVersion | TablePhysicalVersion =>
      exists vs v, st_files st !! entry_fid e = Some vs /\ last vs = Some v /\ of_bytes (v_bytes v) = node_hash e
        /\ meta_kept (default meta_default (head (node_versions e))) v
  | FilePhysicalSeries | TablePhysicalSeries =>
      exists vs, st_files st !! entry_fid e = Some vs /\ series_versions (node_type e) vs (leaves_of (node_hash e))
  | Symlink => exists target, st_links st !! entry_fid e = Some (target, replicated_mtime e) /\ of_bytes target = node_hash e
  | DirectoryDynamic | FileDynamic | TableDynamic =>
      exists factory config b, st_dynamic st !! entry_fid e = Some (factory, config, replicated_mtime e)
        /\ encode_recipe factory config = Ok b /\ of_bytes b = node_hash e
  end.

Record represents (M : view) (st : fs_store) : Prop := {
  rp_typed : typed st;
  rp_dirs : forall p e, M p = Some e -> node_type e = DirectoryPhysical -> dir_ok M st p;
  rp_leaves : forall id e, M id = Some e -> leaf_ok st e;
}.

Definition wd (p : bytes) : WD := {| wd_np := dirfid p; effective_root := dirfid root |}.

(** ** Views *)

Lemma lists_ext M M' p n c : (forall i, M i = M' i) -> lists M p n c -> lists M' p n c.
Proof using Type. intros He (id & e & Hm & Hr). exists id, e. by rewrite <- He. Qed.

Lemma represents_ext M M' st : (forall i, M i = M' i) -> represents M st -> represents M' st.
Proof using Type.
  intros He [Ht Hd Hl]. split; [done| |].
  - intros p e Hm Hty. destruct (Hd p e) as (d & Hs & Hdd); [by rewrite He|done|]. exists d. split; [done|]. intros n c. rewrite (Hdd n c).
    split; (intros [?|Hl']; [by left|right; by eapply lists_ext; [|exact Hl']; intros; rewrite He]).
  - intros id e Hm. eapply Hl. by rewrite He.
Qed.

Lemma dirfid_entry e : node_type e = DirectoryPhysical -> entry_fid e = dirfid (node_id e).
Proof using Type. intros Ht. unfold entry_fid, dirfid. by rewrite bool_decide_true. Qed.

Lemma entry_fid_inj M e1 e2 id1 id2 : wf_view M -> M id1 = Some e1 -> M id2 = Some e2 -> entry_fid e1 = entry_fid e2 -> id1 = id2.
Proof.
  intros Hw H1 H2 E. apply (f_equal fid_node) in E. simpl in E. rewrite (wv_key M Hw _ _ H1), (wv_key M Hw _ _ H2) in E.
  eapply (id_distinct ids); [by eapply wv_known|by eapply wv_known|done].
Qed.

(** ** Kinds *)

Lemma kind_dir st n d : typed st -> st_dirs st !! n = Some d -> node_kind st n = DirectoryNode.
Proof using Type.
  intros Ht Hd. unfold node_kind. destruct (st_links st !! n) as [x|] eqn:El; [|by rewrite Hd].
  apply (ty_links st Ht) in El. apply (ty_dirs st Ht) in Hd. congruence.
Qed.

Lemma kind_file st n t : typed st -> id_entry_type (fid_node n) = Ok t -> is_file t = true -> is_dynamic t = false -> node_kind st n = FileNode.
Proof using Type.
  intros Ht Hi Hf Hd. unfold node_kind. destruct (st_links st !! n) as [x|] eqn:El; [apply (ty_links st Ht) in El; rewrite El in Hi; by injection Hi as <-|].
  destruct (st_dirs st !! n) as [x|] eqn:Ed; [apply (ty_dirs st Ht) in Ed; rewrite Ed in Hi; by injection Hi as <-|].
  destruct (st_dynamic st !! n) as [x|] eqn:Ey; [|done]. apply (ty_dynamic st Ht) in Ey as (t' & E & Hd'). rewrite E in Hi. injection Hi as ->. congruence.
Qed.

Lemma entry_typed M id e : wf_view M -> M id = Some e -> id_entry_type (fid_node (entry_fid e)) = Ok (node_type e).
Proof. intros Hw He. simpl. rewrite (wv_key M Hw _ _ He). eapply (id_typed ids), wv_known; eauto. Qed.

Lemma wd_writable p : check_writable (wd p) = Ok tt.
Proof using Type. unfold check_writable. by rewrite bool_decide_true. Qed.

Lemma wd_entries M st p e d : represents M st -> M p = Some e -> st_dirs st !! dirfid p = Some d -> forall n, wd_get factory_get st (wd p) n = Ok (d !! n).
Proof using Type. intros _ _ Hd n. unfold wd_get, get_entry. simpl. by rewrite Hd. Qed.

(** The entry of a child. *)
Lemma child_entry M st p pe id e d :
  represents M st -> M p = Some pe -> node_type pe = DirectoryPhysical -> st_dirs st !! dirfid p = Some d ->
  M id = Some e -> id <> root -> parent_node_id e = p -> d !! node_name e = Some (entry_fid e).
Proof using Type.
  intros Hr Hp Ht Hd He Hne Hpar. destruct (rp_dirs M st Hr p pe Hp Ht) as (d' & Hd' & Hok). rewrite Hd in Hd'. injection Hd' as <-.
  apply Hok. right. exists id, e. by split_and!.
Qed.

Lemma dirfid_inj M p q pe qe : wf_view M -> M p = Some pe -> M q = Some qe -> dirfid p = dirfid q -> p = q.
Proof.
  intros Hw Hp Hq E. injection E as E. eapply (id_distinct ids); [by eapply wv_known|by eapply wv_known|done].
Qed.

(** The directory the parent of an entry is. *)
Lemma parent_dir M st id e :
  wf_view M -> represents M st -> M id = Some e -> id <> root ->
  exists pe d, M (parent_node_id e) = Some pe /\ node_type pe = DirectoryPhysical /\ st_dirs st !! dirfid (parent_node_id e) = Some d /\ entries_ok M (parent_node_id e) d
    /\ d !! node_name e = Some (entry_fid e).
Proof using Type.
  intros Hw Hr He Hne. destruct (wv_parent M Hw id e He Hne) as (pe & Hp & Ht). destruct (rp_dirs M st Hr _ _ Hp Ht) as (d & Hd & Hok).
  exists pe, d. split_and!; [done|done|done|done|]. apply Hok. right. exists id, e. by split_and!.
Qed.

(** ** Removing a node without children *)

Lemma del_wf M id : wf_view M -> id <> root -> (forall i x, M i = Some x -> i <> root -> parent_node_id x <> id) -> wf_view (del M id).
Proof using Type.
  intros Hw Hne Hc. assert (Hd : forall i x, del M id i = Some x -> M i = Some x) by (intros i x; unfold del; by case_bool_decide). split.
  - intros i x Hi. by apply (wv_key M Hw), Hd.
  - intros i x Hi. by apply (wv_known M Hw), Hd.
  - destruct (wv_root M Hw) as (e & He & Ht). exists e. by rewrite del_other.
  - intros i x Hi%Hd Hir. destruct (wv_parent M Hw i x Hi Hir) as (p & Hp & Ht). exists p. rewrite del_other; [done|]. by eapply Hc.
  - intros i x Hi%Hd. by apply (wv_name M Hw).
  - intros i1 i2 e1 e2 H1%Hd H2%Hd. by eapply (wv_sib M Hw).
Qed.

Lemma remove_represents M st id e :
  wf_view M -> represents M st -> M id = Some e -> id <> root -> (forall i x, M i = Some x -> i <> root -> parent_node_id x <> id) ->
  exists st', remove_entry (wd (parent_node_id e)) (node_name e) st = Ok st' /\ represents (del M id) st'
    /\ st_files st' = st_files st /\ st_links st' = st_links st /\ st_dynamic st' = st_dynamic st.
Proof.
  intros Hw Hr He Hne Hc. destruct (parent_dir M st id e Hw Hr He Hne) as (pe & d & Hp & Ht & Hd & Hok & Hn). set (p := parent_node_id e) in *.
  unfold remove_entry. rewrite wd_writable. cbn [mbind outcome_bind]. unfold dir_remove. cbn [wd wd_np]. rewrite Hd, Hn. cbn [mbind outcome_bind fst snd].
  eexists. split; [done|]. cbn [with_dirs st_files st_links st_dynamic]. split; [|done].
  assert (Hsub : forall i x, del M id i = Some x -> M i = Some x) by (intros i x; unfold del; by case_bool_decide).
  split.
  - destruct (rp_typed M st Hr) as [T1 T2 T3]. split; cbn [with_dirs st_dirs st_links st_dynamic]; [|done|done].
    intros n x Hx. apply lookup_insert_Some in Hx as [[<- _]|[_ Hx]]; eauto.
  - intros q qe Hq%Hsub Hqt. destruct (decide (q = p)) as [->|Hqp].
    + exists (delete (node_name e) d). cbn [with_dirs st_dirs]. rewrite lookup_insert_eq. split; [done|]. intros n c. destruct (decide (n = node_name e)) as [->|Hnn].
      * rewrite lookup_delete_eq. split; [done|]. intros [Hh|(i & x & Hi & Hir & Hxp & Hxn & _)].
        -- destruct (wv_name M Hw id e He Hne) as [_ Hh']. fold p in Hh'. congruence.
        -- assert (i <> id) by (intros ->; by rewrite del_same in Hi). apply Hsub in Hi. assert (i = id) by (by eapply (wv_sib M Hw)). done.
      * rewrite lookup_delete_ne by done. rewrite (Hok n c). split; (intros [Hh|(i & x & Hi & Hir & Hxp & Hxn & Hxc)]; [by left|right; exists i, x]).
        -- split_and!; try done. rewrite del_other; [done|]. intros ->. congruence.
        -- by split_and!; [apply Hsub|..].
    + destruct (rp_dirs M st Hr q qe Hq Hqt) as (dq & Hdq & Hokq). exists dq. cbn [with_dirs st_dirs]. rewrite lookup_insert_ne.
      2: { intros E. apply Hqp. symmetry. by eapply dirfid_inj. }
      split; [done|]. intros n c. rewrite (Hokq n c). split; (intros [Hh|(i & x & Hi & Hir & Hxp & Hxn & Hxc)]; [by left|right; exists i, x]).
      * split_and!; try done. rewrite del_other; [done|]. intros ->. assert (x = e) as -> by congruence. fold p in Hxp. done.
      * by split_and!; [apply Hsub|..].
  - intros i x Hi%Hsub. pose proof (rp_leaves M st Hr i x Hi) as Hl. unfold leaf_ok in *. cbn [with_dirs st_files st_links st_dynamic]. exact Hl.
Qed.

(** ** Placing a node *)

(** [st1] holds the node of [e], and everything else as [st] does. *)
Record stores (e : ManifestEntry) (st st1 : fs_store) : Prop := {
  sr_dirs : st_dirs st1 = if bool_decide (node_type e = DirectoryPhysical) then <[entry_fid e := ∅]> (st_dirs st) else st_dirs st;
  sr_files : forall n, n <> entry_fid e -> st_files st1 !! n = st_files st !! n;
  sr_links : forall n, n <> entry_fid e -> st_links st1 !! n = st_links st !! n;
  sr_dynamic : forall n, n <> entry_fid e -> st_dynamic st1 !! n = st_dynamic st !! n;
  sr_typed : typed st1;
  sr_leaf : leaf_ok st1 e;
}.

(** An entry that can be added. *)
Record places (M : view) (e : ManifestEntry) : Prop := {
  pl_new : M (node_id e) = None;
  pl_known : known (node_id e) = Some (node_type e);
  pl_parent : exists pe, M (parent_node_id e) = Some pe /\ node_type pe = DirectoryPhysical;
  pl_name : plain_name (node_name e) /\ hid (parent_node_id e) !! node_name e = None;
  pl_free : forall i x, M i = Some x -> i <> root -> parent_node_id x = parent_node_id e -> node_name x <> node_name e;
}.

Lemma places_nonroot M e : wf_view M -> places M e -> node_id e <> root.
Proof using Type. intros Hw Hp E. destruct (wv_root M Hw) as (r & Hr & _). pose proof (pl_new M e Hp). congruence. Qed.

Lemma upd_wf M e : wf_view M -> places M e -> wf_view (upd M (node_id e) e).
Proof using Type.
  intros Hw Hp. pose proof (places_nonroot M e Hw Hp) as Hne.
  assert (Hu : forall i x, upd M (node_id e) e i = Some x -> (i = node_id e /\ x = e) \/ M i = Some x).
  { intros i x. unfold upd. case_bool_decide; [intros [= <-]; by left|by right]. }
  assert (Hk : forall i x, M i = Some x -> upd M (node_id e) e i = Some x).
  { intros i x Hi. rewrite upd_other; [done|]. intros ->. pose proof (pl_new M e Hp). congruence. }
  split.
  - intros i x [[-> ->]|Hi]%Hu; [done|by apply (wv_key M Hw)].
  - intros i x [[-> ->]|Hi]%Hu; [by apply (pl_known M)|by apply (wv_known M Hw)].
  - destruct (wv_root M Hw) as (r & Hr & Ht). exists r. split; [by apply Hk|done].
  - intros i x Hi Hir. assert (exists p, M (parent_node_id x) = Some p /\ node_type p = DirectoryPhysical) as (p & Hpp & Ht).
    { apply Hu in Hi as [[-> ->]|Hi]; [by apply (pl_parent M)|by eapply (wv_parent M Hw)]. }
    exists p. split; [by apply Hk|done].
  - intros i x [[-> ->]|Hi]%Hu; [intros _; by apply (pl_name M)|by apply (wv_name M Hw)].
  - intros i1 i2 e1 e2 [[-> ->]|H1]%Hu [[-> ->]|H2]%Hu Hr1 Hr2 Hpp Hnn; [done| | |by eapply (wv_sib M Hw)].
    + by destruct (pl_free M e Hp i2 e2 H2 Hr2 (eq_sym Hpp)).
    + by destruct (pl_free M e Hp i1 e1 H1 Hr1 Hpp).
Qed.

Lemma leaf_frame M e st st1 i x : wf_view M -> places M e -> stores e st st1 -> M i = Some x -> leaf_ok st x -> leaf_ok st1 x.
Proof.
  intros Hw Hp Hs Hi Hl. assert (Hne : entry_fid x <> entry_fid e).
  { intros E. pose proof (upd_wf M e Hw Hp) as Hw'. assert (i = node_id e) as ->.
    { eapply (entry_fid_inj (upd M (node_id e) e)); [done| |apply upd_same|done]. rewrite upd_other; [done|]. intros ->. pose proof (pl_new M e Hp). congruence. }
    pose proof (pl_new M e Hp). congruence. }
  unfold leaf_ok in *. destruct (node_type x); rewrite ?(sr_files _ _ _ Hs), ?(sr_links _ _ _ Hs), ?(sr_dynamic _ _ _ Hs) by done; done.
Qed.

Lemma adopt_ok M st e d pe :
  wf_view M -> represents M st -> places M e -> M (parent_node_id e) = Some pe -> node_type pe = DirectoryPhysical ->
  st_dirs st !! dirfid (parent_node_id e) = Some d -> d !! node_name e = None ->
  adopt factory_get (wd (parent_node_id e)) (node_name e) (U (node_id e)) st = Ok (entry_fid e).
Proof.
  intros Hw Hr Hp Hpe Ht Hd Hn. unfold adopt. rewrite wd_writable. cbn [mbind outcome_bind]. rewrite (wd_entries M st _ _ _ Hr Hpe Hd), Hn. cbn [mbind outcome_bind].
  unfold child_id. rewrite (id_typed ids _ _ (pl_known M e Hp)). done.
Qed.

(** The parent's entries before the node is placed. *)
Lemma place_free M st e :
  represents M st -> places M e ->
  exists pe d, M (parent_node_id e) = Some pe /\ node_type pe = DirectoryPhysical /\ st_dirs st !! dirfid (parent_node_id e) = Some d
    /\ entries_ok M (parent_node_id e) d /\ d !! node_name e = None.
Proof using Type.
  intros Hr Hp. destruct (pl_parent M e Hp) as (pe & Hpe & Ht). destruct (rp_dirs M st Hr _ _ Hpe Ht) as (d & Hd & Hok).
  exists pe, d. split_and!; [done|done|done|done|]. destruct (d !! node_name e) as [c|] eqn:E; [|done]. apply Hok in E as [Hh|(i & x & Hi & Hir & Hxp & Hxn & _)].
  - destruct (pl_name M e Hp) as [_ Hh']. congruence.
  - by destruct (pl_free M e Hp i x Hi Hir Hxp).
Qed.

Lemma insert_represents M st st1 e :
  wf_view M -> represents M st -> places M e -> stores e st st1 ->
  exists st2, dir_insert (dirfid (parent_node_id e)) (node_name e) (entry_fid e) st1 = Ok st2 /\ represents (upd M (node_id e) e) st2
    /\ st_files st2 = st_files st1 /\ st_links st2 = st_links st1 /\ st_dynamic st2 = st_dynamic st1.
Proof.
  intros Hw Hr Hp Hs. pose proof (upd_wf M e Hw Hp) as Hw'. pose proof (places_nonroot M e Hw Hp) as Hnr.
  destruct (place_free M st e Hr Hp) as (pe & d & Hpe & Ht & Hd & Hok & Hn). set (p := parent_node_id e) in *.
  assert (Hup : upd M (node_id e) e p = Some pe) by (rewrite upd_other; [done|]; intros E; pose proof (pl_new M e Hp); congruence).
  assert (Hpf : dirfid p <> entry_fid e).
  { intros E. pose proof Hpe as Hk. apply (wv_key M Hw) in Hk. rewrite <- Hk, <- dirfid_entry in E by done. assert (p = node_id e) as E'.
    { eapply (entry_fid_inj (upd M (node_id e) e) pe e); [done|done|apply upd_same|done]. } pose proof (pl_new M e Hp). congruence. }
  assert (Hsame : forall n, n <> entry_fid e -> st_dirs st1 !! n = st_dirs st !! n).
  { intros n Hne. rewrite (sr_dirs _ _ _ Hs). case_bool_decide; [by rewrite lookup_insert_ne|done]. }
  unfold dir_insert. rewrite (Hsame _ Hpf), Hd, Hn. eexists. split; [done|]. cbn [with_dirs st_files st_links st_dynamic]. split; [|done].
  assert (Hlists : forall q n c, lists (upd M (node_id e) e) q n c <-> lists M q n c \/ (q = p /\ n = node_name e /\ c = entry_fid e)).
  { intros q n c. split.
    - intros (i & x & Hi & Hir & Hxp & Hxn & Hxc). destruct (decide (i = node_id e)) as [->|Hne].
      + rewrite upd_same in Hi. injection Hi as <-. right. by split_and!.
      + rewrite upd_other in Hi by done. left. exists i, x. by split_and!.
    - intros [(i & x & Hi & Hrest)|(-> & -> & ->)].
      + exists i, x. split; [|done]. rewrite upd_other; [done|]. intros ->. pose proof (pl_new M e Hp). congruence.
      + exists (node_id e), e. rewrite upd_same. by split_and!. }
  split.
  - destruct (sr_typed _ _ _ Hs) as [T1 T2 T3]. split; cbn [with_dirs st_dirs st_links st_dynamic]; [|done|done].
    intros n x Hx. apply lookup_insert_Some in Hx as [[<- _]|[_ Hx]]; [|by eauto].
    destruct (rp_typed M st Hr) as [T1' _ _]. by eapply T1'.
  - intros q qe Hq Hqt. unfold dir_ok. cbn [with_dirs st_dirs]. destruct (decide (q = p)) as [->|Hqp].
    + rewrite lookup_insert_eq. eexists. split; [done|]. intros n c. rewrite lookup_insert_Some, (Hok n c), Hlists.
      split; [intros [[<- <-]|[_ [?|?]]]; [right; right; by split_and!|by left|right; by left]|].
      intros [Hh|[Hl|(_ & -> & ->)]]; [right|right|by left].
      * split; [|by left]. intros <-. destruct (pl_name M e Hp) as [_ Hh']. fold p in Hh'. congruence.
      * split; [|by right]. intros <-. destruct Hl as (i & x & Hi & Hir & Hxp & Hxn & _). by destruct (pl_free M e Hp i x Hi Hir Hxp).
    + rewrite lookup_insert_ne by (intros E; apply Hqp; symmetry; by eapply (dirfid_inj (upd M (node_id e) e))).
      destruct (decide (q = node_id e)) as [->|Hqe].
      * rewrite upd_same in Hq. injection Hq as <-. rewrite (sr_dirs _ _ _ Hs), bool_decide_true by done. rewrite <- dirfid_entry by done. rewrite lookup_insert_eq.
        exists ∅. split; [done|]. intros n c. rewrite lookup_empty. split; [done|]. unfold hid. rewrite bool_decide_false by done. rewrite lookup_empty.
        intros [?|Hl]; [done|]. apply Hlists in Hl as [(i & x & Hi & Hir & Hxp & _)|[E _]]; [|done].
        destruct (wv_parent M Hw i x Hi Hir) as (pp & Hpp & _). rewrite Hxp in Hpp. pose proof (pl_new M e Hp). congruence.
      * rewrite upd_other in Hq by done. destruct (rp_dirs M st Hr q qe Hq Hqt) as (dq & Hdq & Hokq). exists dq. rewrite Hsame.
        2: { intros E. pose proof Hq as Hk. apply (wv_key M Hw) in Hk. rewrite <- Hk, <- dirfid_entry in E by done. apply Hqe.
             eapply (entry_fid_inj (upd M (node_id e) e) qe e); [done|by rewrite upd_other|apply upd_same|done]. }
        split; [done|]. intros n c. rewrite (Hokq n c), Hlists. split; [intros [?|?]; [by left|right; by left]|intros [?|[?|[? _]]]; [by left|by right|done]].
  - intros i x Hi. destruct (decide (i = node_id e)) as [->|Hne].
    + rewrite upd_same in Hi. injection Hi as <-. pose proof (sr_leaf _ _ _ Hs) as Hl. unfold leaf_ok in *. cbn [with_dirs st_files st_links st_dynamic]. exact Hl.
    + rewrite upd_other in Hi by done. pose proof (leaf_frame M e st st1 i x Hw Hp Hs Hi (rp_leaves M st Hr i x Hi)) as Hl. unfold leaf_ok in *. cbn [with_dirs st_files st_links st_dynamic]. exact Hl.
Qed.

(** ** Changing a node in place *)

(** [e] takes the place of [m]: only the hash and the versions may differ. *)
Definition in_place (m e : ManifestEntry) : Prop :=
  node_id m = node_id e /\ parent_node_id m = parent_node_id e /\ node_name m = node_name e /\ node_type m = node_type e.

Lemma in_place_fid m e : in_place m e -> entry_fid m = entry_fid e.
Proof using Type. intros (E1 & E2 & _ & E4). unfold entry_fid. by rewrite E1, E2, E4. Qed.

Lemma lists_in_place M m e id q n c : M id = Some m -> in_place m e -> lists (upd M id e) q n c <-> lists M q n c.
Proof using Type.
  intros Hm Hi. pose proof (in_place_fid m e Hi) as Ef. destruct Hi as (E1 & E2 & E3 & E4). split.
  - intros (i & x & Hx & Hr & Hp & Hn & Hc). destruct (decide (i = id)) as [->|Hne].
    + rewrite upd_same in Hx. injection Hx as <-. exists id, m. split_and!; congruence.
    + rewrite upd_other in Hx by done. exists i, x. by split_and!.
  - intros (i & x & Hx & Hr & Hp & Hn & Hc). destruct (decide (i = id)) as [->|Hne].
    + assert (x = m) as -> by congruence. exists id, e. rewrite upd_same. split_and!; congruence.
    + exists i, x. rewrite upd_other by done. by split_and!.
Qed.

Lemma upd_in_place M m e id i x : M id = Some m -> in_place m e -> upd M id e i = Some x -> exists y, M i = Some y /\ in_place y x.
Proof using Type.
  intros Hm Hi Hx. destruct (decide (i = id)) as [->|Hne].
  - rewrite upd_same in Hx. injection Hx as <-. by exists m.
  - rewrite upd_other in Hx by done. exists x. split; [done|]. by repeat split.
Qed.

Lemma refresh_wf M m e id : wf_view M -> M id = Some m -> in_place m e -> wf_view (upd M id e).
Proof using Type.
  intros Hw Hm Hi. pose proof (upd_in_place M m e id) as Hu.
  assert (Hk : forall i y, M i = Some y -> exists x, upd M id e i = Some x /\ node_type x = node_type y).
  { intros i y Hy. destruct (decide (i = id)) as [->|Hne]; [|exists y; by rewrite upd_other]. exists e. rewrite upd_same. split; [done|].
    assert (y = m) as -> by congruence. by destruct Hi as (_ & _ & _ & ?). }
  split.
  - intros i x Hx. destruct (Hu i x Hm Hi Hx) as (y & Hy & (E & _)). rewrite <- E. by apply (wv_key M Hw).
  - intros i x Hx. destruct (Hu i x Hm Hi Hx) as (y & Hy & (_ & _ & _ & E)). rewrite <- E. by apply (wv_known M Hw).
  - destruct (wv_root M Hw) as (r & Hr & Ht). destruct (Hk _ _ Hr) as (x & Hx & E). exists x. by rewrite E.
  - intros i x Hx Hir. destruct (Hu i x Hm Hi Hx) as (y & Hy & (_ & E & _)). destruct (wv_parent M Hw i y Hy Hir) as (p & Hp & Ht).
    rewrite <- E. destruct (Hk _ _ Hp) as (z & Hz & Ez). exists z. by rewrite Ez.
  - intros i x Hx Hir. destruct (Hu i x Hm Hi Hx) as (y & Hy & (_ & E1 & E2 & _)). rewrite <- E1, <- E2. by apply (wv_name M Hw i).
  - intros i1 i2 x1 x2 H1 H2 Hr1 Hr2 Hp Hn. destruct (Hu i1 x1 Hm Hi H1) as (y1 & Hy1 & (_ & A1 & A2 & _)). destruct (Hu i2 x2 Hm Hi H2) as (y2 & Hy2 & (_ & B1 & B2 & _)).
    eapply (wv_sib M Hw i1 i2 y1 y2); congruence.
Qed.

Lemma refresh_represents M m e id st st' :
  wf_view M -> represents M st -> M id = Some m -> in_place m e -> st_dirs st' = st_dirs st -> typed st' -> leaf_ok st' e ->
  (forall n, n <> entry_fid e -> st_files st' !! n = st_files st !! n /\ st_links st' !! n = st_links st !! n /\ st_dynamic st' !! n = st_dynamic st !! n) ->
  represents (upd M id e) st'.
Proof.
  intros Hw Hr Hm Hi Hd Ht Hl Hf. split; [done| |].
  - intros q qe Hq Hqt. destruct (upd_in_place M m e id q qe Hm Hi Hq) as (y & Hy & (_ & _ & _ & E)).
    destruct (rp_dirs M st Hr q y Hy) as (d & Hdq & Hok); [congruence|]. exists d. rewrite Hd. split; [done|]. intros n c. rewrite (Hok n c).
    by rewrite (lists_in_place M m e id).
  - intros i x Hx. destruct (decide (i = id)) as [->|Hne]; [rewrite upd_same in Hx; by injection Hx as <-|]. rewrite upd_other in Hx by done.
    pose proof (rp_leaves M st Hr i x Hx) as Hlx. assert (entry_fid x <> entry_fid e).
    { rewrite <- (in_place_fid m e Hi). intros E. apply Hne. by eapply (entry_fid_inj M x m). }
    destruct (Hf (entry_fid x)) as (F1 & F2 & F3); [done|]. unfold leaf_ok in *. destruct (node_type x); rewrite ?F1, ?F2, ?F3; done.
Qed.

(** ** Renaming in a directory *)

Definition with_name (e : ManifestEntry) (n : bytes) : ManifestEntry :=
  {| node_id := node_id e; parent_node_id := parent_node_id e; node_name := n; node_type := node_type e; node_hash := node_hash e; node_versions := node_versions e |}.

Lemma rename_entry_in p (st : fs_store) d old new d1 :
  st_dirs st !! dirfid p = Some d -> rename_in old new d = Ok d1 ->
  TinyFs.rename_entry factory_get (wd p) old new st = Ok (with_dirs (<[dirfid p := d1]> (st_dirs st)) st).
Proof using Type.
  intros Hd. unfold rename_in. destruct (d !! new) eqn:En; [done|]. destruct (d !! old) as [c|] eqn:Eo; [|done]. intros [= <-].
  unfold TinyFs.rename_entry. rewrite wd_writable. cbn [mbind outcome_bind]. unfold wd_get, get_entry, dir_remove. cbn [wd wd_np]. rewrite Hd, En. cbn [mbind outcome_bind].
  rewrite Eo. cbn [mbind outcome_bind fst snd]. unfold dir_insert. cbn [with_dirs st_dirs]. rewrite lookup_insert_eq.
  assert (delete old d !! new = None) as -> by (rewrite lookup_delete_None; by right). by rewrite insert_insert_eq.
Qed.

(** Names change below [p] only. *)
Definition renames (p : bytes) (M M' : view) : Prop :=
  forall i, M' i = M i \/ exists e n, M i = Some e /\ i <> root /\ parent_node_id e = p /\ M' i = Some (with_name e n).

Lemma rename_represents M M' st p pe d' :
  wf_view M -> represents M st -> M p = Some pe -> node_type pe = DirectoryPhysical -> renames p M M' -> entries_ok M' p d' ->
  represents M' (with_dirs (<[dirfid p := d']> (st_dirs st)) st).
Proof.
  intros Hw Hr Hp Hpt Hren Hok.
  assert (Hback : forall i x, M' i = Some x -> exists y, M i = Some y /\ node_type y = node_type x /\ entry_fid y = entry_fid x /\ parent_node_id y = parent_node_id x
                    /\ node_hash y = node_hash x /\ node_versions y = node_versions x /\ (parent_node_id x <> p -> y = x)).
  { intros i x Hx. destruct (Hren i) as [E|(y & n & Hy & _ & Hyp & E)].
    - exists x. rewrite <- E. by split_and!.
    - rewrite E in Hx. injection Hx as <-. exists y. by split_and!. }
  split.
  - destruct (rp_typed M st Hr) as [T1 T2 T3]. split; cbn [with_dirs st_dirs st_links st_dynamic]; [|done|done].
    intros n x Hx. apply lookup_insert_Some in Hx as [[<- _]|[_ Hx]]; [|by eauto].
    destruct (rp_dirs M st Hr p pe Hp Hpt) as (d & Hd & _). by eapply T1.
  - intros q qe Hq Hqt. unfold dir_ok. cbn [with_dirs st_dirs]. destruct (decide (q = p)) as [->|Hqp]; [rewrite lookup_insert_eq; by eexists|].
    destruct (Hback q qe Hq) as (y & Hy & Ety & _). rewrite lookup_insert_ne by (intros E; apply Hqp; symmetry; by eapply (dirfid_inj M)).
    destruct (rp_dirs M st Hr q y Hy) as (d & Hd & Hokd); [congruence|]. exists d. split; [done|]. intros n c. rewrite (Hokd n c).
    split; (intros [?|(i & x & Hx & Hir & Hxp & Hxn & Hxc)]; [by left|right]).
    + exists i, x. split; [|by split_and!]. destruct (Hren i) as [->|(z & nn & Hz & _ & Hzp & _)]; [done|]. congruence.
    + destruct (Hback i x Hx) as (z & Hz & _ & _ & _ & _ & _ & E). assert (z = x) as -> by (apply E; congruence). exists i, x. by split_and!.
  - intros i x Hx. destruct (Hback i x Hx) as (y & Hy & Ety & Ef & _ & Eh & Ev & _). pose proof (rp_leaves M st Hr i y Hy) as Hl.
    unfold leaf_ok, replicated_mtime in *. cbn [with_dirs st_files st_links st_dynamic]. rewrite Ety, Ef, Eh, Ev in Hl. exact Hl.
Qed.
End View.
