(* ===== verification/PullApplySpec.v ===== *)
(** A pull converges: the operations of a plan, applied in order to a namespace
    that represents the destination's manifest, never fail on the namespace, and
    leave it representing the source's. This file is about one operation. *)

From stdpp Require Import base list gmap numbers strings sorting options.
From Stdlib Require Import ZArith Lia.
From S2P Require Import Prelude RustStd RustText EntryType TinyFs TinyFsSpec Wire CanonicalJson Tree Manifest Commit SeriesMerkle SeriesManifest SeriesPack SeriesLeaf TableLeaf TableRows TablePack CapsuleStream CapsuleTable Publication PullGraph PullChain PullSeries PullSeriesSpec PullFetch PullRenames PullPlan PullApply PullWritten PullView.

Definition series_type (t : EntryType) : Prop := t = FilePhysicalSeries \/ t = TablePhysicalSeries.

Lemma insert_set_versions d name c n vs (st st2 : fs_store) : dir_insert d name c st = Ok st2 -> dir_insert d name c (set_versions n vs st) = Ok (set_versions n vs st2).
Proof.
  unfold dir_insert. cbn [set_versions st_dirs]. destruct (st_dirs st !! d) as [m|]; [|done]. destruct (m !! name); [done|]. by intros [= <-].
Qed.

(** ** What a pull relies on *)

(** A streamed blob that writes bytes and then fails: its reader breaks off, or
    the bytes have another hash. *)
Definition broken `{Blake3} `{ContentSource} (h : bytes) : Prop :=
  match get_blob_reader h with
  | Ok (Some s) => stream_bytes s <> [] /\ ~ (stream_ends s = true /\ of_bytes (stream_bytes s) = h)
  | _ => False
  end.

#[global] Instance broken_dec `{Blake3} `{ContentSource} h : Decision (broken h).
Proof. unfold broken. destruct (get_blob_reader h) as [[s|]| |]; apply _. Defined.

(** Such a blob drops the open writer, and the application panics. *)
Lemma broken_stream_panics `{Blake3} `{ContentSource} `{Destination} name n t v h st :
  pv_source v = External h -> broken h -> write_version name n t v st = Panic.
Proof.
  intros Es Hb. unfold write_version, stream_external_blob, broken in *. rewrite Es. destruct (get_blob_reader h) as [[s|]| |]; try done. destruct Hb as [Hne Hf]. cbn.
  destruct (stream_ends s) eqn:Ee; cbn; [|unfold drop_writer; by rewrite bool_decide_false]. rewrite bool_decide_false by tauto. cbn. unfold drop_writer. by rewrite bool_decide_false.
Qed.

(** The application ends in a state of [P], or on a failure that is not internal;
    it panics only when a streamed blob is broken. *)
Definition ends `{Blake3} `{ContentSource} (g : FetchedGraph) {A} (P : A -> Prop) (r : pres A) : Prop :=
  match r with Ok a => P a | Err e => ~ internal_error e | Panic => set_Exists broken (external_blobs g) end.

Section Ends.
Context `{Blake3} `{ContentSource} {g : FetchedGraph}.

Lemma ends_bind {A B} (P : A -> Prop) (Q : B -> Prop) (m : pres A) (k : A -> pres B) : ends g P m -> (forall a, P a -> ends g Q (k a)) -> ends g Q (m ≫= k).
Proof. destruct m; simpl; auto. Qed.

Lemma ends_impl {A} (P Q : A -> Prop) m : ends g P m -> (forall a, P a -> Q a) -> ends g Q m.
Proof. destruct m; simpl; auto. Qed.

Lemma ends_lands {A} (P : A -> Prop) m : lands P m -> ends g P m.
Proof. by destruct m. Qed.
End Ends.

(** What the destination holds of a series and what is planned to be appended
    make the leaves of the source's. *)
Definition suffixes_complete `{Blake3} `{SeriesContents} (g : FetchedGraph) (target : TargetPlanningState) : Prop :=
  forall e s from, e ∈ graph_manifest g -> series_type (node_type e) -> series g !! node_hash e = Some s ->
    plan_series_v2_leaves e s (tp_leaves target) (tp_manifests target) (node_hash <$> tp_nodes target !! node_id e) = Ok from ->
    (fetched_start s <= from)%Z
    /\ default [] ((fun t => leaves_of (node_hash t)) <$> tp_nodes target !! node_id e) ++ drop (Z.to_nat (from - fetched_start s)) (fetched_leaves s) = leaves_of (node_hash e).

Section Kids.
Context `{blake : Blake3} `{json : JsonParser} `{source : ContentSource} `{dest : Destination} {laws : DestinationLaws} `{reads : FileReads} `{cast : ArrowCast} `{parquet : Parquet}
  `{writer : ParquetWriter} `{contents : SeriesContents}.
#[local] Set Default Proof Using "Type*".
Variables (root : bytes) (pond : uuid) (hidden : gmap bytes FileID) (known : bytes -> option EntryType).
Hypothesis ids : identities known.
Variables (g : FetchedGraph) (target : TargetPlanningState).
Hypothesis genuine : verified g.
Hypothesis serves : forall h, get_blob_reader h <> Panic.
Hypothesis packed : forall h s, series g !! h = Some s -> well_packed s.
Hypothesis completes : suffixes_complete g target.

#[local] Abbreviation wf := (wf_view root hidden known).
#[local] Abbreviation rep := (represents root pond hidden).
#[local] Abbreviation put := (places root hidden known).
#[local] Abbreviation fid := (entry_fid pond).
#[local] Abbreviation at_ := (wd root pond).

(** ** Creating *)

Lemma typed_set_versions n vs st : typed st -> typed (set_versions n vs st).
Proof using Type. intros [T1 T2 T3]. by split. Qed.

Lemma set_versions_stores e vs st :
  typed st -> node_type e <> DirectoryPhysical -> leaf_ok pond (set_versions (fid e) vs st) e -> stores pond e st (set_versions (fid e) vs st).
Proof using Type.
  intros Ht Hd Hl. split; cbn [set_versions st_dirs st_files st_links st_dynamic]; [by rewrite bool_decide_false|by intros; rewrite lookup_insert_ne|done|done|by apply typed_set_versions|done].
Qed.

Lemma create_directory M st e :
  wf M -> rep M st -> put M e -> node_type e = DirectoryPhysical ->
  exists st', insert_directory_with_id factory_get (at_ (parent_node_id e)) (node_name e) (U (node_id e)) st = Ok (at_ (node_id e), st')
    /\ rep (upd M (node_id e) e) st'.
Proof.
  intros Hw Hr Hp Ht. destruct (place_free root pond hidden known M st e Hr Hp) as (pe & d & Hpe & Hpt & Hd & _ & Hn).
  unfold insert_directory_with_id. rewrite (adopt_ok root pond hidden known ids M st e d pe) by done. cbn [mbind outcome_bind].
  assert (Hs : stores pond e st (store_directory (fid e) st)).
  { split; cbn [store_directory with_dirs st_dirs st_files st_links st_dynamic]; [by rewrite bool_decide_true|done|done|done| |by unfold leaf_ok; rewrite Ht].
    destruct (rp_typed _ _ _ M st Hr) as [T1 T2 T3]. split; cbn; [|done|done]. intros n x Hx. apply lookup_insert_Some in Hx as [[<- _]|[_ Hx]]; [|by eauto].
    simpl. rewrite (id_typed known ids _ _ (pl_known _ _ _ M e Hp)). by rewrite Ht. }
  destruct (insert_represents root pond hidden known ids M st _ e Hw Hr Hp Hs) as (st2 & E & Hr2 & _). cbn [wd wd_np]. rewrite E. cbn [mbind outcome_bind].
  exists st2. split; [|done]. unfold child_wd, as_dir. destruct (rp_dirs _ _ _ _ _ Hr2 (node_id e) e (upd_same M _ e) Ht) as (dd & Hdd & _).
  rewrite <- dirfid_entry in Hdd by done. cbn [kind_of ns_of]. rewrite (kind_dir st2 _ _ (rp_typed _ _ _ _ _ Hr2) Hdd). cbn [mbind outcome_bind mret outcome_ret effective_root].
  unfold wd. by rewrite dirfid_entry.
Qed.

(** A new file, and its versions. *)
Lemma create_file M st e :
  wf M -> rep M st -> put M e -> node_type e <> DirectoryPhysical ->
  exists st', create_file_with_id factory_get (at_ (parent_node_id e)) (node_name e) (U (node_id e)) st = Ok (fid e, st')
    /\ st_files st' !! fid e = Some [] /\ typed st' /\ (exists d, st_dirs st' !! dirfid pond (parent_node_id e) = Some d /\ d !! node_name e = Some (fid e))
    /\ forall vs, leaf_ok pond (set_versions (fid e) vs st) e -> rep (upd M (node_id e) e) (set_versions (fid e) vs st').
Proof.
  intros Hw Hr Hp Ht. destruct (place_free root pond hidden known M st e Hr Hp) as (pe & d & Hpe & Hpt & Hd & _ & Hn).
  unfold create_file_with_id. rewrite (adopt_ok root pond hidden known ids M st e d pe) by done. cbn [mbind outcome_bind wd wd_np].
  change (store_file (fid e) st) with (set_versions (fid e) [] st).
  assert (Hi : exists st3, dir_insert (dirfid pond (parent_node_id e)) (node_name e) (fid e) (set_versions (fid e) [] st) = Ok st3 /\ st_files st3 !! fid e = Some [] /\ typed st3
            /\ exists d, st_dirs st3 !! dirfid pond (parent_node_id e) = Some d /\ d !! node_name e = Some (fid e)).
  { unfold dir_insert in *. cbn [set_versions st_dirs] in *. rewrite Hd in *. rewrite Hn in *. eexists. split; [done|]. cbn. rewrite !lookup_insert_eq. split_and!; [done| |].
    - destruct (rp_typed _ _ _ M st Hr) as [T1 T2 T3]. split; cbn; [|done|done]. intros n x Hx. apply lookup_insert_Some in Hx as [[<- _]|[_ Hx]]; [by eapply T1|by eauto].
    - eexists. split; [done|]. by rewrite lookup_insert_eq. }
  destruct Hi as (st3 & Hi & Hf & Hty & He). rewrite Hi. cbn [mbind outcome_bind mret outcome_ret]. exists st3. split; [done|]. split; [done|]. split; [done|]. split; [done|]. intros vs Hl.
  pose proof (set_versions_stores e vs st (rp_typed _ _ _ M st Hr) Ht Hl) as Hs.
  destruct (insert_represents root pond hidden known ids M st _ e Hw Hr Hp Hs) as (st2 & E & Hr2 & _).
  apply (insert_set_versions _ _ _ (fid e) vs) in Hi. rewrite set_versions_set in Hi. rewrite E in Hi. injection Hi as ->. exact Hr2.
Qed.

Lemma create_symlink M st e target_path :
  wf M -> rep M st -> put M e -> node_type e = Symlink -> of_bytes target_path = node_hash e ->
  exists st', insert_symlink_with_id factory_get (at_ (parent_node_id e)) (node_name e) (U (node_id e)) target_path (replicated_mtime e) st = Ok st'
    /\ rep (upd M (node_id e) e) st'.
Proof.
  intros Hw Hr Hp Ht Hh. destruct (place_free root pond hidden known M st e Hr Hp) as (pe & d & Hpe & Hpt & Hd & _ & Hn).
  unfold insert_symlink_with_id. rewrite (adopt_ok root pond hidden known ids M st e d pe) by done. cbn [mbind outcome_bind wd wd_np].
  assert (Hs : stores pond e st (store_link (fid e) target_path (replicated_mtime e) st)).
  { split; cbn [store_link st_dirs st_files st_links st_dynamic]; [by rewrite Ht, bool_decide_false|done|by intros; rewrite lookup_insert_ne|done| |].
    - destruct (rp_typed _ _ _ M st Hr) as [T1 T2 T3]. split; cbn; [done| |done]. intros n x Hx. apply lookup_insert_Some in Hx as [[<- _]|[_ Hx]]; [|by eauto].
      simpl. rewrite (id_typed known ids _ _ (pl_known _ _ _ M e Hp)). by rewrite Ht.
    - unfold leaf_ok. rewrite Ht. exists target_path. cbn. by rewrite lookup_insert_eq. }
  destruct (insert_represents root pond hidden known ids M st _ e Hw Hr Hp Hs) as (st2 & E & Hr2 & _). by exists st2.
Qed.

Lemma create_dynamic M st e factory config b :
  wf M -> rep M st -> put M e -> is_dynamic (node_type e) = true -> encode_recipe factory config = Ok b -> of_bytes b = node_hash e ->
  exists st', insert_dynamic_with_id factory_get (at_ (parent_node_id e)) (node_name e) (U (node_id e)) factory config (replicated_mtime e) st = Ok st'
    /\ rep (upd M (node_id e) e) st'.
Proof.
  intros Hw Hr Hp Ht Hb Hh. destruct (place_free root pond hidden known M st e Hr Hp) as (pe & d & Hpe & Hpt & Hd & _ & Hn).
  unfold insert_dynamic_with_id. rewrite (adopt_ok root pond hidden known ids M st e d pe) by done. cbn [mbind outcome_bind wd wd_np].
  assert (Hs : stores pond e st (store_dynamic (fid e) factory config (replicated_mtime e) st)).
  { split; cbn [store_dynamic st_dirs st_files st_links st_dynamic]; [|done|done|by intros; rewrite lookup_insert_ne| |].
    - case_bool_decide as Ed; [by rewrite Ed in Ht|done].
    - destruct (rp_typed _ _ _ M st Hr) as [T1 T2 T3]. split; cbn; [done|done|]. intros n x Hx. apply lookup_insert_Some in Hx as [[<- _]|[_ Hx]]; [|by eauto].
      simpl. rewrite (id_typed known ids _ _ (pl_known _ _ _ M e Hp)). eauto.
    - unfold leaf_ok. destruct (node_type e); try done; exists factory, config, b; cbn; by rewrite lookup_insert_eq. }
  destruct (insert_represents root pond hidden known ids M st _ e Hw Hr Hp Hs) as (st2 & E & Hr2 & _). by exists st2.
Qed.
(** ** Writing *)

(** The writer is closed with the metadata of the entry. *)
Lemma finalize_lands name n t b meta st h :
  t <> TablePhysicalSeries -> of_bytes b = h ->
  lands (fun st' => exists x, st' = append_version n x st /\ of_bytes (v_bytes x) = h /\ meta_kept meta x) (finalize_writer name n t b meta st).
Proof using Type.
  intros Ht Hb. unfold finalize_writer. apply (lands_bind (fun temporal => temporal = (fun b => (b.1, b.2, timestamp_column meta)) <$> bounds meta)).
  { destruct (bounds meta) as [[lo hi]|]; [done|]. by rewrite bool_decide_false. }
  intros temporal Et. unfold meta_kept. destruct (extended_attributes meta) as [json_text|]; cbn [mbind outcome_bind].
  - destruct (attributes_from_json json_text) as [m|]; cbn; [|by intros []]. eexists. split; [done|]. split_and!; try done. by eexists.
  - eexists. split; [done|]. by split_and!.
Qed.

Lemma write_version_lands name n t h meta v st :
  t <> TablePhysicalSeries -> planned_version g h meta = Ok v ->
  ends g (fun st' => exists x, st' = append_version n x st /\ of_bytes (v_bytes x) = h /\ meta_kept (default meta_default meta) x) (write_version name n t v st).
Proof.
  unfold planned_version. intros Ht (src & Es & [= <-])%bind_Ok. unfold version_source in Es. apply bind_Ok in Es as ([] & _ & Es).
  assert (Hfinal : forall b, of_bytes b = h -> ends g (fun st' => exists x, st' = append_version n x st /\ of_bytes (v_bytes x) = h /\ meta_kept (default meta_default meta) x)
                     (finalize_writer name n t b (default meta_default meta) st)).
  { intros b Hb. apply ends_lands. by apply finalize_lands. }
  unfold write_version. cbn [pv_source pv_meta]. destruct (fetched_bytes g !! h) as [b|] eqn:Eb.
  - injection Es as <-. apply Hfinal. by apply (ve_bytes g genuine).
  - case_bool_decide as He; [|done]. injection Es as <-. unfold stream_external_blob, ask. pose proof (serves h) as Hs.
    destruct (get_blob_reader h) as [[s|]| |] eqn:Er; cbn [map_err]; [|unfold drop_writer; cbn; by intros []|unfold drop_writer; cbn; by intros []|done].
    destruct (decide (stream_ends s = true /\ of_bytes (stream_bytes s) = h)) as [[-> Eh]|Hn]; [rewrite bool_decide_true by done; cbn; by apply Hfinal|].
    unfold drop_writer. destruct (decide (stream_bytes s = [])) as [Eb'|Eb']; [rewrite (bool_decide_true (stream_bytes s = [])) by done|rewrite (bool_decide_false (stream_bytes s = [])) by done].
    + rewrite Eb' in *. destruct (stream_ends s); cbn [ensure mbind outcome_bind]; [rewrite bool_decide_false by tauto; by intros []|by intros []].
    + assert (set_Exists broken (external_blobs g)) by (exists h; split; [done|]; unfold broken; by rewrite Er).
      destruct (stream_ends s); cbn [ensure mbind outcome_bind]; [by rewrite bool_decide_false by tauto|done].
Qed.
(** A writer finds the file its directory lists. *)
Lemma writer_opens st p n t c d fresh :
  typed st -> st_dirs st !! dirfid pond p = Some d -> d !! n = Some c -> plain_name n -> fid_pond c = pond ->
  id_entry_type (fid_node c) = Ok t -> is_file t = true -> is_dynamic t = false ->
  async_writer_path_with_type factory_get (at_ p) n t fresh st = Ok (c, st).
Proof using Type.
  intros Ht Hpd Hn Hplain Hpond Hty Hf Hd. pose proof (kind_file st c t Ht Hty Hf Hd) as Hk.
  unfold async_writer_path_with_type. rewrite (resolve_child _ _ _ c).
  - cbn [mbind outcome_bind fst snd]. rewrite wd_writable. cbn [mbind outcome_bind]. rewrite Hty, bool_decide_true by done. by rewrite Hk.
  - done.
  - cbn. by eapply kind_dir.
  - cbn. unfold get_entry. by rewrite Hpd, Hn.
  - cbn. by rewrite Hk.
  - done.
Qed.

(** The writer of a represented file finds it by its name. *)
Lemma writer_finds M st st' id e fresh :
  wf M -> rep M st -> M id = Some e -> id <> root -> is_file (node_type e) = true -> is_dynamic (node_type e) = false ->
  st_dirs st' = st_dirs st -> typed st' ->
  async_writer_path_with_type factory_get (at_ (parent_node_id e)) (node_name e) (node_type e) fresh st' = Ok (fid e, st').
Proof.
  intros Hw Hr He Hne Hf Hd Eds Ht. destruct (parent_dir root pond hidden known M st id e Hw Hr He Hne) as (pe & d & Hp & Hpt & Hpd & _ & Hn).
  rewrite <- Eds in Hpd. eapply writer_opens; [done|exact Hpd|done|by apply (wv_name _ _ _ M Hw id)|done|by eapply entry_typed|done|done].
Qed.

(** The entry takes the place of the one represented, and the namespace holds its
    content. *)
Lemma set_versions_refresh M st id m e vs :
  wf M -> rep M st -> M id = Some m -> in_place m e -> leaf_ok pond (set_versions (fid e) vs st) e -> rep (upd M id e) (set_versions (fid e) vs st).
Proof.
  intros Hw Hr Hm Hi Hl. eapply (refresh_represents root pond hidden known ids M m e id st); [done|done|done|done|done| |done|].
  - apply typed_set_versions, (rp_typed _ _ _ M st Hr).
  - intros n Hn. cbn. by rewrite lookup_insert_ne.
Qed.

Lemma kept_refresh M st id m e : wf M -> rep M st -> M id = Some m -> in_place m e -> node_hash m = node_hash e -> node_versions m = node_versions e -> rep (upd M id e) st.
Proof.
  intros Hw Hr Hm Hi Hh Hv. eapply (refresh_represents root pond hidden known ids M m e id st); [done|done|done|done|done| | |done].
  - apply (rp_typed _ _ _ M st Hr).
  - pose proof (rp_leaves _ _ _ M st Hr id m Hm) as Hl. unfold leaf_ok, replicated_mtime in *. pose proof (in_place_fid pond m e Hi) as Ef. destruct Hi as (_ & _ & _ & Et).
    by rewrite Et, Ef, Hh, Hv in Hl.
Qed.

(** A node that is not a directory is replaced under the same name. *)
Lemma replaced_free M st id m e :
  wf M -> rep M st -> M id = Some m -> id <> root -> in_place m e -> node_type e <> DirectoryPhysical ->
  exists st', remove_entry (at_ (parent_node_id e)) (node_name e) st = Ok st' /\ wf (del M id) /\ rep (del M id) st' /\ put (del M id) e
    /\ (forall i, upd (del M id) (node_id e) e i = upd M id e i).
Proof.
  intros Hw Hr Hm Hne Hi Ht. pose proof Hi as (E1 & E2 & E3 & E4).
  assert (Hc : forall i x, M i = Some x -> i <> root -> parent_node_id x <> id).
  { intros i x Hx Hir E. destruct (wv_parent _ _ _ M Hw i x Hx Hir) as (p & Hp & Hpt). rewrite E in Hp. congruence. }
  destruct (remove_represents root pond hidden known ids M st id m Hw Hr Hm Hne Hc) as (st' & Er & Hr' & _). rewrite E2, E3 in Er. exists st'.
  pose proof (wv_key _ _ _ M Hw id m Hm) as Hk. assert (Eid : node_id e = id) by congruence. split_and!; [done|by apply del_wf|done| |].
  - split.
    + by rewrite Eid, del_same.
    + rewrite Eid, <- E4. by apply (wv_known _ _ _ M Hw).
    + destruct (wv_parent _ _ _ M Hw id m Hm Hne) as (p & Hp & Hpt). exists p. rewrite <- E2, del_other; [done|]. by eapply Hc.
    + rewrite <- E2, <- E3. by apply (wv_name _ _ _ M Hw id).
    + intros i x Hx Hir Hxp Hxn. unfold del in Hx. case_bool_decide as Ei; [done|]. apply Ei. eapply (wv_sib _ _ _ M Hw); [done|done|done|done| |]; congruence.
  - intros i. rewrite Eid. unfold upd, del. by case_bool_decide.
Qed.
(** ** One child *)

(** The child is new and has a place, or has its twin in place. *)
Definition ready (M : view) (e : ManifestEntry) : Prop :=
  match tp_nodes target !! node_id e with
  | None => put M e
  | Some t => exists m, M (node_id e) = Some m /\ in_place m e /\ node_hash m = node_hash t /\ node_versions m = node_versions t
  end.

Definition kid_done (need : list bytes) (M : view) (a : apply_state) (e : ManifestEntry) (a' : apply_state) : Prop :=
  rep (upd M (node_id e) e) (ap_store a')
  /\ ap_wds a' = (if bool_decide (node_type e = DirectoryPhysical) then <[node_id e := at_ (node_id e)]> (ap_wds a) else ap_wds a)
  /\ balanced need (ap_prepared a').

Lemma ready_known M e : wf M -> ready M e -> known (node_id e) = Some (node_type e).
Proof using Type.
  intros Hw. unfold ready. destruct (tp_nodes target !! node_id e) as [t|].
  - intros (m & Hm & (_ & _ & _ & E) & _). rewrite <- E. by apply (wv_known _ _ _ M Hw).
  - apply pl_known.
Qed.

Lemma ready_parses M e : wf M -> ready M e -> parse_node_id (node_id e) = Ok (U (node_id e)).
Proof.
  intros Hw Hr. unfold parse_node_id. by rewrite (id_parses known ids _ _ (ready_known M e Hw Hr)).
Qed.

Section OneKid.
Variables (M : view) (a : apply_state) (e : ManifestEntry) (ops : list ApplyOp) (need : list bytes).
Hypotheses (Hw : wf M) (Hr : rep M (ap_store a)) (Hrd : ready M e) (Hne : node_id e <> root) (Hin : e ∈ graph_manifest g).
Hypothesis Hwd : ap_wds a !! parent_node_id e = Some (at_ (parent_node_id e)).
Hypothesis Hplan : plan_one g target e = Ok ops.
Hypothesis Hbal : balanced (ops_objects g ops ++ need) (ap_prepared a).

#[local] Abbreviation goes := (ends g (kid_done need M a e) (fold_pres (apply_op (at_ root) g) ops a)).

Lemma parent_wd_ok : parent_wd (ap_wds a) (parent_node_id e) = Ok (at_ (parent_node_id e)).
Proof using Hwd. unfold parent_wd. by rewrite Hwd. Qed.

(** Only a series uses pack objects. *)
Lemma spares : ~ series_type (node_type e) -> balanced need (ap_prepared a).
Proof using Hplan Hbal.
  intros Hs. enough (E : ops_objects g ops = []) by (by rewrite E in Hbal). pose proof Hplan as E. unfold plan_one in E. apply bind_Ok in E as ([] & _ & E).
  destruct (node_type e) eqn:Ht; try (by destruct Hs; unfold series_type; auto);
    first [by injection E as <- | apply bind_Ok in E as (vs & _ & E); by injection E as <- | destruct (needs_write _ _); [|by injection E as <-]];
    apply bind_Ok in E as (b & _ & E); apply bind_Ok in E as (x & _ & E); by injection E as <-.
Qed.

(** What the represented twin of a series holds. *)
Lemma twin_versions m : series_type (node_type e) -> M (node_id e) = Some m -> in_place m e ->
  exists vs, st_files (ap_store a) !! fid e = Some vs /\ series_versions (node_type e) vs (leaves_of (node_hash m)).
Proof using Hr.
  intros Hs Hm Hi. pose proof (rp_leaves _ _ _ M _ Hr _ m Hm) as Hl. pose proof (in_place_fid pond m e Hi) as Ef. destruct Hi as (_ & _ & _ & Eq). unfold leaf_ok in Hl.
  rewrite Eq, Ef in Hl. by destruct Hs as [Hs|Hs]; rewrite Hs in *.
Qed.

Lemma leaf_series vs st : series_type (node_type e) -> series_versions (node_type e) vs (leaves_of (node_hash e)) -> st_files st !! fid e = Some vs -> leaf_ok pond st e.
Proof using Type. intros Ht Hv Hf. unfold leaf_ok. destruct Ht as [Ht|Ht]; rewrite Ht in *; by exists vs. Qed.

(** No operation: the twin has the same hash and metadata, or is a series with
    the same leaves. *)
Lemma kid_kept t : tp_nodes target !! node_id e = Some t ->
  needs_write e (Some t) = false \/ (series_type (node_type e) /\ leaves_of (node_hash t) = leaves_of (node_hash e)) ->
  rep (upd M (node_id e) e) (ap_store a).
Proof using ids genuine serves laws packed completes Hw Hr Hrd.
  intros Et Hn. pose proof Hrd as Hrd'. unfold ready in Hrd'. rewrite Et in Hrd'. destruct Hrd' as (m & Hm & Hi & Hh & Hv). destruct Hn as [Hn|[Hs El]].
  - unfold needs_write in Hn. apply orb_false_iff in Hn as [Hn1%negb_false_iff%bool_decide_eq_true Hn2%negb_false_iff%bool_decide_eq_true].
    eapply kept_refresh; [done|done|done|done|congruence|congruence].
  - eapply (refresh_represents root pond hidden known ids M m e (node_id e) (ap_store a)); [done|done|done|done|done| | |done].
    + apply (rp_typed _ _ _ M _ Hr).
    + destruct (twin_versions m Hs Hm Hi) as (vs & Hf & Hvs). rewrite Hh, El in Hvs. by eapply leaf_series.
Qed.

Lemma kid_directory : node_type e = DirectoryPhysical -> goes.
Proof.
  intros Ht. pose proof (spares ltac:(rewrite Ht; by intros [|])) as Hb. pose proof Hplan as E. unfold plan_one in E. apply bind_Ok in E as ([] & _ & E). rewrite Ht in E. injection E as <-. cbn [fold_pres].
  apply (ends_bind (kid_done need M a e)); [|done]. unfold apply_op. rewrite parent_wd_ok. cbn [mbind outcome_bind]. unfold is_create, kid_done.
  rewrite (bool_decide_true (node_type e = _)) by done. pose proof Hrd as Hrd'. unfold ready in Hrd'. destruct (tp_nodes target !! node_id e) as [t|].
  - destruct Hrd' as (m & Hm & Hi & _). pose proof Hi as (E1 & E2 & E3 & E4). rewrite bool_decide_false by done.
    destruct (parent_dir root pond hidden known M _ _ m Hw Hr Hm Hne) as (pe & d & Hp & Hpt & Hpd & _ & Hn). rewrite E2, E3 in *.
    destruct (rp_dirs _ _ _ M _ Hr _ m Hm ltac:(congruence)) as (dd & Hdd & _). pose proof (rp_typed _ _ _ M _ Hr) as Hty.
    rewrite (open_child _ _ _ (fid m)).
    + cbn. rewrite dirfid_entry by congruence. rewrite E1. split_and!; [|done|done]. eapply (refresh_represents root pond hidden known ids M m e (node_id e) (ap_store a)); try done.
      unfold leaf_ok. by rewrite Ht.
    + rewrite <- E3. by apply (wv_name _ _ _ M Hw (node_id e)).
    + cbn. by eapply kind_dir.
    + cbn. unfold get_entry. by rewrite Hpd, Hn.
    + cbn. rewrite dirfid_entry by congruence. rewrite E1. by eapply kind_dir.
    + done.
  - rewrite bool_decide_true by done. rewrite (ready_parses M e Hw Hrd). cbn [mbind outcome_bind].
    destruct (create_directory M (ap_store a) e Hw Hr Hrd' Ht) as (st' & -> & Hr'). cbn. split; [done|]. done.
Qed.
Lemma leaf_file vs x st :
  node_type e = FilePhysicalVersion \/ node_type e = TablePhysicalVersion -> of_bytes (v_bytes x) = node_hash e -> meta_kept (default meta_default (head (node_versions e))) x ->
  leaf_ok pond (set_versions (fid e) (vs ++ [x]) st) e.
Proof using Type.
  intros Ht Hx Hm. unfold leaf_ok. destruct Ht as [-> | ->]; (exists (vs ++ [x]), x; cbn; rewrite lookup_insert_eq; split_and!; [done|by rewrite last_snoc|done|done..]).
Qed.

Lemma kid_file : node_type e = FilePhysicalVersion \/ node_type e = TablePhysicalVersion -> goes.
Proof.
  intros Ht. pose proof (spares ltac:(by destruct Ht as [-> | ->]; intros [|])) as Hb. assert (Hd : node_type e <> DirectoryPhysical /\ is_file (node_type e) = true /\ is_dynamic (node_type e) = false) by (by destruct Ht as [-> | ->]).
  destruct Hd as (Hd & Hf & Hdy). pose proof Hplan as E. unfold plan_one in E. apply bind_Ok in E as ([] & _ & E).
  assert (Hnt : node_type e <> TablePhysicalSeries) by (by destruct Ht as [-> | ->]).
  assert (Ev : exists vs, (if needs_write e (tp_nodes target !! node_id e) then v ← planned_version g (node_hash e) (head (node_versions e)); mret [v] else Ok []) = Ok vs
    /\ ops = [OpFile (parent_node_id e) (node_name e) (node_id e) (is_create (tp_nodes target !! node_id e)) (node_type e) vs]).
  { destruct Ht as [Ht|Ht]; rewrite Ht in E |- *; apply bind_Ok in E as (vs & Ev & E); injection E as <-; by exists vs. }
  clear E. destruct Ev as (vs & Ev & ->). cbn [fold_pres]. apply (ends_bind (kid_done need M a e)); [|done]. unfold apply_op. rewrite parent_wd_ok.
  cbn [mbind outcome_bind]. unfold is_create. pose proof Hrd as Hrd'. unfold ready in Hrd'. destruct (tp_nodes target !! node_id e) as [t|] eqn:Et.
  - rewrite bool_decide_false by done. cbn [mbind outcome_bind fst snd]. destruct Hrd' as (m & Hm & Hi & Hh & _). pose proof Hi as (E1 & E2 & E3 & E4).
    destruct (needs_write e (Some t)) eqn:En.
    + apply bind_Ok in Ev as (v & Ev & [= <-]). cbn [write_remaining].
      pose proof (writer_finds M (ap_store a) (ap_store a) (node_id e) m generated_id Hw Hr Hm Hne) as Hwf. rewrite E2, E3, E4 in Hwf. rewrite Hwf; [|done|done|done|apply (rp_typed _ _ _ M _ Hr)].
      cbn [fs map_err mbind outcome_bind fst snd]. rewrite (in_place_fid pond m e Hi).
      apply (ends_bind (fun st' => rep (upd M (node_id e) e) st')).
      * apply (ends_bind (fun st' => rep (upd M (node_id e) e) st')); [|done]. eapply ends_impl; [by eapply write_version_lands|]. intros st' (x & -> & Hx & Hmk).
        rewrite append_set. eapply set_versions_refresh; [done|done|done|done|]. by apply leaf_file.
      * intros st' Hr'. cbn. unfold kid_done. by rewrite bool_decide_false.
    + injection Ev as <-. cbn. unfold kid_done. rewrite bool_decide_false by done. split_and!; [|done|done]. by apply (kid_kept t); [|left].
  - rewrite bool_decide_true by done. cbn [needs_write] in Ev. apply bind_Ok in Ev as (v & Ev & [= <-]). cbn [needs_write]. rewrite (ready_parses M e Hw Hrd).
    cbn [mbind outcome_bind]. destruct (create_file M (ap_store a) e Hw Hr Hrd' Hd) as (st1 & -> & Hf1 & _ & _ & Hr1). cbn [fs map_err mbind outcome_bind fst snd].
    apply (ends_bind (fun r => r.1 = [] /\ rep (upd M (node_id e) e) r.2)).
    + apply (ends_bind (fun st' => rep (upd M (node_id e) e) st')); [|done]. eapply ends_impl; [by eapply write_version_lands|]. intros st' (x & -> & Hx & Hmk).
      rewrite append_set, Hf1. apply Hr1. by apply leaf_file.
    + intros [rem st'] [-> Hr']. cbn. unfold kid_done. by rewrite bool_decide_false.
Qed.
(** The leaves before and after. *)
#[local] Abbreviation kept_leaves := (default [] ((fun t => leaves_of (node_hash t)) <$> tp_nodes target !! node_id e)).

Definition suffix_planned (s : FetchedSeriesV2) (from : Z) : Prop :=
  series g !! node_hash e = Some s /\ (fetched_start s <= from)%Z /\ (tp_nodes target !! node_id e = None -> from = 0%Z)
  /\ kept_leaves ++ drop (Z.to_nat (from - fetched_start s)) (fetched_leaves s) = leaves_of (node_hash e).

(** A series is left as it is, or its missing leaves are planned. *)
Lemma series_planned : series_type (node_type e) ->
  (ops = [] /\ exists t, tp_nodes target !! node_id e = Some t /\ (needs_write e (Some t) = false \/ leaves_of (node_hash t) = leaves_of (node_hash e)))
  \/ exists s from, suffix_planned s from
    /\ ops = [OpSeriesV2 (parent_node_id e) (node_name e) (node_id e) (is_create (tp_nodes target !! node_id e)) (node_type e) (node_hash e) from (replicated_mtime e)].
Proof using Hplan Hbal completes packed Hin.
  intros Ht. pose proof Hplan as E. unfold plan_one in E. apply bind_Ok in E as ([] & _ & E).
  destruct (needs_write e (tp_nodes target !! node_id e)) eqn:En.
  2: { left. destruct (tp_nodes target !! node_id e) as [t|]; [|done]. split; [destruct Ht as [Ht|Ht]; rewrite Ht in E; by injection E as <-|]. exists t. split; [done|by left]. }
  assert (E' : (s ← series_v2 g (node_hash e); from ← plan_series_v2_leaves e s (tp_leaves target) (tp_manifests target) (node_hash <$> tp_nodes target !! node_id e);
      mret (if is_create (tp_nodes target !! node_id e) || (from <? sm_leaf_count (manifest s))%Z
            then [OpSeriesV2 (parent_node_id e) (node_name e) (node_id e) (is_create (tp_nodes target !! node_id e)) (node_type e) (node_hash e) from (replicated_mtime e)] else [])) = Ok ops)
    by (destruct Ht as [Ht|Ht]; by rewrite Ht in E |- *).
  apply bind_Ok in E' as (s & Es%require_Ok & E'). apply bind_Ok in E' as (from & Hfrom & E'). injection E' as <-. pose proof (completes e s from Hin Ht Es Hfrom) as [Hle Hc].
  unfold suffix_planned. pose proof (wp_leaves s (packed _ _ Es)) as Hl. unfold is_create in *. destruct (tp_nodes target !! node_id e) as [t|].
  - rewrite bool_decide_false by done. cbn [orb]. destruct (Z.ltb_spec from (sm_leaf_count (manifest s))); [right; exists s, from; by split_and!|left]. split; [done|]. exists t. split; [done|]. right.
    rewrite <- Hc. cbn. rewrite drop_ge by lia. by rewrite app_nil_r.
  - right. exists s, from. split_and!; try done. intros _. cbn [fmap option_fmap option_map plan_series_v2_leaves] in Hfrom. apply bind_Ok in Hfrom as ([] & _ & Hfrom). by injection Hfrom.
Qed.

(** The written leaves are those of the suffix. *)
Lemma leaves_written s from mtime vs :
  series_type (node_type e) -> (fetched_start s <= from)%Z -> well_packed s -> (from + Z.of_nat (length vs) = total_leaves s)%Z ->
  (forall i v, vs !! i = Some v -> leaf_version s mtime (node_type e) (from + Z.of_nat i) v) ->
  Forall2 (leaf_of (node_type e)) vs (drop (Z.to_nat (from - fetched_start s)) (fetched_leaves s)).
Proof using Type.
  intros Ht Hle Hp Hlen Hvs. pose proof (wp_leaves s Hp) as Hl. unfold total_leaves in Hlen. apply Forall2_same_length_lookup_2; [rewrite length_drop; lia|].
  intros i v h Hv Hh. rewrite lookup_drop in Hh. destruct (Hvs i v Hv) as (_ & d & h' & [Hs' Hh'] & Hd).
  replace (Z.to_nat (from + Z.of_nat i - fetched_start s)) with (Z.to_nat (from - fetched_start s) + i)%nat in Hh' by lia. assert (h' = h) as -> by congruence.
  exists d. destruct (bool_decide (node_type e = TablePhysicalSeries)); [|done]. destruct Hd as [Hb Hd]. split; [by eexists|done].
Qed.

Lemma versions_appended vs vs' l l' : series_versions (node_type e) vs l -> Forall2 (leaf_of (node_type e)) vs' l' -> series_versions (node_type e) (vs ++ vs') (l ++ l').
Proof using Type. intros (blank & rest & -> & Hb & Hf) Hf'. exists blank, (rest ++ vs'). split; [by rewrite app_assoc|]. split; [done|]. by apply Forall2_app. Qed.

(** Materialization brings the represented entry up to date. *)
Lemma series_brought s from :
  series_type (node_type e) -> suffix_planned s from -> balanced (series_objects from s ++ need) (ap_prepared a) ->
  ends g (fun r => rep (upd M (node_id e) e) r.2 /\ balanced need r.1)
    (materialize_series_v2 (at_ (parent_node_id e)) (node_name e) (U (node_id e)) (is_create (tp_nodes target !! node_id e)) s from (replicated_mtime e) (node_type e) (ap_prepared a) (ap_store a)).
Proof using ids genuine serves laws packed completes Hw Hr Hrd Hne.
  intros Ht (Es & Hle & Hz & Hc) Hb. assert (Hd : node_type e <> DirectoryPhysical /\ is_file (node_type e) = true /\ is_dynamic (node_type e) = false) by (by destruct Ht as [-> | ->]).
  destruct Hd as (Hd & Hf & Hdy). pose proof (packed _ _ Es) as Hp. pose proof (wp_leaves s Hp) as Hl. pose proof (wp_start s Hp) as Hst.
  pose proof (fun vs => leaves_written s from (replicated_mtime e) vs Ht Hle Hp) as Hwritten.
  assert (H0' : total_leaves s = 0%Z -> drop (Z.to_nat (from - fetched_start s)) (fetched_leaves s) = []) by (unfold total_leaves; intros; apply drop_ge; lia).
  unfold is_create. pose proof Hrd as Hrd'. unfold ready in Hrd'. destruct (tp_nodes target !! node_id e) as [t|] eqn:Et; cbn [fmap option_fmap option_map default from_option] in Hc.
  - rewrite bool_decide_false by done. destruct Hrd' as (m & Hm & Hi & Hh & _). pose proof Hi as (E1 & E2 & E3 & E4). pose proof (rp_typed _ _ _ M _ Hr) as Hty.
    assert (Hfind : forall st', st_dirs st' = st_dirs (ap_store a) -> typed st' ->
      async_writer_path_with_type factory_get (at_ (parent_node_id e)) (node_name e) (node_type e) generated_id st' = Ok (fid e, st')).
    { intros st' Ed Hty'. pose proof (writer_finds M (ap_store a) st' (node_id e) m generated_id Hw Hr Hm Hne) as Hwf. rewrite E2, E3, E4, (in_place_fid pond m e Hi) in Hwf. by apply Hwf. }
    assert (Hkept : drop (Z.to_nat (from - fetched_start s)) (fetched_leaves s) = [] -> rep (upd M (node_id e) e) (ap_store a)).
    { intros En. rewrite En, app_nil_r in Hc. apply (kid_kept t Et). by right. }
    eapply ends_impl; [apply ends_lands; eapply (materialize_written _ _ _ false s from _ _ (fid e) (ap_store a) (ap_store a)); [done|done|done|..|exact Ht|exact Hb]|].
    + intros vs. apply Hfind; [done|by apply typed_set_versions].
    + intros _. by apply Hfind.
    + intros r [Hbr Hm']. split; [|done]. unfold materialized in Hm'. destruct (Z.eqb_spec (total_leaves s) 0) as [E0|E0]; [rewrite Hm'; by apply Hkept, H0'|].
      destruct Hm' as (vs & Hlen & Hvers & Hvs). pose proof (Hwritten vs Hlen Hvers) as Hf2. destruct vs as [|v vs]; [rewrite Hvs; apply Hkept; by inversion Hf2|].
      destruct (twin_versions m Ht Hm Hi) as (vs0 & Hf0 & Hv0). unfold held in Hvs. rewrite Hf0 in Hvs. rewrite Hvs. eapply set_versions_refresh; [done|done|done|done|].
      eapply leaf_series; [done| |cbn; apply lookup_insert_eq]. rewrite <- Hc, <- Hh. by apply versions_appended.
  - rewrite bool_decide_true by done. destruct (create_file M (ap_store a) e Hw Hr Hrd' Hd) as (st1 & Ec & Hf1 & Hty1 & (d1 & Hd1 & He1) & Hr1). specialize (Hz eq_refl).
    assert (Hleaf : forall vs, series_versions (node_type e) vs (leaves_of (node_hash e)) -> rep (upd M (node_id e) e) (set_versions (fid e) vs st1)).
    { intros vs Hvs. apply Hr1. eapply leaf_series; [done|exact Hvs|cbn; apply lookup_insert_eq]. }
    eapply ends_impl; [apply ends_lands; eapply (materialize_written _ _ _ true s from _ _ (fid e) (ap_store a) st1); [done|done|exact Ec| |done|exact Ht|exact Hb]|].
    + intros vs'. eapply writer_opens; [by apply typed_set_versions|exact Hd1|done|by apply (pl_name root hidden known M e Hrd')|done| |done|done].
      cbn. apply (id_typed known ids). exact (pl_known root hidden known M e Hrd').
    + intros r [Hbr Hm']. split; [|done]. unfold materialized, held in Hm'. rewrite Hf1 in Hm'. cbn [default from_option id app] in Hm'. destruct (Z.eqb_spec (total_leaves s) 0) as [E0|E0].
      * rewrite Hm'. apply Hleaf. rewrite <- Hc, (H0' E0). eexists [_], []. split; [done|]. split; [right; by eexists|constructor].
      * destruct Hm' as (vs & Hlen & Hvers & Hvs). pose proof (Hwritten vs Hlen Hvers) as Hf2. destruct vs as [|v vs]; [cbn in Hlen; lia|]. rewrite Hvs. apply Hleaf.
        rewrite <- Hc. exists [], (v :: vs). split; [done|]. split; [by left|done].
Qed.

Lemma kid_series : series_type (node_type e) -> goes.
Proof.
  intros Ht. assert (Hd : node_type e <> DirectoryPhysical) by (by destruct Ht as [-> | ->]).
  pose proof Hbal as Hb. destruct (series_planned Ht) as [[Eo (t & Et & Hs)]|(s & from & Hs & Eo)]; rewrite Eo in Hb |- *.
  { cbn. unfold kid_done. rewrite bool_decide_false by done. split_and!; [|done|exact Hb]. apply (kid_kept t Et). destruct Hs; [by left|by right]. }
  pose proof (proj1 Hs) as Es. unfold ops_objects in Hb. cbn [map concat op_objects] in Hb. rewrite Es, app_nil_r in Hb.
  cbn [fold_pres]. apply (ends_bind (kid_done need M a e)); [|done]. unfold apply_op. rewrite parent_wd_ok. cbn [mbind outcome_bind]. unfold series_v2 at 1. rewrite Es.
  cbn [require mbind outcome_bind]. rewrite (ready_parses M e Hw Hrd). cbn [mbind outcome_bind]. eapply ends_bind; [by apply (series_brought s from)|].
  intros r [Hr' Hb']. cbn. unfold kid_done. by rewrite bool_decide_false.
Qed.
(** A link or a dynamic node is created, or removed and created again. *)
Lemma replaced (insert : uuid -> fs_store -> fres fs_store) :
  node_type e <> DirectoryPhysical -> balanced need (ap_prepared a) ->
  (forall M' st, wf M' -> rep M' st -> put M' e -> exists st', insert (U (node_id e)) st = Ok st' /\ rep (upd M' (node_id e) e) st') ->
  ends g (kid_done need M a e)
    (st ← (if is_create (tp_nodes target !! node_id e) then Ok (ap_store a) else fs (remove_entry (at_ (parent_node_id e)) (node_name e) (ap_store a)));
     id ← parse_node_id (node_id e);
     st ← fs (insert id st); mret (with_store a st)).
Proof using Type*.
  intros Hd Hb Hins. unfold is_create. rewrite (ready_parses M e Hw Hrd). pose proof Hrd as Hrd'. unfold ready in Hrd'.
  destruct (tp_nodes target !! node_id e) as [t|]; [rewrite bool_decide_false by done|rewrite bool_decide_true by done].
  - destruct Hrd' as (m & Hm & Hi & _). destruct (replaced_free M (ap_store a) (node_id e) m e Hw Hr Hm Hne Hi Hd) as (st' & -> & Hw' & Hr' & Hp' & He).
    cbn [fs map_err mbind outcome_bind]. destruct (Hins _ _ Hw' Hr' Hp') as (st2 & -> & Hr2). cbn. unfold kid_done. rewrite bool_decide_false by done.
    split_and!; [|done|done]. eapply represents_ext; [exact He|done].
  - cbn [mbind outcome_bind]. destruct (Hins _ _ Hw Hr Hrd') as (st2 & -> & Hr2). cbn. unfold kid_done. by rewrite bool_decide_false.
Qed.

Lemma kid_unwritten : needs_write e (tp_nodes target !! node_id e) = false -> node_type e <> DirectoryPhysical -> ops = [] -> goes.
Proof.
  intros En Hd Eo. pose proof Hbal as Hb. rewrite Eo in Hb |- *. cbn. unfold kid_done. rewrite bool_decide_false by done. split_and!; [|done|exact Hb].
  destruct (tp_nodes target !! node_id e) as [t|] eqn:Et; [|done]. by apply (kid_kept t); [|left].
Qed.

Lemma blob_bytes_hash h b : blob_bytes g h = Ok b -> of_bytes b = h.
Proof.
  unfold blob_bytes. intros (u & _ & E)%bind_Ok. destruct (fetched_bytes g !! h) as [b'|] eqn:Eb; [|by destruct (bool_decide _)].
  injection E as <-. by apply (ve_bytes g genuine).
Qed.

Lemma kid_symlink : node_type e = Symlink -> goes.
Proof.
  intros Ht. assert (Hd : node_type e <> DirectoryPhysical) by (by rewrite Ht). pose proof Hplan as E. unfold plan_one in E. apply bind_Ok in E as ([] & _ & E). rewrite Ht in E.
  destruct (needs_write _ _) eqn:En; [|injection E as E; by apply kid_unwritten].
  apply bind_Ok in E as (b & Hb%blob_bytes_hash & E). apply bind_Ok in E as (u & _ & E). injection E as E. rewrite <- E. cbn [fold_pres].
  apply (ends_bind (kid_done need M a e)); [|done]. unfold apply_op. rewrite parent_wd_ok. cbn [mbind outcome_bind].
  apply (replaced (fun id => insert_symlink_with_id factory_get (at_ (parent_node_id e)) (node_name e) id b (replicated_mtime e))); [done|apply spares; rewrite Ht; by intros [|]|]. intros M' st' Hw' Hr' Hp'. by apply create_symlink.
Qed.

Lemma kid_dynamic : is_dynamic (node_type e) = true -> goes.
Proof.
  intros Ht. assert (Hd : node_type e <> DirectoryPhysical) by (intros Ed; by rewrite Ed in Ht).
  pose proof Hplan as E. unfold plan_one in E. apply bind_Ok in E as ([] & _ & E).
  assert (E' : (if needs_write e (tp_nodes target !! node_id e) then
        b ← blob_bytes g (node_hash e);
        recipe ← content (decode_recipe b);
        mret [OpDynamic (parent_node_id e) (node_name e) (node_id e) (is_create (tp_nodes target !! node_id e)) recipe.1 recipe.2 (replicated_mtime e)]
      else Ok []) = Ok ops) by (by destruct (node_type e)). clear E. rename E' into E.
  destruct (needs_write _ _) eqn:En; [|injection E as E; by apply kid_unwritten].
  apply bind_Ok in E as (b & Hb%blob_bytes_hash & E). apply bind_Ok in E as ([f c] & [_ Hc]%pull_content_Ok%recipe_codec & E). injection E as E. rewrite <- E. cbn [fold_pres fst snd].
  apply (ends_bind (kid_done need M a e)); [|done]. unfold apply_op. rewrite parent_wd_ok. cbn [mbind outcome_bind].
  apply (replaced (fun id => insert_dynamic_with_id factory_get (at_ (parent_node_id e)) (node_name e) id f c (replicated_mtime e))); [done|apply spares; intros [Es|Es]; by rewrite Es in Ht|]. intros M' st' Hw' Hr' Hp'. by eapply create_dynamic.
Qed.

(** The operations of a child that is ready leave the entry in its place. *)
Lemma kid_applied : goes.
Proof.
  destruct (node_type e) eqn:Ht; first
    [by apply kid_directory | by apply kid_symlink | by apply kid_file; rewrite Ht; auto | by apply kid_series; rewrite Ht; unfold series_type; auto | by apply kid_dynamic; rewrite Ht].
Qed.
End OneKid.
End Kids.
