(* ===== verification/PullStages.v ===== *)
(** The order of a plan: the breadth-first walk of the source's directories takes
    every directory once, after the one that holds it, and every child of the
    source is planned; then the namespace between the stages of its application. *)

From stdpp Require Import base list gmap numbers strings sorting options.
From Stdlib Require Import ZArith Lia.
From S2P Require Import Prelude RustStd RustText EntryType TinyFs Wire CanonicalJson Tree Manifest Commit SeriesMerkle SeriesManifest SeriesPack Publication PullGraph PullChain PullSeries PullRenames PullPlan PullApply PullView TinyFsSpec PullFetch PullApplySpec.

(** A manifest by node identity, and the source's. *)
Definition view_of (l : list ManifestEntry) : view := fun i => snd <$> list_find (fun e => node_id e = i) l.
Definition source_view (g : FetchedGraph) : view := view_of (graph_manifest g).

Lemma same_entry (l : list ManifestEntry) e1 e2 : NoDup (map node_id l) -> e1 ∈ l -> e2 ∈ l -> node_id e1 = node_id e2 -> e1 = e2.
Proof.
  intros Hn [i Hi]%list_elem_of_lookup [j Hj]%list_elem_of_lookup E. assert (i = j) as ->; [|congruence].
  apply (NoDup_lookup (map node_id l) i j (node_id e1)); [done| |]; rewrite list_lookup_fmap; [by rewrite Hi|by rewrite Hj, E].
Qed.

Lemma view_of_Some l i e : NoDup (map node_id l) -> view_of l i = Some e <-> e ∈ l /\ node_id e = i.
Proof.
  intros Hn. unfold view_of. split.
  - intros ([j x] & Hf & ->)%fmap_Some. apply list_find_Some in Hf as (Hl & Hi & _). split; [by eapply list_elem_of_lookup_2|done].
  - intros [He Hi]. destruct (list_find _ _) as [[j x]|] eqn:Hf; simpl.
    2: { apply list_find_None in Hf. rewrite Forall_forall in Hf. by destruct (Hf e He). }
    f_equal. apply list_find_Some in Hf as (Hl & Hx & _). apply (same_entry l); [done|by eapply list_elem_of_lookup_2|done|congruence].
Qed.

Lemma elem_of_concat_map {A B} (f : A -> list B) (l : list A) x : x ∈ concat (map f l) <-> exists a, a ∈ l /\ x ∈ f a.
Proof.
  induction l as [|a l IH]; cbn [map concat]; [set_solver|]. rewrite elem_of_app, IH. set_solver.
Qed.

Section Schedule.
Context `{Blake3}.
#[local] Set Default Proof Using "Type*".
Variables (root : bytes) (g : FetchedGraph) (target : TargetPlanningState).
Hypothesis keyed : NoDup (map node_id (graph_manifest g)).

#[local] Abbreviation src := (source_view g).
#[local] Abbreviation kids := (sorted_kids g root).

Lemma source_Some i e : src i = Some e <-> e ∈ graph_manifest g /\ node_id e = i.
Proof. by apply view_of_Some. Qed.

Lemma elem_of_kids p e : e ∈ kids p <-> src (node_id e) = Some e /\ node_id e <> root /\ parent_node_id e = p.
Proof.
  unfold sorted_kids, kids_of. rewrite sort_by_perm, list_elem_of_filter, source_Some. naive_solver.
Qed.

Lemma kids_nodup p : NoDup (map node_id (kids p)).
Proof.
  unfold sorted_kids, kids_of. rewrite (sort_by_perm name_cmp). apply NoDup_fmap_2_strong.
  - intros e1 e2 [_ H1]%list_elem_of_filter [_ H2]%list_elem_of_filter. by apply (same_entry (graph_manifest g)).
  - apply NoDup_filter. by eapply NoDup_fmap_1.
Qed.

(** The directories among the children. *)
Definition subdirs (p : bytes) : list bytes := map node_id (filter (fun e => node_type e = DirectoryPhysical) (kids p)).

Lemma elem_of_subdirs p q : q ∈ subdirs p <-> exists e, src q = Some e /\ q <> root /\ parent_node_id e = p /\ node_type e = DirectoryPhysical.
Proof.
  unfold subdirs. rewrite list_elem_of_fmap. split.
  - intros (e & -> & [Ht (Hs & Hr & Hp)%elem_of_kids]%list_elem_of_filter). by exists e.
  - intros (e & Hs & Hr & Hp & Ht). pose proof Hs as [_ Hi]%source_Some. exists e. split; [done|]. apply list_elem_of_filter. split; [done|].
    apply elem_of_kids. by rewrite Hi.
Qed.

Lemma subdirs_nodup p : NoDup (subdirs p).
Proof.
  unfold subdirs. apply NoDup_fmap_2_strong.
  - intros e1 e2 [_ (H1 & _)%elem_of_kids]%list_elem_of_filter [_ (H2 & _)%elem_of_kids]%list_elem_of_filter E. rewrite E in H1. congruence.
  - apply NoDup_filter. by eapply NoDup_fmap_1, kids_nodup.
Qed.

Lemma walk_nodup (ps : list bytes) : NoDup ps -> NoDup (root :: concat (map subdirs ps)).
Proof.
  intros Hn. apply NoDup_cons. split.
  - intros (p & _ & Hr)%elem_of_concat_map. apply elem_of_subdirs in Hr as (e & _ & ? & _). done.
  - induction Hn as [|p ps Hp Hn IH]; [constructor|]. cbn [map concat]. apply NoDup_app. split_and!; [apply subdirs_nodup| |done].
    intros q (e & Hs & _ & He & _)%elem_of_subdirs (p' & Hp' & Hq)%elem_of_concat_map.
    apply elem_of_subdirs in Hq as (e' & Hs' & _ & He' & _). assert (p = p') as -> by congruence. done.
Qed.

Definition planned (p : bytes) (ops : list ApplyOp) : Prop := plan_directory g target p (kids p) = Ok ops.

(** What the walk does from a queue, [ps] being the directories taken before. *)
Lemma queue_schedule (fuel : nat) ps queue o r :
  plan_queue g target fuel root queue o = Ok r -> ps ++ queue = root :: concat (map subdirs ps) -> NoDup ps ->
  exists qs opss, Forall2 planned qs opss /\ r.1 = concat opss /\ ps ++ qs = root :: concat (map subdirs (ps ++ qs)) /\ NoDup (ps ++ qs)
    /\ (forall q1 q q2, qs = q1 ++ q :: q2 -> q = root \/ exists p, p ∈ ps ++ q1 /\ q ∈ subdirs p).
Proof.
  revert ps queue o r. induction fuel as [|fuel IH]; intros ps queue o r E Hq Hn; destruct queue as [|p queue]; cbn [plan_queue] in E; try done.
  1, 2: injection E as <-; exists [], []; rewrite app_nil_r in *; split_and!; try done; intros q1 q q2 Hqs; by destruct q1.
  apply bind_Ok in E as (ops & Hops & E). apply bind_Ok in E as (rest & Hrest & E). injection E as <-.
  assert (Hn' : NoDup (ps ++ [p])).
  { pose proof (walk_nodup ps Hn) as Hw. rewrite <- Hq in Hw. rewrite cons_middle, app_assoc in Hw. by apply NoDup_app in Hw as (? & _). }
  destruct (IH (ps ++ [p]) _ _ _ Hrest) as (qs & opss & Hf & Er & Hfix & Hnd & Hord).
  - rewrite map_app, concat_app. cbn [map concat]. rewrite app_nil_r, <- app_assoc. cbn [app]. fold (subdirs p).
    rewrite (app_comm_cons queue). rewrite app_assoc. rewrite Hq. done.
  - done.
  - rewrite <- app_assoc in Hfix, Hnd. cbn [app] in Hfix, Hnd. exists (p :: qs), (ops :: opss). split_and!.
    + by constructor.
    + cbn [fst concat]. by rewrite Er.
    + done.
    + done.
    + intros q1 q q2 Hqs. destruct q1 as [|q0 q1]; injection Hqs as -> Hqs.
      * rewrite app_nil_r. assert (Hin : q ∈ root :: concat (map subdirs ps)) by (rewrite <- Hq; set_solver).
        apply elem_of_cons in Hin as [?|(p & Hp & Hin)%elem_of_concat_map]; [by left|]. right. by exists p.
      * destruct (Hord q1 q q2 Hqs) as [?|(p' & Hp' & Hs)]; [by left|]. right. exists p'. split; [|done]. by rewrite <- app_assoc in Hp'.
Qed.

(** Every child of a directory taken is planned. *)
Lemma planned_kid p ops e : planned p ops -> e ∈ kids p -> exists ops, plan_one g target e = Ok ops.
Proof.
  unfold planned, plan_directory. intros (rs & _ & (os & Hk & _)%bind_Ok)%bind_Ok. revert os Hk.
  induction (kids p) as [|x l IH]; intros os Hk He; [set_solver|]. cbn [plan_kids] in Hk. apply bind_Ok in Hk as (o1 & H1 & (o2 & H2 & _)%bind_Ok).
  apply elem_of_cons in He as [->|He]; [by exists o1|by eapply IH].
Qed.

(** The directories a plan takes, in order. *)
Record schedule (qs : list bytes) (opss : list (list ApplyOp)) : Prop := {
  sc_planned : Forall2 planned qs opss;
  sc_once : NoDup qs;
  sc_order : forall q1 q q2, qs = q1 ++ q :: q2 -> q = root \/ exists p, p ∈ q1 /\ q ∈ subdirs p;
  sc_root : root ∈ qs;
  sc_closed : forall p q, p ∈ qs -> q ∈ subdirs p -> q ∈ qs;
}.

Lemma plan_scheduled (fuel : nat) o r : plan_queue g target fuel root [root] o = Ok r -> exists qs opss, schedule qs opss /\ r.1 = concat opss.
Proof.
  intros E. destruct (queue_schedule fuel [] [root] o r E) as (qs & opss & Hf & Er & Hfix & Hn & Ho); [done|constructor|].
  exists qs, opss. split; [|done]. cbn [app] in *. split; [done|done|done|rewrite Hfix; set_solver|].
  intros p q Hp Hq. rewrite Hfix. apply elem_of_cons. right. apply elem_of_concat_map. by exists p.
Qed.
End Schedule.

(** The stages of a pull: between the destination's manifest and the source's,
    the manifest the namespace represents after some directories are done, during
    the renames of one and the creation of its children. Each is a tree, and each
    step leads to the next. *)

Lemma NoDup_fmap_omap {A B C} (f : A -> option B) (h : B -> C) (l : list A) :
  NoDup l -> (forall x y b c, x ∈ l -> y ∈ l -> f x = Some b -> f y = Some c -> h b = h c -> x = y) -> NoDup (h <$> omap f l).
Proof.
  induction 1 as [|x l Hx Hn IH]; intros Hf; [constructor|]. cbn [omap list_omap]. assert (Hl : NoDup (h <$> omap f l)) by (apply IH; intros; eapply Hf; set_solver).
  destruct (f x) as [b|] eqn:Eb; [|done]. rewrite fmap_cons. apply NoDup_cons. split; [|done]. intros (c & E & (y & Hy & Ec)%list_elem_of_omap)%list_elem_of_fmap.
  assert (x = y) as -> by (eapply Hf; [set_solver|set_solver|done|done|done]). done.
Qed.

Lemma size_list_to_set_le (l : list bytes) : (size (list_to_set l : gset bytes) <= length l)%nat.
Proof.
  induction l as [|x l IH]; [by rewrite list_to_set_nil, size_empty|]. rewrite list_to_set_cons, size_union_alt, size_singleton. cbn [length].
  pose proof (subseteq_size (list_to_set l ∖ {[x]}) (list_to_set l : gset bytes)) as Hs. specialize (Hs ltac:(set_solver)). lia.
Qed.

Section Stages.
Context `{Blake3} `{Destination}.
#[local] Set Default Proof Using "Type*".
Variables (root : bytes) (pond : uuid) (hidden : gmap bytes FileID) (known : bytes -> option EntryType).
Variables (g : FetchedGraph) (target : TargetPlanningState).

(** The manifest of the whole destination, of which the planner sees the part it
    was given. *)
Variable full : view.

#[local] Abbreviation src := (source_view g).
#[local] Abbreviation nodes := (tp_nodes target).
#[local] Abbreviation kids := (sorted_kids g root).
#[local] Abbreviation wf := (wf_view root hidden known).
#[local] Abbreviation rep := (represents root pond hidden).
#[local] Abbreviation put := (places root hidden known).
#[local] Abbreviation fid := (entry_fid pond).
#[local] Abbreviation at_ := (wd root pond).

(** The manifest after the pull: the source's entries, and what the planner was
    not given. *)
Definition converged : view := fun i =>
  match src i with
  | Some e => Some e
  | None => if bool_decide (is_Some (nodes !! i)) then None else full i
  end.

(** A source and a destination a pull can bring together: their manifests are
    trees with the same root, the planner was given entries of the destination,
    with their parents and with every node the source also has, and the names of
    all the children of the directories it works on. *)
Record pullable : Prop := {
  pu_full : wf full;
  pu_source : wf src;
  pu_converged : wf converged;
  pu_keyed : NoDup (map node_id (graph_manifest g));
  pu_depth : exists rank : bytes -> nat, forall i e, src i = Some e -> i <> root -> (rank (parent_node_id e) < rank i)%nat;
  pu_held_depth : exists rank : bytes -> nat, forall i e, full i = Some e -> i <> root -> (rank (parent_node_id e) < rank i)%nat;
  pu_root : forall e, src root = Some e \/ full root = Some e -> is_root_entry e;
  pu_nonempty : full [] = None;
  pu_nodes : forall i t, nodes !! i = Some t -> full i = Some t;
  pu_given_root : is_Some (nodes !! root);
  pu_parents : forall i t, nodes !! i = Some t -> i <> root -> is_Some (nodes !! parent_node_id t);
  pu_seen : forall i e t, src i = Some e -> full i = Some t -> nodes !! i = Some t;
  pu_children : forall i t, full i = Some t -> i <> root -> is_Some (src (parent_node_id t)) ->
    node_name t ∈ map child_name (default [] (tp_children target !! parent_node_id t));
  pu_hidden : forall n c, hidden !! n = Some c -> ~ staging n;
  pu_small : forall p, (Z.of_nat (2 + 5 * length (graph_manifest g) + length (default [] (tp_children target !! p))) < 2 ^ 64)%Z;
}.

(** What the plan has checked of the nodes both sides have. *)
Definition twinned : Prop := forall i e t, src i = Some e -> i <> root -> nodes !! i = Some t ->
  parent_node_id t = parent_node_id e /\ node_type t = node_type e.

(** The destination without the nodes the source does not have. *)
Definition doomed (i : bytes) : Prop := is_Some (nodes !! i) /\ i <> root /\ src i = None.

#[local] Instance doomed_dec i : Decision (doomed i).
Proof using Type. unfold doomed. apply _. Defined.

Definition survivors : view := fun i => if bool_decide (doomed i) then None else full i.

(** [ds] are the directories that are done; the children of those in [rs] have
    their names, and the nodes of [ks] are done. *)
Definition stage (ds rs ks : list bytes) : view := fun i =>
  match src i with
  | Some e =>
      if bool_decide (i = root \/ parent_node_id e ∈ ds \/ i ∈ ks) then Some e
      else if bool_decide (parent_node_id e ∈ rs) then (fun m => with_name m (node_name e)) <$> survivors i
      else survivors i
  | None => survivors i
  end.

Hypothesis pull : pullable.
Hypothesis twins : twinned.

Lemma src_key i e : src i = Some e -> node_id e = i.
Proof. apply (wv_key _ _ _ _ (pu_source pull)). Qed.

Lemma survivors_full i m : survivors i = Some m -> full i = Some m.
Proof using Type. unfold survivors. by case_bool_decide. Qed.

Lemma survivors_source i e : src i = Some e -> survivors i = full i.
Proof using Type. intros Hs. unfold survivors. rewrite bool_decide_false; [done|]. intros (_ & _ & ?). congruence. Qed.

Lemma survivors_converged i : src i = None -> survivors i = converged i.
Proof.
  intros Hs. unfold survivors, converged. rewrite Hs. apply (f_equal (fun b : bool => if b then None else full i)). apply bool_decide_ext. unfold doomed.
  split; [by intros (? & _)|]. intros Hn. split; [done|]. split; [|done]. intros ->. destruct (wv_root _ _ _ _ (pu_source pull)) as (r & Hr & _). congruence.
Qed.

(** A node both sides have is in place but for its name. *)
Lemma twin i e m : src i = Some e -> i <> root -> survivors i = Some m ->
  nodes !! i = Some m /\ parent_node_id m = parent_node_id e /\ node_type m = node_type e.
Proof.
  intros Hs Hr Hm%survivors_full. pose proof (pu_seen pull i e m Hs Hm) as Hn. destruct (twins i e m Hs Hr Hn). done.
Qed.

(** Every entry of a stage: the source's, the survivor with the source's name, or
    the survivor. *)
Inductive origin (ds rs ks : list bytes) (i : bytes) : ManifestEntry -> Prop :=
| from_source e : src i = Some e -> i = root \/ parent_node_id e ∈ ds \/ i ∈ ks -> origin ds rs ks i e
| from_rename e m : src i = Some e -> i <> root -> survivors i = Some m -> parent_node_id e ∉ ds -> parent_node_id e ∈ rs -> origin ds rs ks i (with_name m (node_name e))
| from_survivor e m : src i = Some e -> i <> root -> survivors i = Some m -> parent_node_id e ∉ ds -> parent_node_id e ∉ rs -> origin ds rs ks i m
| from_outside m : src i = None -> i <> root -> survivors i = Some m -> origin ds rs ks i m.

Lemma stage_origin ds rs ks i x : stage ds rs ks i = Some x -> origin ds rs ks i x.
Proof.
  unfold stage. destruct (src i) as [e|] eqn:Es.
  - case_bool_decide as Hd; [intros [= <-]; by constructor|]. assert (i <> root /\ parent_node_id e ∉ ds) as [? ?] by tauto. case_bool_decide as Hr.
    + intros (m & Hm & ->)%fmap_Some. by eapply from_rename.
    + intros Hm. by eapply from_survivor.
  - intros Hm. apply from_outside; [done| |done]. intros ->. destruct (wv_root _ _ _ _ (pu_source pull)) as (r & Hr & _). congruence.
Qed.

(** In a stage an entry keeps the parent and the type its node has in the source. *)
Lemma origin_parent ds rs ks i x e : origin ds rs ks i x -> src i = Some e -> i <> root -> parent_node_id x = parent_node_id e /\ node_type x = node_type e.
Proof.
  intros Ho Hs Hr. inversion Ho as [e' A1 A2|e' m A1 A2 A3 A4 A5|e' m A1 A2 A3 A4 A5|m A1 A2 A3]; subst; try congruence.
  - replace x with e by congruence. done.
  - replace e' with e in * by congruence. by destruct (twin i e m) as (_ & ? & ?).
  - by destruct (twin i e x) as (_ & ? & ?).
Qed.

Hypothesis survivors_wf : wf survivors.

(** The directories of a stage are themselves done or being done. *)
Definition settled_dirs (ds rs ks : list bytes) : Prop :=
  (forall p, p ∈ ds ++ rs -> p = root \/ exists e, src p = Some e /\ parent_node_id e ∈ ds)
  /\ (forall i, i ∈ ks -> exists e, src i = Some e /\ i <> root /\ parent_node_id e ∈ rs).

Lemma stage_covers ds rs ks i m : survivors i = Some m -> exists x, stage ds rs ks i = Some x /\ node_type x = node_type m.
Proof.
  intros Hm. unfold stage. destruct (src i) as [e|] eqn:Es; [|by exists m]. case_bool_decide as Hd.
  - exists e. split; [done|]. destruct (decide (i = root)) as [->|Hr]; [|by destruct (twin i e m) as (_ & _ & ?)].
    destruct (wv_root _ _ _ _ survivors_wf) as (r & Hr & Ht). destruct (wv_root _ _ _ _ (pu_source pull)) as (r' & Hr' & Ht'). congruence.
  - rewrite Hm. case_bool_decide; [|by exists m]. by eexists.
Qed.

Lemma stage_done ds rs ks p : settled_dirs ds rs ks -> p ∈ ds ++ rs -> stage ds rs ks p = src p.
Proof.
  intros [Hs _] Hp. unfold stage. destruct (Hs p Hp) as [->|(e & He & Hd)].
  - destruct (wv_root _ _ _ _ (pu_source pull)) as (r & Hr & _). rewrite Hr. rewrite bool_decide_true; [done|by left].
  - rewrite He. rewrite bool_decide_true; [done|by right; left].
Qed.
(** Where an entry of a stage has its parent. *)
Lemma stage_parent ds rs ks i x : settled_dirs ds rs ks -> origin ds rs ks i x -> i <> root ->
  exists p, stage ds rs ks (parent_node_id x) = Some p /\ node_type p = DirectoryPhysical.
Proof.
  intros Hd Ho Hr. assert (Hsrc : forall e, src i = Some e -> parent_node_id e ∈ ds ++ rs -> exists p, stage ds rs ks (parent_node_id e) = Some p /\ node_type p = DirectoryPhysical).
  { intros e He Hp. rewrite (stage_done _ _ _ _ Hd Hp). by eapply (wv_parent _ _ _ _ (pu_source pull)). }
  assert (Hsur : forall m, survivors i = Some m -> exists p, stage ds rs ks (parent_node_id m) = Some p /\ node_type p = DirectoryPhysical).
  { intros m Hm. destruct (wv_parent _ _ _ _ survivors_wf i m Hm Hr) as (p & Hp & Ht). destruct (stage_covers ds rs ks _ _ Hp) as (x' & Hx & Ex). exists x'. by rewrite Ex. }
  inversion Ho as [e A1 A2|e m A1 A2 A3 A4 A5|e m A1 A2 A3 A4 A5|m A1 A2 A3]; subst; [|exact (Hsur _ A3)..].
  apply Hsrc; [done|]. destruct A2 as [?|[?|Hk]]; [done|set_solver|]. destruct Hd as [_ Hk']. destruct (Hk' i Hk) as (e & He & _ & Hp). replace x with e by congruence. set_solver.
Qed.

(** In a directory that is done or being done, every entry has the name the
    pulled manifest gives it. *)
Lemma origin_named ds rs ks i x : settled_dirs ds rs ks -> origin ds rs ks i x -> i <> root -> parent_node_id x ∈ ds ++ rs ->
  exists y, converged i = Some y /\ parent_node_id y = parent_node_id x /\ node_name y = node_name x.
Proof.
  intros Hd Ho Hr Hp. destruct (src i) as [e|] eqn:Es.
  - destruct (origin_parent _ _ _ _ _ _ Ho Es Hr) as [Ep _]. exists e. unfold converged. rewrite Es. split_and!; [done|done|].
    inversion Ho as [e' A1 A2|e' m A1 A2 A3 A4 A5|e' m A1 A2 A3 A4 A5|m A1 A2 A3]; subst; try congruence; [by simpl; congruence|]. rewrite Ep in Hp. replace e' with e in * by congruence. set_solver.
  - exists x. inversion Ho as [e' A1 A2|e' m A1 A2 A3 A4 A5|e' m A1 A2 A3 A4 A5|m A1 A2 A3]; subst; try congruence. by rewrite <- survivors_converged.
Qed.

Lemma origin_outside ds rs ks i x : origin ds rs ks i x -> i <> root -> parent_node_id x ∉ ds ++ rs -> settled_dirs ds rs ks -> survivors i = Some x.
Proof.
  intros Ho Hr Hp [_ Hk]. inversion Ho as [e A1 A2|e m A1 A2 A3 A4 A5|e m A1 A2 A3 A4 A5|m A1 A2 A3]; subst; [|exfalso|done|done].
  - exfalso. destruct A2 as [?|[?|Hi]]; [done|set_solver|]. destruct (Hk i Hi) as (e & He & _ & Hpe). replace x with e in * by congruence. set_solver.
  - destruct (twin i e m) as (_ & E & _); [done|done|done|]. simpl in Hp. rewrite E in Hp. set_solver.
Qed.

Lemma stage_wf ds rs ks : settled_dirs ds rs ks -> wf (stage ds rs ks).
Proof.
  intros Hd. pose proof (pu_source pull) as Hsrc. split.
  - intros i x Hx%stage_origin. inversion Hx as [e A1 A2|e m A1 A2 A3 A4 A5|e m A1 A2 A3 A4 A5|m A1 A2 A3]; subst; [by apply src_key|simpl|..]; by apply (wv_key _ _ _ _ survivors_wf).
  - intros i x Hx%stage_origin. inversion Hx as [e A1 A2|e m A1 A2 A3 A4 A5|e m A1 A2 A3 A4 A5|m A1 A2 A3]; subst; [by apply (wv_known _ _ _ _ Hsrc)|simpl|..]; by apply (wv_known _ _ _ _ survivors_wf).
  - destruct (wv_root _ _ _ _ survivors_wf) as (r & Hr & Ht). destruct (stage_covers ds rs ks root r Hr) as (x & Hx & Ex). exists x. by rewrite Ex.
  - intros i x Hx%stage_origin Hr. by eapply stage_parent.
  - intros i x Hx%stage_origin Hr. inversion Hx as [e A1 A2|e m A1 A2 A3 A4 A5|e m A1 A2 A3 A4 A5|m A1 A2 A3]; subst;
      [by apply (wv_name _ _ _ _ Hsrc i)|simpl|by apply (wv_name _ _ _ _ survivors_wf i)..].
    destruct (twin i e m) as (_ & E & _); [done|done|done|]. rewrite E. by apply (wv_name _ _ _ _ Hsrc i).
  - intros i1 i2 x1 x2 Hx1%stage_origin Hx2%stage_origin Hr1 Hr2 Hp Hn. destruct (decide (parent_node_id x1 ∈ ds ++ rs)) as [Hin|Hout].
    + destruct (origin_named _ _ _ _ _ Hd Hx1 Hr1 Hin) as (y1 & Hy1 & Ep1 & En1). destruct (origin_named _ _ _ _ _ Hd Hx2 Hr2 ltac:(congruence)) as (y2 & Hy2 & Ep2 & En2).
      eapply (wv_sib _ _ _ _ (pu_converged pull) i1 i2 y1 y2); congruence.
    + eapply (wv_sib _ _ _ _ survivors_wf i1 i2 x1 x2); try done; eapply origin_outside; try done. by rewrite <- Hp.
Qed.
(** ** The renames of a directory *)

Section RenameDir.
Variables (ds : list bytes) (p : bytes).
Hypothesis settled : settled_dirs ds [p] [].
Hypothesis fresh : p ∉ ds.

Definition intents : list RenameIntent := omap (rename_intent target) (kids p).

Lemma rename_intent_Some e ri : e ∈ kids p -> rename_intent target e = Some ri <->
  exists m, survivors (node_id e) = Some m /\ node_name m <> node_name e /\ ri = {| ri_old := node_name m; ri_new := node_name e; ri_node_id := node_id e |}.
Proof.
  intros (Hs & Hr & Hp)%elem_of_kids; [|apply (pu_keyed pull)]. unfold rename_intent. split.
  - destruct (nodes !! node_id e) as [t|] eqn:Et; [|done]. destruct (twins _ _ _ Hs Hr Et) as [Ep _]. rewrite bool_decide_true by done. cbn [andb].
    case_bool_decide as En; [done|]. intros [= <-]. exists t. rewrite (survivors_source _ _ Hs). split; [by apply (pu_nodes pull)|done].
  - intros (m & Hm & Hn & ->). destruct (twin _ _ _ Hs Hr Hm) as (-> & Ep & _). rewrite bool_decide_true by done. by rewrite bool_decide_false.
Qed.

Lemma elem_of_intents ri : ri ∈ intents <->
  exists e m, src (node_id e) = Some e /\ node_id e <> root /\ parent_node_id e = p /\ survivors (node_id e) = Some m /\ node_name m <> node_name e
    /\ ri = {| ri_old := node_name m; ri_new := node_name e; ri_node_id := node_id e |}.
Proof.
  unfold intents. rewrite list_elem_of_omap. split.
  - intros (e & He & (m & Hm & Hn & ->)%rename_intent_Some); [|done]. apply elem_of_kids in He as (? & ? & ?); [|apply (pu_keyed pull)]. by exists e, m.
  - intros (e & m & Hs & Hr & Hp & Hm & Hn & ->). exists e. assert (He : e ∈ kids p) by (apply elem_of_kids; [apply (pu_keyed pull)|done]).
    split; [done|]. apply rename_intent_Some; [done|]. by exists m.
Qed.

(** Before the renames the directory lists survivors. *)
Lemma before_renames i x : stage ds [] [] i = Some x -> i <> root -> parent_node_id x = p -> survivors i = Some x.
Proof.
  intros Ho%stage_origin Hr Hp. inversion Ho as [e A1 A2|e m A1 A2 A3 A4 A5|e m A1 A2 A3 A4 A5|m A1 A2 A3]; subst; [|set_solver|done|done].
  destruct A2 as [?|[?|?]]; [done|done|set_solver].
Qed.

Lemma survivor_before i m : survivors i = Some m -> i <> root -> parent_node_id m = p -> stage ds [] [] i = Some m.
Proof.
  intros Hm Hr Hp. unfold stage. destruct (src i) as [e|] eqn:Es; [|done]. destruct (twin i e m) as (_ & Ep & _); [done|done|done|].
  rewrite bool_decide_false by (rewrite <- Ep, Hp; set_solver). by rewrite bool_decide_false by set_solver.
Qed.

Lemma survivor_after i e m : src i = Some e -> i <> root -> parent_node_id e = p -> survivors i = Some m -> stage ds [p] [] i = Some (with_name m (node_name e)).
Proof.
  intros Hs Hr Hp Hm. unfold stage. rewrite Hs, Hp, Hm. rewrite bool_decide_false by (intros [?|[?|?%not_elem_of_nil]]; done).
  by rewrite bool_decide_true by (by apply list_elem_of_singleton).
Qed.

(** After them it lists the survivors under their new names. *)
Lemma after_renames i x : stage ds [p] [] i = Some x -> i <> root -> parent_node_id x = p ->
  exists m, survivors i = Some m /\ parent_node_id m = p /\ fid m = fid x /\
    ((src i = None /\ x = m) \/ exists e, src i = Some e /\ node_name x = node_name e /\ (node_name m = node_name e -> x = m)).
Proof.
  intros Ho%stage_origin Hr Hp. inversion Ho as [e A1 A2|e m A1 A2 A3 A4 A5|e m A1 A2 A3 A4 A5|m A1 A2 A3]; subst.
  - destruct A2 as [?|[?|?]]; [done|done|set_solver].
  - exists m. split_and!; [done|done|done|]. right. exists e. split_and!; [done|done|]. intros E. destruct m. simpl in *. by rewrite <- E.
  - destruct (twin i e x) as (_ & E & _); [done|done|done|]. rewrite <- E in A5. set_solver.
  - exists x. split_and!; [done|done|done|]. by left.
Qed.
Lemma intent_by_old x y b c : x ∈ kids p -> y ∈ kids p -> rename_intent target x = Some b -> rename_intent target y = Some c -> ri_old b = ri_old c -> x = y.
Proof.
  intros Hx Hy (m & Hm & _ & ->)%rename_intent_Some (m' & Hm' & _ & ->)%rename_intent_Some; [|done|done]. cbn [ri_old]. intros E.
  apply elem_of_kids in Hx as (Hsx & Hrx & Hpx); [|apply (pu_keyed pull)]. apply elem_of_kids in Hy as (Hsy & Hry & Hpy); [|apply (pu_keyed pull)].
  destruct (twin _ _ _ Hsx Hrx Hm) as (_ & Epx & _). destruct (twin _ _ _ Hsy Hry Hm') as (_ & Epy & _).
  assert (node_id x = node_id y) as Ei by (eapply (wv_sib _ _ _ _ survivors_wf); [exact Hm|exact Hm'|done|done|congruence|done]). rewrite Ei in Hsx. congruence.
Qed.

Lemma intent_by_new x y b c : x ∈ kids p -> y ∈ kids p -> rename_intent target x = Some b -> rename_intent target y = Some c -> ri_new b = ri_new c -> x = y.
Proof.
  intros Hx Hy (m & Hm & _ & ->)%rename_intent_Some (m' & Hm' & _ & ->)%rename_intent_Some; [|done|done]. cbn [ri_new]. intros E.
  apply elem_of_kids in Hx as (Hsx & Hrx & Hpx); [|apply (pu_keyed pull)]. apply elem_of_kids in Hy as (Hsy & Hry & Hpy); [|apply (pu_keyed pull)].
  assert (node_id x = node_id y) as Ei by (eapply (wv_sib _ _ _ _ (pu_source pull)); [exact Hsx|exact Hsy|done|done|congruence|done]). rewrite Ei in Hsx. congruence.
Qed.

(** A survivor that holds the new name of a node gives it up in the same batch. *)
Lemma holder_renamed e m i x :
  src (node_id e) = Some e -> node_id e <> root -> parent_node_id e = p -> survivors (node_id e) = Some m -> node_name m <> node_name e ->
  survivors i = Some x -> i <> root -> parent_node_id x = p -> node_name x = node_name e -> exists ri, ri ∈ intents /\ ri_old ri = node_name x.
Proof.
  intros Hs Hr Hp Hm Hn Hx Hi Hxp Hxn. destruct (src i) as [ex|] eqn:Es.
  - destruct (twin i ex x) as (_ & Ep & _); [done|done|done|]. pose proof (src_key _ _ Es) as Hk. destruct (decide (node_name x = node_name ex)) as [E|Hne].
    + exfalso. assert (i = node_id e) as -> by (eapply (wv_sib _ _ _ _ (pu_source pull)); [exact Es|exact Hs|done|done|congruence|congruence]). congruence.
    + exists {| ri_old := node_name x; ri_new := node_name ex; ri_node_id := node_id ex |}. split; [|done]. apply elem_of_intents. exists ex, x. rewrite Hk. split_and!; try done. congruence.
  - exfalso. assert (i = node_id e) as ->; [|congruence].
    eapply (wv_sib _ _ _ _ (pu_converged pull) i (node_id e) x e); [by rewrite <- survivors_converged|by unfold converged; rewrite Hs|done|done|congruence|done].
Qed.

Lemma reserved_kid e : e ∈ kids p -> node_name e ∈ reserved_names target p (kids p).
Proof using Type. intros He. unfold reserved_names. apply elem_of_union_l, elem_of_list_to_set. by apply list_elem_of_fmap_2. Qed.

Lemma rename_batch d : is_Some (src p) -> entries_ok root pond hidden (stage ds [] []) p d ->
  batch_ok intents (reserved_names target p (kids p)) d.
Proof.
  intros Hsp Hd. assert (Hn : NoDup (kids p)) by (eapply NoDup_fmap_1, kids_nodup, (pu_keyed pull)). split.
  - apply NoDup_fmap_omap; [done|]. apply intent_by_old.
  - apply NoDup_fmap_omap; [done|]. apply intent_by_new.
  - intros ri (e & m & Hs & Hr & Hp & Hm & Hnn & ->)%elem_of_intents. cbn [ri_old]. exists (fid m). apply Hd. right. exists (node_id e), m.
    destruct (twin _ _ _ Hs Hr Hm) as (_ & Ep & _). split_and!; try done; [|congruence]. apply survivor_before; [done|done|congruence].
  - intros ri (e & m & Hs & Hr & Hp & Hm & Hnn & ->)%elem_of_intents [c Hc]. cbn [ri_new] in *. apply Hd in Hc as [Hh|(i & x & Hx & Hi & Hxp & Hxn & _)].
    + destruct (wv_name _ _ _ _ (pu_source pull) _ _ Hs Hr) as [_ Hh']. congruence.
    + apply before_renames in Hx; [|done|done]. destruct (holder_renamed e m i x) as (rj & Hj & Ej); [done..|]. rewrite <- Hxn, <- Ej. by apply list_elem_of_fmap_2.
  - intros n [c Hc] Hst. apply Hd in Hc as [Hh|(i & x & Hx & Hi & Hxp & Hxn & _)].
    + exfalso. unfold hid in Hh. destruct (bool_decide (p = root)); [|done]. by eapply (pu_hidden pull).
    + apply before_renames in Hx; [|done|done]. apply survivors_full in Hx. unfold reserved_names. apply elem_of_union_r, elem_of_list_to_set.
      rewrite <- Hxn, <- Hxp. apply (pu_children pull i x); [done|done|by rewrite Hxp].
  - intros n (ri & -> & Hri)%list_elem_of_fmap. unfold intents in Hri. apply list_elem_of_omap in Hri as (e & He & (m & _ & _ & ->)%rename_intent_Some); [|done]. by apply reserved_kid.
Qed.

Lemma omap_length {A B} (f : A -> option B) l : (length (omap f l) <= length l)%nat.
Proof using Type. induction l as [|x l IH]; cbn [omap list_omap length]; [lia|]. destruct (f x); cbn [length]; lia. Qed.

Lemma rename_small : small_batch intents (reserved_names target p (kids p)).
Proof using pull.
  pose proof (pu_small pull p) as Hs. unfold small_batch. assert (Hk : (length (kids p) <= length (graph_manifest g))%nat).
  { unfold sorted_kids, kids_of. rewrite (Permutation_length (sort_by_perm name_cmp _)). apply length_filter. }
  pose proof (omap_length (rename_intent target) (kids p)) as Hi. fold intents in Hi.
  assert (Hr : (size (reserved_names target p (kids p)) <= length (kids p) + length (default [] (tp_children target !! p)))%nat).
  { unfold reserved_names. rewrite size_union_alt. rewrite <- (length_map node_name (kids p)), <- (length_map child_name (default [] _)).
    apply Nat.add_le_mono; [apply size_list_to_set_le|]. etrans; [apply subseteq_size|apply size_list_to_set_le]. intros x Hx. by apply elem_of_difference in Hx as [? _]. }
  lia.
Qed.
(** A node keeps its name, or is renamed from a name of the batch to another. *)
Lemma moved_name i m e : src i = Some e -> i <> root -> survivors i = Some m -> parent_node_id m = p ->
  node_name m = node_name e \/ (node_name m ∈ ri_old <$> intents /\ node_name e ∈ ri_new <$> intents).
Proof.
  intros Hs Hr Hm Hp. pose proof (src_key _ _ Hs) as Hk. destruct (twin i e m) as (_ & Ep & _); [done|done|done|].
  destruct (decide (node_name m = node_name e)) as [|Hne]; [by left|]. right.
  assert (Hi : {| ri_old := node_name m; ri_new := node_name e; ri_node_id := node_id e |} ∈ intents).
  { apply elem_of_intents. exists e, m. rewrite Hk. split_and!; try done. congruence. }
  split; [by apply (list_elem_of_fmap_2 ri_old _ _ Hi)|by apply (list_elem_of_fmap_2 ri_new _ _ Hi)].
Qed.

Lemma renamed_entries d d' : entries_ok root pond hidden (stage ds [] []) p d -> renamed intents d d' -> entries_ok root pond hidden (stage ds [p] []) p d'.
Proof.
  intros Hd [Hnew Hold] n c. pose proof (stage_wf ds [p] [] settled) as Hw. destruct (decide (n ∈ ri_new <$> intents)) as [Hin|Hout].
  - apply list_elem_of_fmap in Hin as (ri & -> & Hri). rewrite (Hnew ri Hri). apply elem_of_intents in Hri as (e & m & Hs & Hr & Hp & Hm & Hne & ->). cbn [ri_old ri_new].
    destruct (twin _ _ _ Hs Hr Hm) as (_ & Ep & _).
    assert (Hx : stage ds [p] [] (node_id e) = Some (with_name m (node_name e))).
    { by apply survivor_after. }
    assert (Ed : d !! node_name m = Some (fid m)).
    { apply Hd. right. exists (node_id e), m. split_and!; try done; [|congruence]. apply survivor_before; [done|done|congruence]. }
    rewrite Ed. split.
    + intros [= <-]. right. exists (node_id e), (with_name m (node_name e)). split_and!; try done. simpl. congruence.
    + intros [Hh|(i & x & Hi & Hir & Hxp & Hxn & <-)].
      * destruct (wv_name _ _ _ _ (pu_source pull) _ _ Hs Hr) as [_ Hh']. rewrite Hp in Hh'. congruence.
      * assert (i = node_id e) as -> by (eapply (wv_sib _ _ _ _ Hw); [exact Hi|exact Hx|done|done|simpl; congruence|done]). rewrite Hx in Hi. by injection Hi as <-.
  - rewrite (Hold n Hout). case_bool_decide as Hin.
    + split; [done|]. apply list_elem_of_fmap in Hin as (ri & -> & Hri). apply elem_of_intents in Hri as (e & m & Hs & Hr & Hp & Hm & Hne & ->). cbn [ri_old] in *.
      destruct (twin _ _ _ Hs Hr Hm) as (_ & Ep & _). intros [Hh|(i & x & Hi & Hir & Hxp & Hxn & _)]; exfalso.
      * destruct (wv_name _ _ _ _ survivors_wf _ _ Hm Hr) as [_ Hh']. rewrite Ep, Hp in Hh'. congruence.
      * destruct (after_renames i x Hi Hir Hxp) as (y & Hy & Hyp & _ & Hc).
        assert (Ei : node_name y = node_name m -> i = node_id e) by (intros E; eapply (wv_sib _ _ _ _ survivors_wf); [exact Hy|exact Hm|done|done|congruence|done]).
        destruct Hc as [[Hn ->]|(ex & Hex & Exn & Hsame)]; [rewrite Ei in Hn by congruence; congruence|].
        destruct (moved_name i y ex) as [E|[_ Hout']]; [done|done|done|done| |by rewrite <- Exn, Hxn in Hout'].
        rewrite Ei in Hex by (by rewrite <- Hxn, Hsame). congruence.
    + rewrite (Hd n c). split; (intros [?|(i & x & Hi & Hir & Hxp & Hxn & Hxc)]; [by left|right]).
      * pose proof (before_renames i x Hi Hir Hxp) as Hs. destruct (src i) as [e|] eqn:Es.
        -- destruct (moved_name i x e) as [E|[Ho _]]; [done|done|done|done| |by rewrite Hxn in Ho]. exists i, x. split; [|by split_and!]. destruct (twin i e x) as (_ & Ep & _); [done|done|done|].
           rewrite (survivor_after i e x); [|done|done|congruence|done]. rewrite <- E. by destruct x.
        -- exists i, x. split; [|by split_and!]. unfold stage. by rewrite Es.
      * destruct (after_renames i x Hi Hir Hxp) as (y & Hy & Hyp & Hfid & Hc). exists i, y. split_and!; [by apply survivor_before|done|done| |congruence].
        destruct Hc as [[_ ->]|(e & He & Hxe & Hsame)]; [done|]. destruct (moved_name i y e) as [E|[_ Ho]]; [done|done|done|done|congruence|by rewrite <- Hxe, Hxn in Ho].
Qed.

Lemma stage_renames : renames root p (stage ds [] []) (stage ds [p] []).
Proof.
  intros i. unfold stage. destruct (src i) as [e|] eqn:Es; [|by left]. case_bool_decide as Hd; [by left|]. rewrite (bool_decide_false (_ ∈ [])) by set_solver.
  case_bool_decide as Hp; [|by left]. apply list_elem_of_singleton in Hp. destruct (survivors i) as [m|] eqn:Em; [|by left]. right. exists m, (node_name e).
  assert (i <> root) by tauto. destruct (twin i e m) as (_ & Ep & _); [done|done|done|]. split_and!; [done|done|congruence|done].
Qed.
End RenameDir.
End Stages.

(** ** What a plan that was made shows *)

Section Taken.
Context `{Blake3}.
Variables (root : bytes) (hidden : gmap bytes FileID) (known : bytes -> option EntryType).
Variables (g : FetchedGraph) (target : TargetPlanningState) (full : view).
Hypothesis pull : pullable root hidden known g target full.
#[local] Set Default Proof Using "Type*".

(** The walk takes every directory of the source. *)
Lemma all_taken qs opss i e : schedule root g target qs opss -> source_view g i = Some e -> node_type e = DirectoryPhysical -> i ∈ qs.
Proof.
  intros Hsc. destruct (pu_depth _ _ _ _ _ _ pull) as [rank Hrank]. remember (rank i) as k eqn:Ek. revert i e Ek. induction (lt_wf k) as [k _ IH]. intros i e -> Hs Ht.
  destruct (decide (i = root)) as [->|Hr]; [by apply (sc_root _ _ _ _ _ Hsc)|]. destruct (wv_parent _ _ _ _ (pu_source _ _ _ _ _ _ pull) i e Hs Hr) as (pe & Hp & Hpt).
  eapply (sc_closed _ _ _ _ _ Hsc (parent_node_id e)); [by eapply IH; [apply (Hrank i e)|..]|]. apply elem_of_subdirs; [apply (pu_keyed _ _ _ _ _ _ pull)|]. by exists e.
Qed.

(** A plan that was made has checked every node both sides have. *)
Lemma scheduled_twins qs opss : schedule root g target qs opss -> twinned root g target.
Proof.
  intros Hsc i e t Hs Hr Ht. destruct (wv_parent _ _ _ _ (pu_source _ _ _ _ _ _ pull) i e Hs Hr) as (pe & Hp & Hpt).
  pose proof (wv_key _ _ _ _ (pu_source _ _ _ _ _ _ pull) _ _ Hs) as Hk. pose proof (all_taken _ _ _ _ Hsc Hp Hpt) as Hq.
  apply list_elem_of_lookup in Hq as [n Hn]. destruct (Forall2_lookup_l _ _ _ _ _ (sc_planned _ _ _ _ _ Hsc) Hn) as (ops & _ & Hpl).
  destruct (planned_kid root g target (pu_keyed _ _ _ _ _ _ pull) _ _ e Hpl) as [os Hone]; [apply elem_of_kids; [apply (pu_keyed _ _ _ _ _ _ pull)|by rewrite Hk]|].
  unfold plan_one in Hone. apply bind_Ok in Hone as ([] & Hc & _). rewrite Hk, Ht in Hc. unfold check_twin in Hc. apply bind_Ok in Hc as ([] & H1'%ensure_Ok & H2'%ensure_Ok).
  by apply bool_decide_eq_true in H1', H2'.
Qed.

Lemma source_root : src_root_id g = Ok root.
Proof.
  destruct (wv_root _ _ _ _ (pu_source _ _ _ _ _ _ pull)) as (r & Hr & _). pose proof (pu_root _ _ _ _ _ _ pull r (or_introl Hr)) as Hroot.
  pose proof (pu_keyed _ _ _ _ _ _ pull) as Hkeys. apply source_Some in Hr as [Hin Hid]; [|done].
  unfold src_root_id. destruct (list_find is_root_entry (graph_manifest g)) as [[n x]|] eqn:Ef.
  - apply list_find_Some in Ef as (Hx & Hrx & _). cbn. f_equal. destruct (decide (node_id x = root)) as [|Hne]; [done|]. exfalso.
    assert (Hsx : source_view g (node_id x) = Some x) by (apply source_Some; [done|split; [by eapply list_elem_of_lookup_2|done]]).
    destruct (wv_name _ _ _ _ (pu_source _ _ _ _ _ _ pull) _ _ Hsx Hne) as [(Hn & _) _]. by destruct Hrx.
  - apply list_find_None in Ef. rewrite Forall_forall in Ef. by destruct (Ef r Hin).
Qed.
End Taken.
