(* ===== verification/PullConverge.v ===== *)
(** Applying a whole plan: the deletions find each node the source does not have
    under the path its ancestors spell, deepest first, so that a directory is
    empty when its turn comes; then the walk over the directories brings the
    namespace to the source's manifest. *)

From stdpp Require Import base list gmap numbers strings sorting options.
From Stdlib Require Import ZArith Lia.
From S2P Require Import Prelude RustStd RustText EntryType TinyFs TinyFsSpec Wire CanonicalJson Tree Manifest Commit SeriesMerkle SeriesManifest SeriesPack TableLeaf TablePack CapsuleStream CapsuleTable Publication PullGraph PullChain PullSeries PullFetch PullRenames PullPlan PullApply PullView PullApplySpec PullStages PullWritten.

(** ** Names and depths *)

Lemma names_up_more (nodes : gmap bytes ManifestEntry) (f f' : nat) p l : names_up f nodes p = Some l -> (f <= f')%nat -> names_up f' nodes p = Some l.
Proof.
  revert f' p l. induction f as [|f IH]; intros f' p l E Hf; destruct f' as [|f']; try lia; cbn [names_up] in *; [done|..];
    (destruct (nodes !! p) as [e|]; [|done]; case_bool_decide; [done|]).
  - done.
  - apply fmap_Some in E as (l' & E & ->). rewrite (IH f' _ _ E) by lia. done.
Qed.

Lemma names_up_same nodes (f f' : nat) p l l' : names_up f nodes p = Some l -> names_up f' nodes p = Some l' -> l = l'.
Proof.
  intros E1 E2. apply (names_up_more _ _ (Nat.max f f')) in E1; [|lia]. apply (names_up_more _ _ (Nat.max f f')) in E2; [|lia]. congruence.
Qed.

Lemma names_up_step nodes (f : nat) p e l : names_up f nodes p = Some l -> nodes !! p = Some e -> parent_node_id e <> [] ->
  exists f' l', (f' < f)%nat /\ l = node_name e :: l' /\ names_up f' nodes (parent_node_id e) = Some l'.
Proof.
  intros E Hp He. destruct f as [|f]; cbn [names_up] in E; rewrite Hp, bool_decide_false in E by done; [done|].
  apply fmap_Some in E as (l' & E & ->). exists f, l'. split_and!; [lia|done|done].
Qed.

(** ** Spelling a path *)

Lemma push_names path ns : (exists b, last path = Some b /\ b <> SLASH) -> Forall plain_name ns ->
  fold_left push_component (map Normal ns) path = path ++ concat (map (cons SLASH) ns).
Proof.
  revert path. induction ns as [|n ns IH]; intros path (b & Hb & Hs) Hf; cbn [map fold_left concat]; [by rewrite app_nil_r|].
  apply Forall_cons_1 in Hf as [Hn Hf]. cbn [push_component component_text]. rewrite Hb, bool_decide_false by done. rewrite IH; [by rewrite <- app_assoc| |done].
  destruct Hn as (Hne & Hsl & _). destruct n as [|x n _] using rev_ind; [done|]. exists x. rewrite app_comm_cons, app_assoc, last_snoc. split; [done|]. set_solver.
Qed.

Lemma join_cons sep n ns : join sep (n :: ns) = n ++ concat (map (cons sep) ns).
Proof. revert n. induction ns as [|m ns IH]; intros n; [by rewrite app_nil_r|]. change (join sep (n :: m :: ns)) with (n ++ sep :: join sep (m :: ns)). by rewrite IH. Qed.

Lemma absolute_join ns : ns <> [] -> Forall plain_name ns -> absolute ns = SLASH :: join SLASH ns.
Proof.
  destruct ns as [|n ns]; [done|]. intros _ [Hn Hf]%Forall_cons_1. unfold absolute, collect. cbn [map fold_left push_component last component_text].
  rewrite bool_decide_true by done. rewrite push_names; [|destruct Hn as (Hne & Hsl & _)|done]; [by rewrite join_cons|].
  destruct n as [|x n _] using rev_ind; [done|]. exists x. rewrite app_assoc, last_snoc. split; [done|]. set_solver.
Qed.

Lemma path_nil ns d e : path_to ns d [] e -> d = e.
Proof. by inversion 1. Qed.

Lemma path_snoc ns d names m n c :
  path_to ns d names m -> kind_of ns m = DirectoryNode -> dir_get ns m n = Ok (Some c) -> (forall t, kind_of ns c <> SymlinkNode t) -> fid_pond c = fid_pond m ->
  path_to ns d (names ++ [n]) c.
Proof.
  induction 1 as [d|d n' c' names e Hk Hg Hs Hp Hpath IH]; intros Hm Hn Hc Ep; cbn [app].
  - eapply path_down; [done|done|done|done|constructor].
  - eapply path_down; [done|done|done|done|]. by apply IH.
Qed.

(** ** The order *)

#[export] Instance deeper_order : CmpOrder deeper.
Proof.
  split; unfold deeper; [intros x y; apply Nat.compare_antisym|]. intros x y z. rewrite !Nat.compare_gt_iff. lia.
Qed.

Lemma with_depth_Some nodes l ds : with_depth nodes l = Some ds -> map snd ds = l /\ forall k e, (k, e) ∈ ds -> target_depth (node_id e) nodes = Some k.
Proof.
  revert ds. induction l as [|e l IH]; intros ds E; cbn [with_depth] in E; [injection E as <-; split; [done|set_solver]|].
  apply bind_Some in E as (d & Hd & (rest & Hrest & [= <-])%bind_Some). destruct (IH rest Hrest) as [<- Hk]. split; [done|].
  intros k x [[= -> ->]|Hx]%elem_of_cons; [done|by apply Hk].
Qed.

Section Deletions.
Context `{Blake3} `{JsonParser} `{ContentSource} `{Destination} `{FileReads} `{ArrowCast} `{Parquet} `{ParquetWriter} `{SeriesContents}.
#[local] Set Default Proof Using "All".
Variables (root : bytes) (pond : uuid) (hidden : gmap bytes FileID) (known : bytes -> option EntryType).
Variables (g : FetchedGraph) (target : TargetPlanningState) (full : view).
Hypothesis ids : identities known.
Hypothesis pull : pullable root hidden known g target full.
Hypothesis twins : twinned root g target.

#[local] Abbreviation src := (source_view g).
#[local] Abbreviation nodes := (tp_nodes target).
#[local] Abbreviation wf := (wf_view root hidden known).
#[local] Abbreviation rep := (represents root pond hidden).
#[local] Abbreviation fid := (entry_fid pond).
#[local] Abbreviation at_ := (wd root pond).
#[local] Abbreviation dead := (doomed root g target).

(** The destination less the nodes removed so far. *)
Definition without (rm : list bytes) : view := fun i => if bool_decide (i ∈ rm) then None else full i.

Lemma without_Some rm i e : without rm i = Some e <-> (i ∉ rm) /\ full i = Some e.
Proof using Type. unfold without. case_bool_decide; split; [done|by intros [? _]|by intros|by intros [_ ?]]. Qed.

Lemma del_without rm id i : del (without rm) id i = without (rm ++ [id]) i.
Proof using Type.
  unfold del, without. case_bool_decide as E.
  - rewrite E, bool_decide_true; [done|]. apply elem_of_app. right. by apply list_elem_of_singleton.
  - rewrite (bool_decide_ext (i ∈ rm ++ [id]) (i ∈ rm)); [done|]. rewrite elem_of_app, list_elem_of_singleton. tauto.
Qed.

Lemma wf_ext M M' : (forall i, M i = M' i) -> wf M -> wf M'.
Proof using Type.
  intros He [W1 W2 W3 W4 W5 W6]. split; [intros i e; rewrite <- He; apply W1|intros i e; rewrite <- He; apply W2|by rewrite <- He| | |].
  - intros i e Hi Hr. rewrite <- He in Hi. destruct (W4 i e Hi Hr) as (p & Hp & Ht). exists p. by rewrite <- He.
  - intros i e. rewrite <- He. apply W5.
  - intros i j x y. rewrite <- !He. apply W6.
Qed.

Lemma node_full i t : nodes !! i = Some t -> full i = Some t.
Proof. apply (pu_nodes _ _ _ _ _ _ pull). Qed.

Lemma top_is_root i t : nodes !! i = Some t -> parent_node_id t = [] <-> i = root.
Proof.
  intros Hi%node_full. split.
  - intros Hp. destruct (decide (i = root)) as [|Hr]; [done|]. destruct (wv_parent _ _ _ _ (pu_full _ _ _ _ _ _ pull) i t Hi Hr) as (q & Hq & _).
    rewrite Hp in Hq. rewrite (pu_nonempty _ _ _ _ _ _ pull) in Hq. done.
  - intros ->. by destruct (pu_root _ _ _ _ _ _ pull t (or_intror Hi)).
Qed.

(** The path of a directory whose ancestors are still there. *)
Lemma chain_path rm st (f : nat) p pe names :
  wf (without rm) -> rep (without rm) st -> names_up f nodes p = Some names -> nodes !! p = Some pe -> node_type pe = DirectoryPhysical ->
  (forall q f l, names_up f nodes q = Some l -> (length l <= length names)%nat -> q ∉ rm) ->
  path_to (ns_of factory_get st) (dirfid pond root) (rev names) (dirfid pond p) /\ Forall plain_name names /\ node_kind st (dirfid pond p) = DirectoryNode.
Proof.
  intros Hw Hr. revert p pe names. induction f as [f IH] using (well_founded_induction lt_wf). intros p pe names E Hp Ht Hrm. pose proof (node_full _ _ Hp) as Hf.
  assert (Hin : without rm p = Some pe) by (apply without_Some; split; [by eapply Hrm|done]).
  destruct (rp_dirs _ _ _ _ _ Hr p pe Hin Ht) as (d & Hd & _). pose proof (kind_dir st _ d (rp_typed _ _ _ _ _ Hr) Hd) as Hk.
  destruct (decide (p = root)) as [->|Hne].
  - assert (names = []) as ->; [|split_and!; [constructor|constructor|done]].
    destruct f; cbn [names_up] in E; rewrite Hp, bool_decide_true in E by (by apply (top_is_root root pe)); by injection E.
  - assert (Hpar : parent_node_id pe <> []) by (rewrite (top_is_root p pe); done).
    destruct (names_up_step _ _ _ _ _ E Hp Hpar) as (f' & l' & Hlt & -> & E'). destruct (pu_parents _ _ _ _ _ _ pull p pe Hp Hne) as [qe Hq].
    destruct (wv_parent _ _ _ _ Hw p pe Hin Hne) as (qe' & [_ Hq']%without_Some & Hqt). assert (qe' = qe) as -> by (apply node_full in Hq; congruence).
    destruct (IH f' Hlt _ qe l' E' Hq Hqt) as (Hpath & Hpl & Hkq). { intros q f0 l0 E0 Hl0. eapply Hrm; [exact E0|]. simpl. lia. }
    destruct (parent_dir root pond hidden known _ st p pe Hw Hr Hin Hne) as (pe2 & dq & _ & _ & Hdq & _ & Hent).
    cbn [rev]. split_and!; [|constructor; [by apply (wv_name _ _ _ _ Hw p)|done]|done]. eapply path_snoc; [done|done| | |done].
    + cbn. unfold get_entry. rewrite Hdq, Hent. rewrite dirfid_entry by done. by rewrite (wv_key _ _ _ _ Hw _ _ Hin).
    + cbn. by rewrite Hk.
Qed.

(** The directory a deletion works in. *)
Lemma delete_dir rm st p pe path :
  wf (without rm) -> rep (without rm) st -> nodes !! p = Some pe -> node_type pe = DirectoryPhysical -> target_path p nodes = Some path ->
  (forall q f l, names_up f nodes q = Some l -> (forall f' l', names_up f' nodes p = Some l' -> (length l <= length l')%nat) -> q ∉ rm) ->
  (if bool_decide (path = []) then Ok (at_ root) else fs (open_dir_path (ns_of factory_get st) (at_ root) path)) = Ok (at_ p).
Proof.
  intros Hw Hr Hp Ht Epath Hrm. unfold target_path in Epath. apply fmap_Some in Epath as (names & E & ->).
  destruct (chain_path rm st _ p pe names Hw Hr E Hp Ht) as (Hpath & Hpl & Hk).
  { intros q f l Eq Hl. eapply Hrm; [exact Eq|]. intros f' l' E'. by rewrite <- (names_up_same _ _ _ _ _ _ E E'). }
  destruct (rev names) as [|n ns] eqn:Er.
  - rewrite bool_decide_true by done. assert (Ed : dirfid pond root = dirfid pond p) by (by eapply path_nil). unfold wd. by rewrite <- Ed.
  - rewrite bool_decide_false by done. rewrite <- absolute_join; [|done|rewrite <- Er; by apply Forall_rev].
    rewrite (open_absolute _ _ _ (dirfid pond p)); [done|rewrite <- Er; by apply Forall_rev|done| |done]. cbn.
    destruct (wv_root _ _ _ _ Hw) as (r & Hroot & Hrt). destruct (rp_dirs _ _ _ _ _ Hr root r Hroot Hrt) as (d & Hd & _). by eapply kind_dir, Hd; apply (rp_typed _ _ _ _ _ Hr).
Qed.
(** ** The sequence *)

(** The deletions in order: nodes to delete, each once, with their depths, the
    deepest first, and all of them. *)
Record doom_list (ds : list (nat * ManifestEntry)) : Prop := {
  dl_depth : forall k e, (k, e) ∈ ds -> target_depth (node_id e) nodes = Some k;
  dl_nodes : forall k e, (k, e) ∈ ds -> nodes !! node_id e = Some e /\ dead (node_id e);
  dl_once : NoDup (map (fun x => node_id x.2) ds);
  dl_sorted : StronglySorted (cmp_le deeper) ds;
  dl_all : forall i t, nodes !! i = Some t -> dead i -> exists k, (k, t) ∈ ds;
}.

(** A node below a doomed one is doomed. *)
Lemma doomed_child e i x : dead (node_id e) -> full i = Some x -> i <> root -> parent_node_id x = node_id e -> nodes !! i = Some x /\ dead i.
Proof.
  intros (Hn & Hr & Hs) Hx Hi Hp. destruct (src i) as [y|] eqn:Es.
  - pose proof (pu_seen _ _ _ _ _ _ pull _ _ _ Es Hx) as Hnx. destruct (twins i y x Es Hi Hnx) as [Ep _].
    destruct (wv_parent _ _ _ _ (pu_source _ _ _ _ _ _ pull) i y Es Hi) as (q & Hq & _). congruence.
  - destruct (nodes !! i) as [t|] eqn:Et; [apply node_full in Et as Hf; split; [congruence|by split_and!]|]. exfalso.
    assert (Hc : converged g target full i = Some x) by (unfold converged; rewrite Es, bool_decide_false; [done|]; rewrite Et; by intros [? ?]).
    destruct (wv_parent _ _ _ _ (pu_converged _ _ _ _ _ _ pull) i x Hc Hi) as (q & Hq & _). rewrite Hp in Hq. unfold converged in Hq. rewrite Hs, bool_decide_true in Hq; done.
Qed.

Lemma child_deeper i x (f f' : nat) l l' : nodes !! i = Some x -> i <> root -> names_up f nodes i = Some l -> names_up f' nodes (parent_node_id x) = Some l' -> length l = S (length l').
Proof.
  intros Hx Hi E E'. destruct (names_up_step _ _ _ _ _ E Hx) as (f2 & l2 & _ & -> & E2); [rewrite (top_is_root i x); done|].
  by rewrite (names_up_same _ _ _ _ _ _ E' E2).
Qed.

Lemma target_depth_Some i k : target_depth i nodes = Some k -> exists l, names_up (size nodes) nodes i = Some l /\ length l = k.
Proof using Type. unfold target_depth. intros (l & E & ->)%fmap_Some. by exists l. Qed.

Lemma sorted_split (d1 d2 : list (nat * ManifestEntry)) k e : StronglySorted (cmp_le deeper) (d1 ++ (k, e) :: d2) ->
  (forall j x, (j, x) ∈ d1 -> (k <= j)%nat) /\ (forall j x, (j, x) ∈ d2 -> (j <= k)%nat).
Proof using Type.
  intros Hs. assert (Hle : forall x y : nat * ManifestEntry, cmp_le deeper x y -> (y.1 <= x.1)%nat).
  { intros x y. unfold cmp_le, deeper. rewrite Nat.compare_gt_iff. lia. }
  induction d1 as [|z d1 IH]; cbn [app] in Hs; apply StronglySorted_inv in Hs as [Hs Hz]; rewrite Forall_forall in Hz.
  - split; [intros j x Hj; by apply not_elem_of_nil in Hj|]. intros j x Hj. by apply Hz, Hle in Hj.
  - destruct (IH Hs) as [H1' H2']. split; [|done]. intros j x [<-|Hj]%elem_of_cons; [|by eapply H1']. apply (Hle (j, x) (k, e)), Hz. apply elem_of_app. right. apply elem_of_cons. by left.
Qed.

Section Sequence.
Variable all : list (nat * ManifestEntry).
Hypothesis dooms : doom_list all.

#[local] Abbreviation gone d1 := (map (fun x => node_id x.2) d1).

(** Nothing of smaller depth is gone when a node's turn comes. *)
Lemma shallow_kept d1 k e d2 q (f : nat) l : all = d1 ++ (k, e) :: d2 -> names_up f nodes q = Some l -> (length l < k)%nat -> q ∉ gone d1.
Proof.
  intros Ea Eq Hl Hin. apply list_elem_of_fmap in Hin as ([j x] & -> & Hx). cbn [snd] in *. assert (Hj : (j, x) ∈ all) by (rewrite Ea; apply elem_of_app; by left).
  destruct (target_depth_Some _ _ (dl_depth _ dooms _ _ Hj)) as (lx & Ex & <-). rewrite (names_up_same _ _ _ _ _ _ Ex Eq) in *.
  pose proof (dl_sorted _ dooms) as Hs. rewrite Ea in Hs. destruct (sorted_split _ _ _ _ Hs) as [H1' _]. specialize (H1' _ _ Hx). lia.
Qed.

(** Everything below it is. *)
Lemma children_gone d1 k e d2 i x : all = d1 ++ (k, e) :: d2 -> without (gone d1) i = Some x -> i <> root -> parent_node_id x <> node_id e.
Proof.
  intros Ea [Hni Hx]%without_Some Hi Hp. assert (He : (k, e) ∈ all) by (rewrite Ea; apply elem_of_app; right; apply elem_of_cons; by left).
  destruct (dl_nodes _ dooms _ _ He) as [Hen Hed]. destruct (doomed_child e i x Hed Hx Hi Hp) as [Hxn Hxd]. destruct (dl_all _ dooms i x Hxn Hxd) as [j Hj].
  pose proof (wv_key _ _ _ _ (pu_full _ _ _ _ _ _ pull) _ _ Hx) as Hkey.
  destruct (target_depth_Some _ _ (dl_depth _ dooms _ _ Hj)) as (lx & Ex & Ejx). destruct (target_depth_Some _ _ (dl_depth _ dooms _ _ He)) as (le & Ee & Eke).
  rewrite Hkey in Ex. rewrite <- Hp in Ee. pose proof (child_deeper i x _ _ _ _ Hxn Hi Ex Ee) as Hlen.
  pose proof (dl_sorted _ dooms) as Hs. rewrite Ea in Hs, Hj. destruct (sorted_split _ _ _ _ Hs) as [_ H2'].
  apply elem_of_app in Hj as [Hj|[[= -> ->]|Hj]%elem_of_cons]; [|lia|specialize (H2' _ _ Hj); lia].
  apply Hni. apply list_elem_of_fmap. by exists (j, x).
Qed.

Lemma deletions_applied d2 d1 ops (a : apply_state) :
  all = d1 ++ d2 -> delete_ops nodes d2 = Some ops -> wf (without (gone d1)) -> rep (without (gone d1)) (ap_store a) ->
  exists st, fold_pres (apply_op (at_ root) g) ops a = Ok (with_store a st) /\ wf (without (gone all)) /\ rep (without (gone all)) st.
Proof.
  revert d1 ops a. induction d2 as [|[k e] d2 IH]; intros d1 ops a Ea Eo Hw Hr; cbn [delete_ops] in Eo.
  { injection Eo as <-. rewrite app_nil_r in Ea. exists (ap_store a). rewrite Ea. split_and!; [by destruct a|done|done]. }
  apply bind_Some in Eo as (path & Ep & Eo). apply bind_Some in Eo as (rest & Erest & Eo). injection Eo as <-. cbn [fold_pres apply_op].
  assert (He : (k, e) ∈ all) by (rewrite Ea; apply elem_of_app; right; apply elem_of_cons; by left).
  destruct (dl_nodes _ dooms _ _ He) as [Hen (Hes & Her & Hesrc)]. pose proof (node_full _ _ Hen) as Hef.
  assert (Hin : without (gone d1) (node_id e) = Some e).
  { apply without_Some. split; [|done]. pose proof (dl_once _ dooms) as Hn. rewrite Ea, map_app in Hn. apply NoDup_app in Hn as (_ & Hn & _).
    intros Hg. apply (Hn _ Hg). apply elem_of_cons. by left. }
  destruct (wv_parent _ _ _ _ Hw _ _ Hin Her) as (pe & [_ Hpe]%without_Some & Hpt). destruct (pu_parents _ _ _ _ _ _ pull _ _ Hen Her) as [pe' Hpn].
  assert (pe' = pe) as -> by (apply node_full in Hpn; congruence). destruct (target_depth_Some _ _ (dl_depth _ dooms _ _ He)) as (le & Ele & Hlen).
  rewrite (delete_dir (gone d1) (ap_store a) (parent_node_id e) pe path Hw Hr Hpn Hpt Ep).
  2: { intros q f l Eq Hle. eapply shallow_kept; [done|exact Eq|]. destruct (names_up_step _ _ _ _ _ Ele Hen) as (f' & l' & _ & -> & E'); [by rewrite (top_is_root _ _ Hen)|].
       specialize (Hle f' l' E'). simpl in Hlen. lia. }
  cbn [mbind outcome_bind].
  assert (Hch : forall i x, without (gone d1) i = Some x -> i <> root -> parent_node_id x <> node_id e) by (intros i x; by eapply children_gone).
  destruct (remove_represents root pond hidden known ids _ _ (node_id e) e Hw Hr Hin Her Hch) as (st & -> & Hr' & _). cbn [fs map_err mbind outcome_bind mret outcome_ret].
  pose proof (del_wf root hidden known _ _ Hw Her Hch) as Hw'.
  assert (Hext : forall i, del (without (gone d1)) (node_id e) i = without (gone (d1 ++ [(k, e)])) i) by (intros i; rewrite del_without, map_app; done).
  destruct (IH (d1 ++ [(k, e)]) rest (with_store a st)) as (st' & E & Hend); [by rewrite <- app_assoc|done|by eapply wf_ext|by eapply represents_ext|].
  exists st'. split; [|done]. by rewrite E.
Qed.
Lemma gone_doomed i : i ∈ gone all <-> dead i.
Proof.
  rewrite list_elem_of_fmap. split.
  - intros ([k e] & -> & He). by apply (dl_nodes _ dooms k e).
  - intros Hd. pose proof Hd as ((t & Ht) & _). destruct (dl_all _ dooms i t Ht Hd) as [k Hk]. exists (k, t). split; [|done]. cbn [snd].
    by rewrite (wv_key _ _ _ _ (pu_full _ _ _ _ _ _ pull) _ _ (node_full _ _ Ht)).
Qed.
End Sequence.

(** What the planner lists for deletion. *)
Lemma dooms_listed values ds :
  values ≡ₚ map snd (map_to_list nodes) -> with_depth nodes (filter (is_doomed g root) values) = Some ds -> doom_list (sort_by deeper ds).
Proof.
  intros Hv E. destruct (with_depth_Some _ _ _ E) as [Es Hd].
  assert (Hin : forall x, x ∈ values <-> nodes !! node_id x = Some x).
  { intros x. rewrite Hv. setoid_rewrite list_elem_of_fmap. split.
    - intros ([i y] & -> & Hy%elem_of_map_to_list). cbn [snd]. by rewrite (wv_key _ _ _ _ (pu_full _ _ _ _ _ _ pull) _ _ (node_full _ _ Hy)).
    - intros Hx. exists (node_id x, x). split; [done|]. by apply elem_of_map_to_list. }
  assert (Hsrc : forall i, i ∉ map node_id (graph_manifest g) <-> src i = None).
  { intros i. split.
    - intros Hn. destruct (src i) as [x|] eqn:Ex; [|done]. apply source_Some in Ex as [Hx <-]; [|apply (pu_keyed _ _ _ _ _ _ pull)]. destruct Hn. by apply list_elem_of_fmap_2.
    - intros Hn (x & -> & Hx)%list_elem_of_fmap. assert (src (node_id x) = Some x) by (apply source_Some; [apply (pu_keyed _ _ _ _ _ _ pull)|done]). congruence. }
  assert (Hdoom : forall x, x ∈ map snd ds <-> nodes !! node_id x = Some x /\ dead (node_id x)).
  { intros x. rewrite Es, list_elem_of_filter, Hin. unfold is_doomed, doomed. rewrite Hsrc. split; [intros ([? ?] & ?); split_and!; by eauto|intros (? & ? & ? & ?); by split_and!]. }
  assert (Hp : sort_by deeper ds ≡ₚ ds) by apply sort_by_perm. split.
  - intros k e He. apply Hd. by rewrite <- Hp.
  - intros k e He. apply Hdoom. rewrite <- Hp. by apply (list_elem_of_fmap_2 snd _ (k, e)).
  - rewrite Hp. rewrite <- (map_map snd node_id). rewrite Es. apply NoDup_fmap_2_strong.
    + intros x y [_ Hx%Hin]%list_elem_of_filter [_ Hy%Hin]%list_elem_of_filter Exy. rewrite Exy in Hx. congruence.
    + apply NoDup_filter. rewrite Hv. apply NoDup_fmap_2_strong; [|apply NoDup_map_to_list]. intros [i x] [j y] Hx%elem_of_map_to_list Hy%elem_of_map_to_list Exy. cbn in Exy. subst y.
      apply node_full in Hx, Hy. by rewrite <- (wv_key _ _ _ _ (pu_full _ _ _ _ _ _ pull) _ _ Hx), <- (wv_key _ _ _ _ (pu_full _ _ _ _ _ _ pull) _ _ Hy).
  - apply sort_by_sorted, _.
  - intros i t Ht Hdi. pose proof (wv_key _ _ _ _ (pu_full _ _ _ _ _ _ pull) _ _ (node_full _ _ Ht)) as Hk. assert (Hx : t ∈ map snd ds) by (apply Hdoom; by rewrite Hk).
    apply list_elem_of_fmap in Hx as ([k t'] & -> & Hx). exists k. by rewrite Hp.
Qed.

(** The deletions leave the survivors. *)
Lemma plan_deletions_applied values ops (a : apply_state) :
  values ≡ₚ map snd (map_to_list nodes) -> plan_deletions nodes (filter (is_doomed g root) values) = Ok ops -> rep full (ap_store a) ->
  exists st, fold_pres (apply_op (at_ root) g) ops a = Ok (with_store a st) /\ wf (survivors root g target full) /\ rep (survivors root g target full) st.
Proof.
  intros Hv E Hr. unfold plan_deletions in E. apply require_Ok, bind_Some in E as (ds & Eds & Eo). pose proof (dooms_listed values ds Hv Eds) as Hd.
  assert (He : forall i, without (map (fun x : nat * ManifestEntry => node_id x.2) []) i = full i) by done.
  destruct (deletions_applied _ Hd _ [] ops a eq_refl Eo) as (st & Ef & Hw' & Hr'); [by eapply wf_ext, (pu_full _ _ _ _ _ _ pull)|by eapply represents_ext|].
  assert (Hs : forall i, without (map (fun x => node_id x.2) (sort_by deeper ds)) i = survivors root g target full i).
  { intros i. unfold without, survivors. apply (f_equal (fun b : bool => if b then None else full i)). apply bool_decide_ext. by apply gone_doomed. }
  exists st. split_and!; [done|by eapply wf_ext|by eapply represents_ext].
Qed.
End Deletions.

(** A pull converges: the operations of a plan, applied in order to a namespace
    that represents the destination's manifest, never fail on the namespace, and
    leave it representing the source's entries and nothing else of what the
    planner was given. *)

Section Converge.
Context `{Blake3} `{JsonParser} `{ContentSource} `{Destination} {laws : DestinationLaws} `{FileReads} `{ArrowCast} `{Parquet} `{ParquetWriter} `{SeriesContents}.
#[local] Set Default Proof Using "All".
Variables (root : bytes) (pond : uuid) (hidden : gmap bytes FileID) (known : bytes -> option EntryType).
Variables (g : FetchedGraph) (target : TargetPlanningState) (full : view).
Hypothesis ids : identities known.
Hypothesis genuine : verified g.
Hypothesis serves : forall h, get_blob_reader h <> Panic.
Hypothesis packed : forall h s, series g !! h = Some s -> well_packed s.
Hypothesis completes : suffixes_complete g target.
Hypothesis pull : pullable root hidden known g target full.
Hypothesis twins : twinned root g target.

#[local] Abbreviation src := (source_view g).
#[local] Abbreviation nodes := (tp_nodes target).
#[local] Abbreviation kids := (sorted_kids g root).
#[local] Abbreviation wf := (wf_view root hidden known).
#[local] Abbreviation rep := (represents root pond hidden).
#[local] Abbreviation fid := (entry_fid pond).
#[local] Abbreviation at_ := (wd root pond).
#[local] Abbreviation survive := (survivors root g target full).
#[local] Abbreviation phase := (stage root g target full).
#[local] Abbreviation run := (fold_pres (apply_op (at_ root) g)).

(** ** One directory *)

Lemma renames_applied p ops (a : apply_state) d d' :
  st_dirs (ap_store a) !! dirfid pond p = Some d -> rename_all ops d = Ok d' -> ap_wds a !! p = Some (at_ p) ->
  run (map (fun r => OpRename p r.1 r.2) ops) a = Ok (with_store a (with_dirs (<[dirfid pond p := d']> (st_dirs (ap_store a))) (ap_store a))).
Proof using Type.
  revert a d. induction ops as [|[old new] ops IH]; intros a d Hd E Hw; cbn [rename_all map fold_pres fst snd] in *.
  - injection E as <-. rewrite insert_id by done. by destruct a as [? ? []].
  - apply bind_Ok in E as (d1 & E1 & E). cbn [apply_op]. unfold parent_wd at 1. rewrite Hw. cbn [require mbind outcome_bind].
    rewrite (rename_entry_in root pond p _ d old new d1 Hd E1). cbn [fs map_err mbind outcome_bind mret outcome_ret].
    erewrite IH; [|cbn; by rewrite lookup_insert_eq|exact E|done]. cbn. by rewrite insert_insert_eq.
Qed.

(** Working directories of everything placed so far. *)
Definition wds_ok (ds ks : list bytes) (wds : gmap bytes WD) : Prop :=
  forall q e, src q = Some e -> node_type e = DirectoryPhysical -> q = root \/ parent_node_id e ∈ ds \/ q ∈ ks -> wds !! q = Some (at_ q).

Hypothesis survivors_wf : wf survive.

Section Directory.
Variables (ds : list bytes) (p : bytes).
Hypothesis fresh : p ∉ ds.
Hypothesis placed : p = root \/ exists e, src p = Some e /\ parent_node_id e ∈ ds.
Hypothesis directory : exists e, src p = Some e /\ node_type e = DirectoryPhysical.
Hypothesis earlier : forall q, q ∈ ds -> q = root \/ exists e, src q = Some e /\ parent_node_id e ∈ ds.

Lemma settled_kids ks : (forall e, e ∈ ks -> e ∈ kids p) -> settled_dirs root g ds [p] (map node_id ks).
Proof.
  intros Hk. split.
  - intros q [Hq|Hq%list_elem_of_singleton]%elem_of_app; [by apply earlier|]. by rewrite Hq.
  - intros i (e & -> & He)%list_elem_of_fmap. apply Hk, elem_of_kids in He as (Hs & Hr & Hp); [|apply (pu_keyed _ _ _ _ _ _ pull)]. exists e. split_and!; [done|done|]. rewrite Hp. set_solver.
Qed.

(** The next child is ready. *)
Lemma next_ready ks e : (forall x, x ∈ e :: ks -> x ∈ kids p) -> node_id e ∉ map node_id ks -> ready root hidden known target (phase ds [p] (map node_id ks)) e.
Proof.
  intros Hk Hn. pose proof (Hk e ltac:(set_solver)) as He. apply elem_of_kids in He as (Hs & Hr & Hp); [|apply (pu_keyed _ _ _ _ _ _ pull)].
  assert (Hstage : phase ds [p] (map node_id ks) (node_id e) = (fun m => with_name m (node_name e)) <$> survive (node_id e)).
  { unfold stage. rewrite Hs, Hp. rewrite bool_decide_false by (intros [?|[?|?]]; done). by rewrite bool_decide_true by (by apply list_elem_of_singleton). }
  unfold ready. destruct (nodes !! node_id e) as [t|] eqn:Et.
  - assert (Hm : survive (node_id e) = Some t) by (rewrite (survivors_source _ _ _ _ _ _ Hs); by apply (pu_nodes _ _ _ _ _ _ pull)).
    exists (with_name t (node_name e)). rewrite Hstage, Hm. destruct (twins _ _ _ Hs Hr Et) as [Ep Ety]. split; [done|]. split; [|done].
    unfold in_place. cbn. split_and!; [|done|done|done]. by apply (wv_key _ _ _ _ (pu_full _ _ _ _ _ _ pull)), (pu_nodes _ _ _ _ _ _ pull).
  - assert (Hm : survive (node_id e) = None).
    { rewrite (survivors_source _ _ _ _ _ _ Hs). destruct (full (node_id e)) as [t|] eqn:Ef; [|done]. pose proof (pu_seen _ _ _ _ _ _ pull _ _ _ Hs Ef). congruence. }
    rewrite Hm in Hstage. cbn [fmap option_fmap option_map] in Hstage. pose proof (stage_wf root hidden known g target full pull twins survivors_wf ds [p] (map node_id (e :: ks)) (settled_kids _ Hk)) as Hw.
    assert (Hx : phase ds [p] (map node_id (e :: ks)) (node_id e) = Some e).
    { unfold stage. rewrite Hs, bool_decide_true; [done|]. right. right. cbn. set_solver. }
    assert (Hsame : forall i, i <> node_id e -> phase ds [p] (map node_id (e :: ks)) i = phase ds [p] (map node_id ks) i).
    { intros i Hi. unfold stage. destruct (src i) as [x|]; [|done]. rewrite (bool_decide_ext (_ \/ _ \/ i ∈ map node_id (e :: ks)) (i = root \/ parent_node_id x ∈ ds \/ i ∈ map node_id ks)); [done|].
      cbn [map]. rewrite elem_of_cons. tauto. }
    split; [done| | | |].
    + by apply (wv_known _ _ _ _ (pu_source _ _ _ _ _ _ pull)).
    + destruct (wv_parent _ _ _ _ Hw _ _ Hx Hr) as (pe & Hpe & Ht). exists pe. split; [|done]. rewrite <- Hsame; [exact Hpe|]. intros E.
      pose proof placed as Hpl. rewrite <- Hp, E in Hpl. destruct Hpl as [?|(e' & He' & Hd)]; [done|]. rewrite Hs in He'. injection He' as <-. by rewrite Hp in Hd.
    + by apply (wv_name _ _ _ _ (pu_source _ _ _ _ _ _ pull) (node_id e)).
    + intros i x Hi Hir Hxp Hxn. assert (i <> node_id e) by (intros ->; congruence). rewrite <- Hsame in Hi by done.
      assert (i = node_id e) by (eapply (wv_sib _ _ _ _ Hw); [exact Hi|exact Hx|done|done|done|done]). done.
Qed.
Lemma stage_next ks e : e ∈ kids p -> forall i, upd (phase ds [p] (map node_id ks)) (node_id e) e i = phase ds [p] (map node_id (ks ++ [e])) i.
Proof.
  intros He i. apply elem_of_kids in He as (Hs & Hr & Hp); [|apply (pu_keyed _ _ _ _ _ _ pull)]. unfold upd. case_bool_decide as Ei.
  - subst i. unfold stage. rewrite Hs, bool_decide_true; [done|]. right. right. rewrite map_app. set_solver.
  - unfold stage. destruct (src i) as [x|]; [|done]. rewrite (bool_decide_ext (_ \/ _ \/ i ∈ map node_id (ks ++ [e])) (i = root \/ parent_node_id x ∈ ds \/ i ∈ map node_id ks)); [done|].
    rewrite map_app, elem_of_app. cbn [map]. rewrite list_elem_of_singleton. tauto.
Qed.

Lemma wds_next ks e (a a' : apply_state) :
  wds_ok ds (map node_id ks) (ap_wds a) ->
  ap_wds a' = (if bool_decide (node_type e = DirectoryPhysical) then <[node_id e := at_ (node_id e)]> (ap_wds a) else ap_wds a) ->
  src (node_id e) = Some e -> wds_ok ds (map node_id (ks ++ [e])) (ap_wds a').
Proof.
  intros Hw E Hs q x Hq Hx Hin. rewrite E. rewrite map_app in Hin. cbn [map] in Hin. rewrite elem_of_app, list_elem_of_singleton in Hin.
  destruct (decide (q = node_id e)) as [->|Hne].
  - replace x with e in * by congruence. rewrite bool_decide_true by done. by rewrite lookup_insert_eq.
  - assert (Hw' : ap_wds a !! q = Some (at_ q)) by (apply (Hw q x); tauto). case_bool_decide; [by rewrite lookup_insert_ne|done].
Qed.

Lemma kids_applied need todo ks ops (a : apply_state) :
  kids p = ks ++ todo -> plan_kids g target todo = Ok ops -> balanced (ops_objects g ops ++ need) (ap_prepared a) ->
  rep (phase ds [p] (map node_id ks)) (ap_store a) -> wds_ok ds (map node_id ks) (ap_wds a) ->
  ends g (fun a' => (rep (phase ds [p] (map node_id (kids p))) (ap_store a') /\ wds_ok ds (map node_id (kids p)) (ap_wds a')) /\ balanced need (ap_prepared a')) (run ops a).
Proof.
  revert ks ops a. induction todo as [|e todo IH]; intros ks ops a Ek Hp Hb Hr Hw; cbn [plan_kids] in Hp.
  { injection Hp as <-. rewrite app_nil_r in Ek. by rewrite Ek. }
  apply bind_Ok in Hp as (o1 & H1' & Hp). apply bind_Ok in Hp as (o2 & H2' & Hp). injection Hp as <-. rewrite fold_pres_app. rewrite ops_objects_app, <- app_assoc in Hb.
  pose proof (kids_nodup root g (pu_keyed _ _ _ _ _ _ pull) p) as Hnd. rewrite Ek, map_app in Hnd. cbn [map] in Hnd.
  assert (Hall : forall x, x ∈ e :: ks -> x ∈ kids p) by (intros x Hx; rewrite Ek; set_solver).
  assert (He : e ∈ kids p) by (apply Hall; set_solver). pose proof He as (Hs & Hne & Hpe)%elem_of_kids; [|apply (pu_keyed _ _ _ _ _ _ pull)].
  assert (Hrd : ready root hidden known target (phase ds [p] (map node_id ks)) e).
  { apply next_ready; [done|]. apply NoDup_app in Hnd as (_ & Hd & _). intros Hin. apply (Hd _ Hin). set_solver. }
  apply (ends_bind (kid_done root pond hidden (ops_objects g o2 ++ need) (phase ds [p] (map node_id ks)) a e)).
  - eapply kid_applied; try done.
    + apply stage_wf; [done|done|done|]. apply settled_kids. intros x Hx. apply Hall. set_solver.
    + by apply source_Some in Hs as [? _]; [|apply (pu_keyed _ _ _ _ _ _ pull)].
    + rewrite Hpe. destruct directory as (pe & Hpp & Ht). apply (Hw p pe Hpp Ht). destruct placed as [?|(e' & He' & ?)]; [by left|]. right. left. by replace pe with e' by congruence.
  - intros a' (Hr' & Hw' & Hb'). apply (IH (ks ++ [e]) o2 a').
    + by rewrite Ek, <- app_assoc.
    + done.
    + done.
    + eapply represents_ext; [|exact Hr']. by apply stage_next.
    + by eapply wds_next.
Qed.
Lemma directory_here : phase ds [] [] p = src p.
Proof.
  unfold stage. destruct placed as [->|(e & He & Hd)].
  - destruct (wv_root _ _ _ _ (pu_source _ _ _ _ _ _ pull)) as (r & -> & _). by rewrite bool_decide_true by (by left).
  - rewrite He. by rewrite bool_decide_true by (by right; left).
Qed.

Lemma stage_directory i : phase ds [p] (map node_id (kids p)) i = phase (ds ++ [p]) [] [] i.
Proof.
  unfold stage. destruct (src i) as [e|] eqn:Es; [|done]. pose proof (wv_key _ _ _ _ (pu_source _ _ _ _ _ _ pull) _ _ Es) as Hk.
  assert (Hin : i <> root -> i ∈ map node_id (kids p) <-> parent_node_id e = p).
  { intros Hr. rewrite list_elem_of_fmap. split.
    - intros (x & -> & (Hx & _ & Hp)%elem_of_kids); [|apply (pu_keyed _ _ _ _ _ _ pull)]. by replace e with x by congruence.
    - intros Hp. exists e. split; [done|]. apply elem_of_kids; [apply (pu_keyed _ _ _ _ _ _ pull)|]. by rewrite Hk. }
  destruct (decide (i = root)) as [->|Hr]; [rewrite !bool_decide_true by (by left); done|]. specialize (Hin Hr).
  rewrite (bool_decide_ext (i = root \/ parent_node_id e ∈ ds \/ i ∈ map node_id (kids p)) (i = root \/ parent_node_id e ∈ ds ++ [p] \/ i ∈ [])).
  2: { rewrite Hin, elem_of_app, list_elem_of_singleton. pose proof (not_elem_of_nil i). tauto. }
  case_bool_decide as Hd; [done|]. rewrite (bool_decide_false (_ ∈ [])) by (by apply not_elem_of_nil). rewrite bool_decide_false; [done|].
  rewrite list_elem_of_singleton. intros Ep. apply Hd. right. left. rewrite Ep. set_solver.
Qed.

(** A directory that is reached takes its place in the pulled manifest. *)
Lemma renames_spare rs : ops_objects g (map (fun r : bytes * bytes => OpRename p r.1 r.2) rs) = [].
Proof using Type. by induction rs. Qed.

Lemma directory_applied need ops (a : apply_state) :
  planned root g target p ops -> balanced (ops_objects g ops ++ need) (ap_prepared a) -> rep (phase ds [] []) (ap_store a) -> wds_ok ds [] (ap_wds a) ->
  ends g (fun a' => (rep (phase (ds ++ [p]) [] []) (ap_store a') /\ wds_ok (ds ++ [p]) [] (ap_wds a')) /\ balanced need (ap_prepared a')) (run ops a).
Proof.
  intros Hplan Hbal Hr Hw. unfold planned, plan_directory in Hplan. apply bind_Ok in Hplan as (rs & Hrs & Hplan). apply require_Ok in Hrs.
  apply bind_Ok in Hplan as (ko & Hk & E). injection E as <-. rewrite fold_pres_app. rewrite ops_objects_app, renames_spare in Hbal. destruct directory as (pe & Hpe & Ht).
  pose proof (settled_kids [] ltac:(set_solver)) as Hset. pose proof directory_here as Hhere. rewrite Hpe in Hhere.
  destruct (rp_dirs _ _ _ _ _ Hr p pe Hhere Ht) as (d & Hd & Hok).
  pose proof (rename_batch root pond hidden known g target full pull twins survivors_wf ds p Hset fresh d ltac:(by rewrite Hpe) Hok) as Hb.
  pose proof (rename_small root hidden known g target full pull p) as Hsm.
  destruct (emit_renames_spec _ _ _ Hb Hsm) as (rs' & d' & Ers & Hall & Hren). unfold intents in Ers. rewrite Hrs in Ers. injection Ers as <-.
  assert (Hwp : ap_wds a !! p = Some (at_ p)).
  { apply (Hw p pe Hpe Ht). destruct placed as [?|(e' & He' & ?)]; [by left|]. right. left. by replace pe with e' by congruence. }
  rewrite (renames_applied p rs a d d' Hd Hall Hwp). cbn [mbind outcome_bind]. eapply ends_impl.
  - eapply (kids_applied need (kids p) [] ko); [done|done|exact Hbal| |done]. cbn [with_store ap_store].
    eapply (rename_represents root pond hidden known ids (phase ds [] []) _ _ p pe); [|done|done|done| |].
    + apply stage_wf; [done|done|done|]. split; [|intros i Hi; by apply not_elem_of_nil in Hi]. intros q Hq. rewrite app_nil_r in Hq. by apply earlier.
    + exact (stage_renames root hidden known g target full pull twins survivors_wf ds p Hset fresh).
    + exact (renamed_entries root pond hidden known g target full pull twins survivors_wf ds p Hset fresh d d' Hok Hren).
  - intros a' [[Hr' Hw'] Hb']. split; [|done]. split; [by eapply represents_ext; [|exact Hr']; apply stage_directory|]. intros q x Hq Hx Hin. apply (Hw' q x Hq Hx).
    destruct Hin as [?|[Hin|Hin]]; [by left| |by apply not_elem_of_nil in Hin]. apply elem_of_app in Hin as [?|Hin%list_elem_of_singleton]; [by right; left|].
    destruct (decide (q = root)); [by left|]. right. right. pose proof (wv_key _ _ _ _ (pu_source _ _ _ _ _ _ pull) _ _ Hq) as Hk'. rewrite <- Hk'. apply list_elem_of_fmap_2.
    apply elem_of_kids; [apply (pu_keyed _ _ _ _ _ _ pull)|]. by rewrite Hk'.
Qed.
End Directory.
(** ** The walk *)

Lemma schedule_placed qs opss ds p todo : schedule root g target qs opss -> qs = ds ++ p :: todo ->
  (p = root \/ exists e, src p = Some e /\ parent_node_id e ∈ ds) /\ exists e, src p = Some e /\ node_type e = DirectoryPhysical.
Proof.
  intros Hsc E. destruct (sc_order _ _ _ _ _ Hsc _ _ _ E) as [->|(q & Hq & Hp)].
  - split; [by left|]. by apply (wv_root _ _ _ _ (pu_source _ _ _ _ _ _ pull)).
  - apply elem_of_subdirs in Hp as (e & Hs & _ & Hpe & Ht); [|apply (pu_keyed _ _ _ _ _ _ pull)]. split; [|by exists e]. right. exists e. by rewrite Hpe.
Qed.

Lemma schedule_applied need qs opss : schedule root g target qs opss ->
  forall todo opst ds (a : apply_state), Forall2 (planned root g target) todo opst -> qs = ds ++ todo ->
  balanced (ops_objects g (concat opst) ++ need) (ap_prepared a) -> rep (phase ds [] []) (ap_store a) -> wds_ok ds [] (ap_wds a) ->
  ends g (fun a' => rep (phase qs [] []) (ap_store a') /\ balanced need (ap_prepared a')) (run (concat opst) a).
Proof.
  intros Hsc. induction todo as [|p todo IH]; intros opst ds a Hf E Hb Hr Hw; inversion Hf as [|? ops ? opst' Hp Hf']; subst; cbn [concat].
  { by rewrite app_nil_r. }
  cbn [concat] in Hb. rewrite ops_objects_app, <- app_assoc in Hb. rewrite fold_pres_app.
  apply (ends_bind (fun a' => (rep (phase (ds ++ [p]) [] []) (ap_store a') /\ wds_ok (ds ++ [p]) [] (ap_wds a')) /\ balanced (ops_objects g (concat opst') ++ need) (ap_prepared a'))).
  - destruct (schedule_placed _ _ ds p todo Hsc eq_refl) as [Hpl Hdir]. apply directory_applied; [|done|done| |done|exact Hb|done|done].
    + pose proof (sc_once _ _ _ _ _ Hsc) as Hn. apply NoDup_app in Hn as (_ & Hn & _). intros Hin. apply (Hn p Hin). set_solver.
    + intros q (d1 & d2 & ->)%list_elem_of_split. rewrite <- app_assoc in Hsc. destruct (schedule_placed _ _ d1 q _ Hsc eq_refl) as [[?|(e & He & Hd)] _]; [by left|]. right. exists e. set_solver.
  - intros a' [[Hr' Hw'] Hb']. apply (IH opst' (ds ++ [p]) a'); [done|by rewrite <- app_assoc|done|done|done].
Qed.

Lemma phase_end qs opss i : schedule root g target qs opss -> phase qs [] [] i = converged g target full i.
Proof.
  intros Hsc. destruct (src i) as [e|] eqn:Es.
  - unfold stage, converged. rewrite Es. rewrite bool_decide_true; [done|]. destruct (decide (i = root)) as [|Hr]; [by left|]. right. left.
    destruct (wv_parent _ _ _ _ (pu_source _ _ _ _ _ _ pull) i e Es Hr) as (pe & Hp & Hpt). by eapply (all_taken root hidden known g target full).
  - rewrite <- (survivors_converged root hidden known g target full pull twins i Es). unfold stage. by rewrite Es.
Qed.

(** Before the first directory only the root's entry is the source's. *)
Lemma phase_start st : rep survive st -> rep (phase [] [] []) st.
Proof.
  intros Hr. destruct (wv_root _ _ _ _ (pu_source _ _ _ _ _ _ pull)) as (r & Hs & Ht). destruct (wv_root _ _ _ _ survivors_wf) as (m & Hm & Hmt).
  destruct (pu_root _ _ _ _ _ _ pull r (or_introl Hs)) as [Er1 Er2]. destruct (pu_root _ _ _ _ _ _ pull m (or_intror (survivors_full _ _ _ _ _ _ Hm))) as [Em1 Em2].
  apply (represents_ext root pond hidden (upd survive root r)).
  - intros i. unfold upd. case_bool_decide as Ei; [subst i; unfold stage; rewrite Hs; by rewrite bool_decide_true by (by left)|].
    unfold stage. destruct (src i) as [e|]; [|done]. rewrite bool_decide_false by (by intros [?|[?%not_elem_of_nil|?%not_elem_of_nil]]). by rewrite bool_decide_false by (by apply not_elem_of_nil).
  - eapply (refresh_represents root pond hidden known ids survive m r root st); [done|done|done| |done|apply (rp_typed _ _ _ _ _ Hr)| |done].
    + unfold in_place. split_and!; [|congruence..]. by rewrite (wv_key _ _ _ _ survivors_wf _ _ Hm), (wv_key _ _ _ _ (pu_source _ _ _ _ _ _ pull) _ _ Hs).
    + unfold leaf_ok. by rewrite Ht.
Qed.
End Converge.

Section Pull.
Context `{Blake3} `{JsonParser} `{ContentSource} `{Destination} {laws : DestinationLaws} `{FileReads} `{ArrowCast} `{Parquet} `{ParquetWriter} `{SeriesContents}.
#[local] Set Default Proof Using "All".

Lemma deletes_spare g nodes l ops : delete_ops nodes l = Some ops -> ops_objects g ops = [].
Proof using Type.
  revert ops. induction l as [|[n e] l IH]; intros ops E; cbn [delete_ops] in E; [by injection E as <-|]. apply bind_Some in E as (path & _ & E). apply bind_Some in E as (rest & Hrest & E).
  injection E as <-. unfold ops_objects in *. cbn [map concat op_objects app]. by apply IH.
Qed.

Lemma plan_lands root pond hidden known g target full values name ops o objects st :
  identities known -> verified g -> (forall h, get_blob_reader h <> Panic) -> (forall h s, series g !! h = Some s -> well_packed s) ->
  suffixes_complete g target -> pullable root hidden known g target full ->
  values ≡ₚ map snd (map_to_list (tp_nodes target)) -> represents root pond hidden full st ->
  plan_node_diff g target name values = Ok (ops, o) -> prepare_pack_objects ops g = Ok objects ->
  ends g (fun a => represents root pond hidden (converged g target full) (ap_store a)) (apply_ops root (wd root pond root) g ops objects st).
Proof.
  intros ids genuine serves packed completes pull Hv Hr E Hprep%prepare_balanced. unfold plan_node_diff in E. rewrite (source_root root hidden known g target full pull) in E. cbn [mbind outcome_bind] in E.
  apply bind_Ok in E as (dels & Hd & E). apply bind_Ok in E as (rest & Hrest & E). injection E as <- <-.
  destruct (plan_scheduled root g target (pu_keyed _ _ _ _ _ _ pull) _ _ _ Hrest) as (qs & opss & Hsc & Eops). rewrite Eops in *.
  pose proof (scheduled_twins root hidden known g target full pull qs opss Hsc) as twins.
  assert (Hsp : ops_objects g dels = []).
  { unfold plan_deletions in Hd. apply require_Ok in Hd. apply bind_Some in Hd as (l & _ & Hd). by eapply deletes_spare. }
  rewrite ops_objects_app, Hsp in Hprep. cbn [app] in Hprep. rewrite <- (app_nil_r (ops_objects g (concat opss))) in Hprep.
  unfold apply_ops. set (a0 := {| ap_wds := _; ap_prepared := _; ap_store := _ |}). rewrite fold_pres_app.
  destruct (plan_deletions_applied root pond hidden known g target full ids pull twins values dels a0 Hv Hd Hr) as (st1 & -> & Hw1 & Hr1). cbn [mbind outcome_bind].
  apply (ends_bind (fun a => represents root pond hidden (converged g target full) (ap_store a) /\ balanced [] (ap_prepared a))).
  - eapply ends_impl.
    + eapply (schedule_applied root pond hidden known g target full ids genuine serves packed completes pull twins Hw1 [] qs opss Hsc qs opss []); [apply Hsc|done|exact Hprep| |].
      * by eapply phase_start.
      * intros q e Hq _ [->|[?%not_elem_of_nil|?%not_elem_of_nil]]; [|done|done]. cbn. by rewrite lookup_singleton_eq.
    + intros a' [Hr' Hb']. split; [|done]. eapply represents_ext; [|exact Hr']. intros i. by eapply phase_end.
  - intros a' [Hr' [Hu Hc]%balanced_end]. rewrite !bool_decide_true by done. done.
Qed.
End Pull.
